(* ===== verification/_CoqProject ===== *)
-Q . S2P
Prelude.v
GoIO.v
GoStrings.v
GoNet.v
Frames.v
Netblock.v
Addresses.v
Allowlist.v
ClientIP.v
DecryptScope.v
Requirements.v
Datagram.v
Sessions.v
Decider.v
Decrypt.v
Authz.v
Ingress.v
Throttle.v
Credseal.v
Token.v
Socks.v
Services.v
ServiceSamples.v
ServiceHolds.v
ServiceSafety.v
ServiceReload.v
ServiceUses.v
Flows.v
FlowsSafety.v
FlowsCurrent.v
Prog.v
ProgLog.v
Identity.v
IdentitySamples.v
IdentityLogin.v
IdentityTokens.v
Calls.v
Cloudflare.v
CloudflarePlan.v
CloudflareSync.v
CloudflareSafety.v
CloudflareHistory.v
Endpoints.v
Gateway.v
GatewaySafety.v
GatewayHistory.v
GatewaySamples.v
Proxy.v
ProxySafety.v
ProxyTLS.v
EgressHandler.v
EgressSNI.v
EgressSafety.v
BridgeSafety.v
EgressSamples.v
Credentials.v
Api.v
ApiPeople.v
ApiResources.v
ApiEndpoints.v
ApiOAuth.v
ApiRoutes.v
ApiScope.v
ApiAuthority.v
ApiLogins.v
ApiSamples.v
