(* ===== verification/Prelude.v ===== *)
(** * mishmesh: a verification library

    mishmesh exposes services behind agents. A server process (cmd/mishmesh-server)
    holds the control plane, the gateway that agents connect to, the public ingress and
    the stores; an agent process (cmd/mishmesh-agent) keeps a tunnel to the gateway,
    starts and stops local services, and sends the traffic of local programs out through
    an egress proxy. What makes it correct is spread over small stateful parts: parsers
    of wire formats, guards on addresses and names, caches that must follow policy
    flushes, and goroutines that share tables under a mutex. This library models those
    parts and proves what each promises to the others.

    ** How the code is represented

    - A Go [string] is [string] (its bytes), a [[]byte] is [list byte]; lengths and
      integers are [Z] or [nat], with wrap-around written out where the code can reach it
      (the frame lengths, the 64-bit counters and epochs, saturating [time.Time.Sub]).
      A time is nanoseconds in [Z].
    - A fallible function returns [res] ([Ok]/[Fail] with a [goerr]) or an option, an
      error of its own or a sum; the text of an error is kept where a client sees it.
    - Concurrent code is a machine: the shared objects are a record, every goroutine or
      call in progress has a program counter, and [step] runs one atomic section (what is
      between taking and releasing a mutex, or one channel or atomic operation). [step]
      is a function from an event to an optional next state, so runs evaluate; the event
      carries every choice of the scheduler and every answer of the environment, which
      is thereby unrestricted. Theorems about machines hold in all reachable states.
    - Code outside the repository is a type class with its operations ([UnicodeLower],
      [UnicodeQuote], [Codec], [X509], [Cedar], [HPKE], [Ed25519], [HelloParser]), and what
      is relied on is a class of laws beside it; every theorem under such laws is applied
      to an instance.

    ** The parts, the files and the theorems

    Foundations.
    - [Prelude]: notations, tactics, the hint database [mish], sorting, durations.
    - [GoIO]: errors, byte streams, big-endian integers. [GoStrings]: strings and
      strconv. [GoNet]: addresses, networks, host:port texts.

    Wire formats (internal/tunnel).
    - [Frames]: control frames, stream errors, egress replies, exit targets, datagram
      frames. [Framing] is the contract of a writer and a reader; a sequence of frames
      written is the sequence read, through any split of the stream.
    - [Datagram]: [DatagramListener] ([Listener]) and [RelayDatagrams] ([Relay]). A flow
      forwards the datagrams of its own client in order, queues and flows are bounded,
      idle flows are reclaimed, and an idle relay returns.

    Guards.
    - [Netblock] (internal/netblock): an address that embeds a blocked one is blocked.
    - [Allowlist] (agent/allowlist.go): [Resolve] gives exactly the checked addresses.
    - [ClientIP] (internal/clientip): hops a client forged do not change the answer.
    - [DecryptScope] (internal/decryptscope): the hosts the agent decrypts are exactly
      those the issued certificates are constrained to.
    - [Socks] (agent/socks.go): the request parser is exact, and only what the classifier
      allows is opened.
    - [Throttle] (connect/sshfwd/throttle.go): the table of windows against the history of
      failures.

    Identity and secrets.
    - [Token] (internal/token): signing and verifying, base64url and hex. What verifies
      was signed by a key of the ring, and what is signed verifies.
    - [Credseal] (internal/credseal): a sealed credential opens for one binding.
    - [Sessions] (internal/store/memory): the session store with its indexes and pruning
      refines the contract of the interface; the connection store.
    - [Prog], [ProgLog]: calls over the session store. A method is a tree of actions
      (reading the clock, drawing random bytes, operations of the store, publishing); the
      machine interleaves any number of calls on one store, whose operations may fail
      before or after they took effect, and logs every action. [obeys] is what a program
      does before each operation and when it returns; from it and the store follow where
      a value that was read or taken came from, and that it was taken once.
    - [Identity] (internal/identity): every method of the service as such a program:
      sessions, revocation, authorization codes, device logins, consents, agent tokens.
      [IdentityLogin]: a code is redeemed by whom it was granted to, a consent is decided
      and a device login is handed out once. [IdentityTokens]: a token speaks for the
      principal it was issued to, a refresh token is spent once, a revoked session stays
      revoked, a refresh ends. [IdentitySamples]: runs of it.

    Decisions.
    - [Authz] (internal/authz): requests, facts, entities, contexts, scopes, credential
      selection, the policy cache. The part of a request a policy set does not mention
      does not change the decision, which is what lets an agent cache it.
    - [Decider] (agent/decisions.go, rpc_table.go): the cache of decisions on the agent,
      with sessions, flushes and callers interleaved. A cached answer was given after the
      last flush, for the same scope; answers do not cross sessions.
    - [Decrypt] (agent/decrypt_state.go, decrypt_manager.go): certificates, the leaf cache
      and the manager of the current intermediate.
    - [Ingress] (internal/ingress): keyed locks, the endpoint cache, the usage meter.
    - [Flows], [FlowsSafety], [FlowsCurrent] (connect/flows): the tracker of live flows.
      [Flows] is the machine; [FlowsSafety] its structural invariants; [FlowsCurrent] what
      it promises: after a flush every flow concerned is re-checked or cut, a flow whose
      decision is older than a flush is re-checked before it is confirmed, a revoked flow
      gets no further connection and loses those it has, sessions are swept.

    Services on the agent (internal/services).
    - [Requirements] (store/requirements.go): the search decides whether a graph of
      requirements resolves and is acyclic, and reports a cycle that exists.
    - [Services]: the manager as one machine: acquire, start runs with requirement wakes,
      stops, idle stops, reloads, refreshes, reservations. [ServiceSamples]: runs of it.
      [ServiceHolds] and [ServiceSafety]: the invariant of holds and dependents and its
      preservation by every step; a start holds all it requires, a driver is driven by one
      goroutine at a time. [ServiceReload] and [ServiceUses]: uses and reservations; an
      idle stop spares services in use, nothing but its own action changes what a
      reservation found, registered services are well formed.

    Agents at the gateway (internal/gateway).
    - [Calls]: programs over calls with any answers, and what is known at every call.
    - [Endpoints] (internal/store, subdomain, endpointurl): the records of agents and
      endpoints with their checks.
    - [Gateway]: sessions of agents, registrations, questions, flushes and the sweep as
      goroutines on one connection store. [GatewaySafety]: what each program may call.
      [GatewayHistory]: an agent serves its own endpoints, leaves the fields of the control
      plane alone, endpoints are deleted when abandoned, flushes reach every session.
      [GatewaySamples]: runs of it, one of which shows that the end of an old session can
      delete the endpoint of a new one.

    Traffic through the server (internal/connect).
    - [Addresses]: the texts of addresses: what is printed parses to the same address.
    - [Proxy] (connect/proxy): targets, the guard, TLS settings and their cache, dialing,
      the order of targets, opening streams and the start-up. [ProxySafety]: whatever the
      resolver answers, only addresses the guard admits are dialled, an address that was
      resolved is dialled as it is, and a stream reaches its own targets. [ProxyTLS]: calls
      interleaved on the shared cache get the settings of their own origin as long as no
      CA text contains a NUL byte, and a sticky order does not depend on absent targets.
    - [EgressHandler] (connect/egress, connect/bridge, connect/decision.go): an egress
      stream from its metadata to its access record, decisions about requests, the
      release of credentials, and streams to endpoints of other agents, as programs over
      the calls they make. A dialer is a record of operations; [DialerLaws] is what the
      handler relies on, which the guard of [Proxy] discharges. [EgressSafety]: an egress
      stream is connected to what policy allowed, is copied in an attached flow, and
      leaves a record. [BridgeSafety]: a credential is released to the agent, for the host
      and to the key policy and its record name, and a stream reaches endpoints of its own
      organization that policy allowed.
    - [EgressSNI] (connect/egress/sni.go): the reader that shows the server name of a TLS
      stream before anything is passed on. [EgressSamples]: runs of all of these.

    Publishing hostnames (internal/cloudflare).
    - [Cloudflare]: the data and the pure parts: normal forms, the ingress plan, the
      record of what this server created, Access objects, wanted hostnames.
      [CloudflarePlan]: a plan applied needs no further change; a merged Access policy
      keeps what administrators added.
    - [CloudflareSync]: [Sync], [AddHostname] and [RemoveHostname] as programs over the
      calls they make; any answer is possible. [CloudflareSafety]: a program logic for
      them, with the invariant that everything recorded was created, and what every call
      may touch. [CloudflareHistory]: operations one after the other with restarts
      anywhere: what is deleted, replaced or dropped was created by this server and is
      unwanted, a change of a hostname touches that hostname only.

    The parts meet in the statements: [Decider] caches by the scopes of [Authz]; [Decrypt]
    uses [DecryptScope]; [Socks] uses the verdict of [Decrypt]; [Allowlist] uses
    [Netblock]; [Services] validates with [Requirements]; the calls of [Identity] run on
    the store of [Sessions] and sign with [Token]; the publisher of [CloudflareSync] runs
    the plan and the ownership record of [Cloudflare]; [Gateway] uses the connection store
    of [Sessions] and gives the answers of [Decider]; [Proxy] admits addresses by
    [Netblock]; [EgressHandler] dials through the guard of [Proxy], asks with the requests
    of [Authz], seals with [Credseal] and answers what [Decider] caches.

    ** Bounds and fuel

    Functions are structural except three. The depth-first search of [Requirements] is
    given one unit of fuel more than there are services, which is proved enough; the
    recursion of [IPAllowed] is two levels deep, since an embedded address embeds nothing,
    and satisfies the equation of the Go method; the parser of IPv6 texts reads at most
    eight groups. No machine has a bound on the number of
    goroutines, connections or steps. Theorems about 64-bit counters assume fewer than
    [2^64] steps.

    ** Not modelled

    HTTP handlers and their routing (internal/controlplane, the request path of
    internal/ingress), TLS, SSH, OIDC and YAML libraries and the code that only calls
    them; SQL and Redis stores, whose behaviour is in the database; drivers that call the
    Docker API or host commands; process wiring, flags, logs and metrics; the web
    dashboard. Of the modelled parts: JSON texts (a codec is a parameter), the text of log
    lines, building a service manager from files on disk, and the HTTP client, the process
    supervisor and the metrics reader of the Cloudflare publisher. *)

From Stdlib Require Export ZArith Lia Ascii String Sorted.
From stdpp Require Export base gmap strings list pretty.

Declare Scope go_scope.
Delimit Scope go_scope with go.

Create HintDb mish.
Create Rewrite HintDb mish.

(** ** Tactics *)

(** [go_cases] performs the case analysis of the guards of a Go body: it
    destructs the scrutinee of every [match] and [if] in the goal, keeping
    the equations, and closes the branches that contradict a hypothesis. *)
Ltac go_cases :=
  repeat (case_match; simplify_eq/=; try congruence).

(** Turns the boolean tests of the code into propositions. *)
Ltac bool_to_prop :=
  repeat match goal with
  | H : (_ && _)%bool = true |- _ => apply andb_true_iff in H as [? ?]
  | H : (_ || _)%bool = false |- _ => apply orb_false_iff in H as [? ?]
  | H : negb _ = true |- _ => apply negb_true_iff in H
  | H : negb _ = false |- _ => apply negb_false_iff in H
  | H : (_ <? _)%Z = true |- _ => apply Z.ltb_lt in H
  | H : (_ <? _)%Z = false |- _ => apply Z.ltb_ge in H
  | H : (_ <=? _)%Z = true |- _ => apply Z.leb_le in H
  | H : (_ <=? _)%Z = false |- _ => apply Z.leb_gt in H
  | H : (_ =? _)%Z = true |- _ => apply Z.eqb_eq in H
  | H : (_ =? _)%Z = false |- _ => apply Z.eqb_neq in H
  | H : bool_decide _ = true |- _ => apply bool_decide_eq_true in H
  | H : bool_decide _ = false |- _ => apply bool_decide_eq_false in H
  end.

(** A list ends either before or after an element of its extension. *)
Lemma snoc_split {A} (l l1 l2 : list A) (x y : A) :
  l ++ [x] = l1 ++ y :: l2 -> (l2 = [] /\ x = y /\ l = l1) \/ exists l2', l2 = l2' ++ [x] /\ l = l1 ++ y :: l2'.
Proof.
  destruct l2 as [|z l2] using rev_ind; intros E.
  - left. apply app_inj_tail in E as [-> ->]. done.
  - right. exists l2. change (y :: l2 ++ [z]) with ((y :: l2) ++ [z]) in E.
    rewrite app_assoc in E. apply app_inj_tail in E as [-> ->]. done.
Qed.

(** ** Lists with lengths in Z

    Go's [len] is a 64-bit [int]; lengths are compared with constants such
    as [1 << 20], so they live in [Z]. *)
Definition len {A} (l : list A) : Z := Z.of_nat (length l).

Lemma len_nonneg {A} (l : list A) : (0 <= len l)%Z.
Proof. unfold len. lia. Qed.

Lemma len_nil {A} : len (@nil A) = 0%Z.
Proof. done. Qed.

Lemma len_cons {A} (x : A) l : len (x :: l) = (1 + len l)%Z.
Proof. unfold len. simpl. lia. Qed.

Lemma len_app {A} (l k : list A) : len (l ++ k) = (len l + len k)%Z.
Proof. unfold len. rewrite length_app. lia. Qed.

Lemma len_to_nat {A} (l : list A) : Z.to_nat (len l) = length l.
Proof. unfold len. lia. Qed.

#[export] Hint Resolve len_nonneg : mish.
#[export] Hint Rewrite @len_nil @len_cons @len_app @len_to_nat : mish.

Lemma take_exact {A} (l k : list A) n : n = length l -> take n (l ++ k) = l.
Proof. intros ->. apply take_app_length. Qed.

Lemma drop_exact {A} (l k : list A) n : n = length l -> drop n (l ++ k) = k.
Proof. intros ->. apply drop_app_length. Qed.

Lemma len_take_le {A} (l : list A) n : (len (take n l) <= Z.of_nat n)%Z.
Proof. unfold len. rewrite length_take. lia. Qed.

(** Two suffixes of the same list are comparable. *)
Lemma suffix_comparable {A} (l1 l2 l : list A) :
  l1 `suffix_of` l -> l2 `suffix_of` l -> length l1 <= length l2 -> l1 `suffix_of` l2.
Proof.
  intros [k1 E1] [k2 E2] Hlen. subst l.
  assert (Hk : length k2 <= length k1).
  { apply (f_equal length) in E2. rewrite !length_app in E2. lia. }
  exists (drop (length k2) k1).
  apply (f_equal (drop (length k2))) in E2.
  rewrite drop_app_length in E2. rewrite <- E2.
  rewrite drop_app_le by lia. done.
Qed.

(** A partial map whose results determine their argument keeps lists free of
    duplicates. *)
Lemma NoDup_omap_inv {A B} (f : A -> option B) (g : B -> A) l :
  (forall x y, x ∈ l -> f x = Some y -> g y = x) -> NoDup l -> NoDup (omap f l).
Proof.
  intros Hg Hl. induction Hl as [|x l Hx Hl IH]; simpl; [constructor|].
  assert (IH' : NoDup (omap f l)) by (apply IH; intros; apply Hg; [by right|done]).
  destruct (f x) as [y|] eqn:E; [|done]. constructor; [|done].
  intros (z & Hz & Ez)%list_elem_of_omap. apply Hx.
  rewrite <- (Hg x y), (Hg z y); [done|by right|done|by left|done].
Qed.

(** ** Sorting

    [slices.Sort], [sort.Slice] and [slices.SortStableFunc]: a stable sort,
    which agrees with the unstable ones when no two elements compare equal. *)
Section Sort.
Context {A : Type} (leb : A -> A -> bool).

Fixpoint insert_sorted (x : A) (l : list A) : list A :=
  match l with
  | [] => [x]
  | y :: l' => if leb x y then x :: l else y :: insert_sorted x l'
  end.

Fixpoint sort_by (l : list A) : list A :=
  match l with
  | [] => []
  | x :: l' => insert_sorted x (sort_by l')
  end.

Lemma insert_sorted_perm x l : insert_sorted x l ≡ₚ x :: l.
Proof.
  induction l as [|y l IH]; simpl; [done|]. destruct (leb x y); [done|].
  rewrite IH. constructor.
Qed.

Lemma sort_by_perm l : sort_by l ≡ₚ l.
Proof. induction l as [|x l IH]; simpl; [done|]. by rewrite insert_sorted_perm, IH. Qed.

Lemma elem_of_sort_by x l : x ∈ sort_by l <-> x ∈ l.
Proof. by rewrite (sort_by_perm l). Qed.

Lemma NoDup_sort_by l : NoDup (sort_by l) <-> NoDup l.
Proof. by rewrite (sort_by_perm l). Qed.

Definition leb_rel (x y : A) : Prop := leb x y = true.

Context (leb_total : forall x y, leb x y = true \/ leb y x = true).
Context (leb_trans : forall x y z, leb x y = true -> leb y z = true -> leb x z = true).

Lemma insert_sorted_StronglySorted x l :
  StronglySorted leb_rel l -> StronglySorted leb_rel (insert_sorted x l).
Proof using leb_total leb_trans.
  induction 1 as [|y l Hl IH Hy]; simpl; [by repeat constructor|].
  destruct (leb x y) eqn:E.
  - constructor; [by constructor|]. constructor; [done|].
    eapply Forall_impl; [exact Hy|]. intros z Hz. by eapply leb_trans.
  - constructor; [done|]. rewrite insert_sorted_perm. constructor; [|done].
    destruct (leb_total x y); [congruence|done].
Qed.

Lemma sort_by_StronglySorted l : StronglySorted leb_rel (sort_by l).
Proof using leb_total leb_trans.
  induction l; simpl; [constructor|by apply insert_sorted_StronglySorted].
Qed.

Lemma sort_by_id l : StronglySorted leb_rel l -> sort_by l = l.
Proof.
  induction 1 as [|x l Hl IH Hx]; simpl; [done|]. rewrite IH.
  destruct l as [|y l]; simpl; [done|]. inversion Hx as [|? ? Hxy _]; subst.
  unfold leb_rel in Hxy. by rewrite Hxy.
Qed.
End Sort.

(** A separator that is in neither prefix determines both sides. *)
Lemma app_sep_inj {A} (c : A) a b x y :
  c ∉ a -> c ∉ b -> a ++ c :: x = b ++ c :: y -> a = b /\ x = y.
Proof.
  revert b. induction a as [|z a IH]; intros [|w b] Ha Hb; simpl; intros E; simplify_eq; [done| | |].
  - exfalso. apply Hb. by left.
  - exfalso. apply Ha. by left.
  - rewrite not_elem_of_cons in Ha, Hb. destruct (IH b) as [-> ->]; tauto.
Qed.

Lemma omap_ext_Forall {A B} (f g : A -> option B) l :
  Forall (fun x => f x = g x) l -> omap f l = omap g l.
Proof.
  induction 1 as [|x l Hx _ IH]; [done|]. cbn [omap list_omap] in *. rewrite Hx.
  destruct (g x); [f_equal|]; exact IH.
Qed.

(** ** Time

    A [time.Time] is its nanoseconds; [t.Sub(u)] saturates at the limits of
    [time.Duration]. *)
Definition maxDuration : Z := 2 ^ 63 - 1.
Definition minDuration : Z := - 2 ^ 63.
Definition time_sub (t u : Z) : Z := Z.max minDuration (Z.min maxDuration (t - u)).

(** An [int64] keeps the low sixty-four bits. *)
Definition wrap64 (z : Z) : Z := ((z + 2 ^ 63) mod 2 ^ 64 - 2 ^ 63)%Z.

(** A [time.Time] is nanoseconds since the zero time, January 1 of year 1. [Unix] is the
    method, [time_Unix] the function [time.Unix(sec, 0)], whose sum may wrap. *)
Definition unixToInternal : Z := 62135596800.
Definition Unix (t : Z) : Z := (t / 1000000000 - unixToInternal)%Z.
Definition time_Unix (sec : Z) : Z := (wrap64 (sec + unixToInternal) * 1000000000)%Z.

(** [Duration.Round], half away from zero, saturating. *)
Definition dur_round (d m : Z) : Z :=
  if (m <=? 0)%Z then d
  else
    let r := Z.rem d m in
    if (d <? 0)%Z
    then let r := (- r)%Z in
         if (r + r <? m)%Z then (d + r)%Z else Z.max minDuration (d - m + r)%Z
    else if (r + r <? m)%Z then (d - r)%Z else Z.min maxDuration (d + m - r)%Z.
