(* ===== verification/GoIO.v ===== *)
(** * Go's errors, bytes and byte streams

    What the tunnel code uses of Go's standard library: [errors.New],
    [fmt.Errorf] with [%w] and [errors.Is]; [[]byte] and [string] as byte
    sequences; [encoding/binary]'s big-endian integers; [io.Reader] with
    [io.ReadFull], [bufio.Reader.Peek]; [io.Writer.Write]. *)
From S2P Require Import Prelude.

(** ** Errors *)

(** An error is created once by [errors.New] (two sentinels with different
    texts are different errors), wraps another one with [%w], or wraps two. *)
Inductive goerr :=
| ENew (text : string)
| EWrap (pre : string) (inner : goerr) (post : string)
| EBoth (a : goerr) (sep : string) (b : goerr).

#[export] Instance goerr_eq_dec : EqDecision goerr.
Proof. solve_decision. Defined.

(** [errors.Is]. *)
Fixpoint errIs (e target : goerr) : bool :=
  bool_decide (e = target) ||
  match e with
  | ENew _ => false
  | EWrap _ inner _ => errIs inner target
  | EBoth a _ b => errIs a target || errIs b target
  end.

(** [err.Error()]. *)
Fixpoint errText (e : goerr) : string :=
  match e with
  | ENew t => t
  | EWrap pre inner post => pre +:+ errText inner +:+ post
  | EBoth a sep b => errText a +:+ sep +:+ errText b
  end.

(** [errors.Join] of a non-empty list, which starts with [e]. *)
Fixpoint errors_Join (e : goerr) (errs : list goerr) : goerr :=
  match errs with
  | [] => EWrap "" e ""
  | e' :: errs' => EBoth e (String (ascii_of_N 10) "") (errors_Join e' errs')
  end.

Lemma errIs_refl e : errIs e e = true.
Proof. destruct e; simpl; rewrite bool_decide_true; done. Qed.

#[export] Hint Resolve errIs_refl : mish.

(** ** Results *)

(** A Go function returning [(T, error)]. *)
Inductive res (A : Type) :=
| Ok (a : A)
| Fail (e : goerr).
Arguments Ok {A} a.
Arguments Fail {A} e.

Definition res_bind {A B} (r : res A) (f : A -> res B) : res B :=
  match r with Ok a => f a | Fail e => Fail e end.

Definition is_Ok {A} (r : res A) : bool :=
  match r with Ok _ => true | Fail _ => false end.

Notation "'try' x ':=' c 'in' k" := (res_bind c (fun x => k))
  (at level 10, x pattern, c at level 100, k at level 200) : go_scope.

Lemma res_bind_Ok {A B} (r : res A) (f : A -> res B) b :
  res_bind r f = Ok b <-> exists a, r = Ok a /\ f a = Ok b.
Proof.
  destruct r as [a|e]; simpl.
  - split; [eauto|]. by intros (a' & [= ->] & Hf).
  - split; [done|]. by intros (a' & Ha & _).
Qed.

(** ** Bytes *)

(** A byte is an 8-bit character, so a Go [string] is Rocq's [string] and a
    [[]byte] is a list of characters. *)
Abbreviation byte := ascii.

Definition bytes_of (s : string) : list byte := list_ascii_of_string s.
Definition string_of (l : list byte) : string := string_of_list_ascii l.

Lemma string_of_bytes_of s : string_of (bytes_of s) = s.
Proof. apply string_of_list_ascii_of_string. Qed.

Lemma bytes_of_string_of l : bytes_of (string_of l) = l.
Proof. apply list_ascii_of_string_of_list_ascii. Qed.

Lemma bytes_of_inj s t : bytes_of s = bytes_of t -> s = t.
Proof. intros E. by rewrite <- (string_of_bytes_of s), E, string_of_bytes_of. Qed.

(** [len(s)] of a string. *)
Definition slen (s : string) : Z := len (bytes_of s).

Definition byteZ (b : byte) : Z := Z.of_N (N_of_ascii b).

(** The conversion [byte(n)] keeps the low eight bits. *)
Definition Zbyte (z : Z) : byte := ascii_of_N (Z.to_N (z mod 256)).

Lemma byteZ_range b : (0 <= byteZ b < 256)%Z.
Proof.
  unfold byteZ. pose proof (N_ascii_bounded b) as Hb. lia.
Qed.

Lemma byteZ_Zbyte z : byteZ (Zbyte z) = (z mod 256)%Z.
Proof.
  unfold byteZ, Zbyte. pose proof (Z.mod_pos_bound z 256 eq_refl) as Hz.
  rewrite N_ascii_embedding by lia. lia.
Qed.

Lemma Zbyte_byteZ b : Zbyte (byteZ b) = b.
Proof.
  unfold Zbyte. rewrite Z.mod_small by apply byteZ_range.
  unfold byteZ. rewrite N2Z.id. apply ascii_N_embedding.
Qed.

(** ** Big-endian integers ([encoding/binary.BigEndian]) *)

Fixpoint be_put (n : nat) (z : Z) : list byte :=
  match n with
  | O => []
  | S n' => Zbyte (Z.shiftr z (8 * Z.of_nat n')) :: be_put n' z
  end.

Fixpoint be_get (l : list byte) : Z :=
  match l with
  | [] => 0
  | b :: l' => Z.lor (Z.shiftl (byteZ b) (8 * len l')) (be_get l')
  end.

Definition PutUint16 (z : Z) : list byte := be_put 2 z.
Definition PutUint32 (z : Z) : list byte := be_put 4 z.

Lemma length_be_put n z : length (be_put n z) = n.
Proof. induction n as [|n IH]; simpl; congruence. Qed.

Lemma len_be_put n z : len (be_put n z) = Z.of_nat n.
Proof. unfold len. by rewrite length_be_put. Qed.

Lemma be_get_put n z : be_get (be_put n z) = (z mod 2 ^ (8 * Z.of_nat n))%Z.
Proof.
  induction n as [|n IH]; [by rewrite Z.mod_1_r|].
  cbn [be_put be_get]. rewrite IH, len_be_put, byteZ_Zbyte.
  change 256%Z with (2 ^ 8)%Z. rewrite <- !Z.land_ones by lia.
  apply Z.bits_inj'. intros i Hi.
  rewrite Z.lor_spec, Z.shiftl_spec, !Z.land_spec by done.
  destruct (Z.lt_ge_cases i (8 * Z.of_nat n)) as [Hlt|Hge].
  - rewrite !(Z.testbit_neg_r _ (i - 8 * Z.of_nat n)) by lia.
    rewrite !Z.ones_spec_low by lia. simpl. done.
  - rewrite (Z.ones_spec_high (8 * Z.of_nat n)) by lia.
    rewrite Z.shiftr_spec by lia. rewrite andb_false_r, orb_false_r.
    replace (i - 8 * Z.of_nat n + 8 * Z.of_nat n)%Z with i by lia.
    f_equal. destruct (Z.lt_ge_cases i (8 * Z.of_nat (S n))) as [H1|H1].
    + rewrite !Z.ones_spec_low by lia. done.
    + rewrite !Z.ones_spec_high by lia. done.
Qed.

Lemma Uint16_roundtrip z : (0 <= z < 65536)%Z -> be_get (PutUint16 z) = z.
Proof. intros Hz. unfold PutUint16. rewrite be_get_put. by apply Z.mod_small. Qed.

Lemma Uint32_roundtrip z : (0 <= z < 4294967296)%Z -> be_get (PutUint32 z) = z.
Proof. intros Hz. unfold PutUint32. rewrite be_get_put. by apply Z.mod_small. Qed.

Lemma be_get_nonneg l : (0 <= be_get l)%Z.
Proof.
  induction l as [|b l IH]; simpl; [done|].
  apply Z.lor_nonneg. split; [|done].
  apply Z.shiftl_nonneg. pose proof (byteZ_range b). lia.
Qed.

Lemma be_get_bound l : (be_get l < 2 ^ (8 * len l))%Z.
Proof.
  induction l as [|b l IH]; [done|]. cbn [be_get]. rewrite len_cons.
  pose proof (byteZ_range b) as Hb. pose proof (be_get_nonneg l) as Hl.
  pose proof (len_nonneg l) as Hlen.
  assert (Hd : Z.land (Z.shiftl (byteZ b) (8 * len l)) (be_get l) = 0%Z).
  { apply Z.bits_inj'. intros i Hi. rewrite Z.land_spec, Z.bits_0.
    destruct (Z.lt_ge_cases i (8 * len l)).
    - by rewrite Z.shiftl_spec_low by lia.
    - rewrite <- (Z.mod_small (be_get l) (2 ^ (8 * len l))) by lia.
      rewrite Z.mod_pow2_bits_high by lia. apply andb_false_r. }
  rewrite <- Z.lxor_lor, <- Z.add_nocarry_lxor by done.
  rewrite Z.shiftl_mul_pow2 by lia.
  replace (8 * (1 + len l))%Z with (8 + 8 * len l)%Z by lia.
  rewrite Z.pow_add_r by lia. nia.
Qed.

Lemma Zbyte_bits z1 z2 :
  (forall i, (0 <= i < 8)%Z -> Z.testbit z1 i = Z.testbit z2 i) -> Zbyte z1 = Zbyte z2.
Proof.
  intros Hb. unfold Zbyte. do 2 f_equal. change 256%Z with (2 ^ 8)%Z.
  apply Z.bits_inj'. intros i Hi. destruct (Z.lt_ge_cases i 8).
  - rewrite !Z.mod_pow2_bits_low by lia. apply Hb. lia.
  - by rewrite !Z.mod_pow2_bits_high by lia.
Qed.

Lemma be_put_bits n z1 z2 :
  (forall i, (0 <= i < 8 * Z.of_nat n)%Z -> Z.testbit z1 i = Z.testbit z2 i) ->
  be_put n z1 = be_put n z2.
Proof.
  induction n as [|n IH]; intros Hb; [done|]. cbn [be_put]. f_equal.
  - apply Zbyte_bits. intros i Hi. rewrite !Z.shiftr_spec by lia. apply Hb. lia.
  - apply IH. intros i Hi. apply Hb. lia.
Qed.

(** Decoding then encoding gives the bytes back: the format is canonical. *)
Lemma be_put_get l : be_put (length l) (be_get l) = l.
Proof.
  induction l as [|b l IH]; [done|]. cbn [length be_put be_get].
  change (Z.of_nat (length l)) with (len l). pose proof (len_nonneg l) as Hlen.
  pose proof (be_get_nonneg l). pose proof (be_get_bound l).
  f_equal.
  - rewrite <- (Zbyte_byteZ b) at 2. apply Zbyte_bits. intros i Hi.
    rewrite Z.shiftr_spec, Z.lor_spec, Z.shiftl_spec by lia.
    replace (i + 8 * len l - 8 * len l)%Z with i by lia.
    rewrite <- (Z.mod_small (be_get l) (2 ^ (8 * len l))) by lia.
    rewrite Z.mod_pow2_bits_high by lia. apply orb_false_r.
  - etrans; [|exact IH]. apply be_put_bits. intros i Hi.
    rewrite Z.lor_spec, Z.shiftl_spec_low by (unfold len; lia). done.
Qed.

Lemma be_put_get_n n l : len l = Z.of_nat n -> be_put n (be_get l) = l.
Proof. intros Hn. assert (n = length l) as -> by (unfold len in Hn; lia). apply be_put_get. Qed.

Lemma len_PutUint16 z : len (PutUint16 z) = 2%Z.
Proof. done. Qed.

Lemma len_PutUint32 z : len (PutUint32 z) = 4%Z.
Proof. done. Qed.

#[export] Hint Resolve byteZ_range be_get_nonneg : mish.
#[export] Hint Rewrite len_PutUint16 len_PutUint32 : mish.

(** ** Readers *)

Definition EOF : goerr := ENew "EOF".
Definition ErrUnexpectedEOF : goerr := ENew "unexpected EOF".

(** What an [io.Reader] will still deliver: [rd_data], then [rd_end] for
    ever ([io.EOF] after an orderly close, another error otherwise). *)
Record reader := mkReader { rd_data : list byte; rd_end : goerr }.

(** Code that reads: it returns a result and leaves the reader advanced,
    also when it fails. *)
Definition RD (A : Type) : Type := reader -> res A * reader.

Definition rd_ret {A} (a : A) : RD A := fun r => (Ok a, r).
Definition rd_fail {A} (e : goerr) : RD A := fun r => (Fail e, r).
Definition rd_bind {A B} (c : RD A) (k : A -> RD B) : RD B := fun r =>
  match c r with
  | (Ok a, r') => k a r'
  | (Fail e, r') => (Fail e, r')
  end.

(** [return nil, fmt.Errorf("pre: %w", err)] around a read. *)
Definition rd_wrap {A} (pre : string) (c : RD A) : RD A := fun r =>
  match c r with
  | (Ok a, r') => (Ok a, r')
  | (Fail e, r') => (Fail (EWrap pre e ""), r')
  end.

Notation "'read' x '<-' c ';' k" := (rd_bind c (fun x => k))
  (at level 10, x pattern, c at level 100, k at level 200) : go_scope.

(** [io.ReadFull] of exactly [n] bytes: no read when [n] is 0; the end error
    when nothing could be read; [ErrUnexpectedEOF] when the stream ends
    part-way. *)
Definition ReadFull (n : Z) : RD (list byte) := fun r =>
  if (len (rd_data r) <? n)%Z then
    (Fail (match rd_data r with
           | [] => rd_end r
           | _ => if bool_decide (rd_end r = EOF) then ErrUnexpectedEOF else rd_end r
           end),
     mkReader [] (rd_end r))
  else
    (Ok (take (Z.to_nat n) (rd_data r)),
     mkReader (drop (Z.to_nat n) (rd_data r)) (rd_end r)).

(** [bufio.Reader.Peek]: the next [n] bytes without consuming them; an error
    when fewer are left. *)
Definition Peek (n : Z) (r : reader) : option (list byte) :=
  if (len (rd_data r) <? n)%Z then None else Some (take (Z.to_nat n) (rd_data r)).

Lemma ReadFull_app n l k e :
  n = len l -> ReadFull n (mkReader (l ++ k) e) = (Ok l, mkReader k e).
Proof.
  intros ->. unfold ReadFull. simpl. rewrite len_app.
  pose proof (len_nonneg k).
  rewrite (proj2 (Z.ltb_ge _ _)) by lia.
  rewrite len_to_nat, take_app_length, drop_app_length. done.
Qed.

Lemma ReadFull_all n l e :
  n = len l -> ReadFull n (mkReader l e) = (Ok l, mkReader [] e).
Proof. intros Hn. rewrite <- (app_nil_r l) at 1. by apply ReadFull_app. Qed.

Lemma ReadFull_Ok n r l r' :
  (0 <= n)%Z -> ReadFull n r = (Ok l, r') ->
  len l = n /\ rd_data r = l ++ rd_data r' /\ rd_end r' = rd_end r.
Proof.
  intros Hn. unfold ReadFull. case_match eqn:E; intros; simplify_eq/=.
  bool_to_prop. split_and!; [|by rewrite take_drop|done].
  unfold len in *. rewrite length_take. lia.
Qed.

Lemma ReadFull_short n r :
  (len (rd_data r) < n)%Z -> exists e, ReadFull n r = (Fail e, mkReader [] (rd_end r)).
Proof.
  intros Hn. unfold ReadFull. rewrite (proj2 (Z.ltb_lt _ _)) by done. eauto.
Qed.

Lemma Peek_app n l k e : n = len l -> Peek n (mkReader (l ++ k) e) = Some l.
Proof.
  intros ->. unfold Peek. simpl. rewrite len_app.
  pose proof (len_nonneg k). rewrite (proj2 (Z.ltb_ge _ _)) by lia.
  by rewrite len_to_nat, take_app_length.
Qed.

(** ** Writers *)

(** An [io.Writer]: the bytes it took so far, and how many more it takes
    before it fails ([None]: it never fails). *)
Record writer := mkWriter { wr_out : list byte; wr_room : option Z; wr_err : goerr }.

(** [w.Write(p)]: all of [p], or the part that fits and an error. *)
Definition Write (p : list byte) (w : writer) : option goerr * writer :=
  match wr_room w with
  | None => (None, mkWriter (wr_out w ++ p) None (wr_err w))
  | Some m =>
      if (len p <=? m)%Z then (None, mkWriter (wr_out w ++ p) (Some (m - len p)%Z) (wr_err w))
      else (Some (wr_err w), mkWriter (wr_out w ++ take (Z.to_nat m) p) (Some 0%Z) (wr_err w))
  end.

(** The bytes already written are never taken back. *)
Lemma Write_prefix p w e w' :
  Write p w = (e, w') -> exists q, wr_out w' = wr_out w ++ q /\ (e = None -> q = p).
Proof. unfold Write. intros. go_cases; eexists; split; done. Qed.

Lemma Write_None p w w' : Write p w = (None, w') -> wr_out w' = wr_out w ++ p.
Proof. unfold Write. intros. go_cases. Qed.

Definition infinite_writer : writer := mkWriter [] None (ENew "write").

Lemma Write_infinite p w :
  wr_room w = None -> Write p w = (None, mkWriter (wr_out w ++ p) None (wr_err w)).
Proof. unfold Write. by intros ->. Qed.
