(* ===== verification/GoStrings.v ===== *)
(** * Go's [strings] and [strconv]

    The string functions the program's parsers and matchers use, on byte
    sequences, with the laws their clients need. *)
From S2P Require Import Prelude GoIO.

(** ** Prefixes and suffixes *)

Fixpoint prefixb (p l : list byte) : bool :=
  match p, l with
  | [], _ => true
  | a :: p', b :: l' => Ascii.eqb a b && prefixb p' l'
  | _, [] => false
  end.

Definition suffixb (s l : list byte) : bool := prefixb (reverse s) (reverse l).

Lemma prefixb_spec p l : prefixb p l = true <-> p `prefix_of` l.
Proof.
  revert l. induction p as [|a p IH]; intros l; simpl.
  { split; [intros _; apply prefix_nil|done]. }
  destruct l as [|b l]; simpl.
  { split; [done|]. intros H. by apply prefix_nil_not in H. }
  rewrite andb_true_iff, Ascii.eqb_eq, IH. split.
  - intros [-> H]. by apply prefix_cons.
  - intros H. split; [by apply prefix_cons_inv_1 in H|by apply prefix_cons_inv_2 in H].
Qed.

Lemma suffixb_spec s l : suffixb s l = true <-> s `suffix_of` l.
Proof.
  unfold suffixb. rewrite prefixb_spec, suffix_prefix_reverse. done.
Qed.

#[global] Arguments prefixb : simpl never.
#[global] Arguments suffixb : simpl never.

Definition HasPrefix (s p : string) : bool := prefixb (bytes_of p) (bytes_of s).
Definition HasSuffix (s p : string) : bool := suffixb (bytes_of p) (bytes_of s).

Definition CutPrefix (s p : string) : option string :=
  if HasPrefix s p then Some (string_of (drop (length (bytes_of p)) (bytes_of s))) else None.

Definition TrimPrefix (s p : string) : string := default s (CutPrefix s p).

Definition TrimSuffix (s p : string) : string :=
  if HasSuffix s p
  then string_of (take (length (bytes_of s) - length (bytes_of p)) (bytes_of s))
  else s.


Lemma bytes_of_app s t : bytes_of (s +:+ t) = bytes_of s ++ bytes_of t.
Proof. unfold bytes_of. induction s as [|a s IH]; simpl; [done|by rewrite IH]. Qed.

Lemma HasPrefix_app s p : HasPrefix s p = true <-> exists t, s = p +:+ t.
Proof.
  unfold HasPrefix. rewrite prefixb_spec. split.
  - intros [k Hk]. exists (string_of k). apply bytes_of_inj.
    by rewrite bytes_of_app, bytes_of_string_of.
  - intros [t ->]. rewrite bytes_of_app. by exists (bytes_of t).
Qed.

Lemma HasSuffix_app s p : HasSuffix s p = true <-> exists t, s = t +:+ p.
Proof.
  unfold HasSuffix. rewrite suffixb_spec. split.
  - intros [k Hk]. exists (string_of k). apply bytes_of_inj.
    by rewrite bytes_of_app, bytes_of_string_of.
  - intros [t ->]. rewrite bytes_of_app. by exists (bytes_of t).
Qed.

Lemma CutPrefix_Some s p t : CutPrefix s p = Some t <-> s = p +:+ t.
Proof.
  unfold CutPrefix. destruct (HasPrefix s p) eqn:E.
  - apply HasPrefix_app in E as [u ->]. rewrite bytes_of_app, drop_app_length, string_of_bytes_of.
    split; [by intros [= ->]|]. intros Hu. f_equal. apply bytes_of_inj.
    apply (f_equal bytes_of) in Hu. rewrite !bytes_of_app in Hu. by simplify_list_eq.
  - split; [done|]. intros ->. apply not_true_iff_false in E. destruct E.
    apply HasPrefix_app. eauto.
Qed.

Lemma CutPrefix_None s p : CutPrefix s p = None <-> HasPrefix s p = false.
Proof. unfold CutPrefix. by destruct (HasPrefix s p). Qed.

(** ** Case *)

Definition is_ascii_byte (b : byte) : bool := (byteZ b <? 128)%Z.

Definition lower_byte (b : byte) : byte :=
  let z := byteZ b in
  if ((65 <=? z) && (z <=? 90))%Z then Zbyte (z + 32) else b.

(** [unicode.ToLower] applied to every rune of a string that is not ASCII. *)
Class UnicodeLower := uni_lower : string -> string.

Definition ToLower `{UnicodeLower} (s : string) : string :=
  if forallb is_ascii_byte (bytes_of s) then string_of (map lower_byte (bytes_of s))
  else uni_lower s.

(** ** Quoting *)

Definition hex_digit (z : Z) : byte := Zbyte (if (z <? 10)%Z then 48 + z else 87 + z).

(** One ASCII byte inside [strconv.Quote]. *)
Definition quote_byte (b : byte) : list byte :=
  let z := byteZ b in
  let esc c := [Zbyte 92; Zbyte c] in
  if (z =? 34)%Z || (z =? 92)%Z then esc z
  else if (z =? 7)%Z then esc 97%Z
  else if (z =? 8)%Z then esc 98%Z
  else if (z =? 12)%Z then esc 102%Z
  else if (z =? 10)%Z then esc 110%Z
  else if (z =? 13)%Z then esc 114%Z
  else if (z =? 9)%Z then esc 116%Z
  else if (z =? 11)%Z then esc 118%Z
  else if (z <? 32)%Z || (z =? 127)%Z
  then esc 120%Z ++ [hex_digit (z / 16); hex_digit (z mod 16)]
  else [b].

(** [strconv.Quote] of a string that is not ASCII. *)
Class UnicodeQuote := uni_quote : string -> string.

Definition Quote `{UnicodeQuote} (s : string) : string :=
  if forallb is_ascii_byte (bytes_of s)
  then string_of (Zbyte 34 :: concat (map quote_byte (bytes_of s)) ++ [Zbyte 34])
  else uni_quote s.

(** ** White space *)

Definition ascii_spaces : list (list byte) :=
  map (fun z => [Zbyte z]) [9; 10; 11; 12; 13; 32]%Z.

(** The UTF-8 encodings of the other code points of [unicode.White_Space]. *)
Definition unicode_spaces : list (list byte) :=
  map (map Zbyte)
    ([[194; 133]; [194; 160]; [225; 154; 128]; [226; 128; 168]; [226; 128; 169];
      [226; 128; 175]; [226; 129; 159]; [227; 128; 128]]
     ++ map (fun z => [226; 128; z]) [128; 129; 130; 131; 132; 133; 134; 135; 136; 137; 138])%Z.

Definition spaces : list (list byte) := ascii_spaces ++ unicode_spaces.

(** Removes the encodings of [sp] from the front, at most [n] of them. *)
Fixpoint strip_front (sp : list (list byte)) (n : nat) (l : list byte) : list byte :=
  match n with
  | O => l
  | S n' =>
      match list_find (fun p => prefixb p l = true) sp with
      | Some (_, p) => strip_front sp n' (drop (length p) l)
      | None => l
      end
  end.

Definition trim_bytes (l : list byte) : list byte :=
  let l := strip_front spaces (length l) l in
  reverse (strip_front (map reverse spaces) (length l) (reverse l)).

Definition TrimSpace (s : string) : string := string_of (trim_bytes (bytes_of s)).

(** [strings.Trim(s, cutset)] for an ASCII cutset. *)
Fixpoint trim_left_set (set l : list byte) : list byte :=
  match l with
  | b :: l' => if bool_decide (b ∈ set) then trim_left_set set l' else l
  | [] => []
  end.

Definition Trim (s cutset : string) : string :=
  let set := bytes_of cutset in
  string_of (reverse (trim_left_set set (reverse (trim_left_set set (bytes_of s))))).

(** ** Splitting *)

Fixpoint split_bytes (sep : byte) (l : list byte) : list (list byte) :=
  match l with
  | [] => [[]]
  | b :: l' =>
      if Ascii.eqb b sep then [] :: split_bytes sep l'
      else
        match split_bytes sep l' with
        | w :: ws => (b :: w) :: ws
        | [] => [[b]]
        end
  end.

(** [strings.Split(s, sep)] for a one-byte separator. *)
Definition Split (s : string) (sep : byte) : list string :=
  map string_of (split_bytes sep (bytes_of s)).

Definition Count (s : string) (b : byte) : Z :=
  len (List.filter (Ascii.eqb b) (bytes_of s)).

Definition ContainsByte (s : string) (b : byte) : bool :=
  existsb (Ascii.eqb b) (bytes_of s).

(** The part before the last [b] and the part after it: [strings.LastIndex]. *)
Fixpoint last_cut_bytes (b : byte) (l : list byte) : option (list byte * list byte) :=
  match l with
  | [] => None
  | a :: l' =>
      match last_cut_bytes b l' with
      | Some (u, v) => Some (a :: u, v)
      | None => if Ascii.eqb a b then Some ([], l') else None
      end
  end.

Definition LastCut (s : string) (b : byte) : option (string * string) :=
  match last_cut_bytes b (bytes_of s) with
  | Some (u, v) => Some (string_of u, string_of v)
  | None => None
  end.

(** ** Integers *)

Definition digit (b : byte) : option Z :=
  let z := byteZ b in
  if ((48 <=? z) && (z <=? 57))%Z then Some (z - 48)%Z else None.

Fixpoint digits_value (acc : Z) (l : list byte) : option Z :=
  match l with
  | [] => Some acc
  | b :: l' =>
      match digit b with
      | Some d => digits_value (acc * 10 + d) l'
      | None => None
      end
  end.

(** [strconv.Atoi]: an optional sign, at least one digit, and a value that
    fits an [int64]. *)
Definition Atoi (s : string) : option Z :=
  let parse neg l :=
    match l with
    | [] => None
    | _ =>
        match digits_value 0 l with
        | Some v =>
            let v := if (neg : bool) then (- v)%Z else v in
            if ((- 2 ^ 63 <=? v) && (v <? 2 ^ 63))%Z then Some v else None
        | None => None
        end
    end in
  match bytes_of s with
  | "+"%char :: l => parse false l
  | "-"%char :: l => parse true l
  | l => parse false l
  end.

Definition Itoa (z : Z) : string := pretty z.

(** ** Case folding *)

(** The simple case folding of a string compared with an ASCII one: besides
    the upper-case letters, only U+017F folds to [s] and U+212A to [k]. *)
Fixpoint fold_ascii (l : list byte) : list byte :=
  match l with
  | [] => []
  | a :: l' =>
      match byteZ a, l' with
      | 197%Z, b :: l'' =>
          if (byteZ b =? 191)%Z then "s"%char :: fold_ascii l'' else a :: fold_ascii l'
      | 226%Z, b :: c :: l'' =>
          if ((byteZ b =? 132) && (byteZ c =? 170))%Z then "k"%char :: fold_ascii l''
          else a :: fold_ascii l'
      | _, _ => lower_byte a :: fold_ascii l'
      end
  end.

(** [strings.EqualFold(s, t)] for an ASCII [t]. *)
Definition EqualFold (s t : string) : bool :=
  bool_decide (fold_ascii (bytes_of s) = map lower_byte (bytes_of t)).

(** ** Order *)

(** Go compares strings byte by byte. *)
Definition str_leb (s t : string) : bool := String.leb s t.

Lemma str_leb_total s t : str_leb s t = true \/ str_leb t s = true.
Proof. apply String.leb_total. Qed.

Lemma str_leb_trans s t u : str_leb s t = true -> str_leb t u = true -> str_leb s u = true.
Proof.
  unfold str_leb. intros H1 H2. apply Is_true_true.
  change (String.le s u). transitivity t; by apply Is_true_true.
Qed.

Lemma str_leb_antisym s t : str_leb s t = true -> str_leb t s = true -> s = t.
Proof. apply String.leb_antisym. Qed.

(** ** Laws of splitting *)

Fixpoint join_bytes (sep : byte) (ws : list (list byte)) : list byte :=
  match ws with
  | [] => []
  | [w] => w
  | w :: ws' => w ++ sep :: join_bytes sep ws'
  end.

Lemma split_bytes_nonempty sep l : split_bytes sep l <> [].
Proof. destruct l as [|b l]; simpl; [done|]. destruct (Ascii.eqb b sep); [done|]. by destruct (split_bytes sep l). Qed.

Lemma join_split sep l : join_bytes sep (split_bytes sep l) = l.
Proof.
  induction l as [|b l IH]; [done|]. simpl. destruct (Ascii.eqb b sep) eqn:E.
  - apply Ascii.eqb_eq in E as ->. pose proof (split_bytes_nonempty sep l).
    destruct (split_bytes sep l) as [|w ws]; [done|]. simpl in *. by rewrite IH.
  - pose proof (split_bytes_nonempty sep l).
    destruct (split_bytes sep l) as [|w [|w' ws]]; simpl in *; [done| |]; by rewrite IH.
Qed.

Lemma split_bytes_app sep u v :
  split_bytes sep (u ++ sep :: v) = split_bytes sep u ++ split_bytes sep v.
Proof.
  induction u as [|b u IH]; simpl.
  - by rewrite (proj2 (Ascii.eqb_eq sep sep)).
  - rewrite IH. destruct (Ascii.eqb b sep); [done|].
    pose proof (split_bytes_nonempty sep u). by destruct (split_bytes sep u).
Qed.

Lemma join_bytes_app sep ws vs :
  ws <> [] -> vs <> [] ->
  join_bytes sep (ws ++ vs) = join_bytes sep ws ++ sep :: join_bytes sep vs.
Proof.
  intros Hw Hv. induction ws as [|w ws IH]; [done|].
  destruct ws as [|w' ws]; simpl.
  - by destruct vs.
  - simpl in IH. rewrite IH by done. by rewrite <- app_assoc.
Qed.

Lemma split_bytes_inj sep l1 l2 : split_bytes sep l1 = split_bytes sep l2 -> l1 = l2.
Proof. intros E. by rewrite <- (join_split sep l1), E, join_split. Qed.

(** The pieces contain no separator, and exactly the other bytes. *)
Lemma elem_of_split sep l w b : w ∈ split_bytes sep l -> b ∈ w -> b ∈ l /\ b <> sep.
Proof.
  revert w. induction l as [|c l IH]; intros w; simpl.
  { rewrite list_elem_of_singleton. intros -> Hb. by apply not_elem_of_nil in Hb. }
  rewrite elem_of_cons. destruct (Ascii.eqb c sep) eqn:E.
  - rewrite elem_of_cons. intros [->|Hw] Hb; [by apply not_elem_of_nil in Hb|].
    destruct (IH w Hw Hb). auto.
  - apply Ascii.eqb_neq in E. revert IH. destruct (split_bytes sep l) as [|v vs]; intros IH.
    { rewrite list_elem_of_singleton. intros -> Hb%list_elem_of_singleton. subst. auto. }
    rewrite elem_of_cons. intros [->|Hw] Hb.
    + apply elem_of_cons in Hb as [->|Hb]; [auto|].
      destruct (IH v) as [? ?]; [by left|done|auto].
    + destruct (IH w) as [? ?]; [by right|done|auto].
Qed.

Lemma elem_of_join sep ws b : b ∈ join_bytes sep ws -> b = sep \/ exists w, w ∈ ws /\ b ∈ w.
Proof.
  induction ws as [|w ws IH]; simpl; [by intros ?%not_elem_of_nil|].
  destruct ws as [|w' ws].
  - intros Hb. right. exists w. split; [by left|done].
  - rewrite elem_of_app, elem_of_cons. intros [Hb|[->|Hb]]; [|by left|].
    + right. exists w. split; [by left|done].
    + destruct (IH Hb) as [->|(v & Hv & Hbv)]; [by left|].
      right. exists v. split; [by right|done].
Qed.

(** Every byte is the separator or is in a piece. *)
Lemma elem_of_pieces sep l b :
  b ∈ l -> b = sep \/ exists w, w ∈ split_bytes sep l /\ b ∈ w.
Proof. intros Hb. apply elem_of_join. by rewrite join_split. Qed.

(** ** Trimming a string of visible characters *)

Definition visible (b : byte) : bool := ((33 <=? byteZ b) && (byteZ b <=? 126))%Z.

Lemma strip_front_id sp n l :
  (forall p, p ∈ sp -> prefixb p l = false) -> strip_front sp n l = l.
Proof.
  intros Hp. destruct n as [|n]; [done|]. simpl.
  destruct (list_find _ sp) as [[i p]|] eqn:E; [|done].
  apply list_find_Some in E as (Hi & Ht & _).
  rewrite Hp in Ht; [done|by eapply list_elem_of_lookup_2].
Qed.

Definition starts_invisible (p : list byte) : bool :=
  match p with b :: _ => negb (visible b) | [] => false end.

Lemma starts_invisible_prefix p l :
  starts_invisible p = true -> forallb visible l = true -> prefixb p l = false.
Proof.
  destruct p as [|a p]; [done|]. simpl. intros Ha Hl. unfold prefixb. fold prefixb.
  destruct l as [|b l]; [done|]. simpl in Hl. apply andb_true_iff in Hl as [Hb _].
  destruct (Ascii.eqb a b) eqn:E; [|done]. apply Ascii.eqb_eq in E as ->.
  by rewrite Hb in Ha.
Qed.

Lemma spaces_invisible :
  forallb starts_invisible spaces = true /\ forallb starts_invisible (map reverse spaces) = true.
Proof. split; vm_compute; reflexivity. Qed.

Lemma forallb_reverse {A} (f : A -> bool) l : forallb f (reverse l) = forallb f l.
Proof.
  apply eq_true_iff_eq. rewrite !forallb_forall. setoid_rewrite <- list_elem_of_In.
  by setoid_rewrite elem_of_reverse.
Qed.

Lemma trim_bytes_id l : forallb visible l = true -> trim_bytes l = l.
Proof.
  intros Hl. destruct spaces_invisible as [H1 H2].
  rewrite forallb_forall in H1, H2. unfold trim_bytes.
  rewrite (strip_front_id spaces).
  2: { intros p Hp%list_elem_of_In. apply starts_invisible_prefix; [by apply H1|done]. }
  rewrite strip_front_id; [by rewrite reverse_involutive|].
  intros p Hp%list_elem_of_In. apply starts_invisible_prefix; [by apply H2|].
  by rewrite forallb_reverse.
Qed.

Lemma TrimSpace_visible s : forallb visible (bytes_of s) = true -> TrimSpace s = s.
Proof. intros Hs. unfold TrimSpace. rewrite trim_bytes_id by done. apply string_of_bytes_of. Qed.

Lemma lower_visible b : visible b = true -> is_ascii_byte b = true.
Proof. unfold visible, is_ascii_byte. lia. Qed.

Lemma ToLower_id `{UnicodeLower} s :
  forallb visible (bytes_of s) = true -> Forall (fun b => lower_byte b = b) (bytes_of s) ->
  ToLower s = s.
Proof.
  intros Hv Hl. unfold ToLower.
  assert (Ha : forallb is_ascii_byte (bytes_of s) = true).
  { rewrite forallb_forall in *. intros b Hb. apply lower_visible; auto. }
  rewrite Ha. replace (map lower_byte (bytes_of s)) with (bytes_of s); [apply string_of_bytes_of|].
  induction Hl as [|b l Hb _ IH]; [done|]. simpl in *.
  apply andb_true_iff in Hv as [_ Hv]. apply andb_true_iff in Ha as [_ Ha].
  rewrite Hb. f_equal. auto.
Qed.
