(* ===== verification/GoNet.v ===== *)
(** * Go's [net] addresses

    [net.IP], [net.IPNet], their textual forms and [host:port] strings, as
    the guards of the program use them. An address is its byte slice: four
    bytes, sixteen bytes, or empty for [nil]. *)
From S2P Require Import Prelude GoIO GoStrings.

Definition IP : Type := list byte.

Definition nilIP : IP := [].

Definition ip_bytes (zs : list Z) : IP := map Zbyte zs.

(** The prefix of the IPv4-mapped addresses, [::ffff:0:0/96]. *)
Definition v4InV6Prefix : list byte := ip_bytes [0; 0; 0; 0; 0; 0; 0; 0; 0; 0; 255; 255]%Z.

(** [net.IPv4(a, b, c, d)]: the sixteen-byte form. *)
Definition IPv4 (a b c d : byte) : IP := v4InV6Prefix ++ [a; b; c; d].

(** [ip.To4()]; [None] is Go's [nil]. *)
Definition To4 (ip : IP) : option IP :=
  if bool_decide (length ip = 4) then Some ip
  else if bool_decide (length ip = 16) && prefixb v4InV6Prefix ip then Some (drop 12 ip)
  else None.

(** [ip.Equal]: an IPv4 address equals its IPv4-mapped form. *)
Definition ip_canon (ip : IP) : IP := default ip (To4 ip).

Definition ip_at (ip : IP) (i : nat) : Z := byteZ (nth i ip "000"%char).

Definition byte_and (ip : IP) (i : nat) (mask : Z) : Z := Z.land (ip_at ip i) mask.

Definition IPv4zero : IP := IPv4 (Zbyte 0) (Zbyte 0) (Zbyte 0) (Zbyte 0).
Definition IPv6unspecified : IP := repeat (Zbyte 0) 16.
Definition IPv6loopback : IP := repeat (Zbyte 0) 15 ++ [Zbyte 1].

Definition ip_equal (a b : IP) : bool := bool_decide (ip_canon a = ip_canon b).

Definition IsUnspecified (ip : IP) : bool :=
  ip_equal ip IPv4zero || ip_equal ip IPv6unspecified.

Definition IsLoopback (ip : IP) : bool :=
  match To4 ip with
  | Some ip4 => (ip_at ip4 0 =? 127)%Z
  | None => ip_equal ip IPv6loopback
  end.

Definition is16 (ip : IP) : bool := bool_decide (length ip = 16).

Definition IsPrivate (ip : IP) : bool :=
  match To4 ip with
  | Some ip4 =>
      ((ip_at ip4 0 =? 10) ||
       ((ip_at ip4 0 =? 172) && (byte_and ip4 1 240 =? 16)) ||
       ((ip_at ip4 0 =? 192) && (ip_at ip4 1 =? 168)))%Z
  | None => is16 ip && (byte_and ip 0 254 =? 252)%Z
  end.

Definition IsMulticast (ip : IP) : bool :=
  match To4 ip with
  | Some ip4 => (byte_and ip4 0 240 =? 224)%Z
  | None => is16 ip && (ip_at ip 0 =? 255)%Z
  end.

Definition IsLinkLocalMulticast (ip : IP) : bool :=
  match To4 ip with
  | Some ip4 => ((ip_at ip4 0 =? 224) && (ip_at ip4 1 =? 0) && (ip_at ip4 2 =? 0))%Z
  | None => is16 ip && (ip_at ip 0 =? 255)%Z && (byte_and ip 1 15 =? 2)%Z
  end.

Definition IsLinkLocalUnicast (ip : IP) : bool :=
  match To4 ip with
  | Some ip4 => ((ip_at ip4 0 =? 169) && (ip_at ip4 1 =? 254))%Z
  | None => is16 ip && (ip_at ip 0 =? 254)%Z && (byte_and ip 1 192 =? 128)%Z
  end.

(** ** Networks *)

Record IPNet := mkNet { net_ip : IP; net_mask : list byte }.

Fixpoint cidr_mask_bytes (ones : Z) (n : nat) : list byte :=
  match n with
  | O => []
  | S n' =>
      (if (8 <=? ones)%Z then Zbyte 255
       else if (0 <? ones)%Z then Zbyte (255 - Z.ones (8 - ones))
       else Zbyte 0)
      :: cidr_mask_bytes (ones - 8) n'
  end.

(** [net.CIDRMask(ones, bits)]. *)
Definition CIDRMask (ones bits : Z) : list byte := cidr_mask_bytes ones (Z.to_nat (bits / 8)).

Definition and_bytes (a b : list byte) : list byte :=
  zip_with (fun x y => Zbyte (Z.land (byteZ x) (byteZ y))) a b.

(** [networkNumberAndMask]. *)
Definition networkNumberAndMask (n : IPNet) : option (IP * list byte) :=
  match To4 (net_ip n) with
  | Some ip4 =>
      if bool_decide (length (net_mask n) = 4) then Some (ip4, net_mask n)
      else if bool_decide (length (net_mask n) = 16) then Some (ip4, drop 12 (net_mask n))
      else None
  | None =>
      if is16 (net_ip n) && bool_decide (length (net_mask n) = 16)
      then Some (net_ip n, net_mask n) else None
  end.

(** [n.Contains(ip)]; with no network number the lengths differ unless the
    address is empty too. *)
Definition net_contains (n : IPNet) (ip : IP) : bool :=
  let ip := ip_canon ip in
  match networkNumberAndMask n with
  | None => bool_decide (ip = [])
  | Some (nn, m) =>
      bool_decide (length ip = length nn) && bool_decide (and_bytes nn m = and_bytes ip m)
  end.

(** ** Textual addresses *)

Definition parse_octet (l : list byte) : option byte :=
  match l with
  | [] => None
  | b :: rest =>
      if Ascii.eqb b "0"%char && negb (bool_decide (rest = [])) then None
      else
        match digits_value 0 l with
        | Some v => if (v <=? 255)%Z then Some (Zbyte v) else None
        | None => None
        end
  end.

Definition parse_ipv4 (l : list byte) : option (list byte) :=
  match mapM parse_octet (split_bytes "."%char l) with
  | Some [a; b; c; d] => Some [a; b; c; d]
  | _ => None
  end.

Definition hex_digit (b : byte) : option Z :=
  let z := byteZ b in
  if ((48 <=? z) && (z <=? 57))%Z then Some (z - 48)%Z
  else if ((97 <=? z) && (z <=? 102))%Z then Some (z - 87)%Z
  else if ((65 <=? z) && (z <=? 70))%Z then Some (z - 55)%Z
  else None.

(** The leading hexadecimal digits: their number, value and what follows. *)
Fixpoint hex_group (off : nat) (acc : Z) (l : list byte) : nat * Z * list byte :=
  match l with
  | b :: l' =>
      match hex_digit b with
      | Some d => hex_group (S off) (acc * 16 + d) l'
      | None => (off, acc, l)
      end
  | [] => (off, acc, [])
  end.

(** The loop of [parseIPv6]: [out] holds the bytes so far, [ell] the position
    of the ellipsis. At most eight groups are read. *)
Fixpoint parse_groups (fuel : nat) (out : list byte) (ell : option nat) (s : list byte)
    : option (list byte * option nat * list byte) :=
  match fuel with
  | O => Some (out, ell, s)
  | S fuel' =>
      let '(off, acc, rest) := hex_group 0 0 s in
      if bool_decide (off = 0) || bool_decide (4 < off) then None
      else
        match rest with
        | "."%char :: _ =>
            if (negb (bool_decide (is_Some ell)) && negb (bool_decide (length out = 12)))
               || bool_decide (16 < length out + 4) then None
            else
              match parse_ipv4 s with
              | Some q => Some (out ++ q, ell, [])
              | None => None
              end
        | [] => Some (out ++ be_put 2 acc, ell, [])
        | ":"%char :: rest' =>
            let out := out ++ be_put 2 acc in
            match rest' with
            | [] => None
            | ":"%char :: rest'' =>
                if bool_decide (is_Some ell) then None
                else
                  match rest'' with
                  | [] => Some (out, Some (length out), [])
                  | _ => parse_groups fuel' out (Some (length out)) rest''
                  end
            | _ => parse_groups fuel' out ell rest'
            end
        | _ => None
        end
  end.

Definition expand_ellipsis (r : list byte * option nat * list byte) : option IP :=
  let '(out, ell, s) := r in
  if negb (bool_decide (s = [])) then None
  else if bool_decide (length out < 16) then
    match ell with
    | None => None
    | Some j => Some (take j out ++ repeat (Zbyte 0) (16 - length out) ++ drop j out)
    end
  else match ell with None => Some out | Some _ => None end.

Definition parse_ipv6 (l : list byte) : option IP :=
  match l with
  | ":"%char :: ":"%char :: [] => Some IPv6unspecified
  | ":"%char :: ":"%char :: l' => parse_groups 8 [] (Some 0) l' ≫= expand_ellipsis
  | _ => parse_groups 8 [] None l ≫= expand_ellipsis
  end.

(** The address [netip.ParseAddr] reads and its bit length; an address with a
    zone is kept apart because [net.ParseIP] and [net.ParseCIDR] refuse it. *)
Definition parse_addr (l : list byte) : option (IP * Z) :=
  match List.find (fun b => Ascii.eqb b "."%char || Ascii.eqb b ":"%char || Ascii.eqb b "%"%char) l with
  | Some "."%char => (fun q => (v4InV6Prefix ++ q, 32%Z)) <$> parse_ipv4 l
  | Some ":"%char =>
      if existsb (Ascii.eqb "%"%char) l then None
      else (fun q => (q, 128%Z)) <$> parse_ipv6 l
  | _ => None
  end.

(** [net.ParseIP]; the result has sixteen bytes, [nilIP] is [nil]. *)
Definition ParseIP (s : string) : IP :=
  match parse_addr (bytes_of s) with
  | Some (ip, _) => ip
  | None => nilIP
  end.

(** [ip.Mask(m)] for the two lengths that occur in [ParseCIDR]. *)
Definition ip_mask (ip : IP) (m : list byte) : IP :=
  if bool_decide (length m = 4) then and_bytes (drop 12 ip) m else and_bytes ip m.

(** [net.ParseCIDR], the network. *)
Definition ParseCIDR (s : string) : option IPNet :=
  match Split s "/"%char with
  | addr :: rest =>
      let mask := bytes_of s in
      let mask := drop (S (length (bytes_of addr))) mask in
      if bool_decide (rest = []) then None
      else
        match parse_addr (bytes_of addr), mask with
        | Some (ip, bits), _ :: _ =>
            match digits_value 0 mask with
            | Some n =>
                if (n <=? bits)%Z
                then let m := CIDRMask n bits in Some (mkNet (ip_mask ip m) m)
                else None
            | None => None
            end
        | _, _ => None
        end
  | [] => None
  end.

(** ** Printing *)

Definition hex_char (d : Z) : byte := Zbyte (if (d <? 10)%Z then 48 + d else 87 + d)%Z.

Definition hex_string (z : Z) : list byte :=
  let ds := [z / 4096; (z / 256) mod 16; (z / 16) mod 16]%Z in
  map hex_char ((fix skip l := match l with 0%Z :: l' => skip l' | _ => l end) ds ++ [z mod 16]%Z).

Fixpoint groups_of (ip : IP) : list Z :=
  match ip with
  | a :: b :: rest => (byteZ a * 256 + byteZ b)%Z :: groups_of rest
  | _ => []
  end.

Fixpoint zero_run (gs : list Z) : nat :=
  match gs with 0%Z :: gs' => S (zero_run gs') | _ => 0 end.

(** The first longest run of at least two zero groups: start and end. *)
Fixpoint best_run (i : nat) (gs : list Z) (best : nat * nat) : nat * nat :=
  match gs with
  | [] => best
  | _ :: gs' =>
      let l := zero_run gs in
      let best' := if bool_decide (2 <= l) && bool_decide (snd best - fst best < l)
                   then (i, i + l) else best in
      best_run (S i) gs' best'
  end.

Definition ipv6_string (ip : IP) : list byte :=
  let gs := groups_of ip in
  let '(zs, ze) := best_run 0 gs (255, 255) in
  let join l := match l with
                | [] => []
                | g :: l' => hex_string g ++ concat (map (fun h => ":"%char :: hex_string h) l')
                end in
  if bool_decide (zs = ze) then join gs
  else join (take zs gs) ++ [":"%char; ":"%char] ++ join (drop ze gs).

Definition ipv4_string (ip : IP) : list byte :=
  match map (fun b => bytes_of (Itoa (byteZ b))) ip with
  | a :: l => a ++ concat (map (fun h => "."%char :: h) l)
  | [] => []
  end.

(** [ip.String()] of a well-formed or empty address. *)
Definition ip_string (ip : IP) : string :=
  match ip with
  | [] => "<nil>"
  | _ =>
      match To4 ip with
      | Some ip4 => string_of (ipv4_string ip4)
      | None => string_of (ipv6_string ip)
      end
  end.

(** ** host:port *)

Definition SplitHostPort (hostport : string) : option (string * string) :=
  let hp := bytes_of hostport in
  match last_cut_bytes ":"%char hp with
  | None => None
  | Some (before, port) =>
      match hp with
      | "["%char :: inner =>
          match split_bytes "]"%char hp with
          | h :: _ :: _ =>
              (* [end + 1 = i]: the first closing bracket is just before the
                 last colon *)
              let host := tail h in
              if bool_decide (S (length h) = length before)
                 && negb (existsb (Ascii.eqb "["%char) (tail hp))
                 && negb (existsb (Ascii.eqb "]"%char) port)
              then Some (string_of host, string_of port) else None
          | _ => None
          end
      | _ =>
          if negb (existsb (Ascii.eqb ":"%char) before)
             && negb (existsb (Ascii.eqb "["%char) hp)
             && negb (existsb (Ascii.eqb "]"%char) hp)
          then Some (string_of before, string_of port) else None
      end
  end.

Definition JoinHostPort (host port : string) : string :=
  if ContainsByte host ":"%char then "[" +:+ host +:+ "]:" +:+ port
  else host +:+ ":" +:+ port.

(** ** URLs *)

(** [net/url.Parse]; of the user information only whether there is any. *)
Record URL := mkURL {
  u_Scheme : string;
  u_Host : string;
  u_Path : string;
  u_RawQuery : string;
  u_Fragment : string;
  u_User : bool;
  u_Opaque : string
}.
Class UrlParse := url_Parse : string -> res URL.

(** ** Examples *)

Example parse_v4 : ParseIP "10.1.2.3" = IPv4 (Zbyte 10) (Zbyte 1) (Zbyte 2) (Zbyte 3).
Proof. reflexivity. Qed.
Example parse_v4_zero : ParseIP "10.01.2.3" = nilIP.
Proof. reflexivity. Qed.
Example parse_v6 : ip_string (ParseIP "64:ff9b::169.254.169.254") = "64:ff9b::a9fe:a9fe".
Proof. vm_compute. reflexivity. Qed.
Example parse_v6_loop : ParseIP "::1" = IPv6loopback.
Proof. reflexivity. Qed.
Example split_v6 : SplitHostPort "[::1]:80" = Some ("::1", "80").
Proof. reflexivity. Qed.
Example join_v6 : JoinHostPort "::1" "80" = "[::1]:80".
Proof. reflexivity. Qed.
Example cidr_v4 :
  (fun n => (net_contains n (ParseIP "10.9.8.7"), net_contains n (ParseIP "11.0.0.1")))
    <$> ParseCIDR "10.0.0.0/8" = Some (true, false).
Proof. vm_compute. reflexivity. Qed.
