(* ===== verification/Frames.v ===== *)
(** * The tunnel's wire formats

    internal/tunnel: control frames (protocol.go), stream errors
    (streamerr.go), egress replies and exit targets (egress.go), datagram
    frames (datagram.go). Every format is a writer and a reader of the code;
    [Framing] is the contract between the two ends of a stream, and the
    theorems about sequences of messages are proved once against it. *)
From S2P Require Import Prelude GoIO.
Open Scope go_scope.

(** ** The contract of a self-delimiting format *)

Record Framing (T : Type) := mkFraming {
  fr_wf : T -> Prop;
  fr_encode : T -> list byte;
  fr_decode : RD T;
  fr_decode_encode : forall t k e, fr_wf t ->
    fr_decode (mkReader (fr_encode t ++ k) e) = (Ok t, mkReader k e);
  fr_decode_sound : forall r t r', fr_decode r = (Ok t, r') ->
    fr_wf t /\ rd_data r = fr_encode t ++ rd_data r' /\ rd_end r' = rd_end r
}.
Arguments fr_wf {T} f t.
Arguments fr_encode {T} f t.
Arguments fr_decode {T} f r.
Arguments fr_decode_encode {T} f.
Arguments fr_decode_sound {T} f.

Section FramingLaws.
Context {T : Type} (F : Framing T).

(** Reading [n] messages one after the other. *)
Fixpoint read_many (n : nat) : RD (list T) :=
  match n with
  | O => rd_ret []
  | S n' => read t <- fr_decode F; read ts <- read_many n'; rd_ret (t :: ts)
  end.

Definition encode_all (ts : list T) : list byte := concat (map (fr_encode F) ts).

Lemma read_many_encode ts k e :
  Forall (fr_wf F) ts ->
  read_many (length ts) (mkReader (encode_all ts ++ k) e) = (Ok ts, mkReader k e).
Proof.
  induction 1 as [|t ts Ht _ IH]; [done|].
  unfold encode_all in *. cbn [read_many length map concat]. unfold rd_bind.
  rewrite <- app_assoc, fr_decode_encode by done. by rewrite IH.
Qed.

Lemma read_many_sound n r ts r' :
  read_many n r = (Ok ts, r') ->
  length ts = n /\ Forall (fr_wf F) ts /\ rd_data r = encode_all ts ++ rd_data r'.
Proof.
  revert r ts. induction n as [|n IH]; intros r ts; simpl; [by intros [= <- <-]|].
  unfold rd_bind. destruct (fr_decode F r) as [[t|e] r1] eqn:E1; [|done].
  destruct (read_many n r1) as [[ts'|e] r2] eqn:E2; [|done].
  unfold rd_ret. intros [= <- <-].
  apply fr_decode_sound in E1 as (? & Hd & _). apply IH in E2 as (? & ? & Hd2).
  unfold encode_all in *. simpl. rewrite Hd, Hd2, app_assoc. auto.
Qed.

(** Messages are uniquely delimited: no encoding is a prefix of another. *)
Lemma encode_prefix_free t1 t2 k1 k2 :
  fr_wf F t1 -> fr_wf F t2 ->
  fr_encode F t1 ++ k1 = fr_encode F t2 ++ k2 -> t1 = t2 /\ k1 = k2.
Proof.
  intros H1 H2 E. pose proof (fr_decode_encode F t1 k1 EOF H1) as D1.
  rewrite E, fr_decode_encode in D1 by done. by simplify_eq.
Qed.

(** A stream that ends inside a message yields an error, never a message. *)
Lemma decode_truncated t k e :
  fr_wf F t -> k `prefix_of` fr_encode F t -> k <> fr_encode F t ->
  exists err r', fr_decode F (mkReader k e) = (Fail err, r').
Proof.
  intros Ht [m Hm] Hne.
  destruct (fr_decode F (mkReader k e)) as [[t'|err] r'] eqn:E; [exfalso|by eauto].
  apply fr_decode_sound in E as (Ht' & Hk & _). simpl in Hk. subst k.
  destruct (encode_prefix_free t' t (rd_data r' ++ m) []) as [-> Hnil]; auto.
  { by rewrite app_nil_r, Hm, app_assoc. }
  apply app_eq_nil in Hnil as [Hr _]. apply Hne. by rewrite Hr, app_nil_r.
Qed.
End FramingLaws.

Lemma ltb_false_le a b : (a <? b)%Z = false <-> (b <= a)%Z.
Proof. apply Z.ltb_ge. Qed.

(** ** Control frames: protocol.go *)
Module Protocol.
Definition maxFrameSize : Z := Z.shiftl 1 20.

Definition frameTooLarge (n : Z) : goerr :=
  ENew ("tunnel: frame too large: " +:+ pretty n +:+ " > " +:+ pretty maxFrameSize).

(** Header and body are two writes; a failed header write skips the body. *)
Definition writeFrame (p : list byte) (w : writer) : option goerr * writer :=
  if (maxFrameSize <? len p)%Z then (Some (frameTooLarge (len p)), w)
  else
    match Write (PutUint32 (len p)) w with
    | (Some err, w') => (Some err, w')
    | (None, w') => Write p w'
    end.

Definition readFrame : RD (list byte) :=
  read hdr <- ReadFull 4;
  let n := be_get hdr in
  if (maxFrameSize <? n)%Z then rd_fail (frameTooLarge n)
  else ReadFull n.

Definition frame_wf (p : list byte) : Prop := (len p <= maxFrameSize)%Z.
Definition frame_bytes (p : list byte) : list byte := PutUint32 (len p) ++ p.

Lemma frame_header p : frame_wf p -> be_get (PutUint32 (len p)) = len p.
Proof.
  unfold frame_wf, maxFrameSize. intros Hp. pose proof (len_nonneg p).
  apply Uint32_roundtrip. change (Z.shiftl 1 20) with 1048576%Z in Hp. lia.
Qed.

Lemma readFrame_bytes p k e :
  frame_wf p -> readFrame (mkReader (frame_bytes p ++ k) e) = (Ok p, mkReader k e).
Proof.
  intros Hp. unfold readFrame, frame_bytes, rd_bind. rewrite <- app_assoc.
  rewrite ReadFull_app by done. rewrite frame_header by done.
  unfold frame_wf in Hp. rewrite (proj2 (Z.ltb_ge _ _)) by done.
  by apply ReadFull_app.
Qed.

Lemma readFrame_sound r p r' :
  readFrame r = (Ok p, r') ->
  frame_wf p /\ rd_data r = frame_bytes p ++ rd_data r' /\ rd_end r' = rd_end r.
Proof.
  unfold readFrame, rd_bind. destruct (ReadFull 4 r) as [[hdr|e] r1] eqn:E1; [|done].
  apply ReadFull_Ok in E1 as (Hlen & Hd & He); [|done].
  case_match eqn:Hn; [done|]. intros E2. bool_to_prop.
  apply ReadFull_Ok in E2 as (Hlen2 & Hd2 & He2); [|apply be_get_nonneg].
  unfold frame_wf, frame_bytes, PutUint32. rewrite Hlen2, be_put_get_n by done.
  rewrite Hd, Hd2, He2, app_assoc. done.
Qed.

Definition framing : Framing (list byte) :=
  {| fr_wf := frame_wf; fr_encode := frame_bytes; fr_decode := readFrame;
     fr_decode_encode := readFrame_bytes; fr_decode_sound := readFrame_sound |}.

(** What a completed write put on the stream; an oversized payload leaves
    the stream untouched. *)
Lemma writeFrame_None p w w' :
  writeFrame p w = (None, w') -> frame_wf p /\ wr_out w' = wr_out w ++ frame_bytes p.
Proof.
  unfold writeFrame, frame_wf, frame_bytes. case_match eqn:Hl; [done|].
  destruct (Write (PutUint32 (len p)) w) as [[err|] w1] eqn:E1; [done|].
  intros E2. apply Write_None in E1, E2. rewrite E2, E1, app_assoc.
  bool_to_prop. done.
Qed.

Lemma writeFrame_infinite p w :
  frame_wf p -> wr_room w = None ->
  writeFrame p w = (None, mkWriter (wr_out w ++ frame_bytes p) None (wr_err w)).
Proof.
  unfold frame_wf, writeFrame, frame_bytes. intros Hp Hw.
  rewrite (proj2 (Z.ltb_ge _ _)) by done.
  rewrite Write_infinite by done. rewrite Write_infinite by done.
  cbn [wr_out wr_err]. by rewrite <- app_assoc.
Qed.

(** Frames written one after the other, stopping at the first error. *)
Fixpoint write_frames (ps : list (list byte)) (w : writer) : option goerr * writer :=
  match ps with
  | [] => (None, w)
  | p :: ps' =>
      match writeFrame p w with
      | (Some err, w') => (Some err, w')
      | (None, w') => write_frames ps' w'
      end
  end.

Lemma write_frames_None ps w w' :
  write_frames ps w = (None, w') ->
  Forall frame_wf ps /\ wr_out w' = wr_out w ++ encode_all framing ps.
Proof.
  revert w. induction ps as [|p ps IH]; intros w; simpl.
  { intros [= <-]. by rewrite app_nil_r. }
  destruct (writeFrame p w) as [[err|] w1] eqn:E; [done|]. intros E2.
  apply writeFrame_None in E as [? Ho]. apply IH in E2 as [? Ho2].
  unfold encode_all in *. simpl. rewrite Ho2, Ho, <- app_assoc. auto.
Qed.

(** A reader accepts a frame exactly when the stream starts with the four-byte length
    of a payload of at most [maxFrameSize] bytes and the payload; it consumes just that. *)
Theorem readFrame_exact r p r' :
  readFrame r = (Ok p, r') <->
  (len p <= maxFrameSize)%Z /\ rd_data r = (PutUint32 (len p) ++ p) ++ rd_data r' /\
  rd_end r' = rd_end r.
Proof.
  split; [apply readFrame_sound|]. intros (Hp & Hd & He).
  destruct r as [d e], r' as [d' e']. cbn [rd_data rd_end] in *. subst.
  by apply readFrame_bytes.
Qed.

(** Whatever frames were written without an error, the peer reads the same frames in
    the same order and then stands at the bytes that follow; a stream cut inside a frame
    is an error, never a shorter frame. *)
Theorem control_frames_fifo ps w w' :
  write_frames ps w = (None, w') ->
  exists sent, wr_out w' = wr_out w ++ sent /\
    (forall k e, read_many framing (length ps) (mkReader (sent ++ k) e) = (Ok ps, mkReader k e)) /\
    (forall p k e, p ∈ ps -> k `prefix_of` frame_bytes p -> k <> frame_bytes p ->
       exists err r', readFrame (mkReader k e) = (Fail err, r')).
Proof.
  intros [Hwf Ho]%write_frames_None. exists (encode_all framing ps). split; [done|]. split.
  - intros k e. by apply read_many_encode.
  - intros p k e Hp. apply (decode_truncated framing). by eapply Forall_forall.
Qed.

Lemma control_frames_fifo_witness :
  exists sent, read_many framing 2 (mkReader (sent ++ bytes_of "rest") EOF)
    = (Ok [bytes_of "hello"; []], mkReader (bytes_of "rest") EOF).
Proof.
  destruct (write_frames [bytes_of "hello"; []] infinite_writer) as [[err|] w'] eqn:E;
    [vm_compute in E; discriminate E|].
  destruct (control_frames_fifo _ _ _ E) as (sent & _ & H & _). exists sent. apply (H _ EOF).
Defined.
End Protocol.

(** ** Stream errors: streamerr.go *)
Module StreamErr.
Definition maxStreamErrorReason : Z := 200.

Definition streamErrorMagic : list byte :=
  ["000"; "M"; "M"; "E"; "R"; "R"; "001"]%char.

(** [reason[:maxStreamErrorReason]] when it is longer. *)
Definition clip (m : Z) (reason : string) : list byte :=
  if (m <? slen reason)%Z then take (Z.to_nat m) (bytes_of reason) else bytes_of reason.

Definition errorFrame (reason : list byte) : list byte :=
  streamErrorMagic ++ PutUint16 (len reason) ++ reason.

Definition WriteStreamError (reason : string) (w : writer) : option goerr * writer :=
  match Write (errorFrame (clip maxStreamErrorReason reason)) w with
  | (Some err, w') => (Some (EWrap "write stream error: " err ""), w')
  | (None, w') => (None, w')
  end.

(** The reason and whether the stream starts with an error frame; only an
    error frame is consumed. *)
Definition ReadStreamError (br : reader) : (string * bool) * reader :=
  match Peek (len streamErrorMagic) br with
  | None => (("", false), br)
  | Some head =>
      if bool_decide (head = streamErrorMagic) then
        let br := mkReader (drop (length streamErrorMagic) (rd_data br)) (rd_end br) in
        match ReadFull 2 br with
        | (Fail _, br) => (("", true), br)
        | (Ok lenBuf, br) =>
            let n := be_get lenBuf in
            if (maxStreamErrorReason <? n)%Z then (("", true), br)
            else
              match ReadFull n br with
              | (Fail _, br) => (("", true), br)
              | (Ok reason, br) => ((string_of reason, true), br)
              end
        end
      else (("", false), br)
  end.

Lemma len_clip m s : (0 <= m)%Z -> (len (clip m s) <= m)%Z.
Proof.
  intros Hm. unfold clip, slen. case_match eqn:E; bool_to_prop; [|lia].
  etrans; [apply len_take_le|lia].
Qed.

Lemma clip_id m s : (slen s <= m)%Z -> clip m s = bytes_of s.
Proof. intros Hs. unfold clip. by rewrite (proj2 (Z.ltb_ge _ _)). Qed.

Lemma ReadStreamError_frame reason k e :
  (len reason <= maxStreamErrorReason)%Z ->
  ReadStreamError (mkReader (errorFrame reason ++ k) e) =
    ((string_of reason, true), mkReader k e).
Proof.
  intros Hr. unfold ReadStreamError, errorFrame. rewrite <- !app_assoc.
  rewrite Peek_app by done. rewrite bool_decide_true by done.
  cbn [rd_data rd_end]. rewrite drop_app_length.
  rewrite ReadFull_app by done.
  unfold maxStreamErrorReason in *. pose proof (len_nonneg reason).
  rewrite Uint16_roundtrip by lia. rewrite (proj2 (Z.ltb_ge _ _)) by done.
  by rewrite ReadFull_app.
Qed.

Lemma ReadStreamError_passthrough r :
  ~ streamErrorMagic `prefix_of` rd_data r -> ReadStreamError r = (("", false), r).
Proof.
  intros Hp. unfold ReadStreamError, Peek.
  destruct (_ <? _)%Z; [done|].
  rewrite bool_decide_false; [done|]. intros Hh. apply Hp.
  exists (drop (Z.to_nat (len streamErrorMagic)) (rd_data r)).
  rewrite <- Hh at 1. by rewrite take_drop.
Qed.

(** An error frame written at the start of a stream is read back as its reason, cut to
    200 bytes, and consumed; a stream that does not start with the magic is left untouched,
    so payload is never taken for an error. *)
Theorem stream_error_demultiplexed reason w w' :
  WriteStreamError reason w = (None, w') ->
  (exists sent, wr_out w' = wr_out w ++ sent /\
     forall k e, ReadStreamError (mkReader (sent ++ k) e) =
       ((string_of (clip maxStreamErrorReason reason), true), mkReader k e)) /\
  (forall r, ~ streamErrorMagic `prefix_of` rd_data r -> ReadStreamError r = (("", false), r)).
Proof.
  unfold WriteStreamError. destruct (Write _ w) as [[err|] w1] eqn:E; [done|]. intros [= <-].
  apply Write_None in E. split; [|apply ReadStreamError_passthrough].
  eexists. split; [exact E|]. intros k e. apply ReadStreamError_frame. by apply len_clip.
Qed.

Lemma stream_error_demultiplexed_witness :
  exists sent, ReadStreamError (mkReader (sent ++ bytes_of "tail") EOF)
    = (("no route", true), mkReader (bytes_of "tail") EOF).
Proof.
  destruct (WriteStreamError "no route" infinite_writer) as [[err|] w'] eqn:E;
    [vm_compute in E; discriminate E|].
  destruct (stream_error_demultiplexed _ _ _ E) as [(sent & _ & H) _].
  exists sent. exact (H (bytes_of "tail") EOF).
Defined.
End StreamErr.

(** ** Egress replies and exit targets: egress.go *)
Module Egress.
Definition maxEgressReason : Z := 200.
Definition MaxExitTargets : Z := 16.
Definition maxExitTargetBytes : Z := 64.

(** [type EgressStatus byte]. *)
Definition EgressStatus : Type := byte.
Definition EgressOK : EgressStatus := Zbyte 0.
Definition EgressDenied : EgressStatus := Zbyte 1.
Definition EgressUnavailable : EgressStatus := Zbyte 2.
Definition EgressDialFailed : EgressStatus := Zbyte 3.
Definition EgressInvalid : EgressStatus := Zbyte 4.
Definition EgressAuthRequired : EgressStatus := Zbyte 5.

Definition egressReplyMagic : list byte := ["000"; "M"; "M"; "E"; "G"; "001"]%char.
Definition exitTargetsMagic : list byte := ["000"; "M"; "M"; "E"; "R"; "001"]%char.

Definition ErrBadEgressReply : goerr := ENew "tunnel: malformed egress reply".
Definition ErrBadExitTargets : goerr := ENew "tunnel: malformed exit targets".

Record EgressReply := mkReply { Status : EgressStatus; Reason : string }.

Definition replyFrame (status : EgressStatus) (reason : list byte) : list byte :=
  egressReplyMagic ++ [status; Zbyte (len reason)] ++ reason.

Definition WriteEgressReply (reply : EgressReply) (w : writer) : option goerr * writer :=
  let reason := StreamErr.clip maxEgressReason (Reason reply) in
  match Write (replyFrame (Status reply) reason) w with
  | (Some err, w') => (Some (EWrap "write egress reply: " err ""), w')
  | (None, w') => (None, w')
  end.

Definition ReadEgressReply : RD EgressReply :=
  read head <- rd_wrap "read egress reply: " (ReadFull (len egressReplyMagic + 2));
  if bool_decide (take (length egressReplyMagic) head = egressReplyMagic) then
    let status := nth (length egressReplyMagic) head "000"%char in
    let n := byteZ (nth (length egressReplyMagic + 1) head "000"%char) in
    if ((byteZ EgressAuthRequired <? byteZ status) || (maxEgressReason <? n))%Z
    then rd_fail ErrBadEgressReply
    else
      read reason <- rd_wrap "read egress reply: " (ReadFull n);
      rd_ret (mkReply status (string_of reason))
  else rd_fail ErrBadEgressReply.

(** The loop that appends the targets to the frame. *)
Fixpoint appendTargets (frame : list byte) (targets : list string) : option (list byte) :=
  match targets with
  | [] => Some frame
  | t :: ts =>
      if bool_decide (t = "") || (maxExitTargetBytes <? slen t)%Z then None
      else appendTargets (frame ++ Zbyte (slen t) :: bytes_of t) ts
  end.

Definition WriteExitTargets (targets : list string) (w : writer) : option goerr * writer :=
  if (MaxExitTargets <? len targets)%Z then (Some ErrBadExitTargets, w)
  else
    match appendTargets (exitTargetsMagic ++ [Zbyte (len targets)]) targets with
    | None => (Some ErrBadExitTargets, w)
    | Some frame =>
        match Write frame w with
        | (Some err, w') => (Some (EWrap "write exit targets: " err ""), w')
        | (None, w') => (None, w')
        end
    end.

(** The loop that reads [count] targets. *)
Fixpoint readTargets (count : nat) : RD (list string) :=
  match count with
  | O => rd_ret []
  | S count' =>
      read nb <- rd_wrap "read exit targets: " (ReadFull 1);
      let n := byteZ (nth 0 nb "000"%char) in
      if ((n =? 0) || (maxExitTargetBytes <? n))%Z then rd_fail ErrBadExitTargets
      else
        read t <- rd_wrap "read exit targets: " (ReadFull n);
        read rest <- readTargets count';
        rd_ret (string_of t :: rest)
  end.

(** Either the targets or the reply the far end sent instead of them. *)
Definition ReadExitResolution : RD (list string * option EgressReply) :=
  read magic <- rd_wrap "read exit resolution: " (ReadFull (len exitTargetsMagic));
  if bool_decide (magic = egressReplyMagic) then
    read reply <- (fun r => ReadEgressReply (mkReader (magic ++ rd_data r) (rd_end r)));
    rd_ret ([], Some reply)
  else if bool_decide (magic = exitTargetsMagic) then
    read count <- rd_wrap "read exit targets: " (ReadFull 1);
    let c := byteZ (nth 0 count "000"%char) in
    if (MaxExitTargets <? c)%Z then rd_fail ErrBadExitTargets
    else
      read targets <- readTargets (Z.to_nat c);
      rd_ret (targets, None)
  else rd_fail ErrBadExitTargets.

Definition ReadExitTargets : RD (list string) :=
  read r <- ReadExitResolution;
  match r with
  | (_, Some _) => rd_fail ErrBadExitTargets
  | (targets, None) => rd_ret targets
  end.

(** *** Replies *)

Definition reply_wf (reply : EgressReply) : Prop :=
  (byteZ (Status reply) <= 5)%Z /\ (slen (Reason reply) <= maxEgressReason)%Z.

Definition reply_bytes (reply : EgressReply) : list byte :=
  replyFrame (Status reply) (bytes_of (Reason reply)).

Lemma byteZ_small z : (0 <= z < 256)%Z -> byteZ (Zbyte z) = z.
Proof. intros Hz. rewrite byteZ_Zbyte. by apply Z.mod_small. Qed.

Lemma rd_wrap_Ok {A} pre (c : RD A) r a r' :
  rd_wrap pre c r = (Ok a, r') <-> c r = (Ok a, r').
Proof. unfold rd_wrap. destruct (c r) as [[|] ?]; split; intros; simplify_eq; done. Qed.

Lemma rd_bind_Ok {A B} (c : RD A) (k : A -> RD B) r b r' :
  rd_bind c k r = (Ok b, r') <-> exists a r1, c r = (Ok a, r1) /\ k a r1 = (Ok b, r').
Proof.
  unfold rd_bind. destruct (c r) as [[a|e] r1].
  - split; [eauto|]. by intros (? & ? & [= <- <-] & ?).
  - split; [done|]. by intros (? & ? & ? & ?).
Qed.

Lemma ReadEgressReply_bytes reply k e :
  reply_wf reply ->
  ReadEgressReply (mkReader (reply_bytes reply ++ k) e) = (Ok reply, mkReader k e).
Proof.
  destruct reply as [status reason]. intros [Hs Hr]. cbn [Status Reason] in *.
  unfold slen, maxEgressReason in *. pose proof (len_nonneg (bytes_of reason)).
  unfold ReadEgressReply, reply_bytes, replyFrame. cbn [Status Reason].
  apply rd_bind_Ok.
  exists (egressReplyMagic ++ [status; Zbyte (len (bytes_of reason))]),
    (mkReader (bytes_of reason ++ k) e).
  split; [apply rd_wrap_Ok; rewrite <- !app_assoc, app_assoc; by apply ReadFull_app|].
  rewrite bool_decide_true by by rewrite take_app_length.
  cbn [egressReplyMagic length app nth Nat.add]. rewrite byteZ_small by lia.
  change (byteZ EgressAuthRequired) with 5%Z. unfold maxEgressReason.
  rewrite !(proj2 (Z.ltb_ge _ _)) by lia. cbn [orb].
  apply rd_bind_Ok. exists (bytes_of reason), (mkReader k e).
  split; [apply rd_wrap_Ok; by apply ReadFull_app|].
  unfold rd_ret. by rewrite string_of_bytes_of.
Qed.

Lemma header_split (l : list byte) (d : byte) :
  len l = 8%Z -> l = take 6 l ++ [nth 6 l d; nth 7 l d].
Proof.
  unfold len. intros Hl.
  do 9 (destruct l as [|? l]; [done || (simpl in Hl; lia)|]). simpl in Hl. lia.
Qed.

Lemma ReadEgressReply_sound r reply r' :
  ReadEgressReply r = (Ok reply, r') ->
  reply_wf reply /\ rd_data r = reply_bytes reply ++ rd_data r' /\ rd_end r' = rd_end r.
Proof.
  unfold ReadEgressReply. intros (head & r1 & E1 & E2)%rd_bind_Ok.
  apply rd_wrap_Ok, ReadFull_Ok in E1 as (Hlen & Hd & He); [|done].
  case_bool_decide as Hm; [|done].
  pose proof (header_split head "000"%char Hlen) as Hh.
  change (length egressReplyMagic) with 6 in *. rewrite Hm in Hh.
  change (6 + 1) with 7 in E2.
  destruct (_ || _)%bool eqn:Hb; [done|].
  apply rd_bind_Ok in E2 as (reason & r2 & E2 & E3).
  apply rd_wrap_Ok, ReadFull_Ok in E2 as (Hlen2 & Hd2 & He2); [|apply byteZ_range].
  unfold rd_ret in E3. simplify_eq. bool_to_prop.
  unfold reply_wf, reply_bytes, replyFrame, slen. cbn [Status Reason].
  rewrite bytes_of_string_of, Hlen2, Zbyte_byteZ.
  split_and!; [done|done| |congruence].
  rewrite Hd, Hh, Hd2, <- !app_assoc. done.
Qed.

Definition reply_framing : Framing EgressReply :=
  {| fr_wf := reply_wf; fr_encode := reply_bytes; fr_decode := ReadEgressReply;
     fr_decode_encode := ReadEgressReply_bytes; fr_decode_sound := ReadEgressReply_sound |}.

(** *** Exit targets *)

Definition target_ok (t : string) : Prop := (1 <= slen t <= maxExitTargetBytes)%Z.

#[export] Instance target_ok_dec t : Decision (target_ok t).
Proof. unfold target_ok. apply _. Defined.


Definition target_bytes (t : string) : list byte := Zbyte (slen t) :: bytes_of t.

Definition targets_bytes (ts : list string) : list byte :=
  exitTargetsMagic ++ [Zbyte (len ts)] ++ concat (map target_bytes ts).

Lemma slen_empty s : slen s = 0%Z <-> s = "".
Proof. unfold slen, len. destruct s; simpl; split; intros; try done; lia. Qed.

Lemma appendTargets_Some frame ts out :
  appendTargets frame ts = Some out <->
  Forall target_ok ts /\ out = frame ++ concat (map target_bytes ts).
Proof.
  revert frame. induction ts as [|t ts IH]; intros frame; simpl.
  { rewrite app_nil_r. split; [intros [= ->]|intros [_ ->]]; auto. }
  rewrite Forall_cons. unfold target_ok at 1.
  pose proof (slen_empty t) as He. pose proof (len_nonneg (bytes_of t)) as Hn.
  fold (slen t) in Hn.
  destruct (_ || _)%bool eqn:Hb.
  - split; [done|]. intros [[Ht _] _]. apply orb_true_iff in Hb as [Hb|Hb]; bool_to_prop.
    + apply He in Hb. lia.
    + lia.
  - bool_to_prop. rewrite IH, <- app_assoc. simpl.
    assert (slen t <> 0%Z) by (intros E; by apply He in E).
    split; [intros [? ?]|intros [[? ?] ?]]; split_and!; auto; lia.
Qed.

Lemma readTargets_bytes ts k e :
  Forall target_ok ts ->
  readTargets (length ts) (mkReader (concat (map target_bytes ts) ++ k) e) = (Ok ts, mkReader k e).
Proof.
  induction 1 as [|t ts Ht _ IH]; [done|]. cbn [readTargets length map concat].
  unfold target_ok, maxExitTargetBytes in Ht.
  apply rd_bind_Ok. exists [Zbyte (slen t)],
    (mkReader (bytes_of t ++ concat (map target_bytes ts) ++ k) e).
  split; [apply rd_wrap_Ok; unfold target_bytes at 1; rewrite <- app_assoc;
          by apply (ReadFull_app _ [_])|].
  cbn [nth]. rewrite byteZ_small by lia.
  rewrite (proj2 (Z.eqb_neq _ _)), (proj2 (Z.ltb_ge _ _)) by (unfold maxExitTargetBytes; lia).
  cbn [orb]. apply rd_bind_Ok. eexists _, _.
  split; [apply rd_wrap_Ok; by apply ReadFull_app|].
  apply rd_bind_Ok. eexists _, _. split; [exact IH|].
  unfold rd_ret. by rewrite string_of_bytes_of.
Qed.

Lemma singleton_of_len (l : list byte) : len l = 1%Z -> l = [nth 0 l "000"%char].
Proof. destruct l as [|b [|]]; unfold len; simpl; intros; try lia; done. Qed.

Lemma readTargets_sound n r ts r' :
  readTargets n r = (Ok ts, r') ->
  length ts = n /\ Forall target_ok ts /\
  rd_data r = concat (map target_bytes ts) ++ rd_data r' /\ rd_end r' = rd_end r.
Proof.
  revert r ts r'. induction n as [|n IH]; intros r ts r'; cbn [readTargets].
  { unfold rd_ret. by intros [= <- <-]. }
  intros (nb & r1 & E1 & E2)%rd_bind_Ok.
  apply rd_wrap_Ok, ReadFull_Ok in E1 as (H1 & D1 & X1); [|done].
  pose proof (byteZ_range (nth 0 nb "000"%char)) as Hrange.
  destruct (_ || _)%bool eqn:Hb; [done|]. bool_to_prop.
  apply rd_bind_Ok in E2 as (t & r2 & E2 & E3).
  apply rd_wrap_Ok, ReadFull_Ok in E2 as (H2 & D2 & X2); [|lia].
  apply rd_bind_Ok in E3 as (rest & r3 & E3 & E4).
  apply IH in E3 as (? & ? & D3 & X3). unfold rd_ret in E4. simplify_eq.
  cbn [map concat length]. split_and!; [done| | |congruence].
  - constructor; [|done]. unfold target_ok, slen. rewrite bytes_of_string_of. lia.
  - unfold target_bytes at 1, slen. rewrite bytes_of_string_of, H2, Zbyte_byteZ.
    rewrite D1, D2, D3, (singleton_of_len nb) by done. cbn [app nth]. by rewrite <- app_assoc.
Qed.

(** *** Exit resolutions *)

(** What an exit agent answers: the addresses it resolved, or a refusal. *)
Definition resolution_wf (x : list string * option EgressReply) : Prop :=
  match x with
  | (ts, None) => Forall target_ok ts /\ (len ts <= MaxExitTargets)%Z
  | (ts, Some reply) => ts = [] /\ reply_wf reply
  end.

Definition resolution_bytes (x : list string * option EgressReply) : list byte :=
  match x with
  | (ts, None) => targets_bytes ts
  | (_, Some reply) => reply_bytes reply
  end.

Lemma ReadExitResolution_bytes x k e :
  resolution_wf x ->
  ReadExitResolution (mkReader (resolution_bytes x ++ k) e) = (Ok x, mkReader k e).
Proof.
  unfold ReadExitResolution. destruct x as [ts [reply|]]; cbn [resolution_wf resolution_bytes].
  - intros [-> Hr]. pose proof (ReadEgressReply_bytes reply k e Hr) as E.
    unfold reply_bytes, replyFrame in *. rewrite <- app_assoc in *.
    apply rd_bind_Ok. eexists egressReplyMagic, _.
    split; [apply rd_wrap_Ok; by apply ReadFull_app|].
    rewrite bool_decide_true by done. apply rd_bind_Ok. by eexists _, _.
  - intros [Hts Hlen]. unfold targets_bytes. rewrite <- !app_assoc.
    apply rd_bind_Ok. eexists exitTargetsMagic, _.
    split; [apply rd_wrap_Ok; by apply ReadFull_app|].
    rewrite bool_decide_false, bool_decide_true by done.
    apply rd_bind_Ok. eexists [Zbyte (len ts)], _.
    split; [apply rd_wrap_Ok; by apply ReadFull_app|].
    unfold MaxExitTargets in *. pose proof (len_nonneg ts).
    cbn [nth]. rewrite byteZ_small by lia. rewrite (proj2 (Z.ltb_ge _ _)) by done.
    apply rd_bind_Ok. eexists ts, _. rewrite len_to_nat.
    split; [by apply readTargets_bytes|done].
Qed.

Lemma ReadExitResolution_sound r x r' :
  ReadExitResolution r = (Ok x, r') ->
  resolution_wf x /\ rd_data r = resolution_bytes x ++ rd_data r' /\ rd_end r' = rd_end r.
Proof.
  unfold ReadExitResolution. intros (magic & r1 & E1 & E2)%rd_bind_Ok.
  apply rd_wrap_Ok, ReadFull_Ok in E1 as (H1 & D1 & X1); [|done].
  case_bool_decide as Hm; [|case_bool_decide as Hm2; [|done]].
  - apply rd_bind_Ok in E2 as (reply & r2 & E2 & E3).
    apply ReadEgressReply_sound in E2 as (? & D2 & X2). unfold rd_ret in E3.
    simplify_eq/=. split_and!; auto; congruence.
  - apply rd_bind_Ok in E2 as (count & r2 & E2 & E3).
    apply rd_wrap_Ok, ReadFull_Ok in E2 as (H2 & D2 & X2); [|done].
    pose proof (byteZ_range (nth 0 count "000"%char)) as Hrange.
    case_match eqn:Hc; [done|]. bool_to_prop.
    apply rd_bind_Ok in E3 as (ts & r3 & E3 & E4).
    apply readTargets_sound in E3 as (H3 & ? & D3 & X3). unfold rd_ret in E4. simplify_eq.
    assert (Hl : len ts = byteZ (nth 0 count "000"%char)) by (unfold len; lia).
    cbn [resolution_wf resolution_bytes]. split_and!; [done|lia| |congruence].
    unfold targets_bytes. rewrite Hl, Zbyte_byteZ, D1, D2, D3, (singleton_of_len count) by done.
    cbn [nth]. by rewrite <- !app_assoc.
Qed.

Definition resolution_framing : Framing (list string * option EgressReply) :=
  {| fr_wf := resolution_wf; fr_encode := resolution_bytes; fr_decode := ReadExitResolution;
     fr_decode_encode := ReadExitResolution_bytes;
     fr_decode_sound := ReadExitResolution_sound |}.

(** The writer accepts exactly the targets the reader accepts, writes one
    frame, and writes nothing at all when it refuses. *)
Lemma WriteExitTargets_spec ts w :
  (resolution_wf (ts, None) ->
     forall w', Write (targets_bytes ts) w = (None, w') -> WriteExitTargets ts w = (None, w')) /\
  (~ resolution_wf (ts, None) -> WriteExitTargets ts w = (Some ErrBadExitTargets, w)).
Proof.
  unfold WriteExitTargets, resolution_wf, targets_bytes. split.
  - intros [Hok Hlen] w' Hw. rewrite (proj2 (Z.ltb_ge _ _)) by done.
    rewrite (proj2 (appendTargets_Some _ _ _)) by (split; [done|reflexivity]).
    rewrite <- app_assoc. by rewrite Hw.
  - intros Hno. destruct (_ <? _)%Z eqn:Hlt; [done|]. bool_to_prop.
    destruct (appendTargets _ _) as [out|] eqn:E; [|done].
    apply appendTargets_Some in E as [Hok _]. exfalso. auto.
Qed.

(** An exit resolution is accepted exactly when the stream starts with the encoding of
    at most 16 targets of 1 to 64 bytes each, or of a well-formed refusal; the two never
    mix and nothing more is consumed. *)
Theorem ReadExitResolution_exact r x r' :
  ReadExitResolution r = (Ok x, r') <->
  resolution_wf x /\ rd_data r = resolution_bytes x ++ rd_data r' /\ rd_end r' = rd_end r.
Proof.
  split; [apply ReadExitResolution_sound|]. intros (Hx & Hd & He).
  destruct r as [d e], r' as [d' e']. cbn [rd_data rd_end] in *. subst.
  by apply ReadExitResolution_bytes.
Qed.

(** [WriteExitTargets] refuses exactly the lists no reader accepts, and then writes
    nothing; any other list on a working stream comes back from [ReadExitTargets]. *)
Theorem exit_targets_roundtrip ts w :
  wr_room w = None ->
  if bool_decide (Forall target_ok ts /\ (len ts <= MaxExitTargets)%Z)
  then exists sent, WriteExitTargets ts w = (None, mkWriter (wr_out w ++ sent) None (wr_err w)) /\
         forall k e, ReadExitTargets (mkReader (sent ++ k) e) = (Ok ts, mkReader k e)
  else WriteExitTargets ts w = (Some ErrBadExitTargets, w).
Proof.
  intros Hw. destruct (WriteExitTargets_spec ts w) as [Hok Hbad].
  case_bool_decide as Hwf; [|by apply Hbad].
  exists (targets_bytes ts). split; [apply Hok; [done|by apply Write_infinite]|].
  intros k e. unfold ReadExitTargets. apply rd_bind_Ok.
  exists (ts, None), (mkReader k e). split; [|done].
  by apply (ReadExitResolution_bytes (ts, None)).
Qed.

Lemma exit_targets_roundtrip_witness :
  WriteExitTargets [""] infinite_writer = (Some ErrBadExitTargets, infinite_writer).
Proof.
  pose proof (exit_targets_roundtrip [""] infinite_writer ltac:(reflexivity)) as H.
  rewrite bool_decide_eq_false_2 in H; [exact H|].
  intros [Hf _]. apply Forall_cons_1 in Hf as [[Hf _] _]. vm_compute in Hf. apply Hf. reflexivity.
Defined.
End Egress.

(** ** Datagram frames: datagram.go *)
Module DatagramFrame.
Definition MaxDatagramSize : Z := 65507.
Definition datagramHeaderSize : Z := 2.

Definition ErrDatagramTooLarge : goerr := ENew "tunnel: datagram too large".

(** [fmt.Errorf("%w: %d bytes", ErrDatagramTooLarge, n)] *)
Definition tooLarge (n : Z) : goerr :=
  EWrap "" ErrDatagramTooLarge (": " +:+ pretty n +:+ " bytes").

(** Header and payload go out in one write. *)
Definition WriteDatagram (p : list byte) (w : writer) : option goerr * writer :=
  if (MaxDatagramSize <? len p)%Z then (Some ErrDatagramTooLarge, w)
  else Write (PutUint16 (len p) ++ p) w.

(** [ReadDatagram r buf] with [len(buf) = bufsize]; the result is [buf[:n]]. *)
Definition ReadDatagram (bufsize : Z) : RD (list byte) :=
  read hdr <- ReadFull datagramHeaderSize;
  let n := be_get hdr in
  if ((bufsize <? n) || (MaxDatagramSize <? n))%Z then rd_fail (tooLarge n)
  else ReadFull n.

Definition datagram_wf (bufsize : Z) (p : list byte) : Prop :=
  (len p <= bufsize /\ len p <= MaxDatagramSize)%Z.
Definition datagram_bytes (p : list byte) : list byte := PutUint16 (len p) ++ p.

Lemma ReadDatagram_bytes bufsize p k e :
  datagram_wf bufsize p ->
  ReadDatagram bufsize (mkReader (datagram_bytes p ++ k) e) = (Ok p, mkReader k e).
Proof.
  intros [H1 H2]. pose proof (len_nonneg p). unfold MaxDatagramSize in H2.
  unfold ReadDatagram, datagram_bytes, rd_bind. rewrite <- app_assoc.
  rewrite ReadFull_app by done. rewrite Uint16_roundtrip by lia.
  rewrite !(proj2 (Z.ltb_ge _ _)) by (unfold MaxDatagramSize; lia).
  by apply ReadFull_app.
Qed.

Lemma ReadDatagram_sound bufsize r p r' :
  ReadDatagram bufsize r = (Ok p, r') ->
  datagram_wf bufsize p /\ rd_data r = datagram_bytes p ++ rd_data r' /\ rd_end r' = rd_end r.
Proof.
  unfold ReadDatagram, rd_bind.
  destruct (ReadFull datagramHeaderSize r) as [[hdr|e] r1] eqn:E1; [|done].
  apply ReadFull_Ok in E1 as (Hlen & Hd & He); [|done].
  destruct (_ || _)%bool eqn:Hn; [done|]. intros E2. bool_to_prop.
  apply ReadFull_Ok in E2 as (Hlen2 & Hd2 & He2); [|apply be_get_nonneg].
  unfold datagram_wf, datagram_bytes, PutUint16. rewrite Hlen2, be_put_get_n by done.
  rewrite Hd, Hd2, He2, app_assoc. split_and!; auto.
Qed.

Definition framing (bufsize : Z) : Framing (list byte) :=
  {| fr_wf := datagram_wf bufsize; fr_encode := datagram_bytes;
     fr_decode := ReadDatagram bufsize;
     fr_decode_encode := ReadDatagram_bytes bufsize;
     fr_decode_sound := ReadDatagram_sound bufsize |}.

(** Writing datagrams one after the other, stopping at the first error. *)
Fixpoint write_all (ps : list (list byte)) (w : writer) : option goerr * writer :=
  match ps with
  | [] => (None, w)
  | p :: ps' =>
      match WriteDatagram p w with
      | (Some err, w') => (Some err, w')
      | (None, w') => write_all ps' w'
      end
  end.

Lemma WriteDatagram_None p w w' :
  WriteDatagram p w = (None, w') ->
  (len p <= MaxDatagramSize)%Z /\ wr_out w' = wr_out w ++ datagram_bytes p.
Proof.
  unfold WriteDatagram. case_match eqn:E; [done|]. intros Hw. bool_to_prop.
  split; [done|]. by apply Write_None in Hw.
Qed.

Lemma write_all_None ps w w' :
  write_all ps w = (None, w') ->
  Forall (fun p => len p <= MaxDatagramSize)%Z ps /\
  wr_out w' = wr_out w ++ concat (map datagram_bytes ps).
Proof.
  revert w. induction ps as [|p ps IH]; intros w; simpl.
  { intros [= <-]. by rewrite app_nil_r. }
  destruct (WriteDatagram p w) as [[err|] w1] eqn:E; [done|]. intros E2.
  apply WriteDatagram_None in E as [? Ho]. apply IH in E2 as [? Ho2].
  rewrite Ho2, Ho, <- app_assoc. auto.
Qed.

(** Datagrams written without an error are read back with their boundaries and order
    when the reader's buffer holds them; an oversized datagram writes nothing. *)
Theorem datagrams_keep_boundaries bufsize ps w w' :
  (MaxDatagramSize <= bufsize)%Z -> write_all ps w = (None, w') ->
  exists sent, wr_out w' = wr_out w ++ sent /\
    (forall k e, read_many (framing bufsize) (length ps) (mkReader (sent ++ k) e)
       = (Ok ps, mkReader k e)) /\
    (forall p, (MaxDatagramSize < len p)%Z -> WriteDatagram p w = (Some ErrDatagramTooLarge, w)).
Proof.
  intros Hb [Hwf Ho]%write_all_None. eexists. split; [exact Ho|]. split.
  - intros k e. apply read_many_encode. eapply Forall_impl; [exact Hwf|].
    intros p Hp. split; [simpl in *; lia|done].
  - intros p Hp. unfold WriteDatagram. by rewrite (proj2 (Z.ltb_lt _ _)).
Qed.

Lemma datagrams_keep_boundaries_witness :
  exists sent, read_many (framing 65507) 2 (mkReader sent EOF)
    = (Ok [bytes_of "a"; bytes_of "bc"], mkReader [] EOF).
Proof.
  destruct (write_all [bytes_of "a"; bytes_of "bc"] infinite_writer) as [[err|] w'] eqn:E;
    [vm_compute in E; discriminate E|].
  destruct (datagrams_keep_boundaries 65507 _ _ _ ltac:(done) E) as (sent & _ & H & _).
  exists (sent ++ []). exact (H [] EOF).
Defined.
End DatagramFrame.

(** ** Messages over a control stream: protocol.go, session.go *)
Module Control.
Import Protocol.

(** [encoding/json] of the message type. *)
Class Codec (T : Type) := {
  Marshal : T -> res (list byte);
  Unmarshal : list byte -> res T
}.

(** Decoding an encoded message gives the message back. *)
Class CodecLaws (T : Type) `{Codec T} : Prop :=
  Unmarshal_Marshal : forall v b, Marshal v = Ok b -> Unmarshal b = Ok v.

Section Channel.
Context {T : Type} `{CodecLaws T}.

Definition writeJSON (v : T) (w : writer) : option goerr * writer :=
  match Marshal v with
  | Fail err => (Some err, w)
  | Ok b => writeFrame b w
  end.

Definition readJSON : RD T := fun r =>
  match readFrame r with
  | (Fail err, r') => (Fail err, r')
  | (Ok b, r') => (Unmarshal b, r')
  end.

(** [Control.Send] holds [writeM] for the whole frame, so concurrent senders
    are a sequence of sends. *)
Fixpoint SendAll (msgs : list T) (w : writer) : option goerr * writer :=
  match msgs with
  | [] => (None, w)
  | m :: msgs' =>
      match writeJSON m w with
      | (Some err, w') => (Some err, w')
      | (None, w') => SendAll msgs' w'
      end
  end.

Fixpoint RecvAll (n : nat) : RD (list T) :=
  match n with
  | O => rd_ret []
  | S n' => read m <- readJSON; read ms <- RecvAll n'; rd_ret (m :: ms)
  end.

Lemma readJSON_frame v b k e :
  frame_wf b -> Marshal v = Ok b ->
  readJSON (mkReader (frame_bytes b ++ k) e) = (Ok v, mkReader k e).
Proof.
  intros Hb Hm. unfold readJSON. rewrite readFrame_bytes by done.
  by rewrite (Unmarshal_Marshal v b).
Qed.

Lemma SendAll_RecvAll msgs w w' k e :
  SendAll msgs w = (None, w') ->
  exists sent, wr_out w' = wr_out w ++ sent /\
    RecvAll (length msgs) (mkReader (sent ++ k) e) = (Ok msgs, mkReader k e).
Proof.
  revert w. induction msgs as [|m msgs IH]; intros w; simpl.
  { intros [= <-]. exists []. by rewrite app_nil_r. }
  unfold writeJSON. destruct (Marshal m) as [b|err] eqn:Em; [|done].
  destruct (writeFrame b w) as [[err|] w1] eqn:Ew; [done|]. intros Hs.
  apply writeFrame_None in Ew as [Hb Ho]. destruct (IH _ Hs) as (sent & Ho2 & Hr).
  exists (frame_bytes b ++ sent). rewrite Ho2, Ho, app_assoc. split; [done|].
  unfold rd_bind. rewrite <- app_assoc, (readJSON_frame m b) by done.
  by rewrite Hr.
Qed.
End Channel.
End Control.
