(* ===== verification/Netblock.v ===== *)
(** * Address guards

    internal/netblock decides which addresses a dial may reach: never the
    link-local, multicast and unspecified ones, loopback and private ranges
    only when the policy says so, and an IPv6 address that embeds an IPv4 one
    only when the IPv4 address is reachable too. *)
From S2P Require Import Prelude GoIO GoStrings GoNet.

(** ** netblock.go *)
Module Netblock.

(** [mustCIDRs] panics on a bad entry; [builtin_nets_parse] below shows that
    the literals of the program do not. *)
Definition mustCIDRs (cidrs : list string) : list IPNet := default [] (mapM ParseCIDR cidrs).

Definition alwaysBlockedCIDRs : list string :=
  ["0.0.0.0/8"; "169.254.0.0/16"; "224.0.0.0/4"; "255.255.255.255/32";
   "fe80::/10"; "ff00::/8"; "fd00:ec2::254/128"].

Definition privateCIDRs : list string :=
  ["10.0.0.0/8"; "172.16.0.0/12"; "192.168.0.0/16"; "100.64.0.0/10"; "192.0.0.0/24";
   "198.18.0.0/15"; "240.0.0.0/4"; "fc00::/7"; "64:ff9b::/96"; "64:ff9b:1::/48";
   "fec0::/10"; "2001::/32"; "2002::/16"].

Definition embeddedIPv4CIDRs : list string := ["64:ff9b::/96"; "::/96"].

Definition alwaysBlockedNets : list IPNet := mustCIDRs alwaysBlockedCIDRs.
Definition privateNets : list IPNet := mustCIDRs privateCIDRs.
Definition embeddedIPv4Nets : list IPNet := mustCIDRs embeddedIPv4CIDRs.

Record Policy := mkPolicy {
  AllowLoopback : bool;
  AllowPrivate : bool;
  AllowedCIDRs : list IPNet
}.

Definition Normalize (ip : IP) : IP :=
  match To4 ip with Some v4 => v4 | None => ip end.

Definition InAny (nets : list IPNet) (ip : IP) : bool := existsb (fun n => net_contains n ip) nets.

(** [None] is Go's [nil]. *)
Definition embeddedIPv4 (ip : IP) : option IP :=
  if negb (is16 ip) || negb (InAny embeddedIPv4Nets ip) then None
  else To4 (IPv4 (nth 12 ip "000"%char) (nth 13 ip "000"%char)
                 (nth 14 ip "000"%char) (nth 15 ip "000"%char)).

(** The guard that refuses an address whatever the policy. *)
Definition alwaysBlocked (ip : IP) : bool :=
  IsUnspecified ip || IsMulticast ip || IsLinkLocalUnicast ip || IsLinkLocalMulticast ip
  || InAny alwaysBlockedNets ip.

(** The body of [IPAllowed], with [rec] for its recursive call. *)
Definition IPAllowed_body (rec : IP -> bool) (p : Policy) (ip : IP) : bool :=
  let ip := Normalize ip in
  if alwaysBlocked ip then false
  else if IsLoopback ip then AllowLoopback p
  else if (match embeddedIPv4 ip with Some v4 => negb (rec v4) | None => false end) then false
  else if IsPrivate ip || InAny privateNets ip
       then AllowPrivate p || InAny (AllowedCIDRs p) ip
  else true.

(** The embedded address has four bytes and embeds nothing itself, so two
    levels are enough ([IPAllowed_unfold]). *)
Fixpoint IPAllowed_fuel (n : nat) (p : Policy) (ip : IP) : bool :=
  match n with
  | O => false
  | S n' => IPAllowed_body (IPAllowed_fuel n' p) p ip
  end.

Definition IPAllowed (p : Policy) (ip : IP) : bool := IPAllowed_fuel 2 p ip.

Example builtin_nets_parse :
  forallb (fun c => bool_decide (is_Some (ParseCIDR c)))
    (alwaysBlockedCIDRs ++ privateCIDRs ++ embeddedIPv4CIDRs) = true.
Proof. vm_compute. reflexivity. Qed.

Lemma To4_length ip v4 : To4 ip = Some v4 -> length v4 = 4.
Proof.
  unfold To4. destruct (bool_decide (length ip = 4)) eqn:E4.
  { intros [= <-]. by bool_to_prop. }
  destruct (_ && _)%bool eqn:E; intros [= <-]. bool_to_prop. rewrite length_drop. lia.
Qed.

Lemma To4_id ip : length ip = 4 -> To4 ip = Some ip.
Proof. intros H. unfold To4. by rewrite bool_decide_true. Qed.

Lemma Normalize_idemp ip : Normalize (Normalize ip) = Normalize ip.
Proof.
  unfold Normalize. destruct (To4 ip) as [v4|] eqn:E.
  - by rewrite (To4_id v4 (To4_length _ _ E)).
  - by rewrite E.
Qed.

Lemma embeddedIPv4_length ip v4 : embeddedIPv4 ip = Some v4 -> length v4 = 4.
Proof. unfold embeddedIPv4. case_match; [done|]. apply To4_length. Qed.

Lemma embeddedIPv4_v4 ip : length ip = 4 -> embeddedIPv4 ip = None.
Proof. intros H. unfold embeddedIPv4, is16. by rewrite bool_decide_false by lia. Qed.

Lemma IPAllowed_fuel_v4 n m p ip :
  length ip = 4 -> IPAllowed_fuel (S n) p ip = IPAllowed_fuel (S m) p ip.
Proof.
  intros H. simpl. unfold IPAllowed_body.
  assert (Hn : Normalize ip = ip) by (unfold Normalize; by rewrite To4_id).
  rewrite Hn, embeddedIPv4_v4 by done. done.
Qed.

(** The two levels of fuel give the recursion equation of the Go method. *)
Lemma IPAllowed_unfold p ip : IPAllowed p ip = IPAllowed_body (IPAllowed p) p ip.
Proof.
  unfold IPAllowed at 1. cbn [IPAllowed_fuel].
  change (IPAllowed_body (IPAllowed_fuel 1 p) p ip = IPAllowed_body (IPAllowed p) p ip).
  unfold IPAllowed_body. destruct (embeddedIPv4 (Normalize ip)) as [v4|] eqn:E; [|done].
  unfold IPAllowed. rewrite (IPAllowed_fuel_v4 0 1); [done|].
  by apply embeddedIPv4_length in E.
Qed.

(** *** Byte-aligned networks *)

Lemma land_255 b : Z.land (byteZ b) 255 = byteZ b.
Proof.
  change 255%Z with (Z.ones 8). rewrite Z.land_ones by lia.
  apply Z.mod_small. apply byteZ_range.
Qed.

Lemma and_bytes_aligned x k j :
  length x = k + j ->
  and_bytes x (repeat (Zbyte 255) k ++ repeat (Zbyte 0) j) = take k x ++ repeat (Zbyte 0) j.
Proof.
  revert x. induction k as [|k IH]; intros x Hx; simpl in *.
  - revert x Hx. induction j as [|j IHj]; intros [|b x] Hx; simpl in *; try lia; [done|].
    unfold and_bytes in *. simpl. rewrite IHj by lia. f_equal.
    change (byteZ (Zbyte 0)) with 0%Z. by rewrite Z.land_0_r.
  - destruct x as [|b x]; simpl in *; [lia|]. unfold and_bytes in *. simpl.
    rewrite IH by lia. f_equal.
    change (byteZ (Zbyte 255)) with 255%Z. by rewrite land_255, Zbyte_byteZ.
Qed.

Definition nat64Prefix : list byte := ip_bytes [0; 100; 255; 155; 0; 0; 0; 0; 0; 0; 0; 0]%Z.
Definition compatPrefix : list byte := repeat (Zbyte 0) 12.

Definition net96 (pre : list byte) : IPNet :=
  mkNet (pre ++ repeat (Zbyte 0) 4) (repeat (Zbyte 255) 12 ++ repeat (Zbyte 0) 4).

Lemma embeddedIPv4Nets_eq : embeddedIPv4Nets = [net96 nat64Prefix; net96 compatPrefix].
Proof. vm_compute. reflexivity. Qed.

Lemma net96_contains pre ip :
  length pre = 12 -> To4 (pre ++ repeat (Zbyte 0) 4) = None ->
  length ip = 16 -> To4 ip = None ->
  net_contains (net96 pre) ip = bool_decide (take 12 ip = pre).
Proof.
  intros Hpre Hpn Hip Hin. unfold net_contains, ip_canon. rewrite Hin. cbn [default from_option].
  unfold networkNumberAndMask, net96. cbn [net_ip net_mask]. rewrite Hpn.
  rewrite (bool_decide_true (length (repeat _ 12 ++ repeat _ 4) = 16)) by done.
  unfold is16. rewrite !(bool_decide_true (length _ = _))
    by (rewrite ?length_app; simpl; lia).
  cbn [andb]. rewrite !and_bytes_aligned by (rewrite ?length_app; simpl; lia).
  rewrite take_app_le, take_ge by lia.
  rewrite (bool_decide_true (length ip = _)) by (rewrite length_app; simpl; lia).
  cbn [andb]. apply bool_decide_ext. split; [intros H|intros ->; done].
  symmetry. by apply (app_inv_tail (repeat (Zbyte 0) 4)).
Qed.

(** An IPv4 address written in one of the IPv6 forms that reach it. [::1] is
    the IPv6 loopback address, not a form of 0.0.0.1. *)
Inductive embeds : IP -> IP -> Prop :=
| embeds_mapped a b c d : embeds [a; b; c; d] (IPv4 a b c d)
| embeds_nat64 a b c d : embeds [a; b; c; d] (nat64Prefix ++ [a; b; c; d])
| embeds_compat a b c d :
    [a; b; c; d] <> ip_bytes [0; 0; 0; 1]%Z -> embeds [a; b; c; d] (compatPrefix ++ [a; b; c; d]).

Lemma To4_mapped a b c d : To4 (IPv4 a b c d) = Some [a; b; c; d].
Proof. reflexivity. Qed.

Lemma embedded_96 pre a b c d :
  pre = nat64Prefix \/ pre = compatPrefix ->
  To4 (pre ++ [a; b; c; d]) = None /\ embeddedIPv4 (pre ++ [a; b; c; d]) = Some [a; b; c; d].
Proof.
  intros Hpre.
  assert (Hl : length pre = 12) by (destruct Hpre; subst; reflexivity).
  assert (Ht : To4 (pre ++ [a; b; c; d]) = None) by (destruct Hpre; subst; reflexivity).
  assert (Ht0 : To4 (pre ++ repeat (Zbyte 0) 4) = None) by (destruct Hpre; subst; reflexivity).
  split; [done|]. unfold embeddedIPv4, is16.
  rewrite bool_decide_true by (rewrite length_app, Hl; reflexivity).
  assert (Hin : InAny embeddedIPv4Nets (pre ++ [a; b; c; d]) = true).
  { rewrite embeddedIPv4Nets_eq. unfold InAny. cbn [existsb].
    rewrite !net96_contains by first [done|reflexivity|rewrite length_app, Hl; reflexivity].
    rewrite take_app_le, take_ge by lia.
    destruct Hpre; subst; vm_compute; reflexivity. }
  rewrite Hin. destruct Hpre; subst; reflexivity.
Qed.

Lemma compat_not_loopback a b c d :
  [a; b; c; d] <> ip_bytes [0; 0; 0; 1]%Z -> IsLoopback (compatPrefix ++ [a; b; c; d]) = false.
Proof.
  intros Hne. unfold IsLoopback. destruct (embedded_96 compatPrefix a b c d) as [-> _]; [auto|].
  unfold ip_equal. apply bool_decide_eq_false_2. intros H. apply Hne.
  unfold ip_canon in H. destruct (embedded_96 compatPrefix a b c d) as [Ht _]; [auto|].
  rewrite Ht in H. cbn [default from_option] in H.
  change (default IPv6loopback (To4 IPv6loopback)) with (compatPrefix ++ ip_bytes [0; 0; 0; 1]%Z) in H.
  by apply app_inv_head in H.
Qed.

Lemma IPAllowed_embedded p ip v4 :
  embeddedIPv4 (Normalize ip) = Some v4 -> IsLoopback (Normalize ip) = false ->
  IPAllowed p v4 = false -> IPAllowed p ip = false.
Proof.
  intros He Hl Hv. rewrite IPAllowed_unfold. unfold IPAllowed_body.
  rewrite He, Hl, Hv. by destruct (alwaysBlocked _).
Qed.

Lemma IPAllowed_Normalize p ip : IPAllowed p (Normalize ip) = IPAllowed p ip.
Proof. rewrite !IPAllowed_unfold. unfold IPAllowed_body. by rewrite Normalize_idemp. Qed.

(** A blocked IPv4 address stays blocked in every IPv6 form that reaches it. *)
Lemma IPAllowed_embeds p v4 ip : embeds v4 ip -> IPAllowed p v4 = false -> IPAllowed p ip = false.
Proof.
  intros He Hv. destruct He as [a b c d|a b c d|a b c d Hne].
  - rewrite <- IPAllowed_Normalize. unfold Normalize. by rewrite To4_mapped.
  - destruct (embedded_96 nat64Prefix a b c d) as [Ht Hem]; [auto|].
    assert (Hn : Normalize (nat64Prefix ++ [a; b; c; d]) = nat64Prefix ++ [a; b; c; d])
      by (unfold Normalize; by rewrite Ht).
    apply (IPAllowed_embedded _ _ [a; b; c; d]); rewrite ?Hn; auto.
  - destruct (embedded_96 compatPrefix a b c d) as [Ht Hem]; [auto|].
    assert (Hn : Normalize (compatPrefix ++ [a; b; c; d]) = compatPrefix ++ [a; b; c; d])
      by (unfold Normalize; by rewrite Ht).
    apply (IPAllowed_embedded _ _ [a; b; c; d]); rewrite ?Hn; auto.
    by apply compat_not_loopback.
Qed.

(** Widening a policy never blocks an address it let through. *)
Definition policy_le (p q : Policy) : Prop :=
  (AllowLoopback p = true -> AllowLoopback q = true) /\
  (AllowPrivate p = true -> AllowPrivate q = true) /\
  (forall ip, InAny (AllowedCIDRs p) ip = true -> InAny (AllowedCIDRs q) ip = true).

Lemma IPAllowed_mono p q ip : policy_le p q -> IPAllowed p ip = true -> IPAllowed q ip = true.
Proof.
  intros (Hl & Hp & Hc). unfold IPAllowed. generalize 2 as n. intros n.
  revert ip. induction n as [|n IH]; intros ip; [done|]. simpl. unfold IPAllowed_body.
  destruct (alwaysBlocked _); [done|]. destruct (IsLoopback _); [done|].
  destruct (embeddedIPv4 _) as [v4|].
  - destruct (IPAllowed_fuel n p v4) eqn:E; [|done]. rewrite (IH _ E). simpl.
    destruct (_ || _); [|done]. intros [?|?]%orb_true_iff; apply orb_true_iff; auto.
  - destruct (_ || _); [|done]. intros [?|?]%orb_true_iff; apply orb_true_iff; auto.
Qed.

(** *** IPv4 ranges *)

Definition net4 (n m : list Z) : IPNet := mkNet (ip_bytes n) (ip_bytes m).

Lemma Zbyte_inj x y : (0 <= x < 256)%Z -> (0 <= y < 256)%Z -> Zbyte x = Zbyte y -> x = y.
Proof.
  intros Hx Hy E. apply (f_equal byteZ) in E. rewrite !byteZ_Zbyte in E.
  by rewrite !Z.mod_small in E.
Qed.

Lemma land_byte_range z b : (0 <= Z.land z (byteZ b) < 256)%Z.
Proof.
  pose proof (byteZ_range b) as Hb. rewrite <- (land_255 b), Z.land_assoc.
  rewrite <- (Z.land_assoc z), (land_255 b).
  replace (Z.land z (byteZ b)) with (Z.land (Z.land z (byteZ b)) 255).
  - change 255%Z with (Z.ones 8). rewrite Z.land_ones by lia. by apply Z.mod_pos_bound.
  - by rewrite <- Z.land_assoc, land_255.
Qed.

Lemma net_contains_v4 n0 n1 n2 n3 m0 m1 m2 m3 a b c d :
  net_contains (mkNet [n0; n1; n2; n3] [m0; m1; m2; m3]) [a; b; c; d] =
  ((Z.land (byteZ n0) (byteZ m0) =? Z.land (byteZ a) (byteZ m0)) &&
   (Z.land (byteZ n1) (byteZ m1) =? Z.land (byteZ b) (byteZ m1)) &&
   (Z.land (byteZ n2) (byteZ m2) =? Z.land (byteZ c) (byteZ m2)) &&
   (Z.land (byteZ n3) (byteZ m3) =? Z.land (byteZ d) (byteZ m3)))%Z.
Proof.
  unfold net_contains. change (ip_canon [a; b; c; d]) with [a; b; c; d].
  change (networkNumberAndMask _) with (Some ([n0; n1; n2; n3], [m0; m1; m2; m3])).
  cbn [length]. rewrite bool_decide_true by done. cbn [andb].
  apply eq_true_iff_eq. rewrite bool_decide_eq_true, !andb_true_iff, !Z.eqb_eq.
  unfold and_bytes. cbn [zip_with]. split; [intros [= E0 E1 E2 E3]|intros [[[-> ->] ->] ->]; done].
  split_and!; (apply Zbyte_inj; [apply land_byte_range|apply land_byte_range|done]).
Qed.

(** A property of the 256 byte values is checked by evaluation. *)
Lemma byte_check (P : Z -> bool) :
  forallb P (map Z.of_nat (seq 0 256)) = true -> forall b, P (byteZ b) = true.
Proof.
  intros H b. rewrite forallb_forall in H. apply H.
  apply in_map_iff. exists (Z.to_nat (byteZ b)). pose proof (byteZ_range b).
  split; [lia|]. apply in_seq. lia.
Qed.

Definition in_range (lo hi x : Z) : bool := (lo <=? x)%Z && (x <=? hi)%Z.

(** A network whose mask fixes the bits of one byte is a range of that byte. *)
Lemma land_range n m lo hi :
  forallb (fun x => Bool.eqb (Z.land n m =? Z.land x m)%Z (in_range lo hi x))
    (map Z.of_nat (seq 0 256)) = true ->
  forall b, (Z.land n m =? Z.land (byteZ b) m)%Z = in_range lo hi (byteZ b).
Proof. intros H b. apply Bool.eqb_prop. exact (byte_check _ H b). Qed.

Definition v4_never (x y z w : Z) : bool :=
  in_range 0 0 x || (in_range 169 169 x && in_range 254 254 y) || in_range 224 239 x
  || (in_range 255 255 x && in_range 255 255 y && in_range 255 255 z && in_range 255 255 w).

Definition v4_private (x y z : Z) : bool :=
  in_range 10 10 x || (in_range 172 172 x && in_range 16 31 y)
  || (in_range 192 192 x && in_range 168 168 y) || (in_range 100 100 x && in_range 64 127 y)
  || (in_range 192 192 x && in_range 0 0 y && in_range 0 0 z)
  || (in_range 198 198 x && in_range 18 19 y) || in_range 240 255 x.

Lemma alwaysBlockedNets_v4 :
  alwaysBlockedNets =
  [net4 [0; 0; 0; 0] [255; 0; 0; 0]; net4 [169; 254; 0; 0] [255; 255; 0; 0];
   net4 [224; 0; 0; 0] [240; 0; 0; 0]; net4 [255; 255; 255; 255] [255; 255; 255; 255]]%Z
  ++ drop 4 alwaysBlockedNets.
Proof. vm_compute. reflexivity. Qed.

Lemma privateNets_v4 :
  privateNets =
  [net4 [10; 0; 0; 0] [255; 0; 0; 0]; net4 [172; 16; 0; 0] [255; 240; 0; 0];
   net4 [192; 168; 0; 0] [255; 255; 0; 0]; net4 [100; 64; 0; 0] [255; 192; 0; 0];
   net4 [192; 0; 0; 0] [255; 255; 255; 0]; net4 [198; 18; 0; 0] [255; 254; 0; 0];
   net4 [240; 0; 0; 0] [240; 0; 0; 0]]%Z
  ++ drop 7 privateNets.
Proof. vm_compute. reflexivity. Qed.

Lemma InAny_app n1 n2 ip : InAny (n1 ++ n2) ip = InAny n1 ip || InAny n2 ip.
Proof. apply existsb_app. Qed.

Lemma net4_contains n0 n1 n2 n3 m0 m1 m2 m3 a b c d :
  Forall (fun z => 0 <= z < 256)%Z [n0; n1; n2; n3; m0; m1; m2; m3] ->
  net_contains (net4 [n0; n1; n2; n3] [m0; m1; m2; m3]) [a; b; c; d] =
  ((Z.land n0 m0 =? Z.land (byteZ a) m0) && (Z.land n1 m1 =? Z.land (byteZ b) m1) &&
   (Z.land n2 m2 =? Z.land (byteZ c) m2) && (Z.land n3 m3 =? Z.land (byteZ d) m3))%Z.
Proof.
  intros H. unfold net4, ip_bytes. cbn [map]. rewrite net_contains_v4.
  repeat match goal with H : Forall _ (_ :: _) |- _ => apply Forall_cons in H as [? ?] end.
  rewrite !byteZ_Zbyte, !Z.mod_small by done. done.
Qed.

Ltac in_bytes := repeat (constructor; [lia|]); constructor.

Lemma alwaysBlockedNets_range a b c d :
  InAny alwaysBlockedNets [a; b; c; d] = v4_never (byteZ a) (byteZ b) (byteZ c) (byteZ d).
Proof.
  rewrite alwaysBlockedNets_v4, InAny_app.
  change (InAny (drop 4 alwaysBlockedNets) [a; b; c; d]) with false. rewrite orb_false_r.
  unfold InAny. cbn [existsb]. rewrite !net4_contains by in_bytes.
  rewrite !Z.land_0_r, !Z.eqb_refl, !andb_true_r, orb_false_r.
  rewrite (land_range 0 255 0 0), (land_range 169 255 169 169), (land_range 254 255 254 254),
    (land_range 224 240 224 239), !(land_range 255 255 255 255) by (vm_compute; reflexivity).
  unfold v4_never. by rewrite !orb_assoc.
Qed.

Lemma privateNets_range a b c d :
  InAny privateNets [a; b; c; d] = v4_private (byteZ a) (byteZ b) (byteZ c).
Proof.
  rewrite privateNets_v4, InAny_app.
  change (InAny (drop 7 privateNets) [a; b; c; d]) with false. rewrite orb_false_r.
  unfold InAny. cbn [existsb]. rewrite !net4_contains by in_bytes.
  rewrite !Z.land_0_r, !Z.eqb_refl, !andb_true_r, orb_false_r.
  rewrite (land_range 10 255 10 10), (land_range 172 255 172 172), (land_range 16 240 16 31),
    !(land_range 192 255 192 192), (land_range 168 255 168 168), (land_range 100 255 100 100),
    (land_range 64 192 64 127), !(land_range 0 255 0 0), (land_range 198 255 198 198),
    (land_range 18 254 18 19), (land_range 240 240 240 255) by (vm_compute; reflexivity).
  unfold v4_private. by rewrite !orb_assoc.
Qed.

Lemma eqb_in_range n b : (byteZ b =? n)%Z = in_range n n (byteZ b).
Proof. unfold in_range. lia. Qed.

(** The guards that are not network tests add nothing to the ranges. *)
Lemma alwaysBlocked_v4 a b c d :
  alwaysBlocked [a; b; c; d] = v4_never (byteZ a) (byteZ b) (byteZ c) (byteZ d).
Proof.
  unfold alwaysBlocked. rewrite alwaysBlockedNets_range.
  destruct (v4_never _ _ _ _) eqn:Hn; [by rewrite orb_true_r|]. rewrite orb_false_r.
  unfold v4_never in Hn. rewrite !orb_false_iff, !andb_false_iff in Hn.
  unfold IsUnspecified, IsMulticast, IsLinkLocalUnicast, IsLinkLocalMulticast.
  change (To4 [a; b; c; d]) with (Some [a; b; c; d]). unfold byte_and, ip_at. cbn [nth].
  assert (Hm : (Z.land (byteZ a) 240 =? 224)%Z = in_range 224 239 (byteZ a)).
  { rewrite <- (land_range 224 240 224 239) by (vm_compute; reflexivity). apply Z.eqb_sym. }
  rewrite Hm. unfold in_range in *.
  assert (Hu : ip_equal [a; b; c; d] IPv4zero = false /\ ip_equal [a; b; c; d] IPv6unspecified = false).
  { unfold ip_equal. split; apply bool_decide_eq_false_2; [|done].
    change (ip_canon [a; b; c; d]) with [a; b; c; d]. intros [= -> -> -> ->].
    destruct Hn as [[[H0 _] _] _]. vm_compute in H0. naive_solver. }
  destruct Hu as [-> ->]. lia.
Qed.

Lemma private_v4 a b c d :
  IsPrivate [a; b; c; d] || InAny privateNets [a; b; c; d]
  = v4_private (byteZ a) (byteZ b) (byteZ c).
Proof.
  rewrite privateNets_range. unfold IsPrivate. change (To4 [a; b; c; d]) with (Some [a; b; c; d]).
  unfold byte_and, ip_at. cbn [nth].
  assert (Hm : (Z.land (byteZ b) 240 =? 16)%Z = in_range 16 31 (byteZ b)).
  { rewrite <- (land_range 16 240 16 31) by (vm_compute; reflexivity). apply Z.eqb_sym. }
  rewrite Hm, !eqb_in_range. unfold v4_private, in_range. lia.
Qed.

Lemma IPAllowed_v4 p a b c d :
  IPAllowed p [a; b; c; d] =
  if v4_never (byteZ a) (byteZ b) (byteZ c) (byteZ d) then false
  else if in_range 127 127 (byteZ a) then AllowLoopback p
  else if v4_private (byteZ a) (byteZ b) (byteZ c)
       then AllowPrivate p || InAny (AllowedCIDRs p) [a; b; c; d]
  else true.
Proof.
  rewrite IPAllowed_unfold. unfold IPAllowed_body.
  change (Normalize [a; b; c; d]) with [a; b; c; d].
  rewrite alwaysBlocked_v4, private_v4, embeddedIPv4_v4 by done.
  change (IsLoopback [a; b; c; d]) with (byteZ a =? 127)%Z. by rewrite eqb_in_range.
Qed.

(** An IPv4 address a policy blocks stays blocked when it is written as an IPv4-mapped,
    a NAT64 or an IPv4-compatible IPv6 address. *)
Theorem blocked_in_every_embedding p v4 ip :
  embeds v4 ip -> IPAllowed p v4 = false -> IPAllowed p ip = false.
Proof. apply IPAllowed_embeds. Qed.

(** The metadata service behind NAT64. *)
Lemma blocked_in_every_embedding_witness :
  IPAllowed (mkPolicy true true []) (nat64Prefix ++ ip_bytes [169; 254; 169; 254]%Z) = false.
Proof.
  apply (blocked_in_every_embedding _ (ip_bytes [169; 254; 169; 254]%Z)).
  - apply embeds_nat64.
  - vm_compute. reflexivity.
Defined.

(** The decision for every IPv4 address, as ranges: 0/8, 169.254/16, 224/4 and the
    broadcast address are never reachable; 127/8 needs [AllowLoopback]; the private and
    reserved ranges need [AllowPrivate] or a listed network; all else is reachable. *)
Theorem IPAllowed_v4_ranges p a b c d :
  IPAllowed p [a; b; c; d] =
  if v4_never (byteZ a) (byteZ b) (byteZ c) (byteZ d) then false
  else if in_range 127 127 (byteZ a) then AllowLoopback p
  else if v4_private (byteZ a) (byteZ b) (byteZ c)
       then AllowPrivate p || InAny (AllowedCIDRs p) [a; b; c; d]
  else true.
Proof. apply IPAllowed_v4. Qed.
End Netblock.
