(* ===== verification/Addresses.v ===== *)
(** * Addresses and their texts

    [net.ParseIP] reads back what [IP.String] prints, and [net.SplitHostPort] what
    [net.JoinHostPort] joins. The guards of the program rely on both: an address that was
    checked is dialled by its text. *)
From S2P Require Import Prelude GoIO GoStrings GoNet Netblock.

Module Addresses.
Import Netblock.
Local Open Scope Z_scope.

Definition ip_wf (ip : IP) : Prop := length ip = 4%nat \/ length ip = 16%nat.
(** [ip.To16()]. *)
Definition To16 (ip : IP) : IP := if bool_decide (length ip = 4%nat) then v4InV6Prefix ++ ip else ip.

Lemma byte_forall (P : byte -> bool) :
  forallb P (map (fun n => Zbyte (Z.of_nat n)) (seq 0 256)) = true -> forall b, P b = true.
Proof.
  intros H b. rewrite <- (Zbyte_byteZ b). apply (byte_check (fun z => P (Zbyte z))).
  rewrite forallb_forall in H |- *. intros z (n & <- & Hn)%in_map_iff. apply H, in_map_iff. eauto.
Qed.

(** ** IPv4 *)
Lemma octet_text b : parse_octet (bytes_of (Itoa (byteZ b))) = Some b /\
  forallb (fun c => bool_decide (is_Some (digit c))) (bytes_of (Itoa (byteZ b))) = true.
Proof.
  pose proof (byte_forall (fun b => bool_decide (parse_octet (bytes_of (Itoa (byteZ b))) = Some b) &&
    forallb (fun c => bool_decide (is_Some (digit c))) (bytes_of (Itoa (byteZ b)))) eq_refl b) as H.
  cbv beta in H. apply andb_true_iff in H as [H%bool_decide_eq_true ?]. done.
Qed.

Lemma digit_not b c : is_Some (digit b) -> digit c = None -> b <> c.
Proof. intros [? Hb] Hc ->. congruence. Qed.

Lemma split_one sep l : Forall (fun b => b <> sep) l -> split_bytes sep l = [l].
Proof.
  induction 1 as [|b l Hb _ IH]; [done|]. cbn [split_bytes]. rewrite (proj2 (Ascii.eqb_neq b sep)) by done. by rewrite IH.
Qed.

Lemma octet_plain b c : digit c = None -> Forall (fun d => d <> c) (bytes_of (Itoa (byteZ b))).
Proof.
  intros Hc. apply Forall_forall. intros d Hd. destruct (octet_text b) as [_ H]. rewrite forallb_forall in H.
  eapply digit_not, Hc. by eapply bool_decide_eq_true, H, list_elem_of_In.
Qed.

Lemma ipv4_string_shape a b c d : ipv4_string [a; b; c; d] =
  bytes_of (Itoa (byteZ a)) ++ "."%char :: bytes_of (Itoa (byteZ b)) ++ "."%char :: bytes_of (Itoa (byteZ c)) ++ "."%char :: bytes_of (Itoa (byteZ d)).
Proof. unfold ipv4_string. cbn [map concat]. by rewrite app_nil_r, <- app_comm_cons. Qed.

Lemma parse_ipv4_string a b c d : parse_ipv4 (ipv4_string [a; b; c; d]) = Some [a; b; c; d].
Proof.
  unfold parse_ipv4. rewrite ipv4_string_shape, !split_bytes_app, !split_one by (apply octet_plain; reflexivity).
  cbn [app mapM]. by rewrite !(proj1 (octet_text _)).
Qed.

(** ** Hexadecimal groups *)
Definition group (g : Z) : Prop := 0 <= g < 65536.
(** A digit as it is printed. *)
Definition hexb (b : byte) : bool := bool_decide (is_Some (GoNet.hex_digit b)) && bool_decide (lower_byte b = b).

Lemma hex_char_digit d : 0 <= d < 16 -> GoNet.hex_digit (hex_char d) = Some d /\ lower_byte (hex_char d) = hex_char d.
Proof.
  intros Hd. assert (In d (map Z.of_nat (seq 0 16))) as H.
  { apply in_map_iff. exists (Z.to_nat d). split; [lia|]. apply in_seq. lia. }
  cbn in H. by repeat destruct H as [<-|H].
Qed.

Definition stops (l : list byte) : Prop := match l with [] => True | b :: _ => GoNet.hex_digit b = None end.

Lemma hex_group_map ds l off acc : Forall (fun d => 0 <= d < 16) ds -> stops l ->
  hex_group off acc (map hex_char ds ++ l) = ((off + length ds)%nat, fold_left (fun a d => a * 16 + d) ds acc, l).
Proof.
  intros Hds Hl. revert off acc. induction Hds as [|d ds Hd _ IH]; intros off acc.
  - cbn. rewrite Nat.add_0_r. destruct l as [|b l]; [done|]. cbn in *. by rewrite Hl.
  - cbn [map app hex_group]. rewrite (proj1 (hex_char_digit d Hd)). rewrite IH. cbn [length fold_left]. do 2 f_equal. lia.
Qed.

Definition hex_digits (z : Z) : list Z :=
  (fix skip l := match l with 0 :: l' => skip l' | _ => l end) [z / 4096; (z / 256) mod 16; (z / 16) mod 16] ++ [z mod 16].

Lemma hex_string_digits z : hex_string z = map hex_char (hex_digits z).
Proof. done. Qed.

Lemma hex_digits_spec g : group g ->
  Forall (fun d => 0 <= d < 16) (hex_digits g) /\ fold_left (fun a d => a * 16 + d) (hex_digits g) 0 = g /\
  (0 < length (hex_digits g) <= 4)%nat.
Proof.
  intros Hg. unfold group in Hg. unfold hex_digits.
  pose proof (Z.mod_pos_bound g 16 ltac:(lia)) as B0. pose proof (Z.mod_pos_bound (g / 16) 16 ltac:(lia)) as B1.
  pose proof (Z.mod_pos_bound (g / 256) 16 ltac:(lia)) as B2.
  assert (0 <= g / 4096 < 16) as B3 by (split; [apply Z.div_pos|apply Z.div_lt_upper_bound]; lia).
  assert (g = ((g / 4096 * 16 + (g / 256) mod 16) * 16 + (g / 16) mod 16) * 16 + g mod 16) as Hval.
  { assert (g / 256 = g / 16 / 16) as -> by (rewrite Z.div_div by lia; done).
    assert (g / 4096 = g / 16 / 16 / 16) as -> by (rewrite !Z.div_div by lia; done).
    pose proof (Z.div_mod g 16 ltac:(lia)). pose proof (Z.div_mod (g / 16) 16 ltac:(lia)).
    pose proof (Z.div_mod (g / 16 / 16) 16 ltac:(lia)). lia. }
  remember (g / 4096) as d3 eqn:E3. remember ((g / 256) mod 16) as d2 eqn:E2. remember ((g / 16) mod 16) as d1 eqn:E1.
  remember (g mod 16) as d0 eqn:E0. clear E0 E1 E2 E3. subst g.
  destruct d3; [destruct d2; [destruct d1|..]|..]; cbn [app fold_left length];
    (split; [repeat constructor; lia|split; [lia|lia]]).
Qed.

Lemma hex_group_string g l : group g -> stops l ->
  exists n, hex_group 0 0 (hex_string g ++ l) = (n, g, l) /\ (0 < n <= 4)%nat.
Proof.
  intros Hg Hl. destruct (hex_digits_spec g Hg) as (Hf & Hv & Hn). exists (length (hex_digits g)).
  by rewrite hex_string_digits, hex_group_map, Hv.
Qed.

Lemma hex_string_hexb g : group g -> forallb hexb (hex_string g) = true /\ hex_string g <> [].
Proof.
  intros Hg. destruct (hex_digits_spec g Hg) as (Hf & _ & Hn). rewrite hex_string_digits. split.
  - apply forallb_forall. intros b (d & <- & Hd)%in_map_iff. 
    rewrite Forall_forall in Hf. destruct (hex_char_digit d) as [E1 E2]; [by apply Hf, list_elem_of_In|].
    unfold hexb. by rewrite E1, E2, !bool_decide_eq_true_2 by done.
  - by destruct (hex_digits g); [cbn in Hn; lia|].
Qed.

(** ** IPv6 *)
Definition joined (gs : list Z) : list byte :=
  match gs with
  | [] => []
  | g :: gs' => hex_string g ++ concat (map (fun h => ":"%char :: hex_string h) gs')
  end.
Definition group_bytes (gs : list Z) : list byte := concat (map (be_put 2) gs).

Lemma joined_cons g h gs : joined (g :: h :: gs) = hex_string g ++ ":"%char :: joined (h :: gs).
Proof. done. Qed.

Lemma joined_head g gs l : group g -> exists b k, joined (g :: gs) ++ l = b :: k /\ hexb b = true.
Proof.
  intros Hg. destruct (hex_string_hexb g Hg) as [Hh Hne]. unfold joined. destruct (hex_string g) as [|b k]; [done|].
  apply andb_true_iff in Hh as [? _]. eexists b, _. split; [reflexivity|done].
Qed.

Lemma parse_groups_last fuel out ell g : group g ->
  parse_groups (S fuel) out ell (hex_string g) = Some (out ++ be_put 2 g, ell, []).
Proof.
  intros Hg. destruct (hex_group_string g [] Hg I) as (n & E & Hn). rewrite app_nil_r in E. cbn [parse_groups]. rewrite E.
  rewrite !bool_decide_eq_false_2 by lia. done.
Qed.

Lemma parse_groups_more fuel out ell g b l : group g -> hexb b = true ->
  parse_groups (S fuel) out ell (hex_string g ++ ":"%char :: b :: l) = parse_groups fuel (out ++ be_put 2 g) ell (b :: l).
Proof.
  intros Hg Hb. destruct (hex_group_string g (":"%char :: b :: l) Hg eq_refl) as (n & E & Hn). cbn [parse_groups]. rewrite E.
  rewrite !bool_decide_eq_false_2 by lia. cbn [orb]. clear E. by destruct b as [[] [] [] [] [] [] [] []].
Qed.

Lemma parse_groups_ellipsis fuel out g l : group g ->
  parse_groups (S fuel) out None (hex_string g ++ ":"%char :: ":"%char :: l) =
  match l with
  | [] => Some (out ++ be_put 2 g, Some (length (out ++ be_put 2 g)), [])
  | _ => parse_groups fuel (out ++ be_put 2 g) (Some (length (out ++ be_put 2 g))) l
  end.
Proof.
  intros Hg. destruct (hex_group_string g (":"%char :: ":"%char :: l) Hg eq_refl) as (n & E & Hn). cbn [parse_groups]. rewrite E.
  by rewrite !bool_decide_eq_false_2 by lia.
Qed.

Lemma parse_joined g gs fuel out ell : Forall group (g :: gs) -> (length gs < fuel)%nat ->
  parse_groups fuel out ell (joined (g :: gs)) = Some (out ++ group_bytes (g :: gs), ell, []).
Proof.
  revert g fuel out. induction gs as [|h gs IH]; intros g fuel out Hgs Hf; (destruct fuel as [|fuel]; [cbn in Hf; lia|]);
    apply Forall_cons in Hgs as [Hg Hgs].
  - unfold joined, group_bytes. cbn [map concat]. rewrite !app_nil_r. by apply parse_groups_last.
  - rewrite joined_cons. pose proof (Forall_inv Hgs) as Hh. destruct (joined_head h gs [] Hh) as (b & k & E & Hb).
    rewrite app_nil_r in E. rewrite E, parse_groups_more, <- E, IH by (done || cbn in *; lia).
    unfold group_bytes. cbn [map concat]. by rewrite <- !app_assoc.
Qed.

Lemma parse_joined_ellipsis g gs fuel out l : Forall group (g :: gs) -> (length gs < fuel)%nat ->
  parse_groups fuel out None (joined (g :: gs) ++ ":"%char :: ":"%char :: l) =
  let out' := out ++ group_bytes (g :: gs) in
  match l with
  | [] => Some (out', Some (length out'), [])
  | _ => parse_groups (fuel - S (length gs)) out' (Some (length out')) l
  end.
Proof.
  revert g fuel out. induction gs as [|h gs IH]; intros g fuel out Hgs Hf; (destruct fuel as [|fuel]; [cbn in Hf; lia|]);
    apply Forall_cons in Hgs as [Hg Hgs].
  - unfold joined, group_bytes. cbn [map concat length]. rewrite !app_nil_r, parse_groups_ellipsis by done.
    by rewrite Nat.sub_succ, Nat.sub_0_r.
  - rewrite joined_cons. pose proof (Forall_inv Hgs) as Hh.
    destruct (joined_head h gs (":"%char :: ":"%char :: l) Hh) as (b & k & E & Hb).
    rewrite <- app_assoc, <- app_comm_cons, E, parse_groups_more, <- E, IH by (done || cbn in *; lia).
    unfold group_bytes. cbn [map concat length]. by rewrite <- !app_assoc.
Qed.

Lemma be_put_pair a b : be_put 2 (byteZ a * 256 + byteZ b) = [a; b].
Proof.
  pose proof (byteZ_range b). cbn [be_put]. change (8 * Z.of_nat 1) with 8. change (8 * Z.of_nat 0) with 0.
  rewrite Z.shiftr_0_r, Z.shiftr_div_pow2 by lia. change (2 ^ 8) with 256.
  rewrite Z.div_add_l, Z.div_small, Z.add_0_r, Zbyte_byteZ by lia. do 2 f_equal.
  rewrite <- (Zbyte_byteZ b) at 2. unfold Zbyte at 1. rewrite Z.add_comm, Z_mod_plus_full. done.
Qed.

Lemma groups_of_spec n ip : length ip = (2 * n)%nat ->
  group_bytes (groups_of ip) = ip /\ Forall group (groups_of ip) /\ length (groups_of ip) = n.
Proof.
  revert ip. induction n as [|n IH]; intros ip Hl; [by destruct ip|].
  destruct ip as [|a [|b ip]]; [cbn in Hl; lia..|]. destruct (IH ip) as (E & Hf & Hn); [cbn in Hl; lia|].
  cbn [groups_of]. split; [|split].
  - unfold group_bytes in *. cbn [map concat]. by rewrite E, be_put_pair.
  - constructor; [|done]. unfold group. pose proof (byteZ_range a). pose proof (byteZ_range b). lia.
  - cbn [length]. lia.
Qed.

Lemma group_bytes_app gs hs : group_bytes (gs ++ hs) = group_bytes gs ++ group_bytes hs.
Proof. unfold group_bytes. by rewrite map_app, concat_app. Qed.

Lemma group_bytes_zeros n : group_bytes (repeat 0 n) = repeat (Zbyte 0) (2 * n).
Proof.
  induction n as [|n IH]; [done|]. replace (2 * S n)%nat with (S (S (2 * n))) by lia.
  unfold group_bytes in *. cbn [repeat map concat]. rewrite IH. done.
Qed.

Lemma length_group_bytes gs : length (group_bytes gs) = (2 * length gs)%nat.
Proof.
  induction gs as [|g gs IH]; [done|]. unfold group_bytes in *. cbn [map concat length].
  rewrite length_app, IH, length_be_put. lia.
Qed.

Lemma zero_run_spec gs : (zero_run gs <= length gs)%nat /\ take (zero_run gs) gs = repeat 0 (zero_run gs).
Proof. induction gs as [|g gs [IH1 IH2]]; [done|]. destruct g; cbn in *; [|split; [lia|done]..]. split; [lia|]. by rewrite IH2. Qed.

Lemma best_run_spec i gs best : let '(zs, ze) := best_run i gs best in
  (zs, ze) = best \/
  (i <= zs /\ zs + 2 <= ze <= i + length gs)%nat /\ take (ze - zs) (drop (zs - i) gs) = repeat 0 (ze - zs).
Proof.
  revert i best. induction gs as [|g gs IH]; intros i best; [destruct best; by left|]. cbn [best_run].
  destruct (zero_run_spec (g :: gs)) as [Hl Hz]. set (l := zero_run (g :: gs)) in *.
  set (best' := if bool_decide (2 <= l)%nat && _ then _ else _). specialize (IH (S i) best').
  destruct (best_run (S i) gs best') as [zs ze]. destruct IH as [E|[[? ?] E]].
  - subst best'. destruct (bool_decide_reflect (2 <= l)%nat) as [H2|]; [|by left].
    destruct (bool_decide _); cbn [andb] in E; [|by left]. simplify_eq. right. split; [lia|].
    rewrite Nat.sub_diag, drop_0. replace (i + l - i)%nat with l by lia. done.
  - right. split; [cbn [length]; lia|]. rewrite <- E. replace (zs - i)%nat with (S (zs - S i)) by lia. done.
Qed.

Lemma joined_parse g gs l : Forall group (g :: gs) -> parse_ipv6 (joined (g :: gs) ++ l) = parse_groups 8 [] None (joined (g :: gs) ++ l) ≫= expand_ellipsis.
Proof.
  intros Hgs. destruct (joined_head g gs l (Forall_inv Hgs)) as (b & k & -> & Hb).
  unfold parse_ipv6. by destruct b as [[] [] [] [] [] [] [] []].
Qed.

Lemma expand_full out : length out = 16%nat -> expand_ellipsis (out, None, []) = Some out.
Proof. intros E. unfold expand_ellipsis. rewrite E. done. Qed.

Lemma expand_zeros u v n : (length u + n + length v = 16)%nat -> (0 < n)%nat ->
  expand_ellipsis (u ++ v, Some (length u), []) = Some (u ++ repeat (Zbyte 0) n ++ v).
Proof.
  intros E Hn. unfold expand_ellipsis. rewrite bool_decide_eq_true_2 by done. cbn [negb].
  rewrite bool_decide_eq_true_2 by (rewrite length_app; lia). rewrite take_app_length, drop_app_length.
  do 4 f_equal. rewrite length_app. lia.
Qed.

(** What is printed: all groups, or the groups before and after a run of zeros. *)
Lemma ipv6_string_shape ip : length ip = 16%nat ->
  (exists g h gs, ipv6_string ip = joined (g :: h :: gs) /\ length gs = 6%nat /\ Forall group (g :: h :: gs) /\ ip = group_bytes (g :: h :: gs)) \/
  exists A n B, ipv6_string ip = joined A ++ ":"%char :: ":"%char :: joined B /\ (length A + n + length B = 8)%nat /\ (0 < n)%nat /\
    Forall group A /\ Forall group B /\ ip = group_bytes A ++ repeat (Zbyte 0) (2 * n) ++ group_bytes B.
Proof.
  intros Hl. destruct (groups_of_spec 8 ip) as (E & Hf & Hn); [lia|]. unfold ipv6_string.
  pose proof (best_run_spec 0 (groups_of ip) (255, 255)%nat) as Hb. destruct (best_run _ _ _) as [zs ze].
  destruct Hb as [Eb|[[_ Hze] Ez]]; [simplify_eq; left|right].
  - rewrite bool_decide_eq_true_2 by done. destruct (groups_of ip) as [|g [|h gs]]; [done..|]. exists g, h, gs.
    repeat split; try done. cbn in Hn. lia.
  - rewrite bool_decide_eq_false_2 by lia. rewrite Nat.sub_0_r in Ez.
    exists (take zs (groups_of ip)), (ze - zs)%nat, (drop ze (groups_of ip)).
    assert (groups_of ip = take zs (groups_of ip) ++ repeat 0 (ze - zs) ++ drop ze (groups_of ip)) as Eg.
    { rewrite <- Ez. replace (drop ze (groups_of ip)) with (drop (ze - zs) (drop zs (groups_of ip))) by (rewrite drop_drop; f_equal; lia).
      by rewrite !take_drop. }
    split; [done|]. split; [rewrite length_take, length_drop; lia|]. split; [lia|].
    split; [by apply Forall_take|]. split; [by apply Forall_drop|].
    by rewrite <- group_bytes_zeros, <- !group_bytes_app, <- Eg.
Qed.

Lemma parse_zeros_first n B : (n + length B = 8)%nat -> (0 < n)%nat -> Forall group B ->
  parse_ipv6 (":"%char :: ":"%char :: joined B) = Some (repeat (Zbyte 0) (2 * n) ++ group_bytes B).
Proof.
  intros Hn Hpos HB. destruct B as [|g B]; [by replace n with 8%nat by (cbn in Hn; lia)|].
  destruct (joined_head g B [] (Forall_inv HB)) as (b & k & E & _). rewrite app_nil_r in E.
  unfold parse_ipv6. rewrite E, <- E, parse_joined by (done || cbn in Hn; lia). cbn [mbind option_bind app].
  apply (expand_zeros [] (group_bytes (g :: B)) (2 * n)); [rewrite length_group_bytes; cbn in *; lia|lia].
Qed.

Lemma parse_zeros_inside g A n B : (length (g :: A) + n + length B = 8)%nat -> (0 < n)%nat -> Forall group (g :: A) -> Forall group B ->
  parse_ipv6 (joined (g :: A) ++ ":"%char :: ":"%char :: joined B) =
  Some (group_bytes (g :: A) ++ repeat (Zbyte 0) (2 * n) ++ group_bytes B).
Proof.
  intros Hn Hpos HA HB. rewrite joined_parse, parse_joined_ellipsis by (done || cbn in Hn; lia). cbv zeta. cbn [app].
  destruct B as [|h B].
  - cbn [joined mbind option_bind]. rewrite <- (app_nil_r (group_bytes (g :: A))) at 1.
    apply expand_zeros; [rewrite length_group_bytes; cbn in *; lia|lia].
  - destruct (joined_head h B [] (Forall_inv HB)) as (b & k & E & _). rewrite app_nil_r in E.
    rewrite E, <- E, parse_joined by (done || cbn in *; lia). cbn [mbind option_bind].
    apply expand_zeros; [rewrite !length_group_bytes; cbn in *; lia|lia].
Qed.

Lemma parse_ipv6_string ip : length ip = 16%nat -> parse_ipv6 (ipv6_string ip) = Some ip.
Proof.
  intros Hl. destruct (ipv6_string_shape ip Hl) as [(g & h & gs & -> & Hn & Hf & E)|(A & n & B & -> & Hn & Hpos & HA & HB & E)].
  - pose proof (joined_parse g (h :: gs) [] Hf) as Hp. rewrite app_nil_r in Hp. rewrite Hp, parse_joined by (done || cbn; lia).
    cbn [mbind option_bind app]. rewrite <- E. by apply expand_full.
  - rewrite E. destruct A as [|g A]; [by apply parse_zeros_first|by apply parse_zeros_inside].
Qed.

(** *** The bytes of the text *)
Definition v6_byte (b : byte) : bool := hexb b || Ascii.eqb b ":"%char.

Lemma joined_bytes gs : Forall group gs -> forallb v6_byte (joined gs) = true.
Proof.
  intros Hgs. assert (forall g, group g -> forallb v6_byte (hex_string g) = true) as Hh.
  { intros g Hg. destruct (hex_string_hexb g Hg) as [Hh _]. rewrite forallb_forall in Hh |- *. intros b Hb. unfold v6_byte. by rewrite Hh. }
  destruct Hgs as [|g gs Hg Hgs]; [done|]. unfold joined. rewrite forallb_app, Hh by done. cbn [andb].
  induction Hgs as [|h gs Hgh _ IH]; [done|]. cbn [map concat]. rewrite forallb_app. cbn [forallb]. by rewrite Hh, IH.
Qed.

Lemma ipv6_string_bytes ip : length ip = 16%nat ->
  forallb v6_byte (ipv6_string ip) = true /\ ":"%char ∈ ipv6_string ip.
Proof.
  intros Hl. destruct (ipv6_string_shape ip Hl) as [(g & h & gs & -> & Hn & Hf & _)|(A & n & B & -> & Hn & _ & HA & HB & _)].
  - split; [by apply joined_bytes|]. rewrite joined_cons, elem_of_app. right. left.
  - split; [rewrite forallb_app; cbn [forallb]; by rewrite !joined_bytes|]. rewrite elem_of_app. right. left.
Qed.

Definition punct (b : byte) : bool := Ascii.eqb b "."%char || Ascii.eqb b ":"%char || Ascii.eqb b "%"%char.

Lemma v6_byte_cases b : v6_byte b = true -> b = ":"%char \/ punct b = false /\ Ascii.eqb "%"%char b = false.
Proof.
  pose proof (byte_forall (fun b => implb (v6_byte b) (Ascii.eqb b ":"%char || (negb (punct b) && negb (Ascii.eqb "%"%char b)))) eq_refl b) as H.
  cbv beta in H. intros Hb. rewrite Hb in H. cbn [implb] in H. apply orb_true_iff in H as [->%Ascii.eqb_eq|H]; [by left|right].
  by apply andb_true_iff in H as [?%negb_true_iff ?%negb_true_iff].
Qed.

Lemma parse_addr_v6 l : forallb v6_byte l = true -> ":"%char ∈ l -> parse_addr l = (fun q => (q, 128)) <$> parse_ipv6 l.
Proof.
  intros Hl Hc. unfold parse_addr. replace (List.find _ l) with (Some ":"%char).
  - replace (existsb _ l) with false; [done|]. symmetry. apply not_true_is_false. intros (b & Hb & Eb)%existsb_exists.
    rewrite forallb_forall in Hl. destruct (v6_byte_cases b (Hl b Hb)) as [->|[_ ?]]; [done|congruence].
  - symmetry. induction l as [|b l IH]; [by apply not_elem_of_nil in Hc|]. apply andb_true_iff in Hl as [Hb Hl].
    destruct (v6_byte_cases b Hb) as [->|[Hp _]]; [done|]. cbn [List.find]. unfold punct in Hp. rewrite Hp. apply IH; [done|].
    apply elem_of_cons in Hc as [<-|]; [done|done].
Qed.

Lemma find_skip {A} (f : A -> bool) u v : Forall (fun x => f x = false) u -> List.find f (u ++ v) = List.find f v.
Proof. induction 1 as [|x u Hx _ IH]; [done|]. cbn. by rewrite Hx. Qed.

Lemma parse_addr_v4 a b c d : parse_addr (ipv4_string [a; b; c; d]) = Some (v4InV6Prefix ++ [a; b; c; d], 32).
Proof.
  unfold parse_addr. rewrite parse_ipv4_string. rewrite ipv4_string_shape, find_skip; [done|].
  apply Forall_forall. intros x Hx.
  pose proof (fun q Hq => proj1 (Forall_forall _ _) (octet_plain a q Hq) x Hx) as Hd.
  rewrite !(proj2 (Ascii.eqb_neq _ _)); [done|by apply Hd..].
Qed.

Lemma To4_cases ip v4 : ip_wf ip -> To4 ip = Some v4 -> exists a b c d, v4 = [a; b; c; d] /\ To16 ip = v4InV6Prefix ++ v4.
Proof.
  intros Hip H. pose proof (To4_length ip v4 H) as Hl. destruct v4 as [|a [|b [|c [|d [|]]]]]; try done. exists a, b, c, d. split; [done|].
  unfold To4, To16 in *. destruct Hip as [E|E]; rewrite E in *; cbn [bool_decide decide_rel] in *.
  - rewrite bool_decide_eq_true_2 in * by done. by simplify_eq.
  - rewrite bool_decide_eq_false_2 in * by lia. rewrite bool_decide_eq_true_2 in H by done. cbn [andb] in H.
    destruct (prefixb v4InV6Prefix ip) eqn:Ep; [|done]. apply prefixb_spec in Ep as [k ->].
    injection H as H. rewrite <- H. done.
Qed.

(** Reading the text of an address gives its sixteen-byte form. *)
Lemma ParseIP_ip_string ip : ip_wf ip -> ParseIP (ip_string ip) = To16 ip.
Proof.
  intros Hip. unfold ParseIP, ip_string. destruct ip as [|x ip']; [by destruct Hip|]. set (ip := x :: ip') in *.
  destruct (To4 ip) as [v4|] eqn:E; rewrite bytes_of_string_of.
  - destruct (To4_cases ip v4 Hip E) as (a & b & c & d & -> & ->). by rewrite parse_addr_v4.
  - assert (length ip = 16%nat) as Hl.
    { destruct Hip as [Hip|]; [|done]. unfold To4 in E. by rewrite bool_decide_eq_true_2 in E. }
    destruct (ipv6_string_bytes ip Hl) as [Hb Hc]. rewrite parse_addr_v6, parse_ipv6_string by done. cbn.
    unfold To16. by rewrite bool_decide_eq_false_2 by lia.
Qed.

Lemma Normalize_wf ip : ip_wf ip -> ip_wf (Normalize ip).
Proof. intros Hip. unfold Normalize. destruct (To4 ip) eqn:E; [|done]. left. by eapply To4_length. Qed.

Lemma Normalize_To16 ip : ip_wf ip -> Normalize (To16 ip) = Normalize ip.
Proof.
  intros [E|E]; unfold To16; rewrite E; [|done]. destruct ip as [|a [|b [|c [|d [|]]]]]; try done.
Qed.

(** The text of a normalized address names that address. *)
Lemma Normalize_text ip : ip_wf ip -> Normalize (ParseIP (ip_string (Normalize ip))) = Normalize ip.
Proof.
  intros Hip%Normalize_wf. rewrite ParseIP_ip_string by done. rewrite Normalize_To16 by done. apply Normalize_idemp.
Qed.

Lemma ParseIP_text_not_nil ip : ip_wf ip -> ParseIP (ip_string ip) <> nilIP.
Proof.
  intros Hip. rewrite ParseIP_ip_string by done. unfold To16, nilIP. destruct Hip as [E|E]; rewrite E.
  - by rewrite bool_decide_eq_true_2.
  - rewrite bool_decide_eq_false_2 by lia. by destruct ip.
Qed.

(** *** host:port *)
Definition ip_byte (b : byte) : bool := hexb b || Ascii.eqb b "."%char || Ascii.eqb b ":"%char.

Lemma ip_string_bytes ip : ip_wf ip -> forallb ip_byte (bytes_of (ip_string ip)) = true.
Proof.
  intros Hip. unfold ip_string. destruct ip as [|x ip']; [by destruct Hip|]. set (ip := x :: ip') in *.
  destruct (To4 ip) as [v4|] eqn:E; rewrite bytes_of_string_of.
  - destruct (To4_cases ip v4 Hip E) as (a & b & c & d & -> & _). rewrite ipv4_string_shape.
    assert (forall o, forallb ip_byte (bytes_of (Itoa (byteZ o))) = true) as Ho
      by exact (byte_forall (fun o => forallb ip_byte (bytes_of (Itoa (byteZ o)))) eq_refl).
    rewrite !forallb_app. cbn [forallb]. rewrite !forallb_app. cbn [forallb]. rewrite !forallb_app. cbn [forallb]. by rewrite !Ho.
  - assert (length ip = 16%nat) as Hl.
    { destruct Hip as [Hip|]; [|done]. unfold To4 in E. by rewrite bool_decide_eq_true_2 in E. }
    destruct (ipv6_string_bytes ip Hl) as [Hb _]. rewrite forallb_forall in Hb |- *. intros b ?%Hb.
    unfold v6_byte, ip_byte in *. destruct (hexb b); [done|]. cbn [orb] in *. rewrite H. apply orb_true_r.
Qed.

Lemma ip_byte_plain b : ip_byte b = true ->
  visible b = true /\ (b <> "["%char /\ b <> "]"%char) /\ existsb (Ascii.eqb b) ["/"; "?"; "#"; "@"]%char = false.
Proof.
  intros Hb. pose proof (byte_forall (fun b => implb (ip_byte b) (visible b && bool_decide (b <> "["%char /\ b <> "]"%char) &&
    negb (existsb (Ascii.eqb b) ["/"; "?"; "#"; "@"]%char))) eq_refl b) as H. cbv beta in H. rewrite Hb in H. cbn [implb] in H.
  apply andb_true_iff in H as [[? ?%bool_decide_eq_true]%andb_true_iff ?%negb_true_iff]. done.
Qed.

Lemma last_cut_at b u v : Forall (fun x => x <> b) v -> last_cut_bytes b (u ++ b :: v) = Some (u, v).
Proof.
  intros Hv. assert (last_cut_bytes b v = None) as Ev.
  { induction Hv as [|x v Hx _ IH]; [done|]. cbn. rewrite IH. by rewrite (proj2 (Ascii.eqb_neq x b)). }
  induction u as [|x u IH]; cbn; [by rewrite Ev, Ascii.eqb_refl|]. by rewrite IH.
Qed.

Lemma existsb_none b l : Forall (fun x => x <> b) l -> existsb (Ascii.eqb b) l = false.
Proof. induction 1 as [|x l Hx _ IH]; [done|]. cbn. rewrite IH, (proj2 (Ascii.eqb_neq b x)) by done. done. Qed.

Definition plain (l : list byte) : Prop := Forall (fun x => x <> "["%char /\ x <> "]"%char) l.

Lemma plain_open l : plain l -> Forall (fun x => x <> "["%char) l.
Proof. intros H. eapply Forall_impl; [exact H|]. by intros ? []. Qed.
Lemma plain_close l : plain l -> Forall (fun x => x <> "]"%char) l.
Proof. intros H. eapply Forall_impl; [exact H|]. by intros ? []. Qed.

Lemma plain_match {X} l (u : list byte -> X) v : plain l -> match l with "["%char :: k => u k | _ => v end = v.
Proof. intros Hl. destruct Hl as [|x l [Hx _] _]; [done|]. by destruct x as [[] [] [] [] [] [] [] []]. Qed.

Lemma SplitHostPort_Join h p : plain (bytes_of h) -> plain (bytes_of p) -> Forall (fun x => x <> ":"%char) (bytes_of p) ->
  SplitHostPort (JoinHostPort h p) = Some (h, p).
Proof.
  intros Hh Hp Hc. unfold SplitHostPort, JoinHostPort, ContainsByte.
  destruct (existsb (Ascii.eqb ":"%char) (bytes_of h)) eqn:E; rewrite !bytes_of_app; cbn [bytes_of list_ascii_of_string app].
  - replace ("["%char :: bytes_of h ++ "]"%char :: ":"%char :: bytes_of p) with (("["%char :: bytes_of h ++ ["]"%char]) ++ ":"%char :: bytes_of p)
      by (cbn; by rewrite <- app_assoc).
    rewrite last_cut_at by done. cbn [app].
    replace ("["%char :: (bytes_of h ++ ["]"%char]) ++ ":"%char :: bytes_of p) with (("["%char :: bytes_of h) ++ "]"%char :: ":"%char :: bytes_of p)
      by (cbn; by rewrite <- app_assoc).
    rewrite split_bytes_app, (split_one _ ("["%char :: bytes_of h)), (split_one _ (":"%char :: bytes_of p));
      [|constructor; [done|by apply plain_close]..]. cbn [app tail].
    rewrite bool_decide_eq_true_2 by (cbn; rewrite length_app; cbn; lia). rewrite !existsb_none; [cbn; by rewrite !string_of_bytes_of|by apply plain_close|].
    rewrite Forall_app. split; [by apply plain_open|]. constructor; [done|]. constructor; [done|by apply plain_open].
  - rewrite last_cut_at by done. rewrite plain_match by (apply Forall_app; split; [done|by constructor]). rewrite E.
    rewrite !existsb_none; [cbn; by rewrite !string_of_bytes_of|..];
      (apply Forall_app; split; [|constructor; [done|]]); by (apply plain_open || apply plain_close).
Qed.

(** *** What is read has sixteen bytes *)
Lemma parse_ipv4_length l q : parse_ipv4 l = Some q -> length q = 4%nat.
Proof. unfold parse_ipv4. destruct (mapM _ _) as [[|a [|b [|c [|d [|]]]]]|]; try done. by intros [= <-]. Qed.

Lemma parse_groups_length fuel out ell l out' ell' r : parse_groups fuel out ell l = Some (out', ell', r) ->
  (length out + 2 * fuel <= 16)%nat -> (length out' <= 16)%nat.
Proof.
  revert out ell l. induction fuel as [|fuel IH]; intros out ell l; cbn [parse_groups]; [intros [= <- <- <-]; lia|].
  destruct (hex_group 0 0 l) as [[off acc] rest]. destruct (_ || _)%bool; [done|]. intros H Hl.
  assert (length (out ++ be_put 2 acc) + 2 * fuel <= 16)%nat as Hn by (rewrite length_app, length_be_put; lia).
  destruct rest as [|b rest]; [simplify_eq; lia|]. destruct (Ascii.ascii_dec b "."%char) as [->|Hd].
  { destruct (negb _ && _)%bool; [done|]. destruct (bool_decide_reflect (16 < length out + 4)%nat); [done|]. cbn [orb] in H.
    destruct (parse_ipv4 l) as [q|] eqn:Eq; [|done]. apply parse_ipv4_length in Eq. simplify_eq. rewrite length_app. lia. }
  destruct (Ascii.ascii_dec b ":"%char) as [->|Hc]; [|by exfalso; destruct b as [[] [] [] [] [] [] [] []]].
  destruct rest as [|c rest]; [done|]. destruct (Ascii.ascii_dec c ":"%char) as [->|Hc].
  - destruct (bool_decide _); [done|]. destruct rest as [|d rest]; [simplify_eq; lia|]. by eapply IH.
  - assert (parse_groups fuel (out ++ be_put 2 acc) ell (c :: rest) = Some (out', ell', r)) as H'
      by (destruct c as [[] [] [] [] [] [] [] []]; done).
    by eapply IH.
Qed.

Lemma expand_length out ell r ip : (length out <= 16)%nat -> expand_ellipsis (out, ell, r) = Some ip -> length ip = 16%nat.
Proof.
  intros Hl. unfold expand_ellipsis. destruct (negb _); [done|]. destruct (bool_decide_reflect (length out < 16)%nat).
  - destruct ell as [j|]; [|done]. intros [= <-]. rewrite !length_app, length_take, length_drop, repeat_length. lia.
  - destruct ell; [done|]. intros [= <-]. lia.
Qed.

Lemma parse_ipv6_length l ip : parse_ipv6 l = Some ip -> length ip = 16%nat.
Proof.
  assert (forall k ell, parse_groups 8 [] ell k ≫= expand_ellipsis = Some ip -> length ip = 16%nat) as H.
  { intros k ell. destruct (parse_groups 8 [] ell k) as [[[out ell'] r]|] eqn:E; [|done]. apply expand_length.
    eapply parse_groups_length; [exact E|cbn; lia]. }
  unfold parse_ipv6. destruct l as [|a [|b [|c l]]]; try apply H;
    destruct a as [[] [] [] [] [] [] [] []]; try apply H; destruct b as [[] [] [] [] [] [] [] []]; try apply H.
  by intros [= <-].
Qed.

Lemma parse_addr_length l ip n : parse_addr l = Some (ip, n) -> length ip = 16%nat.
Proof.
  unfold parse_addr. destruct (List.find _ l) as [b|] eqn:E; [|done].
  apply List.find_some in E as [_ Hb]. destruct (Ascii.ascii_dec b "."%char) as [->|Hd].
  { destruct (parse_ipv4 l) as [q|] eqn:Eq; [|done]. cbn. intros [= <- <-]. cbn. by rewrite (parse_ipv4_length _ _ Eq). }
  destruct (Ascii.ascii_dec b ":"%char) as [->|Hc].
  - destruct (existsb _ l); [done|]. destruct (parse_ipv6 l) as [q|] eqn:Eq; [|done]. cbn. intros [= <- <-]. by eapply parse_ipv6_length.
  - by destruct b as [[] [] [] [] [] [] [] []].
Qed.

Lemma ParseIP_length s : ParseIP s <> nilIP -> length (ParseIP s) = 16%nat.
Proof. unfold ParseIP. destruct (parse_addr _) as [[ip n]|] eqn:E; [|done]. intros _. by eapply parse_addr_length. Qed.

Lemma ParseIP_wf s : ParseIP s <> nilIP -> ip_wf (ParseIP s).
Proof. intros H. right. by apply ParseIP_length. Qed.

(** The text of an address does not end in a dot. *)
Lemma ip_string_no_dot ip : ip_wf ip -> HasSuffix (ip_string ip) "." = false.
Proof.
  intros Hip. apply not_true_is_false. intros (t & Et)%HasSuffix_app. unfold ip_string in Et.
  destruct ip as [|x ip']; [by destruct Hip|]. set (ip := x :: ip') in *.
  destruct (To4 ip) as [v4|] eqn:E; apply (f_equal bytes_of) in Et; rewrite bytes_of_app, bytes_of_string_of in Et; cbn in Et.
  - destruct (To4_cases ip v4 Hip E) as (a & b & c & d & -> & _). rewrite ipv4_string_shape in Et.
    destruct (octet_text d) as [Ho Hd]. pose proof (octet_plain d "."%char eq_refl) as Hp.
    destruct (bytes_of (Itoa (byteZ d))) as [|z zs] eqn:Ez using rev_ind; [done|]. clear IHzs.
    rewrite !app_comm_cons, !app_assoc in Et. apply app_inj_tail in Et as [_ ->].
    apply Forall_app in Hp as [_ Hp]. by apply Forall_inv in Hp.
  - assert (length ip = 16%nat) as Hl.
    { destruct Hip as [Hip|]; [|done]. unfold To4 in E. by rewrite bool_decide_eq_true_2 in E. }
    destruct (ipv6_string_bytes ip Hl) as [Hb _]. rewrite Et, forallb_app in Hb. by apply andb_true_iff in Hb as [_ ?].
Qed.
End Addresses.
