(* ===== verification/Allowlist.v ===== *)
(** * The agent's reach-in allowlist

    internal/agent/allowlist.go: the rules an agent accepts targets by, and
    the resolution of a target to one address that was checked. *)
From S2P Require Import Prelude GoIO GoStrings GoNet Netblock.

(** ** agent/allowlist.go *)
Module Allowlist.
Import Netblock.

Record allowRule := mkRule {
  cidr : option IPNet;
  rhost : string;
  ports : gset Z;
  anyPort : bool
}.

Definition isPortList (s : string) : bool :=
  if bool_decide (s = "") then false
  else forallb (fun p => bool_decide (is_Some (Atoi p))) (Split s ";"%char).

Section WithUnicode.
Context `{UnicodeLower}.

Definition parseRule (spec : string) : allowRule :=
  let '(hostPart, ports, anyPort) :=
    match LastCut spec ":"%char with
    | Some (before, maybePorts) =>
        if negb (ContainsByte maybePorts "/"%char) && isPortList maybePorts
        then (before, list_to_set (omap Atoi (Split maybePorts ";"%char)), false)
        else (spec, (∅ : gset Z), true)
    | None => (spec, ∅, true)
    end in
  match ParseCIDR hostPart with
  | Some network => mkRule (Some network) "" ports anyPort
  | None => mkRule None (ToLower hostPart) ports anyPort
  end.

Fixpoint NewAllowlist (specs : list string) : list allowRule :=
  match specs with
  | [] => []
  | spec :: specs' =>
      let spec := TrimSpace spec in
      if bool_decide (spec = "") then NewAllowlist specs'
      else parseRule spec :: NewAllowlist specs'
  end.

(** The port test both loops start with. *)
Definition port_ok (rule : allowRule) (port : Z) : bool :=
  negb (negb (anyPort rule) && negb (bool_decide (port ∈ ports rule))).

Definition couldAdmitHost (rules : list allowRule) (host : string) (port : Z) : bool :=
  let host := ToLower host in
  existsb (fun rule =>
    port_ok rule port &&
    (bool_decide (is_Some (cidr rule)) || bool_decide (rhost rule = host))) rules.

Definition rule_allows (ip : IP) (host : string) (port : Z) (rule : allowRule) : bool :=
  port_ok rule port &&
  match cidr rule with
  | Some n => net_contains n ip
  | None => negb (bool_decide (rhost rule = "")) && bool_decide (rhost rule = ToLower host)
  end.

Definition allowsIP (rules : list allowRule) (ip : IP) (host : string) (port : Z) : bool :=
  existsb (rule_allows ip host port) rules.

(** The resolver: [None] is a lookup error. *)
Definition Resolver : Type := string -> option (list IP).

Definition resolveIPs (lookupIP : Resolver) (host : string) : list IP :=
  let ip := ParseIP host in
  if bool_decide (ip = nilIP) then default [] (lookupIP host) else [ip].

Definition hardDenyPolicy : Policy := mkPolicy false true [].
Definition hardDenied (ip : IP) : bool := negb (IPAllowed hardDenyPolicy ip).

(** [Resolve]: the address to dial and the server name, or a refusal. *)
Definition Resolve (rules : list allowRule) (lookupIP : Resolver) (target : string)
    : option (string * string) :=
  match SplitHostPort target with
  | None => None
  | Some (host, portStr) =>
      match Atoi portStr with
      | None => None
      | Some port =>
          if bool_decide (ParseIP host = nilIP) && negb (couldAdmitHost rules host port) then None
          else
            let ips := resolveIPs lookupIP host in
            if bool_decide (ips = []) then None
            else if existsb hardDenied ips then None
            else
              match List.find (fun ip => allowsIP rules ip host port) ips with
              | Some ip => Some (JoinHostPort (ip_string ip) portStr, host)
              | None => None
              end
      end
  end.

Lemma allowsIP_couldAdmit rules ip host port :
  allowsIP rules ip host port = true -> couldAdmitHost rules host port = true.
Proof.
  unfold allowsIP, couldAdmitHost. rewrite !existsb_exists.
  intros (rule & Hin & Hr). exists rule. split; [done|].
  unfold rule_allows in Hr. apply andb_true_iff in Hr as [Hp Hr]. rewrite Hp. simpl.
  destruct (cidr rule) as [n|]; [by rewrite bool_decide_true|].
  bool_to_prop. rewrite (bool_decide_true (rhost rule = _)) by done. apply orb_true_r.
Qed.

(** What [Resolve] promises, without its order of checks: the target is
    well-formed, no address the name resolves to is hard-denied, and the
    dialled address is the first one a rule admits. *)
Definition admits (rules : list allowRule) (lookupIP : Resolver)
    (target host portStr : string) (ip : IP) : Prop :=
  SplitHostPort target = Some (host, portStr) /\
  exists port, Atoi portStr = Some port /\
    Forall (fun a => hardDenied a = false) (resolveIPs lookupIP host) /\
    List.find (fun a => allowsIP rules a host port) (resolveIPs lookupIP host) = Some ip.

Lemma Resolve_admits rules lookupIP target addr name :
  Resolve rules lookupIP target = Some (addr, name) <->
  exists portStr ip, admits rules lookupIP target name portStr ip /\
    addr = JoinHostPort (ip_string ip) portStr.
Proof.
  unfold Resolve, admits. split.
  - destruct (SplitHostPort target) as [[host portStr]|] eqn:Es; [|done].
    destruct (Atoi portStr) as [port|] eqn:Ea; [|done].
    destruct (_ && _)%bool; [done|]. case_bool_decide; [done|].
    destruct (existsb _ _) eqn:Ed; [done|].
    destruct (List.find _ _) as [ip|] eqn:Ef; [|done]. intros [= <- <-].
    exists portStr, ip. split_and!; auto. exists port. split_and!; auto.
    apply Forall_forall. intros a Ha. apply not_true_is_false. intros Hd.
    assert (existsb hardDenied (resolveIPs lookupIP host) = true); [|congruence].
    apply existsb_exists. exists a. split; [by apply list_elem_of_In|done].
  - intros (portStr & ip & (-> & port & -> & Hall & Hf) & ->).
    pose proof (List.find_some _ _ Hf) as [Hin Ha].
    rewrite (allowsIP_couldAdmit _ ip) by done. rewrite andb_false_r.
    rewrite bool_decide_false by (intros E; by rewrite E in Hin).
    destruct (existsb _ _) eqn:Ed; [exfalso|by rewrite Hf].
    apply existsb_exists in Ed as (a & Hia & Hd).
    rewrite Forall_forall in Hall. rewrite Hall in Hd; [done|by apply list_elem_of_In].
Qed.

(** [Resolve] returns an address exactly when the target is well formed, none of the
    addresses the name resolves to is hard-denied, and some address is admitted by a rule;
    it then returns the first such address. The early host check never refuses a target
    the rules would admit. *)
Theorem Resolve_exact rules lookupIP target addr name :
  Resolve rules lookupIP target = Some (addr, name) <->
  exists portStr ip, admits rules lookupIP target name portStr ip /\
    addr = JoinHostPort (ip_string ip) portStr.
Proof. apply Resolve_admits. Qed.
End WithUnicode.
End Allowlist.
