(* ===== verification/ClientIP.v ===== *)
(** * The client behind trusted proxies

    internal/clientip: which hop of an X-Forwarded-For chain is believed. *)
From S2P Require Import Prelude GoIO GoStrings GoNet.

(** ** clientip.go *)
Module ClientIP.
(** The parts of [*http.Request] the functions read. *)
Record Request := mkRequest {
  RemoteAddr : string;
  hasTLS : bool;
  XForwardedFor : list string;
  XForwardedProto : string
}.

Definition contains (nets : list IPNet) (ip : IP) : bool := existsb (fun n => net_contains n ip) nets.

Definition parseHost (addr : string) : IP :=
  match SplitHostPort addr with
  | Some (host, _) => ParseIP host
  | None => ParseIP addr
  end.

Fixpoint forwardedChain (values : list string) : list string :=
  match values with
  | [] => []
  | v :: values' =>
      List.filter (fun part => negb (bool_decide (part = ""))) (map TrimSpace (Split v ","%char))
      ++ forwardedChain values'
  end.

(** The loop over the hops, last one first: [Some] is an early return. *)
Fixpoint scanHops (trusted : list IPNet) (peer : IP) (rev_hops : list string) : option IP :=
  match rev_hops with
  | [] => None
  | h :: rest =>
      let ip := ParseIP h in
      if bool_decide (ip = nilIP) then Some peer
      else if negb (contains trusted ip) then Some ip
      else scanHops trusted peer rest
  end.

Definition Resolve (r : Request) (trusted : list IPNet) : IP :=
  let peer := parseHost (RemoteAddr r) in
  if bool_decide (peer = nilIP) || negb (contains trusted peer) then peer
  else
    let hops := forwardedChain (XForwardedFor r) in
    match scanHops trusted peer (reverse hops) with
    | Some ip => ip
    | None =>
        match hops with
        | h :: _ => let ip := ParseIP h in if bool_decide (ip = nilIP) then peer else ip
        | [] => peer
        end
    end.

Definition TrustedPeer (remoteAddr : string) (trusted : list IPNet) : bool :=
  let peer := parseHost remoteAddr in
  negb (bool_decide (peer = nilIP)) && contains trusted peer.

Definition IsHTTPS (r : Request) (trusted : list IPNet) : bool :=
  if hasTLS r then true
  else TrustedPeer (RemoteAddr r) trusted && EqualFold (XForwardedProto r) "https".

Lemma scanHops_trusted trusted peer hs rest :
  Forall (fun h => ParseIP h <> nilIP /\ contains trusted (ParseIP h) = true) hs ->
  scanHops trusted peer (hs ++ rest) = scanHops trusted peer rest.
Proof.
  induction 1 as [|h hs [Hn Hc] _ IH]; [done|]. simpl.
  by rewrite bool_decide_false, Hc.
Qed.

(** Whatever a client writes in front of the chain, the address found is the
    one the trusted proxies appended. *)
Lemma Resolve_last_untrusted r trusted forged client proxies :
  TrustedPeer (RemoteAddr r) trusted = true ->
  forwardedChain (XForwardedFor r) = forged ++ client :: proxies ->
  ParseIP client <> nilIP -> contains trusted (ParseIP client) = false ->
  Forall (fun h => ParseIP h <> nilIP /\ contains trusted (ParseIP h) = true) proxies ->
  Resolve r trusted = ParseIP client.
Proof.
  unfold TrustedPeer. intros Ht Hc Hne Hun Hp. bool_to_prop.
  unfold Resolve. rewrite bool_decide_false by done. rewrite H0. cbn [negb orb].
  rewrite Hc, reverse_app, reverse_cons, <- !app_assoc. simpl.
  rewrite scanHops_trusted by by apply Forall_reverse. simpl.
  by rewrite bool_decide_false, Hun.
Qed.

Lemma Resolve_untrusted_peer r trusted :
  TrustedPeer (RemoteAddr r) trusted = false -> Resolve r trusted = parseHost (RemoteAddr r).
Proof.
  unfold TrustedPeer, Resolve. rewrite andb_false_iff, negb_false_iff.
  intros [->| ->]; [done|]. by rewrite orb_true_r.
Qed.

(** Behind a trusted peer the client is the last hop that is not a trusted proxy:
    whatever the client wrote in front of it in X-Forwarded-For changes nothing. *)
Theorem Resolve_ignores_forged_hops r trusted forged client proxies :
  TrustedPeer (RemoteAddr r) trusted = true ->
  forwardedChain (XForwardedFor r) = forged ++ client :: proxies ->
  ParseIP client <> nilIP -> contains trusted (ParseIP client) = false ->
  Forall (fun h => ParseIP h <> nilIP /\ contains trusted (ParseIP h) = true) proxies ->
  Resolve r trusted = ParseIP client.
Proof. apply Resolve_last_untrusted. Qed.

Lemma Resolve_ignores_forged_hops_witness :
  Resolve (mkRequest "10.0.0.1:443" false ["1.1.1.1, 203.0.113.9"; "10.0.0.7"] "")
    (match ParseCIDR "10.0.0.0/8" with Some n => [n] | None => [] end) = ParseIP "203.0.113.9".
Proof.
  apply (Resolve_ignores_forged_hops _ _ ["1.1.1.1"] "203.0.113.9" ["10.0.0.7"]).
  - vm_compute. reflexivity.
  - vm_compute. reflexivity.
  - vm_compute. discriminate.
  - vm_compute. reflexivity.
  - constructor; [split; vm_compute; [discriminate|reflexivity]|constructor].
Defined.

(** A peer that is not a trusted proxy is taken at its own address and scheme: no
    header it sends changes the client address or makes a plain request look like HTTPS. *)
Theorem untrusted_peer_headers_ignored r trusted :
  TrustedPeer (RemoteAddr r) trusted = false ->
  Resolve r trusted = parseHost (RemoteAddr r) /\ IsHTTPS r trusted = hasTLS r.
Proof.
  intros Ht. split; [by apply Resolve_untrusted_peer|].
  unfold IsHTTPS. rewrite Ht. by destruct (hasTLS r).
Qed.

Lemma untrusted_peer_headers_ignored_witness :
  let r := mkRequest "198.51.100.4:443" false ["1.1.1.1"] "https" in
  Resolve r [] = ParseIP "198.51.100.4" /\ IsHTTPS r [] = false.
Proof.
  intros r. destruct (untrusted_peer_headers_ignored r [] ltac:(vm_compute; reflexivity)) as [H1 H2].
  split; [exact (eq_trans H1 ltac:(vm_compute; reflexivity))|exact H2].
Defined.
End ClientIP.
