(* ===== verification/DecryptScope.v ===== *)
(** * Which hosts an agent may decrypt

    internal/decryptscope: allow and bypass patterns, the host matcher the
    agent uses, and the X.509 name constraints the control plane puts on the
    intermediates it issues for the same patterns. *)
From S2P Require Import Prelude GoIO GoStrings GoNet.

(** ** decryptscope.go *)
Module DecryptScope.
Definition MaxPatterns : Z := 256.
Definition maxHostnameLen : Z := 253.
Definition maxLabelLen : Z := 63.
Definition wildcardPrefix : string := "*.".

Definition ErrTooMany : goerr := ENew "decryptscope: at most 256 patterns per list".

(** [r] in [a-z], [0-9] or a hyphen; a byte of a longer rune is none of them. *)
Definition label_byte (b : byte) : bool :=
  let z := byteZ b in
  (((97 <=? z) && (z <=? 122)) || ((48 <=? z) && (z <=? 57)) || (z =? 45))%Z.

Definition valid_label (l : list byte) : bool :=
  match l with
  | [] => false
  | b :: _ =>
      (len l <=? maxLabelLen)%Z
      && negb (Ascii.eqb b "-"%char)
      && negb (Ascii.eqb (List.last l "000"%char) "-"%char)
      && forallb label_byte l
  end.

Definition ValidHostname (host : string) : bool :=
  if bool_decide (host = "") || (maxHostnameLen <? slen host)%Z then false
  else forallb valid_label (split_bytes "."%char (bytes_of host)).

Section WithUnicode.
Context `{UnicodeLower} `{UnicodeQuote}.

Definition isIP (s : string) : bool := negb (bool_decide (ParseIP (Trim s "[]") = nilIP)).

Definition normalizePattern (raw : string) : res string :=
  let p := TrimSuffix (ToLower (TrimSpace raw)) "." in
  let host := TrimPrefix p wildcardPrefix in
  if isIP host
  then Fail (ENew ("decryptscope: " +:+ Quote raw +:+ " is an IP address; only DNS names can be decrypted"))
  else if negb (ValidHostname host)
  then Fail (ENew ("decryptscope: " +:+ Quote raw +:+ " must be a DNS name or *.name"))
  else Ok p.

Fixpoint normalize_loop (patterns out : list string) : res (list string) :=
  match patterns with
  | [] => Ok out
  | raw :: rest =>
      match normalizePattern raw with
      | Fail err => Fail err
      | Ok p => normalize_loop rest (if bool_decide (p ∈ out) then out else out ++ [p])
      end
  end.

Definition Normalize (patterns : list string) : res (list string) :=
  if (MaxPatterns <? len patterns)%Z then Fail ErrTooMany
  else
    match normalize_loop patterns [] with
    | Fail err => Fail err
    | Ok out => Ok (sort_by str_leb out)
    end.

Definition CanonicalHost (host : string) : option string :=
  let h := TrimSuffix (ToLower (TrimSpace host)) "." in
  if isIP h || negb (ValidHostname h) then None else Some h.

Definition allowMatches (pattern host : string) : bool :=
  match CutPrefix pattern wildcardPrefix with
  | Some base => HasSuffix host ("." +:+ base)
  | None => bool_decide (host = pattern)
  end.

Definition bypassMatches (pattern host : string) : bool :=
  match CutPrefix pattern wildcardPrefix with
  | Some base => HasSuffix host ("." +:+ base)
  | None => bool_decide (host = pattern) || HasSuffix host ("." +:+ pattern)
  end.

Definition matchesCanonical (patterns : list string) (host : string) : bool :=
  existsb (fun p => allowMatches p host) patterns.

Definition Decrypts (allow bypass : list string) (host : string) : bool :=
  match CanonicalHost host with
  | None => false
  | Some h =>
      if existsb (fun p => bypassMatches p h) bypass then false
      else matchesCanonical allow h
  end.

Definition Matches (patterns : list string) (host : string) : bool :=
  match CanonicalHost host with
  | None => false
  | Some h => matchesCanonical patterns h
  end.

(** *** Name constraints *)

Record ConstraintSet := mkSet { Permitted : list string; Excluded : list string }.

Definition subdomainsAllowed (allow : list string) (exact : string) : bool :=
  existsb (fun p =>
    match CutPrefix p wildcardPrefix with
    | Some base => bool_decide (base = exact) || HasSuffix exact ("." +:+ base)
    | None => false
    end) allow.

Definition excludesSubtreeOf (allow : list string) (exact other : string) : bool :=
  if HasPrefix exact wildcardPrefix || subdomainsAllowed allow exact then false
  else HasSuffix (TrimPrefix other wildcardPrefix) ("." +:+ exact).

Definition conflicts (allow : list string) (a b : string) : bool :=
  excludesSubtreeOf allow a b || excludesSubtreeOf allow b a.

(** [strings.Count(strings.TrimPrefix(p, "*."), ".")]. *)
Definition depth (p : string) : Z := Count (TrimPrefix p wildcardPrefix) "."%char.

(** The first group without a conflict takes [p]; otherwise a new group. *)
Fixpoint place (allow : list string) (p : string) (groups : list (list string)) : list (list string) :=
  match groups with
  | [] => [[p]]
  | members :: rest =>
      if negb (existsb (fun m => conflicts allow m p) members)
      then (members ++ [p]) :: rest
      else members :: place allow p rest
  end.

Definition group_patterns (allow : list string) : list (list string) :=
  fold_left (fun groups p => place allow p groups)
    (sort_by (fun a b => (depth a <=? depth b)%Z) allow) [].

Definition bypassExcluded (bypass : list string) : list string :=
  map (fun p =>
    match CutPrefix p wildcardPrefix with
    | Some base => "." +:+ base
    | None => p
    end) bypass.

(** The permitted and excluded names one member contributes. *)
Definition member_set (allow : list string) (p : string) : ConstraintSet :=
  match CutPrefix p wildcardPrefix with
  | Some base => mkSet ["." +:+ base] []
  | None => mkSet [p] (if negb (subdomainsAllowed allow p) then ["." +:+ p] else [])
  end.

Definition group_set (allow bypass : list string) (members : list string) : ConstraintSet :=
  mkSet (concat (map (fun p => Permitted (member_set allow p)) members))
        (concat (map (fun p => Excluded (member_set allow p)) members) ++ bypassExcluded bypass).

Definition ConstraintGroups (allow bypass : list string) : res (list ConstraintSet) :=
  if bool_decide (allow = [])
  then Fail (ENew "decryptscope: an empty allowlist permits nothing")
  else Ok (map (group_set allow bypass) (group_patterns allow)).
End WithUnicode.

(** *** crypto/x509 name constraints *)

(** [domainToReverseLabels]: the labels from the right, or an error when one
    is empty or not printable. *)
Definition printable_label (l : list byte) : bool :=
  negb (bool_decide (l = [])) && forallb (fun b => (33 <=? byteZ b) && (byteZ b <=? 126))%Z l.

Definition domainToReverseLabels (domain : string) : option (list (list byte)) :=
  if bool_decide (domain = "") then Some []
  else
    let labels := reverse (split_bytes "."%char (bytes_of domain)) in
    if forallb printable_label labels then Some labels else None.

Fixpoint labels_match (constraint domain : list (list byte)) : bool :=
  match constraint, domain with
  | [], _ => true
  | c :: cs, d :: ds => EqualFold (string_of c) (string_of d) && labels_match cs ds
  | _ :: _, [] => false
  end.

(** [matchDomainConstraint]: a leading period asks for at least one more
    label; [None] is an error. *)
Definition matchDomainConstraint (domain constraint : string) : option bool :=
  if bool_decide (constraint = "") then Some true
  else
    let '(mustHaveSubdomains, c) :=
      match CutPrefix constraint "." with Some c => (true, c) | None => (false, constraint) end in
    match domainToReverseLabels domain, domainToReverseLabels c with
    | Some dl, Some cl =>
        if bool_decide (length dl < length cl)
           || (mustHaveSubdomains && bool_decide (length dl = length cl)) then Some false
        else Some (labels_match cl dl)
    | _, _ => None
    end.

(** A certificate for [host] chains through an intermediate with these
    constraints: some permitted name covers it and no excluded name does. *)
Definition x509_permits (s : ConstraintSet) (host : string) : bool :=
  existsb (fun c => bool_decide (matchDomainConstraint host c = Some true)) (Permitted s)
  && forallb (fun c => bool_decide (matchDomainConstraint host c = Some false)) (Excluded s).

(** *** Labels *)

Definition labels (h : string) : list (list byte) := split_bytes "."%char (bytes_of h).

Lemma ValidHostname_labels h : ValidHostname h = true -> Forall (fun l => valid_label l = true) (labels h).
Proof.
  unfold ValidHostname. destruct (_ || _)%bool; [done|]. rewrite forallb_forall.
  intros Hf. apply Forall_forall. intros l Hl. apply Hf. by apply list_elem_of_In.
Qed.

Lemma ValidHostname_nonempty h : ValidHostname h = true -> h <> "".
Proof. by intros Hv ->. Qed.

Lemma valid_label_bytes l : valid_label l = true -> l <> [] /\ forallb label_byte l = true.
Proof. destruct l; [done|]. unfold valid_label. by intros [_ Hl]%andb_true_iff. Qed.

(** A suffix that starts at a period is a suffix of the labels. *)
Lemma HasSuffix_labels h c :
  HasSuffix h ("." +:+ c) = true <-> exists pre, pre <> [] /\ labels h = pre ++ labels c.
Proof.
  rewrite HasSuffix_app. unfold labels. split.
  - intros [t ->]. exists (split_bytes "."%char (bytes_of t)).
    split; [apply split_bytes_nonempty|]. rewrite !bytes_of_app. apply split_bytes_app.
  - intros (pre & Hne & Hl). exists (string_of (join_bytes "."%char pre)).
    apply bytes_of_inj. rewrite !bytes_of_app, bytes_of_string_of.
    rewrite <- (join_split "."%char (bytes_of h)), Hl.
    rewrite join_bytes_app by (done || apply split_bytes_nonempty).
    by rewrite join_split.
Qed.

Lemma labels_inj h c : labels h = labels c -> h = c.
Proof. intros E. apply bytes_of_inj. by apply (split_bytes_inj "."%char). Qed.

Lemma label_byte_lower b : label_byte b = true -> lower_byte b = b.
Proof.
  unfold label_byte, lower_byte. intros Hb.
  destruct ((65 <=? byteZ b) && (byteZ b <=? 90))%Z eqn:E; [|done].
  exfalso. lia.
Qed.

Lemma label_bytes_lower l : forallb label_byte l = true -> map lower_byte l = l.
Proof.
  induction l as [|b l IH]; simpl; [done|]. intros [Hb Hl]%andb_true_iff.
  by rewrite label_byte_lower, IH.
Qed.

Lemma label_bytes_fold l : forallb label_byte l = true -> fold_ascii l = l.
Proof.
  induction l as [|b l IH]; [done|]. cbn [forallb fold_ascii]. intros [Hb Hl]%andb_true_iff.
  rewrite IH by done. rewrite label_byte_lower by done.
  unfold label_byte in Hb.
  assert (byteZ b <> 197 /\ byteZ b <> 226)%Z as [H1 H2] by lia.
  repeat case_match; done.
Qed.

Lemma EqualFold_labels l k :
  forallb label_byte l = true -> forallb label_byte k = true ->
  EqualFold (string_of l) (string_of k) = bool_decide (l = k).
Proof.
  intros Hl Hk. unfold EqualFold. rewrite !bytes_of_string_of.
  by rewrite label_bytes_fold, label_bytes_lower.
Qed.

Lemma labels_match_prefix cs ds :
  Forall (fun l => valid_label l = true) cs -> Forall (fun l => valid_label l = true) ds ->
  labels_match cs ds = true <-> cs `prefix_of` ds.
Proof.
  intros Hc. revert ds. induction Hc as [|c cs Hc _ IH]; intros ds Hd; simpl.
  { split; [intros _; apply prefix_nil|done]. }
  destruct Hd as [|d ds Hd Hds].
  { split; [done|]. intros Hp. by apply prefix_nil_not in Hp. }
  apply valid_label_bytes in Hc as [_ Hc]. apply valid_label_bytes in Hd as [_ Hd].
  rewrite EqualFold_labels by done. rewrite andb_true_iff, bool_decide_eq_true, IH by done.
  split.
  - intros [-> Hp]. by apply prefix_cons.
  - intros Hp. split; [by apply prefix_cons_inv_1 in Hp|by apply prefix_cons_inv_2 in Hp].
Qed.

Lemma valid_printable l : valid_label l = true -> printable_label l = true.
Proof.
  intros [Hne Hl]%valid_label_bytes. unfold printable_label.
  rewrite bool_decide_false by done. simpl. rewrite forallb_forall in *.
  intros b Hb. specialize (Hl b Hb). unfold label_byte in Hl. lia.
Qed.

Lemma reverse_labels h :
  ValidHostname h = true -> domainToReverseLabels h = Some (reverse (labels h)).
Proof.
  intros Hv. unfold domainToReverseLabels.
  rewrite bool_decide_false by by apply ValidHostname_nonempty.
  fold (labels h). apply ValidHostname_labels in Hv.
  assert (Hp : forallb printable_label (reverse (labels h)) = true).
  { apply forallb_forall. intros l Hl%list_elem_of_In%elem_of_reverse. rewrite reverse_involutive in Hl.
    apply valid_printable. rewrite Forall_forall in Hv. by apply Hv. }
  by rewrite Hp.
Qed.

Lemma reverse_prefix_suffix {A} (l k : list A) : reverse l `prefix_of` reverse k <-> l `suffix_of` k.
Proof. symmetry. apply suffix_prefix_reverse. Qed.

Lemma suffix_labels_length h c :
  labels c `suffix_of` labels h <-> labels h = labels c \/ HasSuffix h ("." +:+ c) = true.
Proof.
  rewrite HasSuffix_labels. split.
  - intros [[|w pre] Hk]; [by left|]. right. by exists (w :: pre).
  - intros [->|(pre & _ & Hk)]; [done|by exists pre].
Qed.

(** A constraint without a leading period covers the name and its subdomains. *)
Lemma match_exact h c :
  ValidHostname h = true -> ValidHostname c = true ->
  matchDomainConstraint h c = Some (bool_decide (h = c) || HasSuffix h ("." +:+ c)).
Proof.
  intros Hh Hc. unfold matchDomainConstraint.
  rewrite bool_decide_false by by apply ValidHostname_nonempty.
  assert (Hcut : CutPrefix c "." = None).
  { apply CutPrefix_None, not_true_is_false. intros [t ->]%HasPrefix_app.
    apply ValidHostname_labels in Hc. unfold labels in Hc. rewrite bytes_of_app in Hc.
    simpl in Hc. by inversion Hc. }
  rewrite Hcut. rewrite !reverse_labels by done. cbn [andb]. rewrite orb_false_r, !length_reverse.
  pose proof (ValidHostname_labels _ Hh) as Vh. pose proof (ValidHostname_labels _ Hc) as Vc.
  pose proof (suffix_labels_length h c) as Hs.
  assert (Hm : labels_match (reverse (labels c)) (reverse (labels h)) = true <->
               labels c `suffix_of` labels h).
  { rewrite labels_match_prefix by by apply Forall_reverse. apply reverse_prefix_suffix. }
  assert (Hd : (bool_decide (h = c) || HasSuffix h ("." +:+ c)) = true <->
               labels c `suffix_of` labels h).
  { rewrite Hs, orb_true_iff, bool_decide_eq_true.
    split; (intros [E|E]; [left|by right]); [by rewrite E|by apply labels_inj]. }
  destruct (bool_decide (length _ < length _)) eqn:Hlt; bool_to_prop.
  - f_equal. symmetry. apply not_true_is_false. rewrite Hd.
    intros Hsuf%suffix_length. lia.
  - f_equal. apply eq_true_iff_eq. by rewrite Hm, Hd.
Qed.

(** A leading period covers the proper subdomains only. *)
Lemma match_dot h c :
  ValidHostname h = true -> ValidHostname c = true ->
  matchDomainConstraint h ("." +:+ c) = Some (HasSuffix h ("." +:+ c)).
Proof.
  intros Hh Hc. unfold matchDomainConstraint. rewrite bool_decide_false by done.
  rewrite (proj2 (CutPrefix_Some ("." +:+ c) "." c)) by done.
  rewrite !reverse_labels by done. cbn [andb]. rewrite !length_reverse.
  pose proof (ValidHostname_labels _ Hh) as Vh. pose proof (ValidHostname_labels _ Hc) as Vc.
  assert (Hm : labels_match (reverse (labels c)) (reverse (labels h)) = true <->
               labels c `suffix_of` labels h).
  { rewrite labels_match_prefix by by apply Forall_reverse. apply reverse_prefix_suffix. }
  pose proof (HasSuffix_labels h c) as Hs.
  destruct (_ || _)%bool eqn:Eb.
  - f_equal. symmetry. apply not_true_is_false. rewrite Hs. intros (pre & Hne & Hl).
    apply orb_true_iff in Eb. rewrite !bool_decide_eq_true, Hl, length_app in Eb.
    destruct pre; [done|]. simpl in Eb. lia.
  - f_equal. apply eq_true_iff_eq. rewrite Hm, Hs. bool_to_prop. split.
    + intros [pre Hl]. exists pre. split; [|done]. intros ->. simpl in Hl. congruence.
    + intros (pre & _ & Hl). by exists pre.
Qed.

(** *** Groups *)

Definition pattern_ok (p : string) : Prop := ValidHostname (TrimPrefix p wildcardPrefix) = true.

Inductive pattern_view (p : string) : Prop :=
| pv_wild base : CutPrefix p wildcardPrefix = Some base -> HasPrefix p wildcardPrefix = true ->
    TrimPrefix p wildcardPrefix = base -> ValidHostname base = true -> pattern_view p
| pv_exact : CutPrefix p wildcardPrefix = None -> HasPrefix p wildcardPrefix = false ->
    TrimPrefix p wildcardPrefix = p -> ValidHostname p = true -> pattern_view p.

Lemma pattern_ok_view p : pattern_ok p -> pattern_view p.
Proof.
  unfold pattern_ok. intros Hv. destruct (CutPrefix p wildcardPrefix) as [base|] eqn:E.
  - apply (pv_wild p base); [done| | |].
    + apply HasPrefix_app. exists base. by apply CutPrefix_Some.
    + unfold TrimPrefix. by rewrite E.
    + unfold TrimPrefix in Hv. by rewrite E in Hv.
  - apply pv_exact; [done|by apply CutPrefix_None| |]; unfold TrimPrefix in *; by rewrite E in *.
Qed.

Lemma HasSuffix_length h c : HasSuffix h c = true -> length (bytes_of c) <= length (bytes_of h).
Proof. intros [t ->]%HasSuffix_app. rewrite bytes_of_app, length_app. lia. Qed.

Lemma HasSuffix_irrefl c : HasSuffix c ("." +:+ c) = false.
Proof.
  apply not_true_is_false. intros Hl%HasSuffix_length. rewrite bytes_of_app, length_app in Hl.
  simpl in Hl. lia.
Qed.

(** Names that end in two names at a period: one of the two ends in the other. *)
Lemma HasSuffix_comparable h a b :
  HasSuffix h ("." +:+ a) = true -> HasSuffix h ("." +:+ b) = true ->
  a = b \/ HasSuffix a ("." +:+ b) = true \/ HasSuffix b ("." +:+ a) = true.
Proof.
  rewrite !HasSuffix_labels. intros (p1 & _ & E1) (p2 & _ & E2). rewrite E1 in E2.
  assert (Hc : labels a `suffix_of` labels b \/ labels b `suffix_of` labels a).
  { assert (S1 : labels a `suffix_of` p1 ++ labels a) by by exists p1.
    assert (S2 : labels b `suffix_of` p1 ++ labels a) by (exists p2; done).
    destruct (le_lt_dec (length (labels a)) (length (labels b))).
    - left. by eapply suffix_comparable.
    - right. eapply suffix_comparable; [exact S2|exact S1|lia]. }
  destruct Hc as [[[|w pre] Hk]|[[|w pre] Hk]].
  - left. symmetry. by apply labels_inj.
  - right; right. by exists (w :: pre).
  - left. by apply labels_inj.
  - right; left. by exists (w :: pre).
Qed.

Lemma HasSuffix_trans h a b :
  HasSuffix h ("." +:+ a) = true -> HasSuffix a ("." +:+ b) = true -> HasSuffix h ("." +:+ b) = true.
Proof.
  rewrite !HasSuffix_labels. intros (p1 & H1 & E1) (p2 & _ & E2).
  exists (p1 ++ p2). rewrite E1, E2, app_assoc. split; [|done]. by destruct p1.
Qed.

Lemma conflicts_sym allow a b : conflicts allow a b = conflicts allow b a.
Proof. unfold conflicts. apply orb_comm. Qed.

Definition compatible (allow : list string) (members : list string) : Prop :=
  forall a b, a ∈ members -> b ∈ members -> conflicts allow a b = false.

Lemma conflicts_self allow p : pattern_ok p -> conflicts allow p p = false.
Proof.
  intros [base Hc Hp Ht Hv|Hc Hp Ht Hv]%pattern_ok_view; unfold conflicts, excludesSubtreeOf.
  - by rewrite Hp.
  - rewrite Hp, Ht, HasSuffix_irrefl. by destruct (subdomainsAllowed _ _).
Qed.

Lemma compatible_snoc allow m p :
  pattern_ok p -> compatible allow m -> existsb (fun q => conflicts allow q p) m = false ->
  compatible allow (m ++ [p]).
Proof.
  intros Hp Hm He.
  assert (Hq : forall q, q ∈ m -> conflicts allow q p = false).
  { intros q Hq. apply not_true_is_false. intros Hc.
    assert (existsb (fun q => conflicts allow q p) m = true); [|congruence].
    apply existsb_exists. exists q. split; [by apply list_elem_of_In|done]. }
  intros a b [Ha| ->%list_elem_of_singleton]%elem_of_app [Hb| ->%list_elem_of_singleton]%elem_of_app.
  - by apply Hm.
  - by apply Hq.
  - rewrite conflicts_sym. by apply Hq.
  - by apply conflicts_self.
Qed.

Lemma place_spec allow p groups :
  pattern_ok p -> Forall (compatible allow) groups ->
  Forall (compatible allow) (place allow p groups) /\
  concat (place allow p groups) ≡ₚ p :: concat groups.
Proof.
  intros Hp. induction 1 as [|m gs Hm Hgs IH]; simpl.
  - split; [|done]. constructor; [|done]. apply (compatible_snoc allow []); [done| |done].
    intros a b Ha. by apply not_elem_of_nil in Ha.
  - destruct (existsb _ m) eqn:E; simpl.
    + destruct IH as [IH1 IH2]. split; [by constructor|].
      rewrite IH2. symmetry. apply Permutation_middle.
    + split; [constructor; [by apply compatible_snoc|done]|].
      rewrite <- app_assoc. symmetry. apply Permutation_middle.
Qed.

Lemma place_all allow ps groups :
  Forall pattern_ok ps -> Forall (compatible allow) groups ->
  Forall (compatible allow) (fold_left (fun gs p => place allow p gs) ps groups) /\
  concat (fold_left (fun gs p => place allow p gs) ps groups) ≡ₚ ps ++ concat groups.
Proof.
  intros Hps. revert groups. induction Hps as [|p ps Hp _ IH]; intros groups Hg; simpl; [done|].
  destruct (place_spec allow p groups) as [H1 H2]; [done|done|].
  destruct (IH (place allow p groups)) as [H3 H4]; [done|]. split; [done|].
  rewrite H4, H2. symmetry. apply Permutation_middle.
Qed.

(** Every pattern is in a group and the members of a group do not conflict. *)
Lemma group_patterns_spec allow :
  Forall pattern_ok allow ->
  Forall (compatible allow) (group_patterns allow) /\ concat (group_patterns allow) ≡ₚ allow.
Proof.
  intros Ha. unfold group_patterns.
  destruct (place_all allow (sort_by (fun a b => (depth a <=? depth b)%Z) allow) []) as [H1 H2].
  - by rewrite sort_by_perm.
  - done.
  - split; [done|]. rewrite H2. simpl. by rewrite app_nil_r, sort_by_perm.
Qed.

Lemma subdomainsAllowed_spec allow e :
  subdomainsAllowed allow e = true <->
  exists p base, p ∈ allow /\ CutPrefix p wildcardPrefix = Some base /\
    (base = e \/ HasSuffix e ("." +:+ base) = true).
Proof.
  unfold subdomainsAllowed. rewrite existsb_exists. split.
  - intros (p & Hp & Hm). destruct (CutPrefix p wildcardPrefix) as [base|] eqn:E; [|done].
    exists p, base. rewrite list_elem_of_In. split_and!; [done|done|].
    apply orb_true_iff in Hm as [Hm|Hm]; [left; by bool_to_prop|by right].
  - intros (p & base & Hp & E & Hm). exists p. rewrite <- list_elem_of_In, E. split; [done|].
    apply orb_true_iff. destruct Hm as [->|Hm]; [left; by rewrite bool_decide_true|by right].
Qed.

Lemma bypassExcluded_spec bypass h :
  ValidHostname h = true -> Forall pattern_ok bypass ->
  forallb (fun c => bool_decide (matchDomainConstraint h c = Some false)) (bypassExcluded bypass)
  = negb (existsb (fun p => bypassMatches p h) bypass).
Proof.
  intros Hh. induction 1 as [|p bypass Hp _ IH]; [done|].
  cbn [bypassExcluded map forallb existsb]. unfold bypassExcluded in IH.
  rewrite IH, negb_orb. f_equal. unfold bypassMatches.
  apply pattern_ok_view in Hp as [base Hc _ _ Hv|Hc _ _ Hv]; rewrite Hc.
  - rewrite match_dot by done. by destruct (HasSuffix h _).
  - rewrite match_exact by done. by destruct (_ || _)%bool.
Qed.

Lemma member_permitted allow h p :
  ValidHostname h = true -> pattern_ok p ->
  existsb (fun c => bool_decide (matchDomainConstraint h c = Some true)) (Permitted (member_set allow p))
  = bypassMatches p h.
Proof.
  intros Hh Hp. unfold member_set, bypassMatches.
  apply pattern_ok_view in Hp as [base Hc _ _ Hv|Hc _ _ Hv]; rewrite Hc; cbn [Permitted existsb];
    rewrite orb_false_r.
  - rewrite match_dot by done. by destruct (HasSuffix h _).
  - rewrite match_exact by done. by destruct (_ || _)%bool.
Qed.

(** The member's own exclusion: the subdomains of an exact name no wildcard
    covers. *)
Lemma member_excluded allow h p :
  ValidHostname h = true -> pattern_ok p ->
  forallb (fun c => bool_decide (matchDomainConstraint h c = Some false)) (Excluded (member_set allow p))
  = negb (negb (HasPrefix p wildcardPrefix) && negb (subdomainsAllowed allow p)
          && HasSuffix h ("." +:+ p)).
Proof.
  intros Hh Hp. unfold member_set.
  apply pattern_ok_view in Hp as [base Hc Hw _ Hv|Hc Hw _ Hv]; rewrite Hc, Hw; cbn [Excluded]; [done|].
  destruct (subdomainsAllowed allow p); cbn [negb andb forallb]; [done|].
  rewrite match_dot by done. by destruct (HasSuffix h _).
Qed.

Lemma existsb_concat_map {A B} (f : B -> bool) (g : A -> list B) (l : list A) :
  existsb f (concat (map g l)) = existsb (fun a => existsb f (g a)) l.
Proof. induction l as [|a l IH]; simpl; [done|]. by rewrite existsb_app, IH. Qed.

Lemma forallb_concat_map {A B} (f : B -> bool) (g : A -> list B) (l : list A) :
  forallb f (concat (map g l)) = forallb (fun a => forallb f (g a)) l.
Proof. induction l as [|a l IH]; simpl; [done|]. by rewrite forallb_app, IH. Qed.

(** What a group of constraints permits. *)
Definition group_permits (allow bypass members : list string) (h : string) : Prop :=
  (exists p, p ∈ members /\ bypassMatches p h = true) /\
  (forall q, q ∈ members -> HasPrefix q wildcardPrefix = false ->
     HasSuffix h ("." +:+ q) = true -> subdomainsAllowed allow q = true) /\
  existsb (fun p => bypassMatches p h) bypass = false.

Lemma group_set_permits allow bypass members h :
  ValidHostname h = true -> Forall pattern_ok members -> Forall pattern_ok bypass ->
  x509_permits (group_set allow bypass members) h = true <-> group_permits allow bypass members h.
Proof.
  intros Hh Hm Hb. unfold x509_permits, group_set, group_permits. cbn [Permitted Excluded].
  rewrite forallb_app, bypassExcluded_spec by done.
  rewrite existsb_concat_map, forallb_concat_map, !andb_true_iff, negb_true_iff.
  rewrite existsb_exists, forallb_forall. rewrite Forall_forall in Hm.
  split; (intros ((p & Hin & Hp) & Hex & Hby); split_and!; [| |done]).
  - rewrite <- list_elem_of_In in Hin. exists p. split; [done|].
    by rewrite member_permitted in Hp by auto.
  - intros q Hq Hw Hs. rewrite list_elem_of_In in Hq. specialize (Hex q Hq).
    rewrite <- list_elem_of_In in Hq. rewrite member_excluded, Hw, Hs in Hex by auto.
    by destruct (subdomainsAllowed allow q).
  - exists p. rewrite <- list_elem_of_In. split; [done|]. by rewrite member_permitted by auto.
  - intros q Hq%list_elem_of_In. rewrite member_excluded by auto.
    destruct (HasPrefix q _) eqn:Hw; [done|].
    destruct (HasSuffix h _) eqn:Hs; [|by rewrite andb_false_r].
    by rewrite (Hex q Hq Hw Hs).
Qed.

(** An allowed host is permitted by the group of the pattern that allows it. *)
Lemma allow_group_permits allow bypass members p h :
  Forall pattern_ok members -> compatible allow members -> p ∈ members -> p ∈ allow ->
  allowMatches p h = true -> existsb (fun q => bypassMatches q h) bypass = false ->
  group_permits allow bypass members h.
Proof.
  intros Hok Hcomp Hp Hpa Hm Hb. rewrite Forall_forall in Hok. split_and!; [| |done].
  { exists p. split; [done|]. unfold allowMatches, bypassMatches in *.
    destruct (CutPrefix p _); [done|]. by rewrite Hm. }
  intros q Hq Hw Hs. apply not_false_is_true. intros Hns.
  pose proof (Hcomp q p Hq Hp) as Hc. unfold conflicts, excludesSubtreeOf in Hc.
  rewrite Hw, Hns in Hc. apply orb_false_iff in Hc as [Hc _]. cbn [orb] in Hc.
  unfold allowMatches in Hm.
  destruct (pattern_ok_view p (Hok p Hp)) as [base Hcp _ Ht Hv|Hcp _ Ht Hv];
    rewrite Hcp in Hm; rewrite Ht in Hc.
  - assert (Hsub : base = q \/ HasSuffix q ("." +:+ base) = true).
    { destruct (HasSuffix_comparable h base q) as [?|[?|?]]; auto. congruence. }
    assert (subdomainsAllowed allow q = true); [|congruence].
    apply subdomainsAllowed_spec. eauto.
  - bool_to_prop. subst. congruence.
Qed.

(** A host a group permits is allowed. *)
Lemma group_permits_allow allow bypass members h :
  Forall pattern_ok members -> (forall p, p ∈ members -> p ∈ allow) ->
  group_permits allow bypass members h -> matchesCanonical allow h = true.
Proof.
  intros Hok Hsub ((p & Hp & Hm) & Hex & _). rewrite Forall_forall in Hok.
  unfold matchesCanonical. apply existsb_exists.
  destruct (pattern_ok_view p (Hok p Hp)) as [base Hcp Hw Ht Hv|Hcp Hw Ht Hv];
    unfold bypassMatches in Hm; rewrite Hcp in Hm.
  - exists p. rewrite <- list_elem_of_In. unfold allowMatches. rewrite Hcp. auto.
  - apply orb_true_iff in Hm as [Hm|Hm].
    + exists p. rewrite <- list_elem_of_In. unfold allowMatches. rewrite Hcp. auto.
    + pose proof (Hex p Hp Hw Hm) as Hs. apply subdomainsAllowed_spec in Hs as (w & base & Hw2 & Hc2 & Hb2).
      exists w. rewrite <- list_elem_of_In. split; [done|]. unfold allowMatches. rewrite Hc2.
      destruct Hb2 as [->|Hb2]; [done|]. by eapply HasSuffix_trans.
Qed.

Lemma group_in_allow allow members p :
  Forall pattern_ok allow -> members ∈ group_patterns allow -> p ∈ members -> p ∈ allow.
Proof.
  intros Ha Hm Hp. destruct (group_patterns_spec allow Ha) as [_ Hperm].
  rewrite <- Hperm. apply list_elem_of_In, in_concat.
  exists members. by rewrite <- !list_elem_of_In.
Qed.

Section Equivalence.
Context `{UnicodeLower} `{UnicodeQuote}.

Lemma CanonicalHost_valid host h : CanonicalHost host = Some h -> ValidHostname h = true.
Proof.
  unfold CanonicalHost. destruct (_ || _)%bool eqn:E; [done|]. intros [= <-]. by bool_to_prop.
Qed.

Lemma Decrypts_constraints allow bypass groups host :
  Forall pattern_ok allow -> Forall pattern_ok bypass ->
  ConstraintGroups allow bypass = Ok groups ->
  Decrypts allow bypass host =
  match CanonicalHost host with
  | Some h => existsb (fun s => x509_permits s h) groups
  | None => false
  end.
Proof.
  intros Ha Hb. unfold ConstraintGroups, Decrypts. case_bool_decide; [done|]. intros [= <-].
  destruct (CanonicalHost host) as [h|] eqn:Eh; [|done].
  pose proof (CanonicalHost_valid _ _ Eh) as Hh.
  destruct (group_patterns_spec allow Ha) as [Hcomp Hperm].
  assert (Hmok : forall m, m ∈ group_patterns allow -> Forall pattern_ok m).
  { intros m Hm. apply Forall_forall. intros p Hp. rewrite Forall_forall in Ha.
    apply Ha. eapply group_in_allow; [by apply Forall_forall|exact Hm|done]. }
  apply eq_true_iff_eq. rewrite existsb_exists. split.
  - destruct (existsb _ bypass) eqn:Eb; [done|]. unfold matchesCanonical.
    rewrite existsb_exists. intros (p & Hp%list_elem_of_In & Hm).
    assert (Hp' : p ∈ concat (group_patterns allow)) by by rewrite Hperm.
    apply list_elem_of_In, in_concat in Hp' as (m & Hmg & Hpm).
    exists (group_set allow bypass m). split; [by apply in_map|].
    rewrite <- list_elem_of_In in Hmg. rewrite <- list_elem_of_In in Hpm.
    rewrite Forall_forall in Hcomp.
    apply group_set_permits; auto. eapply allow_group_permits; eauto.
  - intros (s & (m & <- & Hmg)%in_map_iff & Hx). rewrite <- list_elem_of_In in Hmg.
    apply group_set_permits in Hx; auto. pose proof Hx as (_ & _ & ->).
    eapply group_permits_allow; [by apply Hmok| |exact Hx].
    intros p Hp. by eapply group_in_allow.
Qed.

(** *** Normalization *)

Definition pattern_byte (b : byte) : bool :=
  label_byte b || Ascii.eqb b "."%char || Ascii.eqb b "*"%char.

Lemma ValidHostname_bytes h b : ValidHostname h = true -> b ∈ bytes_of h -> pattern_byte b = true.
Proof.
  intros Hv Hb. apply ValidHostname_labels in Hv. rewrite Forall_forall in Hv.
  unfold pattern_byte. destruct (elem_of_pieces "."%char _ _ Hb) as [->|(w & Hw & Hbw)].
  - by rewrite orb_true_r.
  - apply Hv, valid_label_bytes in Hw as [_ Hw]. rewrite forallb_forall in Hw.
    rewrite Hw; [done|]. by apply list_elem_of_In.
Qed.

Lemma pattern_ok_bytes p b : pattern_ok p -> b ∈ bytes_of p -> pattern_byte b = true.
Proof.
  intros [base Hc Hp Ht Hv|Hc Hp Ht Hv]%pattern_ok_view Hb.
  - apply CutPrefix_Some in Hc as ->. rewrite bytes_of_app in Hb.
    apply elem_of_app in Hb as [Hb|Hb]; [|by eapply ValidHostname_bytes].
    simpl in Hb. apply elem_of_cons in Hb as [->|Hb]; [done|].
    by apply list_elem_of_singleton in Hb as ->.
  - by eapply ValidHostname_bytes.
Qed.

Lemma pattern_byte_visible b : pattern_byte b = true -> visible b = true /\ lower_byte b = b.
Proof.
  unfold pattern_byte. rewrite !orb_true_iff, !Ascii.eqb_eq. intros [[Hb| ->]| ->]; [|done|done].
  split; [|by apply label_byte_lower]. unfold label_byte in Hb. unfold visible. lia.
Qed.

Lemma ValidHostname_no_trailing h : ValidHostname h = true -> HasSuffix h "." = false.
Proof.
  intros Hv. apply not_true_is_false. intros Hs.
  change "." with ("." +:+ "") in Hs. apply HasSuffix_labels in Hs as (pre & _ & Hl).
  apply ValidHostname_labels in Hv. rewrite Hl in Hv. apply Forall_app in Hv as [_ Hv].
  by inversion Hv.
Qed.

Lemma pattern_ok_no_trailing p : pattern_ok p -> HasSuffix p "." = false.
Proof.
  intros [base Hc Hp Ht Hv|Hc Hp Ht Hv]%pattern_ok_view; [|by apply ValidHostname_no_trailing].
  apply CutPrefix_Some in Hc as ->. apply not_true_is_false.
  change "." with ("." +:+ ""). rewrite HasSuffix_labels. intros (pre & _ & Hl).
  unfold labels in Hl. change (wildcardPrefix +:+ base) with ("*" +:+ "." +:+ base) in Hl.
  rewrite !bytes_of_app in Hl.
  change (bytes_of "." ++ bytes_of base) with ("."%char :: bytes_of base) in Hl.
  rewrite split_bytes_app in Hl. simpl in Hl.
  apply ValidHostname_labels in Hv. pose proof (split_bytes_nonempty "."%char (bytes_of base)) as Hne.
  unfold labels in Hv. destruct (split_bytes _ _) as [|w ws] using rev_ind; [done|].
  rewrite app_comm_cons in Hl. apply app_inj_tail in Hl as [_ ->].
  apply Forall_app in Hv as [_ Hv]. by inversion Hv.
Qed.

Lemma pattern_ok_trim p : pattern_ok p -> TrimSuffix (ToLower (TrimSpace p)) "." = p.
Proof.
  intros Hp. assert (Hb : forall b, b ∈ bytes_of p -> visible b = true /\ lower_byte b = b).
  { intros b Hb. eapply pattern_byte_visible, pattern_ok_bytes; eauto. }
  assert (Hv : forallb visible (bytes_of p) = true).
  { apply forallb_forall. intros b Hin%list_elem_of_In. by apply Hb. }
  rewrite TrimSpace_visible by done. rewrite ToLower_id; [|done|].
  - unfold TrimSuffix. by rewrite pattern_ok_no_trailing.
  - apply Forall_forall. intros b Hin. by apply Hb.
Qed.

Lemma normalizePattern_Ok raw p :
  normalizePattern raw = Ok p -> pattern_ok p /\ normalizePattern p = Ok p.
Proof.
  unfold normalizePattern at 1. set (q := TrimSuffix _ _).
  destruct (isIP _) eqn:Ei; [done|]. destruct (negb _) eqn:Ev; [done|]. intros [= <-].
  apply negb_false_iff in Ev. assert (Hq : pattern_ok q) by done. split; [done|].
  unfold normalizePattern. rewrite pattern_ok_trim by done. by rewrite Ei, Ev.
Qed.

Definition normalized (p : string) : Prop := pattern_ok p /\ normalizePattern p = Ok p.

Lemma normalize_loop_Ok patterns out res :
  normalize_loop patterns out = Ok res -> Forall normalized out -> NoDup out ->
  Forall normalized res /\ NoDup res /\ length res <= length out + length patterns.
Proof.
  revert out. induction patterns as [|raw rest IH]; intros out; cbn [normalize_loop length].
  { intros [= <-] ? ?. split_and!; auto. lia. }
  destruct (normalizePattern raw) as [p|err] eqn:En; [|done]. intros Hl Ho Hd.
  apply normalizePattern_Ok in En. case_bool_decide as Hin.
  - destruct (IH _ Hl Ho Hd) as (? & ? & ?). split_and!; auto. lia.
  - destruct (IH _ Hl) as (? & ? & Hlen).
    + apply Forall_app; split; [done|by constructor].
    + apply NoDup_app. split_and!; [done| |apply NoDup_singleton].
      intros x Hx ->%list_elem_of_singleton. done.
    + rewrite length_app in Hlen. simpl in Hlen. split_and!; auto. lia.
Qed.

Lemma normalize_loop_id ps out :
  Forall normalized ps -> NoDup (out ++ ps) -> normalize_loop ps out = Ok (out ++ ps).
Proof.
  intros Hp. revert out. induction Hp as [|p ps [_ Hn] _ IH]; intros out Hd; cbn [normalize_loop].
  { by rewrite app_nil_r. }
  rewrite Hn. rewrite bool_decide_false.
  - rewrite IH; rewrite <- app_assoc; done.
  - apply NoDup_app in Hd as (_ & Hd & _). intros Hin. apply (Hd p Hin). by left.
Qed.

(** A normalized list is sorted, has no duplicates, and is its own
    normalization. *)
Lemma Normalize_spec patterns out :
  Normalize patterns = Ok out ->
  Forall pattern_ok out /\ NoDup out /\ StronglySorted (leb_rel str_leb) out /\
  Normalize out = Ok out.
Proof.
  unfold Normalize at 1. destruct (_ <? _)%Z eqn:Hlen; [done|]. bool_to_prop.
  destruct (normalize_loop patterns []) as [res|] eqn:El; [|done]. intros [= <-].
  destruct (normalize_loop_Ok _ _ _ El) as (Hn & Hd & Hl); [constructor|constructor|].
  assert (Hn' : Forall normalized (sort_by str_leb res)) by by rewrite sort_by_perm.
  assert (Hs : StronglySorted (leb_rel str_leb) (sort_by str_leb res)).
  { apply sort_by_StronglySorted; [apply str_leb_total|apply str_leb_trans]. }
  split_and!; [|by rewrite NoDup_sort_by|done|].
  - eapply Forall_impl; [exact Hn'|]. by intros p [? ?].
  - unfold Normalize. rewrite (proj2 (Z.ltb_ge _ _)).
    + rewrite normalize_loop_id; [|done|by apply NoDup_sort_by]. simpl.
      by rewrite sort_by_id.
    + unfold len in *. rewrite (Permutation_length (sort_by_perm str_leb res)).
      simpl in Hl. lia.
Qed.

(** C35: For lists as [Normalize] returns them, the agent decrypts a host exactly when an
    intermediate with one of the issued name constraints may sign for it under the
    crypto/x509 rules: the agent's matcher and the issued certificates agree. *)
Theorem decrypt_scope_matches_certificates rawAllow rawBypass allow bypass groups host :
  Normalize rawAllow = Ok allow -> Normalize rawBypass = Ok bypass ->
  ConstraintGroups allow bypass = Ok groups ->
  Decrypts allow bypass host =
  match CanonicalHost host with
  | Some h => existsb (fun s => x509_permits s h) groups
  | None => false
  end.
Proof.
  intros Ha Hb Hg. apply Decrypts_constraints; [| |done].
  - by apply Normalize_spec in Ha as (? & _).
  - by apply Normalize_spec in Hb as (? & _).
Qed.

(** What [Normalize] returns is at most as long as its input, sorted and free of
    duplicates, holds only hostnames and [*.hostname] patterns, and is a fixed point. *)
Theorem Normalize_canonical patterns out :
  Normalize patterns = Ok out ->
  Forall pattern_ok out /\ NoDup out /\ StronglySorted (leb_rel str_leb) out /\
  Normalize out = Ok out.
Proof. apply Normalize_spec. Qed.
End Equivalence.

(** The exact name "api.a.com" under a wildcard for a different tree. *)
Lemma decrypt_scope_matches_certificates_witness :
  let _ : UnicodeLower := fun s => s in
  let _ : UnicodeQuote := fun s => s in
  Decrypts ["*.b.org"; "api.a.com"] ["x.b.org"] "y.b.org" = true.
Proof.
  intros lower quote.
  assert (Ha : Normalize [" API.a.com."; "*.b.org"; "api.a.com"] = Ok ["*.b.org"; "api.a.com"])
    by (vm_compute; reflexivity).
  assert (Hb : Normalize ["x.b.org"] = Ok ["x.b.org"]) by (vm_compute; reflexivity).
  destruct (ConstraintGroups ["*.b.org"; "api.a.com"] ["x.b.org"]) as [groups|err] eqn:Hg;
    [|vm_compute in Hg; discriminate Hg].
  rewrite (decrypt_scope_matches_certificates _ _ _ _ groups "y.b.org" Ha Hb Hg).
  vm_compute in Hg. injection Hg as <-. vm_compute. reflexivity.
Defined.

Lemma Normalize_canonical_witness :
  let _ : UnicodeLower := fun s => s in
  let _ : UnicodeQuote := fun s => s in
  NoDup ["*.b.org"; "api.a.com"] /\ Normalize ["*.b.org"; "api.a.com"] = Ok ["*.b.org"; "api.a.com"].
Proof.
  intros lower quote.
  assert (Ha : Normalize [" API.a.com."; "*.b.org"; "api.a.com"] = Ok ["*.b.org"; "api.a.com"])
    by (vm_compute; reflexivity).
  destruct (Normalize_canonical _ _ Ha) as (_ & Hnd & _ & Hid). exact (conj Hnd Hid).
Defined.
End DecryptScope.
