(* ===== verification/Requirements.v ===== *)
(** * Requirement graphs between services

    internal/store/requirements.go: a service may require others of its
    organization; [ValidateRequirements] accepts a change when every
    requirement of the organization resolves and the graph has no cycle. The
    depth-first search is proved to decide exactly that. *)
From S2P Require Import Prelude GoIO GoStrings.

Module Requirements.
Definition ErrConflict : goerr := ENew "store: conflict".

Record Service := mkService { ID : string; OrgID : string; Name : string; Requires : list string }.

Abbreviation graph_t := (gmap string Service).

(** The services of the organization by id; a later record replaces an
    earlier one. [None] is a nil pointer of the slice. *)
Definition org_graph (orgID : string) (services : list (option Service)) : graph_t :=
  fold_left (fun (g : graph_t) s =>
    match s with
    | Some s => if bool_decide (OrgID s = orgID) then <[ID s := s]> g else g
    | None => g
    end) services ∅.

(** The graph with the prospective requirements of [serviceID]. *)
Definition prospective_graph (orgID serviceID : string) (requires : list string)
    (services : list (option Service)) : graph_t :=
  let graph := org_graph orgID services in
  let name := match graph !! serviceID with Some current => Name current | None => "service" end in
  <[serviceID := mkService serviceID orgID name requires]> graph.

(** [graph[id].Name]. *)
Definition name_of (graph : graph_t) (id : string) : string :=
  match graph !! id with Some s => Name s | None => "" end.

(** [!less(b, a)]: by name, then by id. *)
Definition id_leb (graph : graph_t) (a b : string) : bool :=
  if bool_decide (name_of graph a = name_of graph b) then str_leb a b
  else str_leb (name_of graph a) (name_of graph b).

(** The first occurrences, as [seen] keeps them. *)
Fixpoint dedup (seen l : list string) : list string :=
  match l with
  | [] => []
  | x :: l' => if bool_decide (x ∈ seen) then dedup seen l' else x :: dedup (x :: seen) l'
  end.

Definition requirement_ok (graph : graph_t) (requirement : string) : bool :=
  negb (bool_decide (requirement = "")) && bool_decide (is_Some (graph !! requirement)).

Definition all_resolve (graph : graph_t) : bool :=
  forallb (fun '(_, s) => forallb (requirement_ok graph) (Requires s)) (map_to_list graph).

Definition edges (graph : graph_t) (id : string) : list string :=
  match graph !! id with
  | Some s => sort_by (id_leb graph) (dedup [] (Requires s))
  | None => []
  end.

Definition roots (graph : graph_t) : list string :=
  sort_by (id_leb graph) (map fst (map_to_list graph)).

(** [state[id]]: absent is 0, [Visiting] is 1, [Visited] is 2. *)
Inductive mark := Visiting | Visited.

Abbreviation marks := (gmap string mark).

Inductive outcome :=
| Done (state : marks)
| Cycle (members : list string)
| OutOfFuel.

(** The part of the path from the first occurrence of [id]. *)
Fixpoint from_first (id : string) (path : list string) : list string :=
  match path with
  | [] => []
  | x :: path' => if bool_decide (x = id) then path else from_first id path'
  end.

(** A [for] loop over ids that returns the first error. *)
Fixpoint visit_each (visit1 : string -> marks -> outcome) (ids : list string) (state : marks)
    : outcome :=
  match ids with
  | [] => Done state
  | id :: ids' =>
      match visit1 id state with
      | Done state' => visit_each visit1 ids' state'
      | o => o
      end
  end.

Fixpoint visit (graph : graph_t) (fuel : nat) (path : list string) (id : string) (state : marks)
    : outcome :=
  match fuel with
  | O => OutOfFuel
  | S fuel' =>
      match state !! id with
      | Some Visited => Done state
      | Some Visiting => Cycle (from_first id path ++ [id])
      | None =>
          match visit_each (visit graph fuel' (path ++ [id])) (edges graph id)
                  (<[id := Visiting]> state) with
          | Done state' => Done (<[id := Visited]> state')
          | o => o
          end
      end
  end.

Definition cycle_text `{UnicodeQuote} (graph : graph_t) (members : list string) : string :=
  String.concat " -> " (map (fun id => Quote (name_of graph id)) members).

(** [None] is [nil]. *)
Definition ValidateRequirements `{UnicodeQuote} (orgID serviceID : string) (requires : list string)
    (services : list (option Service)) : option goerr :=
  if bool_decide (orgID = "")
  then Some (EWrap "requirement organization is required: " ErrConflict "")
  else if bool_decide (serviceID = "")
  then Some (EWrap "requirement service is required: " ErrConflict "")
  else
    let graph := prospective_graph orgID serviceID requires services in
    if negb (all_resolve graph)
    then Some (EWrap "requirement must reference a service in this organization: " ErrConflict "")
    else
      match visit_each (visit graph (S (size graph)) []) (roots graph) ∅ with
      | Done _ => None
      | Cycle members => Some (EWrap ("requirement cycle: " +:+ cycle_text graph members +:+ ": ") ErrConflict "")
      | OutOfFuel => Some (ENew "out of fuel")
      end.

(** ** The graph the search decides *)

(** [a] requires [b]. *)
Definition requires (graph : graph_t) (a b : string) : Prop :=
  exists s, graph !! a = Some s /\ b ∈ Requires s.

(** Every requirement of the graph is one of its services. *)
Definition closed (graph : graph_t) : Prop :=
  forall a b, requires graph a b -> b <> "" /\ is_Some (graph !! b).

Definition acyclic (graph : graph_t) : Prop := forall a, ~ tc (requires graph) a a.

(** [l] walks along requirements. *)
Fixpoint walk (graph : graph_t) (l : list string) : Prop :=
  match l with
  | a :: ((b :: _) as l') => requires graph a b /\ walk graph l'
  | _ => True
  end.

(** A closed walk with at least one step. *)
Definition is_cycle (graph : graph_t) (l : list string) : Prop :=
  exists a mid, l = a :: mid ++ [a] /\ walk graph l.

Lemma elem_of_dedup l : forall seen x, x ∈ dedup seen l <-> x ∈ l /\ x ∉ seen.
Proof.
  induction l as [|y l IH]; intros seen x; simpl; [set_solver|].
  case_bool_decide; rewrite ?elem_of_cons, IH; [set_solver|].
  destruct (decide (x = y)); set_solver.
Qed.

Lemma elem_of_edges graph a b : b ∈ edges graph a <-> requires graph a b.
Proof.
  unfold edges, requires. destruct (graph !! a) as [s|].
  - rewrite elem_of_sort_by, elem_of_dedup. set_solver.
  - split; [by intros ?%elem_of_nil|naive_solver].
Qed.

Lemma elem_of_roots graph a : a ∈ roots graph <-> is_Some (graph !! a).
Proof.
  unfold roots. rewrite elem_of_sort_by, list_elem_of_fmap. split.
  - intros ([k s] & -> & ?%elem_of_map_to_list). by eexists.
  - intros [s Hs]. exists (a, s). by rewrite elem_of_map_to_list.
Qed.

Lemma all_resolve_closed graph : all_resolve graph = true <-> closed graph.
Proof.
  unfold all_resolve, closed, requires. rewrite forallb_forall. split.
  - intros H a b (s & Hs & Hb). specialize (H (a, s)). simpl in H.
    rewrite forallb_forall in H.
    assert (Hok : requirement_ok graph b = true).
    { apply H; [|by apply list_elem_of_In].
      by apply list_elem_of_In, elem_of_map_to_list. }
    unfold requirement_ok in Hok. bool_to_prop. done.
  - intros H [a s] Hs%list_elem_of_In%elem_of_map_to_list. apply forallb_forall.
    intros b Hb%list_elem_of_In. destruct (H a b) as [Hne Hin]; [by exists s|].
    unfold requirement_ok. by rewrite bool_decide_false, bool_decide_true.
Qed.

Lemma walk_app graph l a k :
  walk graph (l ++ a :: k) <-> walk graph (l ++ [a]) /\ walk graph (a :: k).
Proof.
  induction l as [|x l IH]; [simpl; tauto|]. destruct l as [|y l].
  - simpl. tauto.
  - change (requires graph x y /\ walk graph ((y :: l) ++ a :: k)
      <-> (requires graph x y /\ walk graph ((y :: l) ++ [a])) /\ walk graph (a :: k)).
    rewrite IH. tauto.
Qed.

Lemma walk_tc graph l : forall a b, walk graph (a :: l ++ [b]) -> tc (requires graph) a b.
Proof.
  induction l as [|x l IH]; intros a b; simpl.
  - intros [? _]. by apply tc_once.
  - intros [? ?]. eapply tc_l; [done|]. by apply IH.
Qed.

Lemma is_cycle_cyclic graph l : is_cycle graph l -> ~ acyclic graph.
Proof. intros (a & mid & -> & Hw) Hac. apply (Hac a). by eapply walk_tc. Qed.

(** ** The search *)

(** Everything reachable from [a] ends. *)
Definition settled (graph : graph_t) : string -> Prop :=
  Acc (fun b a => requires graph a b).

Lemma settled_acyclic graph a : settled graph a -> ~ tc (requires graph) a a.
Proof.
  intros H. assert (Ht : forall b, tc (requires graph) a b -> settled graph b).
  { intros b Hb. revert H. induction Hb as [x y Hxy|x y z Hxy _ IH]; intros Hx.
    - by apply Hx.
    - apply IH. by apply Hx. }
  induction H as [a _ IH]. intros Hc.
  assert (Hstep : exists b, requires graph a b /\ tc (requires graph) b b).
  { inversion Hc as [|? b]; subst; [by exists a; split; [done|apply tc_once]|].
    exists b. split; [done|]. by eapply tc_r. }
  destruct Hstep as (b & Hb & Hbb). eapply IH; eauto.
  intros c Hc'. apply Ht. by eapply tc_l.
Qed.

(** The invariant of the search: the grey services are the path, the path
    walks along requirements, and what is finished lies on no cycle. *)
Record search_inv (graph : graph_t) (path : list string) (state : marks) : Prop := {
  inv_nodup : NoDup path;
  inv_known : forall x, x ∈ path -> is_Some (graph !! x);
  inv_grey : forall x, state !! x = Some Visiting <-> x ∈ path;
  inv_walk : walk graph path;
  inv_black : forall x, state !! x = Some Visited -> settled graph x
}.

(** [id] continues the path. *)
Definition extends (graph : graph_t) (path : list string) (id : string) : Prop :=
  is_Some (graph !! id) /\ walk graph (path ++ [id]).

Lemma path_bound graph path state : search_inv graph path state -> length path <= size graph.
Proof.
  intros H. rewrite <- size_dom. rewrite <- (size_list_to_set (C := gset string) path) by apply H.
  apply subseteq_size. intros x Hx%elem_of_list_to_set. apply elem_of_dom. by eapply inv_known.
Qed.

Lemma from_first_split id path : id ∈ path ->
  exists before after, path = before ++ id :: after /\ from_first id path = id :: after.
Proof.
  induction path as [|x path IH]; [by intros ?%elem_of_nil|]. intros Hin. simpl.
  case_bool_decide as E; [subst; by exists [], path|].
  apply elem_of_cons in Hin as [->|Hin]; [done|].
  destruct (IH Hin) as (b & a & -> & ->). by exists (x :: b), a.
Qed.

Lemma grey_cycle graph path state id :
  search_inv graph path state -> extends graph path id -> state !! id = Some Visiting ->
  is_cycle graph (from_first id path ++ [id]).
Proof.
  intros H [_ Hw] Hid%(inv_grey _ _ _ H).
  destruct (from_first_split _ _ Hid) as (b & a & -> & ->).
  exists id, a. split; [done|].
  rewrite <- app_assoc in Hw. simpl in Hw. by apply walk_app in Hw as [_ Hw].
Qed.

Lemma enter_inv graph path state id :
  search_inv graph path state -> extends graph path id -> state !! id = None ->
  search_inv graph (path ++ [id]) (<[id := Visiting]> state).
Proof.
  intros H [Hk Hw] Hn. assert (Hnp : id ∉ path).
  { intros Hp%(inv_grey _ _ _ H). congruence. }
  split.
  - apply NoDup_app. split; [apply H|]. split; [|apply NoDup_singleton]. set_solver.
  - intros x [Hx| ->%list_elem_of_singleton]%elem_of_app; [by eapply inv_known|done].
  - intros x. rewrite elem_of_app, list_elem_of_singleton.
    destruct (decide (x = id)) as [->|Hne]; [rewrite lookup_insert_eq; naive_solver|].
    rewrite lookup_insert_ne by done. rewrite (inv_grey _ _ _ H). naive_solver.
  - done.
  - intros x. destruct (decide (x = id)) as [->|Hne]; [by rewrite lookup_insert_eq|].
    rewrite lookup_insert_ne by done. apply H.
Qed.

Lemma leave_inv graph path state id :
  search_inv graph (path ++ [id]) state ->
  (forall b, requires graph id b -> state !! b = Some Visited) ->
  walk graph path -> search_inv graph path (<[id := Visited]> state).
Proof.
  intros H Hall Hw. pose proof (inv_nodup _ _ _ H) as (Hnd & Hdis & _)%NoDup_app.
  assert (Hnp : id ∉ path) by (intros Hp; eapply Hdis; [done|set_solver]).
  split; [done| | |done|].
  - intros x Hx. eapply inv_known; [done|set_solver].
  - intros x. destruct (decide (x = id)) as [->|Hne]; [rewrite lookup_insert_eq; naive_solver|].
    rewrite lookup_insert_ne by done. rewrite (inv_grey _ _ _ H). set_solver.
  - intros x. destruct (decide (x = id)) as [->|Hne].
    + intros _. constructor. intros b Hb. eapply inv_black; eauto.
    + rewrite lookup_insert_ne by done. eapply inv_black; eauto.
Qed.

Definition keeps (state state' : marks) : Prop :=
  forall x, state !! x = Some Visited -> state' !! x = Some Visited.

(** What a visit of [id] promises, started with enough fuel. *)
Definition visit_post (graph : graph_t) (path : list string) (state : marks) (ids : list string)
    (o : outcome) : Prop :=
  match o with
  | Done state' =>
      search_inv graph path state' /\ keeps state state' /\
      forall id, id ∈ ids -> state' !! id = Some Visited
  | Cycle members => is_cycle graph members
  | OutOfFuel => False
  end.

Lemma visit_each_spec graph path visit1 ids : forall state,
  (forall id state, id ∈ ids -> search_inv graph path state ->
     visit_post graph path state [id] (visit1 id state)) ->
  search_inv graph path state ->
  visit_post graph path state ids (visit_each visit1 ids state).
Proof.
  induction ids as [|id ids IH]; intros state Hv Hinv; simpl.
  - split; [done|]. split; [by intros x|]. by intros id ?%elem_of_nil.
  - pose proof (Hv id state ltac:(set_solver) Hinv) as H1.
    destruct (visit1 id state) as [state1| |]; [|done..].
    destruct H1 as (Hinv1 & Hk1 & Hid). 
    specialize (IH state1 ltac:(intros; apply Hv; [set_solver|done]) Hinv1).
    destruct (visit_each visit1 ids state1) as [state2| |]; [|done..].
    destruct IH as (Hinv2 & Hk2 & Hids). split; [done|]. split; [by intros x ?%Hk1%Hk2|].
    intros x [->|Hx]%elem_of_cons; [|by apply Hids]. apply Hk2, Hid. set_solver.
Qed.

Lemma visit_spec graph : closed graph -> forall fuel path id state,
  search_inv graph path state -> extends graph path id -> size graph < fuel + length path ->
  visit_post graph path state [id] (visit graph fuel path id state).
Proof.
  intros Hcl fuel. induction fuel as [|fuel IH]; intros path id state Hinv Hext Hfuel.
  { pose proof (path_bound _ _ _ Hinv). simpl in Hfuel. lia. }
  cbn [visit]. destruct (state !! id) as [[]|] eqn:Hid.
  - by eapply grey_cycle.
  - split; [done|]. split; [by intros x|]. by intros x ->%list_elem_of_singleton.
  - pose proof (enter_inv _ _ _ _ Hinv Hext Hid) as Hent.
    assert (Hloop : visit_post graph (path ++ [id]) (<[id := Visiting]> state) (edges graph id)
      (visit_each (visit graph fuel (path ++ [id])) (edges graph id) (<[id := Visiting]> state))).
    { apply visit_each_spec; [|done]. intros b st Hb%elem_of_edges Hst.
      apply IH; [done| |rewrite length_app; simpl; lia].
      split; [by eapply Hcl|]. rewrite <- app_assoc. apply walk_app. split; [apply Hext|by simpl]. }
    destruct (visit_each _ _ _) as [state'| |]; [|done..].
    destruct Hloop as (Hinv' & Hk & Hall). split; [|split].
    + apply leave_inv; [done| |apply Hinv]. intros b Hb. apply Hall. by apply elem_of_edges.
    + intros x Hx. destruct (decide (x = id)) as [->|Hne]; [by rewrite lookup_insert_eq|].
      rewrite lookup_insert_ne by done. apply Hk. by rewrite lookup_insert_ne.
    + intros x ->%list_elem_of_singleton. apply lookup_insert_eq.
Qed.

Lemma search_inv_empty graph : search_inv graph [] ∅.
Proof.
  split; [constructor|by intros x ?%elem_of_nil| |done|].
  - intros x. rewrite lookup_empty. split; [done|by intros ?%elem_of_nil].
  - intros x. by rewrite lookup_empty.
Qed.

(** The search over all roots decides acyclicity, and its fuel is enough. *)
Lemma search_spec graph : closed graph ->
  match visit_each (visit graph (S (size graph)) []) (roots graph) ∅ with
  | Done _ => acyclic graph
  | Cycle members => is_cycle graph members
  | OutOfFuel => False
  end.
Proof.
  intros Hcl.
  assert (H : visit_post graph [] ∅ (roots graph)
    (visit_each (visit graph (S (size graph)) []) (roots graph) ∅)).
  { apply visit_each_spec; [|apply search_inv_empty]. intros id st Hid%elem_of_roots Hst.
    apply visit_spec; [done..|by split|simpl; lia]. }
  destruct (visit_each _ _ _) as [state| |]; [|done..]. destruct H as (Hinv & _ & Hall).
  intros a Hc. eapply settled_acyclic; [|done]. eapply inv_black; [done|].
  apply Hall, elem_of_roots. inversion Hc as [? ? (s & Hs & _)|? ? ? (s & Hs & _) _]; by exists s.
Qed.

(** C26: [ValidateRequirements] accepts a change exactly when both ids are given, every
    requirement of the organization's prospective graph names one of its services and the
    graph has no cycle, whatever the order in which the map is traversed. *)
Theorem ValidateRequirements_decides `{UnicodeQuote} orgID serviceID reqs services :
  ValidateRequirements orgID serviceID reqs services = None <->
  orgID <> "" /\ serviceID <> "" /\
  closed (prospective_graph orgID serviceID reqs services) /\
  acyclic (prospective_graph orgID serviceID reqs services).
Proof.
  unfold ValidateRequirements. set (graph := prospective_graph _ _ _ _).
  case_bool_decide; [naive_solver|]. case_bool_decide; [naive_solver|].
  rewrite <- (all_resolve_closed graph).
  destruct (all_resolve graph) eqn:Hr; simpl; [|naive_solver].
  pose proof (search_spec graph (proj1 (all_resolve_closed graph) Hr)) as Hs.
  destruct (visit_each _ _ _) as [state|members|]; [naive_solver| |done].
  split; [done|]. intros (_ & _ & _ & Hac). by apply is_cycle_cyclic in Hs.
Qed.

(** When the requirements resolve and a cycle is reported, the error wraps [ErrConflict]
    and its text is the names along a real cycle of the graph. *)
Theorem ValidateRequirements_cycle `{UnicodeQuote} orgID serviceID reqs services e :
  orgID <> "" -> serviceID <> "" ->
  closed (prospective_graph orgID serviceID reqs services) ->
  ValidateRequirements orgID serviceID reqs services = Some e ->
  exists members, is_cycle (prospective_graph orgID serviceID reqs services) members /\
    e = EWrap ("requirement cycle: " +:+
          cycle_text (prospective_graph orgID serviceID reqs services) members +:+ ": ")
          ErrConflict "".
Proof.
  intros Ho Hs Hcl. unfold ValidateRequirements. set (graph := prospective_graph _ _ _ _) in *.
  rewrite (bool_decide_eq_false_2 _ Ho), (bool_decide_eq_false_2 _ Hs).
  rewrite (proj2 (all_resolve_closed graph) Hcl). cbn [negb].
  pose proof (search_spec graph Hcl) as Hp.
  destruct (visit_each _ _ _) as [state|members|]; [done| |done].
  intros [= <-]. by exists members.
Qed.

(** Two services that require each other, the second edge being the change. *)
Lemma ValidateRequirements_cycle_witness :
  exists members, is_cycle (prospective_graph "o" "a" ["b"] [Some (mkService "b" "o" "B" ["a"])])
    members.
Proof.
  pose (uq := (fun s => s) : UnicodeQuote).
  assert (Hcl : closed (prospective_graph "o" "a" ["b"] [Some (mkService "b" "o" "B" ["a"])]))
    by (apply all_resolve_closed; vm_compute; reflexivity).
  destruct (ValidateRequirements "o" "a" ["b"] [Some (mkService "b" "o" "B" ["a"])]) as [e|] eqn:E;
    [|vm_compute in E; discriminate E].
  destruct (ValidateRequirements_cycle "o" "a" ["b"] [Some (mkService "b" "o" "B" ["a"])] e
    ltac:(done) ltac:(done) Hcl E) as (members & Hm & _).
  exists members. exact Hm.
Defined.
End Requirements.
