(* ===== verification/Datagram.v ===== *)
(** * Datagram flows over the tunnel

    internal/tunnel/datagram.go: the listener that gives every UDP client a
    flow of its own ([DatagramListener]) and the relay between a stream and a
    socket ([RelayDatagrams]). Both are sets of goroutines; here they are
    state machines whose events are the atomic actions of the goroutines,
    executable by [step]. *)
From S2P Require Import Prelude GoIO Frames.
Import DatagramFrame.

Abbreviation packet := (list byte).

(** ** Idle times *)

Definition second : Z := 1000000000.
Definition millisecond : Z := 1000000.
Definition DefaultDatagramIdle : Z := 60 * second.

Definition idleCheckInterval (idle : Z) : Z := Z.max (Z.quot idle 4) (10 * millisecond).

(** The parsed duration of the metadata entry; [None] is a parse error. *)
Definition DatagramIdleFromMeta (parsed : option Z) : Z :=
  match parsed with
  | Some d => if (d <=? 0)%Z then DefaultDatagramIdle else d
  | None => DefaultDatagramIdle
  end.

(** ** DatagramListener *)
Module Listener.
Definition DefaultMaxFlows : Z := 1024.
Definition defaultDatagramQueue : Z := 64.
Definition DropQueueFull : string := "queue_full".
Definition DropFlowLimit : string := "flow_limit".

Record DatagramListenerOptions := mkOpts { Idle : Z; MaxFlows : Z; QueueSize : Z }.

(** Where the goroutine [runFlow] of a flow stands. *)
Inductive phase :=
| Opening    (* in opts.Open *)
| Serving    (* in the select loop *)
| Draining   (* stream closed, waiting for readerDone *)
| Finishing  (* about to run finishFlow *)
| Reporting  (* out of the table, about to call OnFlowDone *)
| Gone.

(** The flow object; [out] is what was written to its stream and [inp] what
    its reader goroutine has left to read. *)
Record datagramFlow := mkFlow {
  client : string;
  queue : list packet;
  stop : bool;
  activity : Z;
  fromClient : Z;
  toClient : Z;
  at_phase : phase;
  out : writer;
  inp : reader;
  readerDone : bool
}.

(** What the rest of the program can see of the listener. *)
Inductive obs :=
| Accepted (id : nat) (p : packet)
| Dropped (reason : string)
| Opened (id : nat) (peer : list byte)
| Delivered (id : nat) (p : packet)
| Returned (id : nat) (p : packet)
| FlowDone (id : nat) (from to : Z).

(** Flows are pointers: [heap] holds the objects and [flows] the table. *)
Record listener := mkListener {
  opts : DatagramListenerOptions;
  flows : gmap string nat;
  heap : gmap nat datagramFlow;
  next : nat;
  now : Z;
  serving : bool;
  trace : list obs
}.

Definition positive_or (v d : Z) : Z := if (v <=? 0)%Z then d else v.

Definition NewDatagramListener (o : DatagramListenerOptions) : listener :=
  mkListener
    (mkOpts (positive_or (Idle o) DefaultDatagramIdle)
            (positive_or (MaxFlows o) DefaultMaxFlows)
            (positive_or (QueueSize o) defaultDatagramQueue))
    ∅ ∅ 0 0 true [].

Definition ActiveFlows (l : listener) : nat := size (flows l).

(** *** Updates of the objects *)

Definition with_queue (q : list packet) (f : datagramFlow) : datagramFlow :=
  mkFlow (client f) q (stop f) (activity f) (fromClient f) (toClient f) (at_phase f) (out f) (inp f) (readerDone f).
Definition with_phase (ph : phase) (f : datagramFlow) : datagramFlow :=
  mkFlow (client f) (queue f) (stop f) (activity f) (fromClient f) (toClient f) ph (out f) (inp f) (readerDone f).
Definition touch (t : Z) (f : datagramFlow) : datagramFlow :=
  mkFlow (client f) (queue f) (stop f) t (fromClient f) (toClient f) (at_phase f) (out f) (inp f) (readerDone f).
Definition with_stream (w : writer) (r : reader) (f : datagramFlow) : datagramFlow :=
  mkFlow (client f) (queue f) (stop f) (activity f) (fromClient f) (toClient f) (at_phase f) w r (readerDone f).
Definition add_from (n : Z) (f : datagramFlow) : datagramFlow :=
  mkFlow (client f) (queue f) (stop f) (activity f) (fromClient f + n) (toClient f) (at_phase f) (out f) (inp f) (readerDone f).
Definition add_to (n : Z) (f : datagramFlow) : datagramFlow :=
  mkFlow (client f) (queue f) (stop f) (activity f) (fromClient f) (toClient f + n) (at_phase f) (out f) (inp f) (readerDone f).
Definition close_flow (f : datagramFlow) : datagramFlow :=
  mkFlow (client f) (queue f) true (activity f) (fromClient f) (toClient f) (at_phase f) (out f) (inp f) (readerDone f).
Definition reader_exit (f : datagramFlow) : datagramFlow :=
  mkFlow (client f) (queue f) true (activity f) (fromClient f) (toClient f) (at_phase f) (out f) (inp f) true.

Definition set_flow (id : nat) (f : datagramFlow) (l : listener) : listener :=
  mkListener (opts l) (flows l) (<[id := f]> (heap l)) (next l) (now l) (serving l) (trace l).
Definition observe (o : obs) (l : listener) : listener :=
  mkListener (opts l) (flows l) (heap l) (next l) (now l) (serving l) (trace l ++ [o]).

(** *** Handlers *)

(** The table entry for the client, creating flow and goroutine when there
    is none; [None] is the flow limit. *)
Definition flow_for (key : string) (l : listener) : option (nat * listener) :=
  match flows l !! key with
  | Some id => Some (id, l)
  | None =>
      if (MaxFlows (opts l) <=? Z.of_nat (size (flows l)))%Z then None
      else
        let f := mkFlow key [] false (now l) 0 0 Opening (mkWriter [] None EOF) (mkReader [] EOF) false in
        Some (next l, mkListener (opts l) (<[key := next l]> (flows l)) (<[next l := f]> (heap l))
                        (S (next l)) (now l) (serving l) (trace l))
  end.

(** [enqueue]: the reason of a drop, "" when the packet is queued. *)
Definition enqueue (key : string) (p : packet) (l : listener) : string * listener :=
  match flow_for key l with
  | None => (DropFlowLimit, l)
  | Some (id, l) =>
      match heap l !! id with
      | None => ("", l)
      | Some f =>
          let f := touch (now l) f in
          if (len (queue f) <? QueueSize (opts l))%Z
          then ("", observe (Accepted id p) (set_flow id (with_queue (queue f ++ [p]) f) l))
          else (DropQueueFull, set_flow id f l)
      end
  end.

Definition deliver (key : string) (p : packet) (l : listener) : listener :=
  let '(reason, l) := enqueue key p l in
  if bool_decide (reason = "") then l else observe (Dropped reason) l.

(** [f.close()] on every flow of the table that satisfies [sel]. *)
Definition close_where (sel : datagramFlow -> bool) (l : listener) : listener :=
  mkListener (opts l) (flows l)
    (map_imap (fun id f =>
       Some (if bool_decide (flows l !! client f = Some id) && sel f then close_flow f else f)) (heap l))
    (next l) (now l) (serving l) (trace l).

Definition idle_flow (l : listener) (f : datagramFlow) : bool :=
  (Idle (opts l) <=? now l - activity f)%Z.

Definition reap (l : listener) : listener := close_where (idle_flow l) l.
Definition closeAll (l : listener) : listener := close_where (fun _ => true) l.

(** [finishFlow], up to the unlock. *)
Definition finishFlow (id : nat) (f : datagramFlow) (l : listener) : listener :=
  let f := with_phase Reporting (close_flow f) in
  let table := if bool_decide (flows l !! client f = Some id) then delete (client f) (flows l)
               else flows l in
  mkListener (opts l) table (<[id := f]> (heap l)) (next l) (now l) (serving l) (trace l).

(** One packet of the flow's queue goes to its stream. *)
Definition flow_send (id : nat) (f : datagramFlow) (l : listener) : option listener :=
  match queue f with
  | [] => None
  | p :: q =>
      match WriteDatagram p (out f) with
      | (Some _, w) => Some (set_flow id (with_phase Draining (with_stream w (inp f) (with_queue q f))) l)
      | (None, w) =>
          Some (observe (Delivered id p)
                  (set_flow id (add_from (len p) (with_stream w (inp f) (with_queue q f))) l))
      end
  end.

(** One turn of the flow's reader goroutine; [written] is whether [WriteTo]
    succeeds. *)
Definition reader_turn (id : nat) (written : bool) (f : datagramFlow) (l : listener) : listener :=
  match ReadDatagram MaxDatagramSize (inp f) with
  | (Fail _, r) => set_flow id (reader_exit (with_stream (out f) r f)) l
  | (Ok p, r) =>
      let f := touch (now l) (with_stream (out f) r f) in
      if written then observe (Returned id p) (set_flow id (add_to (len p) f) l)
      else set_flow id (reader_exit f) l
  end.

(** *** Events *)

(** The atomic actions of the goroutines: the serve loop (a packet, the end
    of the loop), the reaper, and [runFlow] with its reader for the flow [id]. *)
Inductive event :=
| Clock (t : Z)
| Packet (key : string) (p : packet)
| ServeEnd
| Reap
| OpenOk (id : nat) (room : option Z) (peer : list byte)
| OpenFail (id : nat)
| Send (id : nat)
| Stop (id : nat)
| ReaderTurn (id : nat) (written : bool)
| ReaderClosed (id : nat)
| Drained (id : nat)
| Finish (id : nat)
| Report (id : nat).

(** What the goroutines of a flow may do where they stand. *)
Definition flow_step (e : event) (id : nat) (f : datagramFlow) (l : listener) : option listener :=
  match e, at_phase f with
  | OpenOk _ room peer, Opening =>
      Some (observe (Opened id peer)
        (set_flow id (with_phase Serving (with_stream (mkWriter [] room EOF) (mkReader peer EOF) f)) l))
  | OpenFail _, Opening => Some (set_flow id (with_phase Finishing f) l)
  | Send _, Serving => flow_send id f l
  | Stop _, Serving => if stop f then Some (set_flow id (with_phase Draining f) l) else None
  | ReaderTurn _ written, (Serving | Draining) =>
      if readerDone f then None else Some (reader_turn id written f l)
  | ReaderClosed _, Draining =>
      if readerDone f then None else Some (set_flow id (reader_exit f) l)
  | Drained _, Draining =>
      if readerDone f then Some (set_flow id (with_phase Finishing f) l) else None
  | Finish _, Finishing => Some (finishFlow id f l)
  | Report _, Reporting =>
      Some (observe (FlowDone id (fromClient f) (toClient f)) (set_flow id (with_phase Gone f) l))
  | _, _ => None
  end.

Definition event_flow (e : event) : option nat :=
  match e with
  | OpenOk id _ _ | OpenFail id | Send id | Stop id | ReaderTurn id _ | ReaderClosed id
  | Drained id | Finish id | Report id => Some id
  | _ => None
  end.

Definition step (e : event) (l : listener) : option listener :=
  match event_flow e with
  | Some id => match heap l !! id with Some f => flow_step e id f l | None => None end
  | None =>
      match e with
      | Clock t => Some (mkListener (opts l) (flows l) (heap l) (next l) t (serving l) (trace l))
      | Packet key p => if serving l then Some (deliver key p l) else None
      | Reap => Some (reap l)
      | ServeEnd =>
          if serving l
          then let l := closeAll l in
               Some (mkListener (opts l) (flows l) (heap l) (next l) (now l) false (trace l))
          else None
      | _ => None
      end
  end.

Fixpoint run (es : list event) (l : listener) : option listener :=
  match es with
  | [] => Some l
  | e :: es' => match step e l with Some l' => run es' l' | None => None end
  end.

Inductive reachable (o : DatagramListenerOptions) : listener -> Prop :=
| reach_new : reachable o (NewDatagramListener o)
| reach_step e l l' : reachable o l -> step e l = Some l' -> reachable o l'.

(** *** What the trace says of a flow *)

Definition accepted (id : nat) (t : list obs) : list packet :=
  omap (fun o => match o with Accepted i p => if bool_decide (i = id) then Some p else None | _ => None end) t.
Definition delivered (id : nat) (t : list obs) : list packet :=
  omap (fun o => match o with Delivered i p => if bool_decide (i = id) then Some p else None | _ => None end) t.
Definition returned (id : nat) (t : list obs) : list packet :=
  omap (fun o => match o with Returned i p => if bool_decide (i = id) then Some p else None | _ => None end) t.
Definition opened (id : nat) (t : list obs) : list (list byte) :=
  omap (fun o => match o with Opened i d => if bool_decide (i = id) then Some d else None | _ => None end) t.

Definition obs_flow (o : obs) : option nat :=
  match o with
  | Accepted i _ | Opened i _ | Delivered i _ | Returned i _ | FlowDone i _ _ => Some i
  | Dropped _ => None
  end.

Definition bytes_total (ps : list packet) : Z := foldr Z.add 0%Z (map len ps).

Definition in_table (ph : phase) : bool :=
  match ph with Reporting | Gone => false | _ => true end.

(** The packets that left the queue for the stream: all the accepted ones
    but those still queued, up to one that was lost in a failed write. *)
Record flow_ok (o : DatagramListenerOptions) (t : list obs) (id : nat) (f : datagramFlow) : Prop := {
  ok_queue : (len (queue f) <= QueueSize o)%Z;
  ok_fifo : exists lost, accepted id t = delivered id t ++ lost ++ queue f /\ length lost <= 1 /\
              (at_phase f = Opening \/ at_phase f = Serving -> lost = []);
  ok_from : fromClient f = bytes_total (delivered id t);
  ok_to : toClient f = bytes_total (returned id t);
  ok_out : concat (map datagram_bytes (delivered id t)) `prefix_of` wr_out (out f);
  ok_out_serving : at_phase f = Serving -> wr_out (out f) = concat (map datagram_bytes (delivered id t));
  ok_opening : at_phase f = Opening ->
    opened id t = [] /\ delivered id t = [] /\ returned id t = [];
  ok_peer : returned id t = [] \/ exists peer rest, opened id t = [peer] /\
    peer = concat (map datagram_bytes (returned id t)) ++ rest;
  ok_inp : readerDone f = false -> at_phase f = Serving \/ at_phase f = Draining ->
    opened id t = [concat (map datagram_bytes (returned id t)) ++ rd_data (inp f)]
}.

Record inv (o : DatagramListenerOptions) (l : listener) : Prop := {
  inv_opts : opts l = o;
  inv_next : forall id, next l <= id -> heap l !! id = None;
  inv_trace : forall ob id, ob ∈ trace l -> obs_flow ob = Some id -> id < next l;
  inv_table : forall k id, flows l !! k = Some id <->
    exists f, heap l !! id = Some f /\ client f = k /\ in_table (at_phase f) = true;
  inv_size : (Z.of_nat (size (flows l)) <= MaxFlows o)%Z;
  inv_flow : forall id f, heap l !! id = Some f -> flow_ok o (trace l) id f;
  inv_done : forall id from to, FlowDone id from to ∈ trace l ->
    exists f, heap l !! id = Some f /\ at_phase f = Gone /\ from = fromClient f /\ to = toClient f
}.

(** *** The invariant *)

Lemma accepted_app id t u : accepted id (t ++ u) = accepted id t ++ accepted id u.
Proof. apply omap_app. Qed.
Lemma delivered_app id t u : delivered id (t ++ u) = delivered id t ++ delivered id u.
Proof. apply omap_app. Qed.
Lemma returned_app id t u : returned id (t ++ u) = returned id t ++ returned id u.
Proof. apply omap_app. Qed.
Lemma opened_app id t u : opened id (t ++ u) = opened id t ++ opened id u.
Proof. apply omap_app. Qed.

#[local] Hint Rewrite accepted_app delivered_app returned_app opened_app : mish.

Lemma bytes_total_snoc ps p : bytes_total (ps ++ [p]) = (bytes_total ps + len p)%Z.
Proof.
  unfold bytes_total. induction ps as [|x ps IH]; simpl; [lia|]. rewrite IH. lia.
Qed.

(** The projections of a trace without observations of the flow. *)
Lemma silent_trace id t :
  (forall ob, ob ∈ t -> obs_flow ob <> Some id) ->
  accepted id t = [] /\ delivered id t = [] /\ returned id t = [] /\ opened id t = [].
Proof.
  induction t as [|ob t IH]; intros H; [done|].
  destruct IH as (E1 & E2 & E3 & E4); [set_solver|].
  assert (Hob : obs_flow ob <> Some id) by (apply H; set_solver).
  change (ob :: t) with ([ob] ++ t). autorewrite with mish. rewrite E1, E2, E3, E4.
  destruct ob; simpl in *; rewrite ?bool_decide_false by congruence; done.
Qed.

Lemma flow_ok_other o t u id f :
  (forall ob, ob ∈ u -> obs_flow ob <> Some id) -> flow_ok o t id f -> flow_ok o (t ++ u) id f.
Proof.
  intros (E1 & E2 & E3 & E4)%silent_trace [].
  split; autorewrite with mish; rewrite ?E1, ?E2, ?E3, ?E4, ?app_nil_r; done.
Qed.

(** An action of one flow that keeps it in the table, or out of it. *)
Lemma inv_update o l id f f' u :
  inv o l -> heap l !! id = Some f -> client f' = client f ->
  in_table (at_phase f') = in_table (at_phase f) -> at_phase f <> Gone ->
  (forall ob, ob ∈ u -> obs_flow ob = Some id /\
     forall i a b, ob = FlowDone i a b -> at_phase f' = Gone /\ a = fromClient f' /\ b = toClient f') ->
  flow_ok o (trace l ++ u) id f' ->
  inv o (mkListener (opts l) (flows l) (<[id := f']> (heap l)) (next l) (now l) (serving l) (trace l ++ u)).
Proof.
  intros [Ho Hn Ht Htab Hs Hf Hd] Hid Hc Hin Hg Hu Hok. split; simpl; [done| | | |done| |].
  - intros i Hi. rewrite lookup_insert_ne; [by apply Hn|]. intros ->. rewrite Hn in Hid; done.
  - intros ob i [Hob|Hob]%elem_of_app Hi; [by eapply Ht|].
    apply Hu in Hob as [Hob _]. replace i with id by congruence.
    destruct (decide (next l <= id)) as [Hle|]; [|lia]. rewrite Hn in Hid; done.
  - intros k i. rewrite Htab. destruct (decide (i = id)) as [->|Hne].
    + rewrite lookup_insert_eq. split; intros (g & E & ? & ?); eexists; (split; [done|]);
        simplify_eq; split; congruence.
    + by rewrite lookup_insert_ne.
  - intros i g. destruct (decide (i = id)) as [->|Hne].
    + rewrite lookup_insert_eq. by intros [= <-].
    + rewrite lookup_insert_ne by done. intros Hg'. apply flow_ok_other; [|by apply Hf].
      intros ob Hob%Hu. destruct Hob as [Hob _]. congruence.
  - intros i a b [Hob|Hob]%elem_of_app.
    + destruct (Hd _ _ _ Hob) as (g & Eg & ? & ?). exists g.
      destruct (decide (i = id)) as [->|Hne]; [congruence|]. by rewrite lookup_insert_ne.
    + destruct (Hu _ Hob) as [Hi Hdone]. simpl in Hi. injection Hi as ->.
      exists f'. rewrite lookup_insert_eq. destruct (Hdone _ _ _ eq_refl) as (? & ? & ?). done.
Qed.

Lemma inv_set_flow o l id f f' :
  inv o l -> heap l !! id = Some f -> client f' = client f ->
  in_table (at_phase f') = in_table (at_phase f) -> at_phase f <> Gone ->
  flow_ok o (trace l) id f' -> inv o (set_flow id f' l).
Proof.
  intros Hi Hid Hc Hin Hg Hok. unfold set_flow.
  pose proof (inv_update o l id f f' [] Hi Hid Hc Hin Hg) as H. rewrite app_nil_r in H.
  apply H; [by intros ob ?%elem_of_nil|done].
Qed.

Lemma inv_set_observe o l id f f' ob :
  inv o l -> heap l !! id = Some f -> client f' = client f ->
  in_table (at_phase f') = in_table (at_phase f) -> at_phase f <> Gone ->
  obs_flow ob = Some id ->
  (forall i a b, ob = FlowDone i a b -> at_phase f' = Gone /\ a = fromClient f' /\ b = toClient f') ->
  flow_ok o (trace l ++ [ob]) id f' -> inv o (observe ob (set_flow id f' l)).
Proof.
  intros Hi Hid Hc Hin Hg Hob Hd Hok. apply (inv_update o l id f f' [ob]); try done.
  intros ob' ->%list_elem_of_singleton. done.
Qed.

(** [stop] and [activity] play no part in the invariant of a flow. *)
Lemma flow_ok_ext o t id f g :
  flow_ok o t id f -> queue g = queue f -> at_phase g = at_phase f ->
  fromClient g = fromClient f -> toClient g = toClient f -> out g = out f -> inp g = inp f ->
  (readerDone g = false -> readerDone f = false) -> flow_ok o t id g.
Proof.
  intros [] E1 E2 E3 E4 E5 E6 E7. split; rewrite ?E1, ?E2, ?E3, ?E4, ?E5, ?E6; auto.
Qed.

Lemma inv_new o : (0 <= MaxFlows (opts (NewDatagramListener o)))%Z ->
  inv (opts (NewDatagramListener o)) (NewDatagramListener o).
Proof.
  intros Hm. split; [done|done| | | | |]; simpl.
  - by intros ob id ?%elem_of_nil.
  - intros k id. rewrite lookup_empty. split; [done|]. intros (f & E & _).
    by rewrite lookup_empty in E.
  - rewrite map_size_empty. exact Hm.
  - intros id f. by rewrite lookup_empty.
  - by intros id a b ?%elem_of_nil.
Qed.

Lemma inv_table_fresh o l : inv o l -> forall k, flows l !! k <> Some (next l).
Proof.
  intros Hi k (f & E & _)%(inv_table _ _ Hi). rewrite (inv_next _ _ Hi) in E by lia. done.
Qed.

(** A new flow for a client without one. *)
Lemma inv_flow_for o l key id l' :
  inv o l -> (0 <= QueueSize o)%Z -> flow_for key l = Some (id, l') ->
  inv o l' /\ trace l' = trace l /\ flows l' !! key = Some id.
Proof.
  intros Hi Hq. unfold flow_for. destruct (flows l !! key) as [id0|] eqn:E; [by intros [= <- <-]|].
  case_match eqn:Hm; [done|]. intros [= <- <-]. bool_to_prop. simpl.
  split; [|split; [done|apply lookup_insert_eq]]. pose proof (inv_table_fresh _ _ Hi) as Hfresh.
  pose proof Hi as [Ho Hn Ht Htab Hs Hf Hd]. split; simpl; [done| | | | | |].
  - intros i Hi'. rewrite lookup_insert_ne by lia. apply Hn. lia.
  - intros ob i H1 H2. specialize (Ht ob i H1 H2). lia.
  - intros k i. destruct (decide (i = next l)) as [->|Hne].
    + rewrite lookup_insert_eq. split.
      * destruct (decide (k = key)) as [->|Hk]; [|rewrite lookup_insert_ne by done].
        -- intros _. by eexists.
        -- intros H. by apply Hfresh in H.
      * intros (f & [= <-] & <- & _). apply lookup_insert_eq.
    + rewrite (lookup_insert_ne (heap l)) by done. rewrite <- Htab.
      destruct (decide (k = key)) as [->|Hk]; [|by rewrite lookup_insert_ne].
      rewrite lookup_insert_eq. rewrite E. split; [congruence|done].
  - rewrite map_size_insert_None by done. subst o. lia.
  - intros i f. destruct (decide (i = next l)) as [->|Hne].
    + rewrite lookup_insert_eq. intros [= <-].
      destruct (silent_trace (next l) (trace l)) as (E1 & E2 & E3 & E4).
      { intros ob Hob Heq. specialize (Ht ob _ Hob Heq). lia. }
      split; simpl; rewrite ?E1, ?E2, ?E3, ?E4; auto; [|by intros _ [?|?]].
      exists []. simpl. auto.
    + rewrite lookup_insert_ne by done. apply Hf.
  - intros i a b Hob. destruct (Hd _ _ _ Hob) as (f & Ef & ?). exists f.
    rewrite lookup_insert_ne; [done|]. intros <-. rewrite Hn in Ef; [done|lia].
Qed.

Lemma inv_dropped o l reason : inv o l -> inv o (observe (Dropped reason) l).
Proof.
  intros [Ho Hn Ht Htab Hs Hf Hd]. split; simpl; try done.
  - intros ob id [Hob| ->%list_elem_of_singleton]%elem_of_app Hid; [by eapply Ht|done].
  - intros id f Hid. apply flow_ok_other; [|by apply Hf]. by intros ob ->%list_elem_of_singleton.
  - intros id a b [Hob|Hob%list_elem_of_singleton]%elem_of_app; [by apply Hd|done].
Qed.

(** A packet joins the queue of a flow. *)
Lemma flow_ok_push o t id f p :
  flow_ok o t id f -> (len (queue f) < QueueSize o)%Z ->
  flow_ok o (t ++ [Accepted id p]) id (with_queue (queue f ++ [p]) f).
Proof.
  intros [? (lost & El & Hl & Hlost)] Hq.
  assert (E : accepted id [Accepted id p] = [p]) by (simpl; by rewrite bool_decide_true).
  split; autorewrite with mish; rewrite ?E; simpl; rewrite ?app_nil_r; try done.
  - rewrite len_app. unfold len at 2. simpl. lia.
  - exists lost. rewrite El, <- !app_assoc. done.
Qed.

Lemma live_not_gone ph : in_table ph = true -> ph <> Gone.
Proof. by destruct ph. Qed.

Lemma inv_deliver o l key p :
  inv o l -> (0 <= QueueSize o)%Z -> inv o (deliver key p l).
Proof.
  intros Hi Hq. unfold deliver, enqueue.
  destruct (flow_for key l) as [[id l1]|] eqn:E; [|by apply inv_dropped].
  apply (inv_flow_for o) in E as (Hi1 & _ & Hk); [|done..].
  pose proof (proj1 (inv_table _ _ Hi1 _ _) Hk) as (f & Ef & Hc & Hin). rewrite Ef.
  pose proof (inv_opts _ _ Hi1) as Ho. pose proof (live_not_gone _ Hin) as Hg.
  assert (Hok : flow_ok o (trace l1) id (touch (now l1) f))
    by (eapply flow_ok_ext; [by apply (inv_flow _ _ Hi1)|done..]).
  destruct (_ <? _)%Z eqn:Hlt; bool_to_prop; simpl.
  - eapply inv_set_observe; try done. apply (flow_ok_push _ _ _ (touch (now l1) f)); [done|]. simpl in *. subst o. exact Hlt.
  - apply inv_dropped. by eapply inv_set_flow.
Qed.

Lemma inv_close_where o l sel : inv o l -> inv o (close_where sel l).
Proof.
  intros [Ho Hn Ht Htab Hs Hf Hd].
  set (g := fun id f => if bool_decide (flows l !! client f = Some id) && sel f then close_flow f else f).
  assert (Hl : forall id, heap (close_where sel l) !! id = g id <$> heap l !! id).
  { intros id. unfold close_where. simpl. rewrite map_lookup_imap. by destruct (heap l !! id). }
  assert (Hg : forall id f, client (g id f) = client f /\ at_phase (g id f) = at_phase f /\
    fromClient (g id f) = fromClient f /\ toClient (g id f) = toClient f /\
    (flow_ok o (trace l) id f -> flow_ok o (trace l) id (g id f))).
  { intros id f. unfold g. destruct (_ && _)%bool; [|done]. split_and!; [done..|].
    intros H. by eapply flow_ok_ext. }
  split; [done| |done| |done| |].
  - intros id Hid. rewrite Hl, Hn; done.
  - intros k id. change (flows (close_where sel l)) with (flows l). rewrite Htab, Hl.
    destruct (heap l !! id) as [f|]; simpl; [|naive_solver].
    destruct (Hg id f) as (E1 & E2 & _). split; intros (f' & [= <-] & ? & ?); eexists;
      (split; [done|]); split; congruence.
  - intros id f'. rewrite Hl. intros (f & Ef & ->)%fmap_Some. apply Hg, Hf, Ef.
  - intros id a b Hob. destruct (Hd _ _ _ Hob) as (f & Ef & ? & ? & ?). exists (g id f).
    rewrite Hl, Ef. destruct (Hg id f) as (E1 & E2 & E3 & E4 & _). split_and!; [done|congruence..].
Qed.

(** *** The actions of a flow *)

Lemma flow_ok_open o t id f room peer :
  flow_ok o t id f -> at_phase f = Opening ->
  flow_ok o (t ++ [Opened id peer]) id
    (with_phase Serving (with_stream (mkWriter [] room EOF) (mkReader peer EOF) f)).
Proof.
  intros [? (lost & El & Hl & Hlost)] Hph. destruct (ok_opening0 Hph) as (E1 & E2 & E3).
  assert (E : opened id [Opened id peer] = [peer]) by (simpl; by rewrite bool_decide_true).
  split; autorewrite with mish; rewrite ?E; simpl; rewrite ?E1, ?E2, ?E3, ?app_nil_r in *; auto.
  - exists lost. auto.
  - done.
Qed.

Lemma flow_ok_phase o t id f ph :
  flow_ok o t id f -> ph <> Opening -> ph <> Serving -> (ph = Draining -> at_phase f = Serving) ->
  flow_ok o t id (with_phase ph f).
Proof.
  intros [? (lost & El & Hl & Hlost)] H1 H2 H3. split; simpl; try done.
  - exists lost. split_and!; [done..|]. by intros [?|?].
  - intros Hr [?|?]; [done|]. auto.
Qed.

Lemma WriteDatagram_prefix p w e w' :
  WriteDatagram p w = (e, w') -> wr_out w `prefix_of` wr_out w'.
Proof.
  unfold WriteDatagram. case_match; [by intros [= <- <-]|]. intros Hw.
  apply Write_prefix in Hw as (q & -> & _). by exists q.
Qed.

Lemma flow_ok_send_fail o t id f p q e w :
  flow_ok o t id f -> at_phase f = Serving -> queue f = p :: q ->
  WriteDatagram p (out f) = (Some e, w) ->
  flow_ok o t id (with_phase Draining (with_stream w (inp f) (with_queue q f))).
Proof.
  intros [Hq (lost & El & Hl & Hlost)] Hph Eq Hw. rewrite Eq in *. rewrite len_cons in Hq.
  split; simpl; try done.
  - pose proof (len_nonneg q). lia.
  - exists [p]. rewrite El, Hlost by auto. simpl. split_and!; [done..|by intros [?|?]].
  - etrans; [done|]. by eapply WriteDatagram_prefix.
  - intros Hr _. auto.
Qed.

Lemma flow_ok_send o t id f p q w :
  flow_ok o t id f -> at_phase f = Serving -> queue f = p :: q ->
  WriteDatagram p (out f) = (None, w) ->
  flow_ok o (t ++ [Delivered id p]) id (add_from (len p) (with_stream w (inp f) (with_queue q f))).
Proof.
  intros [Hq (lost & El & Hl & Hlost)] Hph Eq [_ Hw]%WriteDatagram_None. rewrite Eq in *.
  rewrite len_cons in Hq.
  assert (E : delivered id [Delivered id p] = [p]) by (simpl; by rewrite bool_decide_true).
  split; autorewrite with mish; rewrite ?E; simpl; rewrite ?app_nil_r; try done.
  - pose proof (len_nonneg q). lia.
  - exists []. rewrite El, Hlost by auto. simpl. rewrite <- app_assoc. split_and!; [done|lia|done].
  - rewrite bytes_total_snoc. lia.
  - rewrite Hw, ok_out_serving0 by done. rewrite map_app, concat_app. simpl. by rewrite app_nil_r.
  - intros _. rewrite Hw, ok_out_serving0 by done. rewrite map_app, concat_app. simpl. by rewrite app_nil_r.
  - intros ?. congruence.
Qed.

Lemma flow_ok_reader_exit o t id f r :
  flow_ok o t id f -> flow_ok o t id (reader_exit (with_stream (out f) r f)).
Proof. intros []. split; done. Qed.

Lemma flow_ok_return o t id f p r d :
  flow_ok o t id f -> at_phase f = Serving \/ at_phase f = Draining -> readerDone f = false ->
  ReadDatagram MaxDatagramSize (inp f) = (Ok p, r) ->
  flow_ok o (t ++ [Returned id p]) id (add_to (len p) (touch d (with_stream (out f) r f))).
Proof.
  intros [] Hph Hr (_ & Hd & _)%ReadDatagram_sound.
  assert (E : returned id [Returned id p] = [p]) by (simpl; by rewrite bool_decide_true).
  assert (Ep : opened id t = [concat (map datagram_bytes (returned id t ++ [p])) ++ rd_data r]).
  { rewrite ok_inp0 by done. rewrite Hd, map_app, concat_app, <- !app_assoc. cbn [map concat]. by rewrite app_nil_r. }
  split; autorewrite with mish; rewrite ?E; simpl; rewrite ?app_nil_r; try done.
  - rewrite bytes_total_snoc. lia.
  - intros Ho. destruct Hph; congruence.
  - right. eexists _, _. split; [exact Ep|done].
Qed.

Lemma inv_reader o l id f written :
  inv o l -> heap l !! id = Some f -> at_phase f = Serving \/ at_phase f = Draining ->
  readerDone f = false -> inv o (reader_turn id written f l).
Proof.
  intros Hi Hid Hph Hr. pose proof (inv_flow _ _ Hi _ _ Hid) as Hok.
  assert (Hg : at_phase f <> Gone) by (destruct Hph; congruence).
  unfold reader_turn. destruct (ReadDatagram MaxDatagramSize (inp f)) as [[p|err] r] eqn:E.
  - destruct written.
    + eapply inv_set_observe; try done. by eapply flow_ok_return.
    + eapply inv_set_flow; try done.
      apply (flow_ok_ext _ _ _ (reader_exit (with_stream (out f) r f)));
        [by apply flow_ok_reader_exit|done..].
  - eapply inv_set_flow; try done. by apply flow_ok_reader_exit.
Qed.

(** An observation that is none of the four lists. *)
Lemma flow_ok_silent o t id f a b : flow_ok o t id f -> flow_ok o (t ++ [FlowDone id a b]) id f.
Proof. intros []. split; autorewrite with mish; simpl; rewrite ?app_nil_r; done. Qed.

(** The flow leaves the table; its entry is always its own. *)
Lemma inv_finish o l id f :
  inv o l -> heap l !! id = Some f -> at_phase f = Finishing -> inv o (finishFlow id f l).
Proof.
  intros Hi Hid Hph. pose proof Hi as [Ho Hn Ht Htab Hs Hf Hd]. unfold finishFlow. simpl.
  assert (Hk : flows l !! client f = Some id) by (apply Htab; exists f; by rewrite Hph).
  rewrite bool_decide_true by done. split; simpl; [done| |done| | | |].
  - intros i Hi'. rewrite lookup_insert_ne; [by apply Hn|]. intros ->. by rewrite Hn in Hid.
  - intros k i. destruct (decide (i = id)) as [->|Hne].
    + rewrite lookup_insert_eq. split; [|by intros (g & [= <-] & _ & ?)].
      intros [Hk1 Hk2]%lookup_delete_Some. apply Htab in Hk2 as (g & ? & ? & _). congruence.
    + rewrite (lookup_insert_ne (heap l)) by done. rewrite lookup_delete_Some, Htab.
      split; [by intros [_ ?]|]. intros Hg. split; [|done]. intros <-.
      apply Htab in Hg. congruence.
  - rewrite map_size_delete_Some by done. subst o. lia.
  - intros i g. destruct (decide (i = id)) as [->|Hne].
    + rewrite lookup_insert_eq. intros [= <-].
      apply (flow_ok_phase _ _ _ (close_flow f)); try done. eapply flow_ok_ext; [by apply Hf|done..].
    + rewrite lookup_insert_ne by done. apply Hf.
  - intros i a b Hob. destruct (Hd _ _ _ Hob) as (g & Eg & Hg & ?). exists g.
    rewrite lookup_insert_ne; [done|]. intros <-. congruence.
Qed.

Lemma inv_flow_step o l e id f l' :
  inv o l -> heap l !! id = Some f -> flow_step e id f l = Some l' -> inv o l'.
Proof.
  intros Hi Hid. pose proof (inv_flow _ _ Hi _ _ Hid) as Hok. unfold flow_step.
  destruct e; try done; destruct (at_phase f) eqn:Hph; try done; intros Hs;
    repeat (case_match; try done); simplify_eq.
  - eapply inv_set_observe; try done; [by rewrite Hph|congruence|]. by apply flow_ok_open.
  - eapply inv_set_flow; try done; [by rewrite Hph|congruence|]. by apply flow_ok_phase.
  - unfold flow_send in Hs. destruct (queue f) as [|p q] eqn:Eq; [done|].
    destruct (WriteDatagram p (out f)) as [[err|] w] eqn:Ew; simplify_eq.
    + eapply inv_set_flow; try done; [by rewrite Hph|congruence|]. by eapply flow_ok_send_fail.
    + eapply inv_set_observe; try done; [congruence|]. by eapply flow_ok_send.
  - eapply inv_set_flow; try done; [by rewrite Hph|congruence|]. by apply flow_ok_phase.
  - eapply inv_reader; eauto.
  - eapply inv_reader; eauto.
  - eapply inv_set_flow; try done; [congruence|]. destruct f; by eapply flow_ok_reader_exit in Hok.
  - eapply inv_set_flow; try done; [by rewrite Hph|congruence|]. by apply flow_ok_phase.
  - by apply inv_finish.
  - eapply inv_set_observe; try done; [by rewrite Hph|congruence|naive_solver|].
    apply flow_ok_silent. by apply flow_ok_phase.
Qed.

Lemma inv_step o l e l' :
  inv o l -> (0 <= QueueSize o)%Z -> step e l = Some l' -> inv o l'.
Proof.
  intros Hi Hq. unfold step. destruct (event_flow e) as [id|] eqn:Ee.
  - destruct (heap l !! id) as [f|] eqn:Hid; [|done]. by apply inv_flow_step.
  - destruct e; try done; simpl; intros Hs; repeat (case_match; try done); simplify_eq.
    + destruct Hi. by split.
    + by apply inv_deliver.
    + destruct (inv_close_where _ _ (fun _ => true) Hi). by split.
    + by apply inv_close_where.
Qed.

Lemma positive_or_pos v d : (0 < d)%Z -> (0 < positive_or v d)%Z.
Proof. unfold positive_or. intros. case_match; bool_to_prop; lia. Qed.

Lemma reachable_inv o l : reachable o l -> inv (opts (NewDatagramListener o)) l.
Proof.
  induction 1 as [|e l l' _ IH Hs].
  - apply inv_new. apply Z.lt_le_incl, positive_or_pos. done.
  - eapply inv_step; [done| |done]. apply Z.lt_le_incl, positive_or_pos. done.
Qed.

(** C30: However packets, ticks and flow goroutines interleave, the table never holds more
    than [MaxFlows] flows and no flow queues more than [QueueSize] packets, where a limit
    that is not positive stands for its default. *)
Theorem listener_bounded o l :
  reachable o l ->
  opts l = opts (NewDatagramListener o) /\
  (Z.of_nat (ActiveFlows l) <= positive_or (MaxFlows o) DefaultMaxFlows)%Z /\
  forall id f, heap l !! id = Some f ->
    (len (queue f) <= positive_or (QueueSize o) defaultDatagramQueue)%Z.
Proof.
  intros H%reachable_inv. split; [apply H|]. split; [apply H|].
  intros id f Hid. by apply (ok_queue _ _ _ _ (inv_flow _ _ H _ _ Hid)).
Qed.

(** A client has at most one flow in service: a flow is in the table under its client's
    address from its creation until its own [finishFlow], and nothing else is. *)
Theorem one_flow_per_client o l k id :
  reachable o l ->
  flows l !! k = Some id <->
  exists f, heap l !! id = Some f /\ client f = k /\ at_phase f <> Reporting /\ at_phase f <> Gone.
Proof.
  intros H%reachable_inv. rewrite (inv_table _ _ H).
  split; intros (f & ? & ? & Hp); exists f; (split; [done|]); (split; [done|]).
  - by destruct (at_phase f).
  - destruct (at_phase f); naive_solver.
Qed.

(** C29: A flow forwards its client's packets in order and whole: the packets written to the
    stream are the accepted ones in order, without the queued ones and at most one that a
    failed write lost; while it serves, the stream holds exactly their frames. *)
Theorem flow_forwards_in_order o l id f :
  reachable o l -> heap l !! id = Some f ->
  (exists lost, accepted id (trace l) = delivered id (trace l) ++ lost ++ queue f /\
     length lost <= 1 /\ (at_phase f = Serving -> lost = [])) /\
  concat (map datagram_bytes (delivered id (trace l))) `prefix_of` wr_out (out f) /\
  (at_phase f = Serving ->
     wr_out (out f) = concat (map datagram_bytes (delivered id (trace l)))).
Proof.
  intros H%reachable_inv Hid. destruct (inv_flow _ _ H _ _ Hid) as [? (lost & ? & ? & Hl)].
  split; [|done]. exists lost. auto.
Qed.

(** The packets a flow sends back to its client are a prefix of the datagrams the peer
    put on the flow's stream. *)
Theorem flow_returns_peer_datagrams o l id f :
  reachable o l -> heap l !! id = Some f -> returned id (trace l) <> [] ->
  exists peer rest, opened id (trace l) = [peer] /\
    peer = concat (map datagram_bytes (returned id (trace l))) ++ rest.
Proof.
  intros H%reachable_inv Hid Hr. by destruct (ok_peer _ _ _ _ (inv_flow _ _ H _ _ Hid)).
Qed.

(** The byte counts reported to [OnFlowDone] are the sizes of everything the flow wrote
    to its stream and sent to its client. *)
Theorem flow_done_counts o l id from to :
  reachable o l -> FlowDone id from to ∈ trace l ->
  from = bytes_total (delivered id (trace l)) /\ to = bytes_total (returned id (trace l)).
Proof.
  intros H%reachable_inv (f & Hid & _ & -> & ->)%(inv_done _ _ H).
  pose proof (inv_flow _ _ H _ _ Hid) as []. done.
Qed.

(** *** Reclaiming flows *)

Lemma run_finish l id f :
  heap l !! id = Some f -> at_phase f = Finishing ->
  exists l', run [Finish id] l = Some l' /\ flows l' !! client f <> Some id.
Proof.
  intros Hid Hph. exists (finishFlow id f l). cbn [run]. unfold step. cbn [event_flow].
  rewrite Hid. unfold flow_step. rewrite Hph. split; [done|]. unfold finishFlow. simpl.
  case_bool_decide; [|done]. by rewrite lookup_delete_eq.
Qed.

Lemma run_step e l f id g es P :
  event_flow e = Some id -> heap l !! id = Some f -> flow_step e id f l = Some (set_flow id g l) ->
  (exists l', run es (set_flow id g l) = Some l' /\ P l') ->
  exists l', run (e :: es) l = Some l' /\ P l'.
Proof.
  intros He Hid Hs (l' & Hr & HP). exists l'. split; [|done]. cbn [run]. unfold step.
  by rewrite He, Hid, Hs.
Qed.

Lemma run_drain l id f :
  heap l !! id = Some f -> at_phase f = Draining ->
  exists es l', run es l = Some l' /\ Forall (fun e => event_flow e = Some id) es /\
    flows l' !! client f <> Some id.
Proof.
  intros Hid Hph.
  assert (Hd : forall l f, heap l !! id = Some f -> at_phase f = Draining -> readerDone f = true ->
    exists l', run [Drained id; Finish id] l = Some l' /\ flows l' !! client f <> Some id).
  { clear. intros l f Hid Hph Hr. apply (run_step _ _ f id (with_phase Finishing f)); [done..| |].
    - unfold flow_step. by rewrite Hph, Hr.
    - by apply (run_finish (set_flow id (with_phase Finishing f) l) id (with_phase Finishing f));
        [apply lookup_insert_eq|]. }
  destruct (readerDone f) eqn:Hr.
  - destruct (Hd l f Hid Hph Hr) as (l' & ? & ?). exists [Drained id; Finish id], l'.
    split; [done|]. split; [by repeat constructor|done].
  - destruct (run_step (ReaderClosed id) l f id (reader_exit f) [Drained id; Finish id]
      (fun l' => flows l' !! client f <> Some id)) as (l' & Hl' & ?); [done..| | |].
    + unfold flow_step. by rewrite Hph, Hr.
    + by apply (Hd (set_flow id (reader_exit f) l) (reader_exit f)); [apply lookup_insert_eq|..].
    + exists [ReaderClosed id; Drained id; Finish id], l'.
      split; [done|]. split; [by repeat constructor|done].
Qed.

(** A flow that has been idle for [Idle] and is past [Open] can always be reclaimed: once
    the reaper has run, the flow's own goroutines take it out of the table without any
    packet, peer or client acting. *)
Theorem idle_flow_reclaimed l k id f :
  flows l !! k = Some id -> heap l !! id = Some f -> client f = k ->
  at_phase f = Serving \/ at_phase f = Draining ->
  (Idle (opts l) <= now l - activity f)%Z ->
  exists es l', run (Reap :: es) l = Some l' /\
    Forall (fun e => event_flow e = Some id) es /\ flows l' !! k <> Some id.
Proof.
  intros Hk Hid Hc Hph Hidle.
  assert (Hid' : heap (reap l) !! id = Some (close_flow f)).
  { unfold reap, close_where. simpl. rewrite map_lookup_imap, Hid. simpl.
    rewrite bool_decide_true by congruence. unfold idle_flow.
    by rewrite (proj2 (Z.leb_le _ _)). }
  assert (Hrun : forall es, run (Reap :: es) l = run es (reap l)) by done.
  destruct Hph as [Hph|Hph].
  - set (l1 := set_flow id (with_phase Draining (close_flow f)) (reap l)).
    destruct (run_drain l1 id (with_phase Draining (close_flow f))) as (es & l' & Hr & Hall & Hn);
      [apply lookup_insert_eq|done|].
    exists (Stop id :: es), l'. rewrite Hrun. split; [|split; [by constructor|by rewrite <- Hc]].
    cbn [run]. unfold step. cbn [event_flow]. rewrite Hid'. unfold flow_step. simpl.
    by rewrite Hph.
  - destruct (run_drain (reap l) id (close_flow f)) as (es & l' & Hr & Hall & Hn); [done..|].
    exists es, l'. rewrite Hrun. by rewrite <- Hc.
Qed.

(** *** A run *)

(** Two packets of one client, the second one still queued; the peer's answer
    was sent back. *)
Definition sample_events : list event :=
  [Packet "10.0.0.9:53" (bytes_of "q1"); OpenOk 0 None (datagram_bytes (bytes_of "a1"));
   Packet "10.0.0.9:53" (bytes_of "q2"); Send 0; ReaderTurn 0 true; Clock 90].

Definition sample_opts : DatagramListenerOptions := mkOpts 60 1 2.

Definition sample : listener :=
  match run sample_events (NewDatagramListener sample_opts) with
  | Some l => l
  | None => NewDatagramListener sample_opts
  end.

Definition done_events : list event :=
  [Reap; Stop 0; ReaderTurn 0 true; Drained 0; Finish 0; Report 0].

Definition sample_done : listener :=
  match run done_events sample with Some l => l | None => sample end.

Lemma run_reachable o es l l' : reachable o l -> run es l = Some l' -> reachable o l'.
Proof.
  revert l. induction es as [|e es IH]; intros l Hl; simpl; [by intros [= <-]|].
  destruct (step e l) as [l1|] eqn:E; [|done]. apply IH. by eapply reach_step.
Qed.

Lemma sample_reachable : reachable sample_opts sample.
Proof.
  unfold sample. destruct (run _ _) as [l|] eqn:E; [|vm_compute in E; discriminate E].
  eapply run_reachable; [apply reach_new|exact E].
Qed.

Lemma sample_done_reachable : reachable sample_opts sample_done.
Proof.
  unfold sample_done. destruct (run _ _) as [l|] eqn:E; [|apply sample_reachable].
  eapply run_reachable; [apply sample_reachable|exact E].
Qed.

Lemma listener_bounded_witness : (Z.of_nat (ActiveFlows sample) <= 1)%Z.
Proof. exact (proj1 (proj2 (listener_bounded sample_opts sample sample_reachable))). Defined.

Lemma one_flow_per_client_witness : exists f, heap sample !! 0 = Some f /\ client f = "10.0.0.9:53".
Proof.
  destruct (proj1 (one_flow_per_client sample_opts sample "10.0.0.9:53" 0 sample_reachable))
    as (f & H1 & H2 & _); [vm_compute; reflexivity|]. exact (ex_intro _ f (conj H1 H2)).
Defined.

Lemma flow_forwards_in_order_witness :
  exists lost, [bytes_of "q1"; bytes_of "q2"] = [bytes_of "q1"] ++ lost ++ [bytes_of "q2"].
Proof.
  destruct (heap sample !! 0) as [f|] eqn:E; [|vm_compute in E; discriminate E].
  destruct (flow_forwards_in_order sample_opts sample 0 f sample_reachable E) as [(lost & H & _) _].
  vm_compute in E. injection E as <-. exists lost. exact H.
Defined.

Lemma flow_returns_peer_datagrams_witness :
  exists rest, datagram_bytes (bytes_of "a1") = concat (map datagram_bytes [bytes_of "a1"]) ++ rest.
Proof.
  destruct (heap sample !! 0) as [f|] eqn:E; [|vm_compute in E; discriminate E].
  destruct (flow_returns_peer_datagrams sample_opts sample 0 f sample_reachable E)
    as (peer & rest & Ho & Hp); [vm_compute; discriminate|].
  exists rest. vm_compute in Ho. injection Ho as <-. exact Hp.
Defined.

Lemma flow_done_counts_witness :
  2%Z = bytes_total (delivered 0 (trace sample_done)) /\
  2%Z = bytes_total (returned 0 (trace sample_done)).
Proof.
  apply (flow_done_counts sample_opts sample_done 0 2 2 sample_done_reachable).
  apply list_elem_of_In. vm_compute. tauto.
Defined.

Lemma idle_flow_reclaimed_witness :
  exists es l', run (Reap :: es) sample = Some l' /\ flows l' !! "10.0.0.9:53" <> Some 0.
Proof.
  destruct (heap sample !! 0) as [f|] eqn:E; [|vm_compute in E; discriminate E].
  destruct (idle_flow_reclaimed sample "10.0.0.9:53" 0 f) as (es & l' & H1 & _ & H2).
  - vm_compute. reflexivity.
  - exact E.
  - vm_compute in E. injection E as <-. reflexivity.
  - vm_compute in E. injection E as <-. left. reflexivity.
  - vm_compute in E. injection E as <-. vm_compute. discriminate.
  - exact (ex_intro _ es (ex_intro _ l' (conj H1 H2))).
Defined.
End Listener.

(** ** RelayDatagrams *)
Module Relay.
Import Listener.

(** What [socket.Read] gives: a packet, a refused connection (an ICMP answer,
    skipped) or another error. *)
Inductive sockRead := SockPacket (p : packet) | SockRefused | SockError.

(** The two pumps and the idle loop. [socketOut] is what was written to the
    socket and [relayed] the socket packets whose frames were written to the
    stream; both only grow. *)
Record relay := mkRelay {
  idle : Z;
  clock : Z;
  last : Z;
  closed : bool;
  streamIn : reader;
  streamOut : writer;
  socketOut : list packet;
  relayed : list packet;
  sent : Z;
  received : Z;
  upDone : bool;
  downDone : bool;
  result : option (Z * Z)
}.

Definition relay_start (i t : Z) (peer : list byte) (room : option Z) : relay :=
  mkRelay (if (i <=? 0)%Z then DefaultDatagramIdle else i) t t false
    (mkReader peer EOF) (mkWriter [] room EOF) [] [] 0 0 false false None.

(** A pump that returns runs its deferred [closeBoth]. *)
Definition up_exit (r : relay) (inp : reader) : relay :=
  mkRelay (idle r) (clock r) (last r) true inp (streamOut r) (socketOut r) (relayed r)
    (sent r) (received r) true (downDone r) (result r).
Definition down_exit (r : relay) (w : writer) : relay :=
  mkRelay (idle r) (clock r) (last r) true (streamIn r) w (socketOut r) (relayed r)
    (sent r) (received r) (upDone r) true (result r).

Inductive relay_event :=
| RClock (t : Z)
| Up (written : bool)
| UpClosed
| Down (got : sockRead)
| DownClosed
| IdleTick
| Return.

(** One turn of the pump from the stream to the socket. *)
Definition up_turn (written : bool) (r : relay) : relay :=
  match ReadDatagram MaxDatagramSize (streamIn r) with
  | (Fail _, inp) => up_exit r inp
  | (Ok p, inp) =>
      let r := mkRelay (idle r) (clock r) (clock r) (closed r) inp (streamOut r) (socketOut r)
                 (relayed r) (sent r) (received r) (upDone r) (downDone r) (result r) in
      if written
      then mkRelay (idle r) (clock r) (last r) (closed r) inp (streamOut r) (socketOut r ++ [p])
             (relayed r) (sent r + len p) (received r) (upDone r) (downDone r) (result r)
      else up_exit r inp
  end.

(** One turn of the pump from the socket to the stream; a read fills at most
    the pooled buffer. *)
Definition down_turn (got : sockRead) (r : relay) : relay :=
  match got with
  | SockRefused => r
  | SockError => down_exit r (streamOut r)
  | SockPacket p =>
      let p := take (Z.to_nat MaxDatagramSize) p in
      let r := mkRelay (idle r) (clock r) (clock r) (closed r) (streamIn r) (streamOut r) (socketOut r)
                 (relayed r) (sent r) (received r) (upDone r) (downDone r) (result r) in
      match WriteDatagram p (streamOut r) with
      | (Some _, w) => down_exit r w
      | (None, w) =>
          mkRelay (idle r) (clock r) (last r) (closed r) (streamIn r) w (socketOut r)
            (relayed r ++ [p]) (sent r) (received r + len p) (upDone r) (downDone r) (result r)
      end
  end.

Definition relay_step (e : relay_event) (r : relay) : option relay :=
  match e with
  | RClock t =>
      Some (mkRelay (idle r) t (last r) (closed r) (streamIn r) (streamOut r) (socketOut r)
              (relayed r) (sent r) (received r) (upDone r) (downDone r) (result r))
  | Up written => if upDone r then None else Some (up_turn written r)
  | UpClosed => if upDone r || negb (closed r) then None else Some (up_exit r (streamIn r))
  | Down got => if downDone r then None else Some (down_turn got r)
  | DownClosed => if downDone r || negb (closed r) then None else Some (down_exit r (streamOut r))
  | IdleTick =>
      match result r with
      | Some _ => None
      | None =>
          Some (mkRelay (idle r) (clock r) (last r) (closed r || (idle r <=? clock r - last r)%Z)
                  (streamIn r) (streamOut r) (socketOut r) (relayed r) (sent r) (received r)
                  (upDone r) (downDone r) (result r))
      end
  | Return =>
      if upDone r && downDone r
      then Some (mkRelay (idle r) (clock r) (last r) (closed r) (streamIn r) (streamOut r) (socketOut r)
                   (relayed r) (sent r) (received r) true true (Some (sent r, received r)))
      else None
  end.

Fixpoint relay_run (es : list relay_event) (r : relay) : option relay :=
  match es with
  | [] => Some r
  | e :: es' => match relay_step e r with Some r' => relay_run es' r' | None => None end
  end.

(** The invariant of a relay whose peer sends [peer] on the stream. *)
Record relay_inv (peer : list byte) (r : relay) : Prop := {
  ri_sent : sent r = bytes_total (socketOut r);
  ri_received : received r = bytes_total (relayed r);
  ri_in : exists rest, peer = concat (map datagram_bytes (socketOut r)) ++ rest /\
    (upDone r = false -> rest = rd_data (streamIn r));
  ri_out : concat (map datagram_bytes (relayed r)) `prefix_of` wr_out (streamOut r);
  ri_out_live : downDone r = false ->
    wr_out (streamOut r) = concat (map datagram_bytes (relayed r));
  ri_result : forall a b, result r = Some (a, b) ->
    a = sent r /\ b = received r /\ upDone r = true /\ downDone r = true
}.

Lemma relay_inv_start i t peer room : relay_inv peer (relay_start i t peer room).
Proof. split; simpl; try done. by exists peer. Qed.

Lemma concat_snoc ps (p : packet) :
  concat (map datagram_bytes (ps ++ [p])) = concat (map datagram_bytes ps) ++ datagram_bytes p.
Proof. rewrite map_app, concat_app. cbn [map concat]. by rewrite app_nil_r. Qed.

Lemma relay_inv_up peer written r :
  relay_inv peer r -> upDone r = false -> relay_inv peer (up_turn written r).
Proof.
  intros [H1 H2 (rest & H3 & H4) H5 H6 H7] Hu. unfold up_turn.
  destruct (ReadDatagram MaxDatagramSize (streamIn r)) as [[p|err] inp] eqn:E.
  - apply ReadDatagram_sound in E as (_ & Hd & _).
    destruct written; split; simpl; try done; rewrite ?Hu.
    + rewrite bytes_total_snoc. lia.
    + exists (rd_data inp). split; [|done]. by rewrite concat_snoc, <- app_assoc, <- Hd, <- H4.
    + intros a b Hr. destruct (H7 _ _ Hr) as (_ & _ & ? & _). congruence.
    + by exists rest.
    + intros a b Hr. destruct (H7 _ _ Hr) as (_ & _ & ? & _). congruence.
  - split; simpl; try done; [by exists rest|]. intros a b Hr. naive_solver.
Qed.

Lemma relay_inv_down_exit peer r w :
  relay_inv peer r -> wr_out (streamOut r) `prefix_of` wr_out w -> relay_inv peer (down_exit r w).
Proof.
  intros [H1 H2 H3 H5 H6 H7] Hw. split; simpl; try done; [by etrans|naive_solver].
Qed.

Lemma relay_inv_down peer got r :
  relay_inv peer r -> downDone r = false -> relay_inv peer (down_turn got r).
Proof.
  intros Hi Hd. pose proof Hi as [H1 H2 H3 H5 H6 H7]. destruct got as [p| |]; cbn [down_turn]; [|done|].
  - destruct (WriteDatagram _ _) as [[err|] w] eqn:E.
    + apply WriteDatagram_prefix in E. by apply relay_inv_down_exit.
    + apply WriteDatagram_None in E as [_ Hw]. cbn [streamOut] in Hw.
      split; simpl; try done; rewrite ?Hd.
      * rewrite bytes_total_snoc. lia.
      * rewrite Hw, concat_snoc, H6 by done. done.
      * intros _. by rewrite Hw, concat_snoc, H6.
      * intros a b Hr. destruct (H7 _ _ Hr) as (_ & _ & _ & ?). congruence.
  - by apply relay_inv_down_exit.
Qed.

Lemma relay_inv_step peer e r r' :
  relay_inv peer r -> relay_step e r = Some r' -> relay_inv peer r'.
Proof.
  intros Hi Hs. pose proof Hi as [H1 H2 H3 H5 H6 H7].
  destruct e; cbn [relay_step] in Hs.
  - simplify_eq. by split.
  - destruct (upDone r) eqn:Hu; [done|]. simplify_eq. by apply relay_inv_up.
  - destruct (_ || _)%bool; [done|]. simplify_eq. split; simpl; try done; [|naive_solver].
    destruct H3 as (rest & ? & _). by exists rest.
  - destruct (downDone r) eqn:Hu; [done|]. simplify_eq. by apply relay_inv_down.
  - destruct (_ || _)%bool; [done|]. simplify_eq. by apply relay_inv_down_exit.
  - destruct (result r) eqn:Hr; [done|]. simplify_eq. by split.
  - destruct (upDone r && downDone r)%bool eqn:Hb; [|done]. simplify_eq.
    apply andb_true_iff in Hb as [Hb1 Hb2].
    split; simpl; try done; [|naive_solver]. destruct H3 as (rest & ? & _). by exists rest.
Qed.

Lemma relay_inv_run peer es r r' :
  relay_inv peer r -> relay_run es r = Some r' -> relay_inv peer r'.
Proof.
  revert r. induction es as [|e es IH]; intros r Hi; simpl; [by intros [= <-]|].
  destruct (relay_step e r) as [r1|] eqn:E; [|done]. apply IH. by eapply relay_inv_step.
Qed.

(** Whatever the pumps and the idle loop do, a relay that returns has returned the byte
    counts of exactly what it moved: the socket got a prefix of the stream's datagrams, and
    the stream got the frames of the socket's packets, in order. *)
Theorem relay_counts_exact i t peer room es r a b :
  relay_run es (relay_start i t peer room) = Some r -> result r = Some (a, b) ->
  a = bytes_total (socketOut r) /\ b = bytes_total (relayed r) /\
  (exists rest, peer = concat (map datagram_bytes (socketOut r)) ++ rest) /\
  concat (map datagram_bytes (relayed r)) `prefix_of` wr_out (streamOut r).
Proof.
  intros Hr Hres. apply (relay_inv_run peer) in Hr as [H1 H2 (rest & H3 & _) H5 _ H7];
    [|apply relay_inv_start].
  destruct (H7 _ _ Hres) as (-> & -> & _). split_and!; [done..| |done]. by exists rest.
Qed.

Lemma relay_counts_exact_witness :
  exists r, relay_run [Down (SockPacket (bytes_of "abc")); Up true; Up true; DownClosed; Return]
      (relay_start 0 0 (datagram_bytes (bytes_of "xy")) None) = Some r /\
    2%Z = bytes_total (socketOut r) /\ 3%Z = bytes_total (relayed r).
Proof.
  destruct (relay_run [Down (SockPacket (bytes_of "abc")); Up true; Up true; DownClosed; Return]
    (relay_start 0 0 (datagram_bytes (bytes_of "xy")) None)) as [r|] eqn:E;
    [|vm_compute in E; discriminate E].
  exists r. destruct (relay_counts_exact _ _ _ _ _ r 2 3 E) as (H1 & H2 & _).
  - vm_compute in E. injection E as <-. reflexivity.
  - exact (conj eq_refl (conj H1 H2)).
Defined.

(** A relay with no activity for its idle time returns without its peers acting: one
    tick closes both ends, both pumps then leave their loops, and the call returns. *)
Theorem relay_idle_returns r :
  result r = None -> (idle r <= clock r - last r)%Z ->
  exists es r', relay_run (IdleTick :: es ++ [Return]) r = Some r' /\
    Forall (fun e => e = UpClosed \/ e = DownClosed) es /\ result r' = Some (sent r, received r).
Proof.
  intros Hres Hidle. apply Z.leb_le in Hidle.
  destruct r as [i c la cl si so sk re se rc [] [] res]; simpl in *; subst res.
  - exists []. simpl. rewrite Hidle. eexists. split; [done|]. by split; [constructor|].
  - exists [DownClosed]. simpl. rewrite Hidle, orb_true_r. simpl.
    eexists. split; [done|]. split; [by repeat constructor; right|done].
  - exists [UpClosed]. simpl. rewrite Hidle, orb_true_r. simpl.
    eexists. split; [done|]. split; [by repeat constructor; left|done].
  - exists [UpClosed; DownClosed]. simpl. rewrite Hidle, orb_true_r. simpl.
    eexists. split; [done|]. split; [|done]. constructor; [by left|]. constructor; [by right|done].
Qed.

Lemma relay_idle_returns_witness :
  exists es r', relay_run (IdleTick :: es ++ [Return])
    (match relay_run [RClock (60 * second)] (relay_start 0 0 [] None) with
     | Some r => r | None => relay_start 0 0 [] None end) = Some r' /\ result r' = Some (0%Z, 0%Z).
Proof.
  destruct (relay_idle_returns
    (match relay_run [RClock (60 * second)] (relay_start 0 0 [] None) with
     | Some r => r | None => relay_start 0 0 [] None end)) as (es & r' & H1 & _ & H2).
  - reflexivity.
  - vm_compute. discriminate.
  - exact (ex_intro _ es (ex_intro _ r' (conj H1 H2))).
Defined.
End Relay.
