(* ===== verification/Sessions.v ===== *)
(** * The in-memory session store

    internal/store/memory/sessions.go implements [store.SessionStore]: token
    sessions with two indexes, single-use values, and a prune of what has
    expired every 256 writes. [Spec] is the contract of the interface without
    indexes and without pruning; the store is proved to refine it. *)
From S2P Require Import Prelude GoIO GoStrings.

(** ** Data: internal/store/sessions.go *)
Module Sessions.
Definition ErrNotFound : goerr := ENew "store: not found".

(** Times are nanoseconds since the zero [time.Time]. *)
Record TokenSession := mkSession {
  ID : string;
  OrgID : string;
  SubjectType : string;
  SubjectID : string;
  TokenID : string;
  AuthMethod : string;
  AuthTime : Z;
  CreatedAt : Z;
  ExpiresAt : Z;
  EndpointID : string;
  AgentID : string;
  PrevTokenID : string;
  RotatedAt : Z
}.

Definition zeroSession : TokenSession := mkSession "" "" "" "" "" "" 0 0 0 "" "" "" 0.

Definition NUL : string := String "000"%char "".

Definition SubjectKey (orgID subjectType subjectID : string) : string :=
  orgID +:+ NUL +:+ subjectType +:+ NUL +:+ subjectID.

Definition EndpointKey (orgID endpointID : string) : string := orgID +:+ NUL +:+ endpointID.

(** The keys the store indexes a session under. *)
Definition subjectOf (ts : TokenSession) : string :=
  SubjectKey (OrgID ts) (SubjectType ts) (SubjectID ts).
Definition endpointOf (ts : TokenSession) : string := EndpointKey (OrgID ts) (EndpointID ts).

Record onceValue := mkOnce { value : list byte; expiresAt : Z }.

Abbreviation index := (gmap string (gset string)).

Record SessionStore := mkStore {
  sessions : gmap string TokenSession;
  bySubject : index;
  byEndpoint : index;
  once : gmap string onceValue;
  writes : Z
}.

Definition newSessionStore : SessionStore := mkStore ∅ ∅ ∅ ∅ 0.

(** ** Operations *)

Definition sessionPruneEvery : Z := 256.

(** [index[key]], nil read as the empty set. *)
Definition idx (m : index) (key : string) : gset string := default ∅ (m !! key).

Definition addToIndex (m : index) (key id : string) : index := <[key := {[id]} ∪ idx m key]> m.

Definition removeFromIndex (m : index) (key id : string) : index :=
  match m !! key with
  | None => m
  | Some set =>
      let set := set ∖ {[id]} in
      if bool_decide (set = ∅) then delete key m else <[key := set]> m
  end.

Definition deleteLocked (id : string) (s : SessionStore) : SessionStore :=
  match sessions s !! id with
  | None => s
  | Some ts =>
      mkStore (delete id (sessions s))
        (removeFromIndex (bySubject s) (subjectOf ts) id)
        (if bool_decide (EndpointID ts = "") then byEndpoint s
         else removeFromIndex (byEndpoint s) (endpointOf ts) id)
        (once s) (writes s)
  end.

Definition deleteAll (ids : list string) (s : SessionStore) : SessionStore := foldr deleteLocked s ids.

(** The ids whose session has expired. *)
Definition expired (now : Z) (s : SessionStore) : list string :=
  omap (fun '(id, ts) => if (now <? ExpiresAt ts)%Z then None else Some id) (map_to_list (sessions s)).

Definition pruneLocked (now : Z) (s : SessionStore) : SessionStore :=
  let s := mkStore (sessions s) (bySubject s) (byEndpoint s) (once s) (writes s + 1) in
  if negb (writes s mod sessionPruneEvery =? 0)%Z then s
  else
    let s := deleteAll (expired now s) s in
    mkStore (sessions s) (bySubject s) (byEndpoint s)
      (filter (fun kv => (now < expiresAt kv.2)%Z) (once s)) (writes s).

Definition PutTokenSession (now : Z) (ts : TokenSession) (s : SessionStore) : SessionStore :=
  let s := pruneLocked now s in
  mkStore (<[ID ts := ts]> (sessions s))
    (addToIndex (bySubject s) (subjectOf ts) (ID ts))
    (if bool_decide (EndpointID ts = "") then byEndpoint s
     else addToIndex (byEndpoint s) (endpointOf ts) (ID ts))
    (once s) (writes s).

Definition RotateTokenSession (now : Z) (ts : TokenSession) (prevTokenID : string) (s : SessionStore)
    : option goerr * SessionStore :=
  match sessions s !! ID ts with
  | None => (Some ErrNotFound, s)
  | Some current =>
      if negb (bool_decide (TokenID current = prevTokenID)) || negb (now <? ExpiresAt current)%Z
      then (Some ErrNotFound, s)
      else (None, mkStore (<[ID ts := ts]> (sessions s)) (bySubject s) (byEndpoint s) (once s) (writes s))
  end.

Definition GetTokenSession (now : Z) (id : string) (s : SessionStore)
    : res TokenSession * SessionStore :=
  match sessions s !! id with
  | None => (Fail ErrNotFound, s)
  | Some ts =>
      if negb (now <? ExpiresAt ts)%Z then (Fail ErrNotFound, deleteLocked id s) else (Ok ts, s)
  end.

Definition DeleteTokenSession (id : string) (s : SessionStore) : SessionStore := deleteLocked id s.

Definition DeleteSubjectSessions (orgID subjectType subjectID : string) (s : SessionStore)
    : list string * SessionStore :=
  let ids := elements (idx (bySubject s) (SubjectKey orgID subjectType subjectID)) in
  (ids, deleteAll ids s).

(** By creation time, then id. *)
Definition session_leb (a b : TokenSession) : bool :=
  if (CreatedAt a =? CreatedAt b)%Z then str_leb (ID a) (ID b) else (CreatedAt a <? CreatedAt b)%Z.

Definition endpointSessionsLocked (now : Z) (orgID endpointID : string) (s : SessionStore)
    : list TokenSession :=
  let ids := elements (idx (byEndpoint s) (EndpointKey orgID endpointID)) in
  sort_by session_leb
    (omap (fun id =>
       let ts := default zeroSession (sessions s !! id) in
       if (now <? ExpiresAt ts)%Z then Some ts else None) ids).

Definition ListEndpointSessions := endpointSessionsLocked.

Definition DeleteEndpointSessions (now : Z) (orgID endpointID : string) (s : SessionStore)
    : list TokenSession * SessionStore :=
  (endpointSessionsLocked now orgID endpointID s,
   deleteAll (elements (idx (byEndpoint s) (EndpointKey orgID endpointID))) s).

Definition set_once (m : gmap string onceValue) (s : SessionStore) : SessionStore :=
  mkStore (sessions s) (bySubject s) (byEndpoint s) m (writes s).

(** [s.once[key]] when it has not expired. *)
Definition live_once (now : Z) (key : string) (s : SessionStore) : option onceValue :=
  match once s !! key with
  | Some v => if (now <? expiresAt v)%Z then Some v else None
  | None => None
  end.

Definition ClaimOnce (now : Z) (key : string) (ttl : Z) (s : SessionStore) : bool * SessionStore :=
  match live_once now key s with
  | Some _ => (false, s)
  | None =>
      let s := pruneLocked now s in
      (true, set_once (<[key := mkOnce [] (now + ttl)]> (once s)) s)
  end.

Definition PutOnce (now : Z) (key : string) (v : list byte) (ttl : Z) (s : SessionStore) : SessionStore :=
  let s := pruneLocked now s in
  set_once (<[key := mkOnce v (now + ttl)]> (once s)) s.

Definition TakeOnce (now : Z) (key : string) (s : SessionStore) : res (list byte) * SessionStore :=
  let s' := set_once (delete key (once s)) s in
  match live_once now key s with
  | None => (Fail ErrNotFound, s')
  | Some v => (Ok (value v), s')
  end.

(** A copy of an empty slice is nil, so an empty value counts as absent. *)
Definition PeekOnce (now : Z) (key : string) (s : SessionStore) : res (list byte) :=
  match live_once now key s with
  | None => Fail ErrNotFound
  | Some v => if bool_decide (value v = []) then Fail ErrNotFound else Ok (value v)
  end.

(** ** The interface as one operation type *)

Inductive op :=
| OpPut (ts : TokenSession)
| OpRotate (ts : TokenSession) (prevTokenID : string)
| OpGet (id : string)
| OpDelete (id : string)
| OpDeleteSubject (orgID subjectType subjectID : string)
| OpListEndpoint (orgID endpointID : string)
| OpDeleteEndpoint (orgID endpointID : string)
| OpClaim (key : string) (ttl : Z)
| OpPutOnce (key : string) (v : list byte) (ttl : Z)
| OpTake (key : string)
| OpPeek (key : string).

Inductive result :=
| RDone
| RErr (e : option goerr)
| RSession (r : res TokenSession)
| RIds (ids : list string)
| RSessions (l : list TokenSession)
| RClaimed (b : bool)
| RValue (r : res (list byte)).

Definition exec (now : Z) (o : op) (s : SessionStore) : result * SessionStore :=
  match o with
  | OpPut ts => (RDone, PutTokenSession now ts s)
  | OpRotate ts prev => let '(e, s) := RotateTokenSession now ts prev s in (RErr e, s)
  | OpGet id => let '(r, s) := GetTokenSession now id s in (RSession r, s)
  | OpDelete id => (RDone, DeleteTokenSession id s)
  | OpDeleteSubject a b c => let '(ids, s) := DeleteSubjectSessions a b c s in (RIds ids, s)
  | OpListEndpoint a b => (RSessions (ListEndpointSessions now a b s), s)
  | OpDeleteEndpoint a b => let '(l, s) := DeleteEndpointSessions now a b s in (RSessions l, s)
  | OpClaim key ttl => let '(b, s) := ClaimOnce now key ttl s in (RClaimed b, s)
  | OpPutOnce key v ttl => (RDone, PutOnce now key v ttl s)
  | OpTake key => let '(r, s) := TakeOnce now key s in (RValue r, s)
  | OpPeek key => (RValue (PeekOnce now key s), s)
  end.

(** Timed operations, one after the other: every operation holds the mutex. *)
Fixpoint exec_all (l : list (Z * op)) (s : SessionStore) : list result * SessionStore :=
  match l with
  | [] => ([], s)
  | (now, o) :: l' =>
      let '(r, s) := exec now o s in
      let '(rs, s) := exec_all l' s in
      (r :: rs, s)
  end.

(** ** The contract

    Two maps from which nothing is ever pruned; an entry that has expired is
    not seen. *)
Definition seen {V} (exp : V -> Z) (now : Z) (m : gmap string V) (id : string) : option V :=
  match m !! id with
  | Some v => if (now <? exp v)%Z then Some v else None
  | None => None
  end.

Record Spec := mkSpec { sp_sessions : gmap string TokenSession; sp_once : gmap string onceValue }.

Definition sp_see (now : Z) (a : Spec) (id : string) : option TokenSession :=
  seen ExpiresAt now (sp_sessions a) id.
Definition sp_see_once (now : Z) (a : Spec) (key : string) : option onceValue :=
  seen expiresAt now (sp_once a) key.

Definition has_endpoint (key : string) (ts : TokenSession) : bool :=
  negb (bool_decide (EndpointID ts = "")) && bool_decide (endpointOf ts = key).

(** The state after an operation. *)
Definition spec_next (now : Z) (o : op) (a : Spec) : Spec :=
  match o with
  | OpPut ts => mkSpec (<[ID ts := ts]> (sp_sessions a)) (sp_once a)
  | OpRotate ts prev =>
      match sp_see now a (ID ts) with
      | Some current =>
          if bool_decide (TokenID current = prev)
          then mkSpec (<[ID ts := ts]> (sp_sessions a)) (sp_once a) else a
      | None => a
      end
  | OpDelete id => mkSpec (delete id (sp_sessions a)) (sp_once a)
  | OpDeleteSubject x y z =>
      mkSpec (filter (fun kv => subjectOf kv.2 <> SubjectKey x y z) (sp_sessions a)) (sp_once a)
  | OpDeleteEndpoint x y =>
      mkSpec (filter (fun kv => has_endpoint (EndpointKey x y) kv.2 = false) (sp_sessions a)) (sp_once a)
  | OpClaim key ttl =>
      match sp_see_once now a key with
      | Some _ => a
      | None => mkSpec (sp_sessions a) (<[key := mkOnce [] (now + ttl)]> (sp_once a))
      end
  | OpPutOnce key v ttl => mkSpec (sp_sessions a) (<[key := mkOnce v (now + ttl)]> (sp_once a))
  | OpTake key => mkSpec (sp_sessions a) (delete key (sp_once a))
  | OpGet _ | OpListEndpoint _ _ | OpPeek _ => a
  end.

(** The live sessions of an endpoint, oldest first, each one once. *)
Definition lists_endpoint (now : Z) (key : string) (a : Spec) (l : list TokenSession) : Prop :=
  NoDup l /\ StronglySorted (leb_rel session_leb) l /\
  forall ts, ts ∈ l <-> has_endpoint key ts = true /\ sp_see now a (ID ts) = Some ts.

(** The answers the contract allows. Deleting the sessions of a subject names
    every live one and no live session of another subject. *)
Definition spec_allows (now : Z) (o : op) (a : Spec) (r : result) : Prop :=
  match o, r with
  | (OpPut _ | OpDelete _ | OpPutOnce _ _ _), RDone => True
  | OpRotate ts prev, RErr e =>
      e = match sp_see now a (ID ts) with
          | Some current => if bool_decide (TokenID current = prev) then None else Some ErrNotFound
          | None => Some ErrNotFound
          end
  | OpGet id, RSession x =>
      x = match sp_see now a id with Some ts => Ok ts | None => Fail ErrNotFound end
  | OpDeleteSubject x y z, RIds ids =>
      NoDup ids /\ forall id ts, sp_see now a id = Some ts ->
        (id ∈ ids <-> subjectOf ts = SubjectKey x y z)
  | (OpListEndpoint x y | OpDeleteEndpoint x y), RSessions l => lists_endpoint now (EndpointKey x y) a l
  | OpClaim key _, RClaimed b => b = bool_decide (sp_see_once now a key = None)
  | OpTake key, RValue x =>
      x = match sp_see_once now a key with Some v => Ok (value v) | None => Fail ErrNotFound end
  | OpPeek key, RValue x =>
      x = match sp_see_once now a key with
          | Some v => if bool_decide (value v = []) then Fail ErrNotFound else Ok (value v)
          | None => Fail ErrNotFound
          end
  | _, _ => False
  end.

Fixpoint spec_run (l : list (Z * op)) (a : Spec) (rs : list result) : Prop :=
  match l, rs with
  | [], [] => True
  | (now, o) :: l', r :: rs' => spec_allows now o a r /\ spec_run l' (spec_next now o a) rs'
  | _, _ => False
  end.

(** ** Invariant of the indexes *)

Record index_ok (s : SessionStore) : Prop := {
  ok_id : forall id ts, sessions s !! id = Some ts -> ID ts = id;
  ok_subject : forall k id, id ∈ idx (bySubject s) k <->
    exists ts, sessions s !! id = Some ts /\ subjectOf ts = k;
  ok_endpoint : forall k id, id ∈ idx (byEndpoint s) k <->
    exists ts, sessions s !! id = Some ts /\ has_endpoint k ts = true
}.

Lemma idx_add m k id k' x : x ∈ idx (addToIndex m k id) k' <-> x ∈ idx m k' \/ (k' = k /\ x = id).
Proof.
  unfold addToIndex, idx at 1. destruct (decide (k' = k)) as [->|Hne].
  - rewrite lookup_insert_eq. simpl. set_solver.
  - rewrite lookup_insert_ne by done. naive_solver.
Qed.

Lemma idx_remove m k id k' x :
  x ∈ idx (removeFromIndex m k id) k' <-> x ∈ idx m k' /\ ~ (k' = k /\ x = id).
Proof.
  unfold removeFromIndex, idx. destruct (m !! k) as [set|] eqn:E.
  - case_bool_decide as Hb; destruct (decide (k' = k)) as [->|Hne].
    + rewrite lookup_delete_eq, E. simpl. set_solver.
    + rewrite lookup_delete_ne by done. naive_solver.
    + rewrite lookup_insert_eq, E. simpl. set_solver.
    + rewrite lookup_insert_ne by done. naive_solver.
  - destruct (decide (k' = k)) as [->|Hne]; [|naive_solver]. rewrite E. simpl. set_solver.
Qed.

Lemma index_ok_new : index_ok newSessionStore.
Proof.
  split; simpl.
  - intros id ts. by rewrite lookup_empty.
  - intros k id. unfold idx. rewrite lookup_empty. simpl. split; [set_solver|].
    intros (ts & E & _). by rewrite lookup_empty in E.
  - intros k id. unfold idx. rewrite lookup_empty. simpl. split; [set_solver|].
    intros (ts & E & _). by rewrite lookup_empty in E.
Qed.

Lemma has_endpoint_spec k ts : has_endpoint k ts = true <-> EndpointID ts <> "" /\ endpointOf ts = k.
Proof.
  unfold has_endpoint. rewrite andb_true_iff, negb_true_iff, bool_decide_eq_false, bool_decide_eq_true.
  done.
Qed.

Lemma index_ok_delete id s : index_ok s -> index_ok (deleteLocked id s).
Proof.
  intros [H1 H2 H3]. unfold deleteLocked. destruct (sessions s !! id) as [ts|] eqn:E; [|by split].
  split; simpl.
  - intros x t [_ Hx]%lookup_delete_Some. by apply H1.
  - intros k x. rewrite idx_remove, H2. setoid_rewrite lookup_delete_Some. naive_solver.
  - intros k x. setoid_rewrite lookup_delete_Some. case_bool_decide as Hb.
    + rewrite H3. split; [|naive_solver]. intros (t & Et & Ht). exists t. split; [split|]; try done.
      intros <-. apply has_endpoint_spec in Ht as [? _]. congruence.
    + rewrite idx_remove, H3. split.
      * intros [(t & Et & Ht) Hn]. exists t. split; [split|]; try done. intros <-. apply Hn.
        apply has_endpoint_spec in Ht as [_ <-]. split; congruence.
      * intros (t & [Hne Et] & Ht). split; [by exists t|]. naive_solver.
Qed.

Lemma index_ok_deleteAll ids s : index_ok s -> index_ok (deleteAll ids s).
Proof. intros H. induction ids as [|id ids IH]; simpl; [done|by apply index_ok_delete]. Qed.

Lemma sessions_deleteLocked id s : sessions (deleteLocked id s) = delete id (sessions s).
Proof.
  unfold deleteLocked. destruct (sessions s !! id) eqn:E; [done|]. by rewrite delete_id.
Qed.

Lemma once_deleteLocked id s : once (deleteLocked id s) = once s.
Proof. unfold deleteLocked. by destruct (sessions s !! id). Qed.

Lemma sessions_deleteAll ids s x :
  sessions (deleteAll ids s) !! x = if bool_decide (x ∈ ids) then None else sessions s !! x.
Proof.
  induction ids as [|id ids IH]; simpl.
  - done.
  - rewrite sessions_deleteLocked. destruct (decide (x = id)) as [->|Hne].
    + rewrite lookup_delete_eq, bool_decide_true; [done|]. by left.
    + rewrite lookup_delete_ne, IH by done. rewrite (bool_decide_ext (x ∈ id :: ids) (x ∈ ids)) by set_solver. done.
Qed.

Lemma once_deleteAll ids s : once (deleteAll ids s) = once s.
Proof. induction ids as [|id ids IH]; simpl; [done|]. by rewrite once_deleteLocked. Qed.

(** ** What is seen *)

Lemma seen_insert {V} (exp : V -> Z) now m i x j :
  seen exp now (<[i := x]> m) j =
  if bool_decide (i = j) then (if (now <? exp x)%Z then Some x else None) else seen exp now m j.
Proof.
  unfold seen. case_bool_decide as E; [subst; by rewrite lookup_insert_eq|by rewrite lookup_insert_ne].
Qed.

Lemma seen_delete {V} (exp : V -> Z) now m i j :
  seen exp now (delete i m) j = if bool_decide (i = j) then None else seen exp now m j.
Proof.
  unfold seen. case_bool_decide as E; [subst; by rewrite lookup_delete_eq|by rewrite lookup_delete_ne].
Qed.

Lemma seen_later {V} (exp : V -> Z) t t' (m m' : gmap string V) :
  (t <= t')%Z -> (forall i, seen exp t m i = seen exp t m' i) ->
  forall i, seen exp t' m i = seen exp t' m' i.
Proof.
  intros Ht H i.
  assert (Hx : forall m : gmap string V, seen exp t' m i =
    match seen exp t m i with Some v => if (t' <? exp v)%Z then Some v else None | None => None end).
  { intros n. unfold seen. destruct (n !! i) as [v|]; [|done].
    destruct (Z.ltb_spec t (exp v)); [done|]. by rewrite (proj2 (Z.ltb_ge _ _)) by lia. }
  by rewrite !Hx, H.
Qed.

Definition see (now : Z) (s : SessionStore) : string -> option TokenSession :=
  seen ExpiresAt now (sessions s).

Lemma see_Some now s id ts :
  see now s id = Some ts <-> sessions s !! id = Some ts /\ (now < ExpiresAt ts)%Z.
Proof.
  unfold see, seen. destruct (sessions s !! id) as [t|]; [|naive_solver].
  destruct (Z.ltb_spec now (ExpiresAt t)); split; [intros [= ->]|intros [[= ->] ?]|done|]; auto.
  intros [[= ->] ?]. lia.
Qed.

Lemma see_deleteAll now ids s id :
  see now (deleteAll ids s) id = if bool_decide (id ∈ ids) then None else see now s id.
Proof. unfold see, seen. rewrite sessions_deleteAll. by case_bool_decide. Qed.

Lemma elem_of_expired now s id :
  id ∈ expired now s <-> exists ts, sessions s !! id = Some ts /\ (ExpiresAt ts <= now)%Z.
Proof.
  unfold expired. rewrite list_elem_of_omap. split.
  - intros ([i ts] & Hi%elem_of_map_to_list & Hc). destruct (Z.ltb_spec now (ExpiresAt ts)); [done|].
    injection Hc as ->. by exists ts.
  - intros (ts & Hi & He). exists (id, ts). rewrite elem_of_map_to_list. split; [done|].
    by rewrite (proj2 (Z.ltb_ge _ _)).
Qed.

(** Pruning removes only what is not seen. *)
Lemma prune_transparent now s :
  index_ok s ->
  index_ok (pruneLocked now s) /\
  (forall id, see now (pruneLocked now s) id = see now s id) /\
  (forall key, live_once now key (pruneLocked now s) = live_once now key s).
Proof.
  intros Hs. unfold pruneLocked. set (s1 := mkStore _ _ _ _ _).
  assert (H1 : index_ok s1) by (destruct Hs; by split).
  destruct (negb _); [done|]. pose proof (index_ok_deleteAll (expired now s1) s1 H1) as H2.
  split; [destruct H2; by split|]. split.
  - intros id. change (see now (deleteAll (expired now s1) s1) id = see now s1 id).
    rewrite see_deleteAll. case_bool_decide as He; [|done].
    apply elem_of_expired in He as (ts & Hts & Hexp).
    destruct (see now s1 id) as [t|] eqn:E; [|done].
    apply see_Some in E as [Et ?]. rewrite Hts in Et. simplify_eq. lia.
  - intros key. unfold live_once. cbn [once]. rewrite once_deleteAll.
    change (once s1) with (once s). destruct (once s !! key) as [v|] eqn:E.
    + destruct (Z.ltb_spec now (expiresAt v)) as [Hl|Hl].
      * rewrite (proj2 (map_lookup_filter_Some _ _ _ _)) by done. by rewrite (proj2 (Z.ltb_lt _ _)).
      * rewrite (proj2 (map_lookup_filter_None _ _ _)); [done|]. right. intros v' Ev. simplify_eq/=. lia.
    + rewrite (proj2 (map_lookup_filter_None _ _ _)); [done|]. by left.
Qed.

Lemma index_ok_insert ts s sub ep w o :
  index_ok s ->
  (forall old, sessions s !! ID ts = Some old ->
     subjectOf old = subjectOf ts /\ forall k, has_endpoint k old = has_endpoint k ts) ->
  (forall k x, x ∈ idx sub k <-> x ∈ idx (bySubject s) k \/ (k = subjectOf ts /\ x = ID ts)) ->
  (forall k x, x ∈ idx ep k <-> x ∈ idx (byEndpoint s) k \/ (has_endpoint k ts = true /\ x = ID ts)) ->
  index_ok (mkStore (<[ID ts := ts]> (sessions s)) sub ep o w).
Proof.
  intros [H1 H2 H3] Hold Hsub Hep. split; simpl.
  - intros id t. destruct (decide (ID ts = id)) as [<-|Hne].
    + rewrite lookup_insert_eq. congruence.
    + rewrite lookup_insert_ne by done. apply H1.
  - intros k x. rewrite Hsub, H2. destruct (decide (ID ts = x)) as [<-|Hne].
    + rewrite lookup_insert_eq. split; [|naive_solver].
      intros [(old & Eo & <-)|[-> _]]; exists ts; [|done].
      destruct (Hold _ Eo) as [<- _]. done.
    + rewrite lookup_insert_ne by done. naive_solver.
  - intros k x. rewrite Hep, H3. destruct (decide (ID ts = x)) as [<-|Hne].
    + rewrite lookup_insert_eq. split; [|naive_solver].
      intros [(old & Eo & Ho)|[? _]]; exists ts; [|done].
      destruct (Hold _ Eo) as [_ <-]. done.
    + rewrite lookup_insert_ne by done. naive_solver.
Qed.

(** ** Simulation *)

(** The organization, subject and endpoint a session belongs to. *)
Definition identity (ts : TokenSession) : string * string * string * string :=
  (OrgID ts, SubjectType ts, SubjectID ts, EndpointID ts).

Lemma identity_keys a b :
  identity a = identity b -> subjectOf a = subjectOf b /\ forall k, has_endpoint k a = has_endpoint k b.
Proof.
  unfold identity, subjectOf, has_endpoint, endpointOf. intros [= E1 E2 E3 E4].
  rewrite E1, E2, E3, E4. done.
Qed.

Section Simulation.
(** A session id stands for one subject and endpoint: the callers draw fresh
    ids, and rotate a session by changing its token only. *)
Context (ident : string -> string * string * string * string).

Definition op_respects (o : op) : Prop :=
  match o with
  | OpPut ts | OpRotate ts _ => identity ts = ident (ID ts)
  | _ => True
  end.

Record sim (now : Z) (s : SessionStore) (a : Spec) : Prop := {
  sim_index : index_ok s;
  sim_ident : forall id ts, sessions s !! id = Some ts -> identity ts = ident id;
  sim_see : forall id, see now s id = sp_see now a id;
  sim_once : forall key, live_once now key s = sp_see_once now a key
}.

Lemma sim_later t t' s a : sim t s a -> (t <= t')%Z -> sim t' s a.
Proof.
  intros [H1 H2 H3 H4] Ht. split; [done..| |].
  - by apply (seen_later ExpiresAt t).
  - by apply (seen_later expiresAt t).
Qed.

Lemma prune_sessions_sub now s id ts :
  sessions (pruneLocked now s) !! id = Some ts -> sessions s !! id = Some ts.
Proof.
  unfold pruneLocked. destruct (negb _); [done|]. cbn [sessions]. rewrite sessions_deleteAll.
  by case_bool_decide.
Qed.

Lemma sim_prune now s a : sim now s a -> sim now (pruneLocked now s) a.
Proof.
  intros [H1 H2 H3 H4]. destruct (prune_transparent now s H1) as (P1 & P2 & P3). split; [done| | |].
  - intros id ts Hid. apply H2. by eapply prune_sessions_sub.
  - intros id. by rewrite P2.
  - intros key. by rewrite P3.
Qed.

Lemma sim_deleteAll now s a ids a' :
  sim now s a -> sp_once a' = sp_once a ->
  (forall id, sp_see now a' id = if bool_decide (id ∈ ids) then None else sp_see now a id) ->
  sim now (deleteAll ids s) a'.
Proof.
  intros [H1 H2 H3 H4] Ho Ha. split.
  - by apply index_ok_deleteAll.
  - intros id ts. rewrite sessions_deleteAll. case_bool_decide; [done|]. apply H2.
  - intros id. by rewrite see_deleteAll, Ha, H3.
  - intros key. unfold live_once, sp_see_once. rewrite once_deleteAll, Ho. apply H4.
Qed.

Lemma sim_insert now s a ts sub ep :
  sim now s a -> identity ts = ident (ID ts) ->
  (forall k x, x ∈ idx sub k <-> x ∈ idx (bySubject s) k \/ (k = subjectOf ts /\ x = ID ts)) ->
  (forall k x, x ∈ idx ep k <-> x ∈ idx (byEndpoint s) k \/ (has_endpoint k ts = true /\ x = ID ts)) ->
  sim now (mkStore (<[ID ts := ts]> (sessions s)) sub ep (once s) (writes s))
    (mkSpec (<[ID ts := ts]> (sp_sessions a)) (sp_once a)).
Proof.
  intros [H1 H2 H3 H4] Hi Hsub Hep. split.
  - apply index_ok_insert; [done| |done..]. intros old Hold. apply identity_keys.
    rewrite Hi. by apply H2.
  - simpl. intros id t. destruct (decide (ID ts = id)) as [<-|Hne].
    + rewrite lookup_insert_eq. by intros [= <-].
    + rewrite lookup_insert_ne by done. apply H2.
  - intros id. unfold see, sp_see. cbn [sessions sp_sessions]. rewrite !seen_insert.
    case_bool_decide; [done|]. apply H3.
  - exact H4.
Qed.

Lemma sim_set_once now s a m m' :
  sim now s a -> (forall key, seen expiresAt now m key = seen expiresAt now m' key) ->
  sim now (set_once m s) (mkSpec (sp_sessions a) m').
Proof. intros [H1 H2 H3 H4] Hm. split; [by destruct H1|done..]. Qed.

Lemma sim_once_insert now s a key v :
  sim now s a ->
  sim now (set_once (<[key := v]> (once s)) s) (mkSpec (sp_sessions a) (<[key := v]> (sp_once a))).
Proof.
  intros H. apply sim_set_once; [done|]. intros k. rewrite !seen_insert.
  case_bool_decide; [done|]. apply (sim_once _ _ _ H).
Qed.

Lemma sim_put now s a ts :
  sim now s a -> identity ts = ident (ID ts) ->
  sim now (PutTokenSession now ts s) (mkSpec (<[ID ts := ts]> (sp_sessions a)) (sp_once a)).
Proof.
  intros H%sim_prune Hi. unfold PutTokenSession. apply sim_insert; [done..| |].
  - intros k x. apply idx_add.
  - intros k x. rewrite has_endpoint_spec. case_bool_decide as Hb; [naive_solver|].
    rewrite idx_add. naive_solver.
Qed.

(** An insertion under an id that is already there leaves the indexes alone. *)
Lemma sim_rotate now s a ts old :
  sim now s a -> identity ts = ident (ID ts) -> sessions s !! ID ts = Some old ->
  sim now (mkStore (<[ID ts := ts]> (sessions s)) (bySubject s) (byEndpoint s) (once s) (writes s))
    (mkSpec (<[ID ts := ts]> (sp_sessions a)) (sp_once a)).
Proof.
  intros H Hi Hold. assert (Hid : identity old = identity ts)
    by (rewrite Hi; by apply (sim_ident _ _ _ H)).
  apply identity_keys in Hid as [E1 E2].
  apply sim_insert; [done..| |].
  - intros k x. split; [by left|]. intros [?|[-> ->]]; [done|].
    apply (ok_subject _ (sim_index _ _ _ H)). by exists old.
  - intros k x. split; [by left|]. intros [?|[Hk ->]]; [done|].
    apply (ok_endpoint _ (sim_index _ _ _ H)). exists old. by rewrite E2.
Qed.

Lemma session_leb_total a b : session_leb a b = true \/ session_leb b a = true.
Proof.
  unfold session_leb. rewrite (Z.eqb_sym (CreatedAt b)). destruct (Z.eqb_spec (CreatedAt a) (CreatedAt b)).
  - apply str_leb_total.
  - rewrite !Z.ltb_lt. lia.
Qed.

Lemma session_leb_trans a b c :
  session_leb a b = true -> session_leb b c = true -> session_leb a c = true.
Proof.
  unfold session_leb.
  destruct (Z.eqb_spec (CreatedAt a) (CreatedAt b)), (Z.eqb_spec (CreatedAt b) (CreatedAt c)),
    (Z.eqb_spec (CreatedAt a) (CreatedAt c)); rewrite ?Z.ltb_lt; try lia; try congruence.
  apply str_leb_trans.
Qed.

Lemma sim_lists_endpoint now s a x y :
  sim now s a -> lists_endpoint now (EndpointKey x y) a (endpointSessionsLocked now x y s).
Proof.
  intros H. pose proof (sim_index _ _ _ H) as Hix. unfold endpointSessionsLocked, lists_endpoint.
  set (f := fun id => _). set (ids := elements _).
  assert (Hf : forall id ts, id ∈ ids -> f id = Some ts <-> see now s id = Some ts).
  { intros id ts Hid%elem_of_elements. apply (ok_endpoint _ Hix) in Hid as (t & Et & _).
    unfold f, see, seen. rewrite Et. done. }
  assert (HID : forall id ts, id ∈ ids -> f id = Some ts -> ID ts = id).
  { intros id ts Hid Hs%Hf; [|done]. apply see_Some in Hs as [Hs _]. by apply (ok_id _ Hix). }
  rewrite NoDup_sort_by. split; [by eapply NoDup_omap_inv; [exact HID|apply NoDup_elements]|].
  split; [apply sort_by_StronglySorted; [apply session_leb_total|apply session_leb_trans]|].
  intros ts. rewrite elem_of_sort_by, list_elem_of_omap, <- (sim_see _ _ _ H). split.
  - intros (id & Hid & Hts). pose proof (HID _ _ Hid Hts) as ->. apply Hf in Hts; [|done].
    split; [|done]. apply elem_of_elements, (ok_endpoint _ Hix) in Hid as (t & Et & Ht).
    apply see_Some in Hts as [Et' _]. congruence.
  - intros [He Hs]. exists (ID ts). assert (Hid : ID ts ∈ ids).
    { apply elem_of_elements, (ok_endpoint _ Hix). exists ts. apply see_Some in Hs as [? _]. done. }
    split; [done|]. by apply Hf.
Qed.

Lemma seen_filter {V} (exp : V -> Z) (P : string * V -> Prop) `{!forall x, Decision (P x)} now m i :
  seen exp now (filter P m) i =
  match seen exp now m i with Some v => if decide (P (i, v)) then Some v else None | None => None end.
Proof.
  unfold seen. destruct (m !! i) as [v|] eqn:E.
  - destruct (decide (P (i, v))) as [Hp|Hp].
    + rewrite (proj2 (map_lookup_filter_Some _ _ _ _)) by done. by destruct (_ <? _)%Z; rewrite ?decide_True.
    + rewrite (proj2 (map_lookup_filter_None _ _ _)).
      * by destruct (_ <? _)%Z; rewrite ?decide_False.
      * right. intros w Ew. congruence.
  - rewrite (proj2 (map_lookup_filter_None _ _ _)); [done|]. by left.
Qed.

(** Deleting by an index deletes, of what is seen, the sessions with the key. *)
Lemma sim_delete_by now s a (ids : list string) (P : TokenSession -> bool) a' :
  sim now s a -> sp_once a' = sp_once a ->
  (forall id, id ∈ ids <-> exists ts, sessions s !! id = Some ts /\ P ts = true) ->
  (forall id, sp_see now a' id =
     match sp_see now a id with Some ts => if P ts then None else Some ts | None => None end) ->
  sim now (deleteAll ids s) a'.
Proof.
  intros H Ho Hids Ha. apply (sim_deleteAll now s a); [done..|]. intros id. rewrite Ha.
  rewrite <- (sim_see _ _ _ H). destruct (see now s id) as [ts|] eqn:E; [|by case_bool_decide].
  apply see_Some in E as [E _]. case_bool_decide as Hb.
  - apply Hids in Hb as (t & Et & Ht). replace ts with t by congruence. by rewrite Ht.
  - destruct (P ts) eqn:Hp; [|done]. exfalso. apply Hb, Hids. eauto.
Qed.

(** What one operation owes to the contract. *)
Definition refines (now : Z) (o : op) (s : SessionStore) (a : Spec) : Prop :=
  spec_allows now o a (exec now o s).1 /\ sim now (exec now o s).2 (spec_next now o a).

Lemma refines_rotate now s a ts prev :
  sim now s a -> identity ts = ident (ID ts) -> refines now (OpRotate ts prev) s a.
Proof.
  intros H Hi. unfold refines. cbn [exec spec_allows spec_next]. unfold RotateTokenSession.
  rewrite <- (sim_see _ _ _ H). unfold see, seen.
  destruct (sessions s !! ID ts) as [cur|] eqn:E; [|done].
  destruct (now <? ExpiresAt cur)%Z; [|rewrite orb_true_r; done].
  case_bool_decide; simpl; [|done]. split; [done|]. by eapply sim_rotate.
Qed.

Lemma refines_get now s a id : sim now s a -> refines now (OpGet id) s a.
Proof.
  intros H. unfold refines. cbn [exec spec_allows spec_next]. unfold GetTokenSession.
  rewrite <- (sim_see _ _ _ H). unfold see, seen.
  destruct (sessions s !! id) as [ts|] eqn:E; [|done].
  destruct (now <? ExpiresAt ts)%Z eqn:He; simpl; [done|]. split; [done|].
  apply (sim_deleteAll now s a [id]); [done..|]. intros x.
  rewrite <- (sim_see _ _ _ H). case_bool_decide as Hb; [|done].
  apply list_elem_of_singleton in Hb as ->. unfold see, seen. by rewrite E, He.
Qed.

Lemma refines_delete now s a id : sim now s a -> refines now (OpDelete id) s a.
Proof.
  intros H. split; [done|]. apply (sim_deleteAll now s a [id]); [done..|]. intros x.
  unfold sp_see. cbn [spec_next sp_sessions]. rewrite seen_delete.
  rewrite (bool_decide_ext (x ∈ [id]) (id = x)); [done|]. rewrite list_elem_of_singleton. naive_solver.
Qed.

Lemma refines_delete_subject now s a x y z : sim now s a -> refines now (OpDeleteSubject x y z) s a.
Proof.
  intros H. unfold refines. cbn [exec spec_allows spec_next DeleteSubjectSessions fst snd].
  set (ids := elements _).
  assert (Hids : forall id, id ∈ ids <->
    exists ts, sessions s !! id = Some ts /\ bool_decide (subjectOf ts = SubjectKey x y z) = true).
  { intros id. unfold ids. rewrite elem_of_elements, (ok_subject _ (sim_index _ _ _ H)).
    by setoid_rewrite bool_decide_eq_true. }
  split; [split; [apply NoDup_elements|]|].
  - intros id ts. rewrite <- (sim_see _ _ _ H). intros [Hs _]%see_Some. rewrite Hids.
    setoid_rewrite bool_decide_eq_true. naive_solver.
  - apply (sim_delete_by now s a ids (fun ts => bool_decide (subjectOf ts = SubjectKey x y z)));
      [done..|]. intros id. unfold sp_see. cbn [sp_sessions]. rewrite seen_filter.
    destruct (seen _ _ _ _) as [ts|]; [|done]. simpl. by case_bool_decide; case_decide.
Qed.

Lemma refines_delete_endpoint now s a x y : sim now s a -> refines now (OpDeleteEndpoint x y) s a.
Proof.
  intros H. split; [by apply sim_lists_endpoint|].
  cbn [exec DeleteEndpointSessions snd spec_next].
  apply (sim_delete_by now s a _ (has_endpoint (EndpointKey x y))); [done|done| |].
  - intros id. by rewrite elem_of_elements, (ok_endpoint _ (sim_index _ _ _ H)).
  - intros id. unfold sp_see. cbn [sp_sessions]. rewrite seen_filter.
    destruct (seen _ _ _ _) as [ts|]; [|done]. simpl. by destruct (has_endpoint _ ts); case_decide.
Qed.

Lemma refines_claim now s a key ttl : sim now s a -> refines now (OpClaim key ttl) s a.
Proof.
  intros H. unfold refines. cbn [exec spec_allows spec_next]. unfold ClaimOnce.
  rewrite (sim_once _ _ _ H). destruct (sp_see_once now a key) as [v|]; simpl; [done|].
  split; [done|]. apply sim_once_insert. by apply sim_prune.
Qed.

Lemma refines_take now s a key : sim now s a -> refines now (OpTake key) s a.
Proof.
  intros H. unfold refines. cbn [exec spec_allows spec_next]. unfold TakeOnce.
  rewrite (sim_once _ _ _ H).
  assert (Hd : sim now (set_once (delete key (once s)) s) (mkSpec (sp_sessions a) (delete key (sp_once a)))).
  { apply sim_set_once; [done|]. intros k. rewrite !seen_delete. case_bool_decide; [done|].
    apply (sim_once _ _ _ H). }
  by destruct (sp_see_once now a key).
Qed.

Lemma exec_refines now o s a : sim now s a -> op_respects o -> refines now o s a.
Proof.
  intros H Hr. destruct o; cbn [op_respects] in Hr.
  - split; [done|by apply sim_put].
  - by apply refines_rotate.
  - by apply refines_get.
  - by apply refines_delete.
  - by apply refines_delete_subject.
  - split; [by apply sim_lists_endpoint|done].
  - by apply refines_delete_endpoint.
  - by apply refines_claim.
  - split; [done|]. apply sim_once_insert. by apply sim_prune.
  - by apply refines_take.
  - split; [|done]. cbn [exec spec_allows fst]. unfold PeekOnce. by rewrite (sim_once _ _ _ H).
Qed.

(** The clock of the operations does not run backwards. *)
Fixpoint clock_ok (t : Z) (l : list (Z * op)) : Prop :=
  match l with
  | [] => True
  | (now, _) :: l' => (t <= now)%Z /\ clock_ok now l'
  end.

Lemma exec_all_refines l : forall t s a,
  sim t s a -> clock_ok t l -> Forall (fun x => op_respects x.2) l ->
  spec_run l a (exec_all l s).1.
Proof.
  induction l as [|[now o] l IH]; intros t s a Hs Hc Hr; [done|].
  destruct Hc as [Ht Hc]. apply Forall_cons in Hr as [Ho Hr].
  apply (sim_later t now) in Hs; [|done].
  destruct (exec_refines now o s a Hs Ho) as [Ha Hn]. cbn [exec_all spec_run].
  destruct (exec now o s) as [r s1]. specialize (IH now s1 _ Hn Hc Hr).
  destruct (exec_all l s1) as [rs s2]. done.
Qed.

Lemma sim_new t : sim t newSessionStore (mkSpec ∅ ∅).
Proof.
  split; [apply index_ok_new| |done|done]. simpl. intros id ts. by rewrite lookup_empty.
Qed.

(** C7: Every sequence of operations gets, from the store with its indexes and its periodic
    prune, only answers the plain two-map contract allows, provided the clock does not run
    backwards and a session id is not reused for another subject or endpoint. *)
Theorem session_store_refines_contract l :
  clock_ok 0 l -> Forall (fun x => op_respects x.2) l ->
  spec_run l (mkSpec ∅ ∅) (exec_all l newSessionStore).1.
Proof. apply exec_all_refines. apply sim_new. Qed.

(** *** Revocation *)

Definition store_ok (s : SessionStore) : Prop :=
  index_ok s /\ forall id ts, sessions s !! id = Some ts -> identity ts = ident id.

Lemma store_ok_exec now o s : store_ok s -> op_respects o -> store_ok (exec now o s).2.
Proof.
  intros [H1 H2] Hr.
  assert (Hs : sim now s (mkSpec (sessions s) (once s))) by (split; done).
  destruct (exec_refines now o s _ Hs Hr) as [_ []]. done.
Qed.

Lemma store_ok_exec_all l s :
  store_ok s -> Forall (fun x => op_respects x.2) l -> store_ok (exec_all l s).2.
Proof.
  intros Hs Hl. revert s Hs. induction Hl as [|[now o] l Ho _ IH]; intros s Hs; [done|].
  cbn [exec_all]. pose proof (store_ok_exec now o s Hs Ho) as H1. destruct (exec now o s) as [r s1].
  specialize (IH s1 H1). by destruct (exec_all l s1).
Qed.

Definition no_subject (k : string) (s : SessionStore) : Prop :=
  forall id ts, sessions s !! id = Some ts -> subjectOf ts <> k.

(** The operation creates no session of the subject. *)
Definition spares (k : string) (o : op) : Prop :=
  match o with OpPut ts => subjectOf ts <> k | _ => True end.

Lemma no_subject_sub k s s' :
  no_subject k s -> (forall id ts, sessions s' !! id = Some ts -> sessions s !! id = Some ts) ->
  no_subject k s'.
Proof. intros H Hs id ts Hid. by eapply H, Hs. Qed.

Lemma deleteAll_sub ids s id ts : sessions (deleteAll ids s) !! id = Some ts -> sessions s !! id = Some ts.
Proof. rewrite sessions_deleteAll. by case_bool_decide. Qed.

Lemma no_subject_exec k now o s :
  no_subject k s -> store_ok s -> op_respects o -> spares k o -> no_subject k (exec now o s).2.
Proof.
  intros Hk [_ Hid] Hr Hsp. destruct o; cbn [exec op_respects spares] in *; try done.
  - intros id t. unfold PutTokenSession. cbn [snd sessions].
    destruct (decide (ID ts = id)) as [<-|Hne]; [rewrite lookup_insert_eq; by intros [= <-]|].
    rewrite lookup_insert_ne by done. intros Ht%prune_sessions_sub. by eapply Hk.
  - unfold RotateTokenSession. destruct (sessions s !! ID ts) as [cur|] eqn:E; [|done].
    destruct (_ || _)%bool; [done|]. intros id t. cbn [snd sessions].
    destruct (decide (ID ts = id)) as [<-|Hne]; [rewrite lookup_insert_eq; intros [= <-]|].
    + assert (Hi : identity cur = identity ts) by (rewrite Hr; by apply Hid).
      apply identity_keys in Hi as [<- _]. by eapply Hk.
    + rewrite lookup_insert_ne by done. apply Hk.
  - unfold GetTokenSession. destruct (sessions s !! id) as [cur|]; [|done].
    destruct (negb _); [|done]. eapply no_subject_sub; [done|]. apply (deleteAll_sub [id]).
  - eapply no_subject_sub; [done|]. apply (deleteAll_sub [id]).
  - eapply no_subject_sub; [done|]. apply deleteAll_sub.
  - eapply no_subject_sub; [done|]. apply deleteAll_sub.
  - unfold ClaimOnce. destruct (live_once now key s); [done|].
    eapply no_subject_sub; [done|]. cbn [snd set_once sessions]. intros id t. apply prune_sessions_sub.
  - eapply no_subject_sub; [done|]. cbn [snd PutOnce set_once sessions]. intros id t.
    apply prune_sessions_sub.
  - unfold TakeOnce. by destruct (live_once now key s).
Qed.

Lemma no_subject_exec_all k l s :
  no_subject k s -> store_ok s -> Forall (fun x => op_respects x.2) l ->
  Forall (fun x => spares k x.2) l -> no_subject k (exec_all l s).2.
Proof.
  intros Hk Hs Hl Hsp. revert s Hk Hs Hsp.
  induction Hl as [|[now o] l Ho _ IH]; intros s Hk Hs Hsp; [done|].
  apply Forall_cons in Hsp as [Hsp1 Hsp2]. cbn [exec_all].
  pose proof (store_ok_exec now o s Hs Ho) as H1.
  pose proof (no_subject_exec k now o s Hk Hs Ho Hsp1) as H2. destruct (exec now o s) as [r s1].
  specialize (IH s1 H2 H1 Hsp2). by destruct (exec_all l s1).
Qed.

Lemma DeleteSubjectSessions_none x y z s :
  store_ok s -> no_subject (SubjectKey x y z) (DeleteSubjectSessions x y z s).2.
Proof.
  intros [Hix _] id ts. cbn [DeleteSubjectSessions snd]. rewrite sessions_deleteAll.
  case_bool_decide as Hb; [done|]. intros Hts E. apply Hb, elem_of_elements.
  apply (ok_subject _ Hix). by exists ts.
Qed.

(** Once the sessions of a subject are deleted, no later sequence of operations brings
    one back unless a new session is put for the subject: rotating, reading, listing and
    pruning never revive a revoked session. *)
Theorem revoked_subject_stays_out x y z l1 l2 now id ts :
  Forall (fun o => op_respects o.2) (l1 ++ l2) ->
  Forall (fun o => spares (SubjectKey x y z) o.2) l2 ->
  (GetTokenSession now id
     (exec_all l2 (DeleteSubjectSessions x y z (exec_all l1 newSessionStore).2).2).2).1 = Ok ts ->
  subjectOf ts <> SubjectKey x y z.
Proof.
  intros [Hr1 Hr2]%Forall_app Hsp.
  assert (H1 : store_ok (exec_all l1 newSessionStore).2).
  { apply store_ok_exec_all; [|done]. split; [apply index_ok_new|]. simpl. intros i t.
    by rewrite lookup_empty. }
  assert (H2 : store_ok (DeleteSubjectSessions x y z (exec_all l1 newSessionStore).2).2).
  { pose proof (store_ok_exec 0 (OpDeleteSubject x y z) _ H1 I) as H. exact H. }
  pose proof (no_subject_exec_all _ l2 _ (DeleteSubjectSessions_none x y z _ H1) H2 Hr2 Hsp) as Hn.
  unfold GetTokenSession. destruct (sessions _ !! id) as [t|] eqn:E; [|done].
  destruct (negb _); [done|]. intros [= <-]. by eapply Hn.
Qed.
End Simulation.

(** *** Single-use values *)

Lemma once_prune now s key v :
  once s !! key = Some v -> (now < expiresAt v)%Z -> once (pruneLocked now s) !! key = Some v.
Proof.
  intros Hk Hv. unfold pruneLocked. destruct (negb _); [done|]. cbn [once]. rewrite once_deleteAll.
  by apply map_lookup_filter_Some.
Qed.

Lemma once_prune_none now s key : once s !! key = None -> once (pruneLocked now s) !! key = None.
Proof.
  intros Hk. unfold pruneLocked. destruct (negb _); [done|]. cbn [once]. rewrite once_deleteAll.
  apply map_lookup_filter_None. by left.
Qed.

(** The operation neither takes nor replaces the value of the key. *)
Definition leaves (key : string) (o : op) : Prop :=
  match o with OpPutOnce k _ _ | OpTake k => k <> key | _ => True end.

(** The operation does not store a value under the key. *)
Definition sets_not (key : string) (o : op) : Prop :=
  match o with OpPutOnce k _ _ | OpClaim k _ => k <> key | _ => True end.

Lemma once_GetTokenSession now id s : once (GetTokenSession now id s).2 = once s.
Proof.
  unfold GetTokenSession. destruct (sessions s !! id); [|done].
  destruct (negb _); [apply once_deleteLocked|done].
Qed.

Lemma once_Rotate now ts prev s : once (RotateTokenSession now ts prev s).2 = once s.
Proof. unfold RotateTokenSession. destruct (sessions s !! ID ts); [|done]. by destruct (_ || _)%bool. Qed.

(** The operations on sessions: at most a prune happens to the values. *)
Lemma exec_once_cases now o s :
  match o with
  | OpClaim _ _ | OpPutOnce _ _ _ | OpTake _ => True
  | OpPut _ => once (exec now o s).2 = once (pruneLocked now s)
  | _ => once (exec now o s).2 = once s
  end.
Proof.
  destruct o; cbn [exec]; try done.
  - pose proof (once_Rotate now ts prevTokenID s). by destruct (RotateTokenSession _ _ _ _).
  - pose proof (once_GetTokenSession now id s). by destruct (GetTokenSession _ _ _).
  - apply once_deleteLocked.
  - apply once_deleteAll.
  - apply once_deleteAll.
Qed.

Lemma exec_keeps_once now o s key v :
  once s !! key = Some v -> (now < expiresAt v)%Z -> leaves key o ->
  once (exec now o s).2 !! key = Some v.
Proof.
  intros Hk Hv Hl. pose proof (exec_once_cases now o s) as Hc.
  destruct o as [| | | | | | |k ttl|k w ttl|k|]; try (rewrite Hc; done || by apply once_prune); simpl in Hl.
  - cbn [exec]. unfold ClaimOnce, live_once. destruct (decide (k = key)) as [->|Hne].
    + by rewrite Hk, (proj2 (Z.ltb_lt _ _)).
    + destruct (match once s !! k with Some _ => _ | None => _ end); [done|]. simpl.
      rewrite lookup_insert_ne by done. by apply once_prune.
  - simpl. rewrite lookup_insert_ne by done. by apply once_prune.
  - cbn [exec]. unfold TakeOnce. destruct (live_once now k s); simpl; by rewrite lookup_delete_ne.
Qed.

Lemma exec_keeps_none now o s key :
  once s !! key = None -> sets_not key o -> once (exec now o s).2 !! key = None.
Proof.
  intros Hk Hl. pose proof (exec_once_cases now o s) as Hc.
  destruct o as [| | | | | | |k ttl|k w ttl|k|]; try (rewrite Hc; done || by apply once_prune_none);
    simpl in Hl.
  - cbn [exec]. unfold ClaimOnce. destruct (live_once now k s); [done|]. simpl.
    rewrite lookup_insert_ne by done. by apply once_prune_none.
  - simpl. rewrite lookup_insert_ne by done. by apply once_prune_none.
  - cbn [exec]. unfold TakeOnce. destruct (live_once now k s); simpl; by rewrite lookup_delete_None; right.
Qed.

Lemma exec_all_snoc l now o s :
  (exec_all ((now, o) :: l) s).2 = (exec_all l (exec now o s).2).2.
Proof. cbn [exec_all]. destruct (exec now o s) as [r s1]. simpl. by destruct (exec_all l s1). Qed.

Lemma exec_all_keeps_once l key v : forall s,
  once s !! key = Some v -> Forall (fun x => (x.1 < expiresAt v)%Z /\ leaves key x.2) l ->
  once (exec_all l s).2 !! key = Some v.
Proof.
  induction l as [|[now o] l IH]; intros s Hk Hl; [done|].
  apply Forall_cons in Hl as [[H1 H2] Hl]. rewrite exec_all_snoc. apply IH; [|done].
  by apply exec_keeps_once.
Qed.

Lemma exec_all_keeps_none l key : forall s,
  once s !! key = None -> Forall (fun x => sets_not key x.2) l -> once (exec_all l s).2 !! key = None.
Proof.
  induction l as [|[now o] l IH]; intros s Hk Hl; [done|].
  apply Forall_cons in Hl as [H1 Hl]. rewrite exec_all_snoc. apply IH; [|done].
  by apply exec_keeps_none.
Qed.

(** A claim is exclusive: after one caller claimed a key for [ttl], and whatever else
    the store does short of taking or replacing that key, another claim before the time is
    up is refused. *)
Theorem claim_is_exclusive t1 key ttl s s1 l t2 ttl2 :
  ClaimOnce t1 key ttl s = (true, s1) ->
  Forall (fun x => (x.1 < t1 + ttl)%Z /\ leaves key x.2) l -> (t2 < t1 + ttl)%Z ->
  ClaimOnce t2 key ttl2 (exec_all l s1).2 = (false, (exec_all l s1).2).
Proof.
  unfold ClaimOnce at 1. destruct (live_once t1 key s); [done|]. intros [= <-] Hl Ht.
  set (s1 := set_once _ _).
  assert (Hk : once s1 !! key = Some (mkOnce [] (t1 + ttl))) by apply lookup_insert_eq.
  apply (exec_all_keeps_once l) in Hk; [|done]. unfold ClaimOnce, live_once.
  rewrite Hk. simpl. by rewrite (proj2 (Z.ltb_lt _ _)).
Qed.

(** A value is taken at most once: after [TakeOnce] returned it, every later take of the
    key fails until a value is stored under it again. *)
Theorem taken_value_is_gone t1 key s v s1 l t2 :
  TakeOnce t1 key s = (Ok v, s1) -> Forall (fun x => sets_not key x.2) l ->
  (TakeOnce t2 key (exec_all l s1).2).1 = Fail ErrNotFound.
Proof.
  unfold TakeOnce at 1. destruct (live_once t1 key s); [|done]. intros [= _ <-] Hl.
  set (s1 := set_once _ _).
  assert (Hk : once s1 !! key = None) by apply lookup_delete_eq.
  apply (exec_all_keeps_none l) in Hk; [|done]. unfold TakeOnce, live_once. by rewrite Hk.
Qed.

(** *** Keys *)

Definition nul_free (s : string) : Prop := "000"%char ∉ bytes_of s.

(** The subjects of different organizations, types or ids never share an index key, as
    long as the organization and the type hold no NUL byte. *)
Theorem SubjectKey_injective o1 t1 i1 o2 t2 i2 :
  nul_free o1 -> nul_free o2 -> nul_free t1 -> nul_free t2 ->
  SubjectKey o1 t1 i1 = SubjectKey o2 t2 i2 -> o1 = o2 /\ t1 = t2 /\ i1 = i2.
Proof.
  unfold SubjectKey, nul_free. intros Ho1 Ho2 Ht1 Ht2 E. apply (f_equal bytes_of) in E.
  rewrite !bytes_of_app in E. apply app_sep_inj in E as [Eo E]; [|done..].
  apply app_sep_inj in E as [Et Ei]; [|done..]. by repeat split; apply bytes_of_inj.
Qed.

(** *** Sample runs *)

Definition sample_session (id sub tok : string) : TokenSession :=
  mkSession id "org" "user" sub tok "oidc" 1 5 100 "ep" "" "" 0.

Definition sample_ident (id : string) : string * string * string * string :=
  ("org", "user", if bool_decide (id = "s1") then "ann" else "bob", "ep").

Definition sample_ops : list (Z * op) :=
  [(1%Z, OpPut (sample_session "s1" "ann" "t1")); (2%Z, OpPut (sample_session "s2" "bob" "t2"));
   (3%Z, OpRotate (sample_session "s1" "ann" "t3") "t1"); (4%Z, OpListEndpoint "org" "ep");
   (5%Z, OpDeleteSubject "org" "user" "ann"); (200%Z, OpGet "s2")].

Lemma session_store_refines_contract_witness :
  spec_run sample_ops (mkSpec ∅ ∅) (exec_all sample_ops newSessionStore).1.
Proof.
  apply (session_store_refines_contract sample_ident).
  - repeat split; lia.
  - repeat constructor.
Defined.

Lemma revoked_subject_stays_out_witness : subjectOf (sample_session "s2" "bob" "t2") <> SubjectKey "org" "user" "ann".
Proof.
  apply (revoked_subject_stays_out sample_ident "org" "user" "ann" (take 2 sample_ops)
    [(3%Z, OpRotate (sample_session "s1" "ann" "t3") "t1")] 4 "s2").
  - repeat constructor.
  - repeat constructor.
  - vm_compute. reflexivity.
Defined.

Lemma claim_is_exclusive_witness :
  (ClaimOnce 5 "k" 10 (exec_all [(4%Z, OpPutOnce "other" [] 9)]
     (ClaimOnce 1 "k" 10 newSessionStore).2).2).1 = false.
Proof.
  rewrite (claim_is_exclusive 1 "k" 10 newSessionStore (ClaimOnce 1 "k" 10 newSessionStore).2
    [(4%Z, OpPutOnce "other" [] 9)] 5 10).
  - reflexivity.
  - vm_compute. reflexivity.
  - constructor; [split; [reflexivity|discriminate]|constructor].
  - lia.
Defined.

Lemma taken_value_is_gone_witness :
  (TakeOnce 3 "k" (exec_all [(2%Z, OpPeek "k")]
     (TakeOnce 2 "k" (PutOnce 1 "k" (bytes_of "code") 60 newSessionStore)).2).2).1 = Fail ErrNotFound.
Proof.
  apply (taken_value_is_gone 2 "k" (PutOnce 1 "k" (bytes_of "code") 60 newSessionStore) (bytes_of "code")).
  - vm_compute. reflexivity.
  - repeat constructor.
Defined.

Lemma SubjectKey_injective_witness : "ann" = "ann".
Proof.
  apply (SubjectKey_injective "org" "user" "ann" "org" "user" "ann").
  all: try (intros H; apply list_elem_of_In in H; vm_compute in H; decompose sum H; discriminate).
  reflexivity.
Defined.
End Sessions.

(** ** Agent connections: internal/store/memory/connstore.go *)
Module ConnStore.
(** A connection is an object: [conn] is its identity and [AgentID] its method. *)
Record AgentConn := mkConn { conn_ref : nat; conn_agent : string }.

#[export] Instance AgentConn_eq_dec : EqDecision AgentConn.
Proof. solve_decision. Defined.

Record ConnStore := mkConnStore {
  agents : gmap string AgentConn;
  endpoints : gmap string string;
  usage : gmap string Z
}.

Definition NewConnStore : ConnStore := mkConnStore ∅ ∅ ∅.

Definition AddAgent (conn : AgentConn) (c : ConnStore) : option AgentConn * ConnStore :=
  (agents c !! conn_agent conn,
   mkConnStore (<[conn_agent conn := conn]> (agents c)) (endpoints c) (usage c)).

Definition RemoveAgent (conn : AgentConn) (c : ConnStore) : ConnStore :=
  let agentID := conn_agent conn in
  if negb (bool_decide (agents c !! agentID = Some conn)) then c
  else mkConnStore (delete agentID (agents c))
         (filter (fun kv => kv.2 <> agentID) (endpoints c)) (usage c).

Definition GetAgent (agentID : string) (c : ConnStore) : option AgentConn := agents c !! agentID.

Definition BindEndpoint (endpointID agentID : string) (c : ConnStore) : ConnStore :=
  mkConnStore (agents c) (<[endpointID := agentID]> (endpoints c)) (usage c).

Definition UnbindEndpoint (endpointID : string) (c : ConnStore) : ConnStore :=
  mkConnStore (agents c) (delete endpointID (endpoints c)) (usage c).

Definition ResolveEndpoint (endpointID : string) (c : ConnStore) : option AgentConn :=
  match endpoints c !! endpointID with
  | None => None
  | Some agentID => agents c !! agentID
  end.

(** [usage] wraps around as int64 does. *)
Definition Usage (orgID : string) (c : ConnStore) : Z := default 0%Z (usage c !! orgID).

Definition AddUsage (orgID : string) (n : Z) (c : ConnStore) : ConnStore :=
  if bool_decide (orgID = "") || (n =? 0)%Z then c
  else mkConnStore (agents c) (endpoints c) (<[orgID := wrap64 (Usage orgID c + n)]> (usage c)).

Inductive cop :=
| CAdd (conn : AgentConn)
| CRemove (conn : AgentConn)
| CBind (endpointID agentID : string)
| CUnbind (endpointID : string)
| CUsage (orgID : string) (n : Z).

Definition cexec (o : cop) (c : ConnStore) : ConnStore :=
  match o with
  | CAdd conn => (AddAgent conn c).2
  | CRemove conn => RemoveAgent conn c
  | CBind e a => BindEndpoint e a c
  | CUnbind e => UnbindEndpoint e c
  | CUsage o n => AddUsage o n c
  end.

Definition crun (l : list cop) (c : ConnStore) : ConnStore := fold_left (fun c o => cexec o c) l c.

(** The agents are filed under their own id. *)
Definition filed (c : ConnStore) : Prop := forall a conn, agents c !! a = Some conn -> conn_agent conn = a.

Lemma filed_exec o c : filed c -> filed (cexec o c).
Proof.
  intros H. destruct o; cbn [cexec]; try done.
  - intros a k. cbn [AddAgent snd agents]. destruct (decide (conn_agent conn = a)) as [<-|Hne].
    + rewrite lookup_insert_eq. by intros [= <-].
    + rewrite lookup_insert_ne by done. apply H.
  - unfold RemoveAgent. case_bool_decide; [|done]. intros a k. cbn [negb agents]. intros [_ Hk]%lookup_delete_Some. by apply H.
  - unfold AddUsage. by destruct (_ || _)%bool.
Qed.

Lemma filed_run l c : filed c -> filed (crun l c).
Proof.
  revert c. induction l as [|o l IH]; intros c H; [done|]. apply IH. by apply filed_exec.
Qed.

(** Before the reconnect [old] served the agent; [new] is its replacement. *)
Definition keeps_agent (new : AgentConn) (o : cop) : Prop :=
  match o with
  | CAdd conn => conn_agent conn <> conn_agent new
  | CRemove conn => conn <> new
  | _ => True
  end.

Lemma keeps_agent_exec new o c :
  agents c !! conn_agent new = Some new -> keeps_agent new o ->
  agents (cexec o c) !! conn_agent new = Some new.
Proof.
  intros H Hk. destruct o; cbn [cexec keeps_agent] in *; try done.
  - cbn [AddAgent snd agents]. by rewrite lookup_insert_ne.
  - unfold RemoveAgent. case_bool_decide as Hb; [|done]. simpl.
    rewrite lookup_delete_ne; [done|]. intros E. rewrite E in Hb. congruence.
  - unfold AddUsage. by destruct (_ || _)%bool.
Qed.

Lemma keeps_agent_run new l c :
  agents c !! conn_agent new = Some new -> Forall (keeps_agent new) l ->
  agents (crun l c) !! conn_agent new = Some new.
Proof.
  intros H Hl. revert c H. induction Hl as [|o l Ho _ IH]; intros c H; [done|].
  apply IH. by apply keeps_agent_exec.
Qed.

(** An agent that reconnects keeps serving: however late the old connection's removal
    comes, and whatever other agents do, the agent and every endpoint bound to it resolve
    to the new connection, and the removal leaves the store as it is. *)
Theorem late_disconnect_is_harmless c old new l ep :
  conn_agent old = conn_agent new -> old <> new -> Forall (keeps_agent new) l ->
  let c' := crun l (AddAgent new c).2 in
  RemoveAgent old c' = c' /\
  ResolveEndpoint ep (BindEndpoint ep (conn_agent new) c') = Some new.
Proof.
  intros Ha Hne Hl c'.
  assert (Hn : agents c' !! conn_agent new = Some new)
    by (apply keeps_agent_run; [apply lookup_insert_eq|done]).
  split.
  - unfold RemoveAgent. rewrite Ha, Hn. by rewrite bool_decide_false by congruence.
  - unfold ResolveEndpoint, BindEndpoint. cbn [endpoints agents]. by rewrite lookup_insert_eq.
Qed.

Lemma late_disconnect_is_harmless_witness :
  let c' := crun [CBind "ep" "a"; CAdd (mkConn 7 "b")] (AddAgent (mkConn 2 "a") NewConnStore).2 in
  RemoveAgent (mkConn 1 "a") c' = c'.
Proof.
  intros c'.
  refine (proj1 (late_disconnect_is_harmless NewConnStore (mkConn 1 "a") (mkConn 2 "a")
    [CBind "ep" "a"; CAdd (mkConn 7 "b")] "ep" _ _ _)).
  - reflexivity.
  - discriminate.
  - repeat constructor. discriminate.
Defined.

(** In every reachable store, once the agent's current connection is removed no endpoint
    resolves to the agent, and the endpoints of the other agents resolve as before. *)
Theorem removed_agent_unreachable l conn ep :
  let c := crun l NewConnStore in
  agents c !! conn_agent conn = Some conn ->
  ResolveEndpoint ep (RemoveAgent conn c) =
  match ResolveEndpoint ep c with
  | Some k => if bool_decide (conn_agent k = conn_agent conn) then None else Some k
  | None => None
  end.
Proof.
  intros c Hc. assert (Hf : filed c) by (apply filed_run; intros a k; simpl; by rewrite lookup_empty).
  unfold RemoveAgent. rewrite bool_decide_true by done. simpl. unfold ResolveEndpoint. simpl.
  destruct (endpoints c !! ep) as [a|] eqn:E.
  - destruct (decide (a = conn_agent conn)) as [->|Hne].
    + rewrite (proj2 (map_lookup_filter_None _ _ _)); [|right; intros ? Hx; simplify_eq/=; by intros ?].
      rewrite Hc. by rewrite bool_decide_true.
    + rewrite (proj2 (map_lookup_filter_Some _ _ _ _)) by done.
      rewrite lookup_delete_ne by done. destruct (agents c !! a) as [k|] eqn:Ek; [|done].
      rewrite bool_decide_false; [done|]. rewrite (Hf _ _ Ek). done.
  - rewrite (proj2 (map_lookup_filter_None _ _ _)); [done|]. by left.
Qed.

Lemma removed_agent_unreachable_witness :
  ResolveEndpoint "ep" (RemoveAgent (mkConn 2 "a")
    (crun [CAdd (mkConn 1 "a"); CBind "ep" "a"; CAdd (mkConn 2 "a")] NewConnStore)) = None.
Proof.
  refine (eq_trans (removed_agent_unreachable [CAdd (mkConn 1 "a"); CBind "ep" "a"; CAdd (mkConn 2 "a")]
    (mkConn 2 "a") "ep" _) _); vm_compute; reflexivity.
Defined.
End ConnStore.
