(* ===== verification/Decider.v ===== *)
(** * The agent's decision cache

    internal/agent/decisions.go and rpc_table.go: the agent asks the control
    plane whether a connect or an HTTP request is allowed, over the control
    stream of the current session, and remembers answers. Callers run
    concurrently with policy flushes and with sessions that come and go; every
    critical section of the code is one event of the state machine below. *)
From S2P Require Import Prelude GoIO GoStrings.

(** ** Header rules *)
Module Headers.
Definition in_codes (codes : list Z) (b : byte) : bool := existsb (Z.eqb (byteZ b)) codes.

(** The characters of the string literal in [validHeaderName]. *)
Definition header_separators : list Z :=
  [34; 40; 41; 44; 47; 58; 59; 60; 61; 62; 63; 64; 91; 92; 93; 123; 125]%Z.

Definition header_name_byte (b : byte) : bool :=
  negb ((126 <? byteZ b) || (byteZ b <=? 32) || in_codes header_separators b)%Z.

Definition validHeaderName (name : string) : bool :=
  negb (bool_decide (name = "")) && forallb header_name_byte (bytes_of name).

Definition header_value_byte (b : byte) : bool :=
  let z := byteZ b in
  negb ((z =? 13) || (z =? 10) || (z =? 0) || (z =? 127) || ((z <? 32) && negb (z =? 9)))%Z.

Definition validHeaderValue (value : list byte) : bool := forallb header_value_byte value.

(** [http.CanonicalHeaderKey]: a name of token bytes gets upper case after
    every hyphen and lower case elsewhere, any other name stays as it is. *)
Definition upper_byte (b : byte) : byte :=
  let z := byteZ b in if ((97 <=? z) && (z <=? 122))%Z then Zbyte (z - 32) else b.

Fixpoint canonical_bytes (upper : bool) (l : list byte) : list byte :=
  match l with
  | [] => []
  | b :: l' => (if upper then upper_byte b else lower_byte b) :: canonical_bytes (byteZ b =? 45)%Z l'
  end.

Definition token_byte (b : byte) : bool := header_name_byte b.

Definition CanonicalHeaderKey (s : string) : string :=
  if forallb token_byte (bytes_of s) then string_of (canonical_bytes true (bytes_of s)) else s.
End Headers.

Module Decider.
Import Headers.

(** ** Data *)

Definition second : Z := 1000000000.
Definition maxCachedDecisions : Z := 4096.
Definition MaxDecisionTTLSeconds : Z := 300.
Definition DecisionActionConnect : string := "agent:connect".
Definition DecisionActionEgressRequest : string := "egress:request".

Definition errDecisionLost : goerr := ENew "decision lost: tunnel session changed".
Definition errSessionUnbound : goerr := ENew "decision unavailable: session identity not acknowledged yet".
Definition errCredentialUnsealed : goerr := ENew "credential could not be opened".
Definition errCredentialMalformed : goerr := ENew "credential header or value is not valid http".
Definition errNotConnected : goerr := ENew "tunnel is not connected to the gateway".

Record decisionKey := mkKey {
  k_action : string;
  k_connect : string;
  k_kind : string;
  k_host : string;
  k_port : Z;
  k_method : string;
  k_path : string;
  k_tls : bool;
  k_decrypted : bool;
  k_auth : string;
  k_exit : string
}.

Record scopeKey := mkScopeKey {
  s_host : string;
  s_port : Z;
  s_tls : bool;
  s_decrypted : bool;
  s_auth : string;
  s_exit : string
}.

#[export] Instance decisionKey_eq_dec : EqDecision decisionKey.
Proof. solve_decision. Defined.
#[export] Instance scopeKey_eq_dec : EqDecision scopeKey.
Proof. solve_decision. Defined.

#[export] Instance decisionKey_countable : Countable decisionKey.
Proof.
  refine (inj_countable'
    (fun k => (k_action k, k_connect k, k_kind k, k_host k, k_port k, k_method k, k_path k,
               k_tls k, k_decrypted k, k_auth k, k_exit k))
    (fun '(a, b, c, d, e, f, g, h, i, j, k) => mkKey a b c d e f g h i j k) _).
  by intros [].
Defined.

#[export] Instance scopeKey_countable : Countable scopeKey.
Proof.
  refine (inj_countable'
    (fun k => (s_host k, s_port k, s_tls k, s_decrypted k, s_auth k, s_exit k))
    (fun '(a, b, c, d, e, f) => mkScopeKey a b c d e f) _).
  by intros [].
Defined.

Record injection := mkInjection { header : string; inj_value : string }.

Record cachedDecision := mkCached {
  c_allowed : bool;
  c_reason : string;
  c_inject : option injection;
  c_expires : Z
}.

Record egressRequest := mkRequest {
  r_host : string;
  r_port : Z;
  r_method : string;
  r_path : string;
  r_tls : bool;
  r_decrypted : bool;
  r_auth : string;
  r_exit : string
}.

Record DecisionScope := mkScope { ScopePath : bool; ScopeMethod : bool }.

Record SealedCredential := mkSealed { cred_name : string; cred_header : string; cred_sealed : list byte }.

Record DecisionAnswer := mkAnswer {
  AnswerID : Z;
  Allowed : bool;
  Reason : string;
  TTLSeconds : Z;
  Scope : option DecisionScope;
  Credential : option SealedCredential
}.

Record sessionBinding := mkBinding { b_org : string; b_agent : string }.

#[export] Instance sessionBinding_eq_dec : EqDecision sessionBinding.
Proof. solve_decision. Defined.

Definition noBinding : sessionBinding := mkBinding "" "".

(** What a caller gets: the verdict, or an error. *)
Inductive outcome :=
| Granted (inject : option injection)
| Denied (reason : string)
| Failed (e : goerr).

Definition verdict (allowed : bool) (reason : string) (inject : option injection) : outcome :=
  if allowed then Granted inject else Denied reason.

(** The questions of [check] and [checkRequest]. *)
Inductive question :=
| QConnect (connect kind : string)
| QRequest (req : egressRequest).

(** A reply channel: capacity one. *)
Inductive chan := ChanEmpty | ChanFull (a : DecisionAnswer) | ChanClosed.

(** Where a call of [check] or [checkRequest] stands between its critical
    sections; [g] and [e] are the generation and epoch [ask] read. *)
Inductive pc :=
| Missed
| Waiting (id g e : Z)
| Answered (a : DecisionAnswer) (g e : Z)
| Judged (a : DecisionAnswer) (inject : option injection) (g e : Z)
| Scoped (a : DecisionAnswer) (inject : option injection) (g e : Z)
| Finished (o : outcome).

Record call := mkCall { question_of : question; at_pc : pc }.

(** What happened, in order. *)
Inductive logged :=
| LReset
| LAsked (th : nat) (q : question)
| LRemembered (th : nat) (q : question) (a : DecisionAnswer) (inject : option injection) (t : Z)
| LHit (th : nat) (q : question) (o : outcome) (t : Z)
| LDelivered (g : Z) (a : DecisionAnswer).

Record remoteDecider := mkDecider {
  now : Z;
  gen : Z;
  epoch : Z;
  ctrl : bool;
  seal : option nat;
  binding : sessionBinding;
  nextID : Z;
  pending : gset Z;
  chans : gmap Z chan;
  cache : gmap decisionKey cachedDecision;
  scopes : gmap scopeKey DecisionScope;
  calls : gmap nat call;
  log : list logged
}.

Definition newRemoteDecider (t : Z) : remoteDecider :=
  mkDecider t 0 0 false None noBinding 0 ∅ ∅ ∅ ∅ ∅ [].

(** *** Updates *)

Definition with_cache (c : gmap decisionKey cachedDecision) (d : remoteDecider) : remoteDecider :=
  mkDecider (now d) (gen d) (epoch d) (ctrl d) (seal d) (binding d) (nextID d) (pending d) (chans d)
    c (scopes d) (calls d) (log d).
Definition with_scopes (c : gmap scopeKey DecisionScope) (d : remoteDecider) : remoteDecider :=
  mkDecider (now d) (gen d) (epoch d) (ctrl d) (seal d) (binding d) (nextID d) (pending d) (chans d)
    (cache d) c (calls d) (log d).
Definition with_table (p : gset Z) (c : gmap Z chan) (d : remoteDecider) : remoteDecider :=
  mkDecider (now d) (gen d) (epoch d) (ctrl d) (seal d) (binding d) (nextID d) p c
    (cache d) (scopes d) (calls d) (log d).
Definition with_session (g : Z) (c : bool) (k : option nat) (b : sessionBinding) (d : remoteDecider)
    : remoteDecider :=
  mkDecider (now d) g (epoch d) c k b (nextID d) (pending d) (chans d) (cache d) (scopes d) (calls d) (log d).
Definition set_pc (th : nat) (q : question) (p : pc) (d : remoteDecider) : remoteDecider :=
  mkDecider (now d) (gen d) (epoch d) (ctrl d) (seal d) (binding d) (nextID d) (pending d) (chans d)
    (cache d) (scopes d) (<[th := mkCall q p]> (calls d)) (log d).
Definition record (l : logged) (d : remoteDecider) : remoteDecider :=
  mkDecider (now d) (gen d) (epoch d) (ctrl d) (seal d) (binding d) (nextID d) (pending d) (chans d)
    (cache d) (scopes d) (calls d) (log d ++ [l]).

(** ** rpc_table.go *)

(** [register]: a fresh channel for the next id. *)
Definition register (d : remoteDecider) : Z * remoteDecider :=
  let id := (nextID d + 1)%Z in
  (id, mkDecider (now d) (gen d) (epoch d) (ctrl d) (seal d) (binding d) id ({[id]} ∪ pending d)
         (<[id := ChanEmpty]> (chans d)) (cache d) (scopes d) (calls d) (log d)).

Definition complete (id : Z) (a : DecisionAnswer) (d : remoteDecider) : remoteDecider :=
  if bool_decide (id ∈ pending d)
  then with_table (pending d ∖ {[id]}) (<[id := ChanFull a]> (chans d)) d
  else d.

Definition closeAll (d : remoteDecider) : remoteDecider :=
  with_table ∅
    (map_imap (fun id c => Some (if bool_decide (id ∈ pending d) then ChanClosed else c)) (chans d)) d.

Definition rpcDeliver (g : Z) (a : DecisionAnswer) (d : remoteDecider) : remoteDecider :=
  if (gen d =? g)%Z then complete (AnswerID a) a d else d.

Definition rpcForget (g id : Z) (d : remoteDecider) : remoteDecider :=
  if (gen d =? g)%Z then with_table (pending d ∖ {[id]}) (chans d) d else d.

(** ** Sessions and flushes *)

Definition clear_caches (d : remoteDecider) : remoteDecider :=
  mkDecider (now d) (gen d) (epoch d + 1) (ctrl d) (seal d) (binding d) (nextID d) (pending d) (chans d)
    ∅ ∅ (calls d) (log d ++ [LReset]).

Definition resetLocked (d : remoteDecider) : remoteDecider := closeAll (clear_caches d).

Definition attach (k : nat) (d : remoteDecider) : remoteDecider :=
  let d := resetLocked d in with_session (gen d + 1) true (Some k) noBinding d.

Definition bind (g : Z) (orgID agentID : string) (d : remoteDecider) : remoteDecider :=
  if negb (gen d =? g)%Z || bool_decide (orgID = "") || bool_decide (agentID = "") then d
  else with_session (gen d) (ctrl d) (seal d) (mkBinding orgID agentID) d.

Definition detach (g : Z) (d : remoteDecider) : remoteDecider :=
  if negb (gen d =? g)%Z then d
  else with_session (gen d) false None noBinding (resetLocked d).

Definition flush (d : remoteDecider) : remoteDecider := clear_caches d.

(** ** Keys *)
Section WithCrypto.
Context `{lower : UnicodeLower}.
(** [sha256.Sum256] and HPKE opening with a session key. *)
Context (sha256 : string -> string).
Context (unseal : nat -> sessionBinding -> string -> list byte -> option (list byte)).

Definition scopeKeyOf (req : egressRequest) : scopeKey :=
  mkScopeKey (ToLower (r_host req)) (r_port req) (r_tls req) (r_decrypted req)
    (sha256 (r_auth req)) (r_exit req).

Definition buildRequestKey (sk : scopeKey) (req : egressRequest) (scope : DecisionScope) (known : bool)
    : decisionKey :=
  mkKey DecisionActionEgressRequest "" "" (s_host sk) (s_port sk)
    (if negb known || ScopeMethod scope then r_method req else "")
    (if negb known || ScopePath scope then r_path req else "")
    (s_tls sk) (s_decrypted sk) (s_auth sk) (s_exit sk).

Definition noScope : DecisionScope := mkScope false false.

Definition requestKeyLocked (req : egressRequest) (d : remoteDecider) : decisionKey :=
  let sk := scopeKeyOf req in
  match scopes d !! sk with
  | Some scope => buildRequestKey sk req scope true
  | None => buildRequestKey sk req noScope false
  end.

Definition connectKey (connect kind : string) : decisionKey :=
  mkKey DecisionActionConnect connect kind "" 0 "" "" false false "" "".

(** The key a question is looked up under. *)
Definition lookupKey (q : question) (d : remoteDecider) : decisionKey :=
  match q with
  | QConnect connect kind => connectKey connect kind
  | QRequest req => requestKeyLocked req d
  end.

(** The scope of an answer: everything matters unless it says otherwise. *)
Definition answerScope (a : DecisionAnswer) : DecisionScope := default (mkScope true true) (Scope a).

(** The key an answer is stored under. *)
Definition storeKey (q : question) (a : DecisionAnswer) : decisionKey :=
  match q with
  | QConnect connect kind => connectKey connect kind
  | QRequest req => buildRequestKey (scopeKeyOf req) req (answerScope a) true
  end.

(** ** The cache *)

Definition lookupLocked (key : decisionKey) (d : remoteDecider) : option cachedDecision * remoteDecider :=
  match cache d !! key with
  | None => (None, d)
  | Some c =>
      if negb (now d <? c_expires c)%Z then (None, with_cache (delete key (cache d)) d)
      else (Some c, d)
  end.

(** The entry that expires first. *)
Fixpoint oldest (l : list (decisionKey * cachedDecision)) (best : option (decisionKey * Z)) : option decisionKey :=
  match l with
  | [] => fst <$> best
  | (k, c) :: l' =>
      match best with
      | Some (_, e) => if (c_expires c <? e)%Z then oldest l' (Some (k, c_expires c)) else oldest l' best
      | None => oldest l' (Some (k, c_expires c))
      end
  end.

Definition pruneLocked (t : Z) (c : gmap decisionKey cachedDecision) : gmap decisionKey cachedDecision :=
  let c := filter (fun kv => (t < c_expires kv.2)%Z) c in
  if (Z.of_nat (size c) <? maxCachedDecisions)%Z then c
  else match oldest (map_to_list c) None with Some k => delete k c | None => c end.

Definition remember (g e : Z) (th : nat) (q : question) (a : DecisionAnswer) (inject : option injection)
    (d : remoteDecider) : remoteDecider :=
  let ttl := Z.min (TTLSeconds a) MaxDecisionTTLSeconds in
  if (ttl <=? 0)%Z then d
  else if negb (gen d =? g)%Z || negb (epoch d =? e)%Z then d
  else
    let c := if (maxCachedDecisions <=? Z.of_nat (size (cache d)))%Z then pruneLocked (now d) (cache d)
             else cache d in
    record (LRemembered th q a inject (now d))
      (with_cache (<[storeKey q a := mkCached (Allowed a) (Reason a) inject (now d + ttl * second)]> c) d).

(** The first half of [rememberRequest]. *)
Definition rememberScope (g e : Z) (req : egressRequest) (a : DecisionAnswer) (d : remoteDecider)
    : remoteDecider :=
  let sk := scopeKeyOf req in
  if (gen d =? g)%Z && (epoch d =? e)%Z then
    let sc := if negb (bool_decide (is_Some (scopes d !! sk)))
                 && (maxCachedDecisions <=? Z.of_nat (size (scopes d)))%Z
              then match map_to_list (scopes d) with
                   | (victim, _) :: _ => delete victim (scopes d)
                   | [] => scopes d
                   end
              else scopes d in
    with_scopes (<[sk := answerScope a]> sc) d
  else d.

(** [open]: the credential of an answer for the session it was asked in. *)
Definition open (g : Z) (cred : SealedCredential) (d : remoteDecider) : res injection :=
  if negb (gen d =? g)%Z then Fail errDecisionLost
  else
    match seal d with
    | None => Fail errDecisionLost
    | Some k =>
        let h := CanonicalHeaderKey (TrimSpace (cred_header cred)) in
        if negb (validHeaderName h) then Fail errCredentialMalformed
        else
          match unseal k (binding d) (cred_name cred) (cred_sealed cred) with
          | None => Fail errCredentialUnsealed
          | Some value =>
              if negb (validHeaderValue value) then Fail errCredentialMalformed
              else Ok (mkInjection h (string_of value))
          end
    end.

(** ** Events *)

Inductive event :=
| Clock (t : Z)
| Attach (k : nat)
| Bind (g : Z) (orgID agentID : string)
| Detach (g : Z)
| Flush
| Deliver (g : Z) (a : DecisionAnswer)
| Start (th : nat) (q : question)
| Ask (th : nat)
| SendFail (th : nat) (err : goerr)
| Recv (th : nat)
| Timeout (th : nat) (err : goerr)
| Judge (th : nat)
| RememberScope (th : nat)
| Remember (th : nat).

(** The lookup a call starts with. *)
Definition start (th : nat) (q : question) (d : remoteDecider) : remoteDecider :=
  match lookupLocked (lookupKey q d) d with
  | (Some c, d) =>
      let o := verdict (c_allowed c) (c_reason c) (c_inject c) in
      record (LHit th q o (now d)) (set_pc th q (Finished o) d)
  | (None, d) => set_pc th q Missed d
  end.

Definition is_sealed (q : question) : bool := match q with QConnect _ _ => false | QRequest _ => true end.

(** [ask], up to the unlock. *)
Definition ask (th : nat) (q : question) (d : remoteDecider) : remoteDecider :=
  if negb (ctrl d) then set_pc th q (Finished (Failed errNotConnected)) d
  else if is_sealed q && (bool_decide (seal d = None) || bool_decide (binding d = noBinding))
  then set_pc th q (Finished (Failed errSessionUnbound)) d
  else
    let '(id, d) := register d in
    record (LAsked th q) (set_pc th q (Waiting id (gen d) (epoch d)) d).

(** What [checkRequest] does with an answer before remembering it. *)
Definition judge (th : nat) (q : question) (a : DecisionAnswer) (g e : Z) (d : remoteDecider)
    : remoteDecider :=
  match q with
  | QConnect _ _ => set_pc th q (Judged a None g e) d
  | QRequest req =>
      if negb (Allowed a) then set_pc th q (Judged a None g e) d
      else
        match Credential a with
        | None => set_pc th q (Judged a None g e) d
        | Some cred =>
            match open g cred d with
            | Fail err => set_pc th q (Finished (Failed err)) d
            | Ok inject =>
                if negb (r_tls req) then set_pc th q (Finished (Denied "credential_requires_tls")) d
                else set_pc th q (Judged a (Some inject) g e) d
            end
        end
  end.

Definition finish (th : nat) (q : question) (a : DecisionAnswer) (inject : option injection) (g e : Z)
    (d : remoteDecider) : remoteDecider :=
  set_pc th q (Finished (verdict (Allowed a) (Reason a) inject)) (remember g e th q a inject d).

(** The next action of a call. *)
Definition call_step (ev : event) (th : nat) (c : call) (d : remoteDecider) : option remoteDecider :=
  let q := question_of c in
  match ev, at_pc c with
  | Ask _, Missed => Some (ask th q d)
  | SendFail _ err, Waiting id g _ =>
      Some (set_pc th q (Finished (Failed (EWrap "send decision request: " err ""))) (rpcForget g id d))
  | Recv _, Waiting id g e =>
      match chans d !! id with
      | Some (ChanFull a) => Some (set_pc th q (Answered a g e) d)
      | Some ChanClosed => Some (set_pc th q (Finished (Failed errDecisionLost)) d)
      | _ => None
      end
  | Timeout _ err, Waiting id g _ =>
      Some (set_pc th q (Finished (Failed (EWrap "decision request: " err ""))) (rpcForget g id d))
  | Judge _, Answered a g e => Some (judge th q a g e d)
  | RememberScope _, Judged a inject g e =>
      match q with
      | QRequest req => Some (set_pc th q (Scoped a inject g e) (rememberScope g e req a d))
      | QConnect _ _ => None
      end
  | Remember _, Judged a inject g e =>
      match q with
      | QConnect _ _ => Some (finish th q a inject g e d)
      | QRequest _ => None
      end
  | Remember _, Scoped a inject g e => Some (finish th q a inject g e d)
  | _, _ => None
  end.

Definition event_call (ev : event) : option nat :=
  match ev with
  | Ask th | SendFail th _ | Recv th | Timeout th _ | Judge th | RememberScope th | Remember th => Some th
  | _ => None
  end.

Definition step (ev : event) (d : remoteDecider) : option remoteDecider :=
  match event_call ev with
  | Some th => match calls d !! th with Some c => call_step ev th c d | None => None end
  | None =>
      match ev with
      | Clock t =>
          Some (mkDecider t (gen d) (epoch d) (ctrl d) (seal d) (binding d) (nextID d) (pending d)
                  (chans d) (cache d) (scopes d) (calls d) (log d))
      | Attach k => Some (attach k d)
      | Bind g o a => Some (bind g o a d)
      | Detach g => Some (detach g d)
      | Flush => Some (flush d)
      | Deliver g a => Some (record (LDelivered g a) (rpcDeliver g a d))
      | Start th q =>
          match calls d !! th with Some _ => None | None => Some (start th q d) end
      | _ => None
      end
  end.

Fixpoint run (es : list event) (d : remoteDecider) : option remoteDecider :=
  match es with
  | [] => Some d
  | ev :: es' => match step ev d with Some d' => run es' d' | None => None end
  end.

Inductive reachable : remoteDecider -> Prop :=
| reach_new t : reachable (newRemoteDecider t)
| reach_step ev d d' : reachable d -> step ev d = Some d' -> reachable d'.

Lemma decider_run_reachable es d d' : reachable d -> run es d = Some d' -> reachable d'.
Proof.
  revert d. induction es as [|ev es IH]; intros d Hd; simpl; [by intros [= <-]|].
  destruct (step ev d) as [d1|] eqn:E; [|done]. apply IH. by eapply reach_step.
Qed.

(** ** Provenance *)

Definition is_reset (l : logged) : bool := match l with LReset => true | _ => false end.
Definition no_reset (l : list logged) : Prop := existsb is_reset l = false.

Lemma no_reset_app l k : no_reset (l ++ k) <-> no_reset l /\ no_reset k.
Proof. unfold no_reset. rewrite existsb_app, orb_false_iff. done. Qed.

Definition ttl_of (a : DecisionAnswer) : Z := Z.min (TTLSeconds a) MaxDecisionTTLSeconds.

Definition entry_of (a : DecisionAnswer) (inject : option injection) (t : Z) : cachedDecision :=
  mkCached (Allowed a) (Reason a) inject (t + ttl_of a * second).

(** The question was asked and nothing was flushed since. *)
Definition asked_since (l : list logged) (th : nat) (q : question) : Prop :=
  exists l1 l2, l = l1 ++ LAsked th q :: l2 /\ no_reset l2.

(** The entry is the answer to a question asked since the last flush. *)
Definition prov (l : list logged) (key : decisionKey) (c : cachedDecision) : Prop :=
  exists l1 l2 l3 th q a inject t,
    l = l1 ++ LAsked th q :: l2 ++ LRemembered th q a inject t :: l3 /\ no_reset (l2 ++ l3) /\
    storeKey q a = key /\ c = entry_of a inject t.

(** [key] is a key the question may be looked up under. *)
Definition looks_up (q : question) (key : decisionKey) : Prop :=
  match q with
  | QConnect connect kind => key = connectKey connect kind
  | QRequest req => exists scope known, key = buildRequestKey (scopeKeyOf req) req scope known
  end.

Definition hit_ok (l : list logged) (q : question) (o : outcome) (t : Z) : Prop :=
  exists key c, prov l key c /\ looks_up q key /\ (t < c_expires c)%Z /\
    o = verdict (c_allowed c) (c_reason c) (c_inject c).

Definition pc_epoch (p : pc) : option Z :=
  match p with
  | Waiting _ _ e | Answered _ _ e | Judged _ _ _ e | Scoped _ _ _ e => Some e
  | _ => None
  end.

Record cache_inv (d : remoteDecider) : Prop := {
  ci_cache : forall key c, cache d !! key = Some c -> prov (log d) key c;
  ci_calls : forall th q p e, calls d !! th = Some (mkCall q p) -> pc_epoch p = Some e ->
    (e <= epoch d)%Z /\ (e = epoch d -> asked_since (log d) th q);
  ci_hits : forall l1 th q o t l2, log d = l1 ++ LHit th q o t :: l2 -> hit_ok l1 q o t
}.

Lemma asked_since_app l k th q : asked_since l th q -> no_reset k -> asked_since (l ++ k) th q.
Proof.
  intros (l1 & l2 & -> & Hn) Hk. exists l1, (l2 ++ k). rewrite <- app_assoc. split; [done|].
  by apply no_reset_app.
Qed.

Lemma prov_app l k key c : prov l key c -> no_reset k -> prov (l ++ k) key c.
Proof.
  intros (l1 & l2 & l3 & th & q & a & i & t & -> & Hn & Hk & Hc) Hr.
  exists l1, l2, (l3 ++ k), th, q, a, i, t. split_and!; [|by rewrite app_assoc; apply no_reset_app|done..].
  rewrite <- !app_assoc. simpl. by rewrite <- !app_assoc.
Qed.

Lemma prov_remember l th q a inject t :
  asked_since l th q -> prov (l ++ [LRemembered th q a inject t]) (storeKey q a) (entry_of a inject t).
Proof.
  intros (l1 & l2 & -> & Hn). exists l1, l2, [], th, q, a, inject, t.
  rewrite <- app_assoc, app_nil_r. done.
Qed.

(** An action that flushes nothing: what it may add to the log, the cache and
    the calls. *)
Lemma cache_inv_frame d d' :
  cache_inv d -> epoch d' = epoch d -> log d' = log d ->
  (forall key c, cache d' !! key = Some c -> cache d !! key = Some c) ->
  (forall th q p e, calls d' !! th = Some (mkCall q p) -> pc_epoch p = Some e ->
     exists p', calls d !! th = Some (mkCall q p') /\ pc_epoch p' = Some e) ->
  cache_inv d'.
Proof.
  intros [H1 H2 H3] He Hl Hc Hcalls. split; rewrite ?Hl, ?He; [eauto| |done].
  intros th q p e Hp Hpc. destruct (Hcalls th q p e Hp Hpc) as (p' & ? & ?). eauto.
Qed.

Lemma cache_inv_record d x :
  cache_inv d -> is_reset x = false ->
  (forall th q o t, x = LHit th q o t -> hit_ok (log d) q o t) -> cache_inv (record x d).
Proof.
  intros [H1 H2 H3] Hx Hh. assert (Hr : no_reset [x]) by (unfold no_reset; simpl; by rewrite Hx).
  split; simpl.
  - intros key c Hc. apply prov_app; auto.
  - intros th q p e Hp Hpc. destruct (H2 th q p e Hp Hpc) as [? Ha]. split; [done|].
    intros He. apply asked_since_app; auto.
  - intros l1 th q o t l2 [(-> & Hx' & <-)|(l2' & -> & E)]%snoc_split; eauto.
Qed.

(** A flush: the epoch moves on and the cache is empty. *)
Lemma cache_inv_clear d : cache_inv d -> cache_inv (clear_caches d).
Proof.
  intros [H1 H2 H3]. split; simpl.
  - intros key c. by rewrite lookup_empty.
  - intros th q p e Hp Hpc. destruct (H2 th q p e Hp Hpc) as [Hle _]. split; lia.
  - intros l1 th q o t l2 [(-> & Hx' & <-)|(l2' & -> & E)]%snoc_split; [done|eauto].
Qed.

Lemma cache_inv_set_pc d th q p :
  cache_inv d ->
  (forall e, pc_epoch p = Some e -> exists p', calls d !! th = Some (mkCall q p') /\ pc_epoch p' = Some e) ->
  cache_inv (set_pc th q p d).
Proof.
  intros Hi Hp. apply (cache_inv_frame d); [done..|]. intros th' q' p' e. simpl.
  destruct (decide (th = th')) as [<-|Hne]; [rewrite lookup_insert_eq|rewrite lookup_insert_ne by done; eauto].
  intros [= <- <-]. apply Hp.
Qed.

Lemma cache_inv_done d th q o : cache_inv d -> cache_inv (set_pc th q (Finished o) d).
Proof. intros. by apply cache_inv_set_pc. Qed.

(** Changes of the table, of the session and of the clock. *)
Lemma cache_inv_same d d' :
  cache_inv d -> epoch d' = epoch d -> log d' = log d -> cache d' = cache d -> calls d' = calls d ->
  cache_inv d'.
Proof.
  intros Hi He Hl Hc Hk. apply (cache_inv_frame d); [done..| |]; rewrite ?Hc, ?Hk; eauto.
Qed.

Lemma cache_inv_reset d : cache_inv d -> cache_inv (resetLocked d).
Proof. intros H%cache_inv_clear. by eapply cache_inv_same. Qed.

Lemma lookupKey_looks_up q d : looks_up q (lookupKey q d).
Proof.
  destruct q as [connect kind|req]; [done|]. simpl. unfold requestKeyLocked.
  destruct (scopes d !! scopeKeyOf req); by eexists _, _.
Qed.

Lemma cache_inv_start d th q : cache_inv d -> cache_inv (start th q d).
Proof.
  intros Hi. unfold start, lookupLocked.
  destruct (cache d !! lookupKey q d) as [c|] eqn:E; [|by apply cache_inv_set_pc].
  destruct (Z.ltb_spec (now d) (c_expires c)) as [Hl|Hl]; cbn [negb].
  - apply cache_inv_record; [by apply cache_inv_done|done|]. intros th' q' o t [= <- <- <- <-].
    exists (lookupKey q d), c. split_and!; [by apply (ci_cache _ Hi)|apply lookupKey_looks_up|done|done].
  - apply cache_inv_set_pc; [|done]. apply (cache_inv_frame d); [done..| |]; simpl; [|eauto].
    intros key c' [_ ?]%lookup_delete_Some. done.
Qed.

Lemma cache_inv_ask d th q : cache_inv d -> cache_inv (ask th q d).
Proof.
  intros Hi. unfold ask. destruct (negb (ctrl d)); [by apply cache_inv_done|].
  destruct (_ && _)%bool; [by apply cache_inv_done|]. simpl.
  pose proof Hi as [H1 H2 H3]. split; simpl.
  - intros key c Hc. apply prov_app; [by apply H1|done].
  - intros th' q' p e. destruct (decide (th = th')) as [<-|Hne].
    + rewrite lookup_insert_eq. intros [= <- <-]. simpl. intros [= <-]. split; [lia|].
      intros _. exists (log d), []. done.
    + rewrite lookup_insert_ne by done. intros Hp Hpc. destruct (H2 _ _ _ _ Hp Hpc) as [? Ha].
      split; [done|]. intros He. apply asked_since_app; [auto|done].
  - intros l1 th' q' o t l2 [(-> & Hx' & <-)|(l2' & -> & E)]%snoc_split; [done|eauto].
Qed.

Lemma pruneLocked_sub t c key x : pruneLocked t c !! key = Some x -> c !! key = Some x.
Proof.
  unfold pruneLocked. destruct (_ <? _)%Z; [by intros [? _]%map_lookup_filter_Some|].
  destruct (oldest _ _); [intros [_ ?]%lookup_delete_Some|intros ?];
    by eapply map_lookup_filter_Some_1_1.
Qed.

Lemma cache_inv_remember d g e th q a inject :
  cache_inv d -> (e = epoch d -> asked_since (log d) th q) ->
  cache_inv (remember g e th q a inject d).
Proof.
  intros Hi Ha. unfold remember. destruct (_ <=? 0)%Z; [done|].
  destruct (_ || _)%bool eqn:Hb; [done|]. apply orb_false_iff in Hb as [_ Hb].
  apply negb_false_iff, Z.eqb_eq in Hb. symmetry in Hb. specialize (Ha Hb).
  pose proof Hi as [H1 H2 H3]. split; simpl.
  - intros key c. 
    set (base := if (maxCachedDecisions <=? Z.of_nat (size (cache d)))%Z then pruneLocked (now d) (cache d)
                 else cache d).
    assert (Hbase : forall k x, base !! k = Some x -> cache d !! k = Some x).
    { intros k x. subst base. case_match; [apply pruneLocked_sub|done]. }
    destruct (decide (storeKey q a = key)) as [<-|Hne].
    + rewrite lookup_insert_eq. intros [= <-]. by apply prov_remember.
    + rewrite lookup_insert_ne by done. intros Hc%Hbase. apply prov_app; [by apply H1|done].
  - intros th' q' p e' Hp Hpc. destruct (H2 _ _ _ _ Hp Hpc) as [? Ha']. split; [done|].
    intros He. apply asked_since_app; [auto|done].
  - intros l1 th' q' o t l2 [(-> & Hx' & <-)|(l2' & -> & E)]%snoc_split; [done|eauto].
Qed.

Lemma calls_remember g e th q a inject d : calls (remember g e th q a inject d) = calls d.
Proof. unfold remember. destruct (_ <=? 0)%Z; [done|]. by destruct (_ || _)%bool. Qed.

Lemma cache_inv_finish d th q a inject g e :
  cache_inv d -> (e = epoch d -> asked_since (log d) th q) -> cache_inv (finish th q a inject g e d).
Proof. intros. unfold finish. by apply cache_inv_done, cache_inv_remember. Qed.

Lemma cache_inv_forget d g id : cache_inv d -> cache_inv (rpcForget g id d).
Proof. intros H. unfold rpcForget. case_match; [|done]. by eapply cache_inv_same. Qed.

Lemma cache_inv_judge d th q a g e c :
  cache_inv d -> calls d !! th = Some c -> question_of c = q -> pc_epoch (at_pc c) = Some e ->
  cache_inv (judge th q a g e d).
Proof.
  intros Hi Hc <- Hp. assert (Hj : forall inj, cache_inv (set_pc th (question_of c) (Judged a inj g e) d)).
  { intros inj. apply cache_inv_set_pc; [done|]. intros e' [= <-]. exists (at_pc c). by destruct c. }
  unfold judge. destruct (question_of c) as [|req]; [done|]. destruct (negb _); [done|].
  destruct (Credential a) as [cred|]; [|done].
  destruct (open g cred d) as [inj|err]; [|by apply cache_inv_done].
  destruct (negb (r_tls req)); [by apply cache_inv_done|done].
Qed.

Lemma cache_inv_scope d th q p g e req a :
  cache_inv d ->
  (forall e, pc_epoch p = Some e -> exists p', calls d !! th = Some (mkCall q p') /\ pc_epoch p' = Some e) ->
  cache_inv (set_pc th q p (rememberScope g e req a d)).
Proof.
  intros Hi Hp. apply cache_inv_set_pc.
  - unfold rememberScope. destruct (_ && _)%bool; [|done]. by eapply cache_inv_same.
  - unfold rememberScope. by destruct (_ && _)%bool.
Qed.

Lemma cache_inv_call_step d ev th c d' :
  cache_inv d -> calls d !! th = Some c -> call_step ev th c d = Some d' -> cache_inv d'.
Proof.
  intros Hi Hc Hs. destruct c as [q p].
  assert (He : forall e, pc_epoch p = Some e -> e = epoch d -> asked_since (log d) th q)
    by (intros e Hp; by apply (ci_calls _ Hi th q p e)).
  unfold call_step in Hs. simpl in Hs.
  destruct ev, p; try done; simplify_eq.
  - by apply cache_inv_ask.
  - by apply cache_inv_done, cache_inv_forget.
  - destruct (chans d !! id) as [[]|]; simplify_eq; [|by apply cache_inv_done].
    apply cache_inv_set_pc; [done|]. intros e' [= <-]. by eexists.
  - by apply cache_inv_done, cache_inv_forget.
  - by eapply cache_inv_judge.
  - destruct q; simplify_eq. apply cache_inv_scope; [done|]. intros e' [= <-]. by eexists.
  - destruct q; simplify_eq. apply cache_inv_finish; eauto.
  - apply cache_inv_finish; eauto.
Qed.

Lemma cache_inv_step d ev d' : cache_inv d -> step ev d = Some d' -> cache_inv d'.
Proof.
  intros Hi. unfold step. destruct (event_call ev) as [th|].
  - destruct (calls d !! th) as [c|] eqn:Hc; [|done]. by apply cache_inv_call_step.
  - destruct ev; try done; intros Hs.
    + simplify_eq. by eapply cache_inv_same.
    + simplify_eq. eapply cache_inv_same; [by apply cache_inv_reset|done..].
    + simplify_eq. unfold bind. destruct (_ || _)%bool; [done|]. by eapply cache_inv_same.
    + simplify_eq. unfold detach. destruct (negb _); [done|].
      eapply cache_inv_same; [by apply cache_inv_reset|done..].
    + simplify_eq. by apply cache_inv_clear.
    + simplify_eq. apply cache_inv_record; [|done..]. unfold rpcDeliver, complete.
      repeat case_match; [by eapply cache_inv_same|done..].
    + destruct (calls d !! th); simplify_eq. by apply cache_inv_start.
Qed.

Lemma reachable_cache_inv d : reachable d -> cache_inv d.
Proof.
  induction 1 as [t|ev d d' _ IH Hs]; [|by eapply cache_inv_step].
  split; simpl; [intros key c; by rewrite lookup_empty|intros th q p e; by rewrite lookup_empty|].
  intros l1 th q o t' l2 E. by destruct l1.
Qed.

(** [q] asks what [q0] asked, as far as the answer [a] depends on it. *)
Definition same_question (q0 : question) (a : DecisionAnswer) (q : question) : Prop :=
  match q0, q with
  | QConnect connect0 kind0, QConnect connect kind => connect0 = connect /\ kind0 = kind
  | QRequest r0, QRequest r =>
      scopeKeyOf r0 = scopeKeyOf r /\
      (ScopeMethod (answerScope a) = true -> r_method r0 <> "" -> r_method r = r_method r0) /\
      (ScopePath (answerScope a) = true -> r_path r0 <> "" -> r_path r = r_path r0)
  | _, _ => False
  end.

Lemma looks_up_same q0 a q : looks_up q (storeKey q0 a) -> same_question q0 a q.
Proof.
  destruct q0 as [c0 k0|r0], q as [c k|r]; simpl; try done.
  - intros [= -> ->]. done.
  - by intros (scope & known & [=]).
  - intros (scope & known & [= E1 E2 E3 E4 E5 E6 E7 E8]). split; [|split].
    + unfold scopeKeyOf in *. simpl in *. congruence.
    + intros Hm Hne. rewrite Hm in E3. destruct (negb known || ScopeMethod scope)%bool; congruence.
    + intros Hm Hne. rewrite Hm in E4. destruct (negb known || ScopePath scope)%bool; congruence.
Qed.


(** *** Bounds *)

Definition sizes_ok (d : remoteDecider) : Prop :=
  (Z.of_nat (size (cache d)) <= maxCachedDecisions)%Z /\
  (Z.of_nat (size (scopes d)) <= maxCachedDecisions)%Z.

Lemma oldest_elem l : forall best k,
  oldest l best = Some k -> (exists c, (k, c) ∈ l) \/ (exists e, best = Some (k, e)).
Proof.
  induction l as [|[k' c] l IH]; intros best k; simpl.
  - destruct best as [[k' e]|]; [|done]. simpl. intros [= ->]. right. by eexists.
  - destruct best as [[kb e]|]; [case_match|]; intros H'; apply IH in H' as [[c' Hc]|[e' He]];
      simplify_eq; try (left; exists c'; by right); try (left; exists c; by left).
    right. by eexists.
Qed.

Lemma oldest_None l best : oldest l best = None -> l = [] /\ best = None.
Proof.
  revert best. induction l as [|[k c] l IH]; intros best; simpl; [by destruct best|].
  destruct best as [[kb e]|]; [case_match|]; intros H'; apply IH in H' as [_ ?]; done.
Qed.

Lemma size_insert_le (m : gmap decisionKey cachedDecision) k x : size (<[k := x]> m) <= S (size m).
Proof.
  destruct (m !! k) as [y|] eqn:E; [rewrite map_size_insert_Some by done; lia|].
  rewrite map_size_insert_None by done. lia.
Qed.

Lemma pruneLocked_size t c :
  (Z.of_nat (size c) <= maxCachedDecisions)%Z ->
  (Z.of_nat (size (pruneLocked t c)) < maxCachedDecisions)%Z.
Proof.
  intros Hc. unfold pruneLocked. set (c' := filter _ c).
  assert (Hs : size c' <= size c) by (apply map_subseteq_size, map_filter_subseteq).
  destruct (Z.ltb_spec (Z.of_nat (size c')) maxCachedDecisions) as [Hl|Hl]; [done|].
  destruct (oldest (map_to_list c') None) as [k|] eqn:E.
  - apply oldest_elem in E as [[x Hx%elem_of_map_to_list]|[e He]]; [|done].
    rewrite map_size_delete_Some by done. assert (size c' <> 0) by (apply map_size_ne_0_lookup; eauto).
    lia.
  - apply oldest_None in E as [E _]. apply map_to_list_empty_iff in E. rewrite E in Hl.
    rewrite map_size_empty in Hl. unfold maxCachedDecisions in Hl. lia.
Qed.

Lemma sizes_remember g e th q a inject d : sizes_ok d -> sizes_ok (remember g e th q a inject d).
Proof.
  intros [Hc Hs]. unfold remember. destruct (_ <=? 0)%Z; [done|]. destruct (_ || _)%bool; [done|].
  split; [|done]. simpl. destruct (Z.leb_spec maxCachedDecisions (Z.of_nat (size (cache d)))) as [Hl|Hl].
  - pose proof (pruneLocked_size (now d) (cache d) Hc).
    pose proof (size_insert_le (pruneLocked (now d) (cache d)) (storeKey q a)
      (mkCached (Allowed a) (Reason a) inject (now d + Z.min (TTLSeconds a) MaxDecisionTTLSeconds * second))).
    lia.
  - pose proof (size_insert_le (cache d) (storeKey q a)
      (mkCached (Allowed a) (Reason a) inject (now d + Z.min (TTLSeconds a) MaxDecisionTTLSeconds * second))).
    lia.
Qed.

Lemma sizes_scope g e req a d : sizes_ok d -> sizes_ok (rememberScope g e req a d).
Proof.
  intros [Hc Hs]. unfold rememberScope. destruct (_ && _)%bool; [|done]. split; [done|]. simpl.
  destruct (scopes d !! scopeKeyOf req) as [sc|] eqn:E.
  - rewrite bool_decide_true by done. simpl. by rewrite map_size_insert_Some.
  - rewrite bool_decide_false by (by intros [? ?]). simpl.
    destruct (Z.leb_spec maxCachedDecisions (Z.of_nat (size (scopes d)))) as [Hl|Hl].
    + destruct (map_to_list (scopes d)) as [|[v x] rest] eqn:El.
      * apply map_to_list_empty_iff in El. rewrite El, map_size_empty in Hl.
        unfold maxCachedDecisions in Hl. lia.
      * assert (Hv : scopes d !! v = Some x) by (apply elem_of_map_to_list; rewrite El; by left).
        assert (size (scopes d) <> 0) by (apply map_size_ne_0_lookup; eauto).
        rewrite map_size_insert_None by (by rewrite lookup_delete_None; right).
        rewrite map_size_delete_Some by done. lia.
    + rewrite map_size_insert_None by done. lia.
Qed.

Lemma sizes_less d d' :
  sizes_ok d -> size (cache d') <= size (cache d) -> size (scopes d') <= size (scopes d) -> sizes_ok d'.
Proof. unfold sizes_ok. lia. Qed.

Lemma sizes_call_step ev th c d d' : sizes_ok d -> call_step ev th c d = Some d' -> sizes_ok d'.
Proof.
  intros Hd Hs. destruct c as [q p]. unfold call_step in Hs. simpl in Hs.
  destruct ev, p; try done; simplify_eq.
  - unfold ask. destruct (negb (ctrl d)); [done|]. by destruct (_ && _)%bool.
  - unfold rpcForget. by case_match.
  - by repeat (case_match; simplify_eq).
  - unfold rpcForget. by case_match.
  - unfold judge. repeat case_match; done.
  - destruct q; simplify_eq. by apply (sizes_scope g e req a d).
  - destruct q; simplify_eq. by apply (sizes_remember g e th _ a inject d).
  - by apply (sizes_remember g e th q a inject d).
Qed.

Lemma sizes_empty : (Z.of_nat (size (∅ : gmap decisionKey cachedDecision)) <= maxCachedDecisions)%Z /\
  (Z.of_nat (size (∅ : gmap scopeKey DecisionScope)) <= maxCachedDecisions)%Z.
Proof. rewrite !map_size_empty. unfold maxCachedDecisions. lia. Qed.

Lemma sizes_step ev d d' : sizes_ok d -> step ev d = Some d' -> sizes_ok d'.
Proof.
  intros Hd. unfold step. destruct (event_call ev) as [th|].
  - destruct (calls d !! th) as [c|]; [|done]. by apply sizes_call_step.
  - destruct ev; try done; intros Hs; simplify_eq; try done.
    + unfold bind. by destruct (_ || _)%bool.
    + unfold detach. destruct (negb _); [done|]. apply sizes_empty.
    + unfold rpcDeliver, complete. by repeat case_match.
    + destruct (calls d !! th); simplify_eq. unfold start, lookupLocked.
      destruct (cache d !! lookupKey q d) as [c|] eqn:E; [|done]. destruct (negb _); [|done].
      apply (sizes_less d); [done| |done]. simpl. rewrite map_size_delete_Some by done. lia.
Qed.

(** The cache and the scope table hold at most 4096 entries each, whatever happens. *)
Theorem decision_tables_bounded d :
  reachable d ->
  (Z.of_nat (size (cache d)) <= maxCachedDecisions)%Z /\
  (Z.of_nat (size (scopes d)) <= maxCachedDecisions)%Z.
Proof.
  induction 1 as [t|ev d d' _ IH Hs]; [apply sizes_empty|by eapply sizes_step].
Qed.

(** *** Credentials *)

(** What may be injected, and into which request. *)
Definition inject_ok (q : question) (inject : option injection) : Prop :=
  match inject with
  | None => True
  | Some i =>
      (exists req, q = QRequest req /\ r_tls req = true) /\
      validHeaderName (header i) = true /\ validHeaderValue (bytes_of (inj_value i)) = true
  end.

Definition pc_inject (p : pc) : option injection :=
  match p with
  | Judged _ i _ _ | Scoped _ i _ _ => i
  | Finished (Granted i) => i
  | _ => None
  end.

(** The entry may be served to the questions with this key. *)
Definition entry_inject_ok (key : decisionKey) (c : cachedDecision) : Prop :=
  match c_inject c with
  | None => True
  | Some i =>
      k_action key = DecisionActionEgressRequest /\ k_tls key = true /\
      validHeaderName (header i) = true /\ validHeaderValue (bytes_of (inj_value i)) = true
  end.

Record inject_inv (d : remoteDecider) : Prop := {
  ii_calls : forall th c, calls d !! th = Some c -> inject_ok (question_of c) (pc_inject (at_pc c));
  ii_cache : forall key c, cache d !! key = Some c -> entry_inject_ok key c
}.

Lemma inject_set_pc d th q p : inject_inv d -> inject_ok q (pc_inject p) -> inject_inv (set_pc th q p d).
Proof.
  intros [H1 H2] Hp. split; [|done]. intros th' c. simpl.
  destruct (decide (th = th')) as [<-|Hne]; [rewrite lookup_insert_eq; by intros [= <-]|].
  rewrite lookup_insert_ne by done. apply H1.
Qed.

Lemma inject_same d d' :
  inject_inv d -> calls d' = calls d ->
  (forall key c, cache d' !! key = Some c -> cache d !! key = Some c) -> inject_inv d'.
Proof. intros [H1 H2] Hc Hk. split; [by rewrite Hc|eauto]. Qed.

Lemma open_ok g cred d i :
  open g cred d = Ok i ->
  validHeaderName (header i) = true /\ validHeaderValue (bytes_of (inj_value i)) = true.
Proof.
  unfold open. intros Ho. repeat (case_match; simplify_eq/=).
  rewrite bytes_of_string_of. bool_to_prop. done.
Qed.

Lemma inject_judge d th q a g e : inject_inv d -> inject_inv (judge th q a g e d).
Proof.
  intros Hi. unfold judge. destruct q as [|req]; [by apply inject_set_pc|].
  destruct (negb _); [by apply inject_set_pc|].
  destruct (Credential a) as [cred|]; [|by apply inject_set_pc].
  destruct (open g cred d) as [inj|err] eqn:Eo; [|by apply inject_set_pc].
  destruct (r_tls req) eqn:Et; simpl; [|by apply inject_set_pc].
  apply inject_set_pc; [done|]. simpl. split; [eauto|by eapply open_ok].
Qed.

Lemma inject_finish d th q a inject g e :
  inject_inv d -> inject_ok q inject -> inject_inv (finish th q a inject g e d).
Proof.
  intros Hi Hq. unfold finish. apply inject_set_pc.
  - unfold remember. destruct (_ <=? 0)%Z; [done|]. destruct (_ || _)%bool; [done|].
    destruct Hi as [H1 H2]. split; [done|]. simpl. intros key c.
    destruct (decide (storeKey q a = key)) as [<-|Hne].
    + rewrite lookup_insert_eq. intros [= <-]. unfold entry_inject_ok. simpl.
      destruct inject as [i|]; [|done]. destruct Hq as ((req & -> & Ht) & Hv). simpl.
      split; [done|]. split; [by rewrite Ht|done].
    + rewrite lookup_insert_ne by done. case_match; [intros Hc%pruneLocked_sub|]; eauto.
  - unfold verdict. by destruct (Allowed a).
Qed.

Lemma inject_start d th q : inject_inv d -> inject_inv (start th q d).
Proof.
  intros Hi. unfold start, lookupLocked.
  destruct (cache d !! lookupKey q d) as [c|] eqn:E; [|by apply inject_set_pc].
  destruct (negb _).
  - apply inject_set_pc; [|done]. apply (inject_same d); [done..|].
    intros key c'. cbn [with_cache cache]. intros [_ ?]%lookup_delete_Some. done.
  - apply (inject_same (set_pc th q (Finished (verdict (c_allowed c) (c_reason c) (c_inject c))) d));
      [|done|done].
    apply inject_set_pc; [done|]. pose proof (ii_cache _ Hi _ _ E) as Hc.
    unfold verdict, entry_inject_ok in *. destruct (c_allowed c); [|done]. simpl.
    destruct (c_inject c) as [i|]; [|done]. destruct Hc as (Ha & Ht & Hv). split; [|done].
    destruct q as [|req]; [done|]. exists req. split; [done|].
    simpl in Ht. unfold requestKeyLocked in Ht. by destruct (scopes d !! scopeKeyOf req).
Qed.

Lemma inject_call_step ev th c d d' :
  inject_inv d -> calls d !! th = Some c -> call_step ev th c d = Some d' -> inject_inv d'.
Proof.
  intros Hi Hc Hs. pose proof (ii_calls _ Hi _ _ Hc) as Hp. destruct c as [q p].
  unfold call_step in Hs. simpl in Hs, Hp. destruct ev, p; try done; simplify_eq.
  - unfold ask. destruct (negb (ctrl d)); [by apply inject_set_pc|].
    destruct (_ && _)%bool; [by apply inject_set_pc|]. simpl.
    destruct Hi as [H1 H2]. split; [|done]. simpl. intros th' c.
    destruct (decide (th = th')) as [<-|Hne]; [rewrite lookup_insert_eq; by intros [= <-]|].
    rewrite lookup_insert_ne by done. apply H1.
  - apply inject_set_pc; [|done]. unfold rpcForget. case_match; [by eapply inject_same|done].
  - repeat (case_match; simplify_eq); by apply inject_set_pc.
  - apply inject_set_pc; [|done]. unfold rpcForget. case_match; [by eapply inject_same|done].
  - by apply inject_judge.
  - destruct q; simplify_eq. apply inject_set_pc; [|done]. unfold rememberScope.
    destruct (_ && _)%bool; [by eapply inject_same|done].
  - destruct q; simplify_eq. by apply inject_finish.
  - by apply inject_finish.
Qed.

Lemma inject_reset d : inject_inv d -> inject_inv (clear_caches d).
Proof. intros [H1 H2]. split; [done|]. simpl. intros key c. by rewrite lookup_empty. Qed.

Lemma inject_step ev d d' : inject_inv d -> step ev d = Some d' -> inject_inv d'.
Proof.
  intros Hi. unfold step. destruct (event_call ev) as [th|].
  - destruct (calls d !! th) as [c|] eqn:Hc; [|done]. by apply inject_call_step.
  - destruct ev; try done; intros Hs; simplify_eq.
    + by eapply inject_same.
    + eapply inject_same; [by apply inject_reset|done..].
    + unfold bind. destruct (_ || _)%bool; [done|by eapply inject_same].
    + unfold detach. destruct (negb _); [done|]. eapply inject_same; [by apply inject_reset|done..].
    + by apply inject_reset.
    + unfold rpcDeliver, complete. repeat case_match; by eapply inject_same.
    + destruct (calls d !! th); simplify_eq. by apply inject_start.
Qed.

Lemma reachable_inject_inv d : reachable d -> inject_inv d.
Proof.
  induction 1 as [t|ev d d' _ IH Hs]; [|by eapply inject_step].
  split; simpl; [intros th c|intros key c]; by rewrite lookup_empty.
Qed.

(** A credential is handed out only for a request that goes over TLS, fresh or from the
    cache, and its header name and value are well-formed HTTP: no value can smuggle a line
    break or another header. *)
Theorem credential_only_over_tls d th q inject :
  reachable d -> calls d !! th = Some (mkCall q (Finished (Granted (Some inject)))) ->
  (exists req, q = QRequest req /\ r_tls req = true) /\
  validHeaderName (header inject) = true /\ validHeaderValue (bytes_of (inj_value inject)) = true.
Proof. intros Hd%reachable_inject_inv Hc. exact (ii_calls _ Hd _ _ Hc). Qed.

(** *** Replies *)

Record rpc_inv (d : remoteDecider) : Prop := {
  ri_pending : forall id, id ∈ pending d -> (id <= nextID d)%Z /\ chans d !! id = Some ChanEmpty;
  ri_chans : forall id c, chans d !! id = Some c -> (id <= nextID d)%Z;
  ri_wait : forall th q id g e, calls d !! th = Some (mkCall q (Waiting id g e)) ->
    (id <= nextID d)%Z /\ (id ∈ pending d -> g = gen d) /\
    forall a, chans d !! id = Some (ChanFull a) -> AnswerID a = id /\ LDelivered g a ∈ log d;
  ri_got : forall th q p a g e, calls d !! th = Some (mkCall q p) ->
    (p = Answered a g e \/ (exists i, p = Judged a i g e) \/ (exists i, p = Scoped a i g e)) ->
    LDelivered g a ∈ log d
}.

(** A change of calls only, or of nothing the replies depend on. *)
Lemma rpc_frame d d' :
  rpc_inv d -> gen d' = gen d -> nextID d' = nextID d -> pending d' ⊆ pending d -> chans d' = chans d ->
  log d ⊆ log d' ->
  (forall th q id g e, calls d' !! th = Some (mkCall q (Waiting id g e)) ->
     calls d !! th = Some (mkCall q (Waiting id g e))) ->
  (forall th q p a g e, calls d' !! th = Some (mkCall q p) ->
     (p = Answered a g e \/ (exists i, p = Judged a i g e) \/ (exists i, p = Scoped a i g e)) ->
     LDelivered g a ∈ log d') ->
  rpc_inv d'.
Proof.
  intros [H1 H2 H3 H4] Hg Hn Hp Hc Hl Hw Hgot. split; rewrite ?Hg, ?Hn, ?Hc; [auto|done| |done].
  intros th q id g e Hcall%Hw. destruct (H3 _ _ _ _ _ Hcall) as (? & ? & Hfull).
  split_and!; [done|auto|]. intros a Ha. destruct (Hfull a Ha). auto.
Qed.

Definition got (p : pc) (a : DecisionAnswer) (g : Z) : Prop :=
  exists e, p = Answered a g e \/ (exists i, p = Judged a i g e) \/ (exists i, p = Scoped a i g e).

Lemma rpc_set_pc d th q p :
  rpc_inv d -> (forall id g e, p <> Waiting id g e) ->
  (forall a g, got p a g -> LDelivered g a ∈ log d) -> rpc_inv (set_pc th q p d).
Proof.
  intros Hi Hw Hg. apply (rpc_frame d); [done..| |]; simpl.
  - intros th' q' id g e. destruct (decide (th = th')) as [<-|Hne]; [|by rewrite lookup_insert_ne].
    rewrite lookup_insert_eq. intros [= _ E]. by apply Hw in E.
  - intros th' q' p' a g e. destruct (decide (th = th')) as [<-|Hne].
    + rewrite lookup_insert_eq. intros [= <- <-] Hp. apply Hg. by exists e.
    + rewrite lookup_insert_ne by done. intros Hc. by apply (ri_got _ Hi th' q').
Qed.

Lemma rpc_done d th q o : rpc_inv d -> rpc_inv (set_pc th q (Finished o) d).
Proof. intros Hi. apply rpc_set_pc; [done..|]. intros a g (e & [?|[[? ?]|[? ?]]]); done. Qed.

Lemma rpc_same d d' :
  rpc_inv d -> gen d' = gen d -> nextID d' = nextID d -> pending d' ⊆ pending d -> chans d' = chans d ->
  log d ⊆ log d' -> calls d' = calls d -> rpc_inv d'.
Proof.
  intros Hi Hg Hn Hp Hc Hl Hk. apply (rpc_frame d); [done..| |]; rewrite Hk; [done|].
  intros th q p a g e Hcall Hgot. apply Hl. by apply (ri_got _ Hi th q p a g e).
Qed.

Lemma rpc_ask d th q : rpc_inv d -> rpc_inv (ask th q d).
Proof.
  intros Hi. unfold ask. destruct (negb (ctrl d)); [by apply rpc_done|].
  destruct (_ && _)%bool; [by apply rpc_done|]. simpl. destruct Hi as [H1 H2 H3 H4]. split; simpl.
  - intros id [->%elem_of_singleton|Hid]%elem_of_union; [split; [lia|apply lookup_insert_eq]|].
    destruct (H1 id Hid). split; [lia|]. rewrite lookup_insert_ne by lia. done.
  - intros id c. destruct (decide ((nextID d + 1)%Z = id)) as [<-|Hne]; [lia|].
    rewrite lookup_insert_ne by done. intros ?%H2. lia.
  - intros th' q' id g e. destruct (decide (th = th')) as [<-|Hne].
    + rewrite lookup_insert_eq. intros [= <- <- <- <-]. split; [lia|]. split; [done|].
      intros a. by rewrite lookup_insert_eq.
    + rewrite lookup_insert_ne by done. intros Hc. destruct (H3 _ _ _ _ _ Hc) as (Hle & Hp & Hf).
      split; [lia|]. split.
      * intros [?%elem_of_singleton|?]%elem_of_union; [lia|auto].
      * intros a. rewrite lookup_insert_ne by lia. intros Ha. destruct (Hf a Ha). split; [done|].
        apply elem_of_app. by left.
  - intros th' q' p a g e. destruct (decide (th = th')) as [<-|Hne].
    + rewrite lookup_insert_eq. intros [= <- <-] [?|[[? ?]|[? ?]]]; done.
    + rewrite lookup_insert_ne by done. intros Hc Hgot. apply elem_of_app. left. by eapply H4.
Qed.

(** Channels of the old session are closed, never filled. *)
Lemma rpc_reset d g c k b :
  rpc_inv d -> rpc_inv (with_session g c k b (resetLocked d)).
Proof.
  intros [H1 H2 H3 H4]. split; simpl.
  - intros id. set_solver.
  - intros id x. rewrite map_lookup_imap. destruct (chans d !! id) eqn:E; [|done]. intros _. eauto.
  - intros th q id g' e Hc. destruct (H3 _ _ _ _ _ Hc) as (Hle & _ & Hf). split; [done|].
    split; [set_solver|]. intros a. rewrite map_lookup_imap.
    destruct (chans d !! id) as [x|] eqn:E; simpl; [|done]. case_bool_decide; [done|].
    intros [= ->]. destruct (Hf a eq_refl). split; [done|]. apply elem_of_app. by left.
  - intros th q p a g' e Hc Hgot. apply elem_of_app. left. by eapply H4.
Qed.

Lemma rpc_deliver d g a : rpc_inv d -> rpc_inv (record (LDelivered g a) (rpcDeliver g a d)).
Proof.
  intros Hi. unfold rpcDeliver. destruct (Z.eqb_spec (gen d) g) as [Hg|Hg].
  2: { eapply (rpc_same d); simpl; try done. set_solver. }
  unfold complete. case_bool_decide as Hid.
  2: { eapply (rpc_same d); simpl; try done. set_solver. }
  destruct Hi as [H1 H2 H3 H4]. split; simpl.
  - intros id [Hp Hne]%elem_of_difference. destruct (H1 id Hp). split; [done|].
    rewrite lookup_insert_ne; [done|]. set_solver.
  - intros id c. destruct (decide (AnswerID a = id)) as [<-|Hne]; [intros _; by apply H1|].
    rewrite lookup_insert_ne by done. apply H2.
  - intros th q id g' e Hc. destruct (H3 _ _ _ _ _ Hc) as (Hle & Hp & Hf). split; [done|].
    split; [intros [? _]%elem_of_difference; auto|]. intros a'.
    destruct (decide (AnswerID a = id)) as [<-|Hne].
    + rewrite lookup_insert_eq. intros [= <-]. split; [done|]. rewrite (Hp Hid), Hg.
      apply elem_of_app. right. by left.
    + rewrite lookup_insert_ne by done. intros Ha. destruct (Hf a' Ha). split; [done|].
      apply elem_of_app. by left.
  - intros th q p a' g' e Hc Hgot. apply elem_of_app. left. by eapply H4.
Qed.

Lemma rpc_remember d g e th q a i : rpc_inv d -> rpc_inv (remember g e th q a i d).
Proof.
  intros Hi. unfold remember. destruct (_ <=? 0)%Z; [done|]. destruct (_ || _)%bool; [done|].
  eapply (rpc_same d); simpl; try done. set_solver.
Qed.

Lemma rpc_forget d g id : rpc_inv d -> rpc_inv (rpcForget g id d).
Proof.
  intros Hi. unfold rpcForget. case_match; [|done]. eapply (rpc_same d); simpl; try done. set_solver.
Qed.

Lemma rpc_judge d th q a g e :
  rpc_inv d -> LDelivered g a ∈ log d -> rpc_inv (judge th q a g e d).
Proof.
  intros Hi Hd. assert (Hj : forall i, rpc_inv (set_pc th q (Judged a i g e) d)).
  { intros i. apply rpc_set_pc; [done..|]. intros a' g' (e' & [?|[[? ?]|[? ?]]]); by simplify_eq. }
  unfold judge. destruct q as [|req]; [done|]. destruct (negb _); [done|].
  destruct (Credential a) as [cred|]; [|done].
  destruct (open g cred d); [|by apply rpc_done]. destruct (negb (r_tls req)); [by apply rpc_done|done].
Qed.

Lemma rpc_call_step ev th c d d' :
  rpc_inv d -> calls d !! th = Some c -> call_step ev th c d = Some d' -> rpc_inv d'.
Proof.
  intros Hi Hc Hs. destruct c as [q p]. unfold call_step in Hs. simpl in Hs.
  destruct ev, p; try done; simplify_eq.
  - by apply rpc_ask.
  - by apply rpc_done, rpc_forget.
  - destruct (chans d !! id) as [[]|] eqn:E; simplify_eq; [|by apply rpc_done].
    destruct (ri_wait _ Hi _ _ _ _ _ Hc) as (_ & _ & Hf). destruct (Hf _ E) as [_ Hd].
    apply rpc_set_pc; [done..|]. intros a' g' (e' & [?|[[? ?]|[? ?]]]); by simplify_eq.
  - by apply rpc_done, rpc_forget.
  - apply rpc_judge; [done|]. eapply (ri_got _ Hi); eauto.
  - destruct q; simplify_eq. apply rpc_set_pc; [|done|].
    + unfold rememberScope. destruct (_ && _)%bool; [|done]. by eapply (rpc_same d).
    + intros a' g' (e' & [?|[[? ?]|[? ?]]]); simplify_eq.
      replace (log _) with (log d) by (unfold rememberScope; by destruct (_ && _)%bool).
      eapply (ri_got _ Hi); eauto.
  - destruct q; simplify_eq. by apply rpc_done, rpc_remember.
  - by apply rpc_done, rpc_remember.
Qed.

Lemma rpc_step ev d d' : rpc_inv d -> step ev d = Some d' -> rpc_inv d'.
Proof.
  intros Hi. unfold step. destruct (event_call ev) as [th|].
  - destruct (calls d !! th) as [c|] eqn:Hc; [|done]. by apply rpc_call_step.
  - destruct ev; try done; intros Hs; simplify_eq.
    + by eapply (rpc_same d).
    + by apply (rpc_reset d).
    + unfold bind. destruct (_ || _)%bool; [done|by eapply (rpc_same d)].
    + unfold detach. destruct (negb _); [done|]. by apply (rpc_reset d).
    + eapply (rpc_same d); simpl; try done. set_solver.
    + by apply rpc_deliver.
    + destruct (calls d !! th); simplify_eq. unfold start, lookupLocked.
      destruct (cache d !! lookupKey q d) as [c|]; [destruct (negb _)|].
      * apply rpc_set_pc; [by eapply (rpc_same d)|done|].
        intros a' g' (e' & [?|[[? ?]|[? ?]]]); by simplify_eq.
      * eapply (rpc_same (set_pc th q (Finished (verdict (c_allowed c) (c_reason c) (c_inject c))) d));
          [by apply rpc_done|done|done|done|done| |done]. simpl. set_solver.
      * apply rpc_set_pc; [done..|]. intros a' g' (e' & [?|[[? ?]|[? ?]]]); by simplify_eq.
Qed.

Lemma reachable_rpc_inv d : reachable d -> rpc_inv d.
Proof.
  induction 1 as [t|ev d d' _ IH Hs]; [|by eapply rpc_step].
  split; simpl.
  - intros id. set_solver.
  - intros id c. by rewrite lookup_empty.
  - intros th q id g e. by rewrite lookup_empty.
  - intros th q p a g e. by rewrite lookup_empty.
Qed.

(** An answer a caller works with was delivered on the control stream of the very session
    the caller asked on: answers of an earlier or later session never reach it. *)
Theorem answers_stay_in_session d th q a g e :
  reachable d -> calls d !! th = Some (mkCall q (Answered a g e)) -> LDelivered g a ∈ log d.
Proof. intros Hd%reachable_rpc_inv Hc. eapply (ri_got _ Hd); eauto. Qed.
End WithCrypto.

(** ** A run

    One request is asked and granted with a credential, a second one with
    another path is served from the cache. *)
Section Sample.
#[local] Instance sample_lower : UnicodeLower := fun s => s.
Definition sample_sha (s : string) : string := s.
Definition sample_unseal (k : nat) (b : sessionBinding) (n : string) (v : list byte) : option (list byte) :=
  Some v.

Definition sample_req (path : string) : egressRequest :=
  mkRequest "API.example.com" 443 "GET" path true true "tok" "".

Definition sample_answer : DecisionAnswer :=
  mkAnswer 1 true "" 900 (Some (mkScope false true))
    (Some (mkSealed "gh" " authorization " (bytes_of "Bearer x"))).

Definition sample_to_answered : list event :=
  [Attach 7; Bind 1 "org" "agent"; Start 0 (QRequest (sample_req "/a")); Ask 0; Deliver 1 sample_answer; Recv 0].

Definition sample_events : list event :=
  sample_to_answered ++
  [Judge 0; RememberScope 0; Remember 0; Start 1 (QRequest (sample_req "/b"))].

Definition sample_run (es : list event) : remoteDecider :=
  default (newRemoteDecider 0) (run sample_sha sample_unseal es (newRemoteDecider 0)).

Lemma decider_sample_reachable es :
  match run sample_sha sample_unseal es (newRemoteDecider 0) with Some _ => true | None => false end = true ->
  reachable sample_sha sample_unseal (sample_run es).
Proof.
  unfold sample_run. destruct (run _ _ es _) as [d|] eqn:Hd; [|done]. intros _. simpl.
  eapply decider_run_reachable; [apply reach_new|exact Hd].
Qed.

Definition sample_injection : injection := mkInjection "Authorization" "Bearer x".


Lemma decision_tables_bounded_witness :
  (Z.of_nat (size (cache (sample_run sample_events))) <= maxCachedDecisions)%Z.
Proof.
  refine (proj1 (decision_tables_bounded sample_sha sample_unseal (sample_run sample_events) _)).
  apply decider_sample_reachable. vm_compute. reflexivity.
Defined.

Lemma credential_only_over_tls_witness :
  validHeaderValue (bytes_of "Bearer x") = true.
Proof.
  refine (proj2 (proj2 (credential_only_over_tls sample_sha sample_unseal (sample_run sample_events) 1
    (QRequest (sample_req "/b")) sample_injection _ _))).
  - apply decider_sample_reachable. vm_compute. reflexivity.
  - vm_compute. reflexivity.
Defined.

Lemma answers_stay_in_session_witness :
  LDelivered 1 sample_answer ∈ log (sample_run sample_to_answered).
Proof.
  apply (answers_stay_in_session sample_sha sample_unseal (sample_run sample_to_answered) 0
    (QRequest (sample_req "/a")) sample_answer 1 1).
  - apply decider_sample_reachable. vm_compute. reflexivity.
  - vm_compute. reflexivity.
Defined.
End Sample.
End Decider.
