(* ===== verification/Decrypt.v ===== *)
(** * Egress decryption on the agent

    internal/agent/decrypt_state.go (the certificates minted for decrypted
    hosts) and decrypt_manager.go (the intermediate of the current session and
    the verdict on a CONNECT). X.509 is a parameter: what it parses, signs and
    verifies. *)
From S2P Require Import Prelude GoIO GoStrings DecryptScope.

(** ** Certificates *)
Module Certs.
Definition second : Z := 1000000000.
Definition minute : Z := 60 * second.
Definition maxDecryptLeaves : Z := 1024.
Definition decryptRetryAfter : Z := 5 * second.
Definition decryptExpiryMargin : Z := minute.
Definition decryptLeafBackdate : Z := 5 * minute.
Definition decryptRefreshDivisor : Z := 3.

Definition errDecryptChain : goerr :=
  ENew "decrypt intermediate: server returned an unusable certificate chain".
Definition errDecryptLeaf : goerr :=
  ENew "decrypt leaf: minted certificate does not verify against the org root".
Definition errDecryptUnavailable : goerr := ENew "egress decryption unavailable".

(** The fields of an intermediate the code reads; times are nanoseconds since
    the zero [time.Time]. *)
Record Certificate := mkCert {
  NotBefore : Z;
  NotAfter : Z;
  IsCA : bool;
  MaxPathLenZero : bool;
  PublicKey : option string;
  Raw : list byte
}.

(** A minted certificate: the name it is for and its validity. *)
Record Leaf := mkLeaf { leaf_host : string; leaf_notBefore : Z; leaf_notAfter : Z }.

(** crypto/x509 and crypto/rand, as the code uses them. *)
Class X509 := {
  ParseCertificate : list byte -> option Certificate;
  VerifyIntermediate : Certificate -> Certificate -> Z -> bool;
  CreateCertificate : Certificate -> string -> Z -> Z -> option Leaf;
  VerifyLeaf : Certificate -> Certificate -> string -> Z -> Leaf -> bool
}.

(** What the documentation of crypto/x509 promises: a verified certificate is
    within its validity period, and a leaf carries the fields of its template.
    The dates of RFC 5280 start after the zero time. *)
Class X509Laws `{X509} : Prop := {
  parse_dates : forall der c, ParseCertificate der = Some c -> (0 <= NotBefore c)%Z;
  verify_valid : forall root inter now, VerifyIntermediate root inter now = true ->
    (NotBefore inter <= now <= NotAfter inter)%Z;
  create_fields : forall signer host nb na leaf, CreateCertificate signer host nb na = Some leaf ->
    leaf_host leaf = host /\ leaf_notBefore leaf = nb /\ leaf_notAfter leaf = na
}.

(** ** decrypt_state.go *)

Record decryptState := mkState {
  st_root : Certificate;
  st_signers : list Certificate;
  st_notBefore : Z;
  st_notAfter : Z;
  st_allow : list string;
  st_bypass : list string
}.

Definition usable (s : option decryptState) (now : Z) : bool :=
  match s with
  | None => false
  | Some s => (now + decryptExpiryMargin <? st_notAfter s)%Z && negb (now <? st_notBefore s)%Z
  end.

Section Minting.
Context `{X509}.

Definition mintWith (root signer : Certificate) (host : string) (now : Z) : res Leaf :=
  let notBefore := (now - decryptLeafBackdate)%Z in
  let notBefore := if (notBefore <? NotBefore signer)%Z then NotBefore signer else notBefore in
  match CreateCertificate signer host notBefore (NotAfter signer) with
  | None => Fail (ENew "decrypt leaf")
  | Some leaf => if VerifyLeaf root signer host now leaf then Ok leaf else Fail errDecryptLeaf
  end.

(** The first signer that can; the error is the last one's. *)
Fixpoint mint_loop (root : Certificate) (signers : list Certificate) (host : string) (now : Z)
    (err : goerr) : res Leaf :=
  match signers with
  | [] => Fail err
  | signer :: rest =>
      match mintWith root signer host now with
      | Ok c => Ok c
      | Fail err => mint_loop root rest host now err
      end
  end.

Definition mint (s : decryptState) (host : string) (now : Z) : res Leaf :=
  mint_loop (st_root s) (st_signers s) host now errDecryptLeaf.

(** ** The issued state: stateFrom and verifiedIntermediate *)

Record CertResponse := mkResponse {
  Chain : list (list byte);
  Extra : list (list byte);
  Allow : list string;
  Bypass : list string
}.

Definition verifiedIntermediate (key : string) (root : Certificate) (now : Z) (der : list byte)
    : option Certificate :=
  match ParseCertificate der with
  | None => None
  | Some inter =>
      if bool_decide (PublicKey inter <> Some key) || negb (IsCA inter) || negb (MaxPathLenZero inter)
      then None
      else if VerifyIntermediate root inter now then Some inter else None
  end.

Definition zeroTime : Z := 0.

(** The loop over the intermediates: the common validity of the signers. *)
Fixpoint signers_loop (key : string) (root : Certificate) (now : Z) (ders : list (list byte))
    (acc : list Certificate * Z * Z) : option (list Certificate * Z * Z) :=
  match ders with
  | [] => Some acc
  | der :: rest =>
      match verifiedIntermediate key root now der with
      | None => None
      | Some inter =>
          let '(signers, nb, na) := acc in
          signers_loop key root now rest
            (signers ++ [inter],
             if (nb =? zeroTime)%Z || (nb <? NotBefore inter)%Z then NotBefore inter else nb,
             if (na =? zeroTime)%Z || (NotAfter inter <? na)%Z then NotAfter inter else na)
      end
  end.

Section WithUnicode.
Context `{lower : UnicodeLower} `{UnicodeQuote}.

(** [None] is an error. *)
Definition stateFrom (key : string) (now : Z) (resp : CertResponse) : option decryptState :=
  if (len (Chain resp) <? 2)%Z || (DecryptScope.MaxPatterns <=? len (Extra resp))%Z then None
  else
    match ParseCertificate (List.last (Chain resp) []) with
    | None => None
    | Some root =>
        match signers_loop key root now (nth 0 (Chain resp) [] :: Extra resp) ([], zeroTime, zeroTime) with
        | None => None
        | Some (signers, nb, na) =>
            match DecryptScope.Normalize (Allow resp) with
            | Fail _ => None
            | Ok allow =>
                if bool_decide (allow = []) then None
                else
                  match DecryptScope.Normalize (Bypass resp) with
                  | Fail _ => None
                  | Ok bypass => Some (mkState root signers nb na allow bypass)
                  end
            end
        end
    end.
End WithUnicode.
End Minting.

(** ** Properties of the issued state *)
Section Validity.
Context `{X509Laws}.

Lemma verifiedIntermediate_valid key root now der inter :
  verifiedIntermediate key root now der = Some inter ->
  (0 <= NotBefore inter <= now)%Z /\ (now <= NotAfter inter)%Z /\
  PublicKey inter = Some key /\ IsCA inter = true.
Proof.
  unfold verifiedIntermediate. destruct (ParseCertificate der) as [c|] eqn:Hp; [|done].
  apply parse_dates in Hp.
  destruct (bool_decide _) eqn:Hb; simpl; [done|]. destruct (IsCA c) eqn:Hca; simpl; [|done].
  destruct (negb _); [done|]. destruct (VerifyIntermediate root c now) eqn:Hv; [|done].
  intros [= <-]. apply verify_valid in Hv. apply bool_decide_eq_false in Hb.
  split_and!; [lia..| |done]. by apply dec_stable in Hb.
Qed.

(** The loop keeps the latest start and the earliest end. *)
Definition window_ok (now : Z) (acc : list Certificate * Z * Z) : Prop :=
  let '(signers, nb, na) := acc in
  Forall (fun c => (NotBefore c <= nb)%Z /\ (na <= NotAfter c)%Z) signers /\
  (signers = [] -> nb = zeroTime /\ na = zeroTime) /\ (signers <> [] -> (0 < na)%Z).

Lemma signers_loop_window key root now ders : forall acc out,
  (0 < now)%Z -> window_ok now acc -> signers_loop key root now ders acc = Some out -> window_ok now out.
Proof.
  induction ders as [|der ders IH]; intros acc out Hnow Hacc; simpl; [by intros [= <-]|].
  destruct (verifiedIntermediate key root now der) as [inter|] eqn:E; [|done].
  apply verifiedIntermediate_valid in E as (Hv1 & Hv2 & _). destruct acc as [[signers nb] na].
  apply IH; [done|]. clear IH. destruct Hacc as (Hall & Hnil & Hpos). unfold zeroTime in *.
  assert (Hnb : forall x, (x <= nb)%Z -> (x <=
    (if (nb =? 0) || (nb <? NotBefore inter) then NotBefore inter else nb))%Z).
  { intros x Hx. destruct (Z.eqb_spec nb 0), (Z.ltb_spec nb (NotBefore inter)); simpl; lia. }
  assert (Hin : (NotBefore inter <=
    (if (nb =? 0) || (nb <? NotBefore inter) then NotBefore inter else nb))%Z).
  { destruct (Z.eqb_spec nb 0), (Z.ltb_spec nb (NotBefore inter)); simpl; lia. }
  split; [|split].
  - apply Forall_app. destruct signers as [|c signers].
    + destruct Hnil as [-> ->]; [done|]. split; [done|]. constructor; [|done]. simpl. lia.
    + assert (Hna : (0 < na)%Z) by by apply Hpos. split.
      * eapply Forall_impl; [exact Hall|]. intros x [Hx1 Hx2]. split; [by apply Hnb|].
        destruct (Z.eqb_spec na 0), (Z.ltb_spec (NotAfter inter) na); simpl; lia.
      * constructor; [|done]. split; [done|].
        destruct (Z.eqb_spec na 0), (Z.ltb_spec (NotAfter inter) na); simpl; lia.
  - by destruct signers.
  - intros _. destruct signers as [|c signers].
    + destruct Hnil as [-> ->]; [done|]. simpl. lia.
    + assert (Hna : (0 < na)%Z) by by apply Hpos.
      destruct (Z.eqb_spec na 0), (Z.ltb_spec (NotAfter inter) na); simpl; lia.
Qed.

Lemma signers_loop_signers key root now ders : forall acc out,
  signers_loop key root now ders acc = Some out ->
  Forall (fun c => PublicKey c = Some key /\ IsCA c = true) acc.1.1 ->
  Forall (fun c => PublicKey c = Some key /\ IsCA c = true) out.1.1 /\
  length out.1.1 = length acc.1.1 + length ders.
Proof.
  induction ders as [|der ders IH]; intros acc out; simpl.
  { intros [= <-] Ha. split; [done|lia]. }
  destruct (verifiedIntermediate key root now der) as [inter|] eqn:E; [|done].
  apply verifiedIntermediate_valid in E as (_ & _ & Hk). destruct acc as [[signers nb] na].
  intros Hl Ha. apply IH in Hl as [H1 H2]; [|by apply Forall_app; split; [|constructor]].
  split; [done|]. rewrite H2. simpl. rewrite length_app. simpl. lia.
Qed.

Section WithUnicode.
Context `{lower : UnicodeLower} `{UnicodeQuote}.

(** While an issued state counts as usable, every intermediate it signs with is a CA for
    the agent's own key and is valid, for at least another minute; there is one and the
    allowlist is not empty. *)
Theorem usable_state_signs key now resp st t :
  (0 < now)%Z -> stateFrom key now resp = Some st -> usable (Some st) t = true ->
  st_signers st <> [] /\ st_allow st <> [] /\
  Forall (fun c => PublicKey c = Some key /\ IsCA c = true /\
            (NotBefore c <= t)%Z /\ (t + minute < NotAfter c)%Z) (st_signers st).
Proof.
  intros Hnow. unfold stateFrom. destruct (_ || _)%bool; [done|].
  destruct (ParseCertificate _) as [root|]; [|done].
  destruct (signers_loop _ _ _ _ _) as [[[signers nb] na]|] eqn:E; [|done].
  pose proof (signers_loop_window _ _ _ _ ([], zeroTime, zeroTime) _ Hnow ltac:(split; done) E) as (Hw & _ & _).
  apply signers_loop_signers in E as [Hk Hlen]; [|constructor]. simpl in *.
  destruct (DecryptScope.Normalize (Allow resp)) as [allow|]; [|done].
  case_bool_decide as Hallow; [done|]. destruct (DecryptScope.Normalize (Bypass resp)); [|done].
  intros [= <-]. simpl. intros Hu. bool_to_prop. split_and!; [by intros ->|done|].
  unfold decryptExpiryMargin in *. rewrite Forall_forall in *.
  intros c Hc. destruct (Hw c Hc), (Hk c Hc). split_and!; try done; lia.
Qed.
End WithUnicode.
End Validity.

(** ** The leaf cache

    [leaf] has two critical sections around the minting and waits for a
    flight of another caller; a flight is the pointer [leafFlight]. *)
Section LeafCache.
Context `{X509Laws} (st : decryptState).

Inductive leaf_pc :=
| Minting (flight : nat) (now : Z)
| AwaitFlight (flight : nat)
| Served (r : res Leaf).

Record leafCache := mkLeafCache {
  leaves : gmap string Leaf;
  order : list string;
  inflight : gmap string nat;
  flights : gmap nat (res Leaf);
  next_flight : nat;
  leaf_calls : gmap nat (string * leaf_pc)
}.

Definition emptyCache : leafCache := mkLeafCache ∅ [] ∅ ∅ 0 ∅.

Definition set_call (th : nat) (host : string) (p : leaf_pc) (c : leafCache) : leafCache :=
  mkLeafCache (leaves c) (order c) (inflight c) (flights c) (next_flight c)
    (<[th := (host, p)]> (leaf_calls c)).

Definition storeLeafLocked (host : string) (l : Leaf) (c : leafCache) : leafCache :=
  let '(ls, os) :=
    match leaves c !! host with
    | Some _ => (leaves c, order c)
    | None =>
        if (maxDecryptLeaves <=? len (order c))%Z
        then match order c with
             | first :: rest => (delete first (leaves c), rest ++ [host])
             | [] => (leaves c, order c ++ [host])
             end
        else (leaves c, order c ++ [host])
    end in
  mkLeafCache (<[host := l]> ls) os (inflight c) (flights c) (next_flight c) (leaf_calls c).

(** [leaf], up to the first unlock. *)
Definition leaf_begin (th : nat) (host : string) (now : Z) (c : leafCache) : leafCache :=
  let fly :=
    match inflight c !! host with
    | Some f => set_call th host (AwaitFlight f) c
    | None =>
        let f := next_flight c in
        mkLeafCache (leaves c) (order c) (<[host := f]> (inflight c)) (flights c) (S f)
          (<[th := (host, Minting f now)]> (leaf_calls c))
    end in
  match leaves c !! host with
  | Some l => if (now + decryptExpiryMargin <? leaf_notAfter l)%Z then set_call th host (Served (Ok l)) c else fly
  | None => fly
  end.

(** Minting, the second critical section and the end of the flight. *)
Definition leaf_end (th : nat) (host : string) (f : nat) (now : Z) (c : leafCache) : leafCache :=
  let r := mint st host now in
  let c := mkLeafCache (leaves c) (order c) (delete host (inflight c)) (flights c) (next_flight c)
             (leaf_calls c) in
  let c := match r with Ok l => storeLeafLocked host l c | Fail _ => c end in
  mkLeafCache (leaves c) (order c) (inflight c) (<[f := r]> (flights c)) (next_flight c)
    (<[th := (host, Served r)]> (leaf_calls c)).

Inductive leaf_event :=
| LeafBegin (th : nat) (host : string) (now : Z)
| LeafEnd (th : nat)
| LeafWake (th : nat).

Definition leaf_step (e : leaf_event) (c : leafCache) : option leafCache :=
  match e with
  | LeafBegin th host now =>
      match leaf_calls c !! th with Some _ => None | None => Some (leaf_begin th host now c) end
  | LeafEnd th =>
      match leaf_calls c !! th with
      | Some (host, Minting f now) => Some (leaf_end th host f now c)
      | _ => None
      end
  | LeafWake th =>
      match leaf_calls c !! th with
      | Some (host, AwaitFlight f) =>
          match flights c !! f with Some r => Some (set_call th host (Served r) c) | None => None end
      | _ => None
      end
  end.

Inductive leaf_reachable : leafCache -> Prop :=
| leaf_new : leaf_reachable emptyCache
| leaf_next e c c' : leaf_reachable c -> leaf_step e c = Some c' -> leaf_reachable c'.

(** A certificate the state's signers minted for the host. *)
Definition minted (host : string) (r : res Leaf) : Prop := exists now, r = mint st host now.

(** The certificates and the order they were stored in. *)
Record shelf_ok (ls : gmap string Leaf) (os : list string) : Prop := {
  sh_order : NoDup os;
  sh_dom : forall h, h ∈ os <-> is_Some (ls !! h);
  sh_len : (len os <= maxDecryptLeaves)%Z;
  sh_minted : forall h l, ls !! h = Some l -> minted h (Ok l)
}.

(** Flights: one minting call per host and per flight, and every waiting call
    waits for a flight that is on its way or has landed for its host. *)
Record flights_ok (c : leafCache) : Prop := {
  fl_fresh : forall f, next_flight c <= f -> flights c !! f = None;
  fl_inflight : forall h f, inflight c !! h = Some f -> f < next_flight c /\ flights c !! f = None /\
    exists th now, leaf_calls c !! th = Some (h, Minting f now);
  fl_call : forall th h f now, leaf_calls c !! th = Some (h, Minting f now) -> inflight c !! h = Some f;
  fl_single : forall th th' h f now h' f' now', leaf_calls c !! th = Some (h, Minting f now) ->
    leaf_calls c !! th' = Some (h', Minting f' now') -> h = h' \/ f = f' -> th = th';
  fl_await : forall th h f, leaf_calls c !! th = Some (h, AwaitFlight f) ->
    inflight c !! h = Some f \/ (exists r, flights c !! f = Some r /\ minted h r);
  fl_served : forall th h r, leaf_calls c !! th = Some (h, Served r) -> minted h r
}.

Lemma shelf_insert_known ls os h l :
  shelf_ok ls os -> is_Some (ls !! h) -> minted h (Ok l) -> shelf_ok (<[h := l]> ls) os.
Proof.
  intros [H1 H2 H3 H4] Hh Hl. split; [done| |done|].
  - intros x. rewrite H2. destruct (decide (h = x)) as [<-|Hne]; [by rewrite lookup_insert_eq|].
    by rewrite lookup_insert_ne.
  - intros x y. destruct (decide (h = x)) as [<-|Hne]; [rewrite lookup_insert_eq; by intros [= <-]|].
    rewrite lookup_insert_ne by done. apply H4.
Qed.

Lemma shelf_push ls os h l :
  shelf_ok ls os -> ls !! h = None -> (len os < maxDecryptLeaves)%Z -> minted h (Ok l) ->
  shelf_ok (<[h := l]> ls) (os ++ [h]).
Proof.
  intros [H1 H2 H3 H4] Hh Hlen Hl. split.
  - apply NoDup_app. split; [done|]. split; [|apply NoDup_singleton].
    intros x Hx ->%list_elem_of_singleton. apply H2 in Hx as [? ?]. congruence.
  - intros x. rewrite elem_of_app, list_elem_of_singleton, H2.
    destruct (decide (h = x)) as [<-|Hne]; [rewrite lookup_insert_eq; naive_solver|].
    rewrite lookup_insert_ne by done. naive_solver.
  - rewrite len_app. unfold len at 2. simpl. lia.
  - intros x y. destruct (decide (h = x)) as [<-|Hne]; [rewrite lookup_insert_eq; by intros [= <-]|].
    rewrite lookup_insert_ne by done. apply H4.
Qed.

Lemma shelf_pop ls x os :
  shelf_ok ls (x :: os) -> shelf_ok (delete x ls) os.
Proof.
  intros [H1 H2 H3 H4]. apply NoDup_cons in H1 as [Hx H1]. split; [done| | |].
  - intros h. specialize (H2 h). rewrite elem_of_cons in H2.
    destruct (decide (x = h)) as [<-|Hne]; [|rewrite lookup_delete_ne by done; naive_solver].
    rewrite lookup_delete_eq. split; [done|by intros [? ?]].
  - rewrite len_cons in H3. lia.
  - intros h l [_ Hl]%lookup_delete_Some. by apply H4.
Qed.

Lemma storeLeaf_shelf h l c :
  shelf_ok (leaves c) (order c) -> minted h (Ok l) ->
  shelf_ok (leaves (storeLeafLocked h l c)) (order (storeLeafLocked h l c)).
Proof.
  intros Hs Hl. unfold storeLeafLocked. destruct (leaves c !! h) as [old|] eqn:E.
  { simpl. by apply shelf_insert_known. }
  destruct (Z.leb_spec maxDecryptLeaves (len (order c))) as [Hle|Hlt]; simpl; [|by apply shelf_push].
  destruct (order c) as [|x os] eqn:Eo; simpl.
  { change (len (@nil string)) with 0%Z in Hle. unfold maxDecryptLeaves in Hle. lia. }
  pose proof (sh_len _ _ Hs) as Hlen. rewrite len_cons in Hlen.
  apply shelf_push; [by apply shelf_pop| |lia|done].
  rewrite lookup_delete_None. by right.
Qed.

Lemma storeLeaf_rest h l c :
  inflight (storeLeafLocked h l c) = inflight c /\ flights (storeLeafLocked h l c) = flights c /\
  next_flight (storeLeafLocked h l c) = next_flight c /\ leaf_calls (storeLeafLocked h l c) = leaf_calls c.
Proof.
  unfold storeLeafLocked. destruct (leaves c !! h); [done|].
  destruct (_ <=? _)%Z; [|done]. by destruct (order c).
Qed.

(** The call of [th] changes to a pc that is neither minting nor unfounded. *)
Lemma flights_set_call th h p c :
  flights_ok c -> (forall g now, (exists h', leaf_calls c !! th = Some (h', Minting g now)) -> False) ->
  (forall g now, p <> Minting g now) ->
  (forall g, p = AwaitFlight g ->
     inflight c !! h = Some g \/ (exists r, flights c !! g = Some r /\ minted h r)) ->
  (forall r, p = Served r -> minted h r) -> flights_ok (set_call th h p c).
Proof.
  intros [H1 H2 H3 H4 H5 H6] Hold Hp Ha Hs. split; simpl; [done| | | | |].
  - intros x f Hx. destruct (H2 x f Hx) as (? & ? & th' & now & Hc). split_and!; [done..|].
    exists th', now. rewrite lookup_insert_ne; [done|]. intros ->. eapply Hold. eauto.
  - intros th' x f now. destruct (decide (th = th')) as [<-|Hne].
    + rewrite lookup_insert_eq. intros [= _ E]. by apply Hp in E.
    + rewrite lookup_insert_ne by done. apply H3.
  - intros t1 t2 x f now x' f' now'. destruct (decide (th = t1)) as [<-|Hne1];
      [rewrite lookup_insert_eq; intros [= _ E]; by apply Hp in E|].
    rewrite lookup_insert_ne by done. destruct (decide (th = t2)) as [<-|Hne2];
      [rewrite lookup_insert_eq; intros _ [= _ E]; by apply Hp in E|].
    rewrite lookup_insert_ne by done. apply H4.
  - intros th' x f. destruct (decide (th = th')) as [<-|Hne]; [|rewrite lookup_insert_ne by done; apply H5].
    rewrite lookup_insert_eq. intros [= <- ->]. by apply Ha.
  - intros th' x r. destruct (decide (th = th')) as [<-|Hne]; [|rewrite lookup_insert_ne by done; apply H6].
    rewrite lookup_insert_eq. intros [= <- ->]. by apply Hs.
Qed.

(** A new flight for a host without one. *)
Lemma flights_launch th h now c :
  flights_ok c -> inflight c !! h = None -> leaf_calls c !! th = None ->
  flights_ok (mkLeafCache (leaves c) (order c) (<[h := next_flight c]> (inflight c)) (flights c)
    (S (next_flight c)) (<[th := (h, Minting (next_flight c) now)]> (leaf_calls c))).
Proof.
  intros [H1 H2 H3 H4 H5 H6] Hh Hth. split; simpl.
  - intros f Hf. apply H1. lia.
  - intros x f. destruct (decide (h = x)) as [<-|Hne].
    + rewrite lookup_insert_eq. intros [= <-]. split_and!; [lia|by apply H1|].
      exists th, now. apply lookup_insert_eq.
    + rewrite lookup_insert_ne by done. intros Hx. destruct (H2 x f Hx) as (? & ? & th' & t & Hc).
      split_and!; [lia|done|]. exists th', t. rewrite lookup_insert_ne by congruence. done.
  - intros th' x f t. destruct (decide (th = th')) as [<-|Hne].
    + rewrite lookup_insert_eq. intros [= <- <- <-]. apply lookup_insert_eq.
    + rewrite lookup_insert_ne by done. intros Hc%H3. rewrite lookup_insert_ne; [done|congruence].
  - assert (Hnew : forall th' x f t, th <> th' -> leaf_calls c !! th' = Some (x, Minting f t) ->
      ~ (x = h \/ f = next_flight c)).
    { intros th' x f t _ Hc%H3 [->| ->]; [congruence|]. apply H2 in Hc as (? & _). lia. }
    intros t1 t2 x f t x' f' t'.
    destruct (decide (th = t1)) as [<-|Hn1], (decide (th = t2)) as [<-|Hn2];
      rewrite ?lookup_insert_eq, ?(lookup_insert_ne _ th) by done; [done| | |apply H4].
    + intros [= <- <- <-] Hc Hor. exfalso. eapply Hnew; [exact Hn2|done|]. naive_solver.
    + intros Hc [= <- <- <-] Hor. exfalso. eapply Hnew; [exact Hn1|done|]. naive_solver.
  - intros th' x f. destruct (decide (th = th')) as [<-|Hne]; [by rewrite lookup_insert_eq|].
    rewrite lookup_insert_ne by done. intros Hc. destruct (H5 _ _ _ Hc) as [Hi|Hr]; [left|by right].
    rewrite lookup_insert_ne; [done|congruence].
  - intros th' x r. destruct (decide (th = th')) as [<-|Hne]; [by rewrite lookup_insert_eq|].
    rewrite lookup_insert_ne by done. apply H6.
Qed.

(** The flight lands. *)
Lemma flights_land th h f now c ls os r :
  flights_ok c -> leaf_calls c !! th = Some (h, Minting f now) -> minted h r ->
  flights_ok (mkLeafCache ls os (delete h (inflight c)) (<[f := r]> (flights c)) (next_flight c)
    (<[th := (h, Served r)]> (leaf_calls c))).
Proof.
  intros [H1 H2 H3 H4 H5 H6] Hth Hr. pose proof (H3 _ _ _ _ Hth) as Hh.
  destruct (H2 _ _ Hh) as (Hlt & Hnone & _). split; simpl.
  - intros g Hg. rewrite lookup_insert_ne by lia. by apply H1.
  - intros x g [Hne Hx]%lookup_delete_Some. destruct (H2 x g Hx) as (? & ? & th' & t & Hc).
    assert (Hth' : th <> th') by (intros ->; congruence).
    split_and!; [done| |exists th', t; by rewrite lookup_insert_ne].
    rewrite lookup_insert_ne; [done|]. intros <-. apply Hth'. eapply H4; eauto.
  - intros th' x g t. destruct (decide (th = th')) as [<-|Hne]; [by rewrite lookup_insert_eq|].
    rewrite lookup_insert_ne by done. intros Hc. rewrite lookup_delete_ne; [by eapply H3|].
    intros ->. apply Hne. eapply H4; eauto.
  - intros t1 t2 x g t x' g' t'.
    destruct (decide (th = t1)) as [<-|Hn1]; [by rewrite lookup_insert_eq|].
    destruct (decide (th = t2)) as [<-|Hn2]; [by rewrite lookup_insert_eq|].
    rewrite !lookup_insert_ne by done. apply H4.
  - intros th' x g. destruct (decide (th = th')) as [<-|Hne]; [by rewrite lookup_insert_eq|].
    rewrite lookup_insert_ne by done. intros Hc. destruct (H5 _ _ _ Hc) as [Hi|(r' & Hr1 & Hr2)].
    + destruct (decide (h = x)) as [<-|Hx].
      * right. exists r. replace g with f by congruence. by rewrite lookup_insert_eq.
      * left. by rewrite lookup_delete_ne.
    + right. exists r'. rewrite lookup_insert_ne; [done|]. intros <-. congruence.
  - intros th' x r'. destruct (decide (th = th')) as [<-|Hne]; [|rewrite lookup_insert_ne by done; apply H6].
    rewrite lookup_insert_eq. by intros [= <- <-].
Qed.

Definition leaf_inv (c : leafCache) : Prop := shelf_ok (leaves c) (order c) /\ flights_ok c.

Lemma leaf_inv_begin th h now c :
  leaf_inv c -> leaf_calls c !! th = None -> leaf_inv (leaf_begin th h now c).
Proof.
  intros [Hs Hf] Hth.
  assert (Hset : forall p, (forall g t, p <> Minting g t) ->
    (forall g, p = AwaitFlight g -> inflight c !! h = Some g) ->
    (forall r, p = Served r -> minted h r) -> leaf_inv (set_call th h p c)).
  { intros p Hp Ha Hr. split; [done|]. apply flights_set_call; try done; [|by intros; left; apply Ha].
    intros g t [h' Hc]. congruence. }
  assert (Hfly : leaf_inv
    match inflight c !! h with
    | Some f => set_call th h (AwaitFlight f) c
    | None => mkLeafCache (leaves c) (order c) (<[h := next_flight c]> (inflight c)) (flights c)
        (S (next_flight c)) (<[th := (h, Minting (next_flight c) now)]> (leaf_calls c))
    end).
  { destruct (inflight c !! h) as [f|] eqn:E; [apply Hset; [done|naive_solver|done]|].
    split; [done|by apply flights_launch]. }
  unfold leaf_begin. destruct (leaves c !! h) as [l|] eqn:El; [|done].
  destruct (_ <? _)%Z; [|done]. apply Hset; [done..|]. intros r [= <-]. by eapply sh_minted.
Qed.

Lemma leaf_inv_end th h f now c :
  leaf_inv c -> leaf_calls c !! th = Some (h, Minting f now) -> leaf_inv (leaf_end th h f now c).
Proof.
  intros [Hs Hf] Hth. unfold leaf_end. assert (Hm : minted h (mint st h now)) by by exists now.
  destruct (mint st h now) as [l|err] eqn:E.
  - set (c1 := mkLeafCache (leaves c) (order c) (delete h (inflight c)) (flights c) (next_flight c)
      (leaf_calls c)). destruct (storeLeaf_rest h l c1) as (R1 & R2 & R3 & R4).
    rewrite R1, R2, R3, R4. split; [by apply (storeLeaf_shelf h l c1)|]. by apply (flights_land th h f now c).
  - split; [done|]. by apply (flights_land th h f now c).
Qed.

Lemma leaf_reachable_inv c : leaf_reachable c -> leaf_inv c.
Proof.
  induction 1 as [|e c c' _ IH Hs].
  - split; split; simpl; try done; try (intros; by rewrite lookup_empty in *); [constructor|].
    intros h. rewrite lookup_empty. split; [by intros ?%elem_of_nil|by intros [? ?]].
  - destruct e as [th h now|th|th]; simpl in Hs.
    + destruct (leaf_calls c !! th) eqn:E; [done|]. injection Hs as <-. by apply leaf_inv_begin.
    + destruct (leaf_calls c !! th) as [[h [f now| |]]|] eqn:E; simplify_eq. by apply leaf_inv_end.
    + destruct (leaf_calls c !! th) as [[h [f now|f|]]|] eqn:E; simplify_eq.
      destruct (flights c !! f) as [r|] eqn:Ef; simplify_eq. destruct IH as [Hsh Hf].
      split; [done|]. apply flights_set_call; try done; [intros g t [h' Hc]; congruence|].
      intros r' [= <-]. destruct (fl_await _ Hf _ _ _ E) as [Hi|(r' & Hr & Hm)]; [|congruence].
      destruct (fl_inflight _ Hf _ _ Hi) as (_ & Hn & _). congruence.
Qed.

Lemma mint_loop_Ok root signers host now err l :
  mint_loop root signers host now err = Ok l ->
  exists signer, signer ∈ signers /\ mintWith root signer host now = Ok l.
Proof.
  revert err. induction signers as [|s ss IH]; intros err; simpl; [done|].
  destruct (mintWith root s host now) as [c|e] eqn:E.
  - intros [= <-]. exists s. split; [by left|done].
  - intros (signer & ? & ?)%IH. exists signer. split; [by right|done].
Qed.

(** However calls for leaf certificates interleave, a caller that is served a certificate
    gets one that carries its host's name, was signed by an intermediate of the state within
    that intermediate's lifetime, and verified against the root for that host. *)
Theorem served_leaf_is_for_host c th host l :
  leaf_reachable c -> leaf_calls c !! th = Some (host, Served (Ok l)) ->
  leaf_host l = host /\ exists signer now, signer ∈ st_signers st /\
    leaf_notAfter l = NotAfter signer /\ (NotBefore signer <= leaf_notBefore l)%Z /\
    VerifyLeaf (st_root st) signer host now l = true.
Proof.
  intros [_ Hf]%leaf_reachable_inv Hc. destruct (fl_served _ Hf _ _ _ Hc) as [now Hm].
  symmetry in Hm. apply mint_loop_Ok in Hm as (signer & Hin & Hm). unfold mintWith in Hm.
  destruct (CreateCertificate _ _ _ _) as [leaf|] eqn:E; [|done].
  destruct (VerifyLeaf _ _ _ _ _) eqn:Hv; [|done]. injection Hm as ->.
  apply create_fields in E as (? & Hnb & ?). split; [done|]. exists signer, now.
  split_and!; [done..| |done]. rewrite Hnb. case_match; bool_to_prop; lia.
Qed.

(** The cache never holds more than 1024 certificates, it stores exactly the hosts of its
    eviction order, and a host has at most one minting in flight at a time. *)
Theorem leaf_cache_bounded c :
  leaf_reachable c ->
  (Z.of_nat (size (leaves c)) <= maxDecryptLeaves)%Z /\
  (forall h, h ∈ order c <-> is_Some (leaves c !! h)) /\
  (forall th th' h f now f' now', leaf_calls c !! th = Some (h, Minting f now) ->
     leaf_calls c !! th' = Some (h, Minting f' now') -> th = th').
Proof.
  intros [Hs Hf]%leaf_reachable_inv. split_and!; [|apply Hs|].
  - assert (Hd : dom (leaves c) ⊆ (list_to_set (order c) : gset string)).
    { intros h Hh%elem_of_dom. apply elem_of_list_to_set. by apply (sh_dom _ _ Hs). }
    apply subseteq_size in Hd. rewrite size_dom, size_list_to_set in Hd by apply Hs.
    pose proof (sh_len _ _ Hs). unfold len in *. lia.
  - intros. eapply (fl_single _ Hf); eauto.
Qed.
End LeafCache.

(** ** A certificate authority to run the definitions with *)
Section Sample.
#[local] Instance sample_lower : UnicodeLower := fun s => s.
#[local] Instance sample_quote : UnicodeQuote := fun s => s.

#[local] Instance sample_x509 : X509 := {|
  ParseCertificate der := Some (mkCert 10 (100 * minute) true true (Some "key") der);
  VerifyIntermediate _ c t := ((NotBefore c <=? t) && (t <=? NotAfter c))%Z;
  CreateCertificate _ host nb na := Some (mkLeaf host nb na);
  VerifyLeaf _ _ host _ l := bool_decide (leaf_host l = host)
|}.

#[local] Instance sample_x509_laws : X509Laws.
Proof.
  split; simpl.
  - intros der c [= <-]. simpl. lia.
  - intros root c t Hv. bool_to_prop. lia.
  - by intros signer host nb na leaf [= <-].
Qed.

Definition sample_response : CertResponse :=
  mkResponse [bytes_of "inter"; bytes_of "root"] [] ["*.example.com"] ["pay.example.com"].

Definition sample_state : decryptState :=
  default (mkState (mkCert 0 0 true true None []) [] 0 0 [] []) (stateFrom "key" minute sample_response).

Lemma usable_state_signs_witness : st_signers sample_state <> [].
Proof.
  refine (proj1 (usable_state_signs "key" minute sample_response sample_state minute _ _ _)).
  - reflexivity.
  - vm_compute. reflexivity.
  - vm_compute. reflexivity.
Defined.

Fixpoint leaf_run (es : list leaf_event) (c : leafCache) : option leafCache :=
  match es with
  | [] => Some c
  | e :: es' => match leaf_step sample_state e c with Some c' => leaf_run es' c' | None => None end
  end.

(** Two callers for one host: the second one waits for the first one's flight. *)
Definition sample_cache : leafCache :=
  default emptyCache (leaf_run [LeafBegin 0 "api.example.com" minute; LeafBegin 1 "api.example.com" minute;
    LeafEnd 0; LeafWake 1; LeafBegin 2 "b.example.com" minute] emptyCache).

Lemma leaf_run_reachable es c c' :
  leaf_reachable sample_state c -> leaf_run es c = Some c' -> leaf_reachable sample_state c'.
Proof.
  revert c. induction es as [|e es IH]; intros c Hc; simpl; [by intros [= <-]|].
  destruct (leaf_step sample_state e c) as [c1|] eqn:E; [|done]. apply IH. by eapply leaf_next.
Qed.

Lemma sample_cache_reachable : leaf_reachable sample_state sample_cache.
Proof.
  unfold sample_cache. destruct (leaf_run _ _) as [c|] eqn:E; [|apply leaf_new].
  eapply leaf_run_reachable; [apply leaf_new|exact E].
Qed.

Lemma served_leaf_is_for_host_witness :
  exists l, leaf_calls sample_cache !! 1 = Some ("api.example.com", Served (Ok l)) /\
    leaf_host l = "api.example.com".
Proof.
  eexists. split; [vm_compute; reflexivity|].
  refine (proj1 (served_leaf_is_for_host sample_state sample_cache 1 "api.example.com" _
    sample_cache_reachable _)).
  vm_compute. reflexivity.
Defined.

Lemma leaf_cache_bounded_witness : (Z.of_nat (size (leaves sample_cache)) <= maxDecryptLeaves)%Z.
Proof. exact (proj1 (leaf_cache_bounded sample_state sample_cache sample_cache_reachable)). Defined.
End Sample.
End Certs.

(** ** decrypt_manager.go *)
Module Manager.
Import Certs.

(** What [issue] gives: a state, the control plane's refusal to decrypt for
    the organization, or an error. *)
Inductive issued := IssuedState (st : decryptState) | IssuedRefusal | IssuedError.

Inductive logged :=
| LDrop
| LBegin (run : nat)
| LInstalled (run : nat) (st : decryptState)
| LRefused (run : nat).

(** [state] and [inflight] carry the number of the run that made them: the
    code compares pointers and channels. *)
Record decryptor := mkDecryptor {
  now : Z;
  gen : Z;
  bound : bool;
  state : option (nat * decryptState);
  disabled : bool;
  retryAt : Z;
  inflight : option (nat * Z);
  rerun : bool;
  timer : option (Z * nat);
  nextRun : nat;
  log : list logged
}.

Definition newDecryptor (t : Z) : decryptor :=
  mkDecryptor t 0 false None false 0 None false None 0 [].

Definition dropLocked (d : decryptor) : decryptor :=
  mkDecryptor (now d) (gen d) (bound d) None false 0 (inflight d)
    (match inflight d with Some _ => true | None => rerun d end) None (nextRun d) (log d ++ [LDrop]).

Definition beginLocked (d : decryptor) : decryptor :=
  match inflight d with
  | Some _ =>
      mkDecryptor (now d) (gen d) (bound d) (state d) (disabled d) (retryAt d) (inflight d) true
        (timer d) (nextRun d) (log d)
  | None =>
      mkDecryptor (now d) (gen d) (bound d) (state d) (disabled d) (retryAt d)
        (Some (nextRun d, gen d)) false (timer d) (S (nextRun d)) (log d ++ [LBegin (nextRun d)])
  end.

Definition set_session (g : Z) (b : bool) (d : decryptor) : decryptor :=
  mkDecryptor (now d) g b (state d) (disabled d) (retryAt d) (inflight d) (rerun d) (timer d)
    (nextRun d) (log d).

Definition attach (g : Z) (d : decryptor) : decryptor := dropLocked (set_session g false d).

Definition detach (g : Z) (d : decryptor) : decryptor :=
  if negb (gen d =? g)%Z then d else dropLocked (set_session (gen d) false d).

Definition bind (g : Z) (d : decryptor) : decryptor :=
  if negb (gen d =? g)%Z then d else beginLocked (set_session (gen d) true d).

Definition flush (d : decryptor) : decryptor :=
  let d := dropLocked d in if bound d then beginLocked d else d.

(** The outcome of a run is taken up when its session is still the bound one
    and nothing was dropped meanwhile. *)
Definition take_up (run : nat) (r : issued) (d : decryptor) : decryptor :=
  match r with
  | IssuedError =>
      mkDecryptor (now d) (gen d) (bound d) (state d) (disabled d) (now d + decryptRetryAfter)
        (inflight d) (rerun d) (timer d) (nextRun d) (log d)
  | IssuedRefusal =>
      mkDecryptor (now d) (gen d) (bound d) (state d) true (retryAt d) (inflight d) (rerun d)
        (timer d) (nextRun d) (log d ++ [LRefused run])
  | IssuedState st =>
      mkDecryptor (now d) (gen d) (bound d) (Some (run, st)) (disabled d) (retryAt d) (inflight d)
        (rerun d) (Some (gen d, run)) (nextRun d) (log d ++ [LInstalled run st])
  end.

(** [run], after [issue] returned. *)
Definition run_done (r : issued) (d : decryptor) : option decryptor :=
  match inflight d with
  | None => None
  | Some (run, g) =>
      let current := (gen d =? g)%Z && bound d && negb (rerun d) in
      let d := if current then take_up run r d else d in
      let d := mkDecryptor (now d) (gen d) (bound d) (state d) (disabled d) (retryAt d) None (rerun d)
                 (timer d) (nextRun d) (log d) in
      let d := if rerun d && (gen d =? g)%Z && bound d then beginLocked d else d in
      Some (mkDecryptor (now d) (gen d) (bound d) (state d) (disabled d) (retryAt d) (inflight d)
              false (timer d) (nextRun d) (log d))
  end.

(** When the refresh timer of a state is set to fire. *)
Definition refresh_after (notAfter t : Z) : Z :=
  Z.max (Z.quot ((notAfter - t) * (decryptRefreshDivisor - 1)) decryptRefreshDivisor) second.

Definition timer_fires (g : Z) (run : nat) (d : decryptor) : decryptor :=
  match state d with
  | Some (run', _) => if (gen d =? g)%Z && bool_decide (run' = run) && bound d then beginLocked d else d
  | None => d
  end.

(** One turn of the loop of [current]. *)
Inductive poll := Known (st : option decryptState) | Unknown | Wait.

Definition forget_state (d : decryptor) : decryptor :=
  mkDecryptor (now d) (gen d) (bound d) None (disabled d) (retryAt d) (inflight d) (rerun d) (timer d)
    (nextRun d) (log d).

Definition current_turn (d : decryptor) : poll * decryptor :=
  if usable (snd <$> state d) (now d) then (Known (snd <$> state d), d)
  else
    let d := forget_state d in
    if disabled d then (Known None, d)
    else if negb (bound d) || (bool_decide (inflight d = None) && (now d <? retryAt d)%Z)
    then (Unknown, d)
    else (Wait, match inflight d with None => beginLocked d | Some _ => d end).

(** ** Verdicts *)

Inductive decryptPlan :=
| Passthrough
| Terminate (cert : Leaf) (canonical : string)
| Refuse.

Section Classify.
Context `{lower : UnicodeLower} `{UnicodeQuote}.

(** [classify], with the answer of [current] and of [leaf]. *)
Definition classify (host : string) (answer : poll) (leaf : decryptState -> string -> res Leaf)
    : option decryptPlan :=
  match DecryptScope.CanonicalHost host with
  | None => Some Passthrough
  | Some canonical =>
      match answer with
      | Wait => None
      | Unknown => Some Refuse
      | Known None => Some Passthrough
      | Known (Some st) =>
          if negb (DecryptScope.Decrypts (st_allow st) (st_bypass st) canonical) then Some Passthrough
          else
            match leaf st canonical with
            | Fail _ => Some Refuse
            | Ok cert => Some (Terminate cert canonical)
            end
      end
  end.
End Classify.

(** ** Events *)

Inductive event :=
| Clock (t : Z)
| Attach (g : Z)
| Detach (g : Z)
| Bind (g : Z)
| Flush
| RunDone (r : issued)
| Timer (g : Z) (run : nat)
| Poll.

Definition step (e : event) (d : decryptor) : option decryptor :=
  match e with
  | Clock t =>
      Some (mkDecryptor t (gen d) (bound d) (state d) (disabled d) (retryAt d) (inflight d) (rerun d)
              (timer d) (nextRun d) (log d))
  | Attach g => Some (attach g d)
  | Detach g => Some (detach g d)
  | Bind g => Some (bind g d)
  | Flush => Some (flush d)
  | RunDone r => run_done r d
  | Timer g run => Some (timer_fires g run d)
  | Poll => Some (current_turn d).2
  end.

Fixpoint run (es : list event) (d : decryptor) : option decryptor :=
  match es with
  | [] => Some d
  | e :: es' => match step e d with Some d' => run es' d' | None => None end
  end.

Inductive reachable : decryptor -> Prop :=
| reach_new t : reachable (newDecryptor t)
| reach_step e d d' : reachable d -> step e d = Some d' -> reachable d'.

(** ** What is in use was issued since the last drop *)

Definition no_drop (l : list logged) : Prop := ~ LDrop ∈ l.

(** The run began after the last drop. *)
Definition fresh (l : list logged) (run : nat) : Prop :=
  exists l1 l2, l = l1 ++ LBegin run :: l2 /\ no_drop l2.

Record inv (d : decryptor) : Prop := {
  inv_state : forall run st, state d = Some (run, st) ->
    fresh (log d) run /\ LInstalled run st ∈ log d;
  inv_disabled : disabled d = true -> exists run, fresh (log d) run /\ LRefused run ∈ log d;
  inv_inflight : forall run g, inflight d = Some (run, g) -> rerun d = false -> fresh (log d) run
}.

Lemma fresh_app l run x : fresh l run -> x <> LDrop -> fresh (l ++ [x]) run.
Proof.
  intros (l1 & l2 & -> & Hn) Hx. exists l1, (l2 ++ [x]). rewrite <- app_assoc. split; [done|].
  intros [?|?%list_elem_of_singleton]%elem_of_app; [by apply Hn|congruence].
Qed.

Lemma inv_drop d : inv d -> inv (dropLocked d).
Proof.
  intros [H1 H2 H3]. split; simpl; [done|done|]. intros run g ->. done.
Qed.

Lemma inv_begin d : inv d -> inv (beginLocked d).
Proof.
  intros [H1 H2 H3]. unfold beginLocked. destruct (inflight d) as [[run g]|] eqn:E.
  - split; simpl; [done..|]. done.
  - split; simpl.
    + intros run st Hs. destruct (H1 _ _ Hs). split; [by apply fresh_app|set_solver].
    + intros Hd. destruct (H2 Hd) as (run & ? & ?). exists run. split; [by apply fresh_app|set_solver].
    + intros run g [= <- <-] _. exists (log d), []. split; [done|]. by intros ?%elem_of_nil.
Qed.

Lemma inv_take_up d run r g :
  inv d -> inflight d = Some (run, g) -> rerun d = false -> inv (take_up run r d).
Proof.
  intros [H1 H2 H3] Hi Hr. pose proof (H3 _ _ Hi Hr) as Hf. destruct r as [st| |]; split; simpl.
  - intros run' st' [= <- <-]. split; [by apply fresh_app|set_solver].
  - intros Hd. destruct (H2 Hd) as (x & ? & ?). exists x. split; [by apply fresh_app|set_solver].
  - intros run' g' Hi' _. apply fresh_app; [|done]. by eapply H3.
  - intros run' st' Hs. destruct (H1 _ _ Hs). split; [by apply fresh_app|set_solver].
  - intros _. exists run. split; [by apply fresh_app|set_solver].
  - intros run' g' Hi' _. apply fresh_app; [|done]. by eapply H3.
  - done.
  - done.
  - intros run' g' Hi' _. by eapply H3.
Qed.

(** Changes that touch neither the log nor what is in use. *)
Lemma inv_same d d' :
  inv d -> log d' = log d ->
  (state d' = state d \/ state d' = None) -> (disabled d' = true -> disabled d = true) ->
  (forall run g, inflight d' = Some (run, g) -> rerun d' = false ->
     inflight d = Some (run, g) /\ rerun d = false) -> inv d'.
Proof.
  intros [H1 H2 H3] Hl Hs Hd Hi. split; rewrite Hl.
  - intros run st E. apply H1. destruct Hs; congruence.
  - auto.
  - intros run g Hi' Hr. destruct (Hi _ _ Hi' Hr). by eapply H3.
Qed.

Lemma inv_run_done d r d' : inv d -> run_done r d = Some d' -> inv d'.
Proof.
  intros Hi. unfold run_done. destruct (inflight d) as [[run g]|] eqn:E; [|done].
  set (c := (gen d =? g)%Z && bound d && negb (rerun d)).
  assert (Ht : inv (if c then take_up run r d else d)).
  { destruct c eqn:Ec; [|done]. subst c. bool_to_prop. by eapply inv_take_up. }
  set (d1 := if c then take_up run r d else d) in *. clearbody d1.
  set (d2 := mkDecryptor _ _ _ _ _ _ None _ _ _ _).
  assert (H2 : inv d2) by (apply (inv_same d1); simpl; auto; done).
  set (d3 := if rerun d2 && (gen d2 =? g)%Z && bound d2 then beginLocked d2 else d2).
  assert (H3 : inv d3) by (unfold d3; case_match; [by apply inv_begin|done]).
  assert (Hr : inflight d3 <> None -> rerun d3 = false) by (unfold d3; by case_match).
  intros [= <-]. apply (inv_same d3); simpl; auto. intros x y Hx _. split; [done|].
  apply Hr. congruence.
Qed.

Lemma manager_inv_step e d d' : inv d -> step e d = Some d' -> inv d'.
Proof.
  intros Hi. destruct e; simpl; intros Hs; simplify_eq.
  - apply (inv_same d); simpl; auto.
  - apply inv_drop. apply (inv_same d); simpl; auto.
  - unfold detach. destruct (negb _); [done|]. apply inv_drop. apply (inv_same d); simpl; auto.
  - unfold bind. destruct (negb _); [done|]. apply inv_begin. apply (inv_same d); simpl; auto.
  - unfold flush. destruct (bound _); [by apply inv_begin, inv_drop|by apply inv_drop].
  - by eapply inv_run_done.
  - unfold timer_fires. destruct (state d) as [[run' st]|]; [|done].
    destruct (_ && _)%bool; [by apply inv_begin|done].
  - unfold current_turn. destruct (usable _ _); [done|].
    assert (Hf : inv (forget_state d)) by (apply (inv_same d); simpl; auto).
    destruct (disabled _); [done|]. destruct (_ || _)%bool; [done|]. simpl.
    destruct (inflight d); [done|by apply (inv_begin (forget_state d))].
Qed.

Lemma manager_reachable_inv d : reachable d -> inv d.
Proof. induction 1 as [t|e d d' _ IH Hs]; [by split|by eapply manager_inv_step]. Qed.


(** The verdict on a CONNECT fails closed: a host is passed through undecrypted only when
    it is not a DNS name, when the control plane refused decryption since the last policy
    or session change, or when a usable scope issued since then does not cover it; with no
    such knowledge the CONNECT is refused. *)
Theorem classify_fails_closed `{lower : UnicodeLower} `{UnicodeQuote} d host leaf :
  reachable d -> classify host (current_turn d).1 leaf = Some Passthrough ->
  DecryptScope.CanonicalHost host = None \/
  (exists run, fresh (log d) run /\ LRefused run ∈ log d) \/
  (exists run st canonical, state d = Some (run, st) /\ fresh (log d) run /\
     usable (Some st) (now d) = true /\ DecryptScope.CanonicalHost host = Some canonical /\
     DecryptScope.Decrypts (st_allow st) (st_bypass st) canonical = false).
Proof.
  intros Hd%manager_reachable_inv. unfold classify. destruct (DecryptScope.CanonicalHost host) as [canonical|];
    [|by left]. unfold current_turn.
  destruct (usable (snd <$> state d) (now d)) eqn:Hu; cbn [fst].
  - destruct (state d) as [[run st]|] eqn:Es; [|done]. cbn [fmap option_fmap option_map snd].
    destruct (DecryptScope.Decrypts _ _ canonical) eqn:Hdec; cbn [negb];
      [by destruct (leaf st canonical)|].
    intros _. right. right. exists run, st, canonical. split_and!; try done. by eapply inv_state.
  - destruct (disabled (forget_state d)) eqn:Hdis; cbn [fst].
    + intros _. right. left. by apply inv_disabled.
    + by destruct (negb _ || _)%bool.
Qed.

(** [current] never blocks on nothing: when it decides to wait, a request for the
    intermediate is in flight. *)
Theorem current_waits_for_a_run d :
  (current_turn d).1 = Wait -> inflight (current_turn d).2 <> None.
Proof.
  unfold current_turn. destruct (usable _ _); [done|]. destruct (disabled _); [done|].
  destruct (_ || _)%bool; [done|]. simpl. destruct (inflight d) as [x|] eqn:E; simpl.
  - by rewrite E.
  - unfold beginLocked. simpl. by rewrite E.
Qed.

(** ** Runs *)

Section Sample.
#[local] Instance sample_lower : UnicodeLower := fun s => s.
#[local] Instance sample_quote : UnicodeQuote := fun s => s.

Definition sample_scope : decryptState :=
  mkState (mkCert 0 0 true true None []) [] 0 (100 * minute) ["*.example.com"] [].

(** A flush overtakes the first run, whose result is dropped; the second one
    is installed. *)
Definition sample_events : list event :=
  [Attach 1; Bind 1; Flush; RunDone (IssuedState sample_scope); RunDone (IssuedState sample_scope)].

Definition sample : decryptor := default (newDecryptor 0) (run sample_events (newDecryptor 0)).

Lemma manager_run_reachable es d d' : reachable d -> run es d = Some d' -> reachable d'.
Proof.
  revert d. induction es as [|e es IH]; intros d Hd; simpl; [by intros [= <-]|].
  destruct (step e d) as [d1|] eqn:E; [|done]. apply IH. by eapply reach_step.
Qed.

Lemma manager_sample_reachable : reachable sample.
Proof.
  unfold sample. destruct (run _ _) as [d|] eqn:E; [|apply reach_new].
  eapply manager_run_reachable; [apply reach_new|exact E].
Qed.


Lemma classify_fails_closed_witness :
  DecryptScope.CanonicalHost "other.org" = None \/
  (exists run, fresh (log sample) run /\ LRefused run ∈ log sample) \/
  (exists run st canonical, state sample = Some (run, st) /\
     DecryptScope.CanonicalHost "other.org" = Some canonical).
Proof.
  destruct (classify_fails_closed sample "other.org" (fun _ _ => Fail errDecryptLeaf))
    as [Hc|[Hc|(run & st & canonical & Hs & _ & _ & Hc & _)]].
  - apply manager_sample_reachable.
  - vm_compute. reflexivity.
  - left. exact Hc.
  - right. left. exact Hc.
  - right. right. exists run, st, canonical. exact (conj Hs Hc).
Defined.

Lemma current_waits_for_a_run_witness :
  inflight (current_turn (set_session 1 true (newDecryptor 0))).2 <> None.
Proof. apply current_waits_for_a_run. vm_compute. reflexivity. Defined.

(** A session that is bound while the run of an older session is under way:
    the request to run again is lost with the old run, and only the next
    [current] starts one. *)
Example rebind_request_is_lost :
  let d := default (newDecryptor 0)
    (run [Attach 1; Bind 1; Attach 2; Bind 2; RunDone IssuedError] (newDecryptor 0)) in
  bound d = true /\ state d = None /\ inflight d = None /\ (current_turn d).1 = Wait.
Proof. vm_compute. done. Qed.
End Sample.
End Manager.
