(* ===== verification/Authz.v ===== *)
(** * Authorization decisions

    internal/authz: the shape of decision requests (decision.go), the facts a
    request is checked against and the decision itself (decide.go), the part
    of the request a policy set depends on (computeScopes), the names of
    destinations (host.go) and the credential a decision selects
    (credential.go). The Cedar engine is a parameter. *)
From S2P Require Import Prelude GoIO GoStrings GoNet.

(** ** decision.go *)
Module Decision.
Definition ActionEndpointAccess : string := "endpoint:access".
Definition ActionHTTPRequest : string := "http:request".
Definition ActionAgentConnect : string := "agent:connect".
Definition ActionEgressConnect : string := "egress:connect".
Definition ActionEgressRequest : string := "egress:request".

Definition DataPlaneActions : list string :=
  [ActionEndpointAccess; ActionHTTPRequest; ActionAgentConnect; ActionEgressConnect; ActionEgressRequest].

Definition EntityRole : string := "Role".
Definition EntityGroup : string := "Group".
Definition EntityUser : string := "User".
Definition EntityServiceAccount : string := "ServiceAccount".
Definition EntityAgent : string := "Agent".
Definition EntityAnonymous : string := "Anonymous".
Definition EntityEndpoint : string := "Endpoint".
Definition EntityDestination : string := "Destination".

Definition knownAuthMethods : list string :=
  ["none"; "password"; "oidc"; "basic"; "mtls"; "client_credentials"; "agent_token"; "workload_identity"].

Inductive Reason :=
| ReasonNone
| ReasonAllow
| ReasonInvalidRequest
| ReasonUnknownEntity
| ReasonAgentDisabled
| ReasonUserDisabled
| ReasonSessionRevoked
| ReasonSessionExpired
| ReasonPolicyDeny
| ReasonNoPolicyMatch
| ReasonPolicyError
| ReasonAuthStale
| ReasonUnavailable.

Definition reason_text (r : Reason) : string :=
  match r with
  | ReasonNone => ""
  | ReasonAllow => "allow"
  | ReasonInvalidRequest => "invalid_request"
  | ReasonUnknownEntity => "unknown_entity"
  | ReasonAgentDisabled => "agent_disabled"
  | ReasonUserDisabled => "user_disabled"
  | ReasonSessionRevoked => "session_revoked"
  | ReasonSessionExpired => "session_expired"
  | ReasonPolicyDeny => "policy_deny"
  | ReasonNoPolicyMatch => "no_policy_match"
  | ReasonPolicyError => "policy_error"
  | ReasonAuthStale => "auth_stale"
  | ReasonUnavailable => "unavailable"
  end.

Definition maxPathLength : Z := 2048.
Definition maxHostLength : Z := 253.
Definition maxFieldLength : Z := 256.

Record EntityRef := mkRef { RefType : string; RefID : string }.

#[export] Instance EntityRef_eq_dec : EqDecision EntityRef.
Proof. solve_decision. Defined.

#[export] Instance EntityRef_countable : Countable EntityRef.
Proof.
  refine (inj_countable' (fun r => (RefType r, RefID r)) (fun '(t, i) => mkRef t i) _). by intros [].
Defined.

(** Times are nanoseconds since the zero [time.Time]; [None] is a nil pointer. *)
Record RequestContext := mkContext {
  ClientIP : string;
  Host : string;
  TLS : bool;
  Method : string;
  Path : string;
  Protocol : string;
  SNI : string;
  Exit : string;
  ResolvedIP : string;
  Decrypted : bool;
  AuthMethod : string;
  AuthTime : option Z
}.

Record DecisionRequest := mkDecisionRequest {
  Principal : EntityRef;
  Action : string;
  Resource : EntityRef;
  Context : RequestContext
}.

Record DeterminingPolicy := mkDetermining { PolicyName : string; Annotations : gmap string string }.

Record CacheScope := mkCacheScope { ScopePath : bool; ScopeMethod : bool; ScopeResolvedIP : bool }.

#[export] Instance CacheScope_eq_dec : EqDecision CacheScope.
Proof. solve_decision. Defined.

Definition noScope : CacheScope := mkCacheScope false false false.

Record Decision := mkDecision {
  Allowed : bool;
  DReason : Reason;
  Policies : list DeterminingPolicy;
  Owner : string;
  PolicyVersion : string;
  TTLSeconds : Z;
  Scope : CacheScope
}.

Record actionShape := mkShape {
  principals : list string;
  sh_resource : string;
  needsHTTP : bool;
  needsProto : bool
}.

Definition people : list string := [EntityUser; EntityServiceAccount; EntityAnonymous].
Definition actors : list string := [EntityUser; EntityServiceAccount; EntityAgent].

(** [actionShapes[action]]. *)
Definition actionShapes (action : string) : option actionShape :=
  if bool_decide (action = ActionEndpointAccess) then Some (mkShape people EntityEndpoint false false)
  else if bool_decide (action = ActionHTTPRequest) then Some (mkShape people EntityEndpoint true false)
  else if bool_decide (action = ActionAgentConnect) then Some (mkShape actors EntityEndpoint false true)
  else if bool_decide (action = ActionEgressConnect) then Some (mkShape actors EntityDestination false false)
  else if bool_decide (action = ActionEgressRequest) then Some (mkShape actors EntityDestination true false)
  else None.

Definition containsType (types : list string) (t : string) : bool := existsb (fun c => bool_decide (c = t)) types.

(** [netip.ParseAddr]: the address and its zone. *)
Definition ParseAddr (s : string) : option (IP * string) :=
  let b := bytes_of s in
  match List.find (fun c => Ascii.eqb c "."%char || Ascii.eqb c ":"%char || Ascii.eqb c "%"%char) b with
  | Some ":"%char =>
      match split_bytes "%"%char b with
      | [] => None
      | [addr] => (fun ip => (ip, "")) <$> parse_ipv6 addr
      | addr :: rest =>
          let zone := join_bytes "%"%char rest in
          if bool_decide (zone = []) then None else (fun ip => (ip, string_of zone)) <$> parse_ipv6 addr
      end
  | _ => (fun '(ip, _) => (ip, "")) <$> parse_addr b
  end.

Definition ErrInvalidRequest : goerr := ENew "invalid decision request".
Definition invalid (what : string) : goerr := EWrap "" ErrInvalidRequest (": " +:+ what).

(** The first error of a table of required or bounded fields. *)
Fixpoint required (fields : list (string * string * Z)) : option goerr :=
  match fields with
  | [] => None
  | (name, value, max) :: rest =>
      if bool_decide (value = "") then Some (invalid (name +:+ " is required"))
      else if (max <? slen value)%Z then Some (invalid (name +:+ " exceeds " +:+ pretty max +:+ " bytes"))
      else required rest
  end.

Fixpoint bounded (fields : list (string * string * Z)) : option goerr :=
  match fields with
  | [] => None
  | (name, value, max) :: rest =>
      if (max <? slen value)%Z then Some (invalid (name +:+ " exceeds " +:+ pretty max +:+ " bytes"))
      else bounded rest
  end.

Definition truncate (s : string) : string :=
  if (64 <? slen s)%Z then string_of (take 64 (bytes_of s)) +:+ "..." else s.

(** Sequencing of checks: the first error wins. *)
Definition orElse (e : option goerr) (k : option goerr) : option goerr :=
  match e with Some _ => e | None => k end.

Definition failIf (b : bool) (e : goerr) : option goerr := if b then Some e else None.

Section WithQuote.
Context `{UnicodeQuote}.

Definition Validate (r : DecisionRequest) : option goerr :=
  let c := Context r in
  match actionShapes (Action r) with
  | None => Some (invalid ("action " +:+ Quote (truncate (Action r)) +:+ " is not a data-plane action"))
  | Some shape =>
      orElse (failIf (negb (containsType (principals shape) (RefType (Principal r))))
        (invalid ("principal type " +:+ Quote (truncate (RefType (Principal r))) +:+ " not allowed for " +:+ Action r)))
      (orElse (failIf (negb (bool_decide (RefType (Resource r) = sh_resource shape)))
        (invalid ("resource type " +:+ Quote (truncate (RefType (Resource r))) +:+ " not allowed for " +:+ Action r)))
      (orElse (required [("principal.id", RefID (Principal r), maxFieldLength);
                         ("resource.id", RefID (Resource r), maxFieldLength);
                         ("client_ip", ClientIP c, maxFieldLength)])
      (orElse (bounded [("host", Host c, maxHostLength); ("path", Path c, maxPathLength);
                        ("method", Method c, maxFieldLength); ("protocol", Protocol c, maxFieldLength);
                        ("sni", SNI c, maxHostLength); ("exit", Exit c, maxFieldLength);
                        ("resolved_ip", ResolvedIP c, maxFieldLength)])
      (orElse (failIf (needsHTTP shape && (bool_decide (Method c = "") || bool_decide (Path c = "")))
        (invalid ("method and path are required for " +:+ Action r)))
      (orElse (failIf (needsProto shape && bool_decide (Protocol c = ""))
        (invalid ("protocol is required for " +:+ Action r)))
      (orElse (failIf (negb (bool_decide (Exit c = "")) && negb (bool_decide (Action r = ActionEgressConnect))
                       && negb (bool_decide (Action r = ActionEgressRequest)))
        (invalid "exit only applies to egress actions"))
      (orElse (failIf (Decrypted c && negb (bool_decide (Action r = ActionEgressRequest)))
        (invalid ("decrypted only applies to " +:+ ActionEgressRequest)))
      (orElse (if bool_decide (ResolvedIP c = "") then None
               else if negb (bool_decide (Action r = ActionEgressConnect))
               then Some (invalid ("resolved_ip only applies to " +:+ ActionEgressConnect))
               else failIf (negb (bool_decide (is_Some (ParseAddr (ResolvedIP c)))))
                      (invalid "resolved_ip is not an ip address"))
        (failIf (negb (bool_decide (AuthMethod c ∈ knownAuthMethods)))
           (invalid ("unknown auth_method " +:+ Quote (truncate (AuthMethod c)))))))))))))
  end.
End WithQuote.

Definition ReauthRequiredReason : string := "reauth_required".

Definition reason_eqb (a b : Reason) : bool :=
  match a, b with
  | ReasonNone, ReasonNone | ReasonAllow, ReasonAllow | ReasonInvalidRequest, ReasonInvalidRequest
  | ReasonUnknownEntity, ReasonUnknownEntity | ReasonAgentDisabled, ReasonAgentDisabled
  | ReasonUserDisabled, ReasonUserDisabled | ReasonSessionRevoked, ReasonSessionRevoked
  | ReasonSessionExpired, ReasonSessionExpired | ReasonPolicyDeny, ReasonPolicyDeny
  | ReasonNoPolicyMatch, ReasonNoPolicyMatch | ReasonPolicyError, ReasonPolicyError
  | ReasonAuthStale, ReasonAuthStale | ReasonUnavailable, ReasonUnavailable => true
  | _, _ => false
  end.

Definition annotation (p : DeterminingPolicy) (k : string) : string := default "" (Annotations p !! k).

Definition NeedsReauth (d : Decision) : bool :=
  if Allowed d then false
  else if reason_eqb (DReason d) ReasonAuthStale then true
  else existsb (fun p => bool_decide (annotation p "reason" = ReauthRequiredReason)) (Policies d).

(** ** credential.go *)

Definition CredentialAnnotation : string := "credential".
Definition ErrCredentialConflict : goerr := ENew "determining policies select different credentials".

(** The names the determining policies select, each one once. *)
Definition credential_names (d : Decision) : list string :=
  fold_left (fun names p =>
    let name := annotation p CredentialAnnotation in
    if negb (bool_decide (name = "")) && negb (bool_decide (name ∈ names)) then names ++ [name] else names)
    (Policies d) [].

Definition SelectedCredential (d : Decision) : res string :=
  match credential_names d with
  | [] => Ok ""
  | [name] => Ok name
  | names => Fail (EWrap "" ErrCredentialConflict
               (": [" +:+ String.concat " " (sort_by str_leb names) +:+ "]"))
  end.

Lemma credential_names_spec d :
  NoDup (credential_names d) /\
  forall name, name ∈ credential_names d <->
    name <> "" /\ exists p, p ∈ Policies d /\ annotation p CredentialAnnotation = name.
Proof.
  unfold credential_names. induction (Policies d) as [|p ps [IHnd IH]] using rev_ind; simpl.
  { split; [constructor|]. intros name. rewrite elem_of_nil. setoid_rewrite elem_of_nil. naive_solver. }
  rewrite fold_left_app. cbn [fold_left]. set (names := fold_left _ ps []) in *.
  assert (Hsnoc : forall name, (exists q, q ∈ ps ++ [p] /\ annotation q CredentialAnnotation = name) <->
    (exists q, q ∈ ps /\ annotation q CredentialAnnotation = name) \/ annotation p CredentialAnnotation = name).
  { intros name. setoid_rewrite elem_of_app. setoid_rewrite list_elem_of_singleton. naive_solver. }
  setoid_rewrite Hsnoc. destruct (_ && _)%bool eqn:E.
  - bool_to_prop. split.
    + apply NoDup_app. repeat split; [done| |apply NoDup_singleton].
      intros x Hx ->%list_elem_of_singleton. done.
    + intros name. rewrite elem_of_app, list_elem_of_singleton, IH. naive_solver.
  - split; [done|]. intros name. rewrite IH. apply andb_false_iff in E.
    rewrite !negb_false_iff, !bool_decide_eq_true in E. split; [naive_solver|].
    intros [Hne [Hq|Hp]]; [done|]. destruct E as [E|E]; [congruence|]. rewrite Hp in E. by apply IH in E.
Qed.

(** The credential a decision selects does not depend on the order of its policies: a name
    is selected exactly when every determining policy that names a credential names that
    one (none of them naming any selects the empty name), and every disagreement is an
    error. *)
Theorem SelectedCredential_unanimous d c :
  SelectedCredential d = Ok c <->
  (forall p, p ∈ Policies d -> annotation p CredentialAnnotation = "" \/ annotation p CredentialAnnotation = c) /\
  (c <> "" -> exists p, p ∈ Policies d /\ annotation p CredentialAnnotation = c).
Proof.
  destruct (credential_names_spec d) as [Hnd Hin]. unfold SelectedCredential.
  destruct (credential_names d) as [|a [|b l]].
  - setoid_rewrite elem_of_nil in Hin. split.
    + intros [= <-]. split; [|done]. intros p Hp. left. apply dec_stable. intros Hne. naive_solver.
    + intros [_ Hc]. destruct (decide (c = "")) as [->|Hne]; [done|]. destruct (Hc Hne) as (p&Hp&Ha). naive_solver.
  - setoid_rewrite list_elem_of_singleton in Hin. destruct (proj1 (Hin a) eq_refl) as [Hne (q&Hq&Ha)]. split.
    + intros [= <-]. split; [|by eauto]. intros p Hp.
      destruct (decide (annotation p CredentialAnnotation = "")); [by left|]. right. apply Hin. eauto.
    + intros [Hall _]. f_equal. destruct (Hall q Hq); congruence.
  - split; [done|]. intros [Hall _]. apply NoDup_cons in Hnd as [Hab _].
    destruct (proj1 (Hin a) ltac:(left)) as [Ha (p&Hp&Hpa)].
    destruct (proj1 (Hin b) ltac:(right; left)) as [Hb (q&Hq&Hqb)].
    destruct (Hall p Hp), (Hall q Hq); try congruence. destruct Hab. replace a with b by congruence. left.
Qed.
End Decision.

(** ** host.go *)
Module HostNames.
Import Decision.
Section WithUnicode.
Context `{lower : UnicodeLower} `{UnicodeQuote}.

(** The bytes of the [ContainsAny] literal. *)
Definition forbidden_bytes : list Z := [0; 92; 47; 64; 58; 91; 93; 37; 32; 9; 13; 10]%Z.

Fixpoint has_dotdot (l : list byte) : bool :=
  match l with
  | a :: ((b :: _) as l') => (Ascii.eqb a "."%char && Ascii.eqb b "."%char) || has_dotdot l'
  | _ => false
  end.

Definition NormalizeHost (host : string) : res string :=
  let h := ToLower (TrimSpace host) in
  let h := if HasPrefix h "[" && HasSuffix h "]"
           then string_of (take (length (bytes_of h) - 2) (drop 1 (bytes_of h))) else h in
  match ParseAddr h with
  | Some (addr, zone) =>
      if negb (bool_decide (zone = ""))
      then Fail (invalid ("host " +:+ Quote (truncate host) +:+ " must not carry a zone"))
      else Ok (ip_string addr)
  | None =>
      let h := TrimSuffix h "." in
      if bool_decide (h = "") || (maxHostLength <? slen h)%Z
      then Fail (invalid ("host must be 1-" +:+ pretty maxHostLength +:+ " characters"))
      else if existsb (fun b => existsb (Z.eqb (byteZ b)) forbidden_bytes) (bytes_of h)
              || has_dotdot (bytes_of h) || HasPrefix h "."
      then Fail (invalid ("host " +:+ Quote (truncate host) +:+ " is not a valid name"))
      else Ok h
  end.

Definition NormalizeDestination (hostport : string) : res string :=
  match SplitHostPort (TrimSpace hostport) with
  | None => Fail (invalid ("destination " +:+ Quote (truncate hostport) +:+ " must be host:port"))
  | Some (host, portStr) =>
      let bad := Fail (invalid ("destination " +:+ Quote (truncate hostport) +:+ " has an invalid port")) in
      match Atoi portStr with
      | None => bad
      | Some port =>
          if (port <? 1)%Z || (65535 <? port)%Z || negb (bool_decide (Itoa port = portStr)) then bad
          else
            match NormalizeHost host with
            | Fail err => Fail err
            | Ok h => Ok (JoinHostPort h portStr)
            end
      end
  end.
End WithUnicode.
End HostNames.

(** ** decide.go *)
Module Decide.
Import Decision HostNames.

Definition second : Z := 1000000000.
Definition DefaultDecisionTTLSeconds : Z := 60.
Definition DefaultMaxAuthAge : Z := 12 * 3600 * second.

Record GroupRef := mkGroup { GroupID : string; GroupName : string }.

Record Subject := mkSubject {
  Ref : EntityRef;
  Email : string;
  SubjectName : string;
  Role : string;
  Groups : list GroupRef;
  SubjectDisabled : bool
}.

Record EndpointEntity := mkEndpoint {
  EndpointID : string;
  Kind : string;
  EndpointMethod : string;
  ConnectAnyAgent : bool;
  ConnectAgents : list string
}.

Record AgentEntity := mkAgent { AgentID : string; AgentName : string; AgentDisabled : bool }.

Record SessionFacts := mkSessionFacts { ExpiresAt : Z; Revoked : bool }.

Record Facts := mkFacts {
  Now : Z;
  FSubject : option Subject;
  FEndpoint : option EndpointEntity;
  FAgent : option AgentEntity;
  FExit : option AgentEntity;
  FSession : option SessionFacts;
  MaxAuthAge : Z
}.

(** [checkFacts]: [None] is "facts are fine". *)
Definition checkFacts (req : DecisionRequest) (facts : Facts) : option Reason :=
  match FSubject facts with
  | None => Some ReasonUnknownEntity
  | Some subject =>
      let needsAgent := bool_decide (Action req = ActionAgentConnect)
        || bool_decide (Action req = ActionEgressConnect) || bool_decide (Action req = ActionEgressRequest) in
      if negb (bool_decide (Ref subject = Principal req)) then Some ReasonUnknownEntity
      else if bool_decide (RefType (Resource req) = EntityEndpoint)
              && negb (bool_decide (EndpointID <$> FEndpoint facts = Some (RefID (Resource req))))
      then Some ReasonUnknownEntity
      else if needsAgent && bool_decide (AgentID <$> FAgent facts = None) then Some ReasonUnknownEntity
      else if bool_decide (RefType (Principal req) = EntityAgent)
              && negb (bool_decide (AgentID <$> FAgent facts = Some (RefID (Principal req))))
      then Some ReasonUnknownEntity
      else if negb (bool_decide (Exit (Context req) = ""))
              && negb (bool_decide (AgentID <$> FExit facts = Some (Exit (Context req))))
      then Some ReasonUnknownEntity
      else if bool_decide (AgentDisabled <$> FExit facts = Some true) then Some ReasonAgentDisabled
      else if bool_decide (AgentDisabled <$> FAgent facts = Some true) then Some ReasonAgentDisabled
      else if SubjectDisabled subject
      then Some (if bool_decide (RefType (Principal req) = EntityAgent) then ReasonAgentDisabled
                 else ReasonUserDisabled)
      else
        match FSession facts with
        | None => None
        | Some s =>
            if Revoked s then Some ReasonSessionRevoked
            else if negb (Now facts <? ExpiresAt s)%Z then Some ReasonSessionExpired
            else None
        end
  end.


(** The authentication time policies may see, and whether one was withheld. *)
Definition freshAuthTime (authTime : option Z) (facts : Facts) : option Z * bool :=
  match authTime with
  | None => (None, false)
  | Some t =>
      let maxAge := if (MaxAuthAge facts <=? 0)%Z then DefaultMaxAuthAge else MaxAuthAge facts in
      if (maxAge <? time_sub (Now facts) t)%Z then (None, true) else (Some t, false)
  end.

(** Cedar values. *)
Inductive value :=
| VString (s : string)
| VBool (b : bool)
| VLong (z : Z)
| VEntity (r : EntityRef)
| VIP (ip : IP)
| VDatetime (t : Z)
| VSet (l : list value).

Record Entity := mkEntity { EParents : list EntityRef; EAttributes : gmap string value }.

Abbreviation EntityMap := (gmap EntityRef Entity).

Definition agentRef (id : string) : EntityRef := mkRef EntityAgent id.

(** [parseClientIP]. *)
Definition parseClientIP (s : string) : option IP := fst <$> ParseAddr s.

Section WithUnicode.
Context `{lower : UnicodeLower} `{UnicodeQuote}.

(** The entity of a normalized destination; [None] is an error. *)
Definition destinationEntity (id : string) : option Entity :=
  match NormalizeDestination id with
  | Fail _ => None
  | Ok normalized =>
      if negb (bool_decide (normalized = id)) then None
      else
        let '(host, portStr) := default ("", "") (SplitHostPort id) in
        Some (mkEntity [] (<["host" := VString host]> {["port" := VLong (default 0%Z (Atoi portStr))]}))
  end.
End WithUnicode.

(** [entities[uid] = e] only when absent. *)
Definition add_absent (uid : EntityRef) (e : Entity) (m : EntityMap) : EntityMap :=
  match m !! uid with Some _ => m | None => <[uid := e]> m end.

Definition add_groups (groups : list GroupRef) (m : EntityMap) : EntityMap :=
  fold_left (fun m g =>
    <[mkRef EntityGroup (GroupID g) := mkEntity [] {["name" := VString (GroupName g)]}]> m) groups m.

Definition role_of (s : Subject) : option EntityRef :=
  if negb (bool_decide (Role s = "")) && negb (bool_decide (RefType (Ref s) = EntityAgent))
     && negb (bool_decide (RefType (Ref s) = EntityAnonymous))
  then Some (mkRef EntityRole (Role s)) else None.

Definition principal_entity (s : Subject) : Entity :=
  let parents := match role_of s with Some r => [r] | None => [] end
                 ++ map (fun g => mkRef EntityGroup (GroupID g)) (Groups s) in
  mkEntity parents
    (if bool_decide (RefType (Ref s) = EntityUser) then {["email" := VString (Email s)]}
     else if bool_decide (RefType (Ref s) = EntityServiceAccount) || bool_decide (RefType (Ref s) = EntityAgent)
     then {["name" := VString (SubjectName s)]} else ∅).

Definition buildEntities (req : DecisionRequest) (subject : Subject) (facts : Facts)
    (destination : option Entity) : EntityMap :=
  let m : EntityMap := match role_of subject with Some r => {[r := mkEntity [] ∅]} | None => ∅ end in
  let m := add_groups (Groups subject) m in
  let m := <[Ref subject := principal_entity subject]> m in
  let m := match FAgent facts with
           | Some a => add_absent (agentRef (AgentID a)) (mkEntity [] {["name" := VString (AgentName a)]}) m
           | None => m
           end in
  let m := match FExit facts with
           | Some x => if bool_decide (Exit (Context req) = "") then m
                       else add_absent (agentRef (AgentID x)) (mkEntity [] {["name" := VString (AgentName x)]}) m
           | None => m
           end in
  let m := match FEndpoint facts with
           | Some ep =>
               if bool_decide (RefType (Resource req) = EntityEndpoint)
               then <[Resource req := mkEntity []
                        (<["kind" := VString (Kind ep)]> (<["method" := VString (EndpointMethod ep)]>
                        (<["connect_any_agent" := VBool (ConnectAnyAgent ep)]>
                        {["connect_agents" := VSet (map (fun id => VEntity (agentRef id)) (ConnectAgents ep))]})))]> m
               else m
           | None => m
           end in
  match destination with
  | Some e => if bool_decide (RefType (Resource req) = EntityDestination) then <[Resource req := e]> m else m
  | None => m
  end.

(** An entry that is there or not. *)
Definition put_if (b : bool) (k : string) (v : value) (m : gmap string value) : gmap string value :=
  if b then <[k := v]> m else m.

Definition buildContext (req : DecisionRequest) (facts : Facts) (clientIP : IP) (authTime : option Z)
    : gmap string value :=
  let c := Context req in
  let agent := VEntity (agentRef (default "" (AgentID <$> FAgent facts))) in
  let exit := VEntity (agentRef (Exit c)) in
  let m := <["client_ip" := VIP clientIP]> (<["now" := VDatetime (Now facts)]>
             {["auth_method" := VString (AuthMethod c)]}) in
  let m := match authTime with Some t => <["auth_time" := VDatetime t]> m | None => m end in
  let act_is a := bool_decide (Action req = a) in
  if act_is ActionEndpointAccess || act_is ActionHTTPRequest then
    let m := <["tls" := VBool (TLS c)]> (<["host" := VString (Host c)]> m) in
    if act_is ActionHTTPRequest then <["path" := VString (Path c)]> (<["method" := VString (Method c)]> m) else m
  else if act_is ActionAgentConnect then <["protocol" := VString (Protocol c)]> (<["agent" := agent]> m)
  else if act_is ActionEgressConnect then
    let m := put_if (negb (bool_decide (SNI c = ""))) "sni" (VString (SNI c)) (<["agent" := agent]> m) in
    let m := put_if (negb (bool_decide (Exit c = ""))) "exit" exit m in
    match parseClientIP (ResolvedIP c) with Some ip => <["resolved_ip" := VIP ip]> m | None => m end
  else if act_is ActionEgressRequest then
    put_if (negb (bool_decide (Exit c = ""))) "exit" exit
      (<["decrypted" := VBool (Decrypted c)]> (<["tls" := VBool (TLS c)]>
      (<["path" := VString (Path c)]> (<["method" := VString (Method c)]> (<["agent" := agent]> m)))))
  else m.

(** ** Cedar policies as the code reads them *)

(** [encoding/json] values of type [any]; the entries of an object have
    different names. *)
Inductive json :=
| JObj (l : list (string * json))
| JArr (l : list json)
| JStr (s : string)
| JNum (z : Z)
| JBool (b : bool)
| JNull.

Fixpoint jget (k : string) (l : list (string * json)) : option json :=
  match l with
  | [] => None
  | (k', v) :: l' => if bool_decide (k = k') then Some v else jget k l'
  end.

Record entityJSON := mkEntityJSON { ej_type : string; ej_id : string }.

(** schema.go: policyJSON. A condition that is not JSON is [None]. *)
Record policyJSON := mkPolicyJSON {
  op : string;
  entity : option entityJSON;
  entities : list entityJSON;
  conditions : list (option json)
}.

(** A policy of the set: what [parsePolicyJSON] gives ([None] is an error) and
    its annotations. *)
Record Policy := mkPolicy {
  PolicyID : string;
  parsePolicyJSON : option policyJSON;
  PAnnotations : gmap string string
}.

(** *** schema.go: scopeFromJSON *)

Record actionScope := mkActionScope { all : bool; actions : gset string }.

Definition covers (s : actionScope) (act : string) : bool := all s || bool_decide (act ∈ actions s).

Definition action_of (e : entityJSON) : gset string :=
  if bool_decide (ej_type e = "Action") then {[ej_id e]} else ∅.

Definition scopeFromJSON (pj : policyJSON) : actionScope :=
  if bool_decide (op pj = "All") then mkActionScope true ∅
  else mkActionScope false
         (match entity pj with Some e => action_of e | None => ∅ end ∪ ⋃ map action_of (entities pj)).

(** *** What a policy reads of the context *)

Definition allContextScope : CacheScope := mkCacheScope true true true.

Definition forAction (s : CacheScope) (act : string) : CacheScope :=
  if bool_decide (act = ActionEgressConnect) then s
  else mkCacheScope (ScopePath s) (ScopeMethod s) false.

Definition scope_or (a b : CacheScope) : CacheScope :=
  mkCacheScope (ScopePath a || ScopePath b) (ScopeMethod a || ScopeMethod b)
    (ScopeResolvedIP a || ScopeResolvedIP b).

Definition isContextVar (n : list (string * json)) : bool :=
  match n with
  | [(k, JStr v)] => bool_decide (k = "Var") && bool_decide (v = "context")
  | _ => false
  end.

(** An object with the one entry "." or "has" whose left side is the context:
    the attribute it names. *)
Definition context_access (n : list (string * json)) : option (option json) :=
  match n with
  | [(k, JObj access)] =>
      if bool_decide (k = ".") || bool_decide (k = "has") then
        match jget "left" access with
        | Some (JObj lhs) => if isContextVar lhs then Some (jget "attr" access) else None
        | _ => None
        end
      else None
  | _ => None
  end.

Definition attr_scope (attr : option json) : CacheScope :=
  match attr with
  | Some (JStr a) =>
      mkCacheScope (bool_decide (a = "path")) (bool_decide (a = "method")) (bool_decide (a = "resolved_ip"))
  | _ => noScope
  end.

(** [collectContextRefs]: the references are accumulated with "or". *)
Fixpoint collectContextRefs (node : json) : CacheScope :=
  match node with
  | JObj n =>
      if isContextVar n then allContextScope
      else
        match context_access n with
        | Some attr => attr_scope attr
        | None => foldr (fun kv acc => scope_or (collectContextRefs kv.2) acc) noScope n
        end
  | JArr l => foldr (fun v acc => scope_or (collectContextRefs v) acc) noScope l
  | _ => noScope
  end.

(** The references of the conditions, all of them when one is unreadable. *)
Fixpoint condition_refs (conds : list (option json)) (refs : CacheScope) : CacheScope :=
  match conds with
  | [] => refs
  | None :: _ => allContextScope
  | Some node :: rest => condition_refs rest (scope_or refs (collectContextRefs node))
  end.

Abbreviation scope_map := (gmap string CacheScope).

Definition scope_of (m : scope_map) (act : string) : CacheScope := default noScope (m !! act).

Definition widen (refs : CacheScope) (s : actionScope) (m : scope_map) : scope_map :=
  fold_left (fun m act =>
    if covers s act then <[act := scope_or (scope_of m act) (forAction refs act)]> m else m)
    DataPlaneActions m.

Fixpoint compute_loop (ps : list Policy) (m : scope_map) : scope_map :=
  match ps with
  | [] => m
  | p :: rest =>
      match parsePolicyJSON p with
      | None => fold_left (fun m act => <[act := forAction allContextScope act]> m) DataPlaneActions m
      | Some pj =>
          let refs := condition_refs (conditions pj) noScope in
          if bool_decide (refs = noScope) then compute_loop rest m
          else compute_loop rest (widen refs (scopeFromJSON pj) m)
      end
  end.

Definition computeScopes (ps : list Policy) : scope_map := compute_loop ps ∅.

(** ** The decision *)

Record cedarRequest := mkCedarRequest {
  cr_principal : EntityRef;
  cr_action : EntityRef;
  cr_resource : EntityRef;
  cr_context : gmap string value
}.

Record Diagnostic := mkDiagnostic { Errors : list string; Reasons : list string }.

(** The Cedar engine: [cedar.Authorize], and the value of a condition. *)
Class Cedar := {
  cvalue : Type;
  Authorize : list Policy -> EntityMap -> cedarRequest -> bool * Diagnostic;
  evalCondition : json -> EntityMap -> cedarRequest -> cvalue
}.

Record Authorizer := mkAuthorizer {
  policies : list Policy;
  version : string;
  owner : string;
  scopes : scope_map
}.

(** [New], given the parsed policy set and the digest of its source. *)
Definition New (ps : list Policy) (digest : string) : Authorizer :=
  mkAuthorizer ps digest "default" (computeScopes ps).

Definition policyName (p : Policy) : string :=
  match PAnnotations p !! "id" with
  | Some named => if bool_decide (named = "") then PolicyID p else named
  | None => PolicyID p
  end.

Definition determining (ps : list Policy) (reasons : list string) : list DeterminingPolicy :=
  sort_by (fun a b => str_leb (PolicyName a) (PolicyName b))
    (omap (fun r =>
       match List.find (fun p => bool_decide (PolicyID p = r)) ps with
       | Some p => Some (mkDetermining (policyName p) (delete "id" (PAnnotations p)))
       | None => None
       end) reasons).

Section Deciding.
Context `{lower : UnicodeLower} `{UnicodeQuote} `{Cedar}.

Definition request_of (req : DecisionRequest) (facts : Facts) (clientIP : IP) : cedarRequest :=
  mkCedarRequest (Principal req) (mkRef "Action" (Action req)) (Resource req)
    (buildContext req facts clientIP (freshAuthTime (AuthTime (Context req)) facts).1).

(** [clock] is [time.Now()], read when the facts carry no time. *)
Definition Decide (clock : Z) (a : Authorizer) (req : DecisionRequest) (facts : Facts) : Decision :=
  let facts := if (Now facts =? 0)%Z
    then mkFacts clock (FSubject facts) (FEndpoint facts) (FAgent facts) (FExit facts) (FSession facts) (MaxAuthAge facts)
    else facts in
  let scope := scope_of (scopes a) (Action req) in
  let deny reason := mkDecision false reason [] (owner a) (version a) 0 scope in
  match Validate req with
  | Some _ => deny ReasonInvalidRequest
  | None =>
      match parseClientIP (ClientIP (Context req)) with
      | None => deny ReasonInvalidRequest
      | Some clientIP =>
          let destination := destinationEntity (RefID (Resource req)) in
          if bool_decide (RefType (Resource req) = EntityDestination)
             && negb (match destination with Some _ => true | None => false end)
          then deny ReasonInvalidRequest
          else
            match checkFacts req facts, FSubject facts with
            | Some reason, _ => deny reason
            | None, None => deny ReasonUnknownEntity
            | None, Some subject =>
                let '(allow, diag) := Authorize (policies a) (buildEntities req subject facts destination)
                                        (request_of req facts clientIP) in
                let stripped := (freshAuthTime (AuthTime (Context req)) facts).2 in
                let pols := determining (policies a) (Reasons diag) in
                if negb (bool_decide (Errors diag = [])) then deny ReasonPolicyError
                else if allow
                then mkDecision true ReasonAllow pols (owner a) (version a) DefaultDecisionTTLSeconds scope
                else if stripped
                then mkDecision false ReasonAuthStale pols (owner a) (version a) 0 scope
                else if negb (bool_decide (Reasons diag = []))
                then mkDecision false ReasonPolicyDeny pols (owner a) (version a) DefaultDecisionTTLSeconds scope
                else mkDecision false ReasonNoPolicyMatch pols (owner a) (version a) DefaultDecisionTTLSeconds scope
            end
      end
  end.

(** *** What an allow means *)

(** The facts an allowed request was checked against. *)
Record facts_hold (req : DecisionRequest) (facts : Facts) : Prop := {
  fh_subject : exists s, FSubject facts = Some s /\ Ref s = Principal req /\ SubjectDisabled s = false;
  fh_endpoint : RefType (Resource req) = EntityEndpoint ->
    EndpointID <$> FEndpoint facts = Some (RefID (Resource req));
  fh_agent : Action req ∈ [ActionAgentConnect; ActionEgressConnect; ActionEgressRequest] ->
    is_Some (FAgent facts);
  fh_agent_self : RefType (Principal req) = EntityAgent ->
    AgentID <$> FAgent facts = Some (RefID (Principal req));
  fh_exit : Exit (Context req) <> "" -> AgentID <$> FExit facts = Some (Exit (Context req));
  fh_enabled : forall x, FAgent facts = Some x \/ FExit facts = Some x -> AgentDisabled x = false;
  fh_session : forall s, FSession facts = Some s -> Revoked s = false /\ (Now facts < ExpiresAt s)%Z
}.

Lemma checkFacts_None req facts : checkFacts req facts = None -> facts_hold req facts.
Proof.
  unfold checkFacts. destruct (FSubject facts) as [s|] eqn:Es; [|done]. intros Hc.
  destruct (negb (bool_decide (Ref s = Principal req))) eqn:E1; [done|].
  destruct (_ && negb (bool_decide (EndpointID <$> _ = _)))%bool eqn:E2; [done|].
  destruct (_ && bool_decide (AgentID <$> _ = None))%bool eqn:E3; [done|].
  destruct (bool_decide (RefType (Principal req) = _) && _)%bool eqn:E4; [done|].
  destruct (negb (bool_decide (Exit _ = "")) && _)%bool eqn:E5; [done|].
  destruct (bool_decide (AgentDisabled <$> FExit facts = Some true)) eqn:E6; [done|].
  destruct (bool_decide (AgentDisabled <$> FAgent facts = Some true)) eqn:E7; [done|].
  destruct (SubjectDisabled s) eqn:E8; [done|]. bool_to_prop.
  apply andb_false_iff in E2, E3, E4, E5. rewrite !negb_false_iff, !bool_decide_eq_true in *.
  rewrite !bool_decide_eq_false in *. split.
  - by exists s.
  - naive_solver.
  - rewrite !elem_of_cons, elem_of_nil. intros Ha. destruct (FAgent facts) as [x|]; [done|].
    destruct E3 as [E3|E3]; [|done]. rewrite !orb_false_iff, !bool_decide_eq_false in E3. naive_solver.
  - naive_solver.
  - intros He. destruct E5 as [E5|E5]; [|done]. by apply He in E5.
  - intros x [Hx|Hx]; rewrite Hx in *; simpl in *; destruct (AgentDisabled x); naive_solver.
  - intros x Hx. rewrite Hx in Hc. destruct (Revoked x); [done|].
    destruct (Z.ltb_spec (Now facts) (ExpiresAt x)); [done|]. done.
Qed.

(** The facts with the time [Decide] uses. *)
Definition timed (clock : Z) (facts : Facts) : Facts :=
  if (Now facts =? 0)%Z
  then mkFacts clock (FSubject facts) (FEndpoint facts) (FAgent facts) (FExit facts) (FSession facts) (MaxAuthAge facts)
  else facts.

(** C39: An allow is given only to a valid request whose subject is known and not disabled,
    whose agent and exit are known where needed and enabled, whose session is neither
    revoked nor expired, whose destination is in normal form, and for which Cedar allowed
    without a single policy failing to evaluate. *)
Theorem allowed_means_checked clock a req facts :
  Allowed (Decide clock a req facts) = true ->
  Validate req = None /\ facts_hold req (timed clock facts) /\
  (RefType (Resource req) = EntityDestination ->
     NormalizeDestination (RefID (Resource req)) = Ok (RefID (Resource req))) /\
  exists subject ip diag, parseClientIP (ClientIP (Context req)) = Some ip /\ Errors diag = [] /\
    Authorize (policies a)
      (buildEntities req subject (timed clock facts) (destinationEntity (RefID (Resource req))))
      (request_of req (timed clock facts) ip) = (true, diag).
Proof.
  unfold Decide. fold (timed clock facts). destruct (Validate req); [done|].
  destruct (parseClientIP _) as [ip|] eqn:Eip; [|done]. destruct (_ && _)%bool eqn:Ed; [done|].
  destruct (checkFacts req (timed clock facts)) eqn:Ec; [done|].
  destruct (FSubject (timed clock facts)) as [subject|] eqn:Es; [|done].
  destruct (Authorize _ _ _) as [allow diag] eqn:Ea.
  destruct (bool_decide (Errors diag = [])) eqn:He; cbn [negb]; [|done]. bool_to_prop.
  destruct allow; [|by repeat case_match].
  intros _. split; [done|]. split; [by apply checkFacts_None|]. split.
  - intros Ht. rewrite (bool_decide_true _ Ht) in Ed. unfold destinationEntity in Ed.
    destruct (NormalizeDestination _) as [n|]; [|done]. case_bool_decide as En; [by rewrite En|done].
  - exists subject, ip, diag. done.
Qed.

Lemma checkFacts_not_policy req facts :
  checkFacts req facts <> Some ReasonPolicyDeny /\ checkFacts req facts <> Some ReasonNoPolicyMatch.
Proof.
  unfold checkFacts. destruct (FSubject facts); [|done]. cbv zeta.
  repeat (match goal with |- context [if ?b then _ else _] => destruct b end; [done|]).
  destruct (SubjectDisabled _); [by case_bool_decide|]. destruct (FSession facts); [|done].
  by repeat case_match.
Qed.

Lemma stale_withheld clock req facts t :
  AuthTime (Context req) = Some t ->
  (let limit := if MaxAuthAge facts <=? 0 then DefaultMaxAuthAge else MaxAuthAge facts in
   limit < maxDuration /\ limit < Now (timed clock facts) - t)%Z ->
  freshAuthTime (AuthTime (Context req)) (timed clock facts) = (None, true).
Proof.
  intros Ht [Hlim Hage]. rewrite Ht. unfold freshAuthTime.
  replace (MaxAuthAge (timed clock facts)) with (MaxAuthAge facts)
    by (unfold timed; destruct (Now facts =? 0)%Z; reflexivity).
  rewrite (proj2 (Z.ltb_lt _ _)); [done|]. unfold time_sub, maxDuration, minDuration in *. lia.
Qed.

Lemma no_auth_time req facts ip : buildContext req facts ip None !! "auth_time" = None.
Proof.
  unfold buildContext, put_if.
  repeat match goal with |- (if ?b then _ else _) !! _ = _ => destruct b end;
    repeat match goal with
    | |- (match ?o with Some _ => _ | None => _ end) !! _ = _ => destruct o
    | |- (if ?b then _ else _) !! _ = _ => destruct b
    | |- <[_ := _]> _ !! _ = _ => rewrite lookup_insert_ne by done
    end; by apply lookup_singleton_ne.
Qed.

(** A login older than the limit is invisible to policies, and what is refused because of
    it is never cached: no policy sees the time of the login, and a denial is then not
    reported as the policies' own and has a lifetime of zero. *)
Theorem stale_login_hidden clock a req facts t :
  AuthTime (Context req) = Some t ->
  (let limit := if MaxAuthAge facts <=? 0 then DefaultMaxAuthAge else MaxAuthAge facts in
   limit < maxDuration /\ limit < Now (timed clock facts) - t)%Z ->
  (forall ip, cr_context (request_of req (timed clock facts) ip) !! "auth_time" = None) /\
  (let d := Decide clock a req facts in
   Allowed d = false ->
   TTLSeconds d = 0%Z /\ DReason d <> ReasonPolicyDeny /\ DReason d <> ReasonNoPolicyMatch).
Proof.
  intros Ht Hlim. pose proof (stale_withheld _ _ _ _ Ht Hlim) as Hf. split.
  - intros ip. unfold request_of. rewrite Hf. apply no_auth_time.
  - unfold Decide. fold (timed clock facts). destruct (Validate req); [done|].
    destruct (parseClientIP _) as [ip|]; [|done]. destruct (_ && _)%bool; [done|].
    pose proof (checkFacts_not_policy req (timed clock facts)) as Hc.
    destruct (checkFacts req (timed clock facts)) as [r|]; [simpl; naive_solver|].
    destruct (FSubject (timed clock facts)); [|done]. rewrite Hf.
    destruct (Authorize _ _ _) as [[] diag]; by destruct (bool_decide (Errors diag = [])).
Qed.
End Deciding.

(** ** The scope of a decision covers what it depends on

    [Cedar]'s documented semantics, as far as the scope computation relies on it. *)

Definition same_but_context (r1 r2 : cedarRequest) : Prop :=
  cr_principal r1 = cr_principal r2 /\ cr_action r1 = cr_action r2 /\ cr_resource r1 = cr_resource r2.

Definition json_children (node : json) : list json :=
  match node with JObj n => map snd n | JArr l => l | _ => [] end.

Definition is_context (node : json) : bool :=
  match node with JObj n => isContextVar n | _ => false end.

Class CedarLaws `{Cedar} : Prop := {
  (** [context.k] and [context has k] read the attribute [k] of the context. *)
  eval_attribute n attr ents r1 r2 :
    context_access n = Some attr -> same_but_context r1 r2 ->
    (forall k, attr = Some (JStr k) -> cr_context r1 !! k = cr_context r2 !! k) ->
    evalCondition (JObj n) ents r1 = evalCondition (JObj n) ents r2;
  (** Any other expression than these and the context itself is a function of the values of
      its parts, of the entities and of the rest of the request. *)
  eval_compositional node ents r1 r2 :
    is_context node = false -> (forall n, node = JObj n -> context_access n = None) ->
    same_but_context r1 r2 ->
    (forall child, child ∈ json_children node -> evalCondition child ents r1 = evalCondition child ents r2) ->
    evalCondition node ents r1 = evalCondition node ents r2;
  (** The answer is a function of the values of the conditions of the policies
      whose action constraint covers the action. *)
  authorize_by_conditions ps ents r1 r2 :
    same_but_context r1 r2 ->
    (forall p, p ∈ ps ->
       match parsePolicyJSON p with
       | None => r1 = r2
       | Some pj => covers (scopeFromJSON pj) (RefID (cr_action r1)) = true ->
           Forall (fun c => match c with
                            | None => r1 = r2
                            | Some cond => evalCondition cond ents r1 = evalCondition cond ents r2
                            end) (conditions pj)
       end) ->
    Authorize ps ents r1 = Authorize ps ents r2
}.

Definition scope_le (a b : CacheScope) : Prop :=
  (ScopePath a = true -> ScopePath b = true) /\ (ScopeMethod a = true -> ScopeMethod b = true) /\
  (ScopeResolvedIP a = true -> ScopeResolvedIP b = true).

#[export] Instance scope_le_preorder : PreOrder scope_le.
Proof. split; unfold scope_le; intros ?; naive_solver. Qed.

Lemma scope_or_l a b : scope_le a (scope_or a b).
Proof. unfold scope_le, scope_or; simpl. by destruct a as [[] [] []]. Qed.

Lemma scope_or_r a b : scope_le b (scope_or a b).
Proof. unfold scope_le, scope_or; simpl. destruct a as [[] [] []], b as [[] [] []]; simpl; tauto. Qed.

Lemma forAction_mono a b act : scope_le a b -> scope_le (forAction a act) (forAction b act).
Proof. unfold forAction, scope_le. case_bool_decide; simpl; tauto. Qed.

#[export] Hint Resolve scope_or_l scope_or_r forAction_mono : mish.

(** *** What a condition reads is in its scope *)

(** The names a scope does not exclude. *)
Definition visible (s : CacheScope) (k : string) : Prop :=
  (k = "path" -> ScopePath s = true) /\ (k = "method" -> ScopeMethod s = true) /\
  (k = "resolved_ip" -> ScopeResolvedIP s = true).

Definition agree (P : string -> Prop) (c1 c2 : gmap string value) : Prop :=
  forall k, P k -> c1 !! k = c2 !! k.

Lemma agree_mono a b c1 c2 : scope_le a b -> agree (visible b) c1 c2 -> agree (visible a) c1 c2.
Proof. intros Hle Ha k Hk. apply Ha. unfold visible, scope_le in *. naive_solver. Qed.

Lemma agree_all c1 c2 : agree (visible allContextScope) c1 c2 -> c1 = c2.
Proof. intros Ha. apply map_eq. intros k. by apply Ha. Qed.

Lemma agree_insert (P : string -> Prop) k v c1 c2 :
  agree P c1 c2 -> agree P (<[k := v]> c1) (<[k := v]> c2).
Proof. intros Ha j Hj. destruct (decide (j = k)) as [->|]; simplify_map_eq; [done|by apply Ha]. Qed.

Lemma agree_insert_l (P : string -> Prop) k v c1 c2 :
  ~ P k -> agree P c1 c2 -> agree P (<[k := v]> c1) c2.
Proof. intros Hk Ha j Hj. rewrite lookup_insert_ne by congruence. by apply Ha. Qed.

Lemma agree_insert_r (P : string -> Prop) k v c1 c2 :
  ~ P k -> agree P c1 c2 -> agree P c1 (<[k := v]> c2).
Proof. intros Hk Ha j Hj. rewrite lookup_insert_ne by congruence. by apply Ha. Qed.

(** Induction on a JSON value with its parts. *)
Fixpoint json_size (node : json) : nat :=
  match node with
  | JObj n => S (foldr (fun kv acc => json_size kv.2 + acc) 0 n)
  | JArr l => S (foldr (fun v acc => json_size v + acc) 0 l)
  | _ => 1
  end.

Lemma json_child_smaller node child : child ∈ json_children node -> json_size child < json_size node.
Proof.
  destruct node as [n|l| | | |]; simpl; try by rewrite elem_of_nil.
  - intros ([k v]&->&Hin)%list_elem_of_fmap. apply le_n_S.
    induction n as [|kv n IH]; [by apply elem_of_nil in Hin|].
    apply elem_of_cons in Hin as [<-|Hin]; simpl; [lia|]. specialize (IH Hin). simpl in IH. lia.
  - intros Hin. apply le_n_S. induction l as [|v l IH]; [by apply elem_of_nil in Hin|].
    apply elem_of_cons in Hin as [<-|Hin]; simpl; [lia|]. specialize (IH Hin). lia.
Qed.

Lemma child_scope node child :
  is_context node = false -> (forall n, node = JObj n -> context_access n = None) ->
  child ∈ json_children node -> scope_le (collectContextRefs child) (collectContextRefs node).
Proof.
  destruct node as [n|l| | | |]; simpl; try by rewrite elem_of_nil.
  - intros -> Ha. rewrite (Ha n eq_refl). clear Ha. intros ([k v]&->&Hin)%list_elem_of_fmap.
    induction n as [|kv n IH]; [by apply elem_of_nil in Hin|].
    apply elem_of_cons in Hin as [<-|Hin]; simpl; [eauto with mish|].
    etransitivity; [by apply IH|]. eauto with mish.
  - intros _ _ Hin. induction l as [|v l IH]; [by apply elem_of_nil in Hin|].
    apply elem_of_cons in Hin as [<-|Hin]; simpl; [eauto with mish|].
    etransitivity; [by apply IH|]. eauto with mish.
Qed.


(** *** The computed scopes cover every policy *)

Lemma condition_refs_ge conds refs : scope_le refs (condition_refs conds refs).
Proof.
  revert refs. induction conds as [|[node|] conds IH]; intros refs; simpl; [done| |by destruct refs].
  etransitivity; [|apply IH]. eauto with mish.
Qed.

Lemma condition_refs_covers conds refs c :
  c ∈ conds ->
  scope_le (match c with Some node => collectContextRefs node | None => allContextScope end)
    (condition_refs conds refs).
Proof.
  intros Hin. revert refs. induction conds as [|d conds IH]; intros refs; [by apply elem_of_nil in Hin|].
  apply elem_of_cons in Hin as [<-|Hin]; destruct c as [node|]; simpl; try done.
  - etransitivity; [|apply condition_refs_ge]. eauto with mish.
  - destruct d as [d|]; [by apply IH|]. by unfold scope_le.
  - destruct d as [d|]; [by apply IH|]. done.
Qed.

Lemma widen_fold refs s acts m act :
  scope_le (scope_of m act)
    (scope_of (fold_left (fun m act => if covers s act
       then <[act := scope_or (scope_of m act) (forAction refs act)]> m else m) acts m) act) /\
  (act ∈ acts -> covers s act = true ->
   scope_le (forAction refs act)
    (scope_of (fold_left (fun m act => if covers s act
       then <[act := scope_or (scope_of m act) (forAction refs act)]> m else m) acts m) act)).
Proof.
  revert m. induction acts as [|a acts IH]; intros m; cbn [fold_left].
  { split; [done|]. by rewrite elem_of_nil. }
  destruct (IH (if covers s a then <[a := scope_or (scope_of m a) (forAction refs a)]> m else m)) as [IH1 IH2].
  assert (Hstep : scope_le (scope_of m act)
    (scope_of (if covers s a then <[a := scope_or (scope_of m a) (forAction refs a)]> m else m) act)).
  { destruct (covers s a); [|done]. unfold scope_of at 2. destruct (decide (act = a)) as [->|].
    - rewrite lookup_insert_eq. simpl. eauto with mish.
    - by rewrite lookup_insert_ne. }
  split; [by etransitivity|]. intros [->|Hin]%elem_of_cons Hcov; [|by apply IH2].
  rewrite Hcov in *. etransitivity; [|apply IH1]. unfold scope_of at 1. rewrite lookup_insert_eq. simpl.
  eauto with mish.
Qed.

Lemma everything_fold acts m act :
  act ∈ acts ->
  scope_of (fold_left (fun (m : scope_map) act => <[act := forAction allContextScope act]> m) acts m) act
  = forAction allContextScope act.
Proof.
  assert (Hkeep : forall acts' (m' : scope_map), scope_of m' act = forAction allContextScope act ->
    scope_of (fold_left (fun (m : scope_map) act => <[act := forAction allContextScope act]> m) acts' m') act
    = forAction allContextScope act).
  { induction acts' as [|a acts' IH]; intros m' Hm'; simpl; [done|]. apply IH. unfold scope_of.
    destruct (decide (act = a)) as [->|]; [by rewrite lookup_insert_eq|]. by rewrite lookup_insert_ne. }
  revert m. induction acts as [|a acts IH]; intros m; [by rewrite elem_of_nil|].
  intros [->|Hin]%elem_of_cons; simpl; [|by apply IH]. apply Hkeep. unfold scope_of. by rewrite lookup_insert_eq.
Qed.

(** The scope a policy asks for an action. *)
Definition policy_scope (p : Policy) (act : string) : CacheScope :=
  match parsePolicyJSON p with
  | None => forAction allContextScope act
  | Some pj => if covers (scopeFromJSON pj) act then forAction (condition_refs (conditions pj) noScope) act else noScope
  end.

Lemma noScope_le s : scope_le noScope s.
Proof. by unfold scope_le. Qed.

Lemma all_ge s act : scope_le (forAction s act) (forAction allContextScope act).
Proof. apply forAction_mono. by unfold scope_le. Qed.

Lemma forAction_noScope act : forAction noScope act = noScope.
Proof. unfold forAction. by case_bool_decide. Qed.

#[export] Hint Resolve noScope_le all_ge : mish.

Lemma widen_masked refs s m act : act ∈ DataPlaneActions ->
  scope_le (scope_of m act) (forAction allContextScope act) ->
  scope_le (scope_of (widen refs s m) act) (forAction allContextScope act).
Proof.
  intros _. unfold widen. generalize DataPlaneActions. intros acts. revert m.
  induction acts as [|a acts IH]; intros m Hm; cbn [fold_left]; [done|]. apply IH.
  destruct (covers s a); [|done]. unfold scope_of at 1. destruct (decide (act = a)) as [->|].
  - rewrite lookup_insert_eq. simpl. pose proof (all_ge refs a). unfold scope_le, scope_or in *. simpl.
    rewrite !orb_true_iff. naive_solver.
  - by rewrite lookup_insert_ne.
Qed.

Lemma compute_loop_ge ps m act : act ∈ DataPlaneActions ->
  scope_le (scope_of m act) (forAction allContextScope act) ->
  scope_le (scope_of m act) (scope_of (compute_loop ps m) act) /\
  forall p, p ∈ ps -> scope_le (policy_scope p act) (scope_of (compute_loop ps m) act).
Proof.
  intros Ha. revert m. induction ps as [|q ps IH]; intros m Hm; cbn [compute_loop].
  { split; [done|]. intros p. by rewrite elem_of_nil. }
  destruct (parsePolicyJSON q) as [pj|] eqn:Eq.
  2: { rewrite (everything_fold _ _ _ Ha). split; [done|]. intros p _. unfold policy_scope.
       destruct (parsePolicyJSON p); [|done]. case_match; eauto with mish. }
  set (refs := condition_refs (conditions pj) noScope).
  destruct (bool_decide (refs = noScope)) eqn:Er.
  - bool_to_prop. destruct (IH m Hm) as [IH1 IH2]. split; [done|]. intros p [->|Hin]%elem_of_cons; [|by apply IH2].
    unfold policy_scope. rewrite Eq. fold refs. rewrite Er, forAction_noScope. case_match; apply noScope_le.
  - destruct (widen_fold refs (scopeFromJSON pj) DataPlaneActions m act) as [Hw1 Hw2].
    destruct (IH (widen refs (scopeFromJSON pj) m) (widen_masked _ _ _ _ Ha Hm)) as [IH1 IH2].
    split; [by etransitivity|]. intros p [->|Hin]%elem_of_cons; [|by apply IH2].
    unfold policy_scope. rewrite Eq. fold refs. destruct (covers _ act) eqn:Ec; [|apply noScope_le].
    etransitivity; [by apply Hw2|done].
Qed.

Lemma computeScopes_covers ps act p :
  act ∈ DataPlaneActions -> p ∈ ps -> scope_le (policy_scope p act) (scope_of (computeScopes ps) act).
Proof. intros Ha Hp. by apply (compute_loop_ge ps ∅ act Ha); [apply noScope_le|]. Qed.

(** *** Non-interference *)

(** Two requests that differ at most in what a scope leaves out. *)
Definition same_in_scope (s : CacheScope) (r1 r2 : DecisionRequest) : Prop :=
  Principal r1 = Principal r2 /\ Action r1 = Action r2 /\ Resource r1 = Resource r2 /\
  exists path method rip,
    let c := Context r1 in
    Context r2 = mkContext (ClientIP c) (Host c) (TLS c) method path (Protocol c) (SNI c) (Exit c) rip
                   (Decrypted c) (AuthMethod c) (AuthTime c) /\
    (ScopePath s = true -> path = Path c) /\ (ScopeMethod s = true -> method = Method c) /\
    (ScopeResolvedIP s = true -> rip = ResolvedIP c).

Section Scopes.
Context `{lower : UnicodeLower} `{quote : UnicodeQuote} `{cedar : Cedar} {laws : CedarLaws}.

Lemma collect_sound node ents r1 r2 :
  same_but_context r1 r2 ->
  agree (visible (collectContextRefs node)) (cr_context r1) (cr_context r2) ->
  evalCondition node ents r1 = evalCondition node ents r2.
Proof.
  intros Hs. induction node as [node IH] using (induction_ltof1 _ json_size). intros Ha.
  destruct (is_context node) eqn:Ec.
  { assert (r1 = r2) as ->; [|done]. destruct node as [n| | | | |]; try done. simpl in Ec, Ha. rewrite Ec in Ha.
    apply agree_all in Ha. destruct r1, r2. unfold same_but_context in Hs. naive_solver. }
  destruct (match node with JObj n => context_access n | _ => None end) as [attr|] eqn:Hn.
  - destruct node as [n| | | | |]; try done. apply (eval_attribute n attr); [done..|]. intros k ->. apply Ha.
    simpl in Ec. cbn [collectContextRefs]. rewrite Ec, Hn. unfold visible; simpl.
    rewrite !bool_decide_eq_true. done.
  - apply eval_compositional; [done|by intros n ->|done|]. intros child Hc.
    apply IH; [by apply json_child_smaller|]. eapply agree_mono; [|done].
    apply child_scope; [done| |done]. by intros n ->.
Qed.

(** The context of two such requests agrees on what the scope keeps; only an
    [egress_connect] has a resolved address. *)
Lemma buildContext_agree s r1 r2 facts ip t :
  same_in_scope s r1 r2 ->
  agree (fun k => (k = "path" -> ScopePath s = true) /\ (k = "method" -> ScopeMethod s = true) /\
                  (k = "resolved_ip" -> Action r1 = ActionEgressConnect -> ScopeResolvedIP s = true))
    (buildContext r1 facts ip t) (buildContext r2 facts ip t).
Proof.
  intros (_&Hact&_&path&method&rip&Hc&Hpath&Hmethod&Hrip). unfold buildContext. rewrite Hc, <- Hact.
  cbn [Exit AuthMethod TLS Host Path Method Protocol SNI ResolvedIP Decrypted].
  set (P := fun k => _). set (base := match t with Some _ => _ | None => _ end).
  assert (Hp : agree P base base) by done.
  assert (Hpath' : forall c1 c2, agree P c1 c2 ->
    agree P (<["path" := VString (Path (Context r1))]> c1) (<["path" := VString path]> c2)).
  { intros c1 c2 Hc12. destruct (ScopePath s) eqn:Es; [rewrite Hpath by done; by apply agree_insert|].
    apply agree_insert_l, agree_insert_r; [| |done]; unfold P; naive_solver. }
  assert (Hmethod' : forall c1 c2, agree P c1 c2 ->
    agree P (<["method" := VString (Method (Context r1))]> c1) (<["method" := VString method]> c2)).
  { intros c1 c2 Hc12. destruct (ScopeMethod s) eqn:Es; [rewrite Hmethod by done; by apply agree_insert|].
    apply agree_insert_l, agree_insert_r; [| |done]; unfold P; naive_solver. }
  unfold put_if. destruct (bool_decide (Action r1 = ActionEgressConnect)) eqn:Ee.
  - apply bool_decide_eq_true in Ee. rewrite Ee.
    change (bool_decide (ActionEgressConnect = _) || bool_decide (_ = ActionHTTPRequest))%bool with false.
    change (bool_decide (ActionEgressConnect = ActionAgentConnect)) with false. cbn match.
    destruct (ScopeResolvedIP s) eqn:Es; [by rewrite Hrip|].
    assert (Hno : ~ P "resolved_ip") by (unfold P; naive_solver).
    destruct (parseClientIP (ResolvedIP _)), (parseClientIP rip);
      try apply (agree_insert_l _ _ _ _ _ Hno); try apply (agree_insert_r _ _ _ _ _ Hno); done.
  - repeat match goal with |- agree _ (if ?b then _ else _) (if ?b then _ else _) => destruct b end;
      auto 12 using agree_insert.
Qed.

Lemma Validate_action req : Validate req = None -> Action req ∈ DataPlaneActions.
Proof.
  unfold Validate. destruct (actionShapes (Action req)) as [shape|] eqn:Es; [intros _|done].
  unfold actionShapes in Es. unfold DataPlaneActions. rewrite !elem_of_cons.
  repeat (case_bool_decide; [tauto|]). done.
Qed.

Lemma authorize_same ps r1 r2 facts ip ents :
  Action r1 ∈ DataPlaneActions ->
  same_in_scope (scope_of (computeScopes ps) (Action r1)) r1 r2 ->
  Authorize ps ents (request_of r1 facts ip) = Authorize ps ents (request_of r2 facts ip).
Proof.
  intros Ha Hsame. pose proof (buildContext_agree _ _ _ facts ip
    (freshAuthTime (AuthTime (Context r1)) facts).1 Hsame) as Hctx.
  destruct Hsame as (Hp&Hact&Hres&path&method&rip&Hc&_).
  assert (Ht : AuthTime (Context r2) = AuthTime (Context r1)) by by rewrite Hc.
  assert (Hsb : same_but_context (request_of r1 facts ip) (request_of r2 facts ip)).
  { unfold same_but_context, request_of; simpl. by rewrite Hp, Hact, Hres. }
  assert (Hagree : forall refs, scope_le (forAction refs (Action r1)) (scope_of (computeScopes ps) (Action r1)) ->
    agree (visible refs) (cr_context (request_of r1 facts ip)) (cr_context (request_of r2 facts ip))).
  { intros refs Hle k (Hk1&Hk2&Hk3). unfold request_of. cbn [cr_context]. rewrite Ht. apply Hctx.
    unfold forAction, scope_le in Hle. case_bool_decide; simpl in Hle; naive_solver. }
  assert (Hall : scope_le (forAction allContextScope (Action r1)) (scope_of (computeScopes ps) (Action r1)) ->
    request_of r1 facts ip = request_of r2 facts ip).
  { intros Hle. pose proof (agree_all _ _ (Hagree _ Hle)) as He. unfold request_of in *. simpl in He.
    by rewrite He, Hp, Hact, Hres. }
  apply authorize_by_conditions; [done|]. intros p Hin. cbn [request_of cr_action RefID].
  pose proof (computeScopes_covers ps _ p Ha Hin) as Hle. unfold policy_scope in Hle.
  destruct (parsePolicyJSON p) as [pj|]; [|by apply Hall]. intros Hcov. rewrite Hcov in Hle.
  apply Forall_forall. intros c Hc'. pose proof (condition_refs_covers _ noScope c Hc') as Hle'.
  apply (forAction_mono _ _ (Action r1)) in Hle'.
  destruct c as [node|]; [apply collect_sound; [done|apply Hagree]|apply Hall]; by etransitivity.
Qed.

(** C1: A decision depends on no more than its scope says: two valid requests that differ only
    in the attributes (path, method, resolved address) the decision's scope leaves out get
    the very same decision, reasons and determining policies included. *)
Theorem decision_depends_on_scope clock ps digest r1 r2 facts :
  Validate r1 = None -> Validate r2 = None ->
  same_in_scope (Scope (Decide clock (New ps digest) r1 facts)) r1 r2 ->
  Decide clock (New ps digest) r1 facts = Decide clock (New ps digest) r2 facts.
Proof.
  intros Hv1 Hv2.
  replace (Scope (Decide clock (New ps digest) r1 facts)) with (scope_of (computeScopes ps) (Action r1)).
  2: { unfold Decide. repeat case_match; done. }
  intros Hsame. unfold Decide. rewrite Hv1, Hv2. fold (timed clock facts).
  pose proof (fun ip ents => authorize_same ps r1 r2 (timed clock facts) ip ents (Validate_action _ Hv1) Hsame) as Hauth.
  destruct Hsame as (Hp&Hact&Hres&path&method&rip&Hc&_).
  assert (Hcf : checkFacts r2 (timed clock facts) = checkFacts r1 (timed clock facts)).
  { unfold checkFacts. by rewrite Hc, Hp, Hact, Hres. }
  rewrite <- Hact, <- Hres, Hcf.
  replace (ClientIP (Context r2)) with (ClientIP (Context r1)) by by rewrite Hc.
  replace (AuthTime (Context r2)) with (AuthTime (Context r1)) by by rewrite Hc.
  destruct (parseClientIP _) as [ip|]; [|done]. destruct (_ && _)%bool; [done|].
  destruct (checkFacts r1 _); [done|]. destruct (FSubject _) as [subject|]; [|done].
  replace (buildEntities r2) with (buildEntities r1).
  2: { unfold buildEntities. by rewrite Hc, Hres. }
  cbn [policies New]. by rewrite Hauth.
Qed.
End Scopes.

(** ** A small engine that satisfies the laws, and examples *)
Section Examples.

Abbreviation reading := (gmap string value + option value)%type.

(** What an expression reads of the context. *)
Fixpoint reads (node : json) (c : gmap string value) : list reading :=
  match node with
  | JObj n =>
      if isContextVar n then [inl c]
      else
        match context_access n with
        | Some (Some (JStr k)) => [inr (c !! k)]
        | Some _ => []
        | None => foldr (fun kv acc => reads kv.2 c ++ acc) [] n
        end
  | JArr l => foldr (fun v acc => reads v c ++ acc) [] l
  | _ => []
  end.

(** A condition holds when everything it reads is the string "GET". *)
Definition reads_get (l : list reading) : bool :=
  forallb (fun x => match x with inr (Some (VString s)) => bool_decide (s = "GET") | _ => false end) l.

#[local] Instance sample_cedar : Cedar := {|
  cvalue := list reading;
  evalCondition node _ r := reads node (cr_context r);
  Authorize ps _ r :=
    let hit := List.filter (fun p =>
      match parsePolicyJSON p with
      | None => false
      | Some pj => covers (scopeFromJSON pj) (RefID (cr_action r)) &&
          forallb (fun c => match c with Some node => reads_get (reads node (cr_context r)) | None => false end)
            (conditions pj)
      end) ps in
    (negb (bool_decide (length hit = 0)), mkDiagnostic [] (map PolicyID hit))
|}.

#[local] Instance sample_laws : CedarLaws.
Proof.
  split.
  - intros n attr ents r1 r2 Hn _ Hk. cbn [evalCondition sample_cedar reads].
    destruct (isContextVar n) eqn:Ec.
    + exfalso. by destruct n as [|[? []] [|]].
    + rewrite Hn. destruct attr as [[]|]; try done. by rewrite (Hk _ eq_refl).
  - intros node ents r1 r2 Hc Ha _ Hch. cbn [evalCondition sample_cedar] in *.
    destruct node as [n|l| | | |]; simpl in *; try done.
    + rewrite Hc, (Ha n eq_refl). clear Ha Hc. induction n as [|kv n IH]; simpl in *; [done|].
      f_equal; [apply Hch; left|apply IH]. intros child Hin. apply Hch. by right.
    + clear Ha. induction l as [|v l IH]; simpl in *; [done|].
      f_equal; [apply Hch; left|apply IH]. intros child Hin. apply Hch. by right.
  - intros ps ents r1 r2 (_&Hact&_) Hps. cbn [Authorize sample_cedar evalCondition] in *. cbv zeta. rewrite <- Hact.
    match goal with |- (negb (bool_decide (length ?a = 0)), _) = (negb (bool_decide (length ?b = 0)), _) =>
      replace b with a; [done|] end.
    apply List.filter_ext_in. intros p Hin%list_elem_of_In. specialize (Hps p Hin).
    destruct (parsePolicyJSON p) as [pj|]; [|done]. destruct (covers _ _); [|done]. simpl.
    specialize (Hps eq_refl). induction Hps as [|c cs Hc _ IH]; [done|]. simpl. rewrite IH. f_equal.
    destruct c; [by rewrite Hc|done].
Qed.

#[local] Instance sample_lower : UnicodeLower := fun s => s.
#[local] Instance sample_quote : UnicodeQuote := fun s => s.

(** permit(principal, action == Action::"http_request", resource)
      when { context.method ... }. *)
Definition sample_policy : Policy :=
  mkPolicy "policy0"
    (Some (mkPolicyJSON "==" (Some (mkEntityJSON "Action" ActionHTTPRequest)) []
      [Some (JObj [(".", JObj [("left", JObj [("Var", JStr "context")]); ("attr", JStr "method")])])]))
    {["id" := "reads"]}.

Definition sample_request (path : string) : DecisionRequest :=
  mkDecisionRequest (mkRef EntityUser "u1") ActionHTTPRequest (mkRef EntityEndpoint "e1")
    (mkContext "192.0.2.7" "app.example.com" true "GET" path "" "" "" "" false (hd "" knownAuthMethods) (Some 5%Z)).

Definition sample_facts (now : Z) : Facts :=
  mkFacts now (Some (mkSubject (mkRef EntityUser "u1") "" "" "" [] false))
    (Some (mkEndpoint "e1" "http" "" false [])) None None (Some (mkSessionFacts (now + 60)%Z false)) 10%Z.

Lemma allowed_means_checked_witness :
  exists subject ip diag, parseClientIP "192.0.2.7" = Some ip /\ Errors diag = [] /\
    Authorize [sample_policy] (buildEntities (sample_request "/a") subject (sample_facts 9) (destinationEntity "e1"))
      (request_of (sample_request "/a") (sample_facts 9) ip) = (true, diag).
Proof.
  apply (allowed_means_checked 0 (New [sample_policy] "v1") (sample_request "/a") (sample_facts 9)).
  vm_compute. reflexivity.
Defined.

Lemma stale_login_hidden_witness :
  TTLSeconds (Decide 0 (New [] "v1") (sample_request "/a") (sample_facts 1000)) = 0%Z.
Proof.
  apply (stale_login_hidden 0 (New [] "v1") (sample_request "/a") (sample_facts 1000) 5);
    [reflexivity|split; reflexivity|vm_compute; reflexivity].
Defined.

Lemma decision_depends_on_scope_witness :
  Allowed (Decide 0 (New [sample_policy] "v1") (sample_request "/a") (sample_facts 9)) = true /\
  Decide 0 (New [sample_policy] "v1") (sample_request "/a") (sample_facts 9)
  = Decide 0 (New [sample_policy] "v1") (sample_request "/b") (sample_facts 9).
Proof.
  split; [vm_compute; reflexivity|].
  apply (decision_depends_on_scope 0 [sample_policy] "v1"); [vm_compute; reflexivity..|].
  split_and!; [reflexivity..|]. exists "/b", "GET", "".
  split_and!; [reflexivity|vm_compute; discriminate|reflexivity|reflexivity].
Defined.
End Examples.
End Decide.

(** ** cache.go: compiled policies by the digest of their source *)
Module PolicyCache.
Import Decide.

Definition DefaultCacheSize : Z := 1024.

Record Cache := mkPolicyCache { max : Z; entries : gmap string Authorizer }.

Definition NewCache (m : Z) : Cache := mkPolicyCache (if (m <=? 0)%Z then DefaultCacheSize else m) ∅.

Section Cache.
(** [sum256] is sha256; [compile] is [New] on the source of a policy set. *)
Context (sum256 : string -> string) (compile : string -> res Authorizer).

(** The first locked section of [Get]. *)
Definition lookup_policy (src : string) (c : Cache) : option Authorizer := entries c !! sum256 src.

(** The second one; [victim] is the entry the iteration over the map meets first. *)
Definition store_policy (src : string) (az : Authorizer) (victim : string) (c : Cache) : Authorizer * Cache :=
  match entries c !! sum256 src with
  | Some existing => (existing, c)
  | None =>
      let m := if (max c <=? Z.of_nat (size (entries c)))%Z then delete victim (entries c) else entries c in
      (az, mkPolicyCache (max c) (<[sum256 src := az]> m))
  end.

(** Calls of [Get] that missed, compiled and now store; the victim is an entry of
    the map. *)
Inductive cache_reachable (m : Z) : Cache -> Prop :=
| cache_new : cache_reachable m (NewCache m)
| cache_store src az victim c :
    cache_reachable m c -> compile src = Ok az -> is_Some (entries c !! victim) \/ entries c = ∅ ->
    cache_reachable m (store_policy src az victim c).2.

Lemma cache_reachable_ok m c :
  cache_reachable m c ->
  (0 < max c)%Z /\ max c = max (NewCache m) /\ (Z.of_nat (size (entries c)) <= max c)%Z /\
  forall key az, entries c !! key = Some az -> exists src, key = sum256 src /\ compile src = Ok az.
Proof.
  induction 1 as [|src az victim c _ (Hpos&Hm&Hsize&Hent) Hcomp Hvic].
  { cbn [NewCache max entries]. split_and!; [|done| |].
    - destruct (Z.leb_spec m 0); [done|lia].
    - rewrite map_size_empty. destruct (Z.leb_spec m 0); [done|lia].
    - intros key az. by rewrite lookup_empty. }
  unfold store_policy. destruct (entries c !! sum256 src) eqn:Ek; [done|]. cbn [snd max entries].
  split_and!; [done..| |].
  - assert (Hins : forall e : gmap string Authorizer, size (<[sum256 src := az]> e) <= S (size e)).
    { intros e. rewrite map_size_insert. case_match; unfold id; lia. }
    destruct (Z.leb_spec (max c) (Z.of_nat (size (entries c)))); [|specialize (Hins (entries c)); lia].
    destruct Hvic as [Hv|He]; [|rewrite He, map_size_empty in *; lia].
    specialize (Hins (delete victim (entries c))). rewrite map_size_delete_Some in Hins by done.
    assert (size (entries c) <> 0); [|lia]. destruct Hv as [v Hv]. apply map_size_ne_0_lookup. eauto.
  - intros key az' [[<- <-]|[_ Hk]]%lookup_insert_Some; [by eauto|]. apply Hent.
    destruct (_ <=? _)%Z; [by apply lookup_delete_Some in Hk as [_ ?]|done].
Qed.

(** The policy cache is transparent and bounded: what it holds for a source is what
    compiling that very source gives (as long as no two sources have the same digest), and
    it never holds more than its limit. *)
Theorem policy_cache_transparent m c src az :
  (forall s1 s2, sum256 s1 = sum256 s2 -> s1 = s2) -> cache_reachable m c ->
  (Z.of_nat (size (entries c)) <= max (NewCache m))%Z /\
  (lookup_policy src c = Some az -> compile src = Ok az).
Proof.
  intros Hinj Hr. destruct (cache_reachable_ok m c Hr) as (_&<-&Hsize&Hent). split; [done|].
  intros Hl. destruct (Hent _ _ Hl) as (s&Hs&Hc). by rewrite (Hinj _ _ Hs).
Qed.
End Cache.

(** Two sources in a cache of one: the second evicts the first. *)
Definition sample_compile (src : string) : res Authorizer := Ok (New [] src).
Definition sample_cache : Cache :=
  (store_policy id "b" (New [] "b") "a" (store_policy id "a" (New [] "a") "" (NewCache 1)).2).2.

Lemma policy_cache_transparent_witness :
  lookup_policy id "b" sample_cache = Some (New [] "b") /\ (Z.of_nat (size (entries sample_cache)) <= 1)%Z.
Proof.
  split; [reflexivity|]. apply (policy_cache_transparent id sample_compile 1 sample_cache "b" (New [] "b")); [done|].
  apply (cache_store id sample_compile 1 "b"); [|reflexivity|left; eexists; reflexivity].
  apply (cache_store id sample_compile 1 "a"); [constructor|reflexivity|right; reflexivity].
Defined.
End PolicyCache.
