(* ===== verification/Ingress.v ===== *)
(** * Ingress: keyed locks, the endpoint cache and the usage meter

    [KeyedLocks] models internal/ingress/keyedlocks.go, [EndpointCache]
    internal/ingress/cache.go and [Meter] internal/ingress/meter.go. Each is a
    state machine whose steps are the sections the code runs atomically (under a
    mutex, or one atomic operation); a call is between two of its steps when
    another one runs. *)

From S2P Require Import Prelude GoIO Sessions.

(** ** Keyed locks *)
Module KeyedLocks.

(** [held] is whether the channel of capacity one is full. *)
Record keyedLock := mkLock { held : bool; refs : Z }.

(** Where a call of [acquire] is: before the select, between acquiring and
    releasing, or about to run [leave]. *)
Inductive pc :=
| Waiting (key : string) (lock : nat)
| Holding (key : string) (lock : nat)
| Leaving (key : string) (lock : nat).

Definition pc_key (p : pc) : string :=
  match p with Waiting k _ | Holding k _ | Leaving k _ => k end.
Definition pc_lock (p : pc) : nat :=
  match p with Waiting _ l | Holding _ l | Leaving _ l => l end.

(** [heap] holds the lock objects, [locks] the table of pointers to them. *)
Record keyedLocks := mkLocks {
  locks : gmap string nat;
  heap : gmap nat keyedLock;
  next : nat;
  calls : gmap nat pc
}.

Definition newLocks : keyedLocks := mkLocks ∅ ∅ 0 ∅.

(** The first critical section of [acquire]. *)
Definition enter (th : nat) (key : string) (l : keyedLocks) : keyedLocks :=
  match locks l !! key with
  | Some id =>
      let lock := default (mkLock false 0) (heap l !! id) in
      mkLocks (locks l) (<[id := mkLock (held lock) (refs lock + 1)]> (heap l)) (next l)
        (<[th := Waiting key id]> (calls l))
  | None =>
      mkLocks (<[key := next l]> (locks l)) (<[next l := mkLock false 1]> (heap l)) (S (next l))
        (<[th := Waiting key (next l)]> (calls l))
  end.

(** [lock.held <- struct{}{}]: possible when the channel is empty. *)
Definition take_lock (th : nat) (key : string) (id : nat) (l : keyedLocks) : option keyedLocks :=
  match heap l !! id with
  | Some lock =>
      if held lock then None
      else Some (mkLocks (locks l) (<[id := mkLock true (refs lock)]> (heap l)) (next l)
                   (<[th := Holding key id]> (calls l)))
  | None => None
  end.

(** [<-ctx.Done()]. *)
Definition cancel (th : nat) (key : string) (id : nat) (l : keyedLocks) : keyedLocks :=
  mkLocks (locks l) (heap l) (next l) (<[th := Leaving key id]> (calls l)).

(** [<-lock.held] of the function [acquire] returns. *)
Definition release (th : nat) (key : string) (id : nat) (l : keyedLocks) : option keyedLocks :=
  match heap l !! id with
  | Some lock =>
      if held lock
      then Some (mkLocks (locks l) (<[id := mkLock false (refs lock)]> (heap l)) (next l)
                   (<[th := Leaving key id]> (calls l)))
      else None
  | None => None
  end.

Definition leave (th : nat) (key : string) (id : nat) (l : keyedLocks) : keyedLocks :=
  let lock := default (mkLock false 0) (heap l !! id) in
  let n := (refs lock - 1)%Z in
  mkLocks (if (n =? 0)%Z then delete key (locks l) else locks l)
    (<[id := mkLock (held lock) n]> (heap l)) (next l) (delete th (calls l)).

Definition size (l : keyedLocks) : Z := Z.of_nat (base.size (locks l)).

Inductive event :=
| EvAcquire (th : nat) (key : string)
| EvTake (th : nat)
| EvCancel (th : nat)
| EvRelease (th : nat)
| EvLeave (th : nat).

Definition step (e : event) (l : keyedLocks) : option keyedLocks :=
  match e with
  | EvAcquire th key => match calls l !! th with None => Some (enter th key l) | Some _ => None end
  | EvTake th => match calls l !! th with Some (Waiting k id) => take_lock th k id l | _ => None end
  | EvCancel th => match calls l !! th with Some (Waiting k id) => Some (cancel th k id l) | _ => None end
  | EvRelease th => match calls l !! th with Some (Holding k id) => release th k id l | _ => None end
  | EvLeave th => match calls l !! th with Some (Leaving k id) => Some (leave th k id l) | _ => None end
  end.

Fixpoint run (es : list event) (l : keyedLocks) : option keyedLocks :=
  match es with
  | [] => Some l
  | e :: rest => match step e l with Some l' => run rest l' | None => None end
  end.

Inductive reachable : keyedLocks -> Prop :=
| reach_init : reachable newLocks
| reach_step e l l' : reachable l -> step e l = Some l' -> reachable l'.

Lemma locks_run_reachable es l l' : reachable l -> run es l = Some l' -> reachable l'.
Proof.
  revert l. induction es as [|e es IH]; intros l Hl; simpl; [congruence|].
  destruct (step e l) eqn:E; [|done]. intros Hr. eapply IH; [|done]. by econstructor.
Qed.

(** The calls that use a key. *)
Definition users (key : string) (cs : gmap nat pc) : gmap nat pc := filter (fun c => pc_key c.2 = key) cs.

(** The lock of a key in the table serves exactly the calls that use the key. *)
Record lock_ok (l : keyedLocks) (key : string) (id : nat) : Prop := {
  lo_lock : exists lock, heap l !! id = Some lock /\ refs lock = Z.of_nat (base.size (users key (calls l))) /\
    (0 < refs lock)%Z /\
    (held lock = true <-> exists th, calls l !! th = Some (Holding key id)) /\
    forall th1 th2, calls l !! th1 = Some (Holding key id) -> calls l !! th2 = Some (Holding key id) -> th1 = th2;
  lo_bound : id < next l
}.

Record locks_inv (l : keyedLocks) : Prop := {
  li_calls : forall th p, calls l !! th = Some p -> locks l !! pc_key p = Some (pc_lock p);
  li_locks : forall key id, locks l !! key = Some id -> lock_ok l key id;
  li_inj : forall k1 k2 id, locks l !! k1 = Some id -> locks l !! k2 = Some id -> k1 = k2
}.

Lemma users_insert_same key th p cs :
  cs !! th = None -> pc_key p = key -> base.size (users key (<[th := p]> cs)) = S (base.size (users key cs)).
Proof.
  intros Hn Hk. unfold users. rewrite map_filter_insert_True by done.
  apply map_size_insert_None. apply map_lookup_filter_None. by left.
Qed.

Lemma users_insert_other key th p cs :
  cs !! th = None -> pc_key p <> key -> users key (<[th := p]> cs) = users key cs.
Proof. intros Hn Hk. unfold users. rewrite map_filter_insert_False by done. by rewrite delete_id. Qed.

Lemma users_replace key th p q cs :
  cs !! th = Some q -> pc_key p = pc_key q -> base.size (users key (<[th := p]> cs)) = base.size (users key cs).
Proof.
  intros Hq Hk. unfold users. destruct (decide (pc_key q = key)).
  - rewrite map_filter_insert_True by (simpl; congruence). apply map_size_insert_Some.
    exists q. by apply map_lookup_filter_Some.
  - rewrite map_filter_insert_False by (simpl; congruence).
    rewrite map_filter_delete_not; [done|]. simpl. intros y Hy. naive_solver.
Qed.

Lemma users_delete key th q cs :
  cs !! th = Some q ->
  base.size (users key cs) =
  (if decide (pc_key q = key) then 1 else 0) + base.size (users key (delete th cs)).
Proof.
  intros Hq. unfold users. destruct (decide (pc_key q = key)) as [Hk|Hk].
  - rewrite map_filter_delete, map_size_delete_Some by (exists q; by apply map_lookup_filter_Some).
    assert (base.size (filter (fun c => pc_key c.2 = key) cs) <> 0); [|lia].
    rewrite map_size_ne_0_lookup. exists th, q. by apply map_lookup_filter_Some.
  - rewrite map_filter_delete_not; [done|]. intros y Hy. naive_solver.
Qed.

Lemma lock_ok_frame l l' key id :
  lock_ok l key id -> heap l' !! id = heap l !! id ->
  base.size (users key (calls l')) = base.size (users key (calls l)) ->
  (forall th, calls l' !! th = Some (Holding key id) <-> calls l !! th = Some (Holding key id)) ->
  next l <= next l' -> lock_ok l' key id.
Proof.
  intros [(lock&Hlock&Hrefs&Hpos&Hheld&Hone) Hb] Hheap Hu Hh Hn. split; [|lia].
  exists lock. rewrite Hheap, Hu. setoid_rewrite Hh. done.
Qed.

(** A step that changes one lock and one of its calls, keeping its key. *)
Lemma inv_replace l th p q lock' :
  locks_inv l -> calls l !! th = Some q -> pc_key p = pc_key q -> pc_lock p = pc_lock q ->
  let l' := mkLocks (locks l) (<[pc_lock q := lock']> (heap l)) (next l) (<[th := p]> (calls l)) in
  (forall lock, heap l !! pc_lock q = Some lock -> lock_ok l (pc_key q) (pc_lock q) ->
     refs lock' = refs lock /\
     (held lock' = true <-> exists th', <[th := p]> (calls l) !! th' = Some (Holding (pc_key q) (pc_lock q))) /\
     forall th1 th2, <[th := p]> (calls l) !! th1 = Some (Holding (pc_key q) (pc_lock q)) ->
       <[th := p]> (calls l) !! th2 = Some (Holding (pc_key q) (pc_lock q)) -> th1 = th2) ->
  locks_inv l'.
Proof.
  intros [Hc Hl Hi] Hq Hk Hid l' Hnew. pose proof (Hc _ _ Hq) as Hlk. split; cbn [l' calls locks].
  - intros th' p'. destruct (decide (th' = th)) as [->|]; simplify_map_eq; [|apply Hc].
    intros [= <-]. congruence.
  - intros key id Hkey. pose proof (Hl _ _ Hkey) as Hok. destruct (decide (key = pc_key q)) as [->|Hne].
    + assert (id = pc_lock q) as -> by congruence.
      pose proof Hok as [(lock&Hlock&Hrefs&Hpos&_) Hb]. destruct (Hnew lock Hlock Hok) as (Hr&Hh&Hone).
      split; [|done]. exists lock'. cbn [l' heap calls]. rewrite lookup_insert_eq, Hr.
      rewrite (users_replace _ _ _ q) by done. done.
    + assert (id <> pc_lock q) by (intros ->; by apply Hne, (Hi _ _ _ Hkey)).
      apply (lock_ok_frame l); [done| |by apply users_replace with q| |done]; cbn [l' heap calls].
      * by rewrite lookup_insert_ne.
      * intros th'. destruct (decide (th' = th)) as [->|]; simplify_map_eq; [|done].
        split; intros [= ->]; simpl in *; congruence.
  - done.
Qed.

Lemma inv_enter th key l : locks_inv l -> calls l !! th = None -> locks_inv (enter th key l).
Proof.
  intros [Hc Hl Hi] Hth. unfold enter. destruct (locks l !! key) as [id|] eqn:Ek.
  - pose proof (Hl _ _ Ek) as [(lock&Hlock&Hrefs&Hpos&Hheld&Hone) Hb]. rewrite Hlock. simpl.
    assert (Hhold : forall k i th', <[th := Waiting key id]> (calls l) !! th' = Some (Holding k i) <->
      calls l !! th' = Some (Holding k i)).
    { intros k i th'. destruct (decide (th' = th)) as [->|]; simplify_map_eq; [|done]. by rewrite Hth. }
    split; cbn [calls locks]; [| |done].
    + intros th' p'. destruct (decide (th' = th)) as [->|]; simplify_map_eq; [by intros [= <-]|apply Hc].
    + intros k i Hk. destruct (decide (k = key)) as [->|Hne].
      * assert (i = id) as -> by congruence. split; [|done]. eexists. cbn [heap calls].
        rewrite lookup_insert_eq, users_insert_same by done. setoid_rewrite Hhold.
        split; [done|]. cbn [refs held]. split_and!; [lia|lia|done..].
      * assert (i <> id) by (intros ->; by apply Hne, (Hi _ _ _ Hk)).
        apply (lock_ok_frame l); [by apply Hl| | |done|done]; cbn [heap calls];
          [by rewrite lookup_insert_ne|by rewrite users_insert_other].
  - assert (Hfresh : forall k i, locks l !! k = Some i -> i <> next l).
    { intros k i Hk. destruct (Hl _ _ Hk) as [_ Hb]. lia. }
    assert (Hnone : users key (calls l) = ∅).
    { apply map_eq. intros th'. rewrite lookup_empty. apply map_lookup_filter_None. right.
      intros p' Hp Hkey. simpl in Hkey. specialize (Hc _ _ Hp). congruence. }
    assert (Hhold : forall k i th', <[th := Waiting key (next l)]> (calls l) !! th' = Some (Holding k i) <->
      calls l !! th' = Some (Holding k i)).
    { intros k i th'. destruct (decide (th' = th)) as [->|]; simplify_map_eq; [|done]. by rewrite Hth. }
    split; cbn [calls locks].
    + intros th' p'. destruct (decide (th' = th)) as [->|Hne]; simplify_map_eq.
      * intros [= <-]. by simplify_map_eq.
      * intros Hp. specialize (Hc _ _ Hp). rewrite lookup_insert_ne; [done|]. congruence.
    + intros k i. destruct (decide (k = key)) as [->|Hne]; simplify_map_eq.
      * intros [= <-]. split; [|cbn; lia]. eexists. cbn [heap calls]. rewrite lookup_insert_eq, users_insert_same by done.
        rewrite Hnone, map_size_empty. setoid_rewrite Hhold.
        assert (Hno : forall th', calls l !! th' <> Some (Holding key (next l))).
        { intros th' Hp. specialize (Hc _ _ Hp). simpl in Hc. congruence. }
        split; [done|]. split_and!; [done|cbn; lia| |]; naive_solver.
      * intros Hk. apply (lock_ok_frame l); [by apply Hl| | |done|cbn; lia]; cbn [heap calls].
        -- rewrite lookup_insert_ne; [done|]. intros Heq. by apply (Hfresh k i Hk).
        -- by rewrite users_insert_other.
    + intros k1 k2 i. destruct (decide (k1 = key)) as [->|], (decide (k2 = key)) as [->|]; simplify_map_eq; try done.
      * intros [= <-] Hk. by apply Hfresh in Hk.
      * intros Hk [= <-]. by apply Hfresh in Hk.
      * apply Hi.
Qed.

Lemma inv_leave th key id l : locks_inv l -> calls l !! th = Some (Leaving key id) -> locks_inv (leave th key id l).
Proof.
  intros [Hc Hl Hi] Hth. unfold leave. pose proof (Hc _ _ Hth) as Hk. simpl in Hk.
  pose proof (Hl _ _ Hk) as [(lock&Hlock&Hrefs&Hpos&Hheld&Hone) Hb]. rewrite Hlock. change (default _ (Some lock)) with lock. cbv zeta.
  pose proof (users_delete key th _ (calls l) Hth) as Hu. rewrite decide_True in Hu by done.
  assert (Hhold : forall k i th', delete th (calls l) !! th' = Some (Holding k i) <->
    calls l !! th' = Some (Holding k i)).
  { intros k i th'. destruct (decide (th' = th)) as [->|]; simplify_map_eq; [|done]. naive_solver. }
  assert (Hother : forall k i, k <> key -> locks l !! k = Some i ->
    lock_ok (mkLocks (if (refs lock - 1 =? 0)%Z then delete key (locks l) else locks l)
      (<[id := mkLock (held lock) (refs lock - 1)]> (heap l)) (next l) (delete th (calls l))) k i).
  { intros k i Hne Hki. assert (i <> id) by (intros ->; by apply Hne, (Hi _ _ _ Hki)).
    apply (lock_ok_frame l); [by apply Hl| | |done|done]; cbn [heap calls]; [by rewrite lookup_insert_ne|].
    rewrite (users_delete k th _ _ Hth). by rewrite decide_False. }
  destruct (refs lock - 1 =? 0)%Z eqn:Ez; bool_to_prop; split; cbn [calls locks].
  - intros th' p' Hp. apply lookup_delete_Some in Hp as [Hne Hp]. rewrite lookup_delete_ne; [by apply (Hc th')|].
    intros Heq. assert (base.size (users key (delete th (calls l))) <> 0); [|lia].
    apply map_size_ne_0_lookup. exists th', p'. apply map_lookup_filter_Some. by simplify_map_eq.
  - intros k i [Hne Hki]%lookup_delete_Some. by apply Hother.
  - intros k1 k2 i [_ H1]%lookup_delete_Some [_ H2]%lookup_delete_Some. by apply (Hi k1 k2 i).
  - intros th' p' Hp. apply lookup_delete_Some in Hp as [Hne Hp]. by apply (Hc th').
  - intros k i Hki. destruct (decide (k = key)) as [->|]; [|by apply Hother].
    assert (i = id) as -> by congruence. split; [|done]. eexists. cbn [heap calls]. rewrite lookup_insert_eq.
    setoid_rewrite Hhold. split; [done|]. cbn [refs held]. split_and!; [lia|lia|done..].
  - done.
Qed.

Lemma inv_take th k id l l' :
  locks_inv l -> calls l !! th = Some (Waiting k id) -> take_lock th k id l = Some l' -> locks_inv l'.
Proof.
  intros Hinv Hth. unfold take_lock. destruct (heap l !! id) as [lock|] eqn:Eh; [|done].
  destruct (held lock) eqn:Eheld; [done|]. intros [= <-].
  apply (inv_replace l th (Holding k id) (Waiting k id) _ Hinv Hth eq_refl eq_refl).
  cbn [pc_lock pc_key]. intros lock0 Hl0 [(lock1&Hl1&_&_&Hheld&_) _].
  assert (lock0 = lock) as -> by congruence. assert (lock1 = lock) as -> by congruence.
  assert (Hno : forall th', calls l !! th' <> Some (Holding k id)) by (intros th' Hp; naive_solver congruence).
  cbn [refs held]. split; [done|]. split; [split; [intros _; exists th; by simplify_map_eq|done]|].
  intros th1 th2. destruct (decide (th1 = th)) as [->|], (decide (th2 = th)) as [->|]; simplify_map_eq; try done;
    intros; exfalso; by eapply Hno.
Qed.

Lemma inv_release th k id l l' :
  locks_inv l -> calls l !! th = Some (Holding k id) -> release th k id l = Some l' -> locks_inv l'.
Proof.
  intros Hinv Hth. unfold release. destruct (heap l !! id) as [lock|] eqn:Eh; [|done].
  destruct (held lock) eqn:Eheld; [|done]. intros [= <-].
  apply (inv_replace l th (Leaving k id) (Holding k id) _ Hinv Hth eq_refl eq_refl).
  cbn [pc_lock pc_key]. intros lock0 Hl0 [(lock1&Hl1&_&_&_&Hone) _].
  assert (lock0 = lock) as -> by congruence. cbn [refs held]. split; [done|].
  assert (Hno : forall th', <[th := Leaving k id]> (calls l) !! th' <> Some (Holding k id)).
  { intros th' Hp. destruct (decide (th' = th)) as [->|Hne]; simplify_map_eq. by apply Hne, Hone. }
  split; [split; [done|intros [th' Hp]; by apply Hno in Hp]|]. intros th1 th2 H1. by apply Hno in H1.
Qed.

Lemma inv_cancel th k id l :
  locks_inv l -> calls l !! th = Some (Waiting k id) -> locks_inv (cancel th k id l).
Proof.
  intros Hinv Hth. destruct (li_locks _ Hinv _ _ (li_calls _ Hinv _ _ Hth)) as [(lock&Hlock&Hrest) _].
  cbn [pc_key pc_lock] in *.
  replace (cancel th k id l) with
    (mkLocks (locks l) (<[id := lock]> (heap l)) (next l) (<[th := Leaving k id]> (calls l))).
  2: { unfold cancel. by rewrite insert_id. }
  apply (inv_replace l th (Leaving k id) (Waiting k id) lock Hinv Hth eq_refl eq_refl).
  cbn [pc_lock pc_key]. intros lock0 Hl0 [(lock1&Hl1&_&_&Hheld&Hone) _].
  assert (lock0 = lock) as -> by congruence. assert (lock1 = lock) as -> by congruence.
  assert (Hh : forall th', <[th := Leaving k id]> (calls l) !! th' = Some (Holding k id) <->
    calls l !! th' = Some (Holding k id)).
  { intros th'. destruct (decide (th' = th)) as [->|]; simplify_map_eq; naive_solver. }
  setoid_rewrite Hh. done.
Qed.

Lemma locks_reachable_inv l : reachable l -> locks_inv l.
Proof.
  induction 1 as [|e l l' _ IH Hstep]; [by split|].
  destruct e as [th key|th|th|th|th]; simpl in Hstep; destruct (calls l !! th) as [[k id|k id|k id]|] eqn:E; try done.
  - injection Hstep as <-. by apply inv_enter.
  - by eapply inv_take.
  - injection Hstep as <-. by apply inv_cancel.
  - by eapply inv_release.
  - injection Hstep as <-. by apply inv_leave.
Qed.

(** Mutual exclusion: at most one call holds the lock of a key, although lock objects are
    removed from the table and made anew; and a call that waits while nobody holds the lock
    can take it, so no release is lost. *)
Theorem keyed_lock_exclusive l key :
  reachable l ->
  (forall th1 th2 id1 id2, calls l !! th1 = Some (Holding key id1) -> calls l !! th2 = Some (Holding key id2) ->
     th1 = th2) /\
  (forall th id, calls l !! th = Some (Waiting key id) ->
     (forall th' id', calls l !! th' <> Some (Holding key id')) -> is_Some (step (EvTake th) l)).
Proof.
  intros Hr. apply locks_reachable_inv in Hr as [Hc Hl Hi]. split.
  - intros th1 th2 id1 id2 H1 H2. pose proof (Hc _ _ H1) as K1. pose proof (Hc _ _ H2) as K2. simpl in K1, K2.
    assert (id2 = id1) as -> by congruence. destruct (Hl _ _ K1) as [(lock&_&_&_&_&Hone) _]. eauto.
  - intros th id Hw Hno. pose proof (Hc _ _ Hw) as K. destruct (Hl _ _ K) as [(lock&Hlock&_&_&Hheld&_) _].
    simpl. rewrite Hw. unfold take_lock. cbn [pc_lock] in Hlock. rewrite Hlock.
    destruct (held lock); [|done]. destruct (proj1 Hheld eq_refl) as [th' Hp]. by apply Hno in Hp.
Qed.

(** No lock object leaks: the table has an entry for a key exactly while some call is
    using the key, so it is empty when every call has left. *)
Theorem keyed_locks_do_not_leak l key :
  reachable l ->
  is_Some (locks l !! key) <-> exists th p, calls l !! th = Some p /\ pc_key p = key.
Proof.
  intros Hr. apply locks_reachable_inv in Hr as [Hc Hl Hi]. split.
  - intros [id Hk]. destruct (Hl _ _ Hk) as [(lock&_&Hrefs&Hpos&_) _].
    assert (base.size (users key (calls l)) <> 0) as Hne by lia.
    apply map_size_ne_0_lookup in Hne as (th&p&Hp). apply map_lookup_filter_Some in Hp as [Hp Hk']. eauto.
  - intros (th&p&Hp&<-). eauto.
Qed.

(** Two calls of one key: the second waits, takes the lock when the first releases it, and
    the table is empty in the end. *)
Definition sample_locks (es : list event) : keyedLocks := default newLocks (run es newLocks).

Definition sample_events : list event :=
  [EvAcquire 1 "a"; EvTake 1; EvAcquire 2 "a"; EvRelease 1; EvTake 2; EvLeave 1].

Lemma sample_locks_reachable : reachable (sample_locks sample_events).
Proof.
  apply (locks_run_reachable sample_events newLocks); [constructor|]. vm_compute. reflexivity.
Qed.

Lemma keyed_lock_exclusive_witness :
  calls (sample_locks sample_events) !! 2 = Some (Holding "a" 0) /\
  forall th id, calls (sample_locks sample_events) !! th = Some (Holding "a" id) -> th = 2.
Proof.
  split; [reflexivity|]. intros th id Hp.
  apply (proj1 (keyed_lock_exclusive _ "a" sample_locks_reachable) th 2 id 0 Hp). reflexivity.
Defined.

Lemma keyed_locks_do_not_leak_witness : is_Some (locks (sample_locks sample_events) !! "a").
Proof.
  apply (keyed_locks_do_not_leak _ "a" sample_locks_reachable). exists 2, (Holding "a" 0). split; reflexivity.
Defined.
End KeyedLocks.

(** ** The lookup caches *)
Module EndpointCache.

Definition second : Z := 1000000000.
Definition maxCacheEntries : Z := 20000.
Definition negativeCacheTTL : Z := 2 * second.

Section TTL.
Context {V : Type}.

Record cacheEntry := mkEntry { value : V; expires : Z }.

(** A nil cache behaves as one whose [ttl] is not positive. *)
Record ttlCache := mkCache { ttl : Z; entries : gmap string cacheEntry }.

Definition newTTLCache (t : Z) : ttlCache := mkCache t ∅.

Definition get (now : Z) (key : string) (c : ttlCache) : option V :=
  if (ttl c <=? 0)%Z then None
  else match entries c !! key with
       | Some e => if (now <? expires e)%Z then Some (value e) else None
       | None => None
       end.

(** The entry that expires first, among equals the first one met. *)
Fixpoint soonest (l : list (string * cacheEntry)) (best : option (string * Z)) : option (string * Z) :=
  match l with
  | [] => best
  | (k, e) :: rest =>
      let first := match best with Some (_, t) => (expires e <? t)%Z | None => true end in
      soonest rest (if first then Some (k, expires e) else best)
  end.

Definition evictSoonestExpiringLocked (m : gmap string cacheEntry) : gmap string cacheEntry :=
  delete (default "" (fst <$> soonest (map_to_list m) None)) m.

Definition full (m : gmap string cacheEntry) : bool := (maxCacheEntries <=? Z.of_nat (size m))%Z.

Definition put (now : Z) (key : string) (v : V) (c : ttlCache) : ttlCache :=
  if (ttl c <=? 0)%Z then c
  else
    let m := entries c in
    let m := if full m then
               let live := filter (fun e => (now < expires e.2)%Z) m in
               match live !! key with
               | None => if full live then evictSoonestExpiringLocked live else live
               | Some _ => live
               end
             else m in
    mkCache (ttl c) (<[key := mkEntry v (now + ttl c)]> m).

Definition clear (c : ttlCache) : ttlCache := mkCache (ttl c) ∅.

Lemma put_lookup now key v c k e :
  entries (put now key v c) !! k = Some e ->
  (k = key /\ e = mkEntry v (now + ttl c)) \/ entries c !! k = Some e.
Proof.
  unfold put. destruct (ttl c <=? 0)%Z; [by right|]. cbn [entries].
  intros [[<- <-]|[Hne Hk]]%lookup_insert_Some; [by left|]. right.
  destruct (full (entries c)); [|done].
  destruct (filter _ (entries c) !! key); [by apply map_lookup_filter_Some in Hk as [? _]|].
  unfold evictSoonestExpiringLocked in Hk.
  destruct (full (filter _ _)); [apply lookup_delete_Some in Hk as [_ Hk]|];
    by apply map_lookup_filter_Some in Hk as [? _].
Qed.

Lemma put_ttl now key v c : ttl (put now key v c) = ttl c.
Proof. unfold put. by destruct (ttl c <=? 0)%Z. Qed.

Lemma soonest_in l best k t :
  soonest l best = Some (k, t) -> best = Some (k, t) \/ k ∈ l.*1.
Proof.
  revert best. induction l as [|[k' e] l IH]; intros best; simpl; [by left|].
  intros [H|H]%IH; [|right; by right].
  destruct (match best with Some _ => _ | None => _ end); [|by left]. injection H as <- <-. right. left.
Qed.

Lemma soonest_some l best : is_Some best \/ l <> [] -> is_Some (soonest l best).
Proof.
  revert best. induction l as [|[k e] l IH]; intros best; simpl; [naive_solver|]. intros _. apply IH. left.
  destruct best as [[? t]|]; [destruct (expires e <? t)%Z|]; eauto.
Qed.

(** An eviction from a table that is not empty removes an entry. *)
Lemma evict_size m : size m <> 0 -> S (size (evictSoonestExpiringLocked m)) = size m.
Proof.
  intros Hne. unfold evictSoonestExpiringLocked.
  destruct (soonest_some (map_to_list m) None) as [[k t] Hk].
  { right. intros Hl. apply Hne. by rewrite <- length_map_to_list, Hl. }
  rewrite Hk. simpl. destruct (soonest_in _ _ _ _ Hk) as [|Hin]; [done|].
  apply list_elem_of_fmap in Hin as ([k' e]&->&He). apply elem_of_map_to_list in He. simpl.
  rewrite map_size_delete_Some by eauto. lia.
Qed.

Lemma put_size now key v c :
  (Z.of_nat (size (entries c)) <= maxCacheEntries)%Z ->
  (Z.of_nat (size (entries (put now key v c))) <= maxCacheEntries)%Z.
Proof.
  intros Hc. unfold put. destruct (ttl c <=? 0)%Z; [done|]. cbn [entries].
  assert (Hins : forall m : gmap string cacheEntry, size (<[key := mkEntry v (now + ttl c)]> m) <= S (size m)).
  { intros m. rewrite map_size_insert. case_match; unfold id; lia. }
  destruct (full (entries c)) eqn:Ef.
  2: { unfold full in Ef. bool_to_prop. specialize (Hins (entries c)). lia. }
  set (live := filter _ (entries c)).
  assert (Hlive : size live <= size (entries c)) by apply map_subseteq_size, map_filter_subseteq.
  destruct (live !! key) eqn:Ek; [rewrite map_size_insert_Some by eauto; lia|].
  destruct (full live) eqn:El; unfold full in El; bool_to_prop.
  - assert (size live <> 0) by (unfold maxCacheEntries in *; lia).
    specialize (Hins (evictSoonestExpiringLocked live)). rewrite evict_size in Hins by done. lia.
  - specialize (Hins live). lia.
Qed.

Lemma get_Some now key c v :
  get now key c = Some v ->
  exists e, entries c !! key = Some e /\ value e = v /\ (now < expires e)%Z.
Proof.
  unfold get. destruct (ttl c <=? 0)%Z; [done|]. destruct (entries c !! key) as [e|]; [|done].
  destruct (now <? expires e)%Z eqn:E; [|done]. bool_to_prop. intros [= <-]. eauto.
Qed.
End TTL.
Arguments cacheEntry : clear implicits.
Arguments ttlCache : clear implicits.

(** *** [cachedEndpoint] *)

(** The four lookups that share the cache. *)
Inductive lookup :=
| BySubdomain (sub : string)
| ByDomain (domain : string)
| ByAccessHostname (hostname : string)
| ByID (id : string).

Definition key_of (q : lookup) : string :=
  match q with
  | BySubdomain s => "s:" +:+ s
  | ByDomain d => "d:" +:+ d
  | ByAccessHostname h => "a:" +:+ h
  | ByID i => "i:" +:+ i
  end.

Lemma key_of_inj q1 q2 : key_of q1 = key_of q2 -> q1 = q2.
Proof. destruct q1, q2; cbn; intros H; by simplify_eq/=. Qed.

Section Calls.
(** [E] is the type of endpoint records. *)
Context {E : Type}.

(** What the store, and a call, answer. *)
Inductive answer := Found (ep : E) | NotFound | Failed.

(** A call is about to look at [endpoints], to ask the store, to file what the
    store said, or done. *)
Inductive pc := Looking | Loading | Filing (r : answer) | Done (r : answer).

(** What happened, with the time it happened; newest first. *)
Inductive logged :=
| LLoad (th : nat) (q : lookup) (r : answer) (t : Z)
| LFile (th : nat) (q : lookup) (r : answer) (t : Z)
| LAnswer (th : nat) (q : lookup) (r : answer) (t : Z)
| LClearEndpoints
| LClearMisses.

Record ingress := mkIngress {
  endpoints : ttlCache E;
  misses : ttlCache unit;
  clock : Z;
  calls : gmap nat (lookup * pc);
  log : list logged
}.

(** The caches as [New] makes them. *)
Definition newIngress (lookupTTL t : Z) : ingress :=
  mkIngress (newTTLCache lookupTTL) (newTTLCache (Z.min lookupTTL negativeCacheTTL)) t ∅ [].

Definition set_call (th : nat) (q : lookup) (p : pc) (i : ingress) : ingress :=
  mkIngress (endpoints i) (misses i) (clock i) (<[th := (q, p)]> (calls i)) (log i).

Definition record (l : logged) (i : ingress) : ingress :=
  mkIngress (endpoints i) (misses i) (clock i) (calls i) (l :: log i).

Definition finish (th : nat) (q : lookup) (r : answer) (i : ingress) : ingress :=
  record (LAnswer th q r (clock i)) (set_call th q (Done r) i).

(** [i.misses.get(key)]. *)
Definition begin_lookup (th : nat) (q : lookup) (i : ingress) : ingress :=
  match get (clock i) (key_of q) (misses i) with
  | Some _ => finish th q NotFound i
  | None => set_call th q Looking i
  end.

(** [c.get(key)] of [cached]. *)
Definition look (th : nat) (q : lookup) (i : ingress) : ingress :=
  match get (clock i) (key_of q) (endpoints i) with
  | Some ep => finish th q (Found ep) i
  | None => set_call th q Loading i
  end.

(** [load()]; [r] is the store's answer. *)
Definition load (th : nat) (q : lookup) (r : answer) (i : ingress) : ingress :=
  record (LLoad th q r (clock i)) (set_call th q (Filing r) i).

(** [c.put(key, v)] of [cached], or [i.misses.put(key, struct{}{})]. *)
Definition file (th : nat) (q : lookup) (r : answer) (i : ingress) : ingress :=
  let i' := match r with
    | Found ep => record (LFile th q r (clock i))
        (mkIngress (put (clock i) (key_of q) ep (endpoints i)) (misses i) (clock i) (calls i) (log i))
    | NotFound => record (LFile th q r (clock i))
        (mkIngress (endpoints i) (put (clock i) (key_of q) tt (misses i)) (clock i) (calls i) (log i))
    | Failed => i
    end in
  finish th q r i'.

Inductive event :=
| EvBegin (th : nat) (q : lookup)
| EvLook (th : nat)
| EvLoad (th : nat) (r : answer)
| EvFile (th : nat)
| EvClearEndpoints
| EvClearMisses
| EvTick (d : Z).

(** [InvalidateCaches] is [EvClearEndpoints] and then [EvClearMisses]. *)
Definition step (e : event) (i : ingress) : option ingress :=
  match e with
  | EvBegin th q => match calls i !! th with None => Some (begin_lookup th q i) | Some _ => None end
  | EvLook th => match calls i !! th with Some (q, Looking) => Some (look th q i) | _ => None end
  | EvLoad th r => match calls i !! th with Some (q, Loading) => Some (load th q r i) | _ => None end
  | EvFile th => match calls i !! th with Some (q, Filing r) => Some (file th q r i) | _ => None end
  | EvClearEndpoints =>
      Some (record LClearEndpoints (mkIngress (clear (endpoints i)) (misses i) (clock i) (calls i) (log i)))
  | EvClearMisses =>
      Some (record LClearMisses (mkIngress (endpoints i) (clear (misses i)) (clock i) (calls i) (log i)))
  | EvTick d => if (0 <=? d)%Z
                then Some (mkIngress (endpoints i) (misses i) (clock i + d) (calls i) (log i)) else None
  end.

Fixpoint run (es : list event) (i : ingress) : option ingress :=
  match es with
  | [] => Some i
  | e :: rest => match step e i with Some i' => run rest i' | None => None end
  end.

Inductive reachable (lookupTTL : Z) : ingress -> Prop :=
| reach_init t : reachable lookupTTL (newIngress lookupTTL t)
| reach_step e i i' : reachable lookupTTL i -> step e i = Some i' -> reachable lookupTTL i'.

(** [l] is a log at a time when [r] filed for [q] at [t0] is still valid: [clr] has not
    happened since, and it was loaded for the same lookup before. *)
Definition filed (clr : logged) (l : list logged) (q : lookup) (r : answer) (t0 : Z) : Prop :=
  exists th l1 l2 t1, l = l1 ++ LFile th q r t0 :: l2 /\ clr ∉ l1 /\ LLoad th q r t1 ∈ l2 /\ (t1 <= t0)%Z.

Lemma filed_cons clr x l q r t0 : x <> clr -> filed clr l q r t0 -> filed clr (x :: l) q r t0.
Proof.
  intros Hx (th&l1&l2&t1&->&Hc&Hl&Ht). exists th, (x :: l1), l2, t1. split_and!; [done| |done..].
  rewrite elem_of_cons. naive_solver.
Qed.

(** Every entry of a cache was filed, since the last clearing, [ttl] before it expires. *)
Definition shelf_ok {V} (mk : V -> answer) (clr : logged) (c : ttlCache V) (l : list logged) (t : Z) : Prop :=
  forall k e, entries c !! k = Some e ->
    exists q t0, k = key_of q /\ filed clr l q (mk (value e)) t0 /\ expires e = (t0 + ttl c)%Z /\ (t0 <= t)%Z.

Lemma shelf_cons {V} (mk : V -> answer) clr c l t x :
  x <> clr -> shelf_ok mk clr c l t -> shelf_ok mk clr c (x :: l) t.
Proof. intros Hx Hs k e Hk. destruct (Hs k e Hk) as (q&t0&?&?&?). exists q, t0. eauto using filed_cons. Qed.

Lemma shelf_empty {V} (mk : V -> answer) clr c l t : entries c = ∅ -> shelf_ok mk clr c l t.
Proof. intros Hc k e. by rewrite Hc, lookup_empty. Qed.

Lemma shelf_later {V} (mk : V -> answer) clr c l t d :
  (0 <= d)%Z -> shelf_ok mk clr c l t -> shelf_ok mk clr c l (t + d).
Proof. intros Hd Hs k e Hk. destruct (Hs k e Hk) as (q&t0&?&?&?&?). exists q, t0. split_and!; [done..|lia]. Qed.

Lemma shelf_put {V} (mk : V -> answer) clr c l t th q v t1 :
  (forall r, LFile th q r t <> clr) -> LLoad th q (mk v) t1 ∈ l -> (t1 <= t)%Z ->
  shelf_ok mk clr c l t -> shelf_ok mk clr (put t (key_of q) v c) (LFile th q (mk v) t :: l) t.
Proof.
  intros Hclr Hl Ht Hs k e Hk. rewrite put_ttl. apply put_lookup in Hk as [[-> ->]|Hk].
  - exists q, t. cbn [value expires]. split_and!; [done| |done|lia].
    exists th, [], l, t1. split_and!; [done|apply not_elem_of_nil|done..].
  - apply (shelf_cons mk clr c l t (LFile th q (mk v) t) (Hclr _) Hs k e Hk).
Qed.

Lemma shelf_get {V} (mk : V -> answer) clr c l t q v :
  shelf_ok mk clr c l t -> get t (key_of q) c = Some v ->
  exists t0, filed clr l q (mk v) t0 /\ (t0 <= t < t0 + ttl c)%Z.
Proof.
  intros Hs (e&Hk&<-&Hlt)%get_Some. destruct (Hs _ _ Hk) as (q'&t0&Hq&Hf&He&Ht).
  apply key_of_inj in Hq as <-. exists t0. split; [done|lia].
Qed.

(** The answer is what the call's own load said, or was loaded for the same lookup by a call
    that filed it less than the lifetime ago, with no invalidation since. *)
Definition answer_ok (lookupTTL : Z) (l : list logged) (th : nat) (q : lookup) (r : answer) (t : Z) : Prop :=
  (exists t1, LLoad th q r t1 ∈ l /\ (t1 <= t)%Z) \/
  exists t0, match r with
             | Found _ => filed LClearEndpoints l q r t0 /\ (t0 <= t < t0 + lookupTTL)%Z
             | NotFound => filed LClearMisses l q r t0 /\ (t0 <= t < t0 + Z.min lookupTTL negativeCacheTTL)%Z
             | Failed => False
             end.

Fixpoint answers_ok (lookupTTL : Z) (l : list logged) : Prop :=
  match l with
  | [] => True
  | x :: rest =>
      match x with LAnswer th q r t => answer_ok lookupTTL rest th q r t | _ => True end /\ answers_ok lookupTTL rest
  end.

Lemma answers_ok_app lookupTTL l1 l2 th q r t :
  answers_ok lookupTTL (l1 ++ LAnswer th q r t :: l2) -> answer_ok lookupTTL l2 th q r t.
Proof. induction l1 as [|x l1 IH]; simpl; [by intros [? _]|]. intros [_ H]. by apply IH. Qed.

Record cache_inv (lookupTTL : Z) (i : ingress) : Prop := {
  ci_ttl : ttl (endpoints i) = lookupTTL /\ ttl (misses i) = Z.min lookupTTL negativeCacheTTL;
  ci_endpoints : shelf_ok Found LClearEndpoints (endpoints i) (log i) (clock i);
  ci_misses : shelf_ok (fun _ => NotFound) LClearMisses (misses i) (log i) (clock i);
  ci_filing : forall th q r, calls i !! th = Some (q, Filing r) ->
    exists t1, LLoad th q r t1 ∈ log i /\ (t1 <= clock i)%Z;
  ci_answers : answers_ok lookupTTL (log i);
  ci_sizes : (Z.of_nat (size (entries (endpoints i))) <= maxCacheEntries)%Z /\
             (Z.of_nat (size (entries (misses i))) <= maxCacheEntries)%Z
}.

Lemma filing_cons (cs : gmap nat (lookup * pc)) x l t :
  (forall th q r, cs !! th = Some (q, Filing r) -> exists t1, LLoad th q r t1 ∈ l /\ (t1 <= t)%Z) ->
  forall th q r, cs !! th = Some (q, Filing r) -> exists t1, LLoad th q r t1 ∈ x :: l /\ (t1 <= t)%Z.
Proof. intros Hf th q r Hc. destruct (Hf _ _ _ Hc) as (t1&?&?). exists t1. split; [by right|done]. Qed.

Lemma inv_set_call T th q p i :
  cache_inv T i -> (forall r, p = Filing r -> exists t1, LLoad th q r t1 ∈ log i /\ (t1 <= clock i)%Z) ->
  cache_inv T (set_call th q p i).
Proof.
  intros [? ? ? Hf ? ?] Hp. split; try done. intros th' q' r. cbn [set_call calls log clock].
  intros [[<- [= <- ->]]|[_ Hc]]%lookup_insert_Some; [by apply Hp|by apply Hf].
Qed.

Lemma inv_record T x i :
  cache_inv T i -> x <> LClearEndpoints -> x <> LClearMisses ->
  (forall th q r t, x = LAnswer th q r t -> answer_ok T (log i) th q r t) ->
  cache_inv T (record x i).
Proof.
  intros [? ? ? Hf ? ?] He Hm Ha. split; cbn [record log endpoints misses clock calls]; auto using shelf_cons.
  - by apply filing_cons.
  - split; [|done]. destruct x; eauto.
Qed.

Lemma endpoint_inv_finish T th q r i :
  cache_inv T i -> answer_ok T (log i) th q r (clock i) -> cache_inv T (finish th q r i).
Proof.
  intros Hi Ha. apply inv_record; [by apply inv_set_call|done..|]. intros ? ? ? ? [= <- <- <- <-]. done.
Qed.

Lemma inv_file T th q r i :
  cache_inv T i -> calls i !! th = Some (q, Filing r) -> cache_inv T (file th q r i).
Proof.
  intros Hi Hc. destruct (ci_filing _ _ Hi _ _ _ Hc) as (t1&Hl&Ht).
  destruct Hi as [[Ht1 Ht2] He Hm Hf Ha [Hs1 Hs2]].
  assert (Hown : forall x, answer_ok T (x :: log i) th q r (clock i)) by (intros x; left; exists t1; split; [by right|done]).
  pose proof (fun x => filing_cons _ x _ _ Hf) as Hf'.
  destruct r as [ep| |]; unfold file; cbv zeta; (apply endpoint_inv_finish; [|try apply Hown]).
  - split; cbn [record log endpoints misses clock calls]; rewrite ?put_ttl;
      [done|by apply (shelf_put Found _ _ _ _ _ _ _ t1)|by apply shelf_cons|apply Hf'|by split|].
    split; [by apply put_size|done].
  - split; cbn [record log endpoints misses clock calls]; rewrite ?put_ttl;
      [done|by apply shelf_cons|by apply (shelf_put (fun _ => NotFound) _ _ _ _ _ _ _ t1)|apply Hf'|by split|].
    split; [done|by apply put_size].
  - by split.
  - left. by exists t1.
Qed.

Lemma endpoint_inv_step T e i i' : cache_inv T i -> step e i = Some i' -> cache_inv T i'.
Proof.
  intros Hi. pose proof Hi as [[Ht1 Ht2] He Hm Hf Ha [Hs1 Hs2]].
  pose proof (fun x => filing_cons _ x _ _ Hf) as Hf'.
  destruct e as [th q|th|th r|th| | |d]; simpl.
  - destruct (calls i !! th); [done|]. intros [= <-]. unfold begin_lookup.
    destruct (get _ _ (misses i)) eqn:Eg; [|by apply inv_set_call]. apply endpoint_inv_finish; [done|]. right.
    destruct (shelf_get _ _ _ _ _ _ _ Hm Eg) as (t0&Hfd&Ht). exists t0. by rewrite <- Ht2.
  - destruct (calls i !! th) as [[q []]|] eqn:Ec; try done. intros [= <-]. unfold look.
    destruct (get _ _ (endpoints i)) eqn:Eg; [|by apply inv_set_call]. apply endpoint_inv_finish; [done|]. right.
    destruct (shelf_get _ _ _ _ _ _ _ He Eg) as (t0&Hfd&Ht). exists t0. by rewrite <- Ht1.
  - destruct (calls i !! th) as [[q []]|] eqn:Ec; try done. intros [= <-]. unfold load.
    apply (inv_record T (LLoad th q r (clock i)) i) in Hi; [|done..].
    apply (inv_set_call T th q (Filing r)) in Hi; [done|].
    intros r' [= <-]. exists (clock i). cbn [record log clock]. split; [left|lia].
  - destruct (calls i !! th) as [[q []]|] eqn:Ec; try done. intros [= <-]. by apply inv_file.
  - intros [= <-]. split; cbn [record log endpoints misses clock calls clear ttl entries];
      [done|by apply shelf_empty|by apply shelf_cons|apply Hf'|by split|by rewrite map_size_empty].
  - intros [= <-]. split; cbn [record log endpoints misses clock calls clear ttl entries];
      [done|by apply shelf_cons|by apply shelf_empty|apply Hf'|by split|by rewrite map_size_empty].
  - destruct (Z.leb_spec 0 d); [|done]. intros [= <-].
    split; cbn [record log endpoints misses clock calls]; auto using shelf_later.
    intros th q r Hc. destruct (Hf _ _ _ Hc) as (t1&?&?). exists t1. split; [done|lia].
Qed.

Lemma cache_reachable_inv T i : reachable T i -> cache_inv T i.
Proof.
  induction 1 as [t|e i i' _ IH Hs]; [|by eapply endpoint_inv_step].
  split; cbn; try done; by apply shelf_empty.
Qed.

(** No lookup is answered with an old record: every answer is what the call's own load of
    the store said, or what a load for the very same lookup said that was filed less than
    the cache's lifetime ago (two seconds at most for "not found") and after the last time
    the cache was invalidated. *)
Theorem endpoint_answer_is_recent T i l1 th q r t l2 :
  reachable T i -> log i = l1 ++ LAnswer th q r t :: l2 -> answer_ok T l2 th q r t.
Proof. intros Hr%cache_reachable_inv Hl. eapply answers_ok_app. rewrite <- Hl. apply Hr. Qed.

(** Both caches hold at most [maxCacheEntries] entries, whatever is looked up. *)
Theorem endpoint_caches_bounded T i :
  reachable T i ->
  (Z.of_nat (size (entries (endpoints i))) <= maxCacheEntries)%Z /\
  (Z.of_nat (size (entries (misses i))) <= maxCacheEntries)%Z.
Proof. by intros [_ _ _ _ _ Hs]%cache_reachable_inv. Qed.
End Calls.

(** A load by one call answers another one a second later. *)
Definition sample_events : list (event (E := Z)) :=
  [EvBegin 1 (ByID "e1"); EvLook 1; EvLoad 1 (Found 7%Z); EvFile 1; EvTick second;
   EvBegin 2 (ByID "e1"); EvLook 2].

Definition sample_ingress : ingress := default (newIngress 0 0) (run sample_events (newIngress (5 * second) 0)).

Lemma cache_run_reachable {E} T es (i i' : ingress (E := E)) : reachable T i -> run es i = Some i' -> reachable T i'.
Proof.
  revert i. induction es as [|e es IH]; intros i Hi; simpl; [congruence|].
  destruct (step e i) eqn:Es; [|done]. intros Hr. eapply IH; [|done]. by econstructor.
Qed.

Lemma sample_ingress_reachable : reachable (5 * second) sample_ingress.
Proof. apply (cache_run_reachable _ sample_events (newIngress (5 * second) 0)); [constructor|]. reflexivity. Qed.

Lemma endpoint_answer_is_recent_witness :
  answer_ok (5 * second) (tail (log sample_ingress)) 2 (ByID "e1") (Found 7%Z) second.
Proof.
  apply (endpoint_answer_is_recent _ _ [] _ _ _ _ _ sample_ingress_reachable). reflexivity.
Defined.

Lemma endpoint_caches_bounded_witness : (Z.of_nat (size (entries (endpoints sample_ingress))) <= maxCacheEntries)%Z.
Proof. apply (endpoint_caches_bounded _ _ sample_ingress_reachable). Defined.
End EndpointCache.

(** ** The usage meter of a connection *)
Module Meter.
Import ConnStore.

Definition minUsageFlush : Z := 64 * 1024.
Definition maxUsageFlush : Z := 1024 * 1024.

Record meterTarget := mkTarget { orgID : string; limit : Z }.

(** Where a call is: after the test of [exceeded], after [pending.Add] (with what it
    returned), before [flushMu.Lock], after [pending.Swap], after [AddUsage], or before
    [AddBytes]. [closing] tells a flush of [Close] from one of [account]. *)
Inductive pc :=
| Moving (written : bool)
| Added (p : Z)
| MustFlush (closing : bool)
| Swapped (n : Z) (closing : bool)
| Charged (closing : bool)
| Reporting.

(** [m_in], [m_out] and [pending] are the counters; [conns] the store all connections of
    the process share; [others] is what other connections have added for the same
    organization, and [charged] what this one has. *)
Record meteredConn := mkMetered {
  target : meterTarget;
  m_in : Z;
  m_out : Z;
  pending : Z;
  flushAt : Z;
  exceeded : bool;
  closed : bool;
  flushMu : option nat;
  conns : ConnStore;
  calls : gmap nat pc;
  reported : option (Z * Z);
  others : Z;
  charged : Z
}.

Definition flushThreshold (remaining : Z) : Z := Z.min (Z.max (Z.quot remaining 4) minUsageFlush) maxUsageFlush.

Definition remaining (m : meteredConn) : Z := wrap64 (limit (target m) - Usage (orgID (target m)) (conns m)).

Definition newMeteredConn (t : meterTarget) (c : ConnStore) : meteredConn :=
  let at_ := if (0 <? limit t)%Z && negb (bool_decide (orgID t = ""))
             then flushThreshold (wrap64 (limit t - Usage (orgID t) c)) else maxUsageFlush in
  mkMetered t 0 0 0 at_ false false None c ∅ None 0 0.

Definition with_calls (cs : gmap nat pc) (m : meteredConn) : meteredConn :=
  mkMetered (target m) (m_in m) (m_out m) (pending m) (flushAt m) (exceeded m) (closed m) (flushMu m)
    (conns m) cs (reported m) (others m) (charged m).

Definition set_pc (th : nat) (p : pc) (m : meteredConn) : meteredConn := with_calls (<[th := p]> (calls m)) m.
Definition done_call (th : nat) (m : meteredConn) : meteredConn := with_calls (delete th (calls m)) m.

(** The start of [Read] and [Write]. *)
Definition op_start (th : nat) (written : bool) (m : meteredConn) : meteredConn :=
  if exceeded m then m else set_pc th (Moving written) m.

(** The connection moved [n] bytes: the counter and [pending.Add(n)]. *)
Definition moved (th : nat) (written : bool) (n : Z) (m : meteredConn) : meteredConn :=
  if (n <=? 0)%Z then done_call th m
  else set_pc th (Added (pending m + n))
         (mkMetered (target m) (if written then m_in m + n else m_in m)%Z
            (if written then m_out m else m_out m + n)%Z (pending m + n) (flushAt m) (exceeded m) (closed m)
            (flushMu m) (conns m) (calls m) (reported m) (others m) (charged m)).

(** The comparison of [account]. *)
Definition check_flush (th : nat) (p : Z) (m : meteredConn) : meteredConn :=
  if (flushAt m <=? p)%Z then set_pc th (MustFlush false) m else done_call th m.

Definition after_flush (th : nat) (closing : bool) (m : meteredConn) : meteredConn :=
  if closing then set_pc th Reporting m else done_call th m.

(** [flushMu.Lock] and [pending.Swap(0)]. *)
Definition flush_swap (th : nat) (closing : bool) (m : meteredConn) : meteredConn :=
  let n := pending m in
  let swapped mu := mkMetered (target m) (m_in m) (m_out m) 0 (flushAt m) (exceeded m) (closed m) mu
                      (conns m) (calls m) (reported m) (others m) (charged m) in
  if (n =? 0)%Z || bool_decide (orgID (target m) = "") then after_flush th closing (swapped (flushMu m))
  else set_pc th (Swapped n closing) (swapped (Some th)).

Definition unlock (m : meteredConn) : meteredConn :=
  mkMetered (target m) (m_in m) (m_out m) (pending m) (flushAt m) (exceeded m) (closed m) None
    (conns m) (calls m) (reported m) (others m) (charged m).

(** [AddUsage]; without a limit the flush ends here. *)
Definition flush_charge (th : nat) (n : Z) (closing : bool) (m : meteredConn) : meteredConn :=
  let m' := mkMetered (target m) (m_in m) (m_out m) (pending m) (flushAt m) (exceeded m) (closed m) (flushMu m)
              (AddUsage (orgID (target m)) n (conns m)) (calls m) (reported m) (others m) (charged m + n) in
  if (limit (target m) <=? 0)%Z then after_flush th closing (unlock m') else set_pc th (Charged closing) m'.

(** The rest of [flush]: [Usage], and the limit. *)
Definition flush_decide (th : nat) (closing : bool) (m : meteredConn) : meteredConn :=
  let over := (remaining m <=? 0)%Z in
  let m' := mkMetered (target m) (m_in m) (m_out m) (pending m)
              (if over then flushAt m else flushThreshold (remaining m)) (over || exceeded m) (closed m) None
              (conns m) (calls m) (reported m) (others m) (charged m) in
  after_flush th closing m'.

(** [Close]: the body of the [sync.Once] runs once. *)
Definition close_conn (th : nat) (m : meteredConn) : meteredConn :=
  if closed m then m
  else set_pc th (MustFlush true)
         (mkMetered (target m) (m_in m) (m_out m) (pending m) (flushAt m) (exceeded m) true (flushMu m)
            (conns m) (calls m) (reported m) (others m) (charged m)).

(** [AddBytes(kind, in, out)]. *)
Definition report (th : nat) (m : meteredConn) : meteredConn :=
  done_call th (mkMetered (target m) (m_in m) (m_out m) (pending m) (flushAt m) (exceeded m) (closed m) (flushMu m)
    (conns m) (calls m) (Some (m_in m, m_out m)) (others m) (charged m)).

Inductive event :=
| EvOp (th : nat) (written : bool)
| EvMoved (th : nat) (n : Z)
| EvCheck (th : nat)
| EvSwap (th : nat)
| EvCharge (th : nat)
| EvDecide (th : nat)
| EvClose (th : nat)
| EvReport (th : nat)
| EvOther (org : string) (n : Z).

Definition step (e : event) (m : meteredConn) : option meteredConn :=
  match e with
  | EvOp th w => match calls m !! th with None => Some (op_start th w m) | Some _ => None end
  | EvMoved th n => match calls m !! th with Some (Moving w) => Some (moved th w n m) | _ => None end
  | EvCheck th => match calls m !! th with Some (Added p) => Some (check_flush th p m) | _ => None end
  | EvSwap th =>
      match calls m !! th, flushMu m with
      | Some (MustFlush c), None => Some (flush_swap th c m)
      | _, _ => None
      end
  | EvCharge th => match calls m !! th with Some (Swapped n c) => Some (flush_charge th n c m) | _ => None end
  | EvDecide th => match calls m !! th with Some (Charged c) => Some (flush_decide th c m) | _ => None end
  | EvClose th => match calls m !! th with None => Some (close_conn th m) | Some _ => None end
  | EvReport th => match calls m !! th with Some Reporting => Some (report th m) | _ => None end
  | EvOther org n =>
      Some (mkMetered (target m) (m_in m) (m_out m) (pending m) (flushAt m) (exceeded m) (closed m) (flushMu m)
              (AddUsage org n (conns m)) (calls m) (reported m)
              (if bool_decide (org = orgID (target m)) then others m + n else others m)%Z (charged m))
  end.

Fixpoint run (es : list event) (m : meteredConn) : option meteredConn :=
  match es with
  | [] => Some m
  | e :: rest => match step e m with Some m' => run rest m' | None => None end
  end.

Inductive reachable (t : meterTarget) (c : ConnStore) : meteredConn -> Prop :=
| reach_init : reachable t c (newMeteredConn t c)
| reach_step e m m' : reachable t c m -> step e m = Some m' -> reachable t c m'.

(** What a flush has taken from [pending] and not charged yet. *)
Definition hand_of (mu : option nat) (cs : gmap nat pc) : Z :=
  match mu with
  | Some th => match cs !! th with Some (Swapped n _) => n | _ => 0 end
  | None => 0
  end.

Definition flushing (p : pc) : bool := match p with Swapped _ _ | Charged _ => true | _ => false end.

(** Exactly the call that has swapped holds [flushMu]. *)
Definition mutex_ok (mu : option nat) (cs : gmap nat pc) : Prop :=
  forall th, (exists p, cs !! th = Some p /\ flushing p = true) <-> mu = Some th.

(** A call whose next steps flush. *)
Definition flush_due (cs : gmap nat pc) : Prop :=
  exists th, (exists c, cs !! th = Some (MustFlush c)) \/
             (exists p, cs !! th = Some (Added p) /\ (maxUsageFlush <= p)%Z).

Lemma hand_other mu cs th p : mu <> Some th -> hand_of mu (<[th := p]> cs) = hand_of mu cs.
Proof. intros Hmu. destruct mu as [o|]; simpl; [|done]. rewrite lookup_insert_ne by congruence. done. Qed.

Lemma hand_delete mu cs th : mu <> Some th -> hand_of mu (delete th cs) = hand_of mu cs.
Proof. intros Hmu. destruct mu as [o|]; simpl; [|done]. rewrite lookup_delete_ne by congruence. done. Qed.

Lemma mutex_not_owner mu cs th :
  mutex_ok mu cs -> (forall p, cs !! th = Some p -> flushing p = false) -> mu <> Some th.
Proof. intros Hm Hp Hmu. apply Hm in Hmu as (p&Hc&Hf). rewrite (Hp _ Hc) in Hf. done. Qed.

Lemma mutex_insert mu cs th p :
  mutex_ok mu cs -> mu <> Some th -> flushing p = false -> mutex_ok mu (<[th := p]> cs).
Proof.
  intros Hm Hne Hp th'. destruct (decide (th' = th)) as [->|]; [|by rewrite lookup_insert_ne].
  rewrite lookup_insert_eq. split; [|done]. intros (q&[= <-]&Hq). congruence.
Qed.

Lemma mutex_delete mu cs th : mutex_ok mu cs -> mu <> Some th -> mutex_ok mu (delete th cs).
Proof.
  intros Hm Hne th'. destruct (decide (th' = th)) as [->|]; [|by rewrite lookup_delete_ne].
  rewrite lookup_delete_eq. split; [|done]. by intros (q&?&_).
Qed.

Lemma mutex_acquire cs th p : mutex_ok None cs -> flushing p = true -> mutex_ok (Some th) (<[th := p]> cs).
Proof.
  intros Hm Hp th'. destruct (decide (th' = th)) as [->|Hne].
  - rewrite lookup_insert_eq. split; [done|]. intros _. eauto.
  - rewrite lookup_insert_ne by done. split; [|congruence]. intros Hq. by apply Hm in Hq.
Qed.

Lemma mutex_keep th cs p : mutex_ok (Some th) cs -> flushing p = true -> mutex_ok (Some th) (<[th := p]> cs).
Proof.
  intros Hm Hp th'. destruct (decide (th' = th)) as [->|Hne].
  - rewrite lookup_insert_eq. split; [done|]. intros _. eauto.
  - rewrite lookup_insert_ne by done. apply Hm.
Qed.

Lemma mutex_release th cs : mutex_ok (Some th) cs -> mutex_ok None (delete th cs).
Proof.
  intros Hm th'. split; [|done]. intros (p&Hp&Hf). apply lookup_delete_Some in Hp as [Hne Hp].
  assert (Some th = Some th') by (apply Hm; eauto). congruence.
Qed.

Lemma wrap64_idem a b : wrap64 (wrap64 a + b) = wrap64 (a + b).
Proof.
  unfold wrap64. replace ((a + 2 ^ 63) mod 2 ^ 64 - 2 ^ 63 + b + 2 ^ 63)%Z
    with ((a + 2 ^ 63) mod 2 ^ 64 + b)%Z by lia.
  rewrite Zplus_mod_idemp_l. do 2 f_equal. lia.
Qed.

Lemma wrap64_wrap a : wrap64 (wrap64 a) = wrap64 a.
Proof. pose proof (wrap64_idem a 0) as H. by rewrite !Z.add_0_r in H. Qed.

Lemma Usage_AddUsage org org' n c :
  org <> "" ->
  wrap64 (Usage org (AddUsage org' n c)) = wrap64 (Usage org c + (if bool_decide (org' = org) then n else 0)).
Proof.
  intros Hne. unfold AddUsage. destruct (bool_decide (org' = "") || (n =? 0)%Z)%bool eqn:E.
  - destruct (decide (org' = org)) as [->|Ho]; [|by rewrite (bool_decide_false _ Ho), Z.add_0_r].
    rewrite (bool_decide_false _ Hne) in E. simpl in E. bool_to_prop. subst.
    by rewrite bool_decide_true, Z.add_0_r.
  - unfold Usage at 1. cbn [usage]. destruct (decide (org' = org)) as [->|Ho].
    + rewrite lookup_insert_eq, bool_decide_true by done. apply wrap64_wrap.
    + rewrite lookup_insert_ne, (bool_decide_false _ Ho) by done. by rewrite Z.add_0_r.
Qed.

Record meter_inv (t : meterTarget) (u0 : Z) (m : meteredConn) : Prop := {
  mi_target : target m = t;
  mi_mutex : mutex_ok (flushMu m) (calls m);
  mi_total : (charged m + hand_of (flushMu m) (calls m) + pending m = m_in m + m_out m)%Z;
  mi_nonneg : (0 <= pending m /\ 0 <= hand_of (flushMu m) (calls m))%Z;
  mi_usage : wrap64 (Usage (orgID t) (conns m)) = wrap64 (u0 + others m + charged m);
  mi_flushAt : (flushAt m <= maxUsageFlush)%Z;
  mi_bound : (pending m < maxUsageFlush)%Z \/ flush_due (calls m)
}.

Lemma flush_due_other cs th p : flush_due cs -> (forall q, cs !! th = Some q -> ~ flush_due {[th := q]}) ->
  flush_due (<[th := p]> cs) /\ flush_due (delete th cs).
Proof.
  intros (th'&Hd) Hno. assert (th' <> th) as Hne.
  { intros ->. destruct Hd as [[c Hc]|(q&Hq&Hle)].
    - apply (Hno _ Hc). exists th. left. exists c. by rewrite lookup_singleton_eq.
    - apply (Hno _ Hq). exists th. right. exists q. by rewrite lookup_singleton_eq. }
  split; exists th'; [rewrite lookup_insert_ne by done|rewrite lookup_delete_ne by done]; done.
Qed.

Lemma not_due th q :
  (forall c, q <> MustFlush c) -> (forall p, q = Added p -> (p < maxUsageFlush)%Z) -> ~ flush_due {[th := q]}.
Proof.
  intros H1 H2 (th'&[[c Hc]|(p&Hp&Hle)]).
  - apply lookup_singleton_Some in Hc as [_ ->]. by apply (H1 c).
  - apply lookup_singleton_Some in Hp as [_ ->]. specialize (H2 p eq_refl). lia.
Qed.

(** A call that is not flushing moves to a place where it is not flushing. *)
Lemma inv_move t u0 m th p :
  meter_inv t u0 m -> (forall q, calls m !! th = Some q -> flushing q = false) -> flushing p = false ->
  (flush_due (calls m) -> flush_due (<[th := p]> (calls m)) \/ (pending m < maxUsageFlush)%Z) ->
  meter_inv t u0 (set_pc th p m).
Proof.
  intros [? Hmu ? ? ? ? Hb] Hq Hp Hd. pose proof (mutex_not_owner _ _ _ Hmu Hq) as Hne.
  split; cbn [set_pc with_calls target flushMu calls pending m_in m_out conns others charged flushAt];
    rewrite ?hand_other by done; auto using mutex_insert. destruct Hb; [by left|]. destruct Hd; auto.
Qed.

Lemma inv_done t u0 m th :
  meter_inv t u0 m -> (forall q, calls m !! th = Some q -> flushing q = false) ->
  (flush_due (calls m) -> flush_due (delete th (calls m)) \/ (pending m < maxUsageFlush)%Z) ->
  meter_inv t u0 (done_call th m).
Proof.
  intros [? Hmu ? ? ? ? Hb] Hq Hd. pose proof (mutex_not_owner _ _ _ Hmu Hq) as Hne.
  split; cbn [done_call with_calls target flushMu calls pending m_in m_out conns others charged flushAt];
    rewrite ?hand_delete by done; auto using mutex_delete. destruct Hb; [by left|]. destruct Hd; auto.
Qed.

Lemma inv_after_flush t u0 m th c :
  meter_inv t u0 m -> (forall q, calls m !! th = Some q -> flushing q = false) ->
  (flush_due (calls m) -> (flush_due (<[th := Reporting]> (calls m)) /\ flush_due (delete th (calls m)))
     \/ (pending m < maxUsageFlush)%Z) ->
  meter_inv t u0 (after_flush th c m).
Proof. intros Hi Hq Hd. destruct c; [apply inv_move|apply inv_done]; try done; naive_solver. Qed.

(** The holder of [flushMu] lets it go. *)
Lemma after_unlock t u0 m th c m' :
  meter_inv t u0 m -> flushMu m = Some th ->
  target m' = target m -> flushMu m' = None -> calls m' = calls m -> pending m' = pending m ->
  m_in m' = m_in m -> m_out m' = m_out m -> others m' = others m ->
  charged m' = (charged m + hand_of (flushMu m) (calls m))%Z ->
  wrap64 (Usage (orgID t) (conns m')) = wrap64 (u0 + others m + charged m') ->
  (flushAt m' <= maxUsageFlush)%Z ->
  meter_inv t u0 (after_flush th c m').
Proof.
  intros [Ht Hmu Htot Hnn Hu Hf Hb] Hown Et Em Ec Ep Ei Eo Eoth Ech Hu' Hf'.
  assert (Hdue : flush_due (calls m) -> flush_due (<[th := Reporting]> (calls m)) /\ flush_due (delete th (calls m))).
  { intros Hd. apply flush_due_other; [done|]. intros q Hq.
    destruct (proj2 (Hmu th) Hown) as (p&Hp&Hfl). assert (q = p) as -> by congruence.
    apply not_due; by destruct p. }
  rewrite Hown in Hmu.
  assert (Hnone : mutex_ok None (<[th := Reporting]> (calls m))).
  { intros th'. split; [|done]. intros (p&Hp&Hfl). apply lookup_insert_Some in Hp as [[<- <-]|[Hne Hp]]; [done|].
    assert (Some th = Some th') by (apply Hmu; eauto). congruence. }
  unfold after_flush. destruct c; split;
    cbn [set_pc done_call with_calls target flushMu calls pending m_in m_out conns others charged flushAt];
    rewrite ?Et, ?Em, ?Ec, ?Ep, ?Ei, ?Eo, ?Eoth; auto using mutex_release; cbn [hand_of]; try lia;
    destruct Hb as [Hb|Hb]; auto; right; by apply Hdue.
Qed.

Lemma flushThreshold_le r : (flushThreshold r <= maxUsageFlush)%Z.
Proof. unfold flushThreshold. lia. Qed.

Lemma due_set_other th q cs p :
  cs !! th = Some q -> ~ flush_due {[th := q]} -> flush_due cs -> flush_due (<[th := p]> cs) /\ flush_due (delete th cs).
Proof. intros Hq Hno Hd. apply flush_due_other; [done|]. intros q' Hq'. assert (q' = q) as -> by congruence. done. Qed.

Lemma inv_moved t u0 m th w n :
  meter_inv t u0 m -> calls m !! th = Some (Moving w) -> meter_inv t u0 (moved th w n m).
Proof.
  intros Hi Hc. pose proof Hi as [Ht Hmu Htot [Hnn Hh] Hu Hf Hb]. unfold moved.
  assert (Hq : forall q, calls m !! th = Some q -> flushing q = false) by naive_solver.
  assert (Hno : ~ flush_due {[th := Moving w]}) by (by apply not_due).
  destruct (Z.leb_spec n 0).
  { apply inv_done; [done..|]. intros Hd. left. by apply (due_set_other _ _ _ Reporting Hc). }
  pose proof (mutex_not_owner _ _ _ Hmu Hq) as Hne.
  split; cbn [set_pc with_calls target flushMu calls pending m_in m_out conns others charged flushAt];
    rewrite ?hand_other by done; auto using mutex_insert.
  - destruct w; lia.
  - lia.
  - destruct (Z.ltb_spec (pending m + n) maxUsageFlush); [by left|]. right. exists th. right. eexists.
    by rewrite lookup_insert_eq.
Qed.

Lemma inv_check t u0 m th p :
  meter_inv t u0 m -> calls m !! th = Some (Added p) -> meter_inv t u0 (check_flush th p m).
Proof.
  intros Hi Hc. pose proof Hi as [Ht Hmu Htot [Hnn Hh] Hu Hf Hb]. unfold check_flush.
  assert (Hq : forall q, calls m !! th = Some q -> flushing q = false) by naive_solver.
  destruct (Z.leb_spec (flushAt m) p).
  - apply inv_move; [done..|]. intros _. left. exists th. left. exists false. by rewrite lookup_insert_eq.
  - apply inv_done; [done..|]. intros Hd. left. eapply (due_set_other _ _ _ Reporting Hc); [|done].
    apply not_due; [done|]. intros p' [= <-]. lia.
Qed.

Lemma inv_swap t u0 m th c :
  orgID t <> "" ->
  meter_inv t u0 m -> calls m !! th = Some (MustFlush c) -> flushMu m = None -> meter_inv t u0 (flush_swap th c m).
Proof.
  intros Horg Hi Hc Hm. pose proof Hi as [Ht Hmu Htot [Hnn Hh] Hu Hf Hb]. unfold flush_swap.
  rewrite Ht, (bool_decide_false _ Horg), orb_false_r, Hm in *. simpl in Htot, Hh.
  assert (Hq : forall q, calls m !! th = Some q -> flushing q = false) by naive_solver.
  assert (0 < maxUsageFlush)%Z by done. destruct (Z.eqb_spec (pending m) 0) as [Hz|Hz].
  - apply inv_after_flush; [|done|by right].
    split; cbn [target flushMu calls pending m_in m_out conns others charged flushAt hand_of]; auto; lia.
  - split; cbn [set_pc with_calls target flushMu calls pending m_in m_out conns others charged flushAt hand_of];
      rewrite ?lookup_insert_eq; auto using mutex_acquire; lia.
Qed.

Lemma inv_charge t u0 m th n c :
  orgID t <> "" ->
  meter_inv t u0 m -> calls m !! th = Some (Swapped n c) -> meter_inv t u0 (flush_charge th n c m).
Proof.
  intros Horg Hi Hc. pose proof Hi as [Ht Hmu Htot [Hnn Hh] Hu Hf Hb]. unfold flush_charge.
  assert (Hown : flushMu m = Some th) by (apply Hmu; eauto).
  assert (Hhand : hand_of (flushMu m) (calls m) = n) by (rewrite Hown; simpl; by rewrite Hc).
  assert (Hu' : wrap64 (Usage (orgID t) (AddUsage (orgID (target m)) n (conns m)))
                = wrap64 (u0 + others m + (charged m + n))).
  { rewrite Ht, Usage_AddUsage, bool_decide_true by done. rewrite <- wrap64_idem, Hu, wrap64_idem. f_equal. lia. }
  destruct (limit (target m) <=? 0)%Z.
  - apply (after_unlock t u0 m); try done. cbn [unlock charged]. by rewrite Hhand.
  - rewrite Hown in *. split; cbn [set_pc with_calls target flushMu calls pending m_in m_out conns others charged flushAt hand_of];
      rewrite ?Hown, ?lookup_insert_eq; cbn [hand_of]; rewrite ?lookup_insert_eq; auto using mutex_keep; try lia.
    destruct Hb as [Hb|Hd]; [by left|]. right. eapply (due_set_other _ _ _ _ Hc); [|done]. by apply not_due.
Qed.

Lemma inv_decide t u0 m th c :
  meter_inv t u0 m -> calls m !! th = Some (Charged c) -> meter_inv t u0 (flush_decide th c m).
Proof.
  intros Hi Hc. pose proof Hi as [Ht Hmu Htot [Hnn Hh] Hu Hf Hb]. unfold flush_decide.
  assert (Hown : flushMu m = Some th) by (apply Hmu; eauto).
  apply (after_unlock t u0 m); try done; cbn [flushAt charged].
  - rewrite Hown. simpl. rewrite Hc. lia.
  - destruct (_ <=? _)%Z; [done|apply flushThreshold_le].
Qed.

Lemma meter_inv_step t u0 e m m' :
  orgID t <> "" -> meter_inv t u0 m -> step e m = Some m' -> meter_inv t u0 m'.
Proof.
  intros Horg Hi. pose proof Hi as [Ht Hmu Htot Hnn Hu Hf Hb].
  destruct e as [th w|th n|th|th|th|th|th|th|org n]; simpl;
    [destruct (calls m !! th) as [[]|] eqn:Ec; try done; intros Hs..|intros Hs].
  - injection Hs as <-. unfold op_start. destruct (exceeded m); [done|]. apply inv_move; [done|naive_solver|done|].
    intros Hd. left. apply flush_due_other; [done|naive_solver].
  - injection Hs as <-. by apply inv_moved.
  - injection Hs as <-. by apply inv_check.
  - destruct (flushMu m) eqn:Em; [done|]. injection Hs as <-. by apply inv_swap.
  - injection Hs as <-. by apply inv_charge.
  - injection Hs as <-. by apply inv_decide.
  - injection Hs as <-. unfold close_conn. destruct (closed m); [done|].
    apply inv_move; [by split|naive_solver|done|].
    intros _. left. exists th. left. exists true. by rewrite lookup_insert_eq.
  - injection Hs as <-. unfold report. apply inv_done; [by split|naive_solver|].
    intros Hd. left. eapply (due_set_other _ _ _ Reporting Ec); [|done]. by apply not_due.
  - injection Hs as <-. split; cbn [target flushMu calls pending m_in m_out conns others charged flushAt]; auto.
    rewrite Usage_AddUsage by done. rewrite <- wrap64_idem, Hu, wrap64_idem, Ht.
    destruct (bool_decide (org = orgID t)); f_equal; lia.
Qed.

Lemma meter_reachable_inv t c m : orgID t <> "" -> reachable t c m -> meter_inv t (Usage (orgID t) c) m.
Proof.
  intros Horg. induction 1 as [|e m m' _ IH Hs]; [|by eapply meter_inv_step].
  split; cbn [newMeteredConn target flushMu calls pending m_in m_out conns others charged flushAt hand_of];
    try done; try lia.
  - intros th. rewrite lookup_empty. naive_solver.
  - f_equal. lia.
  - destruct (_ && _)%bool; [apply flushThreshold_le|done].
  - by left.
Qed.

(** Every byte is charged to the organization exactly once, up to what is still pending:
    the usage is the initial one plus what other connections added plus the bytes this
    connection has moved in both directions, less a remainder that is never negative and,
    when no call is under way, below one mebibyte. *)
Theorem meter_charges_every_byte t c m :
  orgID t <> "" -> reachable t c m ->
  exists rest, wrap64 (Usage (orgID t) (conns m)) = wrap64 (Usage (orgID t) c + others m + (m_in m + m_out m - rest)) /\
    (0 <= rest)%Z /\ (calls m = ∅ -> (rest < maxUsageFlush)%Z).
Proof.
  intros Horg Hr. destruct (meter_reachable_inv t c m Horg Hr) as [Ht Hmu Htot [Hnn Hh] Hu Hf Hb].
  exists (hand_of (flushMu m) (calls m) + pending m)%Z. split; [|split; [lia|]].
  - rewrite Hu. f_equal. lia.
  - intros Hc. assert (hand_of (flushMu m) (calls m) = 0%Z) as ->.
    { rewrite Hc. destruct (flushMu m); simpl; [by rewrite lookup_empty|done]. }
    destruct Hb as [|(th&Hd)]; [lia|]. rewrite Hc in Hd. setoid_rewrite lookup_empty in Hd. naive_solver.
Qed.

Lemma exceeded_stays e m m' : exceeded m = true -> step e m = Some m' -> exceeded m' = true.
Proof.
  intros He. destruct e as [th w|th n|th|th|th|th|th|th|org n]; simpl;
    try (destruct (calls m !! th) as [[]|] eqn:Ec; try done); try (destruct (flushMu m); [done|]); intros [= <-]; try done.
  - unfold op_start. by rewrite He.
  - unfold moved. by destruct (n <=? 0)%Z.
  - unfold check_flush. by destruct (_ <=? _)%Z.
  - unfold flush_swap, after_flush. destruct (_ || _)%bool; [|done]. by destruct closing.
  - unfold flush_charge, after_flush. destruct (_ <=? _)%Z; [|done]. by destruct closing.
  - unfold flush_decide, after_flush. rewrite He, orb_true_r. by destruct closing.
  - unfold close_conn. by destruct (closed m).
Qed.

(** The quota is enforced: from the flush on that sees the organization's usage reach its
    limit, no [Read] or [Write] of the connection starts any more, whatever happens later. *)
Theorem quota_cuts_off m th c m1 es m2 :
  calls m !! th = Some (Charged c) -> (remaining m <= 0)%Z ->
  step (EvDecide th) m = Some m1 -> run es m1 = Some m2 ->
  forall th' w, op_start th' w m2 = m2.
Proof.
  intros Hc Hrem. simpl. rewrite Hc. intros [= <-] Hrun.
  assert (He : exceeded (flush_decide th c m) = true).
  { unfold flush_decide. rewrite (proj2 (Z.leb_le _ _) Hrem). unfold after_flush. by destruct c. }
  revert He Hrun. generalize (flush_decide th c m). induction es as [|e es IH]; intros m1 He; simpl.
  - intros [= <-] th' w. unfold op_start. by rewrite He.
  - destruct (step e m1) as [m3|] eqn:Es; [|done]. apply IH. by eapply exceeded_stays.
Qed.

(** One write of 100000 bytes with a limit of 300000, another connection having used 250000. *)
Definition sample_target : meterTarget := mkTarget "org" 300000.
Definition sample_events : list event :=
  [EvOp 1 true; EvMoved 1 100000; EvCheck 1; EvOther "org" 250000; EvSwap 1; EvCharge 1].
Definition sample_meter (es : list event) : meteredConn :=
  default (newMeteredConn sample_target NewConnStore) (run es (newMeteredConn sample_target NewConnStore)).

Lemma meter_run_reachable t c es m m' : reachable t c m -> run es m = Some m' -> reachable t c m'.
Proof.
  revert m. induction es as [|e es IH]; intros m Hm; simpl; [congruence|].
  destruct (step e m) eqn:Es; [|done]. intros Hr. eapply IH; [|done]. by econstructor.
Qed.

Lemma meter_charges_every_byte_witness :
  exists rest, wrap64 (Usage "org" (conns (sample_meter sample_events))) = wrap64 (0 + 250000 + (100000 + 0 - rest)) /\
    (0 <= rest)%Z /\ (calls (sample_meter sample_events) = ∅ -> (rest < maxUsageFlush)%Z).
Proof.
  apply (meter_charges_every_byte sample_target NewConnStore (sample_meter sample_events)); [discriminate|].
  apply (meter_run_reachable _ _ sample_events (newMeteredConn sample_target NewConnStore)); [constructor|].
  vm_compute. reflexivity.
Defined.

Lemma quota_cuts_off_witness :
  forall th w, op_start th w (sample_meter (sample_events ++ [EvDecide 1; EvOp 2 false]))
               = sample_meter (sample_events ++ [EvDecide 1; EvOp 2 false]).
Proof.
  apply (quota_cuts_off (sample_meter sample_events) 1 false (sample_meter (sample_events ++ [EvDecide 1]))
           [EvOp 2 false]); vm_compute; try reflexivity; discriminate.
Defined.
End Meter.
