(* ===== verification/Throttle.v ===== *)
(** * The failure throttle of the SSH forwarder

    internal/connect/sshfwd/throttle.go. Failed logins are counted per identity
    (address and user) and per address in windows of fixed length; entries are
    dropped lazily. The theorems compare the table with the history of failures. *)

From stdpp Require Import sorting.
From S2P Require Import Prelude GoIO GoStrings.

Module Throttle.
Definition ipFailureMultiplier : Z := 5.
Definition maxThrottleEntries : Z := 4096.

Record failureWindow := mkWindow { count : Z; start : Z }.

Record failureThrottle := mkThrottle {
  limit : Z;
  window : Z;
  entries : gmap string failureWindow
}.

Definition newFailureThrottle (l w : Z) : failureThrottle := mkThrottle l w ∅.

Definition identityKey (ip user : string) : string := "u|" +:+ ip +:+ "|" +:+ user.
Definition ipKey (ip : string) : string := "i|" +:+ ip.

Definition set_entries (m : gmap string failureWindow) (t : failureThrottle) : failureThrottle :=
  mkThrottle (limit t) (window t) m.

(** The window is over at [now]. *)
Definition lapsed (W now : Z) (w : failureWindow) : bool := (W <=? now - start w)%Z.

Definition over (now : Z) (key : string) (lim : Z) (t : failureThrottle) : bool * failureThrottle :=
  match entries t !! key with
  | None => (false, t)
  | Some w =>
      if lapsed (window t) now w then (false, set_entries (delete key (entries t)) t)
      else ((lim <=? count w)%Z, t)
  end.

Definition blockedIP (now : Z) (ip : string) (t : failureThrottle) : bool * failureThrottle :=
  over now (ipKey ip) (limit t * ipFailureMultiplier) t.

(** [||] does not look at the address when the identity is blocked. *)
Definition blocked (now : Z) (ip user : string) (t : failureThrottle) : bool * failureThrottle :=
  let '(b, t') := over now (identityKey ip user) (limit t) t in
  if b then (true, t') else over now (ipKey ip) (limit t * ipFailureMultiplier) t'.

Definition bump (W now : Z) (key : string) (m : gmap string failureWindow) : gmap string failureWindow :=
  match m !! key with
  | Some w => if lapsed W now w then <[key := mkWindow 1 now]> m else <[key := mkWindow (count w + 1) (start w)]> m
  | None => <[key := mkWindow 1 now]> m
  end.

Definition fail (now : Z) (ip user : string) (t : failureThrottle) : failureThrottle :=
  let m := if (maxThrottleEntries <=? Z.of_nat (size (entries t)))%Z
           then filter (fun e => lapsed (window t) now e.2 = false) (entries t) else entries t in
  set_entries (bump (window t) now (ipKey ip) (bump (window t) now (identityKey ip user) m)) t.

(** ** Histories *)

Inductive op :=
| Blocked (ip user : string)
| BlockedIP (ip : string)
| Fail (ip user : string).

Definition exec (now : Z) (o : op) (t : failureThrottle) : failureThrottle :=
  match o with
  | Blocked ip user => (blocked now ip user t).2
  | BlockedIP ip => (blockedIP now ip t).2
  | Fail ip user => fail now ip user t
  end.

(** Operations with the time each runs at, oldest first. *)
Definition exec_all (l : list (Z * op)) (t : failureThrottle) : failureThrottle :=
  fold_left (fun t x => exec x.1 x.2 t) l t.

Fixpoint clock_ok (t : Z) (l : list (Z * op)) : Prop :=
  match l with [] => True | (t', _) :: rest => (t <= t')%Z /\ clock_ok t' rest end.

Definition end_time (t : Z) (l : list (Z * op)) : Z := fold_left (fun _ x => x.1) l t.

(** The times of the failures counted under a key. *)
Definition counted (key : string) (x : Z * op) : option Z :=
  match x.2 with
  | Fail ip user => if bool_decide (key = identityKey ip user) || bool_decide (key = ipKey ip) then Some x.1 else None
  | _ => None
  end.

Definition history (key : string) (l : list (Z * op)) : list Z := omap (counted key) l.

(** The window a failure at [t] leaves, with nothing ever dropped. *)
Definition next_window (W : Z) (o : option failureWindow) (t : Z) : option failureWindow :=
  match o with
  | Some w => if lapsed W t w then Some (mkWindow 1 t) else Some (mkWindow (count w + 1) (start w))
  | None => Some (mkWindow 1 t)
  end.

Definition window_of (W : Z) (h : list Z) : option failureWindow := fold_left (next_window W) h None.

(** The table agrees with the history, up to windows that are over. *)
Definition agrees (W now : Z) (e : option failureWindow) (o : option failureWindow) : Prop :=
  e = o \/ e = None /\ exists w, o = Some w /\ lapsed W now w = true.

Definition table_ok (W now : Z) (m : gmap string failureWindow) (l : list (Z * op)) : Prop :=
  forall key, agrees W now (m !! key) (window_of W (history key l)).

Lemma lapsed_later W t t' w : (t <= t')%Z -> lapsed W t w = true -> lapsed W t' w = true.
Proof. unfold lapsed. rewrite !Z.leb_le. lia. Qed.

Lemma agrees_later W t t' e o : (t <= t')%Z -> agrees W t e o -> agrees W t' e o.
Proof. intros Ht [->|(->&w&->&Hl)]; [by left|]. right. split; [done|]. exists w. eauto using lapsed_later. Qed.

Lemma agrees_drop W now (m : gmap string failureWindow) key o :
  (forall w, m !! key = Some w -> lapsed W now w = true) -> agrees W now (m !! key) o -> agrees W now None o.
Proof.
  intros Hd [Heq|(_&w&->&Hl)]; [|right; eauto].
  destruct o as [w|]; [|by left]. right. split; [done|]. exists w. split; [done|]. by apply Hd.
Qed.

Lemma agrees_next W now e o :
  agrees W now e o ->
  (match e with
   | Some w => if lapsed W now w then Some (mkWindow 1 now) else Some (mkWindow (count w + 1) (start w))
   | None => Some (mkWindow 1 now)
   end) = next_window W o now.
Proof. intros [->|(->&w&->&Hl)]; simpl; [done|]. by rewrite Hl. Qed.

Lemma bump_lookup W now key m k :
  bump W now key m !! k = if decide (k = key) then
    (match m !! key with
     | Some w => if lapsed W now w then Some (mkWindow 1 now) else Some (mkWindow (count w + 1) (start w))
     | None => Some (mkWindow 1 now)
     end) else m !! k.
Proof.
  unfold bump. destruct (decide (k = key)) as [->|Hne].
  - destruct (m !! key) as [w|]; [destruct (lapsed W now w)|]; by rewrite lookup_insert_eq.
  - destruct (m !! key) as [w|]; [destruct (lapsed W now w)|]; by rewrite lookup_insert_ne.
Qed.

Lemma identity_not_ip ip user ip' : identityKey ip user <> ipKey ip'.
Proof. by intros H. Qed.

Lemma history_snoc key l now o :
  history key (l ++ [(now, o)]) = history key l ++ match counted key (now, o) with Some t => [t] | None => [] end.
Proof. unfold history. rewrite omap_app. simpl. by destruct (counted key (now, o)). Qed.

Lemma window_of_snoc W h t : window_of W (h ++ [t]) = next_window W (window_of W h) t.
Proof. unfold window_of. by rewrite fold_left_app. Qed.

Lemma over_table W now key lim t l :
  window t = W -> table_ok W now (entries t) l -> table_ok W now (entries (over now key lim t).2) l.
Proof.
  intros HW Ht k. unfold over. destruct (entries t !! key) as [w|] eqn:Ek; [|apply Ht].
  destruct (lapsed (window t) now w) eqn:El; [|apply Ht]. cbn [snd set_entries entries].
  destruct (decide (k = key)) as [->|Hne]; [|rewrite lookup_delete_ne by done; apply Ht].
  rewrite lookup_delete_eq. apply (agrees_drop W now (entries t) key); [|apply Ht].
  intros w' Hw'. congruence.
Qed.

Lemma over_params now key lim t : window (over now key lim t).2 = window t /\ limit (over now key lim t).2 = limit t.
Proof. unfold over. destruct (entries t !! key); [destruct (lapsed _ _ _)|]; done. Qed.

Lemma fail_table W now ip user t l :
  window t = W -> table_ok W now (entries t) l ->
  table_ok W now (entries (fail now ip user t)) (l ++ [(now, Fail ip user)]).
Proof.
  intros HW Ht key. unfold fail. cbn [set_entries entries]. rewrite HW.
  match goal with |- context [bump W now (identityKey ip user) ?x] => set (m := x) end.
  assert (Hm : table_ok W now m l).
  { intros k. unfold m. destruct (maxThrottleEntries <=? _)%Z; [|apply Ht]. rewrite map_lookup_filter.
    destruct (entries t !! k) as [w|] eqn:Ek; simpl; [|rewrite <- Ek; apply Ht].
    case_guard as Hg; simpl; [rewrite <- Ek; apply Ht|]. apply not_false_iff_true in Hg.
    apply (agrees_drop W now (entries t) k); [|apply Ht]. intros w' Hw'. congruence. }
  rewrite history_snoc. unfold counted. cbn [fst snd]. rewrite !bump_lookup.
  destruct (decide (key = ipKey ip)) as [->|Hi].
  - rewrite decide_False by (intros H; symmetry in H; by apply identity_not_ip in H).
    rewrite (bool_decide_true (ipKey ip = ipKey ip)), orb_true_r by done.
    rewrite window_of_snoc. left. apply agrees_next, Hm.
  - rewrite (bool_decide_false _ Hi), orb_false_r. destruct (decide (key = identityKey ip user)) as [->|Hn].
    + rewrite bool_decide_true, window_of_snoc by done. left. apply agrees_next, Hm.
    + rewrite (bool_decide_false _ Hn), app_nil_r. apply Hm.
Qed.

Lemma exec_params now o t : window (exec now o t) = window t /\ limit (exec now o t) = limit t.
Proof.
  destruct o as [ip user|ip|ip user]; cbn [exec]; [|apply over_params|done].
  unfold blocked. pose proof (over_params now (identityKey ip user) (limit t) t) as [H1 H2].
  destruct (over now (identityKey ip user) (limit t) t) as [[] t']; simpl in *; [done|].
  destruct (over_params now (ipKey ip) (limit t * ipFailureMultiplier) t') as [H3 H4]. by rewrite H3, H4.
Qed.

Lemma exec_table W now o t l :
  window t = W -> table_ok W now (entries t) l -> table_ok W now (entries (exec now o t)) (l ++ [(now, o)]).
Proof.
  intros HW Ht. destruct o as [ip user|ip|ip user]; cbn [exec]; [| |by apply fail_table].
  - assert (Hl : table_ok W now (entries (blocked now ip user t).2) l).
    { unfold blocked. pose proof (over_table W now (identityKey ip user) (limit t) t l HW Ht) as H1.
      pose proof (over_params now (identityKey ip user) (limit t) t) as [H2 _].
      destruct (over now (identityKey ip user) (limit t) t) as [[] t']; simpl in *; [done|].
      apply over_table; [congruence|done]. }
    intros key. rewrite history_snoc. simpl. rewrite app_nil_r. apply Hl.
  - intros key. rewrite history_snoc. simpl. rewrite app_nil_r. by apply over_table.
Qed.

Lemma exec_all_table W l now0 t l0 now :
  window t = W -> table_ok W now0 (entries t) l0 -> clock_ok now0 l -> (end_time now0 l <= now)%Z ->
  window (exec_all l t) = W /\ limit (exec_all l t) = limit t /\ table_ok W now (entries (exec_all l t)) (l0 ++ l).
Proof.
  revert now0 t l0. induction l as [|[t1 o] l IH]; intros now0 t l0 HW Ht; simpl.
  - intros _ Hnow. rewrite app_nil_r. split_and!; [done..|]. intros key. by eapply agrees_later.
  - intros [Hle Hclock] Hend. destruct (exec_params t1 o t) as [H1 H2].
    destruct (IH t1 (exec t1 o t) (l0 ++ [(t1, o)])) as (H3&H4&H5); [congruence| |done|done|].
    { apply exec_table; [done|]. intros key. by eapply agrees_later. }
    rewrite <- app_assoc in H5. simpl in H5. split_and!; [done|congruence|done].
Qed.

(** What [over] answers is a function of the history alone: dropping entries early or late
    never changes an answer. *)
Lemma over_exact W t l now key lim :
  window t = W -> table_ok W now (entries t) l ->
  (over now key lim t).1 =
  match window_of W (history key l) with
  | Some w => negb (lapsed W now w) && (lim <=? count w)%Z
  | None => false
  end.
Proof.
  intros HW Ht. unfold over. rewrite HW. destruct (Ht key) as [Heq|(Hn&w&Hw&Hl)].
  - rewrite Heq. destruct (window_of W (history key l)) as [w|]; [|done]. by destruct (lapsed W now w).
  - rewrite Hn, Hw, Hl. done.
Qed.

Lemma exec_all_new W lim l now0 now :
  clock_ok now0 l -> (end_time now0 l <= now)%Z ->
  let t := exec_all l (newFailureThrottle lim W) in
  window t = W /\ limit t = lim /\ table_ok W now (entries t) l.
Proof. intros Hc He. apply (exec_all_table W l now0 (newFailureThrottle lim W) []); try done. intros key. left. apply lookup_empty. Qed.

(** *** Windows and failures *)

Lemma window_positive W h w : window_of W h = Some w -> (0 < count w)%Z.
Proof.
  revert w. induction h as [|t h IH] using rev_ind; intros w; [done|].
  rewrite window_of_snoc. destruct (window_of W h) as [w1|]; simpl; [|by intros [= <-]].
  specialize (IH w1 eq_refl). destruct (lapsed W t w1); intros [= <-]; simpl; lia.
Qed.

(** The window counts the failures since it began. *)
Lemma window_counts W h w :
  StronglySorted Z.le h -> window_of W h = Some w ->
  exists old recent, h = old ++ recent /\ len recent = count w /\ Forall (fun t => start w <= t)%Z recent.
Proof.
  revert w. induction h as [|t h IH] using rev_ind; intros w Hs; [done|].
  rewrite window_of_snoc.
  assert (Hfresh : exists old recent, h ++ [t] = old ++ recent /\ len recent = 1%Z /\ Forall (fun t' => t <= t')%Z recent).
  { exists h, [t]. split_and!; [done..|]. by repeat constructor. }
  destruct (window_of W h) as [w0|] eqn:Ew; simpl; [|by intros [= <-]].
  destruct (lapsed W t w0); intros [= <-]; [done|]. cbn [count start].
  destruct (IH w0 (StronglySorted_app_1_l _ _ _ Hs) eq_refl) as (old&recent&->&Hlen&Hall).
  exists old, (recent ++ [t]). rewrite app_assoc, len_app, Hlen. split_and!; [done..|].
  apply Forall_app. split; [done|]. constructor; [|done]. destruct recent as [|r recent].
  - apply window_positive in Ew. unfold len in Hlen. simpl in Hlen. lia.
  - apply Forall_cons in Hall as [Hr _]. etransitivity; [exact Hr|].
    apply (StronglySorted_app_1_elem_of _ _ _ _ _ Hs); [apply elem_of_app; right; left|left].
Qed.

(** Failures within the length of a window that begins with the first of them are all
    counted by that window. *)
Lemma window_collects W h t ts :
  (0 < W)%Z -> (forall w, window_of W h = Some w -> lapsed W t w = true) ->
  Forall (fun t' => t' - t < W)%Z ts ->
  window_of W (h ++ t :: ts) = Some (mkWindow (1 + len ts) t).
Proof.
  intros HW Hold Hts. induction ts as [|t' ts IH] using rev_ind.
  - rewrite window_of_snoc. destruct (window_of W h) as [w|] eqn:Ew; simpl; [|done]. by rewrite (Hold w).
  - apply Forall_app in Hts as [Hts Ht']. apply Forall_cons in Ht' as [Ht' _].
    rewrite app_comm_cons, app_assoc, window_of_snoc, (IH Hts). unfold next_window, lapsed. cbn [start count].
    destruct (Z.leb_spec W (t' - t)); [lia|]. rewrite len_app.
    assert (1 + len ts + 1 = 1 + (len ts + len [t']))%Z as -> by (unfold len; simpl; lia). done.
Qed.

Lemma history_sorted key l now0 :
  clock_ok now0 l -> StronglySorted Z.le (history key l) /\ Forall (fun t => now0 <= t <= end_time now0 l)%Z (history key l) /\
    (now0 <= end_time now0 l)%Z.
Proof.
  revert now0. induction l as [|[t o] l IH]; intros now0; simpl.
  { intros _. split_and!; [constructor|constructor|lia]. }
  intros [Hle Hc]. destruct (IH t Hc) as (Hs&Hall&Hend).
  assert (Hall' : Forall (fun t' => now0 <= t' <= end_time t l)%Z (history key l))
    by (eapply Forall_impl; [exact Hall|]; simpl; lia).
  assert (Hx : forall x, counted key (t, o) = Some x -> x = t).
  { intros x. unfold counted. simpl. destruct o; try done. destruct (_ || _)%bool; [|done]. by intros [= <-]. }
  destruct (counted key (t, o)) as [x|] eqn:Ec; [|split_and!; [done..|lia]].
  rewrite (Hx x eq_refl). split_and!; [|constructor; [lia|done]|lia].
  constructor; [done|]. eapply Forall_impl; [exact Hall|]. simpl. lia.
Qed.

(** How many failures under a key are younger than the window. *)
Definition recent_failures (W now : Z) (key : string) (l : list (Z * op)) : Z :=
  len (filter (fun t => now - t < W)%Z (history key l)).

Lemma over_needs_failures W t l now0 now key lim :
  clock_ok now0 l -> window t = W -> table_ok W now (entries t) l ->
  (over now key lim t).1 = true -> (lim <= recent_failures W now key l)%Z.
Proof.
  intros Hc HW Ht. rewrite (over_exact W t l) by done.
  destruct (window_of W (history key l)) as [w|] eqn:Ew; [|done]. unfold lapsed. intros [Hb1 Hb2]%andb_true_iff. bool_to_prop.
  destruct (history_sorted key l now0 Hc) as (Hs&_&_).
  destruct (window_counts _ _ _ Hs Ew) as (old&recent&Hh&Hlen&Hall).
  unfold recent_failures. rewrite Hh, filter_app, len_app.
  assert (filter (fun t => now - t < W)%Z recent = recent) as ->.
  { clear -Hall Hb1. induction Hall as [|t recent Ht _ IH]; [done|]. rewrite filter_cons_True by lia. by rewrite IH. }
  rewrite Hlen. pose proof (len_nonneg (filter (fun t => now - t < W)%Z old)). lia.
Qed.

(** *** Identities *)

(** Addresses come from [remoteIP]; their text has no bar. *)
Definition no_bar (s : string) : Prop := "|"%char ∉ bytes_of s.

#[export] Instance no_bar_dec s : Decision (no_bar s).
Proof. unfold no_bar. apply _. Defined.

Definition op_clean (x : Z * op) : Prop :=
  match x.2 with Blocked ip _ | BlockedIP ip | Fail ip _ => no_bar ip end.

Lemma identityKey_inj ip user ip' user' :
  no_bar ip -> no_bar ip' -> identityKey ip user = identityKey ip' user' -> ip = ip' /\ user = user'.
Proof.
  unfold identityKey, no_bar. intros H1 H2 H. apply (f_equal bytes_of) in H. rewrite !bytes_of_app in H.
  apply app_inv_head in H. apply (app_sep_inj _ _ _ _ _ H1 H2) in H as [Hi Hu]. by split; apply bytes_of_inj.
Qed.

(** The failures of an identity, and of an address. *)
Definition identity_failures (ip user : string) (l : list (Z * op)) : list Z :=
  omap (fun x => match x.2 with
                 | Fail ip' user' => if bool_decide (ip' = ip) && bool_decide (user' = user) then Some x.1 else None
                 | _ => None
                 end) l.

Definition ip_failures (ip : string) (l : list (Z * op)) : list Z :=
  omap (fun x => match x.2 with Fail ip' _ => if bool_decide (ip' = ip) then Some x.1 else None | _ => None end) l.

Lemma history_identity ip user l :
  no_bar ip -> Forall op_clean l -> history (identityKey ip user) l = identity_failures ip user l.
Proof.
  intros Hip Hl. apply omap_ext_Forall. eapply Forall_impl; [exact Hl|]. intros [t o] Hx.
  unfold counted. cbn [fst snd]. destruct o as [| |ip' user']; [done..|]. unfold op_clean in Hx. cbn [snd] in Hx.
  rewrite (bool_decide_false _ (identity_not_ip ip user ip')), orb_false_r.
  destruct (decide (identityKey ip user = identityKey ip' user')) as [Heq|Hne].
  - rewrite (bool_decide_true _ Heq). apply identityKey_inj in Heq as [-> ->]; [|done..].
    by rewrite !bool_decide_true.
  - rewrite (bool_decide_false _ Hne).
    destruct (decide (ip' = ip)) as [->|]; [|by rewrite (bool_decide_false (ip' = ip))].
    destruct (decide (user' = user)) as [->|]; [done|]. by rewrite (bool_decide_false (user' = user)), andb_false_r.
Qed.

Lemma history_ip ip l : history (ipKey ip) l = ip_failures ip l.
Proof.
  apply omap_ext_Forall, Forall_true. intros [t o]. unfold counted. cbn [fst snd].
  destruct o as [| |ip' user']; [done..|].
  rewrite (bool_decide_false (ipKey ip = identityKey ip' user')) by done. cbn [orb].
  destruct (decide (ip' = ip)) as [->|Hne]; [by rewrite !bool_decide_true|].
  rewrite !bool_decide_false; [done|done|]. intros [= H]. by apply Hne.
Qed.

Definition within (W now : Z) (h : list Z) : Z := len (filter (fun t => now - t < W)%Z h).

(** Nobody is locked out without cause: when the throttle blocks a login, then within the
    last window there were at least [limit] failures of that very identity (address and
    user), or five times as many from that address. *)
Theorem throttle_needs_failures W lim l now0 now ip user :
  clock_ok now0 l -> (end_time now0 l <= now)%Z -> no_bar ip -> Forall op_clean l ->
  (blocked now ip user (exec_all l (newFailureThrottle lim W))).1 = true ->
  (lim <= within W now (identity_failures ip user l) \/
   lim * ipFailureMultiplier <= within W now (ip_failures ip l))%Z.
Proof.
  intros Hc He Hip Hl. rewrite <- history_identity, <- history_ip by done.
  destruct (exec_all_new W lim l now0 now Hc He) as (HW&Hlim&Ht). unfold blocked. rewrite Hlim.
  set (t := exec_all l (newFailureThrottle lim W)) in *.
  pose proof (over_needs_failures W t l now0 now (identityKey ip user) lim Hc HW Ht) as H1.
  pose proof (over_table W now (identityKey ip user) lim t l HW Ht) as Ht2.
  pose proof (over_params now (identityKey ip user) lim t) as [HW' _].
  destruct (over now (identityKey ip user) lim t) as [[] t']; cbn [snd fst] in *; [intros _; left; by apply H1|].
  intros Hb. right. by apply (over_needs_failures W t' l now0); [|congruence|..].
Qed.

(** Guessing is stopped: an identity that fails [limit] times in the window that its first
    failure opens is blocked for the rest of that window, whatever else was asked or failed
    in between and however often the table was pruned. *)
Theorem throttle_blocks W lim l now0 now ip user old t ts :
  (0 < W)%Z -> clock_ok now0 l -> (end_time now0 l <= now)%Z -> no_bar ip -> Forall op_clean l ->
  identity_failures ip user l = old ++ t :: ts ->
  (forall w, window_of W old = Some w -> lapsed W t w = true) ->
  (lim <= 1 + len ts)%Z -> (now - t < W)%Z ->
  (blocked now ip user (exec_all l (newFailureThrottle lim W))).1 = true.
Proof.
  intros HW Hc He Hip Hl Hh Hold Hlim Hnow.
  destruct (exec_all_new W lim l now0 now Hc He) as (HW'&Hlim'&Ht). unfold blocked. rewrite Hlim'.
  pose proof (over_exact W _ l now (identityKey ip user) lim HW' Ht) as Hov.
  rewrite history_identity, Hh in Hov by done. rewrite window_collects in Hov; [|done..|].
  2: { destruct (history_sorted (identityKey ip user) l now0 Hc) as (_&Hall&_).
       rewrite history_identity, Hh in Hall by done. apply Forall_app in Hall as [_ Hall].
       apply Forall_cons in Hall as [_ Hall]. eapply Forall_impl; [exact Hall|]. simpl. lia. }
  unfold lapsed in Hov. cbn [start count] in Hov.
  rewrite (proj2 (Z.leb_gt _ _)), (proj2 (Z.leb_le _ _)) in Hov by lia. simpl in Hov.
  destruct (over now (identityKey ip user) lim _) as [[] t']; done.
Qed.

(** Three failures of one user within a minute, with a query and another address in between. *)
Definition sample : list (Z * op) :=
  [(10, Fail "192.0.2.1" "root"); (20, Fail "192.0.2.9" "root"); (30, Fail "192.0.2.1" "root");
   (31, Blocked "192.0.2.1" "root"); (40, Fail "192.0.2.1" "root")]%Z.

Lemma sample_clean : no_bar "192.0.2.1" /\ Forall op_clean sample.
Proof.
  assert (Hbar : forall ip, bool_decide (no_bar ip) = true -> no_bar ip) by (intros ip; apply bool_decide_eq_true).
  unfold sample. split; [by apply Hbar|]. repeat constructor; by apply Hbar.
Qed.

Lemma throttle_needs_failures_witness :
  (3 <= within 60 50 (identity_failures "192.0.2.1" "root" sample) \/
   3 * ipFailureMultiplier <= within 60 50 (ip_failures "192.0.2.1" sample))%Z.
Proof.
  apply (throttle_needs_failures 60 3 sample 0 50 "192.0.2.1" "root");
    [cbn; lia|cbn; lia|apply sample_clean|apply sample_clean|vm_compute; reflexivity].
Defined.

Lemma throttle_blocks_witness :
  (blocked 50 "192.0.2.1" "root" (exec_all sample (newFailureThrottle 3 60))).1 = true.
Proof.
  apply (throttle_blocks 60 3 sample 0 50 "192.0.2.1" "root" [] 10 [30; 40]%Z);
    [lia|cbn; lia|cbn; lia|apply sample_clean|apply sample_clean|reflexivity|discriminate|vm_compute; discriminate|lia].
Defined.
End Throttle.
