(* ===== verification/Credseal.v ===== *)
(** * Sealed credentials

    internal/credseal/credseal.go: a credential is encrypted to an agent's session
    key with a text that names the organization, the agent and the credential. The
    encryption itself (crypto/hpke) is a parameter; what is proved is that the text
    determines the three names, and so that a sealed credential opens for one
    binding only. *)

From S2P Require Import Prelude GoIO GoStrings.

Module Credseal.
Definition PublicKeySize : Z := 32.
Definition MaxSealedSize : Z := 8 * 1024.
Definition infoPrefix : string := "mishmesh egress credential".

Definition ErrInvalidKey : goerr := ENew "credseal: invalid public key".

Record Binding := mkBinding { OrgID : string; AgentID : string; Name : string }.

(** [fmt.Fprintf(&sb, "|%d:%s", len(field), field)]. *)
Definition info_field (field : string) : string := "|" +:+ pretty (slen field) +:+ ":" +:+ field.

Definition info (b : Binding) : string :=
  infoPrefix +:+ info_field (OrgID b) +:+ info_field (AgentID b) +:+ info_field (Name b).

(** crypto/hpke with X25519, HKDF-SHA256 and AES-256-GCM. [seed] is the
    randomness of one [Seal]. *)
Class HPKE := {
  private : Type;
  public_bytes : private -> list byte;
  hpke_seal : list byte -> list byte -> string -> list byte -> res (list byte);
  hpke_open : private -> string -> list byte -> res (list byte)
}.

(** The documented behaviour: keys have 32 bytes; what was sealed to a key opens with it
    under the same info; and a ciphertext made by [Seal] opens under no other info, with no
    other key and to no other text. *)
Class HPKELaws `{HPKE} : Prop := {
  public_size k : len (public_bytes k) = PublicKeySize;
  open_sealed k seed i text c :
    hpke_seal seed (public_bytes k) i text = Ok c -> hpke_open k i c = Ok text;
  open_only k seed pub i text c i' text' :
    hpke_seal seed pub i text = Ok c -> hpke_open k i' c = Ok text' -> i' = i /\ text' = text
}.

Section Sealing.
Context `{HPKE}.

Definition PublicKey (k : private) : list byte := public_bytes k.

Definition Open (k : private) (b : Binding) (sealed : list byte) : res (list byte) :=
  if (MaxSealedSize <? len sealed)%Z then Fail (ENew "credseal: sealed credential too large")
  else match hpke_open k (info b) sealed with
       | Ok plain => Ok plain
       | Fail err => Fail (EWrap "credseal: open: " err "")
       end.

Definition Seal (seed publicKey : list byte) (b : Binding) (plaintext : list byte) : res (list byte) :=
  if negb (len publicKey =? PublicKeySize)%Z then Fail ErrInvalidKey
  else match hpke_seal seed publicKey (info b) plaintext with
       | Ok sealed => Ok sealed
       | Fail err => Fail (EWrap "credseal: seal: " err "")
       end.
End Sealing.

(** ** The text of a binding *)

Lemma pretty_char_digit x : Ascii.eqb ":" (pretty_N_char x) = false.
Proof. unfold pretty_N_char. by repeat case_match. Qed.

Lemma pretty_go_no_colon x s : ":"%char ∉ bytes_of s -> ":"%char ∉ bytes_of (pretty_N_go x s).
Proof.
  revert s. induction (N.lt_wf_0 x) as [x _ IH]. intros s Hs. destruct (decide (x = 0)%N) as [->|Hx].
  - by rewrite pretty_N_go_0.
  - rewrite pretty_N_go_step by lia. apply IH; [apply N.div_lt; lia|].
    cbn [bytes_of list_ascii_of_string]. rewrite not_elem_of_cons. split; [|done].
    intros Heq. pose proof (pretty_char_digit (x mod 10)) as Hd. rewrite <- Heq in Hd. done.
Qed.

Lemma pretty_no_colon n : ":"%char ∉ bytes_of (pretty (Z.of_nat n)).
Proof.
  assert (Hnil : ":"%char ∉ bytes_of "") by apply not_elem_of_nil.
  assert (HN : forall x : N, ":"%char ∉ bytes_of (pretty x)).
  { intros x. unfold pretty, pretty_N. case_decide; [|by apply pretty_go_no_colon].
    intros Hin. apply list_elem_of_singleton in Hin. done. }
  destruct n as [|n]; [|apply (HN (Npos (Pos.of_succ_nat n)))].
  intros Hin. apply list_elem_of_singleton in Hin. done.
Qed.

(** A field of the text determines itself and what follows. *)
Lemma info_field_inj f g x y :
  bytes_of (info_field f) ++ x = bytes_of (info_field g) ++ y -> f = g /\ x = y.
Proof.
  unfold info_field, slen, len. rewrite !bytes_of_app. cbn [bytes_of list_ascii_of_string].
  cbn [app]. rewrite <- !app_assoc. cbn [app]. intros [= E].
  apply app_sep_inj in E as [Hlen E]; [|apply pretty_no_colon..].
  apply bytes_of_inj, (inj pretty) in Hlen. apply app_inj_1 in E as [Hf ->]; [|unfold bytes_of in *; lia].
  split; [by apply bytes_of_inj|done].
Qed.

Lemma info_inj b1 b2 : info b1 = info b2 -> b1 = b2.
Proof.
  unfold info. intros E. apply (f_equal bytes_of) in E. rewrite !bytes_of_app in E. apply app_inv_head in E.
  apply info_field_inj in E as [Ho E]. apply info_field_inj in E as [Ha E].
  rewrite <- (app_nil_r (bytes_of (info_field (Name b1)))), <- (app_nil_r (bytes_of (info_field (Name b2)))) in E.
  apply info_field_inj in E as [Hn _]. destruct b1, b2; simpl in *. by subst.
Qed.

Section Bound.
Context `{laws : HPKELaws}.

(** What a sealed text opens to, whichever key and binding it is opened with. *)
Lemma sealed_opens seed pub b text c k b' text' :
  Seal seed pub b text = Ok c -> Open k b' c = Ok text' -> b' = b /\ text' = text.
Proof.
  unfold Seal, Open. destruct (negb _); [done|]. destruct (hpke_seal seed pub (info b) text) as [c0|e] eqn:Es; [|done].
  intros [= <-]. destruct (_ <? _)%Z; [done|]. destruct (hpke_open k (info b') c0) as [p|] eqn:Eo; [|done]. intros [= <-].
  destruct (open_only _ _ _ _ _ _ _ _ Es Eo) as [Hi ->]. split; [by apply info_inj|done].
Qed.

(** A credential sealed to an agent's key opens with that key for the organization, agent
    and name it was sealed for, to the text that was sealed, and for no other binding. *)
Theorem sealed_for_one_binding seed k b text c b' text' :
  Seal seed (PublicKey k) b text = Ok c -> (len c <= MaxSealedSize)%Z ->
  Open k b' c = Ok text' <-> b' = b /\ text' = text.
Proof.
  intros Hs Hlen. split; [by apply (sealed_opens seed (PublicKey k))|]. intros [-> ->]. revert Hs.
  unfold Seal, Open, PublicKey. rewrite public_size, Z.eqb_refl. cbn [negb].
  destruct (hpke_seal seed (public_bytes k) (info b) text) as [c0|e] eqn:Es; [|done].
  intros [= <-]. by rewrite (proj2 (Z.ltb_ge _ _) Hlen), (open_sealed _ _ _ _ _ Es).
Qed.
End Bound.

(** ** A scheme that satisfies the laws

    It encrypts nothing: the ciphertext carries the info, prefixed by its length in
    unary. *)
Section Example.

Definition tag (i : string) : list byte := repeat "1"%char (length (bytes_of i)) ++ "0"%char :: bytes_of i.

#[local] Instance sample_hpke : HPKE := {|
  private := unit;
  public_bytes _ := repeat "k"%char 32;
  hpke_seal _ _ i text := Ok (tag i ++ text);
  hpke_open _ i c := if bool_decide (take (length (tag i)) c = tag i) then Ok (drop (length (tag i)) c)
                     else Fail (ENew "hpke: open")
|}.

Lemma tag_inj i j x y : tag i ++ x = tag j ++ y -> i = j /\ x = y.
Proof.
  unfold tag. rewrite <- !app_assoc. cbn [app]. intros E.
  assert (Hone : forall n, "0"%char ∉ repeat "1"%char n).
  { intros n. induction n; simpl; [apply not_elem_of_nil|]. by apply not_elem_of_cons. }
  apply app_sep_inj in E as [Hn E]; [|apply Hone..]. apply (f_equal length) in Hn. rewrite !repeat_length in Hn.
  apply app_inj_1 in E as [Hi ->]; [|done]. by apply bytes_of_inj in Hi.
Qed.

#[local] Instance sample_hpke_laws : HPKELaws.
Proof.
  split.
  - intros []. reflexivity.
  - intros k seed i text c [= <-]. cbn [hpke_open sample_hpke].
    by rewrite take_app_length, bool_decide_true, drop_app_length.
  - intros k seed pub i text c i' text' [= <-]. cbn [hpke_open sample_hpke].
    case_bool_decide as Ht; [|done]. intros [= <-].
    pose proof (take_drop (length (tag i')) (tag i ++ text)) as E. rewrite Ht in E.
    apply tag_inj in E as [-> E]. split; [done|]. by rewrite drop_app_length.
Qed.

Definition sample_key : @private sample_hpke := tt.

Lemma sealed_for_one_binding_witness :
  Open sample_key (mkBinding "org" "agent" "token") (tag (info (mkBinding "org" "agent" "token")) ++ bytes_of "secret")
  = Ok (bytes_of "secret").
Proof.
  apply (sealed_for_one_binding [] sample_key (mkBinding "org" "agent" "token") (bytes_of "secret"));
    [reflexivity|vm_compute; discriminate|split; reflexivity].
Defined.
End Example.
End Credseal.
