(* ===== verification/Token.v ===== *)
(** * Signed tokens

    internal/token/token.go: a token is [mmt1.<key id>.<claims>.<signature>], the
    last two parts in unpadded base64url. encoding/base64 and encoding/hex are
    modelled; the JSON codec of the claims, sha256 and ed25519 are parameters. *)

From S2P Require Import Prelude GoIO GoStrings Frames.

(** ** base64.RawURLEncoding *)
Module Base64.
Definition enc6 (z : Z) : byte :=
  if (z <? 26)%Z then Zbyte (65 + z)
  else if (z <? 52)%Z then Zbyte (71 + z)
  else if (z <? 62)%Z then Zbyte (z - 4)
  else if (z =? 62)%Z then "-"%char else "_"%char.

Definition dec6 (b : byte) : option Z :=
  let z := byteZ b in
  if ((65 <=? z) && (z <=? 90))%Z then Some (z - 65)%Z
  else if ((97 <=? z) && (z <=? 122))%Z then Some (z - 71)%Z
  else if ((48 <=? z) && (z <=? 57))%Z then Some (z + 4)%Z
  else if Ascii.eqb b "-" then Some 62%Z
  else if Ascii.eqb b "_" then Some 63%Z
  else None.

Fixpoint EncodeToString (l : list byte) : list byte :=
  match l with
  | a :: b :: c :: rest =>
      let v := (byteZ a * 65536 + byteZ b * 256 + byteZ c)%Z in
      enc6 (v / 262144) :: enc6 (v / 4096 mod 64) :: enc6 (v / 64 mod 64) :: enc6 (v mod 64) :: EncodeToString rest
  | [a; b] =>
      let v := (byteZ a * 65536 + byteZ b * 256)%Z in
      [enc6 (v / 262144); enc6 (v / 4096 mod 64); enc6 (v / 64 mod 64)]
  | [a] => let v := (byteZ a * 65536)%Z in [enc6 (v / 262144); enc6 (v / 4096 mod 64)]
  | [] => []
  end%Z.

(** The decoder is not strict: bits past the last byte are ignored. *)
Fixpoint decode (l : list byte) : option (list byte) :=
  match l with
  | a :: b :: c :: d :: rest =>
      match dec6 a, dec6 b, dec6 c, dec6 d, decode rest with
      | Some a, Some b, Some c, Some d, Some rest =>
          let v := (a * 262144 + b * 4096 + c * 64 + d)%Z in
          Some (Zbyte (v / 65536) :: Zbyte (v / 256) :: Zbyte v :: rest)
      | _, _, _, _, _ => None
      end
  | [a; b; c] =>
      match dec6 a, dec6 b, dec6 c with
      | Some a, Some b, Some c =>
          let v := (a * 262144 + b * 4096 + c * 64)%Z in Some [Zbyte (v / 65536); Zbyte (v / 256)]
      | _, _, _ => None
      end
  | [a; b] =>
      match dec6 a, dec6 b with
      | Some a, Some b => let v := (a * 262144 + b * 4096)%Z in Some [Zbyte (v / 65536)]
      | _, _ => None
      end
  | [_] => None
  | [] => Some []
  end%Z.

(** Line breaks are skipped. *)
Definition DecodeString (l : list byte) : option (list byte) :=
  decode (filter (fun b => b <> "010"%char /\ b <> "013"%char) l).

(** The characters of the encoding. *)
Definition url_byte (b : byte) : bool := match dec6 b with Some _ => true | None => false end.

Lemma dec6_enc6 z : (0 <= z < 64)%Z -> dec6 (enc6 z) = Some z.
Proof.
  intros Hz. assert (Hall : forallb (fun n => bool_decide (dec6 (enc6 (Z.of_nat n)) = Some (Z.of_nat n))) (seq 0 64) = true)
    by (vm_compute; reflexivity).
  rewrite forallb_forall in Hall. specialize (Hall (Z.to_nat z)). rewrite Z2Nat.id in Hall by lia.
  eapply bool_decide_eq_true. apply Hall, in_seq. lia.
Qed.

Lemma Zbyte_eq b z : (z mod 256 = byteZ b)%Z -> Zbyte z = b.
Proof.
  intros H. unfold Zbyte. rewrite H. unfold byteZ. rewrite N2Z.id. apply ascii_N_embedding.
Qed.

Lemma encode_bytes l b : b ∈ EncodeToString l -> url_byte b = true.
Proof.
  assert (Henc : forall z, (0 <= z < 64)%Z -> url_byte (enc6 z) = true)
    by (intros z Hz; unfold url_byte; by rewrite dec6_enc6).
  induction l as [l IH] using (induction_ltof1 _ length); unfold ltof in IH.
  destruct l as [|x [|y [|z rest]]]; cbn [EncodeToString]; rewrite ?elem_of_cons, ?elem_of_nil.
  - done.
  - pose proof (byteZ_range x). intros [->|[->|[]]]; apply Henc; Z.to_euclidean_division_equations; lia.
  - pose proof (byteZ_range x). pose proof (byteZ_range y).
    intros [->|[->|[->|[]]]]; apply Henc; Z.to_euclidean_division_equations; lia.
  - pose proof (byteZ_range x). pose proof (byteZ_range y). pose proof (byteZ_range z).
    intros [->|[->|[->|[->|Hin]]]]; [apply Henc; Z.to_euclidean_division_equations; lia..|].
    apply (IH rest); [simpl; lia|done].
Qed.

Lemma decode_encode l : decode (EncodeToString l) = Some l.
Proof.
  induction l as [l IH] using (induction_ltof1 _ length); unfold ltof in IH.
  destruct l as [|x [|y [|z rest]]]; cbn [EncodeToString decode].
  - done.
  - pose proof (byteZ_range x). rewrite !dec6_enc6 by (Z.to_euclidean_division_equations; lia).
    f_equal. f_equal. apply Zbyte_eq. Z.to_euclidean_division_equations; lia.
  - pose proof (byteZ_range x). pose proof (byteZ_range y).
    rewrite !dec6_enc6 by (Z.to_euclidean_division_equations; lia).
    f_equal. f_equal; [|f_equal]; apply Zbyte_eq; Z.to_euclidean_division_equations; lia.
  - pose proof (byteZ_range x). pose proof (byteZ_range y). pose proof (byteZ_range z).
    rewrite !dec6_enc6 by (Z.to_euclidean_division_equations; lia).
    rewrite IH by (simpl; lia).
    f_equal. f_equal; [|f_equal; [|f_equal]]; apply Zbyte_eq; Z.to_euclidean_division_equations; lia.
Qed.

Lemma url_byte_not_break b : url_byte b = true -> b <> "010"%char /\ b <> "013"%char /\ b <> "."%char.
Proof. intros Hb. split_and!; by intros ->. Qed.

Lemma Decode_Encode l : DecodeString (EncodeToString l) = Some l.
Proof.
  unfold DecodeString. etransitivity; [|apply decode_encode]. f_equal.
  assert (Hall : Forall (fun b => url_byte b = true) (EncodeToString l)) by (apply Forall_forall; intros b; apply encode_bytes).
  induction Hall as [|b bs Hb _ IH]; [done|]. rewrite filter_cons_True; [by rewrite IH|].
  by apply url_byte_not_break in Hb as (?&?&_).
Qed.
End Base64.

(** ** Tokens *)
Module Token.
Import Base64 Control.

Definition prefix : string := "mmt1".
Definition MaxLength : Z := 1024.
Definition SeedSize : Z := 32.
Definition SignatureSize : Z := 64.

Definition ErrMalformed : goerr := ENew "token: malformed".
Definition ErrSignature : goerr := ENew "token: bad signature".
Definition ErrExpired : goerr := ENew "token: expired".

Record Claims := mkClaims {
  Type_ : string;
  SessionID : string;
  TokenID : string;
  OrgID : string;
  IssuedAt : Z;
  ExpiresAt : Z
}.

Definition complete (c : Claims) : bool :=
  negb (bool_decide (Type_ c = "")) && negb (bool_decide (SessionID c = "")) &&
  negb (bool_decide (TokenID c = "")) && negb (ExpiresAt c =? 0)%Z.

Definition Expiry (c : Claims) : Z := time_Unix (ExpiresAt c).

(** crypto/ed25519 and crypto/sha256. *)
Class Ed25519 := {
  PrivateKey : Type;
  NewKeyFromSeed : list byte -> PrivateKey;
  Public : PrivateKey -> list byte;
  ed_sign : PrivateKey -> list byte -> list byte;
  ed_verify : list byte -> list byte -> list byte -> bool;
  Sum256 : list byte -> list byte
}.

Class Ed25519Laws `{Ed25519} : Prop := {
  signature_size k m : len (ed_sign k m) = SignatureSize;
  signature_verifies k m : ed_verify (Public k) m (ed_sign k m) = true;
  digest_size m : length (Sum256 m) = 32
}.

(** encoding/json of [Claims] gives the claims back when every string is ASCII (other
    strings may hold invalid UTF-8, which json replaces); no value has an empty text. *)
Definition ascii (s : string) : bool := forallb is_ascii_byte (bytes_of s).
Definition ascii_claims (c : Claims) : bool :=
  ascii (Type_ c) && ascii (SessionID c) && ascii (TokenID c) && ascii (OrgID c).

Class ClaimsLaws `{Codec Claims} : Prop := {
  claims_roundtrip c b : ascii_claims c = true -> Marshal c = Ok b -> Unmarshal b = Ok c;
  claims_nonempty c b : Marshal c = Ok b -> b <> []
}.

Definition hex_bytes (l : list byte) : list byte :=
  flat_map (fun b => [hex_digit (byteZ b / 16); hex_digit (byteZ b mod 16)]) l.

(** The bytes a token may have. *)
Definition tokenByte (c : byte) : bool :=
  let z := byteZ c in
  ((97 <=? z) && (z <=? 122) || (65 <=? z) && (z <=? 90) || (48 <=? z) && (z <=? 57))%Z
  || Ascii.eqb c "-" || Ascii.eqb c "_" || Ascii.eqb c ".".

Definition LooksLikeToken (raw : list byte) : bool :=
  if (len raw <? slen prefix + 8)%Z || (MaxLength <? len raw)%Z || negb (prefixb (bytes_of (prefix +:+ ".")) raw)
  then false
  else if negb (forallb tokenByte raw) then false
  else let parts := split_bytes "." raw in
       (len parts =? 4)%Z && negb (bool_decide ([] ∈ parts)).

Section Keys.
Context `{ed : Ed25519} `{codec : Codec Claims}.

Definition keyID (public : list byte) : list byte := hex_bytes (take 6 (Sum256 public)).

Record Keyring := mkKeyring {
  signer_id : list byte;
  signer_private : PrivateKey;
  verifier : gmap (list byte) (list byte)
}.

(** The loop of [NewKeyring] after the first seed. *)
Fixpoint add_seeds (i : Z) (seeds : list (list byte)) (k : Keyring) : res Keyring :=
  match seeds with
  | [] => Ok k
  | seed :: rest =>
      if negb (len seed =? SeedSize)%Z
      then Fail (ENew ("token: seed " +:+ pretty i +:+ " must be " +:+ pretty SeedSize +:+ " bytes"))
      else
        let public := Public (NewKeyFromSeed seed) in
        add_seeds (i + 1) rest
          (mkKeyring (signer_id k) (signer_private k) (<[keyID public := public]> (verifier k)))
  end.

Definition NewKeyring (seeds : list (list byte)) : res Keyring :=
  match seeds with
  | [] => Fail (ENew "token: keyring needs at least one seed")
  | seed :: rest =>
      if negb (len seed =? SeedSize)%Z
      then Fail (ENew ("token: seed " +:+ pretty 0%Z +:+ " must be " +:+ pretty SeedSize +:+ " bytes"))
      else
        let private := NewKeyFromSeed seed in
        let public := Public private in
        add_seeds 1 rest (mkKeyring (keyID public) private {[keyID public := public]})
  end.

Definition dot (l k : list byte) : list byte := l ++ "."%char :: k.

(** What is signed. *)
Definition head_of (id payload : list byte) : list byte := dot (dot (bytes_of prefix) id) (EncodeToString payload).

Definition Sign (k : Keyring) (c : Claims) : res (list byte) :=
  if negb (complete c) then Fail (ENew "token: claims need typ, sid, tid and exp")
  else match Marshal c with
       | Fail err => Fail (EWrap "token: encode claims: " err "")
       | Ok payload =>
           let head := head_of (signer_id k) payload in
           let out := dot head (EncodeToString (ed_sign (signer_private k) head)) in
           if (MaxLength <? len out)%Z then Fail (ENew "token: claims too large") else Ok out
       end.

Definition Verify (k : Keyring) (raw : list byte) (now : Z) : res Claims :=
  if negb (LooksLikeToken raw) then Fail ErrMalformed
  else
    match split_bytes "." raw with
    | [_; id; text; sigtext] =>
        match verifier k !! id with
        | None => Fail ErrSignature
        | Some public =>
            match DecodeString sigtext with
            | None => Fail ErrMalformed
            | Some sig =>
                if negb (len sig =? SignatureSize)%Z then Fail ErrMalformed
                else
                  let head := take (length raw - length sigtext - 1) raw in
                  if negb (ed_verify public head sig) then Fail ErrSignature
                  else
                    match DecodeString text with
                    | None => Fail ErrMalformed
                    | Some payload =>
                        match Unmarshal payload with
                        | Fail _ => Fail ErrMalformed
                        | Ok c =>
                            if negb (complete c) then Fail ErrMalformed
                            else if negb (now <? Expiry c)%Z then Fail ErrExpired
                            else Ok c
                        end
                    end
            end
        end
    | _ => Fail ErrMalformed
    end.
End Keys.

(** ** Laws *)

Definition no_dot (l : list byte) : Prop := "."%char ∉ l.

Lemma split_no_dot l : no_dot l -> split_bytes "." l = [l].
Proof.
  induction l as [|b l IH]; intros Hl; [done|]. apply not_elem_of_cons in Hl as [Hb Hl]. cbn [split_bytes].
  rewrite (proj2 (Ascii.eqb_neq b ".")) by congruence. by rewrite (IH Hl).
Qed.

Lemma split_dot l k : no_dot k -> split_bytes "." (dot l k) = split_bytes "." l ++ [k].
Proof. intros Hk. unfold dot. rewrite split_bytes_app. by rewrite (split_no_dot k). Qed.

Lemma take_before_dot h s : take (length (dot h s) - length s - 1) (dot h s) = h.
Proof.
  unfold dot. rewrite length_app. simpl. replace (length h + S (length s) - length s - 1) with (length h) by lia.
  apply take_app_length.
Qed.

Lemma encode_no_dot l : no_dot (EncodeToString l).
Proof. intros Hin%encode_bytes. by apply url_byte_not_break in Hin as (_&_&?). Qed.

Lemma url_token b : url_byte b = true -> tokenByte b = true.
Proof.
  unfold url_byte, dec6, tokenByte. intros Hb.
  destruct ((65 <=? byteZ b) && (byteZ b <=? 90))%Z; [by rewrite orb_true_r|].
  destruct ((97 <=? byteZ b) && (byteZ b <=? 122))%Z; [done|].
  destruct ((48 <=? byteZ b) && (byteZ b <=? 57))%Z; [done|].
  destruct (Ascii.eqb b "-"); [done|]. destruct (Ascii.eqb b "_"); done.
Qed.

Lemma hex_digit_ok z : (0 <= z < 16)%Z -> tokenByte (hex_digit z) = true /\ hex_digit z <> "."%char.
Proof.
  intros Hz. assert (Hall : forallb (fun n => tokenByte (hex_digit (Z.of_nat n)) && negb (Ascii.eqb (hex_digit (Z.of_nat n)) "."))
    (seq 0 16) = true) by (vm_compute; reflexivity).
  rewrite forallb_forall in Hall. specialize (Hall (Z.to_nat z)). rewrite Z2Nat.id in Hall by lia.
  destruct (proj1 (andb_true_iff _ _) (Hall ltac:(apply in_seq; lia))) as [H1 H2].
  split; [done|]. apply negb_true_iff, Ascii.eqb_neq in H2. done.
Qed.

Lemma hex_bytes_ok l b : b ∈ hex_bytes l -> tokenByte b = true /\ b <> "."%char.
Proof.
  intros Hin. apply list_elem_of_In, in_flat_map in Hin as (x&_&Hx). pose proof (byteZ_range x).
  destruct Hx as [<-|[<-|[]]]; apply hex_digit_ok; Z.to_euclidean_division_equations; lia.
Qed.

Section Laws.
Context `{ed : Ed25519} `{codec : Codec Claims} {edlaws : Ed25519Laws} {claimslaws : ClaimsLaws}.

Lemma keyID_ok public : no_dot (keyID public) /\ keyID public <> [] /\ forallb tokenByte (keyID public) = true.
Proof.
  unfold keyID. split_and!.
  - intros Hin. by apply hex_bytes_ok in Hin as [_ ?].
  - pose proof (digest_size public) as Hd. destruct (Sum256 public); [done|]. by simpl.
  - apply forallb_forall. intros b Hb. by apply list_elem_of_In, hex_bytes_ok in Hb as [? _].
Qed.

(** A token from its parts. *)
Lemma parts_look_like_token id text sig :
  no_dot id -> no_dot text -> no_dot sig -> id <> [] -> text <> [] -> (SignatureSize <= len sig)%Z ->
  forallb tokenByte id = true -> forallb tokenByte text = true -> forallb tokenByte sig = true ->
  let raw := dot (dot (dot (bytes_of prefix) id) text) sig in
  (len raw <= MaxLength)%Z ->
  LooksLikeToken raw = true /\ split_bytes "." raw = [bytes_of prefix; id; text; sig].
Proof.
  intros Hid Htext Hsig Nid Ntext Lsig Tid Ttext Tsig raw Hlen.
  assert (Hsplit : split_bytes "." raw = [bytes_of prefix; id; text; sig]).
  { unfold raw. rewrite !split_dot by done. rewrite (split_no_dot (bytes_of prefix)); [done|]. by apply (bool_decide_unpack _). }
  split; [|done]. unfold LooksLikeToken.
  assert (Hmin : (slen prefix + 8 <= len raw)%Z).
  { unfold raw, dot. rewrite !len_app, !len_cons. change (slen prefix) with 4%Z. change (len (bytes_of prefix)) with 4%Z.
    unfold SignatureSize in Lsig. pose proof (len_nonneg id). pose proof (len_nonneg text). lia. }
  rewrite (proj2 (Z.ltb_ge _ _) Hmin), (proj2 (Z.ltb_ge _ _) Hlen). cbn [orb].
  assert (Hpre : prefixb (bytes_of (prefix +:+ ".")) raw = true) by reflexivity. rewrite Hpre. cbn [negb].
  assert (Hbytes : forallb tokenByte raw = true).
  { unfold raw, dot. rewrite !forallb_app. cbn [forallb]. rewrite Tid, Ttext, Tsig. reflexivity. }
  rewrite Hbytes, Hsplit. cbn [negb]. change (len [bytes_of prefix; id; text; sig] =? 4)%Z with true. cbn [andb].
  apply negb_true_iff, bool_decide_eq_false. rewrite !elem_of_cons, elem_of_nil. intros [Hp|[|[|[Hs|[]]]]]; try congruence.
  - discriminate Hp.
  - rewrite <- Hs in Lsig. by vm_compute in Lsig.
Qed.

Lemma encode_length l : (len l <= len (EncodeToString l))%Z.
Proof.
  induction l as [l IH] using (induction_ltof1 _ length); unfold ltof in IH.
  destruct l as [|x [|y [|z rest]]]; cbn [EncodeToString]; rewrite ?len_cons, ?len_nil; try lia.
  specialize (IH rest ltac:(simpl; lia)). lia.
Qed.

Lemma encode_nonempty l : l <> [] -> EncodeToString l <> [].
Proof. destruct l as [|x [|y [|z rest]]]; done. Qed.

Lemma encode_token l : forallb tokenByte (EncodeToString l) = true.
Proof. apply forallb_forall. intros b Hb. by apply list_elem_of_In, encode_bytes, url_token in Hb. Qed.

(** C31: Signing and verifying are inverse: a token [Sign] makes for ASCII claims is accepted
    until it expires by every keyring that still has the signing key among its verifying
    keys, with exactly the claims that were signed. *)
Theorem sign_verify_roundtrip k k' public c raw now :
  signer_id k = keyID public -> public = Public (signer_private k) -> verifier k' !! signer_id k = Some public ->
  ascii_claims c = true -> Sign k c = Ok raw -> (now < Expiry c)%Z ->
  Verify k' raw now = Ok c.
Proof.
  intros Hid Hpub Hver Hascii. unfold Sign. destruct (complete c) eqn:Ec; [|done]. cbn [negb].
  destruct (Marshal c) as [payload|] eqn:Em; [|done]. cbv zeta.
  set (head := head_of (signer_id k) payload). set (sig := ed_sign (signer_private k) head).
  destruct (Z.ltb_spec MaxLength (len (dot head (EncodeToString sig)))) as [|Hlen]; [done|].
  intros [= <-] Hnow. destruct (keyID_ok public) as (Kd&Kn&Kt). rewrite <- Hid in Kd, Kn, Kt.
  pose proof (signature_size (signer_private k) head) as Hsig. fold sig in Hsig.
  destruct (parts_look_like_token (signer_id k) (EncodeToString payload) (EncodeToString sig)) as [Hl Hs];
    auto using encode_no_dot, encode_token, encode_nonempty.
  { by eapply encode_nonempty, claims_nonempty. }
  { rewrite <- Hsig. apply encode_length. }
  unfold Verify. change (dot (dot (dot (bytes_of prefix) (signer_id k)) (EncodeToString payload)) (EncodeToString sig))
    with (dot head (EncodeToString sig)) in Hl, Hs.
  rewrite Hl, Hs. cbn [negb]. rewrite Hver, Decode_Encode, Hsig. cbn [negb Z.eqb].
  replace (take _ (dot head (EncodeToString sig))) with head.
  2: { by rewrite take_before_dot. }
  rewrite Hpub. unfold sig. rewrite signature_verifies. cbn [negb].
  rewrite Decode_Encode, (claims_roundtrip c payload) by done. rewrite Ec. cbn [negb].
  by rewrite (proj2 (Z.ltb_lt _ _) Hnow).
Qed.

(** Accepted claims were signed: when [Verify] accepts a token, a key of the keyring
    verifies a signature on the text before the last dot; the claims are complete and not
    expired; and they are the only claims whose signed text that can be, so a signature
    on one set of claims is never accepted for another. *)
Theorem accepted_claims_were_signed k raw now c :
  Verify k raw now = Ok c ->
  exists id public head sig,
    verifier k !! id = Some public /\ ed_verify public head sig = true /\
    complete c = true /\ (now < Expiry c)%Z /\
    (exists sigtext, raw = dot head sigtext) /\
    forall id' c' payload, ascii_claims c' = true -> Marshal c' = Ok payload -> head = head_of id' payload -> c' = c.
Proof.
  unfold Verify. destruct (LooksLikeToken raw); [|done]. cbn [negb].
  destruct (split_bytes "." raw) as [|p [|id [|text [|sigtext [|]]]]] eqn:Es; try done.
  destruct (verifier k !! id) as [public|] eqn:Ev; [|done]. destruct (DecodeString sigtext) as [sig|]; [|done].
  destruct (negb _); [done|].
  assert (Hraw : raw = dot (dot (dot p id) text) sigtext).
  { rewrite <- (join_split "." raw), Es. unfold dot. cbn [join_bytes]. by rewrite <- !app_assoc. }
  assert (Hhead : take (length raw - length sigtext - 1) raw = dot (dot p id) text).
  { rewrite Hraw. apply take_before_dot. }
  rewrite Hhead. destruct (ed_verify public _ sig) eqn:Eed; [|done]. cbn [negb].
  destruct (DecodeString text) as [payload|] eqn:Et; [|done].
  destruct (Unmarshal payload) as [c0|] eqn:Eu; [|done]. destruct (complete c0) eqn:Ec; [|done]. cbn [negb].
  destruct (Z.ltb_spec now (Expiry c0)) as [Hnow|]; [|done]. cbn [negb]. intros [= ->].
  exists id, public, (dot (dot p id) text), sig. split_and!; [done..|by eexists|].
  intros id' c' payload' Hascii Hm Heq.
  assert (Htext : no_dot text).
  { intros Hin. apply (elem_of_split "." raw text "."%char) in Hin as [_ ?]; [done|].
    rewrite Es. right. right. left. }
  apply (f_equal (split_bytes ".")) in Heq. unfold head_of in Heq.
  rewrite (split_dot _ text), (split_dot _ (EncodeToString payload')) in Heq by auto using encode_no_dot.
  apply app_inj_2 in Heq as [_ [= ->]]; [|done].
  rewrite Decode_Encode in Et. injection Et as ->.
  rewrite (claims_roundtrip c' payload) in Eu by done. by injection Eu.
Qed.
End Laws.

(** ** A scheme that satisfies the laws *)
Section Example.

(** Signs with sixty-four bytes of the message's start. *)
#[local] Instance sample_ed : Ed25519 := {|
  PrivateKey := list byte;
  NewKeyFromSeed seed := seed;
  Public k := k;
  ed_sign _ m := take 64 (m ++ repeat "x"%char 64);
  ed_verify _ m s := bool_decide (s = take 64 (m ++ repeat "x"%char 64));
  Sum256 m := take 32 (m ++ repeat "y"%char 32)
|}.

#[local] Instance sample_ed_laws : Ed25519Laws.
Proof.
  split.
  - intros k m. unfold ed_sign, sample_ed, len. rewrite length_take, length_app, repeat_length. unfold SignatureSize. lia.
  - intros k m. by apply bool_decide_eq_true.
  - intros m. unfold Sum256, sample_ed. rewrite length_take, length_app, repeat_length. lia.
Qed.

Definition sample_claims : Claims := mkClaims "access" "s1" "t1" "org" 0 100.

(** A codec for one value. *)
#[local] Instance sample_codec : Codec Claims := {|
  Marshal c := if bool_decide (Type_ c = "access" /\ SessionID c = "s1" /\ TokenID c = "t1" /\ OrgID c = "org" /\
                               IssuedAt c = 0%Z /\ ExpiresAt c = 100%Z) then Ok (bytes_of "{claims}") else Fail (ENew "json");
  Unmarshal _ := Ok sample_claims
|}.

#[local] Instance sample_claims_laws : ClaimsLaws.
Proof.
  split; intros [] b; unfold Marshal, sample_codec; simpl.
  - intros _. case_bool_decide as H; [|done]. by destruct H as (->&->&->&->&->&->).
  - case_bool_decide; [|done]. by intros [= <-].
Qed.

Definition sample_seed : list byte := repeat "k"%char 32.
Definition sample_keyring : Keyring :=
  mkKeyring (keyID sample_seed) (sample_seed : PrivateKey) {[keyID sample_seed := sample_seed]}.
Definition sample_token : list byte := match Sign sample_keyring sample_claims with Ok t => t | Fail _ => [] end.

Lemma sign_verify_roundtrip_witness : Verify sample_keyring sample_token 5 = Ok sample_claims.
Proof.
  apply (sign_verify_roundtrip sample_keyring sample_keyring sample_seed); vm_compute; reflexivity.
Defined.

Lemma accepted_claims_were_signed_witness :
  exists id public head sig,
    verifier sample_keyring !! id = Some public /\ ed_verify public head sig = true /\
    complete sample_claims = true /\ (5 < Expiry sample_claims)%Z /\
    (exists sigtext, sample_token = dot head sigtext) /\
    forall id' c' payload, ascii_claims c' = true -> Marshal c' = Ok payload -> head = head_of id' payload ->
      c' = sample_claims.
Proof. apply (accepted_claims_were_signed sample_keyring sample_token 5 sample_claims). vm_compute. reflexivity. Defined.
End Example.
End Token.
