(* ===== verification/Socks.v ===== *)
(** * The SOCKS5 front of the egress proxy

    internal/agent/socks.go: the handshake, the request and what is opened for the
    client. The decision whether a host may pass through undecrypted (classify) and
    the opening of the egress stream are arguments. *)

From S2P Require Import Prelude GoIO GoStrings GoNet.

Module Socks.
Definition socksVersion : byte := "005"%char.
Definition socksAuthVersion : byte := "001"%char.
Definition socksMethodNone : byte := "000"%char.
Definition socksMethodUserPass : byte := "002"%char.
Definition socksNoMethods : byte := "255"%char.
Definition socksCmdConnect : byte := "001"%char.
Definition socksCmdUDPAssoc : byte := "003"%char.
Definition socksAddrIPv4 : byte := "001"%char.
Definition socksAddrDomain : byte := "003"%char.
Definition socksAddrIPv6 : byte := "004"%char.

Definition socksSucceeded : byte := "000"%char.
Definition socksGeneralFailure : byte := "001"%char.
Definition socksNotAllowed : byte := "002"%char.
Definition socksHostUnreachable : byte := "004"%char.
Definition socksCommandUnsupported : byte := "007"%char.
Definition socksAddrUnsupported : byte := "008"%char.

Definition errSocksProtocol : goerr := ENew "socks5: protocol error".
Definition errUDPEgress : goerr :=
  ENew "udp egress (QUIC, HTTP/3, DNS over UDP) is not supported; only TCP egress is proxied".
Definition errProxyAuthRequired : goerr := ENew "proxy credentials required".

Definition proxyExitUserPrefix : string := "exit=".

Record egressCreds := mkCreds { token : string; exit : string }.

Definition noCreds : egressCreds := mkCreds "" "".

(** egress.go: credsFromUserPass. *)
Definition credsFromUserPass (user pass : string) : egressCreds :=
  mkCreds pass (default "" (CutPrefix user proxyExitUserPrefix)).

(** Any failure of a read is [errSocksProtocol]. *)
Definition or_protocol {A} (c : RD A) : RD A := fun r =>
  match c r with
  | (Ok a, r') => (Ok a, r')
  | (Fail _, r') => (Fail errSocksProtocol, r')
  end.

Definition ReadByte : RD byte := fun r =>
  match ReadFull 1 r with
  | (Ok (b :: _), r') => (Ok b, r')
  | (Ok [], r') => (Fail EOF, r')
  | (Fail e, r') => (Fail e, r')
  end.

Local Open Scope go_scope.

Definition readSocksField : RD string :=
  read n <- or_protocol ReadByte;
  read buf <- or_protocol (ReadFull (byteZ n));
  rd_ret (string_of buf).

Definition readSocksUserPass : RD (string * string) :=
  read ver <- or_protocol ReadByte;
  if negb (Ascii.eqb ver socksAuthVersion) then rd_fail errSocksProtocol
  else read user <- readSocksField; read pass <- readSocksField; rd_ret (user, pass).

(** The method the server picks. *)
Fixpoint choose_method (requireAuth : bool) (methods : list byte) (method : byte) : byte :=
  match methods with
  | [] => method
  | m :: rest =>
      if Ascii.eqb m socksMethodUserPass then socksMethodUserPass
      else choose_method requireAuth rest
             (if Ascii.eqb m socksMethodNone && negb requireAuth then socksMethodNone else method)
  end.

Definition socksHandshake (requireAuth : bool) (r : reader) (w : writer) : res egressCreds * reader * writer :=
  match ReadFull 2 r with
  | (Ok [ver; n], r) =>
      if negb (Ascii.eqb ver socksVersion) || (byteZ n =? 0)%Z then (Fail errSocksProtocol, r, w)
      else
        match ReadFull (byteZ n) r with
        | (Fail _, r) => (Fail errSocksProtocol, r, w)
        | (Ok methods, r) =>
            let method := choose_method requireAuth methods socksNoMethods in
            match Write [socksVersion; method] w with
            | (Some _, w) => (Fail errSocksProtocol, r, w)
            | (None, w) =>
                if Ascii.eqb method socksNoMethods then (Fail errSocksProtocol, r, w)
                else if Ascii.eqb method socksMethodNone then (Ok noCreds, r, w)
                else
                  match readSocksUserPass r with
                  | (Fail err, r) => (Fail err, r, w)
                  | (Ok (user, pass), r) =>
                      let creds := credsFromUserPass user pass in
                      if requireAuth && bool_decide (token creds = "")
                      then (Fail errProxyAuthRequired, r, (Write [socksAuthVersion; "001"%char] w).2)
                      else match Write [socksAuthVersion; "000"%char] w with
                           | (Some err, w) => (Fail err, r, w)
                           | (None, w) => (Ok creds, r, w)
                           end
                  end
            end
        end
  | (_, r) => (Fail errSocksProtocol, r, w)
  end.

(** The code a refusal is answered with travels with the error; 0 is no answer. *)
Definition noCode : byte := "000"%char.

Definition readSocksRequest (r : reader) : (string * (byte * option goerr)) * reader :=
  let bad code r := (("", (code, Some errSocksProtocol)), r) in
  match ReadFull 4 r with
  | (Ok [ver; cmd; _; atyp], r) =>
      if negb (Ascii.eqb ver socksVersion) then bad noCode r
      else if Ascii.eqb cmd socksCmdUDPAssoc then (("", (socksNotAllowed, Some errUDPEgress)), r)
      else if negb (Ascii.eqb cmd socksCmdConnect) then bad socksCommandUnsupported r
      else
        let with_host host r :=
          match ReadFull 2 r with
          | (Ok [p0; p1], r) =>
              ((JoinHostPort host (Itoa (Z.lor (Z.shiftl (byteZ p0) 8) (byteZ p1))), (noCode, None)), r)
          | (_, r) => bad noCode r
          end in
        if Ascii.eqb atyp socksAddrIPv4 || Ascii.eqb atyp socksAddrIPv6 then
          match ReadFull (if Ascii.eqb atyp socksAddrIPv6 then 16 else 4) r with
          | (Ok ip, r) => with_host (ip_string ip) r
          | (Fail _, r) => bad noCode r
          end
        else if Ascii.eqb atyp socksAddrDomain then
          match readSocksField r with
          | (Ok name, r) => if bool_decide (name = "") then bad socksGeneralFailure r else with_host name r
          | (Fail _, r) => bad socksGeneralFailure r
          end
        else bad socksAddrUnsupported r
  | (_, r) => bad noCode r
  end.

Definition writeSocksReply (code : byte) (w : writer) : bool * writer :=
  let '(err, w') := Write [socksVersion; code; "000"%char; socksAddrIPv4; "000"%char; "000"%char; "000"%char;
                           "000"%char; "000"%char; "000"%char] w in
  (match err with None => true | Some _ => false end, w').

(** What [openEgress] may answer: a stream, or an error with the HTTP status of a
    refusal if it is one. *)
Inductive opened := Stream | Refused (status : option Z).

Definition socksRefusalCode (status : option Z) : byte :=
  match status with
  | None => socksGeneralFailure
  | Some s =>
      if (s =? 403)%Z || (s =? 407)%Z then socksNotAllowed
      else if (s =? 502)%Z then socksHostUnreachable else socksGeneralFailure
  end.

(** What serving a client came to: the stream that was opened, if one was asked for, and
    whether bytes are spliced in the end. *)
Record served := mkServed {
  asked : option (string * egressCreds);
  spliced : bool;
  client : writer
}.

Section Serve.
Context (requireAuth : bool) (passthrough : string -> bool) (openEgress : string -> egressCreds -> opened).

Definition socksMayPassThrough (dest : string) : bool :=
  match SplitHostPort dest with None => false | Some (host, _) => passthrough host end.

Definition serveSocksClient (r : reader) (w : writer) : served :=
  match socksHandshake requireAuth r w with
  | (Fail _, r, w) => mkServed None false w
  | (Ok creds, r, w) =>
      match readSocksRequest r with
      | ((_, (code, Some _)), r) =>
          mkServed None false (if Ascii.eqb code noCode then w else (writeSocksReply code w).2)
      | ((dest, (_, None)), r) =>
          if negb (socksMayPassThrough dest) then mkServed None false (writeSocksReply socksNotAllowed w).2
          else
            match openEgress dest creds with
            | Refused status => mkServed (Some (dest, creds)) false (writeSocksReply (socksRefusalCode status) w).2
            | Stream =>
                let '(ok, w) := writeSocksReply socksSucceeded w in mkServed (Some (dest, creds)) ok w
            end
      end
  end.
End Serve.

(** ** What is opened was allowed *)

Lemma choose_none_free methods method :
  method <> socksMethodNone -> choose_method true methods method <> socksMethodNone.
Proof.
  revert method. induction methods as [|m methods IH]; intros method Hm; simpl; [done|].
  destruct (Ascii.eqb m socksMethodUserPass); [done|]. rewrite andb_false_r. by apply IH.
Qed.

Lemma handshake_authenticates r w creds r' w' :
  socksHandshake true r w = (Ok creds, r', w') -> token creds <> "".
Proof.
  unfold socksHandshake. destruct (ReadFull 2 r) as [[[|ver [|n []]]|] r1]; try done.
  destruct (_ || _)%bool; [done|]. destruct (ReadFull (byteZ n) r1) as [[methods|] r2]; [|done].
  pose proof (choose_none_free methods socksNoMethods ltac:(done)) as Hno.
  destruct (Write _ w) as [[?|] w1]; [done|].
  destruct (Ascii.eqb (choose_method true methods socksNoMethods) socksNoMethods); [done|].
  rewrite (proj2 (Ascii.eqb_neq _ _) Hno).
  destruct (readSocksUserPass r2) as [[[user pass]|] r3]; [|done]. cbn [andb].
  destruct (bool_decide (token (credsFromUserPass user pass) = "")) eqn:Et; [done|]. bool_to_prop.
  destruct (Write _ w1) as [[?|] w2]; [done|]. by intros [= <- <- <-].
Qed.

(** The SOCKS front opens a stream only for a destination whose host may pass through
    undecrypted, and, where the proxy requires authentication, only with a credential; no
    bytes are spliced for a client no stream was opened for. *)
Theorem socks_opens_only_allowed requireAuth passthrough openEgress r w dest creds :
  asked (serveSocksClient requireAuth passthrough openEgress r w) = Some (dest, creds) ->
  (exists host port, SplitHostPort dest = Some (host, port) /\ passthrough host = true) /\
  (requireAuth = true -> token creds <> "") /\
  (spliced (serveSocksClient requireAuth passthrough openEgress r w) = true -> openEgress dest creds = Stream).
Proof.
  unfold serveSocksClient. destruct (socksHandshake requireAuth r w) as [[[cr|] r1] w1] eqn:Eh; [|done].
  destruct (readSocksRequest r1) as [[d [code [err|]]] r2]; [done|].
  unfold socksMayPassThrough. destruct (SplitHostPort d) as [[host port]|] eqn:Es; [|done].
  destruct (passthrough host) eqn:Ep; [|done]. cbn [negb].
  assert (Hauth : requireAuth = true -> token cr <> "") by (intros ->; by eapply handshake_authenticates).
  destruct (openEgress d cr) eqn:Eo; [destruct (writeSocksReply _ w1)|]; cbn [asked spliced];
    intros [= <- <-]; (split_and!; [by exists host, port|done|done]).
Qed.

(** ** Requests *)

(** The destination of a request. *)
Inductive destination := ToIPv4 (ip : list byte) | ToIPv6 (ip : list byte) | ToName (name : string).

Definition dest_ok (d : destination) : Prop :=
  match d with
  | ToIPv4 ip => len ip = 4%Z
  | ToIPv6 ip => len ip = 16%Z
  | ToName name => name <> "" /\ (slen name < 256)%Z
  end.

Definition dest_host (d : destination) : string :=
  match d with ToIPv4 ip | ToIPv6 ip => ip_string ip | ToName name => name end.

(** RFC 1928, section 4: a CONNECT request. *)
Definition encode_request (rsv : byte) (d : destination) (port : Z) : list byte :=
  match d with
  | ToIPv4 ip => [socksVersion; socksCmdConnect; rsv; socksAddrIPv4] ++ ip
  | ToIPv6 ip => [socksVersion; socksCmdConnect; rsv; socksAddrIPv6] ++ ip
  | ToName name => [socksVersion; socksCmdConnect; rsv; socksAddrDomain] ++ Zbyte (slen name) :: bytes_of name
  end ++ PutUint16 port.

Lemma ReadFull_reader n r l r' :
  (0 <= n)%Z -> ReadFull n r = (Ok l, r') -> r = mkReader (l ++ rd_data r') (rd_end r') /\ len l = n.
Proof. intros Hn (Hl&Hd&He)%ReadFull_Ok; [|done]. destruct r; simpl in *. by subst. Qed.

Lemma port_value p0 p1 : Z.lor (Z.shiftl (byteZ p0) 8) (byteZ p1) = be_get [p0; p1].
Proof. cbn [be_get]. change (8 * len [p1])%Z with 8%Z. change (8 * len [])%Z with 0%Z. by rewrite Z.shiftl_0_r, Z.lor_0_r. Qed.

Lemma readSocksField_Ok r name r' :
  readSocksField r = (Ok name, r') <->
  (slen name < 256)%Z /\ r = mkReader (Zbyte (slen name) :: bytes_of name ++ rd_data r') (rd_end r').
Proof.
  unfold readSocksField, rd_bind, or_protocol, ReadByte, rd_ret. split.
  - destruct (ReadFull 1 r) as [[[|b l]|] r1] eqn:E1; try done.
    apply ReadFull_reader in E1 as [-> Hl]; [|done]. assert (l = []) as -> by (destruct l; [done|unfold len in Hl; simpl in Hl; lia]).
    destruct (ReadFull (byteZ b) r1) as [[buf|] r2] eqn:E2; [|done]. intros [= <- <-].
    pose proof (byteZ_range b). apply ReadFull_reader in E2 as [-> Hb]; [|lia].
    unfold slen. rewrite bytes_of_string_of, Hb, Zbyte_byteZ. split; [lia|done].
  - intros [Hlen ->]. destruct r' as [k e]. cbn [rd_data rd_end].
    change (Zbyte (slen name) :: bytes_of name ++ k) with ([Zbyte (slen name)] ++ (bytes_of name ++ k)).
    rewrite ReadFull_app by done. rewrite byteZ_Zbyte, Z.mod_small by (pose proof (len_nonneg (bytes_of name)); unfold slen in *; lia).
    rewrite ReadFull_app by done. by rewrite string_of_bytes_of.
Qed.

Lemma port_bytes p0 p1 : PutUint16 (be_get [p0; p1]) = [p0; p1].
Proof. by apply (be_put_get_n 2 [p0; p1]). Qed.

Lemma port_bound p0 p1 : (0 <= be_get [p0; p1] < 65536)%Z.
Proof. split; [apply be_get_nonneg|apply (be_get_bound [p0; p1])]. Qed.

(** The reader after a four-byte head and the bytes of an address. *)
Lemma request_tail host r d r' :
  (match ReadFull 2 r with
   | (Ok [p0; p1], r) => ((JoinHostPort host (Itoa (Z.lor (Z.shiftl (byteZ p0) 8) (byteZ p1))), (noCode, None)), r)
   | (_, r) => (("", (noCode, Some errSocksProtocol)), r)
   end) = ((d, (noCode, None)), r') <->
  exists port, (0 <= port < 65536)%Z /\ r = mkReader (PutUint16 port ++ rd_data r') (rd_end r') /\
    d = JoinHostPort host (Itoa port).
Proof.
  split.
  - destruct (ReadFull 2 r) as [[[|p0 [|p1 []]]|] r1] eqn:E; try done. intros [= <- <-].
    apply ReadFull_reader in E as [-> _]; [|done]. exists (be_get [p0; p1]).
    rewrite port_bytes, port_value. split_and!; [apply port_bound..|done|done].
  - intros (port&Hport&->&->). destruct r' as [k e]. cbn [rd_data rd_end].
    rewrite ReadFull_app by done. pose proof (Uint16_roundtrip port Hport) as Hr.
    destruct (PutUint16 port) as [|p0 [|p1 []]] eqn:Ep; try done. by rewrite port_value, Hr.
Qed.

(** The SOCKS request parser accepts exactly the CONNECT requests of RFC 1928: it returns
    a destination if and only if the stream begins with the encoding of an IPv4 address, an
    IPv6 address or a non-empty name with a port, the destination is that host and port,
    and exactly those bytes are consumed. *)
Theorem socks_request_exact r dest r' :
  readSocksRequest r = ((dest, (noCode, None)), r') <->
  exists rsv d port, dest_ok d /\ (0 <= port < 65536)%Z /\
    r = mkReader (encode_request rsv d port ++ rd_data r') (rd_end r') /\
    dest = JoinHostPort (dest_host d) (Itoa port).
Proof.
  unfold readSocksRequest. split.
  - destruct (ReadFull 4 r) as [[[|ver [|cmd [|rsv [|atyp []]]]]|] r1] eqn:E4; try done.
    apply ReadFull_reader in E4 as [-> _]; [|done].
    destruct (Ascii.eqb_spec ver socksVersion) as [->|]; [|done]. cbn [negb].
    destruct (Ascii.eqb_spec cmd socksCmdUDPAssoc); [done|].
    destruct (Ascii.eqb_spec cmd socksCmdConnect) as [->|]; [|done]. cbn [negb].
    destruct (Ascii.eqb_spec atyp socksAddrIPv6) as [->|H6].
    + change (Ascii.eqb socksAddrIPv6 socksAddrIPv4 || true)%bool with true. cbn match.
      destruct (ReadFull 16 r1) as [[ip|] r2] eqn:E; [|done].
      apply ReadFull_reader in E as [-> Hip]; [|done]. intros (port&Hp&->&->)%request_tail.
      exists rsv, (ToIPv6 ip), port. split_and!; [done|lia|lia| |done]. unfold encode_request. cbn [rd_data rd_end]. by rewrite <- !app_assoc.
    + destruct (Ascii.eqb_spec atyp socksAddrIPv4) as [->|H4]; cbn [orb].
      * destruct (ReadFull 4 r1) as [[ip|] r2] eqn:E; [|done].
        apply ReadFull_reader in E as [-> Hip]; [|done]. intros (port&Hp&->&->)%request_tail.
        exists rsv, (ToIPv4 ip), port. split_and!; [done|lia|lia| |done]. unfold encode_request. cbn [rd_data rd_end]. by rewrite <- !app_assoc.
      * destruct (Ascii.eqb_spec atyp socksAddrDomain) as [->|]; [|done].
        destruct (readSocksField r1) as [[name|] r2] eqn:E; [|done].
        apply readSocksField_Ok in E as [Hlen ->]. destruct (bool_decide (name = "")) eqn:En; [done|]. bool_to_prop.
        intros (port&Hp&->&->)%request_tail.
        exists rsv, (ToName name), port. split_and!; [done|lia|lia| |done]. unfold encode_request. cbn [rd_data rd_end app].
        by rewrite <- !app_assoc.
  - intros (rsv&d&port&Hd&Hport&->&->). destruct r' as [k e]. cbn [rd_data rd_end].
    pose proof (fun host => proj2 (request_tail host (mkReader (PutUint16 port ++ k) e) _ (mkReader k e))
      (ex_intro _ port (conj Hport (conj eq_refl eq_refl)))) as Htail.
    unfold encode_request. destruct d as [ip|ip|name]; cbn [dest_host dest_ok] in *;
      rewrite <- !app_assoc, (ReadFull_app 4) by done.
    + cbn [Ascii.eqb]. change (Ascii.eqb socksVersion socksVersion) with true. cbn -[ReadFull JoinHostPort Itoa].
      rewrite ReadFull_app by done. apply Htail.
    + cbn -[ReadFull JoinHostPort Itoa]. rewrite ReadFull_app by done. apply Htail.
    + destruct Hd as [Hne Hlen]. cbn -[ReadFull JoinHostPort Itoa readSocksField].
      rewrite (proj2 (readSocksField_Ok _ name (mkReader (PutUint16 port ++ k) e))) by done.
      rewrite bool_decide_false by done. apply Htail.
Qed.

(** A client that authenticates with a token and asks for a name on port 443. *)
Definition sample_client : reader :=
  mkReader ([socksVersion; "001"%char; socksMethodUserPass] ++
            [socksAuthVersion; "001"%char; "u"%char; "003"%char] ++ bytes_of "tok" ++
            encode_request "000"%char (ToName "example.com") 443) EOF.

Lemma socks_opens_only_allowed_witness : token (mkCreds "tok" "") <> "".
Proof.
  apply (socks_opens_only_allowed true (fun host => bool_decide (host = "example.com")) (fun _ _ => Stream)
           sample_client infinite_writer "example.com:443" (mkCreds "tok" "")); vm_compute; reflexivity.
Defined.
End Socks.
