(* ===== verification/Services.v ===== *)
(** * The service manager

    internal/services: a service is started and stopped through its driver; it may
    require other services, which it holds while it runs; unused services are put to
    sleep; definitions are reloaded, or changed under a reservation, while all of that
    goes on concurrently. The manager is a machine: the objects the goroutines share are
    tables indexed by references, every goroutine and every call in progress is an
    activity with a program counter, and one step runs what the code runs between taking
    and releasing the manager's mutex. What the drivers, probes, contexts and map
    iterations do is chosen by the event. *)
From S2P Require Import Prelude GoIO GoStrings Requirements.

Module Services.
Local Open Scope Z_scope.

(** ** Data *)

Definition second : Z := 1000000000.
Definition idleCheckInterval : Z := 30 * second.
Definition DefaultStartTimeout : Z := 120 * second.

(** The texts of the states, in the order of the constants. *)
Inductive SState :=
| StateRunning | StateStopped | StateSleeping | StateStarting | StatePartial | StateUnhealthy
| StateUnknown | StateError.

#[export] Instance SState_eq_dec : EqDecision SState.
Proof. solve_decision. Defined.

(** [State] of driver.go. *)
Inductive State := Running | Stopped | Partial | Unknown.

#[export] Instance State_eq_dec : EqDecision State.
Proof. solve_decision. Defined.

Definition StartedByMishmesh : string := "mishmesh".
Definition StartedByExternal : string := "external".

Record HTTPReadiness := mkHTTP { URL : string; HTTPStatus : Z }.
Record Readiness := mkReadiness { TCP : string; HTTP : option HTTPReadiness }.

#[export] Instance HTTPReadiness_eq_dec : EqDecision HTTPReadiness.
Proof. solve_decision. Defined.
#[export] Instance Readiness_eq_dec : EqDecision Readiness.
Proof. solve_decision. Defined.

(** A slice without elements is nil, as [append] to a nil slice leaves it. *)
Record Definition_ := mkDefinition {
  ID : string;
  OrgID : string;
  Name : string;
  DriverName : string;
  Config : list byte;
  Ready : Readiness;
  Requires : list string;
  FallbackReadyAddr : string;
  IdleTimeout : Z;
  StartTimeout : Z
}.

#[export] Instance Definition_eq_dec : EqDecision Definition_.
Proof. solve_decision. Defined.

Record StatusOf (E : Type) := mkStatus {
  StatusID : string;
  StatusOrgID : string;
  StatusName : string;
  StatusDriver : string;
  StatusState : SState;
  StatusActive : Z;
  StatusLastActivity : option Z;
  StatusIdleTimeout : Z;
  StatusStartTimeout : Z;
  StatusLastError : option E;
  StatusStartedBy : string;
  StatusUpdatedAt : Z
}.
Arguments mkStatus {E}.
Arguments StatusID {E}.
Arguments StatusName {E}.
Arguments StatusState {E}.

(** The errors of the package; the text of each is a function of it. *)
Inductive error :=
| Plain (e : goerr)
| UnknownService (id : string)
| RequirementInUse (dependents : list (StatusOf error))
| WaitingFor (id : string) (e : error)
| StartFailed (name : string) (e : error)
| NotReady (name : string) (timeout : Z) (e : error)
| DriverIs (st : State)
| StopFailed (name : string) (e : error)
| BadDefinition (name : string) (e : error)
| RequirementFailed (name : string) (e : error)
| Unready (e : error)
| Joined (a : option error) (e : error).

Abbreviation Status := (StatusOf error).

Definition ErrUnknownService : error := Plain (ENew "unknown service").
Definition ErrDefinitionChanged : error := Plain (ENew "service definition changed; reload and retry").
Definition ErrRestartRequired : error :=
  Plain (ENew "running service configuration changed; stop first or use Save and restart").
Definition errRequirementOrg : error :=
  Plain (ENew "requirement must reference a service in this organization").
Definition errReplaced : error := Plain (ENew "service driver cannot be replaced while running or held").
Definition errRemoved : error := Plain (ENew "service definition cannot be removed while running or held").
Definition errReload : error := Plain (ENew "saved service definition requires reload").

(** A driver is nothing yet, one that only fails, or one of the host. *)
Inductive Driver :=
| NilDriver
| BrokenDriver (e : error)
| HostDriver (h : nat).

(** What a driver's [State] returns. *)
Inductive stateAnswer := Saw (st : State) | Blind (e : error).

(** The methods: [ans] is what a driver of the host answers. *)
Definition driver_state (d : Driver) (ans : stateAnswer) : stateAnswer :=
  match d with BrokenDriver e => Blind e | _ => ans end.
Definition driver_do (d : Driver) (ans : option error) : option error :=
  match d with BrokenDriver e => Some e | _ => ans end.
Definition is_broken (d : Driver) : bool := match d with BrokenDriver _ => true | _ => false end.

(** A service. [inflight] is the reference of its [ensureCall], [stopping] that of its
    channel; [requirements] and [dependents] hold references of holds. A zero time is
    [None]; [lastError] and [definitionError] are [None] for the empty text. *)
Record service := mkSvc {
  def : Definition_;
  driver : Driver;
  state : SState;
  active : Z;
  lastActivity : option Z;
  lastError : option error;
  definitionError : option error;
  invalidated : bool;
  startedBy : string;
  updatedAt : Z;
  stoppedByUs : bool;
  inflight : option nat;
  stopping : option nat;
  requirements : gmap string nat;
  dependents : gmap nat nat;
  version : Z;
  ownActivity : option Z;
  runtimeAlive : bool
}.

(** Assignments to the fields. *)
Definition w_def (v : Definition_) (x : service) : service :=
  mkSvc v (driver x) (state x) (active x) (lastActivity x) (lastError x) (definitionError x) (invalidated x)
    (startedBy x) (updatedAt x) (stoppedByUs x) (inflight x) (stopping x) (requirements x) (dependents x)
    (version x) (ownActivity x) (runtimeAlive x).
Definition w_driver (v : Driver) (x : service) : service :=
  mkSvc (def x) v (state x) (active x) (lastActivity x) (lastError x) (definitionError x) (invalidated x)
    (startedBy x) (updatedAt x) (stoppedByUs x) (inflight x) (stopping x) (requirements x) (dependents x)
    (version x) (ownActivity x) (runtimeAlive x).
Definition w_state (v : SState) (x : service) : service :=
  mkSvc (def x) (driver x) v (active x) (lastActivity x) (lastError x) (definitionError x) (invalidated x)
    (startedBy x) (updatedAt x) (stoppedByUs x) (inflight x) (stopping x) (requirements x) (dependents x)
    (version x) (ownActivity x) (runtimeAlive x).
Definition w_active (v : Z) (x : service) : service :=
  mkSvc (def x) (driver x) (state x) v (lastActivity x) (lastError x) (definitionError x) (invalidated x)
    (startedBy x) (updatedAt x) (stoppedByUs x) (inflight x) (stopping x) (requirements x) (dependents x)
    (version x) (ownActivity x) (runtimeAlive x).
Definition w_lastActivity (v : option Z) (x : service) : service :=
  mkSvc (def x) (driver x) (state x) (active x) v (lastError x) (definitionError x) (invalidated x)
    (startedBy x) (updatedAt x) (stoppedByUs x) (inflight x) (stopping x) (requirements x) (dependents x)
    (version x) (ownActivity x) (runtimeAlive x).
Definition w_lastError (v : option error) (x : service) : service :=
  mkSvc (def x) (driver x) (state x) (active x) (lastActivity x) v (definitionError x) (invalidated x)
    (startedBy x) (updatedAt x) (stoppedByUs x) (inflight x) (stopping x) (requirements x) (dependents x)
    (version x) (ownActivity x) (runtimeAlive x).
Definition w_definitionError (v : option error) (x : service) : service :=
  mkSvc (def x) (driver x) (state x) (active x) (lastActivity x) (lastError x) v (invalidated x) (startedBy
    x) (updatedAt x) (stoppedByUs x) (inflight x) (stopping x) (requirements x) (dependents x) (version x)
    (ownActivity x) (runtimeAlive x).
Definition w_invalidated (v : bool) (x : service) : service :=
  mkSvc (def x) (driver x) (state x) (active x) (lastActivity x) (lastError x) (definitionError x) v
    (startedBy x) (updatedAt x) (stoppedByUs x) (inflight x) (stopping x) (requirements x) (dependents x)
    (version x) (ownActivity x) (runtimeAlive x).
Definition w_startedBy (v : string) (x : service) : service :=
  mkSvc (def x) (driver x) (state x) (active x) (lastActivity x) (lastError x) (definitionError x)
    (invalidated x) v (updatedAt x) (stoppedByUs x) (inflight x) (stopping x) (requirements x) (dependents x)
    (version x) (ownActivity x) (runtimeAlive x).
Definition w_updatedAt (v : Z) (x : service) : service :=
  mkSvc (def x) (driver x) (state x) (active x) (lastActivity x) (lastError x) (definitionError x)
    (invalidated x) (startedBy x) v (stoppedByUs x) (inflight x) (stopping x) (requirements x) (dependents x)
    (version x) (ownActivity x) (runtimeAlive x).
Definition w_stoppedByUs (v : bool) (x : service) : service :=
  mkSvc (def x) (driver x) (state x) (active x) (lastActivity x) (lastError x) (definitionError x)
    (invalidated x) (startedBy x) (updatedAt x) v (inflight x) (stopping x) (requirements x) (dependents x)
    (version x) (ownActivity x) (runtimeAlive x).
Definition w_inflight (v : option nat) (x : service) : service :=
  mkSvc (def x) (driver x) (state x) (active x) (lastActivity x) (lastError x) (definitionError x)
    (invalidated x) (startedBy x) (updatedAt x) (stoppedByUs x) v (stopping x) (requirements x) (dependents
    x) (version x) (ownActivity x) (runtimeAlive x).
Definition w_stopping (v : option nat) (x : service) : service :=
  mkSvc (def x) (driver x) (state x) (active x) (lastActivity x) (lastError x) (definitionError x)
    (invalidated x) (startedBy x) (updatedAt x) (stoppedByUs x) (inflight x) v (requirements x) (dependents
    x) (version x) (ownActivity x) (runtimeAlive x).
Definition w_requirements (v : gmap string nat) (x : service) : service :=
  mkSvc (def x) (driver x) (state x) (active x) (lastActivity x) (lastError x) (definitionError x)
    (invalidated x) (startedBy x) (updatedAt x) (stoppedByUs x) (inflight x) (stopping x) v (dependents x)
    (version x) (ownActivity x) (runtimeAlive x).
Definition w_dependents (v : gmap nat nat) (x : service) : service :=
  mkSvc (def x) (driver x) (state x) (active x) (lastActivity x) (lastError x) (definitionError x)
    (invalidated x) (startedBy x) (updatedAt x) (stoppedByUs x) (inflight x) (stopping x) (requirements x) v
    (version x) (ownActivity x) (runtimeAlive x).
Definition w_version (v : Z) (x : service) : service :=
  mkSvc (def x) (driver x) (state x) (active x) (lastActivity x) (lastError x) (definitionError x)
    (invalidated x) (startedBy x) (updatedAt x) (stoppedByUs x) (inflight x) (stopping x) (requirements x)
    (dependents x) v (ownActivity x) (runtimeAlive x).
Definition w_ownActivity (v : option Z) (x : service) : service :=
  mkSvc (def x) (driver x) (state x) (active x) (lastActivity x) (lastError x) (definitionError x)
    (invalidated x) (startedBy x) (updatedAt x) (stoppedByUs x) (inflight x) (stopping x) (requirements x)
    (dependents x) (version x) v (runtimeAlive x).
Definition w_runtimeAlive (v : bool) (x : service) : service :=
  mkSvc (def x) (driver x) (state x) (active x) (lastActivity x) (lastError x) (definitionError x)
    (invalidated x) (startedBy x) (updatedAt x) (stoppedByUs x) (inflight x) (stopping x) (requirements x)
    (dependents x) (version x) (ownActivity x) v.

Definition zeroDefinition : Definition_ := mkDefinition "" "" "" "" [] (mkReadiness "" None) [] "" 0 0.

(** [&service{state: StateUnknown, updatedAt: now}]. *)
Definition new_service (t : Z) : service :=
  mkSvc zeroDefinition NilDriver StateUnknown 0 None None None false "" t false None None ∅ ∅ 0 None false.

(** A requirement hold with the closure that releases it; [h_fired] is its [once]. *)
Record hold := mkHold { h_owner : nat; h_required : nat; h_fired : bool }.

(** What a run of [runEnsure] was started with; its [ensureCall] is its own reference. *)
Record run := mkRun {
  r_svc : nat;
  r_def : Definition_;
  r_driver : Driver;
  r_addr : string;
  r_added : list string
}.

(** The argument of [stopServiceIfEligible]. *)
Inductive stopTarget := ByID (id : string) | ByRef (s : nat).

(** What [Refresh] notes of a service. *)
Record observation := mkObs { o_svc : nat; o_driver : Driver; o_ready : Readiness; o_version : Z }.

(** What [applyReserved] prepares for a definition. *)
Record prepared := mkPrepared { p_def : Definition_; p_driver : option Driver; p_err : option error }.

(** Where an activity is. [parent] is the activity that waits for its return; [ctx] tells
    whether its context can be cancelled. *)
Inductive pc :=
| PAcquire (id : string)
| PUsing (s : nat)
| PBegin (id addr : string) (recursive ctx wait : bool) (parent : option nat)
| PWaitCall (id : string) (call : nat) (ctx : bool) (parent : option nat)
| PRunBegin (r : run) (stop : option nat)
| PRunWake (r : run) (out : gset string) (added : list string) (err : option error)
| PRunState (r : run) (added : list string)
| PRunStart (r : run) (added : list string)
| PRunPoll (r : run) (added : list string)
| PRunTick (r : run) (added : list string) (probeErr : error)
| PRunFailed (r : run) (added : list string) (err : error)
| PRunDetach (r : run) (added : list string) (err : option error) (retain : bool) (failed : State)
| PRunRelease (r : run) (err : option error) (release : list nat)
| PWake (owner : nat) (d : Definition_) (id : string) (call : nat)
| PWakeWait (owner : nat) (d : Definition_) (id : string) (call : nat) (stop : nat)
| PWakeRes (owner : nat) (id : string) (call : nat) (added : bool) (name : string)
| PWakeSend (owner : nat) (id : string) (call : nat) (added : bool) (err : option error)
| PStop (t : stopTarget) (idle : bool) (parent : option nat)
| PStopWait (t : stopTarget) (idle : bool) (parent : option nat) (ch : nat)
| PStopping (s : nat) (d : Driver) (name : string) (parent : option nat)
| PStopCheck (s : nat) (d : Driver) (err : error) (parent : option nat)
| PStopRelease (release : list nat) (err : option error) (parent : option nat)
| PIdle
| PIdleStops (l : list nat)
| PRefSlot
| PRefAdmit
| PRefProbe (obs : list observation)
| PRefApply (items : list (observation * stateAnswer * option error))
| PRefRelease (release reconcile : list nat)
| PRefWait (reconcile : list nat)
| PRefFinish
| PRefStops (pending : gset nat)
| PApply (defs : list Definition_)
| PApplySlot (defs : list Definition_) (v : Z)
| PApplyCheck (defs : list Definition_) (v : Z)
| PPrep (defs : list Definition_) (ready : list prepared) (parent : option nat)
| PAppIdle (ready : list prepared) (parent : option nat)
| PAppWait (ready : list prepared) (parent : option nat) (ch : nat)
| PAppRec (reconcile : list nat) (parent : option nat)
| PReserve (expected : list Definition_)
| PResBegin (expected : list Definition_)
| PResIdle (expected : list Definition_)
| PResWait (expected : list Definition_) (ch : nat)
| PResAction
| PResEnd (err : option error)
| PSlot (err : option error)
| PCheck (id : string) (proposed : Definition_) (restart : bool) (parent : option nat)
| PCheckSaw (s : nat) (d : Driver) (restart : bool) (parent : option nat)
| PAwait (child : nat) (then_ : pc).

(** The manager and everything in progress in it. References are taken from [next];
    [closed] are the channels that have been closed, [calls] the outcomes of the runs
    that ended, [replies] the results of the calls that returned, [changes] how often
    [onChange] was called. *)
Record Manager := mkManager {
  now : Z;
  started : Z;
  applySlot : option nat;
  applyVersion : Z;
  reserved : bool;
  reloadDone : option nat;
  refreshSlot : option nat;
  refreshing : bool;
  deferredStops : gset nat;
  services : gmap string nat;
  heap : gmap nat service;
  holds : gmap nat hold;
  calls : gmap nat (option error);
  closed : gset nat;
  acts : gmap nat pc;
  next : nat;
  changes : nat;
  replies : gmap nat (option error)
}.

Definition m_now (v : Z) (x : Manager) : Manager :=
  mkManager v (started x) (applySlot x) (applyVersion x) (reserved x) (reloadDone x) (refreshSlot x)
    (refreshing x) (deferredStops x) (services x) (heap x) (holds x) (calls x) (closed x) (acts x) (next x)
    (changes x) (replies x).
Definition m_started (v : Z) (x : Manager) : Manager :=
  mkManager (now x) v (applySlot x) (applyVersion x) (reserved x) (reloadDone x) (refreshSlot x) (refreshing
    x) (deferredStops x) (services x) (heap x) (holds x) (calls x) (closed x) (acts x) (next x) (changes x)
    (replies x).
Definition m_applySlot (v : option nat) (x : Manager) : Manager :=
  mkManager (now x) (started x) v (applyVersion x) (reserved x) (reloadDone x) (refreshSlot x) (refreshing x)
    (deferredStops x) (services x) (heap x) (holds x) (calls x) (closed x) (acts x) (next x) (changes x)
    (replies x).
Definition m_applyVersion (v : Z) (x : Manager) : Manager :=
  mkManager (now x) (started x) (applySlot x) v (reserved x) (reloadDone x) (refreshSlot x) (refreshing x)
    (deferredStops x) (services x) (heap x) (holds x) (calls x) (closed x) (acts x) (next x) (changes x)
    (replies x).
Definition m_reserved (v : bool) (x : Manager) : Manager :=
  mkManager (now x) (started x) (applySlot x) (applyVersion x) v (reloadDone x) (refreshSlot x) (refreshing
    x) (deferredStops x) (services x) (heap x) (holds x) (calls x) (closed x) (acts x) (next x) (changes x)
    (replies x).
Definition m_reloadDone (v : option nat) (x : Manager) : Manager :=
  mkManager (now x) (started x) (applySlot x) (applyVersion x) (reserved x) v (refreshSlot x) (refreshing x)
    (deferredStops x) (services x) (heap x) (holds x) (calls x) (closed x) (acts x) (next x) (changes x)
    (replies x).
Definition m_refreshSlot (v : option nat) (x : Manager) : Manager :=
  mkManager (now x) (started x) (applySlot x) (applyVersion x) (reserved x) (reloadDone x) v (refreshing x)
    (deferredStops x) (services x) (heap x) (holds x) (calls x) (closed x) (acts x) (next x) (changes x)
    (replies x).
Definition m_refreshing (v : bool) (x : Manager) : Manager :=
  mkManager (now x) (started x) (applySlot x) (applyVersion x) (reserved x) (reloadDone x) (refreshSlot x) v
    (deferredStops x) (services x) (heap x) (holds x) (calls x) (closed x) (acts x) (next x) (changes x)
    (replies x).
Definition m_deferredStops (v : gset nat) (x : Manager) : Manager :=
  mkManager (now x) (started x) (applySlot x) (applyVersion x) (reserved x) (reloadDone x) (refreshSlot x)
    (refreshing x) v (services x) (heap x) (holds x) (calls x) (closed x) (acts x) (next x) (changes x)
    (replies x).
Definition m_services (v : gmap string nat) (x : Manager) : Manager :=
  mkManager (now x) (started x) (applySlot x) (applyVersion x) (reserved x) (reloadDone x) (refreshSlot x)
    (refreshing x) (deferredStops x) v (heap x) (holds x) (calls x) (closed x) (acts x) (next x) (changes x)
    (replies x).
Definition m_heap (v : gmap nat service) (x : Manager) : Manager :=
  mkManager (now x) (started x) (applySlot x) (applyVersion x) (reserved x) (reloadDone x) (refreshSlot x)
    (refreshing x) (deferredStops x) (services x) v (holds x) (calls x) (closed x) (acts x) (next x) (changes
    x) (replies x).
Definition m_holds (v : gmap nat hold) (x : Manager) : Manager :=
  mkManager (now x) (started x) (applySlot x) (applyVersion x) (reserved x) (reloadDone x) (refreshSlot x)
    (refreshing x) (deferredStops x) (services x) (heap x) v (calls x) (closed x) (acts x) (next x) (changes
    x) (replies x).
Definition m_calls (v : gmap nat (option error)) (x : Manager) : Manager :=
  mkManager (now x) (started x) (applySlot x) (applyVersion x) (reserved x) (reloadDone x) (refreshSlot x)
    (refreshing x) (deferredStops x) (services x) (heap x) (holds x) v (closed x) (acts x) (next x) (changes
    x) (replies x).
Definition m_closed (v : gset nat) (x : Manager) : Manager :=
  mkManager (now x) (started x) (applySlot x) (applyVersion x) (reserved x) (reloadDone x) (refreshSlot x)
    (refreshing x) (deferredStops x) (services x) (heap x) (holds x) (calls x) v (acts x) (next x) (changes
    x) (replies x).
Definition m_acts (v : gmap nat pc) (x : Manager) : Manager :=
  mkManager (now x) (started x) (applySlot x) (applyVersion x) (reserved x) (reloadDone x) (refreshSlot x)
    (refreshing x) (deferredStops x) (services x) (heap x) (holds x) (calls x) (closed x) v (next x) (changes
    x) (replies x).
Definition m_next (v : nat) (x : Manager) : Manager :=
  mkManager (now x) (started x) (applySlot x) (applyVersion x) (reserved x) (reloadDone x) (refreshSlot x)
    (refreshing x) (deferredStops x) (services x) (heap x) (holds x) (calls x) (closed x) (acts x) v (changes
    x) (replies x).
Definition m_changes (v : nat) (x : Manager) : Manager :=
  mkManager (now x) (started x) (applySlot x) (applyVersion x) (reserved x) (reloadDone x) (refreshSlot x)
    (refreshing x) (deferredStops x) (services x) (heap x) (holds x) (calls x) (closed x) (acts x) (next x) v
    (replies x).
Definition m_replies (v : gmap nat (option error)) (x : Manager) : Manager :=
  mkManager (now x) (started x) (applySlot x) (applyVersion x) (reserved x) (reloadDone x) (refreshSlot x)
    (refreshing x) (deferredStops x) (services x) (heap x) (holds x) (calls x) (closed x) (acts x) (next x)
    (changes x) v.

(** ** Operations *)
Section Machine.
Context `{UnicodeQuote} {V : Type} `{EqDecision V} (unmarshal : list byte -> option V).

Definition svc (m : Manager) (s : nat) : service := default (new_service 0) (heap m !! s).
Definition upd (s : nat) (f : service -> service) (m : Manager) : Manager :=
  m_heap (<[s := f (svc m s)]> (heap m)) m.

(** [version++] on an unsigned 64-bit counter. *)
Definition bump (v : Z) : Z := (v + 1) mod 2 ^ 64.
Definition bump_version (x : service) : service := w_version (bump (version x)) x.

Definition set_act (k : nat) (p : pc) (m : Manager) : Manager := m_acts (<[k := p]> (acts m)) m.
Definition del_act (k : nat) (m : Manager) : Manager := m_acts (delete k (acts m)) m.
Definition alloc (m : Manager) : Manager := m_next (S (next m)) m.
Definition spawn (p : pc) (m : Manager) : Manager := alloc (set_act (next m) p m).
Definition close (ch : nat) (m : Manager) : Manager := m_closed ({[ch]} ∪ closed m) m.
Definition notify (changed : bool) (m : Manager) : Manager := if changed then m_changes (S (changes m)) m else m.

(** [call], with a reply for its caller: the parent goes on, and a top-level call ends. *)
Definition resume (p : pc) (e : option error) : pc :=
  match p with
  | PWakeRes owner id call added name => PWakeSend owner id call added (RequirementFailed name <$> e)
  | p => p
  end.
Definition ret (k : nat) (parent : option nat) (e : option error) (m : Manager) : Manager :=
  let m := m_replies (<[k := e]> (replies m)) (del_act k m) in
  match parent with
  | None => m
  | Some p =>
      match acts m !! p with
      | Some (PAwait _ q) => set_act p (resume q e) m
      | _ => m
      end
  end.
Definition await (k : nat) (p child : pc) (m : Manager) : Manager :=
  set_act k (PAwait (next m) p) (spawn child m).

(** *** Readiness targets *)

Fixpoint cut_bytes (sep l : list byte) : option (list byte) :=
  if prefixb sep l then Some (drop (length sep) l)
  else match l with [] => None | _ :: l' => cut_bytes sep l' end.

Fixpoint until_any (set l : list byte) : list byte :=
  match l with
  | [] => []
  | b :: l' => if bool_decide (b ∈ set) then [] else b :: until_any set l'
  end.

Definition hostPortOf (target : string) : string :=
  let t := bytes_of (TrimSpace target) in
  let t := default t (cut_bytes (bytes_of "://") t) in
  let t := until_any (bytes_of "/?#") t in
  match last_cut_bytes "@" t with Some (_, after) => string_of after | None => string_of t end.

Definition readyTarget (d : Definition_) (readyAddr : string) : string :=
  if negb (bool_decide (TCP (Ready d) = "")) then TCP (Ready d)
  else if negb (bool_decide (readyAddr = "")) then hostPortOf readyAddr
  else hostPortOf (FallbackReadyAddr d).

Definition readinessTarget (d : Definition_) (readyAddr : string) : Readiness :=
  match HTTP (Ready d) with
  | Some _ => Ready d
  | None => mkReadiness (readyTarget d readyAddr) None
  end.

Definition hasTarget (ready : Readiness) : bool :=
  negb (bool_decide (TCP ready = "")) || bool_decide (is_Some (HTTP ready)).

(** *** Views of the services *)

Definition snapshot (x : service) : Status :=
  mkStatus (ID (def x)) (OrgID (def x)) (Name (def x)) (DriverName (def x)) (state x) (active x)
    (lastActivity x) (IdleTimeout (def x)) (StartTimeout (def x))
    (match definitionError x with Some e => Some e | None => lastError x end) (startedBy x) (updatedAt x).

(** [!less(b, a)] of [ordered]. *)
Definition service_leb (m : Manager) (a b : nat) : bool :=
  let da := def (svc m a) in let db := def (svc m b) in
  if negb (bool_decide (OrgID da = OrgID db)) then str_leb (OrgID da) (OrgID db)
  else if negb (bool_decide (Name da = Name db)) then str_leb (Name da) (Name db)
  else str_leb (ID da) (ID db).

Definition ordered (m : Manager) : list nat := sort_by (service_leb m) (map snd (map_to_list (services m))).

Definition status_leb (a b : Status) : bool :=
  if negb (bool_decide (StatusName a = StatusName b)) then str_leb (StatusName a) (StatusName b)
  else str_leb (StatusID a) (StatusID b).

Definition runningDependentsLocked (s : nat) (m : Manager) : list Status :=
  sort_by status_leb
    (omap (fun '(o, _) => if bool_decide (OrgID (def (svc m o)) = OrgID (def (svc m s)))
                          then Some (snapshot (svc m o)) else None)
       (map_to_list (dependents (svc m s)))).

Definition Has (id : string) (m : Manager) : bool := bool_decide (is_Some (services m !! id)).

Definition VisibleTo (orgID id : string) (m : Manager) : bool :=
  match services m !! id with
  | Some s => negb (invalidated (svc m s)) && bool_decide (OrgID (def (svc m s)) = orgID)
  | None => false
  end.

Definition GetStatus (id : string) (m : Manager) : option Status :=
  (fun s => snapshot (svc m s)) <$> services m !! id.

Definition ListStatus (m : Manager) : list Status := map (fun s => snapshot (svc m s)) (ordered m).

Definition ServiceState (id : string) (m : Manager) : option (string * SState) :=
  (fun s => (Name (def (svc m s)), state (svc m s))) <$> services m !! id.

Definition RunningDependents (id : string) (m : Manager) : list Status :=
  match services m !! id with Some s => runningDependentsLocked s m | None => [] end.

Definition record_of (x : service) : option Requirements.Service :=
  Some (Requirements.mkService (ID (def x)) (OrgID (def x)) (Name (def x)) (Requires (def x))).

Definition validateRequirementsLocked (s : nat) (m : Manager) : option error :=
  let d := def (svc m s) in
  if bool_decide (Requires d = []) then None
  else Plain <$> Requirements.ValidateRequirements (OrgID d) (ID d) (Requires d)
         (omap (fun '(_, c) => if invalidated (svc m c) then None else Some (record_of (svc m c)))
            (map_to_list (services m))).

Definition runtimeProtected (x : service) : bool :=
  runtimeAlive x || bool_decide (state x ∈ [StateRunning; StatePartial; StateUnhealthy; StateStarting])
  || (0 <? active x) || negb (bool_decide (requirements x = ∅)) || negb (bool_decide (dependents x = ∅)).

Definition driverDefinitionEqual (a b : Definition_) : bool :=
  bool_decide (OrgID a = OrgID b) && bool_decide (DriverName a = DriverName b)
  && match unmarshal (Config a), unmarshal (Config b) with
     | Some l, Some r => bool_decide (l = r)
     | _, _ => bool_decide (Config a = Config b)
     end.

Definition RuntimeDefinitionEqual (a b : Definition_) : bool :=
  driverDefinitionEqual a b && bool_decide (Ready a = Ready b) && bool_decide (StartTimeout a = StartTimeout b).

Definition without_fallback (d : Definition_) : Definition_ :=
  mkDefinition (ID d) (OrgID d) (Name d) (DriverName d) (Config d) (Ready d) (Requires d) ""
    (IdleTimeout d) (StartTimeout d).
Definition snapshotDefinitionEqual (a b : Definition_) : bool :=
  bool_decide (without_fallback a = without_fallback b).

(** *** Activity and holds *)

Definition setState (s : nat) (st : SState) (m : Manager) : bool * Manager :=
  (negb (bool_decide (state (svc m s) = st)), upd s (fun x => w_updatedAt (now m) (w_state st x)) m).

Definition touch (m : Manager) (x : service) : service :=
  w_ownActivity (Some (now m)) (w_lastActivity (Some (now m)) x).

Definition idleEligibleLocked (s : nat) (m : Manager) : bool :=
  let x := svc m s in
  if refreshing m || (0 <? active x) || negb (bool_decide (dependents x = ∅))
     || bool_decide (is_Some (inflight x)) || bool_decide (is_Some (stopping x)) then false
  else if negb (bool_decide (state x = StateRunning)) && negb (bool_decide (state x = StatePartial))
          && negb (runtimeAlive x) then false
  else if IdleTimeout (def x) =? - second
  then match ownActivity x with None => true | Some t => idleCheckInterval <? time_sub (now m) t end
  else if IdleTimeout (def x) <=? 0 then false
  else IdleTimeout (def x) <? time_sub (now m) (default (started m) (lastActivity x)).

(** [holdRequirementLocked]: whether a hold was added. *)
Definition holdRequirementLocked (owner required : nat) (m : Manager) : bool * Manager :=
  let id := ID (def (svc m required)) in
  match requirements (svc m owner) !! id with
  | Some _ => (false, m)
  | None =>
      let h := next m in
      let m := alloc (m_holds (<[h := mkHold owner required false]> (holds m)) m) in
      let m := upd required (fun x => w_dependents (<[owner := h]> (dependents x)) x) m in
      (true, upd owner (fun x => w_requirements (<[id := h]> (requirements x)) x) m)
  end.

(** The closure [holdRequirementLocked] keeps, up to its call of
    [stopServiceIfEligible]: the service to stop, if any. *)
Definition fire (h : nat) (m : Manager) : option nat * Manager :=
  match holds m !! h with
  | Some (mkHold owner required false) =>
      let m := m_holds (<[h := mkHold owner required true]> (holds m)) m in
      if negb (bool_decide (dependents (svc m required) !! owner = Some h)) then (None, m)
      else
        let m := upd required (fun x => w_lastActivity (Some (now m))
                                 (w_dependents (delete owner (dependents x)) x)) m in
        let last := IdleTimeout (def (svc m required)) =? - second in
        let stop := last && idleEligibleLocked required m in
        let m := if last && refreshing m then m_deferredStops ({[required]} ∪ deferredStops m) m else m in
        (if stop then Some required else None, m)
  | _ => (None, m)
  end.

(** The holds to release, and the service without them. *)
Fixpoint detachRequirementIDsLocked (s : nat) (ids : list string) (m : Manager) : list nat * Manager :=
  match ids with
  | [] => ([], m)
  | id :: ids' =>
      match requirements (svc m s) !! id with
      | Some h =>
          let '(release, m) := detachRequirementIDsLocked s ids'
            (upd s (fun x => w_requirements (delete id (requirements x)) x) m) in
          (h :: release, m)
      | None => detachRequirementIDsLocked s ids' m
      end
  end.

Definition detachRequirementsLocked (s : nat) (keep : list string) (m : Manager) : list nat * Manager :=
  let ids := filter (fun id => id ∉ keep) (map fst (map_to_list (requirements (svc m s)))) in
  detachRequirementIDsLocked s ids m.

(** The loop [for _, done := range release], one closure per step. The order in which
    the holds come is that of a map iteration or of a channel, so any: [i] is the one
    whose turn it is. [rest] is where the activity is afterwards. *)
Definition release_one (k i : nat) (release : list nat) (rest : list nat -> pc) (m : Manager) : option Manager :=
  match release !! i with
  | None => None
  | Some h =>
      let p := rest (delete i release) in
      match fire h m with
      | (None, m) => Some (set_act k p m)
      | (Some s, m) => Some (await k p (PStop (ByRef s) true (Some k)) m)
      end
  end.

(** *** Starting *)

Definition spawn_run (s : nat) (addr : string) (stop : option nat) (added : list string) (m : Manager)
    : Manager :=
  let x := svc m s in
  let c := next m in
  upd s (fun x => bump_version (w_inflight (Some c) x))
    (spawn (PRunBegin (mkRun s (def x) (driver x) addr added) stop) m).

Definition markRunning (s : nat) (startedByUs : bool) (m : Manager) : Manager :=
  let '(changed, m) := setState s StateRunning m in
  notify changed
    (upd s (fun x =>
       let x := if startedByUs || negb (runtimeAlive x) then w_lastActivity (Some (now m)) x else x in
       let x := w_stoppedByUs false (w_lastError None (w_runtimeAlive true x)) in
       if startedByUs then w_startedBy StartedByMishmesh x
       else if bool_decide (startedBy x = "") then w_startedBy StartedByExternal x else x) m).

Definition failStart (s : nat) (e : error) (m : Manager) : Manager :=
  let '(changed, m) := setState s StateError m in
  notify changed (upd s (w_lastError (Some e)) m).

(** [beginEnsure] once it holds the mutex. *)
Definition begin_ensure (id addr : string) (m : Manager) : (error + nat) * Manager :=
  match services m !! id with
  | None => (inl (UnknownService id), m)
  | Some s =>
      if invalidated (svc m s) then (inl ErrDefinitionChanged, m)
      else
        match validateRequirementsLocked s m with
        | Some e => (inl e, m)
        | None =>
            match inflight (svc m s) with
            | Some c => (inr c, m)
            | None => (inr (next m), spawn_run s addr (stopping (svc m s)) [] m)
            end
        end
  end.

(** The goroutines of [wakeRequirements], one per required id. *)
Fixpoint spawn_wakes (owner : nat) (d : Definition_) (call : nat) (ids : list string) (m : Manager) : Manager :=
  match ids with
  | [] => m
  | id :: ids' => spawn_wakes owner d call ids' (spawn (PWake owner d id call) m)
  end.

Definition after_wake (r : run) (added : list string) (err : option error) : pc :=
  let added := added ++ r_added r in
  match err with
  | None => PRunState r added
  | Some e => PRunDetach r added (Some e) false Unknown
  end.

(** [out] are the ids whose results have not been received. *)
Definition receive (r : run) (out : gset string) (added : list string) (err : option error) : pc :=
  if bool_decide (out = ∅) then after_wake r added err else PRunWake r out added err.

Definition wake_begin (k : nat) (r : run) (m : Manager) : Manager :=
  let unique := list_to_set (Requires (r_def r)) in
  set_act k (receive r unique [] None) (spawn_wakes (r_svc r) (r_def r) k (elements unique) m).

(** One round of a goroutine of [wakeRequirements]. *)
Definition wake_turn (k owner : nat) (d : Definition_) (id : string) (call : nat) (m : Manager) : Manager :=
  match services m !! id with
  | None => set_act k (PWakeSend owner id call false (Some errRequirementOrg)) m
  | Some required =>
      if negb (bool_decide (OrgID (def (svc m required)) = OrgID d))
      then set_act k (PWakeSend owner id call false (Some errRequirementOrg)) m
      else
        match stopping (svc m required) with
        | Some ch => set_act k (PWakeWait owner d id call ch) m
        | None =>
            let '(added, m) := holdRequirementLocked owner required m in
            await k (PWakeRes owner id call added (Name (def (svc m required))))
              (PBegin id "" true false true (Some k)) m
        end
  end.

Definition wake_send (k : nat) (id : string) (call : nat) (added : bool) (err : option error) (m : Manager)
    : option Manager :=
  match acts m !! call with
  | Some (PRunWake r out added' err') =>
      let added' := if added then added' ++ [id] else added' in
      let err' := match err with None => err' | Some e => Some (Joined err' e) end in
      Some (set_act call (receive r (out ∖ {[id]}) added' err') (del_act k m))
  | _ => None
  end.

(** [ensure] up to [driver.Start]: [ans] is the driver's state, [probe] the outcome of
    the probe when there is one. *)
Definition run_state (k : nat) (r : run) (added : list string) (ans : stateAnswer) (probe : option error)
    (m : Manager) : Manager :=
  let target := hasTarget (readinessTarget (r_def r) (r_addr r)) in
  let up :=
    match driver_state (r_driver r) ans with
    | Blind _ => false
    | Saw st =>
        if target then bool_decide (st ∈ [Running; Unknown]) && negb (bool_decide (is_Some probe))
        else bool_decide (st = Running)
    end in
  if up then set_act k (PRunDetach r added None false Unknown) (markRunning (r_svc r) false m)
  else
    let '(changed, m) := setState (r_svc r) StateStarting m in
    set_act k (PRunStart r added) (notify changed m).

Definition run_start (k : nat) (r : run) (added : list string) (ans : option error) (m : Manager) : Manager :=
  match driver_do (r_driver r) ans with
  | Some e =>
      let e := StartFailed (Name (r_def r)) e in
      set_act k (PRunFailed r added e) (failStart (r_svc r) e m)
  | None => set_act k (PRunPoll r added) m
  end.

(** One round of the loop of [ensure]. *)
Definition run_poll (k : nat) (r : run) (added : list string) (ans : stateAnswer) (probe : option error)
    (m : Manager) : Manager :=
  let probeErr :=
    if hasTarget (readinessTarget (r_def r) (r_addr r)) then probe
    else
      match driver_state (r_driver r) ans with
      | Blind e => Some e
      | Saw st => if bool_decide (st = Running) then None else Some (DriverIs st)
      end in
  match probeErr with
  | None => set_act k (PRunDetach r added None false Unknown) (markRunning (r_svc r) true m)
  | Some e => set_act k (PRunTick r added e) m
  end.

Definition run_timeout (k : nat) (r : run) (added : list string) (probeErr : error) (m : Manager) : Manager :=
  let e := NotReady (Name (r_def r)) (StartTimeout (r_def r)) probeErr in
  set_act k (PRunFailed r added e) (failStart (r_svc r) e m).

(** The driver's state after a failed start. *)
Definition run_failed (k : nat) (r : run) (added : list string) (err : error) (ans : stateAnswer) (m : Manager)
    : Manager :=
  let ans := driver_state (r_driver r) ans in
  let retain := match ans with Blind _ => true | Saw st => negb (bool_decide (st = Stopped)) end in
  let retain := if is_broken (r_driver r) then false else retain in
  set_act k (PRunDetach r added (Some err) retain (match ans with Saw st => st | Blind _ => Unknown end)) m.

Definition run_detach (k : nat) (r : run) (added : list string) (err : option error) (retain : bool)
    (failed : State) (m : Manager) : Manager :=
  let s := r_svc r in
  let '(release, m) :=
    match err with
    | None => detachRequirementsLocked s (Requires (r_def r)) m
    | Some e =>
        let m := upd s (w_lastError (Some e)) m in
        let m := if retain || bool_decide (failed = Running) || bool_decide (failed = Partial)
                 then upd s (w_runtimeAlive true) m else m in
        if negb retain then detachRequirementIDsLocked s added m else ([], m)
    end in
  set_act k (PRunRelease r err release) m.

Definition run_end (k : nat) (r : run) (err : option error) (m : Manager) : Manager :=
  close k (upd (r_svc r) (fun x => bump_version (w_inflight None x))
    (m_calls (<[k := err]> (calls m)) (del_act k m))).

(** *** Stopping *)

(** [stopServiceIfEligible] once it holds the mutex. *)
Definition stop_section (k : nat) (s : nat) (t : stopTarget) (idle : bool) (parent : option nat) (m : Manager)
    : Manager :=
  let x := svc m s in
  if negb (bool_decide (services m !! ID (def x) = Some s)) then ret k parent (Some ErrUnknownService) m
  else if negb (bool_decide (dependents x = ∅))
  then ret k parent (if idle then None else Some (RequirementInUse (runningDependentsLocked s m))) m
  else if idle && negb (idleEligibleLocked s m) then ret k parent None m
  else
    match (match inflight x with Some c => Some c | None => stopping x end) with
    | Some ch => set_act k (PStopWait t idle parent ch) m
    | None =>
        set_act k (PStopping s (driver x) (Name (def x)) parent)
          (upd s (fun x => bump_version (w_stopping (Some k) x)) m)
    end.

Definition stop_turn (k : nat) (t : stopTarget) (idle : bool) (parent : option nat) (m : Manager)
    : option Manager :=
  match t with
  | ByID id =>
      match reloadDone m with
      | Some _ => None
      | None =>
          match services m !! id with
          | None => Some (ret k parent (Some (UnknownService id)) m)
          | Some s => Some (stop_section k s t idle parent m)
          end
      end
  | ByRef s =>
      if idle && reserved m then Some (ret k parent None m) else Some (stop_section k s t idle parent m)
  end.

(** The section after [driver.Stop]. *)
Definition stop_finish (k s : nat) (stopped : bool) (err : option error) (parent : option nat) (m : Manager)
    : Manager :=
  let '(changed, release, m) :=
    if stopped then
      let '(changed, m) := setState s StateSleeping m in
      let m := upd s (fun x => w_runtimeAlive false (w_lastError None (w_startedBy "" (w_stoppedByUs true x)))) m in
      let '(release, m) := detachRequirementsLocked s [] m in
      (changed, release, m)
    else (false, [], m) in
  let m := match err with
           | Some e => upd s (fun x => w_updatedAt (now m) (w_lastError (Some e) x)) m
           | None => m
           end in
  set_act k (PStopRelease release err parent)
    (notify changed (close k (upd s (fun x => bump_version (w_stopping None x)) m))).

Definition stop_did (k s : nat) (d : Driver) (name : string) (parent : option nat) (ans : option error)
    (m : Manager) : Manager :=
  match driver_do d ans with
  | None => stop_finish k s true None parent m
  | Some e => set_act k (PStopCheck s d (StopFailed name e) parent) m
  end.

Definition stop_check (k s : nat) (d : Driver) (err : error) (parent : option nat) (ans : stateAnswer)
    (m : Manager) : Manager :=
  let stopped := match driver_state d ans with Saw st => bool_decide (st = Stopped) | Blind _ => false end in
  stop_finish k s stopped (Some err) parent m.

Definition idle_turn (k : nat) (m : Manager) : Manager :=
  match reloadDone m with
  | Some _ => ret k None None m
  | None => set_act k (PIdleStops (filter (fun s => idleEligibleLocked s m = true) (ordered m))) m
  end.

(** *** Observing *)

Definition is_up (st : SState) : bool := bool_decide (st ∈ [StateRunning; StatePartial; StateUnhealthy]).

Definition observed (m : Manager) (s : nat) : observation :=
  mkObs s (driver (svc m s)) (readinessTarget (def (svc m s)) "") (version (svc m s)).

(** An answer of [State], with the probe of a running service that has a target. *)
Definition probed (o : observation) (a : stateAnswer * option error)
    : observation * stateAnswer * option error :=
  let ans := driver_state (o_driver o) a.1 in
  (o, ans, match ans with
           | Saw Running => if hasTarget (o_ready o) then a.2 else None
           | _ => None
           end).

Definition external_if_unset (x : service) : service :=
  if bool_decide (startedBy x = "") then w_startedBy StartedByExternal x else x.

(** The [switch] of [Refresh]: the holds to release, whether the state changed. *)
Definition refresh_case (s : nat) (st : State) (probeErr : option error) (m : Manager)
    : list nat * bool * Manager :=
  match st with
  | Running =>
      let m := upd s (w_runtimeAlive true) m in
      match probeErr with
      | Some e =>
          let '(changed, m) := setState s StateUnhealthy
            (upd s (fun x => w_lastError (Some (Unready e)) (external_if_unset x)) m) in
          ([], changed, m)
      | None =>
          if bool_decide (state (svc m s) = StateRunning) then ([], false, m)
          else
            let '(changed, m) := setState s StateRunning
              (upd s (fun x => w_lastError None (w_stoppedByUs false
                (w_lastActivity (Some (now m)) (external_if_unset x)))) m) in
            ([], changed, m)
      end
  | Stopped =>
      let '(release, m) := detachRequirementsLocked s [] (upd s (w_runtimeAlive false) m) in
      if bool_decide (state (svc m s) = StateError) then (release, false, m)
      else
        let to := if stoppedByUs (svc m s) then StateSleeping else StateStopped in
        if bool_decide (state (svc m s) = to) then (release, false, m)
        else
          let '(changed, m) := setState s to (upd s (w_startedBy "") m) in
          (release, changed, m)
  | Partial =>
      let '(changed, m) := setState s StatePartial (upd s (w_runtimeAlive true) m) in
      ([], changed, m)
  | Unknown => ([], false, m)
  end.

(** The first loop of [Refresh]. *)
Fixpoint refresh_items (items : list (observation * stateAnswer * option error)) (m : Manager)
    : list nat * bool * Manager :=
  match items with
  | [] => ([], false, m)
  | (o, ans, probeErr) :: items' =>
      let s := o_svc o in
      let x := svc m s in
      if negb (bool_decide (services m !! ID (def x) = Some s)) || invalidated x
         || negb (version x =? o_version o) || bool_decide (is_Some (inflight x))
         || bool_decide (is_Some (stopping x)) || bool_decide (state x = StateStarting)
      then refresh_items items' m
      else
        match ans with
        | Blind e =>
            refresh_items items'
              (if bool_decide (state x = StateUnknown)
               then upd s (fun x => w_updatedAt (now m) (w_lastError (Some e) x)) m else m)
        | Saw st =>
            let '(release, changed, m) := refresh_case s st probeErr m in
            let '(release', changed', m) := refresh_items items' (upd s bump_version m) in
            (release ++ release', changed || changed', m)
        end
  end.

(** The requirements [Refresh] holds before it starts a run; the ids of the new holds. *)
Fixpoint hold_all (s : nat) (ids : list string) (m : Manager) : list string * Manager :=
  match ids with
  | [] => ([], m)
  | id :: ids' =>
      let '(added, m) :=
        match services m !! id with
        | Some required =>
            match stopping (svc m required) with
            | None => holdRequirementLocked s required m
            | Some _ => (false, m)
            end
        | None => (false, m)
        end in
      let '(rest, m) := hold_all s ids' m in
      (if added then id :: rest else rest, m)
  end.

(** The second loop of [Refresh]: the calls it waits for. *)
Fixpoint refresh_reconcile (l : list nat) (m : Manager) : list nat * Manager :=
  match l with
  | [] => ([], m)
  | s :: l' =>
      let x := svc m s in
      if bool_decide (is_Some (inflight x)) || bool_decide (is_Some (stopping x)) || negb (is_up (state x))
      then refresh_reconcile l' m
      else
        match validateRequirementsLocked s m with
        | Some e => refresh_reconcile l' (upd s (w_lastError (Some e)) m)
        | None =>
            let '(added, m) := hold_all s (Requires (def x)) m in
            if bool_decide (Requires (def x) = []) then refresh_reconcile l' m
            else
              let c := next m in
              let '(calls, m) := refresh_reconcile l' (spawn_run s "" None added m) in
              (c :: calls, m)
        end
  end.

Definition refresh_section (k : nat) (items : list (observation * stateAnswer * option error)) (m : Manager)
    : Manager :=
  let '(release, changed, m) := refresh_items items m in
  let '(reconcile, m) := refresh_reconcile (ordered m) m in
  set_act k (PRefRelease release reconcile) (notify changed m).

(** *** Reloading *)

(** The channel [waitIdleLocked] would wait for. *)
Definition busy (x : service) : option nat :=
  match inflight x with Some c => Some c | None => stopping x end.

Definition quiet (m : Manager) : bool :=
  forallb (fun '(_, s) => negb (bool_decide (is_Some (busy (svc m s))))) (map_to_list (services m)).

(** The preparation of one definition: [built] is what the driver factory returns. *)
Definition prepare (d : Definition_) (built : error + nat) (m : Manager) : prepared :=
  match services m !! ID d with
  | Some s =>
      if driverDefinitionEqual (def (svc m s)) d then mkPrepared d None None
      else match built with inl e => mkPrepared d None (Some e) | inr h => mkPrepared d (Some (HostDriver h)) None end
  | None => match built with inl e => mkPrepared d None (Some e) | inr h => mkPrepared d (Some (HostDriver h)) None end
  end.

Definition take_definition (u : prepared) (x : service) : service :=
  let x := w_invalidated false (w_definitionError None (w_def (p_def u) x)) in
  let x := bump_version (match p_driver u with Some d => w_driver d x | None => x end) in
  match p_err u with
  | Some e =>
      let e := BadDefinition (Name (p_def u)) e in
      w_lastError (Some e) (w_state StateError (w_driver (BrokenDriver e) x))
  | None =>
      if bool_decide (state x = StateError) && bool_decide (requirements x = ∅)
      then w_lastError None (w_state StateUnknown x) else x
  end.

(** The first loop of [applyReserved] under the mutex; [m.services] is not changed yet. *)
Fixpoint apply_updates (us : list prepared) (next_ : gmap string nat) (m : Manager)
    : bool * gmap string nat * Manager :=
  match us with
  | [] => (false, next_, m)
  | u :: us' =>
      let id := ID (p_def u) in
      match services m !! id with
      | Some s =>
          let x := svc m s in
          if bool_decide (def x = p_def u)
          then apply_updates us' (<[id := s]> next_)
                 (upd s (fun x => w_invalidated false (w_definitionError None x)) m)
          else
            let m := if negb (driverDefinitionEqual (def x) (p_def u)) && runtimeProtected x
                     then upd s (w_definitionError (Some errReplaced)) m
                     else upd s (take_definition u) m in
            let '(_, next_, m) := apply_updates us' (<[id := s]> next_) m in
            (true, next_, m)
      | None =>
          let s := next m in
          let m := alloc (m_heap (<[s := take_definition u (new_service (now m))]> (heap m)) m) in
          let '(_, next_, m) := apply_updates us' (<[id := s]> next_) m in
          (true, next_, m)
      end
  end.

(** The services that stay although their definition is gone. *)
Fixpoint keep_protected (l : list (string * nat)) (next_ : gmap string nat) (m : Manager)
    : gmap string nat * Manager :=
  match l with
  | [] => (next_, m)
  | (id, s) :: l' =>
      if bool_decide (next_ !! id = None) && runtimeProtected (svc m s)
      then keep_protected l' (<[id := s]> next_) (upd s (w_definitionError (Some errRemoved)) m)
      else keep_protected l' next_ m
  end.

Fixpoint apply_reconcile (l : list nat) (m : Manager) : list nat * Manager :=
  match l with
  | [] => ([], m)
  | s :: l' =>
      let x := svc m s in
      if negb (is_up (state x)) && bool_decide (requirements x = ∅) then apply_reconcile l' m
      else
        match validateRequirementsLocked s m with
        | Some e => apply_reconcile l' (upd s (w_lastError (Some e)) m)
        | None =>
            if bool_decide (Requires (def x) = []) && bool_decide (requirements x = ∅)
            then apply_reconcile l' m
            else
              let c := next m in
              let '(calls, m) := apply_reconcile l' (spawn_run s "" None [] m) in
              (c :: calls, m)
        end
  end.

(** The section of [applyReserved]. [Apply] lets the others in again at its end; a
    reservation ([parent]) does not. *)
Definition apply_section (k : nat) (us : list prepared) (parent : option nat) (m : Manager) : Manager :=
  let size_changed := negb (Z.of_nat (length us) =? Z.of_nat (size (services m))) in
  let old := map_to_list (services m) in
  let '(changed, next_, m) := apply_updates us ∅ m in
  let '(next_, m) := keep_protected old next_ m in
  let m := m_applyVersion (bump (applyVersion m)) (m_services next_ m) in
  let '(reconcile, m) := apply_reconcile (map snd (map_to_list next_)) m in
  let m := match parent, reloadDone m with
           | None, Some ch => m_reloadDone None (close ch m)
           | _, _ => m
           end in
  set_act k (PAppRec reconcile parent) (notify (size_changed || changed) m).

(** *** Reservations *)

Definition expected_ok (expected : list Definition_) (m : Manager) : bool :=
  forallb (fun d => match services m !! ID d with
                    | Some s => snapshotDefinitionEqual (def (svc m s)) d
                    | None => false
                    end) expected.

(** [CheckUpdate] up to its call of the driver. *)
Definition check_turn (k : nat) (id : string) (proposed : Definition_) (restart : bool) (parent : option nat)
    (m : Manager) : Manager :=
  match services m !! id with
  | None => ret k parent (Some ErrUnknownService) m
  | Some s =>
      if RuntimeDefinitionEqual (def (svc m s)) proposed then ret k parent None m
      else set_act k (PCheckSaw s (driver (svc m s)) restart parent) m
  end.

Definition check_saw (k s : nat) (d : Driver) (restart : bool) (parent : option nat) (ans : stateAnswer)
    (m : Manager) : Manager :=
  let ans := driver_state d ans in
  let m := match ans with
           | Saw Running | Saw Partial => upd s (w_runtimeAlive true) m
           | _ => m
           end in
  let x := svc m s in
  let unsure := match ans with Blind _ | Saw Unknown => true | _ => false end in
  if negb (bool_decide (dependents x = ∅))
  then ret k parent (Some (RequirementInUse (runningDependentsLocked s m))) m
  else if negb restart && negb (stoppedByUs x) && unsure then ret k parent (Some ErrRestartRequired) m
  else if runtimeProtected x && negb restart then ret k parent (Some ErrRestartRequired) m
  else ret k parent None m.

Definition Invalidate (id : string) (m : Manager) : Manager :=
  notify true
    match services m !! id with
    | Some s =>
        m_applyVersion (bump (applyVersion m))
          (upd s (fun x => bump_version (w_definitionError (Some errReload) (w_invalidated true x))) m)
    | None => m
    end.

(** What the action of a reservation does with it. *)
Inductive action :=
| ActCheckUpdate (id : string) (proposed : Definition_) (restart : bool)
| ActStop (id : string)
| ActApply (defs : list Definition_)
| ActInvalidate (id : string)
| ActStart (id addr : string).

Definition act_turn (k : nat) (a : action) (m : Manager) : Manager :=
  match a with
  | ActCheckUpdate id proposed restart => await k PResAction (PCheck id proposed restart (Some k)) m
  | ActStop id =>
      match services m !! id with
      | None => m
      | Some s => await k PResAction (PStop (ByRef s) false (Some k)) m
      end
  | ActApply defs => await k PResAction (PPrep defs [] (Some k)) m
  | ActInvalidate id => Invalidate id m
  | ActStart id addr => await k PResAction (PBegin id addr true true true (Some k)) m
  end.

(** ** Steps *)

(** What comes from outside in a step: nothing; the end of a context; what a driver or a
    probe returned; which element a map iteration yields; what the factory built; what the
    action of a reservation does next, or returns. *)
Inductive answer :=
| Go
| Cancelled (e : goerr)
| Did (e : option error)
| Looked (ans : stateAnswer) (probe : option error)
| Probed (l : list (stateAnswer * option error))
| Pick (i : nat)
| PickID (id : string)
| Built (r : error + nat)
| Act (a : action)
| Return (e : option error).

Definition acquire_turn (k : nat) (id : string) (m : Manager) : Manager :=
  match services m !! id with
  | None => ret k None None m
  | Some s =>
      if invalidated (svc m s) then ret k None None m
      else set_act k (PUsing s) (upd s (fun x => touch m (w_active (active x + 1) x)) m)
  end.

Definition begin_turn (k : nat) (id addr : string) (ctx wait : bool) (parent : option nat) (m : Manager)
    : Manager :=
  match begin_ensure id addr m with
  | (inl e, m) => ret k parent (Some e) m
  | (inr c, m) => if wait then set_act k (PWaitCall id c ctx parent) m else ret k parent None m
  end.

(** [lockAdmission] succeeds when no reload is under way. *)
Definition admitted (m : Manager) : bool := bool_decide (reloadDone m = None).
Definition when (b : bool) (m : Manager) : option Manager := if b then Some m else None.

Definition is_closed (m : Manager) (ch : nat) : bool := bool_decide (ch ∈ closed m).

(** The turns of starting and using services. *)
Definition run_turn (k : nat) (p : pc) (a : answer) (m : Manager) : option Manager :=
  match p, a with
  | PAcquire id, Go => when (admitted m) (acquire_turn k id m)
  | PAcquire _, Cancelled _ => Some (ret k None None m)
  | PUsing s, Go => Some (ret k None None (upd s (fun x => touch m (w_active (active x - 1) x)) m))
  | PBegin id addr recursive ctx wait parent, Go =>
      when (recursive || admitted m) (begin_turn k id addr ctx wait parent m)
  | PBegin _ _ false true _ parent, Cancelled e => Some (ret k parent (Some (Plain e)) m)
  | PWaitCall _ call _ parent, Go => when (is_closed m call) (ret k parent (default None (calls m !! call)) m)
  | PWaitCall id _ true parent, Cancelled e => Some (ret k parent (Some (WaitingFor id (Plain e))) m)
  | PRunBegin r None, Go => Some (wake_begin k r m)
  | PRunBegin r (Some ch), Go => when (is_closed m ch) (wake_begin k r m)
  | PRunState r added, Looked ans probe => Some (run_state k r added ans probe m)
  | PRunStart r added, Did ans => Some (run_start k r added ans m)
  | PRunPoll r added, Looked ans probe => Some (run_poll k r added ans probe m)
  | PRunTick r added _, Go => Some (set_act k (PRunPoll r added) m)
  | PRunTick r added e, Cancelled _ => Some (run_timeout k r added e m)
  | PRunFailed r added err, Looked ans _ => Some (run_failed k r added err ans m)
  | PRunDetach r added err retain failed, Go => Some (run_detach k r added err retain failed m)
  | PRunRelease r err [], Go => Some (run_end k r err m)
  | PRunRelease r err release, Pick i => release_one k i release (PRunRelease r err) m
  | PWake owner d id call, Go => Some (wake_turn k owner d id call m)
  | PWakeWait owner d id call ch, Go => when (is_closed m ch) (set_act k (PWake owner d id call) m)
  | PWakeSend _ id call added err, Go => wake_send k id call added err m
  | _, _ => None
  end.

(** The turns of stopping and of [Refresh]. *)
Definition stop_refresh_turn (k : nat) (p : pc) (a : answer) (m : Manager) : option Manager :=
  match p, a with
  | PStop t idle parent, Go => stop_turn k t idle parent m
  | PStop (ByID _) _ parent, Cancelled e => Some (ret k parent (Some (Plain e)) m)
  | PStopWait t idle parent ch, Go => when (is_closed m ch) (set_act k (PStop t idle parent) m)
  | PStopWait _ _ parent _, Cancelled e => Some (ret k parent (Some (Plain e)) m)
  | PStopping s d name parent, Did ans => Some (stop_did k s d name parent ans m)
  | PStopCheck s d err parent, Looked ans _ => Some (stop_check k s d err parent ans m)
  | PStopRelease [] err parent, Go => Some (ret k parent err m)
  | PStopRelease release err parent, Pick i => release_one k i release (fun l => PStopRelease l err parent) m
  | PIdle, Go => Some (idle_turn k m)
  | PIdleStops [], Go => Some (ret k None None m)
  | PIdleStops (s :: l), Go => Some (await k (PIdleStops l) (PStop (ByRef s) true (Some k)) m)
  | PRefSlot, Go => when (bool_decide (refreshSlot m = None)) (set_act k PRefAdmit (m_refreshSlot (Some k) m))
  | PRefSlot, Cancelled _ => Some (ret k None None m)
  | PRefAdmit, Go =>
      when (admitted m) (set_act k (PRefProbe (map (observed m) (ordered m))) (m_refreshing true m))
  | PRefAdmit, Cancelled _ => Some (ret k None None (m_refreshSlot None m))
  | PRefProbe obs, Probed l =>
      when (bool_decide (length l = length obs)) (set_act k (PRefApply (zip_with probed obs l)) m)
  | PRefProbe _, Cancelled _ => Some (set_act k PRefFinish m)
  | PRefApply items, Go => when (admitted m) (refresh_section k items m)
  | PRefApply _, Cancelled _ => Some (set_act k PRefFinish m)
  | PRefRelease [] reconcile, Go => Some (set_act k (PRefWait reconcile) m)
  | PRefRelease release reconcile, Pick i => release_one k i release (fun l => PRefRelease l reconcile) m
  | PRefWait [], Go => Some (set_act k PRefFinish m)
  | PRefWait (c :: l), Go => when (is_closed m c) (set_act k (PRefWait l) m)
  | PRefWait _, Cancelled _ => Some (set_act k PRefFinish m)
  | PRefFinish, Go => Some (set_act k (PRefStops (deferredStops m)) (m_deferredStops ∅ (m_refreshing false m)))
  | PRefStops pending, Pick s =>
      when (bool_decide (s ∈ pending)) (await k (PRefStops (pending ∖ {[s]})) (PStop (ByRef s) true (Some k)) m)
  | PRefStops pending, Go =>
      when (bool_decide (pending = ∅)) (ret k None None (m_refreshSlot None m))
  | _, _ => None
  end.

Definition busy_channel (id : string) (m : Manager) : option nat :=
  s ← services m !! id; busy (svc m s).

(** The turns of [Apply] and [Reserve]. *)
Definition reload_turn (k : nat) (p : pc) (a : answer) (m : Manager) : option Manager :=
  match p, a with
  | PApply defs, Go => Some (set_act k (PApplySlot defs (applyVersion m)) m)
  | PApplySlot defs v, Go =>
      when (bool_decide (applySlot m = None)) (set_act k (PApplyCheck defs v) (m_applySlot (Some k) m))
  | PApplyCheck defs v, Go =>
      Some (if negb (v =? applyVersion m) then ret k None None (m_applySlot None m)
            else set_act k (PPrep defs [] None) (alloc (m_reloadDone (Some (next m)) m)))
  | PPrep [] ready parent, Go => Some (set_act k (PAppIdle ready parent) m)
  | PPrep (d :: defs) ready parent, Built r =>
      Some (set_act k (PPrep defs (ready ++ [prepare d r m]) parent) m)
  | PAppIdle ready parent, Go => when (quiet m) (apply_section k ready parent m)
  | PAppIdle ready parent, PickID id =>
      ch ← busy_channel id m; Some (set_act k (PAppWait ready parent ch) m)
  | PAppWait ready parent ch, Go => when (is_closed m ch) (set_act k (PAppIdle ready parent) m)
  | PAppWait _ (Some p) _, Cancelled e => Some (ret k (Some p) (Some (Plain e)) m)
  | PAppRec [] (Some p), Go => Some (ret k (Some p) None m)
  | PAppRec [] None, Go => Some (ret k None None (m_applySlot None m))
  | PAppRec (c :: l) parent, Go => when (is_closed m c) (set_act k (PAppRec l parent) m)
  | PAppRec _ (Some p), Cancelled e => Some (ret k (Some p) (Some (Plain e)) m)
  | PReserve expected, Go =>
      when (bool_decide (applySlot m = None)) (set_act k (PResBegin expected) (m_applySlot (Some k) m))
  | PReserve _, Cancelled e => Some (ret k None (Some (Plain e)) m)
  | PResBegin expected, Go =>
      Some (set_act k (PResIdle expected) (alloc (m_reserved true (m_reloadDone (Some (next m)) m))))
  | PResIdle expected, Go =>
      when (quiet m)
        (set_act k (if expected_ok expected m then PResAction else PResEnd (Some ErrDefinitionChanged)) m)
  | PResIdle expected, PickID id => ch ← busy_channel id m; Some (set_act k (PResWait expected ch) m)
  | PResWait expected ch, Go => when (is_closed m ch) (set_act k (PResIdle expected) m)
  | PResWait _ _, Cancelled e => Some (set_act k (PResEnd (Some (Plain e))) m)
  | PResAction, Act a => Some (act_turn k a m)
  | PResAction, Return e => Some (set_act k (PResEnd e) m)
  | PResEnd e, Go =>
      let m := match reloadDone m with Some ch => close ch m | None => m end in
      Some (set_act k (PSlot e) (m_reserved false (m_reloadDone None m)))
  | PSlot e, Go => Some (ret k None e (m_applySlot None m))
  | PCheck id proposed restart parent, Go => Some (check_turn k id proposed restart parent m)
  | PCheckSaw s d restart parent, Looked ans _ => Some (check_saw k s d restart parent ans m)
  | _, _ => None
  end.

Definition turn (k : nat) (p : pc) (a : answer) (m : Manager) : option Manager :=
  match run_turn k p a m with
  | Some m' => Some m'
  | None =>
      match stop_refresh_turn k p a m with
      | Some m' => Some m'
      | None => reload_turn k p a m
      end
  end.

(** The calls from outside the package, the passing of time, and a turn of an activity. *)
Inductive event :=
| Tick (d : Z)
| Acquire (id : string)
| EnsureRunning (id addr : string)
| StartAsync (id addr : string)
| Stop (id : string)
| StopIdle
| Refresh
| Apply (defs : list Definition_)
| Reserve (expected : list Definition_)
| Turn (k : nat) (a : answer).

Definition step (e : event) (m : Manager) : option Manager :=
  match e with
  | Tick d => when (0 <=? d) (m_now (now m + d) m)
  | Acquire id => Some (spawn (PAcquire id) m)
  | EnsureRunning id addr => Some (spawn (PBegin id addr false true true None) m)
  | StartAsync id addr => Some (spawn (PBegin id addr false false false None) m)
  | Stop id => Some (spawn (PStop (ByID id) false None) m)
  | StopIdle => Some (spawn PIdle m)
  | Refresh => Some (spawn PRefSlot m)
  | Apply defs => Some (spawn (PApply defs) m)
  | Reserve expected => Some (spawn (PReserve expected) m)
  | Turn k a => match acts m !! k with Some p => turn k p a m | None => None end
  end.

Fixpoint run_events (es : list event) (m : Manager) : option Manager :=
  match es with
  | [] => Some m
  | e :: es' => match step e m with Some m' => run_events es' m' | None => None end
  end.

Definition newManager (t : Z) : Manager :=
  mkManager t t None 0 false None None false ∅ ∅ ∅ ∅ ∅ ∅ ∅ 0 0 ∅.

Inductive reachable (t : Z) : Manager -> Prop :=
| reach_new : reachable t (newManager t)
| reach_step m e m' : reachable t m -> step e m = Some m' -> reachable t m'.

End Machine.
End Services.
