(* ===== verification/ServiceSamples.v ===== *)
(** * Sample runs of the service manager

    Concrete event sequences of the machine of [Services]: a service that requires
    another, an idle stop and a reservation. *)
From S2P Require Import Prelude GoIO GoStrings Requirements Services.
Import Services.

Module Samples.
Local Open Scope nat_scope.

#[export] Instance plain_quote : UnicodeQuote := fun s => s.
Definition no_json (_ : list byte) : option unit := None.

Definition docker (id : string) (requires : list string) (idle : Z) : Definition_ :=
  mkDefinition id "org" id "docker" [] (mkReadiness "" None) requires "" idle 0.

Definition go (k : nat) : event := Turn k Go.

(** [db] and [web], which requires it and asks to be stopped after a minute. *)
Definition loaded : list event :=
  [Apply [docker "db" [] 0; docker "web" ["db"] 60000000000]; go 0; go 0; go 0;
   Turn 0 (Built (inr 7)); Turn 0 (Built (inr 8)); go 0; go 0; go 0].

(** A start of [web] that has started [db] and is about to start the driver of [web]. *)
Definition starting : list event :=
  loaded ++ [EnsureRunning "web" ""; go 4; go 5; go 6; go 8; go 9; Turn 9 (Looked (Saw Stopped) None);
             Turn 9 (Did None); Turn 9 (Looked (Saw Running) None); go 9; go 9; go 8; go 6;
             Turn 5 (Looked (Saw Stopped) None)].

Definition web_started : list event :=
  starting ++ [Turn 5 (Did None); Turn 5 (Looked (Saw Running) None); go 5; go 5; go 4].

Definition final (es : list event) : Manager := default (newManager 0) (run_events no_json es (newManager 0)).

Lemma events_reachable es m m' :
  reachable no_json 0 m -> run_events no_json es m = Some m' -> reachable no_json 0 m'.
Proof.
  revert m. induction es as [|e es IH]; intros m Hr; cbn [run_events]; [by intros [= <-]|].
  destruct (step no_json e m) as [m1|] eqn:E; [|done]. apply IH. by eapply reach_step.
Qed.

Lemma final_reachable es : bool_decide (is_Some (run_events no_json es (newManager 0))) = true ->
  reachable no_json 0 (final es).
Proof.
  intros [m Hm]%bool_decide_eq_true. unfold final. rewrite Hm. by eapply events_reachable; [apply reach_new|].
Qed.

(** [web] has been used and left alone for a minute and a second; a sweep is about to stop it. *)
Definition idling : list event :=
  web_started ++ [Acquire "web"; go 10; go 10; Tick 61000000000; StopIdle; go 11; go 11].

(** A reservation that expects [db], in use, as it is, about to begin its action. *)
Definition expecting : list event :=
  loaded ++ [Acquire "db"; go 4; Reserve [docker "db" [] 0]; go 5; go 5].

End Samples.
