(* ===== verification/ServiceHolds.v ===== *)
(** * Requirement holds of the service manager

    The invariant of the machine of [Services]: starts and stops of a service exclude
    each other, the definition and the driver of a start are the service's own, the
    holds a service has on its requirements and the dependents those keep agree, and a
    service that is held is neither stopped nor dropped by a reload. *)
From S2P Require Import Prelude GoIO GoStrings Requirements Services.
Import Services.

Module Holds.
Local Open Scope nat_scope.

(** ** The shape of an activity *)

Inductive phase :=
| Before (stop : option nat)
| Waking (out : gset string) (ok : bool)
| Held
| Loose (release : list nat).

(** What the invariant needs of a program counter: a run with its phase, a stop that
    drives the driver, a goroutine of [wakeRequirements], or holds that wait for their
    release. *)
Inductive shape :=
| ShRun (r : run) (ph : phase)
| ShStop (s : nat)
| ShChild (owner : nat) (id : string) (call : nat) (held : bool)
| ShRel (closed : bool) (release : list nat)
| ShNone.

Fixpoint shape_of (p : pc) : shape :=
  match p with
  | PRunBegin r stop => ShRun r (Before stop)
  | PRunWake r out _ err => ShRun r (Waking out (match err with None => true | Some _ => false end))
  | PRunState r _ | PRunStart r _ | PRunPoll r _ | PRunTick r _ _ | PRunFailed r _ _ => ShRun r Held
  | PRunDetach r _ None _ _ => ShRun r Held
  | PRunDetach r _ (Some _) _ _ => ShRun r (Loose [])
  | PRunRelease r _ release => ShRun r (Loose release)
  | PWake owner _ id call | PWakeWait owner _ id call _ => ShChild owner id call false
  | PWakeRes owner id call _ _ => ShChild owner id call true
  | PWakeSend owner id call _ err => ShChild owner id call (match err with None => true | Some _ => false end)
  | PStopping s _ _ _ | PStopCheck s _ _ _ => ShStop s
  | PStopRelease release _ _ => ShRel true release
  | PRefRelease release _ => ShRel false release
  | PAwait _ p => shape_of p
  | _ => ShNone
  end.

Definition releases (sh : shape) : list nat :=
  match sh with ShRun _ (Loose l) | ShRel _ l => l | _ => [] end.

(** An activity whose channel has not been closed; that of a stop is closed before its
    holds are released. *)
Definition open_shape (sh : shape) : bool := match sh with ShRel true _ => false | _ => true end.

Definition shapes (m : Manager) : gmap nat shape := shape_of <$> acts m.

(** A hold that was detached from its owner and is not released yet: it is in the list of
    an activity, or in [ex], the list a section is building. *)
Definition pending (ex : list nat) (S : gmap nat shape) (h : nat) : Prop :=
  h ∈ ex \/ exists k sh, S !! k = Some sh /\ h ∈ releases sh.

(** ** The invariant *)
Definition core (x : service) :=
  (def x, driver x, inflight x, stopping x, requirements x, dependents x).

Record inv (ex : list nat) (S : gmap nat shape) (m : Manager) : Prop := {
  i_fresh_act : forall k, next m <= k -> S !! k = None;
  i_fresh_svc : forall s, next m <= s ->
    inflight (svc m s) = None /\ stopping (svc m s) = None /\ requirements (svc m s) = ∅ /\
    dependents (svc m s) = ∅;
  i_fresh_hold : forall h, next m <= h -> holds m !! h = None;
  i_fresh_closed : forall c, c ∈ closed m -> c < next m;
  i_open : forall k sh, S !! k = Some sh -> open_shape sh = true -> k ∉ closed m;
  i_reload : forall ch, reloadDone m = Some ch -> ch < next m /\ S !! ch = None;
  i_ids : forall id s, services m !! id = Some s -> ID (def (svc m s)) = id /\ s < next m;
  i_run : forall c r ph, S !! c = Some (ShRun r ph) ->
    inflight (svc m (r_svc r)) = Some c /\ def (svc m (r_svc r)) = r_def r /\
    driver (svc m (r_svc r)) = r_driver r;
  i_run_stop : forall c r ph, S !! c = Some (ShRun r ph) ->
    stopping (svc m (r_svc r)) = None \/
    exists ch, ph = Before (Some ch) /\ stopping (svc m (r_svc r)) = Some ch;
  i_inflight : forall s c, inflight (svc m s) = Some c ->
    exists r ph, S !! c = Some (ShRun r ph) /\ r_svc r = s;
  i_stop : forall k s, S !! k = Some (ShStop s) -> stopping (svc m s) = Some k;
  i_stopping : forall s k, stopping (svc m s) = Some k ->
    S !! k = Some (ShStop s) /\ dependents (svc m s) = ∅;
  i_reg : forall q, dependents (svc m q) <> ∅ -> services m !! ID (def (svc m q)) = Some q;
  i_req : forall o id h, requirements (svc m o) !! id = Some h ->
    exists q, holds m !! h = Some (mkHold o q false) /\ ID (def (svc m q)) = id /\
      dependents (svc m q) !! o = Some h /\ ~ pending ex S h;
  i_dep : forall q o h, dependents (svc m q) !! o = Some h ->
    holds m !! h = Some (mkHold o q false) /\
    (requirements (svc m o) !! ID (def (svc m q)) = Some h \/ pending ex S h);
  i_pend : forall h, pending ex S h -> is_Some (holds m !! h);
  i_wake : forall c r out, S !! c = Some (ShRun r (Waking out true)) ->
    forall id, id ∈ Requires (r_def r) -> id ∈ out \/ is_Some (requirements (svc m (r_svc r)) !! id);
  i_held : forall c r, S !! c = Some (ShRun r Held) ->
    forall id, id ∈ Requires (r_def r) -> is_Some (requirements (svc m (r_svc r)) !! id);
  i_child : forall k o id c held, S !! k = Some (ShChild o id c held) ->
    exists r out ok, S !! c = Some (ShRun r (Waking out ok)) /\ r_svc r = o /\ id ∈ out /\
      (held = true -> is_Some (requirements (svc m o) !! id));
  i_child_unique : forall k1 k2 o1 o2 id c h1 h2,
    S !! k1 = Some (ShChild o1 id c h1) -> S !! k2 = Some (ShChild o2 id c h2) -> k1 = k2
}.

(** ** What the primitive operations change *)

Lemma svc_upd s f m t : svc (upd s f m) t = if decide (t = s) then f (svc m s) else svc m t.
Proof.
  unfold upd, svc, m_heap; cbn [heap]. destruct (decide (t = s)) as [->|Hn].
  - by rewrite lookup_insert_eq.
  - by rewrite lookup_insert_ne by done.
Qed.

Lemma svc_upd_eq s f m : svc (upd s f m) s = f (svc m s).
Proof. rewrite svc_upd. by destruct (decide (s = s)). Qed.

Lemma svc_upd_ne s f m t : t <> s -> svc (upd s f m) t = svc m t.
Proof. intros Hn. rewrite svc_upd. by destruct (decide (t = s)). Qed.

(** Two managers that the invariant does not tell apart. *)
Record same_view (m m' : Manager) : Prop := {
  v_core : forall s, core (svc m' s) = core (svc m s);
  v_services : services m' = services m;
  v_holds : holds m' = holds m;
  v_closed : closed m' = closed m;
  v_reload : reloadDone m' = reloadDone m;
  v_next : next m' = next m
}.

#[export] Instance same_view_refl : Reflexive same_view.
Proof. split; done. Qed.

#[export] Instance same_view_trans : Transitive same_view.
Proof. intros a b c [] []. split; intros; congruence. Qed.

Lemma core_fields x y : core x = core y ->
  def x = def y /\ driver x = driver y /\ inflight x = inflight y /\ stopping x = stopping y /\
  requirements x = requirements y /\ dependents x = dependents y.
Proof. unfold core. intros. by simplify_eq. Qed.

(** A field an update leaves alone. *)
Lemma upd_field {A} (F : service -> A) s f m t :
  (forall x, F (f x) = F x) -> F (svc (upd s f m) t) = F (svc m t).
Proof. intros Hf. rewrite svc_upd. destruct (decide (t = s)) as [->|]; [apply Hf|done]. Qed.

(** Equations for the fields of all services that [tac] proves unchanged. *)
Ltac field_eqs m m' tac :=
  try assert (Hd : forall t, def (svc m' t) = def (svc m t)) by (intros t; tac def t);
  try assert (Hdr : forall t, driver (svc m' t) = driver (svc m t)) by (intros t; tac driver t);
  try assert (Hi : forall t, inflight (svc m' t) = inflight (svc m t)) by (intros t; tac inflight t);
  try assert (Hst : forall t, stopping (svc m' t) = stopping (svc m t)) by (intros t; tac stopping t);
  try assert (Hr : forall t, requirements (svc m' t) = requirements (svc m t)) by (intros t; tac requirements t);
  try assert (Hde : forall t, dependents (svc m' t) = dependents (svc m t)) by (intros t; tac dependents t).

Ltac by_upd F t := refine (upd_field F _ _ _ t _); intros; reflexivity.

Lemma inv_view ex S m m' : same_view m m' -> inv ex S m -> inv ex S m'.
Proof.
  intros [Hc Hs Hh Hcl Hre Hn] I. field_eqs m m' ltac:(fun F t => apply (core_fields _ _ (Hc t))).
  destruct I. split; intros *; rewrite ?Hc, ?Hs, ?Hh, ?Hcl, ?Hre, ?Hn, ?Hd, ?Hdr, ?Hi, ?Hst, ?Hr, ?Hde; eauto.
  intros Hq. destruct (i_req0 o id h Hq) as (q&?&?&?&?). exists q. rewrite Hd, Hde. done.
Qed.

(** An update of a service that leaves the fields of the invariant alone. *)
Lemma view_upd s f m : (forall x, core (f x) = core x) -> same_view m (upd s f m).
Proof.
  intros Hf. split; try done. intros t. rewrite svc_upd. destruct (decide (t = s)) as [->|]; [|done]. apply Hf.
Qed.

(** ** Changes of activities *)

Definition releases_at (S : gmap nat shape) (k : nat) : list nat := default [] (releases <$> S !! k).

Lemma pending_insert ex S k sh h :
  releases sh = releases_at S k -> pending ex (<[k := sh]> S) h <-> pending ex S h.
Proof.
  intros Hr. unfold pending. split; (intros [?|(j&sh'&Hj&Hin)]; [by left|]).
  - apply lookup_insert_Some in Hj as [[<- ->]|[Hne Hj]]; [|right; eauto].
    rewrite Hr in Hin. unfold releases_at in Hin. destruct (S !! k) as [old|] eqn:E; cbn in Hin; [right; eauto|].
    by apply not_elem_of_nil in Hin.
  - right. destruct (decide (j = k)) as [->|Hne].
    + exists k, sh. rewrite lookup_insert_eq. split; [done|]. rewrite Hr. unfold releases_at. by rewrite Hj.
    + exists j, sh'. by rewrite lookup_insert_ne by done.
Qed.

Lemma pending_delete ex S k h : releases_at S k = [] -> pending ex (delete k S) h <-> pending ex S h.
Proof.
  intros Hr. unfold pending. split; (intros [?|(j&sh'&Hj&Hin)]; [by left|right]).
  - apply lookup_delete_Some in Hj as [? ?]. eauto.
  - exists j, sh'. split; [|done]. rewrite lookup_delete_ne; [done|]. intros ->.
    unfold releases_at in Hr. rewrite Hj in Hr. cbn in Hr. rewrite Hr in Hin. by apply not_elem_of_nil in Hin.
Qed.

(** Shapes the invariant says nothing about. *)
Definition inert (sh : shape) : bool := match sh with ShNone | ShRel _ [] => true | _ => false end.
Definition inert_at (S : gmap nat shape) (k : nat) : Prop :=
  match S !! k with Some sh => inert sh = true | None => True end.

Lemma inert_releases S k : inert_at S k -> releases_at S k = [].
Proof. unfold inert_at, releases_at. by destruct (S !! k) as [[| | |? []|]|]. Qed.

(** Splits a lookup in a table of which one entry was set or removed. *)
Ltac shape_cases :=
  repeat match goal with
  | H : <[_ := _]> _ !! _ = Some _ |- _ => apply lookup_insert_Some in H as [[? ?]|[? H]]
  | H : delete _ _ !! _ = Some _ |- _ => apply lookup_delete_Some in H as [? H]
  end; simplify_eq.

Lemma inv_inert ex S m k sh :
  inv ex S m -> inert_at S k -> inert sh = true -> k < next m -> k ∉ closed m -> reloadDone m <> Some k ->
  inv ex (<[k := sh]> S) m.
Proof.
  intros I Hold Hnew Hk Hop Hre.
  assert (Hp : forall h, pending ex (<[k := sh]> S) h <-> pending ex S h).
  { intros h. apply pending_insert. rewrite (inert_releases S k Hold). by destruct sh as [| | |? []|]. }
  assert (Hkeep : forall j sh', S !! j = Some sh' -> inert sh' = false -> <[k := sh]> S !! j = Some sh').
  { intros j sh' Hj Hi. rewrite lookup_insert_ne; [done|]. intros <-. unfold inert_at in Hold.
    rewrite Hj in Hold. congruence. }
  destruct I. split; intros; shape_cases; try discriminate; rewrite ?Hp in *; eauto.
  - rewrite lookup_insert_ne by lia. eauto.
  - destruct (i_reload0 _ H). rewrite lookup_insert_ne by congruence. done.
  - destruct (i_inflight0 _ _ H) as (r&ph&Hr&?). exists r, ph. split; [|done]. by apply Hkeep.
  - destruct (i_stopping0 _ _ H) as (Hs&?). split; [|done]. by apply Hkeep.
  - destruct (i_req0 _ _ _ H) as (q&?&?&?&?). exists q. rewrite Hp. done.
  - destruct (i_child0 _ _ _ _ _ H) as (r&out&ok&Hr&?). exists r, out, ok. split; [|done]. by apply Hkeep.
Qed.

Lemma inv_inert_delete ex S m k : inv ex S m -> inert_at S k -> inv ex (delete k S) m.
Proof.
  intros I Hold.
  assert (Hp : forall h, pending ex (delete k S) h <-> pending ex S h).
  { intros h. apply pending_delete, (inert_releases S k Hold). }
  assert (Hkeep : forall j sh', S !! j = Some sh' -> inert sh' = false -> delete k S !! j = Some sh').
  { intros j sh' Hj Hi. rewrite lookup_delete_ne; [done|]. intros <-. unfold inert_at in Hold.
    rewrite Hj in Hold. congruence. }
  destruct I. split; intros; shape_cases; rewrite ?Hp in *; eauto.
  - apply lookup_delete_None. eauto.
  - destruct (i_reload0 _ H). rewrite lookup_delete_None. auto.
  - destruct (i_inflight0 _ _ H) as (r&ph&Hr&?). exists r, ph. split; [|done]. by apply Hkeep.
  - destruct (i_stopping0 _ _ H) as (Hs&?). split; [|done]. by apply Hkeep.
  - destruct (i_req0 _ _ _ H) as (q&?&?&?&?). exists q. rewrite Hp. done.
  - destruct (i_child0 _ _ _ _ _ H) as (r&out&ok&Hr&?). exists r, out, ok. split; [|done]. by apply Hkeep.
Qed.

Lemma inv_alloc ex S m : inv ex S m -> inv ex S (alloc m).
Proof.
  intros I. destruct I. split; unfold alloc, m_next; cbn [next services holds closed reloadDone]; intros;
    try (change (svc _ ?s) with (svc m s) in *); eauto with lia.
  - specialize (i_fresh_closed0 _ H). lia.
  - destruct (i_reload0 _ H). split; [lia|done].
  - destruct (i_ids0 _ _ H). split; [done|lia].
Qed.

Lemma inv_spawn ex S m sh :
  inv ex S m -> inert sh = true -> inv ex (<[next m := sh]> S) (alloc m).
Proof.
  intros I Hi. apply inv_inert; [by apply inv_alloc| |done|cbn; lia| |].
  - unfold inert_at. by rewrite (i_fresh_act _ _ _ I) by done.
  - intros Hc. apply (i_fresh_closed _ _ _ I) in Hc. cbn in Hc. lia.
  - intros Hc. apply (i_reload _ _ _ I) in Hc. lia.
Qed.

(** A service with a run has been allocated. *)
Lemma inflight_allocated ex S m s c : inv ex S m -> inflight (svc m s) = Some c -> s < next m.
Proof.
  intros I Hf. destruct (decide (s < next m)); [done|]. destruct (i_fresh_svc _ _ _ I s) as [Hn _]; [lia|congruence].
Qed.

Lemma run_allocated ex S m c r ph : inv ex S m -> S !! c = Some (ShRun r ph) -> r_svc r < next m.
Proof. intros I Hr. destruct (i_run _ _ _ I _ _ _ Hr) as [Hf _]. by eapply inflight_allocated. Qed.

(** A service in flight has one run. *)
Lemma run_unique ex S m c c' r r' ph ph' :
  inv ex S m -> S !! c = Some (ShRun r ph) -> S !! c' = Some (ShRun r' ph') -> r_svc r = r_svc r' -> c = c'.
Proof.
  intros I H1 H2 E. destruct (i_run _ _ _ I _ _ _ H1) as [F1 _]. destruct (i_run _ _ _ I _ _ _ H2) as [F2 _].
  rewrite E in F1. congruence.
Qed.

(** ** Starting a run *)

Lemma inv_spawn_run ex S m s addr added :
  inv ex S m -> inflight (svc m s) = None -> s < next m ->
  inv ex (<[next m := ShRun (mkRun s (def (svc m s)) (driver (svc m s)) addr added) (Before (stopping (svc m s)))]> S)
    (spawn_run s addr (stopping (svc m s)) added m).
Proof.
  intros I Hin Hs. set (c := next m). set (sh := ShRun _ _).
  assert (Hnew : S !! c = None) by (apply (i_fresh_act _ _ _ I); done).
  assert (Hp : forall h, pending ex (<[c := sh]> S) h <-> pending ex S h).
  { intros h. apply pending_insert. unfold releases_at. by rewrite Hnew. }
  assert (Hkeep : forall j sh', S !! j = Some sh' -> <[c := sh]> S !! j = Some sh').
  { intros j sh' Hj. rewrite lookup_insert_ne; [done|]. congruence. }
  set (m' := spawn_run _ _ _ _ _).
  assert (Hi : forall t, inflight (svc m' t) = if decide (t = s) then Some c else inflight (svc m t)).
  { intros t. unfold m', spawn_run. rewrite svc_upd. by destruct (decide (t = s)) as [->|]. }
  field_eqs m m' by_upd.
  destruct I. split; intros *; change (services m') with (services m); change (holds m') with (holds m);
    change (closed m') with (closed m); change (next m') with (Datatypes.S (next m));
    change (reloadDone m') with (reloadDone m);
    rewrite ?Hp, ?Hd, ?Hdr, ?Hst, ?Hr, ?Hde, ?Hi; intros; shape_cases; eauto.
  - rewrite lookup_insert_ne by lia. eauto with lia.
  - destruct (i_fresh_svc0 s0) as (?&?&?&?); [lia|]. split_and!; [|done..].
    destruct (decide (s0 = s)); [subst; lia|done].
  - eauto with lia.
  - specialize (i_fresh_closed0 _ H). lia.
  - intros Hc%i_fresh_closed0. lia.
  - destruct (i_reload0 _ H). rewrite lookup_insert_ne by lia. auto with lia.
  - destruct (i_ids0 _ _ H). split; [done|lia].
  - cbn. by destruct (decide (s = s)).
  - destruct (i_run0 _ _ _ H) as (F&?&?). destruct (decide (r_svc r = s)) as [E|]; [rewrite E in F; congruence|done].
  - cbn. destruct (stopping (svc m s)); [right; eauto|by left].
  - destruct (decide (s0 = s)) as [->|].
    + simplify_eq. eexists _, _. by rewrite lookup_insert_eq.
    + destruct (i_inflight0 _ _ H) as (r&ph&?&?). exists r, ph. auto.
  - destruct (i_stopping0 _ _ H) as [? ?]. auto.
  - destruct (i_req0 _ _ _ H) as (q&?&?&?&?). exists q. by rewrite Hp, Hd, Hde.
  - destruct (i_child0 _ _ _ _ _ H) as (r&out&ok&?&?). exists r, out, ok. auto.
Qed.

(** ** Holding a requirement *)

(** What a hold leaves alone: everything but the dependents of the required service, the
    requirements of the owner and the table of holds. *)
Record only_holds (m m' : Manager) : Prop := {
  oh_def : forall t, def (svc m' t) = def (svc m t);
  oh_driver : forall t, driver (svc m' t) = driver (svc m t);
  oh_inflight : forall t, inflight (svc m' t) = inflight (svc m t);
  oh_stopping : forall t, stopping (svc m' t) = stopping (svc m t);
  oh_services : services m' = services m;
  oh_acts : acts m' = acts m;
  oh_closed : closed m' = closed m;
  oh_reload : reloadDone m' = reloadDone m;
  oh_next : next m <= next m';
  oh_grow : forall t id, is_Some (requirements (svc m t) !! id) -> is_Some (requirements (svc m' t) !! id)
}.

#[export] Instance only_holds_refl : Reflexive only_holds.
Proof. split; auto. Qed.

#[export] Instance only_holds_trans : Transitive only_holds.
Proof. intros a b c [] []. split; intros; try congruence; eauto with lia. Qed.

Lemma hold_fields o q m :
  requirements (svc m o) !! ID (def (svc m q)) = None ->
  let m' := (holdRequirementLocked o q m).2 in
  only_holds m m' /\
  (forall t, requirements (svc m' t) =
     if decide (t = o) then <[ID (def (svc m q)) := next m]> (requirements (svc m o)) else requirements (svc m t)) /\
  (forall t, dependents (svc m' t) =
     if decide (t = q) then <[o := next m]> (dependents (svc m q)) else dependents (svc m t)) /\
  holds m' = <[next m := mkHold o q false]> (holds m) /\ next m' = S (next m).
Proof.
  intros Hn m'.
  set (m1 := alloc (m_holds (<[next m := mkHold o q false]> (holds m)) m)).
  set (m2 := upd q (fun x => w_dependents (<[o := next m]> (dependents x)) x) m1).
  assert (Em : m' = upd o (fun x => w_requirements (<[ID (def (svc m q)) := next m]> (requirements x)) x) m2).
  { unfold m', holdRequirementLocked. by rewrite Hn. }
  clearbody m'. subst m'. set (m' := upd o _ m2).
  assert (E1 : forall t, svc m1 t = svc m t) by done.
  assert (Hreq : forall t, requirements (svc m' t) =
     if decide (t = o) then <[ID (def (svc m q)) := next m]> (requirements (svc m o)) else requirements (svc m t)).
  { intros t. unfold m'. rewrite svc_upd. assert (E2 : forall t, requirements (svc m2 t) = requirements (svc m t)).
    { intros u. unfold m2. rewrite <- E1. by_upd requirements u. }
    destruct (decide (t = o)); [|done]. cbn [requirements w_requirements]. by rewrite E2. }
  split_and!; [|done| |done|done].
  - split; try done.
    1-4: intros t; unfold m', m2; rewrite !svc_upd, ?E1; repeat destruct (decide _); simplify_eq; done.
    + cbn. lia.
    + intros t id. rewrite Hreq. destruct (decide (t = o)) as [->|]; [|done]. intros Hs.
      destruct (decide (id = ID (def (svc m q)))) as [->|]; [by rewrite lookup_insert_eq|by rewrite lookup_insert_ne].
  - intros t. unfold m'. etransitivity; [by_upd dependents t|]. unfold m2. rewrite svc_upd, E1.
    by destruct (decide (t = q)).
Qed.

Lemma inv_hold ex S m o q :
  inv ex S m -> services m !! ID (def (svc m q)) = Some q -> stopping (svc m q) = None -> o < next m ->
  let m' := (holdRequirementLocked o q m).2 in
  inv ex S m' /\ only_holds m m' /\ is_Some (requirements (svc m' o) !! ID (def (svc m q))).
Proof.
  intros I Hreg Hnst Ho m'. destruct (requirements (svc m o) !! ID (def (svc m q))) as [h0|] eqn:Hn.
  { unfold m', holdRequirementLocked. rewrite Hn. split_and!; [done|reflexivity|done]. }
  destruct (hold_fields o q m Hn) as (OH&Hr&Hde&Hh&Hnext). fold m' in OH, Hr, Hde, Hh, Hnext.
  split_and!; [|done|].
  2:{ rewrite Hr. destruct (decide (o = o)); [|done]. by rewrite lookup_insert_eq. }
  pose proof (i_fresh_hold _ _ _ I (next m) ltac:(lia)) as Hnew.
  assert (Hq : q < next m) by (apply (i_ids _ _ _ I) in Hreg as [_ ?]; done).
  destruct OH as [Hd Hdr Hi Hst Hs _ Hcl Hre Hle Hgrow].
  destruct I. split; intros *; rewrite ?Hd, ?Hdr, ?Hi, ?Hst, ?Hs, ?Hcl, ?Hre, ?Hh, ?Hnext; eauto.
  - intros. apply i_fresh_act0. lia.
  - intros. destruct (i_fresh_svc0 s) as (?&?&?&?); [lia|]. rewrite Hr, Hde.
    destruct (decide (s = o)), (decide (s = q)); subst; try lia; done.
  - intros. rewrite lookup_insert_ne by lia. apply i_fresh_hold0. lia.
  - intros Hc. specialize (i_fresh_closed0 _ Hc). lia.
  - intros Hc. destruct (i_reload0 _ Hc). auto with lia.
  - intros Hid. destruct (i_ids0 _ _ Hid). split; [done|lia].
  - intros Hk. destruct (i_stopping0 _ _ Hk) as (?&?). rewrite Hde.
    destruct (decide (s = q)) as [->|]; [congruence|done].
  - rewrite Hde. destruct (decide (q0 = q)) as [->|]; auto.
  - rewrite Hr. destruct (decide (o0 = o)) as [->|Hne].
    + intros [[<- <-]|[Hid Hold]]%lookup_insert_Some.
      * exists q. rewrite lookup_insert_eq, Hd, Hde, decide_True, lookup_insert_eq by done. split_and!; [done..|].
        intros [x Hx]%i_pend0. congruence.
      * destruct (i_req0 _ _ _ Hold) as (q0&?&?&?&?). exists q0.
        rewrite lookup_insert_ne, Hd, Hde, decide_False by congruence. done.
    + intros Hold. destruct (i_req0 _ _ _ Hold) as (q0&?&?&Hdep&?). exists q0.
      rewrite lookup_insert_ne, Hd, Hde by congruence. split_and!; [done..| |done].
      destruct (decide (q0 = q)) as [->|]; [by rewrite lookup_insert_ne by congruence|done].
  - rewrite Hde. destruct (decide (q0 = q)) as [->|Hne].
    + intros [[<- <-]|[Hne Hold]]%lookup_insert_Some.
      * rewrite lookup_insert_eq, Hr, decide_True, lookup_insert_eq by done. auto.
      * destruct (i_dep0 _ _ _ Hold) as [? ?]. rewrite lookup_insert_ne, Hr, decide_False by congruence. done.
    + intros Hold. destruct (i_dep0 _ _ _ Hold) as [? [Hreq|?]]; (rewrite lookup_insert_ne by congruence);
        (split; [done|]); [left|by right]. rewrite Hr. destruct (decide (o0 = o)) as [->|]; [|done].
      rewrite lookup_insert_ne; [done|]. intros E. congruence.
  - intros [x Hx]%i_pend0. rewrite lookup_insert_ne by congruence. by exists x.
  - intros HS id Hid. destruct (i_wake0 _ _ _ HS id Hid); eauto.
  - intros HS. destruct (i_child0 _ _ _ _ _ HS) as (r&out&ok&?&?&?&?). exists r, out, ok. eauto 6.
Qed.

(** ** Releasing holds *)

Lemma fire_fields h m o q :
  holds m !! h = Some (mkHold o q false) ->
  let m' := (fire h m).2 in
  services m' = services m /\ acts m' = acts m /\ closed m' = closed m /\ next m' = next m /\
  reloadDone m' = reloadDone m /\ holds m' = <[h := mkHold o q true]> (holds m) /\
  (forall t, dependents (svc m' t) =
     if decide (t = q /\ dependents (svc m q) !! o = Some h) then delete o (dependents (svc m q))
     else dependents (svc m t)) /\
  (forall t, def (svc m' t) = def (svc m t) /\ driver (svc m' t) = driver (svc m t) /\
     inflight (svc m' t) = inflight (svc m t) /\ stopping (svc m' t) = stopping (svc m t) /\
     requirements (svc m' t) = requirements (svc m t)).
Proof.
  intros Hh m'. unfold m', fire. rewrite Hh.
  set (m1 := m_holds _ _). change (svc m1 q) with (svc m q).
  destruct (bool_decide (dependents (svc m q) !! o = Some h)) eqn:E; cbn [negb].
  - apply bool_decide_eq_true in E. cbv zeta. set (m2 := upd q _ m1).
    match goal with |- context [if ?b then m_deferredStops ?d m2 else m2] =>
      set (m3 := if b then m_deferredStops d m2 else m2) end. cbn [snd].
    assert (E3 : forall t, svc m3 t = svc m2 t) by (intros t; unfold m3; by destruct (_ && _)).
    split_and!; try (unfold m3; by destruct (_ && _)); intros t; rewrite E3; unfold m2; rewrite svc_upd;
      change (svc m1) with (svc m).
    + destruct (decide (t = q)) as [->|Hn]; [rewrite decide_True by done; done|rewrite decide_False by tauto; done].
    + by destruct (decide (t = q)) as [->|Hn].
  - apply bool_decide_eq_false in E. cbn [snd]. split_and!; try done. intros t. rewrite decide_False by tauto. done.
Qed.

Lemma inv_fire ex S m h :
  inv ex S m -> pending ex S h ->
  let m' := (fire h m).2 in
  inv ex S m' /\ (forall q o, dependents (svc m' q) !! o <> Some h) /\ acts m' = acts m.
Proof.
  intros I Hp m'. destruct (i_pend _ _ _ I h Hp) as [[o q [|]] Hh].
  { assert (Em : m' = m) by (unfold m', fire; by rewrite Hh). rewrite Em. split_and!; [done| |done].
    intros q' o' Hd. apply (i_dep _ _ _ I) in Hd as [Hd _]. congruence. }
  destruct (fire_fields h m o q Hh) as (Hs&Ha&Hcl&Hn&Hre&Hho&Hde&Hf).
  fold m' in Hs, Ha, Hcl, Hn, Hre, Hho, Hde, Hf.
  assert (Hd : forall t, def (svc m' t) = def (svc m t)) by (intros t; apply Hf).
  assert (Hdr : forall t, driver (svc m' t) = driver (svc m t)) by (intros t; apply Hf).
  assert (Hi : forall t, inflight (svc m' t) = inflight (svc m t)) by (intros t; apply Hf).
  assert (Hst : forall t, stopping (svc m' t) = stopping (svc m t)) by (intros t; apply Hf).
  assert (Hr : forall t, requirements (svc m' t) = requirements (svc m t)) by (intros t; apply Hf).
  assert (Hsub : forall q' o' h', dependents (svc m' q') !! o' = Some h' ->
    dependents (svc m q') !! o' = Some h' /\ h' <> h).
  { intros q' o' h'. rewrite Hde. destruct (decide _) as [[-> Hq]|Hno].
    - intros [Hne Hold]%lookup_delete_Some. split; [done|]. intros ->.
      apply (i_dep _ _ _ I) in Hold as [Hold _]. congruence.
    - intros Hold. split; [done|]. intros ->. apply Hno. pose proof (proj1 (i_dep _ _ _ I _ _ _ Hold)) as E.
      rewrite Hh in E. simplify_eq. done. }
  assert (Hempty : forall t, dependents (svc m t) = ∅ -> dependents (svc m' t) = ∅).
  { intros t Ht. apply map_empty. intros i. destruct (dependents (svc m' t) !! i) eqn:E; [|done].
    apply Hsub in E as [E _]. by rewrite Ht, lookup_empty in E. }
  split_and!; [|intros q' o' Hq; by apply Hsub in Hq as [_ ?]|done].
  destruct I. split; intros *; rewrite ?Hd, ?Hdr, ?Hi, ?Hst, ?Hr, ?Hs, ?Hcl, ?Hre, ?Hn; eauto.
  - intros Hle. destruct (i_fresh_svc0 s Hle) as (?&?&?&?). auto using conj.
  - intros Hle. rewrite Hho, lookup_insert_ne; [auto|]. intros <-. rewrite i_fresh_hold0 in Hh; done.
  - intros Hk. destruct (i_stopping0 _ _ Hk) as (?&?). auto.
  - intros Hq. destruct (i_req0 _ _ _ Hq) as (q'&?&?&?&?). exists q'. assert (h0 <> h) by (intros ->; done).
    rewrite Hho, lookup_insert_ne, Hd, Hde by done. split_and!; [done..| |done].
    destruct (decide _) as [[-> ?]|]; [|done]. rewrite lookup_delete_ne; [done|]. intros ->. congruence.
  - intros [Hq Hne]%Hsub. rewrite Hho, lookup_insert_ne by done. auto.
  - intros Hq. rewrite Hho. destruct (decide (h0 = h)) as [->|]; [by rewrite lookup_insert_eq|].
    rewrite lookup_insert_ne by done. auto.
Qed.

(** The list of a run that is past its start, or of another activity that releases. *)
Definition with_releases (sh : shape) (l : list nat) : shape :=
  match sh with ShRun r (Loose _) => ShRun r (Loose l) | ShRel b _ => ShRel b l | sh => sh end.
Definition can_release (sh : shape) : Prop :=
  match sh with ShRun _ (Loose _) | ShRel _ _ => True | _ => False end.

(** The activities change their phases and lists, the services stay: what has to be
    shown of the new shapes. *)
Lemma inv_shapes ex ex' S S' m :
  inv ex S m ->
  (forall k, next m <= k -> S' !! k = None) ->
  (forall k sh, S' !! k = Some sh -> open_shape sh = true -> k ∉ closed m) ->
  (forall ch, reloadDone m = Some ch -> S' !! ch = None) ->
  (forall c r ph, S' !! c = Some (ShRun r ph) -> exists ph', S !! c = Some (ShRun r ph')) ->
  (forall c r ph, S !! c = Some (ShRun r ph) -> exists ph', S' !! c = Some (ShRun r ph')) ->
  (forall c r ph, S' !! c = Some (ShRun r ph) ->
     S !! c = Some (ShRun r ph) \/ stopping (svc m (r_svc r)) = None) ->
  (forall k s, S' !! k = Some (ShStop s) <-> S !! k = Some (ShStop s)) ->
  (forall h, pending ex' S' h -> pending ex S h) ->
  (forall h, pending ex S h -> pending ex' S' h \/ forall q o, dependents (svc m q) !! o <> Some h) ->
  (forall c r out, S' !! c = Some (ShRun r (Waking out true)) ->
     forall id, id ∈ Requires (r_def r) -> id ∈ out \/ is_Some (requirements (svc m (r_svc r)) !! id)) ->
  (forall c r, S' !! c = Some (ShRun r Held) ->
     forall id, id ∈ Requires (r_def r) -> is_Some (requirements (svc m (r_svc r)) !! id)) ->
  (forall k o id c held, S' !! k = Some (ShChild o id c held) ->
     exists r out ok, S' !! c = Some (ShRun r (Waking out ok)) /\ r_svc r = o /\ id ∈ out /\
       (held = true -> is_Some (requirements (svc m o) !! id))) ->
  (forall k1 k2 o1 o2 id c h1 h2,
     S' !! k1 = Some (ShChild o1 id c h1) -> S' !! k2 = Some (ShChild o2 id c h2) -> k1 = k2) ->
  inv ex' S' m.
Proof.
  intros I Hf Hop Hre Hr1 Hr2 Hrs Hst Hp1 Hp2 Hw Hh Hc Hu. destruct I. split; eauto.
  - intros ch Hch. destruct (i_reload0 _ Hch). auto.
  - intros c r ph Hc'. destruct (Hr1 _ _ _ Hc') as [ph' ?]. eauto.
  - intros c r ph Hc'. destruct (Hrs _ _ _ Hc') as [?|?]; eauto.
  - intros s c Hi. destruct (i_inflight0 _ _ Hi) as (r&ph&Hr&?). destruct (Hr2 _ _ _ Hr) as [ph' ?]. eauto.
  - intros k s Hk. apply i_stop0, Hst, Hk.
  - intros s k Hk. rewrite Hst. by apply i_stopping0.
  - intros o id h Hq. destruct (i_req0 _ _ _ Hq) as (q&?&?&?&?). exists q. split_and!; auto.
  - intros q o h Hd. destruct (i_dep0 _ _ _ Hd) as [? [?|Hp]]; [eauto|]. split; [done|].
    destruct (Hp2 _ Hp) as [?|Hn]; [by right|]. by destruct (Hn q o).
Qed.

Lemma open_insert ex S m k sh sh' j x :
  inv ex S m -> S !! k = Some sh -> (open_shape sh' = true -> open_shape sh = true) ->
  <[k := sh']> S !! j = Some x -> open_shape x = true -> j ∉ closed m.
Proof.
  intros I Hk Ho [[<- <-]|[_ Hj]]%lookup_insert_Some Hx; [|by eapply (i_open _ _ _ I)].
  eapply (i_open _ _ _ I); eauto.
Qed.

Lemma reload_insert ex S m k sh sh' ch :
  inv ex S m -> S !! k = Some sh -> reloadDone m = Some ch -> <[k := sh']> S !! ch = None.
Proof. intros I Hk Hc. destruct (i_reload _ _ _ I _ Hc). rewrite lookup_insert_ne by congruence. done. Qed.

(** Holds may leave the lists once nothing depends on them, and move between the lists. *)
Lemma inv_lists ex ex' S m k sh l :
  inv ex S m -> S !! k = Some sh -> can_release sh ->
  (forall h, pending ex' (<[k := with_releases sh l]> S) h -> pending ex S h) ->
  (forall h, pending ex S h ->
     pending ex' (<[k := with_releases sh l]> S) h \/ forall q o, dependents (svc m q) !! o <> Some h) ->
  inv ex' (<[k := with_releases sh l]> S) m.
Proof.
  intros I Hk Hc Hsub Hsup. set (S' := <[k := _]> S) in *.
  assert (Hother : forall c x, (forall r l, x <> ShRun r (Loose l)) -> (forall b l, x <> ShRel b l) ->
    S' !! c = Some x <-> S !! c = Some x).
  { intros c x H1 H2. unfold S'. destruct (decide (c = k)) as [->|]; [|by rewrite lookup_insert_ne by done].
    rewrite lookup_insert_eq, Hk. destruct sh as [r' [| | |l0]| | | |]; try done; cbn;
      split; intros E; simplify_eq; exfalso; first [by eapply H1 | by eapply H2]. }
  assert (Hloose : forall c r, (exists l, S' !! c = Some (ShRun r (Loose l))) <-> (exists l, S !! c = Some (ShRun r (Loose l)))).
  { intros c r. unfold S'. destruct (decide (c = k)) as [->|]; [|by rewrite lookup_insert_ne by done].
    rewrite lookup_insert_eq, Hk. destruct sh as [r' [| | |l0]| | | |]; try done; cbn;
      split; intros [? ?]; simplify_eq; eauto. }
  apply (inv_shapes ex ex' S); try done.
  - intros j Hj. unfold S'. rewrite lookup_insert_ne; [by apply (i_fresh_act _ _ _ I)|]. intros <-.
    rewrite (i_fresh_act _ _ _ I) in Hk; done.
  - intros j x. eapply open_insert; [done|exact Hk|]. by destruct sh as [? []| | | |].
  - intros ch. by eapply reload_insert.
  - intros c r ph Hp. destruct ph; [apply Hother in Hp; by eauto..|]. destruct (proj1 (Hloose c r)); eauto.
  - intros c r ph Hp. destruct ph; [apply Hother in Hp; by eauto..|]. destruct (proj2 (Hloose c r)); eauto.
  - intros c r ph Hp. destruct ph; [apply Hother in Hp; by eauto..|right].
    destruct (proj1 (Hloose c r)) as [l1 Hl]; [eauto|]. by destruct (i_run_stop _ _ _ I _ _ _ Hl) as [?|(?&?&?)].
  - intros j s. by apply Hother.
  - intros c r out Hw. apply Hother in Hw; [|done..]. exact (i_wake _ _ _ I _ _ _ Hw).
  - intros c r Hw. apply Hother in Hw; [|done..]. exact (i_held _ _ _ I _ _ Hw).
  - intros j o id c held Hw. apply Hother in Hw; [|done..].
    destruct (i_child _ _ _ I _ _ _ _ _ Hw) as (r&out&ok&Hr&?). exists r, out, ok. split; [by apply Hother|done].
  - intros k1 k2 o1 o2 id c h1 h2 H1 H2. apply Hother in H1, H2; try done. by eapply (i_child_unique _ _ _ I).
Qed.

(** Only the elements of [ex] matter. *)
Lemma inv_ex_perm ex ex' S m : (forall h, h ∈ ex' <-> h ∈ ex) -> inv ex S m -> inv ex' S m.
Proof.
  intros He I. assert (Hp : forall h, pending ex' S h <-> pending ex S h) by (intros h; unfold pending; rewrite He; done).
  apply (inv_shapes ex ex' S S m I); try apply I; eauto; intros h Hh; [by apply Hp|left; by apply Hp].
Qed.

(** The holds of a service are detached. *)
Lemma detach_fields s ids m release m' :
  detachRequirementIDsLocked s ids m = (release, m') ->
  services m' = services m /\ acts m' = acts m /\ closed m' = closed m /\ next m' = next m /\
  holds m' = holds m /\
  (forall t, def (svc m' t) = def (svc m t) /\ driver (svc m' t) = driver (svc m t) /\
     inflight (svc m' t) = inflight (svc m t) /\ stopping (svc m' t) = stopping (svc m t) /\
     dependents (svc m' t) = dependents (svc m t)) /\
  (forall t, t <> s -> requirements (svc m' t) = requirements (svc m t)).
Proof.
  revert m release m'. induction ids as [|id ids IH]; intros m release m'; cbn [detachRequirementIDsLocked].
  { intros [= <- <-]. done. }
  destruct (requirements (svc m s) !! id) as [h|]; [|apply IH].
  set (m1 := upd s _ m). destruct (detachRequirementIDsLocked s ids m1) as [rel m2] eqn:E.
  intros [= <- <-]. destruct (IH _ _ _ E) as (?&?&?&?&?&Hf&Hr).
  split_and!; try done; intros t.
  - destruct (Hf t) as (->&->&->&->&->). unfold m1. rewrite svc_upd. by destruct (decide (t = s)) as [->|].
  - intros Hn. rewrite (Hr t Hn). unfold m1. by rewrite svc_upd_ne.
Qed.

(** No run of the service relies on its holds. *)
Definition unheld (S : gmap nat shape) (s : nat) : Prop :=
  forall c r ph, S !! c = Some (ShRun r ph) -> r_svc r = s ->
    match ph with Before _ | Loose _ => True | _ => False end.

Lemma inv_detach_one ex S m s id h :
  inv ex S m -> unheld S s -> requirements (svc m s) !! id = Some h ->
  inv (h :: ex) S (upd s (fun x => w_requirements (delete id (requirements x)) x) m).
Proof.
  intros I Hu Hid. set (m' := upd s _ m).
  assert (Hr : forall t, requirements (svc m' t) =
    if decide (t = s) then delete id (requirements (svc m s)) else requirements (svc m t)).
  { intros t. unfold m'. rewrite svc_upd. by destruct (decide (t = s)). }
  assert (Hp : forall h', pending (h :: ex) S h' <-> h' = h \/ pending ex S h').
  { intros h'. unfold pending. rewrite elem_of_cons. tauto. }
  assert (Hsub : forall t id' h', requirements (svc m' t) !! id' = Some h' ->
    requirements (svc m t) !! id' = Some h' /\ h' <> h).
  { intros t id' h'. rewrite Hr. destruct (decide (t = s)) as [->|Hn].
    - intros [Hne Hold]%lookup_delete_Some. split; [done|]. intros ->.
      destruct (i_req _ _ _ I _ _ _ Hold) as (q&Hq&Hi&_). destruct (i_req _ _ _ I _ _ _ Hid) as (q'&Hq'&Hi'&_). congruence.
    - intros Hold. split; [done|]. intros ->.
      destruct (i_req _ _ _ I _ _ _ Hold) as (q&Hq&_). destruct (i_req _ _ _ I _ _ _ Hid) as (q'&Hq'&_). congruence. }
  field_eqs m m' by_upd. pose proof I as I0.
  destruct I. split; intros *; change (services m') with (services m); change (holds m') with (holds m);
    change (closed m') with (closed m); change (next m') with (next m);
    rewrite ?Hp, ?Hd, ?Hdr, ?Hi, ?Hst, ?Hde; eauto.
  - intros Hle. destruct (i_fresh_svc0 s0 Hle) as (?&?&Hq&?). split_and!; [done..| |done].
    rewrite Hr. destruct (decide (s0 = s)) as [->|]; [|done]. by rewrite Hq, delete_empty.
  - intros [Hold Hne]%Hsub. destruct (i_req0 _ _ _ Hold) as (q&?&?&?&?). exists q. rewrite Hp, Hd, Hde.
    split_and!; try done. intros [?|?]; done.
  - intros Hold. destruct (i_dep0 _ _ _ Hold) as [Hh [Hq|Hq]]; (split; [done|]); [|auto].
    rewrite Hr. destruct (decide (o = s)) as [->|]; [|by left].
    destruct (decide (ID (def (svc m q)) = id)) as [<-|]; [right; left; congruence|].
    left. by rewrite lookup_delete_ne by done.
  - intros [->|Hq]; [|auto]. destruct (i_req0 _ _ _ Hid) as (q&->&_). done.
  - intros HS. specialize (Hu _ _ _ HS) as Hu'. rewrite Hr.
    destruct (decide (r_svc r = s)) as [E|]; [by specialize (Hu' E)|eauto].
  - intros HS. specialize (Hu _ _ _ HS) as Hu'. rewrite Hr.
    destruct (decide (r_svc r = s)) as [E|]; [by specialize (Hu' E)|eauto].
  - intros HS. destruct (i_child0 _ _ _ _ _ HS) as (r&out&ok&HR&?&?&?). exists r, out, ok. rewrite Hr.
    destruct (decide (o = s)) as [E|]; [|done]. subst. by specialize (Hu _ _ _ HR eq_refl).
Qed.

Lemma inv_detach ex S m s ids release m' :
  inv ex S m -> unheld S s -> detachRequirementIDsLocked s ids m = (release, m') -> inv (release ++ ex) S m'.
Proof.
  revert ex m release m'. induction ids as [|id ids IH]; intros ex m release m' I Hu; cbn [detachRequirementIDsLocked].
  { by intros [= <- <-]. }
  destruct (requirements (svc m s) !! id) as [h|] eqn:E; [|by apply IH].
  destruct (detachRequirementIDsLocked s ids _) as [rel m2] eqn:E2. intros [= <- <-].
  pose proof (IH (h :: ex) _ _ _ (inv_detach_one ex S m s id h I Hu E) Hu E2) as I2.
  eapply inv_ex_perm; [|exact I2]. intros x. set_solver.
Qed.

(** ** The machine *)
Definition Inv (m : Manager) : Prop := inv [] (shapes m) m.

Lemma shapes_set k p m : shapes (set_act k p m) = <[k := shape_of p]> (shapes m).
Proof. unfold shapes, set_act, m_acts; cbn [acts]. apply fmap_insert. Qed.

Lemma shapes_del k m : shapes (del_act k m) = delete k (shapes m).
Proof. unfold shapes, del_act, m_acts; cbn [acts]. apply fmap_delete. Qed.

Lemma shapes_lookup k p m : acts m !! k = Some p -> shapes m !! k = Some (shape_of p).
Proof. intros Hk. unfold shapes. by rewrite lookup_fmap, Hk. Qed.

Lemma shapes_acts m m' : acts m' = acts m -> shapes m' = shapes m.
Proof. unfold shapes. by intros ->. Qed.

Lemma Inv_view m m' : same_view m m' -> acts m' = acts m -> Inv m -> Inv m'.
Proof. intros Hv Ha I. unfold Inv. rewrite (shapes_acts _ _ Ha). by apply (inv_view _ _ m). Qed.

Lemma Inv_upd s f m : (forall x, core (f x) = core x) -> Inv m -> Inv (upd s f m).
Proof. intros Hf. apply Inv_view; [by apply view_upd|done]. Qed.

Lemma act_allocated m k p : Inv m -> acts m !! k = Some p -> k < next m.
Proof.
  intros I Hk. destruct (decide (k < next m)); [done|].
  pose proof (i_fresh_act _ _ _ I k ltac:(lia)) as Hn. apply shapes_lookup in Hk. congruence.
Qed.

(** Acts do not matter to [inv] itself. *)
Lemma inv_set_act ex S m k p : inv ex S (set_act k p m) <-> inv ex S m.
Proof. split; apply inv_view; split; done. Qed.
Lemma inv_del_act ex S m k : inv ex S (del_act k m) <-> inv ex S m.
Proof. split; apply inv_view; split; done. Qed.

Lemma Inv_set_same m k p p' :
  Inv m -> acts m !! k = Some p -> shape_of p' = shape_of p -> Inv (set_act k p' m).
Proof.
  intros I Hk Hs. unfold Inv. rewrite shapes_set, inv_set_act, Hs, insert_id; [done|]. by apply shapes_lookup.
Qed.

Lemma Inv_set_inert m k p p' :
  Inv m -> acts m !! k = Some p -> inert (shape_of p) = true -> open_shape (shape_of p) = true ->
  inert (shape_of p') = true -> Inv (set_act k p' m).
Proof.
  intros I Hk H1 Ho H2. unfold Inv. rewrite shapes_set, inv_set_act. pose proof (shapes_lookup _ _ _ Hk) as Hs.
  apply inv_inert; [done| |done|by eapply act_allocated| |].
  - unfold inert_at. by rewrite Hs.
  - by eapply (i_open _ _ _ I).
  - intros Hr. destruct (i_reload _ _ _ I _ Hr). congruence.
Qed.

Lemma Inv_del_inert m k p :
  Inv m -> acts m !! k = Some p -> inert (shape_of p) = true -> Inv (del_act k m).
Proof.
  intros I Hk H1. unfold Inv. rewrite shapes_del, inv_del_act. apply inv_inert_delete; [done|].
  unfold inert_at. by rewrite (shapes_lookup _ _ _ Hk).
Qed.

Lemma Inv_spawn m p : Inv m -> inert (shape_of p) = true -> Inv (spawn p m).
Proof.
  intros I Hp. unfold Inv. change (shapes (spawn p m)) with (shapes (set_act (next m) p m)).
  rewrite shapes_set. apply (inv_view _ _ (alloc m)); [by split|]. by apply inv_spawn.
Qed.

Lemma Inv_await m k p p' child :
  Inv m -> acts m !! k = Some p -> shape_of p' = shape_of p -> inert (shape_of child) = true ->
  Inv (await k p' child m).
Proof.
  intros I Hk Hs Hc. unfold await. apply (Inv_set_same _ k p); [by apply Inv_spawn| |done].
  unfold spawn; cbn. rewrite lookup_insert_ne; [done|]. apply (act_allocated m k p) in Hk; [lia|done].
Qed.

(** A goroutine that holds its requirement, or need not hold it. *)
Lemma inv_child_set ex S m k o id c h h' :
  inv ex S m -> S !! k = Some (ShChild o id c h) ->
  (h' = true -> h = true \/ is_Some (requirements (svc m o) !! id)) ->
  inv ex (<[k := ShChild o id c h']> S) m.
Proof.
  intros I Hk Hh. set (S' := <[k := _]> S).
  assert (Hother : forall j x, (forall o id c h, x <> ShChild o id c h) -> S' !! j = Some x <-> S !! j = Some x).
  { intros j x Hx. unfold S'. destruct (decide (j = k)) as [->|]; [|by rewrite lookup_insert_ne by done].
    rewrite lookup_insert_eq, Hk. split; intros E; simplify_eq; exfalso; by eapply Hx. }
  assert (Hch : forall j o' id' c' h', S' !! j = Some (ShChild o' id' c' h') ->
    exists h0, S !! j = Some (ShChild o' id' c' h0) /\
      (h' = true -> h0 = true \/ is_Some (requirements (svc m o') !! id'))).
  { intros j o' id' c' h0. unfold S'. intros [[<- E]|[_ E]]%lookup_insert_Some; simplify_eq; eauto. }
  apply (inv_shapes ex ex S); try done.
  - intros j Hj. unfold S'. rewrite lookup_insert_ne; [by apply (i_fresh_act _ _ _ I)|]. intros <-.
    rewrite (i_fresh_act _ _ _ I) in Hk; done.
  - intros j x. eapply open_insert; [done|exact Hk|]. done.
  - intros ch. by eapply reload_insert.
  - intros c' r ph Hp. exists ph. by apply Hother.
  - intros c' r ph Hp. exists ph. by apply Hother.
  - intros c' r ph Hp. left. by apply Hother.
  - intros j s. by apply Hother.
  - intros h0 Hp. eapply pending_insert; [|exact Hp]. unfold releases_at. by rewrite Hk.
  - intros h0 Hp. left. eapply pending_insert; [|exact Hp]. unfold releases_at. by rewrite Hk.
  - intros c' r out Hw. apply Hother in Hw; [|done]. exact (i_wake _ _ _ I _ _ _ Hw).
  - intros c' r Hw. apply Hother in Hw; [|done]. exact (i_held _ _ _ I _ _ Hw).
  - intros j o' id' c' held Hj. destruct (Hch _ _ _ _ _ Hj) as (h0&Hj0&Himp).
    destruct (i_child _ _ _ I _ _ _ _ _ Hj0) as (r&out&ok&Hr&?&?&Hs). exists r, out, ok.
    split_and!; [by apply Hother|done..|]. intros Ht. destruct (Himp Ht); auto.
  - intros k1 k2 o1 o2 id' c' h1 h2 H1 H2. destruct (Hch _ _ _ _ _ H1) as (?&?&_).
    destruct (Hch _ _ _ _ _ H2) as (?&?&_). by eapply (i_child_unique _ _ _ I).
Qed.

Lemma Inv_ret m k p parent e :
  Inv m -> acts m !! k = Some p -> inert (shape_of p) = true -> Inv (ret k parent e m).
Proof.
  intros I Hk Hi. unfold ret. pose proof (Inv_del_inert m k p I Hk Hi) as I1.
  set (m1 := m_replies _ _). assert (I2 : Inv m1) by (by apply (Inv_view (del_act k m))).
  destruct parent as [j|]; [|done]. destruct (acts m1 !! j) as [q|] eqn:Hj; [|done].
  assert (Hw : forall c q0, q = PAwait c q0 -> Inv (set_act j (resume q0 e) m1)).
  { intros c q0 ->. destruct q0; try (eapply Inv_set_same; [exact I2|exact Hj|done]).
    unfold Inv. rewrite shapes_set, inv_set_act. cbn [resume shape_of].
    eapply inv_child_set; [done|apply shapes_lookup in Hj; exact Hj|auto]. }
  destruct q; try exact I2. by eapply Hw.
Qed.

(** *** Runs *)

Lemma Inv_spawn_run ex m s addr added stop :
  inv ex (shapes m) m -> inflight (svc m s) = None -> s < next m -> stop = stopping (svc m s) ->
  inv ex (shapes (spawn_run s addr stop added m)) (spawn_run s addr stop added m).
Proof.
  intros I Hi Hs ->.
  change (shapes (spawn_run s addr (stopping (svc m s)) added m)) with
    (shapes (set_act (next m) (PRunBegin (mkRun s (def (svc m s)) (driver (svc m s)) addr added)
       (stopping (svc m s))) m)).
  rewrite shapes_set. by apply inv_spawn_run.
Qed.

(** A run moves to another phase; no goroutine of [wakeRequirements] is left behind. *)
Lemma inv_phase ex S m c r ph ph' :
  inv ex S m -> S !! c = Some (ShRun r ph) -> releases (ShRun r ph') = releases (ShRun r ph) ->
  stopping (svc m (r_svc r)) = None ->
  (forall k o id held, S !! k <> Some (ShChild o id c held)) ->
  match ph' with
  | Before _ | Loose _ => True
  | Waking out ok => ok = true -> forall id, id ∈ Requires (r_def r) -> id ∈ out \/ is_Some (requirements (svc m (r_svc r)) !! id)
  | Held => forall id, id ∈ Requires (r_def r) -> is_Some (requirements (svc m (r_svc r)) !! id)
  end ->
  inv ex (<[c := ShRun r ph']> S) m.
Proof.
  intros I Hc Hrel Hst Hno Hph. set (S' := <[c := _]> S).
  assert (Hp : forall h, pending ex S' h <-> pending ex S h).
  { intros h. apply pending_insert. unfold releases_at. by rewrite Hc. }
  assert (Hne : forall k x, (forall ph, x <> ShRun r ph) -> S' !! k = Some x <-> S !! k = Some x).
  { intros k x Hx. unfold S'. destruct (decide (k = c)) as [->|]; [|by rewrite lookup_insert_ne by done].
    rewrite lookup_insert_eq, Hc. split; intros E; simplify_eq; exfalso; by eapply Hx. }
  apply (inv_shapes ex ex S); try done.
  - intros j Hj. unfold S'. rewrite lookup_insert_ne; [by apply (i_fresh_act _ _ _ I)|]. intros <-.
    rewrite (i_fresh_act _ _ _ I) in Hc; done.
  - intros j x. eapply open_insert; [done|exact Hc|done].
  - intros ch. by eapply reload_insert.
  - intros c' r' ph0. unfold S'. intros [[<- E]|[_ E]]%lookup_insert_Some; simplify_eq; eauto.
  - intros c' r' ph0 E. unfold S'. destruct (decide (c' = c)) as [->|]; [|rewrite lookup_insert_ne by done; eauto].
    rewrite lookup_insert_eq. rewrite Hc in E. simplify_eq. eauto.
  - intros c' r' ph0. unfold S'. intros [[<- E]|[_ E]]%lookup_insert_Some; simplify_eq; eauto.
  - intros k s. by apply Hne.
  - by intros h ?%Hp.
  - intros h ?. left. by apply Hp.
  - intros c' r' out. unfold S'. intros [[<- E]|[_ E]]%lookup_insert_Some; simplify_eq; [by apply Hph|].
    exact (i_wake _ _ _ I _ _ _ E).
  - intros c' r'. unfold S'. intros [[<- E]|[_ E]]%lookup_insert_Some; simplify_eq; [by apply Hph|].
    exact (i_held _ _ _ I _ _ E).
  - intros k o id c' held Hk. apply Hne in Hk; [|done].
    destruct (i_child _ _ _ I _ _ _ _ _ Hk) as (r'&out&ok&Hr&?). exists r', out, ok. split; [|done].
    unfold S'. rewrite lookup_insert_ne; [done|]. intros <-. by eapply Hno.
  - intros k1 k2 o1 o2 id c' h1 h2 H1 H2. apply Hne in H1, H2; try done. by eapply (i_child_unique _ _ _ I).
Qed.

Lemma run_not_waking_childless ex S m c r ph :
  inv ex S m -> S !! c = Some (ShRun r ph) -> (forall out ok, ph <> Waking out ok) ->
  forall k o id held, S !! k <> Some (ShChild o id c held).
Proof.
  intros I Hc Hph k o id held Hk. destruct (i_child _ _ _ I _ _ _ _ _ Hk) as (r'&out&ok&Hr&_).
  rewrite Hc in Hr. simplify_eq. by eapply Hph.
Qed.

Lemma run_going ex S m c r ph :
  inv ex S m -> S !! c = Some (ShRun r ph) -> (forall stop, ph <> Before (Some stop)) ->
  stopping (svc m (r_svc r)) = None.
Proof. intros I Hc Hph. destruct (i_run_stop _ _ _ I _ _ _ Hc) as [?|(ch&->&_)]; [done|]. by destruct (Hph ch). Qed.

(** *** [wakeRequirements] *)

Fixpoint add_children (o c : nat) (ids : list string) (n : nat) (S : gmap nat shape) : gmap nat shape :=
  match ids with
  | [] => S
  | id :: ids' => add_children o c ids' (Datatypes.S n) (<[n := ShChild o id c false]> S)
  end.

Lemma shapes_spawn_wakes o d c ids m :
  shapes (spawn_wakes o d c ids m) = add_children o c ids (next m) (shapes m).
Proof.
  revert m. induction ids as [|id ids IH]; intros m; [done|]. cbn [spawn_wakes add_children]. rewrite IH.
  change (shapes (spawn (PWake o d id c) m)) with (shapes (set_act (next m) (PWake o d id c) m)).
  by rewrite shapes_set.
Qed.

Lemma add_children_set o c ids n S k sh :
  k < n -> add_children o c ids n (<[k := sh]> S) = <[k := sh]> (add_children o c ids n S).
Proof.
  revert n S. induction ids as [|id ids IH]; intros n S Hk; [done|]. cbn [add_children].
  rewrite insert_insert_ne by lia. apply IH. lia.
Qed.

Lemma inv_child_spawn ex S m o id c r out ok :
  inv ex S m -> S !! c = Some (ShRun r (Waking out ok)) -> r_svc r = o -> id ∈ out ->
  (forall k o' h, S !! k <> Some (ShChild o' id c h)) ->
  inv ex (<[next m := ShChild o id c false]> S) (alloc m).
Proof.
  intros I Hc Ho Hid Hno. set (S' := <[next m := _]> S).
  pose proof (i_fresh_act _ _ _ I (next m) ltac:(lia)) as Hnew.
  assert (Hne : forall k x, (forall o id c h, x <> ShChild o id c h) -> S' !! k = Some x <-> S !! k = Some x).
  { intros k x Hx. unfold S'. destruct (decide (k = next m)) as [->|]; [|by rewrite lookup_insert_ne by done].
    rewrite lookup_insert_eq, Hnew. split; intros E; simplify_eq; exfalso; by eapply Hx. }
  assert (Hp : forall h, pending ex S' h <-> pending ex S h).
  { intros h. apply pending_insert. unfold releases_at. by rewrite Hnew. }
  apply (inv_shapes ex ex S); try (by apply inv_alloc).
  - intros j Hj. unfold S'. cbn in Hj. rewrite lookup_insert_ne by lia. apply (i_fresh_act _ _ _ I). lia.
  - intros j x. unfold S'. intros [[<- <-]|[_ Hj]]%lookup_insert_Some Hx; [|by eapply (i_open _ _ _ I)].
    intros Hcl%(i_fresh_closed _ _ _ I). lia.
  - intros ch Hch. destruct (i_reload _ _ _ I _ Hch). unfold S'. rewrite lookup_insert_ne by lia. done.
  - intros c' r' ph E. exists ph. by apply Hne.
  - intros c' r' ph E. exists ph. by apply Hne.
  - intros c' r' ph E. left. by apply Hne.
  - intros k s. by apply Hne.
  - by intros h ?%Hp.
  - intros h ?. left. by apply Hp.
  - intros c' r' out' E. apply Hne in E; [|done]. exact (i_wake _ _ _ I _ _ _ E).
  - intros c' r' E. apply Hne in E; [|done]. exact (i_held _ _ _ I _ _ E).
  - intros k o' id' c' held. unfold S'. intros [[<- E]|[_ E]]%lookup_insert_Some.
    + simplify_eq. exists r, out, ok. split_and!; try done. by apply Hne.
    + destruct (i_child _ _ _ I _ _ _ _ _ E) as (r'&out'&ok'&?&?). exists r', out', ok'. split; [by apply Hne|done].
  - intros k1 k2 o1 o2 id' c' h1 h2. unfold S'.
    intros [[<- E1]|[_ E1]]%lookup_insert_Some [[<- E2]|[_ E2]]%lookup_insert_Some; simplify_eq; try done.
    + by eapply Hno in E2.
    + by eapply Hno in E1.
    + by eapply (i_child_unique _ _ _ I).
Qed.

Lemma inv_add_children ex S m o d c r out ok ids :
  inv ex S m -> S !! c = Some (ShRun r (Waking out ok)) -> r_svc r = o ->
  NoDup ids -> (forall id, id ∈ ids -> id ∈ out) ->
  (forall id k o' h, id ∈ ids -> S !! k <> Some (ShChild o' id c h)) ->
  inv ex (add_children o c ids (next m) S) (spawn_wakes o d c ids m).
Proof.
  intros I Hc Ho Hnd. revert S m I Hc. induction Hnd as [|id ids Hid Hnd IH]; intros S m I Hc Hin Hno; [done|].
  cbn [add_children spawn_wakes].
  pose proof (i_fresh_act _ _ _ I (next m) ltac:(lia)) as Hnew.
  change (Datatypes.S (next m)) with (next (spawn (PWake o d id c) m)). apply IH.
  - apply (inv_view _ _ (alloc m)); [by split|]. eapply inv_child_spawn; try done; [apply Hin; by left|].
    intros k o' h. apply Hno. by left.
  - rewrite lookup_insert_ne; [done|]. congruence.
  - intros x Hx. apply Hin. by right.
  - intros x k o' h Hx. intros [[<- E]|[_ E]]%lookup_insert_Some; [by simplify_eq|].
    by eapply (Hno x); [right|].
Qed.

Lemma Inv_wake_begin m k r stop :
  Inv m -> acts m !! k = Some (PRunBegin r stop) -> stopping (svc m (r_svc r)) = None -> Inv (wake_begin k r m).
Proof.
  intros I Hk Hst. pose proof (shapes_lookup _ _ _ Hk) as Hs. cbn in Hs.
  pose proof (act_allocated _ _ _ I Hk) as Hlt.
  pose proof (run_not_waking_childless _ _ _ _ _ _ I Hs ltac:(done)) as Hno.
  unfold Inv, wake_begin. rewrite shapes_set, inv_set_act, shapes_spawn_wakes, <- add_children_set by done.
  unfold receive. case_bool_decide as He.
  - rewrite He, elements_empty. cbn [add_children spawn_wakes after_wake shape_of]. eapply inv_phase; try done.
    intros id Hid. exfalso. apply (not_elem_of_empty (C := gset string) id). rewrite <- He. by apply elem_of_list_to_set.
  - cbn [shape_of]. eapply inv_add_children with (out := list_to_set (Requires (r_def r))); [| | | | |].
    + eapply inv_phase; try done. intros _ id Hid. left. by apply elem_of_list_to_set.
    + by rewrite lookup_insert_eq.
    + done.
    + apply NoDup_elements.
    + intros id. by rewrite elem_of_elements.
    + intros id k' o' h _. intros [[_ E]|[_ E]]%lookup_insert_Some; [done|]. by eapply Hno.
Qed.

Lemma Inv_wake_turn m k o d id c :
  Inv m -> acts m !! k = Some (PWake o d id c) -> Inv (wake_turn k o d id c m).
Proof.
  intros I Hk. pose proof (shapes_lookup _ _ _ Hk) as Hs. cbn in Hs. unfold wake_turn.
  destruct (services m !! id) as [q|] eqn:Hq; [|by eapply Inv_set_same].
  destruct (negb _); [by eapply Inv_set_same|].
  destruct (stopping (svc m q)) eqn:Est; [by eapply Inv_set_same|].
  destruct (i_ids _ _ _ I _ _ Hq) as [Hid _].
  destruct (i_child _ _ _ I _ _ _ _ _ Hs) as (r&out&ok&Hr&<-&_&_).
  pose proof (run_allocated _ _ _ _ _ _ I Hr) as Hlt. pose proof Hq as Hreg. rewrite <- Hid in Hreg.
  pose proof (inv_hold _ _ _ _ _ I Hreg Est Hlt) as (I'&OH&Hsome).
  destruct (holdRequirementLocked (r_svc r) q m) as [added m1]. cbn [snd] in *. rewrite Hid in Hsome.
  pose proof (oh_acts _ _ OH) as Ha.
  unfold await. set (p' := PWakeRes _ _ _ _ _). set (child := PBegin _ _ _ _ _ _).
  assert (I1 : inv [] (shapes m1) m1) by (by rewrite (shapes_acts m m1 Ha)).
  pose proof (Inv_spawn m1 child I1 eq_refl) as I2.
  unfold Inv. rewrite shapes_set, inv_set_act.
  change (shape_of (PAwait (next m1) p')) with (ShChild (r_svc r) id c true).
  eapply inv_child_set; [exact I2| |intros _; right; exact Hsome].
  unfold spawn. change (shapes (alloc ?x)) with (shapes x). rewrite shapes_set, lookup_insert_ne.
  - rewrite (shapes_acts m m1 Ha). exact Hs.
  - pose proof (act_allocated _ _ _ I Hk). pose proof (oh_next _ _ OH). lia.
Qed.

Definition has_err (e : option error) : bool := match e with Some _ => true | None => false end.

(** The result of a goroutine reaches the run. *)
Lemma inv_delivered S m k c r out ok o id held ph' :
  inv [] S m -> S !! k = Some (ShChild o id c held) -> S !! c = Some (ShRun r (Waking out ok)) ->
  match ph' with
  | Waking out' ok' => out' = out ∖ {[id]} /\ out' <> ∅ /\ (ok' = true -> ok = true /\ held = true)
  | Held => out ∖ {[id]} = ∅ /\ ok = true /\ held = true
  | Loose l => out ∖ {[id]} = ∅ /\ l = []
  | Before _ => False
  end ->
  inv [] (<[c := ShRun r ph']> (delete k S)) m.
Proof.
  intros I Hk Hc Hph. set (S' := <[c := _]> _). assert (Hkc : k <> c) by congruence.
  destruct (i_child _ _ _ I _ _ _ _ _ Hk) as (r0&out0&ok0&Hr0&Ho&Hin&Hheld). rewrite Hc in Hr0. simplify_eq.
  pose proof (run_going _ _ _ _ _ _ I Hc ltac:(done)) as Hst.
  assert (Hrun : forall c' r' ph, S' !! c' = Some (ShRun r' ph) ->
    (c' = c /\ r' = r0 /\ ph = ph') \/ (c' <> c /\ S !! c' = Some (ShRun r' ph))).
  { intros c' r' ph. unfold S'. intros [[<- E]|[Hne E]]%lookup_insert_Some; simplify_eq; [by left|right].
    apply lookup_delete_Some in E as [_ E]. auto. }
  assert (Hkeep : forall j, j <> c -> j <> k -> S' !! j = S !! j).
  { intros j H1 H2. unfold S'. by rewrite lookup_insert_ne, lookup_delete_ne by done. }
  assert (Hsub : forall j x, j <> c -> S' !! j = Some x -> S !! j = Some x /\ j <> k).
  { intros j x Hj. unfold S'. rewrite lookup_insert_ne by done. intros [? ?]%lookup_delete_Some. auto. }
  assert (Hchild : forall j o' id' c' h, S' !! j = Some (ShChild o' id' c' h) ->
    S !! j = Some (ShChild o' id' c' h) /\ (c' = c -> id' <> id)).
  { intros j o' id' c' h Hj. assert (j <> c) by (intros ->; unfold S' in Hj; by rewrite lookup_insert_eq in Hj).
    destruct (Hsub j _ ltac:(done) Hj) as [Hj' Hjk]. split; [done|]. intros -> ->. apply Hjk.
    by eapply (i_child_unique _ _ _ I). }
  assert (Hreq : forall id', id' ∈ Requires (r_def r0) -> ok0 = true -> held = true ->
    id' ∈ out0 ∖ {[id]} \/ is_Some (requirements (svc m (r_svc r0)) !! id')).
  { intros id' Hid -> Hh. destruct (i_wake _ _ _ I _ _ _ Hc id' Hid) as [Hx|?]; [|by right].
    destruct (decide (id' = id)) as [->|]; [right; auto|left; set_solver]. }
  apply (inv_shapes [] [] S); try done.
  - intros j Hj. pose proof (i_fresh_act _ _ _ I j Hj) as Hn. unfold S'. rewrite lookup_insert_ne by congruence.
    by apply lookup_delete_None; right.
  - intros j x. unfold S'. intros [[<- <-]|[_ Hj]]%lookup_insert_Some Hx; [by eapply (i_open _ _ _ I)|].
    apply lookup_delete_Some in Hj as [_ Hj]. by eapply (i_open _ _ _ I).
  - intros ch Hch. destruct (i_reload _ _ _ I _ Hch) as [_ Hn]. unfold S'. rewrite lookup_insert_ne by congruence.
    by apply lookup_delete_None; right.
  - intros c' r' ph Hr. destruct (Hrun _ _ _ Hr) as [(->&->&->)|[_ ?]]; eauto.
  - intros c' r' ph Hr. destruct (decide (c' = c)) as [->|].
    + rewrite Hc in Hr. simplify_eq. unfold S'. rewrite lookup_insert_eq. eauto.
    + rewrite (Hkeep c') by congruence. eauto.
  - intros c' r' ph Hr. destruct (Hrun _ _ _ Hr) as [(->&->&->)|[_ ?]]; eauto.
  - intros j s. destruct (decide (j = c)) as [->|Hj].
    { unfold S'. rewrite lookup_insert_eq, Hc. split; intros ?; simplify_eq. }
    split; [intros Hs; by apply (Hsub j) in Hs as [? _]|]. intros Hs. by rewrite (Hkeep j) by congruence.
  - intros h [?|(j&sh&Hj&Hin')]; [by left|right]. unfold S' in Hj.
    apply lookup_insert_Some in Hj as [[<- <-]|[_ Hj]]; [|apply lookup_delete_Some in Hj as [_ Hj]; eauto].
    exfalso. destruct ph' as [| | |l]; try (by apply not_elem_of_nil in Hin'). destruct Hph as [_ ->]. by apply not_elem_of_nil in Hin'.
  - intros h [?|(j&sh&Hj&Hin')]; [by left; left|left; right]. exists j, sh. split; [|done].
    rewrite (Hkeep j); [done|..]; intros ->; simplify_eq; by apply not_elem_of_nil in Hin'.
  - intros c' r' out' Hr. destruct (Hrun _ _ _ Hr) as [(->&->&<-)|[_ ?]]; [|by eapply (i_wake _ _ _ I)].
    destruct Hph as (->&_&Hok). destruct (Hok eq_refl) as [-> ->]. auto.
  - intros c' r' Hr. destruct (Hrun _ _ _ Hr) as [(->&->&<-)|[_ ?]]; [|by eapply (i_held _ _ _ I)].
    destruct Hph as (He&->&->). intros id' Hid. destruct (Hreq id' Hid eq_refl eq_refl) as [Hx|?]; [|done].
    rewrite He in Hx. by apply elem_of_empty in Hx.
  - intros j o' id' c' h Hj. destruct (Hchild _ _ _ _ _ Hj) as [Hj' Hne].
    destruct (i_child _ _ _ I _ _ _ _ _ Hj') as (r'&out'&ok'&Hr'&Ho'&Hin'&Hh').
    destruct (decide (c' = c)) as [->|Hcc].
    + rewrite Hc in Hr'. simplify_eq. assert (Hx : id' ∈ out' ∖ {[id]}) by (specialize (Hne eq_refl); set_solver).
      destruct ph' as [|out1 ok1| |l]; [done| |destruct Hph as [E _]; rewrite E in Hx; by apply elem_of_empty in Hx..].
      destruct Hph as (->&_&_). exists r', (out' ∖ {[id]}), ok1. unfold S'. by rewrite lookup_insert_eq.
    + exists r', out', ok'. rewrite (Hkeep c') by congruence. done.
  - intros k1 k2 o1 o2 id' c' h1 h2 H1 H2. apply Hchild in H1 as [H1 _], H2 as [H2 _]. by eapply (i_child_unique _ _ _ I).
Qed.

Lemma Inv_wake_send m k o id c added err m' :
  Inv m -> acts m !! k = Some (PWakeSend o id c added err) -> wake_send k id c added err m = Some m' -> Inv m'.
Proof.
  intros I Hk. unfold wake_send. destruct (acts m !! c) as [[]|] eqn:Hc; try done. intros [= <-].
  apply shapes_lookup in Hk, Hc. cbn in Hk, Hc. unfold Inv. rewrite shapes_set, inv_set_act, shapes_del, inv_del_act.
  unfold receive. case_bool_decide as He.
  - unfold after_wake. destruct err as [e|], err0 as [e'|]; cbn [shape_of]; eapply inv_delivered; eauto; done.
  - destruct err as [e|], err0 as [e'|]; cbn [shape_of]; eapply inv_delivered; eauto; done.
Qed.

(** *** Sections that only change what the invariant does not read *)

Lemma view_setState s st m : same_view m (setState s st m).2.
Proof. apply view_upd. done. Qed.

Lemma view_notify b m : same_view m (notify b m).
Proof. by destruct b; split. Qed.

Lemma acts_notify b m : acts (notify b m) = acts m.
Proof. by destruct b. Qed.

Lemma view_markRunning s b m : same_view m (markRunning s b m).
Proof.
  unfold markRunning. pose proof (view_setState s StateRunning m) as Hv. destruct (setState _ _ _) as [ch m1]. cbn in Hv.
  rewrite Hv. rewrite <- view_notify. apply view_upd. intros x. cbv zeta.
  repeat case_match; done.
Qed.

Lemma acts_markRunning s b m : acts (markRunning s b m) = acts m.
Proof. unfold markRunning, setState. by rewrite acts_notify. Qed.

Lemma view_failStart s e m : same_view m (failStart s e m).
Proof.
  unfold failStart. pose proof (view_setState s StateError m) as Hv. destruct (setState _ _ _) as [ch m1]. cbn in Hv.
  rewrite Hv, <- view_notify. by apply view_upd.
Qed.

Lemma acts_failStart s e m : acts (failStart s e m) = acts m.
Proof. unfold failStart, setState. by rewrite acts_notify. Qed.

Lemma Inv_markRunning s b m : Inv m -> Inv (markRunning s b m).
Proof. apply Inv_view; [apply view_markRunning|apply acts_markRunning]. Qed.
Lemma Inv_failStart s e m : Inv m -> Inv (failStart s e m).
Proof. apply Inv_view; [apply view_failStart|apply acts_failStart]. Qed.
Lemma Inv_notify b m : Inv m -> Inv (notify b m).
Proof. apply Inv_view; [apply view_notify|apply acts_notify]. Qed.
Lemma Inv_setState s st m : Inv m -> Inv (setState s st m).2.
Proof. apply Inv_view; [apply view_setState|done]. Qed.

(** *** [ensure] *)

Lemma Inv_run_state m k r added ans probe :
  Inv m -> acts m !! k = Some (PRunState r added) -> Inv (run_state k r added ans probe m).
Proof.
  intros I Hk. unfold run_state. destruct (match driver_state _ _ with Saw _ => _ | Blind _ => _ end).
  - eapply Inv_set_same; [by apply Inv_markRunning|rewrite acts_markRunning; exact Hk|done].
  - pose proof (Inv_setState (r_svc r) StateStarting m I) as I1.
    unfold setState in *. eapply Inv_set_same; [by apply Inv_notify|rewrite acts_notify; exact Hk|done].
Qed.

Lemma Inv_run_start m k r added ans :
  Inv m -> acts m !! k = Some (PRunStart r added) -> Inv (run_start k r added ans m).
Proof.
  intros I Hk. unfold run_start. destruct (driver_do _ _); [|by eapply Inv_set_same].
  eapply Inv_set_same; [by apply Inv_failStart|rewrite acts_failStart; exact Hk|done].
Qed.

Lemma Inv_run_poll m k r added ans probe :
  Inv m -> acts m !! k = Some (PRunPoll r added) -> Inv (run_poll k r added ans probe m).
Proof.
  intros I Hk. unfold run_poll. destruct (if hasTarget _ then _ else _); [by eapply Inv_set_same|].
  eapply Inv_set_same; [by apply Inv_markRunning|rewrite acts_markRunning; exact Hk|done].
Qed.

Lemma Inv_run_timeout m k r added e :
  Inv m -> acts m !! k = Some (PRunTick r added e) -> Inv (run_timeout k r added e m).
Proof.
  intros I Hk. unfold run_timeout.
  eapply Inv_set_same; [by apply Inv_failStart|rewrite acts_failStart; exact Hk|done].
Qed.

Lemma inv_loosen S m c r :
  inv [] S m -> S !! c = Some (ShRun r Held) -> inv [] (<[c := ShRun r (Loose [])]> S) m.
Proof.
  intros I Hc. eapply inv_phase; [done|done|done| |by eapply run_not_waking_childless|done].
  by eapply run_going.
Qed.

Lemma Inv_run_failed m k r added err ans :
  Inv m -> acts m !! k = Some (PRunFailed r added err) -> Inv (run_failed k r added err ans m).
Proof.
  intros I Hk. unfold run_failed. unfold Inv. rewrite shapes_set, inv_set_act. cbn [shape_of].
  apply inv_loosen; [done|]. by apply shapes_lookup in Hk.
Qed.

(** A list that a section built becomes that of its activity. *)
Lemma inv_stash l S m k sh :
  inv l S m -> S !! k = Some sh -> can_release sh -> releases sh = [] ->
  inv [] (<[k := with_releases sh l]> S) m.
Proof.
  intros I Hk Hc Hr. assert (Hl : releases (with_releases sh l) = l) by (destruct sh as [? []| | | |]; done).
  eapply inv_lists; try done.
  - intros h [Hh|(j&x&Hj&Hin)]; [by apply not_elem_of_nil in Hh|].
    apply lookup_insert_Some in Hj as [[<- <-]|[_ Hj]]; [left; by rewrite Hl in Hin|right; eauto].
  - intros h [Hh|(j&x&Hj&Hin)]; left; right.
    + exists k, (with_releases sh l). by rewrite lookup_insert_eq, Hl.
    + exists j, x. split; [|done]. rewrite lookup_insert_ne; [done|]. intros <-. simplify_eq.
      rewrite Hr in Hin. by apply not_elem_of_nil in Hin.
Qed.

Lemma inv_detach_requirements ex S m s keep release m' :
  inv ex S m -> unheld S s -> detachRequirementsLocked s keep m = (release, m') ->
  inv (release ++ ex) S m' /\ acts m' = acts m.
Proof. intros I Hu E. split; [by eapply inv_detach|by apply detach_fields in E as (_&?&_)]. Qed.

Lemma unheld_loose ex S m k r l : inv ex S m -> S !! k = Some (ShRun r (Loose l)) -> unheld S (r_svc r).
Proof.
  intros I Hk c r' ph Hc E. pose proof (run_unique _ _ _ _ _ _ _ _ _ I Hc Hk E) as ->. by simplify_eq.
Qed.

Lemma unheld_idle ex S m s : inv ex S m -> inflight (svc m s) = None -> unheld S s.
Proof. intros I Hi c r ph Hc <-. destruct (i_run _ _ _ I _ _ _ Hc) as [Hf _]. congruence. Qed.

Lemma Inv_run_detach m k r added err retain failed :
  Inv m -> acts m !! k = Some (PRunDetach r added err retain failed) ->
  Inv (run_detach k r added err retain failed m).
Proof.
  intros I Hk. pose proof (shapes_lookup _ _ _ Hk) as Hs.
  set (S1 := <[k := ShRun r (Loose [])]> (shapes m)).
  assert (I1 : inv [] S1 m).
  { unfold S1. destruct err; cbn in Hs; [by rewrite insert_id|by apply inv_loosen]. }
  assert (H1 : S1 !! k = Some (ShRun r (Loose []))) by apply lookup_insert_eq.
  pose proof (unheld_loose _ _ _ _ _ _ I1 H1) as Hu.
  assert (Hend : forall release m', inv release S1 m' -> acts m' = acts m ->
    Inv (set_act k (PRunRelease r err release) m')).
  { intros release m' I2 Ha. unfold Inv. rewrite shapes_set, inv_set_act, (shapes_acts _ _ Ha).
    apply (inv_stash _ _ _ k (ShRun r (Loose []))) in I2; [|done..]. cbn [with_releases] in I2.
    unfold S1 in I2. by rewrite insert_insert_eq in I2. }
  unfold run_detach. destruct err as [e|].
  - set (m1 := upd _ (w_lastError _) m).
    match goal with |- context [if ?b then upd (r_svc r) ?f m1 else m1] => set (m2 := if b then upd (r_svc r) f m1 else m1) end.
    assert (I2 : inv [] S1 m2).
    { apply (inv_view _ _ m); [|done]. unfold m2. destruct (_ || _); [etransitivity|]; by apply view_upd. }
    assert (Ha : acts m2 = acts m) by (unfold m2; by destruct (_ || _)).
    destruct (negb retain); [|by apply Hend].
    destruct (detachRequirementIDsLocked _ _ m2) as [rel m3] eqn:E.
    apply Hend; [rewrite <- (app_nil_r rel); by eapply inv_detach|].
    apply detach_fields in E as (_&->&_). done.
  - destruct (detachRequirementsLocked _ _ m) as [rel m3] eqn:E.
    destruct (inv_detach_requirements [] _ _ _ _ _ _ I1 Hu E) as [I3 Ha]. rewrite app_nil_r in I3. by apply Hend.
Qed.

Lemma inv_run_end S m k r :
  inv [] S m -> S !! k = Some (ShRun r (Loose [])) ->
  inv [] (delete k S) (close k (upd (r_svc r) (fun x => bump_version (w_inflight None x)) m)).
Proof.
  intros I Hk. set (m' := close k _). pose proof (run_going _ _ _ _ _ _ I Hk ltac:(done)) as Hst0.
  assert (Hlt : k < next m).
  { destruct (decide (k < next m)); [done|]. rewrite (i_fresh_act _ _ _ I) in Hk by lia. done. }
  assert (Hi : forall t, inflight (svc m' t) = if decide (t = r_svc r) then None else inflight (svc m t)).
  { intros t. unfold m'. change (svc (close k ?x)) with (svc x). rewrite svc_upd. by destruct (decide (t = r_svc r)). }
  field_eqs m m' ltac:(fun F t => change (svc m' t) with (svc (upd (r_svc r) (fun x => bump_version (w_inflight None x)) m) t); by_upd F t).
  assert (Hp : forall h, pending [] (delete k S) h <-> pending [] S h).
  { intros h. apply pending_delete. unfold releases_at. by rewrite Hk. }
  assert (Hkeep : forall j x, S !! j = Some x -> x <> ShRun r (Loose []) -> delete k S !! j = Some x).
  { intros j x Hj Hx. rewrite lookup_delete_ne; [done|]. intros <-. congruence. }
  pose proof I as I0. destruct I. split; intros *; change (services m') with (services m);
    change (holds m') with (holds m); change (closed m') with ({[k]} ∪ closed m); change (next m') with (next m);
    rewrite ?Hp, ?Hd, ?Hdr, ?Hst, ?Hr, ?Hde, ?Hi; intros; shape_cases; eauto.
  - by apply lookup_delete_None; right; apply i_fresh_act0.
  - destruct (i_fresh_svc0 s H) as (?&?&?&?). destruct (decide _); auto.
  - apply elem_of_union in H as [?%elem_of_singleton|?]; [by subst|auto].
  - intros [->%elem_of_singleton|?]%elem_of_union; [done|]. by eapply i_open0.
  - change (reloadDone m' = Some ch) with (reloadDone m = Some ch) in H. destruct (i_reload0 _ H).
    rewrite lookup_delete_None. auto.
  - destruct (i_run0 _ _ _ H) as (?&?&?). split_and!; [|done..].
    destruct (decide _) as [E|]; [|done]. exfalso. by pose proof (run_unique _ _ _ _ _ _ _ _ _ I0 H Hk E).
  - destruct (decide _); [done|]. destruct (i_inflight0 _ _ H) as (r'&ph&?&?). exists r', ph. split; [|done].
    apply Hkeep; [done|]. congruence.
  - destruct (i_stopping0 _ _ H) as (Hs&?). split; [by apply Hkeep|done].
  - destruct (i_req0 _ _ _ H) as (q&?&?&?&?). exists q. by rewrite Hp, Hd, Hde.
  - destruct (i_child0 _ _ _ _ _ H) as (r'&out&ok&?&?). exists r', out, ok. split; [|done]. by apply Hkeep.
Qed.

Lemma Inv_run_end m k r err :
  Inv m -> acts m !! k = Some (PRunRelease r err []) -> Inv (run_end k r err m).
Proof.
  intros I Hk. unfold Inv, run_end.
  change (shapes (close k ?x)) with (shapes x). change (shapes (upd ?s ?f ?x)) with (shapes x).
  change (shapes (m_calls ?c ?x)) with (shapes x). rewrite shapes_del.
  apply (inv_view _ _ (close k (upd (r_svc r) (fun x => bump_version (w_inflight None x)) m))); [by split|].
  apply inv_run_end; [done|]. by apply shapes_lookup in Hk.
Qed.

End Holds.
