(* ===== verification/ServiceSafety.v ===== *)
(** * Safety of the service manager

    Every step of the machine of [Services] keeps the invariant of [ServiceHolds]: the
    sections that stop, observe and reload services, and the theorems that follow. *)
From S2P Require Import Prelude GoIO GoStrings Requirements Services ServiceSamples ServiceHolds.
Import Services Samples Holds.

Module Safety.
Local Open Scope nat_scope.

(** *** Ends of activities *)

Lemma Inv_release_one m k i release rest p m' :
  Inv m -> acts m !! k = Some p -> can_release (shape_of p) -> releases (shape_of p) = release ->
  (forall l, shape_of (rest l) = with_releases (shape_of p) l) ->
  release_one k i release rest m = Some m' -> Inv m'.
Proof.
  intros I Hk Hc Hrel Hrest. unfold release_one. destruct (release !! i) as [h|] eqn:Hi; [|done].
  pose proof (shapes_lookup _ _ _ Hk) as Hs.
  assert (Hin : h ∈ releases (shape_of p)) by (rewrite Hrel; by eapply list_elem_of_lookup_2).
  destruct (inv_fire [] (shapes m) m h I) as (I1&Hno&Ha); [right; eauto|].
  destruct (fire h m) as [stop m1]. cbn [snd] in *.
  assert (I2 : Inv m1) by (unfold Inv; by rewrite (shapes_acts _ _ Ha)).
  assert (Hk1 : acts m1 !! k = Some p) by (by rewrite Ha).
  set (p' := rest (delete i release)).
  assert (Hset : forall q m2, Inv m2 -> acts m2 !! k = Some p -> (forall s, svc m2 s = svc m1 s) ->
    shape_of q = shape_of p' -> Inv (set_act k q m2)).
  { intros q m2 I3 Hk2 Hsv Hq. unfold Inv. rewrite shapes_set, inv_set_act, Hq. unfold p'. rewrite Hrest.
    pose proof (shapes_lookup _ _ _ Hk2) as Hs2.
    assert (Hl : releases (with_releases (shape_of p) (delete i release)) = delete i release)
      by (destruct (shape_of p) as [? []| | | |]; done).
    eapply inv_lists; [done|done|done|..].
    - intros x [?|(j&sh&Hj&Hx)]; [by left|right]. apply lookup_insert_Some in Hj as [[<- <-]|[_ Hj]]; [|eauto].
      rewrite Hl in Hx. exists k, (shape_of p). split; [done|]. rewrite Hrel.
      eapply elem_of_submseteq; [exact Hx|]. apply sublist_submseteq, sublist_delete.
    - intros x [?|(j&sh&Hj&Hx)]; [by left; left|]. destruct (decide (x = h)) as [->|Hne].
      { right. intros q0 o. rewrite Hsv. apply Hno. }
      left. right. destruct (decide (j = k)) as [->|].
      + rewrite Hs2 in Hj. simplify_eq. exists k, (with_releases (shape_of p) (delete i (releases (shape_of p)))).
        rewrite lookup_insert_eq, Hl. split; [done|].
        rewrite (delete_Permutation _ _ _ Hi), elem_of_cons in Hx. naive_solver.
      + exists j, sh. by rewrite lookup_insert_ne. }
  destruct stop as [s|]; intros [= <-]; [|by apply Hset].
  unfold await. apply Hset; [by apply Inv_spawn| |done|done].
  unfold spawn; cbn. rewrite lookup_insert_ne; [done|]. apply (act_allocated m1 k p) in Hk1; [lia|done].
Qed.

(** *** Starting and stopping *)
Lemma when_Some b m m' : when b m = Some m' -> b = true /\ m' = m.
Proof. unfold when. destruct b; [|done]. by intros [= <-]. Qed.

(** Reduces a turn to the state it returns. *)
Ltac turn_cases :=
  repeat match goal with
  | |- None = Some _ -> _ => intros [=]
  | |- Some _ = Some _ -> _ => let E := fresh in intros E; apply (inj Some) in E; subst
  | |- when _ _ = Some _ -> _ => intros [? ->]%when_Some
  | |- (match ?x with _ => _ end) = _ -> _ => is_var x; destruct x
  end.

Section Steps.
Context `{UnicodeQuote}.

Lemma Inv_begin_turn m k id addr recursive ctx wait parent :
  Inv m -> acts m !! k = Some (PBegin id addr recursive ctx wait parent) ->
  Inv (begin_turn k id addr ctx wait parent m).
Proof.
  intros I Hk. unfold begin_turn, begin_ensure.
  assert (Hret : forall e, Inv (ret k parent e m)) by (intros e; by eapply Inv_ret).
  assert (Hgo : forall c m1, Inv m1 -> acts m1 !! k = Some (PBegin id addr recursive ctx wait parent) ->
    Inv (if wait then set_act k (PWaitCall id c ctx parent) m1 else ret k parent None m1)).
  { intros c m1 I1 Hk1. destruct wait; [by eapply Inv_set_inert|by eapply Inv_ret]. }
  destruct (services m !! id) as [s|] eqn:Hs; [|apply Hret].
  destruct (invalidated (svc m s)); [apply Hret|].
  destruct (validateRequirementsLocked s m); [apply Hret|].
  destruct (inflight (svc m s)) as [c|] eqn:Hi; [by apply Hgo|].
  destruct (i_ids _ _ _ I _ _ Hs) as [_ Hlt].
  apply Hgo; [by apply Inv_spawn_run|]. cbn. rewrite lookup_insert_ne; [done|].
  apply (act_allocated m k _ I) in Hk. lia.
Qed.

Lemma inv_stop_begin S m k s :
  inv [] S m -> S !! k = Some ShNone -> dependents (svc m s) = ∅ -> inflight (svc m s) = None ->
  stopping (svc m s) = None -> s < next m ->
  inv [] (<[k := ShStop s]> S) (upd s (fun x => bump_version (w_stopping (Some k) x)) m).
Proof.
  intros I Hk Hdep Hin Hnst Hlt. set (m' := upd s _ m). set (S' := <[k := _]> S).
  assert (Hst : forall t, stopping (svc m' t) = if decide (t = s) then Some k else stopping (svc m t)).
  { intros t. unfold m'. rewrite svc_upd. by destruct (decide (t = s)). }
  field_eqs m m' by_upd.
  assert (Hp : forall h, pending [] S' h <-> pending [] S h).
  { intros h. apply pending_insert. unfold releases_at. by rewrite Hk. }
  assert (Hkeep : forall j x, S !! j = Some x -> x <> ShNone -> S' !! j = Some x).
  { intros j x Hj Hx. unfold S'. rewrite lookup_insert_ne; [done|]. intros <-. congruence. }
  pose proof I as I0. destruct I. split; intros *; change (services m') with (services m);
    change (holds m') with (holds m); change (closed m') with (closed m); change (next m') with (next m);
    change (reloadDone m') with (reloadDone m);
    rewrite ?Hp, ?Hd, ?Hdr, ?Hi, ?Hr, ?Hde, ?Hst; unfold S'; intros; shape_cases; eauto.
  - rewrite lookup_insert_ne; [auto|]. intros <-. rewrite i_fresh_act0 in Hk; done.
  - destruct (i_fresh_svc0 s0 H0) as (?&?&?&?). split_and!; try done. destruct (decide _); [subst; lia|done].
  - destruct (i_reload0 _ H0). split; [done|]. by eapply reload_insert.
  - destruct (i_run_stop0 _ _ _ H0) as [E|(ch&->&E)].
    + destruct (decide _) as [Er|]; [|by left]. exfalso. destruct (i_run0 _ _ _ H0) as [F _]. congruence.
    + destruct (decide _) as [Er|]; [congruence|right; eauto].
  - destruct (i_inflight0 _ _ H0) as (r&ph&?&?). exists r, ph. split; [by apply Hkeep|done].
  - by rewrite decide_True.
  - destruct (decide _) as [->|]; [|auto]. apply i_stop0 in H0. congruence.
  - destruct (decide _) as [->|]; [simplify_eq; by rewrite lookup_insert_eq|].
    destruct (i_stopping0 _ _ H0). split; [by apply Hkeep|done].
  - destruct (i_req0 _ _ _ H0) as (q&?&?&?&?). exists q. rewrite Hd, Hde. fold S'. by rewrite Hp.
  - destruct (i_child0 _ _ _ _ _ H0) as (r&out&ok&?&?). exists r, out, ok. split; [by apply Hkeep|done].
Qed.

Lemma inv_stop_end ex S m k s :
  inv ex S m -> S !! k = Some (ShStop s) ->
  inv ex (<[k := ShRel true []]> S) (close k (upd s (fun x => bump_version (w_stopping None x)) m)).
Proof.
  intros I Hk. set (m' := close k _). set (S' := <[k := _]> S).
  pose proof (i_stop _ _ _ I _ _ Hk) as Hs0.
  assert (Hlt : k < next m).
  { destruct (decide (k < next m)); [done|]. rewrite (i_fresh_act _ _ _ I) in Hk by lia. done. }
  assert (Hst : forall t, stopping (svc m' t) = if decide (t = s) then None else stopping (svc m t)).
  { intros t. unfold m'. change (svc (close k ?x)) with (svc x). rewrite svc_upd. by destruct (decide (t = s)). }
  field_eqs m m' ltac:(fun F t => change (svc m' t) with (svc (upd s (fun x => bump_version (w_stopping None x)) m) t); by_upd F t).
  assert (Hp : forall h, pending ex S' h <-> pending ex S h).
  { intros h. apply pending_insert. unfold releases_at. by rewrite Hk. }
  assert (Hkeep : forall j x, S !! j = Some x -> x <> ShStop s -> S' !! j = Some x).
  { intros j x Hj Hx. unfold S'. rewrite lookup_insert_ne; [done|]. intros <-. congruence. }
  pose proof I as I0. destruct I. split; intros *; change (services m') with (services m);
    change (holds m') with (holds m); change (closed m') with ({[k]} ∪ closed m); change (next m') with (next m);
    change (reloadDone m') with (reloadDone m);
    rewrite ?Hp, ?Hd, ?Hdr, ?Hi, ?Hr, ?Hde, ?Hst; unfold S'; intros; shape_cases; eauto.
  - rewrite lookup_insert_ne; [auto|]. intros <-. rewrite i_fresh_act0 in Hk; done.
  - destruct (i_fresh_svc0 s0 H0) as (?&?&?&?). split_and!; try done. by destruct (decide _).
  - apply elem_of_union in H0 as [?%elem_of_singleton|?]; [by subst|auto].
  - intros [->%elem_of_singleton|?]%elem_of_union; [done|]. by eapply i_open0.
  - destruct (i_reload0 _ H0). split; [done|]. by eapply reload_insert.
  - destruct (decide _); [by left|eauto].
  - destruct (i_inflight0 _ _ H0) as (r&ph&?&?). exists r, ph. split; [by apply Hkeep|done].
  - destruct (decide _) as [->|]; [|auto]. apply i_stop0 in H0. congruence.
  - destruct (decide _) as [->|]; [done|]. destruct (i_stopping0 _ _ H0). split; [apply Hkeep; congruence|done].
  - destruct (i_req0 _ _ _ H0) as (q&?&?&?&?). exists q. rewrite Hd, Hde. fold S'. by rewrite Hp.
  - destruct (i_child0 _ _ _ _ _ H0) as (r&out&ok&?&?). exists r, out, ok. split; [by apply Hkeep|done].
Qed.

Lemma Inv_stop_section m k s t idle parent :
  Inv m -> acts m !! k = Some (PStop t idle parent) -> Inv (stop_section k s t idle parent m).
Proof.
  intros I Hk. assert (Hret : forall e, Inv (ret k parent e m)) by (intros e; by eapply Inv_ret).
  unfold stop_section. destruct (bool_decide (services m !! _ = Some s)) eqn:Hreg; [|apply Hret].
  apply bool_decide_eq_true in Hreg. cbn [negb].
  destruct (bool_decide (dependents (svc m s) = ∅)) eqn:Hdep; [|apply Hret]. apply bool_decide_eq_true in Hdep.
  cbn [negb]. destruct (idle && _); [apply Hret|].
  destruct (inflight (svc m s)) eqn:Hi; [by eapply Inv_set_inert|].
  destruct (stopping (svc m s)) eqn:Hst; [by eapply Inv_set_inert|].
  unfold Inv. rewrite shapes_set, inv_set_act. change (shapes (upd s ?f m)) with (shapes m).
  apply inv_stop_begin; try done; [by apply shapes_lookup in Hk|]. by apply (i_ids _ _ _ I) in Hreg as [_ ?].
Qed.

Lemma Inv_stop_turn m k t idle parent m' :
  Inv m -> acts m !! k = Some (PStop t idle parent) -> stop_turn k t idle parent m = Some m' -> Inv m'.
Proof.
  intros I Hk. unfold stop_turn. destruct t as [id|s].
  - destruct (reloadDone m); [done|].
    destruct (services m !! id); intros [= <-]; [by apply Inv_stop_section|by eapply Inv_ret].
  - destruct (_ && _); intros [= <-]; [by eapply Inv_ret|by apply Inv_stop_section].
Qed.

Lemma unheld_stopping ex S m k s : inv ex S m -> S !! k = Some (ShStop s) -> unheld S s.
Proof.
  intros I Hk c r ph Hc E. pose proof (i_stop _ _ _ I _ _ Hk) as Hs.
  destruct (i_run_stop _ _ _ I _ _ _ Hc) as [?|(ch&->&_)]; [congruence|done].
Qed.

Lemma Inv_stop_finish m k s stopped err parent p :
  Inv m -> acts m !! k = Some p -> shape_of p = ShStop s -> Inv (stop_finish k s stopped err parent m).
Proof.
  intros I Hk Hp. pose proof (shapes_lookup _ _ _ Hk) as Hs. rewrite Hp in Hs.
  assert (Hend : forall changed release m1, inv release (shapes m) m1 -> acts m1 = acts m ->
    let m2 := match err with
              | Some e => upd s (fun x => w_updatedAt (now m1) (w_lastError (Some e) x)) m1
              | None => m1
              end in
    Inv (set_act k (PStopRelease release err parent)
      (notify changed (close k (upd s (fun x => bump_version (w_stopping None x)) m2))))).
  { intros changed release m1 I1 Ha m2. unfold Inv. rewrite shapes_set, inv_set_act.
    assert (Ha2 : acts m2 = acts m1) by (unfold m2; by destruct err).
    rewrite (shapes_acts (close k (upd s _ m2)) _ (acts_notify _ _)).
    change (shapes (close k (upd s ?f m2))) with (shapes m2). rewrite (shapes_acts m m2) by congruence.
    eapply inv_view; [apply view_notify|]. cbn [shape_of].
    assert (I2 : inv release (shapes m) m2).
    { apply (inv_view _ _ m1); [|done]. unfold m2. destruct err; [by apply view_upd|done]. }
    pose proof (inv_stash _ _ _ k (ShRel true []) (inv_stop_end _ _ _ _ _ I2 Hs)) as I3.
    rewrite lookup_insert_eq, insert_insert_eq in I3. by apply I3. }
  unfold stop_finish. destruct stopped; [|by apply (Hend false [])].
  unfold setState. set (m1 := upd s _ m). set (m2 := upd s _ m1).
  destruct (detachRequirementsLocked s [] m2) as [rel m3] eqn:E.
  destruct (inv_detach_requirements [] (shapes m) m2 s [] rel m3) as [I3 Ha3];
    [| |done|rewrite app_nil_r in I3; by apply Hend].
  - apply (inv_view _ _ m); [|done]. etransitivity; by apply view_upd.
  - by eapply unheld_stopping.
Qed.

Lemma Inv_stop_did m k s d name parent ans :
  Inv m -> acts m !! k = Some (PStopping s d name parent) -> Inv (stop_did k s d name parent ans m).
Proof.
  intros I Hk. unfold stop_did. destruct (driver_do d ans); [by eapply Inv_set_same|by eapply Inv_stop_finish].
Qed.

Lemma Inv_stop_check m k s d err parent ans :
  Inv m -> acts m !! k = Some (PStopCheck s d err parent) -> Inv (stop_check k s d err parent ans m).
Proof. intros I Hk. unfold stop_check. by eapply Inv_stop_finish. Qed.

Lemma Inv_idle_turn m k : Inv m -> acts m !! k = Some PIdle -> Inv (idle_turn k m).
Proof. intros I Hk. unfold idle_turn. destruct (reloadDone m); [by eapply Inv_ret|by eapply Inv_set_inert]. Qed.

(** *** Observing *)

Lemma refresh_case_inv ex S m s st pe release changed m' :
  inv ex S m -> inflight (svc m s) = None -> refresh_case s st pe m = (release, changed, m') ->
  inv (release ++ ex) S m' /\ acts m' = acts m /\ services m' = services m.
Proof.
  intros I Hi. assert (Hview : forall m1, same_view m m1 -> acts m1 = acts m ->
    inv ([] ++ ex) S m1 /\ acts m1 = acts m /\ services m1 = services m).
  { intros m1 Hv Ha. split_and!; [by apply (inv_view _ _ m)|done|apply (v_services _ _ Hv)]. }
  destruct st; cbn [refresh_case]; unfold setState.
  - destruct pe as [e|]; [|case_bool_decide]; intros [= <- <- <-]; apply Hview; try done;
      repeat (etransitivity; [|apply view_upd]); try done; try (intros x; unfold external_if_unset; by case_match).
  - destruct (detachRequirementsLocked _ _ _) as [rel m1] eqn:E.
    destruct (inv_detach_requirements ex S (upd s (w_runtimeAlive false) m) s [] rel m1) as [I1 Ha1]; [| |done|].
    { apply (inv_view _ _ m); [by apply view_upd|done]. }
    { by eapply unheld_idle. }
    assert (Hs1 : services m1 = services m) by (apply detach_fields in E as (->&_); done).
    case_bool_decide; [by intros [= <- <- <-]|]. case_bool_decide; [by intros [= <- <- <-]|].
    intros [= <- <- <-]. split_and!; [|done|done]. apply (inv_view _ _ m1); [|done].
    etransitivity; by apply view_upd.
  - intros [= <- <- <-]. apply Hview; [|done]. etransitivity; by apply view_upd.
  - intros [= <- <- <-]. by apply Hview.
Qed.

Lemma refresh_items_inv ex S items m release changed m' :
  inv ex S m -> refresh_items items m = (release, changed, m') ->
  inv (release ++ ex) S m' /\ acts m' = acts m /\ services m' = services m.
Proof.
  revert ex m release changed m'. induction items as [|[[o ans] pe] items IH]; intros ex m release changed m' I;
    cbn [refresh_items]; [by intros [= <- <- <-]|].
  destruct (_ || bool_decide (state (svc m (o_svc o)) = StateStarting)) eqn:Hg; [by apply IH|].
  destruct ans as [st|e].
  - destruct (refresh_case _ _ _ _) as [[rel1 ch1] m1] eqn:E1.
    destruct (refresh_items items _) as [[rel2 ch2] m2] eqn:E2. intros [= <- <- <-].
    destruct (refresh_case_inv ex S m (o_svc o) st pe rel1 ch1 m1 I) as (I1&Ha1&Hs1); [|done|].
    { repeat apply orb_false_iff in Hg as [Hg ?]. bool_to_prop.
      destruct (inflight (svc m (o_svc o))); [exfalso; eauto|done]. }
    destruct (IH (rel1 ++ ex) (upd (o_svc o) bump_version m1) rel2 ch2 m2) as (I2&Ha2&Hs2); [|done|].
    { apply (inv_view _ _ m1); [by apply view_upd|done]. }
    split_and!; [|by rewrite Ha2|by rewrite Hs2]. eapply inv_ex_perm; [|exact I2]. set_solver.
  - destruct (bool_decide (state (svc m (o_svc o)) = StateUnknown)); [|by apply IH]. intros E.
    destruct (IH ex (upd (o_svc o) (fun x => w_updatedAt (now m) (w_lastError (Some e) x)) m) release changed m')
      as (?&Ha&Hs); [|done|done]. apply (inv_view _ _ m); [by apply view_upd|done].
Qed.

Lemma hold_all_inv ex S s ids m added m' :
  inv ex S m -> s < next m -> hold_all s ids m = (added, m') -> inv ex S m' /\ only_holds m m'.
Proof.
  revert m added m'. induction ids as [|id ids IH]; intros m added m' I Hs; cbn [hold_all];
    [by intros [= <- <-]|].
  assert (Hrest : forall m1 (b : bool), inv ex S m1 -> only_holds m m1 ->
    (let '(rest, m2) := hold_all s ids m1 in (if b then id :: rest else rest, m2)) = (added, m') ->
    inv ex S m' /\ only_holds m m').
  { intros m1 b I1 OH. destruct (hold_all s ids m1) as [rest m2] eqn:E. intros [= <- <-].
    destruct (IH m1 rest m2 I1) as [I2 OH2]; [pose proof (oh_next _ _ OH); lia|done|].
    split; [done|by transitivity m1]. }
  destruct (services m !! id) as [q|] eqn:Hq; [|by apply (Hrest m false)].
  destruct (stopping (svc m q)) eqn:Hst; [by apply (Hrest m false)|].
  destruct (i_ids _ _ _ I _ _ Hq) as [Hid _]. rewrite <- Hid in Hq.
  destruct (inv_hold ex S m s q I Hq Hst Hs) as (I1&OH&_).
  destruct (holdRequirementLocked s q m) as [b m1]. by apply (Hrest m1 b).
Qed.

Lemma spawn_run_acts s addr stop added m j :
  j < next m -> acts (spawn_run s addr stop added m) !! j = acts m !! j.
Proof. intros Hj. cbn. rewrite lookup_insert_ne by lia. done. Qed.

Lemma refresh_reconcile_inv ex l m calls m' :
  inv ex (shapes m) m -> (forall s, s ∈ l -> s < next m) -> refresh_reconcile l m = (calls, m') ->
  inv ex (shapes m') m' /\ (forall j, j < next m -> acts m' !! j = acts m !! j) /\ next m <= next m'.
Proof.
  revert m calls m'. induction l as [|s l IH]; intros m calls m' I Hl; cbn [refresh_reconcile];
    [intros [= <- <-]; auto|].
  assert (Hl' : forall m1, next m <= next m1 -> forall t, t ∈ l -> t < next m1).
  { intros m1 Hn t Ht. pose proof (Hl t ltac:(by right)). lia. }
  destruct (_ || negb (is_up (state (svc m s)))) eqn:Hg; [by apply IH; auto|].
  apply orb_false_iff in Hg as [Hg _]. apply orb_false_iff in Hg as [Hin Hst]. bool_to_prop.
  assert (Hin' : inflight (svc m s) = None) by (destruct (inflight (svc m s)); [exfalso; eauto|done]).
  assert (Hst' : stopping (svc m s) = None) by (destruct (stopping (svc m s)); [exfalso; eauto|done]).
  destruct (validateRequirementsLocked s m).
  { intros E. apply (IH (upd s (w_lastError (Some e)) m)) in E; [done| |by apply Hl'].
    apply (inv_view _ _ m); [by apply view_upd|done]. }
  destruct (hold_all s (Requires (def (svc m s))) m) as [added m1] eqn:Eh.
  destruct (hold_all_inv ex (shapes m) s _ m added m1 I (Hl s ltac:(by left)) Eh) as [I1 OH].
  pose proof (oh_acts _ _ OH) as Ha. pose proof (oh_next _ _ OH) as Hn.
  rewrite <- (shapes_acts m m1 Ha) in I1.
  destruct (bool_decide (Requires (def (svc m s)) = [])).
  { intros E. apply IH in E as (?&Hj&?); [|done|by apply Hl']. split_and!; [done| |lia].
    intros j Hlt. rewrite Hj by lia. by rewrite Ha. }
  destruct (refresh_reconcile l _) as [cs m2] eqn:E. intros [= <- <-].
  assert (I2 : inv ex (shapes (spawn_run s "" None added m1)) (spawn_run s "" None added m1)).
  { apply Inv_spawn_run; [done|by rewrite (oh_inflight _ _ OH)| |by rewrite (oh_stopping _ _ OH)].
    pose proof (Hl s ltac:(by left)). lia. }
  apply IH in E as (?&Hj&Hn2); [|done|apply Hl'; cbn; lia]. cbn in Hn2. split_and!; [done| |lia].
  intros j Hlt. rewrite Hj by (cbn; lia). rewrite spawn_run_acts by lia. by rewrite Ha.
Qed.

Lemma ordered_allocated ex S m s : inv ex S m -> s ∈ ordered m -> s < next m.
Proof.
  intros I. unfold ordered. rewrite elem_of_sort_by, list_elem_of_fmap. intros ([id t]&->&Hin).
  apply elem_of_map_to_list in Hin. by apply (i_ids _ _ _ I) in Hin as [_ ?].
Qed.

Lemma Inv_refresh_section m k items :
  Inv m -> acts m !! k = Some (PRefApply items) -> Inv (refresh_section k items m).
Proof.
  intros I Hk. pose proof (act_allocated _ _ _ I Hk) as Hlt. unfold refresh_section.
  destruct (refresh_items items m) as [[release changed] m1] eqn:E1.
  destruct (refresh_items_inv [] (shapes m) items m release changed m1 I E1) as (I1&Ha1&Hs1).
  rewrite app_nil_r in I1. rewrite <- (shapes_acts m m1 Ha1) in I1.
  destruct (refresh_reconcile (ordered m1) m1) as [calls m2] eqn:E2.
  assert (Hlt1 : k < next m1).
  { destruct (decide (k < next m1)); [done|]. pose proof (i_fresh_act _ _ _ I1 k ltac:(lia)) as Hn.
    rewrite <- Ha1 in Hk. apply shapes_lookup in Hk. congruence. }
  destruct (refresh_reconcile_inv _ _ _ _ _ I1 (fun s => ordered_allocated _ _ _ s I1) E2) as (I2&Hj&Hn).
  assert (Hk2 : shapes m2 !! k = Some ShNone).
  { assert (Hk' : acts m2 !! k = Some (PRefApply items)) by (by rewrite Hj, Ha1). by apply shapes_lookup in Hk'. }
  unfold Inv. rewrite shapes_set, inv_set_act, (shapes_acts m2 _ (acts_notify _ _)). cbn [shape_of].
  eapply inv_view; [apply view_notify|].
  assert (I3 : inv release (<[k := ShRel false []]> (shapes m2)) m2).
  { apply inv_inert; [done| |done|lia| |].
    - unfold inert_at. by rewrite Hk2.
    - by eapply (i_open _ _ _ I2).
    - intros Hr. destruct (i_reload _ _ _ I2 _ Hr). congruence. }
  apply (inv_stash _ _ _ k (ShRel false [])) in I3; [|by rewrite lookup_insert_eq|done..].
  cbn [with_releases] in I3. by rewrite insert_insert_eq in I3.
Qed.

(** *** Reloading *)

(** A service that is not in flight takes another definition and driver. *)
Lemma inv_redefine ex S m s f :
  inv ex S m -> inflight (svc m s) = None ->
  ID (def (f (svc m s))) = ID (def (svc m s)) -> inflight (f (svc m s)) = inflight (svc m s) ->
  stopping (f (svc m s)) = stopping (svc m s) -> requirements (f (svc m s)) = requirements (svc m s) ->
  dependents (f (svc m s)) = dependents (svc m s) ->
  inv ex S (upd s f m).
Proof.
  intros I Hin Eid Ei Est Er Ed. set (m' := upd s f m).
  assert (Hfield : forall {A} (F : service -> A), F (f (svc m s)) = F (svc m s) ->
    forall t, F (svc m' t) = F (svc m t)).
  { intros A F HF t. unfold m'. rewrite svc_upd. by destruct (decide (t = s)) as [->|]. }
  assert (Hid : forall t, ID (def (svc m' t)) = ID (def (svc m t))) by apply (Hfield _ (fun x => ID (def x)) Eid).
  assert (Hi : forall t, inflight (svc m' t) = inflight (svc m t)) by apply (Hfield _ _ Ei).
  assert (Hst : forall t, stopping (svc m' t) = stopping (svc m t)) by apply (Hfield _ _ Est).
  assert (Hr : forall t, requirements (svc m' t) = requirements (svc m t)) by apply (Hfield _ _ Er).
  assert (Hde : forall t, dependents (svc m' t) = dependents (svc m t)) by apply (Hfield _ _ Ed).
  destruct I. split; intros *; change (services m') with (services m); change (holds m') with (holds m);
    change (closed m') with (closed m); change (next m') with (next m); change (reloadDone m') with (reloadDone m);
    rewrite ?Hid, ?Hi, ?Hst, ?Hr, ?Hde; eauto.
  - intros Hc. destruct (i_run0 _ _ _ Hc) as (Hf&?&?). split; [done|].
    assert (Hne : r_svc r <> s) by congruence. unfold m'. by rewrite svc_upd_ne.
  - intros Hq. destruct (i_req0 _ _ _ Hq) as (q&?&?&?&?). exists q. by rewrite Hid, Hde.
Qed.

Lemma take_definition_fields u x :
  let y := take_definition u x in
  def y = p_def u /\ inflight y = inflight x /\ stopping y = stopping x /\ requirements y = requirements x /\
  dependents y = dependents x.
Proof. unfold take_definition. destruct (p_driver u), (p_err u); cbv zeta; try case_match; done. Qed.

Definition add_service (x : service) (m : Manager) : Manager :=
  alloc (m_heap (<[next m := x]> (heap m)) m).

Lemma svc_add x m t : svc (add_service x m) t = if decide (t = next m) then x else svc m t.
Proof.
  unfold svc, add_service, alloc, m_next, m_heap; cbn [heap]. destruct (decide (t = next m)) as [->|].
  - by rewrite lookup_insert_eq.
  - by rewrite lookup_insert_ne by done.
Qed.

Lemma inv_add_service ex S m x :
  inv ex S m -> inflight x = None -> stopping x = None -> requirements x = ∅ -> dependents x = ∅ ->
  inv ex S (add_service x m).
Proof.
  intros I E1 E2 E3 E4. set (m' := add_service x m).
  assert (Hne : forall t, t < next m -> svc m' t = svc m t).
  { intros t Ht. unfold m'. rewrite svc_add, decide_False by lia. done. }
  destruct (i_fresh_svc _ _ _ I (next m) ltac:(lia)) as (F1&F2&F3&F4).
  assert (Hfield : forall {A} (F : service -> A), F x = F (svc m (next m)) -> forall t, F (svc m' t) = F (svc m t)).
  { intros A F HF t. unfold m'. rewrite svc_add. by destruct (decide (t = next m)) as [->|]. }
  assert (Hi : forall t, inflight (svc m' t) = inflight (svc m t)) by (apply Hfield; congruence).
  assert (Hst : forall t, stopping (svc m' t) = stopping (svc m t)) by (apply Hfield; congruence).
  assert (Hr : forall t, requirements (svc m' t) = requirements (svc m t)) by (apply Hfield; congruence).
  assert (Hde : forall t, dependents (svc m' t) = dependents (svc m t)) by (apply Hfield; congruence).
  assert (Hreg : forall q, dependents (svc m q) <> ∅ -> svc m' q = svc m q).
  { intros q Hq. apply Hne. destruct (decide (q < next m)); [done|].
    destruct (i_fresh_svc _ _ _ I q ltac:(lia)) as (_&_&_&?). done. }
  assert (Hdep : forall q o h, dependents (svc m q) !! o = Some h -> svc m' q = svc m q).
  { intros q o h Hq. apply Hreg. intros E. by rewrite E, lookup_empty in Hq. }
  pose proof I as I0. destruct I. split; intros *; change (services m') with (services m);
    change (holds m') with (holds m); change (closed m') with (closed m); change (next m') with (Datatypes.S (next m));
    change (reloadDone m') with (reloadDone m); rewrite ?Hi, ?Hst, ?Hr, ?Hde; eauto with lia.
  - intros Hc. specialize (i_fresh_closed0 _ Hc). lia.
  - intros Hc. destruct (i_reload0 _ Hc). auto with lia.
  - intros Hid. destruct (i_ids0 _ _ Hid). rewrite Hne by done. auto with lia.
  - intros Hc. rewrite Hne by (by eapply run_allocated). eauto.
  - intros Hq. rewrite (Hreg q Hq). auto.
  - intros Hq. destruct (i_req0 _ _ _ Hq) as (q&?&?&Hd&?). exists q. rewrite Hde, (Hdep q o h Hd). done.
  - intros Hq. rewrite (Hdep q o h Hq). eauto.
Qed.

Context {V : Type} `{EqDecision V} (unmarshal : list byte -> option V).

Definition idle (m : Manager) (s : nat) : Prop := inflight (svc m s) = None /\ stopping (svc m s) = None.

(** The table a reload is building: every entry is filed under its id, and is the service
    that was registered under it, if one was. *)
Record slate (nx : gmap string nat) (m : Manager) : Prop := {
  sl_ids : forall id s, nx !! id = Some s -> ID (def (svc m s)) = id /\ s < next m /\ idle m s;
  sl_old : forall id s s', nx !! id = Some s -> services m !! id = Some s' -> s = s';
  sl_idle : forall id s, services m !! id = Some s -> idle m s
}.

Lemma slate_change nx m m' :
  (forall t, t < next m -> ID (def (svc m' t)) = ID (def (svc m t)) /\ inflight (svc m' t) = inflight (svc m t) /\
     stopping (svc m' t) = stopping (svc m t)) ->
  (forall id s, services m !! id = Some s -> s < next m) ->
  services m' = services m -> next m <= next m' -> slate nx m -> slate nx m'.
Proof.
  intros Hf Hlt Hs Hn [Hids Hold Hidle]. split.
  - intros id s Hid. destruct (Hids _ _ Hid) as (?&?&?&?). destruct (Hf s) as (E1&E2&E3); [done|].
    unfold idle. rewrite E1, E2, E3. split_and!; try done. lia.
  - rewrite Hs. done.
  - intros id s. rewrite Hs. intros Hid. destruct (Hf s) as (_&E2&E3); [eauto|]. unfold idle. rewrite E2, E3. exact (Hidle _ _ Hid).
Qed.

Lemma slate_insert nx m id s :
  inv [] (shapes m) m -> slate nx m -> services m !! id = Some s -> slate (<[id := s]> nx) m.
Proof.
  intros I [Hids Hold Hidle] Hs. split; [| |done].
  - intros i t [[<- <-]|[_ Hi]]%lookup_insert_Some; [|eauto].
    destruct (i_ids _ _ _ I _ _ Hs). split_and!; try done; by eapply Hidle.
  - intros i t t' [[<- <-]|[_ Hi]]%lookup_insert_Some Ht; [congruence|eauto].
Qed.

Lemma slate_upd nx m s f :
  ID (def (f (svc m s))) = ID (def (svc m s)) -> inflight (f (svc m s)) = inflight (svc m s) ->
  stopping (f (svc m s)) = stopping (svc m s) -> (forall id s, services m !! id = Some s -> s < next m) ->
  slate nx m -> slate nx (upd s f m).
Proof.
  intros E1 E2 E3 Hlt. apply slate_change; [|done|done|done].
  intros t _. rewrite svc_upd. by destruct (decide (t = s)) as [->|].
Qed.

(** What the building of the table keeps. *)
Definition built (m : Manager) (nx : gmap string nat) (m' : Manager) : Prop :=
  Inv m' /\ slate nx m' /\ services m' = services m /\ acts m' = acts m /\ next m <= next m'.

Lemma built_upd m0 nx m s f id :
  built m0 nx m -> services m !! id = Some s ->
  ID (def (f (svc m s))) = ID (def (svc m s)) -> inflight (f (svc m s)) = inflight (svc m s) ->
  stopping (f (svc m s)) = stopping (svc m s) -> requirements (f (svc m s)) = requirements (svc m s) ->
  dependents (f (svc m s)) = dependents (svc m s) ->
  built m0 (<[id := s]> nx) (upd s f m).
Proof.
  intros (I&Hsl&Hs&Ha&Hn) Hid E1 E2 E3 E4 E5. destruct (sl_idle _ _ Hsl _ _ Hid) as [Hi _].
  assert (I1 : Inv (upd s f m)).
  { unfold Inv. change (shapes (upd s f m)) with (shapes m). by apply inv_redefine. }
  split_and!; try done. apply slate_insert; [exact I1| |done].
  apply slate_upd; try done. intros i t Ht. by apply (i_ids _ _ _ I) in Ht as [_ ?].
Qed.

Lemma apply_updates_built m0 us nx m changed nx' m' :
  built m0 nx m -> apply_updates unmarshal us nx m = (changed, nx', m') -> built m0 nx' m'.
Proof.
  revert nx m changed nx' m'. induction us as [|u us IH]; intros nx m changed nx' m' B; cbn [apply_updates];
    [by intros [= <- <- <-]|].
  destruct (services m !! ID (p_def u)) as [s|] eqn:Hs.
  - assert (Hid : ID (def (svc m s)) = ID (p_def u)) by (destruct B as [I _]; by apply (i_ids _ _ _ I) in Hs as [? _]).
    destruct (bool_decide (def (svc m s) = p_def u)).
    { apply IH. by apply built_upd. }
    set (m1 := if _ && _ then _ else _).
    destruct (apply_updates unmarshal us (<[ID (p_def u) := s]> nx) m1) as [[ch nx1] m2] eqn:E. intros [= <- <- <-].
    eapply IH; [|exact E]. unfold m1. destruct (_ && _); [by apply built_upd|].
    destruct (take_definition_fields u (svc m s)) as (E1&E2&E3&E4&E5).
    apply built_upd; try done. by rewrite E1.
  - change (alloc (m_heap _ m)) with (add_service (take_definition u (new_service (now m))) m).
    set (m1 := add_service _ m).
    destruct (apply_updates unmarshal us (<[ID (p_def u) := next m]> nx) m1) as [[ch nx1] m2] eqn:E.
    intros [= <- <- <-]. eapply IH; [|exact E]. destruct B as (I&Hsl&Hsv&Ha&Hn).
    destruct (take_definition_fields u (new_service (now m))) as (E1&E2&E3&E4&E5).
    assert (I1 : Inv m1) by (unfold Inv; change (shapes m1) with (shapes m); by apply inv_add_service).
    assert (Hlt : forall i t, services m !! i = Some t -> t < next m).
    { intros i t Ht. by apply (i_ids _ _ _ I) in Ht as [_ ?]. }
    assert (Hsl1 : slate nx m1).
    { apply (slate_change nx m); try done; [|cbn; lia]. intros t Ht. unfold m1. by rewrite svc_add, decide_False by lia. }
    split_and!; try done; [|cbn; lia]. destruct Hsl1 as [Hids Hold Hidle]. split; [| |done].
    + intros i t [[<- <-]|[_ Hi]]%lookup_insert_Some; [|eauto]. unfold idle, m1. rewrite svc_add, decide_True by done.
      rewrite E1, E2, E3. split_and!; try done. cbn. lia.
    + intros i t t' [[<- <-]|[_ Hi]]%lookup_insert_Some Ht; [|eauto]. change (services m1) with (services m) in Ht. congruence.
Qed.

Lemma keep_protected_built m0 l nx m nx' m' :
  built m0 nx m -> (forall id s, (id, s) ∈ l -> services m !! id = Some s) ->
  keep_protected l nx m = (nx', m') ->
  built m0 nx' m' /\ (forall id, is_Some (nx !! id) -> is_Some (nx' !! id)) /\
  (forall t, dependents (svc m' t) = dependents (svc m t)) /\
  (forall id s, (id, s) ∈ l -> dependents (svc m s) <> ∅ -> is_Some (nx' !! id)).
Proof.
  revert nx m nx' m'. induction l as [|[id s] l IH]; intros nx m nx' m' B Hl; cbn [keep_protected].
  { intros [= <- <-]. split_and!; try done. by intros id s ?%not_elem_of_nil. }
  destruct (bool_decide (nx !! id = None) && runtimeProtected (svc m s)) eqn:Hg; intros E.
  - set (m1 := upd s (w_definitionError (Some errRemoved)) m) in *.
    assert (B1 : built m0 (<[id := s]> nx) m1) by (apply built_upd; try done; apply Hl; by left).
    destruct (IH _ _ _ _ B1 ltac:(intros i t Ht; apply Hl; by right) E) as (B'&Hmono&Hde&Hkeep).
    assert (Hde1 : forall t, dependents (svc m1 t) = dependents (svc m t)) by (intros t; unfold m1; by_upd dependents t).
    split_and!; [done| | |].
    + intros i Hi. apply Hmono. destruct (decide (i = id)) as [->|]; [by rewrite lookup_insert_eq|by rewrite lookup_insert_ne].
    + intros t. by rewrite Hde, Hde1.
    + intros i t [E'|Hin]%elem_of_cons Hd; [|apply (Hkeep i t); [done|by rewrite Hde1]].
      simplify_eq. apply Hmono. by rewrite lookup_insert_eq.
  - destruct (IH _ _ _ _ B ltac:(intros i t Ht; apply Hl; by right) E) as (B'&Hmono&Hde&Hkeep).
    split_and!; try done. intros i t [E'|Hin]%elem_of_cons Hd; [|by apply (Hkeep i t)].
    simplify_eq. apply Hmono. destruct (nx !! id) eqn:Hn; [done|]. exfalso.
    rewrite (bool_decide_eq_true_2 _ eq_refl) in Hg. cbn [andb] in Hg. unfold runtimeProtected in Hg.
    apply orb_false_iff in Hg as [_ Hg]. bool_to_prop. done.
Qed.

(** The new table takes effect: every service that is held is in it. *)
Lemma Inv_services m nx :
  Inv m -> slate nx m ->
  (forall q, dependents (svc m q) <> ∅ -> services m !! ID (def (svc m q)) = Some q -> is_Some (nx !! ID (def (svc m q)))) ->
  Inv (m_services nx m).
Proof.
  intros I [Hids Hold Hidle] Hkeep. unfold Inv. change (shapes (m_services nx m)) with (shapes m).
  destruct I. split; intros *; cbn [m_services services]; eauto.
  - intros Hid. destruct (Hids _ _ Hid) as (?&?&_). done.
  - intros Hq. change (svc (m_services nx m) q) with (svc m q) in *. pose proof (i_reg0 q Hq) as Hreg.
    destruct (Hkeep q Hq Hreg) as [t Ht]. by rewrite Ht, (Hold _ _ _ Ht Hreg).
Qed.

Lemma apply_reconcile_inv l m calls m' :
  Inv m -> NoDup l -> (forall s, s ∈ l -> s < next m /\ idle m s) -> apply_reconcile l m = (calls, m') ->
  Inv m' /\ (forall j, j < next m -> acts m' !! j = acts m !! j) /\ reloadDone m' = reloadDone m.
Proof.
  revert m calls m'. induction l as [|s l IH]; intros m calls m' I Hnd Hl; cbn [apply_reconcile];
    [by intros [= <- <-]|].
  apply NoDup_cons in Hnd as [Hsl Hnd]. destruct (Hl s ltac:(by left)) as (Hlt&Hi&Hst).
  assert (Hrest : forall t, t ∈ l -> t < next m /\ idle m t) by (intros t Ht; apply Hl; by right).
  destruct (_ && _); [by apply IH|]. destruct (validateRequirementsLocked s m).
  { intros E. apply (IH (upd s (w_lastError (Some e)) m)) in E; [done| |done|].
    - by apply Inv_upd.
    - intros t Ht. destruct (Hrest t Ht) as (?&?&?). split; [done|].
      split; rewrite upd_field; done. }
  destruct (_ && _); [by apply IH|].
  destruct (apply_reconcile l _) as [cs m2] eqn:E. intros [= <- <-].
  apply IH in E as (?&Hj&?); [| |done|].
  - split_and!; [done| |done]. intros j Hlj. rewrite Hj by (cbn; lia). by apply spawn_run_acts.
  - by apply Inv_spawn_run.
  - intros t Ht. destruct (Hrest t Ht) as (?&?&?). assert (t <> s) by congruence.
    split; [cbn; lia|]. unfold idle, spawn_run. rewrite svc_upd_ne by done. done.
Qed.

(** The channel of a reload belongs to no activity. *)
Lemma Inv_end_reload m ch :
  Inv m -> reloadDone m = Some ch -> Inv (m_reloadDone None (close ch m)).
Proof.
  intros I Hch. destruct (i_reload _ _ _ I _ Hch) as [Hlt Hn]. unfold Inv.
  change (shapes (m_reloadDone None (close ch m))) with (shapes m). set (m' := m_reloadDone _ _).
  destruct I. split; intros *; change (services m') with (services m); change (holds m') with (holds m);
    change (closed m') with ({[ch]} ∪ closed m); change (next m') with (next m); change (reloadDone m') with (@None nat);
    try (change (svc m') with (svc m)); eauto; try done.
  - intros [->%elem_of_singleton|?]%elem_of_union; auto.
  - intros Hk Ho [->%elem_of_singleton|Hc]%elem_of_union; [congruence|by eapply i_open0].
Qed.

Lemma Inv_begin_reload m : Inv m -> Inv (alloc (m_reloadDone (Some (next m)) m)).
Proof.
  intros I. pose proof (i_fresh_act _ _ _ I (next m) ltac:(lia)) as Hn. apply inv_alloc in I. unfold Inv.
  change (shapes (alloc (m_reloadDone (Some (next m)) m))) with (shapes m). set (m' := alloc _).
  destruct I. split; intros *; try (change (svc m') with (svc (alloc m))); eauto; try done.
  intros [= <-]. split; [cbn; lia|done].
Qed.

Lemma quiet_idle m id s : quiet m = true -> services m !! id = Some s -> idle m s.
Proof.
  unfold quiet. rewrite forallb_forall. intros Hq Hs.
  specialize (Hq (id, s) ltac:(by apply list_elem_of_In, elem_of_map_to_list)). cbn in Hq. bool_to_prop.
  unfold busy in Hq. unfold idle. destruct (inflight (svc m s)); [exfalso; apply Hq; eauto|].
  destruct (stopping (svc m s)); [exfalso; apply Hq; eauto|done].
Qed.

Lemma Inv_apply_section m k us parent :
  Inv m -> acts m !! k = Some (PAppIdle us parent) -> quiet m = true -> Inv (apply_section unmarshal k us parent m).
Proof.
  intros I Hk Hq. pose proof (act_allocated _ _ _ I Hk) as Hlt. unfold apply_section.
  assert (B0 : built m ∅ m).
  { split_and!; try done. split; try done. intros id s. by apply quiet_idle. }
  destruct (apply_updates unmarshal us ∅ m) as [[changed nx1] m1] eqn:E1.
  pose proof (apply_updates_built _ _ _ _ _ _ _ B0 E1) as B1.
  assert (Hs1 : services m1 = services m) by apply B1.
  destruct (keep_protected (map_to_list (services m)) nx1 m1) as [nx2 m2] eqn:E2.
  destruct (keep_protected_built m (map_to_list (services m)) nx1 m1 nx2 m2 B1) as ((I2&Hsl&Hs2&Ha2&Hn2)&_&Hde&Hkeep); [|done|].
  { intros id s Hin. rewrite Hs1. by apply elem_of_map_to_list. }
  set (m3 := m_applyVersion _ (m_services nx2 m2)).
  assert (I3 : Inv m3).
  { apply (Inv_view (m_services nx2 m2)); [by split|done|]. apply Inv_services; [done|done|].
    intros q Hdq Hreg. rewrite Hs2 in Hreg. apply (Hkeep _ q); [by apply elem_of_map_to_list|]. by rewrite <- Hde. }
  destruct (apply_reconcile (map snd (map_to_list nx2)) m3) as [calls m4] eqn:E4.
  assert (Hval : forall s, s ∈ map snd (map_to_list nx2) -> exists id, nx2 !! id = Some s).
  { intros s. rewrite list_elem_of_fmap. intros ([id t]&->&Hin). exists id. by apply elem_of_map_to_list. }
  destruct (apply_reconcile_inv (map snd (map_to_list nx2)) m3 calls m4 I3) as (I4&Hj&Hr4); [| |done|].
  { apply NoDup_fmap_2_strong; [|apply NoDup_map_to_list].
    intros [i s] [i' s'] Hi Hi' Es. cbn in Es. subst. apply elem_of_map_to_list in Hi, Hi'.
    destruct (sl_ids _ _ Hsl _ _ Hi) as [<- _]. by destruct (sl_ids _ _ Hsl _ _ Hi') as [<- _]. }
  { intros s [id Hid]%Hval. destruct (sl_ids _ _ Hsl _ _ Hid) as (_&?&?). done. }
  set (m5 := match parent, reloadDone m4 with None, Some ch => _ | _, _ => _ end).
  assert (I5 : Inv m5 /\ acts m5 = acts m4).
  { unfold m5. destruct parent; [done|]. destruct (reloadDone m4) eqn:Er; [|done]. split; [by apply Inv_end_reload|done]. }
  eapply (Inv_set_inert _ _ (PAppIdle us parent)); [apply Inv_notify, I5| |done..].
  rewrite acts_notify, (proj2 I5), Hj; [|cbn; lia]. change (acts m3) with (acts m2). by rewrite Ha2.
Qed.

(** *** Every step keeps the invariant *)

(** The turns that only return, or move between program counters of the same shape. *)
Ltac turn_simple :=
  lazymatch goal with
  | |- Inv (ret _ _ _ ?m) => is_var m; by eapply Inv_ret
  | |- Inv (set_act _ _ ?m) => is_var m; first [by eapply Inv_set_inert | by eapply Inv_set_same]
  | |- Inv (await _ _ _ ?m) => is_var m; by eapply Inv_await
  end.

(** The same with a field of the manager set that the invariant does not read. *)
Ltac turn_field m I Hk :=
  first [eapply Inv_ret | eapply Inv_set_inert]; [apply (Inv_view m); [by split|done|exact I]|exact Hk|done..].

Lemma Inv_acquire_turn m k id : Inv m -> acts m !! k = Some (PAcquire id) -> Inv (acquire_turn k id m).
Proof.
  intros I Hk. unfold acquire_turn. destruct (services m !! id) as [s|]; [|by eapply Inv_ret].
  destruct (invalidated (svc m s)); [by eapply Inv_ret|].
  eapply Inv_set_inert; [by apply Inv_upd|exact Hk|done..].
Qed.

Lemma Inv_run_turn m k p a m' :
  Inv m -> acts m !! k = Some p -> run_turn k p a m = Some m' -> Inv m'.
Proof.
  intros I Hk. destruct p; cbn [run_turn]; try done; destruct a; try done; turn_cases; try turn_simple.
  - by apply Inv_acquire_turn.
  - eapply Inv_ret; [by apply Inv_upd|exact Hk|done].
  - by eapply Inv_begin_turn.
  - by eapply Inv_begin_turn.
  - by eapply Inv_begin_turn.
  - eapply Inv_wake_begin; [done|exact Hk|]. apply shapes_lookup in Hk.
    destruct (i_run_stop _ _ _ I _ _ _ Hk) as [?|(ch&E&Hch)]; [done|]. simplify_eq.
    exfalso. destruct (i_stopping _ _ _ I _ _ Hch) as [Hsh _]. eapply (i_open _ _ _ I); [exact Hsh|done|].
    unfold is_closed in *. by bool_to_prop.
  - eapply Inv_wake_begin; [done|exact Hk|]. apply shapes_lookup in Hk. by eapply run_going.
  - by apply Inv_run_state.
  - by apply Inv_run_start.
  - by apply Inv_run_poll.
  - by apply Inv_run_timeout.
  - by apply Inv_run_failed.
  - by apply Inv_run_detach.
  - by eapply Inv_run_end.
  - by eapply Inv_release_one.
  - by eapply Inv_release_one.
  - by apply Inv_wake_turn.
  - by eapply Inv_wake_send.
Qed.

Lemma Inv_stop_refresh_turn m k p a m' :
  Inv m -> acts m !! k = Some p -> stop_refresh_turn k p a m = Some m' -> Inv m'.
Proof.
  intros I Hk. destruct p; cbn [stop_refresh_turn]; try done; destruct a; try done; turn_cases; try turn_simple.
  - by apply Inv_stop_turn.
  - by apply Inv_stop_turn.
  - by apply Inv_stop_did.
  - by apply Inv_stop_check.
  - by eapply Inv_release_one.
  - by eapply Inv_release_one.
  - by apply Inv_idle_turn.
  - turn_field m I Hk.
  - turn_field m I Hk.
  - turn_field m I Hk.
  - by apply Inv_refresh_section.
  - by eapply Inv_release_one.
  - by eapply Inv_release_one.
  - turn_field m I Hk.
  - turn_field m I Hk.
Qed.

Lemma Inv_check_turn m k id proposed restart parent :
  Inv m -> acts m !! k = Some (PCheck id proposed restart parent) ->
  Inv (check_turn unmarshal k id proposed restart parent m).
Proof.
  intros I Hk. unfold check_turn. destruct (services m !! id); [|by eapply Inv_ret].
  destruct (RuntimeDefinitionEqual _ _ _); [by eapply Inv_ret|by eapply Inv_set_inert].
Qed.

Lemma Inv_check_saw m k s d restart parent ans :
  Inv m -> acts m !! k = Some (PCheckSaw s d restart parent) -> Inv (check_saw k s d restart parent ans m).
Proof.
  intros I Hk. unfold check_saw. set (m1 := match driver_state d ans with Saw _ => _ | Blind _ => _ end).
  assert (H1 : Inv m1 /\ acts m1 = acts m).
  { unfold m1. destruct (driver_state d ans) as [[]|]; split; try done; by apply Inv_upd. }
  destruct H1 as [I1 Ha]. rewrite <- Ha in Hk.
  repeat match goal with |- Inv (if ?b then _ else _) => destruct b end; by eapply Inv_ret.
Qed.

Lemma Inv_act_turn m k a : Inv m -> acts m !! k = Some PResAction -> Inv (act_turn k a m).
Proof.
  intros I Hk. destruct a as [id proposed restart|id|defs|id|id addr]; cbn [act_turn]; try turn_simple.
  - destruct (services m !! id); [turn_simple|done].
  - unfold Invalidate. apply Inv_notify. destruct (services m !! id) as [s|]; [|done].
    apply (Inv_view (upd s (fun x => bump_version (w_definitionError (Some errReload) (w_invalidated true x))) m));
      [by split|done|by apply Inv_upd].
Qed.

Lemma Inv_reload_turn m k p a m' :
  Inv m -> acts m !! k = Some p -> reload_turn unmarshal k p a m = Some m' -> Inv m'.
Proof.
  intros I Hk. destruct p; cbn [reload_turn]; try done; destruct a; try done; turn_cases; try turn_simple.
  - turn_field m I Hk.
  - destruct (negb _); [turn_field m I Hk|].
    eapply Inv_set_inert; [by apply Inv_begin_reload|exact Hk|done..].
  - by apply Inv_apply_section.
  - destruct (busy_channel id m); cbn; [|done]. turn_cases. turn_simple.
  - turn_field m I Hk.
  - turn_field m I Hk.
  - eapply Inv_set_inert; [|exact Hk|done..].
    apply (Inv_view (alloc (m_reloadDone (Some (next m)) m))); [by split|done|by apply Inv_begin_reload].
  - destruct (expected_ok expected m); turn_simple.
  - destruct (busy_channel id m); cbn; [|done]. turn_cases. turn_simple.
  - by apply Inv_act_turn.
  - set (m1 := match reloadDone m with Some _ => _ | None => _ end).
    assert (I1 : Inv (m_reloadDone None m1)).
    { unfold m1. destruct (reloadDone m) eqn:Er; [by apply Inv_end_reload|].
      apply (Inv_view m); [by split|done|done]. }
    eapply (Inv_set_inert _ _ (PResEnd err)); [apply (Inv_view (m_reloadDone None m1)); [by split|done|done]| |done..].
    unfold m1. by destruct (reloadDone m).
  - turn_field m I Hk.
  - by apply Inv_check_turn.
  - by apply Inv_check_saw.
Qed.

Lemma Inv_step e m m' : Inv m -> step unmarshal e m = Some m' -> Inv m'.
Proof.
  intros I. destruct e as [d| | | | | | | | |k a]; cbn [step].
  1: intros [_ ->]%when_Some; apply (Inv_view m); [by split|done|done].
  1-8: intros E; apply (inj Some) in E; subst; by apply Inv_spawn.
  destruct (acts m !! k) as [p|] eqn:Hk; [|done]. unfold turn.
  destruct (run_turn k p a m) eqn:E1; [intros [= <-]; by eapply Inv_run_turn|].
  destruct (stop_refresh_turn k p a m) eqn:E2; [intros [= <-]; by eapply Inv_stop_refresh_turn|].
  intros E. by eapply Inv_reload_turn.
Qed.

Lemma Inv_new t : Inv (newManager t).
Proof.
  unfold Inv, shapes. change (acts (newManager t)) with (∅ : gmap nat pc). rewrite fmap_empty.
  assert (Hs : forall s, svc (newManager t) s = new_service 0) by (intros s; unfold svc; cbn; by rewrite lookup_empty).
  assert (Hp : forall h, ~ pending [] ∅ h).
  { intros h [?%not_elem_of_nil|(k&sh&Hk&_)]; [done|]. by rewrite lookup_empty in Hk. }
  split; intros *; rewrite ?Hs; cbn; rewrite ?lookup_empty; try done.
  intros Hq. by destruct (Hp _ Hq).
Qed.

Lemma reachable_Inv t m : reachable unmarshal t m -> Inv m.
Proof. induction 1; [apply Inv_new|by eapply Inv_step]. Qed.

(** ** Theorems *)

(** The start an activity is driving: from the first look at the driver's state to the
    look after a failure. *)
Definition starts (p : pc) : option run :=
  match p with
  | PRunState r _ | PRunStart r _ | PRunPoll r _ | PRunTick r _ _ | PRunFailed r _ _ => Some r
  | _ => None
  end.

(** The service whose driver an activity drives. *)
Definition drives (p : pc) : option nat :=
  match p with
  | PStopping s _ _ _ | PStopCheck s _ _ _ => Some s
  | p => r_svc <$> starts p
  end.

Lemma starts_shape p r : starts p = Some r -> shape_of p = ShRun r Held.
Proof. destruct p; cbn; intros; by simplify_eq. Qed.

Lemma drives_shape p s :
  drives p = Some s -> shape_of p = ShStop s \/ exists r, shape_of p = ShRun r Held /\ r_svc r = s.
Proof. destruct p; cbn; intros; simplify_eq; eauto. Qed.

(** C6: While a service is being started, everything it requires is held: the service
    registered under each required id has it as a dependent, is registered for good and
    is not being stopped, and the start uses the definition and the driver the service
    has now. *)
Theorem start_holds_requirements t m c p r :
  reachable unmarshal t m -> acts m !! c = Some p -> starts p = Some r ->
  def (svc m (r_svc r)) = r_def r /\ driver (svc m (r_svc r)) = r_driver r /\
  forall id, id ∈ Requires (r_def r) ->
    exists q, services m !! id = Some q /\ is_Some (dependents (svc m q) !! r_svc r) /\
      stopping (svc m q) = None /\ forall k p', acts m !! k = Some p' -> shape_of p' <> ShStop q.
Proof.
  intros Hr Hc Hp. pose proof (reachable_Inv t m Hr) as I.
  pose proof (shapes_lookup _ _ _ Hc) as Hs. rewrite (starts_shape _ _ Hp) in Hs.
  destruct (i_run _ _ _ I _ _ _ Hs) as (_&Hd&Hdr). split_and!; [done..|]. intros id Hid.
  destruct (i_held _ _ _ I _ _ Hs id Hid) as [h Hh].
  destruct (i_req _ _ _ I _ _ _ Hh) as (q&_&<-&Hdep&_).
  assert (Hne : dependents (svc m q) <> ∅) by (intros E; by rewrite E, lookup_empty in Hdep).
  exists q. split_and!; [by apply (i_reg _ _ _ I)|by eexists| |].
  - destruct (stopping (svc m q)) eqn:Est; [|done]. by destruct (i_stopping _ _ _ I _ _ Est) as [_ ?].
  - intros k p' Hk Hsh. apply shapes_lookup in Hk. rewrite Hsh in Hk.
    pose proof (i_stop _ _ _ I _ _ Hk) as Hst. by destruct (i_stopping _ _ _ I _ _ Hst) as [_ ?].
Qed.

(** C25: Starts and stops exclude each other: of all goroutines at most one is driving the
    driver of a service, be it to start or to stop it. *)
Theorem drivers_are_driven_alone t m k1 k2 p1 p2 s :
  reachable unmarshal t m -> acts m !! k1 = Some p1 -> acts m !! k2 = Some p2 ->
  drives p1 = Some s -> drives p2 = Some s -> k1 = k2.
Proof.
  intros Hr H1 H2 D1 D2. pose proof (reachable_Inv t m Hr) as I. apply shapes_lookup in H1, H2.
  destruct (drives_shape _ _ D1) as [E1|(r1&E1&<-)]; rewrite E1 in H1;
    destruct (drives_shape _ _ D2) as [E2|(r2&E2&E)]; rewrite E2 in H2.
  - pose proof (i_stop _ _ _ I _ _ H1). pose proof (i_stop _ _ _ I _ _ H2). congruence.
  - pose proof (i_stop _ _ _ I _ _ H1) as Hst. subst s.
    destruct (i_run_stop _ _ _ I _ _ _ H2) as [?|(ch&?&_)]; congruence.
  - pose proof (i_stop _ _ _ I _ _ H2) as Hst.
    destruct (i_run_stop _ _ _ I _ _ _ H1) as [?|(ch&?&_)]; congruence.
  - by eapply run_unique.
Qed.

(** Holds are neither lost nor leaked: a requirement a service holds is registered and
    has it as a dependent; and when nothing is waiting to be released, every dependent of
    a service holds it in return. *)
Theorem holds_are_balanced t m :
  reachable unmarshal t m ->
  (forall o id h, requirements (svc m o) !! id = Some h ->
     exists q, services m !! id = Some q /\ dependents (svc m q) !! o = Some h) /\
  ((forall k p, acts m !! k = Some p -> releases (shape_of p) = []) ->
   forall q o h, dependents (svc m q) !! o = Some h -> requirements (svc m o) !! ID (def (svc m q)) = Some h).
Proof.
  intros Hr. pose proof (reachable_Inv t m Hr) as I. split.
  - intros o id h Hh. destruct (i_req _ _ _ I _ _ _ Hh) as (q&_&<-&Hdep&_). exists q. split; [|done].
    apply (i_reg _ _ _ I). intros E. by rewrite E, lookup_empty in Hdep.
  - intros Hquiet q o h Hdep. destruct (i_dep _ _ _ I _ _ _ Hdep) as [_ [?|[Hn|(k&sh&Hk&Hin)]]]; [done| |].
    + by apply not_elem_of_nil in Hn.
    + unfold shapes in Hk. rewrite lookup_fmap in Hk. destruct (acts m !! k) as [p|] eqn:Hp; [|done].
      simplify_eq/=. rewrite (Hquiet k p Hp) in Hin. by apply not_elem_of_nil in Hin.
Qed.

End Steps.
(** ** Samples *)

Definition web_run : run := mkRun 3 (docker "web" ["db"] 60000000000) (HostDriver 8) "" [].

Lemma start_holds_requirements_witness :
  acts (final starting) !! 5 = Some (PRunStart web_run ["db"]) /\
  exists q, services (final starting) !! "db" = Some q /\ is_Some (dependents (svc (final starting) q) !! 3).
Proof.
  assert (Ha : acts (final starting) !! 5 = Some (PRunStart web_run ["db"])) by (vm_compute; reflexivity).
  split; [exact Ha|].
  destruct (start_holds_requirements no_json 0 (final starting) 5 (PRunStart web_run ["db"]) web_run)
    as (_&_&Hq); [apply final_reachable; vm_compute; reflexivity|exact Ha|reflexivity|].
  destruct (Hq "db") as (q&?&?&_); [by left|]. exists q. split; assumption.
Defined.

Lemma drivers_are_driven_alone_witness : acts (final starting) !! 5 = Some (PRunStart web_run ["db"]) /\ 5 = 5.
Proof.
  assert (Ha : acts (final starting) !! 5 = Some (PRunStart web_run ["db"])) by (vm_compute; reflexivity).
  split; [exact Ha|]. eapply (drivers_are_driven_alone no_json 0 (final starting) 5 5 _ _ 3);
    [apply final_reachable; vm_compute; reflexivity|exact Ha|exact Ha|reflexivity|reflexivity].
Defined.

Lemma holds_are_balanced_witness :
  exists q, services (final web_started) !! "db" = Some q /\ dependents (svc (final web_started) q) !! 3 <> None.
Proof.
  destruct (holds_are_balanced no_json 0 (final web_started)) as [Hb _]; [apply final_reachable; vm_compute; reflexivity|].
  assert (Hh : exists h, requirements (svc (final web_started) 3) !! "db" = Some h) by (eexists; vm_compute; reflexivity).
  destruct Hh as [h Hh]. destruct (Hb 3 "db" h Hh) as (q&?&E). exists q. split; [assumption|]. rewrite E. discriminate.
Defined.

End Safety.
