(* ===== verification/ServiceReload.v ===== *)
(** * Reloads, reservations and uses of the service manager

    What the steps of the machine of [Services] leave alone: definitions change only in a
    reload and under a reservation, uses are counted, and while a reservation runs its
    action nothing else replaces a definition or lets a caller in. *)
From S2P Require Import Prelude GoIO GoStrings Requirements Services ServiceHolds ServiceSafety.
Import Services Holds Safety.

Module Reload.
Local Open Scope nat_scope.

(** ** What most sections leave alone *)

Definition face (x : service) := (def x, driver x, invalidated x, active x).

(** No activity has a key that is not given out yet. *)
Definition fresh (m : Manager) : Prop := forall j p, acts m !! j = Some p -> j < next m.

Lemma Inv_fresh m : Inv m -> fresh m.
Proof. intros I j p. by apply act_allocated. Qed.

(** The activities are those of before, and new ones that are runs or goroutines of runs. *)
Record still (m m' : Manager) : Prop := {
  c_slot : applySlot m' = applySlot m;
  c_reload : reloadDone m' = reloadDone m;
  c_reserved : reserved m' = reserved m;
  c_next : next m <= next m';
  c_acts : forall j, j < next m -> acts m' !! j = acts m !! j;
  c_new : forall j p, next m <= j -> acts m' !! j = Some p ->
    (exists r stop, p = PRunBegin r stop) \/ (exists o d id c, p = PWake o d id c) \/ acts m !! j = Some p;
  c_fresh : fresh m -> fresh m'
}.

#[export] Instance still_refl : Reflexive still.
Proof. split; auto. Qed.

#[export] Instance still_trans : Transitive still.
Proof.
  intros a b c [] []. split; try congruence; try lia.
  - intros j Hj. rewrite c_acts1, c_acts0 by lia. done.
  - intros j p Hj Hp. destruct (decide (j < next b)) as [Hlt|Hge].
    + rewrite c_acts1 in Hp by done. eauto.
    + destruct (c_new1 j p) as [?|[?|Hb]]; [lia|done|by eauto..].
  - auto.
Qed.

(** The registered services, their definitions and their uses are the same too. *)
Record calm (m m' : Manager) : Prop := {
  c_still : still m m';
  c_face : forall s, face (svc m' s) = face (svc m s);
  c_services : services m' = services m
}.

#[export] Instance calm_refl : Reflexive calm.
Proof. split; [reflexivity|done..]. Qed.

#[export] Instance calm_trans : Transitive calm.
Proof. intros a b c [] []. split; [by transitivity b|congruence..]. Qed.

Lemma still_upd s f m : still m (upd s f m).
Proof. split; auto. Qed.

Lemma calm_upd s f m : (forall x, face (f x) = face x) -> calm m (upd s f m).
Proof.
  intros Hf. split; [apply still_upd| |done]. intros t. rewrite svc_upd.
  destruct (decide (t = s)) as [->|]; [apply Hf|done].
Qed.

(** A chain of updates that keep the face. *)
Ltac calm_upds :=
  repeat lazymatch goal with
  | |- calm ?m ?m => reflexivity
  | |- calm ?m (upd ?s ?f ?m1) =>
      transitivity m1; [|apply calm_upd; intros ?; cbv zeta; unfold external_if_unset; repeat case_match; done]
  end.

Lemma calm_spawn m p :
  (exists r stop, p = PRunBegin r stop) \/ (exists o d id c, p = PWake o d id c) -> calm m (spawn p m).
Proof.
  intros Hp. split; [|done|done]. split; try done; [cbn; lia| | |].
  - intros j Hj. cbn. rewrite lookup_insert_ne by lia. done.
  - intros j q Hj. cbn. intros [[<- <-]|[_ ?]]%lookup_insert_Some; tauto.
  - intros F j q. cbn. intros [[<- _]|[_ ?%F]]%lookup_insert_Some; lia.
Qed.

Lemma calm_notify b m : calm m (notify b m).
Proof. destruct b; [|done]. split; [split; auto|done..]. Qed.

Lemma calm_setState s st m : calm m (setState s st m).2.
Proof. by apply calm_upd. Qed.

Lemma calm_markRunning s b m : calm m (markRunning s b m).
Proof.
  unfold markRunning, setState. etransitivity; [|apply calm_notify].
  calm_upds.
Qed.

Lemma calm_failStart s e m : calm m (failStart s e m).
Proof. unfold failStart, setState. etransitivity; [|apply calm_notify]. calm_upds. Qed.

Lemma calm_hold o q m : calm m (holdRequirementLocked o q m).2.
Proof.
  unfold holdRequirementLocked. destruct (requirements (svc m o) !! _); [done|]. cbn [snd].
  etransitivity; [|by apply calm_upd]. etransitivity; [|by apply calm_upd].
  split; [|done|done]. split; try done; [cbn; lia|auto|]. intros F j p Hj%F. cbn. lia.
Qed.

Lemma calm_fire h m : calm m (fire h m).2.
Proof.
  unfold fire. destruct (holds m !! h) as [[o q [|]]|]; try done.
  set (m1 := m_holds _ _). assert (C1 : calm m m1) by (split; [split; auto|done..]).
  destruct (negb _); [done|]. cbv zeta. cbn [snd]. etransitivity; [exact C1|].
  set (m2 := upd q _ m1). assert (C2 : calm m1 m2) by (by apply calm_upd).
  destruct (_ && _); [|done]. etransitivity; [exact C2|]. split; [split; auto|done..].
Qed.

Lemma calm_detach s ids m : calm m (detachRequirementIDsLocked s ids m).2.
Proof.
  revert m. induction ids as [|id ids IH]; intros m; cbn [detachRequirementIDsLocked]; [done|].
  destruct (requirements (svc m s) !! id); [|apply IH].
  set (m1 := upd s _ m). specialize (IH m1). destruct (detachRequirementIDsLocked s ids m1). cbn [snd] in *.
  etransitivity; [|exact IH]. by apply calm_upd.
Qed.

Lemma calm_spawn_run s addr stop added m : calm m (spawn_run s addr stop added m).
Proof. unfold spawn_run. etransitivity; [|by apply calm_upd]. apply calm_spawn. left. eauto. Qed.

Lemma calm_spawn_wakes o d c ids m : calm m (spawn_wakes o d c ids m).
Proof.
  revert m. induction ids as [|id ids IH]; intros m; [done|]. cbn [spawn_wakes]. etransitivity; [|apply IH].
  apply calm_spawn. right. eauto.
Qed.

Lemma calm_refresh_case s st pe m : calm m (refresh_case s st pe m).2.
Proof.
  destruct st; cbn [refresh_case]; unfold setState.
  - destruct pe; [|case_bool_decide]; cbn [snd]; calm_upds.
  - pose proof (calm_detach s (filter (fun id => id ∉ []) (map fst (map_to_list (requirements
      (svc (upd s (w_runtimeAlive false) m) s))))) (upd s (w_runtimeAlive false) m)) as C.
    unfold detachRequirementsLocked. destruct (detachRequirementIDsLocked _ _ _) as [rel m1]. cbn [snd] in C.
    assert (C1 : calm m m1) by (etransitivity; [|exact C]; by apply calm_upd).
    repeat case_bool_decide; cbn [snd]; first [done|transitivity m1; [exact C1|calm_upds]].
  - cbn [snd]. calm_upds.
  - done.
Qed.

Lemma calm_refresh_items items m : calm m (refresh_items items m).2.
Proof.
  revert m. induction items as [|[[o ans] pe] items IH]; intros m; cbn [refresh_items]; [done|].
  destruct (_ || bool_decide (state (svc m (o_svc o)) = StateStarting)); [apply IH|]. destruct ans as [st|e].
  - pose proof (calm_refresh_case (o_svc o) st pe m) as C. destruct (refresh_case _ _ _ _) as [[rel ch] m1].
    specialize (IH (upd (o_svc o) bump_version m1)). destruct (refresh_items items _) as [[rel2 ch2] m2].
    cbn [snd] in *. etransitivity; [exact C|]. etransitivity; [|exact IH]. by apply calm_upd.
  - etransitivity; [|apply IH]. case_bool_decide; [by apply calm_upd|done].
Qed.

Lemma calm_hold_all s ids m : calm m (hold_all s ids m).2.
Proof.
  revert m. induction ids as [|id ids IH]; intros m; cbn [hold_all]; [done|].
  assert (Hrest : forall m1 (b : bool), calm m m1 ->
    calm m (let '(rest, m2) := hold_all s ids m1 in (if b then id :: rest else rest, m2)).2).
  { intros m1 b C. specialize (IH m1). destruct (hold_all s ids m1). cbn [snd] in *. by transitivity m1. }
  destruct (services m !! id) as [q|]; [|by apply (Hrest m false)].
  destruct (stopping (svc m q)); [by apply (Hrest m false)|].
  pose proof (calm_hold s q m) as C. destruct (holdRequirementLocked s q m) as [b m1]. by apply (Hrest m1 b).
Qed.

Section Steps.
Context `{UnicodeQuote}.

Lemma calm_refresh_reconcile l m : calm m (refresh_reconcile l m).2.
Proof.
  revert m. induction l as [|s l IH]; intros m; cbn [refresh_reconcile]; [done|].
  destruct (_ || negb (is_up (state (svc m s)))); [apply IH|].
  destruct (validateRequirementsLocked s m). { etransitivity; [|apply IH]. by apply calm_upd. }
  pose proof (calm_hold_all s (Requires (def (svc m s))) m) as C. destruct (hold_all _ _ _) as [added m1].
  cbn [snd] in C. destruct (bool_decide _); [etransitivity; [exact C|apply IH]|].
  specialize (IH (spawn_run s "" None added m1)). destruct (refresh_reconcile l _). cbn [snd] in *.
  etransitivity; [exact C|]. etransitivity; [apply calm_spawn_run|exact IH].
Qed.

Lemma calm_begin_ensure id addr m : calm m (begin_ensure id addr m).2.
Proof.
  unfold begin_ensure. destruct (services m !! id) as [s|]; [|done]. destruct (invalidated _); [done|].
  destruct (validateRequirementsLocked s m); [done|]. destruct (inflight _); [done|]. apply calm_spawn_run.
Qed.
End Steps.

(** ** Who holds the reload slot, and who waits for whom *)

Fixpoint parent_of (p : pc) : option nat :=
  match p with
  | PBegin _ _ _ _ _ parent | PWaitCall _ _ _ parent | PStop _ _ parent | PStopWait _ _ parent _
  | PStopping _ _ _ parent | PStopCheck _ _ _ parent | PStopRelease _ _ parent | PPrep _ _ parent
  | PAppIdle _ parent | PAppWait _ parent _ | PAppRec _ parent | PCheck _ _ _ parent | PCheckSaw _ _ _ parent =>
      parent
  | PAwait _ p => parent_of p
  | _ => None
  end.

(** A reload, of [Apply] or of a reservation. *)
Definition applies (p : pc) : bool :=
  match p with PPrep _ _ _ | PAppIdle _ _ | PAppWait _ _ _ | PAppRec _ _ => true | _ => false end.

(** A reservation between its two sections; the activity that keeps the others out; and
    the one that has the slot. *)
Fixpoint in_res (p : pc) : bool :=
  match p with
  | PResIdle _ | PResWait _ _ | PResAction | PResEnd _ => true
  | PAwait _ p => in_res p
  | _ => false
  end.
Definition in_reload (p : pc) : bool :=
  match p with PPrep _ _ None | PAppIdle _ None | PAppWait _ None _ => true | p => in_res p end.
Definition slot_of (p : pc) : bool :=
  match p with
  | PApplyCheck _ _ | PAppRec _ None | PResBegin _ | PSlot _ => true
  | p => in_reload p
  end.

Definition is_await (p : pc) : bool := match p with PAwait _ _ => true | _ => false end.

(** Where an activity goes on when a call it made returns. *)
Definition awaitable (p : pc) : bool :=
  match p with
  | PResAction | PRunRelease _ _ _ | PStopRelease _ _ _ | PRefRelease _ _ | PIdleStops _ | PRefStops _
  | PWakeRes _ _ _ _ _ => true
  | _ => false
  end.

Record links (m : Manager) : Prop := {
  l_slot : forall k p, acts m !! k = Some p -> slot_of p = true -> applySlot m = Some k;
  l_parent : forall j p k, acts m !! j = Some p -> parent_of p = Some k ->
    exists q, acts m !! k = Some (PAwait j q) /\ (applies p = true -> q = PResAction);
  l_reload : forall k p, acts m !! k = Some p -> in_reload p = true -> reloadDone m <> None;
  l_res : forall k p, acts m !! k = Some p -> in_res p = true -> reserved m = true;
  l_await : forall k j q, acts m !! k = Some (PAwait j q) -> awaitable q = true
}.

Lemma in_reload_slot p : in_reload p = true -> slot_of p = true.
Proof. destruct p; try done; by destruct parent. Qed.
Lemma in_res_reload p : in_res p = true -> in_reload p = true.
Proof. destruct p; try done. Qed.

(** The service an activity uses, between [Acquire] and the call of its result. *)
Definition used_by (p : pc) : option nat := match p with PUsing s => Some s | _ => None end.

(** What [links] and the count of the uses read of a program counter. *)
Definition tag (p : pc) := (slot_of p, parent_of p, applies p, in_reload p, in_res p, used_by p).

Lemma tag_fields p q : tag p = tag q ->
  slot_of p = slot_of q /\ parent_of p = parent_of q /\ applies p = applies q /\ in_reload p = in_reload q /\
  in_res p = in_res q /\ used_by p = used_by q.
Proof. unfold tag. intros. by simplify_eq. Qed.

Definition neutral (p : pc) : Prop := tag p = (false, None, false, false, false, None).

Lemma links_still m m' : fresh m -> still m m' -> links m -> links m'.
Proof.
  intros I [Hs Hre Hrd Hn Ha Hnew] [L1 L2 L3 L4 L5].
  assert (Hold : forall j p, acts m' !! j = Some p -> acts m !! j = Some p \/ (neutral p /\ is_await p = false)).
  { intros j p Hp. destruct (decide (j < next m)); [rewrite Ha in Hp by done; by left|].
    destruct (Hnew j p) as [(r&stop&->)|[(o&d&id&c&->)|?]]; [lia|done|by right..|by left]. }
  split.
  - intros k p Hk Hp. rewrite Hs. destruct (Hold _ _ Hk) as [?|[Hne _]]; [eauto|]. unfold neutral, tag in Hne. congruence.
  - intros j p k Hj Hp. destruct (Hold _ _ Hj) as [Hj'|[Hne _]]; [|unfold neutral, tag in Hne; congruence].
    destruct (L2 _ _ _ Hj' Hp) as (q&Hq&?). exists q. split; [|done]. rewrite Ha; [done|].
    by eapply I.
  - intros k p Hk Hp. rewrite Hre. destruct (Hold _ _ Hk) as [?|[Hne _]]; [eauto|]. unfold neutral, tag in Hne. congruence.
  - intros k p Hk Hp. rewrite Hrd. destruct (Hold _ _ Hk) as [?|[Hne _]]; [eauto|]. unfold neutral, tag in Hne. congruence.
  - intros k j q Hk. destruct (Hold _ _ Hk) as [?|[_ ?]]; [eauto|done].
Qed.

Lemma links_set m k p p' :
  links m -> acts m !! k = Some p -> is_await p = false -> is_await p' = false -> tag p' = tag p ->
  links (set_act k p' m).
Proof.
  intros [L1 L2 L3 L4 L5] Hk Hw Hw' Ht. apply tag_fields in Ht as (T1&T2&T3&T4&T5&_).
  assert (Hold : forall j q, <[k := p']> (acts m) !! j = Some q -> (j = k /\ q = p') \/ acts m !! j = Some q).
  { intros j q [[<- <-]|[_ ?]]%lookup_insert_Some; auto. }
  split; cbn [set_act m_acts acts applySlot reloadDone reserved].
  - intros j q [[-> ->]|Hj]%Hold Hq; [|eauto]. rewrite T1 in Hq. eauto.
  - intros j q i Hj Hq. assert (Hj' : exists q', acts m !! j = Some q' /\ parent_of q' = Some i /\ applies q' = applies q).
    { apply Hold in Hj as [[-> ->]|Hj]; [exists p; split_and!; congruence|eauto]. }
    destruct Hj' as (q'&Hj'&Hp'&Ha'). destruct (L2 _ _ _ Hj' Hp') as (x&Hx&?). exists x.
    rewrite lookup_insert_ne; [split; [done|]; by rewrite <- Ha'|]. intros <-. rewrite Hk in Hx. by simplify_eq.
  - intros j q [[-> ->]|Hj]%Hold Hq; [|eauto]. rewrite T4 in Hq. eauto.
  - intros j q [[-> ->]|Hj]%Hold Hq; [|eauto]. rewrite T5 in Hq. eauto.
  - intros j i q [[-> E]|Hj]%Hold; [by rewrite <- E in Hw'|eauto].
Qed.

Lemma links_spawn m p : links m -> fresh m -> neutral p -> is_await p = false -> links (spawn p m).
Proof.
  intros [L1 L2 L3 L4 L5] I Hp Hw. unfold neutral, tag in Hp. simplify_eq.
  assert (Hf : acts m !! next m = None).
  { destruct (acts m !! next m) eqn:E; [|done]. apply I in E. lia. }
  split; cbn [spawn alloc m_next set_act m_acts acts applySlot reloadDone reserved].
  - intros j q [[<- <-]|[_ Hj]]%lookup_insert_Some Hq; [congruence|eauto].
  - intros j q i [[<- <-]|[_ Hj]]%lookup_insert_Some Hq; [congruence|].
    destruct (L2 _ _ _ Hj Hq) as (x&?&?). exists x. rewrite lookup_insert_ne by congruence. done.
  - intros j q [[<- <-]|[_ Hj]]%lookup_insert_Some Hq; [congruence|eauto].
  - intros j q [[<- <-]|[_ Hj]]%lookup_insert_Some Hq; [congruence|eauto].
  - intros j i q [[<- E]|[_ Hj]]%lookup_insert_Some; [by subst|eauto].
Qed.

Lemma links_await m k p p' child :
  links m -> fresh m -> acts m !! k = Some p -> is_await p = false -> tag (PAwait (next m) p') = tag p ->
  parent_of child = Some k -> slot_of child = false -> is_await child = false ->
  (applies child = true -> p' = PResAction) -> awaitable p' = true ->
  links (await k p' child m).
Proof.
  intros [L1 L2 L3 L4 L5] I Hk Hw Ht Hc1 Hc2 Hc3 Hc4 Hc5. apply tag_fields in Ht as (T1&T2&T3&T4&T5&_).
  pose proof (I _ _ Hk) as Hlt.
  assert (Hr : in_reload child = false).
  { destruct (in_reload child) eqn:E; [|done]. apply in_reload_slot in E. congruence. }
  assert (Hrs : in_res child = false).
  { destruct (in_res child) eqn:E; [|done]. apply in_res_reload in E. congruence. }
  assert (Hf : acts m !! next m = None).
  { destruct (acts m !! next m) eqn:E; [|done]. apply I in E. lia. }
  set (A := <[k := PAwait (next m) p']> (<[next m := child]> (acts m))).
  assert (Hold : forall j q, A !! j = Some q ->
    (j = k /\ q = PAwait (next m) p') \/ (j = next m /\ q = child) \/ (j <> k /\ j <> next m /\ acts m !! j = Some q)).
  { intros j q. unfold A. intros [[<- <-]|[? E]]%lookup_insert_Some; [auto|].
    apply lookup_insert_Some in E as [[<- <-]|[? E]]; auto. }
  assert (Hkeep : forall j x, acts m !! j = Some x -> j <> k -> A !! j = Some x).
  { intros j x Hj Hne. unfold A. rewrite !lookup_insert_ne by congruence. done. }
  unfold await. split; cbn [spawn alloc m_next set_act m_acts acts applySlot reloadDone reserved]; fold A.
  - intros j q [[-> ->]|[[-> ->]|(?&?&Hj)]]%Hold Hq; [rewrite T1 in Hq; eauto|congruence|eauto].
  - intros j q i [[-> ->]|[[-> ->]|(?&?&Hj)]]%Hold Hq.
    + rewrite T2 in Hq. destruct (L2 _ _ _ Hk Hq) as (x&Hx&?). exists x. split; [|done].
      apply Hkeep; [done|]. intros ->. rewrite Hk in Hx. by simplify_eq.
    + rewrite Hc1 in Hq. simplify_eq. exists p'. unfold A. rewrite lookup_insert_eq. done.
    + destruct (L2 _ _ _ Hj Hq) as (x&Hx&?). exists x. split; [|done]. apply Hkeep; [done|].
      intros ->. rewrite Hk in Hx. by simplify_eq.
  - intros j q [[-> ->]|[[-> ->]|(?&?&Hj)]]%Hold Hq; [rewrite T4 in Hq; eauto|congruence|eauto].
  - intros j q [[-> ->]|[[-> ->]|(?&?&Hj)]]%Hold Hq; [rewrite T5 in Hq; eauto|congruence|eauto].
  - intros j i q [[-> E]|[[-> E]|(?&?&Hj)]]%Hold; [by simplify_eq|by subst|eauto].
Qed.

Lemma resume_tag q e j : awaitable q = true -> tag (resume q e) = tag (PAwait j q).
Proof. by destruct q. Qed.

Lemma links_ret m k p e :
  links m -> acts m !! k = Some p -> is_await p = false -> links (ret k (parent_of p) e m).
Proof.
  intros [L1 L2 L3 L4 L5] Hk Hw. unfold ret. set (m1 := m_replies _ _).
  assert (Hd : forall j q, acts m1 !! j = Some q <-> j <> k /\ acts m !! j = Some q).
  { intros j q. cbn. rewrite lookup_delete_Some. naive_solver. }
  assert (B1 : forall j q, acts m1 !! j = Some q -> slot_of q = true -> applySlot m = Some j) by (intros j q [_ ?]%Hd; eauto).
  assert (B3 : forall j q, acts m1 !! j = Some q -> in_reload q = true -> reloadDone m <> None) by (intros j q [_ ?]%Hd; eauto).
  assert (B4 : forall j q, acts m1 !! j = Some q -> in_res q = true -> reserved m = true) by (intros j q [_ ?]%Hd; eauto).
  assert (B5 : forall j i q, acts m1 !! j = Some (PAwait i q) -> awaitable q = true) by (intros j i q [_ ?]%Hd; eauto).
  assert (B2 : forall j q i, acts m1 !! j = Some q -> parent_of q = Some i ->
    exists x, acts m1 !! i = Some (PAwait j x) /\ (applies q = true -> x = PResAction)).
  { intros j q i [Hne Hj]%Hd Hq. destruct (L2 _ _ _ Hj Hq) as (x&Hx&?). exists x. split; [|done].
    apply Hd. split; [|done]. intros ->. rewrite Hk in Hx. by simplify_eq. }
  destruct (parent_of p) as [i|] eqn:Hpar; [|by split].
  destruct (L2 _ _ _ Hk Hpar) as (x&Hx&_).
  assert (Hx1 : acts m1 !! i = Some (PAwait k x)).
  { apply Hd. split; [|done]. intros ->. rewrite Hk in Hx. by simplify_eq. }
  rewrite Hx1. pose proof (resume_tag x e k (L5 _ _ _ Hx)) as Ht. apply tag_fields in Ht as (T1&T2&T3&T4&T5&_).
  assert (Hw' : is_await (resume x e) = false) by (apply L5 in Hx; by destruct x).
  assert (Hold : forall j q, <[i := resume x e]> (acts m1) !! j = Some q -> (j = i /\ q = resume x e) \/ acts m1 !! j = Some q).
  { intros j q [[<- <-]|[_ ?]]%lookup_insert_Some; auto. }
  split; cbn [set_act m_acts acts applySlot reloadDone reserved].
  - intros j q [[-> ->]|Hj]%Hold Hq; [|eauto]. rewrite T1 in Hq. eauto.
  - intros j q h Hj Hq.
    assert (Hj' : exists q', acts m1 !! j = Some q' /\ parent_of q' = Some h /\ (applies q = true -> applies q' = true)).
    { apply Hold in Hj as [[-> ->]|Hj]; [|eauto]. exists (PAwait k x). split_and!; [done|congruence|by rewrite T3]. }
    destruct Hj' as (q'&Hj'&Hp'&Ha'). destruct (B2 _ _ _ Hj' Hp') as (y&Hy&?). exists y.
    rewrite lookup_insert_ne; [auto|]. intros <-. rewrite Hx1 in Hy. simplify_eq.
    apply Hd in Hj' as [? _]. done.
  - intros j q [[-> ->]|Hj]%Hold Hq; [|eauto]. rewrite T4 in Hq. eauto.
  - intros j q [[-> ->]|Hj]%Hold Hq; [|eauto]. rewrite T5 in Hq. eauto.
  - intros j h q [[-> E]|Hj]%Hold; [by rewrite <- E in Hw'|eauto].
Qed.

(** ** The kinds of turns *)

(** The definitions a reload has prepared. *)
Definition ready_of (p : pc) : list prepared :=
  match p with PPrep _ ready _ | PAppIdle ready _ | PAppWait ready _ _ => ready | _ => [] end.

(** A prepared definition brings a driver or the error of its factory, or is that of a
    registered service. *)
Definition prepared_ok (m : Manager) (u : prepared) : Prop :=
  (exists h, p_driver u = Some (HostDriver h)) \/ is_Some (p_err u) \/
  (p_driver u = None /\ is_Some (services m !! ID (p_def u))).

(** How a turn of activity [k], at [p], ends: the activity goes on, returns, calls, or is
    a goroutine that is over. *)
Inductive moves (k : nat) (p : pc) (m : Manager) : Manager -> Prop :=
| mv_set p' : is_await p' = false -> tag p' = tag p ->
    (forall u, u ∈ ready_of p' -> u ∈ ready_of p \/ prepared_ok m u) -> moves k p m (set_act k p' m)
| mv_ret e : used_by p = None -> moves k p m (ret k (parent_of p) e m)
| mv_await p' child : tag (PAwait (next m) p') = tag p -> parent_of child = Some k -> slot_of child = false ->
    is_await child = false -> (applies child = true -> p' = PResAction) -> awaitable p' = true ->
    used_by child = None -> ready_of child = [] -> moves k p m (await k p' child m)
| mv_gone : parent_of p = None -> used_by p = None -> moves k p m (del_act k m)
| mv_send call q q' : parent_of p = None -> used_by p = None -> acts m !! call = Some q -> call <> k ->
    is_await q = false -> is_await q' = false -> in_res q = false -> tag q' = tag q -> ready_of q' = [] ->
    moves k p m (set_act call q' (del_act k m)).

Definition turn_ok (k : nat) (p : pc) (m m' : Manager) : Prop := exists m1, calm m m1 /\ moves k p m1 m'.

Lemma turn_ok_here k p m m' : moves k p m m' -> turn_ok k p m m'.
Proof. intros. by exists m. Qed.

Lemma turn_ok_after k p m m1 m' : calm m m1 -> moves k p m1 m' -> turn_ok k p m m'.
Proof. intros. by exists m1. Qed.

Lemma links_gone m k p :
  links m -> acts m !! k = Some p -> is_await p = false -> links (del_act k m).
Proof.
  intros [L1 L2 L3 L4 L5] Hk Hw.
  assert (Hd : forall j q, acts (del_act k m) !! j = Some q <-> j <> k /\ acts m !! j = Some q).
  { intros j q. cbn. rewrite lookup_delete_Some. naive_solver. }
  split; cbn [del_act m_acts applySlot reloadDone reserved].
  - intros j q [_ ?]%Hd; eauto.
  - intros j q i [_ Hj]%Hd Hq. destruct (L2 _ _ _ Hj Hq) as (x&Hx&?). exists x. split; [|done].
    apply Hd. split; [|done]. intros ->. rewrite Hk in Hx. by simplify_eq.
  - intros j q [_ ?]%Hd; eauto.
  - intros j q [_ ?]%Hd; eauto.
  - intros j i q [_ ?]%Hd; eauto.
Qed.

Lemma links_moves m k p m' :
  fresh m -> links m -> acts m !! k = Some p -> is_await p = false -> moves k p m m' -> links m'.
Proof.
  intros I L Hk Hw Hm. destruct Hm as [p' ?? _|e|p' child|_ _|call q q'].
  - by eapply links_set.
  - by eapply links_ret.
  - by eapply links_await.
  - by eapply links_gone.
  - eapply (links_set _ _ q); [by eapply links_gone| |done..]. cbn. rewrite lookup_delete_ne; congruence.
Qed.

Section Turns.
Context `{UnicodeQuote}.

(** A turn that only moves. *)
Ltac moved :=
  lazymatch goal with
  | |- turn_ok _ _ _ (ret _ _ _ _) => apply turn_ok_here; by refine (mv_ret _ _ _ _ _)
  | |- turn_ok _ _ _ (set_act _ _ _) =>
      apply turn_ok_here; apply mv_set; [done|done|by cbn [ready_of]; first [intros ? ?%not_elem_of_nil | left]]
  | |- turn_ok _ _ _ (await _ _ _ _) => apply turn_ok_here; by apply mv_await
  end.
Ltac moved_after m1 :=
  apply (turn_ok_after _ _ _ m1); [|apply mv_set; [done|done|by cbn [ready_of]; intros ? ?%not_elem_of_nil]].

Lemma begin_moves k id addr recursive ctx wait parent m :
  turn_ok k (PBegin id addr recursive ctx wait parent) m (begin_turn k id addr ctx wait parent m).
Proof.
  unfold begin_turn. pose proof (calm_begin_ensure id addr m) as C.
  destruct (begin_ensure id addr m) as [[e|c] m1]; cbn [snd] in C.
  - apply (turn_ok_after _ _ _ m1); [done|]. by refine (mv_ret _ (PBegin _ _ _ _ _ _) _ _ _).
  - destruct wait; [by moved_after m1|]. apply (turn_ok_after _ _ _ m1); [done|].
    by refine (mv_ret _ (PBegin _ _ _ _ _ _) _ _ _).
Qed.

Lemma receive_tag r out added err : tag (receive r out added err) = tag (PRunWake r out added err).
Proof. unfold receive, after_wake. case_bool_decide; [|done]. by destruct err. Qed.

Lemma wake_begin_moves k r stop m : turn_ok k (PRunBegin r stop) m (wake_begin k r m).
Proof.
  unfold wake_begin. eapply turn_ok_after; [apply calm_spawn_wakes|].
  apply mv_set; [|by rewrite receive_tag|]; unfold receive, after_wake; repeat case_match; try done;
    by intros ? ?%not_elem_of_nil.
Qed.

Lemma release_moves k i release rest p m m' :
  release_one k i release rest m = Some m' ->
  (forall l, tag (rest l) = tag p /\ is_await (rest l) = false /\ ready_of (rest l) = [] /\ awaitable (rest l) = true /\
     forall j, tag (PAwait j (rest l)) = tag p) ->
  turn_ok k p m m'.
Proof.
  unfold release_one. intros E Hr. destruct (release !! i) as [h|]; [|done].
  specialize (Hr (delete i release)) as (H1&H2&H3&H4&H5).
  pose proof (calm_fire h m) as C. destruct (fire h m) as [[s|] m1]; cbn [snd] in C; apply (inj Some) in E; subst m'.
  - apply (turn_ok_after _ _ _ m1); [done|]. by apply mv_await.
  - apply (turn_ok_after _ _ _ m1); [done|]. apply mv_set; [done..|]. rewrite H3. by intros ? ?%not_elem_of_nil.
Qed.

Lemma wake_moves k owner d id call m : turn_ok k (PWake owner d id call) m (wake_turn k owner d id call m).
Proof.
  unfold wake_turn. destruct (services m !! id) as [q|]; [|moved]. destruct (negb _); [moved|].
  destruct (stopping (svc m q)); [moved|]. pose proof (calm_hold owner q m) as C.
  destruct (holdRequirementLocked owner q m) as [b m1]. cbn [snd] in C.
  apply (turn_ok_after _ _ _ m1); [done|]. by apply mv_await.
Qed.

Lemma wake_send_moves k owner id call added err m m' :
  acts m !! k = Some (PWakeSend owner id call added err) ->
  wake_send k id call added err m = Some m' -> turn_ok k (PWakeSend owner id call added err) m m'.
Proof.
  intros Hk. unfold wake_send. destruct (acts m !! call) as [[]|] eqn:Hc; try done.
  intros E. apply (inj Some) in E. subst m'. apply turn_ok_here.
  assert (Hne : call <> k) by (intros ->; congruence).
  eapply mv_send; [done|done|exact Hc|done|done| |done|by rewrite receive_tag|];
    unfold receive, after_wake; repeat case_match; done.
Qed.

Lemma run_state_moves k r added ans probe m :
  turn_ok k (PRunState r added) m (run_state k r added ans probe m).
Proof.
  unfold run_state, setState. match goal with |- context [if ?b then _ else _] => destruct b end.
  - moved_after (markRunning (r_svc r) false m). apply calm_markRunning.
  - match goal with |- turn_ok _ _ _ (set_act _ _ ?m1) => moved_after m1 end.
    etransitivity; [|apply calm_notify]. by apply calm_upd.
Qed.

Lemma run_start_moves k r added ans m : turn_ok k (PRunStart r added) m (run_start k r added ans m).
Proof.
  unfold run_start. destruct (driver_do _ _) as [e|]; [|moved].
  match goal with |- turn_ok _ _ _ (set_act _ _ ?m1) => moved_after m1 end. apply calm_failStart.
Qed.

Lemma run_poll_moves k r added ans probe m : turn_ok k (PRunPoll r added) m (run_poll k r added ans probe m).
Proof.
  unfold run_poll. cbv zeta. match goal with |- context [match ?e with Some _ => _ | None => _ end] => destruct e end;
    [moved|]. moved_after (markRunning (r_svc r) true m). apply calm_markRunning.
Qed.

Lemma run_detach_moves k r added err retain failed m :
  turn_ok k (PRunDetach r added err retain failed) m (run_detach k r added err retain failed m).
Proof.
  unfold run_detach. cbv zeta. destruct err as [e|].
  - set (m1 := upd _ _ m). assert (C1 : calm m m1) by (by apply calm_upd).
    match goal with |- context [if ?b then upd ?s ?f m1 else m1] => set (m2 := if b then upd s f m1 else m1) end.
    assert (C2 : calm m m2).
    { unfold m2. etransitivity; [exact C1|]. destruct (_ || _); [by apply calm_upd|done]. }
    clearbody m2. pose proof (calm_detach (r_svc r) added m2) as C. destruct retain; cbn [negb].
    + by moved_after m2.
    + destruct (detachRequirementIDsLocked _ _ _) as [rel m3]. moved_after m3. by transitivity m2.
  - unfold detachRequirementsLocked. match goal with |- context [detachRequirementIDsLocked ?s ?ids m] =>
      pose proof (calm_detach s ids m) as C; destruct (detachRequirementIDsLocked s ids m) as [rel m1] end.
    by moved_after m1.
Qed.

Lemma run_end_moves k r err l m : turn_ok k (PRunRelease r err l) m (run_end k r err m).
Proof.
  set (m1 := close k (upd (r_svc r) (fun x => bump_version (w_inflight None x)) (m_calls (<[k := err]> (calls m)) m))).
  change (run_end k r err m) with (del_act k m1). apply (turn_ok_after _ _ _ m1); [|by apply mv_gone].
  set (m2 := upd _ _ _) in m1. transitivity m2; [|split; [split; auto|done..]].
  transitivity (m_calls (<[k := err]> (calls m)) m); [split; [split; auto|done..]|by apply calm_upd].
Qed.

(** The activities whose turns change definitions, uses or the reload slot. *)
Definition special (p : pc) : bool :=
  match p with
  | PAcquire _ | PUsing _ | PApplySlot _ _ | PApplyCheck _ _ | PAppIdle _ _ | PAppRec _ None | PReserve _ | PResBegin _
  | PResAction | PResEnd _ | PSlot _ => true
  | _ => false
  end.

Lemma run_turn_moves k p a m m' :
  acts m !! k = Some p -> special p = false -> run_turn k p a m = Some m' -> turn_ok k p m m'.
Proof.
  intros Hk Hs. destruct p; try done; cbn [run_turn]; destruct a; try done; turn_cases; try moved.
  - apply begin_moves.
  - apply begin_moves.
  - apply begin_moves.
  - apply wake_begin_moves.
  - apply wake_begin_moves.
  - apply run_state_moves.
  - apply run_start_moves.
  - apply run_poll_moves.
  - unfold run_timeout. match goal with |- turn_ok _ _ _ (set_act _ _ ?m1) => moved_after m1 end. apply calm_failStart.
  - unfold run_failed. cbv zeta. moved.
  - apply run_detach_moves.
  - apply run_end_moves.
  - intros E. by eapply release_moves.
  - intros E. by eapply release_moves.
  - apply wake_moves.
  - intros E. by apply wake_send_moves.
Qed.

Lemma stop_section_moves k s t idle parent m :
  turn_ok k (PStop t idle parent) m (stop_section k s t idle parent m).
Proof.
  unfold stop_section. cbv zeta.
  repeat match goal with |- context [if ?b then ret _ _ _ _ else _] =>
    destruct b; [apply turn_ok_here; by refine (mv_ret _ (PStop _ _ _) _ _ _)|] end.
  destruct (match inflight _ with Some _ => _ | None => _ end); [moved|].
  match goal with |- turn_ok _ _ _ (set_act _ _ ?m1) => moved_after m1 end. by apply calm_upd.
Qed.

Lemma stop_turn_moves k t idle parent m m' :
  stop_turn k t idle parent m = Some m' -> turn_ok k (PStop t idle parent) m m'.
Proof.
  assert (Hret : forall e, turn_ok k (PStop t idle parent) m (ret k parent e m)).
  { intros e. apply turn_ok_here. by refine (mv_ret _ (PStop _ _ _) _ _ _). }
  unfold stop_turn. destruct t as [id|s].
  - destruct (reloadDone m); [done|]. destruct (services m !! id) as [s|]; intros E; apply (inj Some) in E; subst m';
      [apply stop_section_moves|done].
  - destruct (idle && reserved m); intros E; apply (inj Some) in E; subst m'; [done|apply stop_section_moves].
Qed.

Lemma stop_finish_moves k s stopped err parent p m :
  tag p = tag (PStopRelease [] err parent) -> turn_ok k p m (stop_finish k s stopped err parent m).
Proof.
  intros Ht. unfold stop_finish, setState, detachRequirementsLocked.
  assert (Hend : forall release changed m1, calm m m1 ->
    turn_ok k p m (set_act k (PStopRelease release err parent) (notify changed (close k
      (upd s (fun x => bump_version (w_stopping None x))
        (match err with Some e => upd s (fun x => w_updatedAt (now m1) (w_lastError (Some e) x)) m1 | None => m1 end)))))).
  { intros release changed m1 C. eapply turn_ok_after; [|apply mv_set; [done|by rewrite Ht|]].
    - etransitivity; [exact C|]. etransitivity; [|apply calm_notify].
      set (m3 := upd _ _ _). transitivity m3; [|split; [split; auto|done..]].
      unfold m3. destruct err; calm_upds.
    - by cbn [ready_of]; intros ? ?%not_elem_of_nil. }
  destruct stopped; [|by apply Hend].
  match goal with |- context [detachRequirementIDsLocked s ?ids ?m2] =>
    pose proof (calm_detach s ids m2) as C; destruct (detachRequirementIDsLocked s ids m2) as [rel m3] end.
  cbn [snd] in C. apply Hend. etransitivity; [|exact C]. calm_upds.
Qed.

Lemma refresh_section_moves k items m : turn_ok k (PRefApply items) m (refresh_section k items m).
Proof.
  unfold refresh_section. pose proof (calm_refresh_items items m) as C.
  destruct (refresh_items items m) as [[release changed] m1]. cbn [snd] in C.
  pose proof (calm_refresh_reconcile (ordered m1) m1) as C2. destruct (refresh_reconcile _ m1) as [reconcile m2].
  cbn [snd] in C2. match goal with |- turn_ok _ _ _ (set_act _ _ ?m3) => moved_after m3 end.
  etransitivity; [exact C|]. etransitivity; [exact C2|apply calm_notify].
Qed.

(** A field that [calm] does not read. *)
Ltac calm_field := split; [split; auto|done..].

Lemma stop_refresh_turn_moves k p a m m' :
  special p = false -> stop_refresh_turn k p a m = Some m' -> turn_ok k p m m'.
Proof.
  intros Hs. destruct p; try done; cbn [stop_refresh_turn]; destruct a; try done; turn_cases; try moved.
  - apply stop_turn_moves.
  - apply stop_turn_moves.
  - unfold stop_did. destruct (driver_do _ _); [moved|by apply stop_finish_moves].
  - by apply stop_finish_moves.
  - intros E. by eapply release_moves.
  - intros E. by eapply release_moves.
  - unfold idle_turn. destruct (reloadDone m); moved.
  - moved_after (m_refreshSlot (Some k) m). calm_field.
  - moved_after (m_refreshing true m). calm_field.
  - apply (turn_ok_after _ _ _ (m_refreshSlot None m)); [calm_field|]. by refine (mv_ret _ PRefAdmit _ _ _).
  - apply refresh_section_moves.
  - intros E. by eapply release_moves.
  - intros E. by eapply release_moves.
  - moved_after (m_deferredStops ∅ (m_refreshing false m)). calm_field.
  - apply (turn_ok_after _ _ _ (m_refreshSlot None m)); [calm_field|]. by refine (mv_ret _ (PRefStops _) _ _ _).
Qed.

Context {V : Type} `{EqDecision V} (unmarshal : list byte -> option V).

Lemma prepare_ok d r m : prepared_ok m (prepare unmarshal d r m).
Proof.
  unfold prepare, prepared_ok. destruct (services m !! ID d) as [s|] eqn:E.
  - destruct (driverDefinitionEqual _ _ _); [right; right; cbn; rewrite E; eauto|destruct r; cbn; eauto].
  - destruct r; cbn; eauto.
Qed.

Lemma check_saw_moves k s d restart parent ans m :
  turn_ok k (PCheckSaw s d restart parent) m (check_saw k s d restart parent ans m).
Proof.
  unfold check_saw. set (m1 := match driver_state d ans with Saw _ => _ | Blind _ => _ end).
  assert (C : calm m m1) by (unfold m1; destruct (driver_state d ans) as [[]|]; try done; by apply calm_upd).
  clearbody m1. cbv zeta.
  repeat match goal with |- context [if ?b then ret _ _ _ _ else _] => destruct b end;
    (apply (turn_ok_after _ _ _ m1); [done|by refine (mv_ret _ (PCheckSaw _ _ _ _) _ _ _)]).
Qed.

Lemma reload_turn_moves k p a m m' :
  special p = false -> reload_turn unmarshal k p a m = Some m' -> turn_ok k p m m'.
Proof.
  intros Hs. destruct p; try done; cbn [reload_turn]; destruct a; try done; turn_cases; try moved.
  - apply turn_ok_here. apply mv_set; [done..|]. cbn [ready_of]. intros u [?|Hu]%elem_of_app; [by left|].
    apply list_elem_of_singleton in Hu as ->. right. apply prepare_ok.
  - done.
  - destruct (expected_ok expected m); moved.
  - destruct (busy_channel id m); cbn; [|done]. turn_cases. moved.
  - unfold check_turn. destruct (services m !! id) as [s|]; [|moved]. destruct (RuntimeDefinitionEqual _ _ _); moved.
  - apply check_saw_moves.
Qed.

Lemma turn_moves k p a m m' :
  acts m !! k = Some p -> special p = false -> turn unmarshal k p a m = Some m' -> turn_ok k p m m'.
Proof.
  intros Hk Hs. unfold turn. destruct (run_turn k p a m) eqn:E1; [intros [= <-]; by eapply run_turn_moves|].
  destruct (stop_refresh_turn k p a m) eqn:E2; [intros [= <-]; by eapply stop_refresh_turn_moves|].
  intros E. by eapply reload_turn_moves.
Qed.

End Turns.
End Reload.
