(* ===== verification/ServiceUses.v ===== *)
(** * Uses, reloads and reservations of the service manager

    The invariant of the machine of [Services] that counts uses, keeps every registered
    service with a driver and lets one activity at a time reload; and what follows from
    it: idle services are stopped only when nobody uses them, and nothing but its own
    action changes what a reservation found. *)
From S2P Require Import Prelude GoIO GoStrings Requirements Services ServiceSamples ServiceHolds ServiceSafety ServiceReload.
Import Services Samples Holds Safety Reload.

Module Uses.
Section Steps.
Local Open Scope nat_scope.
Context `{UnicodeQuote} {V : Type} `{EqDecision V} (unmarshal : list byte -> option V).

(** The activities that use a service. *)
Definition user (m : Manager) (j : nat) : option nat := acts m !! j ≫= used_by.
Definition users (m : Manager) (s : nat) : gset nat := dom (filter (fun kp => used_by kp.2 = Some s) (acts m)).

Lemma elem_users m s j : j ∈ users m s <-> user m j = Some s.
Proof.
  unfold users, user. rewrite elem_of_dom. split.
  - intros [p [Hp Hs]%map_lookup_filter_Some]. by rewrite Hp.
  - destruct (acts m !! j) as [p|] eqn:Hp; [|done]. intros Hs. exists p. by apply map_lookup_filter_Some.
Qed.

Lemma users_same m m' s : (forall j, user m' j = user m j) -> users m' s = users m s.
Proof. intros E. apply set_eq. intros j. by rewrite !elem_users, E. Qed.

(** What an activity has prepared. *)
Definition readied (m : Manager) (j : nat) : list prepared := default [] (ready_of <$> acts m !! j).

Record tidy (m : Manager) : Prop := {
  t_links : links m;
  t_fresh : forall s, next m <= s -> active (svc m s) = 0%Z;
  t_active : forall s, active (svc m s) = Z.of_nat (size (users m s));
  t_driver : forall id s, services m !! id = Some s -> driver (svc m s) <> NilDriver;
  t_ready : forall j u, u ∈ readied m j -> prepared_ok m u
}.

(** Sections that change neither who is registered, nor drivers, nor uses. *)
Record tame (m m' : Manager) : Prop := {
  tm_still : still m m';
  tm_services : services m' = services m;
  tm_active : forall s, active (svc m' s) = active (svc m s);
  tm_driver : forall s, driver (svc m' s) = driver (svc m s)
}.

Lemma calm_tame m m' : calm m m' -> tame m m'.
Proof. intros [St Hf Hs]. split; [done|done|intros s..]; specialize (Hf s); unfold face in Hf; congruence. Qed.

Lemma still_old m m' j : fresh m -> still m m' -> acts m' !! j = acts m !! j \/
  exists p, acts m' !! j = Some p /\ used_by p = None /\ ready_of p = [] /\ acts m !! j = None.
Proof.
  intros I St. destruct (decide (j < next m)); [left; by apply (c_acts _ _ St)|].
  destruct (acts m' !! j) as [p|] eqn:Hp.
  - assert (Hn : acts m !! j = None).
    { destruct (acts m !! j) eqn:E; [|done]. apply I in E. lia. }
    right. exists p. destruct (c_new _ _ St j p) as [(r&stop&->)|[(o&d&id&c&->)|?]]; [lia|done|done..|congruence].
  - left. destruct (acts m !! j) eqn:E; [|done]. apply I in E. lia.
Qed.

Lemma still_user m m' j : fresh m -> still m m' -> user m' j = user m j.
Proof.
  intros I St. unfold user. destruct (still_old _ _ j I St) as [->|(p&->&?&_&->)]; [done|]. by cbn.
Qed.

Lemma still_readied m m' j : fresh m -> still m m' -> readied m' j = readied m j.
Proof.
  intros I St. unfold readied. destruct (still_old _ _ j I St) as [->|(p&->&_&E&->)]; [done|]. by cbn; rewrite E.
Qed.

Lemma prepared_ok_services m m' u : services m' = services m -> prepared_ok m u -> prepared_ok m' u.
Proof. intros E. unfold prepared_ok. by rewrite E. Qed.

Lemma tidy_tame m m' : fresh m -> tame m m' -> tidy m -> tidy m'.
Proof.
  intros I [St Hs Ha Hd] [T1 T2 T3 T4 T5]. split.
  - by eapply links_still.
  - intros s Hle. rewrite Ha. apply T2. pose proof (c_next _ _ St). lia.
  - intros s. rewrite Ha, T3. f_equal. f_equal. symmetry. apply users_same. intros j. by apply still_user.
  - intros id s. rewrite Hs, Hd. apply T4.
  - intros j u. rewrite (still_readied _ _ _ I St). intros Hu. eapply prepared_ok_services; [done|by eapply T5].
Qed.

(** ** Turns that are not special *)

Lemma moves_heap k p m m' : moves k p m m' ->
  (forall s, svc m' s = svc m s) /\ services m' = services m /\ next m <= next m'.
Proof.
  intros [p'|e|p' child|_ _|call q q']; cbn; try (split_and!; [done|done|lia]).
  unfold ret. destruct (parent_of p) as [i|]; [|done].
  destruct (acts _ !! i) as [[]|]; done.
Qed.

Lemma user_insert m k p j : user (set_act k p m) j = if decide (j = k) then used_by p else user m j.
Proof.
  unfold user. cbn. destruct (decide (j = k)) as [->|]; [by rewrite lookup_insert_eq|by rewrite lookup_insert_ne by done].
Qed.

Lemma user_delete m k j : user (del_act k m) j = if decide (j = k) then None else user m j.
Proof.
  unfold user. cbn. destruct (decide (j = k)) as [->|]; [by rewrite lookup_delete_eq|by rewrite lookup_delete_ne by done].
Qed.

Lemma is_await_inv p : is_await p = true -> exists j q, p = PAwait j q.
Proof. destruct p; cbn; intros; simplify_eq; eauto. Qed.

Lemma ret_other m k parent e :
  links m -> exists m1, ret k parent e m = m1 /\
  (forall j, user m1 j = if decide (j = k) then None else user m j) /\
  (forall j u, u ∈ readied m1 j -> u ∈ readied m j).
Proof.
  intros L. eexists. split; [done|].
  assert (Hu : forall j, user (m_replies (<[k := e]> (replies m)) (del_act k m)) j = if decide (j = k) then None else user m j)
    by (apply user_delete).
  assert (Hr : forall j u, u ∈ readied (m_replies (<[k := e]> (replies m)) (del_act k m)) j -> u ∈ readied m j).
  { intros j u. unfold readied. cbn. destruct (decide (j = k)) as [->|];
      [rewrite lookup_delete_eq; by intros ?%not_elem_of_nil|by rewrite lookup_delete_ne]. }
  unfold ret. set (m1 := m_replies _ _) in *. destruct parent as [i|]; [|done].
  destruct (acts m1 !! i) as [x|] eqn:Hi; [|done]. destruct (is_await x) eqn:Hx; [|by destruct x].
  apply is_await_inv in Hx as (j&q&->).
  assert (Hi' : i <> k /\ acts m !! i = Some (PAwait j q)).
  { unfold m1 in Hi. cbn in Hi. apply lookup_delete_Some in Hi as [??]. auto. }
  destruct Hi' as [Hne Hi']. pose proof (l_await _ L _ _ _ Hi') as Hq. split.
  - intros h. rewrite user_insert. destruct (decide (h = i)) as [->|]; [|apply Hu].
    rewrite decide_False by done. unfold user. rewrite Hi'. by destruct q.
  - intros h u. unfold readied at 1. cbn. destruct (decide (h = i)) as [->|].
    + rewrite lookup_insert_eq. cbn. destruct q; try done; by intros ?%not_elem_of_nil.
    + rewrite lookup_insert_ne by done. apply Hr.
Qed.

Lemma readied_insert m k p j : readied (set_act k p m) j = if decide (j = k) then ready_of p else readied m j.
Proof.
  unfold readied. cbn. destruct (decide (j = k)) as [->|]; [by rewrite lookup_insert_eq|by rewrite lookup_insert_ne by done].
Qed.

Lemma readied_delete m k j u : u ∈ readied (del_act k m) j -> u ∈ readied m j.
Proof.
  unfold readied. cbn. destruct (decide (j = k)) as [->|];
    [rewrite lookup_delete_eq; by intros ?%not_elem_of_nil|by rewrite lookup_delete_ne by done].
Qed.

Lemma moves_user k p m m' j :
  fresh m -> links m -> acts m !! k = Some p -> moves k p m m' -> user m' j = user m j.
Proof.
  intros I L Hk Hm. assert (Hu : user m k = used_by p) by (unfold user; by rewrite Hk).
  destruct Hm as [p' _ Ht _|e Hn|p' child Ht _ _ _ _ _ Hc _|_ Hn|call q q' _ Hn Hq Hne _ _ _ Ht _].
  - rewrite user_insert. destruct (decide (j = k)) as [->|]; [|done]. apply tag_fields in Ht as (_&_&_&_&_&->). done.
  - destruct (ret_other m k (parent_of p) e L) as (m1&->&Hj&_). rewrite Hj.
    destruct (decide (j = k)) as [->|]; [congruence|done].
  - unfold await. rewrite user_insert. apply tag_fields in Ht as (_&_&_&_&_&E).
    destruct (decide (j = k)) as [->|]; [congruence|].
    change (user (set_act (next m) child m) j = user m j). rewrite user_insert.
    destruct (decide (j = next m)) as [->|]; [|done]. rewrite Hc. unfold user.
    destruct (acts m !! next m) eqn:E2; [|done]. apply I in E2. lia.
  - rewrite user_delete. destruct (decide (j = k)) as [->|]; [congruence|done].
  - rewrite user_insert, user_delete. apply tag_fields in Ht as (_&_&_&_&_&E).
    destruct (decide (j = call)) as [->|]; [unfold user; by rewrite Hq|].
    destruct (decide (j = k)) as [->|]; [congruence|done].
Qed.

Lemma moves_readied k p m m' j u :
  links m -> acts m !! k = Some p -> moves k p m m' -> u ∈ readied m' j ->
  (exists i, u ∈ readied m i) \/ prepared_ok m u.
Proof.
  intros L Hk Hm. destruct Hm as [p' _ _ Hr|e Hn|p' child _ _ _ _ _ _ _ Hc|_ Hn|call q q' _ _ _ _ _ _ _ _ Hq'].
  - rewrite readied_insert. destruct (decide (j = k)); [|eauto]. intros [Hu|?]%Hr; [|by right].
    left. exists k. unfold readied. by rewrite Hk.
  - destruct (ret_other m k (parent_of p) e L) as (m1&->&_&Hj). eauto.
  - unfold await. rewrite readied_insert. destruct (decide (j = k)); [by intros ?%not_elem_of_nil|].
    change (readied (spawn child m) j) with (readied (set_act (next m) child m) j). rewrite readied_insert.
    destruct (decide (j = next m)); [rewrite Hc; by intros ?%not_elem_of_nil|eauto].
  - intros ?%readied_delete. eauto.
  - rewrite readied_insert. destruct (decide (j = call)); [rewrite Hq'; by intros ?%not_elem_of_nil|].
    intros ?%readied_delete. eauto.
Qed.

Lemma tidy_moves k p m m' :
  fresh m -> tidy m -> acts m !! k = Some p -> is_await p = false -> moves k p m m' -> tidy m'.
Proof.
  intros I [T1 T2 T3 T4 T5] Hk Hw Hm. destruct (moves_heap _ _ _ _ Hm) as (Hh&Hs&Hn). split.
  - by eapply links_moves.
  - intros s Hle. rewrite Hh. apply T2. lia.
  - intros s. rewrite Hh, T3. f_equal. f_equal. symmetry. apply users_same. intros j. by eapply moves_user.
  - intros id s. rewrite Hs, Hh. apply T4.
  - intros j u Hu. eapply prepared_ok_services; [done|].
    destruct (moves_readied _ _ _ _ _ _ T1 Hk Hm Hu) as [[i ?]|?]; [by eapply T5|done].
Qed.

Lemma tidy_turn k p m m1 m' :
  fresh m -> tidy m -> acts m !! k = Some p -> is_await p = false -> tame m m1 -> moves k p m1 m' -> tidy m'.
Proof.
  intros I T Hk Hw C Hm. eapply tidy_moves; [by apply (c_fresh _ _ (tm_still _ _ C))|by eapply tidy_tame| |exact Hw|exact Hm].
  rewrite (c_acts _ _ (tm_still _ _ C)); [done|]. by eapply I.
Qed.

(** ** Turns of the activity that has, takes or gives up the reload slot *)

Lemma slot_alone m k p :
  links m -> acts m !! k = Some p -> (slot_of p = true \/ applySlot m = None) ->
  forall j q, acts m !! j = Some q -> slot_of q = true -> j = k.
Proof.
  intros L Hk Hs j q Hj Hq. pose proof (l_slot _ L _ _ Hj Hq). destruct Hs as [Hp|]; [|congruence].
  pose proof (l_slot _ L _ _ Hk Hp). congruence.
Qed.

Lemma links_slot m m' k p o :
  links m -> acts m !! k = Some p -> is_await p = false -> (slot_of p = true \/ applySlot m = None) ->
  acts m' = partial_alter (fun _ => o) k (acts m) ->
  (forall p', o = Some p' -> is_await p' = false /\ parent_of p' = None /\ applySlot m' = Some k /\
     (in_reload p' = true -> reloadDone m' <> None) /\ (in_res p' = true -> reserved m' = true)) ->
  links m'.
Proof.
  intros L Hk Hw Hs Ha Ho. pose proof (slot_alone _ _ _ L Hk Hs) as Hone.
  assert (Hold : forall j q, acts m' !! j = Some q -> (j = k /\ o = Some q) \/ (j <> k /\ acts m !! j = Some q)).
  { intros j q. rewrite Ha. destruct (decide (j = k)) as [->|]; [rewrite lookup_partial_alter_eq; auto|].
    rewrite lookup_partial_alter_ne by done. auto. }
  split.
  - intros j q [[-> Hq]|[Hne Hj]]%Hold Hsl; [by apply Ho in Hq as (_&_&?&_)|]. by destruct Hne; eapply Hone.
  - intros j q i [[-> Hq]|[Hne Hj]]%Hold Hp; [apply Ho in Hq as (_&?&_); congruence|].
    destruct (l_parent _ L _ _ _ Hj Hp) as (x&Hx&?). exists x. split; [|done]. rewrite Ha, lookup_partial_alter_ne; [done|].
    intros <-. rewrite Hk in Hx. by simplify_eq.
  - intros j q [[-> Hq]|[Hne Hj]]%Hold Hr; [apply Ho in Hq as (_&_&_&?&_); auto|].
    destruct Hne. eapply Hone; [done|by apply in_reload_slot].
  - intros j q [[-> Hq]|[Hne Hj]]%Hold Hr; [apply Ho in Hq as (_&_&_&_&?); auto|].
    destruct Hne. eapply Hone; [done|by apply in_reload_slot, in_res_reload].
  - intros j i q [[-> Hq]|[Hne Hj]]%Hold; [by apply Ho in Hq as (?&_)|by eapply (l_await _ L)].
Qed.

Lemma tidy_slot m m' k p o :
  tidy m -> acts m !! k = Some p -> is_await p = false -> (slot_of p = true \/ applySlot m = None) ->
  acts m' = partial_alter (fun _ => o) k (acts m) -> heap m' = heap m -> services m' = services m -> next m <= next m' ->
  used_by p = None ->
  (forall p', o = Some p' -> is_await p' = false /\ parent_of p' = None /\ applySlot m' = Some k /\
     (in_reload p' = true -> reloadDone m' <> None) /\ (in_res p' = true -> reserved m' = true) /\
     used_by p' = None /\ ready_of p' = []) ->
  tidy m'.
Proof.
  intros [T1 T2 T3 T4 T5] Hk Hw Hs Ha Hh Hsv Hn Hu Ho.
  assert (Hsvc : forall s, svc m' s = svc m s) by (intros s; unfold svc; by rewrite Hh). split.
  - eapply links_slot; [done..|]. intros p' Hp'. apply Ho in Hp'. tauto.
  - intros s Hle. rewrite Hsvc. apply T2. lia.
  - intros s. rewrite Hsvc, T3. f_equal. f_equal. symmetry. apply users_same. intros j. unfold user. rewrite Ha.
    destruct (decide (j = k)) as [->|]; [|by rewrite lookup_partial_alter_ne by done].
    rewrite lookup_partial_alter_eq, Hk. cbn. rewrite Hu. destruct o as [p'|]; [|done]. by apply (Ho p').
  - intros id s. rewrite Hsv, Hsvc. apply T4.
  - intros j u Hj. eapply prepared_ok_services; [done|]. apply (T5 j). revert Hj. unfold readied. rewrite Ha.
    destruct (decide (j = k)) as [->|]; [|by rewrite lookup_partial_alter_ne by done].
    rewrite lookup_partial_alter_eq. destruct o as [p'|]; [|by intros ?%not_elem_of_nil].
    cbn. destruct (Ho p' eq_refl) as (_&_&_&_&_&_&->). by intros ?%not_elem_of_nil.
Qed.

(** ** Reloading *)

Lemma applies_alone m j k p q :
  links m -> acts m !! j = Some p -> acts m !! k = Some q -> applies p = true -> applies q = true -> j = k.
Proof.
  intros L Hj Hk Hp Hq.
  assert (Hown : forall j p, acts m !! j = Some p -> applies p = true ->
    (parent_of p = None /\ applySlot m = Some j) \/
    exists i, parent_of p = Some i /\ applySlot m = Some i /\ acts m !! i = Some (PAwait j PResAction)).
  { clear - L. intros j p Hj Hp. destruct (parent_of p) as [i|] eqn:Hpar.
    - right. exists i. destruct (l_parent _ L _ _ _ Hj Hpar) as (x&Hx&E). rewrite (E Hp) in Hx.
      split_and!; [done| |done]. by apply (l_slot _ L _ _ Hx).
    - left. split; [done|]. apply (l_slot _ L _ _ Hj). destruct p; try done; cbn in Hpar; by subst. }
  destruct (Hown _ _ Hj Hp) as [[Hpj Sj]|(i&Hpj&Sj&Hi)], (Hown _ _ Hk Hq) as [[Hpk Sk]|(i'&Hpk&Sk&Hi')];
    try congruence.
  - rewrite Sj in Sk. by simplify_eq.
  - rewrite Sj in Sk. by simplify_eq.
Qed.

(** What the sections of a reload do to services: no use is lost, no driver is. *)
Record reloads (m m' : Manager) : Prop := {
  r_still : still m m';
  r_services : services m' = services m;
  r_active : forall s, active (svc m' s) = active (svc m s);
  r_nonnil : forall s, driver (svc m s) <> NilDriver -> driver (svc m' s) <> NilDriver
}.

#[local] Instance reloads_refl : Reflexive reloads.
Proof. split; [reflexivity|done|done|done]. Qed.

#[local] Instance reloads_trans : Transitive reloads.
Proof. intros a b c [] []. split; [by transitivity b|congruence|congruence|auto]. Qed.

Lemma tame_reloads m m' : tame m m' -> reloads m m'.
Proof. intros [????]. split; [done|done|done|congruence]. Qed.

Lemma reloads_upd s f m :
  (forall x, active (f x) = active x) -> (forall x, driver x <> NilDriver -> driver (f x) <> NilDriver) ->
  reloads m (upd s f m).
Proof.
  intros Ha Hd. split; [apply still_upd|done|intros t; rewrite svc_upd..].
  - destruct (decide (t = s)) as [->|]; auto.
  - destruct (decide (t = s)) as [->|]; auto.
Qed.

Lemma take_definition_active u x : active (take_definition u x) = active x.
Proof. unfold take_definition. destruct (p_driver u), (p_err u); try done; cbn; by repeat case_match. Qed.

Lemma take_definition_driver m u x :
  prepared_ok m u -> (services m !! ID (p_def u) = None \/ driver x <> NilDriver) ->
  driver (take_definition u x) <> NilDriver.
Proof.
  unfold take_definition. intros Hu Hx. destruct (p_err u) as [e|] eqn:Ee; [done|].
  assert (Hd : (exists h, p_driver u = Some (HostDriver h)) \/ (p_driver u = None /\ driver x <> NilDriver)).
  { destruct Hu as [?|[[e E]|[? [s Hs]]]]; [by left|congruence|]. right. split; [done|]. destruct Hx; congruence. }
  destruct Hd as [[h ->]|[-> ?]]; repeat case_match; done.
Qed.

Lemma apply_updates_reloads us acc m :
  (forall s, next m <= s -> active (svc m s) = 0%Z) ->
  (forall id s, services m !! id = Some s -> driver (svc m s) <> NilDriver) ->
  (forall u, u ∈ us -> prepared_ok m u) ->
  (forall id s, acc !! id = Some s -> driver (svc m s) <> NilDriver) ->
  forall changed nx m', apply_updates unmarshal us acc m = (changed, nx, m') ->
  reloads m m' /\ forall id s, nx !! id = Some s -> driver (svc m' s) <> NilDriver.
Proof.
  revert acc m. induction us as [|u us IH]; intros acc m Hf Hr Hu Hacc changed nx m'; cbn [apply_updates].
  { intros [= _ <- <-]. done. }
  assert (Hgo : forall s m1 ch nx m', reloads m m1 -> driver (svc m1 s) <> NilDriver ->
    apply_updates unmarshal us (<[ID (p_def u) := s]> acc) m1 = (ch, nx, m') ->
    reloads m m' /\ forall id s, nx !! id = Some s -> driver (svc m' s) <> NilDriver).
  { clear changed nx m'. intros s m1 ch nx m' R Hs E. pose proof R as [St Rs Ra Rd]. eapply IH in E.
    - destruct E as [R2 E]. split; [by transitivity m1|done].
    - intros t Ht. rewrite Ra. apply Hf. pose proof (c_next _ _ St). lia.
    - intros id t. rewrite Rs. eauto.
    - intros v Hv. eapply prepared_ok_services; [done|]. apply Hu. by right.
    - intros id t [[<- <-]|[_ ?]]%lookup_insert_Some; eauto. }
  assert (Hu1 : prepared_ok m u) by (apply Hu; by left).
  destruct (services m !! ID (p_def u)) as [s|] eqn:Es.
  - pose proof (Hr _ _ Es) as Hds. destruct (bool_decide _).
    + apply Hgo; [by apply reloads_upd|by rewrite svc_upd_eq].
    + set (m1 := if negb _ && _ then _ else _).
      assert (R1 : reloads m m1).
      { unfold m1. destruct (negb _ && _); apply reloads_upd; try done; [apply take_definition_active|].
        intros x Hx. eapply take_definition_driver; eauto. }
      destruct (apply_updates unmarshal us _ m1) as [[ch nx2] m2] eqn:E2. intros [= _ <- <-].
      eapply Hgo; [exact R1| |exact E2]. by apply (r_nonnil _ _ R1).
  - set (m1 := alloc _). assert (Hnew : svc m1 (next m) = take_definition u (new_service (now m))).
    { unfold m1, svc. cbn. by rewrite lookup_insert_eq. }
    assert (Hoth : forall t, t <> next m -> svc m1 t = svc m t).
    { intros t Ht. unfold m1, svc. cbn. by rewrite lookup_insert_ne. }
    assert (Hdn : driver (svc m1 (next m)) <> NilDriver).
    { rewrite Hnew. eapply take_definition_driver; eauto. }
    assert (R1 : reloads m m1).
    { split; [split; try done; [cbn; lia|auto|]; intros F j p Hj%F; cbn; lia|done|intros t..];
        destruct (decide (t = next m)) as [->|]; rewrite ?Hoth by done; try done.
      rewrite Hnew, take_definition_active. symmetry. by apply Hf. }
    destruct (apply_updates unmarshal us _ m1) as [[ch nx2] m2] eqn:E2. intros [= _ <- <-].
    by eapply Hgo.
Qed.

Lemma keep_protected_reloads l nx m :
  (forall id s, (id, s) ∈ l -> driver (svc m s) <> NilDriver) ->
  (forall id s, nx !! id = Some s -> driver (svc m s) <> NilDriver) ->
  forall nx' m', keep_protected l nx m = (nx', m') ->
  tame m m' /\ forall id s, nx' !! id = Some s -> driver (svc m' s) <> NilDriver.
Proof.
  revert nx m. induction l as [|[id s] l IH]; intros nx m Hl Hnx nx' m'; cbn [keep_protected].
  { intros [= <- <-]. split; [apply calm_tame; reflexivity|done]. }
  destruct (_ && _).
  - set (m1 := upd s _ m). assert (C : calm m m1) by (by apply calm_upd). pose proof (calm_tame _ _ C) as [_ _ _ Hd].
    intros E. eapply IH in E as [T1 Hd1].
    + split; [|done]. destruct T1 as [St ? Ha Hd2]. destruct (calm_tame _ _ C) as [St1 ? Ha1 _].
      split; [by transitivity m1|congruence|congruence|congruence].
    + intros id' s' Hin. rewrite Hd. eapply Hl. by right.
    + intros id' s' [[<- <-]|[_ ?]]%lookup_insert_Some; rewrite Hd; [eapply Hl; by left|eauto].
  - apply IH; [|done]. intros id' s' Hin. eapply Hl. by right.
Qed.

Lemma apply_reconcile_calm l m : calm m (apply_reconcile l m).2.
Proof.
  revert m. induction l as [|s l IH]; intros m; cbn [apply_reconcile]; [done|].
  destruct (_ && _); [apply IH|].
  destruct (validateRequirementsLocked s m). { etransitivity; [|apply IH]. by apply calm_upd. }
  destruct (_ && _); [apply IH|].
  specialize (IH (spawn_run s "" None [] m)). destruct (apply_reconcile l _). cbn [snd] in *.
  etransitivity; [apply calm_spawn_run|exact IH].
Qed.

Lemma applies_readied m j u : u ∈ readied m j -> exists p, acts m !! j = Some p /\ applies p = true /\ u ∈ ready_of p.
Proof.
  unfold readied. destruct (acts m !! j) as [p|] eqn:Hj; cbn; [|by intros ?%not_elem_of_nil].
  intros Hu. exists p. split_and!; [done| |done]. destruct p; try done; by apply not_elem_of_nil in Hu.
Qed.

(** A reload that has registered other services and goes on at [PAppRec]. *)
Lemma tidy_reloaded m m4 m6 k us reconcile parent :
  fresh m -> tidy m -> acts m !! k = Some (PAppIdle us parent) ->
  still m m4 -> (forall s, active (svc m4 s) = active (svc m s)) ->
  (forall id s, services m4 !! id = Some s -> driver (svc m4 s) <> NilDriver) ->
  acts m6 = <[k := PAppRec reconcile parent]> (acts m4) -> heap m6 = heap m4 -> services m6 = services m4 ->
  next m6 = next m4 -> applySlot m6 = applySlot m4 -> reserved m6 = reserved m4 ->
  (parent <> None -> reloadDone m6 = reloadDone m4) -> tidy m6.
Proof.
  intros F [T1 T2 T3 T4 T5] Hk S Ha Hd A6 P6 V6 N6 Sl6 Rs6 Rd6. pose proof (F _ _ Hk) as Hlt.
  assert (Hk4 : acts m4 !! k = Some (PAppIdle us parent)) by (by rewrite (c_acts _ _ S)).
  assert (L4 : links m4) by (by eapply links_still).
  assert (Hsvc : forall s, svc m6 s = svc m4 s) by (intros s; unfold svc; by rewrite P6).
  assert (Hu6 : forall j, user m6 j = user m j).
  { intros j. rewrite <- (still_user _ _ j F S). unfold user. rewrite A6.
    destruct (decide (j = k)) as [->|]; [by rewrite lookup_insert_eq, Hk4|by rewrite lookup_insert_ne by done]. }
  split.
  - destruct parent as [i|].
    + eapply (links_still (set_act k (PAppRec reconcile (Some i)) m4)).
      * intros j q. cbn. intros [[<- _]|[_ ?]]%lookup_insert_Some; [|by eapply (c_fresh _ _ S)]. pose proof (c_next _ _ S). lia.
      * split; cbn [set_act m_acts applySlot reloadDone reserved next acts]; rewrite ?A6, ?N6; auto.
        unfold fresh. cbn [set_act m_acts acts next]. by rewrite A6, N6.
      * eapply links_set; [done|exact Hk4|done..].
    + eapply (links_slot m4); [done|exact Hk4|done|by left|by rewrite A6|]. intros p' [= <-].
      split_and!; try done. rewrite Sl6. by apply (l_slot _ L4 _ _ Hk4).
  - intros s Hle. rewrite Hsvc, Ha. apply T2. pose proof (c_next _ _ S). lia.
  - intros s. rewrite Hsvc, Ha, T3. f_equal. f_equal. symmetry. by apply users_same.
  - intros id s. rewrite V6, Hsvc. apply Hd.
  - intros j u (p&Hj&Hp&Hu)%applies_readied. exfalso. rewrite A6 in Hj.
    apply lookup_insert_Some in Hj as [[_ <-]|[Hne Hj]]; [by apply not_elem_of_nil in Hu|].
    apply Hne. by eapply (applies_alone m4).
Qed.

Lemma tidy_apply_section m k us parent :
  fresh m -> tidy m -> acts m !! k = Some (PAppIdle us parent) -> tidy (apply_section unmarshal k us parent m).
Proof.
  intros F T Hk. unfold apply_section. cbv zeta.
  destruct (apply_updates unmarshal us ∅ m) as [[changed nx] m1] eqn:E1.
  apply apply_updates_reloads in E1 as [R1 D1]; [|apply T|apply T| |by intros id s; rewrite lookup_empty].
  2: { intros u Hu. apply (t_ready _ T k). unfold readied. by rewrite Hk. }
  destruct (keep_protected _ nx m1) as [nx2 m2] eqn:E2.
  apply keep_protected_reloads in E2 as [C2 D2];
    [|intros id s Hin%elem_of_map_to_list; apply (r_nonnil _ _ R1), (t_driver _ T _ _ Hin)|done].
  apply tame_reloads in C2. set (m3 := m_applyVersion _ _).
  pose proof (apply_reconcile_calm (map snd (map_to_list nx2)) m3) as C4.
  destruct (apply_reconcile _ m3) as [reconcile m4]. cbn [snd] in C4. apply calm_tame in C4 as [S4 Hs4 Ha4 Hd4].
  destruct (reloads_trans _ _ _ R1 C2) as [S2 _ Ha2 _].
  eapply (tidy_reloaded m m4 _ k us reconcile); [done|done|exact Hk| | | |..].
  { etransitivity; [exact S2|etransitivity; [|exact S4]; split; auto]. }
  { intros s. rewrite Ha4. apply Ha2. }
  { intros id s. rewrite Hs4, Hd4. apply D2. }
  all: destruct (_ || _), parent; try done; by destruct (reloadDone m4).
Qed.

(** ** Every step *)

Lemma tidy_acquire_turn m k id :
  fresh m -> tidy m -> acts m !! k = Some (PAcquire id) -> (forall s, services m !! id = Some s -> s < next m) ->
  tidy (acquire_turn k id m).
Proof.
  intros F T Hk Hreg. unfold acquire_turn.
  assert (Hret : tidy (ret k None None m)).
  { eapply (tidy_turn k _ m m); [done..|apply calm_tame; reflexivity|]. by refine (mv_ret _ (PAcquire id) _ _ _). }
  destruct (services m !! id) as [s|] eqn:Es; [|done]. destruct (invalidated _); [done|]. clear Hret.
  specialize (Hreg s eq_refl). destruct T as [T1 T2 T3 T4 T5]. set (m1 := set_act _ _ _).
  assert (Hs : forall t, svc m1 t = if decide (t = s) then touch m (w_active (active (svc m s) + 1)%Z (svc m s)) else svc m t).
  { intros t. unfold m1. change (svc (set_act ?k ?p ?x) t) with (svc x t). by rewrite svc_upd. }
  assert (Hu : forall j, user m1 j = if decide (j = k) then Some s else user m j) by (intros j; unfold m1; by rewrite user_insert).
  split.
  - destruct T1 as [L1 L2 L3 L4 L5].
    assert (Hold : forall j q, acts m1 !! j = Some q -> q = PUsing s \/ (j <> k /\ acts m !! j = Some q)).
    { intros j q. unfold m1. cbn. intros [[<- <-]|[? ?]]%lookup_insert_Some; auto. }
    split; [intros j q [->|[_ Hj]]%Hold Hq; try done; eauto| |intros j q [->|[_ Hj]]%Hold Hq; try done; eauto..
           |intros j i q [?|[_ Hj]]%Hold; [done|eauto]].
    intros j q i [->|[_ Hj]]%Hold Hq; [done|]. destruct (L2 _ _ _ Hj Hq) as (x&Hx&?). exists x. split; [|done].
    unfold m1. cbn. rewrite lookup_insert_ne; [done|]. intros <-. cbn in Hx. congruence.
  - intros t Ht. rewrite Hs. rewrite decide_False; [by apply T2|]. intros ->. cbn in Ht. lia.
  - intros t. rewrite Hs. destruct (decide (t = s)) as [->|Hne].
    + assert (E : users m1 s = {[k]} ∪ users m s).
      { apply set_eq. intros j. rewrite elem_of_union, elem_of_singleton, !elem_users, Hu.
        destruct (decide (j = k)); naive_solver. }
      rewrite E, size_union, size_singleton by (apply disjoint_singleton_l; rewrite elem_users; unfold user; by rewrite Hk).
      cbn. rewrite T3. lia.
    + rewrite T3. f_equal. f_equal. apply set_eq. intros j. rewrite !elem_users, Hu.
      destruct (decide (j = k)) as [->|]; [|done]. unfold user. rewrite Hk. cbn. split; [done|congruence].
  - intros i t Hi. rewrite Hs. destruct (decide (t = s)) as [->|]; [|by eapply T4]. cbn. by eapply T4.
  - intros j u. unfold m1. rewrite readied_insert. destruct (decide (j = k)); [by intros ?%not_elem_of_nil|]. apply T5.
Qed.

Lemma tidy_release m k s :
  fresh m -> tidy m -> acts m !! k = Some (PUsing s) ->
  tidy (ret k None None (upd s (fun x => touch m (w_active (active x - 1) x)) m)).
Proof.
  intros F [T1 T2 T3 T4 T5] Hk. set (m0 := upd s _ m). set (m1 := ret _ _ _ _).
  assert (L0 : links m0) by (by eapply links_still; [exact F|apply still_upd|]).
  destruct (ret_other m0 k None None L0) as (m2&E2&Hu&Hr). change (m1 = m2) in E2.
  assert (Hs : forall t, svc m1 t = svc m0 t) by done.
  assert (Hin : k ∈ users m s) by (rewrite elem_users; unfold user; by rewrite Hk).
  split.
  - by eapply (links_ret m0 k (PUsing s)).
  - intros t Ht. rewrite Hs. unfold m0. rewrite svc_upd. destruct (decide (t = s)) as [->|]; [|by apply T2].
    exfalso. specialize (T2 s Ht). rewrite T3 in T2.
    assert (size (users m s) <> 0); [|lia]. rewrite size_non_empty_iff. set_solver.
  - intros t. rewrite Hs. unfold m0. rewrite svc_upd. rewrite E2. destruct (decide (t = s)) as [->|Hne].
    + assert (E : users m2 s = users m s ∖ {[k]}).
      { apply set_eq. intros j. rewrite elem_of_difference, elem_of_singleton, !elem_users, Hu. unfold m0.
        change (user (upd ?a ?b m) j) with (user m j). destruct (decide (j = k)); naive_solver. }
      rewrite E. cbn. rewrite T3. rewrite size_difference by set_solver. rewrite size_singleton.
      assert (size (users m s) <> 0); [|lia]. rewrite size_non_empty_iff. set_solver.
    + rewrite T3. f_equal. f_equal. apply set_eq. intros j. rewrite !elem_users, Hu.
      change (user m0 j) with (user m j). destruct (decide (j = k)) as [->|]; [|done].
      unfold user. rewrite Hk. cbn. split; [congruence|done].
  - intros i t Hi. rewrite Hs. unfold m0. rewrite svc_upd. destruct (decide (t = s)) as [->|]; by eapply T4.
  - intros j u Hj. rewrite E2 in Hj. apply Hr in Hj. by apply (T5 j).
Qed.

(** A turn of the slot's holder that sets fields and goes on, or ends. *)
Ltac slot_turn T Hk k o :=
  try pose proof (l_slot _ (t_links _ T) _ _ Hk eq_refl);
  eapply (tidy_slot _ _ k _ o); [done|eassumption|done|first [by left|right; by bool_to_prop]|done|done|done|cbn; lia|done|];
  first [intros ? [= <-]; by split_and! | done].

Lemma tidy_act_turn m k a : fresh m -> tidy m -> acts m !! k = Some PResAction -> tidy (act_turn k a m).
Proof.
  intros F T Hk.
  assert (Hgo : forall m', moves k PResAction m m' -> tidy m').
  { intros m' Hm. eapply (tidy_turn k _ m m); [done..|apply calm_tame; reflexivity|done]. }
  destruct a as [id proposed restart|id|defs|id|id addr]; cbn [act_turn].
  - apply Hgo. by apply mv_await.
  - destruct (services m !! id); [|done]. apply Hgo. by apply mv_await.
  - apply Hgo. by apply mv_await.
  - eapply (tidy_tame m); [done| |done]. unfold Invalidate.
    assert (Hn : forall m1, tame m m1 -> tame m (notify true m1)).
    { intros m1 [St ???]. split; try done. etransitivity; [exact St|]. split; auto. }
    apply Hn. destruct (services m !! id) as [s|]; [|apply calm_tame; reflexivity].
    split; [split; auto|done|intros t..]; change (svc (m_applyVersion ?v ?x) t) with (svc x t); rewrite svc_upd;
      by destruct (decide (t = s)) as [->|].
  - apply Hgo. by apply mv_await.
Qed.

Lemma tidy_special m k p a m' :
  Inv m -> tidy m -> acts m !! k = Some p -> special p = true -> turn unmarshal k p a m = Some m' -> tidy m'.
Proof.
  intros I T Hk Hs. pose proof (Inv_fresh _ I) as F.
  assert (Hgo : forall m', moves k p m m' -> is_await p = false -> tidy m').
  { intros x Hm Hw. eapply (tidy_turn k _ m m); [done..|apply calm_tame; reflexivity|done]. }
  unfold turn. destruct p; try done; cbn [run_turn stop_refresh_turn]; destruct a; try done; cbn [reload_turn]; turn_cases;
    try done; try (apply Hgo; [by refine (mv_ret _ _ _ _ _)|done]);
    try (apply Hgo; [apply mv_set; [done|done|by cbn [ready_of]; intros ? ?%not_elem_of_nil]|done]).
  - destruct (when _ _) as [m1|] eqn:E; [|done]. apply when_Some in E as [_ ->]. intros [= <-].
    apply tidy_acquire_turn; [done..|]. intros s Es. by apply (i_ids _ _ _ I) in Es as [_ ?].
  - by apply tidy_release.
  - slot_turn T Hk k (Some (PApplyCheck defs v)).
  - destruct (negb _); [slot_turn T Hk k (@None pc)|slot_turn T Hk k (Some (PPrep defs [] None))].
  - by apply tidy_apply_section.
  - destruct (busy_channel id m); cbn; [|done]. turn_cases. apply Hgo; [|done]. apply mv_set; [done|done|by left].
  - slot_turn T Hk k (@None pc).
  - slot_turn T Hk k (Some (PResBegin expected)).
  - slot_turn T Hk k (Some (PResIdle expected)).
  - by apply tidy_act_turn.
  - eapply (tidy_slot m _ k _ (Some (PSlot err))); [done|eassumption|done|by left|..]; try (by destruct (reloadDone m)).
    intros p' [= <-]. split_and!; try done. pose proof (l_slot _ (t_links _ T) _ _ Hk eq_refl). by destruct (reloadDone m).
  - slot_turn T Hk k (@None pc).
Qed.

Lemma tidy_turn_any m k p a m' :
  Inv m -> tidy m -> acts m !! k = Some p -> turn unmarshal k p a m = Some m' -> tidy m'.
Proof.
  intros I T Hk E. destruct (special p) eqn:Hs; [by eapply tidy_special|].
  destruct (is_await p) eqn:Hw; [apply is_await_inv in Hw as (j&q&->); done|].
  destruct (turn_moves unmarshal k p a m m' Hk Hs E) as (m1&C&Hm).
  eapply tidy_turn; [by apply Inv_fresh|done|exact Hk|done|by apply calm_tame|exact Hm].
Qed.

Lemma tidy_spawn m p :
  Inv m -> tidy m -> neutral p -> is_await p = false -> ready_of p = [] -> tidy (spawn p m).
Proof.
  intros I [T1 T2 T3 T4 T5] Hn Hw Hr. pose proof (Inv_fresh _ I) as F.
  assert (Hf : acts m !! next m = None).
  { destruct (acts m !! next m) eqn:E; [|done]. apply F in E. lia. }
  assert (Hu : forall j, user (spawn p m) j = user m j).
  { intros j. change (user (spawn p m) j) with (user (set_act (next m) p m) j). rewrite user_insert.
    destruct (decide (j = next m)) as [->|]; [|done]. unfold user. rewrite Hf. unfold neutral, tag in Hn. by simplify_eq. }
  split; [by apply links_spawn| | |done|].
  - intros s Hle. apply T2. cbn in Hle. lia.
  - intros s. change (svc (spawn p m) s) with (svc m s). rewrite T3. by rewrite (users_same _ _ _ Hu).
  - intros j u. change (readied (spawn p m) j) with (readied (set_act (next m) p m) j). rewrite readied_insert.
    destruct (decide (j = next m)); [rewrite Hr; by intros ?%not_elem_of_nil|apply T5].
Qed.

Lemma tidy_step e m m' : Inv m -> tidy m -> step unmarshal e m = Some m' -> tidy m'.
Proof.
  intros I T. destruct e as [d| | | | | | | | |k a]; cbn [step].
  1: intros [_ ->]%when_Some; eapply (tidy_tame m); [by apply Inv_fresh|split; [split; auto|done..]|done].
  1-8: intros E; apply (inj Some) in E; subst; by apply tidy_spawn.
  destruct (acts m !! k) as [p|] eqn:Hk; [|done]. intros E. by eapply tidy_turn_any.
Qed.

Lemma tidy_new t : tidy (newManager t).
Proof.
  assert (Hs : forall s, svc (newManager t) s = new_service 0) by (intros s; unfold svc; cbn; by rewrite lookup_empty).
  assert (Hu : forall s, users (newManager t) s = ∅).
  { intros s. apply set_eq. intros j. rewrite elem_users. unfold user. cbn. rewrite lookup_empty. set_solver. }
  split; [split; intros *; cbn; rewrite ?lookup_empty; done|intros *; rewrite ?Hs; cbn..].
  - done.
  - by rewrite Hu.
  - by rewrite lookup_empty.
  - unfold readied. cbn. rewrite lookup_empty. by intros ?%not_elem_of_nil.
Qed.

Lemma reachable_tidy t m : reachable unmarshal t m -> Inv m /\ tidy m.
Proof.
  induction 1 as [|m e m' _ [I T] E]; [split; [apply Inv_new|apply tidy_new]|].
  split; [by eapply Inv_step|by eapply tidy_step].
Qed.

(** ** What a reservation is protected from *)

(** A reservation whose action is running, and the call its action waits for. *)
Definition reserving (p : pc) : option (option nat) :=
  match p with
  | PResAction => Some None
  | PAwait c PResAction => Some (Some c)
  | _ => None
  end.

(** What callers see of a service's definition. *)
Definition identity (x : service) := (def x, driver x, invalidated x).

(** Everything but the turns of a reservation and of the call it waits for. *)
Definition foreign (k : nat) (c : option nat) (e : event) : Prop :=
  forall j a, e = Turn j a -> j <> k /\ Some j <> c.

Lemma reserving_slot p c : reserving p = Some c -> slot_of p = true /\ in_reload p = true /\ in_res p = true.
Proof. destruct p; try done. by destruct p. Qed.

Lemma reserving_await p c j q : reserving p = Some c -> p = PAwait j q -> c = Some j.
Proof. intros Hp ->. cbn in Hp. destruct q; by simplify_eq. Qed.

Lemma moves_keeps m j q k p c m' :
  fresh m -> links m -> acts m !! j = Some q -> acts m !! k = Some p -> reserving p = Some c ->
  j <> k -> Some j <> c -> moves j q m m' -> acts m' !! k = Some p.
Proof.
  intros F L Hj Hk Hp Hne Hc Hm.
  destruct Hm as [p'|e|p' child|_ _|call x x' _ _ Hx Hxj _ _ Hres].
  - cbn. by rewrite lookup_insert_ne.
  - unfold ret. set (m1 := m_replies _ _).
    assert (Hk1 : acts m1 !! k = Some p) by (cbn; by rewrite lookup_delete_ne).
    destruct (parent_of q) as [i|] eqn:Hi; [|done]. destruct (l_parent _ L _ _ _ Hj Hi) as (x&Hx&_).
    assert (i <> k); [|destruct (acts m1 !! i) as [[]|]; try done; cbn; by rewrite lookup_insert_ne].
    intros ->. rewrite Hk in Hx. injection Hx as ->. by rewrite (reserving_await _ _ j x Hp) in Hc.
  - pose proof (F _ _ Hk). cbn. rewrite !lookup_insert_ne by lia. done.
  - cbn. by rewrite lookup_delete_ne.
  - cbn. rewrite lookup_insert_ne; [by rewrite lookup_delete_ne|]. intros ->. rewrite Hk in Hx. injection Hx as ->.
    apply reserving_slot in Hp as (_&_&?). congruence.
Qed.

(** While the slot is taken and the others are kept out, an activity that would change
    definitions or uses can only give up or end its use. *)
Lemma special_out m j q a m' :
  special q = true -> slot_of q = false -> applies q = false -> applySlot m <> None -> reloadDone m <> None ->
  turn unmarshal j q a m = Some m' ->
  exists e, m' = ret j None e m \/
    exists s, q = PUsing s /\ m' = ret j None e (upd s (fun x => touch m (w_active (active x - 1) x)) m).
Proof.
  intros Hs Hno Ha Hslot Hrel. unfold turn.
  destruct q; try done; cbn [run_turn stop_refresh_turn]; destruct a; try done; cbn [reload_turn]; turn_cases; eauto.
  - unfold admitted. rewrite bool_decide_false by done. done.
  - by bool_to_prop.
  - by bool_to_prop.
Qed.

Lemma reserved_turn m j q a k p c m' :
  Inv m -> tidy m -> acts m !! j = Some q -> acts m !! k = Some p -> reserving p = Some c ->
  j <> k -> Some j <> c -> turn unmarshal j q a m = Some m' ->
  acts m' !! k = Some p /\ services m' = services m /\ forall s, identity (svc m' s) = identity (svc m s).
Proof.
  intros I T Hj Hk Hp Hne Hc E. pose proof (Inv_fresh _ I) as F. pose proof (t_links _ T) as L.
  destruct (reserving_slot _ _ Hp) as (Hps&Hpr&_). pose proof (l_slot _ L _ _ Hk Hps) as Hslot.
  pose proof (l_reload _ L _ _ Hk Hpr) as Hrel.
  destruct (special q) eqn:Hs.
  - assert (Hno : slot_of q = false).
    { destruct (slot_of q) eqn:Hq; [|done]. pose proof (l_slot _ L _ _ Hj Hq). congruence. }
    assert (Hap : applies q = false).
    { destruct (applies q) eqn:Ha; [|done]. exfalso. destruct (parent_of q) as [i|] eqn:Hi; [|by destruct q; simplify_eq/=].
      destruct (l_parent _ L _ _ _ Hj Hi) as (x&Hx&Ex). rewrite (Ex Ha) in Hx.
      pose proof (l_slot _ L _ _ Hx eq_refl). assert (i = k) by congruence. subst i. rewrite Hk in Hx. injection Hx as ->.
      by rewrite (reserving_await _ _ j PResAction Hp) in Hc. }
    apply special_out in E as (e&[->|(s&->&->)]); [..|by rewrite Hslot|done]; [..|done|done|done].
    + split_and!; [cbn; by rewrite lookup_delete_ne|done..].
    + split_and!; [cbn; by rewrite lookup_delete_ne|done|]. intros t. cbn [ret m_replies del_act m_acts].
      change (svc _ t) with (svc (upd s (fun x => touch m (w_active (active x - 1) x)) m) t) at 1.
      rewrite svc_upd. by destruct (decide (t = s)) as [->|].
  - destruct (turn_moves unmarshal j q a m m' Hj Hs E) as (m1&C&Hm).
    destruct (moves_heap _ _ _ _ Hm) as (Hh&Hsv&_). destruct C as [St Hf Hsv1]. split_and!.
    + eapply (moves_keeps m1 j q k); [by apply (c_fresh _ _ St)|by eapply links_still| | |done..|exact Hm];
        rewrite (c_acts _ _ St); eauto.
    + congruence.
    + intros s. rewrite Hh. specialize (Hf s). unfold face in Hf. unfold identity. congruence.
Qed.

Lemma reserved_step m e k p c m' :
  Inv m -> tidy m -> acts m !! k = Some p -> reserving p = Some c -> foreign k c e -> step unmarshal e m = Some m' ->
  acts m' !! k = Some p /\ services m' = services m /\ forall s, identity (svc m' s) = identity (svc m s).
Proof.
  intros I T Hk Hp Hf. pose proof (Inv_fresh _ I _ _ Hk) as Hlt.
  destruct e as [d| | | | | | | | |j a]; cbn [step].
  1: by intros [_ ->]%when_Some.
  1-8: intros E; apply (inj Some) in E; subst; split_and!; [cbn; by rewrite lookup_insert_ne by lia|done..].
  destruct (acts m !! j) as [q|] eqn:Hj; [|done]. intros E. destruct (Hf j a eq_refl). by eapply reserved_turn.
Qed.

Lemma reserved_run t es m k p c m' :
  reachable unmarshal t m -> acts m !! k = Some p -> reserving p = Some c -> Forall (foreign k c) es ->
  run_events unmarshal es m = Some m' ->
  reachable unmarshal t m' /\ acts m' !! k = Some p /\ services m' = services m /\
  forall s, identity (svc m' s) = identity (svc m s).
Proof.
  revert m. induction es as [|e es IH]; intros m Hr Hk Hp Hf; cbn [run_events]; [by intros [= <-]|].
  destruct (step unmarshal e m) as [m1|] eqn:E; [|done]. apply Forall_cons in Hf as [Hf Hfs].
  destruct (reachable_tidy _ _ Hr) as [I T]. destruct (reserved_step m e k p c m1 I T Hk Hp Hf E) as (Hk1&Hs1&Hi1).
  intros E2. destruct (IH m1) as (?&?&Hs2&Hi2); [by eapply reach_step|done..|].
  split_and!; [done|done|congruence|]. intros s. by rewrite Hi2, Hi1.
Qed.

(** ** Theorems *)

Lemma ret_gone k parent e m : acts (ret k parent e m) !! k = None.
Proof.
  unfold ret. set (m1 := m_replies _ _). assert (Hk : acts m1 !! k = None) by (cbn; apply lookup_delete_eq).
  destruct parent as [i|]; [|done]. destruct (acts m1 !! i) as [x|] eqn:Hi; [|done].
  assert (i <> k) by (intros ->; congruence). destruct x; try done. cbn. by rewrite lookup_insert_ne.
Qed.

(** How long a service must have been idle for [idleEligibleLocked]. *)
Definition idle_enough (m : Manager) (x : service) : Prop :=
  (IdleTimeout (def x) = - second /\ forall u, ownActivity x = Some u -> idleCheckInterval < time_sub (now m) u)%Z \/
  (0 < IdleTimeout (def x) < time_sub (now m) (default (started m) (lastActivity x)))%Z.

Lemma idleEligible_spec s m :
  idleEligibleLocked s m = true ->
  refreshing m = false /\ (active (svc m s) <= 0)%Z /\ dependents (svc m s) = ∅ /\ inflight (svc m s) = None /\
  idle_enough m (svc m s).
Proof.
  unfold idleEligibleLocked, idle_enough. destruct (_ || bool_decide (is_Some (stopping _))) eqn:E1; [done|].
  destruct (_ && negb (runtimeAlive _)); [done|]. bool_to_prop. intros E.
  assert (Hi : inflight (svc m s) = None) by (by apply eq_None_not_Some).
  split_and!; try done. destruct (IdleTimeout _ =? _)%Z eqn:E2.
  - left. apply Z.eqb_eq in E2. split; [done|]. intros u Hu. rewrite Hu in E. by bool_to_prop.
  - right. destruct (_ <=? 0)%Z eqn:E3; [done|]. by bool_to_prop.
Qed.

(** C28: An idle stop reaches the driver of a service only when nobody uses it: no caller
    is between its [Acquire] and the release, no service depends on it, no start of it is
    in flight, no refresh is under way, and it has been idle for longer than it asks. *)
Theorem idle_stop_spares_users t m k target parent a m' s d name parent' :
  reachable unmarshal t m -> acts m !! k = Some (PStop target true parent) ->
  step unmarshal (Turn k a) m = Some m' -> acts m' !! k = Some (PStopping s d name parent') ->
  (forall j, acts m !! j <> Some (PUsing s)) /\ dependents (svc m s) = ∅ /\ inflight (svc m s) = None /\
  refreshing m = false /\ idle_enough m (svc m s).
Proof.
  intros Hr Hk E Hk'. destruct (reachable_tidy _ _ Hr) as [I T].
  assert (Hsec : forall s0, acts (stop_section k s0 target true parent m) !! k = Some (PStopping s d name parent') ->
    idleEligibleLocked s m = true).
  { intros s0. unfold stop_section. cbv zeta.
    repeat match goal with |- context [if ?b then ret _ _ _ _ else _] => destruct b eqn:?; [by rewrite ret_gone|] end.
    destruct (match inflight _ with Some _ => _ | None => _ end); cbn; rewrite lookup_insert_eq; [done|].
    intros [= <- _ _ _]. cbn [andb] in *. by bool_to_prop. }
  assert (Hel : idleEligibleLocked s m = true).
  { revert E Hk'. cbn [step]. rewrite Hk. unfold turn. cbn [run_turn]. cbn [stop_refresh_turn]. destruct a; cbn [reload_turn];
      try (by destruct target).
    - unfold stop_turn. destruct target as [id|s0]; [|cbn [andb]].
      + destruct (reloadDone m); [done|]. destruct (services m !! id) as [s0|]; intros E Hk'; apply (inj Some) in E; subst m';
          [by eapply Hsec|by rewrite ret_gone in Hk'].
      + destruct (reserved m); intros E Hk'; apply (inj Some) in E; subst m'; [by rewrite ret_gone in Hk'|by eapply Hsec].
    - destruct target; [|done]. intros E Hk'. apply (inj Some) in E. subst m'. by rewrite ret_gone in Hk'. }
  apply idleEligible_spec in Hel as (?&Ha&?&?&?). split_and!; try done.
  intros j Hj. rewrite (t_active _ T) in Ha. assert (Hin : j ∈ users m s) by (rewrite elem_users; unfold user; by rewrite Hj).
  assert (size (users m s) <> 0); [|lia]. rewrite size_non_empty_iff. set_solver.
Qed.

(** C32: Every registered service is well formed: it is filed under the id of its
    definition, has a driver, and counts exactly the callers that are using it. *)
Theorem registered_services_are_wellformed t m id s :
  reachable unmarshal t m -> services m !! id = Some s ->
  ID (def (svc m s)) = id /\ driver (svc m s) <> NilDriver /\ active (svc m s) = Z.of_nat (size (users m s)).
Proof.
  intros Hr Hs. destruct (reachable_tidy _ _ Hr) as [I T].
  split_and!; [by apply (i_ids _ _ _ I)|by eapply (t_driver _ T)|apply (t_active _ T)].
Qed.

(** While the action of a reservation runs, only the action and the call it waits for
    change what is registered: after any number of other steps the same services are
    registered with the same definitions and drivers, the reservation is where it was,
    and no caller has been let in. *)
Theorem reservation_is_isolated t m k p c es m' :
  reachable unmarshal t m -> acts m !! k = Some p -> reserving p = Some c -> Forall (foreign k c) es ->
  run_events unmarshal es m = Some m' ->
  acts m' !! k = Some p /\ services m' = services m /\ (forall s, identity (svc m' s) = identity (svc m s)) /\
  forall j id, acts m' !! j = Some (PAcquire id) -> step unmarshal (Turn j Go) m' = None.
Proof.
  intros Hr Hk Hp Hf E. destruct (reserved_run t es m k p c m' Hr Hk Hp Hf E) as (Hr'&Hk'&?&?).
  split_and!; [done..|]. intros j id Hj. cbn [step]. rewrite Hj. unfold turn. cbn [run_turn stop_refresh_turn reload_turn].
  destruct (reachable_tidy _ _ Hr') as [I T]. apply reserving_slot in Hp as (_&Hre&_).
  unfold admitted. by rewrite bool_decide_false by apply (l_reload _ (t_links _ T) _ _ Hk' Hre).
Qed.

(** A reservation acts on what it expects: when it begins its action no service is
    starting or stopping, and until the action does something the registered
    definitions are those the reservation was asked for. *)
Theorem reservation_finds_expected t m k expected m1 es m' :
  reachable unmarshal t m -> acts m !! k = Some (PResIdle expected) ->
  step unmarshal (Turn k Go) m = Some m1 -> acts m1 !! k = Some PResAction ->
  Forall (foreign k None) es -> run_events unmarshal es m1 = Some m' ->
  quiet m1 = true /\ expected_ok expected m' = true.
Proof.
  intros Hr Hk E1 Hk1 Hf E2.
  destruct (reserved_run t es m1 k PResAction None m' (reach_step _ _ _ _ _ Hr E1) Hk1 eq_refl Hf E2) as (_&_&Hs&Hi).
  assert (H1 : quiet m1 = true /\ expected_ok expected m1 = true).
  { revert E1. cbn [step]. rewrite Hk. unfold turn. cbn [run_turn stop_refresh_turn reload_turn].
    intros [Hq ->]%when_Some. cbn in Hk1. rewrite lookup_insert_eq in Hk1.
    by destruct (expected_ok expected m) eqn:Ex. }
  destruct H1 as [? H1]. split; [done|]. revert H1. unfold expected_ok. rewrite !forallb_forall.
  intros H1 d Hd. specialize (H1 d Hd). rewrite Hs. destruct (services m1 !! ID d) as [s|]; [|done].
  specialize (Hi s). unfold identity in Hi. by injection Hi as -> _ _.
Qed.

End Steps.
(** ** Samples *)
Local Open Scope nat_scope.

Lemma idle_stop_spares_users_witness :
  acts (final idling) !! 10 <> Some (PUsing 3) /\ idle_enough (final idling) (svc (final idling) 3).
Proof.
  destruct (idle_stop_spares_users no_json 0 (final idling) 12 (ByRef 3) (Some 11) Go (final (idling ++ [go 12]))
    3 (HostDriver 8) "web" (Some 11)) as (Hu&_&_&_&Hi);
    [apply final_reachable; vm_compute; reflexivity|vm_compute; reflexivity..|split; [apply Hu|exact Hi]].
Defined.

Lemma registered_services_are_wellformed_witness :
  services (final expecting) !! "db" = Some 2 /\ active (svc (final expecting) 2) = Z.of_nat (size (users (final expecting) 2)).
Proof.
  assert (Hs : services (final expecting) !! "db" = Some 2) by (vm_compute; reflexivity). split; [exact Hs|].
  apply (registered_services_are_wellformed no_json 0 (final expecting) "db" 2);
    [apply final_reachable; vm_compute; reflexivity|exact Hs].
Defined.

(** What others do meanwhile: the use of [db] ends, and a caller asks for it. *)
Definition meanwhile : list event := [go 4; Acquire "db"; Tick 5].

Lemma meanwhile_foreign : Forall (foreign 5 None) meanwhile.
Proof. unfold meanwhile, go. rewrite !Forall_cons. split_and!; try (intros j a E; by simplify_eq). by apply Forall_nil. Qed.

Lemma reservation_is_isolated_witness :
  acts (final (expecting ++ [go 5] ++ meanwhile)) !! 5 = Some PResAction /\
  services (final (expecting ++ [go 5] ++ meanwhile)) = services (final (expecting ++ [go 5])).
Proof.
  destruct (reservation_is_isolated no_json 0 (final (expecting ++ [go 5])) 5 PResAction None meanwhile
    (final (expecting ++ [go 5] ++ meanwhile))) as (Ha&Hs&_);
    [apply final_reachable; vm_compute; reflexivity|vm_compute; reflexivity|reflexivity|apply meanwhile_foreign
    |vm_compute; reflexivity|split; assumption].
Defined.

Lemma reservation_finds_expected_witness :
  expected_ok [docker "db" [] 0] (final (expecting ++ [go 5] ++ meanwhile)) = true.
Proof.
  destruct (reservation_finds_expected no_json 0 (final expecting) 5 [docker "db" [] 0] (final (expecting ++ [go 5]))
    meanwhile (final (expecting ++ [go 5] ++ meanwhile))) as [_ Hx];
    [apply final_reachable; vm_compute; reflexivity|vm_compute; reflexivity..|apply meanwhile_foreign
    |vm_compute; reflexivity|exact Hx].
Defined.

End Uses.
