(* ===== verification/Flows.v ===== *)
(** * Live flows

    internal/connect/flows: the connections a proxy carries for a caller are tracked as
    flows. A flow is closed when its session is revoked, when a sweep finds its session
    gone, and when its policy is re-evaluated after a flush and refuses it. The tracker
    is a machine: every goroutine and every call in progress is an activity, and one step
    runs what the code runs between taking and releasing the mutex. What re-checks and the
    session checker answer, and when timers fire, is chosen by the event. *)
From S2P Require Import Prelude.

Module Flows.
Local Open Scope Z_scope.

(** ** Data *)

Definition recheckParallel : nat := 8.
Definition recheckAttempts : nat := 3.

(** [recheck] tells whether there is a re-check; connections are references. *)
Record Flow := mkFlow {
  orgID : string;
  sessionID : string;
  recheck : bool;
  conns : list nat;
  revoked : bool
}.

Definition revoke_flow (f : Flow) : Flow := mkFlow (orgID f) (sessionID f) (recheck f) (conns f) true.

(** Who waits for [recheckFlow]: the re-evaluation [loop], or the call of [Confirm] that
    runs it itself because it found the flow stale at the epoch [since]. *)
Inductive owner := ByLoop (loop : nat) | ByConfirm (since : Z).

(** Where an activity is. [began] is the epoch when the call of the re-check began;
    [epoch] at the end of [Confirm] the one it vouches for: the decision's when the flow
    was not stale, else the one at which it was found stale. *)
Inductive pc :=
| PRevokeClose (doomed : list nat)
| PSweepWait
| PSweepRefs (refs : list (string * string))
| PSweepClose (doomed : list nat) (refs : list (string * string))
| PReOnce (orgs : gset string)
| PReRun (todo : list nat) (running : gset nat)
| PReEnd
| PCheck (f attempt : nat) (o : owner)
| PCall (f attempt : nat) (began : Z) (o : owner)
| PBackoff (f attempt : nat) (o : owner)
| PCheckClose (f : nat) (doomed : list nat) (o : owner)
| PConfirm (f : nat) (epoch : Z)
| PConfirmEnd (f : nat) (epoch : Z) (stale : bool)
| PWait.

(** The tracker and what is in progress in it. [checker] tells whether there is a session
    checker, [stop] whether the channel is closed. [heap] has every flow there was,
    [closed] the connections that were closed. The last three are history: the epoch when
    a flow was tracked, the latest epoch at which a re-check that passed began, and the
    epoch for which [Confirm] returned true. *)
Record Tracker := mkTracker {
  checker : bool;
  heap : gmap nat Flow;
  flows : gset nat;
  sweeping : bool;
  reevaluating : bool;
  pending : gset string;
  epoch : Z;
  flushedAt : gmap string Z;
  stop : bool;
  closed : gset nat;
  acts : gmap nat pc;
  next : nat;
  born : gmap nat Z;
  checkedAt : gmap nat Z;
  confirmed : gmap nat Z
}.

Definition t_heap (v : gmap nat Flow) (t : Tracker) : Tracker :=
  mkTracker (checker t) v (flows t) (sweeping t) (reevaluating t) (pending t) (epoch t) (flushedAt t) (stop t)
    (closed t) (acts t) (next t) (born t) (checkedAt t) (confirmed t).
Definition t_flows (v : gset nat) (t : Tracker) : Tracker :=
  mkTracker (checker t) (heap t) v (sweeping t) (reevaluating t) (pending t) (epoch t) (flushedAt t) (stop t)
    (closed t) (acts t) (next t) (born t) (checkedAt t) (confirmed t).
Definition t_sweeping (v : bool) (t : Tracker) : Tracker :=
  mkTracker (checker t) (heap t) (flows t) v (reevaluating t) (pending t) (epoch t) (flushedAt t) (stop t)
    (closed t) (acts t) (next t) (born t) (checkedAt t) (confirmed t).
Definition t_reevaluating (v : bool) (t : Tracker) : Tracker :=
  mkTracker (checker t) (heap t) (flows t) (sweeping t) v (pending t) (epoch t) (flushedAt t) (stop t)
    (closed t) (acts t) (next t) (born t) (checkedAt t) (confirmed t).
Definition t_pending (v : gset string) (t : Tracker) : Tracker :=
  mkTracker (checker t) (heap t) (flows t) (sweeping t) (reevaluating t) v (epoch t) (flushedAt t) (stop t)
    (closed t) (acts t) (next t) (born t) (checkedAt t) (confirmed t).
Definition t_epoch (v : Z) (t : Tracker) : Tracker :=
  mkTracker (checker t) (heap t) (flows t) (sweeping t) (reevaluating t) (pending t) v (flushedAt t) (stop t)
    (closed t) (acts t) (next t) (born t) (checkedAt t) (confirmed t).
Definition t_flushedAt (v : gmap string Z) (t : Tracker) : Tracker :=
  mkTracker (checker t) (heap t) (flows t) (sweeping t) (reevaluating t) (pending t) (epoch t) v (stop t)
    (closed t) (acts t) (next t) (born t) (checkedAt t) (confirmed t).
Definition t_stop (v : bool) (t : Tracker) : Tracker :=
  mkTracker (checker t) (heap t) (flows t) (sweeping t) (reevaluating t) (pending t) (epoch t) (flushedAt t) v
    (closed t) (acts t) (next t) (born t) (checkedAt t) (confirmed t).
Definition t_closed (v : gset nat) (t : Tracker) : Tracker :=
  mkTracker (checker t) (heap t) (flows t) (sweeping t) (reevaluating t) (pending t) (epoch t) (flushedAt t) (stop t)
    v (acts t) (next t) (born t) (checkedAt t) (confirmed t).
Definition t_acts (v : gmap nat pc) (t : Tracker) : Tracker :=
  mkTracker (checker t) (heap t) (flows t) (sweeping t) (reevaluating t) (pending t) (epoch t) (flushedAt t) (stop t)
    (closed t) v (next t) (born t) (checkedAt t) (confirmed t).
Definition t_next (v : nat) (t : Tracker) : Tracker :=
  mkTracker (checker t) (heap t) (flows t) (sweeping t) (reevaluating t) (pending t) (epoch t) (flushedAt t) (stop t)
    (closed t) (acts t) v (born t) (checkedAt t) (confirmed t).
Definition t_born (v : gmap nat Z) (t : Tracker) : Tracker :=
  mkTracker (checker t) (heap t) (flows t) (sweeping t) (reevaluating t) (pending t) (epoch t) (flushedAt t) (stop t)
    (closed t) (acts t) (next t) v (checkedAt t) (confirmed t).
Definition t_checkedAt (v : gmap nat Z) (t : Tracker) : Tracker :=
  mkTracker (checker t) (heap t) (flows t) (sweeping t) (reevaluating t) (pending t) (epoch t) (flushedAt t) (stop t)
    (closed t) (acts t) (next t) (born t) v (confirmed t).
Definition t_confirmed (v : gmap nat Z) (t : Tracker) : Tracker :=
  mkTracker (checker t) (heap t) (flows t) (sweeping t) (reevaluating t) (pending t) (epoch t) (flushedAt t) (stop t)
    (closed t) (acts t) (next t) (born t) (checkedAt t) v.

(** [NewTracker]. *)
Definition NewTracker (checker : bool) : Tracker :=
  mkTracker checker ∅ ∅ false false ∅ 0 ∅ false ∅ ∅ 0 ∅ ∅ ∅.

(** ** Operations *)

Definition flow (t : Tracker) (f : nat) : Flow := default (mkFlow "" "" false [] false) (heap t !! f).
Definition flushed (t : Tracker) (org : string) : Z := default 0 (flushedAt t !! org).
Definition set_act (k : nat) (p : pc) (t : Tracker) : Tracker := t_acts (<[k := p]> (acts t)) t.
Definition del_act (k : nat) (t : Tracker) : Tracker := t_acts (delete k (acts t)) t.
Definition spawn (p : pc) (t : Tracker) : Tracker := t_next (S (next t)) (set_act (next t) p t).

(** The section of [Track]; [start] is [startSweep]. *)
Definition add_flow (org session : string) (c : nat) (has_recheck start : bool) (t : Tracker) : Tracker :=
  let f := next t in
  let t := t_next (S f) (t_heap (<[f := mkFlow org session has_recheck [c] false]> (heap t)) t) in
  let t := t_born (<[f := epoch t]> (born t)) t in
  t_sweeping (sweeping t || start) (t_flows ({[f]} ∪ flows t) t).

Definition Track (org session : string) (c : nat) (has_recheck : bool) (t : Tracker) : Tracker :=
  let startSweep := checker t && negb (bool_decide (session = "")) && negb (sweeping t) in
  let t := add_flow org session c has_recheck startSweep t in
  if startSweep then spawn PSweepWait t else t.

(** The function [Track] returns. *)
Definition untrack (f : nat) (t : Tracker) : Tracker := t_flows (flows t ∖ {[f]}) t.

Definition Attach (f c : nat) (t : Tracker) : bool * Tracker :=
  let x := flow t f in
  if revoked x then (false, t)
  else (true, t_heap (<[f := mkFlow (orgID x) (sessionID x) (recheck x) (conns x ++ [c]) false]> (heap t)) t).

(** The flows of [Revoke]. *)
Definition hit (org : string) (sessions : list string) (x : Flow) : bool :=
  negb (bool_decide (sessionID x = "")) && bool_decide (orgID x = org) && bool_decide (sessionID x ∈ sessions).

Fixpoint revoke_all (fs : list nat) (t : Tracker) : list nat * Tracker :=
  match fs with
  | [] => ([], t)
  | f :: fs' =>
      let x := flow t f in
      let '(doomed, t) := revoke_all fs' (t_heap (<[f := revoke_flow x]> (heap t)) t) in
      (conns x ++ doomed, t)
  end.

(** [Revoke] up to the closing of the connections. *)
Definition Revoke (org : string) (sessions : list string) (t : Tracker) : list nat * Tracker :=
  revoke_all (filter (fun f => hit org sessions (flow t f) = true) (elements (flows t))) t.

Definition liveSessions (t : Tracker) : list (string * string) :=
  remove_dups (map (fun f => (orgID (flow t f), sessionID (flow t f)))
    (filter (fun f => revoked (flow t f) = false /\ sessionID (flow t f) <> "") (elements (flows t)))).

Definition Reevaluate (org : string) (t : Tracker) : Tracker :=
  let t := t_epoch ((epoch t + 1) mod 2 ^ 64) t in
  let t := t_flushedAt (<[org := epoch t]> (flushedAt t)) t in
  if reevaluating t then t_pending ({[org]} ∪ pending t) t
  else spawn (PReOnce {[org]}) (t_reevaluating true t).

(** The flows [reevaluateOnce] checks. *)
Definition checks (orgs : gset string) (t : Tracker) : list nat :=
  filter (fun f => (("" ∈ orgs \/ orgID (flow t f) ∈ orgs) /\ revoked (flow t f) = false) /\ recheck (flow t f) = true)
    (elements (flows t)).

(** [recheckFlow] is over. *)
Definition check_done (k f : nat) (o : owner) (t : Tracker) : Tracker :=
  match o with
  | ByLoop loop =>
      let t := del_act k t in
      match acts t !! loop with
      | Some (PReRun todo running) => set_act loop (PReRun todo (running ∖ {[k]})) t
      | _ => t
      end
  | ByConfirm since => set_act k (PConfirmEnd f since true) t
  end.

(** What a re-check returns. *)
Inductive verdict := Passed | Transient | Refused.

(** [recheckFlow] with an error it does not retry. *)
Definition check_failed (k f : nat) (o : owner) (t : Tracker) : Tracker :=
  if stop t then check_done k f o t
  else
    let x := flow t f in
    set_act k (PCheckClose f (conns x) o) (t_heap (<[f := revoke_flow x]> (heap t)) t).

Definition check_answer (k f attempt : nat) (began : Z) (o : owner) (v : verdict) (t : Tracker) : Tracker :=
  match v with
  | Passed =>
      check_done k f o
        (t_checkedAt (<[f := Z.max began (default 0 (checkedAt t !! f))]> (checkedAt t)) t)
  | Transient =>
      if (S attempt <? recheckAttempts)%nat then set_act k (PBackoff f (S attempt) o) t
      else check_failed k f o t
  | Refused => check_failed k f o t
  end.

Definition stale (f : nat) (e : Z) (t : Tracker) : bool :=
  (e <? flushed t (orgID (flow t f))) || (e <? flushed t "").

(** What comes from outside in a turn: nothing; a timer; the closed channel; a re-check's
    verdict; whether a session is active, when that could be told. *)
Inductive answer := Go | Timer | Stopped | Verdict (v : verdict) | Active (a : option bool).

(** The connections [Revoke] closes after its section. *)
Definition revoke_turn (k : nat) (p : pc) (a : answer) (t : Tracker) : option Tracker :=
  match p, a with
  | PRevokeClose (c :: l), Go => Some (set_act k (PRevokeClose l) (t_closed ({[c]} ∪ closed t) t))
  | PRevokeClose [], Go => Some (del_act k t)
  | _, _ => None
  end.

(** [sweepLoop] and [sweepSession]. *)
Definition sweep_turn (k : nat) (p : pc) (a : answer) (t : Tracker) : option Tracker :=
  match p, a with
  | PSweepWait, Timer =>
      Some (if bool_decide (flows t = ∅) then del_act k (t_sweeping false t)
            else set_act k (PSweepRefs (liveSessions t)) t)
  | PSweepWait, Stopped => if stop t then Some (del_act k (t_sweeping false t)) else None
  | PSweepRefs [], Go => Some (set_act k PSweepWait t)
  | PSweepRefs (_ :: l), Active (None | Some true) => Some (set_act k (PSweepRefs l) t)
  | PSweepRefs ((org, session) :: l), Active (Some false) =>
      let '(doomed, t) := Revoke org [session] t in Some (set_act k (PSweepClose doomed l) t)
  | PSweepClose (c :: d) l, Go => Some (set_act k (PSweepClose d l) (t_closed ({[c]} ∪ closed t) t))
  | PSweepClose [] l, Go => Some (set_act k (PSweepRefs l) t)
  | _, _ => None
  end.

(** [reevaluateLoop] and [reevaluateOnce]. *)
Definition loop_turn (k : nat) (p : pc) (a : answer) (t : Tracker) : option Tracker :=
  match p, a with
  | PReOnce orgs, Go => Some (set_act k (PReRun (checks orgs t) ∅) t)
  | PReRun (f :: todo) running, Go =>
      if (size running <? recheckParallel)%nat
      then Some (set_act k (PReRun todo ({[next t]} ∪ running)) (spawn (PCheck f 0 (ByLoop k)) t))
      else None
  | PReRun [] running, Go => if bool_decide (running = ∅) then Some (set_act k PReEnd t) else None
  | PReEnd, Go =>
      Some (if bool_decide (pending t = ∅) then del_act k (t_reevaluating false t)
            else set_act k (PReOnce (pending t)) (t_pending ∅ t))
  | _, _ => None
  end.

(** [recheckFlow] and [recheckWithRetry]. *)
Definition recheck_turn (k : nat) (p : pc) (a : answer) (t : Tracker) : option Tracker :=
  match p, a with
  | PCheck f attempt o, Go => Some (set_act k (PCall f attempt (epoch t) o) t)
  | PCall f attempt began o, Verdict v => Some (check_answer k f attempt began o v t)
  | PBackoff f attempt o, Timer => Some (set_act k (PCheck f attempt o) t)
  | PBackoff f _ o, Stopped => if stop t then Some (check_done k f o t) else None
  | PCheckClose f (c :: l) o, Go => Some (set_act k (PCheckClose f l o) (t_closed ({[c]} ∪ closed t) t))
  | PCheckClose f [] o, Go => Some (check_done k f o t)
  | _, _ => None
  end.

(** [Confirm] and [WaitReevaluated]. *)
Definition confirm_turn (k : nat) (p : pc) (a : answer) (t : Tracker) : option Tracker :=
  match p, a with
  | PConfirm f e, Go =>
      Some (if stale f e t
            then if recheck (flow t f) then set_act k (PCheck f 0 (ByConfirm (epoch t))) t
                 else set_act k (PConfirmEnd f (epoch t) true) t
            else set_act k (PConfirmEnd f e false) t)
  | PConfirmEnd f e _, Go =>
      Some (del_act k (if revoked (flow t f) then t else t_confirmed (<[f := e]> (confirmed t)) t))
  | PWait, Go => if reevaluating t then None else Some (del_act k t)
  | _, _ => None
  end.

Definition turn (k : nat) (p : pc) (a : answer) (t : Tracker) : option Tracker :=
  match p with
  | PRevokeClose _ => revoke_turn k p a t
  | PSweepWait | PSweepRefs _ | PSweepClose _ _ => sweep_turn k p a t
  | PReOnce _ | PReRun _ _ | PReEnd => loop_turn k p a t
  | PCheck _ _ _ | PCall _ _ _ _ | PBackoff _ _ _ | PCheckClose _ _ _ => recheck_turn k p a t
  | PConfirm _ _ | PConfirmEnd _ _ _ | PWait => confirm_turn k p a t
  end.

(** The calls of other packages, and the turns of the activities. A call with a flow has
    one that [Track] returned; [Confirm] has an epoch that [Epoch] returned. *)
Inductive event :=
| CTrack (org session : string) (c : nat) (has_recheck : bool)
| CUntrack (f : nat)
| CAttach (f c : nat)
| CRevoke (org : string) (sessions : list string)
| CReevaluate (org : string)
| CConfirm (f : nat) (e : Z)
| CWait
| CClose
| Turn (k : nat) (a : answer).

Definition step (e : event) (t : Tracker) : option Tracker :=
  match e with
  | CTrack org session c b => Some (Track org session c b t)
  | CUntrack f => Some (untrack f t)
  | CAttach f c => if bool_decide (is_Some (heap t !! f)) then Some (Attach f c t).2 else None
  | CRevoke org sessions => let '(doomed, t) := Revoke org sessions t in Some (spawn (PRevokeClose doomed) t)
  | CReevaluate org => Some (Reevaluate org t)
  | CConfirm f e =>
      if bool_decide (is_Some (heap t !! f)) && (e <=? epoch t) then Some (spawn (PConfirm f e) t) else None
  | CWait => Some (spawn PWait t)
  | CClose => Some (t_stop true t)
  | Turn k a => match acts t !! k with Some p => turn k p a t | None => None end
  end.

Fixpoint run (es : list event) (t : Tracker) : option Tracker :=
  match es with
  | [] => Some t
  | e :: es' => match step e t with Some t' => run es' t' | None => None end
  end.

End Flows.
