(* ===== verification/FlowsSafety.v ===== *)
(** * What the tracker of live flows guarantees

    Invariants of the machine of [Flows]: one re-evaluation at a time, which gets to every
    flow a flush concerns; a sweep while there is a session to watch; and no open
    connection of a revoked flow. *)
From S2P Require Import Prelude Flows.
Import Flows.

Module FlowsSafety.
Local Open Scope Z_scope.

(** ** Activities *)

Definition is_loop (p : pc) : bool := match p with PReOnce _ | PReRun _ _ | PReEnd => true | _ => false end.
Definition is_sweep (p : pc) : bool :=
  match p with PSweepWait | PSweepRefs _ | PSweepClose _ _ => true | _ => false end.

(** The flow an activity re-checks, and for whom. *)
Definition check_of (p : pc) : option (nat * owner) :=
  match p with
  | PCheck f _ o | PCall f _ _ o | PBackoff f _ o | PCheckClose f _ o => Some (f, o)
  | _ => None
  end.
Definition child_of (p : pc) : option nat :=
  match check_of p with Some (_, ByLoop loop) => Some loop | _ => None end.

(** The flow and the epoch a call of [Confirm] is going to vouch for. *)
Definition basis_of (p : pc) : option (nat * Z) :=
  match p with
  | PConfirmEnd f e _ => Some (f, e)
  | p => match check_of p with Some (f, ByConfirm since) => Some (f, since) | _ => None end
  end.

(** The connections an activity still has to close. *)
Definition doomed_of (p : pc) : list nat :=
  match p with PRevokeClose d | PSweepClose d _ | PCheckClose _ d _ => d | _ => [] end.

Definition fresh (t : Tracker) : Prop :=
  (forall k p, acts t !! k = Some p -> (k < next t)%nat) /\ (forall f x, heap t !! f = Some x -> (f < next t)%nat) /\
  (forall f, f ∈ flows t -> is_Some (heap t !! f)).

Lemma fresh_act t : fresh t -> acts t !! next t = None.
Proof. intros (Ha&_). destruct (acts t !! next t) eqn:E; [|done]. apply Ha in E. lia. Qed.

(** An activity that is replaced, removed or added. *)
Lemma act_set k p t j q : acts (set_act k p t) !! j = Some q -> (j = k /\ q = p) \/ (j <> k /\ acts t !! j = Some q).
Proof. cbn. intros [[<- <-]|[? ?]]%lookup_insert_Some; auto. Qed.

Lemma act_del k t j q : acts (del_act k t) !! j = Some q -> j <> k /\ acts t !! j = Some q.
Proof. cbn. intros [? ?]%lookup_delete_Some; auto. Qed.

(** What a turn can do to the other activities: a finished re-check reports to its loop. *)
Lemma act_done k f o t j q :
  acts (check_done k f o t) !! j = Some q ->
  (j <> k /\ acts t !! j = Some q) \/
  (exists loop todo running, o = ByLoop loop /\ j = loop /\ j <> k /\ acts t !! loop = Some (PReRun todo running) /\
     q = PReRun todo (running ∖ {[k]})) \/
  (exists since, o = ByConfirm since /\ j = k /\ q = PConfirmEnd f since true).
Proof.
  destruct o as [loop|since]; cbn [check_done].
  - destruct (acts (del_act k t) !! loop) as [x|] eqn:Hl; [|intros ?%act_del; by left].
    destruct x; try (intros ?%act_del; by left).
    apply act_del in Hl as [Hne Hl]. intros [[-> ->]|[? [? ?]%act_del]]%act_set; [|by left].
    right. left. by repeat eexists.
  - intros [[-> ->]|?]%act_set; [|by left]. right. right. by exists since.
Qed.

Lemma done_fields k f o t :
  heap (check_done k f o t) = heap t /\ flows (check_done k f o t) = flows t /\
  sweeping (check_done k f o t) = sweeping t /\ reevaluating (check_done k f o t) = reevaluating t /\
  pending (check_done k f o t) = pending t /\ epoch (check_done k f o t) = epoch t /\
  flushedAt (check_done k f o t) = flushedAt t /\ stop (check_done k f o t) = stop t /\
  closed (check_done k f o t) = closed t /\ next (check_done k f o t) = next t /\
  born (check_done k f o t) = born t /\ checkedAt (check_done k f o t) = checkedAt t /\
  confirmed (check_done k f o t) = confirmed t /\ checker (check_done k f o t) = checker t.
Proof.
  destruct o as [loop|since]; cbn [check_done]; [|done].
  destruct (acts (del_act k t) !! loop) as [[]|]; done.
Qed.

(** An activity that stays when a re-check is done. *)
Lemma done_keeps k f o t j q :
  acts t !! j = Some q -> j <> k -> (forall todo running, q <> PReRun todo running) ->
  acts (check_done k f o t) !! j = Some q.
Proof.
  intros Hj Hne Hq. destruct o as [loop|since]; cbn [check_done]; [|cbn; by rewrite lookup_insert_ne].
  assert (Hd : acts (del_act k t) !! j = Some q) by (cbn; by rewrite lookup_delete_ne).
  destruct (acts (del_act k t) !! loop) as [x|] eqn:Hl; [|done]. destruct x; try done.
  cbn. rewrite lookup_insert_ne; [done|]. intros ->. rewrite Hd in Hl. injection Hl as ->. by eapply Hq.
Qed.

(** ** Revoked flows are closed *)

Definition closing (t : Tracker) : Prop :=
  forall f c, revoked (flow t f) = true -> c ∈ conns (flow t f) ->
    c ∈ closed t \/ exists k p, acts t !! k = Some p /\ c ∈ doomed_of p.

(** A connection that is closed, or that an activity has to close. *)
Definition dealt (t : Tracker) (c : nat) : Prop := c ∈ closed t \/ exists k p, acts t !! k = Some p /\ c ∈ doomed_of p.

Lemma closing_next t t' :
  closing t ->
  (forall f c, revoked (flow t' f) = true -> c ∈ conns (flow t' f) ->
     (revoked (flow t f) = true /\ c ∈ conns (flow t f)) \/ dealt t' c) ->
  (forall c, dealt t c -> dealt t' c) -> closing t'.
Proof. intros C Hf Hd f c Hr Hin. destruct (Hf f c Hr Hin) as [[? ?]|?]; [|done]. apply Hd. by eapply C. Qed.

Lemma dealt_set t t' k p p' :
  acts t !! k = Some p -> acts t' = <[k := p']> (acts t) -> closed t ⊆ closed t' ->
  (forall c, c ∈ doomed_of p -> c ∈ doomed_of p' \/ c ∈ closed t') -> forall c, dealt t c -> dealt t' c.
Proof.
  intros Hk Ha Hc Hp c [?|(j&q&Hj&Hq)]; [left; by apply Hc|]. destruct (decide (j = k)) as [->|Hne].
  - rewrite Hk in Hj. injection Hj as <-. destruct (Hp c Hq); [|by left]. right. exists k, p'. rewrite Ha.
    by rewrite lookup_insert_eq.
  - right. exists j, q. by rewrite Ha, lookup_insert_ne.
Qed.

Lemma dealt_del t t' k p :
  acts t !! k = Some p -> acts t' = delete k (acts t) -> closed t ⊆ closed t' ->
  doomed_of p = [] -> forall c, dealt t c -> dealt t' c.
Proof.
  intros Hk Ha Hc Hp c [?|(j&q&Hj&Hq)]; [left; by apply Hc|]. destruct (decide (j = k)) as [->|Hne].
  - rewrite Hk in Hj. injection Hj as <-. rewrite Hp in Hq. by apply not_elem_of_nil in Hq.
  - right. exists j, q. by rewrite Ha, lookup_delete_ne.
Qed.

Lemma dealt_spawn t p c : fresh t -> dealt t c -> dealt (spawn p t) c.
Proof.
  intros F [?|(j&q&Hj&Hq)]; [by left|]. right. exists j, q. cbn. rewrite lookup_insert_ne; [done|].
  intros <-. by rewrite (fresh_act _ F) in Hj.
Qed.

Lemma dealt_done k f o t c p :
  acts t !! k = Some p -> doomed_of p = [] -> dealt t c -> dealt (check_done k f o t) c.
Proof.
  intros Hk Hp [Hc|(j&q&Hj&Hq)].
  - left. by destruct (done_fields k f o t) as (_&_&_&_&_&_&_&_&->&_).
  - right. exists j, q. split; [|done]. apply done_keeps; [done| |].
    + intros ->. rewrite Hk in Hj. injection Hj as <-. rewrite Hp in Hq. by apply not_elem_of_nil in Hq.
    + intros todo running ->. by apply not_elem_of_nil in Hq.
Qed.

Lemma flow_insert f x t g : flow (t_heap (<[f := x]> (heap t)) t) g = if decide (g = f) then x else flow t g.
Proof.
  unfold flow. cbn. destruct (decide (g = f)) as [->|]; [by rewrite lookup_insert_eq|by rewrite lookup_insert_ne].
Qed.

(** What [Revoke] does: flows are revoked, and their connections are the doomed ones. *)
Lemma revoke_all_spec fs t doomed t' :
  revoke_all fs t = (doomed, t') ->
  exists h, t' = t_heap h t /\ (forall f, is_Some (h !! f) <-> is_Some (heap t !! f) \/ f ∈ fs) /\
  (forall f, flow t' f = if decide (f ∈ fs) then revoke_flow (flow t f) else flow t f) /\
  (forall f c, f ∈ fs -> c ∈ conns (flow t f) -> c ∈ doomed).
Proof.
  revert t doomed t'. induction fs as [|f fs IH]; intros t doomed t'; cbn [revoke_all].
  { intros [= <- <-]. exists (heap t). split_and!; [by destruct t| |done|by intros f c ?%not_elem_of_nil].
    intros f. rewrite elem_of_nil. tauto. }
  destruct (revoke_all fs _) as [d t1] eqn:E. intros [= <- <-]. apply IH in E as (h&->&Hd&Hf&Hc).
  exists h. split_and!; [done| | |].
  - intros g. rewrite Hd. cbn. rewrite elem_of_cons. destruct (decide (g = f)) as [->|].
    + rewrite lookup_insert_eq. naive_solver.
    + rewrite lookup_insert_ne by done. naive_solver.
  - intros g. rewrite Hf, flow_insert. destruct (decide (g = f)) as [->|].
    + rewrite (decide_True (P := f ∈ f :: fs)) by (by left). by destruct (decide (f ∈ fs)).
    + destruct (decide (g ∈ fs)); [rewrite decide_True by (by right)|rewrite decide_False by (by intros [?|?]%elem_of_cons)]; done.
  - intros g c Hg Hin. apply elem_of_app. destruct (decide (g = f)) as [->|]; [by left|].
    right. apply elem_of_cons in Hg as [?|Hg]; [done|]. eapply Hc; [exact Hg|]. rewrite flow_insert.
    by destruct (decide (g = f)).
Qed.

(** ** Freshness *)

(** Case analysis on an activity of an updated table. *)
Ltac act_cases :=
  repeat match goal with
  | H : acts (set_act _ _ _) !! _ = Some _ |- _ => apply act_set in H as [[? ?]|[? H]]
  | H : acts (del_act _ _) !! _ = Some _ |- _ => apply act_del in H as [? H]
  | H : <[_ := _]> _ !! _ = Some _ |- _ => apply lookup_insert_Some in H as [[? ?]|[? H]]
  end; subst.

Lemma fresh_next t t' :
  fresh t -> (next t <= next t')%nat ->
  (forall k p, acts t' !! k = Some p -> (k < next t')%nat \/ is_Some (acts t !! k)) ->
  (forall f, is_Some (heap t' !! f) -> (f < next t')%nat \/ is_Some (heap t !! f)) ->
  (forall f, is_Some (heap t !! f) -> is_Some (heap t' !! f)) ->
  (forall f, f ∈ flows t' -> f ∈ flows t \/ is_Some (heap t' !! f)) -> fresh t'.
Proof.
  intros (F1&F2&F3) Hn Ha Hh Hm Hf. split_and!.
  - intros k p Hk. destruct (Ha k p Hk) as [?|[q Hq]]; [done|]. apply F1 in Hq. lia.
  - intros f x Hx. destruct (Hh f) as [?|[y Hy]]; [by eexists|done|]. apply F2 in Hy. lia.
  - intros f Hin. destruct (Hf f Hin) as [?|?]; [|done]. by apply Hm, F3.
Qed.

(** Turns that only replace their own activity. *)
Lemma fresh_acts t t' k p :
  fresh t -> acts t !! k = Some p -> heap t' = heap t -> flows t' = flows t -> next t' = next t ->
  (forall j q, acts t' !! j = Some q -> j = k \/ is_Some (acts t !! j)) -> fresh t'.
Proof.
  intros F Hk Hh Hf Hn Ha. apply (fresh_next t); rewrite ?Hh, ?Hf, ?Hn; auto.
  intros j q Hj. destruct (Ha j q Hj) as [->|?]; right; eauto.
Qed.

Lemma fresh_set t k p p' : fresh t -> acts t !! k = Some p -> fresh (set_act k p' t).
Proof. intros F Hk. eapply fresh_acts; [done..|]. intros j q Hj. act_cases; eauto. Qed.

Lemma fresh_del t k p : fresh t -> acts t !! k = Some p -> fresh (del_act k t).
Proof. intros F Hk. eapply fresh_acts; [done..|]. intros j q Hj. act_cases; eauto. Qed.

Lemma fresh_spawn t p : fresh t -> fresh (spawn p t).
Proof.
  intros F. apply (fresh_next t); cbn; auto. intros j q Hj. act_cases; [left; lia|eauto].
Qed.

Lemma fresh_done t k f o p : fresh t -> acts t !! k = Some p -> fresh (check_done k f o t).
Proof.
  intros F Hk. destruct (done_fields k f o t) as (Hh&Hf&_&_&_&_&_&_&_&Hn&_).
  eapply fresh_acts; [done..|]. intros j q [[_ ?]|[(l&td&r&->&->&_&?&_)|(since&_&->&_)]]%act_done; eauto.
Qed.

(** Flows that are only changed where they are. *)
Lemma fresh_heap t h : fresh t -> (forall f, is_Some (h !! f) <-> is_Some (heap t !! f)) -> fresh (t_heap h t).
Proof. intros F Hh. apply (fresh_next t); cbn; eauto; [intros f ?; right; by apply Hh|intros f ?; by apply Hh]. Qed.

Lemma fresh_failed t k f o p : fresh t -> acts t !! k = Some p -> is_Some (heap t !! f) -> fresh (check_failed k f o t).
Proof.
  intros F Hk Hf. unfold check_failed. destruct (stop t); [by eapply fresh_done|].
  eapply fresh_set; [|exact Hk]. apply fresh_heap; [done|]. intros g. destruct (decide (g = f)) as [->|].
  - rewrite lookup_insert_eq. split; eauto.
  - by rewrite lookup_insert_ne.
Qed.

Lemma Revoke_heap org sessions t doomed t' :
  fresh t -> Revoke org sessions t = (doomed, t') ->
  exists h, t' = t_heap h t /\ (forall f, is_Some (h !! f) <-> is_Some (heap t !! f)) /\
  (forall f, flow t' f = flow t f \/ (flow t' f = revoke_flow (flow t f) /\ forall c, c ∈ conns (flow t f) -> c ∈ doomed)).
Proof.
  intros (_&_&F3) (h&->&Hd&Hf&Hc)%revoke_all_spec. exists h. split_and!; [done| |].
  - intros f. rewrite Hd. split; [|by left]. intros [?|[_ Hin]%list_elem_of_filter]; [done|]. apply F3.
    by apply elem_of_elements.
  - intros f. rewrite Hf. destruct (decide _); [right; split; [done|]; intros c Hin; by eapply Hc|by left].
Qed.

(** The flows an activity refers to exist. *)
Definition refs_of (p : pc) : list nat :=
  match p with
  | PCheck f _ _ | PCall f _ _ _ | PBackoff f _ _ | PCheckClose f _ _ | PConfirm f _ | PConfirmEnd f _ _ => [f]
  | PReRun todo _ => todo
  | _ => []
  end.

Definition known (t : Tracker) : Prop :=
  forall k p f, acts t !! k = Some p -> f ∈ refs_of p -> is_Some (heap t !! f).

Lemma known_next t t' :
  known t -> (forall f, is_Some (heap t !! f) -> is_Some (heap t' !! f)) ->
  (forall k p f, acts t' !! k = Some p -> f ∈ refs_of p ->
     (exists j q, acts t !! j = Some q /\ f ∈ refs_of q) \/ is_Some (heap t' !! f)) -> known t'.
Proof. intros K Hh Ha k p f Hk Hf. destruct (Ha k p f Hk Hf) as [(j&q&Hj&Hq)|?]; [|done]. eapply Hh, K; eauto. Qed.

Lemma known_set t k p p' :
  known t -> acts t !! k = Some p -> (forall f, f ∈ refs_of p' -> f ∈ refs_of p \/ is_Some (heap t !! f)) ->
  known (set_act k p' t).
Proof.
  intros K Hk Hr. apply (known_next t); [done|done|]. intros j q f Hj Hf. act_cases; [|eauto].
  destruct (Hr f Hf); eauto.
Qed.

Lemma known_del t k : known t -> known (del_act k t).
Proof. intros K. apply (known_next t); [done|done|]. intros j q f Hj Hf. act_cases. eauto. Qed.

Lemma known_spawn t p : known t -> (forall f, f ∈ refs_of p -> is_Some (heap t !! f)) -> known (spawn p t).
Proof. intros K Hr. apply (known_next t); [done|done|]. cbn. intros j q f Hj Hf. act_cases; eauto. Qed.

Lemma known_done t k p f o :
  known t -> acts t !! k = Some p -> f ∈ refs_of p -> known (check_done k f o t).
Proof.
  intros K Hk Hf. destruct (done_fields k f o t) as (Hh&_). apply (known_next t); [done|by rewrite Hh|].
  intros j q g [[_ ?]|[(l&td&r&->&->&_&Hl&->)|(since&_&->&->)]]%act_done Hg; [eauto|left; by eauto|].
  left. apply list_elem_of_singleton in Hg as ->. eauto.
Qed.

Lemma known_heap t h : known t -> (forall f, is_Some (heap t !! f) -> is_Some (h !! f)) -> known (t_heap h t).
Proof. intros K Hh. apply (known_next t); [done|done|]. intros j q f Hj Hf. eauto. Qed.

Definition base (t : Tracker) : Prop := fresh t /\ known t.

Lemma base_failed t k p f o :
  base t -> acts t !! k = Some p -> f ∈ refs_of p -> base (check_failed k f o t).
Proof.
  intros [F K] Hk Hf. pose proof (K _ _ _ Hk Hf) as Hh. split; [by eapply fresh_failed|].
  unfold check_failed. destruct (stop t); [by eapply known_done|].
  eapply known_set; [|exact Hk|intros g Hg; left; apply list_elem_of_singleton in Hg as ->; exact Hf].
  apply known_heap; [done|]. intros g Hg. destruct (decide (g = f)) as [->|]; [rewrite lookup_insert_eq; by eexists|].
  by rewrite lookup_insert_ne.
Qed.

Lemma checks_known orgs t f : fresh t -> f ∈ checks orgs t -> is_Some (heap t !! f).
Proof. intros (_&_&F3) [_ Hin]%list_elem_of_filter. apply F3. by apply elem_of_elements. Qed.

(** Reduces a turn to the state it returns. *)
Ltac turn_cases :=
  repeat match goal with
  | |- None = Some _ -> _ => intros [=]
  | |- Some (if ?b then _ else _) = Some _ -> _ => destruct b eqn:?
  | |- Some _ = Some _ -> _ => let E := fresh in intros E; apply (inj Some) in E; subst
  | |- (if ?b then _ else _) = Some _ -> _ => destruct b eqn:?
  | |- (match ?x with _ => _ end) = Some _ -> _ => is_var x; destruct x
  | |- (let '(_, _) := ?x in _) = Some _ -> _ => destruct x as [? ?] eqn:?
  end.

Lemma base_set t k p p' :
  base t -> acts t !! k = Some p -> (forall f, f ∈ refs_of p' -> f ∈ refs_of p \/ is_Some (heap t !! f)) ->
  base (set_act k p' t).
Proof. intros [F K] Hk Hr. split; [by eapply fresh_set|by eapply known_set]. Qed.

Lemma base_del t k p : base t -> acts t !! k = Some p -> base (del_act k t).
Proof. intros [F K] Hk. split; [by eapply fresh_del|by eapply known_del]. Qed.

Lemma base_ext t t' :
  base t -> heap t' = heap t -> flows t' = flows t -> acts t' = acts t -> next t' = next t -> base t'.
Proof. intros [F K] Hh Hf Ha Hn. split; [unfold fresh|unfold known]; by rewrite ?Hh, ?Hf, ?Ha, ?Hn. Qed.

Lemma base_revoke t t' doomed org sessions : base t -> Revoke org sessions t = (doomed, t') -> base t' /\ acts t' = acts t.
Proof.
  intros [F K] (h&->&Hh&_)%(Revoke_heap _ _ _ _ _ F). split; [|done].
  split; [by apply fresh_heap|apply known_heap; [done|]; intros f ?; by apply Hh].
Qed.

(** Turns that set fields and go on, or end. *)
Ltac base_move B Hk :=
  first
  [ eapply base_set; [eapply base_ext; [exact B|done..]|exact Hk|intros; cbn [refs_of] in *; set_solver]
  | eapply base_del; [eapply base_ext; [exact B|done..]|exact Hk] ].

Lemma base_turn t k p a t' : base t -> acts t !! k = Some p -> turn k p a t = Some t' -> base t'.
Proof.
  intros B Hk. pose proof B as [F K]. destruct p; cbn [turn revoke_turn sweep_turn loop_turn recheck_turn confirm_turn]; try done; destruct a; try done; turn_cases;
    try solve [base_move B Hk].
  - destruct (base_revoke _ _ _ _ _ B Heqp) as [B1 Ha]. eapply base_set; [done|by rewrite Ha|by intros ? ?%not_elem_of_nil].
  - eapply base_set; [done|exact Hk|]. intros f Hf. right. by eapply checks_known.
  - assert (B1 : base (spawn (PCheck n 0 (ByLoop k)) t)).
    { split; [by apply fresh_spawn|]. apply known_spawn; [done|]. intros f ->%list_elem_of_singleton.
      eapply K; [exact Hk|by left]. }
    eapply (base_set _ _ (PReRun (n :: todo) running)); [exact B1| |intros f Hf; left; by right].
    cbn. rewrite lookup_insert_ne; [done|]. destruct F as [F1 _]. apply F1 in Hk. lia.
  - unfold check_answer.
    assert (Hd : forall t1, heap t1 = heap t -> flows t1 = flows t -> acts t1 = acts t -> next t1 = next t ->
      base (check_done k f o t1)).
    { intros t1 ????. assert (B1 : base t1) by (by eapply base_ext). destruct B1.
      split; [eapply fresh_done|eapply known_done]; try done; try (by rewrite H1); by left. }
    destruct v; [by apply Hd| |by eapply base_failed; [done|exact Hk|left]].
    destruct (_ <? _)%nat; [base_move B Hk|by eapply base_failed; [done|exact Hk|left]].
  - split; [by eapply fresh_done|eapply known_done; [done|exact Hk|by left]].
  - split; [by eapply fresh_done|eapply known_done; [done|exact Hk|by left]].
  - eapply base_del; [eapply base_ext; [exact B|..]|]; by destruct (revoked _).
Qed.

Lemma base_add_flow t org session c b start : base t -> base (add_flow org session c b start t).
Proof.
  intros [F K]. assert (Hf : heap t !! next t = None).
  { destruct (heap t !! next t) eqn:E; [|done]. destruct F as (_&F2&_). apply F2 in E. lia. }
  assert (Hh : forall f, is_Some (heap t !! f) -> is_Some (heap (add_flow org session c b start t) !! f)).
  { intros f Hs. cbn. destruct (decide (f = next t)) as [->|]; [rewrite lookup_insert_eq; by eexists|].
    by rewrite lookup_insert_ne. }
  split.
  - apply (fresh_next t); [done|cbn; lia|eauto| |done|].
    + intros f. cbn. destruct (decide (f = next t)) as [->|]; [left; lia|rewrite lookup_insert_ne by done; by right].
    + intros f. cbn. intros [->%elem_of_singleton|?]%elem_of_union; [right; rewrite lookup_insert_eq; by eexists|by left].
  - apply (known_next t); [done|done|]. eauto.
Qed.

Lemma base_spawn t p : base t -> (forall f, f ∈ refs_of p -> is_Some (heap t !! f)) -> base (spawn p t).
Proof. intros [F K] Hr. split; [by apply fresh_spawn|by apply known_spawn]. Qed.

Lemma base_track t org session c b : base t -> base (Track org session c b t).
Proof.
  intros B. unfold Track. destruct (_ && _); [|by apply base_add_flow].
  apply base_spawn; [by apply base_add_flow|by intros ? ?%not_elem_of_nil].
Qed.

Lemma base_attach t f c : base t -> is_Some (heap t !! f) -> base (Attach f c t).2.
Proof.
  intros [F K] Hf. unfold Attach. destruct (revoked _); [by split|]. cbn [snd].
  assert (Hh : forall x g, is_Some (<[f := x]> (heap t) !! g) <-> is_Some (heap t !! g)).
  { intros x g. destruct (decide (g = f)) as [->|]; [rewrite lookup_insert_eq; split; by eauto|by rewrite lookup_insert_ne]. }
  split; [by apply fresh_heap|apply known_heap; [done|]; intros g ?; by apply Hh].
Qed.

Lemma base_step t e t' : base t -> step e t = Some t' -> base t'.
Proof.
  intros B. destruct e as [org session c b|f|f c|org sessions|org|f e| | |k a]; cbn [step]; turn_cases.
  - by apply base_track.
  - destruct B as [F K]. split; [|done]. apply (fresh_next t); [done|done|eauto|eauto|eauto|].
    cbn. intros g [? _]%elem_of_difference. by left.
  - apply base_attach; [done|]. by bool_to_prop.
  - destruct (base_revoke _ _ _ _ _ B Heqp) as [B1 _]. apply base_spawn; [done|]. by intros ? ?%not_elem_of_nil.
  - unfold Reevaluate. match goal with |- context [if ?b then _ else _] => destruct b end; [by eapply base_ext|].
    apply base_spawn; [by eapply base_ext|]. by intros ? ?%not_elem_of_nil.
  - apply base_spawn; [done|]. intros g ->%list_elem_of_singleton. by bool_to_prop.
  - apply base_spawn; [done|]. by intros ? ?%not_elem_of_nil.
  - by eapply base_ext.
  - destruct (acts t !! k) as [p|] eqn:Hk; [|done]. intros E. by eapply base_turn.
Qed.

(** ** Closing is preserved *)

Lemma closing_set t t' k p p' :
  closing t -> acts t !! k = Some p -> acts t' = <[k := p']> (acts t) -> heap t' = heap t -> closed t ⊆ closed t' ->
  (forall c, c ∈ doomed_of p -> c ∈ doomed_of p' \/ c ∈ closed t') -> closing t'.
Proof.
  intros C Hk Ha Hh Hc Hp. apply (closing_next t); [done| |by eapply dealt_set].
  intros f c. unfold flow. rewrite Hh. auto.
Qed.

Lemma closing_del t t' k p :
  closing t -> acts t !! k = Some p -> acts t' = delete k (acts t) -> heap t' = heap t -> closed t' = closed t ->
  doomed_of p = [] -> closing t'.
Proof.
  intros C Hk Ha Hh Hc Hp. apply (closing_next t); [done| |eapply dealt_del; [done..|by rewrite Hc|done]].
  intros f c. unfold flow. rewrite Hh. auto.
Qed.

Lemma closing_done t k p f o : closing t -> acts t !! k = Some p -> doomed_of p = [] -> closing (check_done k f o t).
Proof.
  intros C Hk Hp. destruct (done_fields k f o t) as (Hh&_). apply (closing_next t); [done| |].
  - intros g c. unfold flow. rewrite Hh. auto.
  - intros c. by eapply dealt_done.
Qed.

Lemma closing_failed t k p f o :
  closing t -> acts t !! k = Some p -> doomed_of p = [] -> closing (check_failed k f o t).
Proof.
  intros C Hk Hp. unfold check_failed. destruct (stop t); [by eapply closing_done|].
  set (t' := set_act _ _ _). apply (closing_next t); [done| |].
  - intros g c. unfold t'. change (flow (set_act ?a ?b ?c) g) with (flow c g). rewrite flow_insert.
    destruct (decide (g = f)) as [->|]; [|by left]. intros _ Hc. right. right. exists k, (PCheckClose f (conns (flow t f)) o).
    cbn. by rewrite lookup_insert_eq.
  - eapply dealt_set; [exact Hk|done|done|]. rewrite Hp. by intros c ?%not_elem_of_nil.
Qed.

Lemma closing_spawn t p : fresh t -> closing t -> closing (spawn p t).
Proof. intros F C. apply (closing_next t); [done|by left|]. intros c. by apply dealt_spawn. Qed.

(** The connections of the flows [Revoke] takes are in the hands of an activity. *)
Lemma closing_revoke t t1 t' doomed org sessions k p :
  fresh t -> closing t -> Revoke org sessions t = (doomed, t1) ->
  heap t' = heap t1 -> closed t' = closed t -> acts t' !! k = Some p -> doomed_of p = doomed ->
  (forall c, dealt t c -> dealt t' c) -> closing t'.
Proof.
  intros F C (h&->&_&Hf)%(Revoke_heap _ _ _ _ _ F) Hh Hc Hk Hp Hd. apply (closing_next t); [done| |done].
  intros f c. assert (E : flow t' f = flow (t_heap h t) f) by (unfold flow; by rewrite Hh). rewrite E.
  destruct (Hf f) as [->|[-> Hin]]; [by left|]. intros _ Hcs. right. right. exists k, p. split; [done|].
  rewrite Hp. by apply Hin.
Qed.

(** Turns that keep or close what they have to close. *)
Ltac closing_move C Hk :=
  first
  [ eapply closing_set; [exact C|exact Hk|reflexivity|reflexivity|first [reflexivity|cbn; set_solver]
                        |cbn [doomed_of closed t_closed set_act t_acts]; set_solver]
  | eapply closing_del; [exact C|exact Hk|reflexivity..] ].

Lemma closing_turn t k p a t' : base t -> closing t -> acts t !! k = Some p -> turn k p a t = Some t' -> closing t'.
Proof.
  intros [F K] C Hk. destruct p; cbn [turn revoke_turn sweep_turn loop_turn recheck_turn confirm_turn]; try done; destruct a; try done; turn_cases;
    try solve [closing_move C Hk].
  - eapply (closing_revoke t t0 _ _ _ _ k (PSweepClose l refs)); [done|done|exact Heqp|done|..].
    + apply (Revoke_heap _ _ _ _ _ F) in Heqp as (h&->&_). done.
    + cbn. by rewrite lookup_insert_eq.
    + done.
    + apply (Revoke_heap _ _ _ _ _ F) in Heqp as (h&->&_). eapply dealt_set; [exact Hk|done|done|].
      by intros c ?%not_elem_of_nil.
  - assert (C1 : closing (spawn (PCheck n 0 (ByLoop k)) t)) by (by apply closing_spawn).
    eapply (closing_set (spawn (PCheck n 0 (ByLoop k)) t) _ _ (PReRun (n :: todo) running)); [exact C1| |done|done|done|by intros c ?%not_elem_of_nil].
    cbn. rewrite lookup_insert_ne; [exact Hk|]. destruct F as [F1 _]. apply F1 in Hk. lia.
  - unfold check_answer. destruct v; [|destruct (_ <? _)%nat; [closing_move C Hk|]|]; try by eapply closing_failed.
    set (t1 := t_checkedAt _ t). assert (C1 : closing t1) by exact C. by eapply (closing_done t1).
  - by eapply closing_done.
  - by eapply closing_done.
  - destruct (revoked _); closing_move C Hk.
Qed.

Lemma closing_step t e t' : base t -> closing t -> step e t = Some t' -> closing t'.
Proof.
  intros B C. pose proof B as [F K]. destruct e as [org session c b|f|f c|org sessions|org|f e| | |k a]; cbn [step]; turn_cases.
  - assert (C1 : forall start, closing (add_flow org session c b start t)).
    { intros start. apply (closing_next t); [done| |by intros].
      intros g x. unfold flow at 1 2. cbn. destruct (decide (g = next t)) as [->|]; [by rewrite lookup_insert_eq|].
      rewrite lookup_insert_ne by done. by left. }
    unfold Track. destruct (_ && _); [|done]. apply closing_spawn; [by apply base_add_flow|done].
  - exact C.
  - unfold Attach. destruct (revoked (flow t f)) eqn:E; [done|]. cbn [snd]. apply (closing_next t); [done| |by intros].
    intros g x. rewrite flow_insert. destruct (decide (g = f)); [done|by left].
  - destruct (base_revoke _ _ _ _ _ B Heqp) as [[F1 _] Ha]. pose proof Heqp as (h&->&_)%(Revoke_heap _ _ _ _ _ F).
    eapply (closing_revoke t _ _ l org sessions (next t) (PRevokeClose l)); [done|done|exact Heqp|done|done| |done|].
    + cbn. by rewrite lookup_insert_eq.
    + intros c Hc. apply dealt_spawn; [done|]. exact Hc.
  - unfold Reevaluate. match goal with |- context [if ?b then _ else _] => destruct b end; [exact C|].
    apply closing_spawn; [exact F|exact C].
  - by apply closing_spawn.
  - by apply closing_spawn.
  - exact C.
  - destruct (acts t !! k) as [p|] eqn:Hk; [|done]. intros E. by eapply closing_turn.
Qed.

(** ** One re-evaluation at a time *)

Record loops (t : Tracker) : Prop := {
  l_idle : reevaluating t = false -> pending t = ∅ /\ forall k p, acts t !! k = Some p -> is_loop p = false;
  l_one : forall j k p q, acts t !! j = Some p -> acts t !! k = Some q -> is_loop p = true -> is_loop q = true -> j = k;
  l_child : forall j p loop, acts t !! j = Some p -> child_of p = Some loop ->
    exists todo running, acts t !! loop = Some (PReRun todo running) /\ j ∈ running
}.

(** A turn of an activity that stays in the loop, or out of it, and keeps its children. *)
Lemma loops_set t t' k p p' :
  loops t -> acts t !! k = Some p -> acts t' = <[k := p']> (acts t) -> reevaluating t' = reevaluating t ->
  (pending t = ∅ -> pending t' = ∅) -> is_loop p' = is_loop p -> child_of p' = child_of p ->
  (forall todo running, p = PReRun todo running ->
     (exists todo', p' = PReRun todo' running) \/ running = ∅) -> loops t'.
Proof.
  intros [L1 L2 L3] Hk Ha Hr Hp Hl Hc Hrun.
  assert (Hold : forall j q, acts t' !! j = Some q -> exists q', acts t !! j = Some q' /\ is_loop q' = is_loop q /\ child_of q' = child_of q).
  { intros j q. rewrite Ha. intros [[<- <-]|[? ?]]%lookup_insert_Some; eauto. }
  split.
  - rewrite Hr. intros E. destruct (L1 E) as [? HL]. split; [auto|]. intros j q (q'&Hj&<-&_)%Hold. eauto.
  - intros i j x y (x'&Hi&<-&_)%Hold (y'&Hj&<-&_)%Hold. eauto.
  - intros j q loop (q'&Hj&_&<-)%Hold Hq. destruct (L3 j q' loop Hj Hq) as (todo&running&Hloop&Hin).
    destruct (decide (loop = k)) as [->|]; [|exists todo, running; by rewrite Ha, lookup_insert_ne].
    rewrite Hk in Hloop. injection Hloop as ->. destruct (Hrun todo running eq_refl) as [[todo' ->]| ->]; [|set_solver].
    exists todo', running. by rewrite Ha, lookup_insert_eq.
Qed.

Lemma loops_del t t' k p :
  loops t -> acts t !! k = Some p -> acts t' = delete k (acts t) -> reevaluating t' = reevaluating t ->
  pending t' = pending t -> is_loop p = false -> loops t'.
Proof.
  intros [L1 L2 L3] Hk Ha Hr Hp Hl.
  assert (Hold : forall j q, acts t' !! j = Some q -> acts t !! j = Some q).
  { intros j q. rewrite Ha. by intros [_ ?]%lookup_delete_Some. }
  split.
  - rewrite Hr, Hp. intros E. destruct (L1 E) as [? HL]. split; [done|]. intros j q ?%Hold. eauto.
  - intros i j x y ?%Hold ?%Hold. eauto.
  - intros j q loop Hj%Hold Hq. destruct (L3 j q loop Hj Hq) as (todo&running&Hloop&Hin).
    exists todo, running. rewrite Ha, lookup_delete_ne; [done|]. intros <-. rewrite Hk in Hloop. by injection Hloop as ->.
Qed.

Lemma loops_spawn t p : fresh t -> loops t -> is_loop p = false -> child_of p = None -> loops (spawn p t).
Proof.
  intros F [L1 L2 L3] Hl Hc. pose proof (fresh_act _ F) as Hn. split; cbn.
  - intros E. destruct (L1 E) as [? HL]. split; [done|]. intros j q Hj. act_cases; eauto.
  - intros i j x y Hi Hj ? ?. act_cases; try congruence; eauto.
  - intros j q loop Hj Hq. act_cases; [congruence|]. destruct (L3 j q loop Hj Hq) as (todo&running&Hloop&Hin).
    exists todo, running. rewrite lookup_insert_ne; [done|]. intros <-. congruence.
Qed.

Lemma loops_done t k p f o :
  loops t -> acts t !! k = Some p -> check_of p = Some (f, o) -> loops (check_done k f o t).
Proof.
  intros L Hk Hc. pose proof L as [L1 L2 L3]. assert (Hlp : is_loop p = false) by (by destruct p).
  destruct o as [loop|since]; cbn [check_done].
  - assert (Hch : child_of p = Some loop) by (unfold child_of; by rewrite Hc).
    destruct (L3 _ _ _ Hk Hch) as (todo&running&Hloop&Hin).
    assert (Hne : loop <> k) by (intros ->; rewrite Hk in Hloop; by injection Hloop as ->).
    assert (Hd : acts (del_act k t) !! loop = Some (PReRun todo running)) by (cbn; by rewrite lookup_delete_ne).
    rewrite Hd. set (t' := set_act _ _ _).
    assert (Hold : forall j q, acts t' !! j = Some q -> (j = loop /\ q = PReRun todo (running ∖ {[k]})) \/
      (j <> loop /\ j <> k /\ acts t !! j = Some q)).
    { intros j q Hj. unfold t' in Hj. act_cases; auto. }
    split.
    + intros E. exfalso. destruct (L1 E) as [_ HL]. by specialize (HL _ _ Hloop).
    + intros i j x y [[-> ->]|(?&?&Hi)]%Hold [[-> ->]|(?&?&Hj)]%Hold Hx Hy; [done|..|by eapply L2].
      * by eapply L2.
      * by eapply L2.
    + intros j q l [[-> ->]|(?&?&Hj)]%Hold Hq; [done|]. destruct (L3 j q l Hj Hq) as (todo'&running'&Hl&Hj').
      assert (l = loop) as -> by (by eapply L2). rewrite Hloop in Hl. injection Hl as <- <-.
      exists todo, (running ∖ {[k]}). unfold t'. cbn. rewrite lookup_insert_eq. split; [done|set_solver].
  - eapply loops_set; [exact L|exact Hk|reflexivity|done|done|by rewrite Hlp|unfold child_of; by rewrite Hc|].
    by intros ?? ->.
Qed.

Lemma loops_ext t t' :
  loops t -> acts t' = acts t -> reevaluating t' = reevaluating t -> pending t' = pending t -> loops t'.
Proof. intros [L1 L2 L3] Ha Hr Hp. split; rewrite ?Ha, ?Hr, ?Hp; done. Qed.

Ltac loops_move L Hk :=
  first
  [ eapply loops_set; [exact L|exact Hk|reflexivity|reflexivity|by intros|reflexivity|reflexivity
                      |intros; simplify_eq; eauto]
  | eapply loops_del; [exact L|exact Hk|reflexivity..] ].

Lemma loops_failed t k p f o :
  loops t -> acts t !! k = Some p -> check_of p = Some (f, o) -> loops (check_failed k f o t).
Proof.
  intros L Hk Hc. unfold check_failed. destruct (stop t); [by eapply loops_done|].
  eapply loops_set; [exact L|exact Hk|reflexivity|done|done|by destruct p|unfold child_of; by rewrite Hc|].
  by intros ?? ->.
Qed.

(** The loop starts a re-check. *)
Lemma loops_start t k f todo running :
  fresh t -> loops t -> acts t !! k = Some (PReRun (f :: todo) running) ->
  loops (set_act k (PReRun todo ({[next t]} ∪ running)) (spawn (PCheck f 0 (ByLoop k)) t)).
Proof.
  intros F [L1 L2 L3] Hk. pose proof (fresh_act _ F) as Hn. assert (Hlt : k <> next t) by congruence.
  set (t' := set_act _ _ _).
  assert (Hold : forall j q, acts t' !! j = Some q -> (j = k /\ q = PReRun todo ({[next t]} ∪ running)) \/
    (j = next t /\ q = PCheck f 0 (ByLoop k)) \/ (j <> k /\ acts t !! j = Some q)).
  { intros j q Hj. unfold t' in Hj. act_cases; auto. cbn in Hj. act_cases; auto. }
  split.
  - intros E. destruct (L1 E) as [_ HL]. by specialize (HL _ _ Hk).
  - intros i j x y [[-> ->]|[[-> ->]|[? Hi]]]%Hold [[-> ->]|[[-> ->]|[? Hj]]]%Hold Hx Hy; try done; by eapply L2.
  - intros j q l [[-> ->]|[[-> ->]|[? Hj]]]%Hold Hq; [done|..].
    + injection Hq as <-. exists todo, ({[next t]} ∪ running). unfold t'. cbn. rewrite lookup_insert_eq. split; [done|set_solver].
    + destruct (L3 j q l Hj Hq) as (todo'&running'&Hl&Hj'). assert (l = k) as -> by (by eapply L2).
      rewrite Hk in Hl. injection Hl as <- <-. exists todo, ({[next t]} ∪ running). unfold t'. cbn.
      rewrite lookup_insert_eq. split; [done|set_solver].
Qed.

(** The loop is over, or takes up what came in meanwhile. *)
Lemma loops_end t k : loops t -> acts t !! k = Some PReEnd -> pending t = ∅ -> loops (del_act k (t_reevaluating false t)).
Proof.
  intros [L1 L2 L3] Hk Hp. split; cbn.
  - intros _. split; [done|]. intros j q Hj. act_cases. apply lookup_delete_Some in Hj as [Hne Hj].
    destruct (is_loop q) eqn:E; [|done]. by destruct (Hne (L2 k j _ q Hk Hj eq_refl E)).
  - intros i j x y [_ ?]%lookup_delete_Some [_ ?]%lookup_delete_Some. eauto.
  - intros j q l [_ Hj]%lookup_delete_Some Hq. destruct (L3 j q l Hj Hq) as (todo&running&Hl&Hin). exists todo, running.
    rewrite lookup_delete_ne; [done|]. intros <-. congruence.
Qed.

Lemma loops_turn t k p a t' : base t -> loops t -> acts t !! k = Some p -> turn k p a t = Some t' -> loops t'.
Proof.
  intros [F K] L Hk. destruct p; cbn [turn revoke_turn sweep_turn loop_turn recheck_turn confirm_turn]; try done; destruct a; try done; turn_cases;
    try solve [loops_move L Hk].
  - pose proof Heqp as (h&->&_)%(Revoke_heap _ _ _ _ _ F). loops_move L Hk.
  - eapply loops_set; [exact L|exact Hk|reflexivity|reflexivity|by intros|reflexivity|reflexivity|].
    intros todo' running' [= _ <-]. right. by bool_to_prop.
  - by apply loops_start.
  - apply loops_end; [done|done|]. by bool_to_prop.
  - unfold check_answer. destruct v; [|destruct (_ <? _)%nat; [loops_move L Hk|]|]; try by eapply loops_failed.
    set (t1 := t_checkedAt _ t). assert (L1 : loops t1) by (by eapply loops_ext). by eapply (loops_done t1).
  - by eapply loops_done.
  - by eapply loops_done.
  - destruct (revoked _); loops_move L Hk.
Qed.

Lemma loops_step t e t' : base t -> loops t -> step e t = Some t' -> loops t'.
Proof.
  intros B L. pose proof B as [F K]. destruct e as [org session c b|f|f c|org sessions|org|f e| | |k a]; cbn [step]; turn_cases.
  - unfold Track. assert (L1 : forall start, loops (add_flow org session c b start t)) by (intros; by eapply loops_ext).
    destruct (_ && _); [|done]. apply loops_spawn; [by apply base_add_flow|done..].
  - by eapply loops_ext.
  - unfold Attach. destruct (revoked _); [done|by eapply loops_ext].
  - destruct (base_revoke _ _ _ _ _ B Heqp) as [[F1 _] Ha]. pose proof Heqp as (h&->&_)%(Revoke_heap _ _ _ _ _ F).
    apply loops_spawn; [done|by eapply loops_ext|done..].
  - unfold Reevaluate. set (t2 := t_flushedAt _ _). destruct (reevaluating t2) eqn:E.
    + destruct L as [L1 L2 L3]. split; [intros E2; change (reevaluating t2 = false) in E2; congruence|done|done].
    + destruct L as [L1 L2 L3]. change (reevaluating t = false) in E. destruct (L1 E) as [Hp HL].
      pose proof (fresh_act _ F) as Hn. split; cbn.
      * done.
      * intros i j x y Hi Hj Hx Hy. act_cases; [done|..|by rewrite (HL _ _ Hi) in Hx].
        -- by rewrite (HL _ _ Hi) in Hx.
        -- by rewrite (HL _ _ Hj) in Hy.
      * intros j q l Hj Hq. act_cases; [done|]. destruct (L3 j q l Hj Hq) as (todo&running&Hl&_). by apply HL in Hl.
  - by apply loops_spawn.
  - by apply loops_spawn.
  - by eapply loops_ext.
  - destruct (acts t !! k) as [p|] eqn:Hk; [|done]. intros E. by eapply loops_turn.
Qed.

End FlowsSafety.
