(* ===== verification/FlowsCurrent.v ===== *)
(** * Flows and the flushes of policies

    After a flush of an organization every flow it concerns is re-checked, whoever
    decided on it before: the invariant behind [Epoch], [Confirm] and the re-evaluation
    loop of internal/connect/flows, and the theorems about the tracker. *)
From S2P Require Import Prelude Flows FlowsSafety.
Import Flows FlowsSafety.

Module FlowsCurrent.
Local Open Scope Z_scope.

(** A flow that has a re-check and is not revoked; one that is tracked besides. *)
Definition standing (t : Tracker) (f : nat) : Prop := revoked (flow t f) = false /\ recheck (flow t f) = true.
Definition live (t : Tracker) (f : nat) : Prop := f ∈ flows t /\ standing t f.

(** The flushes that concern a flow: those of its organization and of all. *)
Definition concerns (t : Tracker) (f : nat) (o : string) : Prop := o = orgID (flow t f) \/ o = "".

(** The epochs a flow stands on: when it was tracked, or what [Confirm] vouches for. *)
Definition claims (t : Tracker) (f : nat) (b : Z) : Prop :=
  born t !! f = Some b \/ confirmed t !! f = Some b \/ exists k p, acts t !! k = Some p /\ basis_of p = Some (f, b).

(** The re-evaluation an activity is going to bring to flow [f] after the flush [v] of [o]. *)
Definition brings (p : pc) (o : string) (f : nat) (v : Z) : Prop :=
  match p with
  | PReOnce orgs => o ∈ orgs
  | PReRun todo _ => f ∈ todo
  | PCheck g _ (ByLoop _) | PBackoff g _ (ByLoop _) => g = f
  | PCall g _ began (ByLoop _) => g = f /\ v <= began
  | _ => False
  end.

Definition scheduled (t : Tracker) (o : string) (f : nat) : Prop :=
  o ∈ pending t \/ exists k p, acts t !! k = Some p /\ brings p o f (flushed t o).

(** A re-check that began after the flush has passed. *)
Definition passed (t : Tracker) (f : nat) (v : Z) : Prop := exists c, checkedAt t !! f = Some c /\ v <= c.

Definition covered (t : Tracker) (f : nat) (o : string) (b : Z) : Prop :=
  flushed t o <= b \/ passed t f (flushed t o) \/ scheduled t o f.

(** What an activity of [Confirm] knows. *)
Definition wf (t : Tracker) (p : pc) : Prop :=
  match p with
  | PCheck _ _ (ByConfirm since) | PBackoff _ _ (ByConfirm since) => since <= epoch t
  | PCall _ _ began (ByConfirm since) => since <= began <= epoch t
  | PCheckClose f _ _ => revoked (flow t f) = true
  | PConfirmEnd f e true => stop t = false -> standing t f -> passed t f e
  | _ => True
  end.

Record cover (t : Tracker) : Prop := {
  c_flushed : forall o, flushed t o <= epoch t;
  c_wf : forall k p, acts t !! k = Some p -> wf t p;
  c_cover : stop t = false -> forall f o b, live t f -> concerns t f o -> claims t f b -> covered t f o b
}.

Lemma passed_mono t t' f v :
  (forall c, checkedAt t !! f = Some c -> exists c', checkedAt t' !! f = Some c' /\ c <= c') -> passed t f v -> passed t' f v.
Proof. intros Hm (c&Hc&?). destruct (Hm c Hc) as (c'&?&?). exists c'. split; [done|lia]. Qed.

(** A step that flushes nothing. *)
Lemma cover_next t t' :
  cover t -> flushedAt t' = flushedAt t -> epoch t' = epoch t -> stop t' = stop t ->
  (forall f, revoked (flow t f) = true -> revoked (flow t' f) = true) ->
  (forall f, standing t' f -> standing t f) -> (forall f, live t' f -> live t f /\ orgID (flow t' f) = orgID (flow t f)) ->
  (stop t = false -> forall f b, live t' f -> claims t' f b -> claims t f b \/ forall o, concerns t f o -> flushed t o <= b) ->
  (forall f c, checkedAt t !! f = Some c -> exists c', checkedAt t' !! f = Some c' /\ c <= c') ->
  (stop t = false -> forall f o, live t' f -> concerns t f o -> scheduled t o f ->
     scheduled t' o f \/ passed t' f (flushed t o)) ->
  (forall k p, acts t' !! k = Some p -> acts t !! k = Some p \/ wf t' p) -> cover t'.
Proof.
  intros [C1 C2 C3] Hf He Hst Hrev Hsta Hl Hc Hm Hs Ha.
  assert (Hfl : forall o, flushed t' o = flushed t o) by (intros o; unfold flushed; by rewrite Hf). split.
  - intros o. rewrite Hfl, He. apply C1.
  - intros k p Hk. destruct (Ha k p Hk) as [Hk'|?]; [|done]. specialize (C2 k p Hk').
    destruct p as [| | | | | | | | | | | |f e st|]; try done; cbn [wf] in *; rewrite ?He; try done; [by apply Hrev|].
    destruct st; [|done]. rewrite Hst. intros ? ?. eapply passed_mono; [by apply Hm|auto].
  - rewrite Hst. intros E f o b Lf Hco Hb. destruct (Hl f Lf) as [Lf' Ho].
    assert (Hco' : concerns t f o) by (unfold concerns in *; by rewrite <- Ho). unfold covered. rewrite Hfl.
    destruct (Hc E f b Lf Hb) as [Hb'|Hb']; [|left; auto].
    destruct (C3 E f o b Lf' Hco' Hb') as [?|[?|Hsc]]; [by left|right; left; eapply passed_mono; [by apply Hm|done]|].
    destruct (Hs E f o Lf Hco' Hsc); auto.
Qed.

(** The fields that only calls and finished re-checks change. *)
Record same (t t' : Tracker) : Prop := {
  s_flushed : flushedAt t' = flushedAt t;
  s_epoch : epoch t' = epoch t;
  s_stop : stop t' = stop t;
  s_heap : heap t' = heap t;
  s_flows : flows t' = flows t;
  s_born : born t' = born t;
  s_checked : checkedAt t' = checkedAt t;
  s_confirmed : confirmed t' = confirmed t
}.

Lemma same_flow t t' f : same t t' -> flow t' f = flow t f.
Proof. intros S. unfold flow. by rewrite (s_heap _ _ S). Qed.

Lemma same_standing t t' f : same t t' -> standing t' f <-> standing t f.
Proof. intros S. unfold standing. by rewrite (same_flow _ _ f S). Qed.

Lemma same_passed t t' f v : same t t' -> passed t' f v <-> passed t f v.
Proof. intros S. unfold passed. by rewrite (s_checked _ _ S). Qed.

Lemma same_flushed t t' o : same t t' -> flushed t' o = flushed t o.
Proof. intros S. unfold flushed. by rewrite (s_flushed _ _ S). Qed.

Lemma cover_same t t' :
  cover t -> same t t' ->
  (stop t = false -> forall k p f b, acts t' !! k = Some p -> basis_of p = Some (f, b) ->
     claims t f b \/ forall o, concerns t f o -> flushed t o <= b) ->
  (stop t = false -> forall f o, live t f -> concerns t f o -> scheduled t o f -> scheduled t' o f \/ passed t f (flushed t o)) ->
  (forall k p, acts t' !! k = Some p -> acts t !! k = Some p \/ wf t' p) -> cover t'.
Proof.
  intros C S Hc Hs Ha. pose proof S as [Hf He Hst Hh Hfl Hb Hck Hcf].
  assert (Hl : forall f, live t' f -> live t f) by (intros f [??]; split; [by rewrite <- Hfl|by apply (same_standing t t')]).
  apply (cover_next t); try done.
  - intros f. by rewrite (same_flow _ _ f S).
  - intros f. by apply same_standing.
  - intros f Lf. split; [auto|]. by rewrite (same_flow _ _ f S).
  - intros E f b Lf [?|[?|(k&p&Hk&Hp)]]; [left; left; congruence|left; right; left; congruence|by eapply Hc].
  - intros f c Hc'. rewrite Hck. exists c. split; [done|lia].
  - intros E f o Lf Hco Hsc. rewrite (same_passed t t' f _ S). auto.
Qed.

Lemma cover_set t t' k p p' :
  cover t -> same t t' -> acts t !! k = Some p -> acts t' = <[k := p']> (acts t) -> pending t' = pending t ->
  (stop t = false -> forall f b, basis_of p' = Some (f, b) ->
     basis_of p = Some (f, b) \/ forall o, concerns t f o -> flushed t o <= b) ->
  (stop t = false -> forall f o, live t f -> concerns t f o -> brings p o f (flushed t o) -> brings p' o f (flushed t o)) ->
  wf t' p' -> cover t'.
Proof.
  intros C S Hk Ha Hp Hb Hbr Hw. apply (cover_same t); [done|done| | |].
  - intros E j q f b. rewrite Ha. intros [[<- <-]|[_ Hj]]%lookup_insert_Some Hq; [|left; right; right; eauto].
    destruct (Hb E f b Hq); [left; right; right; eauto|by right].
  - intros E f o Lf Hco [?|(j&q&Hj&Hq)]; [left; left; by rewrite Hp|]. left. right. rewrite Ha.
    rewrite (same_flushed _ _ o S). destruct (decide (j = k)) as [->|].
    + rewrite Hk in Hj. injection Hj as <-. exists k, p'. rewrite lookup_insert_eq. auto.
    + exists j, q. by rewrite lookup_insert_ne.
  - intros j q. rewrite Ha. intros [[<- <-]|[_ Hj]]%lookup_insert_Some; auto.
Qed.

(** An activity that brings nothing any more ends. *)
Lemma cover_del t t' k p :
  cover t -> same t t' -> acts t !! k = Some p -> acts t' = delete k (acts t) -> pending t' = pending t ->
  (stop t = false -> forall f o, live t f -> concerns t f o -> brings p o f (flushed t o) -> passed t f (flushed t o)) ->
  cover t'.
Proof.
  intros C S Hk Ha Hp Hbr. apply (cover_same t); [done|done| | |].
  - intros E j q f b. rewrite Ha. intros [_ Hj]%lookup_delete_Some Hq. left. right. right. eauto.
  - intros E f o Lf Hco [?|(j&q&Hj&Hq)]; [left; left; by rewrite Hp|].
    destruct (decide (j = k)) as [->|]; [rewrite Hk in Hj; injection Hj as <-; right; auto|].
    left. right. rewrite Ha, (same_flushed _ _ o S). exists j, q. by rewrite lookup_delete_ne.
  - intros j q. rewrite Ha. intros [_ Hj]%lookup_delete_Some. auto.
Qed.

Lemma cover_done t k p f o :
  cover t -> acts t !! k = Some p -> check_of p = Some (f, o) ->
  (stop t = false -> forall o', live t f -> brings p o' f (flushed t o') -> passed t f (flushed t o')) ->
  (stop t = false -> forall since, o = ByConfirm since -> standing t f -> passed t f since) ->
  cover (check_done k f o t).
Proof.
  intros C Hk Hc Hbr Hsi. destruct (done_fields k f o t) as (Hh&Hf&_&_&Hp&He&Hfa&Hst&_&_&Hbo&Hck&Hcf&_).
  assert (S : same t (check_done k f o t)) by (by split).
  assert (Hb : forall q, q = p -> forall g o', brings q o' g (flushed t o') -> g = f).
  { intros q -> g o'. destruct p; try done; cbn in Hc; injection Hc as -> ->; cbn; destruct o; naive_solver. }
  apply (cover_same t); [done|done| | |].
  - intros E j q g b [[_ ?]|[(l&td&r&->&->&_&?&->)|(since&->&->&->)]]%act_done Hq; [left; right; right; eauto|done|].
    injection Hq as <- <-. left. right. right. exists k, p. split; [done|]. destruct p; try done; cbn in *; by simplify_eq.
  - intros E g o' Lg Hco [?|(j&q&Hj&Hq)]; [left; left; by rewrite Hp|].
    destruct (decide (j = k)) as [->|Hne].
    { rewrite Hk in Hj. injection Hj as <-. right. assert (g = f) as -> by eauto. auto. }
    left. right. rewrite (same_flushed _ _ o' S). destruct q as [| | | | |todo running| | | | | | | |] eqn:Eq;
      try (exists j; eexists; split; [apply done_keeps; [exact Hj|done|done]|exact Hq]).
    destruct (acts (check_done k f o t) !! j) as [x|] eqn:Hx.
    + pose proof Hx as [[_ ?]|[(l&td&r&->&->&_&Hl&->)|(since&_&->&_)]]%act_done; [..|done].
      * exists j, x. split; [done|]. by simplify_eq.
      * exists l, (PReRun td (r ∖ {[k]})). split; [done|]. by simplify_eq.
    + exfalso. revert Hx. destruct o as [l|since]; cbn [check_done]; [|cbn; by rewrite lookup_insert_ne, Hj by done].
      assert (Hd : acts (del_act k t) !! j = Some (PReRun todo running)) by (cbn; by rewrite lookup_delete_ne).
      destruct (acts (del_act k t) !! l) as [[]|]; rewrite ?Hd; try done.
      cbn. intros [? ?]%lookup_insert_None. cbn in Hd. congruence.
  - intros j q Hq. pose proof Hq as [[_ ?]|[(l&td&r&->&->&_&?&->)|(since&->&->&->)]]%act_done; [by left|by right|].
    right. cbn [wf]. rewrite Hst, (same_standing _ _ f S), (same_passed _ _ f _ S). eauto.
Qed.

(** Flows that are revoked, and activities for them. *)
Lemma cover_revoked t t' k p p' :
  cover t -> flushedAt t' = flushedAt t -> epoch t' = epoch t -> stop t' = stop t -> flows t' = flows t ->
  born t' = born t -> checkedAt t' = checkedAt t -> confirmed t' = confirmed t -> pending t' = pending t ->
  acts t' = <[k := p']> (acts t) -> (acts t !! k = None \/ acts t !! k = Some p) ->
  (forall f, flow t' f = flow t f \/ flow t' f = revoke_flow (flow t f)) ->
  (forall f b, basis_of p' = Some (f, b) -> acts t !! k = Some p /\ basis_of p = Some (f, b)) ->
  (forall f o, acts t !! k = Some p -> live t' f -> brings p o f (flushed t o) -> brings p' o f (flushed t o)) ->
  wf t' p' -> cover t'.
Proof.
  intros C Hf He Hst Hfl Hbo Hck Hcf Hp Ha Hk Hfw Hb Hbr Hw.
  assert (Hsta : forall f, standing t' f -> flow t' f = flow t f).
  { intros f [Hr _]. destruct (Hfw f) as [?|E]; [done|]. by rewrite E in Hr. }
  apply (cover_next t); try done.
  - intros f Hr. destruct (Hfw f) as [->| ->]; done.
  - intros f Sf. unfold standing. rewrite <- (Hsta f Sf). exact Sf.
  - intros f [? Sf]. rewrite (Hsta f Sf). split; [|done]. split; [by rewrite <- Hfl|]. unfold standing. rewrite <- (Hsta f Sf). exact Sf.
  - intros _ f b _ [?|[?|(j&q&Hj&Hq)]]; [left; left; congruence|left; right; left; congruence|].
    left. right. right. rewrite Ha in Hj. apply lookup_insert_Some in Hj as [[<- <-]|[_ Hj]]; [|eauto].
    destruct (Hb f b Hq). eauto.
  - intros f c Hc. rewrite Hck. exists c. split; [done|lia].
  - intros _ f o Lf _ [?|(j&q&Hj&Hq)]; [left; left; by rewrite Hp|].
    assert (Hfo : flushed t' o = flushed t o) by (unfold flushed; by rewrite Hf).
    left. right. rewrite Ha, Hfo. destruct (decide (j = k)) as [->|].
    + destruct Hk as [Hk|Hk]; [congruence|]. rewrite Hk in Hj. injection Hj as <-. exists k, p'. rewrite lookup_insert_eq. eauto.
    + exists j, q. by rewrite lookup_insert_ne.
  - intros j q. rewrite Ha. intros [[<- <-]|[_ Hj]]%lookup_insert_Some; auto.
Qed.

Lemma cover_failed t k p f o :
  cover t -> acts t !! k = Some p -> check_of p = Some (f, o) -> cover (check_failed k f o t).
Proof.
  intros C Hk Hc. unfold check_failed. destruct (stop t) eqn:E; [eapply cover_done; [done|exact Hk|exact Hc|congruence..]|].
  set (t' := set_act _ _ _).
  assert (Hfw : forall g, flow t' g = if decide (g = f) then revoke_flow (flow t f) else flow t g) by (intros g; apply flow_insert).
  apply (cover_revoked t t' k p (PCheckClose f (conns (flow t f)) o)); try done; [by right|..].
  - intros g. rewrite Hfw. destruct (decide (g = f)) as [->|]; auto.
  - intros g b Hb. split; [done|]. unfold basis_of in *. cbn [check_of] in Hb. destruct p; try done; cbn in *; by simplify_eq.
  - intros g o' _ [_ [Hr _]] Hb. rewrite Hfw in Hr. destruct (decide (g = f)); [done|]. exfalso.
    destruct p; try done; cbn in Hc; injection Hc as -> ->; cbn in Hb; destruct o; naive_solver.
  - cbn [wf]. rewrite Hfw. by rewrite decide_True.
Qed.

(** A re-check that began at [began] has passed. *)
Lemma cover_passed t k f attempt began o :
  cover t -> acts t !! k = Some (PCall f attempt began o) -> cover (check_answer k f attempt began o Passed t).
Proof.
  intros C Hk. cbn [check_answer]. set (t1 := t_checkedAt _ t).
  assert (Hc1 : checkedAt t1 !! f = Some (Z.max began (default 0 (checkedAt t !! f)))) by apply lookup_insert_eq.
  assert (C1 : cover t1).
  { apply (cover_next t); try done; try (intros; by left).
    intros g c Hg. destruct (decide (g = f)) as [->|]; [|exists c; split; [cbn; by rewrite lookup_insert_ne|lia]].
      rewrite Hc1, Hg. eexists. split; [done|]. cbn. lia. }
  eapply (cover_done t1 k (PCall f attempt began o)); [done|exact Hk|done| |].
  - intros _ o' _ Hb. cbn in Hb. destruct o; [|done]. eexists. split; [exact Hc1|].
    change (flushed t1 o') with (flushed t o') in *. lia.
  - intros _ since -> _. pose proof (c_wf _ C _ _ Hk) as Hw. cbn in Hw. eexists. split; [exact Hc1|lia].
Qed.

Ltac cover_move C Hk :=
  first
  [ eapply cover_set; [exact C|by split|exact Hk|reflexivity|reflexivity|by left|by intros|done]
  | eapply cover_del; [exact C|by split|exact Hk|reflexivity|reflexivity|by intros] ].

(** The loop starts a re-check. *)
Lemma cover_start t k f todo running :
  fresh t -> cover t -> acts t !! k = Some (PReRun (f :: todo) running) ->
  cover (set_act k (PReRun todo ({[next t]} ∪ running)) (spawn (PCheck f 0 (ByLoop k)) t)).
Proof.
  intros F C Hk. pose proof (fresh_act _ F) as Hn. assert (Hne : k <> next t) by congruence.
  set (t' := set_act _ _ _).
  assert (Hold : forall j q, acts t' !! j = Some q -> (j = k /\ q = PReRun todo ({[next t]} ∪ running)) \/
    (j = next t /\ q = PCheck f 0 (ByLoop k)) \/ (j <> k /\ acts t !! j = Some q)).
  { intros j q Hj. unfold t' in Hj. act_cases; auto. cbn in Hj. act_cases; auto. }
  apply (cover_same t); [done|by split| | |].
  - intros _ j q g b [[-> ->]|[[-> ->]|[_ Hj]]]%Hold Hq; [done|done|]. left. right. right. eauto.
  - intros _ g o Lg Hco [?|(j&q&Hj&Hq)]; [by left; left|]. left. right. change (flushed t' o) with (flushed t o).
    destruct (decide (j = k)) as [->|].
    + rewrite Hk in Hj. injection Hj as <-. cbn in Hq. apply elem_of_cons in Hq as [->|Hq].
      * exists (next t), (PCheck f 0 (ByLoop k)). unfold t'. cbn. rewrite lookup_insert_ne by done. by rewrite lookup_insert_eq.
      * exists k, (PReRun todo ({[next t]} ∪ running)). unfold t'. cbn. by rewrite lookup_insert_eq.
    + exists j, q. unfold t'. cbn. rewrite !lookup_insert_ne; [done|congruence|done].
  - intros j q [[-> ->]|[[-> ->]|[_ Hj]]]%Hold; [by right|by right|by left].
Qed.

Lemma checks_concern orgs t f o : live t f -> concerns t f o -> o ∈ orgs -> f ∈ checks orgs t.
Proof.
  intros [Hf [Hr Hc]] Hco Ho. apply list_elem_of_filter. split; [|by apply elem_of_elements].
  split; [|done]. split; [|done]. destruct Hco as [->| ->]; auto.
Qed.

(** The loop takes up the flushes that came in meanwhile. *)
Lemma cover_again t k : cover t -> acts t !! k = Some PReEnd -> cover (set_act k (PReOnce (pending t)) (t_pending ∅ t)).
Proof.
  intros C Hk. apply (cover_same t); [done|by split| | |].
  - intros _ j q g b Hj Hq. act_cases; [done|]. left. right. right. eauto.
  - intros _ g o Lg Hco [Ho|(j&q&Hj&Hq)]; left; right.
    + exists k, (PReOnce (pending t)). cbn. by rewrite lookup_insert_eq.
    + exists j, q. cbn. rewrite lookup_insert_ne; [done|]. intros <-. rewrite Hk in Hj. by injection Hj as <-.
  - intros j q Hj. act_cases; [by right|by left].
Qed.

(** [Confirm] returns. *)
Lemma cover_confirmed t k f e st :
  cover t -> acts t !! k = Some (PConfirmEnd f e st) ->
  cover (del_act k (t_confirmed (<[f := e]> (confirmed t)) t)).
Proof.
  intros C Hk. apply (cover_next t); try done; try (intros; by left).
  - intros _ g b _ [?|[Hg|(j&q&Hj&Hq)]]; [by left; left|..].
    + cbn in Hg. apply lookup_insert_Some in Hg as [[<- <-]|[_ ?]]; [|by left; right; left].
      left. right. right. by eexists _, _.
    + act_cases. left. right. right. eauto.
  - intros g c Hg. exists c. split; [done|lia].
  - intros _ g o _ _ [?|(j&q&Hj&Hq)]; [by left; left|]. left. right. exists j, q. cbn.
    rewrite lookup_delete_ne; [done|]. intros <-. rewrite Hk in Hj. by injection Hj as <-.
  - intros j q Hj. act_cases. by left.
Qed.

Lemma cover_turn t k p a t' : base t -> cover t -> acts t !! k = Some p -> turn k p a t = Some t' -> cover t'.
Proof.
  intros [F K] C Hk. pose proof (c_wf _ C _ _ Hk) as Hw.
  destruct p; cbn [turn revoke_turn sweep_turn loop_turn recheck_turn confirm_turn]; try done; destruct a; try done; turn_cases; try solve [cover_move C Hk].
  - pose proof Heqp as (h&->&_&Hf)%(Revoke_heap _ _ _ _ _ F).
    eapply (cover_revoked t _ k (PSweepRefs ((s, s0) :: refs)) (PSweepClose l refs)); try done; [by right|]. intros f. destruct (Hf f) as [?|[? _]]; auto.
  - eapply cover_set; [exact C|by split|exact Hk|reflexivity|reflexivity|by left| |done].
    intros _ f o Lf Hco Ho. by eapply checks_concern.
  - eapply cover_set; [exact C|by split|exact Hk|reflexivity|reflexivity|by left| |done].
    by intros _ f o _ _ ?%not_elem_of_nil.
  - by apply cover_start.
  - by apply cover_again.
  - eapply cover_set; [exact C|by split|exact Hk|reflexivity|reflexivity|by left| |].
    + intros _ g o' _ _ Hb. destruct o; [|destruct Hb]. cbn in *. split; [done|]. apply (c_flushed _ C).
    + destruct o; [done|]. cbn in *. lia.
  - destruct v; [by apply cover_passed| |by eapply cover_failed]. cbn [check_answer].
    destruct (_ <? _)%nat; [|by eapply cover_failed].
    eapply cover_set; [exact C|by split|exact Hk|reflexivity|reflexivity|by left| |].
    + intros _ g o' _ _ Hb. destruct o; [|destruct Hb]. cbn in *. tauto.
    + destruct o; [done|]. cbn in *. lia.
  - eapply cover_done; [done|exact Hk|done|congruence..].
  - eapply cover_done; [done|exact Hk|done|by intros|]. intros _ since _ [? _]. cbn in Hw. congruence.
  - eapply cover_set; [exact C|by split|exact Hk|reflexivity|reflexivity| |by intros|cbn; lia].
    intros _ g b [= <- <-]. right. intros o _. apply (c_flushed _ C).
  - eapply cover_set; [exact C|by split|exact Hk|reflexivity|reflexivity| |by intros|].
    + intros _ g b [= <- <-]. right. intros o _. apply (c_flushed _ C).
    + cbn. intros _ [_ Hr]. unfold flow in *. cbn in Hr. congruence.
  - eapply cover_set; [exact C|by split|exact Hk|reflexivity|reflexivity| |by intros|done].
    intros _ g b [= <- <-]. right. unfold stale in *. bool_to_prop. intros o [->| ->]; lia.
  - destruct (revoked _); [cover_move C Hk|by eapply cover_confirmed].
Qed.

(** ** Calls *)

Lemma cover_spawn t p :
  fresh t -> cover t -> (forall f b, basis_of p = Some (f, b) -> False) -> wf t p -> cover (spawn p t).
Proof.
  intros F C Hb Hw. pose proof (fresh_act _ F) as Hn. apply (cover_same t); [done|by split| | |].
  - intros _ j q g b Hj Hq. cbn in Hj. act_cases; [by destruct (Hb _ _ Hq)|]. left. right. right. eauto.
  - intros _ g o _ _ [?|(j&q&Hj&Hq)]; [by left; left|]. left. right. exists j, q. cbn.
    rewrite lookup_insert_ne; [done|]. congruence.
  - intros j q Hj. cbn in Hj. act_cases; [by right|by left].
Qed.

Lemma cover_add_flow t org session c b start :
  base t -> cover t -> (forall f e, born t !! f = Some e -> is_Some (heap t !! f)) ->
  (forall f e, confirmed t !! f = Some e -> is_Some (heap t !! f)) -> cover (add_flow org session c b start t).
Proof.
  intros [F K] [C1 C2 C3] Hbo Hcf. set (t' := add_flow org session c b start t).
  assert (Hf : heap t !! next t = None).
  { destruct (heap t !! next t) eqn:E; [|done]. destruct F as (_&F2&_). apply F2 in E. lia. }
  assert (Hfw : forall f, f <> next t -> flow t' f = flow t f).
  { intros f Hne. unfold flow. cbn. by rewrite lookup_insert_ne by done. }
  assert (Href : forall k p f, acts t !! k = Some p -> f ∈ refs_of p -> f <> next t).
  { intros k p f Hk Hin ->. destruct (K _ _ _ Hk Hin). congruence. }
  split.
  - exact C1.
  - intros k p Hk. specialize (C2 k p Hk). destruct p as [| | | | | | | | | |f d o| |f e st|]; try done; cbn [wf] in *.
    + rewrite Hfw; [done|]. eapply Href; [exact Hk|by left].
    + destruct st; [|done]. unfold standing. rewrite Hfw; [done|]. eapply Href; [exact Hk|by left].
  - intros E f o e [Hin Hsta] Hco Hcl. destruct (decide (f = next t)) as [->|Hne].
    + destruct Hcl as [Hb|[Hb|(k&p&Hk&Hp)]].
      * cbn in Hb. rewrite lookup_insert_eq in Hb. injection Hb as <-. left. apply C1.
      * apply Hcf in Hb as [??]. congruence.
      * exfalso. eapply Href; [exact Hk| |done]. destruct p; try done; cbn in Hp; try destruct o0; try done; simplify_eq; by left.
    + assert (Lf : live t f).
      { split; [|unfold standing in *; by rewrite <- Hfw]. cbn in Hin. set_solver. }
      assert (Hco' : concerns t f o) by (unfold concerns in *; by rewrite <- Hfw).
      apply (C3 E f o e Lf Hco'). destruct Hcl as [Hb|?]; [|by right]. left. cbn in Hb. by rewrite lookup_insert_ne in Hb.
Qed.

(** What [Reevaluate] does, whether it starts a loop or not. *)
Record flush (org : string) (t t' : Tracker) : Prop := {
  f_epoch : epoch t' = epoch t + 1;
  f_flushed : forall o, flushed t' o = if decide (o = org) then epoch t + 1 else flushed t o;
  f_heap : heap t' = heap t;
  f_rest : flows t' = flows t /\ born t' = born t /\ checkedAt t' = checkedAt t /\ confirmed t' = confirmed t /\ stop t' = stop t;
  f_keeps : forall k p, acts t !! k = Some p -> acts t' !! k = Some p;
  f_acts : forall k p, acts t' !! k = Some p -> acts t !! k = Some p \/ p = PReOnce {[org]};
  f_pending : pending t ⊆ pending t';
  f_sched : forall f, scheduled t' org f
}.

Lemma Reevaluate_flush org t : fresh t -> 0 <= epoch t < 2 ^ 64 - 1 -> flush org t (Reevaluate org t).
Proof.
  intros F Hlt. pose proof (fresh_act _ F) as Hn. unfold Reevaluate. set (t2 := t_flushedAt _ _).
  assert (He : epoch t2 = epoch t + 1) by (cbn; by rewrite Z.mod_small by lia).
  assert (Hfl : forall o, flushed t2 o = if decide (o = org) then epoch t + 1 else flushed t o).
  { intros o. unfold flushed. cbn. destruct (decide (o = org)) as [->|];
      [rewrite lookup_insert_eq; cbn; by rewrite Z.mod_small by lia|by rewrite lookup_insert_ne]. }
  destruct (reevaluating t2); split; try done.
  - by left.
  - cbn. set_solver.
  - intros f. left. cbn. set_solver.
  - intros k p Hk. cbn. rewrite lookup_insert_ne; [done|]. cbn. congruence.
  - intros k p. cbn. intros [[_ <-]|[_ ?]]%lookup_insert_Some; auto.
  - intros f. right. exists (next t), (PReOnce {[org]}). cbn. rewrite lookup_insert_eq. split; [done|]. set_solver.
Qed.

Lemma cover_flush t t' org : cover t -> flush org t t' -> cover t'.
Proof.
  intros [C1 C2 C3] [He Hfl Hh (Hfs&Hb&Hck&Hcf&Hst) Hkeep Hold Hpend Hsched].
  assert (Hfw : forall f, flow t' f = flow t f) by (intros f; unfold flow; by rewrite Hh). split.
  - intros o. rewrite Hfl, He. specialize (C1 o). destruct (decide _); lia.
  - intros k p [Hk| ->]%Hold; [|done]. specialize (C2 k p Hk).
    destruct p as [| | | | | | |f a o|f a b o|f a o|f d o| |f e st|]; try done; cbn [wf] in *; try (destruct o; [done|lia]).
    + by rewrite Hfw.
    + destruct st; [|done]. unfold standing, passed. by rewrite Hfw, Hck, Hst.
  - intros E f o b [Hin Hsta] Hco Hcl. destruct (decide (o = org)) as [->|Hne]; [right; right; apply Hsched|].
    assert (Hcv : covered t f o b).
    { apply C3; [congruence|split; [by rewrite <- Hfs|unfold standing in *; by rewrite <- Hfw]|unfold concerns in *; by rewrite <- Hfw|].
      destruct Hcl as [?|[?|(k&p&Hk&Hp)]]; [left; congruence|right; left; congruence|].
      right. right. destruct (Hold k p Hk) as [?| ->]; [eauto|done]. }
    unfold covered, passed. rewrite Hfl, decide_False, Hck by done.
    destruct Hcv as [?|[?|[?|(k&p&Hk&Hp)]]]; [by left|by right; left|right; right; left; by apply Hpend|].
    right. right. right. exists k, p. rewrite Hfl, decide_False by done. auto.
Qed.

(** History is about flows there are. *)
Definition historic (t : Tracker) : Prop :=
  (forall f e, born t !! f = Some e -> is_Some (heap t !! f)) /\
  (forall f e, confirmed t !! f = Some e -> is_Some (heap t !! f)).

Lemma historic_keep t t' :
  historic t -> born t' = born t -> confirmed t' = confirmed t -> (forall f, is_Some (heap t !! f) -> is_Some (heap t' !! f)) ->
  historic t'.
Proof. intros [H1 H2] Hb Hc Hh. split; intros f e; rewrite ?Hb, ?Hc; eauto. Qed.

(** What every turn keeps: the flows there were, the epochs, who has a checker. *)
Record keeps (t t' : Tracker) : Prop := {
  k_heap : forall f, is_Some (heap t !! f) -> is_Some (heap t' !! f);
  k_flow : forall f, sessionID (flow t' f) = sessionID (flow t f);
  k_born : born t' = born t;
  k_epoch : epoch t' = epoch t;
  k_checker : checker t' = checker t;
  k_flows : flows t' = flows t;
  k_stop : stop t' = stop t
}.

Lemma keeps_revoked t f : keeps t (t_heap (<[f := revoke_flow (flow t f)]> (heap t)) t).
Proof.
  split; try done.
  - intros g Hg. cbn. destruct (decide (g = f)) as [->|]; [rewrite lookup_insert_eq; by eexists|by rewrite lookup_insert_ne].
  - intros g. rewrite flow_insert. by destruct (decide (g = f)) as [->|].
Qed.

Lemma keeps_done t k f o : keeps t (check_done k f o t).
Proof.
  destruct (done_fields k f o t) as (Hh&Hf&_&_&_&He&_&Hst&_&_&Hb&_&_&Hc).
  split; try done; [by rewrite Hh|intros g; unfold flow; by rewrite Hh].
Qed.

Lemma keeps_failed t k f o : keeps t (check_failed k f o t).
Proof.
  unfold check_failed. destruct (stop t); [apply keeps_done|].
  destruct (keeps_revoked t f). by split.
Qed.

Lemma keeps_revoke t t' doomed org sessions : fresh t -> Revoke org sessions t = (doomed, t') -> keeps t t'.
Proof.
  intros F (h&->&Hh&Hf)%(Revoke_heap _ _ _ _ _ F). split; try done; [intros f ?; by apply Hh|].
  intros f. by destruct (Hf f) as [->|[-> _]].
Qed.

Lemma keeps_turn t k p a t' : fresh t -> turn k p a t = Some t' -> keeps t t'.
Proof.
  intros F. destruct p; cbn [turn revoke_turn sweep_turn loop_turn recheck_turn confirm_turn]; try done; destruct a; try done; turn_cases; try (by split).
  - apply (keeps_revoke _ _ _ _ _ F) in Heqp. destruct Heqp. by split.
  - unfold check_answer. destruct v; [|destruct (_ <? _)%nat; [by split|]|]; try apply keeps_failed.
    match goal with |- keeps t (check_done _ _ _ ?t1) => destruct (keeps_done t1 k f o) end. by split.
  - apply keeps_done.
  - apply keeps_done.
  - destruct (revoked _); by split.
Qed.

Lemma historic_turn t k p a t' : base t -> historic t -> acts t !! k = Some p -> turn k p a t = Some t' -> historic t'.
Proof.
  intros [F K] [H1 H2] Hk E. pose proof (keeps_turn _ _ _ _ _ F E) as [Kh _ Kb _ _ _ _].
  split; [intros f e; rewrite Kb; eauto|]. revert E.
  assert (Hd : forall k f o t1, confirmed (check_done k f o t1) = confirmed t1) by (intros; apply done_fields).
  assert (Hf : forall k f o t1, confirmed (check_failed k f o t1) = confirmed t1).
  { intros. unfold check_failed. destruct (stop t1); [apply Hd|done]. }
  assert (Hsame : confirmed t' = confirmed t -> forall f e, confirmed t' !! f = Some e -> is_Some (heap t' !! f)).
  { intros E f e. rewrite E. eauto. }
  destruct p; cbn [turn revoke_turn sweep_turn loop_turn recheck_turn confirm_turn]; try done; destruct a; try done; turn_cases; try (by apply Hsame).
  - apply Hsame. apply (Revoke_heap _ _ _ _ _ F) in Heqp as (h&->&_). done.
  - apply Hsame. unfold check_answer. destruct v; [by rewrite Hd| |by rewrite Hf]. destruct (_ <? _)%nat; [done|by rewrite Hf].
  - destruct (revoked _); [by apply Hsame|]. intros g e'. cbn. intros [[<- <-]|[_ ?]]%lookup_insert_Some; [|eauto].
    eapply K; [exact Hk|by left].
Qed.

(** ** Watching sessions *)

Record watch (t : Tracker) : Prop := {
  w_sweep : sweeping t = true -> exists k p, acts t !! k = Some p /\ is_sweep p = true;
  w_need : checker t = true -> stop t = false -> forall f, f ∈ flows t -> sessionID (flow t f) <> "" -> sweeping t = true
}.

(** Activities that are no sweep may do what they like. *)
Lemma watch_next t t' :
  watch t -> (sweeping t' = sweeping t) -> (checker t' = checker t) -> (stop t = true -> stop t' = true) ->
  (forall f, f ∈ flows t' -> f ∈ flows t) -> (forall f, sessionID (flow t' f) = sessionID (flow t f)) ->
  (forall k p, acts t !! k = Some p -> is_sweep p = true -> exists j q, acts t' !! j = Some q /\ is_sweep q = true) -> watch t'.
Proof.
  intros [W1 W2] Hs Hc Hst Hf Hfl Ha. split.
  - rewrite Hs. intros (k&p&Hk&Hp)%W1. eauto.
  - rewrite Hs, Hc. intros Hch E f Hin. rewrite Hfl. apply W2; [done| |auto].
    destruct (stop t) eqn:E2; [|done]. rewrite Hst in E by done. done.
Qed.

Lemma sweep_set t t' k p p' :
  acts t !! k = Some p -> acts t' = <[k := p']> (acts t) -> is_sweep p' = is_sweep p ->
  forall j q, acts t !! j = Some q -> is_sweep q = true -> exists i x, acts t' !! i = Some x /\ is_sweep x = true.
Proof.
  intros Hk Ha Hp j q Hj Hq. destruct (decide (j = k)) as [->|].
  - exists k, p'. rewrite Ha, lookup_insert_eq. rewrite Hk in Hj. injection Hj as ->. split; [done|congruence].
  - exists j, q. by rewrite Ha, lookup_insert_ne.
Qed.

Lemma sweep_del t t' k p :
  acts t !! k = Some p -> acts t' = delete k (acts t) -> is_sweep p = false ->
  forall j q, acts t !! j = Some q -> is_sweep q = true -> exists i x, acts t' !! i = Some x /\ is_sweep x = true.
Proof.
  intros Hk Ha Hp j q Hj Hq. exists j, q. rewrite Ha, lookup_delete_ne; [done|]. intros <-. congruence.
Qed.

Lemma sweep_done t k p f o :
  acts t !! k = Some p -> is_sweep p = false ->
  forall j q, acts t !! j = Some q -> is_sweep q = true -> exists i x, acts (check_done k f o t) !! i = Some x /\ is_sweep x = true.
Proof.
  intros Hk Hp j q Hj Hq. exists j, q. split; [|done]. apply done_keeps; [done|congruence|]. by intros ?? ->.
Qed.

Lemma watch_turn t k p a t' : base t -> watch t -> acts t !! k = Some p -> turn k p a t = Some t' -> watch t'.
Proof.
  intros [F K] W Hk E. pose proof (keeps_turn _ _ _ _ _ F E) as [_ Kf _ _ Kc Kfl Kst].
  assert (Hgo : sweeping t' = sweeping t ->
    (forall j q, acts t !! j = Some q -> is_sweep q = true -> exists i x, acts t' !! i = Some x /\ is_sweep x = true) -> watch t').
  { intros Hs Ha. apply (watch_next t); try done; [congruence|by rewrite Kfl]. }
  assert (Hd : forall o f t1, acts t1 = acts t -> is_sweep p = false -> sweeping (check_done k f o t1) = sweeping t1 /\
    forall j q, acts t !! j = Some q -> is_sweep q = true -> exists i x, acts (check_done k f o t1) !! i = Some x /\ is_sweep x = true).
  { intros o f t1 Ha Hp. split; [apply done_fields|]. rewrite <- Ha. rewrite <- Ha in Hk. by eapply sweep_done. }
  revert E. destruct p; cbn [turn revoke_turn sweep_turn loop_turn recheck_turn confirm_turn]; try done; destruct a; try done; turn_cases;
    try (apply Hgo; [done|first [by eapply sweep_set|by eapply sweep_del]]).
  - split; [done|]. intros _ _ f Hf. exfalso. cbn in Hf. bool_to_prop. set_solver.
  - split; [done|]. cbn. congruence.
  - pose proof Heqp as (h&->&_)%(Revoke_heap _ _ _ _ _ F). apply Hgo; [done|by eapply sweep_set].
  - apply Hgo; [done|]. intros j q Hj Hq. exists j, q. split; [|done]. cbn. pose proof (fresh_act _ F).
    rewrite !lookup_insert_ne; [done|congruence|]. intros <-. rewrite Hk in Hj. by injection Hj as <-.
  - revert Hgo. unfold check_answer.
    assert (Hfail : (sweeping (check_failed k f o t) = sweeping t -> (forall j q, acts t !! j = Some q -> is_sweep q = true ->
      exists i x, acts (check_failed k f o t) !! i = Some x /\ is_sweep x = true) -> watch (check_failed k f o t)) ->
      watch (check_failed k f o t)).
    { intros Hgo. unfold check_failed in *. destruct (stop t); [destruct (Hd o f t); auto|].
      apply Hgo; [done|by eapply sweep_set]. }
    destruct v; [|destruct (_ <? _)%nat; [|done]|done]; intros Hgo.
    + match goal with |- watch (check_done _ _ _ ?t1) => destruct (Hd o f t1) as [Hsw Hx]; [done..|] end.
      apply Hgo; [exact Hsw|exact Hx].
    + apply Hgo; [done|by eapply sweep_set].
  - destruct (Hd o f t); auto.
  - destruct (Hd o f t); auto.
  - destruct (revoked _); (apply Hgo; [done|by eapply sweep_del]).
Qed.

(** ** Every step *)

Record good (t : Tracker) : Prop := {
  g_base : base t;
  g_closing : closing t;
  g_loops : loops t;
  g_cover : cover t;
  g_historic : historic t;
  g_watch : watch t
}.

Lemma watch_spawn t p : fresh t -> watch t -> watch (spawn p t).
Proof.
  intros F W. apply (watch_next t); try done. intros k q Hk Hq. exists k, q. split; [|done]. cbn.
  rewrite lookup_insert_ne; [done|]. intros <-. by rewrite (fresh_act _ F) in Hk.
Qed.

Lemma watch_track t org session c b : fresh t -> watch t -> watch (Track org session c b t).
Proof.
  intros F [W1 W2]. unfold Track. set (start := _ && _).
  assert (Hf : heap t !! next t = None).
  { destruct (heap t !! next t) eqn:E; [|done]. destruct F as (_&F2&_). apply F2 in E. lia. }
  assert (Hw : forall t1, sweeping t1 = (sweeping t || start)%bool -> checker t1 = checker t -> stop t1 = stop t ->
    flows t1 = {[next t]} ∪ flows t -> heap t1 = <[next t := mkFlow org session b [c] false]> (heap t) ->
    (sweeping t1 = true -> exists k p, acts t1 !! k = Some p /\ is_sweep p = true) -> watch t1).
  { intros t1 Hs Hc Hst Hfl Hh Hsw. split; [done|]. rewrite Hs, Hc, Hst, Hfl. intros Hch E f.
    unfold flow. rewrite Hh. intros [->%elem_of_singleton|Hin]%elem_of_union.
    - rewrite lookup_insert_eq. cbn. intros Hne. unfold start. rewrite Hch, bool_decide_false by done. by destruct (sweeping t).
    - destruct (decide (f = next t)) as [->|Hne]; [destruct F as (_&_&F3); apply F3 in Hin as [??]; congruence|].
      rewrite lookup_insert_ne by done. intros Hse. by rewrite (W2 Hch E f Hin Hse). }
  destruct start; apply Hw; try done.
  - intros _. exists (S (next t)), PSweepWait. cbn. by rewrite lookup_insert_eq.
  - cbn. rewrite orb_false_r. intros (k&p&Hk&Hp)%W1. exists k, p. done.
Qed.

Lemma historic_track t org session c b : historic t -> historic (Track org session c b t).
Proof.
  intros [H1 H2]. unfold Track.
  assert (Hh : forall start, historic (add_flow org session c b start t)).
  { intros start. split; intros f e; cbn.
    - intros [[<- _]|[Hne ?]]%lookup_insert_Some; [rewrite lookup_insert_eq; by eexists|rewrite lookup_insert_ne by done; eauto].
    - intros ?%H2. destruct (decide (f = next t)) as [->|]; [rewrite lookup_insert_eq; by eexists|by rewrite lookup_insert_ne]. }
  destruct (_ && _); [|done]. eapply historic_keep; [apply (Hh true)|done..].
Qed.

Lemma good_track t org session c b : good t -> good (Track org session c b t).
Proof.
  intros [B C L V H W]. pose proof B as [F K]. split; [by apply base_track|..|by apply historic_track|by apply watch_track].
  - by eapply (closing_step t (CTrack org session c b)).
  - by eapply (loops_step t (CTrack org session c b)).
  - destruct H as [H1 H2]. unfold Track. destruct (_ && _); [|by apply cover_add_flow].
    apply cover_spawn; [by apply base_add_flow|by apply cover_add_flow|done..].
Qed.

Lemma good_attach t f c : good t -> is_Some (heap t !! f) -> good (Attach f c t).2.
Proof.
  intros [B C L V H W] Hf.
  assert (E : step (CAttach f c) t = Some (Attach f c t).2) by (cbn; by rewrite bool_decide_true by done).
  split; [by apply base_attach|by eapply closing_step|by eapply loops_step|..]; clear E; unfold Attach;
    destruct (revoked (flow t f)) eqn:Er; try done; cbn [snd]; set (t' := t_heap _ t).
  all: assert (Hfw : forall g, flow t' g = if decide (g = f) then mkFlow (orgID (flow t f)) (sessionID (flow t f)) (recheck (flow t f))
    (conns (flow t f) ++ [c]) false else flow t g) by (intros g; apply flow_insert).
  - assert (Hst : forall g, standing t' g -> standing t g).
    { intros g. unfold standing. rewrite Hfw. destruct (decide (g = f)) as [->|]; [|done]. by intros [_ ?]. }
    apply (cover_next t); try done; try (intros; by left).
    + intros g Hg. rewrite Hfw. destruct (decide (g = f)) as [->|]; [congruence|done].
    + intros g [? ?]. split; [split; auto|]. rewrite Hfw. by destruct (decide (g = f)) as [->|].
    + intros g x Hx. exists x. split; [done|lia].
  - eapply historic_keep; [exact H|done|done|]. intros g Hg. cbn. destruct (decide (g = f)) as [->|];
      [rewrite lookup_insert_eq; by eexists|by rewrite lookup_insert_ne].
  - apply (watch_next t); try done; [|eauto]. intros g. rewrite Hfw. by destruct (decide (g = f)) as [->|].
Qed.

Lemma good_spawn t p :
  good t -> (forall f, f ∈ refs_of p -> is_Some (heap t !! f)) -> is_loop p = false -> child_of p = None ->
  basis_of p = None -> wf t p -> good (spawn p t).
Proof.
  intros [B C L V H W] Hr Hl Hc Hb Hw. pose proof B as [F K].
  split; [by apply base_spawn|by apply closing_spawn|by apply loops_spawn|apply cover_spawn; try done; congruence
         |by eapply historic_keep|by apply watch_spawn].
Qed.

Lemma good_revoke t t' doomed org sessions : good t -> Revoke org sessions t = (doomed, t') -> good (spawn (PRevokeClose doomed) t').
Proof.
  intros [B C L V H W] E. pose proof B as [F K].
  assert (Es : step (CRevoke org sessions) t = Some (spawn (PRevokeClose doomed) t')) by (cbn; by rewrite E).
  destruct (base_revoke _ _ _ _ _ B E) as [[F1 _] Ha]. pose proof (keeps_revoke _ _ _ _ _ F E) as [Kh Kf Kb _ Kc Kfl Kst].
  pose proof E as (h&->&_&Hf)%(Revoke_heap _ _ _ _ _ F).
  split; [by eapply base_step|by eapply closing_step|by eapply loops_step|..].
  - eapply (cover_revoked t _ (next t) PWait (PRevokeClose doomed)); try done.
    + left. by apply fresh_act.
    + intros f. destruct (Hf f) as [?|[? _]]; auto.
  - eapply historic_keep; [exact H|done..].
  - apply watch_spawn; [done|]. eapply watch_next; [exact W|done..|by eauto].
Qed.

Lemma good_flush t org : good t -> 0 <= epoch t < 2 ^ 64 - 1 -> good (Reevaluate org t).
Proof.
  intros [B C L V H W] Hlt. pose proof B as [F K]. pose proof (Reevaluate_flush org t F Hlt) as Hfl.
  assert (Es : step (CReevaluate org) t = Some (Reevaluate org t)) by done.
  split; [by eapply base_step|by eapply closing_step|by eapply loops_step|by eapply cover_flush|..].
  - destruct Hfl as [_ _ Hh (_&Hb&_&Hc&_) _ _ _ _]. eapply historic_keep; [exact H|done|done|by rewrite Hh].
  - destruct Hfl as [_ _ Hh (Hfs&_&_&_&Hst) Hkeep _ _ _]. apply (watch_next t); [done|..|by eauto].
    + unfold Reevaluate. by destruct (reevaluating _).
    + unfold Reevaluate. by destruct (reevaluating _).
    + by rewrite Hst.
    + by rewrite Hfs.
    + intros f. unfold flow. by rewrite Hh.
Qed.

Lemma good_turn t k p a t' : good t -> acts t !! k = Some p -> turn k p a t = Some t' -> good t'.
Proof.
  intros [B C L V H W] Hk E. split; [by eapply base_turn|by eapply closing_turn|by eapply loops_turn|by eapply cover_turn
    |by eapply historic_turn|by eapply watch_turn].
Qed.

Lemma good_step t e t' : good t -> 0 <= epoch t < 2 ^ 64 - 1 -> step e t = Some t' -> good t'.
Proof.
  intros G Hlt. destruct e as [org session c b|f|f c|org sessions|org|f e| | |k a]; cbn [step]; turn_cases.
  - by apply good_track.
  - destruct G as [B C L V H W]. split; try done; [by eapply (base_step t (CUntrack f))|by eapply loops_ext|..].
    + apply (cover_next t); try done; try (intros; by left).
      * intros g [Hg ?]. split; [|done]. split; [|done]. cbn in Hg. set_solver.
      * intros g x Hx. exists x. split; [done|lia].
    + apply (watch_next t); try done; [cbn; set_solver|eauto].
  - apply good_attach; [done|]. by bool_to_prop.
  - by eapply good_revoke.
  - by apply good_flush.
  - apply good_spawn; try done. intros g ->%list_elem_of_singleton. by bool_to_prop.
  - apply good_spawn; try done. by intros ? ?%not_elem_of_nil.
  - destruct G as [B C L V H W]. split; try done; [by eapply loops_ext|..].
    + destruct V as [V1 V2 V3]. split; [done| |done]. intros k p Hk. specialize (V2 k p Hk).
      destruct p as [| | | | | | | | | | | |f e st|]; try done. by destruct st.
    + apply (watch_next t); try done. eauto.
  - destruct (acts t !! k) as [p|] eqn:Hk; [|done]. intros E. by eapply good_turn.
Qed.

Lemma good_new b : good (NewTracker b).
Proof.
  assert (Hf : forall f, flow (NewTracker b) f = mkFlow "" "" false [] false) by (intros f; unfold flow; cbn; by rewrite lookup_empty).
  split.
  - split; [split_and!|]; intros *; cbn; rewrite ?lookup_empty; try done; set_solver.
  - intros f c. by rewrite Hf.
  - split; intros *; cbn; rewrite ?lookup_empty; try done.
  - split.
    + intros o. unfold flushed. cbn. by rewrite lookup_empty.
    + intros k p. cbn. by rewrite lookup_empty.
    + intros _ f o e [Hin _]. cbn in Hin. set_solver.
  - split; intros f e; cbn; by rewrite lookup_empty.
  - split; [done|]. cbn. set_solver.
Qed.

Lemma step_epoch t e t' : fresh t -> step e t = Some t' -> epoch t' = epoch t \/ epoch t' = (epoch t + 1) mod 2 ^ 64.
Proof.
  intros F. destruct e as [org session c b|f|f c|org sessions|org|f e| | |k a]; cbn [step]; turn_cases; try (by left).
  - left. unfold Track. by destruct (_ && _).
  - left. unfold Attach. by destruct (revoked _).
  - left. apply (Revoke_heap _ _ _ _ _ F) in Heqp as (h&->&_). done.
  - right. unfold Reevaluate. by destruct (reevaluating _).
  - destruct (acts t !! k) as [p|]; [|done]. intros E. left. by apply (keeps_turn _ _ _ _ _ F E).
Qed.

(** Fewer than 2^64 steps: the epoch has not wrapped around. *)
Lemma good_run es t t' :
  good t -> 0 <= epoch t -> epoch t + Z.of_nat (length es) < 2 ^ 64 -> run es t = Some t' -> good t'.
Proof.
  revert t. induction es as [|e es IH]; intros t G Hp Hlt; cbn [run]; [by intros [= <-]|].
  destruct (step e t) as [t1|] eqn:E; [|done]. cbn [length] in Hlt.
  assert (Hb : 0 <= epoch t1 <= epoch t + 1).
  { destruct (step_epoch t e t1 (proj1 (g_base _ G)) E) as [->| ->]; [lia|]. rewrite Z.mod_small by lia. lia. }
  apply IH; [eapply good_step; [exact G|lia|exact E]|lia|lia].
Qed.

(** ** Theorems *)

Lemma reached_good b es t : Z.of_nat (length es) < 2 ^ 64 -> run es (NewTracker b) = Some t -> good t.
Proof. intros Hl. apply good_run; [apply good_new|done|done]. Qed.

(** When no re-evaluation is in progress, nothing is going to bring one. *)
Lemma idle_unscheduled t o f : loops t -> reevaluating t = false -> ~ scheduled t o f.
Proof.
  intros L E [Hp|(k&p&Hk&Hb)]; destruct (l_idle _ L E) as [Hp0 HL]; [set_solver|].
  assert (Hc : child_of p = None).
  { destruct (child_of p) as [l|] eqn:Hc; [|done]. destruct (l_child _ L _ _ _ Hk Hc) as (todo&running&Hl&_). by apply HL in Hl. }
  pose proof (HL _ _ Hk) as Hlp. destruct p as [| | | | | | |g a o'|g a b o'|g a o'| | | |]; try done; by destruct o'.
Qed.

(** C14: A flush reaches every flow it concerns. When the tracker is not closed and no
    re-evaluation is in progress, take a tracked flow that has a re-check and is not
    revoked, and the epoch it was tracked at or [Confirm] vouched for: no flush of its
    organization, or of all, is later than that, unless a re-check that began after the
    flush has passed. *)
Theorem flush_reaches_every_flow chk es t f o b :
  Z.of_nat (length es) < 2 ^ 64 -> run es (NewTracker chk) = Some t -> stop t = false -> reevaluating t = false ->
  f ∈ flows t -> recheck (flow t f) = true -> revoked (flow t f) = false -> concerns t f o ->
  born t !! f = Some b \/ confirmed t !! f = Some b ->
  flushed t o <= b \/ exists c, checkedAt t !! f = Some c /\ flushed t o <= c.
Proof.
  intros Hl Hr Hst Hre Hin Hck Hrev Hco Hb. pose proof (reached_good _ _ _ Hl Hr) as [_ _ L V _ _].
  destruct (c_cover _ V Hst f o b) as [?|[?|Hs]]; [by split|done| |by left|by right|].
  - destruct Hb as [?|?]; [by left|by right; left].
  - by apply idle_unscheduled in Hs.
Qed.

(** [Confirm] of a flow whose decision is older than a flush returns true only when a
    re-check has passed that began after the flow was found stale at epoch [e]. *)
Theorem stale_flow_is_rechecked chk es t k f e :
  Z.of_nat (length es) < 2 ^ 64 -> run es (NewTracker chk) = Some t -> stop t = false ->
  acts t !! k = Some (PConfirmEnd f e true) -> recheck (flow t f) = true -> revoked (flow t f) = false ->
  exists c, checkedAt t !! f = Some c /\ e <= c.
Proof.
  intros Hl Hr Hst Hk Hck Hrev. pose proof (reached_good _ _ _ Hl Hr) as [_ _ _ V _ _].
  by apply (c_wf _ V _ _ Hk Hst).
Qed.

(** C36: A revoked flow is cut: every connection attached to it is closed or about to be
    closed by a goroutine, and no connection can be attached to it any more. *)
Theorem revoked_flow_is_cut chk es t f :
  Z.of_nat (length es) < 2 ^ 64 -> run es (NewTracker chk) = Some t -> revoked (flow t f) = true ->
  (forall c, c ∈ conns (flow t f) -> c ∈ closed t \/ exists k p, acts t !! k = Some p /\ c ∈ doomed_of p) /\
  forall c, Attach f c t = (false, t).
Proof.
  intros Hl Hr Hrev. pose proof (reached_good _ _ _ Hl Hr) as [_ C _ _ _ _].
  split; [intros c; by apply C|]. intros c. unfold Attach. by rewrite Hrev.
Qed.

(** Sessions are watched: while the tracker is open and has a session checker, a flow
    that belongs to a session has a sweep that will check it. *)
Theorem sessions_are_watched es t f :
  Z.of_nat (length es) < 2 ^ 64 -> run es (NewTracker true) = Some t -> checker t = true -> stop t = false ->
  f ∈ flows t -> sessionID (flow t f) <> "" -> exists k p, acts t !! k = Some p /\ is_sweep p = true.
Proof.
  intros Hl Hr Hck Hst Hin Hse. pose proof (reached_good _ _ _ Hl Hr) as [_ _ _ _ _ W].
  by eapply w_sweep, w_need.
Qed.

(** ** Samples *)

Definition go (k : nat) : event := Turn k Go.

(** A flow is tracked, its organization flushed, and the re-evaluation passes. *)
Definition reevaluated : list event :=
  [CTrack "org" "s1" 100 true; CReevaluate "org"; go 2; go 2; go 3; Turn 3 (Verdict Passed); go 2; go 2].

(** Another flush; [Confirm] with an epoch from before it re-checks the flow itself. *)
Definition reconfirmed : list event :=
  reevaluated ++ [CReevaluate "org"; CConfirm 0 1; go 5; go 5; Turn 5 (Verdict Passed)].

(** The session of the flow is revoked. *)
Definition revoked_session : list event := [CTrack "org" "s1" 100 true; CAttach 0 101; CRevoke "org" ["s1"]; go 2].

Definition final (es : list event) : Tracker := default (NewTracker true) (run es (NewTracker true)).

Lemma flush_reaches_every_flow_witness :
  flushed (final reevaluated) "org" = 1 /\
  (flushed (final reevaluated) "org" <= 0 \/ exists c, checkedAt (final reevaluated) !! 0%nat = Some c /\ flushed (final reevaluated) "org" <= c).
Proof.
  split; [vm_compute; reflexivity|].
  apply (flush_reaches_every_flow true reevaluated (final reevaluated) 0 "org" 0);
    first [vm_compute; reflexivity|left; vm_compute; reflexivity|apply (bool_decide_unpack _); vm_compute; exact I].
Defined.

Lemma stale_flow_is_rechecked_witness : exists c, checkedAt (final reconfirmed) !! 0%nat = Some c /\ 2 <= c.
Proof.
  apply (stale_flow_is_rechecked true reconfirmed (final reconfirmed) 5 0 2); vm_compute; reflexivity.
Defined.

Lemma revoked_flow_is_cut_witness :
  101%nat ∈ closed (final revoked_session) \/
  exists k p, acts (final revoked_session) !! k = Some p /\ 101%nat ∈ doomed_of p.
Proof.
  destruct (revoked_flow_is_cut true revoked_session (final revoked_session) 0) as [Hc _]; [vm_compute; reflexivity..|].
  apply Hc. apply (bool_decide_unpack _). vm_compute. exact I.
Defined.

Lemma sessions_are_watched_witness :
  exists k p, acts (final reevaluated) !! k = Some p /\ is_sweep p = true.
Proof.
  apply (sessions_are_watched reevaluated (final reevaluated) 0);
    first [vm_compute; reflexivity|vm_compute; discriminate|apply (bool_decide_unpack _); vm_compute; exact I].
Defined.

End FlowsCurrent.
