(* ===== verification/Prog.v ===== *)
(** * Calls over the session store

    The methods of internal/identity are straight-line programs that read the clock, draw
    random bytes, call the session store and publish revocations; any number of them runs
    at the same time. A program is a tree of those actions. The machine interleaves the
    programs of the calls in progress on one in-memory store (internal/store/memory) and
    one clock, and records every action in a log. Store calls may fail, before or after
    they took effect, as those of a networked store do. *)
From S2P Require Import Prelude GoIO GoStrings Sessions.
Import Sessions.

#[export] Instance TokenSession_eq_dec : EqDecision TokenSession.
Proof. solve_decision. Defined.
#[export] Instance op_eq_dec : EqDecision op.
Proof. solve_decision. Defined.

Module Prog.
(** What the store returned: its result, or an error that is not [ErrNotFound]. *)
Inductive answer :=
| Answered (r : result)
| Failed (e : goerr).

(** A program returning [A]; [P] is what it may publish. [Again] is a tail call of the
    method with the same arguments; [Order n] is the order in which a range over a map of
    [n] entries visits them. *)
Inductive prog (P A : Type) :=
| Ret (a : A)
| Panic (text : string)
| Again
| Now (k : Z -> prog P A)
| Call (o : op) (k : answer -> prog P A)
| Rand (n : nat) (k : res (list byte) -> prog P A)
| RandInt (limit : Z) (k : res Z -> prog P A)
| Order (n : nat) (k : list nat -> prog P A)
| Publish (p : P) (k : prog P A).
Arguments Ret {P A} a.
Arguments Panic {P A} text.
Arguments Again {P A}.
Arguments Now {P A} k.
Arguments Call {P A} o k.
Arguments Rand {P A} n k.
Arguments RandInt {P A} limit k.
Arguments Order {P A} n k.
Arguments Publish {P A} p k.

Fixpoint prog_bind {P A B} (f : A -> prog P B) (p : prog P A) : prog P B :=
  match p with
  | Ret a => f a
  | Panic t => Panic t
  | Again => Again
  | Now k => Now (fun t => prog_bind f (k t))
  | Call o k => Call o (fun r => prog_bind f (k r))
  | Rand n k => Rand n (fun r => prog_bind f (k r))
  | RandInt l k => RandInt l (fun r => prog_bind f (k r))
  | Order n k => Order n (fun r => prog_bind f (k r))
  | Publish x k => Publish x (prog_bind f k)
  end.

#[export] Instance prog_MRet P : MRet (prog P) := fun A a => Ret a.
#[export] Instance prog_MBind P : MBind (prog P) := fun A B f p => prog_bind f p.
#[export] Instance prog_FMap P : FMap (prog P) := fun A B f p => prog_bind (fun a => Ret (f a)) p.

(** ** The methods of the store *)

(** Every operation has its own kind of result; another one does not occur. *)
Definition badAnswer : goerr := ENew "answer of another operation".

Definition now {P} : prog P Z := Now Ret.

Definition done_answer (a : answer) : option goerr :=
  match a with
  | Answered RDone => None
  | Answered (RErr e) => e
  | Failed e => Some e
  | _ => Some badAnswer
  end.

Definition session_answer (a : answer) : res TokenSession :=
  match a with Answered (RSession r) => r | Failed e => Fail e | _ => Fail badAnswer end.

Definition ids_answer (a : answer) : res (list string) :=
  match a with Answered (RIds l) => Ok l | Failed e => Fail e | _ => Fail badAnswer end.

Definition sessions_answer (a : answer) : res (list TokenSession) :=
  match a with Answered (RSessions l) => Ok l | Failed e => Fail e | _ => Fail badAnswer end.

Definition claim_answer (a : answer) : res bool :=
  match a with Answered (RClaimed b) => Ok b | Failed e => Fail e | _ => Fail badAnswer end.

Definition value_answer (a : answer) : res (list byte) :=
  match a with Answered (RValue r) => r | Failed e => Fail e | _ => Fail badAnswer end.

Section Methods.
Context {P : Type}.
Abbreviation prog := (prog P).

Definition putTokenSession (ts : TokenSession) : prog (option goerr) := Call (OpPut ts) (fun a => Ret (done_answer a)).
Definition rotateTokenSession (ts : TokenSession) (prev : string) : prog (option goerr) :=
  Call (OpRotate ts prev) (fun a => Ret (done_answer a)).
Definition getTokenSession (id : string) : prog (res TokenSession) := Call (OpGet id) (fun a => Ret (session_answer a)).
Definition deleteTokenSession (id : string) : prog (option goerr) := Call (OpDelete id) (fun a => Ret (done_answer a)).
Definition deleteSubjectSessions (org typ id : string) : prog (res (list string)) :=
  Call (OpDeleteSubject org typ id) (fun a => Ret (ids_answer a)).
Definition listEndpointSessions (org ep : string) : prog (res (list TokenSession)) :=
  Call (OpListEndpoint org ep) (fun a => Ret (sessions_answer a)).
Definition deleteEndpointSessions (org ep : string) : prog (res (list TokenSession)) :=
  Call (OpDeleteEndpoint org ep) (fun a => Ret (sessions_answer a)).
Definition claimOnce (key : string) (ttl : Z) : prog (res bool) := Call (OpClaim key ttl) (fun a => Ret (claim_answer a)).
Definition putOnce (key : string) (v : list byte) (ttl : Z) : prog (option goerr) :=
  Call (OpPutOnce key v ttl) (fun a => Ret (done_answer a)).
Definition takeOnce (key : string) : prog (res (list byte)) := Call (OpTake key) (fun a => Ret (value_answer a)).
Definition peekOnce (key : string) : prog (res (list byte)) := Call (OpPeek key) (fun a => Ret (value_answer a)).
End Methods.

(** ** One call *)

(** An action and what came of it. [LDown]: the call of the store failed with [e]; [r] is
    the result of the operation when it took effect all the same. *)
Inductive lev (P : Type) :=
| LAgain
| LNow (t : Z)
| LCall (t : Z) (o : op) (r : result)
| LDown (t : Z) (o : op) (r : option result) (e : goerr)
| LRand (r : res (list byte))
| LInt (r : res Z)
| LOrder (l : list nat)
| LPublish (p : P).
Arguments LAgain {P}.
Arguments LNow {P} t.
Arguments LCall {P} t o r.
Arguments LDown {P} t o r e.
Arguments LRand {P} r.
Arguments LInt {P} r.
Arguments LOrder {P} l.
Arguments LPublish {P} p.

(** ** All calls *)

Inductive choice :=
| Go
| Down (applied : bool) (e : goerr)
| Bytes (r : res (list byte))
| Int (r : res Z)
| Visit (l : list nat).

Section Machine.
Context {P C A : Type} (body : C -> prog P A).

Record machine := mkMachine {
  store : SessionStore;
  clock : Z;
  calls : gmap nat (C * prog P A);
  log : list (nat * lev P)
}.

Definition init (t : Z) : machine := mkMachine newSessionStore t ∅ [].

(** What a program does next: its action, the rest of it and the store. *)
Definition turn (start p : prog P A) (ch : choice) (t : Z) (s : SessionStore)
    : option (lev P * prog P A * SessionStore) :=
  match p, ch with
  | Again, Go => Some (LAgain, start, s)
  | Now k, Go => Some (LNow t, k t, s)
  | Call o k, Go => let '(r, s') := exec t o s in Some (LCall t o r, k (Answered r), s')
  | Call o k, Down applied e =>
      if errIs e ErrNotFound then None
      else
        let '(r, s') := exec t o s in
        if applied then Some (LDown t o (Some r) e, k (Failed e), s')
        else Some (LDown t o None e, k (Failed e), s)
  | Rand n k, Bytes r =>
      match r with
      | Ok l => if decide (length l = n) then Some (LRand r, k r, s) else None
      | Fail _ => Some (LRand r, k r, s)
      end
  | RandInt limit k, Int r =>
      match r with
      | Ok z => if ((0 <=? z) && (z <? limit))%Z then Some (LInt r, k r, s) else None
      | Fail _ => Some (LInt r, k r, s)
      end
  | Order n k, Visit l =>
      if decide (NoDup l /\ length l = n /\ Forall (fun i => i < n) l) then Some (LOrder l, k l, s) else None
  | Publish x k, Go => Some (LPublish x, k, s)
  | _, _ => None
  end.

Inductive event :=
| Begin (i : nat) (c : C)
| Tick (t : Z)
| Run (i : nat) (ch : choice).

Definition step (e : event) (m : machine) : option machine :=
  match e with
  | Begin i c =>
      if decide (calls m !! i = None)
      then Some (mkMachine (store m) (clock m) (<[i := (c, body c)]> (calls m)) (log m)) else None
  | Tick t => if (clock m <=? t)%Z then Some (mkMachine (store m) t (calls m) (log m)) else None
  | Run i ch =>
      match calls m !! i with
      | None => None
      | Some (c, p) =>
          match turn (body c) p ch (clock m) (store m) with
          | None => None
          | Some (l, p', s) => Some (mkMachine s (clock m) (<[i := (c, p')]> (calls m)) (log m ++ [(i, l)]))
          end
      end
  end.

Fixpoint run (es : list event) (m : machine) : option machine :=
  match es with
  | [] => Some m
  | e :: es' => match step e m with Some m' => run es' m' | None => None end
  end.

Inductive reachable : machine -> Prop :=
| reach_init t : (0 <= t)%Z -> reachable (init t)
| reach_step e m m' : reachable m -> step e m = Some m' -> reachable m'.

(** Call [i] was [c] and returned [a]. *)
Definition returned (m : machine) (i : nat) (c : C) (a : A) : Prop := calls m !! i = Some (c, Ret a).
End Machine.
Arguments mkMachine {P C A} store clock calls log.
Arguments store {P C A} _.
Arguments clock {P C A} _.
Arguments calls {P C A} _.
Arguments log {P C A} _.
Arguments event : clear implicits.
Arguments Begin {C} i c.
Arguments Tick {C} t.
Arguments Run {C} i ch.
Arguments machine : clear implicits.
End Prog.
