(* ===== verification/ProgLog.v ===== *)
(** * Logs of calls over the session store

    What the log of the machine of [Prog] says: the actions of a call are those of its
    program, in order; the results of the store are those of one sequence of operations on
    the in-memory store; and so a value that is taken, a session that is read or a token
    that is rotated has an origin earlier in the log. *)
From S2P Require Import Prelude GoIO GoStrings Sessions Prog.
Import Sessions Prog.

Create HintDb methods.
#[export] Hint Unfold now putTokenSession rotateTokenSession getTokenSession deleteTokenSession deleteSubjectSessions
  listEndpointSessions deleteEndpointSessions claimOnce putOnce takeOnce peekOnce : methods.

Module ProgLog.

(** ** The actions of one call *)
Section Local.
Context {P : Type}.

Definition local (i : nat) (l : list (nat * lev P)) : list (lev P) :=
  omap (fun x => if decide (x.1 = i) then Some x.2 else None) l.

Lemma local_app i l k : local i (l ++ k) = local i l ++ local i k.
Proof. apply omap_app. Qed.

Lemma local_one i j (e : lev P) : local i [(j, e)] = if decide (j = i) then [e] else [].
Proof. unfold local. simpl. by destruct (decide (j = i)). Qed.

(** Where an action of a call is in the log. *)
Lemma local_split i l (E1 E2 : list (lev P)) e :
  local i l = E1 ++ e :: E2 ->
  exists l1 l2, l = l1 ++ (i, e) :: l2 /\ local i l1 = E1 /\ local i l2 = E2.
Proof.
  revert E1. induction l as [|[j x] l IH]; intros E1; [by destruct E1|]. unfold local. simpl.
  destruct (decide (j = i)) as [->|Hne].
  - destruct E1 as [|y E1]; intros [= -> Hl].
    + by exists [], l.
    + destruct (IH _ Hl) as (l1&l2&->&<-&<-). exists ((i, y) :: l1), l2. split_and!; [done| |done].
      unfold local. simpl. by rewrite decide_True.
  - intros Hl. destruct (IH _ Hl) as (l1&l2&->&<-&<-). exists ((j, x) :: l1), l2. split_and!; [done| |done].
    unfold local. simpl. by rewrite decide_False.
Qed.

Lemma elem_of_local i l (e : lev P) : e ∈ local i l <-> (i, e) ∈ l.
Proof.
  unfold local. rewrite list_elem_of_omap. split.
  - intros ([j x]&Hin&Hx). simpl in Hx. case_decide; by simplify_eq.
  - intros Hin. exists (i, e). split; [done|]. simpl. by rewrite decide_True.
Qed.
End Local.

(** ** What a program may do

    [obeys G Q R p E]: after the actions [E] (since the method was entered, or entered again
    by a tail call) program [p] performs only operations [o] with [Q E o], where [E] grows
    with every action, when it returns [a] then [R E a], and it tail-calls its method only
    if [G E]. *)

(** The results an operation can have. *)
Definition fits (o : op) (r : result) : Prop :=
  match o, r with
  | (OpPut _ | OpDelete _ | OpPutOnce _ _ _), RDone
  | OpRotate _ _, RErr _
  | OpGet _, RSession _
  | OpDeleteSubject _ _ _, RIds _
  | (OpListEndpoint _ _ | OpDeleteEndpoint _ _), RSessions _
  | OpClaim _ _, RClaimed _
  | (OpTake _ | OpPeek _), RValue _ => True
  | _, _ => False
  end.

Lemma exec_fits t o s r s' : exec t o s = (r, s') -> fits o r.
Proof. destruct o; cbn [exec fits]; repeat case_match; intros; by simplify_eq. Qed.

Section Obeys.
Context {P A : Type} (G : list (lev P) -> Prop) (Q : list (lev P) -> op -> Prop) (R : list (lev P) -> A -> Prop).

Fixpoint obeys (p : prog P A) (E : list (lev P)) : Prop :=
  match p with
  | Ret a => R E a
  | Panic _ => True
  | Again => G E
  | Now k => forall t, obeys (k t) (E ++ [LNow t])
  | Call o k =>
      Q E o /\ (forall t r, fits o r -> obeys (k (Answered r)) (E ++ [LCall t o r])) /\
      (forall t r e, errIs e ErrNotFound = false -> obeys (k (Failed e)) (E ++ [LDown t o r e]))
  | Rand n k => forall r, (forall l, r = Ok l -> length l = n) -> obeys (k r) (E ++ [LRand r])
  | RandInt limit k => forall r, (forall z, r = Ok z -> 0 <= z < limit)%Z -> obeys (k r) (E ++ [LInt r])
  | Order n k =>
      forall l, NoDup l /\ length l = n /\ Forall (fun i => i < n) l -> obeys (k l) (E ++ [LOrder l])
  | Publish x k => obeys k (E ++ [LPublish x])
  end.
End Obeys.

(** A sequence of two programs. *)
Lemma obeys_bind {P A B} G Q (R : list (lev P) -> B -> Prop) (f : A -> prog P B) p E :
  obeys G Q (fun E a => obeys G Q R (f a) E) p E -> obeys G Q R (p ≫= f) E.
Proof.
  change (p ≫= f) with (prog_bind f p).
  revert E. induction p as [a|t| |k IH|o k IH|n k IH|l k IH|n k IH|x k IH]; intros E; cbn [obeys prog_bind]; auto.
  intros (Hq&Ha&Hf). split_and!; auto.
Qed.

Lemma obeys_fmap {P A B} G Q (R : list (lev P) -> B -> Prop) (f : A -> B) p E :
  obeys G Q (fun E a => R E (f a)) p E -> obeys G Q R (f <$> p) E.
Proof. intros H. by apply (obeys_bind G Q R (fun a => Ret (f a))). Qed.

Lemma obeys_weaken {P A} G (Q Q' : list (lev P) -> op -> Prop) (R R' : list (lev P) -> A -> Prop) p E :
  (forall E o, Q E o -> Q' E o) -> (forall E a, R E a -> R' E a) -> obeys G Q R p E -> obeys G Q' R' p E.
Proof.
  intros HQ HR. revert E. induction p; intros E; cbn [obeys]; auto. intros (?&?&?). split_and!; auto.
Qed.

(** Walks through a program: one goal per operation and per result. The methods of a
    client are unfolded by the database [methods]. *)
Ltac head_case p :=
  lazymatch p with
  | prog_bind _ ?q => head_case q
  | fmap _ ?q => head_case q
  | mbind _ ?q => head_case q
  | match ?x with _ => _ end => destruct x eqn:?
  end.

Ltac walk_step :=
  lazymatch goal with
  | |- forall _, _ => intros ?
  | |- _ /\ _ => split
  | H : fits _ ?r |- _ => destruct r; cbn [fits] in H; try contradiction; clear H
  | |- obeys _ _ _ ?p _ =>
      first
        [ progress (autounfold with methods;
            cbn [obeys prog_bind mbind prog_MBind fmap prog_FMap mret prog_MRet app
                 done_answer session_answer ids_answer sessions_answer claim_answer value_answer])
        | head_case p ]
  end.

Ltac walk := repeat walk_step.

(** The program returns after at most [n] more actions, or tail-calls itself. *)
Fixpoint bounded {P A} (n : nat) (p : prog P A) {struct p} : Prop :=
  match p, n with
  | Ret _, _ => True
  | Panic _, _ | _, 0 => False
  | Again, S _ => True
  | Now k, S n => forall t, bounded n (k t)
  | Call o k, S n =>
      (forall r, fits o r -> bounded n (k (Answered r))) /\ (forall e, errIs e ErrNotFound = false -> bounded n (k (Failed e)))
  | Rand w k, S n => forall r, (forall l, r = Ok l -> length l = w) -> bounded n (k r)
  | RandInt limit k, S n => forall r, (forall z, r = Ok z -> 0 <= z < limit)%Z -> bounded n (k r)
  | Order w k, S n => forall l, NoDup l /\ length l = w /\ Forall (fun i => i < w) l -> bounded n (k l)
  | Publish _ k, S n => bounded n k
  end.

Ltac bound_step :=
  lazymatch goal with
  | |- True => exact I
  | |- forall _, _ => intros ?
  | |- _ /\ _ => split
  | H : fits _ ?r |- _ => destruct r; cbn [fits] in H; try contradiction; clear H
  | |- bounded _ ?p =>
      first
        [ progress (autounfold with methods;
            cbn [bounded prog_bind mbind prog_MBind fmap prog_FMap mret prog_MRet app
                 done_answer session_answer ids_answer sessions_answer claim_answer value_answer])
        | head_case p ]
  end.

Definition agains {P} (E : list (lev P)) : nat := sum_list_with (fun e => match e with LAgain => 1 | _ => 0 end) E.

(** ** The sequence of operations *)

(** An operation that took effect, when, and its result. *)
Definition effect_of {P} (e : lev P) : option (Z * op * result) :=
  match e with
  | LCall t o r => Some (t, o, r)
  | LDown t o r _ => (fun r => (t, o, r)) <$> r
  | _ => None
  end.

Definition effects {P} (l : list (nat * lev P)) : list (Z * op * result) := omap (fun x => effect_of x.2) l.

Lemma effects_app {P} (l k : list (nat * lev P)) : effects (l ++ k) = effects l ++ effects k.
Proof. apply omap_app. Qed.

Lemma elem_of_effects {P} (l : list (nat * lev P)) x :
  x ∈ effects l <-> exists i e, (i, e) ∈ l /\ effect_of e = Some x.
Proof. unfold effects. rewrite list_elem_of_omap. split; [intros ([i e]&?&?)|intros (i&e&?&?); exists (i, e)]; eauto. Qed.

Lemma effects_split {P} (l : list (nat * lev P)) E1 x E2 :
  effects l = E1 ++ x :: E2 ->
  exists l1 i e l2, l = l1 ++ (i, e) :: l2 /\ effect_of e = Some x /\ effects l1 = E1 /\ effects l2 = E2.
Proof.
  revert E1. induction l as [|[j y] l IH]; intros E1; [by destruct E1|]. unfold effects. simpl.
  destruct (effect_of y) as [z|] eqn:Ez.
  - destruct E1 as [|w E1]; intros [= -> Hl].
    + by exists [], j, y, l.
    + destruct (IH _ Hl) as (l1&i&e&l2&->&He&<-&<-). exists ((j, y) :: l1), i, e, l2. split_and!; try done.
      unfold effects. simpl. by rewrite Ez.
  - intros Hl. destruct (IH _ Hl) as (l1&i&e&l2&->&He&<-&<-). exists ((j, y) :: l1), i, e, l2. split_and!; try done.
    unfold effects. simpl. by rewrite Ez.
Qed.

Inductive history : list (Z * op * result) -> SessionStore -> Prop :=
| hist_nil : history [] newSessionStore
| hist_snoc E s t o r s' : history E s -> exec t o s = (r, s') -> history (E ++ [(t, o, r)]) s'.

Lemma history_last E t o r s' :
  history (E ++ [(t, o, r)]) s' -> exists s, history E s /\ exec t o s = (r, s').
Proof.
  intros H. inversion H as [Hnil|E' s t' o' r' s'' He Hx Heq]; [by destruct E|].
  apply app_inj_2 in Heq as [-> [= -> -> ->]]; [|done]. eauto.
Qed.

Lemma history_prefix E1 E2 s : history (E1 ++ E2) s -> exists s1, history E1 s1.
Proof.
  revert s. induction E2 as [|[[t o] r] E2 IH] using rev_ind; intros s; [rewrite app_nil_r; eauto|].
  rewrite app_assoc. intros (s1&H&_)%history_last. eauto.
Qed.

(** What happened just before an operation of the sequence. *)
Lemma history_at E1 t o r E2 s :
  history (E1 ++ (t, o, r) :: E2) s -> exists s1 s2, history E1 s1 /\ exec t o s1 = (r, s2).
Proof.
  intros H. replace (E1 ++ (t, o, r) :: E2) with ((E1 ++ [(t, o, r)]) ++ E2) in H by by rewrite <- app_assoc.
  apply history_prefix in H as (s2&H). apply history_last in H as (s1&?&?). eauto.
Qed.

(** ** Origins *)

(** The operation stored [v] under [key]. *)
Definition sets (key : string) (v : onceValue) (x : Z * op * result) : Prop :=
  match x with
  | (t, OpPutOnce k w ttl, _) => k = key /\ v = mkOnce w (t + ttl)
  | (t, OpClaim k ttl, RClaimed true) => k = key /\ v = mkOnce [] (t + ttl)
  | _ => False
  end.

(** The operation stores nothing under [key] and does not take it. *)
Definition untouched (key : string) (x : Z * op * result) : Prop :=
  match x with
  | (_, OpPutOnce k _ _, _) | (_, OpTake k, _) => k <> key
  | (_, OpClaim k _, RClaimed true) => k <> key
  | _ => True
  end.

Lemma once_prune_sub t s key v : once (pruneLocked t s) !! key = Some v -> once s !! key = Some v.
Proof.
  unfold pruneLocked. destruct (negb _); [done|]. cbn [once]. rewrite once_deleteAll.
  by intros [? _]%map_lookup_filter_Some.
Qed.

Lemma exec_once t o s r s' key v :
  exec t o s = (r, s') -> once s' !! key = Some v ->
  sets key v (t, o, r) \/ (once s !! key = Some v /\ untouched key (t, o, r)).
Proof.
  intros Hx Hv. pose proof (exec_once_cases t o s) as Hc. rewrite Hx in Hc. simpl in Hc.
  destruct o as [| | | | | | |k ttl|k w ttl|k|]; try (rewrite Hc in Hv; right; split; [eauto using once_prune_sub|done]).
  - cbn [exec] in Hx. unfold ClaimOnce in Hx. destruct (live_once t k s); simplify_eq; [by right|].
    simpl in Hv. destruct (decide (k = key)) as [->|Hne].
    + rewrite lookup_insert_eq in Hv. simplify_eq. by left.
    + rewrite lookup_insert_ne in Hv by done. right. split; [by eapply once_prune_sub|done].
  - cbn [exec] in Hx. simplify_eq. simpl in Hv. destruct (decide (k = key)) as [->|Hne].
    + rewrite lookup_insert_eq in Hv. simplify_eq. by left.
    + rewrite lookup_insert_ne in Hv by done. right. split; [by eapply once_prune_sub|done].
  - cbn [exec] in Hx. unfold TakeOnce in Hx.
    assert (Hs : s' = set_once (delete k (once s)) s) by (destruct (live_once t k s); by simplify_eq).
    subst s'. simpl in Hv. apply lookup_delete_Some in Hv as [Hne Hv]. right. by split.
Qed.

Lemma once_origin E s key v :
  history E s -> once s !! key = Some v ->
  exists E1 x E2, E = E1 ++ x :: E2 /\ sets key v x /\ Forall (untouched key) E2.
Proof.
  intros H. induction H as [|E s t o r s' H IH Hx]; intros Hv; [by cbn in Hv; rewrite lookup_empty in Hv|].
  destruct (exec_once _ _ _ _ _ _ _ Hx Hv) as [Hs|[Hold Hu]].
  - by exists E, (t, o, r), [].
  - destruct (IH Hold) as (E1&x&E2&->&Hs&Hf). exists E1, x, (E2 ++ [(t, o, r)]).
    split_and!; [by rewrite <- app_assoc|done|]. apply Forall_app. auto.
Qed.

(** A value that is taken or seen was stored before, and not taken since. *)
Lemma taken_origin E1 t key v E2 s :
  history (E1 ++ (t, OpTake key, RValue (Ok v)) :: E2) s ->
  exists F1 x F2 exp, E1 = F1 ++ x :: F2 /\ sets key (mkOnce v exp) x /\ (t < exp)%Z /\ Forall (untouched key) F2.
Proof.
  intros (s1&s2&H&Hx)%history_at. cbn [exec] in Hx. unfold TakeOnce, live_once in Hx.
  destruct (once s1 !! key) as [[w exp]|] eqn:Ev; [|done]. simpl in Hx.
  destruct (Z.ltb_spec t exp); [|done]. simplify_eq.
  destruct (once_origin _ _ _ _ H Ev) as (F1&x&F2&->&Hs&Hf). by exists F1, x, F2, exp.
Qed.

Lemma peeked_origin E1 t key v E2 s :
  history (E1 ++ (t, OpPeek key, RValue (Ok v)) :: E2) s ->
  exists F1 x F2 exp, E1 = F1 ++ x :: F2 /\ sets key (mkOnce v exp) x /\ (t < exp)%Z /\ Forall (untouched key) F2.
Proof.
  intros (s1&s2&H&Hx)%history_at. cbn [exec] in Hx. unfold PeekOnce, live_once in Hx.
  destruct (once s1 !! key) as [[w exp]|] eqn:Ev; [|done]. simpl in Hx.
  destruct (Z.ltb_spec t exp); [|done]. simpl in Hx. case_bool_decide; simplify_eq.
  destruct (once_origin _ _ _ _ H Ev) as (F1&x&F2&->&Hs&Hf). by exists F1, x, F2, exp.
Qed.

(** The operation made [ts] the session of its id. *)
Definition stores (ts : TokenSession) (x : Z * op * result) : Prop :=
  match x with
  | (_, OpPut ts', _) => ts' = ts
  | (_, OpRotate ts' _, RErr None) => ts' = ts
  | _ => False
  end.

(** The operation neither replaces nor deletes the session [id] by its name. *)
Definition spares_id (id : string) (x : Z * op * result) : Prop :=
  match x with
  | (_, OpPut ts, _) | (_, OpRotate ts _, RErr None) => ID ts <> id
  | (_, OpDelete id', _) => id' <> id
  | _ => True
  end.

Lemma exec_sessions t o s r s' id ts :
  exec t o s = (r, s') -> sessions s' !! id = Some ts ->
  (stores ts (t, o, r) /\ ID ts = id) \/ (sessions s !! id = Some ts /\ spares_id id (t, o, r)).
Proof.
  intros Hx Hs. destruct o as [u|u prev|i|i|a b c|a b|a b|k ttl|k w ttl|k|k]; cbn [exec] in Hx.
  - simplify_eq. simpl in Hs. destruct (decide (ID u = id)) as [<-|Hne].
    + rewrite lookup_insert_eq in Hs. simplify_eq. by left.
    + rewrite lookup_insert_ne in Hs by done. right. split; [exact (prune_sessions_sub _ _ _ _ Hs)|done].
  - unfold RotateTokenSession in Hx. destruct (sessions s !! ID u) as [cur|] eqn:Ec; [|simplify_eq; by right].
    destruct (_ || _)%bool; simplify_eq; [by right|]. simpl in Hs. destruct (decide (ID u = id)) as [<-|Hne].
    + rewrite lookup_insert_eq in Hs. simplify_eq. by left.
    + rewrite lookup_insert_ne in Hs by done. by right.
  - unfold GetTokenSession in Hx. destruct (sessions s !! i) as [cur|] eqn:Ec; [|simplify_eq; by right].
    destruct (negb _); simplify_eq; [|by right]. right. split; [|done]. by eapply (deleteAll_sub [i]).
  - simplify_eq. right. unfold DeleteTokenSession in Hs. rewrite sessions_deleteLocked in Hs.
    apply lookup_delete_Some in Hs as [? ?]. done.
  - cbn in Hx. simplify_eq. right. split; [|done]. exact (deleteAll_sub _ _ _ _ Hs).
  - simplify_eq. by right.
  - cbn in Hx. simplify_eq. right. split; [|done]. exact (deleteAll_sub _ _ _ _ Hs).
  - unfold ClaimOnce in Hx. destruct (live_once t k s); simplify_eq; [by right|]. right.
    split; [exact (prune_sessions_sub _ _ _ _ Hs)|done].
  - simplify_eq. right. split; [exact (prune_sessions_sub _ _ _ _ Hs)|done].
  - unfold TakeOnce in Hx. destruct (live_once t k s); simplify_eq; by right.
  - simplify_eq. by right.
Qed.

Lemma session_origin E s id ts :
  history E s -> sessions s !! id = Some ts ->
  ID ts = id /\ exists E1 x E2, E = E1 ++ x :: E2 /\ stores ts x /\ Forall (spares_id id) E2.
Proof.
  intros H. induction H as [|E s t o r s' H IH Hx]; intros Hv; [by cbn in Hv; rewrite lookup_empty in Hv|].
  destruct (exec_sessions _ _ _ _ _ _ _ Hx Hv) as [[Hs Hid]|[Hold Hu]].
  - split; [done|]. by exists E, (t, o, r), [].
  - destruct (IH Hold) as (Hid&E1&x&E2&->&Hs&Hf). split; [done|]. exists E1, x, (E2 ++ [(t, o, r)]).
    split_and!; [by rewrite <- app_assoc|done|]. apply Forall_app. auto.
Qed.

(** A session that is read was stored before, is the last one stored under its id, and
    has not expired. *)
Lemma read_origin E1 t id ts E2 s :
  history (E1 ++ (t, OpGet id, RSession (Ok ts)) :: E2) s ->
  (t < ExpiresAt ts)%Z /\ ID ts = id /\
  exists F1 x F2, E1 = F1 ++ x :: F2 /\ stores ts x /\ Forall (spares_id id) F2.
Proof.
  intros (s1&s2&H&Hx)%history_at. cbn [exec] in Hx. unfold GetTokenSession in Hx.
  destruct (sessions s1 !! id) as [u|] eqn:Ev; [|done]. destruct (Z.ltb_spec t (ExpiresAt u)); [|done].
  simpl in Hx. simplify_eq. split; [done|]. by eapply session_origin.
Qed.

(** A rotation replaces a session that has the token id it names. *)
Lemma rotate_origin E1 t ts prev E2 s :
  history (E1 ++ (t, OpRotate ts prev, RErr None) :: E2) s ->
  exists cur, TokenID cur = prev /\ (t < ExpiresAt cur)%Z /\ ID cur = ID ts /\
  exists F1 x F2, E1 = F1 ++ x :: F2 /\ stores cur x /\ Forall (spares_id (ID ts)) F2.
Proof.
  intros (s1&s2&H&Hx)%history_at. cbn [exec] in Hx. unfold RotateTokenSession in Hx.
  destruct (sessions s1 !! ID ts) as [cur|] eqn:Ev; [|done]. destruct (_ || _)%bool eqn:Eb; [done|].
  bool_to_prop. exists cur.
  destruct (session_origin _ _ _ _ H Ev) as (Hid&Ho). auto.
Qed.

(** ** From one state on *)

Inductive runs (s : SessionStore) : list (Z * op * result) -> SessionStore -> Prop :=
| runs_nil : runs s [] s
| runs_last E s1 t o r s2 : runs s E s1 -> exec t o s1 = (r, s2) -> runs s (E ++ [(t, o, r)]) s2.

Lemma history_app E1 E2 s : history (E1 ++ E2) s -> exists s1, history E1 s1 /\ runs s1 E2 s.
Proof.
  revert s. induction E2 as [|[[t o] r] E2 IH] using rev_ind; intros s.
  - rewrite app_nil_r. intros H. exists s. split; [done|constructor].
  - rewrite app_assoc. intros (s1&H&Hx)%history_last. destruct (IH _ H) as (s0&?&?). exists s0. split; [done|].
    by econstructor.
Qed.

(** A value stays until it expires, is taken or replaced. *)
Lemma runs_keep_once s E s' key v :
  runs s E s' -> once s !! key = Some v -> Forall (fun x => x.1.1 < expiresAt v /\ leaves key x.1.2)%Z E ->
  once s' !! key = Some v.
Proof.
  induction 1 as [|E s1 t o r s2 H IH Hx]; intros Hv HE; [done|]. apply Forall_app in HE as [HE Ho].
  apply Forall_cons in Ho as [[Ht Hl] _]. replace s2 with (exec t o s1).2 by by rewrite Hx.
  apply exec_keeps_once; auto.
Qed.

(** A key is not claimed again before its time is up. *)
Lemma claimed_apart E1 t key ttl E2 t' ttl' E3 s :
  history (E1 ++ (t, OpClaim key ttl, RClaimed true) :: E2 ++ (t', OpClaim key ttl', RClaimed true) :: E3) s ->
  Forall (fun x => x.1.1 <= t' /\ leaves key x.1.2)%Z E2 -> (t + ttl <= t')%Z.
Proof.
  intros H HE. destruct (Z.le_gt_cases (t + ttl) t') as [|Hlt]; [done|].
  set (x := (t, OpClaim key ttl, RClaimed true)) in H. set (y := (t', OpClaim key ttl', RClaimed true)) in H.
  replace (E1 ++ x :: E2 ++ y :: E3) with ((((E1 ++ [x]) ++ E2) ++ [y]) ++ E3) in H by by rewrite <- !app_assoc.
  apply history_app in H as (s3&H&_). apply history_last in H as (s2&H&Hx2).
  apply history_app in H as (s1&H&Hr). apply history_last in H as (s0&_&Hx0).
  assert (Hk : once s1 !! key = Some (mkOnce [] (t + ttl))).
  { cbn [exec] in Hx0. unfold ClaimOnce in Hx0. destruct (live_once t key s0); simplify_eq. apply lookup_insert_eq. }
  apply (runs_keep_once _ _ _ _ _ Hr) in Hk.
  - cbn [exec] in Hx2. unfold ClaimOnce, live_once in Hx2. rewrite Hk in Hx2. simpl in Hx2.
    by rewrite (proj2 (Z.ltb_lt _ _)) in Hx2.
  - eapply Forall_impl; [done|]. simpl. intros z [? ?]. split; [lia|done].
Qed.

(** A session that is gone comes back only when it is put. *)
Lemma runs_gone s E s' id ts :
  runs s E s' -> sessions s !! id = None -> sessions s' !! id = Some ts ->
  exists E1 t u r E2, E = E1 ++ (t, OpPut u, r) :: E2 /\ ID u = id.
Proof.
  intros H Hn. revert ts. induction H as [|E s1 t o r s2 H IH Hx]; intros ts Hs; [congruence|].
  assert (Hold : forall u, sessions s1 !! id = Some u ->
    exists E1 t' u r' E2, E ++ [(t, o, r)] = E1 ++ (t', OpPut u, r') :: E2 /\ ID u = id).
  { intros u Hu. destruct (IH _ Hu) as (E1&t'&w&r'&E2&->&?). exists E1, t', w, r', (E2 ++ [(t, o, r)]).
    by rewrite <- app_assoc. }
  destruct (exec_sessions _ _ _ _ _ _ _ Hx Hs) as [[Hst Hid]|[? _]]; [|by eapply Hold].
  destruct o as [u|u prev| | | | | | | | |]; try done; simpl in Hst.
  - subst u. by exists E, t, ts, r, [].
  - destruct r as [|[]| | | | |]; try done. subst u. cbn [exec] in Hx. unfold RotateTokenSession in Hx.
    rewrite Hid in Hx. destruct (sessions s1 !! id) as [cur|]; [by eapply Hold|done].
Qed.

(** A session that is there was stored on the way or was there before. *)
Lemma runs_present s E s' id ts :
  runs s E s' -> sessions s' !! id = Some ts -> (exists x, x ∈ E /\ stores ts x) \/ sessions s !! id = Some ts.
Proof.
  induction 1 as [|E s1 t o r s2 H IH Hx]; intros Hs; [by right|].
  destruct (exec_sessions _ _ _ _ _ _ _ Hx Hs) as [[Hst _]|[Hold _]].
  - left. exists (t, o, r). split; [|done]. apply elem_of_app. right. left.
  - destruct (IH Hold) as [(x&?&?)|?]; [|by right]. left. exists x. split; [|done]. apply elem_of_app. by left.
Qed.

Lemma deleted_gone t id s r s' : exec t (OpDelete id) s = (r, s') -> sessions s' !! id = None.
Proof.
  cbn [exec]. intros. simplify_eq. unfold DeleteTokenSession. rewrite sessions_deleteLocked. apply lookup_delete_eq.
Qed.

Lemma missing_gone t id s e s' : exec t (OpGet id) s = (RSession (Fail e), s') -> sessions s' !! id = None.
Proof.
  cbn [exec]. unfold GetTokenSession. destruct (sessions s !! id) as [u|] eqn:Eu; [|by intros; simplify_eq].
  destruct (negb _); intros; simplify_eq. rewrite sessions_deleteLocked. apply lookup_delete_eq.
Qed.

(** ** Reachable machines *)
Section Machine.
Context {P C A : Type} (body : C -> prog P A).

Lemma turn_effect start (p : prog P A) ch t s e p' s' :
  turn start p ch t s = Some (e, p', s') ->
  match effect_of e with
  | Some (t', o, r) => t' = t /\ exec t o s = (r, s')
  | None => s' = s
  end.
Proof.
  destruct p, ch; cbn [turn]; intros H; try done; repeat case_match; simplify_eq; cbn in *; simplify_eq; auto.
Qed.

Lemma reachable_history m : reachable body m -> history (effects (log m)) (store m).
Proof.
  induction 1 as [t Ht|e m m' H IH Hs]; [apply hist_nil|]. destruct e as [j c|t|j ch]; cbn [step] in Hs.
  - case_decide; by simplify_eq.
  - destruct (_ <=? _)%Z; by simplify_eq.
  - destruct (calls m !! j) as [[c p]|]; [|done]. destruct (turn _ _ _ _ _) as [[[e p'] s]|] eqn:Et; [|done].
    simplify_eq. cbn [store log]. rewrite effects_app. apply turn_effect in Et. unfold effects at 2. simpl.
    destruct (effect_of e) as [[[t' o] r]|]; [|subst; by rewrite app_nil_r].
    destruct Et as [-> Hx]. by eapply hist_snoc.
Qed.

(** The time of an action. *)
Definition time_of (e : lev P) : option Z :=
  match e with LNow t | LCall t _ _ | LDown t _ _ _ => Some t | _ => None end.

Lemma turn_time start (p : prog P A) ch t s e p' s' u :
  turn start p ch t s = Some (e, p', s') -> time_of e = Some u -> u = t.
Proof. destruct p, ch; cbn [turn]; intros H; try done; repeat case_match; simplify_eq; simpl; congruence. Qed.

(** The clock does not go back. *)
Lemma reachable_times m : reachable body m -> 
  (0 <= clock m)%Z /\
  (forall i e t, (i, e) ∈ log m -> time_of e = Some t -> (0 <= t <= clock m)%Z) /\
  forall l1 i e l2 j e' t t', log m = l1 ++ (i, e) :: l2 -> (j, e') ∈ l2 -> time_of e = Some t -> time_of e' = Some t' ->
    (t <= t')%Z.
Proof.
  induction 1 as [t Ht|e m m' H IH Hs].
  - split_and!; [done| |]; [by intros ??? ?%elem_of_nil|by intros [|]].
  - destruct IH as (I1&I2&I3). destruct e as [j c|t|j ch]; cbn [step] in Hs.
    + case_decide; by simplify_eq.
    + destruct (Z.leb_spec (clock m) t); [|done]. simplify_eq. cbn [clock log]. split_and!; [lia| |done].
      intros i e u Hin Hu. specialize (I2 _ _ _ Hin Hu). lia.
    + destruct (calls m !! j) as [[c p]|]; [|done]. destruct (turn _ _ _ _ _) as [[[x p'] s]|] eqn:Et; [|done].
      simplify_eq. cbn [clock log]. split_and!; [done| |].
      * intros i e u [Hin|Hin]%elem_of_app Hu; [by eapply I2|]. apply list_elem_of_singleton in Hin. simplify_eq.
        rewrite (turn_time _ _ _ _ _ _ _ _ _ Et Hu). lia.
      * intros l1 i e l2 k e' u u' El Hin Hu Hu'.
        destruct l2 as [|y l2 _] using rev_ind; [by apply elem_of_nil in Hin|].
        rewrite app_comm_cons, app_assoc in El. apply app_inj_2 in El as [El Ey]; [|done]. simplify_eq.
        apply elem_of_app in Hin as [Hin|Hin]; [by eapply I3|]. apply list_elem_of_singleton in Hin. simplify_eq.
        rewrite (turn_time _ _ _ _ _ _ _ _ _ Et Hu').
        apply (I2 i e); [|done]. rewrite El. apply elem_of_app. right. left.
Qed.

(** ** Programs and logs *)

Definition op_of (e : lev P) : option op :=
  match e with LCall _ o _ | LDown _ o _ _ => Some o | _ => None end.

Context (G : C -> list (lev P) -> Prop) (Q : C -> list (lev P) -> op -> Prop) (R : C -> list (lev P) -> A -> Prop).

(** [E] are the actions since the last tail call, [E0] those before it. *)
Definition since (c : C) (E0 E : list (lev P)) : Prop := LAgain ∉ E /\ (E0 = [] \/ exists F, G c F).

(** The action is one the call may do. *)
Definition permits (c : C) (E : list (lev P)) (e : lev P) : Prop :=
  match e with LAgain => G c E | LCall _ o _ | LDown _ o _ _ => Q c E o | _ => True end.

Lemma turn_obeys c start p ch t s e p' s' E :
  obeys (G c) (Q c) (R c) start [] -> obeys (G c) (Q c) (R c) p E -> turn start p ch t s = Some (e, p', s') ->
  permits c E e /\ ((obeys (G c) (Q c) (R c) p' (E ++ [e]) /\ e <> LAgain) \/ (e = LAgain /\ p' = start)).
Proof.
  intros Hst Hp Ht. destruct p as [a|x| |k|o k|n k|l k|n k|x k], ch as [|ap err|b|z|v]; cbn [turn] in Ht; try done;
    cbn [obeys] in Hp.
  - simplify_eq. split; [done|]. by right.
  - simplify_eq. split; [done|]. left. split; [apply Hp|done].
  - destruct (exec t o s) as [r s1] eqn:Hx. simplify_eq. destruct Hp as (Hq&Ha&Hf).
    split; [done|]. left. split; [|done]. apply Ha. by eapply exec_fits.
  - destruct (errIs err ErrNotFound) eqn:Ee; [done|]. destruct Hp as (Hq&Ha&Hf).
    destruct (exec t o s) as [r s1]. destruct ap; simplify_eq; (split; [done|]); left; (split; [|done]); by apply Hf.
  - destruct b as [l|err]; [destruct (decide (length l = n)); [|done]|]; simplify_eq; (split; [done|]); left;
      (split; [|done]); apply Hp; intros ? [= ->]; done.
  - destruct z as [z|err]; [destruct (_ && _)%bool eqn:Ez; [|done]|]; simplify_eq; (split; [done|]); left;
      (split; [|done]); apply Hp; intros ? [= ->]. bool_to_prop. lia.
  - case_decide; simplify_eq. split; [done|]. left. split; [by apply Hp|done].
  - simplify_eq. split; [done|]. by left.
Qed.

Hypothesis body_obeys : forall c, obeys (G c) (Q c) (R c) (body c) [].

(** Every call in progress still obeys, and every action in the log was permitted. *)
Lemma reachable_obeys m :
  reachable body m ->
  (forall i, calls m !! i = None -> local i (log m) = []) /\
  (forall i c p, calls m !! i = Some (c, p) -> exists E0 E, local i (log m) = E0 ++ E /\ since c E0 E /\ obeys (G c) (Q c) (R c) p E) /\
  (forall l1 i e l2, log m = l1 ++ (i, e) :: l2 ->
    exists c p E0 E, calls m !! i = Some (c, p) /\ local i l1 = E0 ++ E /\ since c E0 E /\ permits c E e).
Proof.
  induction 1 as [t Ht|e m m' H IH Hs].
  { split_and!; [done| |by intros [|]]. intros i c p. cbn. by rewrite lookup_empty. }
  destruct IH as (I0&I1&I2). destruct e as [j c|t|j ch]; cbn [step] in Hs.
  - case_decide as Hj; [|done]. simplify_eq. cbn [calls log]. split_and!.
    + intros i. destruct (decide (j = i)) as [->|Hne]; [by rewrite lookup_insert_eq|]. rewrite lookup_insert_ne by done.
      apply I0.
    + intros i c' p. destruct (decide (j = i)) as [->|Hne].
      * rewrite lookup_insert_eq. intros [= <- <-]. exists [], []. rewrite (I0 _ Hj). split_and!; [done| |done].
        split; [apply not_elem_of_nil|by left].
      * rewrite lookup_insert_ne by done. apply I1.
    + intros l1 i e l2 El. destruct (I2 _ _ _ _ El) as (c'&p&E0&E&Hi&?). exists c', p, E0, E.
      rewrite lookup_insert_ne by congruence. done.
  - destruct (_ <=? _)%Z; by simplify_eq.
  - destruct (calls m !! j) as [[c p]|] eqn:Ej; [|done].
    destruct (turn _ _ _ _ _) as [[[e p'] s]|] eqn:Et; [|done]. simplify_eq. cbn [calls log].
    destruct (I1 _ _ _ Ej) as (E0&E&El&[HE HE0]&Hob).
    destruct (turn_obeys _ _ _ _ _ _ _ _ _ _ (body_obeys c) Hob Et) as [Hq Hp']. split_and!.
    + intros i. destruct (decide (j = i)) as [->|Hne]; [by rewrite lookup_insert_eq|].
      rewrite lookup_insert_ne, local_app, local_one, decide_False, app_nil_r by done. apply I0.
    + intros i c' q. rewrite local_app, local_one. destruct (decide (j = i)) as [->|Hne].
      * rewrite lookup_insert_eq. intros [= <- <-]. destruct Hp' as [[Hp' He]|(->&->)].
        -- exists E0, (E ++ [e]). rewrite El, app_assoc. split_and!; [done| |done]. split; [|done].
           rewrite elem_of_app, list_elem_of_singleton. intros [?|?]; congruence.
        -- exists (E0 ++ E ++ [LAgain]), []. rewrite El, app_nil_r, app_assoc. split_and!; [done| |done].
           split; [apply not_elem_of_nil|by right; exists E].
      * rewrite lookup_insert_ne, app_nil_r by done. apply I1.
    + intros l1 i e' l2 El'. destruct l2 as [|y l2 _] using rev_ind.
      * apply app_inj_2 in El' as [<- [= <- <-]]; [|done]. exists c, p', E0, E. by rewrite lookup_insert_eq.
      * rewrite app_comm_cons, app_assoc in El'. apply app_inj_2 in El' as [El' _]; [|done].
        destruct (I2 _ _ _ _ El') as (c'&q&F0&F&Hi&HF&HF0&HQ). destruct (decide (j = i)) as [->|Hne].
        -- rewrite Ej in Hi. simplify_eq. exists c', p', F0, F. by rewrite lookup_insert_eq.
        -- exists c', q, F0, F. by rewrite lookup_insert_ne.
Qed.

Lemma returned_obeys m i c a :
  reachable body m -> returned m i c a -> exists E0 E, local i (log m) = E0 ++ E /\ since c E0 E /\ R c E a.
Proof. intros Hm Hr. by destruct (reachable_obeys m Hm) as (_&H&_); destruct (H _ _ _ Hr) as (E0&E&?&?&?); exists E0, E. Qed.

Lemma lookup_split {X} (l : list X) n x : l !! n = Some x -> l = take n l ++ x :: drop (S n) l.
Proof. intros H. symmetry. by apply take_drop_middle. Qed.

(** What the call of an operation in the log did before it. *)
Lemma permitted m n i e :
  reachable body m -> log m !! n = Some (i, e) ->
  exists c p E0 E, calls m !! i = Some (c, p) /\ local i (take n (log m)) = E0 ++ E /\ since c E0 E /\ permits c E e.
Proof. intros Hm Hn. destruct (reachable_obeys m Hm) as (_&_&H). exact (H _ _ _ _ (lookup_split _ _ _ Hn)). Qed.

Lemma permits_op c E e o : permits c E e -> op_of e = Some o -> Q c E o.
Proof. destruct e; cbn; intros; by simplify_eq. Qed.

Lemma logged_obeys m n i e o :
  reachable body m -> log m !! n = Some (i, e) -> op_of e = Some o ->
  exists c p E0 E, calls m !! i = Some (c, p) /\ local i (take n (log m)) = E0 ++ E /\ since c E0 E /\ Q c E o.
Proof.
  intros Hm Hn Ho. destruct (permitted m n i e Hm Hn) as (c&p&E0&E&?&?&?&?). exists c, p, E0, E.
  split_and!; eauto using permits_op.
Qed.

(** ** Values handed from one call to another *)

(** The position of an operation that took effect before position [n]. *)
Lemma position_of (m : machine P C A) n i e F1 x F2 :
  log m !! n = Some (i, e) -> effects (take n (log m)) = F1 ++ x :: F2 ->
  exists n' j e', n' < n /\ log m !! n' = Some (j, e') /\ effect_of e' = Some x /\ effects (take n' (log m)) = F1 /\
    forall k b f y, n' < k < n -> log m !! k = Some (b, f) -> effect_of f = Some y -> y ∈ F2.
Proof.
  intros Hn HF. destruct (effects_split _ _ _ _ HF) as (l1&j&e'&l2&Hl&Hx&HF1&HF2).
  assert (Hlen : length (take n (log m)) = n) by (apply length_take_le; apply lookup_lt_Some in Hn; lia).
  rewrite Hl, length_app in Hlen. simpl in Hlen. exists (length l1), j, e'. split_and!; try done; [lia| | |].
  - rewrite (lookup_split _ _ _ Hn), Hl, <- app_assoc. by apply list_lookup_middle.
  - rewrite (lookup_split _ _ _ Hn), Hl, <- app_assoc. by rewrite take_app_length.
  - intros k b f y Hk Hf Hy. rewrite (lookup_split _ _ _ Hn), Hl, <- app_assoc in Hf. simpl in Hf.
    rewrite lookup_app_r in Hf by lia. replace (k - length l1) with (S (k - length l1 - 1)) in Hf by lia. simpl in Hf.
    rewrite lookup_app_l in Hf by lia. apply list_elem_of_lookup_2 in Hf. rewrite <- HF2. apply elem_of_effects. eauto.
Qed.

Lemma history_of m n i e x :
  reachable body m -> log m !! n = Some (i, e) -> effect_of e = Some x ->
  exists s, history (effects (take n (log m)) ++ x :: effects (drop (S n) (log m))) s.
Proof.
  intros Hm Hn He. pose proof (reachable_history m Hm) as Hh. rewrite (lookup_split _ _ _ Hn), effects_app in Hh.
  unfold effects at 2 in Hh. simpl in Hh. rewrite He in Hh. eauto.
Qed.

(** *** The number of actions of a call *)
Lemma turn_bounded n start (p : prog P A) ch t s e p' s' :
  bounded n p -> turn start p ch t s = Some (e, p', s') ->
  exists n', n = S n' /\ ((e <> LAgain /\ bounded n' p') \/ (e = LAgain /\ p' = start)).
Proof.
  intros Hb Ht. destruct n as [|n]; [by destruct p|]. exists n. split; [done|].
  destruct p as [a|x| |k|o k|w k|l k|w k|x k], ch as [|ap err|b|z|v]; cbn [turn] in Ht; try done; cbn [bounded] in Hb.
  - simplify_eq. by right.
  - simplify_eq. left. auto.
  - destruct (exec t o s) as [r s1] eqn:Hx. simplify_eq. left. split; [done|]. apply Hb. by eapply exec_fits.
  - destruct (errIs err ErrNotFound) eqn:Ee; [done|]. destruct (exec t o s) as [r s1]. left.
    destruct ap; simplify_eq; (split; [done|]); by apply Hb.
  - left. destruct b as [l|err]; [case_decide; [|done]|]; simplify_eq; (split; [done|]); apply Hb; intros ? [= <-]; done.
  - left. destruct z as [z|err]; [destruct (_ && _)%bool eqn:Ez; [|done]|]; simplify_eq; (split; [done|]); apply Hb;
      intros ? [= <-]. bool_to_prop. lia.
  - case_decide; simplify_eq. left. split; [done|]. by apply Hb.
  - simplify_eq. by left.
Qed.

Lemma bounded_runs m n i c p :
  calls m !! i = Some (c, p) -> bounded n p -> (exists a, returned m i c a) \/ exists ch m', step body (Run i ch) m = Some m'.
Proof.
  intros Hi Hb. unfold returned. assert (Ht : (exists a, p = Ret a) \/ exists ch, is_Some (turn (body c) p ch (clock m) (store m))).
  { destruct n as [|n]; [destruct p; try done; by left; eexists|].
    destruct p as [a|x| |k|o k|w k|l k|w k|x k]; [by left; eexists|done|right..].
    1,2,7: by exists Go. { exists Go. cbn. by destruct (exec _ _ _). } { by exists (Bytes (Fail (ENew ""))). }
    { by exists (Int (Fail (ENew ""))). }
    exists (Visit (seq 0 w)). cbn. rewrite decide_True; [done|]. split_and!; [apply NoDup_seq|apply length_seq|].
    apply Forall_forall. intros x Hx%elem_of_seq. lia. }
  destruct Ht as [[a ->]|[ch [[[e p'] s] Ht]]]; [left; eauto|]. right. exists ch. cbn [step]. rewrite Hi, Ht. eauto.
Qed.

Lemma reachable_local m i : reachable body m -> calls m !! i = None -> local i (log m) = [].
Proof.
  induction 1 as [t Ht|e m m' H IH Hs]; [done|]. destruct e as [j c'|t|j ch]; cbn [step] in Hs.
  - case_decide; [|done]. simplify_eq. cbn [calls log]. intros [Hi _]%lookup_insert_None. auto.
  - destruct (_ <=? _)%Z; simplify_eq. apply IH.
  - destruct (calls m !! j) as [[c' q]|] eqn:Ej; [|done]. destruct (turn _ _ _ _ _) as [[[e p'] s]|]; [|done].
    simplify_eq. cbn [calls log]. intros [Hi Hne]%lookup_insert_None. rewrite local_app, local_one, decide_False by done.
    by rewrite IH.
Qed.

Lemma reachable_bounded m K i c p :
  reachable body m -> bounded K (body c) -> calls m !! i = Some (c, p) ->
  exists r, bounded r p /\ length (local i (log m)) + r <= K * S (agains (local i (log m))).
Proof.
  intros Hm HK. revert p. induction Hm as [t Ht|e m m' H IH Hs]; intros p.
  { cbn. by rewrite lookup_empty. }
  destruct e as [j c'|t|j ch]; cbn [step] in Hs.
  - case_decide as Hj; [|done]. simplify_eq. cbn [calls log]. destruct (decide (j = i)) as [->|Hne].
    + rewrite lookup_insert_eq. intros [= -> <-]. exists K. split; [done|].
      assert (Hl : local i (log m) = []) by by apply reachable_local. rewrite Hl. cbn. lia.
    + rewrite lookup_insert_ne by done. apply IH.
  - destruct (_ <=? _)%Z; simplify_eq. apply IH.
  - destruct (calls m !! j) as [[c' q]|] eqn:Ej; [|done]. destruct (turn _ _ _ _ _) as [[[e p'] s]|] eqn:Et; [|done].
    simplify_eq. cbn [calls log]. rewrite local_app, local_one. destruct (decide (j = i)) as [->|Hne].
    + rewrite lookup_insert_eq. intros [= -> <-]. destruct (IH _ Ej) as (r&Hr&Hle).
      destruct (turn_bounded _ _ _ _ _ _ _ _ _ Hr Et) as (r'&->&[[He Hb]|[-> ->]]); unfold agains in *;
        rewrite sum_list_with_app, length_app; cbn [length sum_list_with].
      * exists r'. split; [done|]. lia.
      * exists K. split; [done|]. lia.
    + rewrite lookup_insert_ne, app_nil_r by done. apply IH.
Qed.

(** Two positions: the operations before, between and after. *)
Lemma history_two m n n' i i' e e' x y :
  reachable body m -> n < n' -> log m !! n = Some (i, e) -> log m !! n' = Some (i', e') ->
  effect_of e = Some x -> effect_of e' = Some y ->
  exists A B D s, history (A ++ x :: B ++ y :: D) s /\
    forall z, z ∈ B -> exists k b f, n < k < n' /\ log m !! k = Some (b, f) /\ effect_of f = Some z.
Proof.
  intros Hm Hlt Hn Hn' He He'. destruct (history_of m n' i' e' y Hm Hn' He') as (s&Hh).
  assert (Ht : take n' (log m) !! n = Some (i, e)) by by rewrite lookup_take_lt.
  rewrite (lookup_split _ _ _ Ht), effects_app in Hh. unfold effects at 2 in Hh. simpl in Hh. rewrite He in Hh.
  rewrite <- app_assoc in Hh. eexists _, _, _, s. split; [exact Hh|]. intros z Hz.
  apply elem_of_effects in Hz as (b&f&Hin&Hf). apply list_elem_of_lookup in Hin as [k Hk].
  rewrite lookup_drop in Hk. exists (S n + k), b, f. apply lookup_take_Some in Hk as [Hk ?]. split_and!; try done; lia.
Qed.

(** Claims of a key that nothing takes or replaces are [ttl] apart. *)
Lemma claims_apart m n n' i i' e e' t t' key ttl ttl' :
  reachable body m -> n < n' -> log m !! n = Some (i, e) -> log m !! n' = Some (i', e') ->
  effect_of e = Some (t, OpClaim key ttl, RClaimed true) -> effect_of e' = Some (t', OpClaim key ttl', RClaimed true) ->
  (forall k b f o, log m !! k = Some (b, f) -> op_of f = Some o -> leaves key o) -> (t + ttl <= t')%Z.
Proof.
  intros Hm Hlt Hn Hn' He He' Hl. destruct (history_two m n n' i i' e e' _ _ Hm Hlt Hn Hn' He He') as (A0&B&D&s&Hh&HB).
  apply (claimed_apart _ _ _ _ _ _ _ _ _ Hh). apply Forall_forall. intros [[tz oz] rz] Hz.
  destruct (HB _ Hz) as (k&b&f&Hk&Hf&Hfe). simpl. split.
  - destruct (reachable_times m Hm) as (_&_&Hmono).
    apply (Hmono (take k (log m)) b f (drop (S k) (log m)) i' e'); [by apply lookup_split| | |].
    + apply list_elem_of_lookup. exists (n' - S k). rewrite lookup_drop. by replace (S k + (n' - S k)) with n' by lia.
    + by destruct f as [| |t0 o0 r0|t0 o0 [r0|] err| | | |]; simpl in *; simplify_eq.
    + by destruct e' as [| |t0 o0 r0|t0 o0 [r0|] err| | | |]; simpl in *; simplify_eq.
  - eapply Hl; [done|]. by destruct f as [| |t0 o0 r0|t0 o0 [r0|] err| | | |]; simpl in *; simplify_eq.
Qed.

(** A session that was deleted or not found is read again only after it was put. *)
Lemma gone_until_put m n n' i i' e e' x t' id ts :
  reachable body m -> n < n' -> log m !! n = Some (i, e) -> log m !! n' = Some (i', e') ->
  effect_of e = Some x -> (exists t r, x = (t, OpDelete id, r)) \/ (exists t err, x = (t, OpGet id, RSession (Fail err))) ->
  effect_of e' = Some (t', OpGet id, RSession (Ok ts)) ->
  exists k b f t u r, n < k < n' /\ log m !! k = Some (b, f) /\ effect_of f = Some (t, OpPut u, r) /\ ID u = id.
Proof.
  intros Hm Hlt Hn Hn' He Hx He'. destruct (history_two m n n' i i' e e' _ _ Hm Hlt Hn Hn' He He') as (A0&B&D&s&Hh&HB).
  replace (A0 ++ x :: B ++ (t', OpGet id, RSession (Ok ts)) :: D)
    with ((((A0 ++ [x]) ++ B) ++ [(t', OpGet id, RSession (Ok ts))]) ++ D) in Hh by by rewrite <- !app_assoc.
  apply history_app in Hh as (s3&Hh&_). apply history_last in Hh as (s2&Hh&Hget).
  apply history_app in Hh as (s1&Hh&Hr).
  assert (Hs1 : sessions s1 !! id = None).
  { destruct Hx as [(t&r&->)|(t&err&->)]; apply history_last in Hh as (s0&_&Hx0);
      eauto using deleted_gone, missing_gone. }
  assert (Hs2 : sessions s2 !! id = Some ts).
  { cbn [exec] in Hget. unfold GetTokenSession in Hget. destruct (sessions s2 !! id); [|done]. destruct (negb _); by simplify_eq. }
  destruct (runs_gone _ _ _ _ _ Hr Hs1 Hs2) as (E1&t&u&r&E2&->&Hid).
  destruct (HB (t, OpPut u, r)) as (k&b&f&Hk&Hf&Hfe).
  { apply elem_of_app. right. left. }
  exists k, b, f, t, u, r. auto.
Qed.

(** A session that is read although a rotation from its token id just failed was stored
    after the rotation. *)
Lemma stored_after_failure m n n' i i' e e' t u prev err t' id ts :
  reachable body m -> n < n' -> log m !! n = Some (i, e) -> log m !! n' = Some (i', e') ->
  effect_of e = Some (t, OpRotate u prev, RErr (Some err)) -> ID u = id ->
  effect_of e' = Some (t', OpGet id, RSession (Ok ts)) -> TokenID ts = prev ->
  exists k b f y, n < k < n' /\ log m !! k = Some (b, f) /\ effect_of f = Some y /\ stores ts y.
Proof.
  intros Hm Hlt Hn Hn' He Hu He' Htk.
  destruct (history_two m n n' i i' e e' _ _ Hm Hlt Hn Hn' He He') as (A0&B&D&s&Hh&HB).
  destruct (reachable_times m Hm) as (_&_&Hmono).
  assert (Htt : (t <= t')%Z).
  { apply (Hmono (take n (log m)) i e (drop (S n) (log m)) i' e'); [by apply lookup_split| | |].
    + apply list_elem_of_lookup. exists (n' - S n). rewrite lookup_drop. by replace (S n + (n' - S n)) with n' by lia.
    + by destruct e as [| |t0 o0 r0|t0 o0 [r0|] er| | | |]; simpl in *; simplify_eq.
    + by destruct e' as [| |t0 o0 r0|t0 o0 [r0|] er| | | |]; simpl in *; simplify_eq. }
  set (x := (t, OpRotate u prev, RErr (Some err))) in Hh. set (y := (t', OpGet id, RSession (Ok ts))) in Hh.
  replace (A0 ++ x :: B ++ y :: D) with ((((A0 ++ [x]) ++ B) ++ [y]) ++ D) in Hh by by rewrite <- !app_assoc.
  apply history_app in Hh as (s3&Hh&_). apply history_last in Hh as (s2&Hh&Hget).
  apply history_app in Hh as (s1&Hh&Hr). apply history_last in Hh as (s0&_&Hrot).
  cbn [exec] in Hget. unfold GetTokenSession in Hget. destruct (sessions s2 !! id) as [w|] eqn:Ew; [|done].
  destruct (Z.ltb_spec t' (ExpiresAt w)) as [Hexp|]; [|done]. simpl in Hget. assert (w = ts) as -> by congruence.
  destruct (runs_present _ _ _ _ _ Hr Ew) as [(z&Hz&Hst)|Hold].
  { destruct (HB _ Hz) as (k&b&f&?&?&?). exists k, b, f, z. auto. }
  exfalso. cbn [exec] in Hrot. unfold RotateTokenSession in Hrot. destruct (sessions s0 !! ID u) as [cur|] eqn:Ec.
  - destruct (_ || _)%bool eqn:Eb; simplify_eq. apply orb_true_iff in Eb as [Eb|Eb].
    + rewrite bool_decide_true in Eb by congruence. done.
    + rewrite (proj2 (Z.ltb_lt t (ExpiresAt cur))) in Eb by lia. done.
  - simplify_eq.
Qed.

(** A value that is taken was stored by an earlier operation; nothing in between touches
    the key. *)
Lemma taken_from m n i e t key v :
  reachable body m -> log m !! n = Some (i, e) -> effect_of e = Some (t, OpTake key, RValue (Ok v)) ->
  exists n' j e' x exp, n' < n /\ log m !! n' = Some (j, e') /\ effect_of e' = Some x /\ sets key (mkOnce v exp) x /\
    (t < exp)%Z /\ forall k b f y, n' < k < n -> log m !! k = Some (b, f) -> effect_of f = Some y -> untouched key y.
Proof.
  intros Hm Hn He. destruct (history_of m n i e _ Hm Hn He) as (s&Hh).
  destruct (taken_origin _ _ _ _ _ _ Hh) as (F1&x&F2&exp&HF&Hs&Ht&Hu). rewrite Forall_forall in Hu.
  destruct (position_of m n i e F1 x F2 Hn HF) as (n'&j&e'&?&?&?&_&Hb). exists n', j, e', x, exp. split_and!; eauto.
Qed.

(** A session that is read was stored by an earlier operation, the last one on its id. *)
Lemma read_from m n i e t id ts :
  reachable body m -> log m !! n = Some (i, e) -> effect_of e = Some (t, OpGet id, RSession (Ok ts)) ->
  (t < ExpiresAt ts)%Z /\ ID ts = id /\
  exists n' j e' x, n' < n /\ log m !! n' = Some (j, e') /\ effect_of e' = Some x /\ stores ts x /\
    forall k b f y, n' < k < n -> log m !! k = Some (b, f) -> effect_of f = Some y -> spares_id id y.
Proof.
  intros Hm Hn He. destruct (history_of m n i e _ Hm Hn He) as (s&Hh).
  destruct (read_origin _ _ _ _ _ _ Hh) as (Ht&Hid&F1&x&F2&HF&Hs&Hu). rewrite Forall_forall in Hu.
  destruct (position_of m n i e F1 x F2 Hn HF) as (n'&j&e'&?&?&?&_&Hb). split_and!; try done.
  exists n', j, e', x. split_and!; eauto.
Qed.

(** A rotation that succeeds replaces the session the last operation on its id stored. *)
Lemma rotated_from m n i e t ts prev :
  reachable body m -> log m !! n = Some (i, e) -> effect_of e = Some (t, OpRotate ts prev, RErr None) ->
  exists cur, TokenID cur = prev /\ ID cur = ID ts /\
  exists n' j e' x, n' < n /\ log m !! n' = Some (j, e') /\ effect_of e' = Some x /\ stores cur x /\
    forall k b f y, n' < k < n -> log m !! k = Some (b, f) -> effect_of f = Some y -> spares_id (ID ts) y.
Proof.
  intros Hm Hn He. destruct (history_of m n i e _ Hm Hn He) as (s&Hh).
  destruct (rotate_origin _ _ _ _ _ _ Hh) as (cur&Htk&_&Hid&F1&x&F2&HF&Hs&Hu). rewrite Forall_forall in Hu.
  destruct (position_of m n i e F1 x F2 Hn HF) as (n'&j&e'&?&?&?&_&Hb). exists cur. split_and!; try done.
  exists n', j, e', x. split_and!; eauto.
Qed.

(** No key is given out twice by an operation that satisfies [f]. *)
Definition once_only (m : machine P C A) (f : op -> Prop) : Prop :=
  forall n n' i i' e e' o o', log m !! n = Some (i, e) -> log m !! n' = Some (i', e') ->
    op_of e = Some o -> op_of e' = Some o' -> f o -> f o' -> n = n'.

Lemma effect_op (e : lev P) t o r : effect_of e = Some (t, o, r) -> op_of e = Some o.
Proof. destruct e as [| |t' o' r'|t' o' [r'|] err| | | |]; simpl; intros; by simplify_eq. Qed.

(** Two values taken from under one key were stored by different operations. *)
Lemma taken_apart m n n' i i' e e' t t' key v v' :
  reachable body m -> n < n' -> log m !! n = Some (i, e) -> log m !! n' = Some (i', e') ->
  effect_of e = Some (t, OpTake key, RValue (Ok v)) -> effect_of e' = Some (t', OpTake key, RValue (Ok v')) ->
  exists p' j' f' x' exp', n < p' < n' /\ log m !! p' = Some (j', f') /\ effect_of f' = Some x' /\
    sets key (mkOnce v' exp') x' /\ (t' < exp')%Z.
Proof.
  intros Hm Hnn Hn Hn' He He'.
  destruct (taken_from m n' i' e' t' key v' Hm Hn' He') as (p'&j'&f'&x'&exp'&Hp'&Hpl'&Hf'&Hs'&Ht&Hu).
  exists p', j', f', x', exp'. split_and!; try done. destruct (Nat.lt_trichotomy p' n) as [Hc|[->|Hc]]; [|exfalso|done].
  - by destruct (Hu n i e (t, OpTake key, RValue (Ok v))).
  - rewrite Hpl' in Hn. by simplify_eq.
Qed.
End Machine.
End ProgLog.
