(* ===== verification/Identity.v ===== *)
(** * Identity: sessions, logins and tokens

    internal/identity: token sessions and the tokens signed for them (identity.go), the
    logins of agents by authorization code, consent and device code with refresh tokens
    (agent_login.go, agent_consent.go), the browser logins of endpoints
    (endpoint_login.go). Every method is a program of [Prog] over the session store; the
    keyring of internal/token signs and verifies; encoding/json and net/url are
    parameters. *)
From S2P Require Import Prelude GoIO GoStrings GoNet Frames Sessions Token Authz Prog ProgLog.
Import Sessions Prog.
Import Token (Keyring, Claims, mkClaims, Sign, Verify, Ed25519, Sum256, hex_bytes).
Import Authz.Decision (EntityRef, mkRef, RefType, RefID, EntityUser, EntityServiceAccount, EntityRef_eq_dec, EntityRef_countable).
Import Frames.Control (Codec, Marshal, Unmarshal).

Module Identity.
#[export] Existing Instance EntityRef_eq_dec.
#[export] Existing Instance EntityRef_countable.

(** ** Constants *)

Definition second : Z := 1000000000.
Definition minute : Z := 60 * second.
Definition hour : Z := 60 * minute.

Definition SubjectUser : string := "user".
Definition SubjectServiceAccount : string := "service_account".
Definition SubjectGuest : string := "guest".
Definition TypeSession : string := "session".
Definition TypeAgentUser : string := "agent_user".
Definition TypeRefresh : string := "refresh".
Definition AuthMethodOIDC : string := "oidc".

Definition AgentClientID : string := "mishmesh-agent".
Definition AgentAccessTTL : Z := hour.
Definition AgentSessionTTL : Z := 7 * 24 * hour.
Definition RefreshGrace : Z := 20 * second.
Definition refreshGraceKey : string := "rgrace:".
Definition AuthCodeTTL : Z := 60 * second.
Definition DeviceCodeTTL : Z := 10 * minute.
Definition DevicePollInterval : Z := 5 * second.
Definition authCodeKey : string := "authcode:".
Definition deviceUserKey : string := "devuser:".
Definition deviceApprovedKey : string := "devok:".
Definition devicePollKey : string := "devpoll:".
Definition deviceDeniedKey : string := "devdeny:".
Definition consentKey : string := "consent:".
Definition endpointLoginKey : string := "eplogin:".
Definition userCodeAlphabet : string := "BCDFGHJKLMNPQRSTVWXZ".
Definition userCodeLength : nat := 8.
Definition minVerifierLength : Z := 43.
Definition maxVerifierLength : Z := 128.
Definition maxCodeBytes : Z := 128.
Definition maxRedirectURIBytes : Z := 512.
Definition ConsentTTL : Z := 5 * minute.
Definition maxStateBytes : Z := 512.
Definition consentDeniedCode : string := "access_denied".
Definition EndpointLoginTTL : Z := 60 * second.
Definition endpointCodeBytes : nat := 32.
Definition maxReturnPathBytes : Z := 2048.

Definition ErrUnauthenticated : goerr := ENew "identity: unauthenticated".
Definition ErrUnavailable : goerr := ENew "identity: session store unavailable".
Definition ErrRefreshReused : goerr := EWrap "" ErrUnauthenticated ": refresh token reused, session revoked".
Definition errTokenSuperseded : goerr := EWrap "" ErrUnauthenticated ": token superseded".
Definition ErrAuthorizationPending : goerr := ENew "identity: authorization pending".
Definition ErrSlowDown : goerr := ENew "identity: polling too fast".
Definition ErrExpiredCode : goerr := ENew "identity: code expired".
Definition ErrAccessDenied : goerr := ENew "identity: access denied".

Definition unavailable (err : goerr) : goerr := EWrap "" ErrUnavailable (": " +:+ errText err).

(** ** Data *)

Record Principal := mkPrincipal {
  p_OrgID : string;
  p_Ref : EntityRef;
  p_SessionID : string;
  p_Type : string;
  p_AuthMethod : string;
  p_AuthTime : Z;
  p_ExpiresAt : Z;
  p_EndpointID : string;
  p_AgentID : string
}.

Record Revocation := mkRevocation { rv_OrgID : string; rv_Subject : EntityRef; rv_SessionIDs : list string }.

Record IssueRequest := mkIssueRequest {
  ir_SessionID : string;
  ir_OrgID : string;
  ir_Subject : EntityRef;
  ir_Type : string;
  ir_AuthMethod : string;
  ir_AuthTime : Z;
  ir_TTL : Z;
  ir_EndpointID : string;
  ir_AgentID : string
}.

Record Issued := mkIssued { is_Token : list byte; is_Session : TokenSession; is_ExpiresIn : Z }.

Record AgentLogin := mkLogin {
  l_OrgID : string;
  l_UserID : string;
  l_AuthMethod : string;
  l_AuthTime : Z;
  l_Challenge : string;
  l_RedirectURI : string
}.

Record AgentTokens := mkTokens {
  AccessToken : list byte;
  RefreshToken : list byte;
  ExpiresIn : Z;
  tk_Session : TokenSession
}.

Record DeviceStart := mkDeviceStart { DeviceCode : string; UserCode : string; ds_ExpiresIn : Z; ds_Interval : Z }.

Record pendingDevice := mkPendingDevice { DeviceHash : string; pd_ExpiresAt : Z }.

Record ConsentRequest := mkConsentRequest {
  cr_ID : string;
  cr_ClientID : string;
  cr_OrgID : string;
  cr_UserID : string;
  cr_RedirectURI : string;
  cr_AuthMethod : string;
  cr_ExpiresAt : Z
}.

Record DeviceRequest := mkDeviceRequest { dr_UserCode : string; dr_ClientID : string; dr_ExpiresAt : Z }.

Record pendingConsent := mkPendingConsent { pc_Login : AgentLogin; pc_State : string; pc_ExpiresAt : Z }.

Record EndpointLogin := mkEndpointLogin {
  el_EndpointID : string;
  el_OrgID : string;
  el_UserID : string;
  el_AuthMethod : string;
  el_AuthTime : Z;
  el_Return : string
}.

(** net/url: what [LoopbackRedirect] asks of a parsed URL. *)
Record URL := mkURL { Scheme : string; hasUser : bool; Fragment : string; Hostname : string; Port : string }.
Class UrlParser := url_Parse : string -> option URL.

(** [strings.ToUpper]: outside ASCII a parameter. *)
Class UnicodeUpper := uni_upper : string -> string.

Definition upper_byte (b : byte) : byte :=
  let z := byteZ b in if ((97 <=? z) && (z <=? 122))%Z then Zbyte (z - 32) else b.

Definition ToUpper `{UnicodeUpper} (s : string) : string :=
  if forallb is_ascii_byte (bytes_of s) then string_of (map upper_byte (bytes_of s)) else uni_upper s.

(** ** encoding/base32 with an alphabet of lower-case letters, without padding *)

Definition base32_digit (z : Z) : byte := if (z <? 26)%Z then Zbyte (97 + z) else Zbyte (24 + z).

Fixpoint base32 (l : list byte) : list byte :=
  match l with
  | a :: b :: c :: d :: e :: rest =>
      let v := (byteZ a * 2 ^ 32 + byteZ b * 2 ^ 24 + byteZ c * 2 ^ 16 + byteZ d * 2 ^ 8 + byteZ e)%Z in
      map (fun i => base32_digit (Z.shiftr v (5 * i) mod 32)) [7; 6; 5; 4; 3; 2; 1; 0]%Z ++ base32 rest
  | [a; b; c; d] =>
      let v := (byteZ a * 2 ^ 32 + byteZ b * 2 ^ 24 + byteZ c * 2 ^ 16 + byteZ d * 2 ^ 8)%Z in
      map (fun i => base32_digit (Z.shiftr v (5 * i) mod 32)) [7; 6; 5; 4; 3; 2; 1]%Z
  | [a; b; c] =>
      let v := (byteZ a * 2 ^ 32 + byteZ b * 2 ^ 24 + byteZ c * 2 ^ 16)%Z in
      map (fun i => base32_digit (Z.shiftr v (5 * i) mod 32)) [7; 6; 5; 4; 3]%Z
  | [a; b] =>
      let v := (byteZ a * 2 ^ 32 + byteZ b * 2 ^ 24)%Z in
      map (fun i => base32_digit (Z.shiftr v (5 * i) mod 32)) [7; 6; 5; 4]%Z
  | [a] => let v := (byteZ a * 2 ^ 32)%Z in map (fun i => base32_digit (Z.shiftr v (5 * i) mod 32)) [7; 6]%Z
  | [] => []
  end.

(** ** Pure helpers *)

Definition SubjectTypeOf (t : string) : option string :=
  if decide (t = EntityUser) then Some SubjectUser
  else if decide (t = EntityServiceAccount) then Some SubjectServiceAccount
  else None.

(** The second result of the Go function is whether it is [Some]; the first is then the
    content, else the empty string. *)
Definition EntityTypeOf (subjectType : string) : option string :=
  if decide (subjectType = SubjectUser) then Some EntityUser
  else if decide (subjectType = SubjectServiceAccount) then Some EntityServiceAccount
  else None.

Definition subject_ref (ts : TokenSession) : EntityRef := mkRef (default "" (EntityTypeOf (SubjectType ts))) (SubjectID ts).

Definition unreserved (c : byte) : bool :=
  let z := byteZ c in
  ((97 <=? z) && (z <=? 122) || (65 <=? z) && (z <=? 90) || (48 <=? z) && (z <=? 57))%Z
  || bool_decide (c ∈ bytes_of "-._~").

(** A rune outside ASCII is not unreserved, nor is any of its bytes. *)
Definition validVerifier (verifier : string) : bool :=
  if (slen verifier <? minVerifierLength)%Z || (maxVerifierLength <? slen verifier)%Z then false
  else forallb unreserved (bytes_of verifier).

Definition ValidCodeChallenge (challenge : string) : bool :=
  (slen challenge =? 43)%Z &&
  match Base64.DecodeString (bytes_of challenge) with Some _ => true | None => false end.

Definition ValidState (state : string) : bool := negb (bool_decide (state = "")) && (slen state <=? maxStateBytes)%Z.

Definition SafeReturnPath (p : string) : bool :=
  if bool_decide (p = "") || (maxReturnPathBytes <? slen p)%Z || negb (HasPrefix p "/") then false
  else if HasPrefix p "//" || HasPrefix p "/\" then false
  else forallb (fun c => negb ((byteZ c <? 32)%Z || (byteZ c =? 127)%Z || Ascii.eqb c "\")) (bytes_of p).

(** The letters of a user code; dashes and spaces are skipped. *)
Fixpoint user_letters (l : list byte) : option (list byte) :=
  match l with
  | [] => Some []
  | c :: l' =>
      if bool_decide (c ∈ bytes_of userCodeAlphabet) then (fun r => c :: r) <$> user_letters l'
      else if Ascii.eqb c "-" || Ascii.eqb c " " then user_letters l'
      else None
  end.

Definition NormalizeUserCode `{UnicodeUpper} (raw : string) : string :=
  if (maxCodeBytes <? slen raw)%Z then ""
  else
    match user_letters (bytes_of (ToUpper raw)) with
    | None => ""
    | Some code =>
        if bool_decide (length code = userCodeLength) then string_of (take 4 code ++ "-"%char :: drop 4 code) else ""
    end.

Definition LoopbackRedirect `{UrlParser} (raw : string) : bool :=
  if bool_decide (raw = "") || (maxRedirectURIBytes <? slen raw)%Z then false
  else
    match url_Parse raw with
    | None => false
    | Some u =>
        if negb (bool_decide (Scheme u = "http")) || hasUser u || negb (bool_decide (Fragment u = ""))
           || bool_decide (Port u = "") then false
        else let ip := ParseIP (Hostname u) in negb (bool_decide (ip = nilIP)) && IsLoopback ip
    end.

(** [url.QueryEscape] and [url.Values.Encode]: the keys are sorted. *)
Definition hex_upper (z : Z) : byte := Zbyte (if (z <? 10)%Z then 48 + z else 55 + z).

Definition escape_byte (c : byte) : list byte :=
  if unreserved c then [c]
  else if Ascii.eqb c " " then ["+"%char]
  else ["%"%char; hex_upper (byteZ c / 16); hex_upper (byteZ c mod 16)].

Definition QueryEscape (s : string) : string := string_of (flat_map escape_byte (bytes_of s)).

Definition Encode (v : list (string * string)) : string :=
  String.concat "&" (map (fun kv => QueryEscape kv.1 +:+ "=" +:+ QueryEscape kv.2)
    (sort_by (fun a b => str_leb a.1 b.1) v)).

(** [strings.Cut(s, ".")]: what is before the first dot, when there is one. *)
Definition before_dot (s : string) : option string :=
  match Split s "." with
  | w :: _ :: _ => Some w
  | _ => None
  end.

Section Hashes.
Context `{ed : Ed25519}.

Definition HashToken (raw : string) : string := string_of (hex_bytes (Sum256 (bytes_of raw))).

Definition VerifyPKCE (challenge verifier : string) : bool :=
  if negb (validVerifier verifier) then false
  else bool_decide (string_of (Base64.EncodeToString (Sum256 (bytes_of verifier))) = challenge).

Definition nextTokenID (sessionID tokenID : string) : string :=
  "tid_" +:+ string_of (base32 (take 15 (Sum256 (bytes_of (sessionID +:+ "|" +:+ tokenID))))).
End Hashes.

(** ** identity.go *)
Abbreviation prog := (Prog.prog Revocation).

Definition NewID (prefix : string) : prog string :=
  Rand 10 (fun r =>
    match r with
    | Fail err => Panic ("store: crypto/rand failed: " +:+ errText err)
    | Ok b => Ret (if bool_decide (prefix = "") then string_of (base32 b) else prefix +:+ "_" +:+ string_of (base32 b))
    end).

Section Service.
Context `{ed : Ed25519} `{claims : Codec Claims} `{logins : Codec AgentLogin} `{devices : Codec pendingDevice}
  `{consents : Codec pendingConsent} `{endpoints : Codec EndpointLogin} `{url : UrlParser} `{upper : UnicodeUpper}.
Context (keys : Keyring).

Definition sign (ts : TokenSession) (typ : string) : prog (res (list byte)) :=
  t ← now;
  Ret (Sign keys (mkClaims typ (ID ts) (TokenID ts) (OrgID ts) (Unix t) (Unix (ExpiresAt ts)))).

Definition store (ts : TokenSession) (typ : string) : prog (res Issued) :=
  raw ← sign ts typ;
  match raw with
  | Fail err => Ret (Fail err)
  | Ok raw =>
      err ← putTokenSession ts;
      match err with
      | Some err => Ret (Fail (unavailable err))
      | None => t ← now; Ret (Ok (mkIssued raw ts (dur_round (time_sub (ExpiresAt ts) t) second)))
      end
  end.

Definition Issue (req : IssueRequest) : prog (res Issued) :=
  match SubjectTypeOf (RefType (ir_Subject req)) with
  | Some subjectType =>
      if bool_decide (RefID (ir_Subject req) = "") || bool_decide (ir_OrgID req = "") || (ir_TTL req <=? 0)%Z
      then Ret (Fail (ENew "identity: issue needs org, user or service account subject and ttl"))
      else
        t ← now;
        let authTime := if (ir_AuthTime req =? 0)%Z then t else ir_AuthTime req in
        sessionID ← (if bool_decide (ir_SessionID req = "") then NewID "tsn" else Ret (ir_SessionID req));
        tokenID ← NewID "tid";
        store (mkSession sessionID (ir_OrgID req) subjectType (RefID (ir_Subject req)) tokenID (ir_AuthMethod req)
                 authTime t (t + ir_TTL req) (ir_EndpointID req) (ir_AgentID req) "" 0) (ir_Type req)
  | None => Ret (Fail (ENew "identity: issue needs org, user or service account subject and ttl"))
  end.

Definition with_token (tokenID : string) (expires : Z) (ts : TokenSession) : TokenSession :=
  mkSession (ID ts) (OrgID ts) (SubjectType ts) (SubjectID ts) tokenID (AuthMethod ts) (AuthTime ts) (CreatedAt ts)
    expires (EndpointID ts) (AgentID ts) (PrevTokenID ts) (RotatedAt ts).

Definition Reissue (sessionID typ : string) (ttl : Z) : prog (res Issued) :=
  r ← getTokenSession sessionID;
  match r with
  | Fail err => Ret (Fail (if errIs err ErrNotFound then ErrUnauthenticated else unavailable err))
  | Ok ts =>
      t ← now;
      tokenID ← NewID "tid";
      store (with_token tokenID (t + ttl) ts) typ
  end.

Definition Resign (ts : TokenSession) (typ : string) : prog (res Issued) :=
  raw ← sign ts typ;
  match raw with
  | Fail err => Ret (Fail err)
  | Ok raw => t ← now; Ret (Ok (mkIssued raw ts (dur_round (time_sub (ExpiresAt ts) t) second)))
  end.

(** The session, the type of the token and the error; a superseded token comes with its
    session. *)
Definition verify (raw : list byte) (allowed : list string) : prog (option TokenSession * string * option goerr) :=
  t ← now;
  match Verify keys raw t with
  | Fail _ => Ret (None, "", Some ErrUnauthenticated)
  | Ok claims =>
      if negb (bool_decide (allowed = [])) && negb (bool_decide (Token.Type_ claims ∈ allowed))
      then Ret (None, "", Some ErrUnauthenticated)
      else
        r ← getTokenSession (Token.SessionID claims);
        match r with
        | Fail err => Ret (None, "", Some (if errIs err ErrNotFound then ErrUnauthenticated else unavailable err))
        | Ok ts =>
            if negb (bool_decide (OrgID ts = Token.OrgID claims)) then Ret (None, "", Some ErrUnauthenticated)
            else if negb (bool_decide (TokenID ts = Token.TokenID claims))
            then Ret (Some ts, Token.Type_ claims, Some errTokenSuperseded)
            else
              t ← now;
              if negb (t <? ExpiresAt ts)%Z then Ret (None, "", Some ErrUnauthenticated)
              else Ret (Some ts, Token.Type_ claims, None)
        end
  end.

Definition Authenticate (raw : list byte) (allowed : list string) : prog (res Principal) :=
  v ← verify raw allowed;
  match v with
  | (Some ts, typ, None) =>
      match EntityTypeOf (SubjectType ts) with
      | None => Ret (Fail ErrUnauthenticated)
      | Some entity =>
          Ret (Ok (mkPrincipal (OrgID ts) (mkRef entity (SubjectID ts)) (ID ts) typ (AuthMethod ts) (AuthTime ts)
            (ExpiresAt ts) (EndpointID ts) (AgentID ts)))
      end
  | (_, _, err) => Ret (Fail (default ErrUnauthenticated err))
  end.

Definition IssueGuest (orgID endpointID email : string) (ttl : Z) : prog (res Issued) :=
  if bool_decide (orgID = "") || bool_decide (endpointID = "") || bool_decide (email = "") || (ttl <=? 0)%Z
  then Ret (Fail (ENew "identity: guest session needs org, endpoint, email and ttl"))
  else
    t ← now;
    id ← NewID "tsn";
    tokenID ← NewID "tid";
    store (mkSession id orgID SubjectGuest email tokenID AuthMethodOIDC t t (t + ttl) endpointID "" "" 0) TypeSession.

Definition AuthenticateGuest (raw : list byte) (endpointID : string) : prog (res string) :=
  v ← verify raw [TypeSession];
  match v with
  | (Some ts, _, None) =>
      if negb (bool_decide (SubjectType ts = SubjectGuest)) || negb (bool_decide (EndpointID ts = endpointID))
         || bool_decide (SubjectID ts = "") then Ret (Fail ErrUnauthenticated)
      else Ret (Ok (SubjectID ts))
  | (_, _, err) => Ret (Fail (default ErrUnauthenticated err))
  end.

Definition publish (rev : Revocation) : prog unit := Publish rev (Ret tt).

Definition RevokeSession (id : string) : prog (option goerr) :=
  r ← getTokenSession id;
  match r with
  | Fail err => Ret (if errIs err ErrNotFound then None else Some (unavailable err))
  | Ok ts =>
      err ← deleteTokenSession id;
      match err with
      | Some err => Ret (Some (unavailable err))
      | None => _ ← publish (mkRevocation (OrgID ts) (subject_ref ts) [id]); Ret None
      end
  end.

Definition RevokeSubject (orgID : string) (subject : EntityRef) : prog (option goerr) :=
  match SubjectTypeOf (RefType subject) with
  | None => Ret (Some (ENew "identity: revoke needs a user or service account"))
  | Some subjectType =>
      ids ← deleteSubjectSessions orgID subjectType (RefID subject);
      match ids with
      | Fail err => Ret (Some (unavailable err))
      | Ok ids => _ ← publish (mkRevocation orgID subject ids); Ret None
      end
  end.

Definition EndpointSessions (orgID endpointID : string) : prog (res (list TokenSession)) :=
  r ← listEndpointSessions orgID endpointID;
  match r with Fail err => Ret (Fail (unavailable err)) | Ok l => Ret (Ok l) end.

Definition RevokeEndpointSession (orgID endpointID id : string) : prog (option goerr) :=
  r ← getTokenSession id;
  match r with
  | Fail err => Ret (Some (if errIs err ErrNotFound then ErrNotFound else unavailable err))
  | Ok ts =>
      if negb (bool_decide (OrgID ts = orgID)) || negb (bool_decide (EndpointID ts = endpointID))
      then Ret (Some ErrNotFound)
      else RevokeSession id
  end.

(** [bySubject[subject] = append(bySubject[subject], ts.ID)] *)
Definition add_by_subject (m : gmap EntityRef (list string)) (ts : TokenSession) : gmap EntityRef (list string) :=
  <[subject_ref ts := default [] (m !! subject_ref ts) ++ [ID ts]]> m.

Fixpoint publish_each (orgID : string) (l : list (EntityRef * list string)) : prog unit :=
  match l with
  | [] => Ret tt
  | (subject, ids) :: l' => _ ← publish (mkRevocation orgID subject ids); publish_each orgID l'
  end.

Definition RevokeEndpointSessions (orgID endpointID : string) : prog (res Z) :=
  r ← deleteEndpointSessions orgID endpointID;
  match r with
  | Fail err => Ret (Fail (unavailable err))
  | Ok revoked =>
      let bySubject := map_to_list (fold_left add_by_subject revoked ∅) in
      order ← Order (length bySubject) Ret;
      _ ← publish_each orgID (omap (fun i => bySubject !! i) order);
      Ret (Ok (len revoked))
  end.

Definition SessionActive (id : string) : prog (res bool) :=
  r ← getTokenSession id;
  match r with
  | Fail err => Ret (if errIs err ErrNotFound then Ok false else Fail (unavailable err))
  | Ok ts => t ← now; Ret (Ok (t <? ExpiresAt ts)%Z)
  end.

(** ** agent_login.go *)

Definition randomCode : prog (res string) :=
  Rand 32 (fun r =>
    match r with
    | Fail err => Ret (Fail err)
    | Ok buf => Ret (Ok (string_of (Base64.EncodeToString buf)))
    end).

Definition PutAuthCode (l : AgentLogin) : prog (res string) :=
  if bool_decide (l_OrgID l = "") || bool_decide (l_UserID l = "") || negb (ValidCodeChallenge (l_Challenge l))
     || negb (LoopbackRedirect (l_RedirectURI l))
  then Ret (Fail (ENew "identity: auth code needs org, user, S256 challenge and loopback redirect"))
  else
    code ← randomCode;
    match code with
    | Fail err => Ret (Fail err)
    | Ok code =>
        match Marshal l with
        | Fail err => Ret (Fail err)
        | Ok raw =>
            err ← putOnce (authCodeKey +:+ HashToken code) raw AuthCodeTTL;
            match err with Some err => Ret (Fail (unavailable err)) | None => Ret (Ok code) end
        end
    end.

Definition RedeemAuthCode (code verifier redirectURI : string) : prog (res AgentLogin) :=
  if bool_decide (code = "") || (maxCodeBytes <? slen code)%Z then Ret (Fail ErrUnauthenticated)
  else
    r ← takeOnce (authCodeKey +:+ HashToken code);
    match r with
    | Fail err => Ret (Fail (if errIs err ErrNotFound then ErrUnauthenticated else unavailable err))
    | Ok raw =>
        match Unmarshal raw with
        | Fail _ => Ret (Fail ErrUnauthenticated)
        | Ok l =>
            if negb (bool_decide (l_RedirectURI l = redirectURI)) || negb (VerifyPKCE (l_Challenge l) verifier)
            then Ret (Fail ErrUnauthenticated)
            else Ret (Ok l)
        end
    end.

(** The digits from the [i]-th on, [n] of them. *)
Fixpoint user_code_from (i n : nat) : prog (res (list byte)) :=
  match n with
  | O => Ret (Ok [])
  | S n' =>
      RandInt (slen userCodeAlphabet) (fun r =>
        match r with
        | Fail err => Ret (Fail err)
        | Ok z =>
            rest ← user_code_from (S i) n';
            match rest with
            | Fail err => Ret (Fail err)
            | Ok l =>
                Ret (Ok ((if (i =? userCodeLength / 2)%nat then ["-"%char] else [])
                         ++ nth (Z.to_nat z) (bytes_of userCodeAlphabet) "000"%char :: l))
            end
        end)
  end.

Definition newUserCode : prog (res string) :=
  r ← user_code_from 0 userCodeLength;
  Ret (match r with Fail err => Fail err | Ok l => Ok (string_of l) end).

Definition StartDevice : prog (res DeviceStart) :=
  secret ← randomCode;
  match secret with
  | Fail err => Ret (Fail err)
  | Ok secret =>
      userCode ← newUserCode;
      match userCode with
      | Fail err => Ret (Fail err)
      | Ok userCode =>
          t ← now;
          let expires := (t + DeviceCodeTTL)%Z in
          let deviceCode := Itoa (Unix expires) +:+ "." +:+ secret in
          match Marshal (mkPendingDevice (HashToken deviceCode) (Unix expires)) with
          | Fail err => Ret (Fail err)
          | Ok raw =>
              err ← putOnce (deviceUserKey +:+ userCode) raw DeviceCodeTTL;
              match err with
              | Some err => Ret (Fail (unavailable err))
              | None => Ret (Ok (mkDeviceStart deviceCode userCode DeviceCodeTTL DevicePollInterval))
              end
          end
      end
  end.

(** agent_consent.go; used by [ApproveDevice] and [DenyDevice]. *)
Definition takePendingDevice (userCode : string) : prog (res (pendingDevice * Z)) :=
  let code := NormalizeUserCode userCode in
  if bool_decide (code = "") then Ret (Fail ErrUnauthenticated)
  else
    r ← takeOnce (deviceUserKey +:+ code);
    match r with
    | Fail err => Ret (Fail (if errIs err ErrNotFound then ErrUnauthenticated else unavailable err))
    | Ok raw =>
        match Unmarshal raw with
        | Fail _ => Ret (Fail ErrUnauthenticated)
        | Ok pending =>
            t ← now;
            let remaining := time_sub (time_Unix (pd_ExpiresAt pending)) t in
            if (remaining <=? 0)%Z then Ret (Fail ErrUnauthenticated) else Ret (Ok (pending, remaining))
        end
    end.

Definition without_redirect (l : AgentLogin) : AgentLogin :=
  mkLogin (l_OrgID l) (l_UserID l) (l_AuthMethod l) (l_AuthTime l) "" "".

Definition ApproveDevice (userCode : string) (l : AgentLogin) : prog (option goerr) :=
  if bool_decide (l_OrgID l = "") || bool_decide (l_UserID l = "") then Ret (Some ErrUnauthenticated)
  else
    r ← takePendingDevice userCode;
    match r with
    | Fail err => Ret (Some err)
    | Ok (pending, remaining) =>
        match Marshal (without_redirect l) with
        | Fail err => Ret (Some err)
        | Ok login =>
            err ← putOnce (deviceApprovedKey +:+ DeviceHash pending) login remaining;
            Ret (option_map unavailable err)
        end
    end.

Definition pendingOrDenied (hash : string) : prog goerr :=
  r ← peekOnce (deviceDeniedKey +:+ hash);
  Ret (match r with
       | Ok _ => ErrAccessDenied
       | Fail err => if errIs err ErrNotFound then ErrAuthorizationPending else unavailable err
       end).

Definition PollDevice (deviceCode : string) : prog (res AgentLogin) :=
  match before_dot deviceCode with
  | None => Ret (Fail ErrUnauthenticated)
  | Some expRaw =>
      match Atoi expRaw with
      | None => Ret (Fail ErrUnauthenticated)
      | Some exp =>
          if (maxCodeBytes <? slen deviceCode)%Z then Ret (Fail ErrUnauthenticated)
          else
            t ← now;
            if negb (t <? time_Unix exp)%Z then Ret (Fail ErrExpiredCode)
            else
              let hash := HashToken deviceCode in
              fresh ← claimOnce (devicePollKey +:+ hash) (DevicePollInterval - second);
              match fresh with
              | Fail err => Ret (Fail (unavailable err))
              | Ok false => Ret (Fail ErrSlowDown)
              | Ok true =>
                  r ← takeOnce (deviceApprovedKey +:+ hash);
                  match r with
                  | Fail err =>
                      if errIs err ErrNotFound then e ← pendingOrDenied hash; Ret (Fail e)
                      else Ret (Fail (unavailable err))
                  | Ok raw => Ret (match Unmarshal raw with Fail _ => Fail ErrUnauthenticated | Ok l => Ok l end)
                  end
              end
      end
  end.

Definition signUntil (ts : TokenSession) (typ : string) (exp : Z) : prog (res (list byte)) :=
  t ← now;
  Ret (Sign keys (mkClaims typ (ID ts) (TokenID ts) (OrgID ts) (Unix t) (Unix exp))).

Definition signAgentTokens (ts : TokenSession) : prog (res AgentTokens) :=
  t ← now;
  let accessExp := if (ExpiresAt ts <? t + AgentAccessTTL)%Z then ExpiresAt ts else (t + AgentAccessTTL)%Z in
  access ← signUntil ts TypeAgentUser accessExp;
  match access with
  | Fail err => Ret (Fail err)
  | Ok access =>
      refresh ← signUntil ts TypeRefresh (ExpiresAt ts);
      match refresh with
      | Fail err => Ret (Fail err)
      | Ok refresh => Ret (Ok (mkTokens access refresh (dur_round (time_sub accessExp t) second) ts))
      end
  end.

Definition storeAgentTokens (ts : TokenSession) : prog (res AgentTokens) :=
  tokens ← signAgentTokens ts;
  match tokens with
  | Fail err => Ret (Fail err)
  | Ok tokens =>
      err ← putTokenSession ts;
      match err with Some err => Ret (Fail (unavailable err)) | None => Ret (Ok tokens) end
  end.

Definition IssueAgentUser (l : AgentLogin) : prog (res AgentTokens) :=
  if bool_decide (l_OrgID l = "") || bool_decide (l_UserID l = "")
  then Ret (Fail (ENew "identity: agent user session needs org and user"))
  else
    t ← now;
    let authTime := if (l_AuthTime l =? 0)%Z then t else l_AuthTime l in
    id ← NewID "tsn";
    tokenID ← NewID "tid";
    storeAgentTokens (mkSession id (l_OrgID l) SubjectUser (l_UserID l) tokenID (l_AuthMethod l) authTime t
      (t + AgentSessionTTL) "" "" "" 0).

Definition refreshWithinGrace (ts : TokenSession) (refresh : list byte) : prog (res AgentTokens) :=
  let reused : prog (res AgentTokens) :=
    err ← RevokeSession (ID ts);
    Ret (Fail (default ErrRefreshReused err)) in
  t ← now;
  match Verify keys refresh t with
  | Fail _ => Ret (Fail ErrUnauthenticated)
  | Ok claims =>
      t ← now;
      if bool_decide (SubjectType ts = SubjectUser) && negb (bool_decide (PrevTokenID ts = "")) &&
         bool_decide (PrevTokenID ts = Token.TokenID claims) && (t <? RotatedAt ts + RefreshGrace)%Z &&
         (t <? ExpiresAt ts)%Z
      then
        first ← claimOnce (refreshGraceKey +:+ ID ts +:+ ":" +:+ Token.TokenID claims) RefreshGrace;
        match first with
        | Fail err => Ret (Fail (unavailable err))
        | Ok true => signAgentTokens ts
        | Ok false => reused
        end
      else reused
  end.

Definition rotated (t : Z) (ts : TokenSession) : TokenSession :=
  mkSession (ID ts) (OrgID ts) (SubjectType ts) (SubjectID ts) (nextTokenID (ID ts) (TokenID ts)) (AuthMethod ts)
    (AuthTime ts) (CreatedAt ts) (t + AgentSessionTTL) (EndpointID ts) (AgentID ts) (TokenID ts) t.

Definition RefreshAgentUser (refresh : list byte) : prog (res AgentTokens) :=
  v ← verify refresh [TypeRefresh];
  match v with
  | (Some ts, _, None) =>
      if negb (bool_decide (SubjectType ts = SubjectUser)) then Ret (Fail ErrUnauthenticated)
      else
        t ← now;
        let prev := TokenID ts in
        let ts := rotated t ts in
        tokens ← signAgentTokens ts;
        match tokens with
        | Fail err => Ret (Fail err)
        | Ok tokens =>
            err ← rotateTokenSession ts prev;
            match err with
            | None => Ret (Ok tokens)
            | Some err => if errIs err ErrNotFound then Again else Ret (Fail (unavailable err))
            end
        end
  | (Some ts, _, Some err) => if errIs err errTokenSuperseded then refreshWithinGrace ts refresh else Ret (Fail err)
  | (None, _, err) => Ret (Fail (default ErrUnauthenticated err))
  end.

Definition RevokeToken (raw : list byte) : prog (option goerr) :=
  v ← verify raw [TypeAgentUser; TypeRefresh];
  match v with
  | (Some ts, _, None) => RevokeSession (ID ts)
  | (_, _, Some err) => if errIs err ErrUnauthenticated then Ret None else Ret (Some err)
  | (None, _, None) => Ret None
  end.

(** ** agent_consent.go *)

Definition StartConsent (l : AgentLogin) (state : string) : prog (res string) :=
  if bool_decide (l_OrgID l = "") || bool_decide (l_UserID l = "") || negb (ValidCodeChallenge (l_Challenge l))
     || negb (LoopbackRedirect (l_RedirectURI l)) || negb (ValidState state)
  then Ret (Fail (ENew "identity: consent needs org, user, S256 challenge, loopback redirect and state"))
  else
    id ← randomCode;
    match id with
    | Fail err => Ret (Fail err)
    | Ok id =>
        t ← now;
        match Marshal (mkPendingConsent l state (Unix (t + ConsentTTL))) with
        | Fail err => Ret (Fail err)
        | Ok raw =>
            err ← putOnce (consentKey +:+ HashToken id) raw ConsentTTL;
            match err with Some err => Ret (Fail (unavailable err)) | None => Ret (Ok id) end
        end
    end.

Definition ownsConsent (p : pendingConsent) (userID : string) : prog bool :=
  if negb (bool_decide (l_UserID (pc_Login p) = userID)) then Ret false
  else t ← now; Ret (t <? time_Unix (pc_ExpiresAt p))%Z.

(** The decoded value when it belongs to the user. *)
Definition owned_consent (raw : list byte) (userID : string) : prog (res pendingConsent) :=
  match Unmarshal raw with
  | Fail _ => Ret (Fail ErrUnauthenticated)
  | Ok pending =>
      owns ← ownsConsent pending userID;
      if (owns : bool) then Ret (Ok pending) else Ret (Fail ErrUnauthenticated)
  end.

Definition lookup_consent (id userID : string) : prog (res pendingConsent) :=
  if bool_decide (id = "") || (maxCodeBytes <? slen id)%Z || bool_decide (userID = "") then Ret (Fail ErrUnauthenticated)
  else
    r ← peekOnce (consentKey +:+ HashToken id);
    match r with
    | Fail err => Ret (Fail (if errIs err ErrNotFound then ErrUnauthenticated else unavailable err))
    | Ok raw => owned_consent raw userID
    end.

Definition LookupConsent (id userID : string) : prog (res ConsentRequest) :=
  r ← lookup_consent id userID;
  Ret (match r with
       | Fail err => Fail err
       | Ok pending =>
           let l := pc_Login pending in
           Ok (mkConsentRequest id AgentClientID (l_OrgID l) (l_UserID l) (l_RedirectURI l) (l_AuthMethod l)
                 (time_Unix (pc_ExpiresAt pending)))
       end).

Definition DecideConsent (id userID : string) (approve : bool) : prog (res (string * ConsentRequest)) :=
  req ← LookupConsent id userID;
  match req with
  | Fail err => Ret (Fail err)
  | Ok req =>
      r ← takeOnce (consentKey +:+ HashToken id);
      match r with
      | Fail err => Ret (Fail (if errIs err ErrNotFound then ErrUnauthenticated else unavailable err))
      | Ok raw =>
          p ← owned_consent raw userID;
          match p with
          | Fail err => Ret (Fail err)
          | Ok pending =>
              let l := pc_Login pending in
              if negb approve
              then Ret (Ok (l_RedirectURI l +:+ "?" +:+ Encode [("state", pc_State pending); ("error", consentDeniedCode)], req))
              else
                code ← PutAuthCode l;
                match code with
                | Fail err => Ret (Fail err)
                | Ok code => Ret (Ok (l_RedirectURI l +:+ "?" +:+ Encode [("state", pc_State pending); ("code", code)], req))
                end
          end
      end
  end.

Definition LookupDevice (userCode : string) : prog (res DeviceRequest) :=
  let code := NormalizeUserCode userCode in
  if bool_decide (code = "") then Ret (Fail ErrUnauthenticated)
  else
    r ← peekOnce (deviceUserKey +:+ code);
    match r with
    | Fail err => Ret (Fail (if errIs err ErrNotFound then ErrUnauthenticated else unavailable err))
    | Ok raw =>
        match Unmarshal raw with
        | Fail _ => Ret (Fail ErrUnauthenticated)
        | Ok pending =>
            let expires := time_Unix (pd_ExpiresAt pending) in
            t ← now;
            if negb (t <? expires)%Z then Ret (Fail ErrUnauthenticated)
            else Ret (Ok (mkDeviceRequest code AgentClientID expires))
        end
    end.

Definition DenyDevice (userCode : string) : prog (option goerr) :=
  r ← takePendingDevice userCode;
  match r with
  | Fail err => Ret (Some err)
  | Ok (pending, remaining) =>
      err ← putOnce (deviceDeniedKey +:+ DeviceHash pending) (bytes_of "1") remaining;
      Ret (option_map unavailable err)
  end.

(** ** endpoint_login.go *)

Definition PutEndpointLogin (l : EndpointLogin) : prog (res string) :=
  if bool_decide (el_EndpointID l = "") || bool_decide (el_OrgID l = "") || bool_decide (el_UserID l = "")
     || negb (SafeReturnPath (el_Return l))
  then Ret (Fail (ENew "identity: endpoint login needs endpoint, org, user and a local return path"))
  else
    Rand endpointCodeBytes (fun buf =>
      match buf with
      | Fail err => Ret (Fail err)
      | Ok buf =>
          let code := string_of (Base64.EncodeToString buf) in
          match Marshal l with
          | Fail err => Ret (Fail err)
          | Ok raw =>
              err ← putOnce (endpointLoginKey +:+ HashToken code) raw EndpointLoginTTL;
              match err with Some err => Ret (Fail (unavailable err)) | None => Ret (Ok code) end
          end
      end).

Definition TakeEndpointLogin (code : string) : prog (res EndpointLogin) :=
  if bool_decide (code = "") || (128 <? slen code)%Z then Ret (Fail ErrUnauthenticated)
  else
    r ← takeOnce (endpointLoginKey +:+ HashToken code);
    match r with
    | Fail err => Ret (Fail (if errIs err ErrNotFound then ErrUnauthenticated else unavailable err))
    | Ok raw =>
        match Unmarshal raw with
        | Fail _ => Ret (Fail ErrUnauthenticated)
        | Ok l => if negb (SafeReturnPath (el_Return l)) then Ret (Fail ErrUnauthenticated) else Ret (Ok l)
        end
    end.

(** ** The calls of the other packages *)

Inductive call :=
| CIssue (req : IssueRequest)
| CReissue (sessionID typ : string) (ttl : Z)
| CResign (ts : TokenSession) (typ : string)
| CAuthenticate (raw : list byte) (allowed : list string)
| CIssueGuest (orgID endpointID email : string) (ttl : Z)
| CAuthenticateGuest (raw : list byte) (endpointID : string)
| CRevokeSession (id : string)
| CRevokeSubject (orgID : string) (subject : EntityRef)
| CEndpointSessions (orgID endpointID : string)
| CRevokeEndpointSession (orgID endpointID id : string)
| CRevokeEndpointSessions (orgID endpointID : string)
| CSessionActive (id : string)
| CPutAuthCode (l : AgentLogin)
| CRedeemAuthCode (code verifier redirectURI : string)
| CStartDevice
| CApproveDevice (userCode : string) (l : AgentLogin)
| CPollDevice (deviceCode : string)
| CIssueAgentUser (l : AgentLogin)
| CRefreshAgentUser (refresh : list byte)
| CRevokeToken (raw : list byte)
| CStartConsent (l : AgentLogin) (state : string)
| CLookupConsent (id userID : string)
| CDecideConsent (id userID : string) (approve : bool)
| CLookupDevice (userCode : string)
| CDenyDevice (userCode : string)
| CPutEndpointLogin (l : EndpointLogin)
| CTakeEndpointLogin (code : string).

Inductive reply :=
| AIssued (r : res Issued)
| APrincipal (r : res Principal)
| AGuest (r : res string)
| AErr (e : option goerr)
| ASessions (r : res (list TokenSession))
| ACount (r : res Z)
| AActive (r : res bool)
| ACode (r : res string)
| ALogin (r : res AgentLogin)
| ADevice (r : res DeviceStart)
| ATokens (r : res AgentTokens)
| AConsent (r : res ConsentRequest)
| ADecision (r : res (string * ConsentRequest))
| ADeviceRequest (r : res DeviceRequest)
| AEndpointLogin (r : res EndpointLogin).

Definition body (c : call) : prog reply :=
  match c with
  | CIssue req => AIssued <$> Issue req
  | CReissue id typ ttl => AIssued <$> Reissue id typ ttl
  | CResign ts typ => AIssued <$> Resign ts typ
  | CAuthenticate raw allowed => APrincipal <$> Authenticate raw allowed
  | CIssueGuest org ep email ttl => AIssued <$> IssueGuest org ep email ttl
  | CAuthenticateGuest raw ep => AGuest <$> AuthenticateGuest raw ep
  | CRevokeSession id => AErr <$> RevokeSession id
  | CRevokeSubject org subject => AErr <$> RevokeSubject org subject
  | CEndpointSessions org ep => ASessions <$> EndpointSessions org ep
  | CRevokeEndpointSession org ep id => AErr <$> RevokeEndpointSession org ep id
  | CRevokeEndpointSessions org ep => ACount <$> RevokeEndpointSessions org ep
  | CSessionActive id => AActive <$> SessionActive id
  | CPutAuthCode l => ACode <$> PutAuthCode l
  | CRedeemAuthCode code verifier uri => ALogin <$> RedeemAuthCode code verifier uri
  | CStartDevice => ADevice <$> StartDevice
  | CApproveDevice userCode l => AErr <$> ApproveDevice userCode l
  | CPollDevice deviceCode => ALogin <$> PollDevice deviceCode
  | CIssueAgentUser l => ATokens <$> IssueAgentUser l
  | CRefreshAgentUser refresh => ATokens <$> RefreshAgentUser refresh
  | CRevokeToken raw => AErr <$> RevokeToken raw
  | CStartConsent l state => ACode <$> StartConsent l state
  | CLookupConsent id user => AConsent <$> LookupConsent id user
  | CDecideConsent id user approve => ADecision <$> DecideConsent id user approve
  | CLookupDevice userCode => ADeviceRequest <$> LookupDevice userCode
  | CDenyDevice userCode => AErr <$> DenyDevice userCode
  | CPutEndpointLogin l => ACode <$> PutEndpointLogin l
  | CTakeEndpointLogin code => AEndpointLogin <$> TakeEndpointLogin code
  end.

Definition machine := (Prog.machine Revocation call reply).
Definition step : event call -> machine -> option machine := Prog.step body.
Definition reachable : machine -> Prop := Prog.reachable body.
End Service.

#[export] Hint Unfold NewID sign store Issue Reissue Resign verify Authenticate IssueGuest AuthenticateGuest publish
  RevokeSession RevokeSubject EndpointSessions RevokeEndpointSession RevokeEndpointSessions SessionActive randomCode
  PutAuthCode RedeemAuthCode newUserCode StartDevice takePendingDevice ApproveDevice pendingOrDenied PollDevice signUntil
  signAgentTokens storeAgentTokens IssueAgentUser refreshWithinGrace RefreshAgentUser RevokeToken StartConsent ownsConsent
  owned_consent lookup_consent LookupConsent DecideConsent LookupDevice DenyDevice PutEndpointLogin TakeEndpointLogin
  body : methods.
End Identity.
