(* ===== verification/IdentitySamples.v ===== *)
(** * Sample parameters and runs of the identity service

    The parameters of [Identity] instantiated by functions that compute: a signature that
    is a part of the message, a codec that separates fields by commas, a driver that runs
    one call to its end. The witnesses of [IdentityLogin] and [IdentityTokens] are runs of
    this instance. *)
From S2P Require Import Prelude GoIO GoStrings Frames Sessions Token Authz Prog ProgLog Identity.
Import Sessions Prog Identity.
Import Token (Keyring, Claims, mkClaims, Ed25519).
Import Frames.Control (Codec, Marshal, Unmarshal).

Module IdentitySamples.
Definition padded (n : nat) (l : list byte) : list byte := take n (rev l ++ repeat "y"%char n).

#[export] Instance sample_ed : Ed25519 := {|
  Token.PrivateKey := list byte;
  Token.NewKeyFromSeed seed := seed;
  Token.Public k := k;
  Token.ed_sign _ m := padded 64 m;
  Token.ed_verify _ m s := bool_decide (s = padded 64 m);
  Token.Sum256 m := padded 32 m
|}.

Definition sample_seed : list byte := repeat "k"%char 32.
Definition sample_keys : Keyring :=
  Token.mkKeyring (Token.keyID sample_seed) (sample_seed : Token.PrivateKey) {[Token.keyID sample_seed := sample_seed]}.

(** Fields separated by commas; a value that is not read back has no text. *)
Definition fields_text (l : list string) : list byte := concat (map (fun f => bytes_of f ++ [","%char]) l).
Definition fields_of (b : list byte) : list string := map string_of (split_bytes "," b).

Definition fields_codec {T} `{EqDecision T} (enc : T -> list string) (dec : list string -> option T) : Codec T := {|
  Marshal v := if bool_decide (dec (fields_of (fields_text (enc v))) = Some v) then Ok (fields_text (enc v)) else Fail (ENew "json");
  Unmarshal b := match dec (fields_of b) with Some v => Ok v | None => Fail (ENew "json") end
|}.

Lemma fields_roundtrip {T} `{EqDecision T} enc dec (v : T) b :
  @Marshal T (fields_codec enc dec) v = Ok b -> @Unmarshal T (fields_codec enc dec) b = Ok v.
Proof. cbn. case_bool_decide as H; [|done]. intros [= <-]. by rewrite H. Qed.

#[export] Instance Claims_eq_dec : EqDecision Claims.
Proof. solve_decision. Defined.
#[export] Instance AgentLogin_eq_dec : EqDecision AgentLogin.
Proof. solve_decision. Defined.
#[export] Instance pendingDevice_eq_dec : EqDecision pendingDevice.
Proof. solve_decision. Defined.
#[export] Instance pendingConsent_eq_dec : EqDecision pendingConsent.
Proof. solve_decision. Defined.
#[export] Instance EndpointLogin_eq_dec : EqDecision EndpointLogin.
Proof. solve_decision. Defined.

#[export] Instance sample_claims : Codec Claims := fields_codec
  (fun c => [Token.Type_ c; Token.SessionID c; Token.TokenID c; Token.OrgID c; Itoa (Token.IssuedAt c); Itoa (Token.ExpiresAt c)])
  (fun l => match l with
            | [a; b; c; d; e; f; _] => e ← Atoi e; f ← Atoi f; Some (mkClaims a b c d e f)
            | _ => None
            end).

Definition login_fields (l : AgentLogin) : list string :=
  [l_OrgID l; l_UserID l; l_AuthMethod l; Itoa (l_AuthTime l); l_Challenge l; l_RedirectURI l].

#[export] Instance sample_logins : Codec AgentLogin := fields_codec login_fields
  (fun l => match l with [a; b; c; d; e; f; _] => d ← Atoi d; Some (mkLogin a b c d e f) | _ => None end).

#[export] Instance sample_devices : Codec pendingDevice := fields_codec
  (fun p => [DeviceHash p; Itoa (pd_ExpiresAt p)])
  (fun l => match l with [a; b; _] => b ← Atoi b; Some (mkPendingDevice a b) | _ => None end).

#[export] Instance sample_consents : Codec pendingConsent := fields_codec
  (fun p => login_fields (pc_Login p) ++ [pc_State p; Itoa (pc_ExpiresAt p)])
  (fun l => match l with
            | [a; b; c; d; e; f; g; h; _] => d ← Atoi d; h ← Atoi h; Some (mkPendingConsent (mkLogin a b c d e f) g h)
            | _ => None
            end).

#[export] Instance sample_endpoints : Codec EndpointLogin := fields_codec
  (fun l => [el_EndpointID l; el_OrgID l; el_UserID l; el_AuthMethod l; Itoa (el_AuthTime l); el_Return l])
  (fun l => match l with [a; b; c; d; e; f; _] => e ← Atoi e; Some (mkEndpointLogin a b c d e f) | _ => None end).

(** Knows one URL. *)
Definition sample_redirect : string := "http://127.0.0.1:8000/cb".
#[export] Instance sample_url : UrlParser :=
  fun s => if bool_decide (s = sample_redirect) then Some (mkURL "http" false "" "127.0.0.1" "8000") else None.
#[export] Instance sample_upper : UnicodeUpper := fun s => s.

(** ** A driver *)
Abbreviation sample_machine := (Prog.machine Revocation call reply).
Definition sample_start : Z := time_Unix 1000.

(** The [n]th random bytes are all [n]. *)
Definition next_choice (n : nat) (p : prog reply) : choice :=
  match p with
  | Rand w _ => Bytes (Ok (repeat (Zbyte (Z.of_nat n)) w))
  | RandInt _ _ => Int (Ok 0%Z)
  | Order w _ => Visit (seq 0 w)
  | _ => Go
  end.

Definition try_step (e : event call) (m : sample_machine) : sample_machine := default m (Identity.step sample_keys e m).

Definition advance (i : nat) (m : sample_machine) : sample_machine :=
  match calls m !! i with
  | Some (_, p) => try_step (Run i (next_choice (length (log m)) p)) m
  | None => m
  end.

Definition begin (i : nat) (c : call) : sample_machine -> sample_machine := try_step (Begin i c).
Definition after (d : Z) (m : sample_machine) : sample_machine := try_step (Tick (clock m + d)) m.

(** The whole call; forty actions are more than any of the sample calls has. *)
Definition perform (i : nat) (c : call) (m : sample_machine) : sample_machine := Nat.iter 40 (advance i) (begin i c m).

Definition reply_of (m : sample_machine) (i : nat) : option reply :=
  match calls m !! i with Some (_, Ret a) => Some a | _ => None end.

Lemma start_reachable : Identity.reachable sample_keys (init sample_start).
Proof. apply reach_init. by vm_compute. Qed.

Lemma try_reachable e m : Identity.reachable sample_keys m -> Identity.reachable sample_keys (try_step e m).
Proof. intros H. unfold try_step. destruct (Identity.step _ e m) eqn:E; [|done]. exact (reach_step _ e m _ H E). Qed.

Lemma advance_reachable i m : Identity.reachable sample_keys m -> Identity.reachable sample_keys (advance i m).
Proof. intros H. unfold advance. destruct (calls m !! i) as [[]|]; [by apply try_reachable|done]. Qed.

Lemma advances_reachable n i m : Identity.reachable sample_keys m -> Identity.reachable sample_keys (Nat.iter n (advance i) m).
Proof. intros H. induction n; [done|]. by apply advance_reachable. Qed.

Lemma perform_reachable i c m : Identity.reachable sample_keys m -> Identity.reachable sample_keys (perform i c m).
Proof. intros H. by apply advances_reachable, try_reachable. Qed.

Lemma after_reachable d m : Identity.reachable sample_keys m -> Identity.reachable sample_keys (after d m).
Proof. apply try_reachable. Qed.

Create HintDb sample_runs.
#[export] Hint Resolve start_reachable try_reachable advances_reachable perform_reachable after_reachable : sample_runs.

(** ** Logins *)
Definition sample_verifier : string := string_of (repeat "v"%char 43).
Definition sample_challenge : string := string_of (Token.Base64.EncodeToString (Token.Sum256 (bytes_of sample_verifier))).
Definition sample_login : AgentLogin := mkLogin "org" "user" "oidc" 0 sample_challenge sample_redirect.

Definition code_of (m : sample_machine) (i : nat) : string :=
  match reply_of m i with Some (ACode (Ok code)) => code | _ => "" end.
Definition device_of (m : sample_machine) (i : nat) : DeviceStart :=
  match reply_of m i with Some (ADevice (Ok d)) => d | _ => mkDeviceStart "" "" 0 0 end.
Definition tokens_of (m : sample_machine) (i : nat) : AgentTokens :=
  match reply_of m i with
  | Some (ATokens (Ok tk)) => tk
  | _ => mkTokens [] [] 0 (mkSession "" "" "" "" "" "" 0 0 0 "" "" "" 0)
  end.
End IdentitySamples.
