(* ===== verification/IdentityLogin.v ===== *)
(** * Logins by code, consent and device *)
From S2P Require Import Prelude GoIO GoStrings Frames Sessions Token Authz Prog ProgLog Identity IdentitySamples.
Import Sessions Prog ProgLog Identity IdentitySamples.
Import Token (Keyring, Claims, mkClaims, Sign, Verify, Ed25519, Sum256, hex_bytes).
Import Frames.Control (Codec, Marshal, Unmarshal).

Module IdentityLogin.
Section Logins.
Context `{ed : Ed25519} `{claims : Codec Claims} `{logins : Codec AgentLogin} `{devices : Codec pendingDevice}
  `{consents : Codec pendingConsent} `{endpoints : Codec EndpointLogin} `{url : UrlParser} `{upper : UnicodeUpper}.
Context (keys : Keyring).

Abbreviation event := (lev Revocation).

(** A code drawn by the call. *)
Definition drawn (E : list event) (code : string) : Prop :=
  exists buf, LRand (Ok buf) ∈ E /\ length buf = 32 /\ code = string_of (Base64.EncodeToString buf).

(** The call took [raw] from under [key]. *)
Definition took (E : list event) (key : string) (raw : list byte) : Prop :=
  exists t, LCall t (OpTake key) (RValue (Ok raw)) ∈ E.

Definition read_clock (E : list event) (t : Z) : Prop := LNow t ∈ E.

(** The call grants the login: it is [PutAuthCode], or an approval of a consent by the
    user it is for. *)
Definition grants (c : call) (E : list event) (l : AgentLogin) : Prop :=
  c = CPutAuthCode l \/
  exists id raw pending t,
    c = CDecideConsent id (l_UserID l) true /\ took E (consentKey +:+ HashToken id) raw /\
    Unmarshal raw = Ok pending /\ pc_Login pending = l /\ read_clock E t /\ (t < time_Unix (pc_ExpiresAt pending))%Z.

Definition device_code (t : Z) (secret : string) : string := Itoa (Unix (t + DeviceCodeTTL)) +:+ "." +:+ secret.

(** The actions of [takePendingDevice]. *)
Definition took_pending (t : Z) (userCode : string) (raw : list byte) (t' : Z) : list event :=
  [LCall t (OpTake (deviceUserKey +:+ NormalizeUserCode userCode)) (RValue (Ok raw)); LNow t'].

(** What a call may store for a later call to take. *)
Inductive putting (c : call) (E : list event) : string -> list byte -> Z -> Prop :=
| put_auth l code raw :
    grants c E l -> drawn E code -> Marshal l = Ok raw ->
    putting c E (authCodeKey +:+ HashToken code) raw AuthCodeTTL
| put_consent l state id t raw :
    c = CStartConsent l state -> drawn E id -> read_clock E t ->
    Marshal (mkPendingConsent l state (Unix (t + ConsentTTL))) = Ok raw ->
    putting c E (consentKey +:+ HashToken id) raw ConsentTTL
| put_device userCode secret t raw :
    c = CStartDevice -> drawn E secret -> read_clock E t ->
    Marshal (mkPendingDevice (HashToken (device_code t secret)) (Unix (t + DeviceCodeTTL))) = Ok raw ->
    putting c E (deviceUserKey +:+ userCode) raw DeviceCodeTTL
| put_approved userCode l t t' raw0 pending raw ttl :
    c = CApproveDevice userCode l -> E = took_pending t userCode raw0 t' -> Unmarshal raw0 = Ok pending -> Marshal (without_redirect l) = Ok raw ->
    putting c E (deviceApprovedKey +:+ DeviceHash pending) raw ttl
| put_denied userCode t t' raw0 pending ttl :
    c = CDenyDevice userCode -> E = took_pending t userCode raw0 t' -> Unmarshal raw0 = Ok pending ->
    putting c E (deviceDeniedKey +:+ DeviceHash pending) (bytes_of "1") ttl
| put_endpoint l code raw :
    c = CPutEndpointLogin l -> drawn E code -> Marshal l = Ok raw ->
    putting c E (endpointLoginKey +:+ HashToken code) raw EndpointLoginTTL.

Definition login_op (c : call) (E : list event) (o : op) : Prop :=
  match o with
  | OpPutOnce key v ttl => putting c E key v ttl
  | OpClaim key _ => exists x, key = devicePollKey +:+ x \/ key = refreshGraceKey +:+ x
  | _ => True
  end.

(** What a call that returns a login did. *)
Definition login_result (c : call) (E : list event) (a : reply) : Prop :=
  match c, a with
  | CRedeemAuthCode code verifier uri, ALogin (Ok l) =>
      exists raw, took E (authCodeKey +:+ HashToken code) raw /\ Unmarshal raw = Ok l /\
        l_RedirectURI l = uri /\ VerifyPKCE (l_Challenge l) verifier = true
  | CPollDevice code, ALogin (Ok l) =>
      exists raw, took E (deviceApprovedKey +:+ HashToken code) raw /\ Unmarshal raw = Ok l
  | CDecideConsent id user _, ADecision (Ok _) =>
      exists raw pending t, took E (consentKey +:+ HashToken id) raw /\ Unmarshal raw = Ok pending /\
        l_UserID (pc_Login pending) = user /\ read_clock E t /\ (t < time_Unix (pc_ExpiresAt pending))%Z
  | CTakeEndpointLogin code, AEndpointLogin (Ok l) =>
      exists raw, took E (endpointLoginKey +:+ HashToken code) raw /\ Unmarshal raw = Ok l /\
        SafeReturnPath (el_Return l) = true
  | _, _ => True
  end.

(** ** The programs obey *)

Lemma publish_each_obeys G Q R orgID l E :
  (forall F, R (E ++ F) tt) -> obeys G Q R (publish_each orgID l) E.
Proof.
  revert E. induction l as [|[subject ids] l IH]; intros E HR; cbn [publish_each obeys].
  - specialize (HR []). by rewrite app_nil_r in HR.
  - apply obeys_bind. cbn [publish obeys]. apply IH. intros F. rewrite <- app_assoc. apply HR.
Qed.

Lemma user_code_obeys G Q R i n E :
  (forall F r, R (E ++ F) r) -> obeys G Q R (user_code_from i n) E.
Proof.
  revert i E R. induction n as [|n IH]; intros i E R HR; cbn [user_code_from obeys].
  - specialize (HR [] (Ok [])). by rewrite app_nil_r in HR.
  - intros [z|err] _; cbn [obeys]; [|apply HR]. apply obeys_bind, IH. intros F [l|err]; cbn [obeys];
      rewrite <- app_assoc; apply HR.
Qed.

(** [RefreshAgentUser] tail-calls itself when the rotation found no session. *)
Definition tail_calls (c : call) (E : list event) : Prop :=
  exists refresh t ts prev e, c = CRefreshAgentUser refresh /\ LCall t (OpRotate ts prev) (RErr (Some e)) ∈ E /\
    errIs e ErrNotFound = true.

Ltac in_list := repeat (rewrite elem_of_cons || rewrite elem_of_app); tauto.

Lemma logins_obey c : obeys (tail_calls c) (login_op c) (login_result c) (body keys c) [].
Proof.
  destruct c; walk; cbn [login_op login_result]; try done.
  - apply obeys_bind, obeys_bind, publish_each_obeys. done.
  - eapply put_auth; [by left| |done]. exists a. split_and!; [in_list|by eauto|done].
  - bool_to_prop. exists a. split_and!; try done. exists t. in_list.
  - apply obeys_bind, obeys_bind, obeys_bind, user_code_obeys. intros F [code|err]; walk; cbn [login_op login_result];
      try done. eapply (put_device _ _ _ _ t); [done| |unfold read_clock; in_list|done]. exists a. split_and!; [in_list|by eauto|done].
  - by eapply put_approved.
  - eauto.
  - destruct (Unmarshal a) as [l|] eqn:El; [|done]. exists a. split; [|done]. exists t1. in_list.
  - eauto.
  - do 5 eexists. split; [done|]. split; [in_list|done].
  - eapply (put_consent _ _ _ _ _ t); [done| |unfold read_clock; in_list|done]. exists a. split_and!; [in_list|by eauto|done].
  - bool_to_prop. exists a1, a2, t2. unfold read_clock. split_and!; try done; [exists t1|]; in_list.
  - bool_to_prop. subst. eapply put_auth; [|exists a3; split_and!; [in_list|by eauto|done]|done].
    right. exists id, a1, a2, t2. unfold read_clock.
    split_and!; [congruence|exists t1; in_list|done|done|in_list|done].
  - bool_to_prop. exists a1, a2, t2. unfold read_clock. split_and!; try done; [exists t1|]; in_list.
  - by eapply put_denied.
  - eapply put_endpoint; [done| |done]. exists a. split_and!; [in_list|by eauto|done].
  - bool_to_prop. exists a. split_and!; try done. exists t. in_list.
Qed.
(** ** Where a value comes from *)

Abbreviation machine := (Prog.machine Revocation call reply).
Abbreviation reachable := (Identity.reachable keys).

Definition claim_key (key : string) : Prop := exists x, key = devicePollKey +:+ x \/ key = refreshGraceKey +:+ x.

(** Call [j] is [c] and began with the actions [F]. *)
Definition did (m : machine) (j : nat) (c : call) (F : list event) : Prop :=
  exists p, calls m !! j = Some (c, p) /\ exists rest, local j (log m) = F ++ rest.

(** An operation that stores something under [key]. *)
Definition puts (key : string) (o : op) : Prop := match o with OpPutOnce k _ _ => k = key | _ => False end.

Lemma took_at (m : machine) i E0 E key raw :
  local i (log m) = E0 ++ E -> took E key raw ->
  exists n t, log m !! n = Some (i, LCall t (OpTake key) (RValue (Ok raw))).
Proof.
  intros El (t&Ht). assert (Hin : (i, LCall t (OpTake key) (RValue (Ok raw))) ∈ log m).
  { apply elem_of_local. rewrite El. apply elem_of_app. by right. }
  apply list_elem_of_lookup in Hin as [n Hn]. eauto.
Qed.

Lemma putting_calls c E key raw ttl : putting c E key raw ttl -> ~ exists F, tail_calls c F.
Proof. intros H (F&r&t&ts&prev&e&->&_). destruct H as [? ? ? [Hg|(?&?&?&?&Hg&_)]| | | | |]; congruence. Qed.

(** The operation that stored something is the work of a call that may. *)
Lemma stored_by (m : machine) n j e t key raw exp :
  reachable m -> log m !! n = Some (j, e) -> ~ claim_key key ->
  (exists x, effect_of e = Some x /\ sets key (mkOnce raw exp) x /\ x.1.1 = t) ->
  exists c F ttl, op_of e = Some (OpPutOnce key raw ttl) /\ exp = (t + ttl)%Z /\
    did m j c F /\ local j (take n (log m)) = F /\ putting c F key raw ttl.
Proof.
  intros Hm Hn Hk ([[t' o] r]&He&Hs&Ht). simpl in Ht. subst t'.
  destruct (logged_obeys _ _ _ _ logins_obey m _ _ _ o Hm Hn (effect_op _ _ _ _ He)) as (c&p&E0&E&Hc&El&[_ HE0]&HQ).
  destruct o as [| | | | | | |k ttl|k v ttl| |]; try done; cbn [login_op sets] in *.
  - destruct r as [| | | | |[]|]; try done. destruct Hs as [-> _]. by destruct Hk.
  - destruct Hs as [-> [= -> ->]]. exists c, E, ttl.
    destruct HE0 as [->|HT]; [|by destruct (putting_calls _ _ _ _ _ HQ)].
    split_and!; try done; [by eapply effect_op|]. exists p. split; [done|].
    exists (local j ((j, e) :: drop (S n) (log m))). simpl in El. rewrite <- El. by rewrite <- local_app, <- lookup_split.
Qed.

Lemma took_from (m : machine) i E0 E key raw :
  reachable m -> local i (log m) = E0 ++ E -> took E key raw -> ~ claim_key key ->
  exists n j e c F ttl, log m !! n = Some (j, e) /\ op_of e = Some (OpPutOnce key raw ttl) /\
    did m j c F /\ local j (take n (log m)) = F /\ putting c F key raw ttl.
Proof.
  intros Hm El Ht Hk. destruct (took_at _ _ _ _ _ _ El Ht) as (n&t&Hn).
  destruct (taken_from _ m n i _ t key raw Hm Hn eq_refl) as (n'&j&e'&x&exp&_&Hl&Hx&Hs&_).
  destruct (stored_by m n' j e' x.1.1 key raw exp Hm Hl Hk) as (c&F&ttl&?&_&?&?&?); [eauto|]. naive_solver.
Qed.

(** Two calls that took from under one key took what different operations stored. *)
Lemma took_apart (m : machine) i i' E0 E E0' E' key raw raw' :
  reachable m -> local i (log m) = E0 ++ E -> local i' (log m) = E0' ++ E' -> took E key raw -> took E' key raw' ->
  ~ claim_key key -> i <> i' ->
  exists n n' a a' e e' ttl ttl', n <> n' /\ log m !! n = Some (a, e) /\ log m !! n' = Some (a', e') /\
    op_of e = Some (OpPutOnce key raw ttl) /\ op_of e' = Some (OpPutOnce key raw' ttl').
Proof.
  intros Hm El El' Ht Ht' Hk Hne.
  destruct (took_at _ _ _ _ _ _ El Ht) as (n&t&Hn). destruct (took_at _ _ _ _ _ _ El' Ht') as (n'&t'&Hn').
  assert (Hlt : forall n n' i i' t t' raw raw', n < n' ->
    log m !! n = Some (i, LCall t (OpTake key) (RValue (Ok raw))) ->
    log m !! n' = Some (i', LCall t' (OpTake key) (RValue (Ok raw'))) ->
    exists n n' a a' e e' ttl ttl', n <> n' /\ log m !! n = Some (a, e) /\ log m !! n' = Some (a', e') /\
      op_of e = Some (OpPutOnce key raw ttl) /\ op_of e' = Some (OpPutOnce key raw' ttl')).
  { clear -Hm Hk. intros n n' i i' t t' raw raw' Hlt Hn Hn'.
    destruct (taken_from _ m n i _ t key raw Hm Hn eq_refl) as (p&j&e&x&exp&Hp&Hpl&Hx&Hs&_).
    destruct (taken_apart _ m n n' i i' _ _ t t' key raw raw' Hm Hlt Hn Hn' eq_refl eq_refl)
      as (p'&j'&e'&x'&exp'&Hp'&Hpl'&Hx'&Hs'&_).
    destruct (stored_by m p j e x.1.1 key raw exp Hm Hpl Hk) as (_&_&ttl&Ho1&_); [eauto|].
    destruct (stored_by m p' j' e' x'.1.1 key raw' exp' Hm Hpl' Hk) as (_&_&ttl'&Ho2&_); [eauto|].
    exists p, p', j, j', e, e', ttl, ttl'. split_and!; try done. lia. }
  destruct (Nat.lt_trichotomy n n') as [Hc|[->|Hc]]; [by eapply Hlt|by rewrite Hn in Hn'; simplify_eq|].
  destruct (Hlt _ _ _ _ _ _ _ _ Hc Hn' Hn) as (p&p'&a&a'&e&e'&ttl&ttl'&?&?&?&?&?).
  exists p', p, a', a, e', e, ttl', ttl. auto.
Qed.

Lemma took_once (m : machine) i i' E0 E E0' E' key raw raw' :
  reachable m -> local i (log m) = E0 ++ E -> local i' (log m) = E0' ++ E' -> took E key raw -> took E' key raw' ->
  ~ claim_key key -> once_only m (puts key) -> i = i'.
Proof.
  intros Hm El El' Ht Ht' Hk Ho. destruct (decide (i = i')) as [|Hne]; [done|].
  destruct (took_apart m i i' E0 E E0' E' key raw raw' Hm El El' Ht Ht' Hk Hne)
    as (n&n'&a&a'&e&e'&ttl&ttl'&Hnn&Hn&Hn'&He&He').
  destruct Hnn. by eapply (Ho n n').
Qed.

(** *** Keys *)
Ltac differ := let H := fresh in intros H; unfold authCodeKey, deviceUserKey, deviceApprovedKey, devicePollKey,
  deviceDeniedKey, consentKey, endpointLoginKey, refreshGraceKey in H; cbn [String.append] in H; discriminate H.

(** The one case of [putting] with the prefix of [k]. *)
Ltac by_key k :=
  let key := fresh "key" in let Hk := fresh "Hk" in let H := fresh "H" in
  remember k as key eqn:Hk; intros H; destruct H; try (exfalso; revert Hk; differ);
  try apply (inj (String.append _)) in Hk as <-; naive_solver.

Lemma putting_auth c E x raw ttl :
  putting c E (authCodeKey +:+ x) raw ttl ->
  exists l code, grants c E l /\ drawn E code /\ Marshal l = Ok raw /\ x = HashToken code /\ ttl = AuthCodeTTL.
Proof.
  by_key (authCodeKey +:+ x).
Qed.

Lemma putting_consent c E x raw ttl :
  putting c E (consentKey +:+ x) raw ttl ->
  exists l state id t, c = CStartConsent l state /\ drawn E id /\ read_clock E t /\
    Marshal (mkPendingConsent l state (Unix (t + ConsentTTL))) = Ok raw /\ x = HashToken id.
Proof.
  by_key (consentKey +:+ x).
Qed.

Lemma putting_approved c E x raw ttl :
  putting c E (deviceApprovedKey +:+ x) raw ttl ->
  exists userCode l t t' raw0 pending, c = CApproveDevice userCode l /\ E = took_pending t userCode raw0 t' /\
    Unmarshal raw0 = Ok pending /\ Marshal (without_redirect l) = Ok raw /\ x = DeviceHash pending.
Proof.
  by_key (deviceApprovedKey +:+ x).
Qed.

Lemma putting_denied c E x raw ttl :
  putting c E (deviceDeniedKey +:+ x) raw ttl ->
  exists userCode t t' raw0 pending, c = CDenyDevice userCode /\ E = took_pending t userCode raw0 t' /\
    Unmarshal raw0 = Ok pending /\ x = DeviceHash pending.
Proof.
  by_key (deviceDeniedKey +:+ x).
Qed.

Lemma putting_device c E x raw ttl :
  putting c E (deviceUserKey +:+ x) raw ttl ->
  exists secret t, c = CStartDevice /\ drawn E secret /\ read_clock E t /\
    Marshal (mkPendingDevice (HashToken (device_code t secret)) (Unix (t + DeviceCodeTTL))) = Ok raw.
Proof.
  by_key (deviceUserKey +:+ x).
Qed.

Lemma not_claim_key key x :
  key ∈ [authCodeKey; deviceUserKey; deviceApprovedKey; deviceDeniedKey; consentKey; endpointLoginKey] ->
  ~ claim_key (key +:+ x).
Proof.
  rewrite !elem_of_cons, elem_of_nil. intros Hin [y [Hy|Hy]]; revert Hy;
    destruct Hin as [->|[->|[->|[->|[->|[->|[]]]]]]]; differ.
Qed.

(** ** Theorems *)

(** C27: A login is redeemed by whom it was granted to, and once: when [RedeemAuthCode] returns
    a login, the caller has the verifier of its challenge and named its redirect URI; the
    login is, through JSON, the one a call of [PutAuthCode] stored or the user of a consent
    approved, with a drawn code of the same hash; and if nothing was stored under that hash
    twice, no other call redeems the code, however the calls interleave. *)
Theorem redeemed_login_was_granted (m : machine) i code verifier uri l :
  reachable m -> returned m i (CRedeemAuthCode code verifier uri) (ALogin (Ok l)) ->
  VerifyPKCE (l_Challenge l) verifier = true /\ l_RedirectURI l = uri /\
  (exists j c F l0 code0 raw, did m j c F /\ grants c F l0 /\ drawn F code0 /\ HashToken code0 = HashToken code /\
    Marshal l0 = Ok raw /\ Unmarshal raw = Ok l) /\
  (once_only m (puts (authCodeKey +:+ HashToken code)) ->
   forall j v u l', returned m j (CRedeemAuthCode code v u) (ALogin (Ok l')) -> j = i).
Proof.
  intros Hm Hr. destruct (returned_obeys _ _ _ _ logins_obey m i _ _ Hm Hr) as (E0&E&El&_&raw&Ht&Hu&Huri&Hv).
  assert (Hk : ~ claim_key (authCodeKey +:+ HashToken code)) by (apply not_claim_key; set_solver).
  split_and!; [done..| |].
  - destruct (took_from m i E0 E _ raw Hm El Ht Hk) as (n&j&e&c&F&ttl&_&_&Hd&_&Hp).
    destruct (putting_auth _ _ _ _ _ Hp) as (l0&code0&?&?&?&?&_). exists j, c, F, l0, code0, raw. done.
  - intros Ho j v u l' Hr'. destruct (returned_obeys _ _ _ _ logins_obey m j _ _ Hm Hr') as (E0'&E'&El'&_&raw'&Ht'&_).
    exact (took_once m j i E0' E' E0 E _ raw' raw Hm El' El Ht' Ht Hk Ho).
Qed.

(** A consent is decided once, and by its user: when [DecideConsent] succeeds, approving or
    not, a call of [StartConsent] stored the request under a drawn id of the same hash,
    the caller is the user it was stored for, the request had not expired; and if nothing
    was stored under that hash twice, no other call decides it. *)
Theorem consent_is_decided_once (m : machine) i id user approve d :
  reachable m -> returned m i (CDecideConsent id user approve) (ADecision (Ok d)) ->
  (exists j F l0 state id0 t t' raw pending, did m j (CStartConsent l0 state) F /\ drawn F id0 /\
    HashToken id0 = HashToken id /\ read_clock F t /\
    Marshal (mkPendingConsent l0 state (Unix (t + ConsentTTL))) = Ok raw /\ Unmarshal raw = Ok pending /\
    l_UserID (pc_Login pending) = user /\ read_clock (local i (log m)) t' /\
    (t' < time_Unix (pc_ExpiresAt pending))%Z) /\
  (once_only m (puts (consentKey +:+ HashToken id)) ->
   forall j user' approve' d', returned m j (CDecideConsent id user' approve') (ADecision (Ok d')) -> j = i).
Proof.
  intros Hm Hr. destruct (returned_obeys _ _ _ _ logins_obey m i _ _ Hm Hr) as (E0&E&El&_&raw&pd&t'&Ht&Hu&Hus&Hc&Hx).
  assert (Hk : ~ claim_key (consentKey +:+ HashToken id)) by (apply not_claim_key; set_solver).
  split.
  - destruct (took_from m i E0 E _ raw Hm El Ht Hk) as (n&j&e&c&F&ttl&_&_&Hd&_&Hp).
    destruct (putting_consent _ _ _ _ _ Hp) as (l0&state&id0&t&->&?&?&?&?). exists j, F, l0, state, id0, t, t', raw, pd.
    split_and!; auto. unfold read_clock in *. rewrite El. apply elem_of_app. by right.
  - intros Ho j u a d' Hr'. destruct (returned_obeys _ _ _ _ logins_obey m j _ _ Hm Hr') as (E0'&E'&El'&_&raw'&?&?&Ht'&_).
    exact (took_once m j i E0' E' E0 E _ raw' raw Hm El' El Ht' Ht Hk Ho).
Qed.

(** An operation that stores a pending device with the hash. *)
Definition starts (hash : string) (o : op) : Prop :=
  exists userCode raw ttl pending, o = OpPutOnce (deviceUserKey +:+ userCode) raw ttl /\
    Unmarshal raw = Ok pending /\ DeviceHash pending = hash.

(** A pending device is taken by one call. *)
Lemma pending_taken_once (m : machine) j j' E0 E E0' E' uc uc' raw raw' pd pd' :
  reachable m -> local j (log m) = E0 ++ E -> local j' (log m) = E0' ++ E' ->
  took E (deviceUserKey +:+ uc) raw -> took E' (deviceUserKey +:+ uc') raw' ->
  Unmarshal raw = Ok pd -> Unmarshal raw' = Ok pd' -> DeviceHash pd = DeviceHash pd' ->
  once_only m (starts (DeviceHash pd)) -> j = j'.
Proof.
  intros Hm El El' Ht Ht' Hu Hu' Hh Ho. destruct (decide (j = j')) as [|Hne]; [done|].
  assert (Hk : forall uc, ~ claim_key (deviceUserKey +:+ uc)) by (intros; apply not_claim_key; set_solver).
  destruct (decide (uc = uc')) as [<-|Huc].
  - destruct (took_apart m j j' E0 E E0' E' _ raw raw' Hm El El' Ht Ht' (Hk _) Hne)
      as (n&n'&a&a'&e&e'&ttl&ttl'&Hnn&Hn&Hn'&He&He').
    destruct Hnn. eapply (Ho n n'); eauto; [by exists uc, raw, ttl, pd|]. exists uc, raw', ttl', pd'. auto.
  - destruct (took_from m j E0 E _ raw Hm El Ht (Hk _)) as (n&a&e&_&_&ttl&Hn&He&_).
    destruct (took_from m j' E0' E' _ raw' Hm El' Ht' (Hk _)) as (n'&a'&e'&_&_&ttl'&Hn'&He'&_).
    assert (n = n') as <-.
    { eapply (Ho n n'); eauto; [by exists uc, raw, ttl, pd|]. exists uc', raw', ttl', pd'. auto. }
    rewrite Hn in Hn'. simplify_eq.
Qed.
(** An operation that approves or denies the device with the hash. *)
Definition settles (hash : string) (o : op) : Prop :=
  exists raw ttl, o = OpPutOnce (deviceApprovedKey +:+ hash) raw ttl \/ o = OpPutOnce (deviceDeniedKey +:+ hash) raw ttl.

(** The call that settles a device took its pending entry, and did nothing else before. *)
Lemma settled_by (m : machine) n a e o hash :
  reachable m -> log m !! n = Some (a, e) -> op_of e = Some o -> settles hash o ->
  exists uc t raw t' pd, local a (take n (log m)) = took_pending t uc raw t' /\
    (exists rest, local a (log m) = [] ++ took_pending t uc raw t' ++ rest) /\
    Unmarshal raw = Ok pd /\ DeviceHash pd = hash.
Proof.
  intros Hm Hn He Hs.
  destruct (logged_obeys _ _ _ _ logins_obey m _ _ _ o Hm Hn He) as (c&p&E0&E&Hc&El&[_ HE0]&HQ).
  assert (Hall : local a (log m) = E0 ++ E ++ local a ((a, e) :: drop (S n) (log m))).
  { rewrite app_assoc, <- El, <- local_app, <- lookup_split; done. }
  destruct Hs as (raw&ttl&[->| ->]); cbn [login_op] in HQ;
    (destruct HE0 as [->|HT]; [|by destruct (putting_calls _ _ _ _ _ HQ)]).
  - destruct (putting_approved _ _ _ _ _ HQ) as (uc&l&t&t'&raw0&pd&_&->&Hu&_&->). naive_solver.
  - destruct (putting_denied _ _ _ _ _ HQ) as (uc&t&t'&raw0&pd&_&->&Hu&->). naive_solver.
Qed.

Lemma took_pending_took t uc raw t' rest :
  took (took_pending t uc raw t' ++ rest) (deviceUserKey +:+ NormalizeUserCode uc) raw.
Proof. exists t. unfold took_pending. in_list. Qed.

(** A device that was started once is approved or denied once. *)
Lemma settled_once (m : machine) hash :
  reachable m -> once_only m (starts hash) -> once_only m (settles hash).
Proof.
  intros Hm Ho n n' a a' e e' o o' Hn Hn' He He' Hs Hs'.
  destruct (settled_by m n a e o hash Hm Hn He Hs) as (uc&t&raw&t1&pd&Hl&(rest&Hr)&Hu&Hh).
  destruct (settled_by m n' a' e' o' hash Hm Hn' He' Hs') as (uc'&t'&raw'&t1'&pd'&Hl'&(rest'&Hr')&Hu'&Hh').
  assert (a = a') as <-.
  { subst hash. eapply (pending_taken_once m a a' [] _ [] _ _ _ raw raw' pd pd' Hm Hr Hr'); eauto using took_pending_took. }
  assert (Hlt : forall n n' e o t uc raw t1, n < n' -> log m !! n = Some (a, e) -> op_of e = Some o -> settles hash o ->
    local a (take n' (log m)) = took_pending t uc raw t1 -> False).
  { clear. intros n n' e o t uc raw t1 Hlt Hn He Hs Hl.
    assert (Hin : e ∈ local a (take n' (log m))).
    { apply elem_of_local. apply list_elem_of_lookup. exists n. by rewrite lookup_take_lt. }
    rewrite Hl in Hin. unfold took_pending in Hin. rewrite !elem_of_cons, elem_of_nil in Hin.
    destruct Hs as (r&ttl&[->| ->]); destruct Hin as [->|[->|[]]]; done. }
  destruct (Nat.lt_trichotomy n n') as [Hc|[->|Hc]]; [|done|]; exfalso; eauto.
Qed.

(** encoding/json of a pending device, whose hash is ASCII. *)
Class DeviceLaws : Prop :=
  device_roundtrip : forall p b, Token.ascii (DeviceHash p) = true -> Marshal p = Ok b -> Unmarshal b = Ok p.

Lemma HashToken_ascii s : Token.ascii (HashToken s) = true.
Proof.
  unfold Token.ascii, HashToken. rewrite bytes_of_string_of. apply forallb_forall. intros b Hb.
  apply list_elem_of_In, Token.hex_bytes_ok in Hb as [Hb _]. revert Hb. unfold Token.tokenByte, is_ascii_byte.
  destruct (Z.ltb_spec (byteZ b) 128) as [|Hz]; [done|]. rewrite !orb_true_iff, !andb_true_iff, !Z.leb_le.
  intros [[[[[?|?]|?]|?]|?]|?]; try lia; apply Ascii.eqb_eq in H; subst; by vm_compute in Hz.
Qed.

(** A device gets the login its user approved, once, and not after a denial: when
    [PollDevice] returns a login, it is, through JSON, the one given to a call of
    [ApproveDevice] with a user code under which a call of [StartDevice] had stored a
    device code of the same hash; and if only one pending device with the hash was ever
    stored, nobody denied it and no other poll gets a login. *)
Theorem device_login_was_approved {laws : DeviceLaws} (m : machine) i code l :
  reachable m -> returned m i (CPollDevice code) (ALogin (Ok l)) ->
  (exists a uc l0 F s F' secret t n e raw0 ttl raw,
    did m a (CApproveDevice uc l0) F /\ took F (deviceUserKey +:+ NormalizeUserCode uc) raw0 /\
    Marshal (without_redirect l0) = Ok raw /\ Unmarshal raw = Ok l /\
    did m s CStartDevice F' /\ drawn F' secret /\ read_clock F' t /\ HashToken (device_code t secret) = HashToken code /\
    log m !! n = Some (s, e) /\ op_of e = Some (OpPutOnce (deviceUserKey +:+ NormalizeUserCode uc) raw0 ttl)) /\
  (once_only m (starts (HashToken code)) ->
   (forall n j e raw ttl, log m !! n = Some (j, e) ->
      op_of e <> Some (OpPutOnce (deviceDeniedKey +:+ HashToken code) raw ttl)) /\
   forall j l', returned m j (CPollDevice code) (ALogin (Ok l')) -> j = i).
Proof.
  intros Hm Hr. destruct (returned_obeys _ _ _ _ logins_obey m i _ _ Hm Hr) as (E0&E&El&_&raw&Ht&Hu).
  assert (Hk : ~ claim_key (deviceApprovedKey +:+ HashToken code)) by (apply not_claim_key; set_solver).
  destruct (took_from m i E0 E _ raw Hm El Ht Hk) as (n&a&e&c&F&ttl&Hn&He&Hd&_&Hp). split.
  - destruct (putting_approved _ _ _ _ _ Hp) as (uc&l0&t&t'&raw0&pd&->&->&Hu0&Hml&Hh).
    destruct Hd as (p&Hca&rest&Hl). pose proof (took_pending_took t uc raw0 t' []) as Htk. rewrite app_nil_r in Htk.
    destruct (took_from m a [] (took_pending t uc raw0 t' ++ rest) _ raw0 Hm Hl (took_pending_took _ _ _ _ _))
      as (n1&s&e1&c1&F1&ttl1&Hn1&He1&Hd1&_&Hp1); [apply not_claim_key; set_solver|].
    destruct (putting_device _ _ _ _ _ Hp1) as (secret&t2&->&Hdr&Hrc&Hmd).
    assert (Hrt := Hmd). apply device_roundtrip in Hrt; [|apply HashToken_ascii]. rewrite Hu0 in Hrt. injection Hrt as ->.
    exists a, uc, l0, (took_pending t uc raw0 t'), s, F1, secret, t2, n1, e1, raw0, ttl1, raw. split_and!; auto.
    exists p. eauto.
  - intros Ho. pose proof (settled_once m (HashToken code) Hm Ho) as Hs. split.
    + intros n' j e' raw' ttl' Hn' He'.
      assert (n = n') as <- by (eapply (Hs n n'); eauto; [exists raw, ttl; by left|exists raw', ttl'; by right]).
      rewrite Hn in Hn'. by simplify_eq.
    + intros j l' Hr'. destruct (returned_obeys _ _ _ _ logins_obey m j _ _ Hm Hr') as (E0'&E'&El'&_&raw'&Ht'&_).
      eapply (took_once m j i E0' E' E0 E _ raw' raw Hm El' El Ht' Ht Hk).
      intros k k' b b' f f' o o' Hk1 Hk2 Hf Hf' Hp1 Hp2. eapply (Hs k k'); eauto.
      * destruct o as [| | | | | | | |key v w| |]; try done. simpl in Hp1. subst key. exists v, w. by left.
      * destruct o' as [| | | | | | | |key v w| |]; try done. simpl in Hp2. subst key. exists v, w. by left.
Qed.
End Logins.

(** ** Sample runs *)
Module Samples.
Import IdentitySamples.

Definition redeemed : sample_machine :=
  let m := perform 0 (CPutAuthCode sample_login) (init sample_start) in
  perform 1 (CRedeemAuthCode (code_of m 0) sample_verifier sample_redirect) m.

Definition consented : sample_machine :=
  let m := perform 0 (CStartConsent sample_login "state") (init sample_start) in
  perform 1 (CDecideConsent (code_of m 0) "user" true) m.

Definition decision_of (m : sample_machine) (i : nat) : string * ConsentRequest :=
  match reply_of m i with Some (ADecision (Ok d)) => d | _ => ("", mkConsentRequest "" "" "" "" "" "" 0) end.

Definition polled : sample_machine :=
  let m := perform 0 CStartDevice (init sample_start) in
  let d := device_of m 0 in
  perform 2 (CPollDevice (DeviceCode d)) (perform 1 (CApproveDevice (UserCode d) sample_login) m).

#[export] Instance sample_device_laws : DeviceLaws.
Proof. intros p b _. apply fields_roundtrip. Qed.
End Samples.
Import IdentitySamples Samples.

Lemma redeemed_login_was_granted_witness :
  VerifyPKCE (l_Challenge sample_login) sample_verifier = true /\
  exists j c F l0 code0 raw, did redeemed j c F /\ grants c F l0 /\ drawn F code0 /\
    HashToken code0 = HashToken (code_of redeemed 0) /\ Marshal l0 = Ok raw /\ Unmarshal raw = Ok sample_login.
Proof.
  destruct (redeemed_login_was_granted sample_keys redeemed 1 (code_of redeemed 0) sample_verifier sample_redirect sample_login)
    as (H1&_&H2&_); [|vm_compute; reflexivity|exact (conj H1 H2)].
  unfold redeemed. auto with sample_runs.
Defined.

Lemma consent_is_decided_once_witness :
  exists j F l0 state id0 t t' raw pending, did consented j (CStartConsent l0 state) F /\ drawn F id0 /\
    HashToken id0 = HashToken (code_of consented 0) /\ read_clock F t /\
    Marshal (mkPendingConsent l0 state (Unix (t + ConsentTTL))) = Ok raw /\ Unmarshal raw = Ok pending /\
    l_UserID (pc_Login pending) = "user" /\ read_clock (local 1 (log consented)) t' /\
    (t' < time_Unix (pc_ExpiresAt pending))%Z.
Proof.
  refine (proj1 (consent_is_decided_once sample_keys consented 1 (code_of consented 0) "user" true (decision_of consented 1) _ _));
    [|vm_compute; reflexivity].
  unfold consented. auto with sample_runs.
Defined.

Lemma device_login_was_approved_witness :
  exists a uc l0 F s F' secret t n e raw0 ttl raw,
    did polled a (CApproveDevice uc l0) F /\ took F (deviceUserKey +:+ NormalizeUserCode uc) raw0 /\
    Marshal (without_redirect l0) = Ok raw /\ Unmarshal raw = Ok (without_redirect sample_login) /\
    did polled s CStartDevice F' /\ drawn F' secret /\ read_clock F' t /\
    HashToken (device_code t secret) = HashToken (DeviceCode (device_of polled 0)) /\
    log polled !! n = Some (s, e) /\ op_of e = Some (OpPutOnce (deviceUserKey +:+ NormalizeUserCode uc) raw0 ttl).
Proof.
  refine (proj1 (device_login_was_approved sample_keys polled 2 (DeviceCode (device_of polled 0)) (without_redirect sample_login) _ _));
    [|vm_compute; reflexivity].
  unfold polled. auto with sample_runs.
Defined.
End IdentityLogin.
