(* ===== verification/IdentityTokens.v ===== *)
(** * Sessions, tokens and refreshes

    What the calls of [Identity] do to token sessions: a session keeps the organization
    and subject it was issued for; a refresh token is rotated once; a token that is used
    again revokes its session. *)
From S2P Require Import Prelude GoIO GoStrings Frames Sessions Token Authz Prog ProgLog Identity IdentitySamples IdentityLogin.
Import Sessions Prog ProgLog Identity IdentitySamples IdentityLogin.
Import Token (Keyring, Claims, mkClaims, Sign, Verify, Ed25519, Sum256, hex_bytes).
Import Authz.Decision (EntityRef, mkRef, RefType, RefID, EntityUser, EntityServiceAccount).
Import Frames.Control (Codec, Marshal, Unmarshal).

Module IdentityTokens.
Section Tokens.
Context `{ed : Ed25519} `{claims : Codec Claims} `{logins : Codec AgentLogin} `{devices : Codec pendingDevice}
  `{consents : Codec pendingConsent} `{endpoints : Codec EndpointLogin} `{url : UrlParser} `{upper : UnicodeUpper}.
Context (keys : Keyring).

Abbreviation event := (lev Revocation).
Abbreviation machine := (Prog.machine Revocation call reply).
Abbreviation reachable := (Identity.reachable keys).

(** The call was given claims by the keyring and read their session. *)
Definition verified (raw : list byte) (E : list event) (ts : TokenSession) (cl : Claims) : Prop :=
  exists t t1, Verify keys raw t = Ok cl /\ LCall t1 (OpGet (Token.SessionID cl)) (RSession (Ok ts)) ∈ E /\
    OrgID ts = Token.OrgID cl.

(** What the request for a session says of it. *)
Definition issued_for (c : call) (ts : TokenSession) : Prop :=
  match c with
  | CIssue req =>
      OrgID ts = ir_OrgID req /\ SubjectTypeOf (RefType (ir_Subject req)) = Some (SubjectType ts) /\
      SubjectID ts = RefID (ir_Subject req) /\ AuthMethod ts = ir_AuthMethod req /\
      EndpointID ts = ir_EndpointID req /\ AgentID ts = ir_AgentID req
  | CIssueGuest org ep email _ =>
      OrgID ts = org /\ SubjectType ts = SubjectGuest /\ SubjectID ts = email /\ AuthMethod ts = AuthMethodOIDC /\
      EndpointID ts = ep /\ AgentID ts = ""
  | CIssueAgentUser l =>
      OrgID ts = l_OrgID l /\ SubjectType ts = SubjectUser /\ SubjectID ts = l_UserID l /\
      AuthMethod ts = l_AuthMethod l /\ EndpointID ts = "" /\ AgentID ts = ""
  | _ => False
  end.

Definition storing (c : call) (E : list event) (ts : TokenSession) : Prop :=
  issued_for c ts \/
  exists id typ ttl old t tid exp, c = CReissue id typ ttl /\ LCall t (OpGet id) (RSession (Ok old)) ∈ E /\
    ts = with_token tid exp old.

Definition rotating (c : call) (E : list event) (ts : TokenSession) (prev : string) : Prop :=
  exists raw old cl t, c = CRefreshAgentUser raw /\ verified raw E old cl /\ TokenID old = Token.TokenID cl /\
    Token.Type_ cl = TypeRefresh /\ SubjectType old = SubjectUser /\ ts = rotated t old /\ prev = TokenID old /\
    Forall (fun e => match op_of e with Some (OpRotate _ _) => False | _ => True end) E.

Definition grace_key (cl : Claims) (ts : TokenSession) : string :=
  refreshGraceKey +:+ ID ts +:+ ":" +:+ Token.TokenID cl.

Definition in_grace (c : call) (E : list event) (key : string) (ttl : Z) : Prop :=
  exists raw ts cl cl' t t', c = CRefreshAgentUser raw /\ verified raw E ts cl /\ TokenID ts <> Token.TokenID cl /\
    Verify keys raw t = Ok cl' /\ key = grace_key cl' ts /\ ttl = RefreshGrace /\ PrevTokenID ts = Token.TokenID cl' /\
    LNow t' ∈ E /\ (t' < RotatedAt ts + RefreshGrace)%Z /\ (t' < ExpiresAt ts)%Z.

Definition session_op (c : call) (E : list event) (o : op) : Prop :=
  match o with
  | OpPut ts => storing c E ts
  | OpRotate ts prev => rotating c E ts prev
  | OpClaim key ttl => in_grace c E key ttl \/ exists x, key = devicePollKey +:+ x
  | OpPutOnce key _ _ => ~ claim_key key
  | OpTake key => ~ claim_key key
  | _ => True
  end.

(** The session was found missing, or deleted and the revocation published. *)
Definition gone (E : list event) (id : string) : Prop :=
  exists t, (LCall t (OpDelete id) RDone ∈ E /\ exists org ref, LPublish (mkRevocation org ref [id]) ∈ E) \/
    exists e, LCall t (OpGet id) (RSession (Fail e)) ∈ E /\ errIs e ErrNotFound = true.

Definition principal_of (ts : TokenSession) (typ : string) (p : Principal) : Prop :=
  EntityTypeOf (SubjectType ts) = Some (RefType (p_Ref p)) /\ RefID (p_Ref p) = SubjectID ts /\ p_OrgID p = OrgID ts /\
  p_SessionID p = ID ts /\ p_Type p = typ /\ p_AuthMethod p = AuthMethod ts /\ p_EndpointID p = EndpointID ts /\
  p_AgentID p = AgentID ts.

(** The tokens for a session: the access token ends with the session at the latest. *)
Definition tokens_for (E : list event) (tk : AgentTokens) : Prop :=
  exists t t1 t2 exp, LNow t ∈ E /\ (exp <= ExpiresAt (tk_Session tk))%Z /\ (exp <= t + AgentAccessTTL)%Z /\
    let ts := tk_Session tk in
    Sign keys (mkClaims TypeAgentUser (ID ts) (TokenID ts) (OrgID ts) (Unix t1) (Unix exp)) = Ok (AccessToken tk) /\
    Sign keys (mkClaims TypeRefresh (ID ts) (TokenID ts) (OrgID ts) (Unix t2) (Unix (ExpiresAt ts))) = Ok (RefreshToken tk).

Definition session_result (c : call) (E : list event) (a : reply) : Prop :=
  match c, a with
  | CAuthenticate raw allowed, APrincipal (Ok p) =>
      exists ts cl t, verified raw E ts cl /\ (allowed = [] \/ Token.Type_ cl ∈ allowed) /\
        TokenID ts = Token.TokenID cl /\ LNow t ∈ E /\ (t < ExpiresAt ts)%Z /\ principal_of ts (Token.Type_ cl) p
  | CIssueAgentUser _, ATokens (Ok tk) => tokens_for E tk
  | CRefreshAgentUser raw, ATokens (Ok tk) =>
      tokens_for E tk /\
      exists ts cl t, verified raw E ts cl /\
        ((TokenID ts = Token.TokenID cl /\ exists ts', LCall t (OpRotate ts' (TokenID ts)) (RErr None) ∈ E /\ ID ts' = ID ts) \/
         (exists cl' t', Verify keys raw t' = Ok cl' /\ LCall t (OpClaim (grace_key cl' ts) RefreshGrace) (RClaimed true) ∈ E))
  | CRefreshAgentUser raw, ATokens (Fail e) =>
      e = ErrRefreshReused -> exists ts cl, verified raw E ts cl /\ gone E (ID ts)
  | CRevokeSession id, AErr None => gone E id
  | _, ATokens (Ok _) => False
  | _, _ => True
  end.

Lemma Sign_error c e : Sign keys c = Fail e -> e <> ErrRefreshReused.
Proof. unfold Sign. repeat case_match; intros; simplify_eq; done. Qed.

Lemma type_allowed (typ : string) allowed :
  negb (bool_decide (allowed = [])) && negb (bool_decide (typ ∈ allowed)) = false -> allowed = [] \/ typ ∈ allowed.
Proof. case_bool_decide; [by left|]. case_bool_decide; [by right|done]. Qed.

Lemma tokens_for_intro E ts t t1 t2 access refresh d :
  LNow t ∈ E ->
  Sign keys (mkClaims TypeAgentUser (ID ts) (TokenID ts) (OrgID ts) (Unix t1)
    (Unix (if (ExpiresAt ts <? t + AgentAccessTTL)%Z then ExpiresAt ts else t + AgentAccessTTL))) = Ok access ->
  Sign keys (mkClaims TypeRefresh (ID ts) (TokenID ts) (OrgID ts) (Unix t2) (Unix (ExpiresAt ts))) = Ok refresh ->
  tokens_for E (mkTokens access refresh d ts).
Proof.
  intros Ht Ha Hr. exists t, t1, t2, (if (ExpiresAt ts <? t + AgentAccessTTL)%Z then ExpiresAt ts else t + AgentAccessTTL)%Z.
  cbn [tk_Session AccessToken RefreshToken]. destruct (Z.ltb_spec (ExpiresAt ts) (t + AgentAccessTTL)); split_and!; auto; lia.
Qed.

Ltac in_list := repeat (rewrite elem_of_cons || rewrite elem_of_app); tauto.
Ltac by_verified t t0 := exists t, t0; split_and!; [done|in_list|by bool_to_prop].

Ltac by_deleted := eexists; left; split; [in_list|]; do 2 eexists; in_list.

Lemma refresh_obeys raw :
  obeys (tail_calls (CRefreshAgentUser raw)) (session_op (CRefreshAgentUser raw)) (session_result (CRefreshAgentUser raw))
    (body keys (CRefreshAgentUser raw)) [].
Proof.
  walk; cbn [session_op session_result]; try done; try (by do 5 eexists; split; [done|]; split; [in_list|]);
    try (intros ->; exfalso; by eapply Sign_error);
    try (intros _; exists a0, a; split; [by_verified t t0|]; by_deleted).
  - left. bool_to_prop. exists raw, a0, a, a1, t1, t2. split_and!; try done; [by_verified t t0|in_list].
  - split; [apply (tokens_for_intro _ _ t4 t5 t6); [in_list|done..]|]. exists a0, a, t3. split; [by_verified t t0|].
    right. exists a1, t1. split; [done|]. in_list.
  - destruct (errIs e ErrNotFound) eqn:He; [|done]. intros _. exists a0, a. split; [by_verified t t0|].
    exists t4. right. exists e. split; [in_list|done].
  - by rewrite H.
  - destruct (errIs e ErrNotFound) eqn:He; [|done]. intros _. exists a0, a. split; [by_verified t t0|].
    exists t3. right. exists e. split; [in_list|done].
  - by rewrite H.
  - bool_to_prop. exists raw, a0, a, t2. split_and!; try done; [by_verified t t0| |].
    + apply type_allowed in Heqb as [Hb|Hb]; [done|]. set_solver.
    + by repeat constructor.
  - split; [apply (tokens_for_intro _ _ t3 t4 t5); [in_list|done..]|]. exists a0, a, t6. split; [by_verified t t0|].
    left. bool_to_prop. split; [done|]. exists (rotated t2 a0). split; [in_list|done].
  - by destruct (errIs e ErrNotFound).
  - by destruct (errIs e ErrNotFound).
Qed.

Lemma tokens_obey c : obeys (tail_calls c) (session_op c) (session_result c) (body keys c) [].
Proof.
  destruct c; try (by walk; cbn [session_op session_result]; first [done|apply not_claim_key; set_solver]).
  - walk; cbn [session_op session_result]; try done; by left.
  - walk; cbn [session_op session_result]; try done. right. do 7 eexists. split; [done|]. split; [in_list|done].
  - walk; cbn [session_op session_result]; try done. exists a0, a, t1. bool_to_prop. apply type_allowed in Heqb.
    split_and!; try done; [by_verified t t0|in_list].
  - walk; cbn [session_op session_result]; try done. by left.
  - walk; cbn [session_op session_result]; try done; [by_deleted| |by rewrite H].
    destruct (errIs e ErrNotFound) eqn:He; [|done]. exists t. right. exists e. split; [in_list|done].
  - walk; cbn [session_op session_result]; try done. apply obeys_bind, obeys_bind, publish_each_obeys. done.
  - walk; cbn [session_op session_result]; try done. apply obeys_bind, obeys_bind, obeys_bind, user_code_obeys.
    intros F [code|err]; walk; cbn [session_op session_result]; try done. apply not_claim_key. set_solver.
  - walk; cbn [session_op session_result]; try done; [right; by eexists|]. apply not_claim_key. set_solver.
  - walk; cbn [session_op session_result]; try done; [by left|].
    apply (tokens_for_intro _ _ t0 t1 t2); [in_list|done..].
  - apply refresh_obeys.
Qed.

(** ** Where sessions come from *)

Lemma Verify_claims raw t t' cl cl' : Verify keys raw t = Ok cl -> Verify keys raw t' = Ok cl' -> cl = cl'.
Proof. unfold Verify. repeat case_match; intros; simplify_eq; done. Qed.

(** An action a call did before position [n]. *)
Lemma seen (m : machine) n i E0 E e :
  local i (take n (log m)) = E0 ++ E -> e ∈ E -> exists k, k < n /\ log m !! k = Some (i, e).
Proof.
  intros El He. assert (Hin : (i, e) ∈ take n (log m)) by (apply elem_of_local; rewrite El; apply elem_of_app; by right).
  apply list_elem_of_lookup in Hin as [k Hk]. apply lookup_take_Some in Hk as [? ?]. eauto.
Qed.

Lemma seen_at_all (m : machine) i E0 E e : local i (log m) = E0 ++ E -> e ∈ E -> exists k, log m !! k = Some (i, e).
Proof.
  intros El He. assert (Hin : (i, e) ∈ log m) by (apply elem_of_local; rewrite El; apply elem_of_app; by right).
  by apply list_elem_of_lookup in Hin.
Qed.

(** Call [j] stored a session under the id, for whom its request names. *)
Definition issued_by (m : machine) (j : nat) (c : call) (ts : TokenSession) : Prop :=
  (exists p, calls m !! j = Some (c, p)) /\ issued_for c ts /\
  exists k e ts0, log m !! k = Some (j, e) /\ op_of e = Some (OpPut ts0) /\ ID ts0 = ID ts.

Lemma stored_issuer (m : machine) n i e x ts :
  reachable m -> log m !! n = Some (i, e) -> effect_of e = Some x -> stores ts x -> exists j c, issued_by m j c ts.
Proof.
  intros Hm. revert i e x ts. induction n as [n IH] using lt_wf_ind. intros i e [[t o] r] ts Hn He Hs.
  assert (Hold : forall E0 E t old, local i (take n (log m)) = E0 ++ E ->
    LCall t (OpGet (ID ts)) (RSession (Ok old)) ∈ E ->
    (forall c, issued_for c old -> issued_for c ts) -> exists j c, issued_by m j c ts).
  { clear -IH Hm. intros E0 E t old El Hin Hfor. destruct (seen m n i E0 E _ El Hin) as (k&Hk&Hkl).
    destruct (read_from _ m k i _ t (ID ts) old Hm Hkl eq_refl) as (_&Hid&n'&j&e'&x&Hn'&Hl&Hx&Hst&_).
    destruct (IH n' ltac:(lia) j e' x old Hl Hx Hst) as (j'&c&Hp&Hf&k'&e1&ts0&?&?&?). exists j', c.
    split_and!; auto. exists k', e1, ts0. split_and!; congruence. }
  pose proof (effect_op _ _ _ _ He) as Ho.
  destruct (logged_obeys _ _ _ _ tokens_obey m _ _ _ o Hm Hn Ho) as (c&p&E0&E&Hc&El&_&HQ).
  destruct o as [u|u prev| | | | | | | | |]; try done; cbn [session_op stores] in *.
  - subst u. destruct HQ as [Hf|(id&typ&ttl&old&t1&tid&ex&->&Hin&->)].
    + exists i, c. split_and!; eauto. exists n, e, ts. done.
    + assert (Hid : ID old = id).
      { destruct (seen m n i E0 E _ El Hin) as (k&Hk&Hkl). by apply (read_from _ m k i _ t1 id old Hm Hkl eq_refl). }
      apply (Hold E0 E t1 old El); [simpl; by rewrite Hid|]. intros c. by destruct c.
  - destruct r as [|[]| | | | |]; try done. subst u.
    destruct HQ as (raw&old&cl&t1&->&(t2&t3&_&Hin&_)&_&_&_&->&_).
    assert (Hid : ID old = Token.SessionID cl).
    { destruct (seen m n i E0 E _ El Hin) as (k&Hk&Hkl). by apply (read_from _ m k i _ t3 _ old Hm Hkl eq_refl). }
    apply (Hold E0 E t3 old El); [simpl; by rewrite Hid|]. intros c. by destruct c.
Qed.

(** The principal is the one a login or an issue request named. *)
Definition names (c : call) (p : Principal) : Prop :=
  match c with
  | CIssue req =>
      p_OrgID p = ir_OrgID req /\ p_Ref p = ir_Subject req /\ p_AuthMethod p = ir_AuthMethod req /\
      p_EndpointID p = ir_EndpointID req /\ p_AgentID p = ir_AgentID req
  | CIssueAgentUser l =>
      p_OrgID p = l_OrgID l /\ p_Ref p = mkRef EntityUser (l_UserID l) /\ p_AuthMethod p = l_AuthMethod l /\
      p_EndpointID p = "" /\ p_AgentID p = ""
  | _ => False
  end.

Lemma SubjectTypeOf_inv a b c : SubjectTypeOf a = Some b -> EntityTypeOf b = Some c -> a = c.
Proof. unfold SubjectTypeOf, EntityTypeOf. intros. repeat case_decide; by simplify_eq. Qed.

Lemma issued_names c ts typ p : issued_for c ts -> principal_of ts typ p -> names c p.
Proof.
  destruct p as [org [rt rid] sid ty am at_ ex ep ag]. unfold principal_of.
  destruct c; cbn; try done; intros H (Ht&?&?&?&?&?&?&?); destruct H as (?&Hst&?&?&?&?); subst.
  - destruct req as [? ? [? ?]]. cbn in *. pose proof (SubjectTypeOf_inv _ _ _ Hst Ht). subst. done.
  - rewrite Hst in Ht. discriminate Ht.
  - rewrite Hst in Ht. injection Ht as <-. split_and!; congruence.
Qed.

(** ** The end of a session *)

(** The action at [k] stores a session under the id: for a new login, or reissuing the
    token of a session its call read before position [n]. *)
Definition restores (m : machine) (n k : nat) (id : string) : Prop :=
  exists j f c p ts, log m !! k = Some (j, f) /\ op_of f = Some (OpPut ts) /\ ID ts = id /\ calls m !! j = Some (c, p) /\
    (issued_for c ts \/ exists typ ttl g t old, c = CReissue id typ ttl /\ g < n /\
      log m !! g = Some (j, LCall t (OpGet id) (RSession (Ok old)))).

Lemma gone_for_good (m : machine) n n' i i' e e' x t' id ts :
  reachable m -> n < n' -> log m !! n = Some (i, e) -> log m !! n' = Some (i', e') ->
  effect_of e = Some x -> (exists t r, x = (t, OpDelete id, r)) \/ (exists t err, x = (t, OpGet id, RSession (Fail err))) ->
  effect_of e' = Some (t', OpGet id, RSession (Ok ts)) ->
  exists k, n < k < n' /\ restores m n k id.
Proof.
  intros Hm Hlt Hn Hn' He Hx He'. revert i' e' t' ts Hlt Hn' He'. induction n' as [n' IH] using lt_wf_ind.
  intros i' e' t' ts Hlt Hn' He'.
  destruct (gone_until_put _ m n n' i i' e e' x t' id ts Hm Hlt Hn Hn' He Hx He') as (k&j&f&t&u&r&Hk&Hf&Hfe&Hid).
  destruct (logged_obeys _ _ _ _ tokens_obey m _ _ _ _ Hm Hf (effect_op _ _ _ _ Hfe)) as (c&p&E0&E&Hc&El&_&HQ).
  destruct HQ as [Hfor|(id'&typ&ttl&old&t1&tid&ex&->&Hin&->)].
  { exists k. split; [done|]. exists j, f, c, p, u. split_and!; eauto using effect_op. }
  destruct (seen m k j E0 E _ El Hin) as (g&Hg&Hgl).
  assert (id' = id) as -> by (destruct (read_from _ m g j _ t1 id' old Hm Hgl eq_refl) as (_&<-&_); exact Hid).
  destruct (Nat.lt_trichotomy g n) as [Hc1|[->|Hc1]].
  - exists k. split; [done|]. eexists j, f, _, p, _. split_and!; eauto using effect_op. right. exists typ, ttl, g, t1, old. done.
  - rewrite Hn in Hgl. simplify_eq. destruct Hx as [(?&?&?)|(?&?&?)]; simplify_eq.
  - destruct (IH g ltac:(lia) j _ t1 old Hc1 Hgl eq_refl) as (k'&?&?). exists k'. split; [lia|done].
Qed.

(** The call says that the session is revoked. *)
Inductive revokes : call -> reply -> string -> Prop :=
| revokes_session id : revokes (CRevokeSession id) (AErr None) id
| revokes_reused raw t cl :
    Verify keys raw t = Ok cl -> revokes (CRefreshAgentUser raw) (ATokens (Fail ErrRefreshReused)) (Token.SessionID cl).

Lemma revokes_gone (m : machine) i c a id :
  reachable m -> returned m i c a -> revokes c a id -> exists E0 E, local i (log m) = E0 ++ E /\ gone E id.
Proof.
  intros Hm Hr Hv. destruct (returned_obeys _ _ _ _ tokens_obey m i _ _ Hm Hr) as (E0&E&El&_&Hres). exists E0, E.
  split; [done|]. destruct Hv as [id|raw t cl Hv]; cbn [session_result] in Hres; [done|].
  destruct (Hres eq_refl) as (ts&cl'&(t1&t2&Hv'&Hget&_)&Hg). rewrite <- (Verify_claims _ _ _ _ _ Hv' Hv).
  destruct (seen_at_all m i E0 E _ El Hget) as (k&Hk).
  destruct (read_from _ m k i _ t2 _ ts Hm Hk eq_refl) as (_&<-&_). done.
Qed.

Lemma gone_at (m : machine) i E0 E id :
  local i (log m) = E0 ++ E -> gone E id ->
  exists n e x, log m !! n = Some (i, e) /\ effect_of e = Some x /\
    ((exists t r, x = (t, OpDelete id, r)) \/ (exists t err, x = (t, OpGet id, RSession (Fail err)))).
Proof.
  intros El (t&[(Hin&_)|(e&Hin&_)]); destruct (seen_at_all m i E0 E _ El Hin) as (n&Hn); eexists n, _, _;
    (split; [done|]); (split; [done|]); eauto.
Qed.

(** C10: A token speaks for the principal it was issued to: when [Authenticate] returns a
    principal, the token's claims verify, its type is one that was asked for, the
    principal is that of the session named by the claims and of their organization, the
    call read that session from the store with the token id of the claims and before its
    expiry; and a call of [Issue] or [IssueAgentUser] stored a session under that id for
    the same organization, subject, method, endpoint and agent, through any number of
    rotations and reissues. *)
Theorem authenticated_principal_was_issued (m : machine) i raw allowed p :
  reachable m -> returned m i (CAuthenticate raw allowed) (APrincipal (Ok p)) ->
  (exists cl t t1 t2 ts, Verify keys raw t = Ok cl /\ (allowed = [] \/ Token.Type_ cl ∈ allowed) /\
    p_SessionID p = Token.SessionID cl /\ p_OrgID p = Token.OrgID cl /\ p_Type p = Token.Type_ cl /\
    (i, LCall t1 (OpGet (Token.SessionID cl)) (RSession (Ok ts))) ∈ log m /\ TokenID ts = Token.TokenID cl /\
    (i, LNow t2) ∈ log m /\ (t2 < ExpiresAt ts)%Z) /\
  exists j c q k e ts0, calls m !! j = Some (c, q) /\ names c p /\
    log m !! k = Some (j, e) /\ op_of e = Some (OpPut ts0) /\ ID ts0 = p_SessionID p.
Proof.
  intros Hm Hr. destruct (returned_obeys _ _ _ _ tokens_obey m i _ _ Hm Hr) as (E0&E&El&_&ts&cl&t&Hv&Hty&Htk&Hnow&Hexp&Hp).
  destruct Hv as (t0&t1&Hv&Hget&Horg). destruct (seen_at_all m i E0 E _ El Hget) as (n&Hn).
  destruct (read_from _ m n i _ t1 _ ts Hm Hn eq_refl) as (_&Hid&n'&j&e'&x&_&Hl&Hx&Hst&_). split.
  - exists cl, t0, t1, t, ts. destruct Hp as (_&_&?&?&?&_). split_and!; auto; try congruence.
    + by apply list_elem_of_lookup_2 in Hn.
    + apply elem_of_local. rewrite El. apply elem_of_app. by right.
  - destruct (stored_issuer m n' j e' x ts Hm Hl Hx Hst) as (j'&c&(q&Hq)&Hf&k&e&ts0&?&?&?).
    exists j', c, q, k, e, ts0. pose proof (issued_names _ _ _ _ Hf Hp). destruct Hp as (_&_&_&?&_). split_and!; congruence.
Qed.

(** C33: A revoked session stays revoked: when [RevokeSession] returned without an error, or
    [RefreshAgentUser] found a token used again, then from some action of that call on no
    call reads the session any more, unless in between a call stored one under the id: a
    new login, or a [Reissue] that had read the session before it was revoked. *)
Theorem revoked_session_is_final (m : machine) i c a id :
  reachable m -> returned m i c a -> revokes c a id ->
  exists n, (exists e, log m !! n = Some (i, e)) /\
    forall n' i' t ts, n < n' -> log m !! n' = Some (i', LCall t (OpGet id) (RSession (Ok ts))) ->
      exists k, n < k < n' /\ restores m n k id.
Proof.
  intros Hm Hr Hv. destruct (revokes_gone m i c a id Hm Hr Hv) as (E0&E&El&Hg).
  destruct (gone_at m i E0 E id El Hg) as (n&e&x&Hn&Hx&Hk). exists n. split; [eauto|]. intros n' i' t ts Hlt Hn'.
  exact (gone_for_good m n n' i i' e _ x t id ts Hm Hlt Hn Hn' Hx Hk eq_refl).
Qed.

(** ** Rotation *)

(** A session the operation writes. *)
Definition writes (o : op) (ts : TokenSession) : Prop :=
  match o with OpPut u | OpRotate u _ => u = ts | _ => False end.

(** Random token ids do not repeat and the hash of [nextTokenID] has no collisions: two
    writes of a session with one token id are one, or rotate the same token. *)
Definition fresh_ids (m : machine) : Prop :=
  forall n n' i i' e e' o o' ts ts', log m !! n = Some (i, e) -> log m !! n' = Some (i', e') ->
    op_of e = Some o -> op_of e' = Some o' -> writes o ts -> writes o' ts' -> ID ts = ID ts' -> TokenID ts = TokenID ts' ->
    n = n' \/ exists prev, o = OpRotate ts prev /\ o' = OpRotate ts' prev.

(** The two stores of a session with one token id. *)
Lemma stored_twice (m : machine) n n' i i' e e' x x' ts ts' :
  fresh_ids m -> log m !! n = Some (i, e) -> log m !! n' = Some (i', e') -> effect_of e = Some x -> effect_of e' = Some x' ->
  stores ts x -> stores ts' x' -> ID ts = ID ts' -> TokenID ts = TokenID ts' ->
  n = n' \/ exists prev t t', x = (t, OpRotate ts prev, RErr None) /\ x' = (t', OpRotate ts' prev, RErr None).
Proof.
  intros Hf Hn Hn' He He' Hs Hs' Hid Htk. destruct x as [[t o] r], x' as [[t' o'] r'].
  assert (Hw : forall t o r u, stores u (t, o, r) -> writes o u).
  { clear. intros t [] r u; cbn; try done. by destruct r as [|[]| | | | |]. }
  destruct (Hf n n' i i' e e' o o' ts ts') as [?|(prev&->&->)]; eauto using effect_op.
  right. exists prev, t, t'. by destruct r as [|[]| | | | |], r' as [|[]| | | | |].
Qed.

(** A token is rotated once. *)
Lemma rotated_once (m : machine) n n' i i' e e' t t' ts ts' prev :
  reachable m -> fresh_ids m -> n < n' -> log m !! n = Some (i, e) -> log m !! n' = Some (i', e') ->
  effect_of e = Some (t, OpRotate ts prev, RErr None) -> effect_of e' = Some (t', OpRotate ts' prev, RErr None) ->
  ID ts = ID ts' -> False.
Proof.
  intros Hm Hf. revert n i i' e e' t t' ts ts' prev. induction n' as [n' IH] using lt_wf_ind.
  intros n i i' e e' t t' ts ts' prev Hlt Hn Hn' He He' Hid.
  destruct (rotated_from _ m n i e t ts prev Hm Hn He) as (cur&Hc&Hcid&p&j&f&x&Hp&Hpl&Hx&Hst&_).
  destruct (rotated_from _ m n' i' e' t' ts' prev Hm Hn' He') as (cur'&Hc'&Hcid'&p'&j'&f'&x'&Hp'&Hpl'&Hx'&Hst'&Hu).
  assert (Hge : n <= p').
  { destruct (decide (n <= p')) as [|Hg]; [done|]. destruct (Hu n i e _ ltac:(lia) Hn He). done. }
  destruct (stored_twice m p p' j j' f f' x x' cur cur' Hf Hpl Hpl' Hx Hx' Hst Hst') as [->|(q&u&u'&->&->)];
    [congruence..|lia|].
  eapply (IH p' Hp' p j j' f f' u u' cur cur' q); [lia|done..|congruence].
Qed.

(** Call [i] spent the refresh token with the claims: it rotated the session from the
    token, or at [t] it claimed the one retry that a token rotated lately has. *)
Definition rotates (m : machine) (i : nat) (cl : Claims) : Prop :=
  exists t ts, (i, LCall t (OpRotate ts (Token.TokenID cl)) (RErr None)) ∈ log m /\ ID ts = Token.SessionID cl.

Definition retries (m : machine) (i : nat) (cl : Claims) (t : Z) : Prop :=
  (i, LCall t (OpClaim (refreshGraceKey +:+ Token.SessionID cl +:+ ":" +:+ Token.TokenID cl) RefreshGrace) (RClaimed true))
    ∈ log m.

Lemma refresh_spends (m : machine) i raw tk :
  reachable m -> returned m i (CRefreshAgentUser raw) (ATokens (Ok tk)) ->
  exists cl t, Verify keys raw t = Ok cl /\ (rotates m i cl \/ exists t', retries m i cl t').
Proof.
  intros Hm Hr. destruct (returned_obeys _ _ _ _ tokens_obey m i _ _ Hm Hr) as (E0&E&El&_&_&ts&cl&t&Hv&Hd).
  destruct Hv as (t0&t1&Hv&Hget&_). destruct (seen_at_all m i E0 E _ El Hget) as (n&Hn).
  destruct (read_from _ m n i _ t1 _ ts Hm Hn eq_refl) as (_&Hid&_). exists cl, t0. split; [done|].
  destruct Hd as [(Htk&ts'&Hin&Hid')|(cl'&t'&Hv'&Hin)].
  - left. exists t, ts'. split; [|congruence]. apply elem_of_local. rewrite El, <- Htk. apply elem_of_app. by right.
  - right. exists t. unfold retries. rewrite (Verify_claims _ _ _ _ _ Hv' Hv) in Hin. unfold grace_key in Hin.
    rewrite Hid in Hin. apply elem_of_local. rewrite El. apply elem_of_app. by right.
Qed.

Lemma rotates_alone (m : machine) i j cl : reachable m -> fresh_ids m -> rotates m i cl -> rotates m j cl -> i = j.
Proof.
  intros Hm Hf (t&ts&Hin&Hid) (t'&ts'&Hin'&Hid'). destruct (decide (i = j)) as [|Hne]; [done|]. exfalso.
  apply list_elem_of_lookup in Hin as [n Hn], Hin' as [n' Hn']. destruct (Nat.lt_trichotomy n n') as [Hc|[->|Hc]].
  - eapply (rotated_once m n n' i j _ _ t t' ts ts'); eauto; congruence.
  - rewrite Hn in Hn'. by simplify_eq.
  - eapply (rotated_once m n' n j i _ _ t' t ts' ts); eauto; congruence.
Qed.

(** Nothing takes or replaces a claim. *)
Lemma claims_left (m : machine) key k b f o :
  reachable m -> claim_key key -> log m !! k = Some (b, f) -> op_of f = Some o -> leaves key o.
Proof.
  intros Hm Hk Hf Ho. destruct (logged_obeys _ _ _ _ tokens_obey m _ _ _ _ Hm Hf Ho) as (c&p&E0&E&_&_&_&HQ).
  destruct o; cbn [session_op leaves] in *; try done; intros ->; by destruct HQ.
Qed.

Lemma retries_apart (m : machine) i j cl t t' :
  reachable m -> retries m i cl t -> retries m j cl t' -> i <> j -> (t + RefreshGrace <= t' \/ t' + RefreshGrace <= t)%Z.
Proof.
  intros Hm Hin Hin' Hne. apply list_elem_of_lookup in Hin as [n Hn], Hin' as [n' Hn'].
  assert (Hk : claim_key (refreshGraceKey +:+ Token.SessionID cl +:+ ":" +:+ Token.TokenID cl)) by (eexists; by right).
  destruct (Nat.lt_trichotomy n n') as [Hc|[->|Hc]]; [left| |right].
  - exact (claims_apart _ m n n' _ _ _ _ t t' _ _ _ Hm Hc Hn Hn' eq_refl eq_refl (fun k b f o => claims_left m _ k b f o Hm Hk)).
  - rewrite Hn in Hn'. by simplify_eq.
  - exact (claims_apart _ m n' n _ _ _ _ t' t _ _ _ Hm Hc Hn' Hn eq_refl eq_refl (fun k b f o => claims_left m _ k b f o Hm Hk)).
Qed.


(** ** Retries *)

(** Actions of one call before and after a point, in the log. *)
Lemma ordered (m : machine) n i E0 E a b :
  local i (take n (log m)) = E0 ++ E -> a ∈ E0 -> b ∈ E ->
  exists k k', k < k' < n /\ log m !! k = Some (i, a) /\ log m !! k' = Some (i, b).
Proof.
  intros El Ha Hb. apply list_elem_of_split in Hb as (E1&E2&->). rewrite app_assoc in El.
  destruct (local_split _ _ _ _ _ El) as (l1&l2&Hl&Hl1&_).
  assert (Hin : (i, a) ∈ l1) by (apply elem_of_local; rewrite Hl1; apply elem_of_app; by left).
  apply list_elem_of_lookup in Hin as [k Hk]. pose proof (lookup_lt_Some _ _ _ Hk). exists k, (length l1).
  assert (Ht : forall k y, take n (log m) !! k = Some y -> k < n /\ log m !! k = Some y)
    by (intros k0 y [? ?]%lookup_take_Some; done).
  destruct (Ht k (i, a)) as [_ ?]; [rewrite Hl; by rewrite lookup_app_l|].
  destruct (Ht (length l1) (i, b)) as [? ?]; [rewrite Hl; by apply list_lookup_middle|]. split_and!; auto; lia.
Qed.

(** What a call that rotates a session read before. *)
Lemma rotation_read (m : machine) n i e ts prev raw p :
  reachable m -> log m !! n = Some (i, e) -> op_of e = Some (OpRotate ts prev) ->
  calls m !! i = Some (CRefreshAgentUser raw, p) ->
  exists E0 E t t' old cl, local i (take n (log m)) = E0 ++ E /\ LAgain ∉ E /\ Verify keys raw t = Ok cl /\
    LCall t' (OpGet (Token.SessionID cl)) (RSession (Ok old)) ∈ E /\ TokenID old = Token.TokenID cl /\
    prev = Token.TokenID cl /\ ID ts = ID old.
Proof.
  intros Hm Hn Ho Hi. destruct (logged_obeys _ _ _ _ tokens_obey m _ _ _ _ Hm Hn Ho) as (c&q&E0&E&Hc&El&[Ha _]&HQ).
  destruct HQ as (raw'&old&cl&t&->&(t1&t2&Hv&Hin&_)&Htk&_&_&->&->&_). rewrite Hi in Hc. simplify_eq.
  exists E0, E, t1, t2, old, cl. done.
Qed.

(** After a tail call the session has another token: nothing is rotated any more. *)
Lemma again_ends_rotation (m : machine) n a i e ts prev raw p :
  reachable m -> fresh_ids m -> calls m !! i = Some (CRefreshAgentUser raw, p) ->
  a < n -> log m !! a = Some (i, LAgain) -> log m !! n = Some (i, e) -> op_of e <> Some (OpRotate ts prev).
Proof.
  intros Hm Hf Hi Han Ha Hn Ho.
  destruct (rotation_read m n i e ts prev raw p Hm Hn Ho Hi) as (E0&E&t&t'&old&cl&El&HE&Hv&Hget&Htk&_&_).
  assert (Ha0 : LAgain ∈ E0).
  { assert (Hin : LAgain ∈ local i (take n (log m))).
    { apply elem_of_local, list_elem_of_lookup. exists a. by rewrite lookup_take_lt. }
    rewrite El in Hin. apply elem_of_app in Hin as [|]; done. }
  destruct (ordered m n i E0 E _ _ El Ha0 Hget) as (b&g&Hb&Hbl&Hgl).
  destruct (permitted _ _ _ _ tokens_obey m b i _ Hm Hbl) as (c&q&F0&F&Hc&Fl&_&Hperm). cbn [permits] in Hperm.
  destruct Hperm as (raw'&tr&u&prev'&err&->&Hin&Herr). rewrite Hi in Hc. simplify_eq.
  destruct (seen m b i F0 F _ Fl Hin) as (r&Hr&Hrl).
  destruct (rotation_read m r i _ u prev' _ _ Hm Hrl eq_refl Hi) as (D0&D&s&s'&old'&cl'&Dl&_&Hv'&Hget'&Htk'&->&Hu).
  rewrite (Verify_claims _ _ _ _ _ Hv' Hv) in *. destruct (seen m r i D0 D _ Dl Hget') as (g'&Hg'&Hgl').
  destruct (read_from _ m g' i _ s' _ old' Hm Hgl' eq_refl) as (_&Hid'&w&j&f&x&Hw&Hwl&Hx&Hst&_).
  destruct (read_from _ m g i _ t' _ old Hm Hgl eq_refl) as (_&Hid&_).
  destruct (stored_after_failure _ m r g i i _ _ tr u _ err t' (Token.SessionID cl) old Hm ltac:(lia) Hrl Hgl eq_refl
    ltac:(congruence) eq_refl Htk) as (k&j'&f'&y&Hk&Hkl&Hy&Hst').
  destruct (stored_twice m w k j j' f f' x y old' old Hf Hwl Hkl Hx Hy Hst Hst') as [->|(q0&v&v'&->&->)];
    [congruence..|lia|].
  eapply (rotated_once m w k j j' f f' v v'); eauto; [lia|congruence].
Qed.

Lemma agains_at_most_one (m : machine) i raw p :
  reachable m -> fresh_ids m -> calls m !! i = Some (CRefreshAgentUser raw, p) -> agains (local i (log m)) <= 1.
Proof.
  intros Hm Hf Hi. destruct (decide (agains (local i (log m)) <= 1)) as [|Hgt]; [done|]. exfalso.
  assert (Hsplit : forall E : list event, 0 < agains E -> exists E1 E2, E = E1 ++ LAgain :: E2 /\ agains E = S (agains E2)).
  { induction E as [|e E IHE]; unfold agains; cbn [sum_list_with]; [lia|]. intros H0. destruct e.
    1: by exists [], E. all: destruct (IHE H0) as (E1&E2&->&Hs); eexists (_ :: E1), E2; split; [done|]; exact Hs. }
  destruct (Hsplit (local i (log m)) ltac:(lia)) as (E1&E2&El&Hs). destruct (Hsplit E2 ltac:(lia)) as (E3&E4&->&_).
  rewrite app_comm_cons, app_assoc in El. destruct (local_split _ _ _ _ _ El) as (l1&l2&Hl&Hl1&_).
  assert (Hn : log m !! length l1 = Some (i, LAgain)) by (rewrite Hl; by apply list_lookup_middle).
  assert (Htk : take (length l1) (log m) = l1) by (rewrite Hl; by rewrite take_app_length).
  destruct (permitted _ _ _ _ tokens_obey m _ i _ Hm Hn) as (c&q&F0&F&_&Fl&[HF _]&Hperm). cbn [permits] in Hperm.
  destruct Hperm as (raw'&t&u&prev&err&_&Hin&_).
  assert (Ha0 : LAgain ∈ F0).
  { assert (HA : LAgain ∈ F0 ++ F); [|by apply elem_of_app in HA as [|]].
    rewrite <- Fl, Htk, Hl1. apply elem_of_app. right. left. }
  destruct (ordered m _ i F0 F _ _ Fl Ha0 Hin) as (b&r&Hb&Hbl&Hrl).
  exact (again_ends_rotation m r b i _ u prev raw p Hm Hf Hi ltac:(lia) Hbl Hrl eq_refl).
Qed.

Definition refresh_actions : nat := 11.

Lemma refresh_bounded raw : bounded refresh_actions (body keys (CRefreshAgentUser raw)).
Proof.
  unfold refresh_actions. repeat bound_step.
Qed.

End Tokens.

(** ** Sample runs *)
Module Samples.
Import IdentitySamples.

(** A session that is authenticated, refreshed, retried and refreshed once too often. *)
Definition issued : sample_machine := perform 0 (CIssueAgentUser sample_login) (init sample_start).
Definition first_tokens : AgentTokens := tokens_of issued 0.
Definition authenticated : sample_machine := perform 1 (CAuthenticate (AccessToken first_tokens) [TypeAgentUser]) issued.
Definition refreshed : sample_machine := perform 2 (CRefreshAgentUser (RefreshToken first_tokens)) (after second authenticated).
Definition retried : sample_machine := perform 3 (CRefreshAgentUser (RefreshToken first_tokens)) (after second refreshed).
Definition reused : sample_machine := perform 4 (CRefreshAgentUser (RefreshToken first_tokens)) (after second retried).

Definition principal_in (m : sample_machine) (i : nat) : Principal :=
  match reply_of m i with
  | Some (APrincipal (Ok p)) => p
  | _ => mkPrincipal "" (mkRef "" "") "" "" "" 0 0 "" ""
  end.

Lemma retried_reachable : Identity.reachable sample_keys retried.
Proof. unfold retried, refreshed, authenticated, issued. auto 10 with sample_runs. Qed.

Definition first_claims : Claims :=
  match Verify sample_keys (RefreshToken first_tokens) sample_start with Ok cl => cl | Fail _ => mkClaims "" "" "" "" 0 0 end.

(** [fresh_ids], decided on a log. *)
Definition write_of (o : op) : option (TokenSession * option string) :=
  match o with OpPut ts => Some (ts, None) | OpRotate ts prev => Some (ts, Some prev) | _ => None end.

Definition same_write (x y : nat * lev Revocation) : bool :=
  match op_of x.2 ≫= write_of, op_of y.2 ≫= write_of with
  | Some (ts, prev), Some (ts', prev') =>
      negb (bool_decide (ID ts = ID ts') && bool_decide (TokenID ts = TokenID ts'))
      || bool_decide (is_Some prev) && bool_decide (prev = prev')
  | _, _ => true
  end.

Definition fresh_check (l : list (nat * lev Revocation)) : bool :=
  forallb (fun n => forallb (fun n' => (n =? n') ||
    match l !! n, l !! n' with Some x, Some y => same_write x y | _, _ => true end) (seq 0 (length l))) (seq 0 (length l)).

Lemma fresh_checked (m : sample_machine) : fresh_check (log m) = true -> fresh_ids m.
Proof.
  intros H n n' i i' e e' o o' ts ts' Hn Hn' Ho Ho' Hw Hw' Hid Htk. unfold fresh_check in H. rewrite forallb_forall in H.
  assert (Hin : forall k x, log m !! k = Some x -> In k (seq 0 (length (log m)))).
  { intros k x Hk%lookup_lt_Some. apply in_seq. lia. }
  specialize (H n (Hin _ _ Hn)). rewrite forallb_forall in H. specialize (H n' (Hin _ _ Hn')). rewrite Hn, Hn' in H.
  apply orb_true_iff in H as [?%Nat.eqb_eq|H]; [by left|]. right. unfold same_write in H. cbn [snd] in H. rewrite Ho, Ho' in H.
  destruct o, o'; cbn in *; try done; subst; rewrite (bool_decide_true (ID _ = _)), (bool_decide_true (TokenID _ = _)) in H by done;
    cbn in H; try done; case_bool_decide; simplify_eq; eauto.
Qed.
End Samples.
Import IdentitySamples Samples.

Lemma authenticated_principal_was_issued_witness :
  exists j c q k e ts0, calls authenticated !! j = Some (c, q) /\ names c (principal_in authenticated 1) /\
    log authenticated !! k = Some (j, e) /\ op_of e = Some (OpPut ts0) /\ ID ts0 = p_SessionID (principal_in authenticated 1).
Proof.
  refine (proj2 (authenticated_principal_was_issued sample_keys authenticated 1 (AccessToken first_tokens) [TypeAgentUser]
    (principal_in authenticated 1) _ _)); [|vm_compute; reflexivity].
  unfold authenticated, issued. auto with sample_runs.
Defined.

Lemma revoked_session_is_final_witness :
  exists n, (exists e, log reused !! n = Some (4, e)) /\
    forall n' i' t ts, n < n' -> log reused !! n' = Some (i', LCall t (OpGet (Token.SessionID first_claims)) (RSession (Ok ts))) ->
      exists k, n < k < n' /\ restores reused n k (Token.SessionID first_claims).
Proof.
  apply (revoked_session_is_final sample_keys reused 4 (CRefreshAgentUser (RefreshToken first_tokens))
    (ATokens (Fail ErrRefreshReused))).
  - apply perform_reachable, after_reachable, retried_reachable.
  - vm_compute. reflexivity.
  - apply (revokes_reused sample_keys _ sample_start). vm_compute. reflexivity.
Defined.


(** A refresh that starts over, because another one rotated the session after it was read. *)
Definition raced : sample_machine :=
  let m := Nat.iter 6 (advance 2) (begin 2 (CRefreshAgentUser (RefreshToken first_tokens)) issued) in
  Nat.iter 40 (advance 2) (perform 3 (CRefreshAgentUser (RefreshToken first_tokens)) m).

End IdentityTokens.
