(* ===== verification/Calls.v ===== *)
(** * Programs over calls

    A method that talks to its environment as a tree: a call and what follows for each
    answer. [req] are the calls and [answer r] what call [r] returns. [obeys] says what is
    known of the calls so far at every further call and at the end; [does] adds that the log
    only grows. The methods of internal/cloudflare and internal/gateway are such programs. *)
From S2P Require Import Prelude.

Module Calls.
Section Programs.
Context {req : Type} (answer : req -> Type).

Inductive prog (A : Type) :=
| Ret (a : A)
| Panic (text : string)
| Do (r : req) (k : answer r -> prog A).
End Programs.
Arguments Ret {req answer A} a.
Arguments Panic {req answer A} text.
Arguments Do {req answer A} r k.

Fixpoint prog_bind {req} {answer : req -> Type} {A B} (f : A -> prog answer B) (p : prog answer A) : prog answer B :=
  match p with
  | Ret a => f a
  | Panic t => Panic t
  | Do r k => Do r (fun x => prog_bind f (k x))
  end.

#[export] Instance prog_MRet {req} (answer : req -> Type) : MRet (prog answer) := fun A a => Ret a.
#[export] Instance prog_MBind {req} (answer : req -> Type) : MBind (prog answer) := fun A B f p => prog_bind f p.

Definition ask {req} {answer : req -> Type} (r : req) : prog answer (answer r) := Do r Ret.

(** A call and its answer. *)
Definition event {req} (answer : req -> Type) : Type := sigT answer.
Definition ev {req} {answer : req -> Type} (r : req) (x : answer r) : event answer := existT r x.

(** [Q]: what holds of the calls so far at every call; [R]: at the end. *)
Section Obeys.
Context {req : Type} {answer : req -> Type} (Q : list (event answer) -> req -> Prop).
Implicit Types E : list (event answer).

Fixpoint obeys {A} (R : list (event answer) -> A -> Prop) (p : prog answer A) (E : list (event answer)) : Prop :=
  match p with
  | Ret a => R E a
  | Panic _ => True
  | Do r k => Q E r /\ forall x, obeys R (k x) (E ++ [ev r x])
  end.

Lemma prog_obeys_bind {A B} (R : list (event answer) -> B -> Prop) (f : A -> prog answer B) p E :
  obeys (fun E a => obeys R (f a) E) p E -> obeys R (prog_bind f p) E.
Proof. revert E. induction p as [a|t|r k IH]; intros E; cbn [obeys prog_bind]; [done..|]. intros [? H]. split; auto. Qed.

Lemma prog_obeys_weaken {A} (R R' : list (event answer) -> A -> Prop) p E :
  (forall E a, R E a -> R' E a) -> obeys R p E -> obeys R' p E.
Proof. intros HR. revert E. induction p as [a|t|r k IH]; intros E; cbn [obeys]; [auto..|]. intros [? H]. split; auto. Qed.
End Obeys.

Lemma obeys_impl {req} {answer : req -> Type} {A} (Q Q' : list (event answer) -> req -> Prop) (R : list (event answer) -> A -> Prop) p E :
  (forall E r, Q E r -> Q' E r) -> obeys Q R p E -> obeys Q' R p E.
Proof. intros HQ. revert E. induction p as [a|t|r k IH]; intros E; cbn [obeys]; [auto..|]. intros [? H]. split; auto. Qed.

(** ** Methods that pass nothing but their result *)
Section Does.
Context {req : Type} {answer : req -> Type} (Q : list (event answer) -> req -> Prop).
Implicit Types E : list (event answer).

(** From log [E] on, the calls of the program are permitted; [R] holds of its result. *)
Definition does {A} E (p : prog answer A) (R : list (event answer) -> A -> Prop) : Prop :=
  obeys Q (fun E' a => E `prefix_of` E' /\ R E' a) p E.

Lemma does_ret {A} E (a : A) (R : list (event answer) -> A -> Prop) : R E a -> does E (Ret a) R.
Proof. by split. Qed.

Lemma does_mret {A} E (a : A) (R : list (event answer) -> A -> Prop) : R E a -> does E (mret a) R.
Proof. apply does_ret. Qed.

Lemma does_panic {A} E t (R : list (event answer) -> A -> Prop) : does E (Panic t) R.
Proof. done. Qed.

Lemma does_bind {A B} E (p : prog answer A) (f : A -> prog answer B) R R' :
  does E p R' -> (forall E' a, E `prefix_of` E' -> R' E' a -> does E' (f a) R) -> does E (p ≫= f) R.
Proof.
  intros Hp Hf. apply prog_obeys_bind. eapply prog_obeys_weaken, Hp. intros E1 a [HE1 HR1].
  eapply prog_obeys_weaken, (Hf E1 a HE1 HR1). intros E2 b [HE2 HR2]. split; [by etrans|done].
Qed.

Lemma does_weaken {A} E (p : prog answer A) (R R' : list (event answer) -> A -> Prop) :
  (forall E' a, E `prefix_of` E' -> R E' a -> R' E' a) -> does E p R -> does E p R'.
Proof. intros HR Hp. eapply prog_obeys_weaken, Hp. intros E1 a [? ?]. auto. Qed.

Lemma does_ask E r : Q E r -> does E (ask r) (fun E' x => ev r x ∈ E').
Proof.
  intros HQ. split; [done|]. intros x. split; [by eexists|]. apply elem_of_app. right. left.
Qed.

Lemma does_ask_bind {B} E r (f : answer r -> prog answer B) R :
  Q E r -> (forall E' x, E `prefix_of` E' -> ev r x ∈ E' -> does E' (f x) R) -> does E (ask r ≫= f) R.
Proof. intros HQ Hf. eapply does_bind; [by apply does_ask|]. auto. Qed.

(** A step that says nothing about its result. *)
Lemma does_then {A B} E (p : prog answer A) (f : A -> prog answer B) R :
  does E p (fun _ _ => True) -> (forall E' a, E `prefix_of` E' -> does E' (f a) R) -> does E (p ≫= f) R.
Proof. intros Hp Hf. eapply does_bind; [exact Hp|]. auto. Qed.

Lemma does_any {A} E (p : prog answer A) R : does E p R -> does E p (fun _ _ => True).
Proof. by apply does_weaken. Qed.
End Does.

(** ** Runs *)

(** [runs p E o]: the calls [E] and their answers are a run of [p], up to the result [o]
    or up to some point in the middle. *)
Inductive runs {req} {answer : req -> Type} {A} : prog answer A -> list (event answer) -> option A -> Prop :=
| runs_here p : runs p [] None
| runs_ret a : runs (Ret a) [] (Some a)
| runs_do r k x E o : runs (k x) E o -> runs (Do r k) (ev r x :: E) o.

(** The run in which [reply] answers; [None] after a panic. *)
Fixpoint exec {req} {answer : req -> Type} {A} (reply : list (event answer) -> forall r, answer r) (p : prog answer A)
    (E : list (event answer)) : list (event answer) * option A :=
  match p with
  | Ret a => ([], Some a)
  | Panic _ => ([], None)
  | Do r k => let x := reply E r in let '(E', o) := exec reply (k x) (E ++ [ev r x]) in (ev r x :: E', o)
  end.

Lemma exec_runs {req} {answer : req -> Type} {A} reply (p : prog answer A) (E : list (event answer)) :
  runs p (exec reply p E).1 (exec reply p E).2.
Proof.
  revert E. induction p as [a|t|r k IH]; intros E; cbn [exec]; [constructor..|].
  specialize (IH (reply E r) (E ++ [ev r (reply E r)])). destruct (exec _ _ _) as [E' o]. by constructor.
Qed.

Section Runs.
Context {req : Type} {answer : req -> Type} (Q : list (event answer) -> req -> Prop).

Lemma obeys_runs {A} (R : list (event answer) -> A -> Prop) p E E' o : obeys Q R p E -> runs p E' o ->
  (forall E1 r x E2, E' = E1 ++ ev r x :: E2 -> Q (E ++ E1) r) /\ (forall a, o = Some a -> R (E ++ E') a).
Proof.
  intros Hp Hr. revert E Hp. induction Hr as [p|a|r k x E' o Hr IH]; intros E Hp.
  - split; [|done]. by intros [|] ?.
  - split; [by intros [|] ?|]. intros a' [= <-]. by rewrite app_nil_r.
  - destruct Hp as [HQ Hk]. destruct (IH _ (Hk x)) as [H1 H2]. split.
    + intros [|e E1] r' x' E2 HE; pose proof (f_equal head HE) as Eh; pose proof (f_equal tail HE) as Et; cbn in Eh, Et.
      * rewrite app_nil_r. pose proof (f_equal (fmap (@projT1 _ _)) Eh) as Er. cbn in Er. injection Er as ->. done.
      * assert (e = ev r x) as -> by congruence. specialize (H1 E1 r' x' E2 Et). by rewrite <- app_assoc in H1.
    + intros a Ha. specialize (H2 a Ha). by rewrite <- app_assoc in H2.
Qed.

(** What [does] says of a run from the start. *)
Lemma does_runs {A} (R : list (event answer) -> A -> Prop) p E o : does Q [] p R -> runs p E o ->
  (forall E1 r x E2, E = E1 ++ ev r x :: E2 -> Q E1 r) /\ (forall a, o = Some a -> R E a).
Proof. intros Hp Hr. destruct (obeys_runs _ _ _ _ _ Hp Hr) as [H1 H2]. split; [done|]. intros a Ha. by destruct (H2 a Ha). Qed.
End Runs.

(** Permitted calls under another rule, which may use what holds from [E] on. *)
Lemma does_impl {req} {answer : req -> Type} {A} (Q Q' : list (event answer) -> req -> Prop) (R : list (event answer) -> A -> Prop) p E :
  (forall E' r, E `prefix_of` E' -> Q E' r -> Q' E' r) -> does Q E p R -> does Q' E p R.
Proof.
  intros HQ. unfold does. set (R' := fun E' a => _). assert (E `prefix_of` E) as HE by done. revert HE. generalize E at 2 3 4.
  induction p as [a|t|r k IH]; intros E1 HE; cbn [obeys]; [done..|]. intros [? H]. split; [by apply HQ|].
  intros x. apply IH; [|done]. etrans; [exact HE|by eexists].
Qed.

(** What every permitted call has, the calls of the program have. *)
Lemma does_keep {req} {answer : req -> Type} {A} (Q : list (event answer) -> req -> Prop) (P : event answer -> Prop)
    (R : list (event answer) -> A -> Prop) p E :
  (forall E r x, Q E r -> P (ev r x)) -> does Q E p R -> does Q E p (fun E' a => R E' a /\ exists E2, E' = E ++ E2 /\ Forall P E2).
Proof.
  intros HP. unfold does.
  enough (forall E1, (exists E2, E1 = E ++ E2 /\ Forall P E2) -> obeys Q (fun E' a => E `prefix_of` E' /\ R E' a) p E1 ->
    obeys Q (fun E' a => E `prefix_of` E' /\ R E' a /\ exists E2, E' = E ++ E2 /\ Forall P E2) p E1) as H.
  { intros Hp. apply H; [|done]. exists []. by rewrite app_nil_r. }
  induction p as [a|t|r k IH]; intros E1 HE; cbn [obeys]; [by intros [? ?]|done|].
  intros [HQ Hk]. split; [done|]. intros x. apply IH; [|apply Hk]. destruct HE as (E2 & -> & HE2). exists (E2 ++ [ev r x]).
  rewrite app_assoc. split; [done|]. apply Forall_app. split; [done|]. repeat constructor. by eapply HP.
Qed.

(** ** A program among the calls of another *)

(** [embed inject p]: program [p] where its call [r] is the call [inject r]. *)
Section Embed.
Context {req1 req2 : Type} {answer1 : req1 -> Type} {answer2 : req2 -> Type}.
Context (inject : req1 -> req2) (back : forall r, answer2 (inject r) -> answer1 r) (forth : forall r, answer1 r -> answer2 (inject r)).
Context (forth_back : forall r x, forth r (back r x) = x).

Fixpoint embed {A} (p : prog answer1 A) : prog answer2 A :=
  match p with
  | Ret a => Ret a
  | Panic t => Panic t
  | Do r k => Do (inject r) (fun x => embed (k (back r x)))
  end.

Definition lift (e : event answer1) : event answer2 := ev (inject (projT1 e)) (forth _ (projT2 e)).

Lemma does_embed {A} Q1 Q2 (R1 : list (event answer1) -> A -> Prop) (R2 : list (event answer2) -> A -> Prop) p E :
  (forall E1 r, Q1 E1 r -> Q2 (E ++ map lift E1) (inject r)) -> (forall E1 a, R1 E1 a -> R2 (E ++ map lift E1) a) ->
  does Q1 [] p R1 -> does Q2 E (embed p) R2.
Proof using forth_back.
  intros HQ HR. unfold does.
  enough (forall E1, obeys Q1 (fun E' a => [] `prefix_of` E' /\ R1 E' a) p E1 ->
    obeys Q2 (fun E' a => E `prefix_of` E' /\ R2 E' a) (embed p) (E ++ map lift E1)) as H.
  { intros Hp. specialize (H [] Hp). cbn in H. by rewrite app_nil_r in H. }
  induction p as [a|t|r k IH]; intros E1; cbn [obeys embed]; [|done|].
  - intros [_ HR1]. split; [by eexists|eauto].
  - intros [HQ1 Hk]. split; [eauto|]. intros x. specialize (IH (back r x) (E1 ++ [ev r (back r x)]) (Hk _)).
    rewrite map_app in IH. cbn [map] in IH. unfold lift at 2 in IH. cbn [ev projT1 projT2] in IH.
    by rewrite forth_back, app_assoc in IH.
Qed.

Lemma elem_of_lift E1 r y : ev r y ∈ E1 -> ev (inject r) (forth r y) ∈ map lift E1.
Proof. intros H. by apply (list_elem_of_fmap_2 lift) in H. Qed.
End Embed.

(** A loop over a slice: the results in order, or the first error. *)
Fixpoint each {req} {answer : req -> Type} {A B} (f : A -> prog answer B) (l : list A) : prog answer (list B) :=
  match l with
  | [] => mret []
  | x :: l' => y ← f x; ys ← each f l'; mret (y :: ys)
  end.

Lemma does_each {req} {answer : req -> Type} {A B} Q (f : A -> prog answer B) (P : list (event answer) -> Prop) l E :
  P E -> (forall E E', P E -> E `prefix_of` E' -> P E') -> (forall x E', x ∈ l -> P E' -> does Q E' (f x) (fun _ _ => True)) ->
  does Q E (each f l) (fun _ _ => True).
Proof.
  intros HP Hm. revert E HP. induction l as [|x l IH]; intros E HP Hf; cbn [each]; [by apply does_mret|].
  apply does_then; [by apply Hf; [left|]|]. intros E1 y HE1. apply does_then.
  - apply IH; [by eapply Hm|]. intros. apply Hf; [by right|done].
  - intros. by apply does_mret.
Qed.

Lemma elem_of_prefix {X} (x : X) l k : l `prefix_of` k -> x ∈ l -> x ∈ k.
Proof. intros [k' ->] H. apply elem_of_app. by left. Qed.
End Calls.
