(* ===== verification/Cloudflare.v ===== *)
(** * Routes of a Cloudflare tunnel (internal/cloudflare)

    The data of the reconciler and its pure parts: names, ingress rules and the plan of a
    configuration, the record of what this server created, Access applications and
    policies, the hostnames the endpoints want, the status of a hostname. JSON values are
    an inductive type; net/url, JSON texts and SHA-256 are parameters. *)
From S2P Require Import Prelude GoIO GoStrings GoNet Token.

Module Cloudflare.
(** ** Parameters *)

(** [strings.EqualFold] with a text that is not ASCII. *)
Class UnicodeFold := uni_fold : string -> string -> bool.

Definition equalFold `{UnicodeFold} (s t : string) : bool :=
  if forallb is_ascii_byte (bytes_of t) then EqualFold s t else uni_fold s t.

(** [json.Unmarshal] of a raw message into a string, and [json.Marshal] of a string. *)
Class RawJSON := {
  raw_string : list byte -> option string;
  string_raw : string -> list byte
}.

(** A text that is ASCII is read back. *)
Class RawJSONLaws `{RawJSON} : Prop :=
  raw_string_raw : forall s, forallb is_ascii_byte (bytes_of s) = true -> raw_string (string_raw s) = Some s.

(** [json.Marshal], [json.Unmarshal] and [json.Marshal] again: the text of a value with its
    keys sorted. *)
Class Canonical (T : Type) := canonical : T -> option (list byte).

Class Sha256 := sha256 : list byte -> list byte.

(** ** JSON values (decoded into [any] with [UseNumber]) *)
Inductive json :=
| JNull
| JBool (b : bool)
| JNum (text : string)
| JStr (s : string)
| JArr (l : list json)
| JObj (o : list (string * json)).

(** [map[string]any]; [None] is the nil map. *)
Definition object : Type := option (list (string * json)).

Fixpoint olookup (k : string) (o : list (string * json)) : option json :=
  match o with
  | [] => None
  | (k', v) :: o' => if bool_decide (k' = k) then Some v else olookup k o'
  end.

Fixpoint oset (k : string) (v : json) (o : list (string * json)) : list (string * json) :=
  match o with
  | [] => [(k, v)]
  | (k', v') :: o' => if bool_decide (k' = k) then (k, v) :: o' else (k', v') :: oset k v o'
  end.

Definition oget (k : string) (o : object) : option json := o ≫= olookup k.

(** [v.([]any)] and [v.(string)] of an entry; the zero value when it is something else. *)
Definition as_list (v : option json) : option (list json) := match v with Some (JArr l) => Some l | _ => None end.
Definition as_string (v : option json) : string := match v with Some (JStr s) => s | _ => "" end.

(** ** Names *)
Section Names.
Context `{lower : UnicodeLower} `{url : UrlParse}.

Definition normalizeHost (h : string) : string := TrimSuffix (ToLower (TrimSpace h)) ".".

Definition TrimRight (s cutset : string) : string :=
  string_of (reverse (trim_left_set (bytes_of cutset) (reverse (bytes_of s)))).

Definition normalizeService (s : string) : string :=
  match url_Parse (TrimSpace s) with
  | Fail _ => TrimSpace s
  | Ok u =>
      if bool_decide (u_Host u = "") then TrimSpace s
      else
        let out := ToLower (u_Scheme u) +:+ "://" +:+ ToLower (u_Host u) +:+ TrimRight (u_Path u) "/" in
        if bool_decide (u_RawQuery u = "") then out else out +:+ "?" +:+ u_RawQuery u
  end.

(** connections/aliases.go *)
Definition label_byte (b : byte) : bool :=
  let z := byteZ b in
  ((z =? 45) || ((97 <=? z) && (z <=? 122)) || ((48 <=? z) && (z <=? 57)))%Z.

Definition label_ok (label : string) : bool :=
  let l := bytes_of label in
  negb (bool_decide (label = "")) && (len l <=? 63)%Z && negb (bool_decide (head l = Some "-"%char)) &&
  negb (bool_decide (last l = Some "-"%char)) && forallb label_byte l.

Definition errAccessName : goerr := ENew "access hostname must be a valid DNS name".

Definition NormalizeAccessHostname (hostname : string) : res string :=
  let hostname := TrimSuffix (ToLower (TrimSpace hostname)) "." in
  if bool_decide (hostname = "") || (253 <? slen hostname)%Z then Fail errAccessName
  else if forallb label_ok (Split hostname ".") then Ok hostname else Fail errAccessName.

(** provider.go *)
Definition accessHostname (endpointDomain requested : string) : res string :=
  let requested := if bool_decide (requested = "") then endpointDomain else requested in
  let failed := Fail (ENew "cloudflare access hostname must be a full DNS domain") in
  match NormalizeAccessHostname requested with
  | Fail _ => failed
  | Ok host =>
      if negb (ContainsByte host ".") || negb (bool_decide (ParseIP host = nilIP)) then failed else Ok host
  end.
End Names.

(** ** client.go: the values of the API *)
Record IngressRule := mkRule { fields : gmap string (list byte) }.
#[export] Instance IngressRule_eq_dec : EqDecision IngressRule.
Proof. solve_decision. Defined.

Record TunnelConfig := mkTunnelConfig { Ingress : list IngressRule; cfields : gmap string (list byte) }.

Record Zone := mkZone { z_ID : string; z_Name : string }.

Record DNSRecord := mkDNS {
  d_ID : string;
  d_Type : string;
  d_Name : string;
  d_Content : string;
  d_Proxied : bool;
  d_Comment : string;
  d_TTL : Z;
  d_Tags : list string;
  d_Settings : object
}.

Record Tunnel := mkTunnel { t_ID : string; t_Name : string; t_Status : string; t_Connections : Z }.

Section Rules.
Context `{lower : UnicodeLower} `{url : UrlParse} `{raw : RawJSON}.

Definition NewIngressRule (hostname service : string) : IngressRule :=
  mkRule (<["service" := string_raw service]>
    (if bool_decide (hostname = "") then ∅ else {["hostname" := string_raw hostname]})).

Definition stringField (r : IngressRule) (name : string) : string :=
  match fields r !! name with
  | None => ""
  | Some raw => default "" (raw_string raw)
  end.

Definition Hostname_ (r : IngressRule) : string := stringField r "hostname".
Definition Service_ (r : IngressRule) : string := stringField r "service".
Definition Path_ (r : IngressRule) : string := stringField r "path".

(** ** plan.go *)
Definition catchAllService : string := "http_status:404".

Record ingressPlan := mkPlan {
  rules : list IngressRule;
  changed : bool;
  present : gset string;
  conflicts : gmap string string;
  added : gset string;
  orphans : list string;
  removed : gset string
}.

Definition isCatchAll (r : IngressRule) : bool := bool_decide (Hostname_ r = "") && bool_decide (Path_ r = "").

(** The rules before the last one when that catches all, and it. *)
Definition split_catch_all (rs : list IngressRule) : list IngressRule * option IngressRule :=
  match last rs with
  | Some r => if isCatchAll r then (take (length rs - 1) rs, Some r) else (rs, None)
  | None => (rs, None)
  end.

Definition rule_host (r : IngressRule) : string := normalizeHost (Hostname_ r).

(** The hosts with a rule to the origin, and the last other service of a host. *)
Definition owned_hosts (originKey : string) (body : list IngressRule) : gset string :=
  list_to_set (omap (fun r =>
    if bool_decide (rule_host r = "") then None
    else if bool_decide (normalizeService (Service_ r) = originKey) then Some (rule_host r) else None) body).

Definition foreign_hosts (originKey : string) (body : list IngressRule) : gmap string string :=
  foldl (fun m r =>
    if bool_decide (rule_host r = "") then m
    else if bool_decide (normalizeService (Service_ r) = originKey) then m
    else <[rule_host r := Service_ r]> m) ∅ body.

(** The rule is dropped by a pruning plan. *)
Definition pruned (originKey : string) (desired : list string) (protected : gmap string string) (prune : bool)
    (r : IngressRule) : bool :=
  prune && negb (bool_decide (rule_host r = "")) && negb (bool_decide (rule_host r ∈ desired)) &&
  negb (bool_decide (is_Some (protected !! rule_host r))) && bool_decide (normalizeService (Service_ r) = originKey).

(** One wanted hostname: there, taken by another service, or to be added. *)
Definition plan_host (owned : gset string) (foreign : gmap string string) (origin : string) (p : ingressPlan) (h : string)
    : ingressPlan :=
  if bool_decide (h ∈ owned)
  then mkPlan (rules p) (changed p) ({[h]} ∪ present p) (conflicts p) (added p) (orphans p) (removed p)
  else
    let other := default "" (foreign !! h) in
    if negb (bool_decide (other = ""))
    then mkPlan (rules p) (changed p) (present p)
           (<[h := "hostname is already routed to " +:+ other +:+ " in the tunnel configuration"]> (conflicts p))
           (added p) (orphans p) (removed p)
    else mkPlan (rules p ++ [NewIngressRule h origin]) true (present p) (conflicts p) ({[h]} ∪ added p) (orphans p) (removed p).

Definition planIngress (rs : list IngressRule) (origin : string) (desired : list string)
    (protected : gmap string string) (prune : bool) : ingressPlan :=
  let originKey := normalizeService origin in
  let '(body, catchAll) := split_catch_all rs in
  let owned := owned_hosts originKey body in
  let orphaned := sort_by str_leb (filter (fun h => h ∉ desired) (elements owned)) in
  let dropped := List.filter (pruned originKey desired protected prune) body in
  let kept := List.filter (fun r => negb (pruned originKey desired protected prune r)) body in
  let plan := mkPlan kept (negb (bool_decide (dropped = []))) ∅ ∅ ∅ orphaned (list_to_set (map rule_host dropped)) in
  let plan := foldl (plan_host owned (foreign_hosts originKey body) origin) plan desired in
  let finish r c :=
    mkPlan (rules plan ++ [r]) c (present plan) (conflicts plan) (added plan) (orphans plan) (removed plan) in
  match catchAll with
  | Some r => finish r (changed plan)
  | None =>
      if negb (bool_decide (rules plan = [])) || changed plan then finish (NewIngressRule "" catchAllService) true else plan
  end.
End Rules.

(** ** Configuration and endpoints (config.go, store/store.go) *)
Record Config := mkConfig {
  ConnectionID : string;
  OrgID : string;
  Name : string;
  AccountID : string;
  TunnelID : string;
  APIToken : string;
  AccessAppID : string;
  Origin : string;
  Prune : bool
}.

Record AccessPolicy := mkAccessPolicy {
  AllowEmails : list string;
  AllowEmailDomains : list string;
  AllowGroups : list string;
  RequireMFA : bool;
  SessionDuration : string
}.

Record AccessRef := mkAccessRef { ref_ConnectionID : string; ref_Hostname : string; ref_Policy : option AccessPolicy }.

Record EndpointPolicy := mkEndpointPolicy { ep_Access : list AccessRef; ep_AccessPolicy : option AccessPolicy }.

Record Endpoint := mkEndpoint {
  e_ID : string;
  e_OrgID : string;
  e_Kind : string;
  e_Domain : string;
  e_Policy : option EndpointPolicy
}.

Definition KindHTTP : string := "http".

Definition EffectiveAccessPolicy (p : EndpointPolicy) (ref : AccessRef) : option AccessPolicy :=
  match ref_Policy ref with Some q => Some q | None => ep_AccessPolicy p end.

(** ** ownership.go *)
Record ownedAccessApp := mkOwnedApp { AppID : string; PolicyID : string; App : string; Policy : string }.
#[export] Instance ownedAccessApp_eq_dec : EqDecision ownedAccessApp.
Proof. solve_decision. Defined.

Definition noApp : ownedAccessApp := mkOwnedApp "" "" "" "".

Record ownedRoute := mkRoute { r_Ingress : string; r_DNS : list string; r_Access : string; r_App : option ownedAccessApp }.
#[export] Instance ownedRoute_eq_dec : EqDecision ownedRoute.
Proof. solve_decision. Defined.

Definition noRoute : ownedRoute := mkRoute "" [] "" None.

Definition route_empty (r : ownedRoute) : bool := bool_decide (r = noRoute).

Record ownershipState := mkState {
  Version : Z;
  os_AccountID : string;
  os_TunnelID : string;
  os_AccessAppID : string;
  os_Origin : string;
  Routes : gmap string ownedRoute
}.

(** [decoder.Decode] of a state with no unknown fields and nothing after it. *)
Class StateDecode := decode_state : list byte -> option (ownershipState * bool).

Definition provider_id_byte (b : byte) : bool :=
  let z := byteZ b in
  (((97 <=? z) && (z <=? 122)) || ((65 <=? z) && (z <=? 90)) || ((48 <=? z) && (z <=? 57)) || (z =? 95) || (z =? 45))%Z.

Definition providerIDPattern (id : string) : bool := negb (bool_decide (id = "")) && forallb provider_id_byte (bytes_of id).

Definition validFingerprint (value : string) : bool :=
  bool_decide (value = "") ||
  ((slen value =? 64)%Z && forallb (fun b => bool_decide (is_Some (GoNet.hex_digit b))) (bytes_of value)).

Definition validOwnedApp (app : option ownedAccessApp) : bool :=
  match app with
  | None => true
  | Some a =>
      let validID id := bool_decide (id = "") || providerIDPattern id in
      negb (bool_decide (a = noApp)) && validID (AppID a) && validID (PolicyID a) && validFingerprint (App a) &&
      validFingerprint (Policy a)
  end.

Definition valid_route `{UnicodeLower} (host : string) (owned : ownedRoute) : bool :=
  negb (bool_decide (host = "")) && bool_decide (host = normalizeHost host) && validFingerprint (r_Ingress owned) &&
  validFingerprint (r_Access owned) && validOwnedApp (r_App owned) &&
  forallb (fun f => negb (bool_decide (f = "")) && validFingerprint f) (r_DNS owned).

Definition fresh_state (cfg : Config) (routes : gmap string ownedRoute) : ownershipState :=
  mkState 1 (AccountID cfg) (TunnelID cfg) (AccessAppID cfg) (Origin cfg) routes.

Definition errOwnershipState : goerr := ENew "invalid cloudflare ownership state".

(** The second result of decoding is whether the routes were null or missing. *)
Definition openOwnership `{UnicodeLower} `{StateDecode} (raw : list byte) (cfg : Config) : res ownershipState :=
  match raw with
  | [] => Ok (fresh_state cfg ∅)
  | _ =>
      match decode_state raw with
      | None => Fail errOwnershipState
      | Some (stored, missing) =>
          if negb (Version stored =? 1)%Z || missing then Fail errOwnershipState
          else if negb (forallb (fun x => valid_route x.1 x.2) (map_to_list (Routes stored))) then Fail errOwnershipState
          else if negb (bool_decide (os_AccountID stored = AccountID cfg)) then Ok (fresh_state cfg ∅)
          else if bool_decide (os_TunnelID stored = TunnelID cfg) && bool_decide (os_AccessAppID stored = AccessAppID cfg) &&
                  bool_decide (os_Origin stored = Origin cfg)
          then Ok stored
          else Ok (fresh_state cfg (omap (fun owned => (fun a => mkRoute "" [] "" (Some a)) <$> r_App owned) (Routes stored)))
      end
  end.

Section Fingerprints.
Context `{sha : Sha256}.

Definition resourceFingerprint {T} `{Canonical T} (value : T) : string :=
  match canonical value with
  | None => ""
  | Some raw => string_of (Token.hex_bytes (sha256 raw))
  end.
End Fingerprints.

Definition route (host : string) (st : ownershipState) : ownedRoute := default noRoute (Routes st !! host).

Definition with_routes (routes : gmap string ownedRoute) (st : ownershipState) : ownershipState :=
  mkState (Version st) (os_AccountID st) (os_TunnelID st) (os_AccessAppID st) (os_Origin st) routes.

Definition update (host : string) (change : ownedRoute -> ownedRoute) (st : ownershipState) : ownershipState :=
  let owned := change (route host st) in
  with_routes (if route_empty owned then delete host (Routes st) else <[host := owned]> (Routes st)) st.

Definition set_ingress (f : string) (r : ownedRoute) : ownedRoute := mkRoute f (r_DNS r) (r_Access r) (r_App r).
Definition set_dns (l : list string) (r : ownedRoute) : ownedRoute := mkRoute (r_Ingress r) l (r_Access r) (r_App r).
Definition set_access (f : string) (r : ownedRoute) : ownedRoute := mkRoute (r_Ingress r) (r_DNS r) f (r_App r).
Definition set_app (a : option ownedAccessApp) (r : ownedRoute) : ownedRoute := mkRoute (r_Ingress r) (r_DNS r) (r_Access r) a.

Section Ownership.
Context `{lower : UnicodeLower} `{url : UrlParse} `{raw : RawJSON} `{sha : Sha256}
  `{rule_text : Canonical IngressRule} `{dns_text : Canonical DNSRecord}.

(** The claims of other connections: the endpoints of every organization. *)
Definition endpoint_claims (cfg : Config) (org : string) (claims : gmap string string) (e : option Endpoint)
    : gmap string string :=
  match e with
  | None => claims
  | Some endpoint =>
      match e_Policy endpoint with
      | None => claims
      | Some policy =>
          if negb (bool_decide (e_OrgID endpoint = org)) then claims
          else foldl (fun claims ref =>
            if bool_decide (e_OrgID endpoint = OrgID cfg) && bool_decide (ref_ConnectionID ref = ConnectionID cfg) then claims
            else
              let host := if bool_decide (ref_Hostname ref = "") then e_Domain endpoint else ref_Hostname ref in
              let host := normalizeHost host in
              if bool_decide (host = "") then claims else <[host := e_ID endpoint]> claims) claims (ep_Access policy)
      end
  end.

(** The rule is not the one this server recorded for its host. *)
Definition foreign_rule (st : ownershipState) (r : IngressRule) : bool :=
  match Routes st !! rule_host r with
  | None => true
  | Some owned =>
      bool_decide (r_Ingress owned = "") || negb (bool_decide (r_Ingress owned = resourceFingerprint r)) ||
      negb (bool_decide (Path_ r = ""))
  end.

Definition protect_with (st : ownershipState) (rs : list IngressRule) (observed claims : gmap string string)
    : gmap string string :=
  let protected := filter (fun x => Routes st !! x.1 = None) observed in
  let protected := claims ∪ protected in
  foldl (fun m r =>
    if bool_decide (rule_host r = "") then m
    else if foreign_rule st r then <[rule_host r := default "" (observed !! rule_host r)]> m else m) protected rs.

(** The one rule of the host, if it is a plain route to the origin. *)
Fixpoint matching_rule (origin host : string) (matched : option IngressRule) (rs : list IngressRule) : option IngressRule :=
  match rs with
  | [] => matched
  | r :: rs' =>
      if negb (bool_decide (rule_host r = host)) then matching_rule origin host matched rs'
      else if bool_decide (is_Some matched) || negb (bool_decide (Path_ r = "")) ||
              negb (bool_decide (normalizeService (Service_ r) = normalizeService origin)) then None
      else matching_rule origin host (Some r) rs'
  end.

Definition recordIngress (cfg : Config) (host : string) (rs : list IngressRule) (applied : bool) (st : ownershipState)
    : ownershipState :=
  if negb applied then st
  else match matching_rule (Origin cfg) host None rs with
       | Some r => update host (set_ingress (resourceFingerprint r)) st
       | None => st
       end.

Definition recordDNS (host : string) (records : list DNSRecord) (applied : bool) (st : ownershipState) : ownershipState :=
  if negb applied then st
  else update host (set_dns (sort_by str_leb (map resourceFingerprint records))) st.

Definition ownsDNS (host : string) (record : DNSRecord) (st : ownershipState) : bool :=
  bool_decide (resourceFingerprint record ∈ r_DNS (route host st)).

Definition includeResiduals (cfg : Config) (plan : ingressPlan) (routes : gmap string string) (wanted : gset string)
    (protected : gmap string string) (st : ownershipState) : ingressPlan :=
  if negb (Prune cfg) then plan
  else
    let hosts := omap (fun x : string * ownedRoute =>
      if bool_decide (x.1 ∈ wanted) || bool_decide (is_Some (protected !! x.1)) || bool_decide (is_Some (routes !! x.1)) ||
         route_empty x.2 then None else Some x.1) (map_to_list (Routes st)) in
    mkPlan (rules plan) (changed plan) (present plan) (conflicts plan) (added plan)
      (sort_by str_leb (orphans plan ++ hosts)) (list_to_set hosts ∪ removed plan).

(** reconcile_ingress.go: the first service of every host with a plain rule. *)
Definition ingressRoutes (rs : list IngressRule) : gmap string string :=
  foldl (fun m r =>
    if bool_decide (rule_host r = "") || negb (bool_decide (Path_ r = "")) then m
    else match m !! rule_host r with Some _ => m | None => <[rule_host r := Service_ r]> m end) ∅ rs.

(** hostnames.go *)
Definition withoutHost (rs : list IngressRule) (host : string) : list IngressRule * bool :=
  let kept := List.filter (fun r => negb (bool_decide (rule_host r = host))) rs in
  (kept, negb (length kept =? length rs)%nat).

Definition insertBeforeCatchAll (rs : list IngressRule) (rule : IngressRule) : list IngressRule :=
  match split_catch_all rs with
  | (body, Some last) => body ++ [rule; last]
  | (body, None) => body ++ [rule; NewIngressRule "" catchAllService]
  end.

(** reconcile_dns.go *)
Definition tunnelTarget (cfg : Config) : string := TunnelID cfg +:+ ".cfargotunnel.com".

Definition pointsAtTunnel (cfg : Config) (r : DNSRecord) : bool :=
  EqualFold (d_Type r) "CNAME" && bool_decide (normalizeHost (d_Content r) = ToLower (tunnelTarget cfg)).

(** The zone with the longest name that holds the host. *)
Definition best_zone (host : string) (zones : list Zone) : Zone :=
  foldl (fun best zone =>
    let name := normalizeHost (z_Name zone) in
    if (bool_decide (host = name) || HasSuffix host ("." +:+ name)) && (slen (z_Name best) <? slen name)%Z
    then mkZone (z_ID zone) name else best) (mkZone "" "") zones.

Definition errNoZone : goerr := ENew "no zone in the account matches".

Definition zone_of (host : string) (zones : list Zone) : res Zone :=
  let best := best_zone host zones in
  if bool_decide (z_ID best = "") then Fail (EWrap "" errNoZone (" " +:+ host)) else Ok best.
End Ownership.

(** ** access.go: hostnames of an Access application *)
Section Access.
Context `{fold : UnicodeFold} `{sha : Sha256} `{json_text : Canonical json}.

Definition accessDomains (app : object) : list string :=
  omap (fun v => match v with JStr s => Some s | _ => None end) (default [] (as_list (oget "self_hosted_domains" app))).

Definition accessHasDomain (app : object) (host : string) : bool := existsb (fun d => equalFold d host) (accessDomains app).

Definition destination_is (host : string) (v : json) : bool :=
  match v with JObj m => equalFold (as_string (olookup "uri" m)) host | _ => false end.

Definition accessHasDestination (app : object) (host : string) : bool :=
  existsb (destination_is host) (default [] (as_list (oget "destinations" app))).

Definition accessHasHost (app : object) (host : string) : bool :=
  if negb (accessHasDomain app host) then false
  else negb (bool_decide (is_Some (oget "destinations" app)) && negb (accessHasDestination app host)).

(** [None]: an assignment to an entry of the nil map panics. *)
Definition assign (k : string) (v : json) (app : object) : option object :=
  match app with None => None | Some o => Some (Some (oset k v o)) end.

Definition accessAddHost (app : object) (host : string) : option (object * bool) :=
  let missing := negb (accessHasDomain app host) in
  app ← (if missing
         then assign "self_hosted_domains" (JArr (default [] (as_list (oget "self_hosted_domains" app)) ++ [JStr host])) app
         else Some app);
  match oget "destinations" app with
  | Some dests =>
      if negb (accessHasDestination app host)
      then
        let l := default [] (as_list (Some dests)) ++ [JObj [("type", JStr "public"); ("uri", JStr host)]] in
        app ← assign "destinations" (JArr l) app; Some (app, true)
      else Some (app, missing)
  | None => Some (app, missing)
  end.

Definition domain_is (host : string) (v : json) : bool := match v with JStr s => equalFold s host | _ => false end.

(** Drops the entries of the list under [k] that satisfy [f]. *)
Definition drop_entries (k : string) (f : json -> bool) (app : object) : object * bool :=
  match app, as_list (oget k app) with
  | Some o, Some l => (Some (oset k (JArr (List.filter (fun v => negb (f v)) l)) o), existsb f l)
  | _, _ => (app, false)
  end.

Definition accessRemoveHost (app : object) (host : string) : object * bool :=
  let '(app, a) := drop_entries "self_hosted_domains" (domain_is host) app in
  let '(app, b) := drop_entries "destinations" (destination_is host) app in
  (app, a || b).

(** ownership.go *)
Definition accessFingerprint (app : object) (host : string) : string :=
  let domains := List.filter (domain_is host) (default [] (as_list (oget "self_hosted_domains" app))) in
  let dests := List.filter (fun v => match v with
    | JObj m => match olookup "uri" m with Some (JStr uri) => equalFold uri host | _ => false end
    | _ => false end) (default [] (as_list (oget "destinations" app))) in
  let parts := map (fun v => "domain:" +:+ resourceFingerprint v) domains ++
               map (fun v => "destination:" +:+ resourceFingerprint v) dests in
  if bool_decide (parts = []) then "" else resourceFingerprint (JArr (map JStr (sort_by str_leb parts))).

(** ** accesspolicy.go *)
Definition accessObjectName (host : string) : string := "mishmesh " +:+ host.

Definition managedIncludeKinds : list string := ["email"; "email_domain"; "group"].

Definition accessObjectID (o : object) : string :=
  let id := as_string (oget "id" o) in if providerIDPattern id then id else "".

Definition accessRuleKind (rule : json) : string := match rule with JObj [(kind, _)] => kind | _ => "" end.

Definition isMFARule (rule : json) : bool :=
  match rule with
  | JObj o =>
      bool_decide (accessRuleKind rule = "auth_method") &&
      match olookup "auth_method" o with
      | Some (JObj m) => bool_decide (as_string (olookup "auth_method" m) = "mfa")
      | _ => false
      end
  | _ => false
  end.

Definition desiredIncludeRules (policy : AccessPolicy) : list json :=
  map (fun email => JObj [("email", JObj [("email", JStr email)])]) (AllowEmails policy) ++
  map (fun domain => JObj [("email_domain", JObj [("domain", JStr domain)])]) (AllowEmailDomains policy) ++
  map (fun group => JObj [("group", JObj [("id", JStr group)])]) (AllowGroups policy).

Definition managed (rule : json) : bool := bool_decide (accessRuleKind rule ∈ managedIncludeKinds).

Definition mfaRule : json := JObj [("auth_method", JObj [("auth_method", JStr "mfa")])].

Definition mergeAccessPolicy (observed : object) (host : string) (policy : AccessPolicy) : object :=
  let merged := default [("exclude", JArr [])] observed in
  let merged := oset "decision" (JStr "allow") (oset "name" (JStr (accessObjectName host)) merged) in
  let include := List.filter (fun r => negb (managed r)) (default [] (as_list (oget "include" observed))) in
  let merged := oset "include" (JArr (include ++ desiredIncludeRules policy)) merged in
  let require := List.filter (fun r => negb (isMFARule r)) (default [] (as_list (oget "require" observed))) in
  Some (oset "require" (JArr (require ++ if RequireMFA policy then [mfaRule] else [])) merged).

Definition accessPolicyProjection (policy : object) : string :=
  let include := List.filter managed (default [] (as_list (oget "include" policy))) in
  let require := default [] (as_list (oget "require" policy)) in
  resourceFingerprint (JObj
    [("name", default JNull (oget "name" policy)); ("decision", default JNull (oget "decision" policy));
     ("include", JArr (map JStr (sort_by str_leb (map resourceFingerprint include)))); ("mfa", JBool (existsb isMFARule require))]).

Definition links_to (policyID : string) (entry : json) : bool :=
  match entry with
  | JStr value => bool_decide (value = policyID)
  | JObj value => bool_decide (as_string (olookup "id" value) = policyID)
  | _ => false
  end.

Definition accessAppLinks (app : object) (policyID : string) : bool :=
  existsb (links_to policyID) (default [] (as_list (oget "policies" app))).

Definition policy_ref (entry : json) : option json :=
  match entry with
  | JStr value => Some (JObj [("id", JStr value)])
  | JObj value =>
      let id := as_string (olookup "id" value) in
      if bool_decide (id = "") then None
      else Some (JObj (("id", JStr id) ::
        match olookup "precedence" value with Some p => [("precedence", p)] | None => [] end))
  | _ => None
  end.

Definition accessPolicyRefs (app : object) (policyID : string) : list json :=
  let refs := omap policy_ref (default [] (as_list (oget "policies" app))) in
  if accessAppLinks app policyID then refs
  else refs ++ [JObj [("id", JStr policyID); ("precedence", JNum (Itoa (len refs + 1)))]].

(** The object that is merged into is not nil, so [accessAddHost] does not panic. *)
Definition mergeAccessApp (observed : object) (host policyID : string) (policy : AccessPolicy) : object :=
  let merged := default [("destinations", JArr [JObj [("type", JStr "public"); ("uri", JStr host)]])] observed in
  let merged := oset "domain" (JStr host) (oset "type" (JStr "self_hosted") (oset "name" (JStr (accessObjectName host)) merged)) in
  let merged :=
    if bool_decide (SessionDuration policy = "") then merged
    else oset "session_duration" (JStr (SessionDuration policy)) merged in
  let merged := match accessAddHost (Some merged) host with Some (app, _) => app | None => Some merged end in
  match assign "policies" (JArr (accessPolicyRefs merged policyID)) merged with Some app => app | None => merged end.

Definition accessAppProjection `{UnicodeLower} (app : object) (host policyID : string) : string :=
  resourceFingerprint (JObj
    [("name", default JNull (oget "name" app)); ("type", default JNull (oget "type" app));
     ("domain", JStr (ToLower (as_string (oget "domain" app))));
     ("session_duration", default JNull (oget "session_duration" app));
     ("host", JBool (accessHasHost app host)); ("linked", JBool (accessAppLinks app policyID))]).
End Access.

(** ** source.go: the hostnames the endpoints want *)
Record Hostname := mkHostname {
  h_Host : string;
  h_EndpointID : string;
  h_OrgID : string;
  h_Public : bool;
  h_AccessHostname : string;
  h_AccessHostnameKnown : bool;
  h_Policy : option AccessPolicy
}.

Section Source.
Context `{lower : UnicodeLower}.

Definition with_host (host : string) (h : Hostname) : Hostname :=
  mkHostname host (h_EndpointID h) (h_OrgID h) (h_Public h) (h_AccessHostname h) (h_AccessHostnameKnown h) (h_Policy h).

(** publisher.go: the first entry of every host. *)
Fixpoint first_hosts (seen : gset string) (l : list Hostname) : list Hostname :=
  match l with
  | [] => []
  | h :: l' =>
      let h := with_host (normalizeHost (h_Host h)) h in
      if bool_decide (h_Host h = "") || bool_decide (h_Host h ∈ seen) then first_hosts seen l'
      else h :: first_hosts ({[h_Host h]} ∪ seen) l'
  end.

Definition host_leb (a b : Hostname) : bool := str_leb (h_Host a) (h_Host b).

Definition dedupeHostnames (l : list Hostname) : list Hostname := sort_by host_leb (first_hosts ∅ l).

Definition endpoint_hosts (connectionID : string) (e : Endpoint) : list Hostname :=
  match e_Policy e with
  | None => []
  | Some policy =>
      if bool_decide (connectionID = "") || (negb (bool_decide (e_Kind e = "")) && negb (bool_decide (e_Kind e = KindHTTP)))
      then []
      else omap (fun ref =>
        if negb (bool_decide (ref_ConnectionID ref = connectionID)) then None
        else
          let host := if bool_decide (ref_Hostname ref = "") then e_Domain e else ref_Hostname ref in
          match accessHostname (e_Domain e) host with
          | Ok normalized =>
              Some (mkHostname normalized (e_ID e) (e_OrgID e) true (ref_Hostname ref) true (EffectiveAccessPolicy policy ref))
          | Fail _ => None
          end) (ep_Access policy)
  end.

Definition AccessHosts (connectionID : string) (endpoints : list (option Endpoint)) : list Hostname :=
  dedupeHostnames (concat (map (fun e => match e with None => [] | Some e => endpoint_hosts connectionID e end) endpoints)).

(** The names of an endpoint that are not selected: they are only observed. *)
Fixpoint observed_hosts (orgID : string) (selected observed : gset string) (names : list (string * string)) : list Hostname :=
  match names with
  | [] => []
  | (id, name) :: names' =>
      let host := normalizeHost name in
      if bool_decide (host = "") || bool_decide (host ∈ selected) || bool_decide (host ∈ observed)
      then observed_hosts orgID selected observed names'
      else mkHostname host id orgID false "" false None :: observed_hosts orgID selected ({[host]} ∪ observed) names'
  end.

Definition endpoint_names (e : Endpoint) : list (string * string) :=
  map (fun n => (e_ID e, n)) (e_Domain e :: match e_Policy e with None => [] | Some p => map ref_Hostname (ep_Access p) end).

Definition connectionHosts (connectionID orgID : string) (endpoints : list (option Endpoint)) : list Hostname :=
  let owned := omap (fun e => match e with
    | Some e => if bool_decide (e_OrgID e = orgID) then Some e else None
    | None => None end) endpoints in
  let out := AccessHosts connectionID (map Some owned) in
  sort_by host_leb (out ++ observed_hosts orgID (list_to_set (map h_Host out)) ∅ (concat (map endpoint_names owned))).
End Source.
End Cloudflare.
