(* ===== verification/CloudflarePlan.v ===== *)
(** * Plans for a tunnel configuration and merged Access objects

    The rules of a plan, that a second plan changes nothing, and that merging an Access
    policy keeps what it does not manage. *)
From S2P Require Import Prelude GoIO GoStrings GoNet Token Cloudflare.
Import Cloudflare.

Module CloudflarePlan.
Section Plan.
Context `{lower : UnicodeLower} `{url : UrlParse} `{raw : RawJSON}.

(** The hostname has no rule to the origin and no other service. *)
Definition to_add (owned : gset string) (foreign : gmap string string) (h : string) : bool :=
  negb (bool_decide (h ∈ owned)) && bool_decide (default "" (foreign !! h) = "").

Lemma plan_hosts owned foreign origin hs p :
  let q := foldl (plan_host owned foreign origin) p hs in
  rules q = rules p ++ map (fun h => NewIngressRule h origin) (List.filter (to_add owned foreign) hs) /\
  changed q = changed p || existsb (to_add owned foreign) hs /\
  added q = added p ∪ list_to_set (List.filter (to_add owned foreign) hs) /\
  orphans q = orphans p /\ removed q = removed p.
Proof.
  revert p. induction hs as [|h hs IH]; intros p; cbn [foldl existsb List.filter map].
  { rewrite app_nil_r, orb_false_r. split_and!; try done. set_solver. }
  destruct (IH (plan_host owned foreign origin p h)) as (->&->&->&->&->). unfold plan_host, to_add.
  destruct (bool_decide (h ∈ owned)) eqn:E1; cbn; [done|]. destruct (bool_decide (default "" (foreign !! h) = "")); cbn.
  - rewrite <- app_assoc, orb_true_r. split_and!; try done. set_solver.
  - done.
Qed.

(** The parts of the plan of a configuration. *)
Section Parts.
Context (rs : list IngressRule) (origin : string) (desired : list string) (protected : gmap string string) (prune : bool).
Abbreviation key := (normalizeService origin).
Abbreviation body := (split_catch_all rs).1.
Abbreviation catchAll := (split_catch_all rs).2.
Abbreviation drop_rule := (pruned key desired protected prune).
Abbreviation plan := (planIngress rs origin desired protected prune).

Definition new_hosts : list string := List.filter (to_add (owned_hosts key body) (foreign_hosts key body)) desired.
Definition kept_rules : list IngressRule := List.filter (fun r => negb (drop_rule r)) body.
Definition core_rules : list IngressRule := kept_rules ++ map (fun h => NewIngressRule h origin) new_hosts.
Definition core_changed : bool :=
  negb (bool_decide (List.filter drop_rule body = [])) || negb (bool_decide (new_hosts = [])).

Lemma existsb_filter {X} (f : X -> bool) l : existsb f l = negb (bool_decide (List.filter f l = [])).
Proof. induction l as [|x l IH]; cbn [existsb List.filter]; [done|]. by destruct (f x). Qed.

Lemma planIngress_parts :
  rules plan = core_rules ++ match catchAll with
    | Some r => [r]
    | None => if negb (bool_decide (core_rules = [])) || core_changed then [NewIngressRule "" catchAllService] else []
    end /\
  changed plan = match catchAll with
    | Some _ => core_changed
    | None => negb (bool_decide (core_rules = [])) || core_changed
    end /\
  added plan = list_to_set new_hosts /\
  orphans plan = sort_by str_leb (filter (fun h => h ∉ desired) (elements (owned_hosts key body))) /\
  removed plan = list_to_set (map rule_host (List.filter drop_rule body)).
Proof.
  unfold core_changed, core_rules, kept_rules, new_hosts, planIngress. destruct (split_catch_all rs) as [b c].
  cbn [fst snd]. match goal with |- context [foldl ?f ?p desired] => pose proof (plan_hosts (owned_hosts key b)
    (foreign_hosts key b) origin desired p) as (Hr&Hc&Ha&Ho&Hm); set (q := foldl f p desired) in * end.
  cbn [rules changed added orphans removed] in *. rewrite existsb_filter in Hc.
  rewrite Hr, Hc. rewrite (left_id_L ∅ (∪)) in Ha.
  destruct c as [r|]; [cbn [rules changed added orphans removed]; by rewrite Ha, Ho, Hm|].
  match goal with |- context [if ?x then mkPlan _ _ _ _ _ _ _ else q] => destruct x eqn:Eb end;
    cbn [rules changed added orphans removed]; rewrite ?app_nil_r; split_and!; try done.
  rewrite Hc. by apply orb_false_iff in Eb as [_ ->].
Qed.
End Parts.

(** ** Owned and foreign hosts *)
Definition to_origin (key : string) (r : IngressRule) : bool := bool_decide (normalizeService (Service_ r) = key).

Lemma elem_of_owned key body h :
  h ∈ owned_hosts key body <-> h <> "" /\ exists r, r ∈ body /\ rule_host r = h /\ to_origin key r = true.
Proof.
  unfold owned_hosts, to_origin. rewrite elem_of_list_to_set, list_elem_of_omap. split.
  - intros (r&Hr&Hm). destruct (bool_decide_reflect (rule_host r = "")); [done|].
    destruct (bool_decide (normalizeService _ = _)) eqn:Ek; [|done]. simplify_eq. eauto.
  - intros (Hne&r&Hr&<-&Hk%bool_decide_eq_true). exists r. split; [done|]. rewrite bool_decide_false by done. by rewrite bool_decide_true.
Qed.

Lemma foreign_snoc key body r :
  foreign_hosts key (body ++ [r]) =
  if bool_decide (rule_host r = "") || to_origin key r then foreign_hosts key body
  else <[rule_host r := Service_ r]> (foreign_hosts key body).
Proof. unfold foreign_hosts, to_origin. rewrite foldl_app. cbn. by do 2 case_bool_decide. Qed.

(** Rules to the origin, or of no host, do not count. *)
Lemma foreign_filter key (f : IngressRule -> bool) body :
  (forall r, r ∈ body -> f r = false -> rule_host r = "" \/ to_origin key r = true) ->
  foreign_hosts key (List.filter f body) = foreign_hosts key body.
Proof.
  induction body as [|r body IH] using rev_ind; intros Hf; [done|]. rewrite List.filter_app, foreign_snoc.
  assert (IH' : foreign_hosts key (List.filter f body) = foreign_hosts key body).
  { apply IH. intros r' Hr'. apply Hf, elem_of_app. by left. }
  cbn [List.filter]. destruct (f r) eqn:Ef; [by rewrite foreign_snoc, IH'|]. rewrite app_nil_r, IH'.
  assert (Hx : rule_host r = "" \/ to_origin key r = true) by (apply Hf; [apply elem_of_app; right; left|done]).
  destruct Hx as [Hx|Hx]; [by rewrite bool_decide_true|by rewrite Hx, orb_true_r].
Qed.

Lemma foreign_own key body k :
  Forall (fun r => to_origin key r = true) k -> foreign_hosts key (body ++ k) = foreign_hosts key body.
Proof.
  induction k as [|r k IH] using rev_ind; intros Hk; [by rewrite app_nil_r|]. apply Forall_app in Hk as [Hk Hr].
  rewrite app_assoc, foreign_snoc. rewrite Forall_singleton in Hr. rewrite Hr, orb_true_r. auto.
Qed.

(** The last rule of a host that has none to the origin. *)
Lemma foreign_last key body h :
  h <> "" -> h ∉ owned_hosts key body ->
  foreign_hosts key body !! h = Service_ <$> last (List.filter (fun r => bool_decide (rule_host r = h)) body).
Proof.
  intros Hne. induction body as [|r body IH] using rev_ind; intros Ho; [done|].
  rewrite foreign_snoc, List.filter_app. cbn [List.filter].
  assert (Ho' : h ∉ owned_hosts key body).
  { rewrite elem_of_owned in Ho |- *. intros (_&r'&?&?). apply Ho. split; [done|]. exists r'. rewrite elem_of_app. tauto. }
  destruct (bool_decide_reflect (rule_host r = h)) as [Hr|Hr].
  - rewrite last_snoc. assert (to_origin key r = false) as ->.
    { apply not_true_is_false. intros Hk. apply Ho, elem_of_owned. split; [done|]. exists r. rewrite elem_of_app.
      split_and!; [right; left|done|done]. }
    rewrite bool_decide_false by congruence. cbn. by rewrite Hr, lookup_insert_eq.
  - rewrite app_nil_r. destruct (_ || _); [auto|]. rewrite lookup_insert_ne by done. auto.
Qed.
End Plan.

(** ** A plan is stable *)
Section Stable.
Context `{lower : UnicodeLower} `{url : UrlParse} `{raw : RawJSON} `{laws : !RawJSONLaws}.

(** A hostname that is read back as it is written. *)
Definition plain_host (h : string) : Prop :=
  h <> "" /\ forallb is_ascii_byte (bytes_of h) = true /\ normalizeHost h = h.

Lemma host_of_new h s : plain_host h -> rule_host (NewIngressRule h s) = h.
Proof.
  intros (Hne&Ha&Hn). unfold rule_host, Hostname_, stringField, NewIngressRule. cbn [fields].
  rewrite bool_decide_false by done. rewrite lookup_insert_ne by done. rewrite lookup_singleton_eq.
  by rewrite raw_string_raw.
Qed.

Lemma service_of_new h s : forallb is_ascii_byte (bytes_of s) = true -> Service_ (NewIngressRule h s) = s.
Proof. intros Ha. unfold Service_, stringField, NewIngressRule. cbn [fields]. by rewrite lookup_insert_eq, raw_string_raw. Qed.

Lemma catch_all_new s : isCatchAll (NewIngressRule "" s) = true.
Proof. reflexivity. Qed.

Lemma split_catch_snoc l r : isCatchAll r = true -> split_catch_all (l ++ [r]) = (l, Some r).
Proof.
  intros H. unfold split_catch_all. rewrite last_snoc, H. f_equal. rewrite length_app. cbn.
  replace (length l + 1 - 1) with (length l) by lia. by rewrite take_app_length.
Qed.

Lemma split_catch_some rs r : (split_catch_all rs).2 = Some r -> isCatchAll r = true.
Proof. unfold split_catch_all. destruct (last rs); [|done]. destruct (isCatchAll _) eqn:E; cbn; congruence. Qed.

Context (rs : list IngressRule) (origin : string) (desired : list string) (protected : gmap string string) (prune : bool).
Hypothesis hosts_plain : Forall plain_host desired.
Hypothesis origin_ascii : forallb is_ascii_byte (bytes_of origin) = true.
Abbreviation key := (normalizeService origin).
Abbreviation core := (core_rules rs origin desired protected prune).

Lemma new_rule_ok h : h ∈ desired ->
  rule_host (NewIngressRule h origin) = h /\ to_origin key (NewIngressRule h origin) = true.
Proof.
  intros Hh. rewrite Forall_forall in hosts_plain. split; [by apply host_of_new, hosts_plain|].
  unfold to_origin. rewrite service_of_new by done. by apply bool_decide_eq_true.
Qed.

Lemma elem_of_core r :
  r ∈ core <-> (r ∈ (split_catch_all rs).1 /\ pruned key desired protected prune r = false) \/
    exists h, h ∈ new_hosts rs origin desired /\ r = NewIngressRule h origin.
Proof.
  unfold core_rules, kept_rules. rewrite elem_of_app, list_elem_of_fmap, !list_elem_of_In, filter_In, negb_true_iff.
  rewrite <- list_elem_of_In. naive_solver.
Qed.

Lemma core_not_pruned r : r ∈ core -> pruned key desired protected prune r = false.
Proof.
  rewrite elem_of_core. intros [[_ ?]|(h&Hh&->)]; [done|]. apply list_elem_of_In, filter_In in Hh as [Hh%list_elem_of_In _].
  unfold pruned. destruct (new_rule_ok h Hh) as [-> _]. rewrite (bool_decide_true (h ∈ desired)) by done.
  by rewrite andb_false_r.
Qed.

Lemma core_foreign : foreign_hosts key core = foreign_hosts key (split_catch_all rs).1.
Proof.
  unfold core_rules. rewrite foreign_own.
  - apply foreign_filter. intros r _ Hr%negb_false_iff. right. unfold pruned in Hr. by apply andb_true_iff in Hr as [_ ?].
  - apply Forall_forall. intros r (h&->&Hh)%list_elem_of_fmap. apply list_elem_of_In, filter_In in Hh as [Hh%list_elem_of_In _].
    by apply new_rule_ok.
Qed.

Lemma core_owns h :
  h ∈ desired -> to_add (owned_hosts key (split_catch_all rs).1) (foreign_hosts key (split_catch_all rs).1) h = true \/
    h ∈ owned_hosts key (split_catch_all rs).1 -> h ∈ owned_hosts key core.
Proof.
  intros Hh Ho. apply elem_of_owned. split; [by rewrite Forall_forall in hosts_plain; apply hosts_plain|]. destruct Ho as [Ha|Ho].
  - exists (NewIngressRule h origin). destruct (new_rule_ok h Hh) as [? ?]. split_and!; try done. apply elem_of_core. right.
    exists h. split; [|done]. apply list_elem_of_In, filter_In. split; [by apply list_elem_of_In|done].
  - apply elem_of_owned in Ho as (_&r&Hr&Hrh&Hk). exists r. split_and!; try done. apply elem_of_core. left. split; [done|].
    unfold pruned. rewrite Hrh, (bool_decide_true (h ∈ desired)) by done. by rewrite andb_false_r.
Qed.

Lemma none_to_add h : h ∈ desired -> to_add (owned_hosts key core) (foreign_hosts key core) h = false.
Proof.
  intros Hh. rewrite core_foreign.
  destruct (to_add (owned_hosts key (split_catch_all rs).1) (foreign_hosts key (split_catch_all rs).1) h) eqn:Et.
  - unfold to_add. rewrite bool_decide_true; [done|]. apply core_owns; auto.
  - unfold to_add in *. destruct (bool_decide_reflect (h ∈ owned_hosts key (split_catch_all rs).1)) as [Ho|Ho]; cbn in Et.
    + rewrite bool_decide_true; [done|]. apply core_owns; auto.
    + by rewrite Et, andb_false_r.
Qed.

Lemma filter_none {X} (f : X -> bool) l : (forall x, x ∈ l -> f x = false) -> List.filter f l = [].
Proof. induction l as [|x l IH]; intros H; cbn; [done|]. rewrite H by left. apply IH. intros. apply H. by right. Qed.

Lemma filter_all {X} (f : X -> bool) l : (forall x, x ∈ l -> f x = true) -> List.filter f l = l.
Proof. induction l as [|x l IH]; intros H; cbn; [done|]. rewrite H by left. f_equal. apply IH. intros. apply H. by right. Qed.

(** A configuration whose rules before the last are those of a plan. *)
Lemma core_again c : isCatchAll c = true ->
  core_rules (core ++ [c]) origin desired protected prune = core /\
  core_changed (core ++ [c]) origin desired protected prune = false.
Proof.
  intros Hc. remember core as l eqn:El. unfold core_changed, core_rules, kept_rules, new_hosts.
  rewrite (split_catch_snoc l c Hc). cbn [fst snd]. subst l.
  rewrite (filter_none (to_add _ _) desired) by apply none_to_add.
  rewrite (filter_none (pruned key desired protected prune) core) by apply core_not_pruned.
  rewrite filter_all; [by rewrite app_nil_r|]. intros r Hr'. by rewrite core_not_pruned.
Qed.

Lemma plan_again c : isCatchAll c = true ->
  let again := planIngress (core ++ [c]) origin desired protected prune in
  changed again = false /\ rules again = core ++ [c].
Proof.
  intros Hc. destruct (core_again c Hc) as [H1 H2].
  destruct (planIngress_parts (core ++ [c]) origin desired protected prune) as (Hr&Hch&_).
  rewrite (split_catch_snoc core c Hc), H1 in *. cbn [snd] in *. by rewrite Hr, Hch, H2.
Qed.
End Stable.

Section Theorems.
Context `{lower : UnicodeLower} `{url : UrlParse} `{raw : RawJSON} `{laws : !RawJSONLaws}.

Lemma foreign_some key body h s : foreign_hosts key body !! h = Some s -> exists r, r ∈ body /\ rule_host r = h.
Proof.
  induction body as [|r body IH] using rev_ind; [done|]. rewrite foreign_snoc. intros Hs.
  assert (Hold : foreign_hosts key body !! h = Some s -> exists r', r' ∈ body ++ [r] /\ rule_host r' = h).
  { intros (r'&?&?)%IH. exists r'. rewrite elem_of_app. auto. }
  destruct (_ || _); [auto|]. apply lookup_insert_Some in Hs as [[<- _]|[_ Hs]]; [|auto].
  exists r. split; [apply elem_of_app; right; left|done].
Qed.

(** A configuration that is left empty was empty. *)
Lemma core_empty rs origin desired protected prune :
  (split_catch_all rs).2 = None -> core_rules rs origin desired protected prune = [] ->
  core_changed rs origin desired protected prune = false -> rs = [] /\ desired = [].
Proof.
  intros Hc Hcore Hch. assert (Hb : (split_catch_all rs).1 = rs).
  { revert Hc. unfold split_catch_all. destruct (last rs); [|done]. by destruct (isCatchAll _). }
  unfold core_rules, kept_rules, core_changed in *. apply app_eq_nil in Hcore as [Hk _].
  apply orb_false_iff in Hch as [Hd Hn]. apply negb_false_iff, bool_decide_eq_true in Hd, Hn. rewrite Hb in *.
  assert (rs = []) as ->.
  { destruct rs as [|r rs]; [done|]. cbn in Hk, Hd. by destruct (pruned _ _ _ _ r). }
  split; [done|]. unfold new_hosts in Hn. by destruct desired as [|h hs].
Qed.

(** Plans converge: the configuration of a plan needs no further change, whatever rules
    the tunnel had; planning again for the same hostnames gives the same rules, and every
    wanted hostname then has a rule, its own or another's that is left alone. *)
Theorem plan_is_stable (rs : list IngressRule) (origin : string) (desired : list string) (protected : gmap string string)
    (prune : bool) :
  Forall plain_host desired -> forallb is_ascii_byte (bytes_of origin) = true ->
  let plan := planIngress rs origin desired protected prune in
  let again := planIngress (rules plan) origin desired protected prune in
  changed again = false /\ rules again = rules plan /\
  forall h, h ∈ desired -> exists r, r ∈ rules plan /\ rule_host r = h.
Proof.
  intros Hh Ho. cbn zeta. destruct (planIngress_parts rs origin desired protected prune) as (Hr&Hch&_).
  assert (Hcatch : (exists c, isCatchAll c = true /\ rules (planIngress rs origin desired protected prune) =
      core_rules rs origin desired protected prune ++ [c]) \/
    (rules (planIngress rs origin desired protected prune) = rs /\ desired = [] /\ changed (planIngress rs origin desired protected prune) = false)).
  { destruct (split_catch_all rs).2 as [c|] eqn:Ec; [left; eauto using split_catch_some|].
    destruct (negb _ || _) eqn:Eb; [left; exists (NewIngressRule "" catchAllService); auto using catch_all_new|].
    right. apply orb_false_iff in Eb as [Eb1%negb_false_iff%bool_decide_eq_true Eb2].
    destruct (core_empty rs origin desired protected prune Ec Eb1 Eb2) as [-> ->]. rewrite Hr, Eb1. done. }
  destruct Hcatch as [(c&Hc&->)|(Hrs&->&Hch')].
  - destruct (plan_again rs origin desired protected prune Hh Ho c Hc) as [-> ->]. split_and!; try done. intros h Hd.
    pose proof (none_to_add rs origin desired protected prune Hh Ho h Hd) as Hn. unfold to_add in Hn.
    set (core := core_rules rs origin desired protected prune) in *.
    assert (Hin : exists r, r ∈ core /\ rule_host r = h).
    { destruct (bool_decide_reflect (h ∈ owned_hosts (normalizeService origin) core)) as [(_&r&?&?&_)%elem_of_owned|Hno]; [eauto|].
      cbn in Hn. apply bool_decide_eq_false in Hn. destruct (foreign_hosts _ core !! h) eqn:Ef; [|done]. eauto using foreign_some. }
    destruct Hin as (r&Hin&?). exists r. split; [|done]. apply elem_of_app. by left.
  - rewrite Hrs. split_and!; [done..|]. by intros h ?%not_elem_of_nil.
Qed.
End Theorems.

(** ** Objects *)
Lemma olookup_oset_eq k v o : olookup k (oset k v o) = Some v.
Proof.
  induction o as [|[k' v'] o IH]; cbn; [by rewrite bool_decide_true|]. case_bool_decide; cbn; [by rewrite bool_decide_true|].
  by rewrite bool_decide_false.
Qed.

Lemma olookup_oset_ne k k' v o : k <> k' -> olookup k' (oset k v o) = olookup k' o.
Proof.
  intros Hne. induction o as [|[k1 v1] o IH]; cbn; [by rewrite bool_decide_false|]. case_bool_decide as H1; cbn.
  - subst. by rewrite !bool_decide_false.
  - by rewrite IH.
Qed.

Lemma oset_same k v o : olookup k o = Some v -> oset k v o = o.
Proof.
  induction o as [|[k1 v1] o IH]; cbn; [done|]. case_bool_decide; [|intros; by rewrite IH]. intros [= ->]. by subst.
Qed.

Lemma desired_managed policy r : r ∈ desiredIncludeRules policy -> managed r = true.
Proof.
  unfold desiredIncludeRules. rewrite !elem_of_app, !list_elem_of_fmap. intros [|[|]]; destruct_and?; naive_solver.
Qed.

Lemma filter_twice {X} (f : X -> bool) l : List.filter f (List.filter f l) = List.filter f l.
Proof. apply filter_all. intros x Hx. by apply list_elem_of_In, filter_In in Hx as [_ ?]. Qed.

Lemma filter_negb {X} (f : X -> bool) l : List.filter f (List.filter (fun x => negb (f x)) l) = [].
Proof. apply filter_none. intros x Hx. apply list_elem_of_In, filter_In in Hx as [_ Hx]. by apply negb_true_iff. Qed.

(** The parts of a merged policy. *)
Lemma merged_parts observed host policy :
  let merged := mergeAccessPolicy observed host policy in
  let include := default [] (as_list (oget "include" observed)) in
  let require := default [] (as_list (oget "require" observed)) in
  oget "name" merged = Some (JStr (accessObjectName host)) /\ oget "decision" merged = Some (JStr "allow") /\
  oget "include" merged = Some (JArr (List.filter (fun r => negb (managed r)) include ++ desiredIncludeRules policy)) /\
  oget "require" merged =
    Some (JArr (List.filter (fun r => negb (isMFARule r)) require ++ if RequireMFA policy then [mfaRule] else [])) /\
  forall k, k ∉ ["name"; "decision"; "include"; "require"] ->
    oget k merged = oget k (Some (default [("exclude", JArr [])] observed)).
Proof.
  cbn zeta. unfold mergeAccessPolicy, oget. cbn [mbind option_bind].
  split_and!; try (repeat first [rewrite olookup_oset_eq; done|rewrite olookup_oset_ne by done]).
  intros k Hk. repeat rewrite olookup_oset_ne by set_solver. done.
Qed.

(** Merging a policy changes what it manages and nothing else, and once: the rules an
    administrator added, of other kinds, stay in their order, the managed ones become
    those of the endpoint, every other field is kept; merging again changes nothing, so
    that a policy that was merged is not written again. *)
Theorem merged_policy_is_stable (observed : object) (host : string) (policy : AccessPolicy) :
  let merged := mergeAccessPolicy observed host policy in
  let rules k o := default [] (as_list (oget k o)) in
  List.filter managed (rules "include" merged) = desiredIncludeRules policy /\
  List.filter (fun r => negb (managed r)) (rules "include" merged) =
    List.filter (fun r => negb (managed r)) (rules "include" observed) /\
  List.filter (fun r => negb (isMFARule r)) (rules "require" merged) =
    List.filter (fun r => negb (isMFARule r)) (rules "require" observed) /\
  existsb isMFARule (rules "require" merged) = RequireMFA policy /\
  (forall k, k ∉ ["name"; "decision"; "include"; "require"] -> observed <> None -> oget k merged = oget k observed) /\
  mergeAccessPolicy merged host policy = merged.
Proof.
  cbn zeta. destruct (merged_parts observed host policy) as (Hn&Hd&Hi&Hr&Hk).
  set (merged := mergeAccessPolicy observed host policy) in *. rewrite Hi, Hr. cbn [from_option as_list id].
  assert (Hdm : List.filter (fun r => negb (managed r)) (desiredIncludeRules policy) = []).
  { apply filter_none. intros r Hx. by rewrite (desired_managed _ _ Hx). }
  assert (Hmm : List.filter (fun r => negb (isMFARule r)) (if RequireMFA policy then [mfaRule] else []) = []) by by destruct (RequireMFA policy).
  split_and!.
  - rewrite List.filter_app, filter_negb. apply filter_all, desired_managed.
  - by rewrite List.filter_app, Hdm, app_nil_r, filter_twice.
  - by rewrite List.filter_app, Hmm, app_nil_r, filter_twice.
  - rewrite existsb_app. rewrite existsb_filter, filter_negb. by destruct (RequireMFA policy).
  - intros k Hne Ho. rewrite Hk by done. by destruct observed.
  - assert (Hs : exists o, merged = Some o) by (eexists; reflexivity). destruct Hs as (o&Ho). rewrite Ho in *.
    unfold mergeAccessPolicy. rewrite Hi, Hr. cbn [from_option as_list id]. rewrite !List.filter_app, Hdm, Hmm, !app_nil_r, !filter_twice.
    cbn in Hn, Hd, Hi, Hr. f_equal. rewrite (oset_same "name" _ o Hn), (oset_same "decision" _ o Hd), (oset_same "include" _ o Hi).
    by apply oset_same.
Qed.
End CloudflarePlan.
