(* ===== verification/CloudflareSync.v ===== *)
(** * Reconciling a Cloudflare tunnel (internal/cloudflare)

    [Sync], [AddHostname] and [RemoveHostname] of a publisher as programs over the calls
    they make: the Cloudflare API, cloudflared, the data store, the locks. A publisher
    runs one of them at a time ([syncMu]). Nothing is assumed of the answers. *)
From S2P Require Import Prelude GoIO GoStrings GoNet Token Calls Cloudflare.
Import Calls Cloudflare.

Module CloudflareSync.
(** ** status.go, local.go *)
Record ConnectorStatus := mkConnector {
  Reachable : bool;
  ReadyConnections : Z;
  ConnectorID : string;
  Version_ : string;
  EdgeLocations : list string;
  Error_ : string
}.

Record TunnelInfo := mkTunnelInfo { ti_ID : string; ti_Name : string; ti_Status : string; ti_Connections : Z }.

Record HostStatus := mkHostStatus {
  Host : string;
  EndpointID : string;
  HasIngress : bool;
  Service : string;
  DNS : string;
  DNSDetail : string;
  Access : string;
  AccessApp : string;
  AccessPolicyStatus : string;
  State_ : string;
  Detail : string;
  Fix : string;
  AccessHostname : string;
  AccessHostnameKnown : bool
}.

Record Status := mkStatus {
  Level : string;
  st_Tunnel : option TunnelInfo;
  st_Origin : string;
  Connector : ConnectorStatus;
  LastSync : Z;
  LastError : string;
  Hostnames : list HostStatus
}.

Definition DNSOK : string := "ok".
Definition DNSMissing : string := "missing".
Definition DNSConflict : string := "conflict".
Definition DNSError : string := "error".
Definition DNSUnchecked : string := "unchecked".
Definition AccessOK : string := "ok".
Definition AccessMissing : string := "missing".
Definition AccessNA : string := "n/a".
Definition AccessError : string := "error".
Definition AccessUnchecked : string := "unchecked".
Definition AccessAppShared : string := "shared".
Definition AccessAppOwn : string := "own".
Definition AccessPolicyOK : string := "ok".
Definition AccessPolicyDriftFixed : string := "drift_fixed".
Definition AccessPolicyError : string := "error".
Definition StatePublished : string := "published".
Definition StatePending : string := "pending".
Definition StateConflict : string := "conflict".
Definition StateUnclaimed : string := "unclaimed".
Definition StateError : string := "error".
Definition unclaimedOwned : string := "no endpoint claims this hostname".
Definition unclaimedOff : string := "an endpoint serves this domain but its Public access is off".
Definition unclaimedFix : string := "Open the endpoint and turn on Public access so mishmesh tracks this hostname.".
Definition dnsComment : string := "managed by mishmesh".

Definition LevelImported : string := "imported".
Definition LevelManaged : string := "managed".
Definition cfg_Level (cfg : Config) : string := if bool_decide (APIToken cfg = "") then LevelImported else LevelManaged.

Definition connectorTunnelHealth (c : ConnectorStatus) : string :=
  if negb (Reachable c) then "unknown" else if (0 <? ReadyConnections c)%Z then "healthy" else "down".

(** ** Calls *)

(** What a method of the client returns; an error of the API carries the HTTP status. *)
Inductive reply (A : Type) :=
| Got (a : A)
| Lost (status : option Z) (e : goerr).
Arguments Got {A} a.
Arguments Lost {A} status e.

Definition isNotFound (status : option Z) : bool := bool_decide (status = Some 404%Z).

Inductive req :=
| Now
| LocalStatus
| LocalIngress
| ListEndpointsByOrg (org : string)
| ListOrgs
| UpdateConnectionState (st : ownershipState)
| PublishAliases (st : Status)
| AcquireLocks
| GetTunnel
| GetTunnelConfig
| PutTunnelConfig (c : TunnelConfig)
| ListZones
| ListDNSRecords (zone host : string)
| CreateDNSRecord (zone : string) (r : DNSRecord)
| DeleteDNSRecord (zone id : string)
| GetAccessApp (id : string)
| CreateAccessApp (app : object)
| PutAccessApp (id : string) (app : object)
| DeleteAccessApp (id : string)
| GetAccessPolicy (id : string)
| CreateAccessPolicy (policy : object)
| PutAccessPolicy (id : string) (policy : object)
| DeleteAccessPolicy (id : string).

Definition answer (r : req) : Type :=
  match r with
  | Now => Z
  | LocalStatus => ConnectorStatus
  | LocalIngress => res (list IngressRule)
  | ListEndpointsByOrg _ => res (list (option Endpoint))
  | ListOrgs => res (list (option string))
  | UpdateConnectionState _ | PublishAliases _ | AcquireLocks => option goerr
  | GetTunnel => reply Tunnel
  | GetTunnelConfig => reply TunnelConfig
  | ListZones => reply (list Zone)
  | ListDNSRecords _ _ => reply (list DNSRecord)
  | CreateDNSRecord _ _ => reply DNSRecord
  | GetAccessApp _ | CreateAccessApp _ | GetAccessPolicy _ | CreateAccessPolicy _ => reply object
  | PutTunnelConfig _ | DeleteDNSRecord _ _ | PutAccessApp _ _ | DeleteAccessApp _ | PutAccessPolicy _ _
  | DeleteAccessPolicy _ => reply unit
  end.

Abbreviation prog := (Calls.prog answer).

(** A publisher has the record of what it owns ([nil] without an API token) and its last
    status; the methods thread the record. *)
Definition ownership : Type := option ownershipState.
Definition M (A : Type) : Type := ownership -> prog (A * ownership).

#[export] Instance M_MRet : MRet M := fun A a o => Ret (a, o).
#[export] Instance M_MBind : MBind M := fun A B f m o => prog_bind (fun x => f x.1 x.2) (m o).

Definition lift {A} (p : prog A) : M A := fun o => a ← p; Ret (a, o).
Definition call (r : req) : M (answer r) := lift (ask r).
Definition panic {A} (text : string) : M A := fun _ => Panic text.
Definition read_own : M ownership := fun o => Ret (o, o).
Definition write_own (o : ownership) : M unit := fun _ => Ret (tt, o).

(** [p.ownership] is used only when it is not nil. *)
Definition modify (f : ownershipState -> ownershipState) : M unit := fun o => Ret (tt, f <$> o).

(** A loop over a slice, collecting the results; and one that passes a value on. *)
Fixpoint each {A B} (f : A -> M B) (l : list A) : M (list B) :=
  match l with
  | [] => mret []
  | x :: l' => y ← f x; ys ← each f l'; mret (y :: ys)
  end.

Fixpoint fold_each {A S} (f : S -> A -> M S) (s : S) (l : list A) : M S :=
  match l with
  | [] => mret s
  | x :: l' => s' ← f s x; fold_each f s' l'
  end.

(** [errors.Join]: the texts of the errors, one per line. *)
Definition Join (errs : list goerr) : option goerr :=
  match errs with [] => None | _ => Some (ENew (String.concat (String "010" "") (map errText errs))) end.

(** ** hostEntry *)
Record ownAccess := mkOwnAccess { oa_exists : bool; oa_status : string; oa_detail : string }.

Record hostEntry := mkEntry {
  st : HostStatus;
  orphan : bool;
  conflict : bool;
  failed : bool;
  accessApplied : bool;
  accessReleased : bool;
  own : option ownAccess
}.

Definition e_Host (e : hostEntry) : string := Host (st e).

Definition on_status (f : HostStatus -> HostStatus) (e : hostEntry) : hostEntry :=
  mkEntry (f (st e)) (orphan e) (conflict e) (failed e) (accessApplied e) (accessReleased e) (own e).

Definition hs_dns (dns detail : string) (s : HostStatus) : HostStatus :=
  mkHostStatus (Host s) (EndpointID s) (HasIngress s) (Service s) dns detail (Access s) (AccessApp s) (AccessPolicyStatus s)
    (State_ s) (Detail s) (Fix s) (AccessHostname s) (AccessHostnameKnown s).
Definition hs_access (access : string) (s : HostStatus) : HostStatus :=
  mkHostStatus (Host s) (EndpointID s) (HasIngress s) (Service s) (DNS s) (DNSDetail s) access (AccessApp s)
    (AccessPolicyStatus s) (State_ s) (Detail s) (Fix s) (AccessHostname s) (AccessHostnameKnown s).
Definition hs_detail (detail : string) (s : HostStatus) : HostStatus :=
  mkHostStatus (Host s) (EndpointID s) (HasIngress s) (Service s) (DNS s) (DNSDetail s) (Access s) (AccessApp s)
    (AccessPolicyStatus s) (State_ s) detail (Fix s) (AccessHostname s) (AccessHostnameKnown s).
Definition hs_fix (fix_ : string) (s : HostStatus) : HostStatus :=
  mkHostStatus (Host s) (EndpointID s) (HasIngress s) (Service s) (DNS s) (DNSDetail s) (Access s) (AccessApp s)
    (AccessPolicyStatus s) (State_ s) (Detail s) fix_ (AccessHostname s) (AccessHostnameKnown s).
Definition hs_state (state : string) (s : HostStatus) : HostStatus :=
  mkHostStatus (Host s) (EndpointID s) (HasIngress s) (Service s) (DNS s) (DNSDetail s) (Access s) (AccessApp s)
    (AccessPolicyStatus s) state (Detail s) (Fix s) (AccessHostname s) (AccessHostnameKnown s).
Definition hs_app (app policy : string) (s : HostStatus) : HostStatus :=
  mkHostStatus (Host s) (EndpointID s) (HasIngress s) (Service s) (DNS s) (DNSDetail s) (Access s) app policy
    (State_ s) (Detail s) (Fix s) (AccessHostname s) (AccessHostnameKnown s).
Definition hs_endpoint (id : string) (s : HostStatus) : HostStatus :=
  mkHostStatus (Host s) id (HasIngress s) (Service s) (DNS s) (DNSDetail s) (Access s) (AccessApp s)
    (AccessPolicyStatus s) (State_ s) (Detail s) (Fix s) (AccessHostname s) (AccessHostnameKnown s).

(** [if e.Detail == "" { e.Detail = text }] *)
Definition detail_if_empty (text : string) (s : HostStatus) : HostStatus :=
  if bool_decide (Detail s = "") then hs_detail text s else s.

Definition entryState (e : hostEntry) : string :=
  let s := st e in
  let broken := failed e || bool_decide (DNS s = DNSError) || bool_decide (Access s = AccessError) in
  if orphan e then if broken then StateError else StateUnclaimed
  else if broken then StateError
  else if conflict e || bool_decide (DNS s = DNSConflict) then StateConflict
  else if negb (HasIngress s) || bool_decide (DNS s = DNSMissing) || bool_decide (Access s = AccessMissing) then StatePending
  else StatePublished.

Section Publisher.
Context `{lower : UnicodeLower} `{url : UrlParse} `{raw : RawJSON} `{fold : UnicodeFold} `{sha : Sha256}
  `{rule_text : Canonical IngressRule} `{dns_text : Canonical DNSRecord} `{json_text : Canonical json}.
Context (cfg : Config).

Definition tunnelLabel : string := if bool_decide (Name cfg = "") then TunnelID cfg else Name cfg.

Definition describeAccess (e : hostEntry) : hostEntry :=
  match own e with
  | Some o =>
      let e := on_status (fun s => hs_access AccessOK (hs_app AccessAppOwn (oa_status o) s)) e in
      if bool_decide (oa_status o = AccessPolicyError)
      then on_status (fun s => detail_if_empty (oa_detail o) (hs_access AccessError s)) e else e
  | None =>
      if bool_decide (AccessAppID cfg = "") then e
      else on_status (fun s => hs_app AccessAppShared (AccessPolicyStatus s) s) e
  end.

(** ** ownership.go *)
Definition errClaims : goerr := ENew "route ownership claims unavailable".

Definition foreignClaims : M (res (gmap string string)) :=
  orgs ← call ListOrgs;
  match orgs with
  | Fail _ => mret (Fail errClaims)
  | Ok orgs =>
      fold_each (fun (claims : res (gmap string string)) org =>
        match claims, org with
        | Ok claims, Some id =>
            r ← call (ListEndpointsByOrg id);
            mret (match r with
                  | Fail _ => Fail errClaims
                  | Ok endpoints => Ok (foldl (endpoint_claims cfg id) claims endpoints)
                  end)
        | _, _ => mret claims
        end) (Ok ∅) orgs
  end.

Definition protect (st : ownershipState) (rs : list IngressRule) (observed : gmap string string)
    : M (res (gmap string string)) :=
  claims ← foreignClaims;
  mret (match claims with Fail err => Fail err | Ok claims => Ok (protect_with st rs observed claims) end).

Definition save (st : ownershipState) : M (option goerr) :=
  r ← call (UpdateConnectionState st);
  mret (match r with Some _ => Some (ENew "cloudflare ownership state could not be saved") | None => None end).

(** ** publisher.go, source.go *)
Definition src_Hostnames : M (res (list Hostname)) :=
  r ← call (ListEndpointsByOrg (OrgID cfg));
  mret (match r with
        | Fail err => Fail (EWrap ("list endpoints for org " +:+ OrgID cfg +:+ ": ") err "")
        | Ok endpoints => Ok (connectionHosts (ConnectionID cfg) (OrgID cfg) endpoints)
        end).

(** The hostnames to publish, and the endpoints of the others. *)
Definition split_public (all : list Hostname) : list Hostname * gmap string string :=
  (dedupeHostnames (List.filter h_Public all),
   foldl (fun m h =>
     if h_Public h then m else match m !! h_Host h with Some _ => m | None => <[h_Host h := h_EndpointID h]> m end) ∅ all).

Definition desired : M (res (list Hostname * gmap string string)) :=
  all ← src_Hostnames;
  mret (match all with
        | Fail err => Fail (EWrap "list desired hostnames: " err "")
        | Ok all => Ok (split_public all)
        end).

(** ** accesspolicy.go *)
Definition ownedApp (host : string) (o : ownership) : ownedAccessApp :=
  match o with Some st => default noApp (r_App (route host st)) | None => noApp end.

Definition storeOwnedApp (host : string) (record : ownedAccessApp) : M unit :=
  modify (update host (set_app (if bool_decide (record = noApp) then None else Some record))).

Definition ensure_failed (host : string) (record : ownedAccessApp) (e : goerr) : M (ownAccess * option goerr) :=
  _ ← storeOwnedApp host record;
  mret (mkOwnAccess (negb (bool_decide (AppID record = ""))) AccessPolicyError (errText e), Some e).

Definition with_policy (id fp : string) (a : ownedAccessApp) : ownedAccessApp := mkOwnedApp (AppID a) id (App a) fp.
Definition with_app (id fp : string) (a : ownedAccessApp) : ownedAccessApp := mkOwnedApp id (PolicyID a) fp (Policy a).

(** The policy of the hostname: the record with its id and fingerprint and whether it had
    drifted, or the record and the error. *)
Definition ensure_policy (host : string) (policy : AccessPolicy) (record : ownedAccessApp)
    : M ((ownedAccessApp * bool) + (ownedAccessApp * goerr)) :=
  observed ← (if bool_decide (PolicyID record = "") then mret (inl (record, false, None))
              else
                r ← call (GetAccessPolicy (PolicyID record));
                mret (match r with
                      | Got current => inl (record, false, Some current)
                      | Lost status err =>
                          if isNotFound status then inl (with_policy "" "" record, true, None) else inr (record, err)
                      end));
  match observed with
  | inr failure => mret (inr failure)
  | inl (record, drift, observed) =>
      if bool_decide (PolicyID record = "") then
        r ← call (CreateAccessPolicy (mergeAccessPolicy None host policy));
        match r with
        | Lost _ err => mret (inr (record, err))
        | Got created =>
            let record := with_policy (accessObjectID created) (Policy record) record in
            if bool_decide (PolicyID record = "") then mret (inr (record, ENew "created access policy has no valid ID"))
            else mret (inl (with_policy (PolicyID record) (accessPolicyProjection created) record, drift))
        end
      else
        let observed : object := default None observed in
        let drift := drift || negb (bool_decide (accessPolicyProjection observed = Policy record)) in
        let merged := mergeAccessPolicy observed host policy in
        let finish := mret (inl (with_policy (PolicyID record) (accessPolicyProjection merged) record, drift)) in
        if bool_decide (accessPolicyProjection merged = accessPolicyProjection observed) then finish
        else
          r ← call (PutAccessPolicy (PolicyID record) merged);
          match r with Lost _ err => mret (inr (record, err)) | Got _ => finish end
  end.

Definition ensure_app (host : string) (policy : AccessPolicy) (record : ownedAccessApp) (drift : bool)
    : M ((ownedAccessApp * bool) + (ownedAccessApp * goerr)) :=
  observed ← (if bool_decide (AppID record = "") then mret (inl (record, drift, None))
              else
                r ← call (GetAccessApp (AppID record));
                mret (match r with
                      | Got current => inl (record, drift, Some current)
                      | Lost status err =>
                          if isNotFound status then inl (with_app "" "" record, true, None) else inr (record, err)
                      end));
  match observed with
  | inr failure => mret (inr failure)
  | inl (record, drift, observed) =>
      let id := PolicyID record in
      if bool_decide (AppID record = "") then
        r ← call (CreateAccessApp (mergeAccessApp None host id policy));
        match r with
        | Lost _ err => mret (inr (record, err))
        | Got created =>
            let record := with_app (accessObjectID created) (App record) record in
            if bool_decide (AppID record = "") then mret (inr (record, ENew "created access app has no valid ID"))
            else mret (inl (with_app (AppID record) (accessAppProjection created host id) record, drift))
        end
      else
        let observed : object := default None observed in
        let drift := drift || negb (bool_decide (accessAppProjection observed host id = App record)) in
        let merged := mergeAccessApp observed host id policy in
        let finish := mret (inl (with_app (AppID record) (accessAppProjection merged host id) record, drift)) in
        if bool_decide (accessAppProjection merged host id = accessAppProjection observed host id) then finish
        else
          r ← call (PutAccessApp (AppID record) merged);
          match r with Lost _ err => mret (inr (record, err)) | Got _ => finish end
  end.

Definition ensureOwnAccess (host : string) (policy : AccessPolicy) : M (ownAccess * option goerr) :=
  o ← read_own;
  p ← ensure_policy host policy (ownedApp host o);
  match p with
  | inr (record, err) => ensure_failed host record err
  | inl (record, drift) =>
      a ← ensure_app host policy record drift;
      match a with
      | inr (record, err) => ensure_failed host record err
      | inl (record, drift) =>
          _ ← storeOwnedApp host record;
          mret (if (drift : bool)
                then mkOwnAccess true AccessPolicyDriftFixed
                       "managed Access settings were changed in Cloudflare and have been restored"
                else mkOwnAccess true AccessPolicyOK "", None)
      end
  end.

Definition reconcileOwnAccess (hosts : list Hostname) : M (gmap string ownAccess * list goerr) :=
  fold_each (fun '(results, errs) h =>
    match h_Policy h with
    | None => mret (results, errs)
    | Some policy =>
        o ← read_own;
        match o with
        | None =>
            mret (<[h_Host h := mkOwnAccess false AccessPolicyError "access policies need a managed Cloudflare connection"]> results,
                  errs)
        | Some _ =>
            '(result, err) ← ensureOwnAccess (h_Host h) policy;
            mret (<[h_Host h := result]> results, errs ++ match err with Some e => [e] | None => [] end)
        end
    end) (∅, []) hosts.

Definition removeOwnAccess (host : string) : M (option goerr) :=
  o ← read_own;
  let record := ownedApp host o in
  gone ← (if bool_decide (AppID record = "") then mret (inl record)
          else
            r ← call (DeleteAccessApp (AppID record));
            let forget :=
              let record := with_app "" "" record in
              _ ← storeOwnedApp host record; mret (inl record) in
            match r with
            | Got _ => forget
            | Lost status err => if isNotFound status then forget else mret (inr err)
            end);
  match gone with
  | inr err => mret (Some err)
  | inl record =>
      if bool_decide (PolicyID record = "") then mret None
      else
        r ← call (DeleteAccessPolicy (PolicyID record));
        let forget := _ ← storeOwnedApp host (with_policy "" "" record); mret None in
        match r with
        | Got _ => forget
        | Lost status err => if isNotFound status then forget else mret (Some err)
        end
  end.

(** ** reconcile_dns.go *)

(** The zones, listed at the first use. *)
Definition zones_cache : Type := option (reply (list Zone)).

Definition find_zone (cache : zones_cache) (host : string) : M (res Zone * zones_cache) :=
  zones ← match cache with Some z => mret z | None => call ListZones end;
  mret (match zones with Lost _ err => Fail err | Got zones => zone_of host zones end, Some zones).

Definition dnsLookup : Type := res (Zone * list DNSRecord).

(** The records of the hosts are listed concurrently, each into its own place. *)
Fixpoint lookupDNS (cache : zones_cache) (entries : list hostEntry) : M (list dnsLookup) :=
  match entries with
  | [] => mret []
  | e :: entries' =>
      '(z, cache) ← find_zone cache (e_Host e);
      here ← match z with
             | Fail err => mret (Fail err)
             | Ok zone =>
                 r ← call (ListDNSRecords (z_ID zone) (e_Host e));
                 mret (match r with Got records => Ok (zone, records) | Lost _ err => Fail err end)
             end;
      rest ← lookupDNS cache entries';
      mret (here :: rest)
  end.

(** Deletes the records it owns: whether one was preserved, or the error. *)
Fixpoint delete_owned (zone host : string) (ours : list DNSRecord) (preserved : bool) : M (res bool) :=
  match ours with
  | [] => mret (Ok preserved)
  | r :: ours' =>
      o ← read_own;
      if (match o with Some st => negb (ownsDNS host r st) | None => false end : bool)
      then delete_owned zone host ours' true
      else
        d ← call (DeleteDNSRecord zone (d_ID r));
        match d with
        | Lost _ err => mret (Fail err)
        | Got _ => delete_owned zone host ours' preserved
        end
  end.

Definition tunnel_record (host : string) : DNSRecord :=
  mkDNS "" "CNAME" host (tunnelTarget cfg) true dnsComment 0 [] None.

Definition reconcileDNS (lookup : dnsLookup) (e : hostEntry) (plan : ingressPlan) : M hostEntry :=
  let host := e_Host e in
  match lookup with
  | Fail err => mret (on_status (hs_dns DNSError (errText err)) e)
  | Ok (zone, recs) =>
      let ours := List.filter (pointsAtTunnel cfg) recs in
      let pruneThis := orphan e && Prune cfg && bool_decide (host ∈ removed plan) && negb (failed e) in
      if pruneThis && negb (bool_decide (ours = [])) then
        r ← delete_owned (z_ID zone) host ours false;
        match r with
        | Fail err => mret (on_status (hs_dns DNSError (errText err)) e)
        | Ok true => mret (on_status (hs_dns DNSOK "changed DNS record preserved") e)
        | Ok false =>
            _ ← modify (update host (set_dns []));
            mret (on_status (hs_dns DNSMissing "deleted by prune") e)
        end
      else if negb (bool_decide (ours = [])) then
        _ ← (if negb (orphan e) && negb (conflict e) then modify (recordDNS host ours false) else mret tt);
        mret (on_status (fun s => hs_dns DNSOK (DNSDetail s) s) e)
      else match recs with
      | first :: _ =>
          let e := on_status (hs_dns DNSConflict ("existing " +:+ d_Type first +:+ " record " +:+ d_Content first +:+
            " is not managed by this tunnel")) e in
          mret (if bool_decide (Fix (st e) = "") && negb (orphan e)
                then on_status (hs_fix ("In the Cloudflare DNS settings for " +:+ z_Name zone +:+ ", replace the " +:+
                       d_Type first +:+ " record for " +:+ host +:+ " with a proxied CNAME to " +:+ tunnelTarget cfg +:+ ".")) e
                else e)
      | [] =>
          if orphan e || conflict e then mret (on_status (fun s => hs_dns DNSMissing (DNSDetail s) s) e)
          else
            r ← call (CreateDNSRecord (z_ID zone) (tunnel_record host));
            match r with
            | Lost _ err => mret (on_status (hs_dns DNSError (errText err)) e)
            | Got created =>
                _ ← modify (recordDNS host [created] true);
                mret (on_status (hs_dns DNSOK "created") e)
            end
      end
  end.

(** ** reconcile_access.go *)
Definition accessLabel (present : bool) : string := if present then AccessOK else AccessMissing.

Definition releasesSharedAccess (o : ownership) (app : object) (host : string) : bool :=
  match o with
  | None => false
  | Some st =>
      let recorded := r_Access (route host st) in
      negb (bool_decide (recorded = "")) && bool_decide (recorded = accessFingerprint app host)
  end.

Definition set_applied (e : hostEntry) : hostEntry :=
  mkEntry (st e) (orphan e) (conflict e) (failed e) true (accessReleased e) (own e).
Definition set_released (e : hostEntry) : hostEntry :=
  mkEntry (st e) (orphan e) (conflict e) (failed e) (accessApplied e) true (own e).

(** One entry and the application it is added to or removed from; whether it is touched.
    [None]: a panic. *)
Definition access_entry (o : ownership) (app : object) (e : hostEntry) : option (object * hostEntry * bool) :=
  let host := e_Host e in
  let label a := on_status (hs_access a) e in
  match own e with
  | Some w =>
      if oa_exists w && releasesSharedAccess o app host then
        let '(app, changed) := accessRemoveHost app host in
        Some (app, if (changed : bool) then set_released e else e, changed)
      else Some (app, e, false)
  | None =>
      if orphan e && Prune cfg && negb (HasIngress (st e)) && negb (failed e) then
        if (match o with
            | Some st => negb (bool_decide (r_Access (route host st) = accessFingerprint app host))
            | None => false end : bool)
        then Some (app, label (accessLabel (accessHasHost app host)), false)
        else
          let '(app, changed) := accessRemoveHost app host in Some (app, label AccessMissing, changed)
      else if orphan e || conflict e then Some (app, label (accessLabel (accessHasHost app host)), false)
      else
        '(app, changed) ← accessAddHost app host;
        Some (app, on_status (hs_access AccessOK) (if (changed : bool) then set_applied e else e), changed)
  end.

Fixpoint access_entries (o : ownership) (app : object) (entries : list hostEntry)
    : option (object * list (hostEntry * bool)) :=
  match entries with
  | [] => Some (app, [])
  | e :: entries' =>
      '(app, e, touched) ← access_entry o app e;
      '(app, rest) ← access_entries o app entries';
      Some (app, (e, touched) :: rest)
  end.

Definition recordAccess (entries : list hostEntry) (app : object) : M unit :=
  modify (fun st => foldl (fun st e =>
    update (e_Host e) (fun owned =>
      if negb (orphan e) && negb (conflict e) && negb (failed e) && bool_decide (Access (CloudflareSync.st e) = AccessOK) &&
         accessApplied e
      then set_access (accessFingerprint app (e_Host e)) owned
      else if accessReleased e ||
              (orphan e && bool_decide (Access (CloudflareSync.st e) = AccessMissing) &&
               negb (HasIngress (CloudflareSync.st e)) && negb (failed e))
      then set_access "" owned else owned) st) st entries).

(** The entries that were touched could not be applied. *)
Definition touched_failed (l : list (hostEntry * bool)) : list hostEntry :=
  map (fun x : hostEntry * bool => if x.2 then on_status (hs_access AccessError) x.1 else x.1) l.

Definition reconcileAccess (entries : list hostEntry) : M (list hostEntry * option goerr) :=
  r ← call (GetAccessApp (AccessAppID cfg));
  match r with
  | Lost _ err =>
      mret (map (fun e => match own e with
              | Some _ => e
              | None => on_status (fun s => detail_if_empty (errText err) (hs_access AccessError s)) e end) entries, Some err)
  | Got app =>
      o ← read_own;
      match access_entries o app entries with
      | None => panic "assignment to entry in nil map"
      | Some (app, l) =>
          if negb (existsb snd l) then _ ← recordAccess (map fst l) app; mret (map fst l, None)
          else
            r ← call (PutAccessApp (AccessAppID cfg) app);
            match r with
            | Lost _ err => mret (touched_failed l, Some err)
            | Got _ =>
                match o with
                | None => mret (map fst l, None)
                | Some _ =>
                    r ← call (GetAccessApp (AccessAppID cfg));
                    match r with
                    | Lost _ err => mret (touched_failed l, Some err)
                    | Got app => _ ← recordAccess (map fst l) app; mret (map fst l, None)
                    end
                end
            end
      end
  end.

(** accesspolicy.go: the hosts are visited in order; an entry is the last one of its host. *)
Definition update_last (host : string) (f : HostStatus -> HostStatus) (entries : list hostEntry) : list hostEntry :=
  match list_find (fun e => e_Host e = host) (reverse entries) with
  | Some (i, e) => <[length entries - 1 - i := on_status f e]> entries
  | None => entries
  end.

Definition prune_host (own : gmap string ownAccess) (acc : list hostEntry * list goerr) (host : string)
    : M (list hostEntry * list goerr) :=
  let '(entries, errs) := acc in
  match list_find (fun e => e_Host e = host) (reverse entries) with
  | None => mret (entries, errs)
  | Some (_, entry) =>
      let skip :=
        if orphan entry then negb (Prune cfg) || HasIngress (st entry) || failed entry
        else negb (bool_decide (AccessAppID cfg = "")) && negb (bool_decide (Access (st entry) = AccessOK)) in
      if (skip : bool) then mret (entries, errs)
      else
        r ← removeOwnAccess host;
        mret (match r with
              | None => (entries, errs)
              | Some err => (update_last host (fun s => hs_access AccessError (detail_if_empty (errText err) s)) entries, errs ++ [err])
              end)
  end.

Definition pruneOwnAccess (entries : list hostEntry) (own : gmap string ownAccess) : M (list hostEntry * option goerr) :=
  o ← read_own;
  match o with
  | None => mret (entries, None)
  | Some st =>
      let hosts := sort_by str_leb (omap (fun x : string * ownedRoute =>
        match r_App x.2, own !! x.1 with Some _, None => Some x.1 | _, _ => None end) (map_to_list (Routes st))) in
      '(entries, errs) ← fold_each (prune_host own) (entries, []) hosts;
      mret (entries, Join errs)
  end.

(** ** reconcile_ingress.go *)
Record ingressOutcome := mkOutcome {
  oc_plan : ingressPlan;
  observedRules : list IngressRule;
  putErr : option goerr;
  oc_errs : list goerr
}.

Definition applyIngress (tcfg : TunnelConfig) (active : list Hostname) (protected routes : gmap string string)
    (wanted : gset string) : M ingressOutcome :=
  let plan := planIngress (Ingress tcfg) (Origin cfg) (map h_Host active) protected (Prune cfg) in
  o ← read_own;
  let plan := match o with Some st => includeResiduals cfg plan routes wanted protected st | None => plan end in
  if negb (changed plan) then mret (mkOutcome plan (Ingress tcfg) None [])
  else
    r ← call (PutTunnelConfig (mkTunnelConfig (rules plan) (cfields tcfg)));
    match r with
    | Lost _ err => mret (mkOutcome plan (Ingress tcfg) (Some err) [err])
    | Got _ =>
        match o with
        | None => mret (mkOutcome plan (Ingress tcfg) None [])
        | Some _ =>
            r ← call GetTunnelConfig;
            mret (match r with
                  | Lost _ err => mkOutcome plan [] None [err]
                  | Got observed => mkOutcome plan (Ingress observed) None []
                  end)
        end
    end.

Definition activeEntry (h : Hostname) (own : option ownAccess) (routes : gmap string string) (outcome : ingressOutcome)
    : M hostEntry :=
  let plan := oc_plan outcome in
  let base ingress service detail fix_ :=
    mkHostStatus (h_Host h) (h_EndpointID h) ingress service DNSMissing "" AccessNA "" "" "" detail fix_
      (h_AccessHostname h) (h_AccessHostnameKnown h) in
  let service := default "" (routes !! h_Host h) in
  let e :=
    if bool_decide (h_Host h ∈ present plan) then mkEntry (base true service "" "") false false false false false own
    else if bool_decide (h_Host h ∈ added plan) then
      match putErr outcome with
      | Some err => mkEntry (base false service (errText err) "") false false true false false own
      | None => mkEntry (base true (Origin cfg) "" "") false false false false false own
      end
    else
      mkEntry (base true service (default "" (conflicts plan !! h_Host h))
        ("Remove the public hostname " +:+ h_Host h +:+ " from tunnel " +:+ tunnelLabel +:+ " or point it at " +:+
         Origin cfg +:+ "; mishmesh does not overwrite routes it did not create.")) false true false false false own in
  _ ← (if HasIngress (st e) && negb (conflict e) && negb (failed e)
       then modify (recordIngress cfg (h_Host h) (observedRules outcome)
              (bool_decide (h_Host h ∈ added plan) && bool_decide (putErr outcome = None)))
       else mret tt);
  mret (describeAccess e).

Definition orphanEntry (host : string) (routes private : gmap string string) (outcome : ingressOutcome) : hostEntry :=
  let s := mkHostStatus host "" true (default "" (routes !! host)) DNSMissing "" AccessNA "" "" "" unclaimedOwned "" "" false in
  let s := match private !! host with
           | Some id => hs_fix unclaimedFix (hs_detail unclaimedOff (hs_endpoint id s))
           | None => s
           end in
  let hs_ingress b s := mkHostStatus (Host s) (EndpointID s) b (Service s) (DNS s) (DNSDetail s) (Access s) (AccessApp s)
    (AccessPolicyStatus s) (State_ s) (Detail s) (Fix s) (AccessHostname s) (AccessHostnameKnown s) in
  if bool_decide (host ∈ removed (oc_plan outcome)) then
    match putErr outcome with
    | Some err => mkEntry (hs_detail (errText err) s) true false true false false None
    | None => mkEntry (hs_detail "removed by prune" (hs_ingress false s)) true false false false false None
    end
  else mkEntry s true false false false false None.

Definition buildEntries (active : list Hostname) (own : gmap string ownAccess) (routes private : gmap string string)
    (outcome : ingressOutcome) : M (list hostEntry) :=
  entries ← each (fun h => activeEntry h (own !! h_Host h) routes outcome) active;
  mret (entries ++ map (fun h => orphanEntry h routes private outcome) (orphans (oc_plan outcome))).

Definition reconcileEntries (entries : list hostEntry) (plan : ingressPlan) (own : gmap string ownAccess)
    : M (list hostEntry * list goerr) :=
  lookups ← lookupDNS None entries;
  entries ← each (fun x : dnsLookup * hostEntry => reconcileDNS x.1 x.2 plan) (zip lookups entries);
  '(entries, errs) ← (if bool_decide (AccessAppID cfg = "") then mret (entries, [])
                      else
                        '(entries, err) ← reconcileAccess entries;
                        mret (entries, match err with Some e => [e] | None => [] end));
  '(entries, err) ← pruneOwnAccess entries own;
  mret (entries, errs ++ match err with Some e => [e] | None => [] end).

Definition splitBlocked (hosts : list Hostname) (own : gmap string ownAccess) (routes : gmap string string)
    : list Hostname * list HostStatus :=
  let blocked h := match own !! h_Host h with
    | Some result => negb (oa_exists result) && bool_decide (routes !! h_Host h = None)
    | None => false end in
  (List.filter (fun h => negb (blocked h)) hosts,
   omap (fun h => match own !! h_Host h with
     | Some result =>
         if blocked h
         then Some (mkHostStatus (h_Host h) (h_EndpointID h) false "" DNSUnchecked "" AccessError AccessAppOwn (oa_status result)
                      StateError (oa_detail result) "" (h_AccessHostname h) (h_AccessHostnameKnown h))
         else None
     | None => None end) hosts).

(** status.go *)
Definition unclaimedRoutes (routes : gmap string string) (wanted : gset string) (private : gmap string string)
    (originKey dns access : string) : list HostStatus :=
  let out := omap (fun x : string * string =>
    let '(h, service) := x in
    if bool_decide (h ∈ wanted) then None
    else
      let hs id detail fix_ := mkHostStatus h id true service dns "" access "" "" StateUnclaimed detail fix_ "" false in
      let id := default "" (private !! h) in
      Some (if negb (bool_decide (normalizeService service = originKey))
            then hs id ("routed to " +:+ service +:+ ", not through mishmesh") ""
            else match private !! h with
                 | Some id => hs id unclaimedOff unclaimedFix
                 | None => hs "" unclaimedOwned ""
                 end)) (map_to_list routes) in
  sort_by (fun a b => str_leb (Host a) (Host b)) out.

Definition collectStatus (entries : list hostEntry) (blocked : list HostStatus) (routes private : gmap string string)
    (wanted : gset string) : M (list HostStatus) :=
  _ ← modify (fun st => foldl (fun st e =>
    if orphan e && negb (HasIngress (CloudflareSync.st e)) && negb (failed e) then update (e_Host e) (set_ingress "") st else st)
    st entries);
  mret (map (fun e => hs_state (entryState e) (st e)) entries ++ blocked ++
        unclaimedRoutes routes (list_to_set (map e_Host entries) ∪ wanted) private (normalizeService (Origin cfg)) DNSUnchecked AccessNA).

Definition baseStatus : M Status :=
  t ← call Now;
  connector ← call LocalStatus;
  mret (mkStatus (cfg_Level cfg) None (Origin cfg) connector t "" []).

Definition st_tunnel (t : TunnelInfo) (s : Status) : Status :=
  mkStatus (Level s) (Some t) (st_Origin s) (Connector s) (LastSync s) (LastError s) (Hostnames s).
Definition st_error (text : string) (s : Status) : Status :=
  mkStatus (Level s) (st_Tunnel s) (st_Origin s) (Connector s) (LastSync s) text (Hostnames s).
Definition st_hosts (l : list HostStatus) (s : Status) : Status :=
  mkStatus (Level s) (st_Tunnel s) (st_Origin s) (Connector s) (LastSync s) (LastError s) l.

Definition observeTunnel (connector : ConnectorStatus) : M (TunnelInfo * list goerr) :=
  r ← call GetTunnel;
  mret (match r with
        | Lost _ err =>
            (mkTunnelInfo (TunnelID cfg) (Name cfg) (connectorTunnelHealth connector) (ReadyConnections connector), [err])
        | Got t => (mkTunnelInfo (t_ID t) (t_Name t) (t_Status t) (t_Connections t), [])
        end).

Definition bare_status (h : Hostname) (dns access detail : string) : HostStatus :=
  mkHostStatus (h_Host h) (h_EndpointID h) false "" dns "" access "" "" StateError detail "" "" false.

(** What is written before it: the status, the hostnames and the rules are known. *)
Definition reconcile_with (s : Status) (hosts : list Hostname) (private : gmap string string) (errs : list goerr)
    (tcfg : TunnelConfig) : M (Status * option goerr) :=
  '(own, ownErrs) ← reconcileOwnAccess hosts;
  let errs := errs ++ match Join ownErrs with Some e => [e] | None => [] end in
  let routes := ingressRoutes (Ingress tcfg) in
  let '(active, blocked) := splitBlocked hosts own routes in
  let wanted := list_to_set (map h_Host hosts) in
  o ← read_own;
  protected ← match o with Some st => protect st (Ingress tcfg) private | None => mret (Ok private) end;
  match protected with
  | Fail err => mret (st_error (errText err) s, Some err)
  | Ok protected =>
      outcome ← applyIngress tcfg active protected routes wanted;
      entries ← buildEntries active own routes private outcome;
      '(entries, errs') ← reconcileEntries entries (oc_plan outcome) own;
      l ← collectStatus entries blocked routes private wanted;
      let s := st_hosts l s in
      mret (match Join (errs ++ oc_errs outcome ++ errs') with
            | None => (s, None)
            | Some joined => (st_error (errText joined) s, Some joined)
            end)
  end.

(** [last]: the hostnames of the last status. *)
Definition reconcile (last : list HostStatus) : M (Status * option goerr) :=
  s ← baseStatus;
  d ← desired;
  match d with
  | Fail err => mret (st_hosts last (st_error (errText err) s), Some err)
  | Ok (hosts, private) =>
      '(tunnel, errs) ← observeTunnel (Connector s);
      let s := st_tunnel tunnel s in
      r ← call GetTunnelConfig;
      match r with
      | Lost _ err =>
          let l := map (fun h => hs_dns DNSError "tunnel configuration unavailable"
                                   (bare_status h DNSError AccessNA (errText err))) hosts in
          let joined := Join (errs ++ [err]) in
          mret (st_error (match joined with Some e => errText e | None => "" end) (st_hosts l s), joined)
      | Got tcfg => reconcile_with s hosts private errs tcfg
      end
  end.

(** publisher.go: without an API token the tunnel is only observed. *)
Definition accessUnchecked : string := if bool_decide (AccessAppID cfg = "") then AccessNA else AccessUnchecked.

Definition inspect_host (routes : gmap string string) (h : Hostname) : HostStatus :=
  let hs ingress service state detail fix_ :=
    mkHostStatus (h_Host h) (h_EndpointID h) ingress service DNSUnchecked "" accessUnchecked "" "" state detail fix_
      (h_AccessHostname h) (h_AccessHostnameKnown h) in
  let where_ := "In Cloudflare Zero Trust, open Networks > Tunnels > " +:+ tunnelLabel +:+ " > Public hostnames, " in
  match routes !! h_Host h with
  | None =>
      hs false "" StatePending "the tunnel has no public hostname for this domain yet"
        (where_ +:+ "add " +:+ h_Host h +:+ " and set its service to " +:+ Origin cfg +:+ ".")
  | Some service =>
      if negb (bool_decide (normalizeService service = normalizeService (Origin cfg)))
      then hs true service StateConflict ("the tunnel routes this hostname to " +:+ service +:+ ", not to mishmesh")
             (where_ +:+ "edit " +:+ h_Host h +:+ " and set its service to " +:+ Origin cfg +:+ ".")
      else hs true service StatePublished "" ""
  end.

Definition inspect (last : list HostStatus) : M (Status * option goerr) :=
  s ← baseStatus;
  let s := st_tunnel (mkTunnelInfo (TunnelID cfg) (Name cfg) (connectorTunnelHealth (Connector s))
                        (ReadyConnections (Connector s))) s in
  d ← desired;
  match d with
  | Fail err => mret (st_hosts last (st_error (errText err) s), Some err)
  | Ok (hosts, private) =>
      r ← (if Reachable (Connector s) then call LocalIngress else mret (Fail (ENew (Error_ (Connector s)))));
      match r with
      | Fail err =>
          let err := EWrap "read tunnel hostnames from cloudflared: " err "" in
          mret (st_error (errText err)
            (st_hosts (map (fun h => bare_status h DNSUnchecked accessUnchecked (errText err)) hosts) s), Some err)
      | Ok rs =>
          let routes := ingressRoutes rs in
          mret (st_hosts (map (inspect_host routes) hosts ++
            unclaimedRoutes routes (list_to_set (map h_Host hosts)) private (normalizeService (Origin cfg)) DNSUnchecked AccessNA) s,
            None)
      end
  end.

(** The texts that a connection shows. *)
Definition redact (s : Status) (err : option goerr) : Status * option goerr :=
  if bool_decide (ConnectionID cfg = "") then (s, err)
  else
    let c := Connector s in
    (mkStatus (Level s) (st_Tunnel s) (st_Origin s)
       (if bool_decide (Error_ c = "") then c
        else mkConnector (Reachable c) (ReadyConnections c) (ConnectorID c) (Version_ c) (EdgeLocations c) "cloudflared observation failed")
       (LastSync s) (if bool_decide (LastError s = "") then "" else "cloudflare sync failed")
       (map (fun h => if bool_decide (State_ h = StateError) then hs_detail "cloudflare hostname reconciliation failed" h else h)
          (Hostnames s)),
     (fun _ => ENew "cloudflare sync failed") <$> err).

(** provider.go: the callback that publishes the aliases of the hostnames. *)
Definition publish_aliases (s : Status) : M (Status * option goerr) :=
  r ← call (PublishAliases s);
  mret (match r with
        | None => (s, None)
        | Some err =>
            (st_hosts (map (fun h => if bool_decide (State_ h = StatePublished)
               then hs_detail "Access routing changed or could not be saved; retry sync" (hs_state StateError h) else h)
               (Hostnames s)) s, Some err)
        end).

Definition join_opt (a b : option goerr) : option goerr :=
  Join (match a with Some e => [e] | None => [] end ++ match b with Some e => [e] | None => [] end).

(** [provider.Open] sets the client, the ownership and the locks together. The result is
    the new status, when there is one, and the error. *)
Definition Sync (last : list HostStatus) : M (option Status * option goerr) :=
  previous ← read_own;
  canceled ← match previous with Some _ => call AcquireLocks | None => mret None end;
  match canceled with
  | Some _ => mret (None, Some (ENew "cloudflare sync canceled"))
  | None =>
      '(s, err) ← match previous with Some _ => reconcile last | None => inspect last end;
      o ← read_own;
      '(s, err) ← match o with
                  | None => mret (s, err)
                  | Some st =>
                      r ← save st;
                      match r with
                      | None => mret (s, err)
                      | Some stateErr =>
                          _ ← write_own previous;
                          mret (st_error (errText stateErr) s, join_opt err (Some stateErr))
                      end
                  end;
      let '(s, err) := redact s err in
      '(s, aliasErr) ← publish_aliases s;
      mret (match aliasErr with
            | None => (Some s, err)
            | Some e => (Some (st_error "access aliases could not be saved" s), join_opt err (Some e))
            end)
  end.

(** ** hostnames.go *)
Inductive hostname_error :=
| HostnameError (kind message : string) (endpointIDs : list string)
| OtherError (e : goerr).

Definition HostnameInvalid : string := "invalid".
Definition HostnameConflict : string := "conflict".
Definition HostnameNotFound : string := "not_found".
Definition HostnameInUse : string := "in_use".
Definition HostnameUnsupported : string := "unsupported".

Definition refuse {A} (kind message : string) : M (A + hostname_error) := mret (inr (HostnameError kind message [])).
Definition give_err {A} (e : goerr) : M (A + hostname_error) := mret (inr (OtherError e)).

(** Sequencing of steps that may end the method. *)
Definition andThen {A B} (m : M (A + hostname_error)) (f : A -> M (B + hostname_error)) : M (B + hostname_error) :=
  r ← m; match r with inl a => f a | inr e => mret (inr e) end.
Notation "'must' x ':=' m 'in' k" := (andThen m (fun x => k)) (at level 10, x pattern, m at level 100, k at level 200).

Definition api {A} (m : M (reply A)) : M (A + hostname_error) :=
  r ← m; mret (match r with Got a => inl a | Lost _ e => inr (OtherError e) end).

Definition lockForChange : M (unit + hostname_error) :=
  o ← read_own;
  match o with
  | None => refuse HostnameUnsupported "add an API token to manage hostnames from mishmesh"
  | Some _ =>
      r ← call AcquireLocks;
      mret (match r with None => inl tt | Some _ => inr (OtherError (ENew "cloudflare hostname change canceled")) end)
  end.

Definition directServiceSchemes : list string := ["http"; "https"; "tcp"; "ssh"; "rdp"].

Definition checkDirectService (service : string) : string + hostname_error :=
  let service := TrimSpace service in
  let invalid := inr (HostnameError HostnameInvalid
    "service must be an http, https, tcp, ssh or rdp URL with a host and no path, for example http://localhost:8000" []) in
  match url_Parse service with
  | Fail _ => invalid
  | Ok u =>
      if negb (bool_decide (u_Scheme u ∈ directServiceSchemes)) || bool_decide (u_Host u = "") || u_User u ||
         negb (bool_decide (u_RawQuery u = "")) || negb (bool_decide (u_Fragment u = "")) ||
         (negb (bool_decide (u_Path u = "")) && negb (bool_decide (u_Path u = "/"))) then invalid
      else if bool_decide (normalizeService service = normalizeService (Origin cfg))
      then inr (HostnameError HostnameInvalid "to route through mishmesh, add the hostname to an endpoint instead" [])
      else inl service
  end.

Definition checkUnreferenced (host : string) : M (unit + hostname_error) :=
  all ← src_Hostnames;
  match all with
  | Fail err => give_err (EWrap "list desired hostnames: " err "")
  | Ok all =>
      let ids := omap (fun h => if h_Public h && bool_decide (normalizeHost (h_Host h) = host) then Some (h_EndpointID h) else None) all in
      if bool_decide (ids = []) then mret (inl tt)
      else mret (inr (HostnameError HostnameInUse (host +:+ " is published by an endpoint; remove its Access row first") ids))
  end.

Definition checkUnclaimed (host : string) : M (unit + hostname_error) :=
  must _ := checkUnreferenced host in
  o ← read_own;
  match o with
  | None => mret (inl tt)
  | Some _ =>
      claims ← foreignClaims;
      match claims with
      | Fail err => give_err err
      | Ok claims =>
          if bool_decide (is_Some (claims !! host))
          then refuse HostnameConflict (host +:+ " is published through another connection") else mret (inl tt)
      end
  end.

Definition removeIngress (host : string) : M (option goerr) :=
  r ← call GetTunnelConfig;
  match r with
  | Lost _ err => mret (Some err)
  | Got tcfg =>
      let '(kept, gone) := withoutHost (Ingress tcfg) host in
      if negb gone then mret None
      else
        r ← call (PutTunnelConfig (mkTunnelConfig kept (cfields tcfg)));
        mret (match r with Lost _ err => Some err | Got _ => None end)
  end.

(** The zone of a host and its records; [None]: no zone matches. *)
Definition host_records (host : string) : M ((option (Zone * list DNSRecord)) + hostname_error) :=
  '(z, _) ← find_zone None host;
  match z with
  | Fail err => if errIs err errNoZone then mret (inl None) else give_err err
  | Ok zone =>
      must records := api (call (ListDNSRecords (z_ID zone) host)) in
      mret (inl (Some (zone, records)))
  end.

(** With the locks held. *)
Definition add_hostname (host service : string) : M (unit + hostname_error) :=
  must _ := checkUnclaimed host in
  must tcfg := api (call GetTunnelConfig) in
  match ingressRoutes (Ingress tcfg) !! host with
  | Some routed => refuse HostnameConflict (host +:+ " is already routed to " +:+ routed)
  | None =>
      if snd (withoutHost (Ingress tcfg) host)
      then refuse HostnameConflict (host +:+ " already has path rules on this tunnel")
      else
        must found := host_records host in
        match found with
        | None => refuse HostnameInvalid ("no zone this API token can see matches " +:+ host)
        | Some (zone, records) =>
            match List.find (fun r => negb (pointsAtTunnel cfg r)) records with
            | Some r =>
                refuse HostnameConflict ("an existing " +:+ d_Type r +:+ " record for " +:+ host +:+ " points at " +:+ d_Content r)
            | None =>
                let rs := insertBeforeCatchAll (Ingress tcfg) (NewIngressRule host service) in
                must _ := api (call (PutTunnelConfig (mkTunnelConfig rs (cfields tcfg)))) in
                if negb (bool_decide (records = [])) then mret (inl tt)
                else
                  r ← call (CreateDNSRecord (z_ID zone) (tunnel_record host));
                  match r with
                  | Got _ => mret (inl tt)
                  | Lost _ err =>
                      e ← removeIngress host;
                      give_err (default err (join_opt (Some err) e))
                  end
            end
        end
  end.

Definition AddHostname (host service : string) : M (unit + hostname_error) :=
  match accessHostname "" host with
  | Fail err => refuse HostnameInvalid (errText err)
  | Ok host =>
      match checkDirectService service with
      | inr e => mret (inr e)
      | inl service => must _ := lockForChange in add_hostname host service
      end
  end.

Definition forgetOwnership (host : string) : M (unit + hostname_error) :=
  o ← read_own;
  match o with
  | None => mret (inl tt)
  | Some st =>
      match Routes st !! host with
      | None => mret (inl tt)
      | Some owned =>
          must _ := (if negb (bool_decide (r_Access owned = "")) && negb (bool_decide (AccessAppID cfg = "")) then
                  must app := api (call (GetAccessApp (AccessAppID cfg))) in
                  let '(app', gone) := accessRemoveHost app host in
                  if bool_decide (accessFingerprint app host = r_Access owned) && gone
                  then api (call (PutAccessApp (AccessAppID cfg) app')) else mret (inl tt)
                else mret (inl tt)) in
          let st' := with_routes (delete host (Routes st)) st in
          _ ← write_own (Some st');
          r ← save st';
          match r with
          | None => mret (inl tt)
          | Some err => _ ← write_own (Some st); give_err err
          end
      end
  end.

Fixpoint delete_records (zone : string) (l : list DNSRecord) : M (unit + hostname_error) :=
  match l with
  | [] => mret (inl tt)
  | r :: l' => must _ := api (call (DeleteDNSRecord zone (d_ID r))) in delete_records zone l'
  end.

Definition remove_hostname (host : string) : M (unit + hostname_error) :=
  must _ := checkUnclaimed host in
  must tcfg := api (call GetTunnelConfig) in
  let '(kept, routed) := withoutHost (Ingress tcfg) host in
  must found := host_records host in
  let '(zone, records) := match found with
    | Some (zone, records) => (z_ID zone, List.filter (pointsAtTunnel cfg) records)
    | None => ("", []) end in
  if negb routed && bool_decide (records = []) then refuse HostnameNotFound (host +:+ " is not on this tunnel")
  else
    must _ := (if (routed : bool) then api (call (PutTunnelConfig (mkTunnelConfig kept (cfields tcfg)))) else mret (inl tt)) in
    must _ := delete_records zone records in
    forgetOwnership host.

Definition RemoveHostname (host : string) : M (unit + hostname_error) :=
  match accessHostname "" host with
  | Fail err => refuse HostnameInvalid (errText err)
  | Ok host => must _ := lockForChange in remove_hostname host
  end.
End Publisher.
End CloudflareSync.
