(* ===== verification/CloudflareSafety.v ===== *)
(** * What a publisher changes in Cloudflare

    Whatever Cloudflare, the data store and other writers answer, the calls of a publisher
    touch only what it created: the record of ownership holds fingerprints and ids of
    things that the publisher was told it created, and deletions and replaced rules are
    checked against it. *)
From S2P Require Import Prelude GoIO GoStrings GoNet Token Calls Cloudflare CloudflarePlan CloudflareSync.
Import Calls Cloudflare CloudflarePlan CloudflareSync.

Module CloudflareSafety.
(** ** Methods and their calls *)
Abbreviation event := (Calls.event answer).
Abbreviation ev := (@Calls.ev req answer).

Section Wp.
Context (Q : list event -> req -> Prop).

(** A method started with ownership [o]. *)
Definition wp {A} (m : M A) (R : list event -> A -> ownership -> Prop) (o : ownership) (E : list event) : Prop :=
  obeys Q (fun E x => R E x.1 x.2) (m o) E.

Lemma wp_bind {A B} (m : M A) (f : A -> M B) R o E :
  wp m (fun E a o => wp (f a) R o E) o E -> wp (m ≫= f) R o E.
Proof. apply (prog_obeys_bind _ _ (fun x => f x.1 x.2)). Qed.

Lemma wp_ret {A} (a : A) (R : list event -> A -> ownership -> Prop) o E : R E a o -> wp (mret a) R o E.
Proof. done. Qed.

Lemma wp_call r (R : list event -> answer r -> ownership -> Prop) o E :
  Q E r -> (forall x, R (E ++ [ev r x]) x o) -> wp (call r) R o E.
Proof. intros HQ HR. split; [done|]. intros x. apply HR. Qed.

Lemma wp_weaken {A} (m : M A) (R R' : list event -> A -> ownership -> Prop) o E :
  (forall E a o, R E a o -> R' E a o) -> wp m R o E -> wp m R' o E.
Proof. intros HR. apply prog_obeys_weaken. auto. Qed.

End Wp.

Section Publisher.
Context `{lower : UnicodeLower} `{url : UrlParse} `{raw : RawJSON} `{fold : UnicodeFold} `{sha : Sha256}
  `{rule_text : Canonical IngressRule} `{dns_text : Canonical DNSRecord} `{json_text : Canonical json}.
Context (cfg : Config) (st0 : ownershipState).

(** ** What was created *)

(** A record of the host with this fingerprint: recorded when the publisher was opened, or
    returned by a call that created it. *)
Definition owned_dns (E : list event) (h f : string) : Prop :=
  f ∈ r_DNS (route h st0) \/
  exists zone r created, ev (CreateDNSRecord zone r) (Got created) ∈ E /\ d_Name r = h /\ f = resourceFingerprint created.

(** A rule of the host: recorded when the publisher was opened, or read after a call that
    added a route of the host to the origin. *)
Definition owned_rule (E : list event) (h f : string) : Prop :=
  f = r_Ingress (route h st0) \/
  exists E1 c E2 tcfg r, E = E1 ++ ev (PutTunnelConfig c) (Got tt) :: E2 /\ NewIngressRule h (Origin cfg) ∈ Ingress c /\
    ev GetTunnelConfig (Got tcfg) ∈ E2 /\ r ∈ Ingress tcfg /\ rule_host r = h /\ f = resourceFingerprint r.

Definition owned_app (E : list event) (h id : string) : Prop :=
  id = AppID (ownedApp h (Some st0)) \/
  exists pid policy created, ev (CreateAccessApp (mergeAccessApp None h pid policy)) (Got created) ∈ E /\ id = accessObjectID created.

Definition owned_policy (E : list event) (h id : string) : Prop :=
  id = PolicyID (ownedApp h (Some st0)) \/
  exists policy created, ev (CreateAccessPolicy (mergeAccessPolicy None h policy)) (Got created) ∈ E /\ id = accessObjectID created.

(** Everything in the record of ownership was created. *)
Definition route_ok (E : list event) (h : string) (r : ownedRoute) : Prop :=
  (forall f, f ∈ r_DNS r -> owned_dns E h f) /\
  (r_Ingress r <> "" -> owned_rule E h (r_Ingress r)) /\
  (forall a, r_App r = Some a -> (AppID a <> "" -> owned_app E h (AppID a)) /\ (PolicyID a <> "" -> owned_policy E h (PolicyID a))).

Definition Inv (E : list event) (o : ownership) : Prop :=
  exists st, o = Some st /\ forall h, route_ok E h (route h st).

Lemma owned_rule_mono E E' h f : E `prefix_of` E' -> owned_rule E h f -> owned_rule E' h f.
Proof.
  intros [k ->] [H|(E1&c&E2&tcfg&r&->&?&?&?&?&?)]; [by left|]. right. exists E1, c, (E2 ++ k), tcfg, r.
  rewrite <- app_assoc. split_and!; try done. apply elem_of_app. by left.
Qed.

Lemma route_ok_mono E E' h r : E `prefix_of` E' -> route_ok E h r -> route_ok E' h r.
Proof.
  intros HE (Hd&Hi&Ha). split_and!.
  - intros f Hf. destruct (Hd f Hf) as [?|(zone&rec&cr&?&?)]; [by left|]. right. exists zone, rec, cr. eauto using elem_of_prefix.
  - intros Hn. eauto using owned_rule_mono.
  - intros a Hra. destruct (Ha a Hra) as [H1 H2]. split.
    + intros Hn. destruct (H1 Hn) as [?|(?&?&?&?&?)]; [by left|]. right. do 3 eexists. eauto using elem_of_prefix.
    + intros Hn. destruct (H2 Hn) as [?|(?&?&?&?)]; [by left|]. right. do 2 eexists. eauto using elem_of_prefix.
Qed.

Lemma Inv_mono E E' o : E `prefix_of` E' -> Inv E o -> Inv E' o.
Proof. intros HE (st&->&H). exists st. split; [done|]. intros h. eauto using route_ok_mono. Qed.

Lemma route_update host f st h : route h (update host f st) = if decide (h = host) then f (route host st) else route h st.
Proof.
  unfold update. destruct (route_empty (f (route host st))) eqn:Ee; unfold route at 1; cbn [Routes with_routes];
    destruct (decide (h = host)) as [->|Hne].
  - rewrite lookup_delete_eq. unfold route_empty in Ee. apply bool_decide_eq_true in Ee. by rewrite Ee.
  - by rewrite lookup_delete_ne by done.
  - by rewrite lookup_insert_eq.
  - by rewrite lookup_insert_ne by done.
Qed.

(** An update of a route that keeps it so. *)
Lemma Inv_update E st host f :
  Inv E (Some st) -> (route_ok E host (route host st) -> route_ok E host (f (route host st))) -> Inv E (Some (update host f st)).
Proof.
  intros (st'&[= <-]&H) Hf. eexists. split; [done|]. intros h. rewrite route_update.
  destruct (decide (h = host)) as [->|]; auto.
Qed.

(** ** The calls of a synchronisation *)

(** The hostnames to publish by the answer of the data store. *)
Definition wanted_hosts (eps : list (option Endpoint)) : list string :=
  map h_Host (split_public (connectionHosts (ConnectionID cfg) (OrgID cfg) eps)).1.

Definition desired_by (E : list event) (eps : list (option Endpoint)) : Prop :=
  ev (ListEndpointsByOrg (OrgID cfg)) (Ok eps) ∈ E.

(** No other connection of an organization claims the host. *)
Definition unclaimed (E : list event) (h : string) : Prop :=
  exists orgs, ev ListOrgs (Ok orgs) ∈ E /\
    forall id, Some id ∈ orgs -> exists eps, ev (ListEndpointsByOrg id) (Ok eps) ∈ E /\
      foldl (endpoint_claims cfg id) ∅ eps !! h = None.

(** The host has no rule to the origin, and its last rule, if any, names no service. *)
Definition no_route (body : list IngressRule) (h : string) : Prop :=
  (forall r, r ∈ body -> rule_host r = h -> normalizeService (Service_ r) <> normalizeService (Origin cfg)) /\
  (forall r, last (List.filter (fun r => bool_decide (rule_host r = h)) body) = Some r -> Service_ r = "").

(** Nobody wants the host: no endpoint of this connection, no other connection. *)
Definition unwanted (E : list event) (h : string) : Prop :=
  unclaimed E h /\ exists eps, desired_by E eps /\ h ∉ wanted_hosts eps.

(** A configuration differs from the one that was read by rules that were dropped and
    rules that were added. *)
Definition put_ok (E : list event) (c : TunnelConfig) : Prop :=
  exists tcfg eps, ev GetTunnelConfig (Got tcfg) ∈ E /\ desired_by E eps /\ cfields c = cfields tcfg /\
  exists drop hs tail, let '(body, catchAll) := split_catch_all (Ingress tcfg) in
    Ingress c = List.filter (fun r => negb (drop r)) body ++ map (fun h => NewIngressRule h (Origin cfg)) hs ++ tail /\
    tail = [default (NewIngressRule "" catchAllService) catchAll] /\
    (forall r, r ∈ body -> drop r = true ->
      unwanted E (rule_host r) /\ Path_ r = "" /\ owned_rule E (rule_host r) (resourceFingerprint r)) /\
    (forall h, h ∈ hs -> h ∈ wanted_hosts eps /\ no_route body h).

Definition sync_call (E : list event) (r : req) : Prop :=
  match r with
  | DeleteDNSRecord zone id =>
      exists h recs rec, ev (ListDNSRecords zone h) (Got recs) ∈ E /\ rec ∈ recs /\ d_ID rec = id /\
        pointsAtTunnel cfg rec = true /\ owned_dns E h (resourceFingerprint rec) /\ unwanted E h
  | CreateDNSRecord zone rec =>
      exists h eps, rec = tunnel_record cfg h /\ ev (ListDNSRecords zone h) (Got []) ∈ E /\ desired_by E eps /\ h ∈ wanted_hosts eps
  | PutTunnelConfig c => put_ok E c
  | PutAccessApp id _ => id = AccessAppID cfg \/ exists h, owned_app E h id
  | DeleteAccessApp id => exists h, owned_app E h id
  | PutAccessPolicy id _ | DeleteAccessPolicy id => exists h, owned_policy E h id
  | UpdateConnectionState st => Inv E (Some st)
  | _ => True
  end.

(** ** Methods that keep the invariant *)

(** From log [E] on, the calls of the method are permitted, what it records was created,
    and [R] holds of the log and the result. *)
Definition spec_of (Q : list event -> req -> Prop) {A} (E : list event) (m : M A) (R : list event -> A -> Prop) : Prop :=
  forall o, Inv E o -> wp Q m (fun E' a o' => Inv E' o' /\ E `prefix_of` E' /\ R E' a) o E.

Lemma spec_ret {Q} {A} E (a : A) (R : list event -> A -> Prop) : R E a -> spec_of Q E (mret a) R.
Proof. intros HR o Ho. by apply wp_ret. Qed.

Lemma spec_bind {Q} {A B} E (m : M A) (f : A -> M B) R R' :
  spec_of Q E m R' -> (forall E' a, E `prefix_of` E' -> R' E' a -> spec_of Q E' (f a) R) -> spec_of Q E (m ≫= f) R.
Proof.
  intros Hm Hf o Ho. apply wp_bind. eapply wp_weaken, Hm; [|done]. intros E1 a o1 (Ho1&HE1&HR1).
  eapply wp_weaken, (Hf E1 a HE1 HR1 o1 Ho1). intros E2 b o2 (?&?&?). split_and!; [done|by etrans|done].
Qed.

Lemma spec_weaken {Q} {A} E (m : M A) (R R' : list event -> A -> Prop) :
  (forall E' a, E `prefix_of` E' -> R E' a -> R' E' a) -> spec_of Q E m R -> spec_of Q E m R'.
Proof. intros HR Hm o Ho. eapply wp_weaken, Hm; [|done]. intros E1 a o1 (?&?&?). auto. Qed.

Lemma spec_call {Q} E r : Q E r -> spec_of Q E (call r) (fun E' x => ev r x ∈ E').
Proof.
  intros HQ o Ho. apply wp_call; [done|]. intros x. assert (Hp : E `prefix_of` E ++ [ev r x]) by by exists [ev r x].
  split_and!; [by eapply Inv_mono|done|]. apply elem_of_app. right. left.
Qed.

Lemma spec_call_bind_log {Q} {B} E r (f : answer r -> M B) R :
  Q E r -> (forall x, spec_of Q (E ++ [ev r x]) (f x) R) -> spec_of Q E (call r ≫= f) R.
Proof.
  intros HQ Hf o Ho. apply wp_bind, wp_call; [done|]. intros x. assert (Hp : E `prefix_of` E ++ [ev r x]) by by exists [ev r x].
  eapply wp_weaken, (Hf x o); [|by eapply Inv_mono]. intros E2 b o2 (?&?&?). split_and!; [done|by etrans|done].
Qed.

Lemma spec_call_bind {Q} {B} E r (f : answer r -> M B) R :
  Q E r -> (forall E' x, E `prefix_of` E' -> ev r x ∈ E' -> spec_of Q E' (f x) R) -> spec_of Q E (call r ≫= f) R.
Proof. intros HQ Hf. eapply spec_bind; [by apply spec_call|]. auto. Qed.

Lemma spec_read {Q} E : spec_of Q E read_own Inv.
Proof. intros o Ho. unfold wp, read_own. cbn. auto. Qed.

Lemma spec_write {Q} E o' : Inv E o' -> spec_of Q E (write_own o') (fun _ _ => True).
Proof. intros Ho' o Ho. unfold wp, write_own. cbn. auto. Qed.

Lemma spec_modify {Q} E f :
  (forall st, Inv E (Some st) -> Inv E (Some (f st))) -> spec_of Q E (modify f) (fun _ _ => True).
Proof. intros Hf o Ho. unfold wp, modify. cbn. destruct Ho as (st&->&Hst). cbn. split_and!; [|done..]. apply Hf. by exists st. Qed.

Lemma spec_panic {Q} {A} E t R : spec_of Q E (@panic A t) R.
Proof. by intros o Ho. Qed.

Lemma spec_each {Q} {A B} (f : A -> M B) (P : A -> list event -> B -> Prop) l E :
  (forall x E', x ∈ l -> E `prefix_of` E' -> spec_of Q E' (f x) (P x)) ->
  (forall x E E' b, E `prefix_of` E' -> P x E b -> P x E' b) ->
  spec_of Q E (each f l) (fun E' bs => Forall2 (fun x b => P x E' b) l bs).
Proof.
  intros Hf HP. revert E Hf. induction l as [|x l IH]; intros E Hf; cbn [each]; [by apply spec_ret|].
  eapply spec_bind; [apply Hf; [left|done]|]. intros E1 b HE1 Hb.
  eapply spec_bind; [apply IH; intros; apply Hf; [by right|by etrans]|]. intros E2 bs HE2 Hbs. apply spec_ret. eauto.
Qed.

Lemma spec_fold {Q} {A S} (f : S -> A -> M S) (P : list event -> S -> Prop) l s E :
  (forall s x E', x ∈ l -> E `prefix_of` E' -> P E' s -> spec_of Q E' (f s x) P) -> P E s -> spec_of Q E (fold_each f s l) P.
Proof.
  revert E s. induction l as [|x l IH]; intros E s Hf Hs; cbn [fold_each]; [by apply spec_ret|].
  eapply spec_bind; [apply Hf; [left|done..]|]. intros E1 s1 HE1 Hs1. apply IH; [|done].
  intros. apply Hf; [by right|by etrans|done].
Qed.

Abbreviation spec := (spec_of sync_call).

(** A method that says nothing about its result. *)
Definition keeps {A} (m : M A) : Prop := forall E, spec E m (fun _ _ => True).

Lemma keeps_spec {A} E (m : M A) : keeps m -> spec E m (fun _ _ => True).
Proof. auto. Qed.

Lemma keeps_bind {A B} (m : M A) (f : A -> M B) : keeps m -> (forall a, keeps (f a)) -> keeps (m ≫= f).
Proof. intros Hm Hf E. eapply spec_bind; [apply Hm|]. intros E1 a _ _. apply Hf. Qed.

Lemma keeps_ret {A} (a : A) : keeps (mret a).
Proof. intros E. by apply spec_ret. Qed.

Lemma keeps_call r : (forall E, sync_call E r) -> keeps (call r).
Proof. intros H E. eapply spec_weaken, spec_call, H. done. Qed.

(** *** Claims *)
Lemma insert_None {V} (m : gmap string V) k v h : <[k := v]> m !! h = None <-> k <> h /\ m !! h = None.
Proof. rewrite lookup_insert_None. tauto. Qed.

Lemma foldl_None {X V} (f : gmap string V -> X -> gmap string V) (P : X -> string -> Prop) l m h :
  (forall m x, f m x !! h = None <-> m !! h = None /\ P x h) ->
  foldl f m l !! h = None <-> m !! h = None /\ Forall (fun x => P x h) l.
Proof.
  intros Hf. revert m. induction l as [|x l IH]; intros m; cbn [foldl]; [by rewrite Forall_nil; tauto|].
  rewrite IH, Hf, Forall_cons. tauto.
Qed.

Definition not_claimed (id : string) (e : option Endpoint) (h : string) : Prop := endpoint_claims cfg id ∅ e !! h = None.

Lemma endpoint_claims_None id m e h : endpoint_claims cfg id m e !! h = None <-> m !! h = None /\ not_claimed id e h.
Proof.
  unfold not_claimed, endpoint_claims. destruct e as [e|]; [|by rewrite lookup_empty; tauto].
  destruct (e_Policy e) as [p|]; [|by rewrite lookup_empty; tauto].
  destruct (negb _); [by rewrite lookup_empty; tauto|].
  set (f := fun claims ref => _). set (P := fun ref h => f ∅ ref !! h = None).
  assert (Hf : forall m x, f m x !! h = None <-> m !! h = None /\ P x h).
  { intros m' x. unfold P, f. destruct (_ && _); [by rewrite lookup_empty; tauto|]. destruct (bool_decide (_ = "")).
    - rewrite lookup_empty. tauto.
    - rewrite !insert_None, lookup_empty. tauto. }
  rewrite !(foldl_None f P) by done. rewrite lookup_empty. tauto.
Qed.

Lemma claims_None id m eps h :
  foldl (endpoint_claims cfg id) m eps !! h = None <-> m !! h = None /\ foldl (endpoint_claims cfg id) ∅ eps !! h = None.
Proof.
  rewrite !(foldl_None _ (not_claimed id)) by (intros; apply endpoint_claims_None). rewrite lookup_empty. tauto.
Qed.

(** What the claims collected so far say. *)
Definition covers (E : list event) (orgs : list (option string)) (claims : gmap string string) : Prop :=
  forall id, Some id ∈ orgs -> exists eps, ev (ListEndpointsByOrg id) (Ok eps) ∈ E /\
    forall h, claims !! h = None -> foldl (endpoint_claims cfg id) ∅ eps !! h = None.

Definition claims_ok (E : list event) (r : res (gmap string string)) : Prop :=
  match r with Ok claims => forall h, claims !! h = None -> unclaimed E h | Fail _ => True end.

Lemma unclaimed_mono E E' h : E `prefix_of` E' -> unclaimed E h -> unclaimed E' h.
Proof.
  intros HE (orgs&Ho&H). exists orgs. split; [by eapply elem_of_prefix|]. intros id Hid. destruct (H id Hid) as (eps&?&?).
  eauto using elem_of_prefix.
Qed.

(** Calls that change nothing. *)
Definition reads (Q : list event -> req -> Prop) : Prop :=
  forall E r, match r with
    | PutTunnelConfig _ | CreateDNSRecord _ _ | DeleteDNSRecord _ _ | CreateAccessApp _ | PutAccessApp _ _ | DeleteAccessApp _
    | CreateAccessPolicy _ | PutAccessPolicy _ _ | DeleteAccessPolicy _ | UpdateConnectionState _ => True
    | _ => Q E r
    end.

Lemma sync_reads : reads sync_call.
Proof. intros E r. by destruct r. Qed.

Lemma foreignClaims_spec Q E : reads Q -> spec_of Q E (foreignClaims cfg) claims_ok.
Proof.
  intros HQ. unfold foreignClaims. apply (spec_call_bind E ListOrgs); [exact (HQ E ListOrgs)|]. intros E1 [orgs|err] HE1 Ho; [|by apply spec_ret].
  assert (Hgen : forall todo done claims E, ev ListOrgs (Ok orgs) ∈ E -> orgs = done ++ todo -> covers E done claims ->
    spec_of Q E (fold_each (fun (claims : res (gmap string string)) org =>
        match claims, org with
        | Ok claims, Some id =>
            r ← call (ListEndpointsByOrg id);
            mret (match r with Fail _ => Fail errClaims | Ok endpoints => Ok (foldl (endpoint_claims cfg id) claims endpoints) end)
        | _, _ => mret claims
        end) (Ok claims) todo) claims_ok).
  { clear E E1 HE1 Ho. induction todo as [|org todo IH]; intros done claims E Hev Horgs Hcov; cbn [fold_each].
    - apply spec_ret. intros h Hh. exists orgs. split; [done|]. rewrite app_nil_r in Horgs. subst. intros id Hid.
      destruct (Hcov id Hid) as (eps&?&?). eauto.
    - destruct org as [id|].
      2: { eapply spec_bind; [by apply (spec_ret _ _ (fun E' r => E' = E /\ r = Ok claims))|]. intros E1 r _ [-> ->].
           apply (IH (done ++ [None])); [done|by rewrite <- app_assoc|].
           intros id [Hid|Hid%list_elem_of_singleton]%elem_of_app; [by apply Hcov|done]. }
      eapply spec_bind.
      { apply (spec_call_bind E (ListEndpointsByOrg id)); [exact (HQ E (ListEndpointsByOrg id))|]. intros E1 r HE1 Hr.
        apply (spec_ret _ _ (fun E' x => E `prefix_of` E' /\ match x with
          | Fail _ => True | Ok c => exists eps, ev (ListEndpointsByOrg id) (Ok eps) ∈ E' /\ c = foldl (endpoint_claims cfg id) claims eps end)).
        split; [done|]. destruct r; eauto. }
      intros E1 r _ [HE1 Hr]. destruct r as [c|err].
      2: { clear. revert E1. induction todo as [|o todo IHt]; intros E1; cbn [fold_each]; [by apply spec_ret|].
           eapply spec_bind; [by apply (spec_ret _ _ (fun E' r => r = Fail err))|]. intros E2 r _ ->. apply IHt. }
      destruct Hr as (eps&Heps&->). apply (IH (done ++ [Some id])); [by eapply elem_of_prefix|by rewrite <- app_assoc|].
      intros id' [Hid|Hid%list_elem_of_singleton]%elem_of_app.
      + destruct (Hcov id' Hid) as (eps'&?&H). exists eps'. split; [by eapply elem_of_prefix|]. intros h [Hh _]%claims_None. auto.
      + simplify_eq. exists eps. split; [done|]. by intros h [_ ?]%claims_None. }
  apply (Hgen orgs [] ∅); [done..|]. by intros id ?%not_elem_of_nil.
Qed.

(** *** Access applications and policies *)
Definition record_ok (E : list event) (h : string) (a : ownedAccessApp) : Prop :=
  (AppID a <> "" -> owned_app E h (AppID a)) /\ (PolicyID a <> "" -> owned_policy E h (PolicyID a)).

Lemma record_ok_mono E E' h a : E `prefix_of` E' -> record_ok E h a -> record_ok E' h a.
Proof.
  intros HE [H1 H2]. split.
  - intros Hn. destruct (H1 Hn) as [?|(?&?&?&?&?)]; [by left|]. right. do 3 eexists. eauto using elem_of_prefix.
  - intros Hn. destruct (H2 Hn) as [?|(?&?&?&?)]; [by left|]. right. do 2 eexists. eauto using elem_of_prefix.
Qed.

Lemma Inv_record E o h : Inv E o -> record_ok E h (ownedApp h o).
Proof.
  intros (st&->&H). destruct (H h) as (_&_&Ha). unfold ownedApp. destruct (r_App (route h st)) as [a|]; [by apply Ha|].
  by split.
Qed.

Lemma storeOwnedApp_spec E h a : record_ok E h a -> spec E (storeOwnedApp h a) (fun _ _ => True).
Proof.
  intros Ha. apply spec_modify. intros st Hst. apply Inv_update; [done|]. intros (Hd&Hi&_). split_and!; [done..|].
  cbn [set_app r_App]. intros a' Ha'. case_bool_decide; simplify_eq. exact Ha.
Qed.

Lemma accessObjectID_app E h pid policy created :
  ev (CreateAccessApp (mergeAccessApp None h pid policy)) (Got created) ∈ E -> owned_app E h (accessObjectID created).
Proof. intros H. right. by exists pid, policy, created. Qed.

Lemma accessObjectID_policy E h policy created :
  ev (CreateAccessPolicy (mergeAccessPolicy None h policy)) (Got created) ∈ E -> owned_policy E h (accessObjectID created).
Proof. intros H. right. by exists policy, created. Qed.

Definition ensured (h : string) (E : list event) (r : (ownedAccessApp * bool) + (ownedAccessApp * goerr)) : Prop :=
  match r with inl (a, _) | inr (a, _) => record_ok E h a end.

Lemma ensure_policy_spec E h policy a :
  record_ok E h a -> spec E (ensure_policy h policy a) (ensured h).
Proof.
  intros Ha. unfold ensure_policy.
  eapply (spec_bind _ _ _ _ (fun E' x => match x with
    | inl (a', _, _) => record_ok E' h a'
    | inr (a', _) => record_ok E' h a' end)).
  { case_bool_decide; [by apply spec_ret|]. apply (spec_call_bind _ (GetAccessPolicy (PolicyID a))); [done|].
    intros E1 r HE1 _. apply spec_ret. destruct r as [cur|status err]; [by eapply record_ok_mono|].
    destruct (isNotFound status); eapply record_ok_mono; try done. split; [apply Ha|done]. }
  intros E1 [[[a1 drift] obs]|[a1 err]] HE1 Ha1; [|by apply spec_ret]. case_bool_decide as Hid.
  - apply (spec_call_bind _ (CreateAccessPolicy (mergeAccessPolicy None h policy))); [done|]. intros E2 r HE2 Hev.
    destruct r as [created|status err]; [|by apply spec_ret; eapply record_ok_mono].
    assert (Hok : record_ok E2 h (with_policy (accessObjectID created) (Policy a1) a1)).
    { destruct (record_ok_mono _ _ _ _ HE2 Ha1) as [? _]. split; [done|]. intros _. cbn. by eapply accessObjectID_policy. }
    case_bool_decide; by apply spec_ret.
  - assert (Hout : forall E2 fp, E1 `prefix_of` E2 -> record_ok E2 h (with_policy (PolicyID a1) fp a1)).
    { intros E2 fp HE2. destruct (record_ok_mono _ _ _ _ HE2 Ha1) as [? ?]. by split. }
    case_bool_decide; [apply spec_ret; by apply Hout|].
    match goal with |- context [PutAccessPolicy ?i ?o] => apply (spec_call_bind _ (PutAccessPolicy i o)) end.
    { exists h. by apply Ha1. }
    intros E2 [u|status err] HE2 _; apply spec_ret; [by apply Hout|by eapply record_ok_mono].
Qed.

Lemma ensure_app_spec E h policy a drift :
  record_ok E h a -> spec E (ensure_app h policy a drift) (ensured h).
Proof.
  intros Ha. unfold ensure_app.
  eapply (spec_bind _ _ _ _ (fun E' x => match x with
    | inl (a', _, _) => record_ok E' h a'
    | inr (a', _) => record_ok E' h a' end)).
  { case_bool_decide; [by apply spec_ret|]. apply (spec_call_bind _ (GetAccessApp (AppID a))); [done|].
    intros E1 r HE1 _. apply spec_ret. destruct r as [cur|status err]; [by eapply record_ok_mono|].
    destruct (isNotFound status); eapply record_ok_mono; try done. split; [done|apply Ha]. }
  intros E1 [[[a1 drift1] obs]|[a1 err]] HE1 Ha1; [|by apply spec_ret]. case_bool_decide as Hid.
  - match goal with |- context [CreateAccessApp ?o] => apply (spec_call_bind _ (CreateAccessApp o)) end; [done|].
    intros E2 r HE2 Hev. destruct r as [created|status err]; [|by apply spec_ret; eapply record_ok_mono].
    assert (Hok : record_ok E2 h (with_app (accessObjectID created) (App a1) a1)).
    { destruct (record_ok_mono _ _ _ _ HE2 Ha1) as [_ ?]. split; [|done]. intros _. cbn. by eapply accessObjectID_app. }
    case_bool_decide; by apply spec_ret.
  - assert (Hout : forall E2 fp, E1 `prefix_of` E2 -> record_ok E2 h (with_app (AppID a1) fp a1)).
    { intros E2 fp HE2. destruct (record_ok_mono _ _ _ _ HE2 Ha1) as [? ?]. by split. }
    case_bool_decide; [apply spec_ret; by apply Hout|].
    match goal with |- context [PutAccessApp ?i ?o] => apply (spec_call_bind _ (PutAccessApp i o)) end.
    { right. exists h. by apply Ha1. }
    intros E2 [u|status err] HE2 _; apply spec_ret; [by apply Hout|by eapply record_ok_mono].
Qed.

Lemma ensureOwnAccess_keeps h policy : keeps (ensureOwnAccess h policy).
Proof.
  intros E. unfold ensureOwnAccess. eapply spec_bind; [apply spec_read|]. intros E1 o HE1 Ho.
  eapply spec_bind; [by apply ensure_policy_spec, Inv_record|]. intros E2 r HE2 Hr.
  assert (Hfail : forall E a err, record_ok E h a -> spec E (ensure_failed h a err) (fun _ _ => True)).
  { intros E' a err Ha. eapply spec_bind; [by apply storeOwnedApp_spec|]. intros. by apply spec_ret. }
  destruct r as [[a drift]|[a err]]; [|by apply Hfail]. eapply spec_bind; [by apply ensure_app_spec|].
  intros E3 [[a' drift']|[a' err']] HE3 Hr'; [|by apply Hfail].
  eapply spec_bind; [by apply storeOwnedApp_spec|]. intros. by apply spec_ret.
Qed.

Lemma reconcileOwnAccess_keeps hosts : keeps (reconcileOwnAccess hosts).
Proof.
  intros E. apply spec_fold; [|done]. intros [results errs] h E1 _ _ _. destruct (h_Policy h); [|by apply spec_ret].
  eapply spec_bind; [apply spec_read|]. intros E2 [st|] _ Ho; [|by apply spec_ret].
  eapply spec_bind; [apply ensureOwnAccess_keeps|]. intros E3 [? ?] _ _. by apply spec_ret.
Qed.

Lemma removeOwnAccess_keeps h : keeps (removeOwnAccess h).
Proof.
  intros E. unfold removeOwnAccess. eapply spec_bind; [apply spec_read|]. intros E1 o HE1 Ho.
  pose proof (Inv_record _ _ h Ho) as Ha. set (a := ownedApp h o) in *.
  eapply (spec_bind _ _ _ _ (fun E' x => match x with inl a' => record_ok E' h a' | inr _ => True end)).
  { case_bool_decide as Hid; [by apply spec_ret|]. apply (spec_call_bind _ (DeleteAccessApp (AppID a))).
    { exists h. by apply Ha. }
    intros E2 r HE2 _. assert (Hok : record_ok E2 h (with_app "" "" a)).
    { destruct (record_ok_mono _ _ _ _ HE2 Ha). by split. }
    assert (Hf : spec E2 (_ ← storeOwnedApp h (with_app "" "" a); mret (inl (with_app "" "" a)))
      (fun E' (x : ownedAccessApp + goerr) => match x with inl a' => record_ok E' h a' | inr _ => True end)).
    { eapply spec_bind; [by apply storeOwnedApp_spec|]. intros E3 u HE3 _. apply spec_ret. by eapply record_ok_mono. }
    destruct r as [u|status err]; [done|]. destruct (isNotFound status); [done|by apply spec_ret]. }
  intros E2 [a'|err] HE2 Ha'; [|by apply spec_ret]. case_bool_decide; [by apply spec_ret|].
  apply (spec_call_bind _ (DeleteAccessPolicy (PolicyID a'))).
  { exists h. by apply Ha'. }
  intros E3 r HE3 _. assert (Hf : spec E3 (_ ← storeOwnedApp h (with_policy "" "" a'); mret (@None goerr)) (fun _ _ => True)).
  { eapply spec_bind; [apply storeOwnedApp_spec|intros; by apply spec_ret].
    destruct (record_ok_mono _ _ _ _ HE3 Ha'). by split. }
  destruct r as [u|status err]; [done|]. destruct (isNotFound status); [done|by apply spec_ret].
Qed.

Lemma recordAccess_keeps entries app : keeps (recordAccess entries app).
Proof.
  intros E. apply spec_modify. intros st. revert st. induction entries as [|e entries IH]; intros st Hst; [done|].
  cbn [foldl]. apply IH, Inv_update; [done|]. intros (Hd&Hi&Ha). repeat case_match; by split_and!.
Qed.

Lemma reconcileAccess_keeps entries : keeps (reconcileAccess cfg entries).
Proof.
  intros E. unfold reconcileAccess. apply (spec_call_bind _ (GetAccessApp (AccessAppID cfg))); [done|].
  intros E1 [app|status err] _ _; [|by apply spec_ret]. eapply spec_bind; [apply spec_read|]. intros E2 o _ _.
  destruct (access_entries cfg o app entries) as [[app' l]|]; [|apply spec_panic].
  assert (Hrec : forall app E, spec E (_ ← recordAccess (map fst l) app; mret (map fst l, None)) (fun _ (_ : list hostEntry * option goerr) => True)).
  { intros a E'. eapply spec_bind; [apply recordAccess_keeps|]. intros. by apply spec_ret. }
  destruct (negb _); [done|]. apply (spec_call_bind _ (PutAccessApp (AccessAppID cfg) app')); [by left|].
  intros E3 [u|status err] _ _; [|by apply spec_ret]. destruct o; [|by apply spec_ret].
  apply (spec_call_bind _ (GetAccessApp (AccessAppID cfg))); [done|]. intros E4 [app2|status err] _ _; [done|by apply spec_ret].
Qed.

Lemma pruneOwnAccess_keeps entries own : keeps (pruneOwnAccess cfg entries own).
Proof.
  intros E. unfold pruneOwnAccess. eapply spec_bind; [apply spec_read|]. intros E1 [st|] _ _; [|by apply spec_ret].
  eapply (spec_bind _ _ _ _ (fun _ _ => True)); [|intros E2 [? ?] _ _; by apply spec_ret].
  apply spec_fold; [|done]. intros [es errs] h E2 _ _ _. unfold prune_host.
  destruct (list_find _ _) as [[i entry]|]; [|by apply spec_ret].
  match goal with |- spec _ (if ?x then _ else _) _ => destruct x end; [by apply spec_ret|].
  eapply spec_bind; [apply removeOwnAccess_keeps|]. intros. by apply spec_ret.
Qed.

(** *** DNS records *)
Definition listed (E : list event) (host : string) (l : dnsLookup) : Prop :=
  match l with Ok (zone, recs) => ev (ListDNSRecords (z_ID zone) host) (Got recs) ∈ E | Fail _ => True end.

Lemma listed_mono E E' host l : E `prefix_of` E' -> listed E host l -> listed E' host l.
Proof. destruct l as [[zone recs]|]; cbn; [|done]. apply elem_of_prefix. Qed.

Lemma find_zone_spec Q E cache host : reads Q -> spec_of Q E (find_zone cache host) (fun _ _ => True).
Proof.
  intros HQ. unfold find_zone. eapply (spec_bind _ _ _ _ (fun _ _ => True)); [|intros; by apply spec_ret].
  destruct cache; [by apply spec_ret|]. eapply spec_weaken, (spec_call _ ListZones); [done|exact (HQ E ListZones)].
Qed.

Lemma lookupDNS_spec E cache entries :
  spec E (lookupDNS cache entries) (fun E' ls => Forall2 (fun e l => listed E' (e_Host e) l) entries ls).
Proof.
  revert E cache. induction entries as [|e entries IH]; intros E cache; cbn [lookupDNS]; [by apply spec_ret|].
  eapply spec_bind; [apply find_zone_spec, sync_reads|]. intros E1 [z cache'] _ _.
  eapply (spec_bind _ _ _ _ (fun E' l => listed E' (e_Host e) l)).
  { destruct z as [zone|err]; [|by apply spec_ret]. apply (spec_call_bind _ (ListDNSRecords (z_ID zone) (e_Host e))); [done|].
    intros E2 [recs|status err] _ Hev; by apply spec_ret. }
  intros E2 l HE2 Hl. eapply spec_bind; [apply IH|]. intros E3 ls HE3 Hls. apply spec_ret. constructor; [by eapply listed_mono|done].
Qed.

Lemma delete_owned_spec E zone host recs ours preserved :
  ev (ListDNSRecords zone host) (Got recs) ∈ E -> Forall (fun r => r ∈ recs /\ pointsAtTunnel cfg r = true) ours -> unwanted E host ->
  spec E (delete_owned zone host ours preserved) (fun _ _ => True).
Proof.
  revert E preserved. induction ours as [|r ours IH]; intros E preserved Hev Hours Hun; cbn [delete_owned]; [by apply spec_ret|].
  apply Forall_cons in Hours as [[Hr Hp] Hours]. eapply spec_bind; [apply spec_read|]. intros E1 o HE1 Ho.
  assert (Hun1 : forall E', E `prefix_of` E' -> unwanted E' host).
  { intros E' HE'. destruct Hun as (?&eps&?&?). split; [by eapply unclaimed_mono|]. exists eps. split; [by eapply elem_of_prefix|done]. }
  assert (Hnext : forall E' p, E `prefix_of` E' -> spec E' (delete_owned zone host ours p) (fun _ _ => True)).
  { intros E' p HE'. apply IH; [by eapply elem_of_prefix|done|by apply Hun1]. }
  destruct Ho as (st&->&Hst). destruct (ownsDNS host r st) eqn:Eo; [|by apply Hnext].
  cbn [negb]. apply (spec_call_bind _ (DeleteDNSRecord zone (d_ID r))).
  { exists host, recs, r. split_and!; try done; [by eapply elem_of_prefix| |by apply Hun1].
    apply bool_decide_eq_true in Eo. by apply Hst. }
  intros E2 [u|status err] HE2 _; [|by apply spec_ret]. apply Hnext. by etrans.
Qed.

(** The endpoints want the host of an entry that is neither an orphan nor in conflict. *)
Definition entry_ok (E : list event) (plan : ingressPlan) (e : hostEntry) : Prop :=
  (orphan e = false -> conflict e = false -> exists eps, desired_by E eps /\ e_Host e ∈ wanted_hosts eps) /\
  (e_Host e ∈ removed plan -> unwanted E (e_Host e)).

Lemma entry_ok_mono E E' plan e : E `prefix_of` E' -> entry_ok E plan e -> entry_ok E' plan e.
Proof.
  intros HE [H1 H2]. split.
  - intros Ho Hc. destruct (H1 Ho Hc) as (eps&?&?). exists eps. split; [by eapply elem_of_prefix|done].
  - intros Hr. destruct (H2 Hr) as (?&eps&?&?). split; [by eapply unclaimed_mono|]. exists eps. split; [by eapply elem_of_prefix|done].
Qed.

Lemma reconcileDNS_spec E l e plan :
  listed E (e_Host e) l -> entry_ok E plan e -> spec E (reconcileDNS cfg l e plan) (fun _ _ => True).
Proof.
  intros Hl [Hw Hr]. unfold reconcileDNS. destruct l as [[zone recs]|err]; [|by apply spec_ret]. cbn [listed] in Hl.
  destruct (_ && negb (bool_decide (List.filter _ recs = []))) eqn:Ep.
  { apply andb_true_iff in Ep as [Ep _]. rewrite !andb_true_iff, bool_decide_eq_true in Ep. destruct Ep as [[_ Hrm] _].
    eapply spec_bind.
    { eapply delete_owned_spec; [exact Hl| |by apply Hr]. apply Forall_forall. intros r Hin.
      apply list_elem_of_In, filter_In in Hin as [Hin%list_elem_of_In ?]. done. }
    intros E1 [[]|err] _ _; try by apply spec_ret. eapply spec_bind; [|intros; by apply spec_ret].
    apply spec_modify. intros st Hst. apply Inv_update; [done|]. intros (_&Hi&Ha). split_and!; [by intros f ?%not_elem_of_nil|done..]. }
  destruct (negb (bool_decide (List.filter _ recs = []))).
  { eapply (spec_bind _ _ _ _ (fun _ _ => True)); [|intros; by apply spec_ret]. match goal with |- spec _ (if ?x then _ else _) _ => destruct x end; [by apply spec_modify|by apply spec_ret]. }
  destruct recs as [|first recs]; [|by apply spec_ret]. destruct (orphan e || conflict e) eqn:Eo; [by apply spec_ret|].
  apply orb_false_iff in Eo as [Eo Ec]. destruct (Hw Eo Ec) as (eps&Hd&Hin).
  apply (spec_call_bind _ (CreateDNSRecord (z_ID zone) (tunnel_record cfg (e_Host e)))).
  { exists (e_Host e), eps. done. }
  intros E1 [created|status err] HE1 Hev; [|by apply spec_ret]. eapply spec_bind; [|intros; by apply spec_ret].
  apply spec_modify. intros st Hst. apply Inv_update; [done|]. intros (_&Hi&Ha). split_and!; [|done..].
  intros f Hf%list_elem_of_singleton. right. exists (z_ID zone), (tunnel_record cfg (e_Host e)), created. done.
Qed.

(** *** The plan *)
Lemma protected_None st rs observed claims h :
  protect_with st rs observed claims !! h = None ->
  claims !! h = None /\ forall r, r ∈ rs -> rule_host r = h -> h <> "" -> foreign_rule st r = false.
Proof.
  unfold protect_with. set (f := fun m r => _).
  set (P := fun r h => rule_host r = h -> h <> "" -> foreign_rule st r = false).
  assert (Hf : forall m x, f m x !! h = None <-> m !! h = None /\ P x h).
  { intros m r. unfold f, P. case_bool_decide as Hh; [split; [|by intros [? _]]; intros; split; congruence|].
    destruct (foreign_rule st r); [|tauto]. rewrite insert_None. split; [intros [? ?]; split; congruence|].
    intros [? Hp]. split; [|done]. intros <-. by specialize (Hp eq_refl Hh). }
  rewrite (foldl_None f P) by done. rewrite Forall_forall. intros [Hc HP]. split; [|intros r Hr; by apply HP].
  by apply lookup_union_None in Hc as [? _].
Qed.

Lemma foreign_rule_owned E st r : Inv E (Some st) -> foreign_rule st r = false ->
  Path_ r = "" /\ owned_rule E (rule_host r) (resourceFingerprint r).
Proof.
  intros (st'&[= <-]&Hst). unfold foreign_rule. destruct (Routes st !! rule_host r) as [owned|] eqn:Er; [|done].
  rewrite !orb_false_iff, !negb_false_iff, bool_decide_eq_false, !bool_decide_eq_true. intros [[Hn Hf] Hp]. split; [done|].
  destruct (Hst (rule_host r)) as (_&Hi&_). unfold route in Hi. rewrite Er in Hi. cbn in Hi. rewrite <- Hf. auto.
Qed.

Lemma routes_Some rs r : r ∈ rs -> rule_host r <> "" -> Path_ r = "" -> is_Some (ingressRoutes rs !! rule_host r).
Proof.
  intros Hr Hh Hp. apply not_eq_None_Some. intros Hn. unfold ingressRoutes in Hn. revert Hn. set (f := fun m r => _).
  set (P := fun r' h => ~ (rule_host r' = h /\ h <> "" /\ Path_ r' = "")).
  rewrite (foldl_None f P).
  - rewrite Forall_forall. intros [_ H]. by apply (H r).
  - intros m r'. unfold f, P. destruct (bool_decide (rule_host r' = "") || negb (bool_decide (Path_ r' = ""))) eqn:Eb.
    + apply orb_true_iff in Eb as [Eb|Eb]; [apply bool_decide_eq_true in Eb|apply negb_true_iff, bool_decide_eq_false in Eb];
        split; [|tauto| |tauto]; intros; split; [done|naive_solver congruence|done|naive_solver].
    + apply orb_false_iff in Eb as [Eb1 Eb2]. apply bool_decide_eq_false in Eb1. apply negb_false_iff, bool_decide_eq_true in Eb2.
      destruct (m !! rule_host r') eqn:Em.
      * split; [|tauto]. intros. split; [done|]. intros (He&_). congruence.
      * rewrite insert_None. split; [intros [? ?]; split; [done|]; tauto|]. intros [? H]. split; [|done]. intros He. apply H. naive_solver.
Qed.

Lemma first_hosts_nonempty seen l h : h ∈ first_hosts seen l -> h_Host h <> "".
Proof.
  revert seen. induction l as [|x l IH]; intros seen; cbn [first_hosts]; [by intros ?%not_elem_of_nil|].
  destruct (_ || _) eqn:Eb; [apply IH|]. apply orb_false_iff in Eb as [Eb _]. apply bool_decide_eq_false in Eb.
  intros [->|?]%elem_of_cons; [done|by eapply IH].
Qed.

Lemma wanted_nonempty eps h : h ∈ wanted_hosts eps -> h <> "".
Proof.
  unfold wanted_hosts. cbn [split_public fst]. intros (x&->&Hx)%list_elem_of_fmap.
  apply elem_of_sort_by in Hx. by eapply first_hosts_nonempty.
Qed.

Lemma body_sub rs r : r ∈ (split_catch_all rs).1 -> r ∈ rs.
Proof.
  unfold split_catch_all. destruct (last rs); [|done]. destruct (isCatchAll _); [|done]. cbn [fst]. intros H.
  rewrite <- (take_drop (length rs - 1) rs). apply elem_of_app. by left.
Qed.

(** What is known when the plan is made. *)
Record planning (E : list event) (tcfg : TunnelConfig) (eps : list (option Endpoint)) (active : list string)
    (protected : gmap string string) (st : ownershipState) : Prop := {
  pl_read : ev GetTunnelConfig (Got tcfg) ∈ E;
  pl_desired : desired_by E eps;
  pl_active : forall h, h ∈ active -> h ∈ wanted_hosts eps;
  pl_routed : forall h, h ∈ wanted_hosts eps -> is_Some (ingressRoutes (Ingress tcfg) !! h) -> h ∈ active;
  pl_claims : forall h, protected !! h = None -> unclaimed E h;
  pl_owned : forall h r, protected !! h = None -> r ∈ Ingress tcfg -> rule_host r = h -> h <> "" -> foreign_rule st r = false;
  pl_inv : Inv E (Some st)
}.

Section Planned.
Context E tcfg eps active protected st (Hpl : planning E tcfg eps active protected st).
Abbreviation body := (split_catch_all (Ingress tcfg)).1.
Abbreviation plan := (planIngress (Ingress tcfg) (Origin cfg) active protected (Prune cfg)).

Lemma dropped_ok r :
  r ∈ body -> pruned (normalizeService (Origin cfg)) active protected (Prune cfg) r = true ->
  unwanted E (rule_host r) /\ Path_ r = "" /\ owned_rule E (rule_host r) (resourceFingerprint r).
Proof.
  intros Hr%body_sub. unfold pruned. rewrite !andb_true_iff, !negb_true_iff, !bool_decide_eq_false.
  intros [[[[_ Hne] Hact] Hprot] _]. rewrite <- eq_None_not_Some in Hprot.
  destruct Hpl as [_ Hd _ Hrouted Hcl Hown Hinv]. pose proof (Hown _ r Hprot Hr eq_refl Hne) as Hf.
  destruct (foreign_rule_owned E st r Hinv Hf) as [Hp Ho]. split_and!; [|done..]. split; [by apply Hcl|]. exists eps.
  split; [done|]. intros Hw. apply Hact, Hrouted; [done|]. by apply routes_Some.
Qed.

Lemma added_ok h : h ∈ new_hosts (Ingress tcfg) (Origin cfg) active -> h ∈ wanted_hosts eps /\ no_route body h.
Proof.
  intros Hh. apply list_elem_of_In, filter_In in Hh as [Hin%list_elem_of_In Ha].
  assert (Hw : h ∈ wanted_hosts eps) by by apply Hpl. pose proof (wanted_nonempty _ _ Hw) as Hne. split; [done|].
  unfold to_add in Ha. apply andb_true_iff in Ha as [Ho Hs]. apply negb_true_iff, bool_decide_eq_false in Ho.
  apply bool_decide_eq_true in Hs. split.
  - intros r Hr Hrh Hk. apply Ho, elem_of_owned. split; [done|]. exists r. split_and!; try done. by apply bool_decide_eq_true.
  - intros r Hl. rewrite (foreign_last _ _ _ Hne Ho), Hl in Hs. done.
Qed.

Lemma planned_put : changed plan = true -> put_ok E (mkTunnelConfig (rules plan) (cfields tcfg)).
Proof.
  intros Hch. exists tcfg, eps. split_and!; [apply Hpl|apply Hpl|done|].
  destruct (planIngress_parts (Ingress tcfg) (Origin cfg) active protected (Prune cfg)) as (Hr&Hc&_). rewrite Hch in Hc.
  exists (pruned (normalizeService (Origin cfg)) active protected (Prune cfg)), (new_hosts (Ingress tcfg) (Origin cfg) active).
  pose proof dropped_ok as Hdrop. pose proof added_ok as Hadd. cbn [Ingress].
  assert (Hr' : rules plan = core_rules (Ingress tcfg) (Origin cfg) active protected (Prune cfg) ++
    [default (NewIngressRule "" catchAllService) (split_catch_all (Ingress tcfg)).2]).
  { rewrite Hr. f_equal. destruct (split_catch_all (Ingress tcfg)).2; [done|]. by rewrite <- Hc. }
  unfold core_rules, kept_rules in Hr'. destruct (split_catch_all (Ingress tcfg)) as [b c]. cbn [fst snd] in *.
  exists [default (NewIngressRule "" catchAllService) c]. split_and!; try done. by rewrite Hr', <- app_assoc.
Qed.

Lemma planned_removed h st' :
  h ∈ removed (includeResiduals cfg plan (ingressRoutes (Ingress tcfg)) (list_to_set (wanted_hosts eps)) protected st') -> unwanted E h.
Proof.
  destruct (planIngress_parts (Ingress tcfg) (Origin cfg) active protected (Prune cfg)) as (_&_&_&_&Hrm).
  assert (Hd : h ∈ removed plan -> unwanted E h).
  { rewrite Hrm, elem_of_list_to_set, list_elem_of_fmap. intros (r&->&Hr).
    apply list_elem_of_In, filter_In in Hr as [Hr%list_elem_of_In Hp]. by apply dropped_ok. }
  unfold includeResiduals. destruct (negb (Prune cfg)); [done|]. cbn [removed]. rewrite elem_of_union, elem_of_list_to_set.
  intros [Hin|?]; [|auto]. apply list_elem_of_omap in Hin as ([h' owned]&_&Hx). cbn [fst snd] in Hx.
  destruct (_ || _) eqn:Eb; [done|]. simplify_eq. rewrite !orb_false_iff, !bool_decide_eq_false in Eb.
  destruct Eb as [[[Hw Hp] _] _]. rewrite <- eq_None_not_Some in Hp. destruct Hpl. split; [auto|]. exists eps. split; [done|].
  by rewrite elem_of_list_to_set in Hw.
Qed.
End Planned.

(** *** The whole synchronisation *)
Definition outcome_ok (E : list event) (oc : ingressOutcome) : Prop :=
  (forall h, h ∈ removed (oc_plan oc) -> unwanted E h) /\
  (forall h, h ∈ added (oc_plan oc) -> putErr oc = None ->
    forall r, r ∈ observedRules oc -> rule_host r = h -> owned_rule E h (resourceFingerprint r)).

Lemma unwanted_mono E E' h : E `prefix_of` E' -> unwanted E h -> unwanted E' h.
Proof. intros HE (?&eps&?&?). split; [by eapply unclaimed_mono|]. exists eps. split; [by eapply elem_of_prefix|done]. Qed.

Lemma outcome_ok_mono E E' oc : E `prefix_of` E' -> outcome_ok E oc -> outcome_ok E' oc.
Proof. intros HE [H1 H2]. split; intros; eauto using unwanted_mono, owned_rule_mono. Qed.

Lemma residuals_keep plan routes wanted protected st :
  let q := includeResiduals cfg plan routes wanted protected st in
  rules q = rules plan /\ changed q = changed plan /\ added q = added plan.
Proof. unfold includeResiduals. by destruct (negb (Prune cfg)). Qed.

Lemma applyIngress_spec E tcfg eps active protected st :
  planning E tcfg eps (map h_Host active) protected st ->
  spec E (applyIngress cfg tcfg active protected (ingressRoutes (Ingress tcfg)) (list_to_set (wanted_hosts eps))) outcome_ok.
Proof.
  intros Hpl. unfold applyIngress. eapply (spec_bind _ _ _ _ (fun E' o => E' = E /\ Inv E o)).
  { intros o Ho. unfold wp, read_own. cbn. auto. }
  intros E0 o _ [-> (st'&->&_)]. set (plan0 := planIngress _ _ _ _ _).
  destruct (residuals_keep plan0 (ingressRoutes (Ingress tcfg)) (list_to_set (wanted_hosts eps)) protected st') as (Hr&Hc&Ha).
  set (plan := includeResiduals _ _ _ _ _ _) in *.
  assert (Hrem : forall E' h, E `prefix_of` E' -> h ∈ removed plan -> unwanted E' h).
  { intros E' h HE Hh. eapply unwanted_mono; [done|]. exact (planned_removed _ _ _ _ _ _ Hpl h st' Hh). }
  destruct (planIngress_parts (Ingress tcfg) (Origin cfg) (map h_Host active) protected (Prune cfg)) as (Hrules&Hch&Hadd&_).
  fold plan0 in Hrules, Hch, Hadd. rewrite Hc. destruct (changed plan0) eqn:Ec; cbn [negb].
  2: { apply spec_ret. split; [intros; by apply Hrem|]. cbn [oc_plan]. intros h Hh. rewrite Ha, Hadd, elem_of_list_to_set in Hh.
       assert (Hn : new_hosts (Ingress tcfg) (Origin cfg) (map h_Host active) = []); [|by rewrite Hn in Hh; apply not_elem_of_nil in Hh].
       assert (Hcc : core_changed (Ingress tcfg) (Origin cfg) (map h_Host active) protected (Prune cfg) = false).
       { destruct (split_catch_all (Ingress tcfg)).2; [done|]. by destruct (core_changed _ _ _ _ _); [rewrite orb_true_r in Hch|]. }
       apply orb_false_iff in Hcc as [_ Hcc]. by apply negb_false_iff, bool_decide_eq_true in Hcc. }
  rewrite Hr. set (c := mkTunnelConfig (rules plan0) (cfields tcfg)).
  assert (Hpre : forall k, E `prefix_of` E ++ k) by (intros k; by exists k).
  apply (spec_call_bind_log _ (PutTunnelConfig c)); [by eapply planned_put|].
  intros [[]|status err]; [|by apply spec_ret; split; [intros; by apply Hrem|]].
  apply (spec_call_bind_log _ GetTunnelConfig); [done|]. intros x. rewrite <- app_assoc. destruct x as [obs|status err]; apply spec_ret;
    (split; [intros; by apply Hrem|]); [|intros h _ _ r Hx; by apply not_elem_of_nil in Hx].
  cbn [oc_plan observedRules]. intros h Hh _ r Hin Hrh. right.
  exists E, c, [ev GetTunnelConfig (Got obs)], obs, r. split_and!; try done; [|by left].
  unfold c. cbn [Ingress]. rewrite Hrules. apply elem_of_app. left. unfold core_rules. apply elem_of_app. right.
  rewrite Ha, Hadd, elem_of_list_to_set in Hh. apply list_elem_of_fmap. by exists h.
Qed.

Lemma matching_rule_in origin host m rs r :
  matching_rule origin host m rs = Some r -> m = Some r \/ (r ∈ rs /\ rule_host r = host).
Proof.
  revert m. induction rs as [|x rs IH]; intros m; cbn [matching_rule]; [by left|].
  destruct (bool_decide_reflect (rule_host x = host)) as [Hx|Hx]; cbn [negb].
  - destruct (_ || _); [done|]. intros [[= <-]|[? ?]]%IH; right; (split; [|done]); [left|by right].
  - intros [?|[? ?]]%IH; [by left|]. right. split; [by right|done].
Qed.

Lemma describeAccess_host e : e_Host (describeAccess cfg e) = e_Host e.
Proof.
  unfold describeAccess. destruct (own e); case_bool_decide; try done. unfold e_Host, on_status, detail_if_empty. cbn [st].
  by case_bool_decide.
Qed.

Lemma activeEntry_spec E h own routes oc eps :
  outcome_ok E oc -> desired_by E eps -> h_Host h ∈ wanted_hosts eps ->
  spec E (activeEntry cfg h own routes oc) (fun E' e => entry_ok E' (oc_plan oc) e).
Proof.
  intros [Hrm Hobs] Hd Hw. unfold activeEntry.
  eapply (spec_bind _ _ _ _ (fun _ _ => True)).
  { match goal with |- spec _ (if ?x then _ else _) _ => destruct x end; [|by apply spec_ret]. apply spec_modify. intros st Hst.
    unfold recordIngress. destruct (bool_decide (h_Host h ∈ added (oc_plan oc))) eqn:Ea; [|done].
    destruct (bool_decide (putErr oc = None)) eqn:Ep; cbn [andb negb]; [|done]. apply bool_decide_eq_true in Ea, Ep.
    destruct (matching_rule _ _ _ _) as [r|] eqn:Em; [|done]. apply Inv_update; [done|]. intros (?&_&?). split_and!; [done| |done].
    intros _. cbn [set_ingress r_Ingress]. apply matching_rule_in in Em as [?|[? ?]]; [done|]. by eapply Hobs. }
  intros E1 u HE1 _. apply spec_ret.
  assert (Hh : forall e, e_Host e = h_Host h -> entry_ok E1 (oc_plan oc) e).
  { intros e He. unfold entry_ok. rewrite He. split; [|intros; eapply unwanted_mono; eauto].
    intros _ _. exists eps. split; [by eapply elem_of_prefix|done]. }
  apply Hh. rewrite describeAccess_host. case_bool_decide; [done|]. case_bool_decide; [by destruct (putErr oc)|done].
Qed.

Lemma orphanEntry_host h routes private oc : e_Host (orphanEntry h routes private oc) = h /\ orphan (orphanEntry h routes private oc) = true.
Proof. unfold orphanEntry, e_Host. destruct (private !! h); case_bool_decide; [destruct (putErr oc)| |destruct (putErr oc)|]; done. Qed.

Lemma buildEntries_spec E active own routes private oc eps :
  outcome_ok E oc -> desired_by E eps -> (forall h, h ∈ active -> h_Host h ∈ wanted_hosts eps) ->
  spec E (buildEntries cfg active own routes private oc) (fun E' es => Forall (entry_ok E' (oc_plan oc)) es).
Proof.
  intros Hoc Hd Hact. unfold buildEntries. eapply spec_bind.
  { apply (spec_each _ (fun _ E' e => entry_ok E' (oc_plan oc) e)); [|intros; by eapply entry_ok_mono].
    intros h E1 Hh HE1. apply (activeEntry_spec _ _ _ _ _ eps); [by eapply outcome_ok_mono|by eapply elem_of_prefix|by apply Hact]. }
  intros E1 es HE1 Hes. apply spec_ret. apply Forall_app. split.
  - clear -Hes. induction Hes; by constructor.
  - apply Forall_forall. intros e (h&->&Hh)%list_elem_of_fmap. destruct (orphanEntry_host h routes private oc) as [Hhost Ho].
    split; [by rewrite Ho|]. rewrite Hhost. intros Hrm. eapply unwanted_mono; [done|]. by apply Hoc.
Qed.

Lemma reconcileEntries_spec E entries plan own :
  Forall (entry_ok E plan) entries -> spec E (reconcileEntries cfg entries plan own) (fun _ _ => True).
Proof.
  intros Hes. unfold reconcileEntries. eapply spec_bind; [apply lookupDNS_spec|]. intros E1 ls HE1 Hls.
  eapply (spec_bind _ _ _ _ (fun _ _ => True)).
  { eapply spec_weaken; [|apply (spec_each _ (fun _ _ _ => True))]; [done| |done]. intros [l e] E2 Hx HE2. cbn [fst snd].
    assert (Hle : listed E1 (e_Host e) l /\ entry_ok E plan e).
    { clear -Hls Hx Hes. induction Hls as [|e' l' es ls Hl Hls IH]; [by apply not_elem_of_nil in Hx|].
      apply Forall_cons in Hes as [He Hes]. cbn [zip zip_with] in Hx. apply elem_of_cons in Hx as [[= -> ->]|Hx]; [done|auto]. }
    destruct Hle as [Hl He]. apply reconcileDNS_spec; [by eapply listed_mono|]. eapply entry_ok_mono, He. by etrans. }
  intros E2 es _ _. eapply (spec_bind _ _ _ _ (fun _ _ => True)).
  { case_bool_decide; [by apply spec_ret|]. eapply spec_bind; [apply reconcileAccess_keeps|]. intros E3 [? ?] _ _. by apply spec_ret. }
  intros E3 [es' errs] _ _. eapply spec_bind; [apply pruneOwnAccess_keeps|]. intros E4 [? ?] _ _. by apply spec_ret.
Qed.

Lemma collectStatus_keeps entries blocked routes private wanted : keeps (collectStatus cfg entries blocked routes private wanted).
Proof.
  intros E. unfold collectStatus. eapply (spec_bind _ _ _ _ (fun _ _ => True)); [|intros; by apply spec_ret].
  apply spec_modify. intros st. revert st. induction entries as [|e entries IH]; intros st Hst; [done|]. cbn [foldl]. apply IH.
  destruct (_ && _); [|done]. apply Inv_update; [done|]. intros (?&_&?). by split_and!.
Qed.

Lemma active_wanted hosts own routes h :
  h ∈ (splitBlocked hosts own routes).1 -> h ∈ hosts.
Proof. unfold splitBlocked. cbn [fst]. intros Hh. by apply list_elem_of_In, filter_In in Hh as [?%list_elem_of_In _]. Qed.

Lemma routed_active hosts own routes h :
  h ∈ map h_Host hosts -> is_Some (routes !! h) -> h ∈ map h_Host (splitBlocked hosts own routes).1.
Proof.
  intros (x&->&Hx)%list_elem_of_fmap Hr. apply list_elem_of_fmap. exists x. split; [done|]. unfold splitBlocked. cbn [fst].
  apply list_elem_of_In, filter_In. split; [by apply list_elem_of_In|]. destruct (own !! h_Host x) as [w|]; [|done].
  rewrite (bool_decide_false (routes !! h_Host x = None)); [by rewrite andb_false_r|]. by apply not_eq_None_Some.
Qed.

Lemma reconcile_with_spec E s eps private errs tcfg :
  desired_by E eps -> ev GetTunnelConfig (Got tcfg) ∈ E ->
  spec E (reconcile_with cfg s (split_public (connectionHosts (ConnectionID cfg) (OrgID cfg) eps)).1 private errs tcfg) (fun _ _ => True).
Proof.
  intros Hd Hget. unfold reconcile_with. set (hosts := (split_public _).1).
  assert (Hw : map h_Host hosts = wanted_hosts eps) by done. clearbody hosts.
  eapply spec_bind; [apply reconcileOwnAccess_keeps|]. intros E1 [own ownErrs] HE1 _.
  destruct (splitBlocked hosts own (ingressRoutes (Ingress tcfg))) as [active blocked] eqn:Esb.
  eapply spec_bind; [apply spec_read|]. intros E2 o HE2 Ho. destruct Ho as (st&->&Hst).
  eapply (spec_bind _ _ _ _ (fun E' r => match r with
    | Ok p => exists claims, claims_ok E' (Ok claims) /\ p = protect_with st (Ingress tcfg) private claims
    | Fail _ => True end)).
  { eapply spec_bind; [apply foreignClaims_spec, sync_reads|]. intros E3 [claims|err] HE3 Hcl; apply spec_ret; eauto. }
  intros E3 [protected|err] HE3 Hprot; [|by apply spec_ret]. destruct Hprot as (claims&Hcl&->).
  assert (HE : E `prefix_of` E3) by (etrans; [exact HE1|]; by etrans).
  assert (Hact : forall h, h ∈ active -> h_Host h ∈ wanted_hosts eps).
  { intros h Hh. rewrite <- Hw. apply list_elem_of_fmap. exists h. split; [done|].
    apply (active_wanted hosts own (ingressRoutes (Ingress tcfg))). by rewrite Esb. }
  rewrite Hw. eapply spec_bind.
  { eapply (applyIngress_spec _ _ eps _ _ st). split; try done.
    - by eapply elem_of_prefix.
    - by eapply elem_of_prefix.
    - intros h (x&->&Hx)%list_elem_of_fmap. by apply Hact.
    - intros h Hh Hr. rewrite <- Hw in Hh. pose proof (routed_active _ own _ _ Hh Hr) as Hra. by rewrite Esb in Hra.
    - intros h Hn. apply Hcl. by apply protected_None in Hn as [? _].
    - intros h r Hn. apply protected_None in Hn as [_ Hr]. intros Hin Hh. by apply Hr.
    - eapply Inv_mono; [exact HE3|]. by exists st. }
  intros E4 oc HE4 Hoc. eapply spec_bind.
  { apply (buildEntries_spec _ _ _ _ _ _ eps); [done| |done]. eapply elem_of_prefix; [|exact Hd]. by etrans. }
  intros E5 es HE5 Hes. eapply spec_bind; [by apply reconcileEntries_spec|]. intros E6 [es' errs'] _ _.
  eapply spec_bind; [apply collectStatus_keeps|]. intros. by apply spec_ret.
Qed.

Lemma reconcile_keeps last : keeps (reconcile cfg last).
Proof.
  intros E. unfold reconcile. eapply (spec_bind _ _ _ _ (fun _ _ => True)).
  { apply (spec_call_bind _ Now); [done|]. intros E1 t _ _. apply (spec_call_bind _ LocalStatus); [done|]. intros. by apply spec_ret. }
  intros E1 s _ _. eapply (spec_bind _ _ _ _ (fun E' d => match d with
    | Ok x => exists eps, desired_by E' eps /\ x = split_public (connectionHosts (ConnectionID cfg) (OrgID cfg) eps)
    | Fail _ => True end)).
  { unfold desired, src_Hostnames. eapply (spec_bind _ _ _ _ (fun E' d => match d with
      | Ok x => exists eps, desired_by E' eps /\ x = connectionHosts (ConnectionID cfg) (OrgID cfg) eps
      | Fail _ => True end)).
    - apply (spec_call_bind _ (ListEndpointsByOrg (OrgID cfg))); [done|]. intros E2 [eps|err] _ Hev; apply spec_ret; [|done]. by exists eps.
    - intros E2 [all|err] _ Hall; apply spec_ret; [|done]. destruct Hall as (eps&?&->). eauto. }
  intros E2 d HE2 Hd. destruct d as [d|err]; [|by apply spec_ret]. destruct Hd as (eps&Hd&->).
  destruct (split_public _) as [hosts private] eqn:Es. eapply (spec_bind _ _ _ _ (fun _ _ => True)).
  { apply (spec_call_bind _ GetTunnel); [done|]. intros. by apply spec_ret. }
  intros E3 [tunnel errs] HE3 _. apply (spec_call_bind _ GetTunnelConfig); [done|].
  intros E4 [tcfg|status err] HE4 Hget; [|by apply spec_ret].
  pose proof (reconcile_with_spec E4 (st_tunnel tunnel s) eps private errs tcfg) as H. rewrite Es in H. apply H; [|done].
  eapply elem_of_prefix, Hd. by etrans.
Qed.

Lemma save_spec (Q : list event -> req -> Prop) E st : Q E (UpdateConnectionState st) -> spec_of Q E (save st) (fun _ _ => True).
Proof. intros HQ. unfold save. apply (spec_call_bind _ (UpdateConnectionState st)); [done|]. intros. by apply spec_ret. Qed.

Lemma Sync_keeps last : keeps (Sync cfg last).
Proof.
  intros E. unfold Sync. eapply spec_bind; [apply spec_read|]. intros E1 previous _ Hp.
  assert (Hs : is_Some previous) by (destruct Hp as (st&->&_); done). destruct previous as [prev|]; [|by destruct Hs].
  apply (spec_call_bind _ AcquireLocks); [done|]. intros E2 [err|] HE2 _; [by apply spec_ret|].
  eapply spec_bind; [apply reconcile_keeps|]. intros E3 [s err] HE3 _. eapply spec_bind; [apply spec_read|]. intros E4 o HE4 Ho.
  eapply (spec_bind _ _ _ _ (fun _ _ => True)).
  { destruct o as [st|]; [|by apply spec_ret]. eapply spec_bind; [by apply save_spec|].
    intros E5 [e|] HE5 _; [|by apply spec_ret]. eapply spec_bind; [apply spec_write|intros; by apply spec_ret].
    eapply Inv_mono, Hp. etrans; [exact HE2|]. etrans; [exact HE3|]. by etrans. }
  intros E5 [s' err'] _ _. destruct (redact cfg s' err') as [s2 err2]. eapply (spec_bind _ _ _ _ (fun _ _ => True)).
  { apply (spec_call_bind _ (PublishAliases s2)); [done|]. intros. by apply spec_ret. }
  intros E6 [s3 aliasErr] _ _. by apply spec_ret.
Qed.

(** ** The calls of a change of one hostname *)

(** No endpoint of this connection publishes the host, and no other connection claims it. *)
Definition free_host (E : list event) (host : string) : Prop :=
  unclaimed E host /\ exists eps, desired_by E eps /\
    forall h, h ∈ connectionHosts (ConnectionID cfg) (OrgID cfg) eps -> h_Public h = true -> normalizeHost (h_Host h) <> host.

(** The rules of the host removed, or one added to a configuration without any. *)
Definition edited (host : string) (old new : list IngressRule) : Prop :=
  new = List.filter (fun r => negb (bool_decide (rule_host r = host))) old \/
  exists service, (forall r, r ∈ old -> rule_host r <> host) /\
    new = (split_catch_all old).1 ++ [NewIngressRule host service; default (NewIngressRule "" catchAllService) (split_catch_all old).2].

(** Only rules of the host are dropped or added, and only records of the host that point at
    the tunnel are deleted. *)
Definition edit_call (host : string) (E : list event) (r : req) : Prop :=
  match r with
  | PutTunnelConfig c =>
      free_host E host /\ exists tcfg, ev GetTunnelConfig (Got tcfg) ∈ E /\ cfields c = cfields tcfg /\ edited host (Ingress tcfg) (Ingress c)
  | CreateDNSRecord zone rec => free_host E host /\ rec = tunnel_record cfg host /\ ev (ListDNSRecords zone host) (Got []) ∈ E
  | DeleteDNSRecord zone id =>
      free_host E host /\ exists recs rec,
        ev (ListDNSRecords zone host) (Got recs) ∈ E /\ rec ∈ recs /\ d_ID rec = id /\ pointsAtTunnel cfg rec = true
  | PutAccessApp id app =>
      id = AccessAppID cfg /\ exists app0, ev (GetAccessApp id) (Got app0) ∈ E /\ app = (accessRemoveHost app0 host).1
  | CreateAccessApp _ | DeleteAccessApp _ | CreateAccessPolicy _ | PutAccessPolicy _ _ | DeleteAccessPolicy _ => False
  | UpdateConnectionState st => Inv E (Some st)
  | _ => True
  end.

Lemma edit_reads host : reads (edit_call host).
Proof. intros E r. by destruct r. Qed.

Abbreviation espec host := (spec_of (edit_call host)).

(** A step that may end the method. *)
Lemma spec_must {A B} Q E (m : M (A + hostname_error)) (f : A -> M (B + hostname_error)) (R : list event -> A -> Prop) :
  spec_of Q E m (fun E' x => match x with inl a => R E' a | inr _ => True end) ->
  (forall E' a, E `prefix_of` E' -> R E' a -> spec_of Q E' (f a) (fun _ _ => True)) ->
  spec_of Q E (andThen m f) (fun _ _ => True).
Proof. intros Hm Hf. eapply spec_bind; [exact Hm|]. intros E1 [a|e] HE1 HR; [by apply Hf|by apply spec_ret]. Qed.

Lemma spec_then {A B} Q E (m : M (A + hostname_error)) (f : A -> M (B + hostname_error)) :
  spec_of Q E m (fun _ _ => True) -> (forall E' a, E `prefix_of` E' -> spec_of Q E' (f a) (fun _ _ => True)) ->
  spec_of Q E (andThen m f) (fun _ _ => True).
Proof. intros Hm Hf. eapply spec_bind; [exact Hm|]. intros E1 [a|e] HE1 _; [by apply Hf|by apply spec_ret]. Qed.

Lemma spec_api {Q A} E (m : M (reply A)) (R : list event -> A -> Prop) :
  spec_of Q E m (fun E' x => match x with Got a => R E' a | Lost _ _ => True end) ->
  spec_of Q E (api m) (fun E' x => match x with inl a => R E' a | inr _ => True end).
Proof. intros Hm. eapply spec_bind; [exact Hm|]. intros E1 [a|status e] _ HR; by apply spec_ret. Qed.
Lemma spec_ok {Q A} E (m : M A) (R : list event -> A -> Prop) : spec_of Q E m R -> spec_of Q E m (fun _ _ => True).
Proof. by apply spec_weaken. Qed.

Lemma lockForChange_spec Q E : reads Q -> spec_of Q E lockForChange (fun _ _ => True).
Proof.
  intros HQ. unfold lockForChange. eapply spec_bind; [apply spec_read|]. intros E1 [st|] _ _; [|by apply spec_ret].
  apply (spec_call_bind _ AcquireLocks); [exact (HQ E1 AcquireLocks)|]. intros. by apply spec_ret.
Qed.

Lemma omap_nil {X Y} (f : X -> option Y) l x : omap f l = [] -> x ∈ l -> f x = None.
Proof.
  intros Ho Hx. destruct (f x) as [y|] eqn:Hf; [|done].
  assert (Hy : y ∈ omap f l) by (apply list_elem_of_omap; eauto). rewrite Ho in Hy. by apply not_elem_of_nil in Hy.
Qed.

Lemma checkUnclaimed_spec Q E host : reads Q -> 
  spec_of Q E (checkUnclaimed cfg host) (fun E' x => match x with inl _ => free_host E' host | inr _ => True end).
Proof.
  intros HQ. unfold checkUnclaimed, andThen. eapply (spec_bind _ _ _ _ (fun E' x => match x with inl _ =>
    exists eps, desired_by E' eps /\ forall h, h ∈ connectionHosts (ConnectionID cfg) (OrgID cfg) eps -> h_Public h = true ->
      normalizeHost (h_Host h) <> host | inr _ => True end)).
  { unfold checkUnreferenced, src_Hostnames. eapply (spec_bind _ _ _ _ (fun E' d => match d with
      | Ok x => exists eps, desired_by E' eps /\ x = connectionHosts (ConnectionID cfg) (OrgID cfg) eps
      | Fail _ => True end)).
    - apply (spec_call_bind _ (ListEndpointsByOrg (OrgID cfg))); [exact (HQ E (ListEndpointsByOrg _))|].
      intros E2 [eps|err] _ Hev; apply spec_ret; [|done]. by exists eps.
    - intros E2 [all|err] _ Hall; [|by apply spec_ret]. destruct Hall as (eps&Hd&->).
      destruct (bool_decide (omap _ _ = [])) eqn:Eo; apply spec_ret; [|done]. apply bool_decide_eq_true in Eo.
      exists eps. split; [done|]. intros h Hh Hp Hn. apply (omap_nil _ _ h Eo) in Hh. rewrite Hp, Hn in Hh.
      by rewrite bool_decide_true in Hh. }
  intros E1 [u|e] _ H1; [|by apply spec_ret]. eapply spec_bind; [apply spec_read|]. intros E2 o HE2 (st&->&_).
  eapply spec_bind; [by apply foreignClaims_spec|]. intros E3 [claims|err] HE3 Hc; [|by apply spec_ret].
  destruct (bool_decide (is_Some _)) eqn:Ec; [by apply spec_ret|]. apply spec_ret. apply bool_decide_eq_false in Ec.
  split; [apply Hc; by apply eq_None_not_Some|]. destruct H1 as (eps&?&?). exists eps. split; [|done].
  eapply elem_of_prefix; [|done]. by etrans.
Qed.

Lemma free_host_mono E E' host : E `prefix_of` E' -> free_host E host -> free_host E' host.
Proof.
  intros HE (?&eps&?&?). split; [by eapply unclaimed_mono|]. exists eps. split; [|done]. by eapply elem_of_prefix.
Qed.

Lemma host_records_spec Q E host : reads Q ->
  spec_of Q E (host_records host) (fun E' x => match x with
    | inl (Some (zone, records)) => ev (ListDNSRecords (z_ID zone) host) (Got records) ∈ E'
    | _ => True end).
Proof.
  intros HQ. unfold host_records. eapply spec_bind; [by apply find_zone_spec|]. intros E1 [[zone|err] cache] _ _.
  - unfold andThen, api. eapply (spec_bind _ _ _ _ (fun E' x => match x with
      | inl records => ev (ListDNSRecords (z_ID zone) host) (Got records) ∈ E' | inr _ => True end)).
    + apply (spec_call_bind _ (ListDNSRecords (z_ID zone) host)); [exact (HQ E1 (ListDNSRecords _ _))|].
      intros E2 [r|status e] _ Hev; by apply spec_ret.
    + intros E2 [r|e] _ H; by apply spec_ret.
  - destruct (errIs err errNoZone); by apply spec_ret.
Qed.

Lemma removeIngress_spec E host : free_host E host -> espec host E (removeIngress host) (fun _ _ => True).
Proof.
  intros Hf. unfold removeIngress. apply (spec_call_bind _ GetTunnelConfig); [done|].
  intros E1 [tcfg|status err] HE1 Hget; [|by apply spec_ret]. cbn [withoutHost]. destruct (negb _); [by apply spec_ret|].
  apply (spec_call_bind _ (PutTunnelConfig _)); [|intros; by apply spec_ret].
  split; [by eapply free_host_mono|]. exists tcfg. split_and!; [done..|by left].
Qed.

Lemma withoutHost_none rs host : snd (withoutHost rs host) = false -> forall r, r ∈ rs -> rule_host r <> host.
Proof.
  cbn. intros Hl. apply negb_false_iff, Nat.eqb_eq in Hl. induction rs as [|x rs IH]; intros r Hr; [by apply not_elem_of_nil in Hr|].
  cbn [List.filter] in Hl. pose proof (List.filter_length_le (fun r => negb (bool_decide (rule_host r = host))) rs).
  destruct (negb _) eqn:Ex; cbn in Hl; [|lia]. apply elem_of_cons in Hr as [->|Hr]; [|apply IH; [lia|done]].
  by apply negb_true_iff, bool_decide_eq_false in Ex.
Qed.

Lemma insert_edited rs host service :
  (forall r, r ∈ rs -> rule_host r <> host) -> edited host rs (insertBeforeCatchAll rs (NewIngressRule host service)).
Proof. intros H. right. exists service. split; [done|]. unfold insertBeforeCatchAll. by destruct (split_catch_all rs) as [body [c|]]. Qed.

Lemma add_hostname_spec E host service : espec host E (add_hostname cfg host service) (fun _ _ => True).
Proof.
  unfold add_hostname. eapply spec_must; [apply (checkUnclaimed_spec _ _ _ (edit_reads _))|]. intros E1 u HE1 Hf. cbn beta iota in Hf. clear u.
  eapply spec_must; [apply (spec_api _ _ (fun E' c => ev GetTunnelConfig (Got c) ∈ E'))|].
  { eapply spec_weaken, (spec_call _ GetTunnelConfig); [|done]. intros E2 [c|s e] _ H; done. }
  intros E2 tcfg HE2 Hget. destruct (ingressRoutes _ !! host); [by apply spec_ret|].
  destruct (snd (withoutHost _ _)) eqn:Ew; [by apply spec_ret|]. pose proof (withoutHost_none _ _ Ew) as Hno.
  eapply (spec_must _ _ _ _ (fun E' found => match found with
    | Some (zone, records) => ev (ListDNSRecords (z_ID zone) host) (Got records) ∈ E' | None => True end)).
  { eapply spec_weaken, host_records_spec, edit_reads. intros E3 [[[z r]|]|e] _ H; done. }
  intros E3 [[zone records]|] HE3 Hl; [|by apply spec_ret]. destruct (List.find _ _); [by apply spec_ret|].
  eapply (spec_must _ _ _ _ (fun _ _ => True)).
  { apply spec_api. apply (spec_weaken _ _ (fun E' x => ev (PutTunnelConfig (mkTunnelConfig (insertBeforeCatchAll (Ingress tcfg) (NewIngressRule host service)) (cfields tcfg))) x ∈ E')); [by intros E4 [] _ _|].
    apply (spec_call _ (PutTunnelConfig _)). split; [eapply free_host_mono, Hf; by etrans|].
    exists tcfg. split_and!; [by eapply elem_of_prefix|done|]. by apply insert_edited. }
  intros E4 _ HE4 _. destruct (negb _) eqn:Er; [by apply spec_ret|]. apply negb_false_iff, bool_decide_eq_true in Er as ->.
  assert (Hf4 : free_host E4 host) by (eapply free_host_mono, Hf; etrans; [done|]; by etrans).
  apply (spec_call_bind _ (CreateDNSRecord _ _)).
  { split_and!; [done|done|]. by eapply elem_of_prefix. }
  intros E5 [rec|status err] HE5 _; [by apply spec_ret|].
  eapply spec_bind; [apply removeIngress_spec; by eapply free_host_mono|]. intros. by apply spec_ret.
Qed.

Lemma delete_records_spec E host zone records l :
  free_host E host -> ev (ListDNSRecords zone host) (Got records) ∈ E ->
  Forall (fun r => r ∈ records /\ pointsAtTunnel cfg r = true) l ->
  espec host E (delete_records zone l) (fun _ _ => True).
Proof.
  revert E. induction l as [|r l IH]; intros E Hf Hl Hall; cbn [delete_records]; [by apply spec_ret|].
  apply Forall_cons in Hall as [[Hr Hp] Hall]. eapply (spec_must _ _ _ _ (fun _ _ => True)).
  - apply spec_api. apply (spec_weaken _ _ (fun E' x => ev (DeleteDNSRecord zone (d_ID r)) x ∈ E')); [by intros E4 [] _ _|].
    apply (spec_call _ (DeleteDNSRecord _ _)). split; [done|]. by exists records, r.
  - intros E1 _ HE1 _. apply IH; [by eapply free_host_mono|by eapply elem_of_prefix|done].
Qed.

(** A route that is forgotten claims nothing. *)
Lemma Inv_forget E st host : Inv E (Some st) -> Inv E (Some (with_routes (delete host (Routes st)) st)).
Proof.
  intros (?&[= <-]&H). eexists. split; [done|]. intros h. unfold route. cbn [Routes with_routes].
  destruct (decide (h = host)) as [->|]; [rewrite lookup_delete_eq|rewrite lookup_delete_ne by done; apply (H h)].
  split_and!; [intros f Hf; by apply not_elem_of_nil in Hf|done|done].
Qed.

Lemma forgetOwnership_spec E host : espec host E (forgetOwnership cfg host) (fun _ _ => True).
Proof.
  unfold forgetOwnership. eapply spec_bind; [apply spec_read|]. intros E1 [st|] _ Ho; [|by apply spec_ret].
  destruct (Routes st !! host) as [owned|]; [|by apply spec_ret].
  apply spec_then.
  { destruct (_ && _); [|by apply spec_ret]. eapply spec_must; [apply (spec_api _ _ (fun E' a => ev (GetAccessApp (AccessAppID cfg)) (Got a) ∈ E'))|].
    { eapply spec_weaken, (spec_call _ (GetAccessApp _)); [|done]. intros E2 [c|s e] _ H; done. }
    intros E2 app HE2 Happ. destruct (accessRemoveHost app host) as [app' gone] eqn:Er. destruct (_ && _); [|by apply spec_ret].
    eapply spec_ok, (spec_api _ _ (fun _ _ => True)). apply (spec_weaken _ _ (fun E' x => ev (PutAccessApp (AccessAppID cfg) app') x ∈ E')); [by intros E4 [] _ _|].
    apply (spec_call _ (PutAccessApp _ _)). split; [done|]. exists app. by rewrite Er. }
  intros E2 _ HE2. pose proof (Inv_forget _ _ host (Inv_mono _ _ _ HE2 Ho)) as Hi. eapply spec_bind; [by apply spec_write|].
  intros E3 _ HE3 _. eapply spec_bind; [apply save_spec, (Inv_mono _ _ _ HE3 Hi)|]. intros E4 [e|] HE4 _; [|by apply spec_ret].
  eapply spec_bind; [apply spec_write; eapply Inv_mono, Ho; etrans; [exact HE2|]; by etrans|]. intros. by apply spec_ret.
Qed.

Lemma remove_hostname_spec E host : espec host E (remove_hostname cfg host) (fun _ _ => True).
Proof.
  unfold remove_hostname. eapply spec_must; [apply (checkUnclaimed_spec _ _ _ (edit_reads _))|]. intros E1 u HE1 Hf. cbn beta iota in Hf. clear u.
  eapply spec_must; [apply (spec_api _ _ (fun E' c => ev GetTunnelConfig (Got c) ∈ E'))|].
  { eapply spec_weaken, (spec_call _ GetTunnelConfig); [|done]. intros E2 [c|s e] _ H; done. }
  intros E2 tcfg HE2 Hget. cbn [withoutHost]. eapply (spec_must _ _ _ _ (fun E' found => match found with
    | Some (zone, records) => ev (ListDNSRecords (z_ID zone) host) (Got records) ∈ E' | None => True end)).
  { eapply spec_weaken, host_records_spec, edit_reads. intros E3 [[[z r]|]|e] _ H; done. }
  intros E3 found HE3 Hl. destruct (match found with Some _ => _ | None => _ end) as [zone records] eqn:Ef.
  destruct (_ && _); [by apply spec_ret|]. assert (Hf3 : free_host E3 host) by (eapply free_host_mono, Hf; by etrans).
  apply spec_then.
  { destruct (negb (_ =? _)%nat); [|by apply spec_ret]. eapply spec_ok, (spec_api _ _ (fun _ _ => True)).
    match goal with |- spec_of _ _ (call ?r) _ => apply (spec_weaken _ _ (fun E' x => ev r x ∈ E')); [by intros E4 [] _ _|] end.
    apply (spec_call _ (PutTunnelConfig _)). split; [done|]. exists tcfg. split_and!; [by eapply elem_of_prefix|done|by left]. }
  intros E4 _ HE4. apply spec_then; [|intros; apply forgetOwnership_spec].
  destruct found as [[z rs]|]; injection Ef as <- <-; [|by apply spec_ret].
  eapply delete_records_spec; [by eapply free_host_mono|by eapply elem_of_prefix|].
  apply Forall_forall. intros r Hr. apply list_elem_of_In, List.filter_In in Hr as [? ?]. split; [by apply list_elem_of_In|done].
Qed.
End Publisher.
End CloudflareSafety.
