(* ===== verification/CloudflareHistory.v ===== *)
(** * The history of a publisher

    A managed connection of internal/cloudflare from [Open] on: synchronisations and changes
    of hostnames one after the other ([syncMu] is held for all of each), each a sequence of
    calls whose answers are arbitrary; the process may stop anywhere and the connection be
    opened again with a state that was to be stored. Every call of a history is one that [CloudflareSafety]
    permits. *)
From S2P Require Import Prelude GoIO GoStrings GoNet Token Calls Cloudflare CloudflarePlan CloudflareSync CloudflareSafety.
Import Calls Cloudflare CloudflarePlan CloudflareSync CloudflareSafety.

Module CloudflareHistory.
Inductive op :=
| OSync (last : list HostStatus)
| OAdd (host service : string)
| ORemove (host : string).

(** The operation that runs, the ownership record between operations, the calls so far. *)
Record machine := mkMachine {
  running : option (op * prog ownership);
  own : ownership;
  calls : list (op * event)
}.

Section History.
Context `{lower : UnicodeLower} `{url : UrlParse} `{raw : RawJSON} `{fold : UnicodeFold} `{sha : Sha256}
  `{rule_text : Canonical IngressRule} `{dns_text : Canonical DNSRecord} `{json_text : Canonical json} `{decode : StateDecode}.
Context (cfg : Config) (st0 : ownershipState).

(** The operation as a program that ends with the ownership record. *)
Definition start_op (o : op) (st : ownership) : prog ownership :=
  match o with
  | OSync last => prog_bind (fun x => Ret x.2) (Sync cfg last st)
  | OAdd host service => prog_bind (fun x => Ret x.2) (AddHostname cfg host service st)
  | ORemove host => prog_bind (fun x => Ret x.2) (RemoveHostname cfg host st)
  end.

(** The states that may be in the data store: the one of the start, and those of updates,
    whether or not they were reported as stored. *)
Definition stored (l : list (op * event)) (bs : list byte) : Prop :=
  bs = [] \/ exists st missing, decode_state bs = Some (st, missing) /\ (st = st0 \/ exists o x, (o, ev (UpdateConnectionState st) x) ∈ l).

Inductive step : machine -> machine -> Prop :=
| step_start o st l : step (mkMachine None st l) (mkMachine (Some (o, start_op o st)) st l)
| step_call o r k st l (x : answer r) :
    step (mkMachine (Some (o, Do r k)) st l) (mkMachine (Some (o, k x)) st (l ++ [(o, ev r x)]))
| step_end o st' st l : step (mkMachine (Some (o, Ret st')) st l) (mkMachine None st' l)
| step_reopen bs st p st' l :
    stored l bs -> openOwnership bs cfg = Ok st' -> step (mkMachine p st l) (mkMachine None (Some st') l).

Definition opened : machine := mkMachine None (Some st0) [].

Inductive reachable : machine -> Prop :=
| reach_open : reachable opened
| reach_step m m' : reachable m -> step m m' -> reachable m'.

(** What may be called by an operation: a change of a hostname is about its normal form. *)
Definition op_call (o : op) (E : list event) (r : req) : Prop :=
  match o with
  | OSync _ => sync_call cfg st0 E r
  | OAdd host _ | ORemove host => exists h, accessHostname "" host = Ok h /\ edit_call cfg st0 h E r
  end.

(** A method that keeps the invariant ends with it. *)
Lemma spec_ends {A} Q E (m : M A) (R : list event -> A -> Prop) o :
  spec_of cfg st0 Q E m R -> Inv cfg st0 E o -> obeys Q (Inv cfg st0) (prog_bind (fun x => Ret x.2) (m o)) E.
Proof. intros Hm Ho. apply prog_obeys_bind. eapply prog_obeys_weaken, (Hm o Ho). intros E' x (H&_&_). exact H. Qed.

Lemma start_ok o st E : Inv cfg st0 E st -> obeys (op_call o) (Inv cfg st0) (start_op o st) E.
Proof.
  intros Hst. destruct o as [last|host service|host]; cbn [start_op].
  - eapply spec_ends; [apply Sync_keeps|done].
  - unfold AddHostname. destruct (accessHostname "" host) as [h|err] eqn:Eh; [|done].
    destruct (checkDirectService cfg service) as [service'|e]; [|done].
    apply (obeys_impl (edit_call cfg st0 h)); [cbn [op_call]; eauto|]. eapply spec_ends, Hst. apply spec_then.
    + apply lockForChange_spec, edit_reads.
    + intros. apply add_hostname_spec.
  - unfold RemoveHostname. destruct (accessHostname "" host) as [h|err] eqn:Eh; [|done].
    apply (obeys_impl (edit_call cfg st0 h)); [cbn [op_call]; eauto|]. eapply spec_ends, Hst. apply spec_then.
    + apply lockForChange_spec, edit_reads.
    + intros. apply remove_hostname_spec.
Qed.

(** The calls made were permitted and the rest of the running operation will be. *)
Definition Safe (m : machine) : Prop :=
  (forall pre o r x post, calls m = pre ++ (o, ev r x) :: post -> op_call o (map snd pre) r) /\
  match running m with
  | None => Inv cfg st0 (map snd (calls m)) (own m)
  | Some (o, p) => obeys (op_call o) (Inv cfg st0) p (map snd (calls m))
  end.

Lemma opened_Inv : Inv cfg st0 [] (Some st0).
Proof.
  exists st0. split; [done|]. intros h. split_and!; [by left|by left|]. intros a Ha.
  unfold owned_app, owned_policy, ownedApp. rewrite Ha. cbn. split; by left.
Qed.

Lemma elem_of_calls (l : list (op * event)) o e : (o, e) ∈ l -> exists pre post, l = pre ++ (o, e) :: post.
Proof. intros H. by apply list_elem_of_split in H. Qed.

(** Opening keeps nothing that was not recorded. *)
Lemma reopened_Inv E bs st : 
  (bs = [] \/ exists st missing, decode_state bs = Some (st, missing) /\ Inv cfg st0 E (Some st)) ->
  openOwnership bs cfg = Ok st -> Inv cfg st0 E (Some st).
Proof.
  assert (Hnone : forall h, route_ok cfg st0 E h noRoute).
  { intros h. split_and!; [intros f Hf; by apply not_elem_of_nil in Hf|done|done]. }
  assert (Hempty : Inv cfg st0 E (Some (fresh_state cfg ∅))).
  { eexists. split; [done|]. intros h. unfold route. cbn [Routes fresh_state]. rewrite lookup_empty. apply Hnone. }
  intros [->|(saved&missing&Hdec&Hi)] Hopen; [by injection Hopen as <-|].
  unfold openOwnership in Hopen. destruct bs as [|b bs']; [by injection Hopen as <-|]. rewrite Hdec in Hopen.
  repeat (destruct (_ || _) in Hopen; [done|]). destruct (negb (forallb _ _)) in Hopen; [done|].
  destruct (negb _) in Hopen; [by injection Hopen as <-|]. destruct (_ && _) in Hopen; injection Hopen as <-; [done|].
  eexists. split; [done|]. intros h. unfold route. cbn [Routes fresh_state]. rewrite lookup_omap.
  destruct Hi as (?&[= <-]&Hi). specialize (Hi h). unfold route in Hi.
  destruct (Routes saved !! h) as [owned|]; [|apply Hnone]. cbn in *. destruct (r_App owned) as [a|] eqn:Ea; [|apply Hnone].
  destruct Hi as (_&_&Ha). cbn. split_and!; [intros f Hf; by apply not_elem_of_nil in Hf|done|].
  intros a' [= <-]. by apply Ha.
Qed.

(** A state that was to be stored satisfies the invariant. *)
Lemma stored_Inv l bs :
  (forall pre o r x post, l = pre ++ (o, ev r x) :: post -> op_call o (map snd pre) r) -> stored l bs ->
  bs = [] \/ exists st missing, decode_state bs = Some (st, missing) /\ Inv cfg st0 (map snd l) (Some st).
Proof.
  intros Hl [->|(st&missing&Hd&Hst)]; [by left|]. right. exists st, missing. split; [done|].
  destruct Hst as [->|(o&x&Hin)]; [eapply Inv_mono, opened_Inv; apply prefix_nil|].
  destruct (elem_of_calls _ _ _ Hin) as (pre&post&->). pose proof (Hl _ _ _ _ _ eq_refl) as Hc.
  eapply (Inv_mono _ _ (map snd pre)); [rewrite map_app; by eexists|].
  destruct o; cbn [op_call] in Hc; [exact Hc|destruct Hc as (h&_&Hc); exact Hc..].
Qed.

Lemma step_Safe m m' : Safe m -> step m m' -> Safe m'.
Proof.
  intros [Hc Hr] Hs. destruct Hs as [o st l|o r k st l x|o st' st l|bs' st p st' l Hst Ho]; split; cbn [calls running own] in *; try done.
  - by apply start_ok.
  - intros pre o' r' x' post [(->&Heq&->)|(post'&->&->)]%snoc_split; [|by eapply Hc].
    assert (Hev : (o, r) = (o', r')) by (exact (f_equal (fun y : op * event => (y.1, projT1 y.2)) Heq)). injection Hev as <- <-. apply Hr.
  - rewrite map_app. apply Hr.
  - eapply reopened_Inv, Ho. by apply stored_Inv.
Qed.

Lemma reachable_Safe m : reachable m -> Safe m.
Proof.
  induction 1 as [|m m' _ IH Hs]; [|by eapply step_Safe]. split; [intros pre o r x post H; by destruct pre|]. apply opened_Inv.
Qed.

(** C18: A synchronisation deletes only records of its own: whatever the history of the
    connection, the answers of Cloudflare and restarts, a DNS record that [Sync] deletes was
    listed for a hostname with exactly the content recorded for it when the connection was
    opened, or returned when this server created a record of the hostname; it points at the
    tunnel; and no endpoint of this connection and no other connection wants the hostname. *)
Theorem sync_deletes_only_own_records m pre last zone id x post :
  reachable m -> calls m = pre ++ (OSync last, ev (DeleteDNSRecord zone id) x) :: post ->
  exists h recs rec, ev (ListDNSRecords zone h) (Got recs) ∈ map snd pre /\ rec ∈ recs /\ d_ID rec = id /\
    pointsAtTunnel cfg rec = true /\ owned_dns st0 (map snd pre) h (resourceFingerprint rec) /\ unwanted cfg (map snd pre) h.
Proof. intros Hm Hc. apply (proj1 (reachable_Safe m Hm) _ _ _ _ _ Hc). Qed.


(** Access objects of others are left alone: an Access application or policy that [Sync]
    replaces or deletes is the application the administrator named, or has an id that was
    recorded when the connection was opened or returned when this server created it; a
    change of a hostname deletes none. *)
Theorem access_objects_are_own m pre o r x post :
  reachable m -> calls m = pre ++ (o, ev r x) :: post ->
  match r with
  | DeleteAccessApp id => exists h, owned_app st0 (map snd pre) h id
  | PutAccessApp id _ => id = AccessAppID cfg \/ exists h, owned_app st0 (map snd pre) h id
  | DeleteAccessPolicy id | PutAccessPolicy id _ => exists h, owned_policy st0 (map snd pre) h id
  | _ => True
  end.
Proof.
  intros Hm Hc. pose proof (proj1 (reachable_Safe m Hm) _ _ _ _ _ Hc) as H. destruct o; cbn [op_call] in H.
  - by destruct r.
  - destruct H as (h&_&H). destruct r; try done. left. apply H.
  - destruct H as (h&_&H). destruct r; try done. left. apply H.
Qed.

(** A change of a hostname touches that hostname only: its rules are removed, or one is
    added where there was none; a record it creates is the route of the hostname, where none
    was listed; a record it deletes was listed for the hostname and points at the tunnel; and
    then no endpoint of this connection publishes the hostname and no other connection
    claims it. *)
Theorem hostname_changes_touch_one_host m pre o host r x post :
  reachable m -> calls m = pre ++ (o, ev r x) :: post -> (o = ORemove host \/ exists service, o = OAdd host service) ->
  exists h, accessHostname "" host = Ok h /\ edit_call cfg st0 h (map snd pre) r.
Proof. intros Hm Hc Ho. pose proof (proj1 (reachable_Safe m Hm) _ _ _ _ _ Hc) as H. by destruct Ho as [->|[service ->]]. Qed.

(** Running an operation against given answers. *)
Definition advance_op (answers : forall r, answer r) (m : machine) : machine :=
  match running m with
  | Some (o, Do r k) => mkMachine (Some (o, k (answers r))) (own m) (calls m ++ [(o, ev r (answers r))])
  | Some (o, Ret st) => mkMachine None st (calls m)
  | _ => m
  end.

Definition perform_op (answers : forall r, answer r) (o : op) (m : machine) : machine :=
  match running m with
  | None => Nat.iter 60 (advance_op answers) (mkMachine (Some (o, start_op o (own m))) (own m) (calls m))
  | Some _ => m
  end.

Lemma advance_op_reachable answers m : reachable m -> reachable (advance_op answers m).
Proof.
  intros Hm. destruct m as [[[o [st'|t|r k]]|] st l]; cbn; [|done| |done]; eapply reach_step; [exact Hm|constructor|exact Hm|constructor].
Qed.

Lemma perform_op_reachable answers o m : reachable m -> reachable (perform_op answers o m).
Proof.
  intros Hm. unfold perform_op. destruct m as [[p|] st l]; [done|]. cbn [running own calls].
  apply Nat.iter_invariant; [auto using advance_op_reachable|]. eapply reach_step; [exact Hm|constructor].
Qed.
End History.

(** The n-th call of a history. *)
Definition before (n : nat) (m : machine) : list (op * event) := take n (calls m).
Definition following (n : nat) (m : machine) : list (op * event) := drop (S n) (calls m).

(** ** A connection with one route that is not wanted any more *)
#[local] Instance sample_lower : UnicodeLower := fun s => s.
#[local] Instance sample_fold : UnicodeFold := fun s t => bool_decide (s = t).
#[local] Instance sample_url : UrlParse := fun s => Ok (mkURL "http" s "" "" "" false "").
#[local] Instance sample_raw : RawJSON := {| raw_string := fun b => Some (string_of b); string_raw := bytes_of |}.
#[local] Instance sample_sha : Sha256 := fun b => b.
#[local] Instance sample_decode : StateDecode := fun _ => None.
#[local] Instance sample_rule_text : Canonical IngressRule := fun r => Some (bytes_of (Hostname_ r +:+ " " +:+ Service_ r)).
#[local] Instance sample_dns_text : Canonical DNSRecord := fun r => Some (bytes_of (d_ID r +:+ " " +:+ d_Content r)).
#[local] Instance sample_json_text : Canonical json := fun j => match j with JStr s => Some (bytes_of s) | _ => Some [] end.

Lemma sample_raw_laws : RawJSONLaws.
Proof. intros s _. cbn. by rewrite string_of_bytes_of. Qed.

Definition sample_cfg : Config := mkConfig "conn" "org" "edge" "acc" "tun" "token" "" "origin" true.
Definition sample_host : string := "a.example.com".
Definition sample_record : DNSRecord := mkDNS "rec1" "CNAME" sample_host "tun.cfargotunnel.com" true dnsComment 1 [] None.
Definition sample_rule : IngressRule := NewIngressRule sample_host "origin".
Definition sample_rules : list IngressRule := [sample_rule; NewIngressRule "b.example.com" "other"; NewIngressRule "" catchAllService].

Definition sample_state : ownershipState :=
  fresh_state sample_cfg {[sample_host := mkRoute (resourceFingerprint sample_rule) [resourceFingerprint sample_record] ""
    (Some (mkOwnedApp "app1" "pol1" "" ""))]}.

(** No endpoint wants a hostname. *)
Definition sample_answers (r : req) : answer r :=
  match r with
  | Now => 0%Z
  | LocalStatus => mkConnector true 1 "" "" [] ""
  | LocalIngress => Ok []
  | ListEndpointsByOrg _ => Ok []
  | ListOrgs => Ok [Some "org"]
  | UpdateConnectionState _ | PublishAliases _ | AcquireLocks => None
  | GetTunnel => Got (mkTunnel "tun" "edge" "healthy" 1)
  | GetTunnelConfig => Got (mkTunnelConfig sample_rules ∅)
  | ListZones => Got [mkZone "zone1" "example.com"]
  | ListDNSRecords _ _ => Got [sample_record]
  | CreateDNSRecord _ r => Got r
  | GetAccessApp id | GetAccessPolicy id => Got (Some [("id", JStr id)])
  | CreateAccessApp app => Got app
  | CreateAccessPolicy policy => Got policy
  | PutTunnelConfig _ | DeleteDNSRecord _ _ | PutAccessApp _ _ | DeleteAccessApp _ | PutAccessPolicy _ _
  | DeleteAccessPolicy _ => Got tt
  end.

Definition sample_sync : machine := perform_op sample_cfg sample_answers (OSync []) (opened sample_state).
Definition sample_remove : machine := perform_op sample_cfg sample_answers (ORemove sample_host) (opened sample_state).

Lemma sample_sync_reachable : reachable sample_cfg sample_state sample_sync.
Proof. apply perform_op_reachable, reach_open. Qed.

Lemma sample_remove_reachable : reachable sample_cfg sample_state sample_remove.
Proof. apply perform_op_reachable, reach_open. Qed.

Lemma sync_deletes_only_own_records_witness : exists h rec, d_ID rec = "rec1" /\
  owned_dns sample_state (map snd (before 12 sample_sync)) h (resourceFingerprint rec) /\
  unwanted sample_cfg (map snd (before 12 sample_sync)) h.
Proof.
  destruct (sync_deletes_only_own_records sample_cfg sample_state sample_sync (before 12 sample_sync) [] "zone1" "rec1" (Got tt)
    (following 12 sample_sync)) as (h&recs&rec&_&_&Hid&_&Ho&Hu); [apply sample_sync_reachable|vm_compute; reflexivity|].
  by exists h, rec.
Defined.


Lemma access_objects_are_own_witness : exists h, owned_app sample_state (map snd (before 13 sample_sync)) h "app1".
Proof.
  apply (access_objects_are_own sample_cfg sample_state sample_sync (before 13 sample_sync) (OSync []) (DeleteAccessApp "app1") (Got tt)
    (following 13 sample_sync)); [apply sample_sync_reachable|vm_compute; reflexivity].
Defined.

Lemma hostname_changes_touch_one_host_witness : exists h, accessHostname "" sample_host = Ok h /\
  edit_call sample_cfg sample_state h (map snd (before 8 sample_remove)) (DeleteDNSRecord "zone1" "rec1").
Proof.
  apply (hostname_changes_touch_one_host sample_cfg sample_state sample_remove (before 8 sample_remove) (ORemove sample_host) sample_host
    (DeleteDNSRecord "zone1" "rec1") (Got tt) (following 8 sample_remove));
    [apply sample_remove_reachable|vm_compute; reflexivity|by left].
Defined.

Lemma plan_is_stable_witness :
  let plan := planIngress sample_rules "origin" ["c.example.com"; "b.example.com"] ∅ true in
  changed (planIngress (rules plan) "origin" ["c.example.com"; "b.example.com"] ∅ true) = false.
Proof.
  pose proof sample_raw_laws.
  refine (proj1 (plan_is_stable sample_rules "origin" ["c.example.com"; "b.example.com"] ∅ true _ _));
    [|vm_compute; reflexivity].
  apply Forall_cons_2; [|apply Forall_cons_2; [|apply Forall_nil_2]]; (split_and!; [done|vm_compute; reflexivity..]).
Defined.
End CloudflareHistory.
