(* ===== verification/Endpoints.v ===== *)
(** * Endpoint records (internal/store, internal/subdomain, internal/endpointurl)

    The records of agents, endpoints and their policies, with the checks that belong to
    them: rate limits, the agents a private endpoint admits, subdomains, public URLs, and
    which fields of a policy an agent may set (internal/gateway). *)
From S2P Require Import Prelude GoIO GoStrings GoNet Cloudflare.
Import Cloudflare.

Module Endpoints.
(** ** store.go *)
Definition KindHTTP : string := "http".
Definition KindTCP : string := "tcp".
Definition KindTLS : string := "tls".
Definition KindUDP : string := "udp".
Definition LifecycleEphemeral : string := "ephemeral".
Definition LifecycleReserved : string := "reserved".
Definition AgentActive : string := "active".

Definition PortKind (kind : string) : bool := bool_decide (kind = KindTCP) || bool_decide (kind = KindUDP).

Record Agent := mkAgent {
  a_ID : string;
  a_OrgID : string;
  a_Name : string;
  a_Status : string;
  a_CreatedAt : Z;
  a_LastSeenAt : option Z
}.
Record StoredToken := mkStoredToken {
  tk_ID : string;
  tk_OrgID : string;
  tk_AgentID : string;
  tk_Hash : string;
  tk_CreatedAt : Z;
  tk_RevokedAt : option Z
}.
Record Quota := mkQuota { qt_OrgID : string; MaxAgents : Z; MaxEndpoints : Z; MaxBandwidthBytes : Z }.

Record OIDCEndpointAuth := mkOIDC {
  oi_Issuer : string;
  oi_ClientID : string;
  oi_ClientSecret : string;
  oi_AllowedEmails : list string;
  oi_AllowedDomains : list string
}.
Record MTLSConfig := mkMTLS { ClientCAPEM : string; AllowedCNs : list string }.
Record OriginTLSConfig := mkOriginTLS { ServerName : string; CAPEM : string; PinSHA256 : list string; InsecureSkipVerify : bool }.
Record RateLimit := mkRateLimit { Requests : Z; PeriodSeconds : Z; Burst : Z; rl_Scope : string }.
Record ConnectPolicy := mkConnectPolicy { cp_Name : string; AllowAgents : list string }.
Record EndpointCredential := mkEndpointCredential { ec_Header : string; ec_Secret : string; ec_Prefix : string }.
Record EndpointIdentity := mkEndpointIdentity {
  Required : bool;
  AuthorizationHeader : bool;
  BrowserLogin : bool;
  Credentials : gmap string EndpointCredential
}.

(** A nil slice and an empty one are told apart where the code does. *)
Record EndpointPolicy := mkPolicy {
  RequestHeadersAdd : gmap string string;
  RequestHeadersRemove : list string;
  ResponseHeadersAdd : gmap string string;
  ResponseHeadersRemove : list string;
  HostHeader : string;
  StripPathPrefix : string;
  AddPathPrefix : string;
  BasicAuthUser : string;
  BasicAuthHash : string;
  IPAllow : list string;
  IPDeny : list string;
  ForceHTTPS : bool;
  MaxBodyBytes : Z;
  Compression : bool;
  OIDC : option OIDCEndpointAuth;
  MTLS : option MTLSConfig;
  RateLimit_ : option RateLimit;
  ProxyTargets : option (list string);
  LoadBalance : string;
  OriginTLS : option OriginTLSConfig;
  ServiceID : string;
  Connect : option ConnectPolicy;
  Access : option (list AccessRef);
  AccessPolicy_ : option AccessPolicy;
  Identity_ : option EndpointIdentity
}.

Definition zeroPolicy : EndpointPolicy :=
  mkPolicy ∅ [] ∅ [] "" "" "" "" "" [] [] false 0 false None None None None "" None "" None None None None.

Record Endpoint := mkEndpoint {
  ID : string;
  AgentID : string;
  ep_OrgID : string;
  Kind : string;
  Method : string;
  Lifecycle : string;
  Subdomain : string;
  Domain : string;
  Port : Z;
  Policy_ : option EndpointPolicy;
  CreatedAt : Z
}.

Definition MethodNative : string := "native".
Definition MethodOrDefault (m : string) : string := if bool_decide (m = "") then MethodNative else m.

Definition ConnectAnyAgent : string := "*".

Definition Allows (p : option ConnectPolicy) (agent : option Agent) : bool :=
  match p, agent with
  | Some p, Some agent =>
      existsb (fun allowed =>
        bool_decide (allowed = ConnectAnyAgent) || bool_decide (allowed = a_ID agent) ||
        (negb (bool_decide (a_Name agent = "")) && bool_decide (allowed = a_Name agent))) (AllowAgents p)
  | _, _ => false
  end.

Definition maxRateLimitRequests : Z := 1000000.
Definition maxRateLimitPeriod : Z := 86400.
Definition RateLimitScopeIP : string := "ip".
Definition RateLimitScopeEndpoint : string := "endpoint".

Section Texts.
Context `{lower : UnicodeLower} `{quote : UnicodeQuote}.

Definition RateLimit_Validate (r : RateLimit) : option goerr :=
  if (Requests r <? 1)%Z || (maxRateLimitRequests <? Requests r)%Z
  then Some (ENew ("rate_limit.requests must be between 1 and " +:+ Itoa maxRateLimitRequests))
  else if (PeriodSeconds r <? 1)%Z || (maxRateLimitPeriod <? PeriodSeconds r)%Z
  then Some (ENew ("rate_limit.period_seconds must be between 1 and " +:+ Itoa maxRateLimitPeriod))
  else if (Burst r <? 0)%Z || (maxRateLimitRequests <? Burst r)%Z
  then Some (ENew ("rate_limit.burst must be between 0 and " +:+ Itoa maxRateLimitRequests))
  else if bool_decide (rl_Scope r ∈ [""; RateLimitScopeIP; RateLimitScopeEndpoint]) then None
  else Some (ENew ("rate_limit.scope must be " +:+ Quote RateLimitScopeIP +:+ " or " +:+ Quote RateLimitScopeEndpoint)).

(** ** subdomain.go *)
Definition alnum (b : byte) : bool :=
  let z := byteZ b in (((97 <=? z) && (z <=? 122)) || ((48 <=? z) && (z <=? 57)))%Z.

(** The regular expression [^[a-z0-9]([a-z0-9-]{0,61}[a-z0-9])?$]. *)
Definition label_matches (s : string) : bool :=
  match bytes_of s with
  | [] => false
  | b :: l =>
      alnum b && match reverse l with
                 | [] => true
                 | c :: m => alnum c && forallb (fun x => alnum x || bool_decide (x = "-"%char)) m && (len m <=? 61)%Z
                 end
  end.

Definition reserved : list string :=
  ["app"; "api"; "www"; "admin"; "login"; "auth"; "mail"; "status"; "docs"; "static"; "assets"; "cdn"; "connect";
   "dashboard"; "console"].

Definition HostLabel (baseDomain : string) : string :=
  let host := match SplitHostPort baseDomain with Some (h, _) => h | None => baseDomain end in
  let host := ToLower (TrimSuffix (TrimSpace host) ".") in
  default "" (head (Split host ".")).

Definition subdomain_Validate (sub baseDomain : string) : option goerr :=
  if negb (label_matches sub)
  then Some (ENew ("invalid subdomain " +:+ Quote sub +:+ " (use lowercase letters, digits and hyphens, max 63 characters)"))
  else if bool_decide (sub ∈ reserved) then Some (ENew ("subdomain " +:+ Quote sub +:+ " is reserved"))
  else if negb (bool_decide (baseDomain = "")) && bool_decide (sub = HostLabel baseDomain)
  then Some (ENew ("subdomain " +:+ Quote sub +:+ " is reserved"))
  else None.
End Texts.

(** ** endpointurl/tls.go *)
Definition endpointurl_TLS (ep : Endpoint) (baseDomain : string) (port : Z) : string :=
  let host :=
    if bool_decide (Domain ep = "") && negb (bool_decide (Subdomain ep = ""))
    then Subdomain ep +:+ "." +:+ match SplitHostPort baseDomain with Some (h, _) => h | None => baseDomain end
    else Domain ep in
  if bool_decide (host = "") then ""
  else "tls://" +:+ JoinHostPort host (Itoa (if (port =? 0)%Z then 8444 else port)).
End Endpoints.
