(* ===== verification/Gateway.v ===== *)
(** * Agent connections of the gateway (internal/gateway)

    Authenticating an agent and the user bound to it, serving its control stream,
    registering endpoints, ending a session, sweeping endpoints nobody serves. Handlers are
    programs over their calls (the data store, the connection store, port listeners, the
    streams of the session); the machine runs the sessions and the questions they ask
    side by side on one connection store and one set of live sessions. *)
From S2P Require Import Prelude GoIO GoStrings GoNet Token Sessions Calls Cloudflare Decider Prog Identity Endpoints.
Import Calls Endpoints.
Import Sessions(ErrNotFound).
Import ConnStore(AgentConn, mkConn, conn_ref, conn_agent).

Module Gateway.
(** ** Policies of agents (gateway.go) *)

(** [json.Unmarshal] into an [EndpointPolicy]. *)
Class PolicyDecode := decode_policy : list byte -> option EndpointPolicy.

Definition agentSettablePolicyFields : list string :=
  ["RequestHeadersAdd"; "RequestHeadersRemove"; "ResponseHeadersAdd"; "ResponseHeadersRemove"; "HostHeader"; "StripPathPrefix";
   "AddPathPrefix"; "BasicAuthUser"; "BasicAuthHash"; "IPAllow"; "IPDeny"; "ForceHTTPS"; "MaxBodyBytes"; "Compression"; "OIDC";
   "MTLS"; "RateLimit"; "Connect"; "Identity"].

(** The fields of [EndpointPolicy] that are not in that table, in their order. *)
Record control := mkControl {
  c_ProxyTargets : option (list string);
  c_LoadBalance : string;
  c_OriginTLS : option OriginTLSConfig;
  c_ServiceID : string;
  c_Access : option (list Cloudflare.AccessRef);
  c_AccessPolicy : option Cloudflare.AccessPolicy
}.

Definition noControl : control := mkControl None "" None "" None None.

Definition control_of (p : EndpointPolicy) : control :=
  mkControl (ProxyTargets p) (LoadBalance p) (OriginTLS p) (ServiceID p) (Access p) (AccessPolicy_ p).

(** [SetZero] and [Set] of those fields, and of some others. *)
Definition with_fields (limit : option RateLimit) (connect : option ConnectPolicy) (identity : option EndpointIdentity) (c : control)
    (p : EndpointPolicy) : EndpointPolicy :=
  mkPolicy (RequestHeadersAdd p) (RequestHeadersRemove p) (ResponseHeadersAdd p) (ResponseHeadersRemove p) (HostHeader p)
    (StripPathPrefix p) (AddPathPrefix p) (BasicAuthUser p) (BasicAuthHash p) (IPAllow p) (IPDeny p) (ForceHTTPS p)
    (MaxBodyBytes p) (Compression p) (OIDC p) (MTLS p) limit (c_ProxyTargets c) (c_LoadBalance c) (c_OriginTLS c)
    (c_ServiceID c) connect (c_Access c) (c_AccessPolicy c) identity.

Definition with_control (c : control) (p : EndpointPolicy) : EndpointPolicy :=
  with_fields (RateLimit_ p) (Connect p) (Identity_ p) c p.
Definition with_identity (i : option EndpointIdentity) (p : EndpointPolicy) : EndpointPolicy :=
  with_fields (RateLimit_ p) (Connect p) i (control_of p) p.
Definition with_connect (c : option ConnectPolicy) (p : EndpointPolicy) : EndpointPolicy :=
  with_fields (RateLimit_ p) c (Identity_ p) (control_of p) p.
Definition with_limit (l : option RateLimit) (p : EndpointPolicy) : EndpointPolicy :=
  with_fields l (Connect p) (Identity_ p) (control_of p) p.

(** The names of the fields that were not zero. *)
Definition dropped_names (c : control) : list string :=
  (if bool_decide (is_Some (c_ProxyTargets c)) then ["proxy_targets"] else []) ++
  (if bool_decide (c_LoadBalance c = "") then [] else ["load_balance"]) ++
  (if bool_decide (is_Some (c_OriginTLS c)) then ["origin_tls"] else []) ++
  (if bool_decide (c_ServiceID c = "") then [] else ["service_id"]) ++
  (if bool_decide (is_Some (c_Access c)) then ["access"] else []) ++
  (if bool_decide (is_Some (c_AccessPolicy c)) then ["access_policy"] else []).

Definition no_credentials (i : EndpointIdentity) : EndpointIdentity :=
  mkEndpointIdentity (Required i) (AuthorizationHeader i) (BrowserLogin i) ∅.

Definition dropControlPlaneFields (p : EndpointPolicy) : EndpointPolicy * list string :=
  let dropped := dropped_names (control_of p) in
  let p := with_control noControl p in
  match Identity_ p with
  | Some i =>
      if bool_decide (Credentials i = ∅) then (p, dropped)
      else (with_identity (Some (no_credentials i)) p, dropped ++ ["identity.credentials"])
  | None => (p, dropped)
  end.

Definition decodePolicy `{PolicyDecode} `{UnicodeQuote} (raw : list byte) : option EndpointPolicy :=
  match raw with
  | [] => None
  | _ =>
      match decode_policy raw with
      | None => None
      | Some p =>
          let p := match RateLimit_ p with
                   | Some l => match RateLimit_Validate l with Some _ => with_limit None p | None => p end
                   | None => p
                   end in
          Some (fst (dropControlPlaneFields p))
      end
  end.

Definition mergeAgentIdentity (stored declared : option EndpointIdentity) : option EndpointIdentity :=
  match stored with
  | None => declared
  | Some s =>
      match declared with
      | None => Some s
      | Some d => Some (mkEndpointIdentity (Required s || Required d) (AuthorizationHeader d) (BrowserLogin d) (Credentials s))
      end
  end.

Definition mergeAgentPolicy (stored declared : option EndpointPolicy) : option EndpointPolicy :=
  match stored with
  | None => declared
  | Some s =>
      let d := default zeroPolicy declared in
      Some (with_identity (mergeAgentIdentity (Identity_ s) (Identity_ d)) (with_control (control_of s) d))
  end.

(** ** Messages (tunnel/protocol.go) *)
Record EndpointRequest := mkRequest {
  rq_Ref : string;
  rq_Name : string;
  rq_Private : bool;
  rq_Kind : string;
  rq_Lifecycle : string;
  rq_Subdomain : string;
  rq_Domain : string;
  rq_Port : Z;
  rq_Policy : list byte
}.

Record EndpointBinding := mkBinding {
  eb_Ref : string;
  eb_EndpointID : string;
  eb_PublicURL : string;
  eb_PathURL : string;
  eb_Kind : string;
  eb_Port : Z;
  eb_Error : string
}.

Record RegisterAck := mkAck { ack_OrgID : string; ack_AgentID : string; ack_Endpoints : list EndpointBinding }.

Record HTTPQuery := mkHTTPQuery {
  hq_Host : string;
  hq_Port : Z;
  hq_Method : string;
  hq_Path : string;
  hq_TLS : bool;
  hq_Decrypted : bool;
  hq_Auth : string;
  hq_Exit : string
}.

Record DecisionQuery := mkQuery {
  q_ID : Z;
  q_Action : string;
  q_Connect : string;
  q_Kind : string;
  q_HTTP : option HTTPQuery;
  q_SealTo : list byte
}.

Record CertRequest := mkCertRequest { cr_ID : Z; CSR : list byte }.
Record CertResponse := mkCertResponse {
  cs_ID : Z;
  Chain : list (list byte);
  Extra : list (list byte);
  cs_Allow : list string;
  cs_Bypass : list string;
  NotAfter : Z;
  cs_Error : string
}.

(** What the agent sends: the messages [serve] looks at, and any other. *)
Inductive inbound :=
| InDecision (q : option DecisionQuery)
| InCert (c : option CertRequest)
| InRegister (p : option (list EndpointRequest))
| InPing
| InOther.

Inductive outbound :=
| OutAnswer (a : Decider.DecisionAnswer)
| OutCert (c : CertResponse)
| OutAck (a : RegisterAck)
| OutPong
| OutFlush.

(** ** Calls *)

(** What [HandleAgentConnect] writes when it refuses. *)
Record http_error := mkHTTP { status : Z; text_ : string }.

Inductive req :=
| Now
| Rand (n : nat)
| GetTokenByHash (hash : string)
| GetAgent (id : string)
| TouchAgent (id : string) (t : Z)
| GetQuota (org : string)
| CountEndpoints (org : string)
| CreateEndpoint (ep : Endpoint)
| UpdateEndpoint (ep : Endpoint)
| DeleteEndpoint (id : string)
| GetEndpoint (id : string)
| GetEndpointBySubdomain (sub : string)
| GetEndpointByDomain (domain : string)
| ListEndpointsByAgent (agent : string)
| ListEndpointsByOrg (org : string)
| ListOrgs
| Authenticate (raw : string)
| Upgrade
| AddAgent (agent : string)
| RemoveAgent (agent : string)
| LiveAgent (agent : string)
| OwnedElsewhere (agent : string)
| BindEndpoint (ep agent : string)
| CloseConn (conn : AgentConn)
| CloseSelf
| Track (agent org boundOrg boundSession : string)
| Untrack
| AcceptControl
| SetControl
| Send (m : outbound)
| SendTo (conn : nat) (m : outbound)
| TakeSlot (certs : bool)
| GoDecide (q : DecisionQuery)
| GoCert (c : CertRequest)
| Decide (agent : Agent) (q : DecisionQuery)
| IssueCert (agent : Agent) (csr : list byte)
| FreeSlot (certs : bool)
| OpenPort (kind id : string) (port : Z)
| ClosePort (kind id : string)
| EndpointsChanged
| LiveOf (org : string)
| LiveBound (org : string) (sessions : list string).

(** [Decide] and [IssueCert] may panic ([None]). *)
Definition answer (r : req) : Type :=
  match r with
  | Now => Z
  | Rand _ => res (list byte)
  | GetTokenByHash _ => res StoredToken
  | GetAgent _ => res Agent
  | GetQuota _ => res Quota
  | CountEndpoints _ => res Z
  | GetEndpoint _ | GetEndpointBySubdomain _ | GetEndpointByDomain _ => res Endpoint
  | ListEndpointsByAgent _ | ListEndpointsByOrg _ => res (list Endpoint)
  | ListOrgs => res (list string)
  | Authenticate _ => res Identity.Principal
  | CreateEndpoint _ | UpdateEndpoint _ | DeleteEndpoint _ | TouchAgent _ _ | Send _ | SendTo _ _ => option goerr
  | Upgrade | AcceptControl | OwnedElsewhere _ | TakeSlot _ => bool
  | AddAgent _ | LiveAgent _ => option AgentConn
  | Decide _ _ => option Decider.DecisionAnswer
  | IssueCert _ _ => option (res CertResponse)
  | OpenPort _ _ _ => res Z
  | LiveOf _ | LiveBound _ _ => list nat
  | RemoveAgent _ | BindEndpoint _ _ | CloseConn _ | CloseSelf | Track _ _ _ _ | Untrack | SetControl | GoDecide _ | GoCert _
  | FreeSlot _ | ClosePort _ _ | EndpointsChanged => unit
  end.

Abbreviation prog := (Calls.prog answer).
Abbreviation event := (Calls.event answer).
Abbreviation ev := (@Calls.ev req answer).

(** Steps that may end the method with an error. *)
Definition andThen {A B E} (m : prog (A + E)) (f : A -> prog (B + E)) : prog (B + E) :=
  r ← m; match r with inl a => f a | inr e => Ret (inr e) end.
Notation "'must' x ':=' m 'in' k" := (andThen m (fun x => k)) (at level 10, x pattern, m at level 100, k at level 200).
Definition refuse {A} (text : string) : prog (A + goerr) := Ret (inr (ENew text)).

Section Server.
Context `{lower : UnicodeLower} `{quote : UnicodeQuote} `{ed : Token.Ed25519} `{policies : PolicyDecode}.
(** The length of the JSON text of a query, if it has one. *)
Context (query_bytes : DecisionQuery -> option Z).

(** ** Options *)
Record options := mkOptions {
  baseDomain : string;
  publicScheme : string;
  disablePathRouting : bool;
  tlsPublicPort : Z;
  has_ports : bool;
  has_udpPorts : bool;
  has_connect : bool;
  connect_decides : bool;
  has_egress : bool;
  egress_decides : bool;
  has_users : bool;
  has_certs : bool;
  unavailable : gmap string string
}.
Context (g : options).

Definition NewID (prefix : string) : prog string :=
  r ← ask (Rand 10);
  match r with
  | Fail err => Panic ("store: crypto/rand failed: " +:+ errText err)
  | Ok b =>
      let id := string_of (Identity.base32 b) in
      Ret (if bool_decide (prefix = "") then id else prefix +:+ "_" +:+ id)
  end.

(** ** URLs *)
Definition publicHost : string := match SplitHostPort (baseDomain g) with Some (h, _) => h | None => baseDomain g end.

Definition pathURL (ep : Endpoint) : string :=
  if disablePathRouting g then "" else publicScheme g +:+ "://" +:+ baseDomain g +:+ "/tunnel/" +:+ ID ep.

Definition publicURL (ep : Endpoint) : string :=
  if bool_decide (Kind ep = KindTLS) then endpointurl_TLS ep (baseDomain g) (tlsPublicPort g)
  else if PortKind (Kind ep) then
    if (Port ep =? 0)%Z then "" else Kind ep +:+ "://" +:+ publicHost +:+ ":" +:+ Itoa (Port ep)
  else if negb (bool_decide (Domain ep = "")) then publicScheme g +:+ "://" +:+ Domain ep
  else if negb (bool_decide (Subdomain ep = "")) then publicScheme g +:+ "://" +:+ Subdomain ep +:+ "." +:+ baseDomain g
  else pathURL ep.

Definition binding (ref : string) (ep : Endpoint) : EndpointBinding :=
  mkBinding ref (ID ep) (publicURL ep) (if bool_decide (Kind ep = KindHTTP) then pathURL ep else "") (Kind ep) (Port ep) "".

(** ** register.go *)
Definition bindExisting (agent : Agent) (rq : EndpointRequest) (ep : Endpoint) : prog EndpointBinding :=
  _ ← ask (BindEndpoint (ID ep) (a_ID agent));
  Ret (binding (rq_Ref rq) ep).

Definition connectName (pol : option EndpointPolicy) : string :=
  match pol with Some p => match Connect p with Some c => cp_Name c | None => "" end | None => "" end.

(** store.go *)
Definition FindConnectEndpoint (orgID ref : string) : prog (res Endpoint) :=
  r ← ask (GetEndpoint ref);
  match r with
  | Ok ep => Ret (if bool_decide (ep_OrgID ep = orgID) then Ok ep else Fail ErrNotFound)
  | Fail err =>
      if negb (errIs err ErrNotFound) then Ret (Fail err)
      else
        r ← ask (ListEndpointsByOrg orgID);
        Ret match r with
            | Fail err => Fail err
            | Ok eps =>
                match List.find (fun ep => match Policy_ ep with
                        | Some p => match Connect p with Some c => bool_decide (cp_Name c = ref) | None => false end
                        | None => false end) eps with
                | Some ep => Ok ep
                | None => Fail ErrNotFound
                end
            end
  end.

Definition connectNameOwner (agent : Agent) (name : string) : prog (option Endpoint + goerr) :=
  if bool_decide (name = "") then Ret (inl None)
  else
    r ← FindConnectEndpoint (a_OrgID agent) name;
    match r with
    | Fail err =>
        if errIs err ErrNotFound then Ret (inl None) else refuse "internal error looking up connect name"
    | Ok ep =>
        if negb (bool_decide (AgentID ep = a_ID agent))
        then refuse ("connect name " +:+ Quote name +:+ " is already used by another agent in this organization")
        else Ret (inl (Some ep))
    end.

Definition errEndpointQuotaExceeded : goerr := ENew "endpoint quota exceeded for this organization".
Definition errEndpointQuotaCheck : goerr := ENew "internal error checking endpoint quota".

Definition checkEndpointQuota (orgID : string) : prog (unit + goerr) :=
  r ← ask (GetQuota orgID);
  match r with
  | Fail err => if errIs err ErrNotFound then Ret (inl tt) else Ret (inr errEndpointQuotaCheck)
  | Ok q =>
      if (MaxEndpoints q <=? 0)%Z then Ret (inl tt)
      else
        n ← ask (CountEndpoints orgID);
        Ret match n with
            | Fail _ => inr errEndpointQuotaCheck
            | Ok n => if (MaxEndpoints q <=? n)%Z then inr errEndpointQuotaExceeded else inl tt
            end
  end.

Definition isQuotaError (err : goerr) : bool := errIs err errEndpointQuotaExceeded || errIs err errEndpointQuotaCheck.

Definition with_port (port : Z) (ep : Endpoint) : Endpoint :=
  mkEndpoint (ID ep) (AgentID ep) (ep_OrgID ep) (Kind ep) (Method ep) (Lifecycle ep) (Subdomain ep) (Domain ep) port (Policy_ ep)
    (CreatedAt ep).
Definition with_policy (pol : option EndpointPolicy) (ep : Endpoint) : Endpoint :=
  mkEndpoint (ID ep) (AgentID ep) (ep_OrgID ep) (Kind ep) (Method ep) (Lifecycle ep) (Subdomain ep) (Domain ep) (Port ep) pol
    (CreatedAt ep).

(** [claimPort] opens the port of the new endpoint. *)
Definition createEndpoint (agent : Agent) (kind lifecycle subdomain : string) (policy : option EndpointPolicy)
    (claimPort : Endpoint -> prog (Endpoint + goerr)) : prog (Endpoint + goerr) :=
  must _ := checkEndpointQuota (a_OrgID agent) in
  id ← NewID "ep";
  now ← ask Now;
  must ep := claimPort (mkEndpoint id (a_ID agent) (a_OrgID agent) kind "" lifecycle subdomain "" 0 policy now) in
  r ← ask (CreateEndpoint ep);
  match r with
  | Some _ =>
      _ ← (if negb (Port ep =? 0)%Z then ask (ClosePort (Kind ep) (ID ep)) else Ret tt);
      refuse "internal error creating endpoint"
  | None =>
      _ ← ask EndpointsChanged;
      _ ← ask (BindEndpoint (ID ep) (a_ID agent));
      Ret (inl ep)
  end.

Definition ownSubdomainEndpoint (agent : Agent) (sub kind : string) : prog (option Endpoint) :=
  r ← ask (GetEndpointBySubdomain sub);
  Ret match r with
      | Ok existing =>
          if bool_decide (AgentID existing = a_ID agent) && bool_decide (Kind existing = kind) then Some existing else None
      | Fail _ => None
      end.

Definition rebindDomain (agent : Agent) (rq : EndpointRequest) (kind domain : string) : prog (EndpointBinding + goerr) :=
  r ← ask (GetEndpointByDomain domain);
  match r with
  | Fail err =>
      if errIs err ErrNotFound
      then refuse ("custom domain " +:+ Quote domain +:+ " is not registered for this agent; create a reserved endpoint with this domain through the control API first")
      else refuse "internal error looking up domain"
  | Ok existing =>
      if negb (bool_decide (AgentID existing = a_ID agent))
      then refuse ("custom domain " +:+ Quote domain +:+ " belongs to another agent")
      else if negb (bool_decide (Kind existing = kind))
      then refuse ("custom domain " +:+ Quote domain +:+ " is registered as a " +:+ Kind existing +:+ " endpoint")
      else b ← bindExisting agent rq existing; Ret (inl b)
  end.

Definition kindError (kind : string) : option goerr := ENew <$> unavailable g !! kind.

(** The endpoint of a subdomain that is taken. *)
Definition taken_subdomain (agent : Agent) (rq : EndpointRequest) (kind sub : string) (existing : Endpoint)
    : prog (EndpointBinding + goerr) :=
  if negb (bool_decide (AgentID existing = a_ID agent)) then refuse ("subdomain " +:+ Quote sub +:+ " is already taken")
  else if negb (bool_decide (Kind existing = kind))
  then refuse ("subdomain " +:+ Quote sub +:+ " is already registered as a " +:+ Kind existing +:+ " endpoint")
  else b ← bindExisting agent rq existing; Ret (inl b).

(** A new endpoint under a subdomain, or the agent's own if another call created it. *)
Definition create_host_based (agent : Agent) (rq : EndpointRequest) (kind lifecycle sub : string) (pol : option EndpointPolicy)
    : prog (EndpointBinding + goerr) :=
  r ← createEndpoint agent kind lifecycle sub pol (fun ep => Ret (inl ep));
  match r with
  | inl ep => Ret (inl (binding (rq_Ref rq) ep))
  | inr err =>
      existing ← ownSubdomainEndpoint agent sub kind;
      match existing with
      | Some existing =>
          if negb (isQuotaError err) then b ← bindExisting agent rq existing; Ret (inl b) else Ret (inr err)
      | None => Ret (inr err)
      end
  end.

Definition registerHostBased (agent : Agent) (rq : EndpointRequest) (kind lifecycle : string) : prog (EndpointBinding + goerr) :=
  match kindError kind with
  | Some err => Ret (inr err)
  | None =>
      let sub := ToLower (TrimSpace (rq_Subdomain rq)) in
      let domain := ToLower (TrimSpace (rq_Domain rq)) in
      if negb (bool_decide (sub = "")) && negb (bool_decide (domain = ""))
      then refuse "subdomain and domain are mutually exclusive"
      else
        let pol := decodePolicy (rq_Policy rq) in
        must _ := connectNameOwner agent (connectName pol) in
        if negb (bool_decide (domain = "")) then rebindDomain agent rq kind domain
        else if bool_decide (sub = "") then
          sub ← NewID "";
          create_host_based agent rq kind lifecycle sub pol
        else
          match subdomain_Validate sub "" with
          | Some err => Ret (inr err)
          | None =>
              r ← ask (GetEndpointBySubdomain sub);
              match r with
              | Ok existing => taken_subdomain agent rq kind sub existing
              | Fail err =>
                  if errIs err ErrNotFound then create_host_based agent rq kind lifecycle sub pol
                  else refuse "internal error looking up subdomain"
              end
          end
  end.

Definition endpointPolicy (rq : EndpointRequest) : option EndpointPolicy :=
  let pol := decodePolicy (rq_Policy rq) in
  let pol := if rq_Private rq then
               let p := default zeroPolicy pol in
               Some (match Connect p with None => with_connect (Some (mkConnectPolicy "" [])) p | Some _ => p end)
             else pol in
  match pol with
  | Some p =>
      match Connect p with
      | Some c => if bool_decide (cp_Name c = "") then Some (with_connect (Some (mkConnectPolicy (rq_Name rq) (AllowAgents c))) p) else Some p
      | None => Some p
      end
  | None => None
  end.

Definition registerPrivate (agent : Agent) (rq : EndpointRequest) (kind lifecycle : string) : prog (EndpointBinding + goerr) :=
  let pol := endpointPolicy rq in
  let name := connectName pol in
  if bool_decide (name = "") then refuse "private endpoints need a name (the tunnel name or policy.connect.name)"
  else
    must existing := connectNameOwner agent name in
    match existing with
    | Some existing =>
        if negb (bool_decide (Kind existing = kind)) || negb (Port existing =? 0)%Z
        then refuse ("connect name " +:+ Quote name +:+ " is already registered as a public " +:+ Kind existing +:+ " endpoint")
        else
          let existing := with_policy (mergeAgentPolicy (Policy_ existing) pol) existing in
          _ ← ask (UpdateEndpoint existing);
          b ← bindExisting agent rq existing;
          Ret (inl b)
    | None =>
        must ep := createEndpoint agent kind lifecycle "" pol (fun ep => Ret (inl ep)) in
        Ret (inl (binding (rq_Ref rq) ep))
    end.

Definition portsFor (kind : string) : bool := if bool_decide (kind = KindUDP) then has_udpPorts g else has_ports g.

Definition openPort (rq : EndpointRequest) (kind : string) (ep : Endpoint) : prog (Endpoint + goerr) :=
  r ← ask (OpenPort kind (ID ep) (rq_Port rq));
  Ret match r with
      | Ok port => inl (with_port port ep)
      | Fail err =>
          inr (ENew (if (0 <? rq_Port rq)%Z then kind +:+ " port " +:+ Itoa (rq_Port rq) +:+ " unavailable: " +:+ errText err
                     else kind +:+ " port allocation failed: " +:+ errText err))
      end.

(** The endpoint of the agent that has the port already. *)
Definition reopen_port (agent : Agent) (rq : EndpointRequest) (kind : string) (ep : Endpoint) : prog (EndpointBinding + goerr) :=
  r ← ask (OpenPort kind (ID ep) (Port ep));
  match r with
  | Fail err => refuse (kind +:+ " port " +:+ Itoa (rq_Port rq) +:+ " unavailable: " +:+ errText err)
  | Ok _ => b ← bindExisting agent rq ep; Ret (inl b)
  end.

Definition registerPort (agent : Agent) (rq : EndpointRequest) (kind lifecycle : string) : prog (EndpointBinding + goerr) :=
  if negb (portsFor kind) then
    Ret (inr (default (ENew (kind +:+ " ingress is disabled on this server")) (kindError kind)))
  else
    let pol := endpointPolicy rq in
    must _ := connectNameOwner agent (connectName pol) in
    let create :=
      must ep := createEndpoint agent kind lifecycle "" pol (openPort rq kind) in
      Ret (inl (binding (rq_Ref rq) ep)) in
    if (0 <? rq_Port rq)%Z then
      r ← ask (ListEndpointsByAgent (a_ID agent));
      match r with
      | Fail _ => refuse ("internal error looking up " +:+ kind +:+ " endpoint")
      | Ok eps =>
          match List.find (fun ep => bool_decide (Kind ep = kind) && (Port ep =? rq_Port rq)%Z) eps with
          | Some ep => reopen_port agent rq kind ep
          | None => create
          end
      end
    else create.

Definition registerOne (agent : Agent) (rq : EndpointRequest) : prog (EndpointBinding + goerr) :=
  let kind := if bool_decide (rq_Kind rq = "") then KindHTTP else rq_Kind rq in
  let lifecycle := if bool_decide (rq_Lifecycle rq = "") then LifecycleEphemeral else rq_Lifecycle rq in
  if PortKind kind then
    if rq_Private rq then registerPrivate agent rq kind lifecycle else registerPort agent rq kind lifecycle
  else if bool_decide (kind = KindHTTP) || bool_decide (kind = KindTLS) then
    if rq_Private rq then refuse ("private applies only to tcp and udp endpoints, not " +:+ kind)
    else registerHostBased agent rq kind lifecycle
  else refuse ("unsupported endpoint kind " +:+ Quote kind +:+ " (want http, tcp, tls or udp)").

Definition handleRegister (agent : Agent) (p : option (list EndpointRequest)) : prog RegisterAck :=
  eps ← each (fun rq =>
    r ← registerOne agent rq;
    Ret match r with
        | inl b => b
        | inr err => mkBinding (rq_Ref rq) "" "" "" (rq_Kind rq) 0 (errText err)
        end) (default [] p);
  Ret (mkAck (a_OrgID agent) (a_ID agent) eps).

(** ** Connecting (gateway.go) *)

(** token/bearer.go *)
Definition Bearer (authorizationHeader : string) : string :=
  match split_bytes " " (bytes_of (TrimSpace authorizationHeader)) with
  | scheme :: rest :: more =>
      if EqualFold (string_of scheme) "Bearer" then TrimSpace (string_of (join_bytes " " (rest :: more))) else ""
  | _ => ""
  end.

Definition unavailable503 : http_error := mkHTTP 503 "temporarily unavailable, retry shortly".

Definition authenticateAgent (authorization : string) : prog (Agent + http_error) :=
  let raw := Bearer authorization in
  if bool_decide (raw = "") then Ret (inr (mkHTTP 401 "missing bearer token"))
  else
    r ← ask (GetTokenByHash (Identity.HashToken raw));
    match r with
    | Fail err => Ret (inr (if errIs err ErrNotFound then mkHTTP 401 "invalid token" else unavailable503))
    | Ok tok =>
        r ← ask (GetAgent (tk_AgentID tok));
        Ret match r with
            | Fail err => inr (if errIs err ErrNotFound then mkHTTP 403 "agent not active" else unavailable503)
            | Ok agent => if bool_decide (a_Status agent = AgentActive) then inl agent else inr (mkHTTP 403 "agent not active")
            end
    end.

Definition bindUser (userToken : string) (agent : Agent) : prog (option Identity.Principal + http_error) :=
  let raw := TrimSpace userToken in
  if bool_decide (raw = "") then Ret (inl None)
  else if negb (has_users g) then Ret (inr (mkHTTP 401 "user binding is not available on this gateway"))
  else
    r ← ask (Authenticate raw);
    Ret match r with
        | Fail err => inr (if errIs err Identity.ErrUnavailable then unavailable503 else mkHTTP 401 "invalid user token")
        | Ok p =>
            if negb (bool_decide (Identity.p_OrgID p = a_OrgID agent))
            then inr (mkHTTP 403 "user token belongs to another organization") else inl (Some p)
        end.

(** What a goroutine does next: serve the control stream, wait for a message, end the
    session, nothing more. *)
Inductive next := Serve (agent : Agent) | Loop | Stop | Done.

(** [HandleAgentConnect] up to the first message; the session is refused, closed before it
    is served, or served. *)
Definition connect (authorization userToken : string) : prog (next + http_error) :=
  must agent := authenticateAgent authorization in
  must user := bindUser userToken agent in
  up ← ask Upgrade;
  if negb up then Ret (inl Done)
  else
    superseded ← ask (AddAgent (a_ID agent));
    _ ← match superseded with Some old => ask (CloseConn old) | None => Ret tt end;
    now ← ask Now;
    _ ← ask (TouchAgent (a_ID agent) now);
    _ ← ask (Track (a_ID agent) (a_OrgID agent) (match user with Some u => Identity.p_OrgID u | None => "" end)
               (match user with Some u => Identity.p_SessionID u | None => "" end));
    Ret (inl (Serve agent)).

(** The first step of [serve]; the deferred steps follow when it fails. *)
Definition accept_control : prog next :=
  ctrl ← ask AcceptControl;
  if negb ctrl then Ret Stop
  else _ ← ask SetControl; Ret Loop.

Definition agentHasLiveSession (agentID : string) : prog bool :=
  r ← ask (LiveAgent agentID);
  match r with Some _ => Ret true | None => ask (OwnedElsewhere agentID) end.

Fixpoint cleanup_each (agentID : string) (eps : list Endpoint) : prog unit :=
  match eps with
  | [] => Ret tt
  | ep :: eps' =>
      live ← agentHasLiveSession agentID;
      if (live : bool) then Ret tt
      else
        _ ← (if PortKind (Kind ep) && (0 <? Port ep)%Z && portsFor (Kind ep) then ask (ClosePort (Kind ep) (ID ep)) else Ret tt);
        _ ← (if bool_decide (Lifecycle ep = LifecycleEphemeral)
             then _ ← ask (DeleteEndpoint (ID ep)); ask EndpointsChanged else Ret tt);
        cleanup_each agentID eps'
  end.

Definition cleanupEphemeral (agentID : string) : prog unit :=
  r ← ask (ListEndpointsByAgent agentID);
  match r with Fail _ => Ret tt | Ok eps => cleanup_each agentID eps end.

(** The deferred end of [serve]. *)
Definition end_session (agent : Agent) : prog next :=
  _ ← ask Untrack;
  _ ← ask (RemoveAgent (a_ID agent));
  _ ← ask CloseSelf;
  live ← agentHasLiveSession (a_ID agent);
  _ ← (if (live : bool) then Ret tt else cleanupEphemeral (a_ID agent));
  Ret Done.

(** ** Questions of the agent *)
Definition MaxDecisionRequestBytes : Z := 8192.
Definition DecisionActionConnect : string := "agent:connect".
Definition DecisionActionEgressRequest : string := "egress:request".
Definition CertErrorDecryptDisabled : string := "egress decryption is not enabled for this org".

Definition denyAnswer (id : Z) (reason : string) : outbound := OutAnswer (Decider.mkAnswer id false reason 0 None None).
Definition certError (id : Z) (reason : string) : outbound := OutCert (mkCertResponse id [] [] [] [] 0 reason).

Definition decisionFor (action : string) : bool :=
  if bool_decide (action = DecisionActionConnect) then has_connect g && connect_decides g
  else if bool_decide (action = DecisionActionEgressRequest) then has_egress g && egress_decides g
  else false.

(** A send whose error is ignored. *)
Definition send_ (m : outbound) : prog unit := _ ← ask (Send m); Ret tt.

Definition answerDecision (q : DecisionQuery) : prog unit :=
  if match query_bytes q with None => true | Some n => (MaxDecisionRequestBytes <? n)%Z end
  then send_ (denyAnswer (q_ID q) "invalid_request")
  else if negb (decisionFor (q_Action q)) then send_ (denyAnswer (q_ID q) "unsupported")
  else
    slot ← ask (TakeSlot false);
    if negb slot then send_ (denyAnswer (q_ID q) "busy") else ask (GoDecide q).

Definition answerCert (c : CertRequest) : prog unit :=
  if negb (has_certs g) then send_ (certError (cr_ID c) CertErrorDecryptDisabled)
  else
    slot ← ask (TakeSlot true);
    if negb slot then send_ (certError (cr_ID c) "busy") else ask (GoCert c).

(** The goroutines they start; a panic is recovered and the slot is freed. *)
Definition clamped (id : Z) (a : Decider.DecisionAnswer) : Decider.DecisionAnswer :=
  Decider.mkAnswer id (Decider.Allowed a) (Decider.Reason a)
    (Z.min (Z.max (Decider.TTLSeconds a) 0) Decider.MaxDecisionTTLSeconds) (Decider.Scope a) (Decider.Credential a).

Definition decide_job (agent : Agent) (q : DecisionQuery) : prog next :=
  r ← ask (Decide agent q);
  _ ← match r with None => Ret tt | Some a => send_ (OutAnswer (clamped (q_ID q) a)) end;
  _ ← ask (FreeSlot false);
  Ret Done.

Definition with_cert_id (id : Z) (c : CertResponse) : CertResponse :=
  mkCertResponse id (Chain c) (Extra c) (cs_Allow c) (cs_Bypass c) (NotAfter c) (cs_Error c).

Definition cert_job (agent : Agent) (c : CertRequest) : prog next :=
  r ← ask (IssueCert agent (CSR c));
  _ ← match r with
      | None => Ret tt
      | Some r =>
          let resp := match r with Ok resp => resp | Fail _ => mkCertResponse 0 [] [] [] [] 0 "certificate issuance unavailable" end in
          send_ (OutCert (with_cert_id (cr_ID c) resp))
      end;
  _ ← ask (FreeSlot true);
  Ret Done.

(** One turn of the loop of [serve]. *)
Definition handle (agent : Agent) (m : inbound) : prog next :=
  match m with
  | InDecision (Some q) => _ ← answerDecision q; Ret Loop
  | InCert (Some c) => _ ← answerCert c; Ret Loop
  | InRegister p =>
      ack ← handleRegister agent p;
      err ← ask (Send (OutAck ack));
      Ret match err with Some _ => Stop | None => Loop end
  | InPing =>
      now ← ask Now;
      _ ← ask (TouchAgent (a_ID agent) now);
      err ← ask (Send OutPong);
      Ret match err with Some _ => Stop | None => Loop end
  | InDecision None | InCert None | InOther => Ret Loop
  end.

(** ** Flushes and the sweep *)

(** [agentConn.Flush]; its error is only logged. *)
Definition Flush (conn : nat) : prog unit := _ ← ask (SendTo conn OutFlush); Ret tt.

Definition FlushOrg (org : string) : prog next :=
  conns ← ask (LiveOf org);
  _ ← each Flush conns;
  Ret Done.

Definition revoke (rev : Identity.Revocation) : prog next :=
  conns ← ask (LiveBound (Identity.rv_OrgID rev) (Identity.rv_SessionIDs rev));
  _ ← each Flush conns;
  Ret Done.

Fixpoint sweep_each (eps : list Endpoint) (swept : Z) : prog (Z + Z * goerr) :=
  match eps with
  | [] => Ret (inl swept)
  | ep :: eps' =>
      if negb (bool_decide (Lifecycle ep = LifecycleEphemeral)) then sweep_each eps' swept
      else
        live ← agentHasLiveSession (AgentID ep);
        if (live : bool) then sweep_each eps' swept
        else
          r ← ask (DeleteEndpoint (ID ep));
          match r with
          | Some err =>
              if errIs err ErrNotFound then sweep_each eps' swept
              else Ret (inr (swept, EWrap ("delete endpoint " +:+ ID ep +:+ ": ") err ""))
          | None => _ ← ask EndpointsChanged; sweep_each eps' (swept + 1)
          end
  end.

Fixpoint sweep_orgs (orgs : list string) (swept : Z) : prog (Z * option goerr) :=
  match orgs with
  | [] => Ret (swept, None)
  | org :: orgs' =>
      r ← ask (ListEndpointsByOrg org);
      match r with
      | Fail err => Ret (swept, Some (EWrap ("list endpoints for org " +:+ org +:+ ": ") err ""))
      | Ok eps =>
          r ← sweep_each eps swept;
          match r with inl swept => sweep_orgs orgs' swept | inr (swept, err) => Ret (swept, Some err) end
      end
  end.

Definition SweepOrphanedEphemeral : prog (Z * option goerr) :=
  r ← ask ListOrgs;
  match r with
  | Fail err => Ret (0%Z, Some (EWrap "list orgs: " err ""))
  | Ok orgs => sweep_orgs orgs 0
  end.

(** Streams the agent opens: where they go. *)
Inductive stream_route := ToConnect | ToEgress | Rejected.
Definition handleAgentStream (connectRef egressDest : string) : stream_route :=
  if negb (bool_decide (connectRef = "")) && bool_decide (egressDest = "") && has_connect g then ToConnect
  else if negb (bool_decide (egressDest = "")) && bool_decide (connectRef = "") && has_egress g then ToEgress
  else Rejected.

(** ** The machine *)

(** [agentConn] as the set of live sessions knows it. *)
Record live_conn := mkLive { l_agent : string; l_org : string; boundOrg : string; boundSession : string }.

Definition maxPendingDecisions : nat := 16.
Definition maxPendingCerts : nat := 2.

Record world := mkWorld {
  conns : ConnStore.ConnStore;
  live : gmap nat live_conn;
  controls : gset nat;
  deciding : gmap nat nat;
  certifying : gmap nat nat
}.

Definition w_conns (c : ConnStore.ConnStore) (w : world) : world := mkWorld c (live w) (controls w) (deciding w) (certifying w).
Definition w_live (l : gmap nat live_conn) (w : world) : world := mkWorld (conns w) l (controls w) (deciding w) (certifying w).
Definition w_slots (certs : bool) (s n : nat) (w : world) : world :=
  if certs then mkWorld (conns w) (live w) (controls w) (deciding w) (<[s := n]> (certifying w))
  else mkWorld (conns w) (live w) (controls w) (<[s := n]> (deciding w)) (certifying w).
Definition slots (certs : bool) (s : nat) (w : world) : nat := default 0 ((if certs then certifying w else deciding w) !! s).
Definition max_slots (certs : bool) : nat := if certs then maxPendingCerts else maxPendingDecisions.

Definition errNoControl : goerr := ENew "gateway: agent control stream not open".

(** The sessions in an order the map is ranged over. *)
Definition ranged (P : live_conn -> bool) (w : world) (l : list nat) : Prop :=
  NoDup l /\ forall c, c ∈ l <-> exists x, live w !! c = Some x /\ P x = true.

(** What a call of session [s] may return and does; the data store, the listeners and the
    streams may return anything. *)
Definition react (s : nat) (w : world) (r : req) : answer r -> world -> Prop :=
  match r return answer r -> world -> Prop with
  | AddAgent a => fun x w' =>
      x = (ConnStore.AddAgent (mkConn s a) (conns w)).1 /\ w' = w_conns (ConnStore.AddAgent (mkConn s a) (conns w)).2 w
  | RemoveAgent a => fun _ w' => w' = w_conns (ConnStore.RemoveAgent (mkConn s a) (conns w)) w
  | LiveAgent a => fun x w' => x = ConnStore.GetAgent a (conns w) /\ w' = w
  | BindEndpoint e a => fun _ w' => w' = w_conns (ConnStore.BindEndpoint e a (conns w)) w
  | Track a org bo bs => fun _ w' => w' = w_live (<[s := mkLive a org bo bs]> (live w)) w
  | Untrack => fun _ w' => w' = w_live (delete s (live w)) w
  | SetControl => fun _ w' => w' = mkWorld (conns w) (live w) ({[s]} ∪ controls w) (deciding w) (certifying w)
  | SendTo c m => fun x w' => (c ∉ controls w -> x = Some errNoControl) /\ w' = w
  | TakeSlot certs => fun x w' =>
      x = bool_decide (slots certs s w < max_slots certs) /\ w' = if x then w_slots certs s (S (slots certs s w)) w else w
  | FreeSlot certs => fun _ w' => w' = w_slots certs s (pred (slots certs s w)) w
  | LiveOf org => fun x w' => ranged (fun l => bool_decide (org = "") || bool_decide (l_org l = org)) w x /\ w' = w
  | LiveBound org ids => fun x w' =>
      ranged (fun l => bool_decide (boundOrg l = org) && negb (bool_decide (boundSession l = "")) &&
                       bool_decide (boundSession l ∈ ids)) w x /\ w' = w
  | _ => fun _ w' => w' = w
  end.

(** A goroutine: a session with its agent once that is known, the end of a session, a
    question of a session, or a call from elsewhere. [None]: it waits for a message. *)
Inductive phase := PSession | PEnding | PJob (s : nat) | PTask.
Record thread := mkThread { t_phase : phase; t_agent : option Agent; code : option (prog next) }.

Record machine := mkMachine {
  threads : gmap nat thread;
  started : gset nat;
  the_world : world;
  log : list (nat * event)
}.

Definition self (i : nat) (t : thread) : nat := match t_phase t with PJob s => s | _ => i end.

Inductive task := TFlush (org : string) | TRevoke (rev : Identity.Revocation) | TSweep.
Definition task_code (t : task) : prog next :=
  match t with
  | TFlush org => FlushOrg org
  | TRevoke rev => revoke rev
  | TSweep => _ ← SweepOrphanedEphemeral; Ret Done
  end.

Definition session_code (authorization userToken : string) : prog next :=
  r ← connect authorization userToken;
  Ret match r with inl n => n | inr _ => Done end.

(** The question a call starts. *)
Definition spawned (agent : Agent) (r : req) : option (prog next) :=
  match r with
  | GoDecide q => Some (decide_job agent q)
  | GoCert c => Some (cert_job agent c)
  | _ => None
  end.

Definition spawn (i j : nat) (t : thread) (r : req) (ts : gmap nat thread) : gmap nat thread :=
  match t_agent t ≫= (fun a => spawned a r) with
  | Some p => <[j := mkThread (PJob i) (t_agent t) (Some p)]> ts
  | None => ts
  end.

(** What a goroutine does when its program returned. *)
Definition resume (t : thread) (n : next) : option thread :=
  match n with
  | Serve agent => Some (mkThread PSession (Some agent) (Some accept_control))
  | Loop => Some (mkThread (t_phase t) (t_agent t) None)
  | Stop => (fun agent => mkThread PEnding (Some agent) (Some (end_session agent))) <$> t_agent t
  | Done => None
  end.

(** A panic of a served session is recovered, and the session ends; one of a handler or a
    question is recovered, too, one of another goroutine ends the process. *)
Definition panicked (t : thread) : option thread :=
  match t_phase t with
  | PSession => (fun agent => mkThread PEnding (Some agent) (Some (end_session agent))) <$> t_agent t
  | _ => None
  end.

Definition put (i : nat) (t : option thread) (ts : gmap nat thread) : gmap nat thread :=
  match t with Some t => <[i := t]> ts | None => delete i ts end.

Inductive step : machine -> machine -> Prop :=
| step_connect i auth user ts st w l :
    i ∉ st -> step (mkMachine ts st w l) (mkMachine (<[i := mkThread PSession None (Some (session_code auth user))]> ts) ({[i]} ∪ st) w l)
| step_task i t ts st w l :
    i ∉ st -> step (mkMachine ts st w l) (mkMachine (<[i := mkThread PTask None (Some (task_code t))]> ts) ({[i]} ∪ st) w l)
| step_call i j ph a r k x ts st w w' l :
    ts !! i = Some (mkThread ph a (Some (Do r k))) -> j ∉ st ->
    react (self i (mkThread ph a None)) w r x w' ->
    step (mkMachine ts st w l)
      (mkMachine (spawn i j (mkThread ph a None) r (<[i := mkThread ph a (Some (k x))]> ts)) ({[j]} ∪ st) w' (l ++ [(i, ev r x)]))
| step_ret i ph a n ts st w l :
    ts !! i = Some (mkThread ph a (Some (Ret n))) ->
    step (mkMachine ts st w l) (mkMachine (put i (resume (mkThread ph a None) n) ts) st w l)
| step_panic i ph a t ts st w l :
    ts !! i = Some (mkThread ph a (Some (Panic t))) -> ph <> PTask ->
    step (mkMachine ts st w l) (mkMachine (put i (panicked (mkThread ph a None)) ts) st w l)
| step_recv i agent m ts st w l :
    ts !! i = Some (mkThread PSession (Some agent) None) ->
    step (mkMachine ts st w l) (mkMachine (<[i := mkThread PSession (Some agent) (Some (handle agent m))]> ts) st w l)
| step_closed i agent ts st w l :
    ts !! i = Some (mkThread PSession (Some agent) None) ->
    step (mkMachine ts st w l) (mkMachine (<[i := mkThread PEnding (Some agent) (Some (end_session agent))]> ts) st w l).

Definition start : machine := mkMachine ∅ ∅ (mkWorld ConnStore.NewConnStore ∅ ∅ ∅ ∅) [].

Inductive reachable : machine -> Prop :=
| reach_start : reachable start
| reach_step m m' : reachable m -> step m m' -> reachable m'.
End Server.
End Gateway.
