(* ===== verification/GatewaySafety.v ===== *)
(** * What agents may do through the gateway

    Every call of every goroutine of [Gateway.machine], from the calls the goroutine made
    before: an agent serves and changes only its own endpoints, leaves the fields of the
    control plane alone, and endpoints are deleted only when nobody serves them. *)
From S2P Require Import Prelude GoIO GoStrings GoNet Token Sessions Calls Cloudflare Decider Prog Identity Endpoints Gateway.
Import Calls Endpoints Gateway.
Import Sessions(ErrNotFound).
Import ConnStore(AgentConn, mkConn, conn_ref, conn_agent).

Module GatewaySafety.
(** ** Policies *)

(** What an agent may declare: no field of the control plane, no credentials. *)
Definition policy_clean (pol : option EndpointPolicy) : Prop :=
  forall p, pol = Some p -> control_of p = noControl /\ forall i, Identity_ p = Some i -> Credentials i = ∅.

(** What an agent may change of a stored policy. *)
Definition policy_kept (stored pol : option EndpointPolicy) : Prop :=
  match stored with
  | None => policy_clean pol
  | Some s => exists p, pol = Some p /\ control_of p = control_of s /\
      match Identity_ s with
      | Some i => exists j, Identity_ p = Some j /\ Credentials j = Credentials i /\ (Required i = true -> Required j = true)
      | None => forall j, Identity_ p = Some j -> Credentials j = ∅
      end
  end.

Lemma control_with_fields l c i k p : control_of (with_fields l c i k p) = k.
Proof. by destruct k. Qed.

Lemma drop_clean p : policy_clean (Some (dropControlPlaneFields p).1).
Proof.
  intros ? [= <-]. unfold dropControlPlaneFields. destruct (Identity_ (with_control noControl p)) as [i|] eqn:Ei.
  - case_bool_decide as Hc; cbn [fst].
    + split; [by apply control_with_fields|]. intros j Hj. congruence.
    + split; [unfold with_identity, with_control; by rewrite !control_with_fields|]. by intros j [= <-].
  - cbn [fst]. split; [by apply control_with_fields|]. intros j Hj. congruence.
Qed.

Lemma merge_kept stored declared : policy_clean declared -> policy_kept stored (mergeAgentPolicy stored declared).
Proof.
  intros Hd. unfold policy_kept, mergeAgentPolicy. destruct stored as [s|]; [|done].
  eexists. split; [done|]. split; [unfold with_identity, with_control; by rewrite !control_with_fields|]. cbn [Identity_ with_identity with_fields].
  assert (Hd' : forall i, Identity_ (default zeroPolicy declared) = Some i -> Credentials i = ∅).
  { destruct declared as [d|]; [|done]. by apply (Hd d). }
  destruct (Identity_ s) as [i|]; cbn [mergeAgentIdentity]; [|done].
  destruct (Identity_ (default zeroPolicy declared)) as [d|]; eexists; (split; [done|]); cbn; [|done].
  split; [done|]. by intros ->.
Qed.

Section Policies.
Context `{quote : UnicodeQuote} `{policies : PolicyDecode}.

Lemma decode_clean bs : policy_clean (decodePolicy bs).
Proof.
  intros p. unfold decodePolicy. destruct bs as [|b bs]; [done|]. destruct (decode_policy (b :: bs)) as [d|]; [|done].
  intros H. by apply (drop_clean _ _ H).
Qed.

Lemma with_connect_clean c p : policy_clean (Some p) -> policy_clean (Some (with_connect c p)).
Proof. intros Hp ? [= <-]. destruct (Hp p eq_refl) as [Hc Hi]. split; [by rewrite <- Hc; destruct p|]. exact Hi. Qed.

Lemma endpointPolicy_clean rq : policy_clean (endpointPolicy rq).
Proof.
  unfold endpointPolicy. set (pol := if rq_Private rq then _ else _). assert (Hp : policy_clean pol).
  { subst pol. destruct (rq_Private rq); [|apply decode_clean].
    assert (Hz : policy_clean (Some (default zeroPolicy (decodePolicy (rq_Policy rq))))).
    { pose proof (decode_clean (rq_Policy rq)) as Hc. destruct (decodePolicy (rq_Policy rq)); [exact Hc|]. by intros ? [= <-]. }
    destruct (Connect _); [done|]. by apply with_connect_clean. }
  destruct pol as [p|]; [|done]. destruct (Connect p); [|done]. destruct (bool_decide _); [|done]. by apply with_connect_clean.
Qed.
End Policies.

(** ** What the calls of a goroutine may be *)

(** The agent showed a token of its own, and is active. *)
Definition authenticated (E : list event) (agent : Agent) : Prop :=
  exists h tok, ev (GetTokenByHash h) (Ok tok) ∈ E /\ ev (GetAgent (tk_AgentID tok)) (Ok agent) ∈ E /\ a_Status agent = AgentActive.

(** The data store returned the endpoint. *)
Definition found (E : list event) (ep : Endpoint) : Prop :=
  (exists s, ev (GetEndpointBySubdomain s) (Ok ep) ∈ E) \/ (exists d, ev (GetEndpointByDomain d) (Ok ep) ∈ E) \/
  (exists i, ev (GetEndpoint i) (Ok ep) ∈ E) \/ (exists org eps, ev (ListEndpointsByOrg org) (Ok eps) ∈ E /\ ep ∈ eps).

Definition listed (E : list event) (a : string) (ep : Endpoint) : Prop :=
  exists eps, ev (ListEndpointsByAgent a) (Ok eps) ∈ E /\ ep ∈ eps.

(** The endpoint is the agent's: it was found with the agent's id, listed for the agent,
    or created for it. *)
Definition own_endpoint (E : list event) (agent : Agent) (ep : Endpoint) : Prop :=
  (found E ep /\ AgentID ep = a_ID agent) \/ listed E (a_ID agent) ep \/
  (ev (CreateEndpoint ep) None ∈ E /\ AgentID ep = a_ID agent).

(** The organization had no limit, or room for one more. *)
Definition within_quota (E : list event) (org : string) : Prop :=
  (exists e, ev (GetQuota org) (Fail e) ∈ E /\ errIs e ErrNotFound = true) \/
  exists q, ev (GetQuota org) (Ok q) ∈ E /\
    ((MaxEndpoints q <= 0)%Z \/ exists n, ev (CountEndpoints org) (Ok n) ∈ E /\ (n < MaxEndpoints q)%Z).

Definition gw_call (E : list event) (r : req) : Prop :=
  match r with
  | BindEndpoint e a => exists agent ep, authenticated E agent /\ own_endpoint E agent ep /\ ID ep = e /\ a_ID agent = a
  | CreateEndpoint ep =>
      exists agent, authenticated E agent /\ AgentID ep = a_ID agent /\ ep_OrgID ep = a_OrgID agent /\ Domain ep = "" /\
        policy_clean (Policy_ ep) /\ within_quota E (a_OrgID agent)
  | UpdateEndpoint ep =>
      exists agent ep0 pol, authenticated E agent /\ found E ep0 /\ AgentID ep0 = a_ID agent /\ ep = with_policy pol ep0 /\
        policy_kept (Policy_ ep0) pol
  | DeleteEndpoint id =>
      exists a ep, (listed E a ep \/ (AgentID ep = a /\ exists org eps, ev (ListEndpointsByOrg org) (Ok eps) ∈ E /\ ep ∈ eps)) /\
        ID ep = id /\ Lifecycle ep = LifecycleEphemeral /\ ev (LiveAgent a) None ∈ E
  | Track a org bo bs =>
      exists agent, authenticated E agent /\ a = a_ID agent /\ org = a_OrgID agent /\
        (bs = "" \/ exists user p, ev (Authenticate user) (Ok p) ∈ E /\ bs = Identity.p_SessionID p /\ bo = org /\ Identity.p_OrgID p = org)
  | Send (OutAnswer a) => (0 <= Decider.TTLSeconds a <= Decider.MaxDecisionTTLSeconds)%Z
  | LiveOf _ | LiveBound _ _ => False
  | _ => True
  end.

(** The calls of a question, and those of a flush, which first asks for the sessions. *)
Definition job_call (E : list event) (r : req) : Prop :=
  match r with Decide _ _ | IssueCert _ _ | FreeSlot _ | Send _ => gw_call E r | _ => False end.

Definition flush_call (E : list event) (r : req) : Prop :=
  match r with
  | LiveOf _ | LiveBound _ _ => E = []
  | SendTo _ OutFlush => True
  | _ => False
  end.

(** The sessions a call was told of; every one of them was flushed. *)
Definition asked (e : event) : list nat :=
  let 'existT r x := e in
  match r return answer r -> list nat with LiveOf _ | LiveBound _ _ => fun x => x | _ => fun _ => [] end x.

Definition flush_done (E : list event) : Prop :=
  forall e c, e ∈ E -> c ∈ asked e -> exists y, ev (SendTo c OutFlush) y ∈ E.

Lemma authenticated_mono E E' agent : E `prefix_of` E' -> authenticated E agent -> authenticated E' agent.
Proof. intros HE (h&tok&?&?&?). exists h, tok. eauto using elem_of_prefix. Qed.

Lemma found_mono E E' ep : E `prefix_of` E' -> found E ep -> found E' ep.
Proof.
  intros HE [(s&?)|[(d&?)|[(i&?)|(org&eps&?&?)]]]; [left|right; left|right; right; left|right; right; right];
    eauto using elem_of_prefix.
Qed.

Lemma own_mono E E' agent ep : E `prefix_of` E' -> own_endpoint E agent ep -> own_endpoint E' agent ep.
Proof.
  intros HE [[??]|[(eps&?&?)|[??]]]; [left; eauto using found_mono|right; left; exists eps; eauto using elem_of_prefix|].
  right; right. eauto using elem_of_prefix.
Qed.

Lemma quota_mono E E' org : E `prefix_of` E' -> within_quota E org -> within_quota E' org.
Proof.
  intros HE [(e&?&?)|(q&?&[?|(n&?&?)])]; [left; eauto using elem_of_prefix| |]; right; exists q;
    (split; [eauto using elem_of_prefix|]); [by left|right; eauto using elem_of_prefix].
Qed.

Abbreviation runs := (does gw_call).

(** A call that is always permitted. *)
Lemma runs_free {B} E r (f : answer r -> prog B) R :
  (forall E, gw_call E r) -> (forall E' x, E `prefix_of` E' -> ev r x ∈ E' -> runs E' (f x) R) -> runs E (ask r ≫= f) R.
Proof. intros HQ. by apply does_ask_bind. Qed.

Section Server.
Context `{lower : UnicodeLower} `{quote : UnicodeQuote} `{ed : Token.Ed25519} `{policies : PolicyDecode}.
Context (query_bytes : DecisionQuery -> option Z) (g : options).

Lemma NewID_runs E prefix : runs E (NewID prefix) (fun _ _ => True).
Proof. unfold NewID. apply (runs_free _ (Rand 10)); [done|]. intros E1 [b|e] _ _; [by apply does_ret|apply does_panic]. Qed.

Lemma bindExisting_runs E agent rq ep :
  authenticated E agent -> own_endpoint E agent ep -> runs E (bindExisting g agent rq ep) (fun _ _ => True).
Proof.
  intros Ha Ho. unfold bindExisting. apply (does_ask_bind _ _ (BindEndpoint _ _)); [by exists agent, ep|]. intros. by apply does_ret.
Qed.

Lemma bound_runs E agent rq ep (R : list event -> EndpointBinding + goerr -> Prop) :
  authenticated E agent -> own_endpoint E agent ep -> (forall E b, R E (inl b)) ->
  runs E (b ← bindExisting g agent rq ep; Ret (inl b)) R.
Proof. intros Ha Ho HR. eapply does_then; [by apply bindExisting_runs|]. intros. by apply does_ret. Qed.

Lemma FindConnectEndpoint_runs E org ref :
  runs E (FindConnectEndpoint org ref) (fun E' x => match x with Ok ep => found E' ep | Fail _ => True end).
Proof.
  unfold FindConnectEndpoint. apply (runs_free _ (GetEndpoint ref)); [done|]. intros E1 [ep|e] _ Hev.
  - apply does_ret. case_bool_decide; [|done]. right; right; left. eauto.
  - destruct (negb _); [by apply does_ret|]. apply (runs_free _ (ListEndpointsByOrg org)); [done|].
    intros E2 [eps|e2] _ Hev2; apply does_ret; [|done]. destruct (List.find _ eps) as [ep|] eqn:Ef; [|done].
    apply List.find_some in Ef as [Hin _]. right; right; right. exists org, eps. split; [done|]. by apply list_elem_of_In.
Qed.

Lemma connectNameOwner_runs E agent name :
  runs E (connectNameOwner agent name) (fun E' x => match x with
    | inl (Some ep) => found E' ep /\ AgentID ep = a_ID agent
    | _ => True end).
Proof.
  unfold connectNameOwner. case_bool_decide; [by apply does_ret|]. eapply does_bind; [apply FindConnectEndpoint_runs|].
  intros E1 [ep|e] _ Hf.
  - case_bool_decide; cbn [negb]; by apply does_ret.
  - destruct (errIs e ErrNotFound); by apply does_ret.
Qed.

Lemma checkEndpointQuota_runs E org :
  runs E (checkEndpointQuota org) (fun E' x => match x with inl _ => within_quota E' org | inr _ => True end).
Proof.
  unfold checkEndpointQuota. apply (runs_free _ (GetQuota org)); [done|]. intros E1 [q|e] _ Hq.
  - destruct (Z.leb_spec (MaxEndpoints q) 0); [apply does_ret; right; eauto|].
    apply (runs_free _ (CountEndpoints org)); [done|]. intros E2 [n|e] HE2 Hn; apply does_ret; [|done].
    destruct (Z.leb_spec (MaxEndpoints q) n); [done|]. right. exists q. split; [by eapply elem_of_prefix|]. right. eauto.
  - destruct (errIs e ErrNotFound) eqn:Ee; apply does_ret; [|done]. left. eauto.
Qed.

(** A way of claiming a port that keeps the rest of the endpoint. *)
Definition claims (claimPort : Endpoint -> prog (Endpoint + goerr)) : Prop :=
  forall E ep, runs E (claimPort ep) (fun E' x => match x with inl ep' => exists port, ep' = with_port port ep | inr _ => True end).

Lemma createEndpoint_runs E agent kind lifecycle sub pol claimPort :
  authenticated E agent -> policy_clean pol -> claims claimPort ->
  runs E (createEndpoint agent kind lifecycle sub pol claimPort) (fun _ _ => True).
Proof.
  intros Ha Hp Hclaim. unfold createEndpoint. eapply does_bind; [apply checkEndpointQuota_runs|].
  intros E1 [u|e] HE1 Hq; [|by apply does_ret].
  eapply does_then; [apply NewID_runs|]. intros E2 id HE2. apply (runs_free _ Now); [done|]. intros E3 now HE3 _.
  eapply does_bind; [apply Hclaim|]. intros E4 [ep|e] HE4 Hep; [|by apply does_ret]. destruct Hep as (port&->).
  assert (HE : E `prefix_of` E4) by (etrans; [exact HE1|]; etrans; [exact HE2|]; by etrans).
  assert (Hq4 : within_quota E4 (a_OrgID agent)) by (eapply quota_mono, Hq; etrans; [exact HE2|]; by etrans).
  apply (does_ask_bind _ _ (CreateEndpoint _)).
  { exists agent. split_and!; try done. by eapply authenticated_mono. }
  intros E5 [err|] HE5 Hc.
  - eapply does_then; [|intros; by apply does_ret]. destruct (negb _); [|by apply does_ret].
    eapply does_any, (does_ask _ _ (ClosePort _ _)). done.
  - apply (runs_free _ EndpointsChanged); [done|]. intros E6 _ HE6 _. apply (does_ask_bind _ _ (BindEndpoint _ _)); [|intros; by apply does_ret].
    eexists agent, _. split_and!; [eapply authenticated_mono, Ha; etrans; [exact HE|]; by etrans| |done|done].
    right; right. split; [by eapply elem_of_prefix, Hc|done].
Qed.

Lemma no_claim : claims (fun ep => Ret (inl ep)).
Proof. intros E ep. apply does_ret. exists (Port ep). by destruct ep. Qed.

Lemma openPort_claims rq kind : claims (openPort rq kind).
Proof. intros E ep. unfold openPort. apply (runs_free _ (OpenPort _ _ _)); [done|]. intros E1 [p|e] _ _; apply does_ret; eauto. Qed.

Lemma ownSubdomainEndpoint_runs E agent sub kind :
  runs E (ownSubdomainEndpoint agent sub kind) (fun E' x => match x with Some ep => own_endpoint E' agent ep | None => True end).
Proof.
  unfold ownSubdomainEndpoint. apply (runs_free _ (GetEndpointBySubdomain sub)); [done|]. intros E1 [ep|e] _ Hev; apply does_ret; [|done].
  destruct (bool_decide_reflect (AgentID ep = a_ID agent)); cbn [andb]; [|done]. case_bool_decide; [|done]. left. split; [left; eauto|done].
Qed.

Lemma rebindDomain_runs E agent rq kind domain : authenticated E agent -> runs E (rebindDomain g agent rq kind domain) (fun _ _ => True).
Proof.
  intros Ha. unfold rebindDomain. apply (runs_free _ (GetEndpointByDomain domain)); [done|]. intros E1 [ep|e] HE1 Hev.
  - case_bool_decide as Hid; cbn [negb]; [|by apply does_ret]. destruct (negb _); [by apply does_ret|].
    apply bound_runs; [by eapply authenticated_mono| |done]. left. split; [right; left; eauto|done].
  - destruct (errIs e ErrNotFound); by apply does_ret.
Qed.

Lemma taken_subdomain_runs E agent rq kind sub ep :
  authenticated E agent -> found E ep -> runs E (taken_subdomain g agent rq kind sub ep) (fun _ _ => True).
Proof.
  intros Ha Hf. unfold taken_subdomain. case_bool_decide as Hid; cbn [negb]; [|by apply does_ret]. destruct (negb _); [by apply does_ret|].
  apply bound_runs; [done| |done]. by left.
Qed.

Lemma create_host_based_runs E agent rq kind lifecycle sub pol :
  authenticated E agent -> policy_clean pol -> runs E (create_host_based g agent rq kind lifecycle sub pol) (fun _ _ => True).
Proof.
  intros Ha Hp. unfold create_host_based. eapply does_then; [by apply createEndpoint_runs; [| |apply no_claim]|].
  intros E1 [ep|err] HE1; [by apply does_ret|]. eapply does_bind; [apply ownSubdomainEndpoint_runs|].
  intros E2 [ep|] HE2 Ho; [|by apply does_ret]. destruct (negb _); [|by apply does_ret].
  apply bound_runs; [eapply authenticated_mono, Ha; by etrans|done|done].
Qed.

Lemma registerHostBased_runs E agent rq kind lifecycle :
  authenticated E agent -> runs E (registerHostBased g agent rq kind lifecycle) (fun _ _ => True).
Proof.
  intros Ha. unfold registerHostBased. destruct (kindError g kind); [by apply does_ret|]. destruct (_ && _); [by apply does_ret|].
  eapply does_bind; [apply connectNameOwner_runs|]. intros E1 [o|e] HE1 _; [|by apply does_ret].
  assert (Ha1 : authenticated E1 agent) by by eapply authenticated_mono.
  destruct (negb _); [by apply rebindDomain_runs|]. destruct (bool_decide _).
  { eapply does_then; [apply NewID_runs|]. intros E2 sub HE2. apply create_host_based_runs; [by eapply authenticated_mono|apply decode_clean]. }
  destruct (subdomain_Validate _ _); [by apply does_ret|]. apply (runs_free _ (GetEndpointBySubdomain _)); [done|].
  intros E2 [ep|e] HE2 Hev.
  - apply taken_subdomain_runs; [by eapply authenticated_mono|]. left. eauto.
  - destruct (errIs e ErrNotFound); [|by apply does_ret]. apply create_host_based_runs; [by eapply authenticated_mono|apply decode_clean].
Qed.

Lemma created_runs E agent rq kind lifecycle pol claimPort :
  authenticated E agent -> policy_clean pol -> claims claimPort ->
  runs E (andThen (createEndpoint agent kind lifecycle "" pol claimPort) (fun ep => Ret (inl (binding g (rq_Ref rq) ep)))) (fun _ _ => True).
Proof. intros Ha Hp Hc. eapply does_then; [by apply createEndpoint_runs|]. intros E1 [ep|e] _; by apply does_ret. Qed.

Lemma registerPrivate_runs E agent rq kind lifecycle :
  authenticated E agent -> runs E (registerPrivate g agent rq kind lifecycle) (fun _ _ => True).
Proof.
  intros Ha. unfold registerPrivate. case_bool_decide; [by apply does_ret|].
  eapply does_bind; [apply connectNameOwner_runs|]. intros E1 [[ep|]|e] HE1 Ho; [| |by apply does_ret].
  - destruct (_ || _); [by apply does_ret|]. destruct Ho as [Hf Hid]. assert (Ha1 : authenticated E1 agent) by by eapply authenticated_mono.
    apply (does_ask_bind _ _ (UpdateEndpoint _)).
    { exists agent, ep. eexists. split_and!; [done..|]. apply merge_kept, endpointPolicy_clean. }
    intros E2 r HE2 _. eapply does_then; [|intros; by apply does_ret].
    unfold bindExisting. apply (does_ask_bind _ _ (BindEndpoint _ _)); [|intros; by apply does_ret].
    exists agent, ep. split_and!; [by eapply authenticated_mono| |done|done]. left. eauto using found_mono.
  - apply created_runs; [by eapply authenticated_mono|apply endpointPolicy_clean|apply no_claim].
Qed.

Lemma registerPort_runs E agent rq kind lifecycle :
  authenticated E agent -> runs E (registerPort g agent rq kind lifecycle) (fun _ _ => True).
Proof.
  intros Ha. unfold registerPort. destruct (negb (portsFor g kind)); [by apply does_ret|].
  eapply does_bind; [apply connectNameOwner_runs|]. intros E1 [o|e] HE1 _; [|by apply does_ret].
  assert (Hcreate : forall E', E `prefix_of` E' -> runs E' (andThen (createEndpoint agent kind lifecycle "" (endpointPolicy rq) (openPort rq kind))
    (fun ep => Ret (inl (binding g (rq_Ref rq) ep)))) (fun _ _ => True)).
  { intros E' HE'. apply created_runs; [by eapply authenticated_mono|apply endpointPolicy_clean|apply openPort_claims]. }
  destruct (0 <? rq_Port rq)%Z; [|by apply Hcreate]. apply (runs_free _ (ListEndpointsByAgent _)); [done|].
  intros E2 [eps|e] HE2 Hl; [|by apply does_ret]. destruct (List.find _ eps) as [ep|] eqn:Ef; [|apply Hcreate; by etrans].
  apply List.find_some in Ef as [Hin _]. unfold reopen_port. apply (runs_free _ (OpenPort _ _ _)); [done|].
  intros E3 [p|e] HE3 _; [|by apply does_ret]. apply bound_runs; [eapply authenticated_mono, Ha; etrans; [exact HE1|]; by etrans| |done].
  right; left. exists eps. split; [by eapply elem_of_prefix, Hl|by apply list_elem_of_In].
Qed.

Lemma registerOne_runs E agent rq : authenticated E agent -> runs E (registerOne g agent rq) (fun _ _ => True).
Proof.
  intros Ha. unfold registerOne. destruct (PortKind _).
  - destruct (rq_Private rq); [by apply registerPrivate_runs|by apply registerPort_runs].
  - destruct (_ || _); [|by apply does_ret]. destruct (rq_Private rq); [by apply does_ret|by apply registerHostBased_runs].
Qed.

Lemma handleRegister_runs E agent p : authenticated E agent -> runs E (handleRegister g agent p) (fun _ _ => True).
Proof.
  intros Ha. unfold handleRegister. eapply does_then; [|intros; by apply does_ret].
  apply (does_each _ _ (fun E => authenticated E agent)); [done|eauto using authenticated_mono|]. intros rq E1 _ Ha1.
  eapply does_then; [by apply registerOne_runs|]. intros. by apply does_ret.
Qed.

Lemma authenticateAgent_runs E auth :
  runs E (authenticateAgent auth) (fun E' x => match x with inl agent => authenticated E' agent | inr _ => True end).
Proof.
  unfold authenticateAgent. case_bool_decide; [by apply does_ret|]. apply (runs_free _ (GetTokenByHash _)); [done|].
  intros E1 [tok|e] HE1 Ht; [|by apply does_ret]. apply (runs_free _ (GetAgent _)); [done|].
  intros E2 [agent|e] HE2 Hg; apply does_ret; [|done]. case_bool_decide; [|done].
  eexists _, tok. split_and!; [by eapply elem_of_prefix, Ht|done|done].
Qed.

Lemma bindUser_runs E user agent :
  runs E (bindUser g user agent) (fun E' x => match x with
    | inl (Some p) => Identity.p_OrgID p = a_OrgID agent /\ exists raw, ev (Authenticate raw) (Ok p) ∈ E'
    | _ => True end).
Proof.
  unfold bindUser. case_bool_decide; [by apply does_ret|]. destruct (negb _); [by apply does_ret|].
  apply (runs_free _ (Authenticate _)); [done|]. intros E1 [p|e] _ Hev; apply does_ret; [|done].
  case_bool_decide; cbn [negb]; [|done]. eauto.
Qed.

Lemma session_code_runs E auth user :
  runs E (session_code g auth user) (fun E' n => match n with Serve agent => authenticated E' agent | Done => True | _ => False end).
Proof.
  unfold session_code. eapply (does_bind _ _ _ _ _ (fun E' x => match x with
    | inl (Serve agent) => authenticated E' agent | inl Done | inr _ => True | _ => False end)).
  2: { intros E1 [n|e] _ H; by apply does_ret. }
  unfold connect. eapply does_bind; [apply authenticateAgent_runs|]. intros E1 [agent|e] HE1 Ha; [|by apply does_ret].
  eapply does_bind; [apply bindUser_runs|]. intros E2 [u|e] HE2 Hu; [|by apply does_ret].
  apply (runs_free _ Upgrade); [done|]. intros E3 up HE3 _. destruct (negb up); [by apply does_ret|].
  apply (runs_free _ (AddAgent _)); [done|]. intros E4 old HE4 _. eapply does_then.
  { destruct old; [|by apply does_ret]. eapply does_any, (does_ask _ _ (CloseConn _)). done. }
  intros E5 _ HE5. apply (runs_free _ Now); [done|]. intros E6 now HE6 _. apply (runs_free _ (TouchAgent _ _)); [done|].
  intros E7 r HE7 _. assert (HE : E2 `prefix_of` E7) by (do 5 (etrans; [eassumption|]); done).
  assert (Ha7 : authenticated E7 agent) by (eapply authenticated_mono, Ha; by etrans).
  apply (does_ask_bind _ _ (Track _ _ _ _)).
  - exists agent. split_and!; [done..|]. destruct u as [p|]; [|by left]. right. destruct Hu as [Ho (raw&?)].
    exists raw, p. split_and!; [by eapply elem_of_prefix|done|done|done].
  - intros E8 x HE8 _. apply does_ret. by eapply authenticated_mono.
Qed.

Definition goes_on (E : list event) (agent : Agent) (n : next) : Prop := authenticated E agent /\ (n = Loop \/ n = Stop).

Lemma accept_control_runs E agent : authenticated E agent -> runs E accept_control (fun E' n => goes_on E' agent n).
Proof.
  intros Ha. unfold accept_control. apply (runs_free _ AcceptControl); [done|]. intros E1 up HE1 _.
  assert (Ha1 : authenticated E1 agent) by by eapply authenticated_mono.
  destruct (negb up); [apply does_ret; split; auto|]. apply (runs_free _ SetControl); [done|]. intros E2 x HE2 _.
  apply does_ret. split; [by eapply authenticated_mono|auto].
Qed.

Lemma send_runs E m : gw_call E (Send m) -> runs E (send_ m) (fun _ _ => True).
Proof. intros H. unfold send_. apply (does_ask_bind _ _ (Send m)); [done|]. intros. by apply does_ret. Qed.

Lemma ask_runs E r : gw_call E r -> runs E (ask r) (fun _ _ => True).
Proof. intros H. eapply does_any. by apply does_ask. Qed.

Lemma deny_ok E id reason : gw_call E (Send (denyAnswer id reason)).
Proof. cbn. unfold Decider.MaxDecisionTTLSeconds. lia. Qed.

Lemma answerDecision_runs E q : runs E (answerDecision query_bytes g q) (fun _ _ => True).
Proof.
  unfold answerDecision. destruct (match query_bytes q with None => _ | Some _ => _ end); [apply send_runs, deny_ok|].
  destruct (negb _); [apply send_runs, deny_ok|]. apply (runs_free _ (TakeSlot false)); [done|]. intros E1 slot _ _.
  destruct (negb slot); [apply send_runs, deny_ok|by apply ask_runs].
Qed.

Lemma answerCert_runs E c : runs E (answerCert g c) (fun _ _ => True).
Proof.
  unfold answerCert. destruct (negb _); [by apply send_runs|]. apply (runs_free _ (TakeSlot true)); [done|]. intros E1 slot _ _.
  destruct (negb slot); [by apply send_runs|by apply ask_runs].
Qed.

Lemma handle_runs E agent m : authenticated E agent -> runs E (handle query_bytes g agent m) (fun E' n => goes_on E' agent n).
Proof.
  intros Ha. assert (Hend : forall E' (err : option goerr), E `prefix_of` E' -> runs E' (Ret (match err with Some _ => Stop | None => Loop end)) (fun E' n => goes_on E' agent n)).
  { intros E' err HE'. apply does_ret. split; [by eapply authenticated_mono|]. destruct err; auto. }
  assert (Hloop : forall E', E `prefix_of` E' -> runs E' (Ret Loop) (fun E' n => goes_on E' agent n)) by (intros; by apply (Hend _ None)).
  destruct m as [[q|]|[c|]|p| |]; cbn [handle]; try (by apply Hloop).
  - eapply does_then; [apply answerDecision_runs|]. auto.
  - eapply does_then; [apply answerCert_runs|]. auto.
  - eapply does_then; [by apply handleRegister_runs|]. intros E1 ack HE1. apply (does_ask_bind _ _ (Send _)); [done|].
    intros E2 err HE2 _. apply Hend. by etrans.
  - apply (runs_free _ Now); [done|]. intros E1 now HE1 _. apply (runs_free _ (TouchAgent _ _)); [done|]. intros E2 r HE2 _.
    apply (does_ask_bind _ _ (Send _)); [done|]. intros E3 err HE3 _. apply Hend. etrans; [exact HE1|]. by etrans.
Qed.

Lemma agentHasLiveSession_runs E a :
  runs E (agentHasLiveSession a) (fun E' x => x = false -> ev (LiveAgent a) None ∈ E').
Proof.
  unfold agentHasLiveSession. apply (runs_free _ (LiveAgent a)); [done|]. intros E1 [c|] _ Hev; [by apply does_ret|].
  eapply does_weaken, (does_ask _ _ (OwnedElsewhere a)); [|done]. intros E2 x HE2 _ _. by eapply elem_of_prefix.
Qed.

Lemma cleanup_each_runs E a l eps :
  ev (ListEndpointsByAgent a) (Ok l) ∈ E -> (forall ep, ep ∈ eps -> ep ∈ l) -> runs E (cleanup_each g a eps) (fun _ _ => True).
Proof.
  revert E. induction eps as [|ep eps IH]; intros E Hl Hin; cbn [cleanup_each]; [by apply does_ret|].
  eapply does_bind; [apply agentHasLiveSession_runs|]. intros E1 [|] HE1 Hlive; [by apply does_ret|].
  eapply does_then. { destruct (_ && _); [by apply ask_runs|by apply does_ret]. }
  intros E2 _ HE2. eapply does_then.
  { case_bool_decide as He; [|by apply does_ret]. apply (does_ask_bind _ _ (DeleteEndpoint _)); [|intros; by apply ask_runs].
    exists a, ep. split_and!; [|done|done|by eapply elem_of_prefix, Hlive]. left. exists l. split; [|apply Hin; left].
    eapply elem_of_prefix, Hl. by etrans. }
  intros E3 _ HE3. apply IH; [|intros; apply Hin; by right]. eapply elem_of_prefix, Hl. etrans; [exact HE1|]. by etrans.
Qed.

Lemma end_session_runs E agent : runs E (end_session g agent) (fun _ n => n = Done).
Proof.
  unfold end_session. apply (runs_free _ Untrack); [done|]. intros E1 _ _ _. apply (runs_free _ (RemoveAgent _)); [done|].
  intros E2 _ _ _. apply (runs_free _ CloseSelf); [done|]. intros E3 _ _ _. eapply does_bind; [apply agentHasLiveSession_runs|].
  intros E4 [|] _ _; (eapply does_then; [|intros; by apply does_ret]); [by apply does_ret|].
  unfold cleanupEphemeral. apply (runs_free _ (ListEndpointsByAgent _)); [done|]. intros E5 [eps|e] _ Hl; [|by apply does_ret].
  by eapply cleanup_each_runs.
Qed.

Lemma sweep_each_runs E org l eps swept :
  ev (ListEndpointsByOrg org) (Ok l) ∈ E -> (forall ep, ep ∈ eps -> ep ∈ l) -> runs E (sweep_each eps swept) (fun _ _ => True).
Proof.
  revert E swept. induction eps as [|ep eps IH]; intros E swept Hl Hin; cbn [sweep_each]; [by apply does_ret|].
  assert (Hnext : forall E' n, E `prefix_of` E' -> runs E' (sweep_each eps n) (fun _ _ => True)).
  { intros E' n HE'. apply IH; [by eapply elem_of_prefix|intros; apply Hin; by right]. }
  case_bool_decide as He; cbn [negb]; [|by apply Hnext]. eapply does_bind; [apply agentHasLiveSession_runs|].
  intros E1 [|] HE1 Hlive; [by apply Hnext|]. apply (does_ask_bind _ _ (DeleteEndpoint _)).
  { exists (AgentID ep), ep. split_and!; [|done|done|by apply Hlive]. right. split; [done|]. exists org, l.
    split; [by eapply elem_of_prefix|apply Hin; left]. }
  intros E2 [err|] HE2 _; [destruct (errIs err ErrNotFound); [apply Hnext; by etrans|by apply does_ret]|].
  apply (runs_free _ EndpointsChanged); [done|]. intros E3 _ HE3 _. apply Hnext. etrans; [exact HE1|]. by etrans.
Qed.

Lemma sweep_runs E : runs E SweepOrphanedEphemeral (fun _ _ => True).
Proof.
  unfold SweepOrphanedEphemeral. apply (runs_free _ ListOrgs); [done|]. intros E1 [orgs|e] _ _; [|by apply does_ret].
  generalize 0%Z as swept. revert E1. induction orgs as [|org orgs IH]; intros E1 swept; cbn [sweep_orgs]; [by apply does_ret|].
  apply (runs_free _ (ListEndpointsByOrg org)); [done|]. intros E2 [eps|e] _ Hl; [|by apply does_ret].
  eapply does_then; [by eapply sweep_each_runs|]. intros E3 [n|[n e]] _; [apply IH|by apply does_ret].
Qed.
End Server.
End GatewaySafety.
