(* ===== verification/GatewayHistory.v ===== *)
(** * The history of the gateway

    The invariant of [Gateway.machine]: what every goroutine has done and will do, and that
    the connection store and the set of live sessions are those of the calls made; with it
    the theorems on agents, their endpoints and flushes. *)
From S2P Require Import Prelude GoIO GoStrings GoNet Token Sessions Calls Cloudflare Decider Prog Identity Endpoints Gateway GatewaySafety.
Import Calls Endpoints Gateway GatewaySafety.
Import Sessions(ErrNotFound).
Import ConnStore(AgentConn, mkConn, conn_ref, conn_agent).

Module GatewayHistory.
(** ** Questions and flushes *)
Lemma job_send E m : gw_call E (Send m) -> does job_call E (send_ m) (fun _ _ => True).
Proof. intros H. unfold send_. apply (does_ask_bind _ _ (Send m)); [done|]. intros. by apply does_ret. Qed.

Lemma clamped_ok E id a : gw_call E (Send (OutAnswer (clamped id a))).
Proof. cbn. unfold Decider.MaxDecisionTTLSeconds. lia. Qed.

Lemma spawned_runs E agent r p : spawned agent r = Some p -> does job_call E p (fun _ n => n = Done).
Proof.
  destruct r; try done; intros [= <-]; [unfold decide_job|unfold cert_job].
  - apply (does_ask_bind _ _ (Decide agent q)); [done|]. intros E1 [a|] _ _.
    + eapply does_then; [apply job_send, clamped_ok|]. intros E2 _ _. apply (does_ask_bind _ _ (FreeSlot false)); [done|].
      intros. by apply does_ret.
    + eapply does_then; [by apply does_ret|]. intros E2 _ _. apply (does_ask_bind _ _ (FreeSlot false)); [done|].
      intros. by apply does_ret.
  - apply (does_ask_bind _ _ (IssueCert agent (CSR c))); [done|]. intros E1 [a|] _ _.
    + eapply does_then; [by apply job_send|]. intros E2 _ _. apply (does_ask_bind _ _ (FreeSlot true)); [done|].
      intros. by apply does_ret.
    + eapply does_then; [by apply does_ret|]. intros E2 _ _. apply (does_ask_bind _ _ (FreeSlot true)); [done|].
      intros. by apply does_ret.
Qed.

Lemma flush_each E l :
  does flush_call E (each Flush l)
    (fun E' _ => (forall e c, e ∈ E' -> c ∈ asked e -> e ∈ E) /\ forall c, c ∈ l -> exists y, ev (SendTo c OutFlush) y ∈ E').
Proof.
  revert E. induction l as [|c l IH]; intros E; cbn [each].
  { apply does_mret. split; [done|]. by intros c ?%not_elem_of_nil. }
  eapply (does_bind _ _ _ _ _ (fun E' _ => (forall e c, e ∈ E' -> c ∈ asked e -> e ∈ E) /\ exists y, ev (SendTo c OutFlush) y ∈ E')).
  - split; [done|]. intros x. split; [by eexists|]. split.
    + intros e d [He|He]%elem_of_app Ha; [done|]. apply list_elem_of_singleton in He as ->. by apply not_elem_of_nil in Ha.
    + exists x. apply elem_of_app. right. left.
  - intros E1 u HE1 [Ho1 Hc1]. eapply does_bind; [apply IH|]. intros E2 ys HE2 [Ho2 Hl2]. apply does_mret. split; [eauto|].
    intros d [->|Hd]%elem_of_cons; [|by apply Hl2]. destruct Hc1 as (y&?). exists y. by eapply elem_of_prefix.
Qed.

(** A flush: the sessions are asked for once, and each is flushed. *)
Lemma flush_runs r (k : answer r -> list nat) :
  flush_call [] r -> (forall x, asked (ev r x) = k x) ->
  does flush_call [] (x ← ask r; _ ← each Flush (k x); Ret Done) (fun E n => n = Done /\ flush_done E).
Proof.
  intros Hr Hk. eapply (does_bind _ _ _ _ _ (fun E x => E = [ev r x])).
  { split; [done|]. intros x. split; [by eexists|done]. }
  intros E1 x _ ->. eapply does_bind; [apply flush_each|]. intros E2 ys HE2 [Ho Hs]. apply does_ret. split; [done|].
  intros e c He Hc. apply Hs. rewrite <- Hk. pose proof (Ho e c He Hc) as Heq. by apply list_elem_of_singleton in Heq as <-.
Qed.

Lemma FlushOrg_runs org : does flush_call [] (FlushOrg org) (fun E n => n = Done /\ flush_done E).
Proof. by apply (flush_runs (LiveOf org) (fun x => x)). Qed.

Lemma revoke_runs rev : does flush_call [] (revoke rev) (fun E n => n = Done /\ flush_done E).
Proof. by apply (flush_runs (LiveBound _ _) (fun x => x)). Qed.

(** ** The invariant *)

(** The calls of a goroutine. *)
Definition log_of (i : nat) (l : list (nat * event)) : list event :=
  omap (fun x => if decide (x.1 = i) then Some x.2 else None) l.

Lemma log_of_app i l k : log_of i (l ++ k) = log_of i l ++ log_of i k.
Proof. apply omap_app. Qed.

Lemma log_of_same i e : log_of i [(i, e)] = [e].
Proof. unfold log_of. cbn. by rewrite decide_True. Qed.

Lemma log_of_other i j e : i <> j -> log_of i [(j, e)] = [].
Proof. intros H. unfold log_of. cbn. by rewrite decide_False by done. Qed.

(** What a call does to the connection store and to the live sessions. *)
Definition conn_op (i : nat) (r : req) (c : ConnStore.ConnStore) : ConnStore.ConnStore :=
  match r with
  | AddAgent a => (ConnStore.AddAgent (mkConn i a) c).2
  | RemoveAgent a => ConnStore.RemoveAgent (mkConn i a) c
  | BindEndpoint e a => ConnStore.BindEndpoint e a c
  | _ => c
  end.

Definition live_op (i : nat) (r : req) (l : gmap nat live_conn) : gmap nat live_conn :=
  match r with
  | Track a org bo bs => <[i := mkLive a org bo bs]> l
  | Untrack => delete i l
  | _ => l
  end.

Definition replay_conns (l : list (nat * event)) : ConnStore.ConnStore :=
  foldl (fun c x => conn_op x.1 (projT1 x.2) c) ConnStore.NewConnStore l.
Definition replay_live (l : list (nat * event)) : gmap nat live_conn := foldl (fun c x => live_op x.1 (projT1 x.2) c) ∅ l.

Lemma replay_snoc l i r (x : answer r) :
  replay_conns (l ++ [(i, ev r x)]) = conn_op i r (replay_conns l) /\ replay_live (l ++ [(i, ev r x)]) = live_op i r (replay_live l).
Proof. unfold replay_conns, replay_live. by rewrite !foldl_app. Qed.

(** The session as it is tracked, from its own calls. *)
Definition tracked (E : list event) : option live_conn :=
  foldl (fun o e => match projT1 e with Track a org bo bs => Some (mkLive a org bo bs) | Untrack => None | _ => o end) None E.

(** No question about live sessions was asked. *)
Definition quiet (E : list event) : Prop := forall e, e ∈ E -> asked e = [].

Definition thread_ok (E : list event) (t : thread) : Prop :=
  match t_phase t, t_agent t, code t with
  | PSession, None, Some p =>
      quiet E /\ obeys gw_call (fun E n => match n with Serve agent => authenticated E agent | Done => True | _ => False end) p E
  | PSession, Some a, None => quiet E /\ authenticated E a
  | PSession, Some a, Some p => quiet E /\ authenticated E a /\ obeys gw_call (fun E n => goes_on E a n) p E
  | PEnding, _, Some p => quiet E /\ obeys gw_call (fun _ n => n = Done) p E
  | PJob _, _, Some p => quiet E /\ obeys job_call (fun _ n => n = Done) p E
  | PTask, None, Some p =>
      (quiet E /\ obeys gw_call (fun _ n => n = Done) p E) \/ obeys flush_call (fun E n => n = Done /\ flush_done E) p E
  | _, _, _ => False
  end.

(** The world in which a call was answered. *)
Definition answered (pre : list (nat * event)) (r : req) (x : answer r) : Prop :=
  exists s w w', conns w = replay_conns pre /\ live w = replay_live pre /\ react s w r x w'.

(** A call was permitted and answered so. *)
Definition called (pre : list (nat * event)) (x : nat * event) : Prop :=
  let E := log_of x.1 pre in
  (gw_call E (projT1 x.2) \/ flush_call E (projT1 x.2)) /\ answered pre (projT1 x.2) (projT2 x.2).

Record Inv (m : machine) : Prop := mkInv {
  inv_threads i t : threads m !! i = Some t -> i ∈ started m /\ thread_ok (log_of i (log m)) t;
  inv_done i : threads m !! i = None -> flush_done (log_of i (log m));
  inv_fresh i : i ∉ started m -> log_of i (log m) = [];
  inv_conns : conns (the_world m) = replay_conns (log m);
  inv_live : live (the_world m) = replay_live (log m);
  inv_calls pre i r x post :
    log m = pre ++ (i, ev r x) :: post -> called pre (i, ev r x)
}.

Lemma obeys_does {A} Q E (p : prog A) R : does Q E p R -> obeys Q R p E.
Proof. apply prog_obeys_weaken. by intros E' a [_ ?]. Qed.

Lemma quiet_done E : quiet E -> flush_done E.
Proof. intros Hq e c He Hc. rewrite (Hq e He) in Hc. by apply not_elem_of_nil in Hc. Qed.

Lemma quiet_snoc E r x : quiet E -> gw_call E r -> quiet (E ++ [ev r x]).
Proof.
  intros Hq Hr e [He|He]%elem_of_app; [by apply Hq|]. apply list_elem_of_singleton in He as ->. by destruct r.
Qed.

Lemma job_is_gw E r : job_call E r -> gw_call E r.
Proof. by destruct r. Qed.

Section Server.
Context `{lower : UnicodeLower} `{quote : UnicodeQuote} `{ed : Token.Ed25519} `{policies : PolicyDecode}.
Context (query_bytes : DecisionQuery -> option Z) (g : options).

(** What a goroutine that makes a call is known to do. *)
Lemma thread_call E ph a r k :
  thread_ok E (mkThread ph a (Some (Do r k))) ->
  (gw_call E r \/ flush_call E r) /\ (forall s, ph = PJob s -> job_call E r) /\
  forall x, thread_ok (E ++ [ev r x]) (mkThread ph a (Some (k x))).
Proof.
  unfold thread_ok. cbn [t_phase t_agent code obeys]. destruct ph as [| |s|].
  - destruct a as [a|].
    + intros (Hq&Ha&HQ&Hk). split_and!; [by left|done|]. intros x. split_and!; [by apply quiet_snoc| |done].
      eapply authenticated_mono, Ha. by eexists.
    + intros (Hq&HQ&Hk). split_and!; [by left|done|]. intros x. split_and!; [by apply quiet_snoc|done].
  - intros (Hq&HQ&Hk). split_and!; [by left|done|]. intros x. split_and!; [by apply quiet_snoc|done].
  - intros (Hq&HQ&Hk). split_and!; [left; by apply job_is_gw|done|]. intros x. split_and!; [|done].
    apply quiet_snoc; [done|by apply job_is_gw].
  - destruct a; [done|]. intros [(Hq&HQ&Hk)|(HQ&Hk)].
    + split_and!; [by left|done|]. intros x. left. split_and!; [by apply quiet_snoc|done].
    + split_and!; [by right|done|]. intros x. by right.
Qed.

(** The question a session starts. *)
Lemma thread_spawn i a p agent r : a = Some agent -> spawned agent r = Some p -> thread_ok [] (mkThread (PJob i) a (Some p)).
Proof.
  intros -> Hs. split; [by intros e ?%not_elem_of_nil|]. by eapply obeys_does, spawned_runs.
Qed.

Lemma ended_ok E agent : quiet E -> thread_ok E (mkThread PEnding (Some agent) (Some (end_session g agent))).
Proof. intros Hq. split; [done|]. apply obeys_does, end_session_runs. Qed.

(** When a program returned: the goroutine goes on, or is done. *)
Lemma thread_ret E ph a n :
  thread_ok E (mkThread ph a (Some (Ret n))) ->
  match resume g (mkThread ph a None) n with Some t => thread_ok E t | None => flush_done E end.
Proof.
  unfold thread_ok at 1. cbn [t_phase t_agent code obeys]. destruct ph as [| |s|].
  - destruct a as [a|].
    + intros (Hq&_&Ha&[->| ->]); cbn; [done|]. by apply ended_ok.
    + intros (Hq&HR). destruct n as [agent| | |]; try done; cbn [resume]; [|by apply quiet_done].
      split; [done|]. split; [done|]. by apply obeys_does, accept_control_runs.
  - intros (Hq& ->). by apply quiet_done.
  - intros (Hq& ->). by apply quiet_done.
  - destruct a; [done|]. intros [(Hq& ->)|(->&?)]; [by apply quiet_done|done].
Qed.

Lemma thread_panic E ph a t :
  thread_ok E (mkThread ph a (Some (Panic t))) -> ph <> PTask ->
  match panicked g (mkThread ph a None) with Some t => thread_ok E t | None => flush_done E end.
Proof.
  unfold thread_ok at 1. cbn [t_phase t_agent code obeys]. destruct ph as [| |s|]; [destruct a as [a|]|..]; intros H Hne; try done.
  - exact (ended_ok E a (proj1 H)).
  - exact (quiet_done E (proj1 H)).
  - exact (quiet_done E (proj1 H)).
  - exact (quiet_done E (proj1 H)).
Qed.

(** A goroutine starts, goes on or ends between its calls. *)
Lemma Inv_put i t ts st st' w l :
  Inv (mkMachine ts st w l) -> st ⊆ st' -> i ∈ st' ->
  match t with Some t => thread_ok (log_of i l) t | None => flush_done (log_of i l) end ->
  Inv (mkMachine (put i t ts) st' w l).
Proof.
  intros [Ht Hd Hf Hc Hl Hcalls] Hst Hi Hok. constructor; cbn [threads started the_world log] in *; try done.
  - intros j u Hj. destruct (decide (j = i)) as [->|Hne].
    + split; [done|]. destruct t as [t|]; cbn [put] in Hj; [rewrite lookup_insert_eq in Hj|by rewrite lookup_delete_eq in Hj].
      by injection Hj as <-.
    + assert (Hj' : ts !! j = Some u) by (destruct t; cbn [put] in Hj; [by rewrite lookup_insert_ne in Hj|by rewrite lookup_delete_ne in Hj]).
      destruct (Ht j u Hj'). split; [set_solver|done].
  - intros j Hj. destruct (decide (j = i)) as [->|Hne].
    + destruct t as [t|]; [|done]. cbn [put] in Hj. by rewrite lookup_insert_eq in Hj.
    + apply Hd. destruct t; cbn [put] in Hj; [by rewrite lookup_insert_ne in Hj|by rewrite lookup_delete_ne in Hj].
  - intros j Hj. apply Hf. set_solver.
Qed.

Lemma react_ops i s w r x w' :
  react s w r x w' -> (s = i \/ exists E, job_call E r) ->
  conns w' = conn_op i r (conns w) /\ live w' = live_op i r (live w).
Proof.
  intros Hr Hs. destruct r; cbn [react conn_op live_op] in *;
    try (subst w'; by split); try (destruct Hr as [_ ->]; by split);
    try (destruct Hs as [->|[? []]]; first [subst w'; by split|destruct Hr as [_ ->]; by split]).
  - destruct Hr as [-> ->]. destruct (bool_decide _), certs; by split.
  - subst w'. by destruct certs.
Qed.

Lemma spawn_cases i j ph a r ts :
  spawn i j (mkThread ph a None) r ts = ts \/
  exists agent p, a = Some agent /\ spawned agent r = Some p /\ spawn i j (mkThread ph a None) r ts = put j (Some (mkThread (PJob i) a (Some p))) ts.
Proof.
  unfold spawn. cbn [t_agent]. destruct a as [agent|]; cbn; [|by left]. destruct (spawned agent r) as [p|] eqn:Es; [|by left].
  right. by exists agent, p.
Qed.

Lemma Inv_call i ph a r k x ts st w w' l :
  Inv (mkMachine ts st w l) -> ts !! i = Some (mkThread ph a (Some (Do r k))) -> react (self i (mkThread ph a None)) w r x w' ->
  Inv (mkMachine (<[i := mkThread ph a (Some (k x))]> ts) st w' (l ++ [(i, ev r x)])).
Proof.
  intros [Ht Hd Hf Hc Hl Hcalls] Hi Hr. cbn [threads started the_world log] in *.
  destruct (Ht i _ Hi) as [Hst Hok]. apply thread_call in Hok as (HQ&Hjob&Hk).
  assert (Hops : conns w' = conn_op i r (conns w) /\ live w' = live_op i r (live w)).
  { eapply react_ops; [exact Hr|]. destruct ph as [| |s|]; [by left..| |by left]. right. eauto. }
  destruct (replay_snoc l i r x) as [Hrc Hrl].
  assert (Hsame : log_of i (l ++ [(i, ev r x)]) = log_of i l ++ [ev r x]) by by rewrite log_of_app, log_of_same.
  assert (Hother : forall j, j <> i -> log_of j (l ++ [(i, ev r x)]) = log_of j l) by (intros j Hj; by rewrite log_of_app, log_of_other, app_nil_r).
  constructor; cbn [threads started the_world log].
  - intros j t Hj. destruct (decide (j = i)) as [->|Hne].
    + rewrite lookup_insert_eq in Hj. injection Hj as <-. rewrite Hsame. by split.
    + rewrite lookup_insert_ne in Hj by done. rewrite Hother by done. by apply Ht.
  - intros j Hj. destruct (decide (j = i)) as [->|Hne]; [by rewrite lookup_insert_eq in Hj|].
    rewrite lookup_insert_ne in Hj by done. rewrite Hother by done. by apply Hd.
  - intros j Hj. rewrite Hother by (intros ->; done). by apply Hf.
  - rewrite Hrc, <- Hc. apply Hops.
  - rewrite Hrl, <- Hl. apply Hops.
  - assert (Hnew : called l (i, ev r x)).
    { split; [done|]. by eexists _, w, w'. }
    intros pre j r' y post [(->&Heq&->)|(post'&_&->)]%snoc_split; [|by eapply Hcalls]. by rewrite Heq in Hnew.
Qed.

Lemma Inv_start : Inv start.
Proof.
  constructor; cbn; try done.
  - intros i _ e c ?%not_elem_of_nil. done.
  - intros pre i r x post H. by destruct pre.
Qed.

Lemma task_ok t : thread_ok [] (mkThread PTask None (Some (task_code t))).
Proof.
  destruct t as [org|rev|]; [right; apply obeys_does, FlushOrg_runs|right; apply obeys_does, revoke_runs|left].
  split; [by intros e ?%not_elem_of_nil|]. apply obeys_does. cbn [task_code]. eapply does_then; [apply sweep_runs|]. intros. by apply does_ret.
Qed.

Lemma session_ok auth user : thread_ok [] (mkThread PSession None (Some (session_code g auth user))).
Proof. split; [by intros e ?%not_elem_of_nil|]. apply obeys_does, session_code_runs. Qed.

Lemma step_Inv m m' : Inv m -> step query_bytes g m m' -> Inv m'.
Proof.
  intros HI Hs. destruct Hs as [i auth user ts st w l Hi|i t ts st w l Hi|i j ph a r k x ts st w w' l Hi Hj Hr|i ph a n ts st w l Hi
    |i ph a t ts st w l Hi Hne|i agent m ts st w l Hi|i agent ts st w l Hi]; pose proof HI as [Ht Hd Hf _ _ _]; cbn [threads started log] in *.
  - apply (Inv_put i (Some _) ts st); [done|set_solver|set_solver|]. rewrite Hf by done. apply session_ok.
  - apply (Inv_put i (Some _) ts st); [done|set_solver|set_solver|]. rewrite Hf by done. apply task_ok.
  - pose proof (Inv_call i ph a r k x ts st w w' l HI Hi Hr) as HI'. destruct (spawn_cases i j ph a r (<[i := mkThread ph a (Some (k x))]> ts)) as [->|(agent&p&Ha&Hp&->)].
    + destruct HI' as [Ht' Hd' Hf' Hc' Hl' Hcalls']. constructor; cbn [threads started the_world log] in *; try done.
      * intros n t Hn. destruct (Ht' n t Hn). split; [set_solver|done].
      * intros n Hn. apply Hf'. set_solver.
    + apply (Inv_put j (Some _) _ st); [done|set_solver|set_solver|].
      assert (Hl : log_of j (l ++ [(i, ev r x)]) = []) by by apply (inv_fresh _ HI'). rewrite Hl. by eapply thread_spawn.
  - destruct (Ht i _ Hi) as [? Hok]. apply (Inv_put i _ ts st); [done..|]. by apply thread_ret.
  - destruct (Ht i _ Hi) as [? Hok]. apply (Inv_put i _ ts st); [done..|]. by eapply thread_panic.
  - destruct (Ht i _ Hi) as [? [Hq Ha]]. apply (Inv_put i (Some _) ts st); [done..|]. split; [done|]. split; [done|].
    by apply obeys_does, handle_runs.
  - destruct (Ht i _ Hi) as [? [Hq Ha]]. apply (Inv_put i (Some _) ts st); [done..|]. by apply ended_ok.
Qed.

Lemma gateway_Inv m : reachable query_bytes g m -> Inv m.
Proof. induction 1 as [|m m' _ IH Hs]; [apply Inv_start|by eapply step_Inv]. Qed.

(** The calls of a history that are not part of a flush. *)
Lemma gw_permitted m pre i r x post :
  reachable query_bytes g m -> log m = pre ++ (i, ev r x) :: post ->
  (match r with LiveOf _ | LiveBound _ _ | SendTo _ _ => False | _ => True end) -> gw_call (log_of i pre) r.
Proof.
  intros Hm Hl Hr. destruct (inv_calls _ (gateway_Inv m Hm) _ _ _ _ _ Hl) as [[H|H] _]; [done|]. by destruct r.
Qed.

(** ** Theorems *)


(** C9: Agents cannot set what only the control plane may: an endpoint the gateway creates is
    of the authenticated agent and its organization, within the quota that was read, without
    proxy targets, load balancing, origin TLS, service, access entries, access policy and
    credentials; one it updates is an endpoint of the agent that was read, with all of these
    as they were, and an identity that was required stays required. *)
Theorem agents_leave_control_fields m pre i r x post :
  reachable query_bytes g m -> log m = pre ++ (i, ev r x) :: post ->
  match r with
  | CreateEndpoint ep =>
      exists agent, authenticated (log_of i pre) agent /\ AgentID ep = a_ID agent /\ ep_OrgID ep = a_OrgID agent /\ Domain ep = "" /\
        policy_clean (Policy_ ep) /\ within_quota (log_of i pre) (a_OrgID agent)
  | UpdateEndpoint ep =>
      exists agent ep0 pol, authenticated (log_of i pre) agent /\ found (log_of i pre) ep0 /\ AgentID ep0 = a_ID agent /\
        ep = with_policy pol ep0 /\ policy_kept (Policy_ ep0) pol
  | _ => True
  end.
Proof. intros Hm Hl. destruct r; try done; by apply (gw_permitted m pre i _ x post). Qed.


Lemma tracked_replay c l : replay_live l !! c = tracked (log_of c l).
Proof.
  induction l as [|[i [r x]] l IH] using rev_ind; [done|]. rewrite log_of_app. unfold replay_live, tracked in *. rewrite !foldl_app. cbn [foldl].
  destruct (decide (c = i)) as [->|Hne].
  - rewrite log_of_same. cbn [foldl]. cbn. rewrite <- IH. destruct r; cbn [live_op]; try done; [by rewrite lookup_insert_eq|by rewrite lookup_delete_eq].
  - rewrite log_of_other by done. cbn. rewrite <- IH. destruct r; cbn [live_op]; try done; [by rewrite lookup_insert_ne|by rewrite lookup_delete_ne].
Qed.

End Server.
End GatewayHistory.
