(* ===== verification/GatewaySamples.v ===== *)
(** * Runs of the gateway

    An executable schedule of [Gateway.machine] against given answers of the data store, the
    runs that instantiate the theorems of [GatewayHistory], and a run in which the end of an
    old session deletes an endpoint that a new session has just been given. *)
From S2P Require Import Prelude GoIO GoStrings GoNet Token Sessions Calls Cloudflare Decider Prog Identity Endpoints Gateway GatewaySafety GatewayHistory.
Import Calls Endpoints Gateway GatewaySafety GatewayHistory.
Import Sessions(ErrNotFound).
Import ConnStore(AgentConn, mkConn, conn_ref, conn_agent).

Module GatewaySamples.
(** ** Schedules *)

(** The sessions of the map that a predicate holds of. *)
Definition matching (P : live_conn -> bool) (w : world) : list nat := elements (dom (filter (fun x => P x.2 = true) (live w))).

(** The answer and the effect of a call, with the answers [ext] of what is outside. *)
Definition reaction (s : nat) (w : world) (ext : forall r, answer r) (r : req) : answer r * world :=
  match r return answer r * world with
  | AddAgent a => ((ConnStore.AddAgent (mkConn s a) (conns w)).1, w_conns (ConnStore.AddAgent (mkConn s a) (conns w)).2 w)
  | RemoveAgent a => (tt, w_conns (ConnStore.RemoveAgent (mkConn s a) (conns w)) w)
  | LiveAgent a => (ConnStore.GetAgent a (conns w), w)
  | BindEndpoint e a => (tt, w_conns (ConnStore.BindEndpoint e a (conns w)) w)
  | Track a org bo bs => (tt, w_live (<[s := mkLive a org bo bs]> (live w)) w)
  | Untrack => (tt, w_live (delete s (live w)) w)
  | SetControl => (tt, mkWorld (conns w) (live w) ({[s]} ∪ controls w) (deciding w) (certifying w))
  | SendTo c m => (if bool_decide (c ∈ controls w) then ext (SendTo c m) else Some errNoControl, w)
  | TakeSlot certs =>
      let free := bool_decide (slots certs s w < max_slots certs) in
      (free, if free then w_slots certs s (S (slots certs s w)) w else w)
  | FreeSlot certs => (tt, w_slots certs s (pred (slots certs s w)) w)
  | LiveOf org => (matching (fun l => bool_decide (org = "") || bool_decide (l_org l = org)) w, w)
  | LiveBound org ids =>
      (matching (fun l => bool_decide (boundOrg l = org) && negb (bool_decide (boundSession l = "")) &&
                          bool_decide (boundSession l ∈ ids)) w, w)
  | r => (ext r, w)
  end.

Lemma matching_ranged P w : ranged P w (matching P w).
Proof.
  unfold ranged, matching. split; [apply NoDup_elements|]. intros c. rewrite elem_of_elements, elem_of_dom. unfold is_Some.
  setoid_rewrite map_lookup_filter_Some. done.
Qed.

Lemma reaction_ok s w ext r : react s w r (reaction s w ext r).1 (reaction s w ext r).2.
Proof.
  destruct r; cbn [reaction react fst snd]; try done.
  - split; [|done]. intros Hn. by rewrite bool_decide_false.
  - split; [apply matching_ranged|done].
  - split; [apply matching_ranged|done].
Qed.

Section Schedule.
Context `{lower : UnicodeLower} `{quote : UnicodeQuote} `{ed : Token.Ed25519} `{policies : PolicyDecode}.
Context (query_bytes : DecisionQuery -> option Z) (g : options).

(** One step of goroutine [i]; a question it starts becomes goroutine [j]. *)
Definition tick (ext : forall r, answer r) (i j : nat) (m : machine) : machine :=
  match threads m !! i with
  | Some (mkThread ph a (Some (Do r k))) =>
      if decide (j ∈ started m) then m
      else
        let t := mkThread ph a None in
        let '(x, w') := reaction (self i t) (the_world m) ext r in
        mkMachine (spawn i j t r (<[i := mkThread ph a (Some (k x))]> (threads m))) ({[j]} ∪ started m) w' (log m ++ [(i, ev r x)])
  | Some (mkThread ph a (Some (Ret n))) =>
      mkMachine (put i (resume g (mkThread ph a None) n) (threads m)) (started m) (the_world m) (log m)
  | _ => m
  end.

Definition dial (i : nat) (auth user : string) (m : machine) : machine :=
  if decide (i ∈ started m) then m
  else mkMachine (<[i := mkThread PSession None (Some (session_code g auth user))]> (threads m)) ({[i]} ∪ started m) (the_world m) (log m).

Definition begin_task (i : nat) (t : task) (m : machine) : machine :=
  if decide (i ∈ started m) then m
  else mkMachine (<[i := mkThread PTask None (Some (task_code t))]> (threads m)) ({[i]} ∪ started m) (the_world m) (log m).

Definition receive (i : nat) (x : inbound) (m : machine) : machine :=
  match threads m !! i with
  | Some (mkThread PSession (Some agent) None) =>
      mkMachine (<[i := mkThread PSession (Some agent) (Some (handle query_bytes g agent x))]> (threads m)) (started m) (the_world m) (log m)
  | _ => m
  end.

Definition hang_up (i : nat) (m : machine) : machine :=
  match threads m !! i with
  | Some (mkThread PSession (Some agent) None) =>
      mkMachine (<[i := mkThread PEnding (Some agent) (Some (end_session g agent))]> (threads m)) (started m) (the_world m) (log m)
  | _ => m
  end.

(** [n] steps of goroutine [i]; goroutines from [base] on are questions. *)
Fixpoint ticks (ext : forall r, answer r) (i base n : nat) (m : machine) : machine :=
  match n with 0 => m | S n' => ticks ext i (S base) n' (tick ext i base m) end.

Abbreviation reach := (reachable query_bytes g).

Lemma tick_reachable ext i j m : reach m -> reach (tick ext i j m).
Proof.
  intros Hm. destruct m as [ts st w l]. unfold tick. cbn [threads started the_world log].
  destruct (ts !! i) as [[ph a [[n|t|r k]|]]|] eqn:Hi; try done.
  - eapply reach_step; [exact Hm|]. by apply step_ret.
  - destruct (decide (j ∈ st)); [done|]. pose proof (reaction_ok (self i (mkThread ph a None)) w ext r) as Hr.
    destruct (reaction _ w ext r) as [x w']. eapply reach_step; [exact Hm|]. by eapply step_call.
Qed.

Lemma ticks_reachable ext i base n m : reach m -> reach (ticks ext i base n m).
Proof. revert base m. induction n as [|n IH]; intros base m Hm; [done|]. by apply IH, tick_reachable. Qed.

Lemma dial_reachable i auth user m : reach m -> reach (dial i auth user m).
Proof.
  intros Hm. destruct m as [ts st w l]. unfold dial. cbn. destruct (decide (i ∈ st)); [done|]. eapply reach_step; [exact Hm|]. by apply step_connect.
Qed.

Lemma task_reachable i t m : reach m -> reach (begin_task i t m).
Proof.
  intros Hm. destruct m as [ts st w l]. unfold begin_task. cbn. destruct (decide (i ∈ st)); [done|]. eapply reach_step; [exact Hm|]. by apply step_task.
Qed.

Lemma receive_reachable i x m : reach m -> reach (receive i x m).
Proof.
  intros Hm. destruct m as [ts st w l]. unfold receive. cbn. destruct (ts !! i) as [[[| |s|] [a|] [p|]]|] eqn:Hi; try done.
  eapply reach_step; [exact Hm|]. by apply step_recv.
Qed.

Lemma hang_up_reachable i m : reach m -> reach (hang_up i m).
Proof.
  intros Hm. destruct m as [ts st w l]. unfold hang_up. cbn. destruct (ts !! i) as [[[| |s|] [a|] [p|]]|] eqn:Hi; try done.
  eapply reach_step; [exact Hm|]. by apply step_closed.
Qed.
End Schedule.

(** ** One agent that connects twice *)
#[local] Instance sample_lower : UnicodeLower := fun s => s.
#[local] Instance sample_quote : UnicodeQuote := fun s => s.
#[local] Instance sample_ed : Token.Ed25519 := {|
  Token.PrivateKey := list byte;
  Token.NewKeyFromSeed seed := seed;
  Token.Public k := k;
  Token.ed_sign _ m := m;
  Token.ed_verify _ m s := bool_decide (s = m);
  Token.Sum256 m := m
|}.

(** A policy with a field of the control plane. *)
#[local] Instance sample_policies : PolicyDecode := fun _ =>
  Some (with_control (mkControl (Some ["127.0.0.1:22"]) "" None "svc" None None) zeroPolicy).

Definition sample_bytes (q : DecisionQuery) : option Z := Some 100%Z.
Definition sample_options : options :=
  mkOptions "example.com" "https" false 0 true true true true true true true true ∅.
Definition sample_agent : Agent := mkAgent "ag" "org" "laptop" AgentActive 0 None.
Definition sample_request : EndpointRequest := mkRequest "web" "web" false "" "" "shop" "" 0 (bytes_of "{}").

(** The endpoint the first session creates. *)
Definition sample_endpoint : Endpoint :=
  mkEndpoint ("ep_" +:+ string_of (Identity.base32 [])) "ag" "org" KindHTTP "" LifecycleEphemeral "shop" "" 0 (Some zeroPolicy) 7.

(** The store before the endpoint exists, and with it. *)
Definition sample_store (there : bool) (r : req) : answer r :=
  match r return answer r with
  | Now => 7%Z
  | Rand _ => Ok []
  | GetTokenByHash h => Ok (mkStoredToken "tok" "org" "ag" h 0 None)
  | GetAgent _ => Ok sample_agent
  | GetQuota _ => Ok (mkQuota "org" 0 5 0)
  | CountEndpoints _ => Ok (if there then 1 else 0)%Z
  | GetEndpoint _ | GetEndpointByDomain _ => Fail ErrNotFound
  | GetEndpointBySubdomain _ => if there then Ok sample_endpoint else Fail ErrNotFound
  | ListEndpointsByAgent _ | ListEndpointsByOrg _ => Ok (if there then [sample_endpoint] else [])
  | ListOrgs => Ok ["org"]
  | Authenticate _ => Fail Identity.ErrUnavailable
  | CreateEndpoint _ | UpdateEndpoint _ | DeleteEndpoint _ | TouchAgent _ _ | Send _ | SendTo _ _ => None
  | Upgrade | AcceptControl | TakeSlot _ => true
  | OwnedElsewhere _ => false
  | AddAgent _ | LiveAgent _ => None
  | Decide _ _ => None
  | IssueCert _ _ => None
  | OpenPort _ _ p => Ok p
  | LiveOf _ | LiveBound _ _ => []
  | RemoveAgent _ | BindEndpoint _ _ | CloseConn _ | CloseSelf | Track _ _ _ _ | Untrack | SetControl | GoDecide _ | GoCert _
  | FreeSlot _ | ClosePort _ _ | EndpointsChanged => tt
  end.

Abbreviation sample_reachable := (reachable sample_bytes sample_options).
Definition sample_tick (there : bool) : nat -> nat -> nat -> machine -> machine := ticks sample_options (sample_store there).

(** The first session connects and registers. *)
Definition registered : machine :=
  sample_tick false 1 300 20 (receive sample_bytes sample_options 1 (InRegister (Some [sample_request]))
    (sample_tick false 1 100 20 (dial sample_options 1 "Bearer secret" "" start))).

(** Its connection is lost; it finds that the agent is not connected. *)
Definition leaving : machine := sample_tick true 1 500 8 (hang_up sample_options 1 registered).

(** The agent connects again and is given its endpoint. *)
Definition back : machine :=
  sample_tick true 2 700 20 (receive sample_bytes sample_options 2 (InRegister (Some [sample_request]))
    (sample_tick true 2 600 20 (dial sample_options 2 "Bearer secret" "" leaving))).

(** The first session ends. *)
Definition lost : machine := sample_tick true 1 900 10 back.

(** A flush of the organization while the second session is served. *)
Definition flushed : machine := sample_tick true 3 1000 10 (begin_task 3 (TFlush "org") lost).

Lemma registered_reachable : sample_reachable registered.
Proof. apply ticks_reachable, receive_reachable, ticks_reachable, dial_reachable, reach_start. Qed.

Lemma lost_reachable : sample_reachable lost.
Proof.
  apply ticks_reachable, ticks_reachable, receive_reachable, ticks_reachable, dial_reachable, ticks_reachable, hang_up_reachable,
    registered_reachable.
Qed.

Lemma flushed_reachable : sample_reachable flushed.
Proof. apply ticks_reachable, task_reachable, lost_reachable. Qed.

Definition before (n : nat) (m : machine) : list (nat * event) := take n (log m).
Definition following (n : nat) (m : machine) : list (nat * event) := drop (S n) (log m).


Lemma agents_leave_control_fields_witness : exists agent,
  authenticated (log_of 1 (before 14 registered)) agent /\ policy_clean (Policy_ sample_endpoint) /\
  within_quota (log_of 1 (before 14 registered)) (a_OrgID agent).
Proof.
  destruct (agents_leave_control_fields sample_bytes sample_options registered (before 14 registered) 1 (CreateEndpoint sample_endpoint) None
    (following 14 registered)) as (agent&?&?&?&?&?&?); [apply registered_reachable|vm_compute; reflexivity|]. by exists agent.
Defined.



End GatewaySamples.
