(* ===== verification/Proxy.v ===== *)
(** * Reverse proxy targets

    internal/connect/proxy: targets and their parsing, the guard that resolves a target and
    refuses blocked addresses, dialing with the TLS settings of the origin and their cache,
    and the connector that opens a stream to one of the targets of an endpoint. The methods
    are programs over the calls they make; package net, crypto/tls and the stores answer. *)
From S2P Require Import Prelude GoIO GoStrings GoNet Netblock Addresses Sessions Calls Cloudflare Endpoints.

Module Proxy.
Import Netblock Addresses Calls Endpoints.
Local Open Scope Z_scope.

(** ** target.go *)
Record Target := mkTarget { t_Scheme : string; t_Host : string; t_Port : string }.
Definition SchemeUDP : string := "udp".
Definition t_TLS (t : Target) : bool := bool_decide (t_Scheme t = "https").
Definition Datagram (t : Target) : bool := bool_decide (t_Scheme t = SchemeUDP).

(** [strings.Index]. *)
Fixpoint index_bytes (p l : list byte) : option nat :=
  if prefixb p l then Some 0%nat
  else match l with [] => None | _ :: l' => S <$> index_bytes p l' end.

Definition ContainsAny (s set : string) : bool :=
  existsb (fun b => existsb (Ascii.eqb b) (bytes_of set)) (bytes_of s).

(** The errors of [net.SplitHostPort] and of base64 decoding. *)
Class NetErrors := { addr_error : string -> goerr; base64_error : string -> goerr }.
(** [AppendCertsFromPEM]: whether the text holds a certificate. *)
Class PemCerts := pem_has_cert : string -> bool.

Section Targets.
Context `{lower : UnicodeLower} `{quote : UnicodeQuote} `{url : UrlParse} `{neterr : NetErrors}.

Definition invalid_target (s what : string) : goerr := ENew ("proxy: invalid target " +:+ Quote s +:+ ": " +:+ what).

(** The host and port of a target after its scheme was split off. *)
Definition target_of (s scheme hostPort : string) : res Target :=
  match SplitHostPort hostPort with
  | None => Fail (EWrap ("proxy: invalid target " +:+ Quote s +:+ ": ") (addr_error hostPort) "")
  | Some (host, port) =>
      let bad := match Atoi port with Some n => (n <? 1) || (65535 <? n) | None => true end in
      if bad then Fail (ENew ("proxy: invalid port in target " +:+ Quote s))
      else
        let host := TrimSuffix (ToLower host) "." in
        if bool_decide (host = "") then Fail (invalid_target s "empty host")
        else Ok (mkTarget scheme host port)
  end.

Definition ParseTarget (s : string) : res Target :=
  match index_bytes (bytes_of "://") (bytes_of s) with
  | Some i =>
      let scheme := ToLower (string_of (take i (bytes_of s))) in
      if negb (bool_decide (scheme = "http")) && negb (bool_decide (scheme = "https")) && negb (bool_decide (scheme = SchemeUDP))
      then Fail (invalid_target s ("unsupported scheme " +:+ Quote scheme))
      else
        match url_Parse s with
        | Fail err => Fail (EWrap ("proxy: invalid target " +:+ Quote s +:+ ": ") err "")
        | Ok u =>
            if u_User u then Fail (invalid_target s "userinfo not allowed")
            else if negb (bool_decide (u_Path u = "")) || negb (bool_decide (u_RawQuery u = "")) ||
                    negb (bool_decide (u_Fragment u = "")) || negb (bool_decide (u_Opaque u = "")) ||
                    ContainsAny (string_of (drop (i + 3) (bytes_of s))) "/?#"
            then Fail (invalid_target s "path or query not allowed")
            else target_of s scheme (u_Host u)
        end
  | None =>
      if ContainsAny s "/?#@" then Fail (invalid_target s "must be host:port")
      else target_of s "http" s
  end.
End Targets.

(** ** guard.go *)
Definition ErrBlocked : goerr := ENew "proxy: blocked target".
Definition internalNameSuffixes : list string := [".localhost"; ".svc"; ".cluster.local"; ".local"; ".internal"].
Definition maxResolvedAddrs : Z := 8.

Record Guard := mkGuard { allowLoopback : bool; allowPrivate : bool; allowed : list IPNet }.
Definition DefaultGuard : Guard := mkGuard false false [].

Definition guard_policy (g : Guard) : Policy := Netblock.mkPolicy (allowLoopback g) (allowPrivate g) (allowed g).
Definition IPAllowed (g : Guard) (ip : IP) : bool := Netblock.IPAllowed (guard_policy g) ip.

Definition nameAllowed (g : Guard) (host : string) : bool :=
  if bool_decide (host = "localhost") && allowLoopback g then true
  else if allowPrivate g || (0 <? len (allowed g)) then negb (bool_decide (host = "localhost")) || allowLoopback g
  else if bool_decide (host = "localhost") || negb (ContainsByte host ".") then false
  else negb (existsb (HasSuffix host) internalNameSuffixes).

(** ** Calls *)

(** An address the resolver answers has four or sixteen bytes. *)
#[export] Instance ip_wf_dec ip : Decision (ip_wf ip).
Proof. unfold ip_wf. apply _. Defined.
Definition IPAddr : Type := dsig ip_wf.

(** The part of a [tls.Config] the code sets; [VerifyPins] are the pins of [VerifyConnection]. *)
Record tlsConfig := mkTLSConfig {
  cfg_ServerName : string;
  cfg_Insecure : bool;
  VerifyPins : option (list (list byte));
  RootCAs : option string
}.

Inductive req :=
| Lookup (host : string)
| DialAddr (network addr : string)
| Expired
| Handshake (conn : nat) (cfg : tlsConfig)
| CloseConn (conn : nat)
| LoadConfig (key : string)
| CountConfigs
| LoadOrStore (key : string) (cfg : tlsConfig)
| AddCount
| GetEndpoint (id : string)
| GetOrg (id : string)
| CreateOrg (id name : string) (at_ : Z)
| GetAgent (id : string)
| CreateAgent (agent : Agent)
| ListOrgs
| ListEndpointsByOrg (org : string)
| AddAgent (agent : string)
| BindEndpoint (endpointID agentID : string)
| Now
| HasHealth
| TargetHealthy (endpointID target : string)
| NextCount (endpointID : string)
| RelayDatagrams (conn : nat) (idle : string).

(** [Expired]: whether the context is done. [NextCount]: the counter of the endpoint before
    it is advanced, an unsigned 64-bit integer. [RelayDatagrams]: the near end of the pipe. *)
Definition answer (r : req) : Type :=
  match r with
  | Lookup _ => res (list IPAddr)
  | DialAddr _ _ => res nat
  | Expired | HasHealth => bool
  | Handshake _ _ => option goerr
  | LoadConfig _ => option tlsConfig
  | LoadOrStore _ _ => tlsConfig * bool
  | CountConfigs | NextCount _ | Now => Z
  | GetEndpoint _ => res Endpoint
  | GetOrg _ | GetAgent _ | CreateOrg _ _ _ | CreateAgent _ => option goerr
  | ListOrgs => res (list string)
  | ListEndpointsByOrg _ => res (list Endpoint)
  | TargetHealthy _ _ => bool * bool
  | RelayDatagrams _ _ => nat
  | CloseConn _ | AddCount | AddAgent _ | BindEndpoint _ _ => unit
  end.

Abbreviation prog := (Calls.prog answer).
Abbreviation event := (Calls.event answer).
Abbreviation ev := (@Calls.ev req answer).

(** ** dial.go: the TLS settings of an origin *)
Definition pinLength : Z := 32.
Definition maxCachedTLSConfigs : Z := 512.

(** [base64.StdEncoding.DecodeString]: line breaks are skipped, the padding ends the text. *)
Definition std_digit (b : byte) : option Z :=
  let z := byteZ b in
  if (65 <=? z) && (z <=? 90) then Some (z - 65)
  else if (97 <=? z) && (z <=? 122) then Some (z - 71)
  else if (48 <=? z) && (z <=? 57) then Some (z + 4)
  else if z =? 43 then Some 62 else if z =? 47 then Some 63 else None.

Fixpoint std_decode (l : list byte) : option (list byte) :=
  match l with
  | [] => Some []
  | a :: b :: c :: d :: l' =>
      match std_digit a, std_digit b with
      | Some x, Some y =>
          let b0 := Zbyte (Z.shiftl x 2 + Z.shiftr y 4) in
          match std_digit c, std_digit d with
          | Some z, Some w =>
              out ← std_decode l'; Some (b0 :: Zbyte (Z.shiftl y 4 + Z.shiftr z 2) :: Zbyte (Z.shiftl z 6 + w) :: out)
          | Some z, None =>
              if Ascii.eqb d "="%char && bool_decide (l' = []) then Some [b0; Zbyte (Z.shiftl y 4 + Z.shiftr z 2)] else None
          | None, _ =>
              if Ascii.eqb c "="%char && Ascii.eqb d "="%char && bool_decide (l' = []) then Some [b0] else None
          end
      | _, _ => None
      end
  | _ => None
  end.

Definition StdDecodeString (s : string) : option (list byte) :=
  std_decode (List.filter (fun b => negb (byteZ b =? 10) && negb (byteZ b =? 13)) (bytes_of s)).

Section Dialing.
Context `{lower : UnicodeLower} `{quote : UnicodeQuote} `{url : UrlParse} `{neterr : NetErrors} `{pem : PemCerts}.

Definition decodePin (pin : string) : res (list byte) :=
  match StdDecodeString pin with
  | None => Fail (EWrap ("origin_tls.pin_sha256 " +:+ Quote pin +:+ " is not base64: ") (base64_error pin) "")
  | Some raw =>
      if negb (len raw =? pinLength)
      then Fail (ENew ("origin_tls.pin_sha256 " +:+ Quote pin +:+ " must decode to " +:+ Itoa pinLength +:+ " bytes"))
      else Ok raw
  end.

Fixpoint decodePins (pins : list string) : res (list (list byte)) :=
  match pins with
  | [] => Ok []
  | p :: pins' =>
      match decodePin p with
      | Fail err => Fail err
      | Ok raw => match decodePins pins' with Fail err => Fail err | Ok raws => Ok (raw :: raws) end
      end
  end.

Definition nul : string := String (ascii_of_N 0) "".
Definition FormatBool (b : bool) : string := if b then "true" else "false".

Definition originTLSKey (host : string) (otls : option OriginTLSConfig) : string :=
  match otls with
  | None => host
  | Some o =>
      host +:+ nul +:+ ServerName o +:+ nul +:+ FormatBool (InsecureSkipVerify o) +:+ nul +:+ CAPEM o +:+
      foldr (fun pin rest => nul +:+ pin +:+ rest) "" (PinSHA256 o)
  end.

Definition originTLSConfig (host : string) (otls : option OriginTLSConfig) : res tlsConfig :=
  match otls with
  | None => Ok (mkTLSConfig host false None None)
  | Some o =>
      let name := if bool_decide (ServerName o = "") then host else ServerName o in
      if negb (bool_decide (CAPEM o = "")) && negb (pem_has_cert (CAPEM o))
      then Fail (ENew "origin_tls.ca_pem contains no valid certificate")
      else
        match decodePins (PinSHA256 o) with
        | Fail err => Fail err
        | Ok pins =>
            Ok (if InsecureSkipVerify o then mkTLSConfig name true None None
                else if 0 <? len pins then mkTLSConfig name true (Some pins) None
                else if negb (bool_decide (CAPEM o = "")) then mkTLSConfig name false None (Some (CAPEM o))
                else mkTLSConfig name false None None)
        end
  end.

Definition ValidateOriginTLS (otls : option OriginTLSConfig) : option goerr :=
  match originTLSConfig "" otls with Ok _ => None | Fail err => Some err end.

(** The method of the guard, with its cache. *)
Definition guard_originTLSConfig (host : string) (otls : option OriginTLSConfig) : prog (res tlsConfig) :=
  let key := originTLSKey host otls in
  cached ← ask (LoadConfig key);
  match cached with
  | Some cfg => Ret (Ok cfg)
  | None =>
      match originTLSConfig host otls with
      | Fail err => Ret (Fail err)
      | Ok cfg =>
          n ← ask CountConfigs;
          if n <? maxCachedTLSConfigs then
            r ← ask (LoadOrStore key cfg);
            let '(actual, loaded) := (r : tlsConfig * bool) in
            if loaded then Ret (Ok actual) else _ ← ask AddCount; Ret (Ok cfg)
          else Ret (Ok cfg)
      end
  end.

(** ** guard.go and dial.go: resolving and dialing *)
Context (g : Guard).

Definition ValidateTarget (target : string) : option goerr :=
  match ParseTarget target with
  | Fail err => Some err
  | Ok t =>
      if negb (bool_decide (ParseIP (t_Host t) = nilIP)) then
        if negb (IPAllowed g (ParseIP (t_Host t)))
        then Some (EWrap "" ErrBlocked (": target " +:+ Quote target +:+ " is a blocked address")) else None
      else if negb (nameAllowed g (t_Host t))
      then Some (EWrap "" ErrBlocked (": target " +:+ Quote target +:+ " is an internal name")) else None
  end.

Definition blocked_address (target : string) : goerr :=
  EWrap "" ErrBlocked (": target " +:+ Quote target +:+ " resolves to a blocked address").

Definition resolved (ip : IP) (port : string) : string := JoinHostPort (ip_string (Normalize ip)) port.

Fixpoint admit_addrs (target port : string) (addrs : list IPAddr) (out : list string) : res (list string) :=
  match addrs with
  | [] => Ok out
  | a :: addrs' =>
      if negb (IPAllowed g (`a)) then Fail (blocked_address target)
      else
        let addr := resolved (`a) port in
        admit_addrs target port addrs'
          (if (len out <? maxResolvedAddrs) && negb (bool_decide (addr ∈ out)) then out ++ [addr] else out)
  end.

Definition ResolveAll (target : string) : prog (res (list string)) :=
  match ParseTarget target with
  | Fail err => Ret (Fail err)
  | Ok t =>
      if negb (bool_decide (ParseIP (t_Host t) = nilIP)) then
        if negb (IPAllowed g (ParseIP (t_Host t))) then Ret (Fail (blocked_address target))
        else Ret (Ok [resolved (ParseIP (t_Host t)) (t_Port t)])
      else if negb (nameAllowed g (t_Host t))
      then Ret (Fail (EWrap "" ErrBlocked (": target " +:+ Quote target +:+ " is an internal name")))
      else
        r ← ask (Lookup (t_Host t));
        match r with
        | Fail err => Ret (Fail (EWrap ("proxy: resolve " +:+ Quote (t_Host t) +:+ ": ") err ""))
        | Ok [] => Ret (Fail (ENew ("proxy: target " +:+ Quote target +:+ " did not resolve")))
        | Ok addrs => Ret (admit_addrs target (t_Port t) addrs [])
        end
  end.

(** [errors.Join(errs...)]. *)
Definition join_errors (errs : list goerr) : option goerr :=
  match errs with [] => None | e :: errs' => Some (errors_Join e errs') end.

(** [errs]: the errors so far. *)
Fixpoint dialFirst (network : string) (addrs : list string) (errs : list goerr) : prog (option nat * option goerr) :=
  match addrs with
  | [] => Ret (None, join_errors errs)
  | addr :: addrs' =>
      r ← ask (DialAddr network addr);
      match r with
      | Ok c => Ret (Some c, None)
      | Fail err =>
          let errs := errs ++ [err] in
          over ← ask Expired;
          if over : bool then Ret (None, join_errors errs)
          else dialFirst network addrs' errs
      end
  end.

Definition dial_tls (target : string) (raw : option nat) (cfg : tlsConfig) : prog (res (option nat)) :=
  match raw with
  | None => Panic "invalid memory address or nil pointer dereference"
  | Some c =>
      r ← ask (Handshake c cfg);
      match r with
      | Some err => _ ← ask (CloseConn c); Ret (Fail (EWrap ("proxy: tls handshake with " +:+ target +:+ ": ") err ""))
      | None => Ret (Ok (Some c))
      end
  end.

(** [Ok None]: a nil connection and no error. *)
Definition Dial (target : string) (otls : option OriginTLSConfig) : prog (res (option nat)) :=
  match ParseTarget target with
  | Fail err => Ret (Fail err)
  | Ok t =>
      cfg ← (if t_TLS t then r ← guard_originTLSConfig (t_Host t) otls;
                              Ret match r with Ok cfg => Ok (Some cfg) | Fail err => Fail err end
             else Ret (Ok None));
      match cfg with
      | Fail err => Ret (Fail err)
      | Ok tlsCfg =>
          r ← ResolveAll target;
          match r with
          | Fail err => Ret (Fail err)
          | Ok addrs =>
              r ← dialFirst (if Datagram t then "udp" else "tcp") addrs [];
              match r with
              | (_, Some err) => Ret (Fail (EWrap ("proxy: dial " +:+ target +:+ ": ") err ""))
              | (raw, None) => match tlsCfg with None => Ret (Ok raw) | Some cfg => dial_tls target raw cfg end
              end
          end
      end
  end.

(** ** proxy.go *)
Definition uint64 (z : Z) : Z := z mod 2 ^ 64.

(** FNV-1a ([hash/fnv.New64a]). *)
Definition fnv64a (l : list byte) : Z :=
  fold_left (fun h b => uint64 (Z.lxor h (byteZ b) * 1099511628211)) l 14695981039346656037.

Definition rendezvousScore (clientIP target : string) : Z :=
  fnv64a (bytes_of clientIP ++ ["|"%char] ++ bytes_of target).

Definition by_score (clientIP : string) (a b : string) : bool := rendezvousScore clientIP b <=? rendezvousScore clientIP a.
Definition rendezvousOrder (clientIP : string) (targets : list string) : list string := sort_by (by_score clientIP) targets.

Definition rotated {A} (offset : nat) (l : list A) : list A := drop offset l ++ take offset l.

(** The targets not known to be unhealthy, and the others. *)
Fixpoint split_health (h : bool) (endpointID : string) (targets : list string) : prog (list string * list string) :=
  match targets with
  | [] => Ret ([], [])
  | t :: targets' =>
      down ← (if h then r ← ask (TargetHealthy endpointID t); Ret (snd (r : bool * bool) && negb (fst (r : bool * bool)))
              else Ret false);
      r ← split_health h endpointID targets';
      let '(preferred, fallback) := (r : list string * list string) in
      Ret (if down : bool then (preferred, t :: fallback) else (t :: preferred, fallback))
  end.

Definition LoadBalanceFailover : string := "failover".
Definition LoadBalanceSticky : string := "sticky".

Definition orderTargets (endpointID clientIP : string) (pol : EndpointPolicy) : prog (list string) :=
  let targets := default [] (ProxyTargets pol) in
  if len targets <? 2 then Ret targets
  else
    h ← ask HasHealth;
    r ← split_health h endpointID targets;
    let '(preferred, fallback) := (r : list string * list string) in
    preferred ←
      (if (len preferred <? 2) || bool_decide (LoadBalance pol = LoadBalanceFailover) then Ret preferred
       else if bool_decide (LoadBalance pol = LoadBalanceSticky) && negb (bool_decide (clientIP = ""))
       then Ret (rendezvousOrder clientIP preferred)
       else n ← ask (NextCount endpointID); Ret (rotated (Z.to_nat (uint64 n mod len preferred)) preferred));
    Ret (preferred ++ fallback).

Definition targetMatchesKind (target kind : string) : bool :=
  match ParseTarget target with
  | Fail _ => false
  | Ok t => Bool.eqb (Datagram t) (bool_decide (kind = KindUDP))
  end.

Fixpoint dial_targets (endpointID kind idle : string) (otls : option OriginTLSConfig) (targets : list string) (last : goerr)
    : prog (res (option nat)) :=
  let failed err := Fail (EWrap ("proxy: endpoint " +:+ endpointID +:+ ": all targets failed: ") err "") in
  match targets with
  | [] => Ret (failed last)
  | target :: targets' =>
      if negb (targetMatchesKind target kind)
      then dial_targets endpointID kind idle otls targets' (ENew ("target " +:+ target +:+ " does not carry " +:+ kind +:+ " traffic"))
      else
        r ← Dial target otls;
        match r with
        | Ok None => Ret (Ok None)
        | Ok (Some conn) =>
            if bool_decide (kind = KindUDP) then near ← ask (RelayDatagrams conn idle); Ret (Ok (Some near))
            else Ret (Ok (Some conn))
        | Fail err =>
            over ← ask Expired;
            if over : bool then Ret (failed err) else dial_targets endpointID kind idle otls targets' err
        end
  end.

(** [clientIP] and [idle] are entries of the stream's meta data. *)
Definition OpenStream (endpointID kind clientIP idle : string) : prog (res (option nat)) :=
  r ← ask (GetEndpoint endpointID);
  match r with
  | Fail err => Ret (Fail err)
  | Ok ep =>
      match Policy_ ep with
      | Some pol =>
          if len (default [] (ProxyTargets pol)) =? 0
          then Ret (Fail (ENew ("proxy: endpoint " +:+ endpointID +:+ " has no proxy_targets")))
          else
            targets ← orderTargets endpointID clientIP pol;
            dial_targets endpointID kind idle (OriginTLS pol) targets (ENew "")
      | None => Ret (Fail (ENew ("proxy: endpoint " +:+ endpointID +:+ " has no proxy_targets")))
      end
  end.
End Dialing.

(** *** Registration at startup *)
Definition ProxyAgentID : string := "ag_proxy".
Definition SystemOrgID : string := "org_system".
Definition MethodProxy : string := "proxy".

(** Of the lookups only the error is used. *)
Definition ensureAgent : prog unit :=
  e ← ask (GetOrg SystemOrgID);
  _ ← (if e : option goerr then now ← ask Now; _ ← ask (CreateOrg SystemOrgID "system" now); Ret tt else Ret tt);
  e ← ask (GetAgent ProxyAgentID);
  if e : option goerr
  then now ← ask Now; _ ← ask (CreateAgent (mkAgent ProxyAgentID SystemOrgID "agentless-proxy" AgentActive now None)); Ret tt
  else Ret tt.

Fixpoint bind_each (eps : list Endpoint) : prog unit :=
  match eps with
  | [] => Ret tt
  | ep :: eps' =>
      _ ← (if bool_decide (Method ep = MethodProxy) then ask (BindEndpoint (ID ep) ProxyAgentID) else Ret tt);
      bind_each eps'
  end.

Fixpoint bind_orgs (orgs : list string) : prog unit :=
  match orgs with
  | [] => Ret tt
  | org :: orgs' =>
      r ← ask (ListEndpointsByOrg org);
      _ ← match r with Fail _ => Ret tt | Ok eps => bind_each eps end;
      bind_orgs orgs'
  end.

Definition Register : prog unit :=
  _ ← ensureAgent;
  _ ← ask (AddAgent ProxyAgentID);
  r ← ask ListOrgs;
  match r with Fail _ => Ret tt | Ok orgs => bind_orgs orgs end.
End Proxy.
