(* ===== verification/ProxySafety.v ===== *)
(** * What the guard lets through

    Every address a dial connects to was admitted by the guard; an address that
    [ResolveAll] answered is dialled as it is, without another lookup; a stream of an
    endpoint goes to one of its own targets; and a client that sticks to a target keeps it
    while other targets come and go. *)
From S2P Require Import Prelude GoIO GoStrings GoNet Netblock Addresses Sessions Calls Cloudflare Endpoints Proxy.

Module ProxySafety.
Import Netblock Addresses Calls Endpoints Proxy.
Local Open Scope Z_scope.

(** ** Texts *)
Definition port_byte (b : byte) : bool := bool_decide (is_Some (digit b)) || Ascii.eqb b "+"%char || Ascii.eqb b "-"%char.

Lemma digits_value_bytes acc l v : digits_value acc l = Some v -> forallb port_byte l = true.
Proof.
  revert acc. induction l as [|b l IH]; intros acc; cbn [digits_value forallb]; [done|].
  destruct (digit b) as [d|] eqn:Ed; [|done]. intros H. rewrite (IH _ H). unfold port_byte. by rewrite Ed.
Qed.

Lemma Atoi_bytes s n : Atoi s = Some n -> forallb port_byte (bytes_of s) = true.
Proof.
  unfold Atoi. assert (forall (neg : bool) l, match l with [] => None | _ => match digits_value 0 l with
      | Some v => let v := if neg then - v else v in if (- 2 ^ 63 <=? v) && (v <? 2 ^ 63) then Some v else None | None => None end end = Some n ->
      forallb port_byte l = true) as H.
  { intros neg [|b l]; [done|]. destruct (digits_value 0 (b :: l)) eqn:E; [|done]. intros _. by eapply digits_value_bytes. }
  destruct (bytes_of s) as [|b l]; [done|]. intros E.
  destruct (Ascii.ascii_dec b "+"%char) as [->|]; [cbn [forallb]; by rewrite (H false)|].
  destruct (Ascii.ascii_dec b "-"%char) as [->|]; [cbn [forallb]; by rewrite (H true)|].
  apply (H false). by destruct b as [[] [] [] [] [] [] [] []].
Qed.

Lemma port_byte_plain b : port_byte b = true ->
  (b <> "["%char /\ b <> "]"%char) /\ b <> ":"%char /\ existsb (Ascii.eqb b) ["/"; "?"; "#"; "@"]%char = false.
Proof.
  intros Hb. pose proof (byte_forall (fun b => implb (port_byte b) (bool_decide (b <> "["%char /\ b <> "]"%char) && bool_decide (b <> ":"%char) &&
    negb (existsb (Ascii.eqb b) ["/"; "?"; "#"; "@"]%char))) eq_refl b) as H. cbv beta in H. rewrite Hb in H. cbn [implb] in H.
  apply andb_true_iff in H as [[?%bool_decide_eq_true ?%bool_decide_eq_true]%andb_true_iff ?%negb_true_iff]. done.
Qed.

Lemma forallb_Forall {A} (f : A -> bool) (P : A -> Prop) l : (forall x, f x = true -> P x) -> forallb f l = true -> Forall P l.
Proof. intros HP Hl. apply Forall_forall. intros x Hx. apply HP. rewrite forallb_forall in Hl. by apply Hl, list_elem_of_In. Qed.

Lemma index_no_slash l : Forall (fun b => b <> "/"%char) l -> index_bytes (bytes_of "://") l = None.
Proof.
  induction 1 as [|b l Hb Hl IH]; [done|]. cbn [index_bytes].
  assert (prefixb (bytes_of "://") (b :: l) = false) as ->; [|by rewrite IH].
  apply not_true_is_false. intros [k Hk]%prefixb_spec. cbn in Hk. injection Hk as -> ->. by apply Forall_inv in Hl.
Qed.

(** ** Resolved addresses *)
Section Guarded.
Context `{lower : UnicodeLower} `{quote : UnicodeQuote} `{url : UrlParse} `{neterr : NetErrors}.

Definition good_port (port : string) : Prop := exists n, Atoi port = Some n /\ 1 <= n <= 65535.

Lemma target_of_Ok s scheme hp t : target_of s scheme hp = Ok t -> good_port (t_Port t) /\ t_Host t <> "" /\ t_Scheme t = scheme.
Proof.
  unfold target_of. destruct (SplitHostPort hp) as [[h p]|]; [|done]. destruct (Atoi p) as [n|] eqn:En; [|done].
  destruct (_ || _)%bool eqn:Eb; [done|]. case_bool_decide; [done|]. intros [= <-]. cbn. split; [|done]. exists n. split; [done|lia].
Qed.

Lemma ParseTarget_Ok s t : ParseTarget s = Ok t -> good_port (t_Port t) /\ t_Host t <> "".
Proof.
  unfold ParseTarget. destruct (index_bytes _ _) as [i|].
  - destruct (_ && _)%bool; [done|]. destruct (url_Parse s) as [u|]; [|done]. destruct (u_User u); [done|].
    destruct (_ || _)%bool; [done|]. intros (? & ? & _)%target_of_Ok. done.
  - destruct (ContainsAny _ _); [done|]. intros (? & ? & _)%target_of_Ok. done.
Qed.

(** The text of a resolved address as a target. *)
Definition address_target (ip : IP) (port : string) : Target := mkTarget "http" (ip_string (Normalize ip)) port.

Lemma resolved_bytes ip port n : ip_wf ip -> Atoi port = Some n ->
  Forall (fun b => existsb (Ascii.eqb b) ["/"; "?"; "#"; "@"]%char = false) (bytes_of (resolved ip port)).
Proof.
  intros Hip%Normalize_wf Hp%Atoi_bytes. pose proof (ip_string_bytes _ Hip) as Hi.
  assert (Forall (fun b => existsb (Ascii.eqb b) ["/"; "?"; "#"; "@"]%char = false) (bytes_of port)) as Hfp
    by (eapply forallb_Forall, Hp; intros; by apply port_byte_plain).
  assert (Forall (fun b => existsb (Ascii.eqb b) ["/"; "?"; "#"; "@"]%char = false) (bytes_of (ip_string (Normalize ip)))) as Hfi
    by (eapply forallb_Forall, Hi; intros; by apply ip_byte_plain).
  unfold resolved, JoinHostPort. destruct (ContainsByte _ _); rewrite !bytes_of_app; repeat (apply Forall_app; split); try done;
    by repeat constructor.
Qed.

Lemma ParseTarget_resolved ip port : ip_wf ip -> good_port port ->
  ParseTarget (resolved ip port) = Ok (address_target ip port).
Proof.
  intros Hip (n & Hn & Hr). pose proof (resolved_bytes ip port n Hip Hn) as Hb.
  unfold ParseTarget. rewrite index_no_slash.
  2:{ eapply Forall_impl; [exact Hb|]. intros b H ->. done. }
  replace (ContainsAny _ _) with false.
  2:{ symmetry. apply not_true_is_false. unfold ContainsAny. intros (b & Hb1 & Hb2)%existsb_exists.
      rewrite Forall_forall in Hb. specialize (Hb b (proj2 (list_elem_of_In _ _) Hb1)). cbn in Hb, Hb2. congruence. }
  apply Normalize_wf in Hip. pose proof (ip_string_bytes _ Hip) as Hi. pose proof (Atoi_bytes _ _ Hn) as Hp.
  unfold target_of, resolved. rewrite SplitHostPort_Join.
  2:{ eapply forallb_Forall, Hi. intros b Hx. by destruct (ip_byte_plain b Hx) as (_ & ? & _). }
  2:{ eapply forallb_Forall, Hp. intros b Hx. by destruct (port_byte_plain b Hx) as (? & _). }
  2:{ eapply forallb_Forall, Hp. intros b Hx. by destruct (port_byte_plain b Hx) as (_ & ? & _). }
  rewrite Hn, (proj2 (Z.ltb_ge n 1)), (proj2 (Z.ltb_ge 65535 n)) by lia. cbn [orb].
  rewrite ToLower_id.
  - unfold TrimSuffix. rewrite ip_string_no_dot by done. rewrite bool_decide_eq_false_2; [done|].
    intros E. pose proof (ParseIP_text_not_nil _ Hip) as Hne. by rewrite E in Hne.
  - rewrite forallb_forall in Hi |- *. intros b ?%Hi. by apply ip_byte_plain.
  - eapply forallb_Forall, Hi. intros b Hx.
    pose proof (byte_forall (fun b => implb (ip_byte b) (bool_decide (lower_byte b = b))) eq_refl b) as H. cbv beta in H.
    rewrite Hx in H. by apply bool_decide_eq_true in H.
Qed.

Context (g : Guard).

Lemma IPAllowed_text ip : ip_wf ip -> IPAllowed g (ParseIP (ip_string (Normalize ip))) = IPAllowed g ip.
Proof. intros Hip. unfold IPAllowed. rewrite <- IPAllowed_Normalize, Normalize_text by done. apply IPAllowed_Normalize. Qed.

(** An admitted address resolves to itself, without a lookup. *)
Lemma ResolveAll_resolved ip port : ip_wf ip -> good_port port -> IPAllowed g ip = true ->
  ResolveAll g (resolved ip port) = Ret (Ok [resolved ip port]).
Proof.
  intros Hip Hp Ha. unfold ResolveAll. rewrite ParseTarget_resolved by done. cbn [address_target t_Host t_Port].
  rewrite bool_decide_eq_false_2 by by apply ParseIP_text_not_nil, Normalize_wf. cbn [negb].
  rewrite IPAllowed_text by done. rewrite Ha. cbn [negb]. unfold resolved. by rewrite Normalize_text.
Qed.

(** ** The answers of [ResolveAll] *)

(** Address [ip] of target [t] was admitted, by the lookups in [E]. *)
Definition admitted (E : list event) (t : Target) (ip : IP) : Prop :=
  ip_wf ip /\ IPAllowed g ip = true /\
  (ip = ParseIP (t_Host t) \/
   ParseIP (t_Host t) = nilIP /\ nameAllowed g (t_Host t) = true /\
   exists addrs, ev (Lookup (t_Host t)) (Ok addrs) ∈ E /\ Forall (fun a => IPAllowed g (`a) = true) addrs /\ exists a, a ∈ addrs /\ `a = ip).

Lemma admit_addrs_Ok target port addrs out l : admit_addrs g target port addrs out = Ok l ->
  Forall (fun a => IPAllowed g (`a) = true) addrs /\ out `prefix_of` l /\
  (forall addr, addr ∈ l -> addr ∈ out \/ exists a, a ∈ addrs /\ addr = resolved (`a) port) /\
  (addrs <> [] -> l <> []).
Proof.
  revert out. induction addrs as [|a addrs IH]; intros out; cbn [admit_addrs].
  { intros [= <-]. repeat split; auto. }
  destruct (IPAllowed g (`a)) eqn:Ea; [|done]. cbn [negb]. set (out' := if _ && _ then _ else _).
  intros (Hf & Hp & Hin & Hne)%IH.
  assert (out `prefix_of` out' /\ (out' = out \/ out' = out ++ [resolved (proj1_sig a) port])) as [Ho Hc].
  { subst out'. destruct (_ && _)%bool; [split; [by eexists|auto]|split; [done|auto]]. }
  split; [by constructor|]. split; [by etrans|]. split.
  - intros addr [H|(b & Hb & ->)]%Hin; [|right; exists b; split; [by right|done]]. destruct Hc as [Hc|Hc]; rewrite Hc in H; [by left|].
    apply elem_of_app in H as [?|E%list_elem_of_singleton]; [by left|]. subst addr. right. exists a. split; [left|done].
  - intros _ ->. apply prefix_nil_inv in Hp. rewrite Hp in Ho. apply prefix_nil_inv in Ho as ->.
    revert Hp. subst out'. cbn. by rewrite bool_decide_eq_false_2 by apply not_elem_of_nil.
Qed.

Lemma admitted_mono E E' t ip : E `prefix_of` E' -> admitted E t ip -> admitted E' t ip.
Proof.
  intros HE (? & ? & [?|(? & ? & addrs & ? & ? & ?)]); split; [done|split; [done|by left]|done|].
  split; [done|]. right. split; [done|]. split; [done|]. exists addrs. split; [by eapply elem_of_prefix|done].
Qed.

(** [addr] is the text of an admitted address of [t]. *)
Definition address_of (E : list event) (t : Target) (addr : string) : Prop :=
  exists ip, admitted E t ip /\ addr = resolved ip (t_Port t).

Lemma address_of_mono E E' t addr : E `prefix_of` E' -> address_of E t addr -> address_of E' t addr.
Proof. intros HE (ip & ? & ?). exists ip. split; [by eapply admitted_mono|done]. Qed.

(** What may be called for [target]: only its addresses are dialled. *)
Definition network_of (t : Target) : string := if Datagram t then "udp" else "tcp".
Definition dial_call (target : string) (E : list event) (r : req) : Prop :=
  match r with
  | DialAddr network addr => exists t, ParseTarget target = Ok t /\ network = network_of t /\ address_of E t addr
  | RelayDatagrams _ _ => False
  | _ => True
  end.

Lemma ResolveAll_does Q E target t : ParseTarget target = Ok t -> (forall E h, Q E (Lookup h)) ->
  does Q E (ResolveAll g target) (fun E' r => forall l, r = Ok l -> l <> [] /\ Forall (address_of E' t) l).
Proof.
  intros Ht HQ. unfold ResolveAll. rewrite Ht. destruct (bool_decide_reflect (ParseIP (t_Host t) = nilIP)) as [Hn|Hn]; cbn [negb].
  - destruct (nameAllowed g (t_Host t)) eqn:En; [|by apply does_ret]. cbn [negb].
    apply (does_ask_bind _ _ (Lookup (t_Host t))); [apply HQ|]. intros E1 [[|a addrs]|err] _ Hev; try by apply does_ret.
    apply does_ret. intros l (Hf & _ & Hin & Hne)%admit_addrs_Ok. split; [by apply Hne|]. apply Forall_forall.
    intros addr [?%not_elem_of_nil|(b & Hb & ->)]%Hin; [done|]. exists (`b). split; [|done]. split; [apply (proj2_dsig b)|].
    split; [rewrite Forall_forall in Hf; by apply Hf|]. right. split; [done|]. split; [done|]. exists (a :: addrs). eauto.
  - destruct (IPAllowed g _) eqn:Ea; [|by apply does_ret]. cbn [negb]. apply does_ret. intros l [= <-]. split; [done|].
    repeat constructor. eexists. split; [|reflexivity]. split; [by apply ParseIP_wf|]. split; [done|by left].
Qed.

Definition connects (E : list event) (c : nat) : Prop := exists network addr, ev (DialAddr network addr) (Ok c) ∈ E.

Lemma dialFirst_does E target t addrs errs : ParseTarget target = Ok t -> Forall (address_of E t) addrs ->
  (addrs = [] -> errs <> []) ->
  does (dial_call target) E (dialFirst (network_of t) addrs errs)
    (fun E' r => match r with (Some c, None) => connects E' c | (_, o) => o <> None end).
Proof.
  intros Ht. revert E errs. induction addrs as [|addr addrs IH]; intros E errs Ha Hne; cbn [dialFirst].
  { apply does_ret. by destruct errs as [|e errs]; [destruct (Hne eq_refl)|]. }
  apply Forall_cons in Ha as [Haddr Ha].
  apply (does_ask_bind _ _ (DialAddr (network_of t) addr)); [by exists t|]. intros E1 [c|err] HE1 Hev.
  { apply does_ret. by exists (network_of t), addr. }
  apply (does_ask_bind _ _ Expired); [done|]. intros E2 [] HE2 _.
  - apply does_ret. by destruct errs.
  - apply IH; [|by destruct errs]. eapply Forall_impl; [exact Ha|]. intros x Hx. eapply address_of_mono, Hx. by etrans.
Qed.
End Guarded.

(** ** Dialing *)
Section Dial.
Context `{lower : UnicodeLower} `{quote : UnicodeQuote} `{url : UrlParse} `{neterr : NetErrors} `{pem : PemCerts} (g : Guard).

(** A program that dials nothing. *)
Definition quiet (r : req) : Prop := match r with DialAddr _ _ | RelayDatagrams _ _ => False | _ => True end.

Lemma quiet_dial_call target E r : quiet r -> dial_call g target E r.
Proof. by destruct r. Qed.

Lemma guard_originTLSConfig_quiet E host otls : does (fun _ => quiet) E (guard_originTLSConfig host otls) (fun _ _ => True).
Proof.
  unfold guard_originTLSConfig. apply (does_ask_bind _ _ (LoadConfig _)); [done|]. intros E1 [cfg|] _ _; [by apply does_ret|].
  destruct (originTLSConfig host otls) as [cfg|]; [|by apply does_ret]. apply (does_ask_bind _ _ CountConfigs); [done|].
  intros E2 n _ _. destruct (n <? _); [|by apply does_ret]. apply (does_ask_bind _ _ (LoadOrStore _ _)); [done|].
  intros E3 [actual []] _ _; [by apply does_ret|]. apply (does_ask_bind _ _ AddCount); [done|]. intros. by apply does_ret.
Qed.

Lemma dial_tls_does target E raw cfg : (raw <> None -> exists c, raw = Some c /\ connects E c) ->
  does (dial_call g target) E (dial_tls target raw cfg) (fun E' r => forall c, r = Ok c -> exists c', c = Some c' /\ connects E' c').
Proof.
  intros Hc. destruct raw as [c|]; [|by apply does_panic]. destruct Hc as (c' & [= <-] & Hc); [done|]. cbn [dial_tls].
  apply (does_ask_bind _ _ (Handshake c cfg)); [done|]. intros E1 [err|] HE1 _.
  - apply (does_ask_bind _ _ (CloseConn c)); [done|]. intros. by apply does_ret.
  - apply does_ret. intros c' [= <-]. exists c. split; [done|]. destruct Hc as (n & a & ?). exists n, a. by eapply elem_of_prefix.
Qed.

Lemma Dial_does target otls E :
  does (dial_call g target) E (Dial g target otls) (fun E' r => forall c, r = Ok c -> exists c', c = Some c' /\ connects E' c').
Proof.
  unfold Dial. destruct (ParseTarget target) as [t|err] eqn:Ht; [|by apply does_ret].
  apply (does_then _ _ (if t_TLS t then _ else _)).
  { destruct (t_TLS t); [|by apply does_ret]. eapply does_then; [|intros; by apply does_ret].
    eapply obeys_impl; [|apply guard_originTLSConfig_quiet]. intros. by apply quiet_dial_call. }
  intros E1 [tlsCfg|err] HE1; [|by apply does_ret]. eapply does_bind; [by apply ResolveAll_does|].
  intros E2 [addrs|err] HE2 Hr; [|by apply does_ret]. destruct (Hr addrs eq_refl) as [Hne Ha].
  eapply does_bind; [by apply dialFirst_does|]. intros E3 [raw [err|]] HE3 Hd; [by apply does_ret; intros ? ?|].
  destruct raw as [c|]; [|done]. destruct tlsCfg as [cfg|].
  - apply dial_tls_does. intros _. eauto.
  - apply does_ret. intros c' [= <-]. eauto.
Qed.


(** *** Addresses that were resolved before *)
Lemma Dial_resolved ip port otls E : ip_wf ip -> good_port port -> IPAllowed g ip = true ->
  does (fun _ r => r = DialAddr "tcp" (resolved ip port) \/ r = Expired) E (Dial g (resolved ip port) otls) (fun _ _ => True).
Proof.
  intros Hip Hp Ha. unfold Dial. rewrite ParseTarget_resolved, ResolveAll_resolved by done.
  cbn [address_target t_TLS t_Scheme Datagram]. cbn.
  apply (does_ask_bind _ _ (DialAddr "tcp" (resolved ip port))); [by left|]. intros E1 [c|err] _ _; [by apply does_ret|].
  apply (does_ask_bind _ _ Expired); [by right|]. intros E2 [] _ _; by apply does_ret.
Qed.

(** The addresses [ResolveAll] answers are dialled as they are: there is at least one, each resolves to
    itself without a lookup, and dialing it connects to that very address. What was decided about
    a resolved address is therefore decided about the connection. *)
Theorem resolved_addresses_are_pinned target E addrs addr otls E' o r x :
  runs (ResolveAll g target) E (Some (Ok addrs)) -> addr ∈ addrs ->
  runs (Dial g addr otls) E' o -> ev r x ∈ E' ->
  ResolveAll g addr = Ret (Ok [addr]) /\ (r = DialAddr "tcp" addr \/ r = Expired).
Proof.
  intros Hr Hin Hd Hev. destruct (ParseTarget target) as [t|err] eqn:Ht.
  2:{ exfalso. unfold ResolveAll in Hr. rewrite Ht in Hr. inversion Hr. }
  destruct (does_runs _ _ _ _ _ (ResolveAll_does g (fun _ _ => True) [] target t Ht (fun _ _ => I)) Hr) as [_ HR].
  destruct (HR _ eq_refl addrs eq_refl) as [_ Hf]. rewrite Forall_forall in Hf. destruct (Hf addr Hin) as (ip & (Hw & Ha & _) & ->).
  destruct (ParseTarget_Ok target t Ht) as [Hp _]. split; [by apply ResolveAll_resolved|].
  destruct (does_runs _ _ _ _ _ (Dial_resolved ip (t_Port t) otls [] Hw Hp Ha) Hd) as [HQ _].
  apply list_elem_of_split in Hev as (E1 & E2 & HE). by eapply HQ.
Qed.

(** ** Streams *)
Lemma split_health_does Q h ep targets E : (forall E t, Q E (TargetHealthy ep t)) ->
  does Q E (split_health h ep targets) (fun _ r => r.1 ++ r.2 ≡ₚ targets).
Proof.
  intros HQ. revert E. induction targets as [|t targets IH]; intros E; cbn [split_health]; [by apply does_ret|].
  apply does_then.
  { destruct h; [|by apply does_ret]. apply (does_ask_bind _ _ (TargetHealthy ep t)); [apply HQ|]. intros. by apply does_ret. }
  intros E1 down _. eapply does_bind; [apply IH|]. intros E2 [pre fall] _ Hp. cbn [fst snd] in Hp. apply does_ret.
  destruct down; cbn [fst snd]; [by rewrite <- Permutation_middle, Hp|]. by cbn; rewrite Hp.
Qed.

Lemma rotated_perm {A} n (l : list A) : rotated n l ≡ₚ l.
Proof. unfold rotated. rewrite Permutation_app_comm. by rewrite take_drop. Qed.

Lemma orderTargets_does Q ep clientIP pol E : (forall E t, Q E (TargetHealthy ep t)) -> (forall E, Q E HasHealth) ->
  (forall E, Q E (NextCount ep)) ->
  does Q E (orderTargets ep clientIP pol) (fun _ l => l ≡ₚ default [] (ProxyTargets pol)).
Proof.
  intros H1 H2 H3. unfold orderTargets. destruct (len _ <? 2); [by apply does_ret|].
  apply (does_ask_bind _ _ HasHealth); [done|]. intros E1 h _ _. eapply does_bind; [by apply split_health_does|].
  intros E2 [pre fall] _ Hp. cbn [fst snd] in Hp. apply (does_bind _ _ _ _ _ (fun _ l => l ≡ₚ pre)).
  - destruct (_ || _)%bool; [by apply does_ret|]. destruct (_ && _)%bool; [apply does_ret, sort_by_perm|].
    apply (does_ask_bind _ _ (NextCount ep)); [done|]. intros. apply does_ret, rotated_perm.
  - intros E3 l _ Hl. apply does_ret. by rewrite Hl.
Qed.

(** Which calls a stream to endpoint [id] of kind [kind] may make. *)
Definition stream_call (id kind : string) (E : list event) (r : req) : Prop :=
  match r with
  | DialAddr network addr =>
      exists ep pol target, ev (GetEndpoint id) (Ok ep) ∈ E /\ Policy_ ep = Some pol /\ target ∈ default [] (ProxyTargets pol) /\
        targetMatchesKind target kind = true /\ dial_call g target E (DialAddr network addr)
  | RelayDatagrams c _ => kind = KindUDP /\ connects E c
  | _ => True
  end.

Lemma dial_targets_does id ep pol kind idle otls targets last E :
  ev (GetEndpoint id) (Ok ep) ∈ E -> Policy_ ep = Some pol -> (forall t, t ∈ targets -> t ∈ default [] (ProxyTargets pol)) ->
  does (stream_call id kind) E (dial_targets g id kind idle otls targets last)
    (fun E' r => forall c, r = Ok c -> exists c', c = Some c' /\ (kind <> KindUDP -> connects E' c')).
Proof.
  intros He Hpol. revert E last He. induction targets as [|t targets IH]; intros E last He Ht; cbn [dial_targets]; [by apply does_ret|].
  destruct (targetMatchesKind t kind) eqn:Em; cbn [negb]; [|apply IH; [done|]; intros; apply Ht; by right].
  apply (does_bind _ _ _ _ _ (fun E' r => forall c, r = Ok c -> exists c', c = Some c' /\ connects E' c')).
  { eapply does_impl, Dial_does. intros E' [] HE; try done. intros Hd. exists ep, pol, t.
    split; [by eapply elem_of_prefix|]. split; [done|]. split; [apply Ht; left|done]. }
  intros E1 [[c|]|err] HE1 Hd.
  - destruct (Hd _ eq_refl) as (c' & [= <-] & Hc). case_bool_decide.
    + apply (does_ask_bind _ _ (RelayDatagrams c idle)); [done|]. intros. apply does_ret. intros ? [= <-]. by eexists.
    + apply does_ret. intros ? [= <-]. eauto.
  - by destruct (Hd _ eq_refl) as (c' & ? & _).
  - apply (does_ask_bind _ _ Expired); [done|]. intros E2 [] HE2 _; [by apply does_ret|].
    apply IH; [eapply elem_of_prefix, He; by etrans|]. intros. apply Ht. by right.
Qed.

Lemma OpenStream_does id kind clientIP idle :
  does (stream_call id kind) [] (OpenStream g id kind clientIP idle)
    (fun E' r => forall c, r = Ok c -> exists c', c = Some c' /\ (kind <> KindUDP -> connects E' c')).
Proof.
  unfold OpenStream. apply (does_ask_bind _ _ (GetEndpoint id)); [done|]. intros E1 [ep|err] _ Hev; [|by apply does_ret].
  destruct (Policy_ ep) as [pol|] eqn:Hp; [|by apply does_ret]. destruct (_ =? 0); [by apply does_ret|].
  eapply does_bind; [by apply orderTargets_does|]. intros E2 l HE2 Hl.
  eapply dial_targets_does; [by eapply elem_of_prefix|done|]. intros t. by rewrite Hl.
Qed.

(** A stream to an endpoint reaches only its own targets, and of those only ones that carry its kind of
    traffic: every address dialled for it is an admitted address of such a target of the endpoint as it was
    read; a successful open hands back a connection, never nil, that was dialled in this call. *)
Theorem streams_reach_own_targets id kind clientIP idle E o E1 network addr x E2 :
  runs (OpenStream g id kind clientIP idle) E o ->
  (E = E1 ++ ev (DialAddr network addr) x :: E2 ->
   exists ep pol target t ip, ev (GetEndpoint id) (Ok ep) ∈ E1 /\ Policy_ ep = Some pol /\ target ∈ default [] (ProxyTargets pol) /\
     ParseTarget target = Ok t /\ network = network_of t /\ (network = "udp" <-> kind = KindUDP) /\
     addr = resolved ip (t_Port t) /\ admitted g E1 t ip) /\
  (forall c, o = Some (Ok c) -> exists c', c = Some c' /\ (kind <> KindUDP -> connects E c')).
Proof.
  intros Hr. destruct (does_runs _ _ _ _ _ (OpenStream_does id kind clientIP idle) Hr) as [HQ HR]. split; [|eauto].
  intros HE. destruct (HQ _ _ _ _ HE) as (ep & pol & target & Hev & Hp & Hin & Hm & t & Ht & Hn & ip & Hip & Ha).
  exists ep, pol, target, t, ip. do 5 (split; [done|]). split; [|done]. subst network. unfold targetMatchesKind in Hm. rewrite Ht in Hm.
  apply Bool.eqb_prop in Hm. unfold network_of. rewrite Hm. by case_bool_decide.
Qed.
End Dial.
End ProxySafety.
