(* ===== verification/ProxyTLS.v ===== *)
(** * Origin TLS settings, sticky targets and registration

    The cache of TLS settings as a machine of concurrent calls; the order of the targets of
    a sticky client; the endpoints bound at startup. *)
From S2P Require Import Prelude GoIO GoStrings GoNet Netblock Addresses Sessions Calls Cloudflare Endpoints Proxy.

Module ProxyTLS.
Import Calls Endpoints Proxy.
Local Open Scope Z_scope.

(** ** Keys of the cache *)
Definition clean (s : string) : Prop := ascii_of_N 0 ∉ bytes_of s.
Definition clean_settings (host : string) (otls : option OriginTLSConfig) : Prop :=
  clean host /\ match otls with
                | None => True
                | Some o => clean (ServerName o) /\ clean (CAPEM o) /\ Forall clean (PinSHA256 o)
                end.

Lemma nul_bytes : bytes_of nul = [ascii_of_N 0].
Proof. done. Qed.

Lemma clean_bool b : clean (FormatBool b).
Proof. destruct b; apply (bool_decide_unpack _); vm_compute; exact I. Qed.

Lemma pins_inj c c' pins pins' : clean c -> clean c' -> Forall clean pins -> Forall clean pins' ->
  c +:+ foldr (fun pin rest => nul +:+ pin +:+ rest) "" pins = c' +:+ foldr (fun pin rest => nul +:+ pin +:+ rest) "" pins' ->
  c = c' /\ pins = pins'.
Proof.
  intros Hc Hc' Hp Hp'. revert c c' pins' Hc Hc' Hp'.
  induction Hp as [|p pins Hp _ IH]; intros c c' pins' Hc Hc' Hps' E; destruct Hps' as [|p' pins' Hp' Hps']; cbn [foldr] in E;
    apply (f_equal bytes_of) in E; rewrite !bytes_of_app in E.
  - cbn in E. rewrite !app_nil_r in E. by apply bytes_of_inj in E as ->.
  - exfalso. apply Hc. cbn in E. rewrite app_nil_r in E. rewrite E. apply elem_of_app. right. left.
  - exfalso. apply Hc'. cbn in E. rewrite app_nil_r in E. rewrite <- E. apply elem_of_app. right. left.
  - rewrite !nul_bytes in E. cbn [app] in E. rewrite <- !bytes_of_app in E. apply app_sep_inj in E as [E1 E2]; [|done..]. apply bytes_of_inj in E1, E2.
    destruct (IH p p' pins' Hp Hp' Hps' E2) as [-> ->]. by subst.
Qed.

Lemma originTLSKey_inj h h' o o' : clean_settings h o -> clean_settings h' o' -> originTLSKey h o = originTLSKey h' o' -> h = h' /\ o = o'.
Proof.
  intros [Hh Ho] [Hh' Ho']. destruct o as [o|], o' as [o'|]; cbn [originTLSKey]; intros E.
  - apply (f_equal bytes_of) in E. rewrite !bytes_of_app, !nul_bytes in E. cbn [app] in E.
    destruct Ho as (Hs & Hc & Hp), Ho' as (Hs' & Hc' & Hp').
    apply app_sep_inj in E as [E0%bytes_of_inj E]; [|done..]. apply app_sep_inj in E as [E1%bytes_of_inj E]; [|done..].
    apply app_sep_inj in E as [E2%bytes_of_inj E]; [|apply clean_bool..].
    rewrite <- !bytes_of_app in E. apply bytes_of_inj in E.
    apply pins_inj in E as [E3 E4]; [|done..]. split; [done|]. f_equal.
    assert (InsecureSkipVerify o = InsecureSkipVerify o') as E5 by (destruct (InsecureSkipVerify o), (InsecureSkipVerify o'); done).
    destruct o, o'. cbn in *. congruence.
  - exfalso. apply Hh'. rewrite <- E, !bytes_of_app, nul_bytes. apply elem_of_app. right. apply elem_of_app. left. left.
  - exfalso. apply Hh. rewrite E, !bytes_of_app, nul_bytes. apply elem_of_app. right. apply elem_of_app. left. left.
  - by subst.
Qed.

Section Settings.
Context `{quote : UnicodeQuote} `{neterr : NetErrors} `{pem : PemCerts}.

(** ** Concurrent calls on one cache *)
Record call := mkCall { c_host : string; c_otls : option OriginTLSConfig; c_code : prog (res tlsConfig) }.
Record guards := mkGuards { configs : gmap string tlsConfig; count : Z; calls : gmap nat call }.

(** [sync.Map] and the atomic counter. *)
Definition cache_react (c : gmap string tlsConfig) (n : Z) (r : req) : answer r -> gmap string tlsConfig -> Z -> Prop :=
  match r with
  | LoadConfig key => fun x c' n' => x = c !! key /\ c' = c /\ n' = n
  | CountConfigs => fun x c' n' => x = n /\ c' = c /\ n' = n
  | LoadOrStore key cfg => fun x c' n' =>
      n' = n /\ match c !! key with Some old => x = (old, true) /\ c' = c | None => x = (cfg, false) /\ c' = <[key := cfg]> c end
  | AddCount => fun _ c' n' => c' = c /\ n' = n + 1
  | _ => fun _ _ _ => False
  end.

Inductive step : guards -> guards -> Prop :=
| step_begin i host otls m : calls m !! i = None -> clean_settings host otls ->
    step m (mkGuards (configs m) (count m) (<[i := mkCall host otls (guard_originTLSConfig host otls)]> (calls m)))
| step_call i h o r k x c' n' m : calls m !! i = Some (mkCall h o (Do r k)) -> cache_react (configs m) (count m) r x c' n' ->
    step m (mkGuards c' n' (<[i := mkCall h o (k x)]> (calls m)))
| step_end i m : step m (mkGuards (configs m) (count m) (delete i (calls m))).

Inductive reachable : guards -> Prop :=
| reach_start : reachable (mkGuards ∅ 0 ∅)
| reach_step m m' : reachable m -> step m m' -> reachable m'.

(** What is left of a call with settings [host], [otls]: it stores only its own settings and
    ends with them or with what is filed under its key. *)
Inductive remaining (host : string) (otls : option OriginTLSConfig) : prog (res tlsConfig) -> Prop :=
| rem_begin : remaining host otls (guard_originTLSConfig host otls)
| rem_counting cfg k : originTLSConfig host otls = Ok cfg ->
    k = (fun n => if n <? maxCachedTLSConfigs then
            r ← ask (LoadOrStore (originTLSKey host otls) cfg);
            let '(actual, loaded) := (r : tlsConfig * bool) in
            if loaded then Ret (Ok actual) else _ ← ask AddCount; Ret (Ok cfg)
          else Ret (Ok cfg)) -> remaining host otls (Do CountConfigs k)
| rem_storing cfg k : originTLSConfig host otls = Ok cfg ->
    k = (fun r => let '(actual, loaded) := (r : tlsConfig * bool) in
            if loaded then Ret (Ok actual) else Do AddCount (fun _ => Ret (Ok cfg))) ->
    remaining host otls (Do (LoadOrStore (originTLSKey host otls) cfg) k)
| rem_adding cfg : originTLSConfig host otls = Ok cfg -> remaining host otls (Do AddCount (fun _ => Ret (Ok cfg)))
| rem_done r : (forall cfg, r = Ok cfg -> originTLSConfig host otls = Ok cfg) -> remaining host otls (Ret r).

Definition filed (c : gmap string tlsConfig) : Prop :=
  forall key cfg, c !! key = Some cfg -> exists h o, clean_settings h o /\ key = originTLSKey h o /\ originTLSConfig h o = Ok cfg.

Lemma filed_settings c h o cfg : filed c -> clean_settings h o -> c !! originTLSKey h o = Some cfg -> originTLSConfig h o = Ok cfg.
Proof. intros Hc Ho (h' & o' & Ho' & E & ?)%Hc. by apply originTLSKey_inj in E as [-> ->]. Qed.

Lemma filed_insert c h o cfg : filed c -> clean_settings h o -> originTLSConfig h o = Ok cfg -> filed (<[originTLSKey h o := cfg]> c).
Proof.
  intros Hc Ho E key cfg' Hk. destruct (decide (key = originTLSKey h o)) as [->|Hne].
  - rewrite lookup_insert_eq in Hk. simplify_eq. eauto.
  - rewrite lookup_insert_ne in Hk by done. eauto.
Qed.

Lemma remaining_call h o p : clean_settings h o -> remaining h o p ->
  match p with
  | Do r k => forall c n x c' n', filed c -> cache_react c n r x c' n' -> filed c' /\ remaining h o (k x)
  | _ => True
  end.
Proof.
  intros Ho [|cfg k Hcfg ->|cfg k Hcfg ->|cfg Hcfg|r _]; try done; cbn [guard_originTLSConfig ask mbind prog_MBind prog_bind].
  - intros c n x c' n' Hc (-> & -> & _). split; [done|]. destruct (c !! originTLSKey h o) as [cfg|] eqn:E.
    + constructor. intros cfg' [= <-]. by eapply filed_settings.
    + destruct (originTLSConfig h o) as [cfg|err] eqn:Ecfg; [by econstructor|by constructor].
  - intros c n x c' n' Hc (-> & -> & _). split; [done|]. destruct (n <? _); [by econstructor|]. constructor. by intros ? [= <-].
  - intros c n x c' n' Hc (_ & Hx). destruct (c !! originTLSKey h o) as [old|] eqn:E; destruct Hx as [-> ->].
    + split; [done|]. constructor. intros ? [= <-]. by eapply filed_settings.
    + split; [by apply filed_insert|]. by constructor.
  - intros c n x c' n' Hc (-> & _). split; [done|]. constructor. by intros ? [= <-].
Qed.

Definition Inv (m : guards) : Prop :=
  filed (configs m) /\
  (forall i c, calls m !! i = Some c -> clean_settings (c_host c) (c_otls c) /\ remaining (c_host c) (c_otls c) (c_code c)).

Lemma settings_step m m' : Inv m -> step m m' -> Inv m'.
Proof.
  intros HI Hs. revert HI. destruct Hs as [i host otls m Hi Hcl|i h o r k x c' n' m Hi Hx|i m]; intros [Hf Hc]; unfold Inv; cbn [configs calls].
  - split; [done|]. intros j c [[<- <-]|[_ ?]]%lookup_insert_Some; [|by eapply Hc]. split; [done|constructor].
  - destruct (Hc _ _ Hi) as [Hcl Hr]. cbn [c_host c_otls c_code] in *. destruct (remaining_call h o _ Hcl Hr _ _ _ _ _ Hf Hx) as [Hf' Hr'].
    split; [done|]. intros j c [[<- <-]|[_ ?]]%lookup_insert_Some; [by split|by eapply Hc].
  - split; [done|]. intros j c [_ ?]%lookup_delete_Some. by eapply Hc.
Qed.

Lemma settings_reachable m : reachable m -> Inv m.
Proof. induction 1 as [|m m' _ IH Hs]; [split; cbn [configs calls]; intros ? ? Hl; by rewrite lookup_empty in Hl|by eapply settings_step]. Qed.

(** C24: However calls for different origins interleave on the shared cache, the TLS settings a call
    ends with are the ones its own endpoint asks for, as long as no setting contains a NUL byte. *)
Theorem tls_settings_are_own m i host otls cfg :
  reachable m -> calls m !! i = Some (mkCall host otls (Ret (Ok cfg))) -> originTLSConfig host otls = Ok cfg.
Proof.
  intros [_ Hc]%settings_reachable Hi. destruct (Hc _ _ Hi) as [Ho Hr]. cbn [c_host c_otls c_code] in *.
  remember (Ret (Ok cfg)) as p eqn:Ep. destruct Hr; try discriminate Ep. injection Ep as ->. auto.
Qed.

(** With a NUL byte two origins share a key: one is verified by its CA, the other by a pin. *)
Lemma originTLSKey_collides host ca pin raw : ca <> "" -> pem_has_cert ca = true -> pem_has_cert (ca +:+ nul +:+ pin) = true ->
  decodePin pin = Ok raw ->
  let by_ca := Some (mkOriginTLS "" (ca +:+ nul +:+ pin) [] false) in
  let by_pin := Some (mkOriginTLS "" ca [pin] false) in
  originTLSKey host by_ca = originTLSKey host by_pin /\
  originTLSConfig host by_ca = Ok (mkTLSConfig host false None (Some (ca +:+ nul +:+ pin))) /\
  originTLSConfig host by_pin = Ok (mkTLSConfig host true (Some [raw]) None).
Proof.
  intros Hca Hp1 Hp2 Hpin by_ca by_pin. split.
  - apply bytes_of_inj. cbn [originTLSKey by_ca by_pin ServerName CAPEM PinSHA256 InsecureSkipVerify foldr].
    rewrite !bytes_of_app. by cbn; rewrite <- !app_assoc, !app_nil_r.
  - subst by_ca by_pin. unfold originTLSConfig. cbn [ServerName CAPEM PinSHA256 InsecureSkipVerify decodePins].
    rewrite Hp1, Hp2, Hpin. rewrite (bool_decide_eq_false_2 (ca = "")) by done.
    rewrite bool_decide_eq_false_2; [done|]. intros E. apply Hca. by destruct ca.
Qed.
End Settings.

(** ** Sticky clients *)
Lemma insert_sorted_first {A} (leb : A -> A -> bool) x l : Forall (fun y => leb x y = true) l -> insert_sorted leb x l = x :: l.
Proof. destruct 1 as [|y l Hy _]; [done|]. cbn. by rewrite Hy. Qed.

Section Filter.
Context {A : Type} (leb : A -> A -> bool).
Context (leb_total : forall x y, leb x y = true \/ leb y x = true).
Context (leb_trans : forall x y z, leb x y = true -> leb y z = true -> leb x z = true).

Lemma insert_sorted_filter (P : A -> Prop) `{forall x, Decision (P x)} x l : StronglySorted (leb_rel leb) l ->
  filter P (insert_sorted leb x l) = if decide (P x) then insert_sorted leb x (filter P l) else filter P l.
Proof using leb_trans.
  induction 1 as [|y l Hl IH Hy]; cbn [insert_sorted]; [by rewrite filter_cons|]. destruct (leb x y) eqn:E.
  - rewrite filter_cons. destruct (decide (P x)); [|done]. rewrite insert_sorted_first; [done|].
    rewrite Forall_forall in Hy |- *. intros z [_ Hz]%list_elem_of_filter. apply elem_of_cons in Hz as [->|Hz%Hy]; [done|].
    by eapply leb_trans.
  - rewrite !filter_cons, IH. destruct (decide (P x)), (decide (P y)); try done. cbn. by rewrite E.
Qed.

Lemma sort_by_filter (P : A -> Prop) `{forall x, Decision (P x)} l : filter P (sort_by leb l) = sort_by leb (filter P l).
Proof using leb_total leb_trans.
  induction l as [|x l IH]; [done|]. cbn [sort_by]. rewrite insert_sorted_filter by by apply sort_by_StronglySorted.
  rewrite filter_cons, IH. by destruct (decide (P x)).
Qed.
End Filter.

(** Taking targets away from a sticky endpoint, or finding them unhealthy, does not disturb the others:
    the remaining targets keep their order for every client, so a client whose target remains stays on it. *)
Theorem sticky_order_is_stable clientIP targets (P : string -> Prop) `{forall t, Decision (P t)} :
  rendezvousOrder clientIP (filter P targets) = filter P (rendezvousOrder clientIP targets) /\
  (forall t, head (rendezvousOrder clientIP targets) = Some t -> P t ->
     head (rendezvousOrder clientIP (filter P targets)) = Some t).
Proof.
  assert (rendezvousOrder clientIP (filter P targets) = filter P (rendezvousOrder clientIP targets)) as E.
  { symmetry. apply sort_by_filter; unfold by_score; [intros|intros ? ? ?]; lia. }
  split; [done|]. intros t Ht HP. rewrite E. destruct (rendezvousOrder clientIP targets) as [|u l]; [done|].
  injection Ht as ->. by rewrite filter_cons_True.
Qed.

(** ** Startup *)
Definition binds (E : list event) (id : string) : Prop := ev (BindEndpoint id ProxyAgentID) tt ∈ E.
Definition bind_call (E : list event) (r : req) : Prop :=
  match r with
  | BindEndpoint id a =>
      a = ProxyAgentID /\
      exists org eps ep, ev (ListEndpointsByOrg org) (Ok eps) ∈ E /\ ep ∈ eps /\ ID ep = id /\ Method ep = MethodProxy
  | _ => True
  end.

Lemma bind_each_does org eps todo E : ev (ListEndpointsByOrg org) (Ok eps) ∈ E -> todo ⊆ eps ->
  does bind_call E (bind_each todo) (fun E' _ => forall ep, ep ∈ todo -> Method ep = MethodProxy -> binds E' (ID ep)).
Proof.
  revert E. induction todo as [|ep todo IH]; intros E Hev Hs; cbn [bind_each]; [apply does_ret; by intros ? ?%not_elem_of_nil|].
  apply (does_bind _ _ _ _ _ (fun E' _ => Method ep = MethodProxy -> binds E' (ID ep))).
  - case_bool_decide; [|by apply does_ret]. eapply does_weaken, does_ask; [by intros E' [] _ ? _|].
    split; [done|]. exists org, eps, ep. split; [done|]. split; [apply Hs; left|done].
  - intros E1 u1 HE1 Hb. eapply does_weaken, IH; [|by eapply elem_of_prefix|intros ? ?; apply Hs; by right].
    intros E2 u HE2 Hr ep' [->|?]%elem_of_cons Hm; [by eapply elem_of_prefix, Hb|by apply Hr].
Qed.

(** Which organizations were done, and what that means. *)
Definition org_done (E : list event) (org : string) : Prop :=
  exists r, ev (ListEndpointsByOrg org) r ∈ E /\
    forall eps ep, r = Ok eps -> ep ∈ eps -> Method ep = MethodProxy -> binds E (ID ep).

Lemma org_done_mono E E' org : E `prefix_of` E' -> org_done E org -> org_done E' org.
Proof. intros HE (r & Hr & Hb). exists r. split; [by eapply elem_of_prefix|]. intros. eapply elem_of_prefix; [exact HE|]. by eapply Hb. Qed.

Lemma bind_orgs_does orgs E : does bind_call E (bind_orgs orgs) (fun E' _ => Forall (org_done E') orgs).
Proof.
  revert E. induction orgs as [|org orgs IH]; intros E; cbn [bind_orgs]; [by apply does_ret|].
  apply (does_ask_bind _ _ (ListEndpointsByOrg org)); [done|]. intros E1 r HE1 Hev.
  apply (does_bind _ _ _ _ _ (fun E' _ => org_done E' org)).
  - destruct r as [eps|err].
    + eapply does_weaken; [|by eapply (bind_each_does org eps)]. intros E2 u HE2 Hb. exists (Ok eps).
      split; [by eapply elem_of_prefix|]. intros ? ep [= <-]. apply Hb.
    + apply does_ret. by exists (Fail err).
  - intros E2 u HE2 Hd. eapply does_weaken, IH. intros E3 u3 HE3 Ho. constructor; [by eapply org_done_mono|done].
Qed.

(** At startup exactly the proxy endpoints of the organizations listed are bound to the proxy. *)
Theorem startup_binds_proxy_endpoints E : runs Register E (Some tt) ->
  (forall E1 id a x E2, E = E1 ++ ev (BindEndpoint id a) x :: E2 -> bind_call E1 (BindEndpoint id a)) /\
  exists r, ev ListOrgs r ∈ E /\ forall orgs, r = Ok orgs -> Forall (org_done E) orgs.
Proof.
  intros Hr. assert (does bind_call [] Register (fun E' _ => exists r, ev ListOrgs r ∈ E' /\ forall orgs, r = Ok orgs -> Forall (org_done E') orgs)) as H.
  { unfold Register. apply does_then.
    { unfold ensureAgent. apply (does_ask_bind _ _ (GetOrg _)); [done|]. intros E1 e _ _. apply does_then.
      { destruct e; [|by apply does_ret]. apply (does_ask_bind _ _ Now); [done|]. intros E2 n _ _.
        apply (does_ask_bind _ _ (CreateOrg _ _ _)); [done|]. intros. by apply does_ret. }
      intros E2 _ _. apply (does_ask_bind _ _ (GetAgent _)); [done|]. intros E3 e' _ _. destruct e'; [|by apply does_ret].
      apply (does_ask_bind _ _ Now); [done|]. intros E4 n _ _. apply (does_ask_bind _ _ (CreateAgent _)); [done|].
      intros. by apply does_ret. }
    intros E1 _ _. apply (does_ask_bind _ _ (AddAgent _)); [done|]. intros E2 _ _ _.
    apply (does_ask_bind _ _ ListOrgs); [done|]. intros E3 [orgs|err] _ Hev; [|apply does_ret; by exists (Fail err)].
    eapply does_weaken, bind_orgs_does. intros E4 u HE4 Ho. exists (Ok orgs). split; [by eapply elem_of_prefix|]. by intros ? [= <-]. }
  destruct (does_runs _ _ _ _ _ H Hr) as [HQ HR]. split; [|by eapply HR]. intros. by eapply HQ.
Qed.
End ProxyTLS.
