(* ===== verification/EgressHandler.v ===== *)
(** * Egress and connections between agents on the gateway

    internal/connect: the handler of egress streams with its checks, exits and credentials
    (egress/), the bridge from one agent to an endpoint of another (bridge/), the question
    both put to policy (decision.go), and what of a TLS stream the gateway looks at
    (egress/sni.go). Handlers are programs over the calls they make. The dialer is an
    interface: programs over the network calls of the target guard. *)
From S2P Require Import Prelude GoIO GoStrings GoNet Netblock Addresses DecryptScope Frames Sessions Decider Authz Credseal Prog Identity Calls Cloudflare Endpoints Gateway Proxy.

Module EgressHandler.
Import Frames.Egress Sessions(ErrNotFound) Authz.Decision Authz.HostNames Calls Endpoints.
Local Open Scope Z_scope.

(** ** connect/decision.go *)
Definition AgentClientIP : string := "0.0.0.0".
Definition AuthMethodAgentToken : string := "agent_token".

(** [identity.Scope]. *)
Record Scope_ := mkScope { s_OrgID : string; s_AgentID : string; s_SessionIDHash : string; s_TokenSessionID : string }.

Record AgentDecision := mkAgentDecision { ad_scope : Scope_; ad_principal : EntityRef; ad_context : RequestContext }.

Definition with_auth (ip method : string) (time : option Z) (c : RequestContext) : RequestContext :=
  mkContext ip (Authz.Decision.Host c) (TLS c) (Authz.Decision.Method c) (Path c) (Protocol c) (SNI c) (Exit c) (ResolvedIP c)
    (Decrypted c) method time.

(** [p]: the principal, if there is one. *)
Definition NewAgentDecision (agent : Agent) (p : option Identity.Principal) (c : RequestContext) : AgentDecision :=
  match p with
  | None => mkAgentDecision (mkScope (a_OrgID agent) (a_ID agent) "" "") (mkRef EntityAgent (a_ID agent))
              (with_auth AgentClientIP AuthMethodAgentToken (AuthTime c) c)
  | Some p => mkAgentDecision (mkScope (a_OrgID agent) (a_ID agent) "" (Identity.p_SessionID p)) (Identity.p_Ref p)
                (with_auth AgentClientIP (Identity.p_AuthMethod p) (Some (Identity.p_AuthTime p)) c)
  end.

Definition noContext : RequestContext := mkContext "" "" false "" "" "" "" "" "" false "" None.

Definition request_of (a : AgentDecision) (action : string) (resource : EntityRef) : DecisionRequest :=
  mkDecisionRequest (ad_principal a) action resource (ad_context a).

(** ** Records *)
Definition MetaConnect : string := "connect".
Definition MetaIdleTimeout : string := "idle_timeout".
Definition MetaEgress : string := "egress".
Definition MetaEgressAuth : string := "egress_auth".
Definition MetaEgressVia : string := "egress_via".
Definition MetaEgressExit : string := "egress_exit".
Definition MetaEgressClient : string := "egress_client".
Definition MetaExitResolve : string := "egress_exit_resolve".

Record StreamInit := mkInit { i_EndpointID : string; i_Kind : string; i_Meta : gmap string string }.
Definition meta (init : StreamInit) (k : string) : string := default "" (i_Meta init !! k).

(** store.go: the fields the handler sets. *)
Record AccessEvent := mkAccess {
  ae_OrgID : string;
  ae_Source : string;
  ae_Decision : string;
  ae_Reason : string;
  ae_PrincipalType : string;
  ae_PrincipalID : string;
  ae_SessionID : string;
  ae_AgentID : string;
  ae_ExitAgentID : string;
  ae_Destination : string;
  ae_PolicyIDs : list string;
  ae_ClientIP : string;
  ae_Protocol : string;
  ae_BytesIn : Z;
  ae_BytesOut : Z;
  ae_DurationMs : Z
}.
Definition AccessSourceEgress : string := "egress".
Definition AccessAllow : string := "allow".
Definition AccessDeny : string := "deny".

(** store/egress_credential.go. *)
Record EgressCredential := mkCredential {
  ec_OrgID : string;
  ec_Name : string;
  ec_Header : string;
  ec_Prefix : string;
  ec_Secret : string;
  ec_AgentIDs : list string;
  ec_Destinations : list string;
  ec_CreatedAt : Z;
  ec_UpdatedAt : Z
}.

Section Credentials.
Context `{lower : UnicodeLower}.

Definition credentialIP (host : string) : option IP :=
  match ParseAddr (Trim (TrimSpace host) "[]") with
  | Some (addr, zone) => if bool_decide (zone = "") then Some addr else None
  | None => None
  end.

Definition ReleasableTo (c : EgressCredential) (host : string) : bool :=
  match credentialIP host with
  | Some addr => bool_decide (ip_string addr ∈ ec_Destinations c)
  | None => DecryptScope.Matches (ec_Destinations c) host
  end.
End Credentials.

Definition DeliversTo (c : EgressCredential) (agentID : string) : bool :=
  negb (bool_decide (agentID = "")) && bool_decide (agentID ∈ ec_AgentIDs c).

(** What a tracked flow re-checks: the arguments its closure keeps. *)
Inductive recheck :=
| EgressCheck (agent : Agent) (p : option Identity.Principal) (dest : string) (targets : list string) (exit : option Agent)
| ConnectCheck (agent : Agent) (p : option Identity.Principal) (ref kind : string).

(** ** Calls *)
Inductive req :=
| Net (r : Proxy.req)
| Data (r : Gateway.req)
| Now
| Authenticate (raw : string)
| ListAgents (org : string)
| Decide (s : Scope_) (rq : DecisionRequest)
| GetAgent (id : string)
| ResolveEndpoint (id : string)
| OpenStream (conn : ConnStore.AgentConn) (endpointID kind : string) (m : gmap string string)
| ReadResolution (stream : nat)
| SendTargets (stream : nat) (targets : list string)
| ReadReply (stream : nat)
| WriteReply (reply : EgressReply)
| Track (org session : string) (check : recheck)
| Untrack (flow : nat)
| Attach (flow conn : nat)
| Splice (host : option string) (upstream : nat)
| AddUsage (org : string) (n : Z)
| AddBytes (kind : string) (up down : Z)
| RecordAccess (e : AccessEvent)
| CloseConn (conn : nat)
| CloseStream
| GetEgressCredential (org name : string)
| OpenSecret (org name : string)
| Seed.

(** [Splice] answers the bytes copied each way and why a server name was refused, if it
    was ([sniConn]); without a host the stream is copied as it is. *)
Definition answer (r : req) : Type :=
  match r with
  | Net r => Proxy.answer r
  | Data r => Gateway.answer r
  | Now => Z
  | Authenticate _ => res Identity.Principal
  | ListAgents _ => res (list Agent)
  | Decide _ _ => Decision * option goerr
  | GetAgent _ | ResolveEndpoint _ => option ConnStore.AgentConn
  | OpenStream _ _ _ _ => res nat
  | ReadResolution _ => res (list string * option EgressReply)
  | SendTargets _ _ | WriteReply _ => option goerr
  | ReadReply _ => res EgressReply
  | Track _ _ _ => nat
  | Attach _ _ => bool
  | Splice _ _ => Z * Z * string
  | GetEgressCredential _ _ => res EgressCredential
  | OpenSecret _ _ => res (list byte)
  | Seed => list byte
  | Untrack _ | AddUsage _ _ | AddBytes _ _ _ | RecordAccess _ | CloseConn _ | CloseStream => unit
  end.

Abbreviation prog := (Calls.prog answer).
Abbreviation event := (Calls.event answer).
Abbreviation ev := (@Calls.ev req answer).

Definition net {A} (p : Proxy.prog A) : prog A := embed (answer2 := answer) Net (fun r x => x) p.
Definition data {A} (p : Gateway.prog A) : prog A := embed (answer2 := answer) Data (fun r x => x) p.
(** ** The interfaces of the handler *)
Record Dialer := mkDialer {
  ResolveAll : string -> Proxy.prog (res (list string));
  Dial : string -> Proxy.prog (res (option nat))
}.

(** [*proxy.Guard] is one. *)
Definition guard_dialer `{UnicodeLower} `{UnicodeQuote} `{UrlParse} `{Proxy.NetErrors} `{Proxy.PemCerts} (g : Proxy.Guard) : Dialer :=
  mkDialer (Proxy.ResolveAll g) (fun target => Proxy.Dial g target None).

(** Which optional parts there are. *)
Record handler := mkHandler {
  has_deciders : bool;
  h_dialer : option Dialer;
  has_access : bool;
  has_auth : bool;
  has_agents : bool;
  has_credentials : bool;
  has_secrets : bool;
  has_meter : bool
}.

Definition reasonBlocked : string := "blocked_destination".
Definition reasonDial : string := "dial_failed".
Definition reasonResolve : string := "resolve_failed".
Definition reasonSNI : string := "sni_mismatch".
Definition reasonECH : string := "ech_outer_sni_mismatch".
Definition reasonNotTCP : string := "udp_egress_unsupported".
Definition reasonBadCreds : string := "invalid_proxy_credentials".
Definition reasonNoAuth : string := "proxy_auth_unavailable".
Definition reasonUnknownExit : string := "unknown_exit".
Definition reasonExitOffline : string := "exit_offline".
Definition reasonExitSelf : string := "exit_is_self".
Definition reasonNoExits : string := "exits_unavailable".
Definition reasonExitOutdated : string := "exit_outdated".
Definition reasonExitProtocol : string := "exit_protocol".
Definition MeterKind : string := "egress".

Record refusal := mkRefusal { rf_status : EgressStatus; rf_reason : string }.
Definition unavailable : refusal := mkRefusal EgressUnavailable (reason_text ReasonUnavailable).

(** tunnel.TruncateUTF8: cut before a byte that continues a rune. *)
Definition RuneStart (b : byte) : bool := negb (Z.land (byteZ b) 192 =? 128).
Fixpoint cut_at (l : list byte) (n : nat) : nat :=
  match n with
  | O => O
  | S n' => match nth_error l n with Some b => if RuneStart b then n else cut_at l n' | None => n end
  end.
Definition TruncateUTF8 (s : string) (maxBytes : nat) : string :=
  if bool_decide (length (bytes_of s) <= maxBytes)%nat then s
  else string_of (take (cut_at (bytes_of s) maxBytes) (bytes_of s)).
Definition truncate (s : string) : string := TruncateUTF8 s 300.

Definition egressClientIP (reported : string) : string :=
  match ParseAddr reported with Some (addr, _) => ip_string addr | None => AgentClientIP end.

Definition policyIDs (d : Decision) : list string := map PolicyName (Policies d).

(** *** The record of a flow *)
Definition new_record (agent : Agent) (init : StreamInit) : AccessEvent :=
  mkAccess (a_OrgID agent) AccessSourceEgress "" "" EntityAgent (a_ID agent) "" (a_ID agent) "" "" []
    (egressClientIP (meta init MetaEgressClient)) "tcp" 0 0 0.
Definition with_protocol (s : string) (e : AccessEvent) : AccessEvent :=
  mkAccess (ae_OrgID e) (ae_Source e) (ae_Decision e) (ae_Reason e) (ae_PrincipalType e) (ae_PrincipalID e) (ae_SessionID e) (ae_AgentID e)
    (ae_ExitAgentID e) (ae_Destination e) (ae_PolicyIDs e) (ae_ClientIP e) s (ae_BytesIn e) (ae_BytesOut e) (ae_DurationMs e).
Definition with_destination (s : string) (e : AccessEvent) : AccessEvent :=
  mkAccess (ae_OrgID e) (ae_Source e) (ae_Decision e) (ae_Reason e) (ae_PrincipalType e) (ae_PrincipalID e) (ae_SessionID e) (ae_AgentID e)
    (ae_ExitAgentID e) s (ae_PolicyIDs e) (ae_ClientIP e) (ae_Protocol e) (ae_BytesIn e) (ae_BytesOut e) (ae_DurationMs e).
Definition with_principal (p : option Identity.Principal) (e : AccessEvent) : AccessEvent :=
  match p with
  | None => e
  | Some p =>
      mkAccess (ae_OrgID e) (ae_Source e) (ae_Decision e) (ae_Reason e) (RefType (Identity.p_Ref p)) (RefID (Identity.p_Ref p))
        (Identity.p_SessionID p) (ae_AgentID e) (ae_ExitAgentID e) (ae_Destination e) (ae_PolicyIDs e) (ae_ClientIP e) (ae_Protocol e)
        (ae_BytesIn e) (ae_BytesOut e) (ae_DurationMs e)
  end.
Definition with_exit (exit : option Agent) (e : AccessEvent) : AccessEvent :=
  match exit with
  | None => e
  | Some a =>
      mkAccess (ae_OrgID e) (ae_Source e) (ae_Decision e) (ae_Reason e) (ae_PrincipalType e) (ae_PrincipalID e) (ae_SessionID e)
        (ae_AgentID e) (a_ID a) (ae_Destination e) (ae_PolicyIDs e) (ae_ClientIP e) (ae_Protocol e) (ae_BytesIn e) (ae_BytesOut e)
        (ae_DurationMs e)
  end.
Definition with_policies (l : list string) (e : AccessEvent) : AccessEvent :=
  mkAccess (ae_OrgID e) (ae_Source e) (ae_Decision e) (ae_Reason e) (ae_PrincipalType e) (ae_PrincipalID e) (ae_SessionID e) (ae_AgentID e)
    (ae_ExitAgentID e) (ae_Destination e) l (ae_ClientIP e) (ae_Protocol e) (ae_BytesIn e) (ae_BytesOut e) (ae_DurationMs e).
Definition with_verdict (decision reason : string) (e : AccessEvent) : AccessEvent :=
  mkAccess (ae_OrgID e) (ae_Source e) decision reason (ae_PrincipalType e) (ae_PrincipalID e) (ae_SessionID e) (ae_AgentID e)
    (ae_ExitAgentID e) (ae_Destination e) (ae_PolicyIDs e) (ae_ClientIP e) (ae_Protocol e) (ae_BytesIn e) (ae_BytesOut e) (ae_DurationMs e).
Definition with_bytes (up down : Z) (e : AccessEvent) : AccessEvent :=
  mkAccess (ae_OrgID e) (ae_Source e) (ae_Decision e) (ae_Reason e) (ae_PrincipalType e) (ae_PrincipalID e) (ae_SessionID e) (ae_AgentID e)
    (ae_ExitAgentID e) (ae_Destination e) (ae_PolicyIDs e) (ae_ClientIP e) (ae_Protocol e) up down (ae_DurationMs e).
Definition with_duration (ms : Z) (e : AccessEvent) : AccessEvent :=
  mkAccess (ae_OrgID e) (ae_Source e) (ae_Decision e) (ae_Reason e) (ae_PrincipalType e) (ae_PrincipalID e) (ae_SessionID e) (ae_AgentID e)
    (ae_ExitAgentID e) (ae_Destination e) (ae_PolicyIDs e) (ae_ClientIP e) (ae_Protocol e) (ae_BytesIn e) (ae_BytesOut e) ms.

Section Handler.
Context `{lower : UnicodeLower} `{quote : UnicodeQuote}.
Context (h : handler).

(** ** egress.go *)
Definition record (started : Z) (e : AccessEvent) : prog unit :=
  if negb (has_access h) then Ret tt
  else now ← ask Now; _ ← ask (RecordAccess (with_duration (Z.quot (time_sub now started) 1000000) e)); Ret tt.

Definition reply (r : EgressReply) : prog bool :=
  e ← ask (WriteReply r); Ret (match e : option goerr with None => true | Some _ => false end).

Definition refuse (started : Z) (e : AccessEvent) (r : refusal) : prog unit :=
  _ ← reply (mkReply (rf_status r) (rf_reason r));
  record started (with_verdict AccessDeny (truncate (rf_reason r)) e).

(** [user]: the principal of the context. *)
Definition principal (agent : Agent) (user : option Identity.Principal) (raw : string) : prog (option Identity.Principal + refusal) :=
  if bool_decide (raw = "") then Ret (inl user)
  else if negb (has_auth h) then Ret (inr (mkRefusal EgressUnavailable reasonNoAuth))
  else
    r ← ask (Authenticate raw);
    Ret match r with
        | Fail err => if errIs err Identity.ErrUnavailable then inr unavailable else inr (mkRefusal EgressAuthRequired reasonBadCreds)
        | Ok p => if negb (bool_decide (Identity.p_OrgID p = a_OrgID agent)) then inr (mkRefusal EgressAuthRequired reasonBadCreds)
                  else inl (Some p)
        end.

Fixpoint match_exit (agent : Agent) (ref : string) (agents : list Agent) (found : option Agent) : option Agent + refusal :=
  match agents with
  | [] => inl found
  | a :: agents' =>
      if negb (bool_decide (a_OrgID a = a_OrgID agent)) || (negb (bool_decide (a_ID a = ref)) && negb (bool_decide (a_Name a = ref)))
      then match_exit agent ref agents' found
      else match found with
           | Some _ => inr (mkRefusal EgressDenied reasonUnknownExit)
           | None => match_exit agent ref agents' (Some a)
           end
  end.

Definition resolveExit (agent : Agent) (ref : string) : prog (option Agent + refusal) :=
  if bool_decide (ref = "") then Ret (inl None)
  else if negb (has_agents h) then Ret (inr (mkRefusal EgressUnavailable reasonNoExits))
  else
    r ← ask (ListAgents (a_OrgID agent));
    Ret match r with
        | Fail _ => inr unavailable
        | Ok agents =>
            match match_exit agent ref agents None with
            | inr rf => inr rf
            | inl None => inr (mkRefusal EgressDenied reasonUnknownExit)
            | inl (Some m) => if bool_decide (a_ID m = a_ID agent) then inr (mkRefusal EgressInvalid reasonExitSelf) else inl (Some m)
            end
        end.

Definition isBlocked (err : goerr) : bool := errIs err Proxy.ErrBlocked.

Definition resolve (dest : string) : prog (list string + refusal) :=
  match h_dialer h with
  | None => Ret (inr unavailable)
  | Some d =>
      r ← net (ResolveAll d dest);
      Ret match r with
          | Ok targets => inl targets
          | Fail err => inr (if isBlocked err then mkRefusal EgressDenied reasonBlocked else mkRefusal EgressDialFailed reasonResolve)
          end
  end.

(** The loop of [dial]: the last outcome. *)
Fixpoint dial_each (d : Dialer) (targets : list string) (last : res (option nat)) : prog (res (option nat)) :=
  match targets with
  | [] => Ret last
  | target :: targets' =>
      r ← net (Dial d target);
      match r with
      | Ok c => Ret (Ok c)
      | Fail err => over ← ask (Net Proxy.Expired); if over : bool then Ret (Fail err) else dial_each d targets' (Fail err)
      end
  end.

Definition confirmExit (stream : nat) (targets : list string) : prog (nat + refusal) :=
  e ← ask (SendTargets stream targets);
  match e : option goerr with
  | Some _ => Ret (inr (mkRefusal EgressUnavailable reasonExitOffline))
  | None =>
      r ← ask (ReadReply stream);
      Ret match r with
          | Fail _ => inr (mkRefusal EgressDialFailed reasonDial)
          | Ok rep => if negb (bool_decide (Status rep = EgressOK)) then inr (mkRefusal (Status rep) ("exit_" +:+ Frames.Egress.Reason rep)) else inl stream
          end
  end.

Definition dial (exitStream : option nat) (targets : list string) : prog (nat + refusal) :=
  match exitStream, h_dialer h with
  | Some stream, _ => confirmExit stream targets
  | None, None => Panic "invalid memory address or nil pointer dereference"
  | None, Some d =>
      r ← dial_each d targets (Ok None);
      match r with
      | Ok (Some c) => Ret (inl c)
      | Ok None => Panic "invalid memory address or nil pointer dereference"
      | Fail err => Ret (inr (if isBlocked err then mkRefusal EgressDenied reasonBlocked else mkRefusal EgressDialFailed reasonDial))
      end
  end.

Definition validTarget (target : string) : bool :=
  match SplitHostPort target with
  | Some (host, port) => negb (bool_decide (ParseIP host = nilIP)) && negb (bool_decide (port = ""))
  | None => false
  end.
Definition validExitTargets (targets : list string) : bool := (0 <? len targets) && forallb validTarget targets.

Definition openExit (exit : Agent) (dest : string) : prog (nat * list string + refusal) :=
  c ← ask (GetAgent (a_ID exit));
  match c : option ConnStore.AgentConn with
  | None => Ret (inr (mkRefusal EgressUnavailable reasonExitOffline))
  | Some conn =>
      r ← ask (OpenStream conn "" KindTCP {[ MetaEgressExit := dest; MetaExitResolve := "1" ]});
      match r with
      | Fail _ => Ret (inr (mkRefusal EgressUnavailable reasonExitOffline))
      | Ok stream =>
          x ← ask (ReadResolution stream);
          match (match x with
                 | Fail _ => inr (mkRefusal EgressDialFailed reasonExitProtocol)
                 | Ok (_, Some rep) => if bool_decide (Status rep = EgressOK) then inr (mkRefusal EgressUnavailable reasonExitOutdated)
                                       else inr (mkRefusal (Status rep) ("exit_" +:+ Frames.Egress.Reason rep))
                 | Ok (targets, None) => if negb (validExitTargets targets) then inr (mkRefusal EgressDialFailed reasonExitProtocol)
                                         else inl targets
                 end : list string + refusal) with
          | inr rf => _ ← ask (CloseConn stream); Ret (inr rf)
          | inl targets => Ret (inl (stream, targets))
          end
      end
  end.

(** *** Decisions *)
Definition isUnavailable (r : Reason) : bool := reason_eqb r ReasonUnavailable.
Definition with_reason (allowed : bool) (r : Reason) (d : Decision) : Decision :=
  mkDecision allowed r (Policies d) (Owner d) (PolicyVersion d) (TTLSeconds d) (Scope d).
Definition noDecision (r : Reason) : Decision := mkDecision false r [] "" "" 0 noScope.
Definition reasoned (d : Decision) : Decision :=
  if reason_eqb (DReason d) ReasonNone then with_reason (Allowed d) ReasonPolicyDeny d else d.

(** [AgentDecision.Decide]. *)
Definition ask_policy (agent : Agent) (p : option Identity.Principal) (c : RequestContext) (action : string) (resource : EntityRef)
    : prog (Decision * option goerr) :=
  let a := NewAgentDecision agent p c in
  ask (Decide (ad_scope a) (request_of a action resource)).

Definition egress_context (target : string) (exit : option Agent) : RequestContext :=
  let ip := match SplitHostPort target with
            | Some (host, _) => if bool_decide (ParseIP host = nilIP) then "" else host
            | None => "" end in
  mkContext "" "" false "" "" "" "" (match exit with Some e => a_ID e | None => "" end) ip false "" None.

Definition decide (agent : Agent) (p : option Identity.Principal) (dest target : string) (exit : option Agent)
    : prog (Decision * EgressStatus) :=
  if negb (has_deciders h) || negb (bool_decide (is_Some (h_dialer h)))
  then Ret (noDecision ReasonUnavailable, EgressUnavailable)
  else
    r ← ask_policy agent p (egress_context target exit) ActionEgressConnect (mkRef EntityDestination dest);
    let '(d, err) := (r : Decision * option goerr) in
    Ret (if match err with Some _ => true | None => false end || isUnavailable (DReason d)
         then (with_reason false ReasonUnavailable d, EgressUnavailable)
         else if negb (Allowed d) then (reasoned d, EgressDenied)
         else (d, EgressOK)).

Fixpoint decide_each (agent : Agent) (p : option Identity.Principal) (dest : string) (targets : list string) (exit : option Agent)
    (first : option Decision) : prog (Decision * EgressStatus) :=
  match targets with
  | [] => Ret (default (noDecision ReasonNone) first, EgressOK)
  | target :: targets' =>
      r ← decide agent p dest target exit;
      let '(d, status) := (r : Decision * EgressStatus) in
      if negb (bool_decide (status = EgressOK)) then Ret (d, status)
      else decide_each agent p dest targets' exit (Some (default d first))
  end.

Definition decideAll (agent : Agent) (p : option Identity.Principal) (dest : string) (targets : list string) (exit : option Agent)
    : prog (Decision * EgressStatus) := decide_each agent p dest targets exit None.

Definition ErrTransient : goerr := ENew "flows: re-evaluation unavailable".

(** The re-check of an egress flow. *)
Definition recheck_egress (agent : Agent) (p : option Identity.Principal) (dest : string) (targets : list string) (exit : option Agent)
    : prog (option goerr) :=
  r ← decideAll agent p dest targets exit;
  let '(d, status) := (r : Decision * EgressStatus) in
  Ret (if bool_decide (status = EgressOK) then None
       else if bool_decide (status = EgressUnavailable) then Some (EWrap ("egress " +:+ dest +:+ " re-evaluation: ") ErrTransient "")
       else Some (ENew ("egress " +:+ dest +:+ " re-evaluated to " +:+ reason_text (DReason d)))).

(** *** The handler *)
Definition session_of (p : option Identity.Principal) : string := match p with Some p => Identity.p_SessionID p | None => "" end.

(** The flow is attached: bytes are copied and the flow is recorded. *)
Definition carry (agent : Agent) (started : Z) (e : AccessEvent) (dest : string) (upstream : nat) : prog unit :=
  ok ← reply (mkReply EgressOK "");
  if negb ok then Ret tt
  else
    let host := match SplitHostPort dest with Some (host, _) => host | None => "" end in
    r ← ask (Splice (Some host) upstream);
    let '(up, down, mismatch) := (r : Z * Z * string) in
    _ ← ask (AddUsage (a_OrgID agent) (wrap64 (up + down)));
    _ ← (if has_meter h then ask (AddBytes MeterKind up down) else Ret tt);
    let e := if bool_decide (mismatch = "") then with_verdict AccessAllow (reason_text ReasonAllow) e
             else with_verdict AccessDeny mismatch e in
    record started (with_bytes up down e).

(** From [Track] on. *)
Definition serve_flow (agent : Agent) (p : option Identity.Principal) (started : Z) (e : AccessEvent) (dest : string)
    (exit : option Agent) (exitStream : option nat) (targets : list string) : prog unit :=
  flow ← ask (Track (a_OrgID agent) (session_of p) (EgressCheck agent p dest targets exit));
  _ ← (r ← decideAll agent p dest targets exit;
       let '(d, status) := (r : Decision * EgressStatus) in
       let e := with_policies (policyIDs d) e in
       if negb (bool_decide (status = EgressOK)) then refuse started e (mkRefusal status (reason_text (DReason d)))
       else
         u ← dial exitStream targets;
         match u with
         | inr rf => refuse started e rf
         | inl upstream =>
             ok ← ask (Attach flow upstream);
             _ ← (if ok : bool then carry agent started e dest upstream
                  else refuse started e (mkRefusal EgressDenied (reason_text ReasonSessionRevoked)));
             _ ← ask (CloseConn upstream); Ret tt
         end);
  _ ← ask (Untrack flow); Ret tt.

(** From the first decision on. *)
Definition open_flow (agent : Agent) (p : option Identity.Principal) (started : Z) (e : AccessEvent) (dest : string) (exit : option Agent)
    : prog unit :=
  r ← decide agent p dest dest exit;
  let '(d, status) := (r : Decision * EgressStatus) in
  if negb (bool_decide (status = EgressOK)) && negb (ScopeResolvedIP (Scope d))
  then refuse started (with_policies (policyIDs d) e) (mkRefusal status (reason_text (DReason d)))
  else
    let e := with_exit exit e in
    match exit with
    | Some x =>
        r ← openExit x dest;
        match r with
        | inr rf => refuse started e rf
        | inl (stream, targets) =>
            _ ← serve_flow agent p started e dest exit (Some stream) targets;
            _ ← ask (CloseConn stream); Ret tt
        end
    | None =>
        r ← resolve dest;
        match r with
        | inr rf => refuse started e rf
        | inl targets => serve_flow agent p started e dest exit None targets
        end
    end.

Definition handle_egress (agent : Agent) (user : option Identity.Principal) (init : StreamInit) : prog unit :=
  started ← ask Now;
  let e := new_record agent init in
  if negb (bool_decide (i_Kind init = KindTCP))
  then refuse started (with_protocol (truncate (i_Kind init)) e) (mkRefusal EgressInvalid reasonNotTCP)
  else
    match NormalizeDestination (meta init MetaEgress) with
    | Fail _ => refuse started e (mkRefusal EgressInvalid (reason_text ReasonInvalidRequest))
    | Ok dest =>
        let e := with_destination dest e in
        r ← principal agent user (meta init MetaEgressAuth);
        match r with
        | inr rf => refuse started e rf
        | inl p =>
            let e := with_principal p e in
            r ← resolveExit agent (meta init MetaEgressVia);
            match r with
            | inr rf => refuse started e rf
            | inl exit => open_flow agent p started e dest exit
            end
        end
    end.

Definition HandleEgress (agent : Agent) (user : option Identity.Principal) (init : StreamInit) : prog unit :=
  _ ← handle_egress agent user init; _ ← ask CloseStream; Ret tt.

(** ** request.go *)
Definition ReasonCredentialUnavailable : string := "credential_unavailable".
Definition ReasonCredentialRequiresTLS : string := "credential_requires_tls".
Definition ReasonCredentialDestination : string := "credential_destination_refused".
Definition ReasonCredentialMethod : string := "credential_method_refused".

Context `{hpke : Credseal.HPKE}.

Definition denied (reason : string) : Decider.DecisionAnswer := Decider.mkAnswer 0 false reason 0 None None.

Definition request_context (hq : Gateway.HTTPQuery) (exit : option Agent) : RequestContext :=
  mkContext "" "" (Gateway.hq_TLS hq) (Gateway.hq_Method hq) (Gateway.hq_Path hq) "" ""
    (match exit with Some e => a_ID e | None => "" end) "" (Gateway.hq_Decrypted hq) "" None.

Definition decideRequest (agent : Agent) (p : option Identity.Principal) (dest : string) (hq : Gateway.HTTPQuery) (exit : option Agent)
    : prog (Decision * bool) :=
  if negb (has_deciders h) then Ret (noDecision ReasonUnavailable, false)
  else
    r ← ask_policy agent p (request_context hq exit) ActionEgressRequest (mkRef EntityDestination dest);
    let '(d, err) := (r : Decision * option goerr) in
    Ret (if match err with Some _ => true | None => false end || isUnavailable (DReason d)
         then (noDecision ReasonUnavailable, false)
         else if negb (Allowed d) then (reasoned d, false) else (d, true)).

Definition releaseCredential (agent : Agent) (name host : string) (sealTo : list byte) : prog (Decider.SealedCredential + string) :=
  if negb (has_credentials h) || negb (has_secrets h) || negb (len sealTo =? Credseal.PublicKeySize)
  then Ret (inr ReasonCredentialUnavailable)
  else
    r ← ask (GetEgressCredential (a_OrgID agent) name);
    match r with
    | Fail err => Ret (inr (if errIs err ErrNotFound then ReasonCredentialUnavailable else reason_text ReasonUnavailable))
    | Ok cred =>
        if negb (bool_decide (ec_OrgID cred = a_OrgID agent)) || negb (DeliversTo cred (a_ID agent))
        then Ret (inr ReasonCredentialUnavailable)
        else if negb (ReleasableTo cred host) then Ret (inr ReasonCredentialDestination)
        else
          r ← ask (OpenSecret (a_OrgID agent) (ec_Secret cred));
          match r with
          | Fail _ => Ret (inr ReasonCredentialUnavailable)
          | Ok secret =>
              seed ← ask Seed;
              Ret match Credseal.Seal seed sealTo (Credseal.mkBinding (a_OrgID agent) (a_ID agent) name) (bytes_of (ec_Prefix cred) ++ secret) with
                  | Fail _ => inr ReasonCredentialUnavailable
                  | Ok sealed => inl (Decider.mkSealed name (ec_Header cred) sealed)
                  end
          end
    end.

Definition DecideRequest (agent : Agent) (user : option Identity.Principal) (q : Gateway.DecisionQuery) : prog Decider.DecisionAnswer :=
  match Gateway.q_HTTP q with
  | None => Ret (denied (reason_text ReasonInvalidRequest))
  | Some hq =>
      if negb (bool_decide (Gateway.q_Action q = Gateway.DecisionActionEgressRequest)) ||
         (Gateway.hq_Port hq <? 1) || (65535 <? Gateway.hq_Port hq)
      then Ret (denied (reason_text ReasonInvalidRequest))
      else
        match NormalizeDestination (JoinHostPort (Gateway.hq_Host hq) (Itoa (Gateway.hq_Port hq))) with
        | Fail _ => Ret (denied (reason_text ReasonInvalidRequest))
        | Ok dest =>
            r ← principal agent user (Gateway.hq_Auth hq);
            match r with
            | inr rf => Ret (denied (rf_reason rf))
            | inl p =>
                r ← resolveExit agent (Gateway.hq_Exit hq);
                match r with
                | inr rf => Ret (denied (rf_reason rf))
                | inl exit =>
                    r ← decideRequest agent p dest hq exit;
                    let '(d, ok) := (r : Decision * bool) in
                    if negb ok then Ret (denied (reason_text (DReason d)))
                    else
                      let allowed cred := Decider.mkAnswer 0 true (reason_text (DReason d)) (TTLSeconds d)
                                            (Some (Decider.mkScope (ScopePath (Scope d)) (ScopeMethod (Scope d)))) cred in
                      match SelectedCredential d with
                      | Fail _ => Ret (denied (reason_text ReasonPolicyError))
                      | Ok name =>
                          if bool_decide (name = "") then Ret (allowed None)
                          else if negb (Gateway.hq_TLS hq) then Ret (denied ReasonCredentialRequiresTLS)
                          else if bool_decide (Gateway.hq_Method hq = "TRACE") then Ret (denied ReasonCredentialMethod)
                          else
                            r ← releaseCredential agent name (Gateway.hq_Host hq) (Gateway.q_SealTo q);
                            Ret match r with inr reason => denied reason | inl cred => allowed (Some cred) end
                      end
                end
            end
        end
  end.

(** ** bridge.go *)
Definition ErrKindMismatch : goerr := ENew "connect: endpoint kind does not match the stream".
Definition ErrNotAllowed : goerr := ENew "connect: agent is not allowed to connect to this endpoint".
Definition ErrOriginOffline : goerr := ENew "connect: endpoint has no connected origin".
Definition ErrMissingConnect : goerr := ENew "connect: stream does not name an endpoint".
Definition ErrUnavailable : goerr := ENew "connect: authorization unavailable".

Definition lookup (agent : Agent) (ref kind : string) : prog (res Endpoint) :=
  r ← data (Gateway.FindConnectEndpoint (a_OrgID agent) ref);
  Ret match r with
      | Fail err => Fail (EWrap ("connect: endpoint " +:+ Quote ref +:+ ": ") err "")
      | Ok ep => if negb (bool_decide (Kind ep = kind))
                 then Fail (EWrap "" ErrKindMismatch (": endpoint is " +:+ Kind ep +:+ ", stream is " +:+ kind))
                 else Ok ep
      end.

(** [connectDecision]: the decision, and the endpoint once it is known. *)
Record connectDecision := mkConnectDecision { cd_Decision : Decision; cd_endpoint : option Endpoint }.
Definition noConnect : connectDecision := mkConnectDecision (noDecision ReasonNone) None.

Definition decide_connect (agent : Agent) (user : option Identity.Principal) (ref kind : string) : prog (connectDecision * option goerr) :=
  if bool_decide (ref = "") then Ret (noConnect, Some ErrMissingConnect)
  else if negb (has_deciders h) then Ret (noConnect, Some (EWrap "" ErrUnavailable ": no deciders configured"))
  else
    r ← lookup agent ref kind;
    match r with
    | Fail err => Ret (noConnect, Some err)
    | Ok ep =>
        r ← ask_policy agent user (mkContext "" "" false "" "" kind "" "" "" false "" None) ActionAgentConnect (mkRef EntityEndpoint (ID ep));
        let '(d, err) := (r : Decision * option goerr) in
        Ret (mkConnectDecision d (Some ep),
             if match err with Some _ => true | None => false end || isUnavailable (DReason d)
             then Some (EWrap "" ErrUnavailable (": " +:+ match err with Some e => errText e | None => "<nil>" end))
             else if negb (Allowed d) then Some (EWrap "" ErrNotAllowed (": " +:+ reason_text (DReason d)))
             else None)
    end.

Definition authorize (agent : Agent) (user : option Identity.Principal) (ref kind : string) : prog (Endpoint * ConnStore.AgentConn + goerr) :=
  r ← decide_connect agent user ref kind;
  match r with
  | (_, Some err) => Ret (inr err)
  | (mkConnectDecision _ None, None) => Panic "invalid memory address or nil pointer dereference"
  | (mkConnectDecision _ (Some ep), None) =>
      c ← ask (ResolveEndpoint (ID ep));
      Ret match c : option ConnStore.AgentConn with None => inr ErrOriginOffline | Some conn => inl (ep, conn) end
  end.

(** The re-check of a connection. *)
Definition recheck_connect (agent : Agent) (user : option Identity.Principal) (ref kind : string) : prog (option goerr) :=
  r ← decide_connect agent user ref kind;
  Ret match snd (r : connectDecision * option goerr) with
      | Some err => Some (if errIs err ErrUnavailable then EBoth ErrTransient ": " err else err)
      | None => None
      end.

Definition bridge_flow (agent : Agent) (user : option Identity.Principal) (init : StreamInit) (flow : nat) : prog unit :=
  r ← authorize agent user (meta init MetaConnect) (i_Kind init);
  match r with
  | inr _ => Ret tt
  | inl (ep, origin) =>
      let idle := meta init MetaIdleTimeout in
      r ← ask (OpenStream origin (ID ep) (Kind ep) (if bool_decide (idle = "") then ∅ else {[ MetaIdleTimeout := idle ]}));
      match r with
      | Fail _ => Ret tt
      | Ok upstream =>
          ok ← ask (Attach flow upstream);
          _ ← (if ok : bool then
                 r ← ask (Splice None upstream);
                 let '(up, down, _) := (r : Z * Z * string) in
                 _ ← ask (AddUsage (ep_OrgID ep) (wrap64 (up + down)));
                 if has_meter h then _ ← ask (AddBytes (Kind ep) up down); Ret tt else Ret tt
               else Ret tt);
          _ ← ask (CloseConn upstream); Ret tt
      end
  end.

Definition HandleConnect (agent : Agent) (user : option Identity.Principal) (init : StreamInit) : prog unit :=
  flow ← ask (Track (a_OrgID agent) (session_of user) (ConnectCheck agent user (meta init MetaConnect) (i_Kind init)));
  _ ← bridge_flow agent user init flow;
  _ ← ask (Untrack flow);
  _ ← ask CloseStream; Ret tt.

Definition DecideConnect (agent : Agent) (user : option Identity.Principal) (q : Gateway.DecisionQuery) : prog Decider.DecisionAnswer :=
  if negb (bool_decide (Gateway.q_Action q = Gateway.DecisionActionConnect)) then Ret (denied (reason_text ReasonInvalidRequest))
  else
    r ← decide_connect agent user (Gateway.q_Connect q) (Gateway.q_Kind q);
    let '(cd, err) := (r : connectDecision * option goerr) in
    let d := cd_Decision cd in
    Ret match err with
        | Some err =>
            denied (if negb (reason_eqb (DReason d) ReasonNone) then reason_text (DReason d)
                    else if errIs err ErrUnavailable then reason_text ReasonUnavailable else reason_text ReasonPolicyDeny)
        | None => Decider.mkAnswer 0 true (reason_text (DReason d)) (TTLSeconds d) None None
        end.

(** What re-evaluation runs for a tracked flow. *)
Definition recheck_code (c : recheck) : prog (option goerr) :=
  match c with
  | EgressCheck agent p dest targets exit => recheck_egress agent p dest targets exit
  | ConnectCheck agent p ref kind => recheck_connect agent p ref kind
  end.
End Handler.
End EgressHandler.
