(* ===== verification/EgressSNI.v ===== *)
(** * The server name of an egress stream

    internal/connect/egress/sni.go: the gateway reads the first bytes of a spliced stream;
    when they begin a TLS handshake the server name of its ClientHello must be the host
    the stream was opened for. Parsing the ClientHello is crypto/tls. *)
From S2P Require Import Prelude GoIO GoStrings GoNet Calls.

Module EgressSNI.
Import Calls.
Local Open Scope Z_scope.

Definition extensionECH : Z := 65037.
Definition maxClientHelloSize : Z := 65536.
Definition TLSHandshakeRecord : byte := Zbyte 22.

Definition ErrSNIMismatch : goerr := ENew "egress: tls server name does not match the destination host".
Definition ErrECHOuterMismatch : goerr :=
  ENew "egress: tls encrypted client hello hides the server name and its outer name does not match the destination host".
Definition ErrMalformedHello : goerr := ENew "egress: malformed tls client hello".

(** What crypto/tls makes of the bytes it has read: it wants more, gives up, or calls
    [GetConfigForClient] with the server name and the extensions. [read_size]: how many
    bytes it asks for next. *)
Inductive hello_result := HelloMore | HelloBad | HelloRead (serverName : string) (extensions : list Z).
Class HelloParser := { parse_hello : list byte -> hello_result; read_size : list byte -> nat }.

(** ** Reading *)
Inductive req := ReadConn (n : nat) | WriteUp (l : list byte).
Definition chunk (n : nat) : Type := dsig (fun l : list byte => (0 < length l <= n)%nat).
Definition answer (r : req) : Type := match r with ReadConn n => res (chunk n) | WriteUp _ => option goerr end.
Abbreviation prog := (Calls.prog answer).
Abbreviation event := (Calls.event answer).
Abbreviation ev := (@Calls.ev req answer).

(** The bytes the client sent so far, and those passed on. *)
Definition bytes_in (e : event) : list byte :=
  match e with existT (ReadConn n) x => match x with Ok l => `l | Fail _ => [] end | _ => [] end.
Definition bytes_out (e : event) : list byte := match projT1 e with WriteUp l => l | _ => [] end.
Definition received (E : list event) : list byte := concat (map bytes_in E).
Definition forwarded (E : list event) : list byte := concat (map bytes_out E).

Record clientHello := mkHello { serverName : string; ech : bool }.

Record sniConn := mkSNI { host : string; inspected : bool; pending : list byte; refusal : option string }.
Definition newSNIConn (h : string) : sniConn := mkSNI h false [] None.

Section Inspect.
Context `{lower : UnicodeLower} `{parser : HelloParser}.

Definition sameHost (serverName host : string) : bool := bool_decide (TrimSuffix (ToLower serverName) "." = host).

(** [left]: what the [LimitReader] still lets through. *)
Fixpoint readClientHello (left : nat) (seen : list byte) : prog (option (clientHello * list byte)) :=
  match parse_hello seen with
  | HelloRead name exts => Ret (Some (mkHello name (existsb (Z.eqb extensionECH) exts), seen))
  | HelloBad => Ret None
  | HelloMore =>
      match left with
      | O => Ret None
      | S left' =>
          r ← ask (ReadConn (Nat.min (Nat.max 1 (read_size seen)) left));
          match r with
          | Fail _ => Ret None
          | Ok l => readClientHello (left' - (length (`l) - 1)) (seen ++ `l)
          end
      end
  end.

Definition inspect (c : sniConn) : prog (res (list byte)) :=
  r ← ask (ReadConn 1);
  match r with
  | Fail err => Ret (Fail err)
  | Ok first =>
      if negb (bool_decide (head (`first) = Some TLSHandshakeRecord)) then Ret (Ok (`first))
      else
        hello ← readClientHello (Z.to_nat maxClientHelloSize) (`first);
        Ret match hello with
            | None => Fail ErrMalformedHello
            | Some (hello, seen) =>
                if (bool_decide (serverName hello = "") && bool_decide (ParseIP (host c) = nilIP)) ||
                   (negb (bool_decide (serverName hello = "")) && negb (sameHost (serverName hello) (host c)))
                then Fail (if ech hello then ErrECHOuterMismatch else ErrSNIMismatch)
                else Ok seen
            end
  end.

Definition reasonSNI : string := "sni_mismatch".
Definition reasonECH : string := "ech_outer_sni_mismatch".

(** What a failed inspection leaves for [mismatch]. *)
Definition refused (err : goerr) : option string :=
  if errIs err ErrECHOuterMismatch then Some reasonECH else if errIs err ErrSNIMismatch then Some reasonSNI else None.

Definition mismatch (c : sniConn) : string := default "" (refusal c).

(** Reading into a buffer of [n] bytes once the stream was inspected. *)
Definition read_on (n : nat) (c : sniConn) : prog (res (list byte) * sniConn) :=
  match pending c with
  | [] =>
      r ← ask (ReadConn n);
      Ret (match r with Ok l => Ok (`l) | Fail err => Fail err end, c)
  | p => Ret (Ok (take n p), mkSNI (host c) true (drop n p) (refusal c))
  end.

Definition Read (n : nat) (c : sniConn) : prog (res (list byte) * sniConn) :=
  if inspected c then read_on n c
  else
    r ← inspect c;
    match r with
    | Fail err => Ret (Fail err, mkSNI (host c) true (pending c) (refused err))
    | Ok buf => read_on n (mkSNI (host c) true buf (refusal c))
    end.

(** The pump of [tunnel.Splice] from the client to the upstream connection, for at most
    [fuel] reads: it ends with the first error. *)
Fixpoint pump (fuel n : nat) (c : sniConn) : prog sniConn :=
  match fuel with
  | O => Ret c
  | S fuel' =>
      r ← Read n c;
      match r with
      | (Fail _, c') => Ret c'
      | (Ok l, c') =>
          e ← ask (WriteUp l);
          match e : option goerr with Some _ => Ret c' | None => pump fuel' n c' end
      end
  end.

(** ** What is passed on *)
Definition name_ok (h name : string) : Prop :=
  name = "" /\ ParseIP h <> nilIP \/ name <> "" /\ sameHost name h = true.

(** A stream that begins a handshake has shown a name that fits. *)
Definition shown (h : string) (l : list byte) : Prop :=
  head l = Some TLSHandshakeRecord ->
  exists seen name exts, seen `prefix_of` l /\ parse_hello seen = HelloRead name exts /\ name_ok h name.

Definition pump_call (h : string) (E : list event) (r : req) : Prop :=
  match r with WriteUp l => l <> [] /\ forwarded E ++ l `prefix_of` received E /\ shown h (received E) | _ => True end.

Lemma received_snoc E e : received (E ++ [e]) = received E ++ bytes_in e.
Proof. unfold received. rewrite map_app, concat_app. cbn. by rewrite app_nil_r. Qed.
Lemma forwarded_snoc E e : forwarded (E ++ [e]) = forwarded E ++ bytes_out e.
Proof. unfold forwarded. rewrite map_app, concat_app. cbn. by rewrite app_nil_r. Qed.

(** One read: nothing is passed on and what it got is appended. *)
Lemma does_read {B} h E n (f : answer (ReadConn n) -> prog B) R :
  (forall E' x, E `prefix_of` E' -> forwarded E' = forwarded E -> received E' = received E ++ bytes_in (ev (ReadConn n) x) ->
     does (pump_call h) E' (f x) R) -> does (pump_call h) E (ask (ReadConn n) ≫= f) R.
Proof.
  intros Hf. eapply (does_bind _ _ _ _ _ (fun E' x => forwarded E' = forwarded E /\ received E' = received E ++ bytes_in (ev (ReadConn n) x))).
  - split; [done|]. intros x. split; [by eexists|]. rewrite forwarded_snoc, received_snoc. cbn. by rewrite app_nil_r.
  - intros E' x HE [? ?]. by apply Hf.
Qed.

Lemma readClientHello_does h left seen E : received E = seen ->
  does (pump_call h) E (readClientHello left seen)
    (fun E' r => forwarded E' = forwarded E /\ seen `prefix_of` received E' /\
       match r with Some (hello, l) => received E' = l /\ exists exts, parse_hello l = HelloRead (serverName hello) exts | None => True end).
Proof.
  revert seen E. induction left as [left IH] using lt_wf_ind. intros seen E HE.
  destruct left as [|left]; cbn [readClientHello]; destruct (parse_hello seen) as [| |name exts] eqn:Ep;
    try (apply does_ret; split; [done|]; split; [by rewrite HE|]; by eauto).
  apply does_read. intros E' [l|err] HE' Hf Hr; cbn in Hr.
  - eapply does_weaken, (IH (left - (length (`l) - 1))%nat); [|lia|by rewrite Hr, HE].
    intros E2 r HE2 (Hf2 & Hp & Hres). split; [congruence|]. split; [|done]. etrans; [|exact Hp]. by eexists.
  - apply does_ret. rewrite app_nil_r in Hr. split; [done|]. split; [by rewrite Hr, HE|done].
Qed.

(** Before anything is passed on. *)
Lemma inspect_does c E : received E = [] ->
  does (pump_call (host c)) E (inspect c)
    (fun E' r => forwarded E' = forwarded E /\ forall l, r = Ok l -> l <> [] /\ received E' = l /\ shown (host c) l).
Proof.
  intros HE. unfold inspect. apply does_read. intros E1 [first|err] HE1 Hf1 Hr1; [|by apply does_ret; split].
  cbn in Hr1. rewrite HE in Hr1. cbn [app] in Hr1. pose proof (proj2_dsig first) as Hl. cbn beta in Hl.
  case_bool_decide as Hh; cbn [negb].
  - eapply does_bind; [by apply readClientHello_does|]. intros E2 [[hello seen]|] HE2 (Hf2 & Hp & Hres); apply does_ret.
    + destruct Hres as (Hr2 & exts & Hx). split; [congruence|]. intros l.
      destruct (_ || _)%bool eqn:Ec; [done|]. intros [= <-]. rewrite Hr2 in Hp. split; [|split; [done|]].
      { intros ->. destruct Hp as [k Hk]. destruct (`first); cbn in *; [lia|done]. }
      intros _. exists seen, (serverName hello), exts. split; [done|]. split; [done|].
      apply orb_false_iff in Ec as [Ea Eb]. unfold name_ok. destruct (bool_decide_reflect (serverName hello = "")) as [Hn|Hn].
      * left. split; [done|]. by apply bool_decide_eq_false in Ea.
      * right. split; [done|]. by apply negb_false_iff in Eb.
    + by split; [congruence|].
  - apply does_ret. split; [done|]. intros l [= <-]. split; [intros E0; rewrite E0 in Hl; cbn in Hl; lia|]. split; [done|]. intros ?. done.
Qed.

(** Between two reads of an inspected stream. *)
Definition carried (h : string) (E : list event) (c : sniConn) : Prop :=
  host c = h /\ inspected c = true /\ forwarded E ++ pending c = received E /\ shown h (received E).

Lemma shown_app h l k : l <> [] -> shown h l -> shown h (l ++ k).
Proof.
  intros Hne Hs Hh. destruct l as [|b l]; [done|]. destruct (Hs Hh) as (seen & name & exts & Hp & ?). exists seen, name, exts.
  split; [|done]. by apply prefix_app_r.
Qed.

Lemma read_on_does h n c E : (0 < n)%nat -> carried h E c -> received E <> [] ->
  does (pump_call h) E (read_on n c)
    (fun E' r => match r with
                 | (Ok l, c') => l <> [] /\ forwarded E' ++ l ++ pending c' = received E' /\ shown h (received E') /\ host c' = h /\
                                 inspected c' = true /\ received E' <> []
                 | (Fail _, _) => True end).
Proof.
  intros Hn (Hh & Hi & Hp & Hs) Hne. unfold read_on. destruct (pending c) as [|b p] eqn:Epend.
  - apply does_read. intros E1 [l|err] HE1 Hf Hr; apply does_ret; [|done]. cbn in Hr. rewrite app_nil_r in Hp.
    pose proof (proj2_dsig l) as Hl. cbn beta in Hl. rewrite Epend, Hr, Hf, Hp, app_nil_r.
    split; [intros E0; rewrite E0 in Hl; cbn in Hl; lia|]. split; [done|]. split; [by apply shown_app|].
    split; [done|]. split; [done|]. by destruct (received E).
  - apply does_ret. cbn [pending host inspected]. split; [by destruct n; [lia|]|]. rewrite take_drop. done.
Qed.

Lemma pump_does h fuel n c E : (0 < n)%nat ->
  (carried h E c /\ received E <> [] \/ c = newSNIConn h /\ received E = [] /\ forwarded E = []) ->
  does (pump_call h) E (pump fuel n c) (fun _ _ => True).
Proof.
  intros Hn. revert c E. induction fuel as [|fuel IH]; intros c E Hc; cbn [pump]; [by apply does_ret|].
  eapply (does_bind _ _ _ _ _ (fun E' r => match r with
      | (Ok l, c') => l <> [] /\ forwarded E' ++ l ++ pending c' = received E' /\ shown h (received E') /\ host c' = h /\
                      inspected c' = true /\ received E' <> []
      | (Fail _, _) => True end)).
  - unfold Read. destruct Hc as [[Hc Hne]|(-> & Hr & Hf)].
    + rewrite (proj1 (proj2 Hc)). by apply read_on_does.
    + cbn [inspected newSNIConn]. eapply does_bind; [by apply (inspect_does (newSNIConn h))|]. intros E1 [l|err] HE1 (Hf1 & Hl); [|by apply does_ret].
      destruct (Hl l eq_refl) as (Hne & Hr1 & Hs). apply read_on_does; [done| |by rewrite Hr1]. unfold carried. cbn [host inspected pending].
      rewrite Hf1, Hf, Hr1. done.
  - intros E1 [[l|err] c'] HE1 H1; [|by apply does_ret]. destruct H1 as (Hl & Hp & Hs & Hh & Hi & Hne).
    eapply (does_bind _ _ _ _ _ (fun E' x => forwarded E' = forwarded E1 ++ l /\ received E' = received E1)).
    + split; [split; [done|]; split; [rewrite <- Hp; rewrite app_assoc; by eexists|done]|]. intros x. split; [by eexists|].
      rewrite forwarded_snoc, received_snoc. cbn. by rewrite app_nil_r.
    + intros E2 [err|] HE2 [Hf2 Hr2]; [by apply does_ret|]. apply IH. left. unfold carried.
      rewrite Hf2, Hr2, <- app_assoc. done.
Qed.

(** C17: Whatever the gateway passes on from an egress stream to its upstream is what the client sent, in order and
    without gaps; and once the client begins a TLS handshake nothing is passed on before a ClientHello was read
    whose server name is the host the stream was opened for (or that names none, for an address). *)
Theorem egress_stream_shows_its_name fuel n h E o E1 l x E2 : (0 < n)%nat ->
  runs (pump fuel n (newSNIConn h)) E o -> E = E1 ++ ev (WriteUp l) x :: E2 ->
  forwarded E1 ++ l `prefix_of` received E1 /\
  (head (received E1) = Some TLSHandshakeRecord ->
   exists seen name exts, seen `prefix_of` received E1 /\ parse_hello seen = HelloRead name exts /\ name_ok h name).
Proof.
  intros Hn Hr HE. assert (does (pump_call h) [] (pump fuel n (newSNIConn h)) (fun _ _ => True)) as Hd
    by (apply pump_does; [done|right; done]).
  destruct (does_runs _ _ _ _ _ Hd Hr) as [HQ _]. by destruct (HQ _ _ _ _ HE) as (_ & ? & ?).
Qed.
End Inspect.
End EgressSNI.
