(* ===== verification/EgressSafety.v ===== *)
(** * What egress and bridged streams reach

    The handlers of EgressHandler.v keep policy: an address is dialled, an exit confirmed and
    a stream copied only after every target was decided on, in a flow that was tracked
    before the decision; credentials are released to the agents and hosts they are for;
    each stream leaves one access record. *)
From S2P Require Import Prelude GoIO GoStrings GoNet Netblock Addresses DecryptScope Frames Sessions Decider Authz Credseal Prog Identity Calls Cloudflare Endpoints Gateway Proxy ProxySafety EgressHandler.

Module EgressSafety.
Import Netblock Addresses Frames.Egress Authz.Decision Authz.HostNames Calls Endpoints EgressHandler.
Local Open Scope Z_scope.

(** ** The dialer *)

(** What the handler relies on: resolving dials nothing and answers at least one pinned
    address; a pinned address is an IP address with a port, and dialing it connects to it. *)
Class DialerLaws (d : Dialer) (pinned : string -> Prop) : Prop := {
  resolve_law dest : does (fun _ r => exists host, r = Proxy.Lookup host) [] (ResolveAll d dest)
    (fun _ r => forall l, r = Ok l -> l <> [] /\ Forall pinned l);
  dial_law t : pinned t -> does (fun _ r => r = Proxy.DialAddr "tcp" t \/ r = Proxy.Expired) [] (Dial d t)
    (fun E r => forall c, r = Ok c -> exists c', c = Some c' /\ @Calls.ev Proxy.req Proxy.answer (Proxy.DialAddr "tcp" t) (Ok c') ∈ E);
  pinned_law t : pinned t -> validTarget t = true
}.

Section Guard.
Context `{lower : UnicodeLower} `{quote : UnicodeQuote} `{url : UrlParse} `{neterr : Proxy.NetErrors} `{pem : Proxy.PemCerts}.

Definition guard_pinned (g : Proxy.Guard) (t : string) : Prop :=
  exists ip port, ip_wf ip /\ ProxySafety.good_port port /\ Proxy.IPAllowed g ip = true /\ t = Proxy.resolved ip port.

Lemma Dial_pinned g ip port : ip_wf ip -> ProxySafety.good_port port -> Proxy.IPAllowed g ip = true ->
  does (fun _ r => r = Proxy.DialAddr "tcp" (Proxy.resolved ip port) \/ r = Proxy.Expired) [] (Proxy.Dial g (Proxy.resolved ip port) None)
    (fun E r => forall c, r = Ok c -> exists c', c = Some c' /\
       @Calls.ev Proxy.req Proxy.answer (Proxy.DialAddr "tcp" (Proxy.resolved ip port)) (Ok c') ∈ E).
Proof.
  intros Hip Hp Ha. unfold Proxy.Dial. rewrite ProxySafety.ParseTarget_resolved, ProxySafety.ResolveAll_resolved by done. cbn.
  apply (does_ask_bind _ _ (Proxy.DialAddr "tcp" (Proxy.resolved ip port))); [by left|]. intros E1 [c|err] _ Hev.
  - apply does_ret. intros ? [= <-]. eauto.
  - apply (does_ask_bind _ _ Proxy.Expired); [by right|]. intros E2 [] _ _; by apply does_ret.
Qed.

(** The guard of the proxy is such a dialer. *)
#[export] Instance guard_laws g : DialerLaws (guard_dialer g) (guard_pinned g).
Proof.
  split.
  - intros dest. cbn [guard_dialer ResolveAll]. destruct (Proxy.ParseTarget dest) as [t|err] eqn:Ht.
    + eapply does_weaken, (ProxySafety.ResolveAll_does g _ [] dest t Ht); [|by eauto]. intros E r _ Hr l Hl.
      destruct (Hr l Hl) as [Hne Hf]. split; [done|]. eapply Forall_impl; [exact Hf|]. intros a (ip & (Hw & Ha & _) & ->).
      exists ip, (Proxy.t_Port t). split; [done|]. split; [by eapply ProxySafety.ParseTarget_Ok|done].
    + unfold Proxy.ResolveAll. rewrite Ht. by apply does_ret.
  - intros t (ip & port & Hw & Hp & Ha & ->). by apply Dial_pinned.
  - intros t (ip & port & Hw & (n & Hn & _) & _ & ->). unfold validTarget, Proxy.resolved.
    pose proof (Normalize_wf ip Hw) as Hw'. rewrite SplitHostPort_Join.
    + rewrite bool_decide_eq_false_2 by by apply ParseIP_text_not_nil. rewrite bool_decide_eq_false_2; [done|]. by intros ->.
    + eapply ProxySafety.forallb_Forall, ip_string_bytes, Hw'. intros b Hb. by destruct (ip_byte_plain b Hb) as (_ & ? & _).
    + eapply ProxySafety.forallb_Forall, ProxySafety.Atoi_bytes, Hn. intros b Hb. by destruct (ProxySafety.port_byte_plain b Hb) as (? & _).
    + eapply ProxySafety.forallb_Forall, ProxySafety.Atoi_bytes, Hn. intros b Hb. by destruct (ProxySafety.port_byte_plain b Hb) as (_ & ? & _).
Qed.
End Guard.

(** ** The handler of egress streams *)
Section Egress.
Context `{lower : UnicodeLower} `{quote : UnicodeQuote}.
Context (h : handler) (pinned : string -> Prop) {laws : forall d, h_dialer h = Some d -> DialerLaws d pinned}.
Context (agent : Agent) (user : option Identity.Principal) (init : StreamInit).

(** Policy allowed [target] of [dest] for [p], by way of [exit]. *)
Definition allowed_by (E : list event) (p : option Identity.Principal) (dest target : string) (exit : option Agent) : Prop :=
  exists d,
    let a := NewAgentDecision agent p (egress_context target exit) in
    ev (Decide (ad_scope a) (request_of a ActionEgressConnect (mkRef EntityDestination dest))) (d, None) ∈ E /\
    Allowed d = true /\ DReason d <> ReasonUnavailable.

(** The principal of the connection, or one of the agent's organization that authenticated. *)
Definition principal_ok (E : list event) (p : option Identity.Principal) : Prop :=
  p = user \/ exists raw p', p = Some p' /\ ev (Authenticate raw) (Ok p') ∈ E /\ Identity.p_OrgID p' = a_OrgID agent.

(** An exit is another agent of the organization. *)
Definition exit_ok (E : list event) (exit : option Agent) : Prop :=
  forall x, exit = Some x ->
    a_OrgID x = a_OrgID agent /\ a_ID x <> a_ID agent /\ exists agents, ev (ListAgents (a_OrgID agent)) (Ok agents) ∈ E /\ x ∈ agents.

(** A flow to [dest]: it was tracked, and since then every target was allowed. *)
Record flow_ok (E : list event) (p : option Identity.Principal) (dest : string) (targets : list string) (exit : option Agent)
    (flow : nat) : Prop := {
  fo_dest : NormalizeDestination (meta init MetaEgress) = Ok dest;
  fo_kind : i_Kind init = KindTCP;
  fo_principal : principal_ok E p;
  fo_exit : exit_ok E exit;
  fo_targets : targets <> [] /\ Forall (fun t => validTarget t = true) targets;
  fo_decided : exists E0 E1, E = E0 ++ ev (Track (a_OrgID agent) (session_of p) (EgressCheck agent p dest targets exit)) flow :: E1 /\
                 Forall (fun t => allowed_by E1 p dest t exit) targets
}.

(** The other end of a flow: a target that was dialled, or the exit that confirmed. *)
Definition reached (E : list event) (targets : list string) (exit : option Agent) (upstream : nat) : Prop :=
  match exit with
  | None => exists t, t ∈ targets /\ ev (Net (Proxy.DialAddr "tcp" t)) (Ok upstream) ∈ E
  | Some _ => exists rep, ev (SendTargets upstream targets) None ∈ E /\ ev (ReadReply upstream) (Ok rep) ∈ E /\ Status rep = EgressOK
  end.

(** A flow that was attached to its other end. *)
Definition attached (E : list event) (p : option Identity.Principal) (dest : string) (upstream : nat) : Prop :=
  exists targets exit flow, flow_ok E p dest targets exit flow /\ reached E targets exit upstream /\ ev (Attach flow upstream) true ∈ E.

(** Nothing was recorded and no stream copied yet. *)
Definition silent (e : event) : Prop := match projT1 e with RecordAccess _ | Splice _ _ => False | _ => True end.
Definition fresh (E : list event) : Prop := Forall silent E.
Definition no_record (E : list event) : Prop := Forall (fun e => match projT1 e with RecordAccess _ => False | _ => True end) E.

(** Which calls the handler may make. *)
Definition egress_call (E : list event) (r : req) : Prop :=
  match r with
  | Net (Proxy.DialAddr network addr) =>
      network = "tcp" /\ pinned addr /\ exists p dest targets flow, flow_ok E p dest targets None flow /\ addr ∈ targets
  | SendTargets stream targets => exists p dest x flow, flow_ok E p dest targets (Some x) flow
  | WriteReply rep => Status rep = EgressOK -> exists p dest upstream, attached E p dest upstream
  | Splice host upstream => exists p dest, attached E p dest upstream /\ host = fst <$> SplitHostPort dest
  | RecordAccess e =>
      no_record E /\ ae_OrgID e = a_OrgID agent /\ ae_AgentID e = a_ID agent /\
      (ae_Decision e = AccessAllow <->
       exists host upstream up down, ev (Splice host upstream) (up, down, "") ∈ E)
  | OpenSecret _ _ | GetEgressCredential _ _ | Seed | Data _ => False
  | _ => True
  end.

(** *** The parts that only look things up *)
Definition calm (r : req) : Prop :=
  match r with
  | Net (Proxy.Lookup _) | Net Proxy.Expired | Now | Authenticate _ | ListAgents _ | Decide _ _ | GetAgent _ | OpenStream _ _ _ _
  | ReadResolution _ | ReadReply _ | CloseConn _ => True
  | _ => False
  end.

Lemma calm_call E r : calm r -> egress_call E r.
Proof. by destruct r as [[]| | | | | | | | | | | | | | | | | | | | | | | |]. Qed.
Lemma calm_silent r (x : answer r) : calm r -> silent (ev r x).
Proof. by destruct r as [[]| | | | | | | | | | | | | | | | | | | | | | | |]. Qed.

(** A calm part of the handler keeps the log fresh. *)
Lemma calm_part {A} E (p : prog A) R : fresh E -> does (fun _ => calm) E p R ->
  does egress_call E p (fun E' a => R E' a /\ fresh E').
Proof.
  intros Hf Hp. eapply does_weaken; [|eapply does_impl, (does_keep _ silent), Hp].
  - intros E' a _ (HR & E2 & -> & HE2). split; [done|]. by apply Forall_app.
  - intros. by apply calm_call.
  - intros. by apply calm_silent.
Qed.

Lemma principal_does E raw : does (fun _ => calm) E (principal h agent user raw)
  (fun E' r => match r with inl p => principal_ok E' p | inr rf => rf_status rf <> EgressOK end).
Proof.
  unfold principal. case_bool_decide; [by apply does_ret; left|]. destruct (has_auth h); [|by apply does_ret].
  apply (does_ask_bind _ _ (Authenticate raw)); [done|]. intros E1 [p|err] _ Hev; apply does_ret.
  - case_bool_decide; cbn [negb]; [|done]. right. eauto.
  - by destruct (errIs _ _).
Qed.

Lemma match_exit_spec ref agents found : (forall x, found = Some x -> a_OrgID x = a_OrgID agent) ->
  match match_exit agent ref agents found with
  | inl o => forall x, o = Some x -> a_OrgID x = a_OrgID agent /\ (found = Some x \/ x ∈ agents)
  | inr rf => rf_status rf <> EgressOK
  end.
Proof.
  revert found. induction agents as [|a agents IH]; intros found Hf; cbn [match_exit]; [by intros x ->; auto|].
  destruct (_ || _)%bool eqn:Ec.
  - specialize (IH found Hf). destruct (match_exit _ _ _ _); [|done]. intros x [? [?|?]]%IH; split; auto. right. by right.
  - destruct found as [y|]; [done|]. apply orb_false_iff in Ec as [Eo%negb_false_iff%bool_decide_eq_true _].
    specialize (IH (Some a)). destruct (match_exit _ _ _ _); [|apply IH; by intros ? [= <-]].
    intros x [? [[= <-]|?]]%IH; [| |by intros ? [= <-]]; split; auto; right; [left|by right].
Qed.

Lemma resolveExit_does E ref : does (fun _ => calm) E (resolveExit h agent ref)
  (fun E' r => match r with inl exit => exit_ok E' exit | inr rf => rf_status rf <> EgressOK end).
Proof.
  unfold resolveExit. case_bool_decide; [by apply does_ret|]. destruct (has_agents h); [|by apply does_ret].
  apply (does_ask_bind _ _ (ListAgents (a_OrgID agent))); [done|]. intros E1 [agents|err] _ Hev; apply does_ret; [|done].
  pose proof (match_exit_spec ref agents None) as Hm. destruct (match_exit _ _ _ _) as [[x|]|rf]; [|done|by apply Hm].
  case_bool_decide; [done|]. intros y [= <-]. destruct (Hm ltac:(done) x eq_refl) as [? [?|?]]; [done|]. eauto.
Qed.

Lemma decide_does E p dest target exit : does (fun _ => calm) E (decide h agent p dest target exit)
  (fun E' r => r.2 = EgressOK -> exists E2, E' = E ++ E2 /\ allowed_by E2 p dest target exit).
Proof.
  unfold decide. destruct (_ || _)%bool; [by apply does_ret|]. unfold ask_policy. cbv zeta.
  eapply (does_bind _ _ _ _ _ (fun E' r => E' = E ++ [ev (Decide _ _) r])).
  { split; [done|]. intros x. split; [by eexists|done]. }
  intros E1 [d err] _ ->. apply does_ret. destruct err as [e|]; [done|]. cbn [orb]. unfold isUnavailable.
  destruct (reason_eqb _ _) eqn:Er; [done|]. destruct (Allowed d) eqn:Ea; [|done]. intros _. eexists. split; [done|].
  exists d. cbv zeta. split; [left|]. split; [done|]. by intros Hd; rewrite Hd in Er.
Qed.

Lemma allowed_by_mono E E' p dest target exit : (forall e, e ∈ E -> e ∈ E') -> allowed_by E p dest target exit -> allowed_by E' p dest target exit.
Proof. intros HE (d & ? & ?). exists d. split; [by apply HE|done]. Qed.

Lemma decideAll_does E p dest targets exit : does (fun _ => calm) E (decideAll h agent p dest targets exit)
  (fun E' r => r.2 = EgressOK -> exists E2, E' = E ++ E2 /\ Forall (fun t => allowed_by E2 p dest t exit) targets).
Proof.
  unfold decideAll. generalize (@None Decision). revert E. induction targets as [|t targets IH]; intros E first; cbn [decide_each].
  { apply does_ret. intros _. exists []. by rewrite app_nil_r. }
  eapply does_bind; [apply decide_does|]. intros E1 [d status] _ Hd. cbn [snd] in Hd. case_bool_decide as Hs; cbn [negb]; [|by apply does_ret].
  destruct (Hd Hs) as (E2 & -> & Ha). eapply does_weaken, IH. intros E3 r _ Hr Hok. destruct (Hr Hok) as (E4 & -> & Hf).
  exists (E2 ++ E4). rewrite app_assoc. split; [done|]. constructor.
  - eapply allowed_by_mono, Ha. intros e He. apply elem_of_app. by left.
  - eapply Forall_impl; [exact Hf|]. intros u Hu. eapply allowed_by_mono, Hu. intros e He. apply elem_of_app. by right.
Qed.

Lemma openExit_does E x dest : does (fun _ => calm) E (openExit x dest)
  (fun E' r => match r with
               | inl (_, targets) => targets <> [] /\ Forall (fun t => validTarget t = true) targets
               | inr rf => rf_status rf <> EgressOK end).
Proof.
  unfold openExit. apply (does_ask_bind _ _ (GetAgent _)); [done|]. intros E1 [conn|] _ _; [|by apply does_ret].
  apply (does_ask_bind _ _ (OpenStream _ _ _ _)); [done|]. intros E2 [stream|err] _ _; [|by apply does_ret].
  apply (does_ask_bind _ _ (ReadResolution stream)); [done|]. intros E3 x3 _ _.
  assert (forall rf, rf_status rf <> EgressOK ->
    does (fun _ => calm) E3 (_ ← ask (CloseConn stream); Ret (inr rf)) (fun E' (r : nat * list string + refusal) => match r with
      | inl (_, targets) => targets <> [] /\ Forall (fun t => validTarget t = true) targets
      | inr rf => rf_status rf <> EgressOK end)) as Hc.
  { intros rf Hrf. apply (does_ask_bind _ _ (CloseConn stream)); [done|]. intros. by apply does_ret. }
  destruct x3 as [[targets [rep|]]|err]; [| |by apply Hc].
  - case_bool_decide; by apply Hc.
  - destruct (validExitTargets targets) eqn:Ev; cbn [negb]; [|by apply Hc]. apply does_ret. unfold validExitTargets in Ev.
    apply andb_true_iff in Ev as [Hl Hv]. split; [by intros ->|]. by eapply ProxySafety.forallb_Forall, Hv.
Qed.

Lemma resolve_does E dest : does (fun _ => calm) E (resolve h dest)
  (fun _ r => match r with
              | inl targets => targets <> [] /\ Forall pinned targets /\ Forall (fun t => validTarget t = true) targets
              | inr rf => rf_status rf <> EgressOK end).
Proof.
  unfold resolve. destruct (h_dialer h) as [d|] eqn:Ed in |- *; [|by apply does_ret].
  eapply (does_bind _ _ _ _ _ (fun _ r => forall l, r = Ok l -> l <> [] /\ Forall pinned l)).
  - eapply (does_embed Net (fun r x => x) (fun r x => x)); [done| | |apply (resolve_law (DialerLaws := laws d Ed))].
    + by intros E1 r (host & ->).
    + done.
  - intros E1 [l|err] _ Hl; apply does_ret; [|by destruct (isBlocked err)]. destruct (Hl l eq_refl) as [Hne Hp].
    split; [done|]. split; [done|]. eapply Forall_impl; [exact Hp|]. intros t. apply (pinned_law (DialerLaws := laws d Ed)).
Qed.

(** *** Dialing *)
Definition dials (targets : list string) (exit : option Agent) (r : req) : Prop :=
  match r with
  | Net (Proxy.DialAddr network addr) => network = "tcp" /\ pinned addr /\ addr ∈ targets /\ exit = None
  | SendTargets _ l => l = targets /\ exit <> None
  | _ => calm r
  end.

Lemma dial_each_does d targets todo E last : h_dialer h = Some d -> todo ⊆ targets -> Forall pinned todo -> last <> Ok None \/ todo <> [] ->
  (forall c, last = Ok (Some c) -> reached E targets None c) ->
  does (fun _ => dials targets None) E (dial_each d todo last)
    (fun E' r => r <> Ok None /\ forall c, r = Ok (Some c) -> reached E' targets None c).
Proof.
  intros Hd. revert E last. induction todo as [|t todo IH]; intros E last Hs Hp Hne Hl; cbn [dial_each].
  { apply does_ret. split; [by destruct Hne|done]. }
  apply Forall_cons in Hp as [Ht Hp]. assert (t ∈ targets) as Hin by (apply Hs; left).
  eapply (does_bind _ _ _ _ _ (fun E' r => forall c, r = Ok c -> exists c', c = Some c' /\ ev (Net (Proxy.DialAddr "tcp" t)) (Ok c') ∈ E')).
  - eapply (does_embed Net (fun r x => x) (fun r x => x)); [done| | |apply (dial_law (DialerLaws := laws d Hd) t Ht)].
    + by intros E1 r [-> | ->].
    + intros E1 r Hr c Hc. destruct (Hr c Hc) as (c' & -> & Hev). exists c'. split; [done|]. apply elem_of_app. right.
      by apply (elem_of_lift (answer1 := Proxy.answer) (answer2 := answer) Net (fun r x => x)) in Hev.
  - intros E1 [c|err] HE1 Hr.
    + apply does_ret. destruct (Hr c eq_refl) as (c' & -> & Hev). split; [done|]. intros c [= <-]. exists t. done.
    + apply (does_ask_bind _ _ (Net Proxy.Expired)); [done|]. intros E2 [] HE2 _; [by apply does_ret; split|].
      apply IH; [intros u Hu; apply Hs; by right|done|by left|done].
Qed.

Lemma dial_does E targets exit exitStream : (exitStream = None <-> exit = None) -> targets <> [] -> (exit = None -> Forall pinned targets) ->
  does (fun _ => dials targets exit) E (dial h exitStream targets)
    (fun E' r => match r with inl up => reached E' targets exit up | inr rf => rf_status rf <> EgressOK end).
Proof.
  intros He Hne Hp. unfold dial. destruct exitStream as [stream|].
  - destruct exit as [x|]; [|by specialize (proj2 He eq_refl)]. unfold confirmExit.
    apply (does_ask_bind _ _ (SendTargets stream targets)); [done|]. intros E1 [err|] HE1 H1; [by apply does_ret|].
    apply (does_ask_bind _ _ (ReadReply stream)); [done|]. intros E2 [rep|err] HE2 H2; apply does_ret; [|done].
    case_bool_decide as Hs; cbn [negb]; [|done]. exists rep. split; [by eapply elem_of_prefix|done].
  - rewrite (proj1 He eq_refl) in *. destruct (h_dialer h) as [d|] eqn:Ed in |- *; [|by apply does_panic].
    eapply does_bind; [apply (dial_each_does d targets); try done; [by apply Hp|by right]|].
    intros E1 [[c|]|err] HE1 [Hn Hr]; [apply does_ret; by apply Hr|by apply does_panic|]. apply does_ret. by destruct (isBlocked err).
Qed.

(** *** What was established stays *)
Lemma principal_ok_mono E E' p : E `prefix_of` E' -> principal_ok E p -> principal_ok E' p.
Proof. intros HE [?|(raw & p' & ? & ? & ?)]; [by left|right]. exists raw, p'. split; [done|]. split; [by eapply elem_of_prefix|done]. Qed.

Lemma exit_ok_mono E E' exit : E `prefix_of` E' -> exit_ok E exit -> exit_ok E' exit.
Proof.
  intros HE Hx x Ex. destruct (Hx x Ex) as (? & ? & agents & ? & ?). split; [done|]. split; [done|]. exists agents.
  split; [by eapply elem_of_prefix|done].
Qed.

Lemma flow_ok_mono E E' p dest targets exit flow : E `prefix_of` E' -> flow_ok E p dest targets exit flow -> flow_ok E' p dest targets exit flow.
Proof.
  intros [E2 ->] [? ? ? ? ? (E0 & E1 & -> & Hf)]. split; [done..| | |done|].
  - eapply principal_ok_mono; [by eexists|done].
  - eapply exit_ok_mono; [by eexists|done].
  - exists E0, (E1 ++ E2). rewrite <- app_assoc. split; [done|]. eapply Forall_impl; [exact Hf|]. intros t Ht.
    eapply allowed_by_mono, Ht. intros e He. apply elem_of_app. by left.
Qed.

Lemma reached_mono E E' targets exit up : E `prefix_of` E' -> reached E targets exit up -> reached E' targets exit up.
Proof.
  intros HE. unfold reached. destruct exit.
  - intros (rep & ? & ? & ?). exists rep. split; [by eapply elem_of_prefix|]. split; [by eapply elem_of_prefix|done].
  - intros (t & ? & ?). exists t. split; [done|by eapply elem_of_prefix].
Qed.

Lemma attached_mono E E' p dest up : E `prefix_of` E' -> attached E p dest up -> attached E' p dest up.
Proof.
  intros HE (targets & exit & flow & ? & ? & ?). exists targets, exit, flow. split; [by eapply flow_ok_mono|].
  split; [by eapply reached_mono|by eapply elem_of_prefix].
Qed.

Lemma fresh_no_record E : fresh E -> no_record E.
Proof. intros H. eapply Forall_impl; [exact H|]. intros [[] x]; done. Qed.

Lemma fresh_no_splice E host up x : fresh E -> ev (Splice host up) x ∈ E -> False.
Proof. intros H Hin. unfold fresh in H. rewrite Forall_forall in H. by apply (H _ Hin). Qed.

(** *** Records *)
Definition own (e : AccessEvent) : Prop := ae_OrgID e = a_OrgID agent /\ ae_AgentID e = a_ID agent.
Definition spliced (E : list event) : Prop := exists host upstream up down, ev (Splice host upstream) (up, down, "") ∈ E.
Definition recorded (E : list event) : Prop :=
  has_access h = true -> (exists e, ev (RecordAccess e) tt ∈ E) \/ exists err, ev (WriteReply (mkReply EgressOK "")) (Some err) ∈ E.

Lemma recorded_mono E E' : E `prefix_of` E' -> recorded E -> recorded E'.
Proof.
  intros HE Hr Ha. destruct (Hr Ha) as [(e & ?)|(err & ?)]; [left; exists e|right; exists err]; by eapply elem_of_prefix.
Qed.

Lemma record_does E started e : no_record E -> own e -> (ae_Decision e = AccessAllow <-> spliced E) ->
  does egress_call E (record h started e) (fun E' _ => recorded E').
Proof.
  intros Hn [Ho1 Ho2] Hs. unfold record. destruct (has_access h) eqn:Eh; cbn [negb].
  2:{ apply does_ret. intros ?. congruence. }
  eapply (does_bind _ _ _ _ _ (fun E' x => E' = E ++ [ev Now x])).
  { split; [done|]. intros x. split; [by eexists|done]. }
  intros E1 now _ ->. apply (does_ask_bind _ _ (RecordAccess _)).
  - split; [|split; [done|split; [done|]]].
    { apply Forall_app. split; [done|by repeat constructor]. }
    cbn [ae_Decision with_duration]. rewrite Hs. split; intros (host & up & u & d & Hin); exists host, up, u, d.
    + apply elem_of_app. by left.
    + apply elem_of_app in Hin as [?|Hin%list_elem_of_singleton]; [done|]. discriminate (f_equal (@projT1 _ _) Hin).
  - intros E2 [] _ Hev. apply does_ret. intros _. left. by eexists.
Qed.

Lemma reply_does E r : egress_call E (WriteReply r) ->
  does egress_call E (reply r) (fun E' ok => exists x, E' = E ++ [ev (WriteReply r) x] /\ (ok = true <-> x = None)).
Proof.
  intros HQ. unfold reply. eapply (does_bind _ _ _ _ _ (fun E' x => E' = E ++ [ev (WriteReply r) x])).
  - split; [done|]. intros x. split; [by eexists|done].
  - intros E1 x _ ->. apply does_ret. exists x. split; [done|]. by destruct x.
Qed.

Lemma fresh_snoc E r (x : answer r) : fresh E -> silent (ev r x) -> fresh (E ++ [ev r x]).
Proof. intros. apply Forall_app. split; [done|by repeat constructor]. Qed.

Lemma refuse_does E started e rf : fresh E -> own e -> rf_status rf <> EgressOK ->
  does egress_call E (refuse h started e rf) (fun E' _ => recorded E').
Proof.
  intros Hf Ho Hrf. unfold refuse. eapply does_bind; [apply reply_does; by intros ?|]. intros E1 ok _ (x & -> & _).
  assert (fresh (E ++ [ev (WriteReply (mkReply (rf_status rf) (rf_reason rf))) x])) as Hf1 by by apply fresh_snoc.
  apply record_does; [by apply fresh_no_record|done|]. split; [done|]. intros (host & up & u & d & Hin). exfalso. by eapply fresh_no_splice.
Qed.

(** *** The destination *)
Lemma ParseAddr_wf s ip zone : ParseAddr s = Some (ip, zone) -> ip_wf ip.
Proof.
  assert (forall o, (fun '(ip, _) => (ip, "")) <$> (parse_addr o) = Some (ip, zone) -> ip_wf ip) as H4.
  { intros o. destruct (parse_addr o) as [[q n]|] eqn:E; [|done]. cbn. intros [= <- <-]. right. by eapply parse_addr_length. }
  assert (forall o (z : string), (fun ip => (ip, z)) <$> (parse_ipv6 o) = Some (ip, zone) -> ip_wf ip) as H6.
  { intros o z. destruct (parse_ipv6 o) as [q|] eqn:E; [|done]. cbn. intros [= <- <-]. right. by eapply parse_ipv6_length. }
  unfold ParseAddr. destruct (List.find _ _) as [b|]; [|apply H4].
  destruct (Ascii.ascii_dec b ":"%char) as [->|Hb]; [|by destruct b as [[] [] [] [] [] [] [] []]; try apply H4].
  destruct (split_bytes _ _) as [|a [|c l]]; [done|apply H6|]. case_bool_decide; [done|apply H6].
Qed.

Lemma NormalizeHost_plain s t : NormalizeHost s = Ok t -> plain (bytes_of t).
Proof.
  unfold NormalizeHost. set (x := if HasPrefix _ _ && _ then _ else _). destruct (ParseAddr x) as [[addr zone]|] eqn:Ea.
  - case_bool_decide; [|done]. cbn [negb]. intros [= <-]. apply ParseAddr_wf, ip_string_bytes in Ea.
    eapply ProxySafety.forallb_Forall, Ea. intros b Hb. by destruct (ip_byte_plain b Hb) as (_ & ? & _).
  - set (y := TrimSuffix x ".") in *. destruct (_ || _)%bool; [done|]. destruct (existsb _ (bytes_of y) || _ || _)%bool eqn:Ef; [done|].
    intros [= <-]. apply orb_false_iff in Ef as [[Ef _]%orb_false_iff _]. apply Forall_forall. intros b Hb.
    assert (existsb (Z.eqb (byteZ b)) forbidden_bytes = false) as Hno.
    { apply not_true_is_false. intros Ht. rewrite (proj2 (existsb_exists _ _)) in Ef; [done|]. exists b. split; [by apply list_elem_of_In|done]. }
    split; intros ->; discriminate Hno.
Qed.

Lemma Itoa_plain s n : Atoi s = Some n -> Forall (fun x => x <> ":"%char) (bytes_of s) /\ plain (bytes_of s).
Proof.
  intros H%ProxySafety.Atoi_bytes. split; eapply ProxySafety.forallb_Forall, H; intros b Hb; by destruct (ProxySafety.port_byte_plain b Hb) as (? & ? & _).
Qed.

(** A destination splits into its host and port. *)
Lemma NormalizeDestination_split s dest : NormalizeDestination s = Ok dest -> exists host port, SplitHostPort dest = Some (host, port).
Proof.
  unfold NormalizeDestination. destruct (SplitHostPort _) as [[host port]|]; [|done]. destruct (Atoi port) as [n|] eqn:En; [|done].
  destruct (_ || _)%bool; [done|]. destruct (NormalizeHost host) as [t|] eqn:Eh; [|done]. intros [= <-]. exists t, port.
  apply SplitHostPort_Join; [by eapply NormalizeHost_plain|by eapply Itoa_plain..].
Qed.

(** *** The flow *)
Lemma carry_does E p dest started e up : fresh E -> own e -> attached E p dest up ->
  does egress_call E (carry h agent started e dest up) (fun E' _ => recorded E').
Proof.
  intros Hf Ho Hat. unfold carry. eapply does_bind; [apply reply_does; intros _; by exists p, dest, up|].
  intros E1 ok HE1 (x & -> & Hok). destruct ok; cbn [negb].
  2:{ apply does_ret. intros _. right. destruct x as [err|]; [|by specialize (proj2 Hok eq_refl)]. exists err. apply elem_of_app. right. left. }
  clear Hok. set (E1 := E ++ _) in *. assert (fresh E1) as Hf1 by by apply fresh_snoc.
  assert (exists host, SplitHostPort dest = Some host) as [[host port] Es].
  { destruct Hat as (? & ? & ? & [Hd _ _ _ _ _] & _). destruct (NormalizeDestination_split _ _ Hd) as (? & ? & ?). eauto. }
  rewrite Es. eapply (does_bind _ _ _ _ _ (fun E' x => E' = E1 ++ [ev (Splice (Some host) up) x])).
  { split; [exists p, dest; split; [by eapply attached_mono|by rewrite Es]|]. intros y. split; [by eexists|done]. }
  intros E2 [[u d] mis] _ ->.
  eapply (does_bind _ _ _ _ _ (fun E' _ => exists E3, E' = (E1 ++ [ev (Splice (Some host) up) (u, d, mis)]) ++ E3 /\ fresh E3)).
  { split; [done|]. intros y. split; [by eexists|]. eexists. split; [done|by repeat constructor]. }
  intros E3 u3 _ (L & -> & HL).
  eapply (does_bind _ _ _ _ _ (fun E' _ => exists E3, E' = (E1 ++ [ev (Splice (Some host) up) (u, d, mis)]) ++ E3 /\ fresh E3)).
  { destruct (has_meter h); [|apply does_ret; eauto]. split; [done|]. intros y. split; [by eexists|]. exists (L ++ [ev (AddBytes MeterKind u d) y]).
    rewrite <- !app_assoc. split; [done|]. by apply fresh_snoc. }
  intros E4 u4 _ (M & -> & HM). apply record_does.
  - unfold no_record. rewrite !Forall_app. split; [split; [by apply fresh_no_record|by repeat constructor]|by apply fresh_no_record].
  - destruct Ho. by destruct (bool_decide _).
  - case_bool_decide as Hm; cbn; split; try done.
    + intros _. exists (Some host), up, u, d. rewrite Hm. apply elem_of_app. left. apply elem_of_app. right. left.
    + intros (host' & up' & u' & d' & Hin). exfalso. apply elem_of_app in Hin as [Hin|Hin]; [|by eapply fresh_no_splice, Hin].
      apply elem_of_app in Hin as [Hin|Hin]; [by eapply fresh_no_splice, Hin|]. apply list_elem_of_singleton in Hin. apply Hm.
      pose proof (f_equal (fun e => match e with existT (Splice _ _) z => snd z | _ => "" end) Hin) as Hz. by cbn in Hz.
Qed.

Lemma serve_flow_does E p dest started e exit exitStream targets : fresh E -> own e ->
  NormalizeDestination (meta init MetaEgress) = Ok dest -> i_Kind init = KindTCP -> principal_ok E p -> exit_ok E exit ->
  (exitStream = None <-> exit = None) -> targets <> [] -> Forall (fun t => validTarget t = true) targets ->
  (exit = None -> Forall pinned targets) ->
  does egress_call E (serve_flow h agent p started e dest exit exitStream targets) (fun E' _ => recorded E').
Proof.
  intros Hf Ho Hd Hk Hp Hx Hes Hne Hv Hpin. unfold serve_flow.
  eapply (does_bind _ _ _ _ _ (fun E' flow => E' = E ++ [ev (Track (a_OrgID agent) (session_of p) (EgressCheck agent p dest targets exit)) flow])).
  { split; [done|]. intros x. split; [by eexists|done]. }
  intros E1 flow HE1 E1eq. assert (fresh E1) as Hf1 by (rewrite E1eq; by apply fresh_snoc).
  eapply (does_bind _ _ _ _ _ (fun E' _ => recorded E')).
  2:{ intros E2 _ HE2 Hr. apply (does_ask_bind _ _ (Untrack flow)); [done|]. intros. apply does_ret. by eapply recorded_mono. }
  eapply does_bind; [apply calm_part; [done|apply decideAll_does]|]. intros E2 [d status] HE2 [Hr2 Hf2]. cbn [snd] in Hr2.
  case_bool_decide as Hs; cbn [negb]; [|by apply refuse_does]. destruct (Hr2 Hs) as (L & -> & HL).
  assert (flow_ok (E1 ++ L) p dest targets exit flow) as Hfl.
  { split; try done; [eapply principal_ok_mono, Hp; by etrans|eapply exit_ok_mono, Hx; by etrans|].
    exists E, L. by rewrite E1eq, <- app_assoc. }
  eapply does_bind.
  { eapply does_impl; [|apply (does_keep _ silent), (dial_does (E1 ++ L) targets exit exitStream Hes Hne Hpin)].
    - intros E' r HE' Hr. destruct r as [[]| | | | | | | | | | | | | | | | | | | | | | | |]; try (by apply calm_call); cbn in Hr |- *.
      + destruct Hr as (-> & ? & ? & ->). split; [done|]. split; [done|]. exists p, dest, targets, flow. split; [by eapply flow_ok_mono|done].
      + destruct Hr as [-> Hxn]. destruct exit as [x|]; [|done]. exists p, dest, x, flow. by eapply flow_ok_mono.
    - intros E' r x Hr. destruct r as [[]| | | | | | | | | | | | | | | | | | | | | | | |]; done. }
  intros E3 [up|rf] HE3 (Hr3 & M & E3eq & HM); (assert (fresh E3) as Hf3 by (rewrite E3eq; by apply Forall_app)); [|by apply refuse_does].
  eapply (does_bind _ _ _ _ _ (fun E' ok => E' = E3 ++ [ev (Attach flow up) ok])).
  { split; [done|]. intros x. split; [by eexists|done]. }
  intros E4 ok HE4 E4eq. assert (fresh E4) as Hf4 by (rewrite E4eq; by apply fresh_snoc).
  eapply (does_bind _ _ _ _ _ (fun E' _ => recorded E')).
  - destruct ok; [|by apply refuse_does]. eapply (carry_does _ p); [done|by destruct Ho|]. exists targets, exit, flow.
    split; [eapply flow_ok_mono, Hfl; by etrans|]. split; [by eapply reached_mono|]. rewrite E4eq. apply elem_of_app. right. left.
  - intros E5 _ HE5 Hr. apply (does_ask_bind _ _ (CloseConn up)); [done|]. intros. apply does_ret. by eapply recorded_mono.
Qed.

Lemma open_flow_does E p dest started e exit : fresh E -> own e ->
  NormalizeDestination (meta init MetaEgress) = Ok dest -> i_Kind init = KindTCP -> principal_ok E p -> exit_ok E exit ->
  does egress_call E (open_flow h agent p started e dest exit) (fun E' _ => recorded E').
Proof.
  intros Hf Ho Hd Hk Hp Hx. unfold open_flow.
  eapply does_bind; [apply calm_part; [done|apply decide_does]|]. intros E1 [d status] HE1 [_ Hf1].
  destruct (_ && _)%bool eqn:Ec.
  { apply refuse_does; [done|done|]. cbn. apply andb_true_iff in Ec as [Ec%negb_true_iff%bool_decide_eq_false _]. done. }
  clear Ec. assert (own (with_exit exit e)) as Ho' by by destruct exit.
  apply (principal_ok_mono _ E1) in Hp; [|done]. apply (exit_ok_mono _ E1) in Hx; [|done]. destruct exit as [x|].
  - eapply does_bind; [apply calm_part; [done|apply openExit_does]|]. intros E2 [[stream targets]|rf] HE2 [Hr Hf2]; [|by apply refuse_does].
    destruct Hr as [Hne Hv]. eapply does_bind.
    { eapply serve_flow_does; try done; [by eapply principal_ok_mono|by eapply exit_ok_mono]. }
    intros E3 u3 HE3 Hr3. apply (does_ask_bind _ _ (CloseConn stream)); [done|]. intros. apply does_ret. by eapply recorded_mono.
  - eapply does_bind; [apply calm_part; [done|apply resolve_does]|]. intros E2 [targets|rf] HE2 [Hr Hf2]; [|by apply refuse_does].
    destruct Hr as (Hne & Hpin & Hv). eapply serve_flow_does; try done. by eapply principal_ok_mono.
Qed.

Lemma HandleEgress_does : does egress_call [] (HandleEgress h agent user init) (fun E' _ => recorded E').
Proof.
  unfold HandleEgress. eapply (does_bind _ _ _ _ _ (fun E' _ => recorded E')).
  2:{ intros E1 _ HE1 Hr. apply (does_ask_bind _ _ CloseStream); [done|]. intros. apply does_ret. by eapply recorded_mono. }
  unfold handle_egress. eapply (does_bind _ _ _ _ _ (fun E' x => E' = [ev Now x])).
  { split; [done|]. intros x. split; [by eexists|done]. }
  intros E1 started _ ->. assert (fresh [ev Now started]) as Hf by by repeat constructor.
  assert (own (new_record agent init)) as Ho by done. case_bool_decide as Hk; cbn [negb]; [|by apply refuse_does].
  destruct (NormalizeDestination _) as [dest|err] eqn:Hd; [|by apply refuse_does].
  eapply does_bind; [apply calm_part; [done|apply principal_does]|]. intros E2 [p|rf] HE2 [Hp Hf2]; [|by apply refuse_does].
  assert (own (with_principal p (with_destination dest (new_record agent init)))) as Ho' by by destruct p.
  eapply does_bind; [apply calm_part; [done|apply resolveExit_does]|]. intros E3 [exit|rf] HE3 [Hx Hf3]; [|by apply refuse_does].
  apply open_flow_does; try done. by eapply principal_ok_mono.
Qed.
End Egress.

(** ** Theorems on egress streams *)
Section EgressTheorems.
Context `{lower : UnicodeLower} `{quote : UnicodeQuote} `{url : UrlParse} `{neterr : Proxy.NetErrors} `{pem : Proxy.PemCerts}.
Context (g : Proxy.Guard) (h : handler) (Hd : forall d, h_dialer h = Some d -> d = guard_dialer g).

Lemma handler_laws d : h_dialer h = Some d -> DialerLaws d (guard_pinned g).
Proof using Hd. intros ->%Hd. apply _. Qed.

Lemma HandleEgress_runs agent user init E o : runs (HandleEgress h agent user init) E o ->
  (forall E1 r x E2, E = E1 ++ ev r x :: E2 -> egress_call (guard_pinned g) agent user init E1 r) /\
  (forall a, o = Some a -> recorded h E).
Proof using Hd.
  intros Hr. destruct (does_runs _ _ _ _ _ (HandleEgress_does h (guard_pinned g) (laws := handler_laws) agent user init) Hr) as [H1 H2].
  split; [exact H1|exact H2].
Qed.

Lemma resolved_ip ip port exit : ip_wf ip -> ProxySafety.good_port port ->
  ResolvedIP (egress_context (Proxy.resolved ip port) exit) = ip_string (Normalize ip).
Proof.
  intros Hw (n & Hn & _). unfold egress_context, Proxy.resolved. pose proof (Normalize_wf ip Hw) as Hw'.
  rewrite SplitHostPort_Join; [|..].
  - cbn [ResolvedIP]. by rewrite bool_decide_eq_false_2 by by apply ParseIP_text_not_nil.
  - eapply ProxySafety.forallb_Forall, ip_string_bytes, Hw'. intros b Hb. by destruct (ip_byte_plain b Hb) as (_ & ? & _).
  - by eapply Itoa_plain.
  - by eapply Itoa_plain.
Qed.



(** C23: A finished egress stream leaves an access record, unless the reply that opens it could not be written, and
    never two; the record is the agent's own, and says allow exactly when bytes were copied under a server name
    that was accepted. *)
Theorem egress_streams_are_recorded agent user init E :
  runs (HandleEgress h agent user init) E (Some tt) -> has_access h = true ->
  ((exists e, ev (RecordAccess e) tt ∈ E) \/ exists err, ev (WriteReply (mkReply EgressOK "")) (Some err) ∈ E) /\
  (forall E1 e x E2, E = E1 ++ ev (RecordAccess e) x :: E2 ->
     no_record E1 /\ ae_OrgID e = a_OrgID agent /\ ae_AgentID e = a_ID agent /\
     (ae_Decision e = AccessAllow <-> exists host upstream up down, ev (Splice host upstream) (up, down, "") ∈ E1)).
Proof using Hd.
  intros Hr Ha. destruct (HandleEgress_runs _ _ _ _ _ Hr) as [HQ HR]. split; [by eapply HR|]. intros E1 e x E2 HE. exact (HQ _ _ _ _ HE).
Qed.

(** A flow is re-checked by the questions that admitted it: it stays when policy still allows
    every target, is kept for now when policy cannot be asked, and ends otherwise. *)
Lemma recheck_egress_spec agent p dest targets exit E :
  does (fun _ => calm) E (recheck_egress h agent p dest targets exit)
    (fun E' r => r = None -> exists L, E' = E ++ L /\ Forall (fun t => allowed_by agent L p dest t exit) targets).
Proof.
  unfold recheck_egress. eapply does_bind; [apply decideAll_does|]. intros E1 [d status] _ Hr. cbn [snd] in Hr. apply does_ret.
  case_bool_decide; [auto|]. by case_bool_decide.
Qed.
End EgressTheorems.
End EgressSafety.
