(* ===== verification/BridgeSafety.v ===== *)
(** * Released credentials and bridged connections

    What [DecideRequest] releases, to whom and on what decision; and what a stream from one
    agent to an endpoint of another reaches. *)
From S2P Require Import Prelude GoIO GoStrings GoNet DecryptScope Frames Sessions Decider Authz Credseal Prog Identity Calls Cloudflare Endpoints Gateway Proxy ProxySafety EgressHandler EgressSafety.

Module BridgeSafety.
Import Authz.Decision Authz.HostNames Calls Endpoints EgressHandler EgressSafety.
Local Open Scope Z_scope.

Section Release.
Context `{lower : UnicodeLower} `{quote : UnicodeQuote} `{hpke : Credseal.HPKE}.
Context (h : handler) (agent : Agent) (user : option Identity.Principal) (q : Gateway.DecisionQuery).

(** Policy answered [d] to the request [hq], and allows it. *)
Definition request_allowed (E : list event) (p : option Identity.Principal) (dest : string) (hq : Gateway.HTTPQuery) (exit : option Agent)
    (d : Decision) : Prop :=
  let a := NewAgentDecision agent p (request_context hq exit) in
  ev (Decide (ad_scope a) (request_of a ActionEgressRequest (mkRef EntityDestination dest))) (d, None) ∈ E /\
  Allowed d = true /\ DReason d <> ReasonUnavailable.

(** The sealed credential [c] is credential [name] of the agent's organization, which is for
    this agent and for [host], sealed for them. *)
Definition released (E : list event) (name host : string) (c : Decider.SealedCredential) : Prop :=
  exists cred secret seed,
    ev (GetEgressCredential (a_OrgID agent) name) (Ok cred) ∈ E /\
    ec_OrgID cred = a_OrgID agent /\ DeliversTo cred (a_ID agent) = true /\ ReleasableTo cred host = true /\
    ev (OpenSecret (a_OrgID agent) (ec_Secret cred)) (Ok secret) ∈ E /\
    Decider.cred_name c = name /\ Decider.cred_header c = ec_Header cred /\
    Credseal.Seal seed (Gateway.q_SealTo q) (Credseal.mkBinding (a_OrgID agent) (a_ID agent) name) (bytes_of (ec_Prefix cred) ++ secret)
      = Ok (Decider.cred_sealed c).

(** An answer that allows. *)
Definition answer_ok (E : list event) (a : Decider.DecisionAnswer) : Prop :=
  Decider.Allowed a = true ->
  exists hq dest p exit d name,
    Gateway.q_HTTP q = Some hq /\ Gateway.q_Action q = Gateway.DecisionActionEgressRequest /\
    NormalizeDestination (JoinHostPort (Gateway.hq_Host hq) (Itoa (Gateway.hq_Port hq))) = Ok dest /\
    principal_ok agent user E p /\ exit_ok agent E exit /\ request_allowed E p dest hq exit d /\ SelectedCredential d = Ok name /\
    match Decider.Credential a with
    | None => name = ""
    | Some c => name <> "" /\ Gateway.hq_TLS hq = true /\ Gateway.hq_Method hq <> "TRACE" /\ released E name (Gateway.hq_Host hq) c
    end.

Definition any (E : list event) (r : req) : Prop := True.

Lemma releaseCredential_does E name host :
  does any E (releaseCredential h agent name host (Gateway.q_SealTo q))
    (fun E' r => match r with inl c => released E' name host c | inr _ => True end).
Proof.
  unfold releaseCredential. destruct (_ || _)%bool; [by apply does_ret|].
  apply (does_ask_bind _ _ (GetEgressCredential _ _)); [done|]. intros E1 [cred|err] _ H1; [|by apply does_ret].
  case_bool_decide as Ho; cbn [negb orb]; [|by apply does_ret]. destruct (DeliversTo _ _) eqn:Ed; [|by apply does_ret].
  destruct (ReleasableTo _ _) eqn:Er; [|by apply does_ret]. cbn [negb].
  apply (does_ask_bind _ _ (OpenSecret _ _)); [done|]. intros E2 [secret|err] HE2 H2; [|by apply does_ret].
  apply (does_ask_bind _ _ Seed); [done|]. intros E3 seed HE3 H3. apply does_ret.
  destruct (Credseal.Seal _ _ _ _) as [sealed|err] eqn:Es; [|done]. exists cred, secret, seed.
  split; [eapply elem_of_prefix, H1; by etrans|]. do 3 (split; [done|]). split; [by eapply elem_of_prefix|done].
Qed.

Lemma decideRequest_does E p dest hq exit :
  does any E (decideRequest h agent p dest hq exit) (fun E' r => r.2 = true -> request_allowed E' p dest hq exit r.1).
Proof.
  unfold decideRequest. destruct (has_deciders h); [|by apply does_ret]. unfold ask_policy. cbv zeta.
  apply (does_ask_bind _ _ (Decide _ _)); [done|]. intros E1 [d err] _ Hev. apply does_ret. destruct err as [e|]; [done|]. cbn [orb].
  unfold isUnavailable. destruct (reason_eqb _ _) eqn:Er; [done|]. destruct (Allowed d) eqn:Ea; [|done]. intros _. split; [done|].
  split; [done|]. cbn. by intros Hd; rewrite Hd in Er.
Qed.

Lemma request_allowed_mono E E' p dest hq exit d : E `prefix_of` E' -> request_allowed E p dest hq exit d -> request_allowed E' p dest hq exit d.
Proof. intros HE [? ?]. split; [by eapply elem_of_prefix|done]. Qed.

Lemma calm_any {A} E (p : prog A) R : does (fun _ => calm) E p R -> does any E p R.
Proof. by apply does_impl. Qed.

Lemma DecideRequest_does : does any [] (DecideRequest h agent user q) answer_ok.
Proof.
  unfold DecideRequest. destruct (Gateway.q_HTTP q) as [hq|] eqn:Eq; [|by apply does_ret].
  case_bool_decide as Hact; cbn [negb orb]; [|by apply does_ret].
  destruct (_ || _)%bool; [by apply does_ret|]. destruct (NormalizeDestination _) as [dest|err] eqn:Edest; [|by apply does_ret].
  eapply does_bind; [apply calm_any, principal_does|]. intros E1 [p|rf] _ Hp; [|by apply does_ret].
  eapply does_bind; [apply calm_any, resolveExit_does|]. intros E2 [exit|rf] HE2 Hx; [|by apply does_ret].
  eapply does_bind; [apply decideRequest_does|]. intros E3 [d []] HE3 Hd; [|by apply does_ret]. specialize (Hd eq_refl). cbn [fst negb] in *.
  destruct (SelectedCredential d) as [name|err] eqn:Es; [|by apply does_ret]. apply (principal_ok_mono _ _ _ E3) in Hp; [|by etrans].
  apply (exit_ok_mono _ _ E3) in Hx; [|done]. case_bool_decide as Hn.
  { apply does_ret. intros _. by exists hq, dest, p, exit, d, name. }
  destruct (Gateway.hq_TLS hq) eqn:Et; [|by apply does_ret]. cbn [negb]. case_bool_decide; [by apply does_ret|].
  eapply does_bind; [apply releaseCredential_does|]. intros E4 [c|reason] HE4 Hc; apply does_ret; [|done].
  intros _. exists hq, dest, p, exit, d, name. do 3 (split; [done|]). split; [by eapply principal_ok_mono|].
  split; [by eapply exit_ok_mono|]. split; [by eapply request_allowed_mono|]. done.
Qed.
End Release.

Section ReleaseTheorem.
Context `{lower : UnicodeLower} `{quote : UnicodeQuote} `{hpke : Credseal.HPKE} {laws : Credseal.HPKELaws}.

(** C3: A request is allowed only on a decision of policy about it, asked for the agent or for a principal of its
    organization; a credential comes with the answer only if policy selected exactly it, the request uses TLS and
    is no TRACE, the credential belongs to the organization and is meant for this agent and this host; and what
    was sealed opens for no other organization, agent or name, and to nothing but its prefix and secret. *)
Theorem credentials_reach_their_agent h agent user q E a :
  runs (DecideRequest h agent user q) E (Some a) -> Decider.Allowed a = true ->
  answer_ok agent user q E a /\
  forall c k b text, Decider.Credential a = Some c -> Credseal.Open k b (Decider.cred_sealed c) = Ok text ->
    b = Credseal.mkBinding (a_OrgID agent) (a_ID agent) (Decider.cred_name c) /\
    exists cred secret, ev (GetEgressCredential (a_OrgID agent) (Decider.cred_name c)) (Ok cred) ∈ E /\
      ev (OpenSecret (a_OrgID agent) (ec_Secret cred)) (Ok secret) ∈ E /\ text = bytes_of (ec_Prefix cred) ++ secret.
Proof using laws.
  intros Hr Ha. destruct (does_runs _ _ _ _ _ (DecideRequest_does h agent user q) Hr) as [_ HR]. specialize (HR a eq_refl).
  split; [done|]. intros c k b text Hc Ho. destruct (HR Ha) as (hq & dest & p & exit & d & name & _ & _ & _ & _ & _ & _ & _ & Hcr).
  rewrite Hc in Hcr. destruct Hcr as (_ & _ & _ & cred & secret & seed & ? & _ & _ & _ & ? & -> & _ & Hs).
  destruct (Credseal.sealed_opens _ _ _ _ _ _ _ _ Hs Ho) as [-> ->]. split; [done|]. by exists cred, secret.
Qed.
End ReleaseTheorem.

(** ** Bridged connections *)
Section Bridge.
Context `{lower : UnicodeLower} `{quote : UnicodeQuote}.
Context (h : handler) (agent : Agent) (user : option Identity.Principal) (init : StreamInit).

Abbreviation ref := (meta init MetaConnect).
Definition tracking : req := Track (a_OrgID agent) (session_of user) (ConnectCheck agent user ref (i_Kind init)).

(** [ep] is the endpoint of the agent's organization the stream names, by its id or by its connect name. *)
Definition named (E : list event) (ep : Endpoint) : Prop :=
  ev (Data (Gateway.GetEndpoint ref)) (Ok ep) ∈ E /\ ep_OrgID ep = a_OrgID agent \/
  exists eps, ev (Data (Gateway.ListEndpointsByOrg (a_OrgID agent))) (Ok eps) ∈ E /\ ep ∈ eps /\ Gateway.connectName (Policy_ ep) = ref.

Definition connect_allowed (E : list event) (ep : Endpoint) : Prop :=
  exists d, let a := NewAgentDecision agent user (mkContext "" "" false "" "" (i_Kind init) "" "" "" false "" None) in
    ev (Decide (ad_scope a) (request_of a ActionAgentConnect (mkRef EntityEndpoint (ID ep)))) (d, None) ∈ E /\
    Allowed d = true /\ DReason d <> ReasonUnavailable.

(** The stream may reach [ep]: the flow was tracked first. *)
Definition may_reach (E : list event) (flow : nat) (ep : Endpoint) : Prop :=
  (exists L, E = ev tracking flow :: L) /\ named E ep /\ Kind ep = i_Kind init /\ connect_allowed E ep.

Definition connect_call (E : list event) (r : req) : Prop :=
  match r with
  | OpenStream conn id kind m =>
      exists flow ep, may_reach E flow ep /\ id = ID ep /\ kind = Kind ep /\ ev (ResolveEndpoint (ID ep)) (Some conn) ∈ E
  | Splice host up =>
      exists flow ep conn m, may_reach E flow ep /\ host = None /\ ev (OpenStream conn (ID ep) (Kind ep) m) (Ok up) ∈ E /\ ev (Attach flow up) true ∈ E
  | AddUsage org n => exists flow ep, may_reach E flow ep /\ org = ep_OrgID ep
  | Net _ | WriteReply _ | RecordAccess _ | SendTargets _ _ | OpenSecret _ _ => False
  | _ => True
  end.

Lemma find_does org r : does (fun _ _ => True) [] (Gateway.FindConnectEndpoint org r)
  (fun E x => forall ep, x = Ok ep ->
     @Calls.ev Gateway.req Gateway.answer (Gateway.GetEndpoint r) (Ok ep) ∈ E /\ ep_OrgID ep = org \/
     exists eps, @Calls.ev Gateway.req Gateway.answer (Gateway.ListEndpointsByOrg org) (Ok eps) ∈ E /\ ep ∈ eps /\ Gateway.connectName (Policy_ ep) = r).
Proof.
  unfold Gateway.FindConnectEndpoint. apply (does_ask_bind _ _ (Gateway.GetEndpoint r)); [done|]. intros E1 [ep|err] _ H1.
  - apply does_ret. intros ep'. case_bool_decide; [|done]. intros [= <-]. by left.
  - destruct (errIs _ _); [|by apply does_ret]. cbn [negb]. apply (does_ask_bind _ _ (Gateway.ListEndpointsByOrg org)); [done|].
    intros E2 [eps|err2] _ H2; apply does_ret; [|done]. destruct (List.find _ eps) as [ep|] eqn:Ef; [|done]. intros ep' [= <-].
    apply List.find_some in Ef as [Hin Hn]. right. exists eps. split; [done|]. split; [by apply list_elem_of_In|].
    unfold Gateway.connectName. destruct (Policy_ ep) as [pol|]; [|done]. destruct (Connect pol) as [c|]; [|done].
    by apply bool_decide_eq_true in Hn.
Qed.

Lemma named_mono E E' ep : E `prefix_of` E' -> named E ep -> named E' ep.
Proof.
  intros HE [[? ?]|(eps & ? & ? & ?)]; [left; split; [by eapply elem_of_prefix|done]|right]. exists eps.
  split; [by eapply elem_of_prefix|done].
Qed.

Lemma may_reach_mono E E' flow ep : E `prefix_of` E' -> may_reach E flow ep -> may_reach E' flow ep.
Proof.
  intros HE ((L & ->) & Hn & Hk & d & Hd & Ha). split; [destruct HE as [M ->]; by eexists|]. split; [by eapply named_mono|].
  split; [done|]. exists d. split; [by eapply elem_of_prefix|done].
Qed.

Lemma decide_connect_does E : (exists flow L, E = ev tracking flow :: L) ->
  does connect_call E (decide_connect h agent user ref (i_Kind init))
    (fun E' r => r.2 = None -> exists ep, cd_endpoint r.1 = Some ep /\ named E' ep /\ Kind ep = i_Kind init /\ connect_allowed E' ep).
Proof.
  intros Ht. unfold decide_connect. case_bool_decide; [by apply does_ret|]. destruct (has_deciders h); [|by apply does_ret]. cbn [negb].
  eapply (does_bind _ _ _ _ _ (fun E' r => forall ep, r = Ok ep -> named E' ep /\ Kind ep = i_Kind init)).
  - unfold lookup. eapply (does_bind _ _ _ _ _ (fun E' r => forall ep, r = Ok ep -> named E' ep)).
    + eapply (does_embed Data (fun r x => x) (fun r x => x)); [done| | |apply find_does]; [done|].
      intros E1 r Hr ep Hep. destruct (Hr ep Hep) as [[Hev ?]|(eps & Hev & ? & ?)];
        apply (elem_of_lift (answer1 := Gateway.answer) (answer2 := answer) Data (fun r x => x)) in Hev.
      * left. split; [|done]. apply elem_of_app. by right.
      * right. exists eps. split; [|done]. apply elem_of_app. by right.
    + intros E1 [ep|err] _ Hr; apply does_ret; [|done]. intros ep'. case_bool_decide; [|done]. intros [= <-]. auto.
  - intros E1 [ep|err] HE1 Hr; [|by apply does_ret]. destruct (Hr ep eq_refl) as [Hn Hk]. unfold ask_policy. cbv zeta.
    apply (does_ask_bind _ _ (Decide _ _)); [done|]. intros E2 [d err] HE2 Hev. apply does_ret. cbn [fst snd cd_endpoint].
    destruct err as [e|]; [done|]. cbn [orb]. unfold isUnavailable. destruct (reason_eqb _ _) eqn:Er; [done|].
    destruct (Allowed d) eqn:Ea; [|done]. intros _. exists ep. split; [done|]. split; [by eapply named_mono|]. split; [done|].
    exists d. split; [done|]. split; [done|]. by intros Hd; rewrite Hd in Er.
Qed.

Lemma HandleConnect_does : does connect_call [] (HandleConnect h agent user init) (fun _ _ => True).
Proof.
  unfold HandleConnect. eapply (does_bind _ _ _ _ _ (fun E' flow => E' = [ev tracking flow])).
  { split; [done|]. intros x. split; [by eexists|done]. }
  intros E1 flow _ E1eq. apply does_then.
  2:{ intros E2 u _. apply (does_ask_bind _ _ (Untrack flow)); [done|]. intros. apply (does_ask_bind _ _ CloseStream); [done|].
      intros. by apply does_ret. }
  unfold bridge_flow, authorize.
  eapply (does_bind _ _ _ _ _ (fun E' r => match r with
    | inl (ep, conn) => may_reach E' flow ep /\ ev (ResolveEndpoint (ID ep)) (Some conn) ∈ E' | inr _ => True end)).
  - eapply does_bind; [apply decide_connect_does; rewrite E1eq; by eexists _, []|]. intros E2 [[d [ep|]] [err|]] HE2 Hr; try by apply does_ret.
    2:{ by apply does_panic. }
    destruct (Hr eq_refl) as (ep' & [= <-] & Hn & Hk & Ha). apply (does_ask_bind _ _ (ResolveEndpoint (ID ep))); [done|].
    intros E3 [conn|] HE3 Hev; apply does_ret; [|done]. split; [|done]. eapply may_reach_mono; [exact HE3|]. split; [|done].
    rewrite E1eq in HE2. destruct HE2 as [M ->]. by eexists.
  - intros E2 [[ep conn]|err] HE2 Hr; [|by apply does_ret]. destruct Hr as [Hm Hc].
    apply (does_ask_bind _ _ (OpenStream _ _ _ _)); [by exists flow, ep|]. intros E3 [up|err] HE3 H3; [|by apply does_ret].
    apply (does_ask_bind _ _ (Attach flow up)); [done|]. intros E4 ok HE4 H4. apply does_then.
    2:{ intros. apply (does_ask_bind _ _ (CloseConn up)); [done|]. intros. by apply does_ret. }
    destruct ok; [|by apply does_ret]. apply (may_reach_mono _ E4) in Hm; [|by etrans].
    apply (does_ask_bind _ _ (Splice None up)).
    { exists flow, ep, conn. eexists. split; [done|]. split; [done|]. split; [by eapply elem_of_prefix|done]. }
    intros E5 [[u d] mis] HE5 _. apply (does_ask_bind _ _ (AddUsage _ _)); [exists flow, ep; split; [by eapply may_reach_mono|done]|].
    intros E6 _ _ _. destruct (has_meter h); [|by apply does_ret]. apply (does_ask_bind _ _ (AddBytes _ _ _)); [done|].
    intros. by apply does_ret.
Qed.

(** C13: An agent's stream reaches an endpoint of another agent only if the endpoint is one of its own organization,
    the one the stream names, of the stream's kind, and policy allowed this agent (or its user) to connect to it
    after the flow was tracked; bytes are copied only once the tracker accepted the connection to the origin, and
    the usage is charged to the endpoint's organization. *)
Theorem bridged_streams_reach_allowed_endpoints E o E1 r x E2 :
  runs (HandleConnect h agent user init) E o -> E = E1 ++ ev r x :: E2 -> connect_call E1 r.
Proof. intros Hr HE. destruct (does_runs _ _ _ _ _ HandleConnect_does Hr) as [HQ _]. exact (HQ _ _ _ _ HE). Qed.
End Bridge.
End BridgeSafety.
