(* ===== verification/EgressSamples.v ===== *)
(** * Runs of the egress handlers

    A resolver, a network and stores that answer, and runs of the proxy, the egress handler,
    the bridge and the name check on them. *)
From S2P Require Import Prelude GoIO GoStrings GoNet Netblock Addresses Frames Sessions Decider Authz Credseal Prog Identity Calls Cloudflare Endpoints Gateway Proxy ProxySafety ProxyTLS EgressHandler EgressSNI EgressSafety BridgeSafety.

Module EgressSamples.
Import Addresses Frames.Egress Authz.Decision Calls Endpoints.
Local Open Scope Z_scope.

#[local] Instance sample_lower : UnicodeLower := fun s => s.
#[local] Instance sample_quote : UnicodeQuote := fun s => s.
#[local] Instance sample_url : UrlParse := fun s => Fail (ENew "url").
#[local] Instance sample_neterr : Proxy.NetErrors := {| Proxy.addr_error := ENew; Proxy.base64_error := ENew |}.
#[local] Instance sample_pem : Proxy.PemCerts := fun _ => true.

Definition sample_guard : Proxy.Guard := Proxy.DefaultGuard.
Definition sample_address : Proxy.IPAddr := dexist (ip_bytes [1; 1; 1; 1]) (or_introl eq_refl).
Definition sample_policy : EndpointPolicy :=
  mkPolicy ∅ [] ∅ [] "" "" "" "" "" [] [] false 0 false None None None (Some ["example.com:443"]) "" None "" None None None None.
Definition sample_endpoint : Endpoint := mkEndpoint "ep_1" "ag_2" "org" KindTCP "" "" "" "" 0 (Some sample_policy) 0.

(** ** The network *)
Definition net_reply (r : Proxy.req) : Proxy.answer r :=
  match r with
  | Proxy.Lookup _ => Ok [sample_address]
  | Proxy.DialAddr _ _ => Ok 7%nat
  | Proxy.Expired | Proxy.HasHealth => false
  | Proxy.Handshake _ _ | Proxy.LoadConfig _ | Proxy.GetOrg _ | Proxy.GetAgent _ | Proxy.CreateOrg _ _ _ | Proxy.CreateAgent _ => None
  | Proxy.LoadOrStore _ cfg => (cfg, false)
  | Proxy.CountConfigs | Proxy.NextCount _ | Proxy.Now => 0
  | Proxy.GetEndpoint _ => Ok sample_endpoint
  | Proxy.ListOrgs => Ok ["org"]
  | Proxy.ListEndpointsByOrg _ => Ok [sample_endpoint]
  | Proxy.TargetHealthy _ _ => (true, true)
  | Proxy.RelayDatagrams _ _ => 8%nat
  | Proxy.CloseConn _ | Proxy.AddCount | Proxy.AddAgent _ | Proxy.BindEndpoint _ _ => tt
  end.

Definition net_run {A} (p : Proxy.prog A) : list Proxy.event * option A := exec (fun _ => net_reply) p [].


Lemma resolved_addresses_are_pinned_witness :
  Proxy.ResolveAll sample_guard "1.1.1.1:443" = Ret (Ok ["1.1.1.1:443"]) /\
  (Proxy.DialAddr "tcp" "1.1.1.1:443" = Proxy.DialAddr "tcp" "1.1.1.1:443" \/ Proxy.DialAddr "tcp" "1.1.1.1:443" = Proxy.Expired).
Proof.
  apply (ProxySafety.resolved_addresses_are_pinned sample_guard "example.com:443" (net_run (Proxy.ResolveAll sample_guard "example.com:443")).1
    ["1.1.1.1:443"] "1.1.1.1:443" None (net_run (Proxy.Dial sample_guard "1.1.1.1:443" None)).1
    (net_run (Proxy.Dial sample_guard "1.1.1.1:443" None)).2 (Proxy.DialAddr "tcp" "1.1.1.1:443") (Ok 7%nat)).
  - apply (exec_runs (fun _ => net_reply) (Proxy.ResolveAll sample_guard "example.com:443") []).
  - left.
  - apply exec_runs.
  - vm_compute. left.
Defined.

Definition open_run := net_run (Proxy.OpenStream sample_guard "ep_1" KindTCP "" "").

Lemma streams_reach_own_targets_witness :
  exists ep pol target t ip, Proxy.ev (Proxy.GetEndpoint "ep_1") (Ok ep) ∈ take 2 open_run.1 /\ Policy_ ep = Some pol /\
    target ∈ default [] (ProxyTargets pol) /\ Proxy.ParseTarget target = Ok t /\ "tcp" = ProxySafety.network_of t /\
    ("tcp" = "udp" <-> KindTCP = KindUDP) /\ "1.1.1.1:443" = Proxy.resolved ip (Proxy.t_Port t) /\
    ProxySafety.admitted sample_guard (take 2 open_run.1) t ip.
Proof.
  apply (ProxySafety.streams_reach_own_targets sample_guard "ep_1" KindTCP "" "" open_run.1 open_run.2 _ "tcp" "1.1.1.1:443" (Ok 7%nat) []).
  - apply exec_runs.
  - vm_compute. reflexivity.
Defined.

(** ** TLS settings *)
Definition plain_config : Proxy.tlsConfig := Proxy.mkTLSConfig "example.com" false None None.

Lemma clean_example : ProxyTLS.clean_settings "example.com" None.
Proof. split; [|done]. apply (bool_decide_unpack _). vm_compute. exact I. Qed.

(** One call alone: it misses the cache, counts, stores and returns. *)
Lemma settings_run : exists m, ProxyTLS.reachable m /\
  ProxyTLS.calls m !! 0%nat = Some (ProxyTLS.mkCall "example.com" None (Ret (Ok plain_config))).
Proof.
  eexists. split.
  - eapply ProxyTLS.reach_step; [eapply ProxyTLS.reach_step; [eapply ProxyTLS.reach_step; [eapply ProxyTLS.reach_step;
      [eapply ProxyTLS.reach_step; [apply ProxyTLS.reach_start|]|]|]|]|].
    + apply (ProxyTLS.step_begin 0%nat "example.com" None); [apply lookup_empty|apply clean_example].
    + eapply (ProxyTLS.step_call 0%nat); [apply lookup_insert_eq|]. cbn. split; [symmetry; apply lookup_empty|done].
    + eapply (ProxyTLS.step_call 0%nat); [apply lookup_insert_eq|]. cbn. done.
    + eapply (ProxyTLS.step_call 0%nat); [apply lookup_insert_eq|]. cbn. split; [done|]. rewrite lookup_empty. done.
    + eapply (ProxyTLS.step_call 0%nat _ _ Proxy.AddCount _ tt); [apply lookup_insert_eq|]. cbn. done.
  - apply lookup_insert_eq.
Qed.

Lemma tls_settings_are_own_witness : Proxy.originTLSConfig "example.com" None = Ok plain_config.
Proof.
  destruct settings_run as (m & Hm & Hi). exact (ProxyTLS.tls_settings_are_own m 0%nat "example.com" None plain_config Hm Hi).
Defined.

(** ** The gateway *)
Import EgressHandler.

Definition sample_agent : Agent := mkAgent "ag_1" "org" "laptop" AgentActive 0 None.
Definition sample_decision : Decision :=
  mkDecision true ReasonAllow [mkDetermining "p" {[ CredentialAnnotation := "token" ]}] "" "" 60 noScope.
Definition sample_credential : EgressCredential := mkCredential "org" "token" "Authorization" "Bearer " "s" ["ag_1"] ["example.com"] 0 0.
Definition sample_conn : ConnStore.AgentConn := ConnStore.mkConn 3%nat "ag_2".

Definition data_reply (r : Gateway.req) : Gateway.answer r :=
  match r with
  | Gateway.Now => 0
  | Gateway.CountEndpoints _ | Gateway.Rand _ | Gateway.GetTokenByHash _ | Gateway.GetAgent _ | Gateway.GetQuota _ | Gateway.GetEndpointBySubdomain _
  | Gateway.GetEndpointByDomain _ | Gateway.ListOrgs | Gateway.Authenticate _ | Gateway.OpenPort _ _ _ => Fail (ENew "not here")
  | Gateway.GetEndpoint _ => Ok sample_endpoint
  | Gateway.ListEndpointsByAgent _ | Gateway.ListEndpointsByOrg _ => Ok [sample_endpoint]
  | Gateway.CreateEndpoint _ | Gateway.UpdateEndpoint _ | Gateway.DeleteEndpoint _ | Gateway.TouchAgent _ _ | Gateway.Send _
  | Gateway.SendTo _ _ | Gateway.AddAgent _ | Gateway.LiveAgent _ | Gateway.Decide _ _ | Gateway.IssueCert _ _ => None
  | Gateway.Upgrade | Gateway.AcceptControl | Gateway.OwnedElsewhere _ | Gateway.TakeSlot _ => false
  | Gateway.LiveOf _ | Gateway.LiveBound _ _ => []
  | _ => tt
  end.

Definition gateway_reply (r : req) : answer r :=
  match r with
  | Net r => net_reply r
  | Data r => data_reply r
  | Now => 0
  | Authenticate _ => Fail (ENew "no")
  | ListAgents _ => Ok [sample_agent]
  | Decide _ _ => (sample_decision, None)
  | GetAgent _ | ResolveEndpoint _ => Some sample_conn
  | OpenStream _ _ _ _ => Ok 9%nat
  | ReadResolution _ => Fail (ENew "no")
  | SendTargets _ _ | WriteReply _ => None
  | ReadReply _ => Ok (mkReply EgressOK "")
  | Track _ _ _ => 5%nat
  | Attach _ _ => true
  | Splice _ _ => (10, 20, "")
  | GetEgressCredential _ _ => Ok sample_credential
  | OpenSecret _ _ => Ok (bytes_of "secret")
  | Seed => []
  | Untrack _ | AddUsage _ _ | AddBytes _ _ _ | RecordAccess _ | CloseConn _ | CloseStream => tt
  end.

Definition gateway_run {A} (p : prog A) : list event * option A := exec (fun _ => gateway_reply) p [].

Definition sample_handler : handler := mkHandler true (Some (guard_dialer sample_guard)) true false false true true true.
Definition egress_init : StreamInit := mkInit "" KindTCP {[ MetaEgress := "example.com:443" ]}.
Definition egress_run := gateway_run (HandleEgress sample_handler sample_agent None egress_init).

Lemma sample_dialer d : h_dialer sample_handler = Some d -> d = guard_dialer sample_guard.
Proof. by intros [= <-]. Qed.



Lemma egress_streams_are_recorded_witness :
  ((exists e, ev (RecordAccess e) tt ∈ egress_run.1) \/ exists err, ev (WriteReply (mkReply EgressOK "")) (Some err) ∈ egress_run.1) /\
  (forall E1 e x E2, egress_run.1 = E1 ++ ev (RecordAccess e) x :: E2 ->
     EgressSafety.no_record E1 /\ ae_OrgID e = a_OrgID sample_agent /\ ae_AgentID e = a_ID sample_agent /\
     (ae_Decision e = AccessAllow <-> exists host upstream up down, ev (Splice host upstream) (up, down, "") ∈ E1)).
Proof.
  apply (EgressSafety.egress_streams_are_recorded sample_guard sample_handler sample_dialer sample_agent None egress_init).
  - apply (exec_runs (fun _ => gateway_reply) (HandleEgress sample_handler sample_agent None egress_init) []).
  - reflexivity.
Defined.

(** ** A request with a credential *)
#[local] Existing Instance Credseal.sample_hpke.
#[local] Existing Instance Credseal.sample_hpke_laws.

Definition sample_query : Gateway.DecisionQuery :=
  Gateway.mkQuery 1 Gateway.DecisionActionEgressRequest "" "" (Some (Gateway.mkHTTPQuery "example.com" 443 "GET" "/" true true "" ""))
    (Credseal.PublicKey Credseal.sample_key).
Definition request_run := gateway_run (DecideRequest sample_handler sample_agent None sample_query).
Definition sample_binding : Credseal.Binding := Credseal.mkBinding "org" "ag_1" "token".
Definition sample_sealed : Decider.SealedCredential :=
  Decider.mkSealed "token" "Authorization" (Credseal.tag (Credseal.info sample_binding) ++ bytes_of "Bearer secret").
Definition sample_answer : Decider.DecisionAnswer :=
  Decider.mkAnswer 0 true "allow" 60 (Some (Decider.mkScope false false)) (Some sample_sealed).

Lemma request_run_answer : request_run.2 = Some sample_answer.
Proof. vm_compute. reflexivity. Qed.

Lemma credentials_reach_their_agent_witness :
  BridgeSafety.answer_ok sample_agent None sample_query request_run.1 sample_answer /\
  Credseal.Open Credseal.sample_key sample_binding (Decider.cred_sealed sample_sealed) = Ok (bytes_of "Bearer secret").
Proof.
  split; [|vm_compute; reflexivity].
  apply (BridgeSafety.credentials_reach_their_agent sample_handler sample_agent None sample_query request_run.1 sample_answer).
  - rewrite <- request_run_answer. apply exec_runs.
  - reflexivity.
Defined.

(** ** A bridged stream *)
Definition connect_init : StreamInit := mkInit "" KindTCP {[ MetaConnect := "ep_1" ]}.
Definition connect_run := gateway_run (HandleConnect sample_handler sample_agent None connect_init).

Lemma bridged_streams_reach_allowed_endpoints_witness :
  BridgeSafety.connect_call sample_agent None connect_init (take 6 connect_run.1) (Splice None 9).
Proof.
  apply (BridgeSafety.bridged_streams_reach_allowed_endpoints sample_handler sample_agent None connect_init connect_run.1 connect_run.2
    (take 6 connect_run.1) (Splice None 9) (10, 20, "") (drop 7 connect_run.1)).
  - apply exec_runs.
  - vm_compute. reflexivity.
Defined.

(** ** A handshake *)
#[local] Instance sample_hello : EgressSNI.HelloParser := {|
  EgressSNI.parse_hello l := if bool_decide (length l < 3)%nat then EgressSNI.HelloMore else EgressSNI.HelloRead "example.com" [];
  EgressSNI.read_size _ := 1%nat
|}.

Definition one_byte (b : byte) (n : nat) (H : (0 < 1 <= n)%nat) : EgressSNI.chunk n := dexist [b] H.

Definition client_reply (r : EgressSNI.req) : EgressSNI.answer r :=
  match r with
  | EgressSNI.ReadConn (S n) => Ok (one_byte EgressSNI.TLSHandshakeRecord (S n) ltac:(lia))
  | EgressSNI.ReadConn O => Fail (ENew "EOF")
  | EgressSNI.WriteUp _ => None
  end.
Definition pump_run := exec (fun _ => client_reply) (EgressSNI.pump 1 64 (EgressSNI.newSNIConn "example.com")) [].

Lemma egress_stream_shows_its_name_witness :
  EgressSNI.forwarded (take 3 pump_run.1) ++ repeat EgressSNI.TLSHandshakeRecord 3 `prefix_of` EgressSNI.received (take 3 pump_run.1) /\
  (head (EgressSNI.received (take 3 pump_run.1)) = Some EgressSNI.TLSHandshakeRecord ->
   exists seen name exts, seen `prefix_of` EgressSNI.received (take 3 pump_run.1) /\
     EgressSNI.parse_hello seen = EgressSNI.HelloRead name exts /\ EgressSNI.name_ok "example.com" name).
Proof.
  apply (EgressSNI.egress_stream_shows_its_name 1 64 "example.com" pump_run.1 pump_run.2 (take 3 pump_run.1)
    (repeat EgressSNI.TLSHandshakeRecord 3) None (drop 4 pump_run.1)).
  - lia.
  - apply exec_runs.
  - vm_compute. reflexivity.
Defined.
End EgressSamples.
