(* ===== verification/Credentials.v ===== *)
(** * Credentials of endpoints and of egress

    internal/store: endpoint_identity.go and egress_credential.go, the rules a credential must
    follow before it is stored, and what they promise to the release of one
    ([EgressHandler.ReleasableTo]). *)
From S2P Require Import Prelude GoIO GoStrings GoNet DecryptScope Cloudflare Endpoints Proxy EgressHandler.

Module Credentials.
Import Endpoints.
Local Open Scope Z_scope.

(** ** Header names (net/http) *)
Definition between (lo hi : Z) (b : byte) : bool := (lo <=? byteZ b) && (byteZ b <=? hi).
Definition lower_byte (b : byte) : bool := between 97 122 b.
Definition upper_byte (b : byte) : bool := between 65 90 b.
Definition digit_byte (b : byte) : bool := between 48 57 b.
Definition token_byte (b : byte) : bool :=
  lower_byte b || upper_byte b || digit_byte b || existsb (Ascii.eqb b) (bytes_of "!#$%&'*+.^_`|~-").

Fixpoint canonical_bytes (upper : bool) (l : list byte) : list byte :=
  match l with
  | [] => []
  | b :: l' =>
      (if upper && lower_byte b then Zbyte (byteZ b - 32)
       else if negb upper && upper_byte b then Zbyte (byteZ b + 32)
       else b) :: canonical_bytes (Ascii.eqb b "-") l'
  end.

Definition CanonicalHeaderKey (s : string) : string :=
  if forallb token_byte (bytes_of s) then string_of (canonical_bytes true (bytes_of s)) else s.

(** ** endpoint_identity.go *)
Definition maxEndpointCredentials : Z := 16.
Definition maxCredentialPrefix : Z := 64.
Definition credentialNamePattern : string := "^[a-z0-9][a-z0-9_-]{0,62}$".

Definition name_byte (b : byte) : bool := lower_byte b || digit_byte b || Ascii.eqb b "_" || Ascii.eqb b "-".

Definition ValidCredentialName (name : string) : bool :=
  match bytes_of name with
  | [] => false
  | b :: l => (lower_byte b || digit_byte b) && forallb name_byte l && (len l <=? 62)
  end.

(** [headerNamePattern]. *)
Definition validHeaderName (h : string) : bool :=
  negb (bool_decide (h = "")) && (slen h <=? 128) && forallb token_byte (bytes_of h).

Definition reservedCredentialHdr : list string :=
  ["Host"; "Connection"; "Upgrade"; "Te"; "Trailer"; "Transfer-Encoding"; "Content-Length"; "Keep-Alive"; "Proxy-Connection";
   "Proxy-Authorization"; "Cookie"; "Forwarded"; "X-Real-Ip"].

Definition reservedHeader (h : string) : bool :=
  let canonical := CanonicalHeaderKey h in
  bool_decide (canonical ∈ reservedCredentialHdr) || HasPrefix canonical "X-Mishmesh-" || HasPrefix canonical "X-Forwarded-".

(** Carriage return, line feed and NUL. *)
Definition line_bytes : string := string_of [Zbyte 13; Zbyte 10; Zbyte 0].

Section Rules.
Context `{lower : UnicodeLower} `{quote : UnicodeQuote}.

Definition validate (c : EndpointCredential) (field : string) : option goerr :=
  if negb (ValidCredentialName (ec_Secret c)) then Some (ENew (field +:+ ".secret must be a secret name"))
  else if negb (validHeaderName (ec_Header c)) then Some (ENew (field +:+ ".header is not a valid header name"))
  else if reservedHeader (ec_Header c) then Some (ENew (field +:+ ".header " +:+ Quote (ec_Header c) +:+ " is reserved"))
  else if (maxCredentialPrefix <? slen (ec_Prefix c)) || Proxy.ContainsAny (ec_Prefix c) line_bytes
  then Some (ENew (field +:+ ".prefix is invalid"))
  else None.

(** [EndpointIdentity.Validate], its map visited in the order [names]. *)
Fixpoint validate_each (m : gmap string EndpointCredential) (names : list string) : option goerr :=
  match names with
  | [] => None
  | name :: names' =>
      if negb (ValidCredentialName name)
      then Some (ENew ("identity.credentials name " +:+ Quote name +:+ " must match " +:+ credentialNamePattern))
      else
        match validate (default (mkEndpointCredential "" "" "") (m !! name)) ("identity.credentials." +:+ name) with
        | Some err => Some err
        | None => validate_each m names'
        end
  end.

Definition EndpointIdentity_Validate (e : option EndpointIdentity) (names : list string) : option goerr :=
  match e with
  | None => None
  | Some e =>
      if maxEndpointCredentials <? len (map_to_list (Endpoints.Credentials e))
      then Some (ENew ("identity.credentials allows at most " +:+ Itoa maxEndpointCredentials +:+ " entries"))
      else validate_each (Endpoints.Credentials e) names
  end.

(** ** egress_credential.go *)
Definition MaxEgressCredentialAgents : Z := 64.
Definition MaxEgressCredentialDestinations : Z := 32.

Definition normalizeCredentialDestination (raw : string) : res string :=
  match EgressHandler.credentialIP raw with
  | Some addr => Ok (ip_string addr)
  | None =>
      match DecryptScope.Normalize [raw] with
      | Fail err => Fail err
      | Ok patterns => Ok (List.hd "" patterns)
      end
  end.

Fixpoint normalize_each (raws out : list string) : res (list string) :=
  match raws with
  | [] => Ok out
  | raw :: raws' =>
      match normalizeCredentialDestination raw with
      | Fail err => Fail (EWrap "destinations: " err "")
      | Ok entry => normalize_each raws' (if bool_decide (entry ∈ out) then out else out ++ [entry])
      end
  end.

Definition Validate (c : EgressHandler.EgressCredential) : res EgressHandler.EgressCredential :=
  let '(EgressHandler.mkCredential org name header prefix secret agents dests created updated) := c in
  if negb (ValidCredentialName name) then Fail (ENew ("name " +:+ Quote name +:+ " must match " +:+ credentialNamePattern))
  else
    match validate (mkEndpointCredential header secret prefix) "credential" with
    | Some err => Fail err
    | None =>
        if MaxEgressCredentialAgents <? len agents then Fail (ENew ("agent_ids allows at most " +:+ Itoa MaxEgressCredentialAgents +:+ " entries"))
        else if existsb (fun id => bool_decide (id = "") || (128 <? slen id)) agents then Fail (ENew "agent_ids entries must be agent ids")
        else if (len dests =? 0) || (MaxEgressCredentialDestinations <? len dests)
        then Fail (ENew ("destinations needs 1 to " +:+ Itoa MaxEgressCredentialDestinations +:+ " host, *.domain or IP entries"))
        else
          match normalize_each dests [] with
          | Fail err => Fail err
          | Ok normalized => Ok (EgressHandler.mkCredential org name header prefix secret agents (sort_by str_leb normalized) created updated)
          end
    end.
End Rules.
End Credentials.
