(* ===== verification/Api.v ===== *)
(** * The control plane: requests, callers and guards

    internal/controlplane: who is calling (middleware.go, session.go, csrf.go), how a body is
    read (decode.go), how a record is looked up in the caller's organization (scoped.go), and
    the helpers every handler uses. Handlers are programs over the calls they make: the data
    store, the connection store, the identity service, the clock, random bytes and the
    response. [ApiPeople], [ApiResources], [ApiEndpoints] and [ApiOAuth] hold the handlers,
    [ApiRoutes] the table of routes. *)
From S2P Require Import Prelude GoIO GoStrings GoNet Sessions Requirements Token Authz Prog Identity Calls ClientIP Cloudflare Endpoints Gateway Proxy EgressHandler.

Module Api.
Import Calls Endpoints.
Local Open Scope Z_scope.

(** ** Records (internal/store) *)
Definition ErrNotFound : goerr := Sessions.ErrNotFound.
Definition ErrConflict : goerr := Requirements.ErrConflict.

Definition AgentDisabled : string := "disabled".
Definition AgentRevoked : string := "revoked".
Definition RoleOwner : string := "owner".
Definition RoleAdmin : string := "admin".
Definition RoleMember : string := "member".
Definition GroupMemberUser : string := "user".
Definition GroupMemberServiceAccount : string := "service_account".

Record Org := mkOrg { o_ID : string; o_Name : string; o_CreatedAt : Z }.

Record User := mkUser {
  u_ID : string;
  u_Email : string;
  u_Name : string;
  u_PasswordHash : string;
  u_GoogleSub : string;
  u_CreatedAt : Z
}.

Record Membership := mkMembership {
  m_OrgID : string;
  m_UserID : string;
  m_Role : string;
  m_CreatedAt : Z;
  m_DisabledAt : option Z
}.

Record Group := mkGroup { g_ID : string; g_OrgID : string; g_Name : string; g_CreatedAt : Z }.

Record GroupMember := mkGroupMember {
  gm_OrgID : string;
  gm_GroupID : string;
  gm_MemberType : string;
  gm_MemberID : string;
  gm_CreatedAt : Z
}.

Record ServiceAccount := mkServiceAccount {
  sa_ID : string;
  sa_OrgID : string;
  sa_Name : string;
  sa_Role : string;
  sa_ClientID : string;
  sa_SecretHash : string;
  sa_Disabled : bool;
  sa_CreatedAt : Z;
  sa_UpdatedAt : Z
}.

Record Invite := mkInvite {
  inv_ID : string;
  inv_TokenHash : string;
  inv_OrgID : string;
  inv_Email : string;
  inv_Role : string;
  inv_InvitedBy : string;
  inv_CreatedAt : Z;
  inv_ExpiresAt : Z
}.

(** A session of the web interface. *)
Record Session := mkSession {
  ws_IDHash : string;
  ws_UserID : string;
  ws_OrgID : string;
  ws_AuthMethod : string;
  ws_CreatedAt : Z;
  ws_ExpiresAt : Z
}.

Record OrgPolicy := mkOrgPolicy { op_OrgID : string; op_CedarSrc : string; op_UpdatedAt : Z }.

Record Domain_ := mkDomain {
  d_ID : string;
  d_OrgID : string;
  d_Name : string;
  d_Token : string;
  d_VerifiedAt : option Z;
  d_CreatedAt : Z
}.

Record OrgSecret := mkOrgSecret { os_OrgID : string; os_Name : string; os_ValueEnc : list byte; os_Version : Z; os_CreatedAt : Z; os_UpdatedAt : Z }.
Record OrgDecrypt := mkOrgDecrypt { od_OrgID : string; od_Allow : list string; od_Bypass : list string; od_UpdatedAt : Z }.

Record WorkloadIdentity := mkWorkloadIdentity {
  wi_ID : string;
  wi_OrgID : string;
  wi_ServiceAccountID : string;
  wi_Issuer : string;
  wi_Audience : string;
  wi_Subject : string;
  wi_CreatedAt : Z
}.

Record AuditEvent := mkAudit {
  au_ID : string;
  au_OrgID : string;
  au_Actor : string;
  au_Action : string;
  au_Target : string;
  au_Detail : string;
  au_CreatedAt : Z
}.

Record AccessLogQuery := mkAccessQuery {
  aq_Decision : string;
  aq_Source : string;
  aq_PrincipalID : string;
  aq_EndpointID : string;
  aq_Since : option Z;
  aq_Until : option Z;
  aq_Limit : Z
}.

Record AccessEvent := mkAccessEvent {
  ae_ID : string;
  ae_OrgID : string;
  ae_At : Z;
  ae_Source : string;
  ae_Decision : string;
  ae_Reason : string;
  ae_PrincipalType : string;
  ae_PrincipalID : string;
  ae_SessionID : string;
  ae_AgentID : string;
  ae_ExitAgentID : string;
  ae_EndpointID : string;
  ae_Destination : string;
  ae_PolicyIDs : list string;
  ae_ClientIP : string;
  ae_Method : string;
  ae_Path : string;
  ae_Status : Z;
  ae_Protocol : string;
  ae_BytesIn : Z;
  ae_BytesOut : Z;
  ae_DurationMs : Z;
  ae_LatencyMs : Z
}.

(** A connection to a provider (internal/connections). *)
Record Connection := mkConnection {
  cn_ID : string;
  cn_OrgID : string;
  cn_Type : string;
  cn_Name : string;
  cn_Config : list byte;
  cn_State : list byte;
  cn_SecretsEnc : list byte;
  cn_CreatedAt : Z;
  cn_UpdatedAt : Z
}.

(** ** Request bodies

    The structs handlers decode a body into; a pointer is an option. *)
Record memberPatch := mkMemberPatch { mp_Role : option string; mp_Disabled : option bool }.
Record registerInput := mkRegister { rg_Email : string; rg_Password : string; rg_Name : string; rg_InviteToken : string }.
Record accountPatch := mkAccountPatch { ap_Name : option string; ap_Role : option string; ap_Disabled : option bool }.
Record quotaInput := mkQuotaInput { qi_MaxAgents : Z; qi_MaxEndpoints : Z; qi_MaxBandwidthBytes : Z }.
Record credentialInput := mkCredentialInput {
  ci_Header : string;
  ci_Prefix : string;
  ci_Secret : string;
  ci_AgentIDs : list string;
  ci_Destinations : list string
}.
Record policyPut := mkPolicyPut { pp_Matrix : option (gmap string (list string)); pp_CedarSrc : option string }.

(** [policyInput]: [pi_connectPresent] tells a [connect] of null from none. *)
Record policyInput := mkPolicyInput { pi_Policy : EndpointPolicy; pi_BasicAuthPassword : string; pi_connectPresent : bool }.
Record endpointInput := mkEndpointInput {
  ei_AgentID : string;
  ei_Kind : string;
  ei_Method : string;
  ei_Subdomain : string;
  ei_Domain : string;
  ei_Port : Z;
  ei_Policy : option policyInput
}.
Record endpointPatch := mkEndpointPatch {
  ef_Subdomain : option string;
  ef_Domain : option string;
  ef_Port : option Z;
  ef_Policy : option policyInput
}.
Record workloadInput := mkWorkloadInput { wk_Issuer : string; wk_Audience : string; wk_Subject : string }.

(** Pairs of strings: email and role, type and id, email and password, name and
    organization, name and status, name and role, code and organization. *)
Inductive input :=
| InOne
| InTwo
| InMemberPatch
| InRegister
| InAccountPatch
| InQuota
| InCredential
| InLists
| InPolicy
| InEndpoint
| InEndpointPatch
| InWorkload
| InApprove.

Definition input_type (i : input) : Type :=
  match i with
  | InOne => string
  | InTwo => string * string
  | InMemberPatch => memberPatch
  | InRegister => registerInput
  | InAccountPatch => accountPatch
  | InQuota => quotaInput
  | InCredential => credentialInput
  | InLists => list string * list string
  | InPolicy => policyPut
  | InEndpoint => endpointInput
  | InEndpointPatch => endpointPatch
  | InWorkload => workloadInput
  | InApprove => option bool
  end.

Definition zero_input (i : input) : input_type i :=
  match i with
  | InOne => ""
  | InTwo => ("", "")
  | InMemberPatch => mkMemberPatch None None
  | InRegister => mkRegister "" "" "" ""
  | InAccountPatch => mkAccountPatch None None None
  | InQuota => mkQuotaInput 0 0 0
  | InCredential => mkCredentialInput "" "" "" [] []
  | InLists => ([], [])
  | InPolicy => mkPolicyPut None None
  | InEndpoint => mkEndpointInput "" "" "" "" "" 0 None
  | InEndpointPatch => mkEndpointPatch None None None None
  | InWorkload => mkWorkloadInput "" "" ""
  | InApprove => None
  end.

(** [idTokenClaims]; the audience is one string or a list. *)
Record idTokenClaims := mkIDClaims { ic_Iss : string; ic_Exp : Z; ic_Sub : string; ic_Nonce : string; ic_Aud : option (string + list string) }.

(** ** Libraries

    encoding/json for bodies: the keys of the object a text starts with, the decoder with
    [DisallowUnknownFields] for the fields [keys] of a struct, and whether the text ends after its first value;
    net/mail, mime, time.Parse for RFC 3339, time.ParseDuration, bcrypt, and the JSON of the claims of an id token.
    Cedar's parser, and its validator against the embedded schema, for a policy in the order
    of the set; the two policy files embedded in internal/authz. *)
Class Web := {
  object_keys : list byte -> option (list string);
  decode_fields (keys : list string) (i : input) : list byte -> option (input_type i);
  single_value : list byte -> bool;
  mail_address : string -> option string;
  media_type : string -> option string;
  bcrypt_matches : string -> string -> bool;
  id_claims : list byte -> option idTokenClaims;
  parse_rfc3339 : string -> option Z;
  parse_duration : string -> option Z;
  policy_set : list byte -> res (list Authz.Decide.Policy);
  policy_problem : Authz.Decide.Policy -> option goerr;
  policy_line : Authz.Decide.Policy -> Z;
  defaultPolicy : list byte;
  dataPlanePolicy : list byte
}.

(** ** Requests *)

(** [caller]: who the guards found to be calling. *)
Record caller := mkCaller { c_orgID : string; c_actor : string; c_role : string; c_admin : bool; c_kind : string }.
Definition noCaller : caller := mkCaller "" "" "" false "".

(** [*http.Request]: headers, cookies and query parameters by their first value; no form when
    the body does not parse as one of at most 16 KiB. *)
Record request := mkRequest {
  r_Method : string;
  r_Host : string;
  r_ContentLength : Z;
  r_Body : option reader;
  r_Header : gmap string string;
  r_Cookie : gmap string string;
  r_Query : gmap string string;
  r_RawQuery : string;
  r_RequestURI : string;
  r_PathValue : gmap string string;
  r_PostForm : option (gmap string string);
  r_BasicAuth : option (string * string);
  r_Peer : ClientIP.Request;
  r_caller : caller
}.

Definition header (r : request) (k : string) : string := default "" (r_Header r !! k).
Definition query (r : request) (k : string) : string := default "" (r_Query r !! k).
Definition path (r : request) (k : string) : string := default "" (r_PathValue r !! k).
Definition form (r : request) (k : string) : string := default "" (default ∅ (r_PostForm r) !! k).

Definition with_caller (c : caller) (r : request) : request :=
  mkRequest (r_Method r) (r_Host r) (r_ContentLength r) (r_Body r) (r_Header r) (r_Cookie r) (r_Query r) (r_RawQuery r)
    (r_RequestURI r) (r_PathValue r) (r_PostForm r) (r_BasicAuth r) (r_Peer r) c.

(** ** Responses

    The members of an object are listed in no particular order. *)
Inductive jv :=
| JBool (b : bool)
| JNum (z : Z)
| JText (s : string)
| JBytes (b : list byte)
| JTime (t : Z)
| JPolicy (p : EndpointPolicy)
| JList (l : list jv)
| JObject (l : list (string * jv)).

Inductive payload :=
| NoBody
| Json (v : jv)
| Redirect (url : string).

(** ** Calls *)
(** Every cookie is for the whole site, not for scripts, and lax about other sites. *)
Record cookie := mkCookie { k_Name : string; k_Value : string; k_MaxAge : Z; k_Expires : option Z; k_Secure : bool }.

Record limit := mkLimit { l_Requests : Z; l_Period : Z; l_Burst : Z }.

(** [workload.Claims]. *)
Record workloadClaims := mkWorkloadClaims { wc_Issuer : string; wc_Subject : string; wc_Audience : list string; wc_ID : string; wc_Expiry : Z }.

(** [oidcProfile], and what of a token response is used. *)
Record oidcProfile := mkProfile { pr_Sub : string; pr_Email : string; pr_EmailVerified : option bool; pr_Name : string }.
Record oidcDiscovery := mkDiscovery { AuthorizationEndpoint : string; TokenEndpoint : string; UserinfoEndpoint : string }.

Inductive req :=
| Now
| Rand (n : nat)
| HashPassword (password : string)
| AllowRate (key : string) (l : limit)
| RangeOrder (keys : list string)
(* the response *)
| SetHeader (k v : string)
| SetCookie (c : cookie)
| Write (status : Z) (p : payload)
(* the data store *)
| CreateOrg (o : Org)
| GetOrg (id : string)
| ListOrgs
| CreateAgent (a : Agent)
| GetAgent (id : string)
| ListAgents (org : string)
| UpdateAgent (a : Agent)
| DeleteAgent (id : string)
| CountAgents (org : string)
| CreateToken (t : StoredToken)
| GetTokenByHash (hash : string)
| ListTokensByAgent (agent : string)
| RevokeToken (id : string)
| RevokeTokensByAgent (agent : string)
| CreateEndpoint (ep : Endpoint) (snapshots : list Connection)
| GetEndpoint (id : string)
| GetEndpointByDomain (domain : string)
| ListEndpointsByAgent (agent : string)
| ListEndpointsByOrg (org : string)
| UpdateEndpoint (ep : Endpoint) (snapshots : list Connection)
| DeleteEndpoint (id : string)
| CountEndpoints (org : string)
| CreateDomain (d : Domain_)
| GetDomain (org name : string)
| GetVerifiedDomain (name : string)
| ListDomainsByOrg (org : string)
| SetDomainVerified (id : string) (t : Z)
| DeleteDomain (org id : string)
| GetQuota (org : string)
| SetQuota (q : Quota)
| CreateUser (u : User)
| GetUserByID (id : string)
| GetUsersByIDs (ids : list string)
| GetUserByEmail (email : string)
| GetUserByGoogleSub (sub : string)
| UpdateUser (u : User)
| CountUsers
| CreateMembership (m : Membership)
| GetMembership (org user : string)
| ListMembershipsByUser (user : string)
| ListMembershipsByOrg (org : string)
| DemoteOrRemoveMembershipKeepingOwner (org user role : string) (remove : bool)
| SetMembershipDisabledKeepingOwner (org user : string) (t : option Z)
| CreateGroup (g : Group)
| GetGroup (org id : string)
| ListGroups (org : string)
| RenameGroup (org id name : string)
| DeleteGroup (org id : string)
| AddGroupMember (m : GroupMember)
| RemoveGroupMember (org group typ id : string)
| ListGroupMembers (org group : string)
| ListMemberGroups (org typ id : string)
| CreateServiceAccount (sa : ServiceAccount)
| GetServiceAccount (org id : string)
| GetServiceAccountByClientID (id : string)
| ListServiceAccounts (org : string)
| UpdateServiceAccount (sa : ServiceAccount)
| DeleteServiceAccount (org id : string)
| CreateWorkloadIdentity (w : WorkloadIdentity)
| ListWorkloadIdentities (org account : string)
| ListWorkloadIdentitiesByIssuer (issuer : string)
| DeleteWorkloadIdentity (org account id : string)
| CreateInvite (i : Invite)
| GetInviteByTokenHash (hash : string)
| ListInvitesByOrg (org : string)
| ListInvitesByEmail (email : string)
| DeleteInvite (org id : string)
| CreateUserWithMembershipClaimingInvite (u : User) (i : Invite)
| ClaimInviteCreatingMembership (i : Invite) (user : string) (t : Z)
| CreateSession (s : Session)
| GetSession (hash : string)
| DeleteSession (hash : string)
| DeleteUserSessions (org user : string)
| GetOrgPolicy (org : string)
| SetOrgPolicy (p : OrgPolicy)
| ListOrgSecrets (org : string)
| DeleteOrgSecret (org name : string)
| PutEgressCredential (c : EgressHandler.EgressCredential)
| GetEgressCredential (org name : string)
| ListEgressCredentials (org : string)
| DeleteEgressCredential (org name : string)
| GetOrgDecrypt (org : string)
| SetOrgDecrypt (d : OrgDecrypt)
| GetService (id : string)
| GetConnection (id : string)
| ListConnections (org : string)
| AppendAudit (e : AuditEvent)
| ListAudit (org : string) (limit : Z)
| ListAccessEvents (org : string) (q : AccessLogQuery)
(* the connection store *)
| LiveAgent (id : string)
| CloseAgent (id : string)
| ResolveEndpoint (id : string)
| BindEndpoint (ep agent : string)
| UnbindEndpoint (ep : string)
| Usage (org : string)
(* other parts of the server *)
| OrgAuthorizer (org : string)
| InvalidateAuthz (org : string)
| FlushDecisions (org : string)
| InvalidateIngress
| TriggerConnection (id : string)
| ProbeNow (ep : string)
| ForgetHealth (ep : string)
| HealthOf (ep : string)
| VaultPut (org name : string) (value : list byte)
| VaultDelete (org name : string)
| EgressRoot (org : string)
| LookupTXT (name : string)
| Ident (c : Identity.call)
| ClaimOnce (key : string) (ttl : Z)
| Discover
| ExchangeCode (d : oidcDiscovery) (code : string)
| FetchProfile (d : oidcDiscovery) (access : string)
| UnverifiedIssuer (raw : string)
| VerifyAssertion (raw issuer : string)
| ValidIssuer (issuer : string)
| AccessHostname (typ domain hostname kind : string)
| ValidConfig (c : Connection)
| PolicySupport (c : Connection).

Definition ident_answer (c : Identity.call) : Type :=
  match c with
  | Identity.CIssue _ | Identity.CReissue _ _ _ | Identity.CResign _ _ => res Identity.Issued
  | Identity.CAuthenticate _ _ => res Identity.Principal
  | Identity.CIssueGuest _ _ _ _ => res Identity.Issued
  | Identity.CAuthenticateGuest _ _ => res string
  | Identity.CRevokeSession _ | Identity.CRevokeSubject _ _ | Identity.CRevokeEndpointSession _ _ _ | Identity.CApproveDevice _ _
  | Identity.CRevokeToken _ | Identity.CDenyDevice _ => option goerr
  | Identity.CEndpointSessions _ _ => res (list Sessions.TokenSession)
  | Identity.CRevokeEndpointSessions _ _ => res Z
  | Identity.CSessionActive _ => res bool
  | Identity.CPutAuthCode _ | Identity.CStartConsent _ _ | Identity.CPutEndpointLogin _ => res string
  | Identity.CRedeemAuthCode _ _ _ | Identity.CPollDevice _ => res Identity.AgentLogin
  | Identity.CStartDevice => res Identity.DeviceStart
  | Identity.CIssueAgentUser _ | Identity.CRefreshAgentUser _ => res Identity.AgentTokens
  | Identity.CLookupConsent _ _ => res Identity.ConsentRequest
  | Identity.CDecideConsent _ _ _ => res (string * Identity.ConsentRequest)
  | Identity.CLookupDevice _ => res Identity.DeviceRequest
  | Identity.CTakeEndpointLogin _ => res Identity.EndpointLogin
  end.

(** [GetService] answers the organization of the service; [ExchangeCode] the access token and
    the id token of a token response; [LookupTXT] nothing when the lookup fails. *)
Definition answer (r : req) : Type :=
  match r with
  | Now => Z
  | Rand _ => res (list byte)
  | HashPassword _ => res string
  | AllowRate _ _ => bool
  | RangeOrder _ => list string
  | SetHeader _ _ | SetCookie _ | Write _ _ => unit
  | GetOrg _ => res Org
  | ListOrgs => res (list Org)
  | GetAgent _ => res Agent
  | ListAgents _ => res (list Agent)
  | CountAgents _ | CountEndpoints _ | CountUsers => res Z
  | GetTokenByHash _ => res StoredToken
  | ListTokensByAgent _ => res (list StoredToken)
  | GetEndpoint _ | GetEndpointByDomain _ => res Endpoint
  | ListEndpointsByAgent _ | ListEndpointsByOrg _ => res (list Endpoint)
  | GetDomain _ _ | GetVerifiedDomain _ => res Domain_
  | ListDomainsByOrg _ => res (list Domain_)
  | GetQuota _ => res Quota
  | GetUserByID _ | GetUserByEmail _ | GetUserByGoogleSub _ => res User
  | GetUsersByIDs _ => res (list User)
  | GetMembership _ _ => res Membership
  | ListMembershipsByUser _ | ListMembershipsByOrg _ => res (list Membership)
  | GetGroup _ _ => res Group
  | ListGroups _ | ListMemberGroups _ _ _ => res (list Group)
  | ListGroupMembers _ _ => res (list GroupMember)
  | GetServiceAccount _ _ | GetServiceAccountByClientID _ => res ServiceAccount
  | ListServiceAccounts _ => res (list ServiceAccount)
  | ListWorkloadIdentities _ _ | ListWorkloadIdentitiesByIssuer _ => res (list WorkloadIdentity)
  | GetInviteByTokenHash _ => res Invite
  | ListInvitesByOrg _ | ListInvitesByEmail _ => res (list Invite)
  | GetSession _ => res Session
  | GetOrgPolicy _ => res OrgPolicy
  | ListOrgSecrets _ => res (list OrgSecret)
  | GetEgressCredential _ _ => res EgressHandler.EgressCredential
  | ListEgressCredentials _ => res (list EgressHandler.EgressCredential)
  | GetOrgDecrypt _ => res OrgDecrypt
  | GetService _ => res string
  | GetConnection _ => res Connection
  | ListConnections _ => res (list Connection)
  | ListAudit _ _ => res (list AuditEvent)
  | ListAccessEvents _ _ => res (list AccessEvent)
  | CreateOrg _ | CreateAgent _ | UpdateAgent _ | DeleteAgent _ | CreateToken _ | RevokeToken _ | RevokeTokensByAgent _
  | CreateEndpoint _ _ | UpdateEndpoint _ _ | DeleteEndpoint _ | CreateDomain _ | SetDomainVerified _ _ | DeleteDomain _ _
  | SetQuota _ | CreateUser _ | UpdateUser _ | CreateMembership _ | DemoteOrRemoveMembershipKeepingOwner _ _ _ _
  | SetMembershipDisabledKeepingOwner _ _ _ | CreateGroup _ | RenameGroup _ _ _ | DeleteGroup _ _ | AddGroupMember _
  | RemoveGroupMember _ _ _ _ | CreateServiceAccount _ | UpdateServiceAccount _ | DeleteServiceAccount _ _
  | CreateWorkloadIdentity _ | DeleteWorkloadIdentity _ _ _ | CreateInvite _ | DeleteInvite _ _
  | CreateUserWithMembershipClaimingInvite _ _ | ClaimInviteCreatingMembership _ _ _ | CreateSession _ | DeleteSession _
  | DeleteUserSessions _ _ | SetOrgPolicy _ | DeleteOrgSecret _ _ | PutEgressCredential _ | DeleteEgressCredential _ _
  | SetOrgDecrypt _ | AppendAudit _ | VaultDelete _ _ | PolicySupport _ => option goerr
  | LiveAgent _ | ResolveEndpoint _ | ValidConfig _ | ValidIssuer _ => bool
  | CloseAgent _ | BindEndpoint _ _ | UnbindEndpoint _ | InvalidateAuthz _ | FlushDecisions _ | InvalidateIngress
  | TriggerConnection _ | ProbeNow _ | ForgetHealth _ => unit
  | Usage _ => Z
  | OrgAuthorizer _ => res Authz.Decide.Authorizer
  | HealthOf _ => option jv
  | VaultPut _ _ _ => res OrgSecret
  | EgressRoot _ => res (string * string)
  | LookupTXT _ => list string
  | Ident c => ident_answer c
  | ClaimOnce _ _ => res bool
  | Discover => res oidcDiscovery
  | ExchangeCode _ _ => res (string * string)
  | FetchProfile _ _ => res oidcProfile
  | UnverifiedIssuer _ => res string
  | VerifyAssertion _ _ => res workloadClaims
  | AccessHostname _ _ _ _ => res string
  end.

Abbreviation prog := (Calls.prog answer).
Abbreviation event := (Calls.event answer).
Abbreviation ev := (@Calls.ev req answer).

(** The order in which a [range] over a map visits its keys. *)
Definition ranged (keys : list string) : prog (list string) :=
  o ← ask (RangeOrder keys); Ret (if bool_decide (o ≡ₚ keys) then o else keys).

(** A step that answered the request itself when it gives nothing. *)
Definition orReturn {A} (m : prog (option A)) (f : A -> prog unit) : prog unit :=
  r ← m; match r with Some a => f a | None => Ret tt end.
Notation "'need' x ':=' m 'in' k" := (orReturn m (fun x => k)) (at level 10, x pattern, m at level 100, k at level 200).

(** ** Responses (api.go) *)
Definition JError (msg : string) : payload := Json (JObject [("error", JText msg)]).
Definition writeJSON (status : Z) (v : jv) : prog unit := ask (Write status (Json v)).
Definition writeError (status : Z) (msg : string) : prog unit := ask (Write status (JError msg)).
Definition noContent : prog unit := ask (Write 204 NoBody).
Definition fail {A} (status : Z) (msg : string) : prog (option A) := _ ← writeError status msg; Ret None.

Definition writeStoreUnavailable : prog unit :=
  _ ← ask (SetHeader "Retry-After" "1"); writeError 503 "temporarily unavailable, retry shortly".

(** [handleErr]: whether it answered. *)
Definition handleErr (err : option goerr) : prog bool :=
  match err with
  | None => Ret false
  | Some e =>
      _ ← (if errIs e ErrNotFound then writeError 404 "not found" else writeError 500 "internal error");
      Ret true
  end.

Definition handleStoreErr (err : option goerr) (conflictMsg : string) : prog bool :=
  match err with
  | Some e => if errIs e ErrConflict then _ ← writeError 409 conflictMsg; Ret true else handleErr err
  | None => Ret false
  end.

(** [if a.handleErr(w, err) { return }] for a value and for an error. *)
Definition checked {A} (r : res A) : prog (option A) :=
  match r with
  | Ok x => Ret (Some x)
  | Fail e => _ ← handleErr (Some e); Ret None
  end.
Definition passed (b : prog bool) : prog (option unit) := r ← b; Ret (if r : bool then None else Some tt).

(** [writeList] and [mapSlice] (scoped.go). *)
Definition writeList {A} (r : res (list A)) (dto : A -> prog jv) : prog unit :=
  need l := checked r in l ← each dto l; writeJSON 200 (JList l).

(** ** The server *)
Record authConfig := mkAuth {
  passwordEnabled : bool;
  cookieSecure : bool;
  sessionTTL : Z;
  signupMode : string;
  googleClientID : string;
  googleClientSecret : string;
  redirectURL : string;
  issuer : string;
  auth_enabled : bool
}.
Definition SignupModeOrg : string := "org".
Definition SignupModeInvite : string := "invite".

(** [registry]: the registered connection types with their scopes. *)
Record api := mkApi {
  adminToken : string;
  defaultQuota : Quota;
  baseDomain : string;
  publicScheme : string;
  disablePathRouting : bool;
  tlsPublicPort : Z;
  reachInEnabled : bool;
  domainVerification : bool;
  auth : option authConfig;
  trustedProxies : list IPNet;
  allowedOrigins : gset string;
  proxyGuard : option Proxy.Guard;
  maxOrgsPerUser : Z;
  has_conns : bool;
  has_identity : bool;
  has_vault : bool;
  has_egressCA : bool;
  has_workload : bool;
  has_flush : bool;
  has_ingress : bool;
  has_health : bool;
  has_connections : bool;
  registry : option (gmap string string);
  apiPublicURL : string
}.

Definition defaultOrgID : string := "org_default".

Section Server.
Context `{lower : UnicodeLower} `{quote : UnicodeQuote} `{ed : Token.Ed25519} `{urls : UrlParse} `{cedar : Authz.Decide.Cedar} `{web : Web}.
Context (a : api).

(** ** Identifiers and tokens (internal/store/ids.go, auth.go) *)
Definition NewID (prefix : string) : prog string :=
  r ← ask (Rand 10);
  match r with
  | Fail err => Panic ("store: crypto/rand failed: " +:+ errText err)
  | Ok b =>
      let id := string_of (Identity.base32 b) in
      Ret (if bool_decide (prefix = "") then id else prefix +:+ "_" +:+ id)
  end.

Definition GenerateToken : prog (res (string * string)) :=
  r ← ask (Rand 24);
  Ret match r with
      | Fail err => Fail (EWrap "generate token: " err "")
      | Ok b => let raw := "mm_" +:+ string_of (Identity.base32 b) in Ok (raw, Identity.HashToken raw)
      end.

Definition randomToken : prog (res string) :=
  r ← ask (Rand 32);
  Ret match r with Fail err => Fail err | Ok b => Ok (string_of (Token.Base64.EncodeToString b)) end.

(** ** The body of a request (decode.go) *)
Definition maxJSONBodyBytes : Z := 1048576.

Definition validJSONObject (raw : list byte) : bool :=
  match object_keys raw with None => false | Some keys => bool_decide (NoDup keys) end.

Definition decodeJSON (r : request) (keys : list string) (i : input) : prog (option (input_type i)) :=
  match r_Body r with
  | None => Ret (Some (zero_input i))
  | Some body =>
      if r_ContentLength r =? 0 then Ret (Some (zero_input i))
      else if maxJSONBodyBytes <? len (rd_data body) then fail 413 "request body too large"
      else if negb (bool_decide (rd_end body = EOF)) then fail 400 "invalid JSON body"
      else if negb (validJSONObject (rd_data body)) then fail 400 "invalid JSON body"
      else
        match decode_fields keys i (rd_data body) with
        | None => fail 400 "invalid JSON body"
        | Some v => if single_value (rd_data body) then Ret (Some v) else fail 400 "invalid JSON body"
        end
  end.

(** ** Cross-site requests (csrf.go) *)
Definition errCSRFContentType : goerr := ENew "content type must be application/json".
Definition errCSRFOrigin : goerr := ENew "cross-origin request rejected".

Definition contains_scheme (s : string) : bool := match Proxy.index_bytes (bytes_of "://") (bytes_of s) with Some _ => true | None => false end.

Definition originHost (origin : string) : string :=
  if bool_decide (origin = "") then ""
  else if negb (contains_scheme origin) then ToLower origin
  else match url_Parse origin with Fail _ => "" | Ok u => ToLower (u_Host u) end.

Definition isSafeMethod (m : string) : bool := bool_decide (m ∈ ["GET"; "HEAD"; "OPTIONS"]).

Definition trustedHost (r : request) (host : string) : bool :=
  let host := ToLower host in
  if bool_decide (host = "") then false
  else
    bool_decide (host = ToLower (r_Host r)) ||
    (negb (bool_decide (baseDomain a = "")) && bool_decide (host = ToLower (baseDomain a))) ||
    match auth a with
    | Some c => negb (bool_decide (redirectURL c = "")) && bool_decide (host = originHost (redirectURL c))
    | None => false
    end ||
    bool_decide (host ∈ allowedOrigins a).

Definition csrfCheck (r : request) : option goerr :=
  if isSafeMethod (r_Method r) then None
  else if negb (r_ContentLength r =? 0) && negb (bool_decide (media_type (header r "Content-Type") = Some "application/json"))
  then Some errCSRFContentType
  else
    let site := header r "Sec-Fetch-Site" in
    if bool_decide (site = "cross-site") then Some errCSRFOrigin
    else
      let origin := header r "Origin" in
      if bool_decide (origin = "") then (if bool_decide (site = "same-site") then Some errCSRFOrigin else None)
      else if trustedHost r (originHost origin) then None
      else Some errCSRFOrigin.

Definition writeCSRFError (err : goerr) : prog unit :=
  writeError (if errIs err errCSRFContentType then 415 else 403) (errText err).

Definition csrfGuarded (h : request -> prog unit) (r : request) : prog unit :=
  match csrfCheck r with Some err => writeCSRFError err | None => h r end.

(** ** Sessions of the web interface (session.go) *)
Definition sessionCookie : string := "mm_session".
Definition errNoSession : goerr := ENew "no valid session".

Record sessionUser := mkSessionUser {
  su_user : User;
  su_orgID : string;
  su_role : string;
  su_idHash : string;
  su_authMethod : string;
  su_authTime : Z
}.

Definition sessionLookupErr (err : goerr) : goerr := if errIs err ErrNotFound then errNoSession else err.

Definition lookupSession (r : request) : prog (res sessionUser) :=
  match r_Cookie r !! sessionCookie with
  | None => Ret (Fail errNoSession)
  | Some raw =>
      if bool_decide (raw = "") then Ret (Fail errNoSession)
      else
        s ← ask (GetSession (Identity.HashToken raw));
        match s with
        | Fail err => Ret (Fail (sessionLookupErr err))
        | Ok sess =>
            now ← ask Now;
            if ws_ExpiresAt sess <? now then _ ← ask (DeleteSession (ws_IDHash sess)); Ret (Fail errNoSession)
            else
              u ← ask (GetUserByID (ws_UserID sess));
              match u with
              | Fail err => Ret (Fail (sessionLookupErr err))
              | Ok user =>
                  m ← ask (GetMembership (ws_OrgID sess) (u_ID user));
                  Ret match m with
                      | Fail err => Fail (sessionLookupErr err)
                      | Ok m =>
                          match m_DisabledAt m with
                          | Some _ => Fail errNoSession
                          | None => Ok (mkSessionUser user (ws_OrgID sess) (m_Role m) (ws_IDHash sess) (ws_AuthMethod sess) (ws_CreatedAt sess))
                          end
                      end
              end
        end
  end.

Definition resolveSession (r : request) : prog (option sessionUser) :=
  s ← lookupSession r; Ret match s with Ok su => Some su | Fail _ => None end.

Definition nilPointer : string := "runtime error: invalid memory address or nil pointer dereference".
Definition authConfigOf : prog authConfig := match auth a with Some c => Ret c | None => Panic nilPointer end.

Definition setCookie (name v : string) (maxAge : Z) (expires : option Z) : prog unit :=
  c ← authConfigOf; _ ← ask (SetCookie (mkCookie name v maxAge expires (cookieSecure c))); Ret tt.

(** [authTime]: [None] is the zero time. *)
Definition issueSession (userID orgID method : string) (authTime : option Z) : prog (option goerr) :=
  r ← randomToken;
  match r with
  | Fail err => Ret (Some err)
  | Ok raw =>
      now ← ask Now;
      let authTime := match authTime with Some t => if now <? t then now else t | None => now end in
      c ← authConfigOf;
      let sess := mkSession (Identity.HashToken raw) userID orgID method authTime (now + sessionTTL c) in
      err ← ask (CreateSession sess);
      match err with
      | Some e => Ret (Some e)
      | None => _ ← setCookie sessionCookie raw 0 (Some (ws_ExpiresAt sess)); Ret None
      end
  end.

Definition setShortLivedCookie (name v : string) : prog unit := setCookie name v 600 None.
Definition expireCookie (name : string) : prog unit := setCookie name "" (-1) None.
Definition clearSessionCookie : prog unit := expireCookie sessionCookie.

Definition logoutHandler (r : request) : prog unit :=
  _ ← match r_Cookie r !! sessionCookie with
      | Some raw => if bool_decide (raw = "") then Ret tt else _ ← ask (DeleteSession (Identity.HashToken raw)); Ret tt
      | None => Ret tt
      end;
  _ ← clearSessionCookie;
  noContent.

(** ** Callers (middleware.go) *)
Definition orgScope (r : request) : string :=
  if negb (bool_decide (c_orgID (r_caller r) = "")) then c_orgID (r_caller r)
  else if negb (bool_decide (query r "org_id" = "")) then query r "org_id"
  else defaultOrgID.

Definition isAdmin (r : request) : bool := c_admin (r_caller r).
Definition actor (r : request) : string := if bool_decide (c_actor (r_caller r) = "") then "system" else c_actor (r_caller r).

(** [auditAs] (oauth.go). *)
Definition auditAs (orgID who action target detail : string) : prog unit :=
  id ← NewID "aud";
  now ← ask Now;
  _ ← ask (AppendAudit (mkAudit id orgID who action target detail now));
  Ret tt.

Definition audit (r : request) (action target detail : string) : prog unit := auditAs (orgScope r) (actor r) action target detail.

Definition queryOrg (r : request) : string := if bool_decide (query r "org_id" = "") then defaultOrgID else query r "org_id".

Definition authEnabled : bool := match auth a with Some c => auth_enabled c | None => false end.

(** Who calls; the context of the request holds it from here on. *)
Definition authorize (r : request) : prog (option caller) :=
  let tok := Gateway.Bearer (header r "Authorization") in
  if negb (bool_decide (adminToken a = "")) && negb (bool_decide (tok = "")) then
    if bool_decide (tok = adminToken a) then Ret (Some (mkCaller (queryOrg r) "admin" RoleOwner true ""))
    else fail 401 "unauthorized"
  else if authEnabled then
    match csrfCheck r with
    | Some err => _ ← writeCSRFError err; Ret None
    | None =>
        s ← lookupSession r;
        match s with
        | Fail err => if errIs err errNoSession then fail 401 "unauthorized" else _ ← writeStoreUnavailable; Ret None
        | Ok su => Ret (Some (mkCaller (su_orgID su) (u_Email (su_user su)) (su_role su) false ""))
        end
    end
  else if negb (bool_decide (adminToken a = "")) then fail 401 "unauthorized"
  else Ret (Some (mkCaller (queryOrg r) "system" RoleOwner true "")).

Definition guard (h : request -> prog unit) (r : request) : prog unit :=
  need c := authorize r in h (with_caller c r).

(** ** Roles (internal/authz/authz.go) *)
Record rolePrincipal := mkRolePrincipal { rp_ID : string; rp_Type : string; rp_Role : string; rp_Org : string }.

Definition Authorize (az : Authz.Decide.Authorizer) (p : rolePrincipal) (action : string) : bool :=
  let principal := Authz.Decision.mkRef (if bool_decide (rp_Type p = "") then Authz.Decision.EntityUser else rp_Type p) (rp_ID p) in
  let role := Authz.Decision.mkRef "Role" (rp_Role p) in
  let org := Authz.Decision.mkRef "Org" (rp_Org p) in
  let entities : Authz.Decide.EntityMap :=
    <[org := Authz.Decide.mkEntity [] ∅]> (<[role := Authz.Decide.mkEntity [] ∅]> {[principal := Authz.Decide.mkEntity [role] ∅]}) in
  fst (Authz.Decide.Authorize (Authz.Decide.policies az) entities
         (Authz.Decide.mkCedarRequest principal (Authz.Decision.mkRef "Action" action) org ∅)).

Definition WithOwner (orgID : string) (az : Authz.Decide.Authorizer) : Authz.Decide.Authorizer :=
  Authz.Decide.mkAuthorizer (Authz.Decide.policies az) (Authz.Decide.version az) orgID (Authz.Decide.scopes az).

Definition DenyAll : Authz.Decide.Authorizer := Authz.Decide.New [] (string_of (Token.hex_bytes (Token.Sum256 []))).

Definition ActionAgentRead : string := "agent:read".
Definition ActionAgentWrite : string := "agent:write".
Definition ActionEndpointRead : string := "endpoint:read".
Definition ActionEndpointWrite : string := "endpoint:write".
Definition ActionQuotaRead : string := "quota:read".
Definition ActionQuotaWrite : string := "quota:write".
Definition ActionMemberRead : string := "member:read".
Definition ActionMemberManage : string := "member:manage".
Definition ActionAuditRead : string := "audit:read".
Definition ActionStatusRead : string := "status:read".
Definition ActionPolicyRead : string := "policy:read".
Definition ActionPolicyWrite : string := "policy:write".
Definition ActionServiceRead : string := "service:read".
Definition ActionServiceWrite : string := "service:write".
Definition ActionConnectionManage : string := "connection:manage".
Definition ActionHostExec : string := "host:exec".

Definition AllActions : list string :=
  [ActionAgentRead; ActionAgentWrite; ActionEndpointRead; ActionEndpointWrite; ActionQuotaRead; ActionQuotaWrite; ActionMemberRead;
   ActionMemberManage; ActionAuditRead; ActionStatusRead; ActionPolicyRead; ActionPolicyWrite; ActionServiceRead; ActionServiceWrite;
   ActionConnectionManage; ActionHostExec].

(** [authorizerFor] (authz_cache.go): a policy that cannot be loaded denies. *)
Definition authorizerFor (orgID : string) : prog Authz.Decide.Authorizer :=
  r ← ask (OrgAuthorizer orgID);
  Ret match r with Ok az => az | Fail _ => WithOwner orgID DenyAll end.

Definition operatorOnlyActions : list string := [ActionQuotaWrite].

Definition permitted (r : request) (action : string) : prog bool :=
  if isAdmin r then Ret true
  else if bool_decide (action ∈ operatorOnlyActions) then Ret false
  else
    az ← authorizerFor (orgScope r);
    Ret (Authorize az (mkRolePrincipal (actor r) (c_kind (r_caller r)) (c_role (r_caller r)) (orgScope r)) action).

Definition require (action : string) (h : request -> prog unit) : request -> prog unit :=
  guard (fun r =>
    ok ← permitted r action;
    if ok : bool then h r else writeError 403 ("permission denied: " +:+ action)).

(** ** Records of the caller's organization (scoped.go) *)
Definition loadScoped {A} (r : request) (get : prog (res A)) (orgOf : A -> string) : prog (option A) :=
  x ← get;
  y ← checked x;
  match y with
  | None => Ret None
  | Some record => if bool_decide (orgOf record = orgScope r) then Ret (Some record) else fail 404 "not found"
  end.

(** ** Rate limits (ratelimit.go) *)
Definition second : Z := 1000000000.
Definition ipLimit : limit := mkLimit 1 (3 * second) 20.
Definition pairLimit : limit := mkLimit 1 (12 * second) 5.

Definition peerHost (remoteAddr : string) : string := match SplitHostPort remoteAddr with Some (host, _) => host | None => remoteAddr end.
Definition hashKey (s : string) : string := string_of (Token.hex_bytes (take 16 (Token.Sum256 (bytes_of s)))).

Definition authRateAllowed (r : request) (email : string) : prog bool :=
  let ip := ClientIP.Resolve (r_Peer r) (trustedProxies a) in
  let ipKey := "cp:ip:" +:+ (if bool_decide (ip = nilIP) then peerHost (ClientIP.RemoteAddr (r_Peer r)) else ip_string ip) in
  ok ← ask (AllowRate ipKey ipLimit);
  if negb ok then Ret false
  else if bool_decide (email = "") then Ret true
  else ask (AllowRate ("cp:pair:" +:+ hashKey (ipKey +:+ "|" +:+ email)) pairLimit).

Definition subjectRateAllowed (subject : string) : prog bool := ask (AllowRate ("cp:subject:" +:+ hashKey subject) pairLimit).

(** ** Organizations (service.go, quota.go) *)
Definition applyDefaultQuota (orgID : string) : prog unit :=
  let q := defaultQuota a in
  if (MaxAgents q =? 0) && (MaxEndpoints q =? 0) && (MaxBandwidthBytes q =? 0) then Ret tt
  else
    r ← ask (GetQuota orgID);
    match r with
    | Ok _ => Ret tt
    | Fail _ => _ ← ask (SetQuota (mkQuota orgID (MaxAgents q) (MaxEndpoints q) (MaxBandwidthBytes q))); Ret tt
    end.

Definition ensureOrg (orgID : string) : prog (res Org) :=
  let orgID := if bool_decide (orgID = "") then defaultOrgID else orgID in
  r ← ask (GetOrg orgID);
  match r with
  | Ok org => Ret (Ok org)
  | Fail err =>
      if negb (errIs err ErrNotFound) then Ret (Fail err)
      else if negb (bool_decide (orgID = defaultOrgID)) then Ret (Fail ErrNotFound)
      else
        now ← ask Now;
        let org := mkOrg defaultOrgID "default" now in
        err ← ask (CreateOrg org);
        match err with
        | Some e => r ← ask (GetOrg defaultOrgID); Ret match r with Ok existing => Ok existing | Fail _ => Fail e end
        | None => _ ← applyDefaultQuota (o_ID org); Ret (Ok org)
        end
  end.

Definition createOrg (name : string) : prog (res Org) :=
  id ← NewID "org";
  now ← ask Now;
  let org := mkOrg id name now in
  err ← ask (CreateOrg org);
  match err with
  | Some e => Ret (Fail e)
  | None => _ ← applyDefaultQuota (o_ID org); Ret (Ok org)
  end.

Definition flushDecisions (orgID : string) : prog unit := if has_flush a then _ ← ask (FlushDecisions orgID); Ret tt else Ret tt.
End Server.
End Api.
