(* ===== verification/ApiPeople.v ===== *)
(** * The control plane: organizations, members, invites, groups and logins

    internal/controlplane: orgs.go, orgcap.go, members.go, invites.go, groups.go, signup.go,
    login.go, passwordcheck.go, me.go and oidc_google.go. *)
From S2P Require Import Prelude GoIO GoStrings GoNet Sessions Requirements Token Authz Prog Identity Calls ClientIP Cloudflare Endpoints Gateway Proxy EgressHandler Api.

Module ApiPeople.
Import Calls Endpoints Api.
Local Open Scope Z_scope.

Section Server.
Context `{lower : UnicodeLower} `{quote : UnicodeQuote} `{ed : Token.Ed25519} `{urls : UrlParse} `{cedar : Authz.Decide.Cedar} `{web : Web}.
Context (a : api).

(** ** Organizations (orgs.go, orgcap.go) *)
Definition toOrgDTO (o : Org) : jv := JObject [("id", JText (o_ID o)); ("name", JText (o_Name o)); ("created_at", JTime (o_CreatedAt o))].

Definition ownedOrgCount (userID : string) : prog (res Z) :=
  r ← ask (ListMembershipsByUser userID);
  Ret match r with
      | Fail err => Fail err
      | Ok ms => Ok (len (List.filter (fun m => bool_decide (m_Role m = RoleOwner)) ms))
      end.

(** Whether the session's user may own another organization; [None] after an answer. *)
Definition underOrgLimit (su : sessionUser) : prog (option unit) :=
  r ← ownedOrgCount (u_ID (su_user su));
  match r with
  | Fail _ => fail 500 "create org failed"
  | Ok owned => if maxOrgsPerUser a <=? owned then fail 409 "organization limit reached" else Ret (Some tt)
  end.

Definition createOrgHandler (r : request) : prog unit :=
  need name := decodeJSON r ["name"] InOne in
  if bool_decide (name = "") then writeError 400 "name required"
  else
    session ← resolveSession r;
    need _ := match session with
              | Some su => if negb (isAdmin r) && (0 <? maxOrgsPerUser a) then underOrgLimit su else Ret (Some tt)
              | None => Ret (Some tt)
              end in
    created ← createOrg a name;
    match created with
    | Fail _ => writeError 500 "create org failed"
    | Ok org =>
        need _ := match session with
                  | Some su =>
                      now ← ask Now;
                      err ← ask (CreateMembership (mkMembership (o_ID org) (u_ID (su_user su)) RoleOwner now None));
                      match err with Some _ => fail 500 "create org failed" | None => Ret (Some tt) end
                  | None => Ret (Some tt)
                  end in
        _ ← audit r "org.create" (o_ID org) (o_Name org);
        writeJSON 201 (toOrgDTO org)
    end.

Definition getOrgHandler (r : request) : prog unit :=
  let id := path r "id" in
  need _ := if isAdmin r then Ret (Some tt)
            else
              session ← resolveSession r;
              match session with
              | None => fail 404 "not found"
              | Some su =>
                  m ← ask (GetMembership id (u_ID (su_user su)));
                  match m with Fail _ => fail 404 "not found" | Ok _ => Ret (Some tt) end
              end in
  o ← ask (GetOrg id);
  need org := checked o in
  writeJSON 200 (toOrgDTO org).

Fixpoint orgs_of (ms : list Membership) : prog (list jv) :=
  match ms with
  | [] => Ret []
  | m :: ms' =>
      o ← ask (GetOrg (m_OrgID m));
      rest ← orgs_of ms';
      Ret match o with Ok org => toOrgDTO org :: rest | Fail _ => rest end
  end.

Definition listOrgsHandler (r : request) : prog unit :=
  session ← resolveSession r;
  match session with
  | Some su =>
      l ← ask (ListMembershipsByUser (u_ID (su_user su)));
      need ms := checked l in
      out ← orgs_of ms;
      writeJSON 200 (JList out)
  | None => l ← ask ListOrgs; writeList l (fun o => Ret (toOrgDTO o))
  end.

(** ** Roles and invites (invites.go) *)
Definition inviteTTL : Z := 7 * 24 * 3600 * second.
Definition errInvalidInvite : goerr := ENew "invalid or expired invite".

Definition roleRank (role : string) : Z :=
  if bool_decide (role = RoleOwner) then 3 else if bool_decide (role = RoleAdmin) then 2 else if bool_decide (role = RoleMember) then 1 else 0.

Definition callerRole (r : request) : string := if isAdmin r then RoleOwner else c_role (r_caller r).
Definition canGrant (r : request) (role : string) : bool := (0 <? roleRank role) && (roleRank role <=? roleRank (callerRole r)).

Definition invite_fields (inv : Invite) : list (string * jv) :=
  [("id", JText (inv_ID inv)); ("email", JText (inv_Email inv)); ("role", JText (inv_Role inv)); ("invited_by", JText (inv_InvitedBy inv));
   ("created_at", JTime (inv_CreatedAt inv)); ("expires_at", JTime (inv_ExpiresAt inv))].
Definition toInviteDTO (inv : Invite) : jv := JObject (invite_fields inv).
Definition inviteURL (token : string) : string := "/?invite=" +:+ Identity.QueryEscape token.

Definition createInvite (orgID email role invitedBy : string) : prog (res (Invite * string)) :=
  t ← randomToken;
  match t with
  | Fail err => Ret (Fail (EWrap "invite token: " err ""))
  | Ok token =>
      now ← ask Now;
      id ← NewID "inv";
      let inv := mkInvite id (Identity.HashToken token) orgID email role invitedBy now (now + inviteTTL) in
      err ← ask (CreateInvite inv);
      Ret match err with Some e => Fail (EWrap "create invite: " e "") | None => Ok (inv, token) end
  end.

Definition lookupInvite (token email : string) : prog (res Invite) :=
  if bool_decide (token = "") then Ret (Fail errInvalidInvite)
  else
    let hash := Identity.HashToken token in
    r ← ask (GetInviteByTokenHash hash);
    match r with
    | Fail err => Ret (Fail (if errIs err ErrNotFound then errInvalidInvite else err))
    | Ok inv =>
        if negb (bool_decide (inv_TokenHash inv = hash)) then Ret (Fail errInvalidInvite)
        else
          now ← ask Now;
          if inv_ExpiresAt inv <? now then _ ← ask (DeleteInvite (inv_OrgID inv) (inv_ID inv)); Ret (Fail errInvalidInvite)
          else if bool_decide (inv_Email inv = email) then Ret (Ok inv)
          else Ret (Fail errInvalidInvite)
    end.

Definition acceptInvite (userID : string) (inv : Invite) : prog (option goerr) :=
  now ← ask Now;
  err ← ask (ClaimInviteCreatingMembership inv userID now);
  Ret match err with Some e => Some (if errIs e ErrConflict then errInvalidInvite else e) | None => None end.

Fixpoint redeem_each (userID : string) (now : Z) (invites : list Invite) : prog (option goerr) :=
  match invites with
  | [] => Ret None
  | inv :: invites' =>
      if inv_ExpiresAt inv <? now then redeem_each userID now invites'
      else
        err ← acceptInvite userID inv;
        match err with
        | Some e => if errIs e errInvalidInvite then redeem_each userID now invites' else Ret (Some e)
        | None => redeem_each userID now invites'
        end
  end.

Definition redeemVerifiedEmailInvites (user : User) : prog (option goerr) :=
  l ← ask (ListInvitesByEmail (u_Email user));
  match l with
  | Fail err => Ret (Some err)
  | Ok invites => now ← ask Now; redeem_each (u_ID user) now invites
  end.

Definition hasLiveInviteFor (email : string) : prog bool :=
  l ← ask (ListInvitesByEmail email);
  match l with
  | Fail _ => Ret false
  | Ok invites => now ← ask Now; Ret (existsb (fun inv => now <? inv_ExpiresAt inv) invites)
  end.

Definition listInvitesHandler (r : request) : prog unit :=
  l ← ask (ListInvitesByOrg (orgScope r)); writeList l (fun i => Ret (toInviteDTO i)).

Definition revokeInviteHandler (r : request) : prog unit :=
  let id := path r "id" in
  err ← ask (DeleteInvite (orgScope r) id);
  need _ := passed (handleErr err) in
  _ ← audit r "invite.revoke" id "";
  noContent.

(** ** The caller's own account (me.go, login.go) *)
Fixpoint memberships_of (ms : list Membership) : prog (list jv) :=
  match ms with
  | [] => Ret []
  | m :: ms' =>
      o ← ask (GetOrg (m_OrgID m));
      let name := match o with Ok org => o_Name org | Fail _ => m_OrgID m end in
      rest ← memberships_of ms';
      Ret (JObject [("org_id", JText (m_OrgID m)); ("org_name", JText name); ("role", JText (m_Role m))] :: rest)
  end.

(** The role of the last membership in the active organization. *)
Definition active_role (org : string) (ms : list Membership) : string :=
  fold_left (fun role m => if bool_decide (m_OrgID m = org) then m_Role m else role) ms "".

Definition writeMe (status : Z) (user : User) (activeOrgID : string) : prog unit :=
  l ← ask (ListMembershipsByUser (u_ID user));
  match l with
  | Fail _ => writeError 500 "internal error"
  | Ok ms =>
      out ← memberships_of ms;
      writeJSON status (JObject [("id", JText (u_ID user)); ("email", JText (u_Email user)); ("name", JText (u_Name user));
        ("active_org_id", JText activeOrgID); ("role", JText (active_role activeOrgID ms)); ("memberships", JList out)])
  end.

Definition meHandler (r : request) : prog unit :=
  session ← resolveSession r;
  match session with
  | None => writeError 401 "not authenticated"
  | Some su => writeMe 200 (su_user su) (su_orgID su)
  end.

Definition switchOrgHandler (r : request) : prog unit :=
  session ← resolveSession r;
  match session with
  | None => writeError 401 "not authenticated"
  | Some su =>
      need orgID := decodeJSON r ["org_id"] InOne in
      m ← ask (GetMembership orgID (u_ID (su_user su)));
      if match m with Ok m => match m_DisabledAt m with None => false | Some _ => true end | Fail _ => true end
      then writeError 404 "not found"
      else
        _ ← match r_Cookie r !! sessionCookie with
            | Some raw => _ ← ask (DeleteSession (Identity.HashToken raw)); Ret tt
            | None => Ret tt
            end;
        err ← issueSession a (u_ID (su_user su)) orgID (su_authMethod su) (Some (su_authTime su));
        match err with
        | Some _ => writeError 500 "session failed"
        | None => writeMe 200 (su_user su) orgID
        end
  end.

Definition primaryOrg (userID : string) : prog (option string) :=
  l ← ask (ListMembershipsByUser userID);
  Ret match l with
      | Fail _ => None
      | Ok ms => m_OrgID <$> List.find (fun m => match m_DisabledAt m with None => true | Some _ => false end) ms
      end.

Definition acceptInviteHandler (r : request) : prog unit :=
  session ← resolveSession r;
  match session with
  | None => writeError 401 "not authenticated"
  | Some su =>
      need token := decodeJSON r ["invite_token"] InOne in
      ok ← authRateAllowed a r (u_Email (su_user su));
      if negb ok then writeError 429 "too many attempts, try again later"
      else
        found ← lookupInvite token (u_Email (su_user su));
        match found with
        | Fail err => if errIs err errInvalidInvite then writeError 403 "invalid or expired invite" else _ ← handleErr (Some err); Ret tt
        | Ok inv =>
            err ← acceptInvite (u_ID (su_user su)) inv;
            match err with
            | Some e => if errIs e errInvalidInvite then writeError 403 "invalid or expired invite" else writeError 500 "internal error"
            | None => writeMe 200 (su_user su) (su_orgID su)
            end
        end
  end.

Definition normalizeEmail (email : string) : string := ToLower (TrimSpace email).

Definition AuthMethodPassword : string := "password".
Definition AuthMethodOIDC : string := "oidc".

Definition passwordMatches (hash password : string) : bool := negb (bool_decide (hash = "")) && bcrypt_matches hash password.

(** The session of a user who logged in, and the answer. *)
Definition startSession (user : User) (method : string) (k : string -> prog unit) : prog unit :=
  org ← primaryOrg (u_ID user);
  match org with
  | None => writeError 403 "no organization membership"
  | Some orgID =>
      err ← issueSession a (u_ID user) orgID method None;
      match err with
      | Some _ => writeError 500 "session failed"
      | None => k orgID
      end
  end.

Definition passwordOn : bool := match auth a with Some c => passwordEnabled c | None => false end.

Definition loginHandler (r : request) : prog unit :=
  if negb passwordOn then writeError 403 "password login disabled"
  else
    need req := decodeJSON r ["email"; "password"] InTwo in
    let email := normalizeEmail req.1 in
    ok ← authRateAllowed a r email;
    if negb ok then writeError 429 "too many attempts, try again later"
    else if bool_decide (email = "") then writeError 401 "invalid credentials"
    else
      u ← ask (GetUserByEmail email);
      match u with
      | Fail err => if errIs err ErrNotFound then writeError 401 "invalid credentials" else writeStoreUnavailable
      | Ok user =>
          if negb (passwordMatches (u_PasswordHash user) req.2) then writeError 401 "invalid credentials"
          else startSession user AuthMethodPassword (writeMe 200 user)
      end.

(** ** Members (members.go) *)
Definition validRole (role : string) : bool := bool_decide (role ∈ [RoleOwner; RoleAdmin; RoleMember]).

(** [mail.ParseAddress]; then a dot after the last at sign and none at the end. *)
Definition validEmail (email : string) : bool :=
  bool_decide (mail_address email = Some email) &&
  match last_cut_bytes "@" (bytes_of email) with
  | Some (before, after) => negb (bool_decide (before = [])) && existsb (Ascii.eqb ".") after && negb (HasSuffix email ".")
  | None => false
  end.

Definition userDTO (u : User) : jv := JObject [("id", JText (u_ID u)); ("email", JText (u_Email u)); ("name", JText (u_Name u))].

Definition usersByID (ids : list string) : prog (res (gmap string User)) :=
  r ← ask (GetUsersByIDs ids);
  Ret match r with
      | Fail err => Fail err
      | Ok users => Ok (fold_left (fun m u => <[u_ID u := u]> m) users ∅)
      end.

Definition is_some {A} (o : option A) : bool := match o with Some _ => true | None => false end.

Definition listMembersHandler (r : request) : prog unit :=
  l ← ask (ListMembershipsByOrg (orgScope r));
  need ms := checked l in
  u ← usersByID (map m_UserID ms);
  need users := checked u in
  writeJSON 200 (JList (omap (fun m =>
    (fun user => JObject [("user", userDTO user); ("role", JText (m_Role m)); ("disabled", JBool (is_some (m_DisabledAt m)));
                          ("created_at", JTime (m_CreatedAt m))]) <$> (users !! m_UserID m)) ms)).

Definition addMemberHandler (r : request) : prog unit :=
  need req := decodeJSON r ["email"; "role"] InTwo in
  let role := req.2 in
  if negb (validRole role) then writeError 400 "invalid role"
  else
    let email := normalizeEmail req.1 in
    if negb (validEmail email) then writeError 400 "valid email required"
    else if negb (canGrant r role) then writeError 403 "cannot grant a role above your own"
    else
      created ← createInvite (orgScope r) email role (actor r);
      match created with
      | Fail _ => writeError 500 "internal error"
      | Ok (inv, token) =>
          _ ← audit r "invite.create" (inv_ID inv) role;
          writeJSON 201 (JObject (invite_fields inv ++ [("invite_token", JText token); ("invite_url", JText (inviteURL token))]))
      end.

Definition handleMemberChangeErr (err : option goerr) : prog bool :=
  match err with
  | Some e => if errIs e ErrConflict then _ ← writeError 409 "an organization must keep at least one owner"; Ret true else handleErr err
  | None => Ret false
  end.

Definition authorizeMemberChange (r : request) (orgID userID : string) : prog (option unit) :=
  m ← ask (GetMembership orgID userID);
  t ← checked m;
  match t with
  | None => Ret None
  | Some target =>
      if roleRank (callerRole r) <? roleRank (m_Role target) then fail 403 "cannot modify a member above your own role"
      else Ret (Some tt)
  end.

Definition isSelf (r : request) (userID : string) : prog bool :=
  u ← ask (GetUserByID userID);
  Ret match u with Ok user => bool_decide (u_Email user = actor r) | Fail _ => false end.

Definition revokeMemberAccess (orgID userID : string) : prog (option goerr) :=
  e1 ← ask (DeleteUserSessions orgID userID);
  e2 ← (if has_identity a
        then (ask (Ident (Identity.CRevokeSubject orgID (Authz.Decision.mkRef Authz.Decision.EntityUser userID))) : prog (option goerr))
        else Ret None);
  Ret match e1, e2 with
      | Some x, Some y => Some (errors_Join x [y])
      | Some x, None | None, Some x => Some (errors_Join x [])
      | None, None => None
      end.

Definition role_of_patch (r : request) (req : memberPatch) (target : Membership) : prog (option string) :=
  match mp_Role req with
  | None => Ret (Some (m_Role target))
  | Some role =>
      if negb (validRole role) then fail 400 "invalid role"
      else if negb (canGrant r role) then fail 403 "cannot grant a role above your own"
      else Ret (Some role)
  end.

Definition change_role (r : request) (orgID userID role : string) (changed : bool) : prog (option unit) :=
  if negb changed then Ret (Some tt)
  else
    err ← ask (DemoteOrRemoveMembershipKeepingOwner orgID userID role false);
    stop ← handleMemberChangeErr err;
    if stop : bool then Ret None
    else _ ← flushDecisions a orgID; _ ← audit r "member.update" userID role; Ret (Some tt).

Definition change_disabled (r : request) (orgID userID : string) (disable : bool) : prog (option unit) :=
  t ← (if disable then now ← ask Now; Ret (Some now) else Ret None);
  err ← ask (SetMembershipDisabledKeepingOwner orgID userID t);
  stop ← handleMemberChangeErr err;
  if stop : bool then Ret None
  else if disable then
    e ← revokeMemberAccess orgID userID;
    match e with
    | Some _ => _ ← writeStoreUnavailable; Ret None
    | None => _ ← audit r "member.disable" userID ""; Ret (Some tt)
    end
  else _ ← audit r "member.enable" userID ""; Ret (Some tt).

Definition updateMemberHandler (r : request) : prog unit :=
  need req := decodeJSON r ["role"; "disabled"] InMemberPatch in
  if negb (is_some (mp_Role req)) && negb (is_some (mp_Disabled req)) then writeError 400 "role or disabled required"
  else
    let orgID := orgScope r in
    let userID := path r "user_id" in
    m ← ask (GetMembership orgID userID);
    need target := checked m in
    need role := role_of_patch r req target in
    let disabled := is_some (m_DisabledAt target) in
    let disabling := default false (mp_Disabled req) && negb disabled in
    self ← (if disabling then isSelf r userID else Ret false);
    if self : bool then writeError 409 "cannot disable your own membership"
    else
      need _ := authorizeMemberChange r orgID userID in
      need _ := change_role r orgID userID role (is_some (mp_Role req) && negb (bool_decide (role = m_Role target))) in
      need _ := match mp_Disabled req with
                | Some d => if Bool.eqb d disabled then Ret (Some tt) else change_disabled r orgID userID d
                | None => Ret (Some tt)
                end in
      writeJSON 200 (JObject [("user_id", JText userID); ("role", JText role); ("disabled", JBool (default disabled (mp_Disabled req)))]).

Definition removeMemberHandler (r : request) : prog unit :=
  let orgID := orgScope r in
  let userID := path r "user_id" in
  need _ := authorizeMemberChange r orgID userID in
  err ← ask (DemoteOrRemoveMembershipKeepingOwner orgID userID "" true);
  need _ := passed (handleMemberChangeErr err) in
  e ← revokeMemberAccess orgID userID;
  match e with
  | Some _ => writeStoreUnavailable
  | None => _ ← audit r "member.remove" userID ""; noContent
  end.

(** ** Groups (groups.go) *)

(** The regular expression [^[A-Za-z0-9._-]([A-Za-z0-9 ._-]{0,62}[A-Za-z0-9._-])?$]. *)
Definition group_byte (b : byte) : bool :=
  let z := byteZ b in
  ((65 <=? z) && (z <=? 90)) || ((97 <=? z) && (z <=? 122)) || ((48 <=? z) && (z <=? 57)) || bool_decide (b ∈ bytes_of "._-").

Definition group_name_matches (name : string) : bool :=
  match bytes_of name with
  | [] => false
  | b :: l =>
      group_byte b && match reverse l with
                      | [] => true
                      | c :: m => group_byte c && forallb (fun x => group_byte x || Ascii.eqb x " ") m && (len m <=? 62)
                      end
  end.

Definition validGroupName (name : string) : prog (option unit) :=
  if group_name_matches name then Ret (Some tt) else fail 400 "group name must be 1-64 letters, digits, spaces, '.', '_' or '-'".

Definition group_fields (g : Group) : list (string * jv) :=
  [("id", JText (g_ID g)); ("name", JText (g_Name g)); ("created_at", JTime (g_CreatedAt g))].
Definition toGroupDTO (g : Group) : jv := JObject (group_fields g).

Definition listGroupsHandler (r : request) : prog unit :=
  l ← ask (ListGroups (orgScope r)); writeList l (fun g => Ret (toGroupDTO g)).

Definition createGroupHandler (r : request) : prog unit :=
  need name := decodeJSON r ["name"] InOne in
  need _ := validGroupName name in
  id ← NewID "grp";
  now ← ask Now;
  let g := mkGroup id (orgScope r) name now in
  err ← ask (CreateGroup g);
  need _ := passed (handleStoreErr err "a group with that name already exists") in
  _ ← audit r "group.create" (g_ID g) (g_Name g);
  writeJSON 201 (toGroupDTO g).

Definition getGroupHandler (r : request) : prog unit :=
  let org := orgScope r in
  x ← ask (GetGroup org (path r "id"));
  need g := checked x in
  l ← ask (ListGroupMembers org (g_ID g));
  need members := checked l in
  let list := map (fun m => JObject [("type", JText (gm_MemberType m)); ("id", JText (gm_MemberID m)); ("created_at", JTime (gm_CreatedAt m))]) members in
  writeJSON 200 (JObject (group_fields g ++ match list with [] => [] | _ => [("members", JList list)] end)).

Definition renameGroupHandler (r : request) : prog unit :=
  need name := decodeJSON r ["name"] InOne in
  need _ := validGroupName name in
  let org := orgScope r in
  let id := path r "id" in
  err ← ask (RenameGroup org id name);
  need _ := passed (handleStoreErr err "a group with that name already exists") in
  x ← ask (GetGroup org id);
  need g := checked x in
  _ ← audit r "group.update" (g_ID g) (g_Name g);
  writeJSON 200 (toGroupDTO g).

Definition deleteGroupHandler (r : request) : prog unit :=
  let id := path r "id" in
  err ← ask (DeleteGroup (orgScope r) id);
  need _ := passed (handleErr err) in
  _ ← flushDecisions a (orgScope r);
  _ ← audit r "group.delete" id "";
  noContent.

(** Whether the member to add exists in the organization. *)
Definition member_exists (org typ id : string) : prog (option unit) :=
  if bool_decide (typ = GroupMemberUser) then
    m ← ask (GetMembership org id); x ← checked m; Ret match x with Some _ => Some tt | None => None end
  else if bool_decide (typ = GroupMemberServiceAccount) then
    m ← ask (GetServiceAccount org id); x ← checked m; Ret match x with Some _ => Some tt | None => None end
  else fail 400 "member type must be user or service_account".

Definition addGroupMemberHandler (r : request) : prog unit :=
  need req := decodeJSON r ["type"; "id"] InTwo in
  let org := orgScope r in
  let groupID := path r "id" in
  need _ := member_exists org req.1 req.2 in
  now ← ask Now;
  err ← ask (AddGroupMember (mkGroupMember org groupID req.1 req.2 now));
  need _ := passed (handleErr err) in
  _ ← flushDecisions a org;
  _ ← audit r "group.member.add" groupID (req.1 +:+ ":" +:+ req.2);
  noContent.

Definition removeGroupMemberHandler (r : request) : prog unit :=
  let groupID := path r "id" in
  let memberType := path r "type" in
  let memberID := path r "member_id" in
  err ← ask (RemoveGroupMember (orgScope r) groupID memberType memberID);
  need _ := passed (handleErr err) in
  _ ← flushDecisions a (orgScope r);
  _ ← audit r "group.member.remove" groupID (memberType +:+ ":" +:+ memberID);
  noContent.

(** ** Registration (signup.go) *)
Definition errEmailTaken : goerr := ENew "email already registered".
Definition errSignupClosed : goerr := ENew "signup closed".

Definition orgNameFor (u : User) : string :=
  let n := TrimSpace (u_Name u) in
  if negb (bool_decide (n = "")) then n
  else match Split (u_Email u) "@" with
       | before :: _ :: _ => if bool_decide (before = "") then u_Email u else before
       | _ => u_Email u
       end.

Definition hasDefaultOwner : prog bool :=
  l ← ask (ListMembershipsByOrg defaultOrgID);
  Ret match l with Fail _ => true | Ok ms => existsb (fun m => bool_decide (m_Role m = RoleOwner)) ms end.

Definition joinDefaultOrg (userID role : string) : prog (option goerr) :=
  o ← ensureOrg a defaultOrgID;
  match o with
  | Fail err => Ret (Some (EWrap "ensure default org: " err ""))
  | Ok org =>
      now ← ask Now;
      err ← ask (CreateMembership (mkMembership (o_ID org) userID role now None));
      Ret match err with Some e => Some (EWrap "create membership: " e "") | None => None end
  end.

Definition provisionNewUser (user : User) : prog (res User) :=
  c ← authConfigOf a;
  if bool_decide (signupMode c = SignupModeInvite) then
    owned ← hasDefaultOwner;
    if owned : bool then Ret (Fail errSignupClosed)
    else
      err ← ask (CreateUser user);
      match err with
      | Some e => Ret (Fail (EWrap "create user: " e ""))
      | None => err ← joinDefaultOrg (u_ID user) RoleOwner; Ret match err with Some e => Fail e | None => Ok user end
      end
  else
    err ← ask (CreateUser user);
    match err with
    | Some e => Ret (Fail (EWrap "create user: " e ""))
    | None =>
        o ← createOrg a (orgNameFor user);
        match o with
        | Fail err => Ret (Fail (EWrap "create org: " err ""))
        | Ok org =>
            now ← ask Now;
            err ← ask (CreateMembership (mkMembership (o_ID org) (u_ID user) RoleOwner now None));
            Ret match err with Some e => Fail (EWrap "create membership: " e "") | None => Ok user end
        end
    end.

Definition registerPasswordUser (email name hash inviteToken : string) : prog (res User) :=
  existing ← ask (GetUserByEmail email);
  match existing with
  | Ok _ => Ret (Fail errEmailTaken)
  | Fail err =>
      if negb (errIs err ErrNotFound) then Ret (Fail err)
      else
        id ← NewID "usr";
        now ← ask Now;
        let user := mkUser id email name hash "" now in
        if bool_decide (inviteToken = "") then provisionNewUser user
        else
          found ← lookupInvite inviteToken email;
          match found with
          | Fail err => Ret (Fail err)
          | Ok inv =>
              err ← ask (CreateUserWithMembershipClaimingInvite user inv);
              Ret match err with
                  | Some e => Fail (if errIs e ErrConflict then errInvalidInvite else EWrap "signup with invite: " e "")
                  | None => Ok user
                  end
          end
  end.

Definition registerHandler (r : request) : prog unit :=
  if negb passwordOn then writeError 403 "password registration disabled"
  else
    need req := decodeJSON r ["email"; "password"; "name"; "invite_token"] InRegister in
    let email := normalizeEmail (rg_Email req) in
    ok ← authRateAllowed a r email;
    if negb ok then writeError 429 "too many attempts, try again later"
    else if negb (validEmail email) then writeError 400 "valid email required"
    else if slen (rg_Password req) <? 8 then writeError 400 "password (>=8 chars) required"
    else
      h ← ask (HashPassword (rg_Password req));
      match h with
      | Fail _ => writeError 500 "hash failed"
      | Ok hash =>
          u ← registerPasswordUser email (rg_Name req) hash (rg_InviteToken req);
          match u with
          | Fail err =>
              if errIs err errEmailTaken then writeError 409 "email already registered"
              else if errIs err errInvalidInvite then writeError 403 "invalid or expired invite"
              else if errIs err errSignupClosed then writeError 403 "registration is by invitation only"
              else writeError 500 "register failed"
          | Ok user => startSession user AuthMethodPassword (writeMe 201 user)
          end
      end.

(** ** Login with Google (oidc_google.go) *)
Definition googleIssuer : string := "https://accounts.google.com".
Definition googleIssuerBare : string := "accounts.google.com".
Definition idTokenClockSkew : Z := 120 * second.
Definition oauthStateCookie : string := "mm_oauth_state".
Definition oauthNonceCookie : string := "mm_oauth_nonce".
Definition oauthNextCookie : string := "mm_oauth_next".
Definition errEmailUnverified : goerr := ENew "oidc provider did not assert a verified email".
Definition errPasswordAccountExists : goerr := ENew "password account with this email exists".

Definition googleEnabled : bool :=
  match auth a with
  | Some c => negb (bool_decide (googleClientID c = "")) && negb (bool_decide (googleClientSecret c = "")) && negb (bool_decide (redirectURL c = ""))
  | None => false
  end.

Definition googleStartHandler (r : request) : prog unit :=
  if negb googleEnabled then writeError 403 "google login not configured"
  else
    c ← authConfigOf a;
    d ← ask Discover;
    match d with
    | Fail _ => writeError 502 "oidc discovery failed"
    | Ok disc =>
        s ← randomToken;
        match s with
        | Fail _ => writeError 500 "state failed"
        | Ok state =>
            n ← randomToken;
            match n with
            | Fail _ => writeError 500 "nonce failed"
            | Ok nonce =>
                _ ← setShortLivedCookie a oauthStateCookie state;
                _ ← setShortLivedCookie a oauthNonceCookie nonce;
                _ ← (if Identity.SafeReturnPath (query r "next") then setShortLivedCookie a oauthNextCookie (query r "next") else Ret tt);
                ask (Write 302 (Redirect (AuthorizationEndpoint disc +:+ "?" +:+
                  Identity.Encode [("nonce", nonce); ("client_id", googleClientID c); ("redirect_uri", redirectURL c); ("response_type", "code");
                                   ("scope", "openid email profile"); ("state", state)])))
            end
        end
    end.

Definition issuerURL (c : authConfig) : string :=
  let i := Cloudflare.TrimRight (issuer c) "/" in if bool_decide (i = "") then googleIssuer else i.

Definition issuerAccepted (c : authConfig) (iss : string) : bool :=
  bool_decide (iss = issuerURL c) || (bool_decide (issuerURL c = googleIssuer) && bool_decide (iss = googleIssuerBare)).

Definition parseIDTokenClaims (idToken : string) : res idTokenClaims :=
  match Split idToken "." with
  | [_; payload; _] =>
      match Token.Base64.DecodeString (bytes_of (Cloudflare.TrimRight payload "=")) with
      | None => Fail (EWrap "decode id_token: " (ENew "illegal base64 data") "")
      | Some raw => match id_claims raw with Some c => Ok c | None => Fail (EWrap "parse id_token: " (ENew "invalid claims") "") end
      end
  | _ => Fail (ENew "malformed id_token")
  end.

Definition audienceContains (aud : option (string + list string)) (clientID : string) : bool :=
  match aud with
  | Some (inl one) => bool_decide (one = clientID)
  | Some (inr many) => bool_decide (clientID ∈ many)
  | None => false
  end.

Definition verifyIDToken (c : authConfig) (idToken nonce : string) (now : Z) : res idTokenClaims :=
  if bool_decide (idToken = "") then Fail (ENew "no id_token in response")
  else
    match parseIDTokenClaims idToken with
    | Fail err => Fail err
    | Ok claims =>
        if bool_decide (nonce = "") || negb (bool_decide (ic_Nonce claims = nonce)) then Fail (ENew "id_token nonce mismatch")
        else if negb (audienceContains (ic_Aud claims) (googleClientID c)) then Fail (ENew "id_token audience mismatch")
        else if negb (issuerAccepted c (ic_Iss claims)) then Fail (ENew "id_token issuer mismatch")
        else if (ic_Exp claims =? 0) || negb (now <? ic_Exp claims * second + idTokenClockSkew) then Fail (ENew "id_token expired")
        else if bool_decide (ic_Sub claims = "") then Fail (ENew "id_token missing subject")
        else Ok claims
    end.

Definition exchangeAndProfile (c : authConfig) (disc : oidcDiscovery) (code nonce : string) (now : Z) : prog (res oidcProfile) :=
  if bool_decide (code = "") then Ret (Fail (ENew "missing code"))
  else
    t ← ask (ExchangeCode disc code);
    match t with
    | Fail err => Ret (Fail (EWrap "token exchange: " err ""))
    | Ok (access, idToken) =>
        if bool_decide (access = "") then Ret (Fail (ENew "no access token in response"))
        else
          match verifyIDToken c idToken nonce now with
          | Fail err => Ret (Fail err)
          | Ok claims =>
              p ← ask (FetchProfile disc access);
              Ret match p with
                  | Fail err => Fail (EWrap "userinfo: " err "")
                  | Ok profile =>
                      if bool_decide (pr_Sub profile = "") || bool_decide (pr_Email profile = "") then Fail (ENew "incomplete userinfo")
                      else if negb (bool_decide (ic_Sub claims = pr_Sub profile)) then Fail (ENew "id_token subject does not match userinfo")
                      else Ok profile
                  end
          end
    end.

Definition upsertOIDCUser (p : oidcProfile) : prog (res User) :=
  let verified := default false (pr_EmailVerified p) in
  known ← ask (GetUserByGoogleSub (pr_Sub p));
  match known with
  | Ok u =>
      if verified && bool_decide (normalizeEmail (pr_Email p) = u_Email u)
      then err ← redeemVerifiedEmailInvites u; Ret match err with Some e => Fail e | None => Ok u end
      else Ret (Ok u)
  | Fail _ =>
      if negb verified then Ret (Fail errEmailUnverified)
      else
        let email := normalizeEmail (pr_Email p) in
        existing ← ask (GetUserByEmail email);
        match existing with
        | Ok u =>
            if negb (bool_decide (u_GoogleSub u = "")) && negb (bool_decide (u_GoogleSub u = pr_Sub p)) then Ret (Fail errEmailUnverified)
            else if negb (bool_decide (u_PasswordHash u = "")) then Ret (Fail errPasswordAccountExists)
            else
              let u := mkUser (u_ID u) (u_Email u) (u_Name u) (u_PasswordHash u) (pr_Sub p) (u_CreatedAt u) in
              err ← ask (UpdateUser u);
              match err with
              | Some e => Ret (Fail (EWrap "link google account: " e ""))
              | None => err ← redeemVerifiedEmailInvites u; Ret match err with Some e => Fail e | None => Ok u end
              end
        | Fail _ =>
            id ← NewID "usr";
            now ← ask Now;
            let user := mkUser id email (pr_Name p) "" (pr_Sub p) now in
            invited ← hasLiveInviteFor email;
            if invited : bool then
              err ← ask (CreateUser user);
              match err with
              | Some e => Ret (Fail (EWrap "create user: " e ""))
              | None => err ← redeemVerifiedEmailInvites user; Ret match err with Some e => Fail e | None => Ok user end
              end
            else provisionNewUser user
        end
  end.

Definition clearOAuthCookies : prog unit :=
  _ ← each (expireCookie a) [oauthStateCookie; oauthNonceCookie; oauthNextCookie]; Ret tt.

Definition takeLoginNext (r : request) : string :=
  match r_Cookie r !! oauthNextCookie with
  | Some v => if Identity.SafeReturnPath v then v else "/"
  | None => "/"
  end.

Definition googleCallbackHandler (r : request) : prog unit :=
  if negb googleEnabled then writeError 403 "google login not configured"
  else
    let state := query r "state" in
    _ ← clearOAuthCookies;
    if bool_decide (state = "") || negb (bool_decide (r_Cookie r !! oauthStateCookie = Some state)) then writeError 400 "invalid oauth state"
    else
      let nonce := default "" (r_Cookie r !! oauthNonceCookie) in
      if bool_decide (nonce = "") then writeError 400 "invalid oauth state"
      else
        c ← authConfigOf a;
        d ← ask Discover;
        match d with
        | Fail _ => writeError 502 "oidc discovery failed"
        | Ok disc =>
            now ← ask Now;
            p ← exchangeAndProfile c disc (query r "code") nonce now;
            match p with
            | Fail _ => writeError 401 "oauth exchange failed"
            | Ok profile =>
                u ← upsertOIDCUser profile;
                match u with
                | Fail err =>
                    if errIs err errEmailUnverified
                    then writeError 403 "email not verified by provider; sign in with password and link from settings"
                    else if errIs err errSignupClosed then writeError 403 "registration is by invitation only"
                    else if errIs err errPasswordAccountExists
                    then writeError 409 "an account with this email already exists; sign in with your password"
                    else writeError 500 "user upsert failed"
                | Ok user =>
                    startSession user AuthMethodOIDC (fun _ => ask (Write 302 (Redirect (takeLoginNext r))))
                end
            end
        end.

(** [authConfigHandler] (auth.go). *)
Definition authConfigHandler (r : request) : prog unit :=
  let mode := match auth a with Some c => signupMode c | None => SignupModeOrg end in
  need bootstrap := if authEnabled a && passwordOn then
                      n ← ask CountUsers;
                      match n with Fail _ => _ ← writeStoreUnavailable; Ret None | Ok n => Ret (Some (n =? 0)) end
                    else Ret (Some false) in
  writeJSON 200 (JObject [("bootstrap_required", JBool bootstrap); ("auth_enabled", JBool (authEnabled a)); ("password_enabled", JBool passwordOn);
    ("password_signup", JBool (authEnabled a && passwordOn)); ("google_enabled", JBool googleEnabled); ("signup_mode", JText mode)]).
End Server.
End ApiPeople.
