(* ===== verification/ApiResources.v ===== *)
(** * The control plane: agents, service accounts, quotas, secrets, policies and domains

    internal/controlplane: service.go, agents.go, service_accounts.go, quota.go, secrets.go,
    egress_credentials.go, egress_decrypt.go, policy.go, domains.go, endpoint_sessions.go,
    status.go and accesslog.go, and the validation of credentials (internal/store). *)
From S2P Require Import Prelude GoIO GoStrings GoNet DecryptScope Sessions Requirements Token Authz Prog Identity Calls ClientIP Cloudflare Endpoints Gateway Proxy EgressHandler Credentials Api ApiPeople.

Module ApiResources.
Import Calls Endpoints Api.
Local Open Scope Z_scope.

(** internal/orgsecret. *)
Module orgsecret.
Definition ErrInvalidName : goerr := ENew "orgsecret: invalid secret name".
Definition ErrInvalidValue : goerr := ENew "orgsecret: value must be 1-8192 bytes without CR, LF or NUL".
Definition ErrNoBox : goerr := ENew "orgsecret: secret key unavailable".
Definition MaxValueBytes : Z := 8192.
End orgsecret.

Section Server.
Context `{lower : UnicodeLower} `{quote : UnicodeQuote} `{ed : Token.Ed25519} `{urls : UrlParse} `{cedar : Authz.Decide.Cedar} `{web : Web}.
Context (a : api).

(** ** Agents (service.go, agents.go) *)
Definition bootstrapAgentID : string := "ag_bootstrap".
Definition errAgentNotRevoked : goerr := ENew "agent must be revoked before deletion".
Definition errQuotaAgents : goerr := ENew "agent quota exceeded for org".

Definition orgQuota (orgID : string) : prog (res (option Quota)) :=
  r ← ask (GetQuota orgID);
  Ret match r with
      | Ok q => Ok (Some q)
      | Fail err => if errIs err ErrNotFound then Ok None else Fail (EWrap "load quota: " err "")
      end.

Definition enforceAgentQuota (orgID : string) : prog (option goerr) :=
  r ← orgQuota orgID;
  match r with
  | Fail err => Ret (Some err)
  | Ok None => Ret None
  | Ok (Some q) =>
      if MaxAgents q <=? 0 then Ret None
      else
        n ← ask (CountAgents orgID);
        Ret match n with
            | Fail err => Some err
            | Ok n => if MaxAgents q <=? n then Some errQuotaAgents else None
            end
  end.

Definition issueToken (agent : Agent) : prog (res string) :=
  t ← GenerateToken;
  match t with
  | Fail err => Ret (Fail err)
  | Ok (raw, hash) =>
      id ← NewID "tok";
      now ← ask Now;
      err ← ask (CreateToken (mkStoredToken id (a_OrgID agent) (a_ID agent) hash now None));
      Ret match err with Some e => Fail e | None => Ok raw end
  end.

Definition createAgent (orgID name : string) : prog (res (Agent * string)) :=
  o ← ensureOrg a orgID;
  match o with
  | Fail err => Ret (Fail err)
  | Ok org =>
      err ← enforceAgentQuota (o_ID org);
      match err with
      | Some e => Ret (Fail e)
      | None =>
          id ← NewID "ag";
          now ← ask Now;
          let agent := mkAgent id (o_ID org) (if bool_decide (name = "") then "agent" else name) AgentActive now None in
          err ← ask (CreateAgent agent);
          match err with
          | Some e => Ret (Fail e)
          | None => t ← issueToken agent; Ret match t with Fail e => Fail e | Ok raw => Ok (agent, raw) end
          end
      end
  end.

Definition closeAgentConn (agentID : string) : prog unit :=
  if negb (has_conns a) then Ret tt
  else
    live ← ask (LiveAgent agentID);
    if live : bool then _ ← ask (CloseAgent agentID); Ret tt else Ret tt.

Fixpoint revoke_each (ts : list StoredToken) : prog (option goerr) :=
  match ts with
  | [] => Ret None
  | t :: ts' =>
      match tk_RevokedAt t with
      | Some _ => revoke_each ts'
      | None =>
          err ← ask (RevokeToken (tk_ID t));
          match err with
          | Some e => Ret (Some (EWrap "revoke previous token: " e ""))
          | None => revoke_each ts'
          end
      end
  end.

Definition rotateToken (agent : Agent) : prog (res string) :=
  l ← ask (ListTokensByAgent (a_ID agent));
  match l with
  | Fail err => Ret (Fail err)
  | Ok previous =>
      t ← issueToken agent;
      match t with
      | Fail err => Ret (Fail err)
      | Ok raw =>
          err ← revoke_each previous;
          match err with
          | Some e => Ret (Fail e)
          | None => _ ← closeAgentConn (a_ID agent); Ret (Ok raw)
          end
      end
  end.

Definition with_status (s : string) (g : Agent) : Agent := mkAgent (a_ID g) (a_OrgID g) (a_Name g) s (a_CreatedAt g) (a_LastSeenAt g).
Definition with_name (n : string) (g : Agent) : Agent := mkAgent (a_ID g) (a_OrgID g) n (a_Status g) (a_CreatedAt g) (a_LastSeenAt g).

Definition revokeAgent (agentID : string) : prog (option goerr) :=
  r ← ask (GetAgent agentID);
  match r with
  | Fail err => Ret (Some err)
  | Ok agent =>
      err ← ask (UpdateAgent (with_status AgentRevoked agent));
      match err with
      | Some e => Ret (Some e)
      | None =>
          err ← ask (RevokeTokensByAgent agentID);
          match err with
          | Some e => Ret (Some e)
          | None => _ ← closeAgentConn agentID; Ret None
          end
      end
  end.

Definition deleteAgent (agentID : string) : prog (option goerr) :=
  r ← ask (GetAgent agentID);
  match r with
  | Fail err => Ret (Some err)
  | Ok agent => if bool_decide (a_Status agent = AgentRevoked) then ask (DeleteAgent agentID) else Ret (Some errAgentNotRevoked)
  end.

Definition connected (agentID : string) : prog bool := if has_conns a then ask (LiveAgent agentID) else Ret false.

Definition updateAgent (agentID name status : string) : prog (res Agent) :=
  r ← ask (GetAgent agentID);
  match r with
  | Fail err => Ret (Fail err)
  | Ok agent =>
      if negb (bool_decide (status ∈ [""; AgentActive; AgentDisabled; AgentRevoked])) then Ret (Fail (ENew ("invalid status " +:+ Quote status)))
      else
        let agent := if bool_decide (name = "") then agent else with_name name agent in
        let agent := if bool_decide (status = "") || bool_decide (status = AgentRevoked) then agent else with_status status agent in
        err ← ask (UpdateAgent agent);
        match err with
        | Some e => Ret (Fail e)
        | None =>
            if bool_decide (status = AgentRevoked) then
              err ← revokeAgent agentID;
              Ret match err with Some e => Fail e | None => Ok (with_status AgentRevoked agent) end
            else if bool_decide (status = AgentDisabled) then _ ← closeAgentConn agentID; Ret (Ok agent)
            else Ret (Ok agent)
        end
  end.

(** Creates the agent of a token given at start-up. *)
Definition EnsureBootstrap (rawToken : string) : prog (res string) :=
  o ← ensureOrg a defaultOrgID;
  match o with
  | Fail err => Ret (Fail err)
  | Ok org =>
      let hash := Identity.HashToken rawToken in
      t ← ask (GetTokenByHash hash);
      match t with
      | Ok tok => Ret (Ok (tk_AgentID tok))
      | Fail err =>
          if negb (errIs err ErrNotFound) then Ret (Fail err)
          else
            g ← ask (GetAgent bootstrapAgentID);
            made ← match g with
                   | Ok _ => Ret None
                   | Fail err =>
                       if negb (errIs err ErrNotFound) then Ret (Some err)
                       else
                         now ← ask Now;
                         err ← ask (CreateAgent (mkAgent bootstrapAgentID (o_ID org) "bootstrap" AgentActive now None));
                         match err with
                         | None => Ret None
                         | Some e =>
                             x ← ask (GetAgent bootstrapAgentID);
                             Ret match x with
                                 | Ok existing =>
                                     if bool_decide (a_OrgID existing = o_ID org) && bool_decide (a_Status existing = AgentActive) then None else Some e
                                 | Fail _ => Some e
                                 end
                         end
                   end;
            match made with
            | Some e => Ret (Fail e)
            | None =>
                id ← NewID "tok";
                now ← ask Now;
                err ← ask (CreateToken (mkStoredToken id (o_ID org) bootstrapAgentID hash now None));
                match err with
                | None => Ret (Ok bootstrapAgentID)
                | Some e =>
                    x ← ask (GetTokenByHash hash);
                    Ret match x with
                        | Ok existing =>
                            if bool_decide (tk_AgentID existing = bootstrapAgentID) && bool_decide (tk_OrgID existing = o_ID org)
                            then Ok bootstrapAgentID else Fail e
                        | Fail _ => Fail e
                        end
                end
            end
      end
  end.

Definition opt_time (k : string) (t : option Z) : list (string * jv) := match t with Some t => [(k, JTime t)] | None => [] end.

Definition toAgentDTO (g : Agent) : prog jv :=
  live ← connected (a_ID g);
  Ret (JObject ([("id", JText (a_ID g)); ("org_id", JText (a_OrgID g)); ("name", JText (a_Name g)); ("status", JText (a_Status g));
                 ("connected", JBool live); ("created_at", JTime (a_CreatedAt g))] ++ opt_time "last_seen_at" (a_LastSeenAt g))).

Definition toTokenDTO (t : StoredToken) : jv :=
  JObject ([("id", JText (tk_ID t)); ("created_at", JTime (tk_CreatedAt t))] ++ opt_time "revoked_at" (tk_RevokedAt t)).

Definition createAgentHandler (r : request) : prog unit :=
  need req := decodeJSON r ["name"; "org_id"] InTwo in
  let elsewhere := negb (bool_decide (req.2 = "")) && negb (bool_decide (req.2 = orgScope r)) in
  if elsewhere && negb (isAdmin r) then writeError 404 "not found"
  else
    created ← createAgent (if elsewhere then req.2 else orgScope r) req.1;
    match created with
    | Fail err => if errIs err errQuotaAgents then writeError 409 (errText err) else _ ← handleErr (Some err); Ret tt
    | Ok (agent, raw) =>
        _ ← audit r "agent.create" (a_ID agent) (a_Name agent);
        dto ← toAgentDTO agent;
        writeJSON 201 (JObject [("agent", dto); ("token", JText raw)])
    end.

Definition listAgentsHandler (r : request) : prog unit := l ← ask (ListAgents (orgScope r)); writeList l toAgentDTO.

Definition scopedAgent (r : request) (id : string) : prog (option Agent) :=
  loadScoped r (ask (GetAgent id)) (fun g => if isAdmin r then orgScope r else a_OrgID g).

Definition getAgentHandler (r : request) : prog unit :=
  need g := scopedAgent r (path r "id") in
  dto ← toAgentDTO g;
  writeJSON 200 dto.

Definition patchAgentAuditAction (status : string) : string :=
  if bool_decide (status = AgentRevoked) then "agent.revoke"
  else if bool_decide (status = AgentDisabled) then "agent.disable"
  else if bool_decide (status = AgentActive) then "agent.enable"
  else "agent.update".

Definition patchAgentHandler (r : request) : prog unit :=
  need req := decodeJSON r ["name"; "status"] InTwo in
  need _ := scopedAgent r (path r "id") in
  x ← updateAgent (path r "id") req.1 req.2;
  need g := checked x in
  _ ← (if bool_decide (req.2 = "") then Ret tt else flushDecisions a (a_OrgID g));
  _ ← audit r (patchAgentAuditAction req.2) (a_ID g) req.1;
  dto ← toAgentDTO g;
  writeJSON 200 dto.

Definition deleteAgentHandler (r : request) : prog unit :=
  need _ := scopedAgent r (path r "id") in
  err ← deleteAgent (path r "id");
  match err with
  | Some e =>
      if errIs e errAgentNotRevoked then writeError 409 (errText e) else _ ← handleErr err; Ret tt
  | None => _ ← audit r "agent.delete" (path r "id") ""; noContent
  end.

Definition rotateTokenHandler (r : request) : prog unit :=
  need g := scopedAgent r (path r "id") in
  x ← rotateToken g;
  need raw := checked x in
  _ ← audit r "agent.rotate" (a_ID g) "";
  writeJSON 201 (JObject [("token", JText raw)]).

Definition revokeAgentHandler (r : request) : prog unit :=
  need _ := scopedAgent r (path r "id") in
  err ← revokeAgent (path r "id");
  need _ := passed (handleErr err) in
  _ ← audit r "agent.revoke" (path r "id") "";
  writeJSON 200 (JObject [("status", JText "revoked")]).

Definition listTokensHandler (r : request) : prog unit :=
  need _ := scopedAgent r (path r "id") in
  l ← ask (ListTokensByAgent (path r "id"));
  need toks := checked l in
  writeJSON 200 (JList (map toTokenDTO toks)).

(** ** Service accounts (service_accounts.go) *)
Definition clientIDKind : string := "mmc".
Definition clientSecretPrefix : string := "mms_".
Definition maxServiceAcctName : Z := 64.

Definition toServiceAccountDTO (sa : ServiceAccount) : jv :=
  JObject [("id", JText (sa_ID sa)); ("org_id", JText (sa_OrgID sa)); ("name", JText (sa_Name sa)); ("role", JText (sa_Role sa));
           ("client_id", JText (sa_ClientID sa)); ("disabled", JBool (sa_Disabled sa));
           ("has_secret", JBool (negb (bool_decide (sa_SecretHash sa = "")))); ("created_at", JTime (sa_CreatedAt sa)); ("updated_at", JTime (sa_UpdatedAt sa))].

Definition validServiceAccountRole (role : string) : bool := bool_decide (role ∈ [RoleMember; RoleAdmin]).

Definition validServiceAccountName (name : string) : prog (option unit) :=
  if bool_decide (name = "") || (maxServiceAcctName <? slen name) || negb (bool_decide (TrimSpace name = name))
  then fail 400 "name must be 1-64 characters without leading or trailing spaces"
  else Ret (Some tt).

Definition newClientSecret : prog (res string) :=
  t ← randomToken; Ret match t with Fail err => Fail err | Ok raw => Ok (clientSecretPrefix +:+ raw) end.

Definition listServiceAccountsHandler (r : request) : prog unit :=
  l ← ask (ListServiceAccounts (orgScope r)); writeList l (fun sa => Ret (toServiceAccountDTO sa)).

Definition createServiceAccountHandler (r : request) : prog unit :=
  need req := decodeJSON r ["name"; "role"] InTwo in
  need _ := validServiceAccountName req.1 in
  let role := if bool_decide (req.2 = "") then RoleMember else req.2 in
  if negb (validServiceAccountRole role) then writeError 400 "role must be member or admin"
  else
    s ← newClientSecret;
    match s with
    | Fail _ => writeError 500 "internal error"
    | Ok secret =>
        now ← ask Now;
        id ← NewID "sa";
        clientID ← NewID clientIDKind;
        let sa := mkServiceAccount id (orgScope r) req.1 role clientID (Identity.HashToken secret) false now now in
        err ← ask (CreateServiceAccount sa);
        need _ := passed (handleStoreErr err "service account name already exists") in
        _ ← audit r "service_account.create" (sa_ID sa) (sa_Name sa);
        writeJSON 201 (JObject [("service_account", toServiceAccountDTO sa); ("client_secret", JText secret)])
    end.

Definition scopedServiceAccount (r : request) : prog (option ServiceAccount) :=
  x ← ask (GetServiceAccount (orgScope r) (path r "id")); checked x.

Definition getServiceAccountHandler (r : request) : prog unit :=
  need sa := scopedServiceAccount r in writeJSON 200 (toServiceAccountDTO sa).

Definition revokeServiceAccount (sa : ServiceAccount) : prog (option unit) :=
  err ← (if has_identity a
         then (ask (Ident (Identity.CRevokeSubject (sa_OrgID sa) (Authz.Decision.mkRef Authz.Decision.EntityServiceAccount (sa_ID sa)))) : prog (option goerr))
         else Ret None);
  match err with
  | Some _ => _ ← writeStoreUnavailable; Ret None
  | None => Ret (Some tt)
  end.

Definition patchServiceAccountHandler (r : request) : prog unit :=
  need req := decodeJSON r ["name"; "role"; "disabled"] InAccountPatch in
  need sa := scopedServiceAccount r in
  need _ := match ap_Name req with Some name => validServiceAccountName name | None => Ret (Some tt) end in
  if match ap_Role req with Some role => negb (validServiceAccountRole role) | None => false end
  then writeError 400 "role must be member or admin"
  else
    now ← ask Now;
    let revoke := match ap_Disabled req with Some b => b && negb (sa_Disabled sa) | None => false end in
    let sa := mkServiceAccount (sa_ID sa) (sa_OrgID sa) (default (sa_Name sa) (ap_Name req)) (default (sa_Role sa) (ap_Role req))
                (sa_ClientID sa) (sa_SecretHash sa) (default (sa_Disabled sa) (ap_Disabled req)) (sa_CreatedAt sa) now in
    err ← ask (UpdateServiceAccount sa);
    need _ := passed (handleStoreErr err "service account name already exists") in
    need _ := (if revoke then revokeServiceAccount sa else Ret (Some tt)) in
    _ ← audit r "service_account.update" (sa_ID sa) (sa_Name sa);
    writeJSON 200 (toServiceAccountDTO sa).

Definition rotateServiceAccountHandler (r : request) : prog unit :=
  need sa := scopedServiceAccount r in
  s ← newClientSecret;
  match s with
  | Fail _ => writeError 500 "internal error"
  | Ok secret =>
      now ← ask Now;
      let sa := mkServiceAccount (sa_ID sa) (sa_OrgID sa) (sa_Name sa) (sa_Role sa) (sa_ClientID sa) (Identity.HashToken secret)
                  (sa_Disabled sa) (sa_CreatedAt sa) now in
      err ← ask (UpdateServiceAccount sa);
      need _ := passed (handleErr err) in
      need _ := revokeServiceAccount sa in
      _ ← audit r "service_account.rotate" (sa_ID sa) "";
      writeJSON 200 (JObject [("service_account", toServiceAccountDTO sa); ("client_secret", JText secret)])
  end.

Definition deleteServiceAccountHandler (r : request) : prog unit :=
  need sa := scopedServiceAccount r in
  err ← ask (DeleteServiceAccount (sa_OrgID sa) (sa_ID sa));
  need _ := passed (handleErr err) in
  need _ := revokeServiceAccount sa in
  _ ← audit r "service_account.delete" (sa_ID sa) (sa_Name sa);
  noContent.

(** ** Quotas (quota.go) *)
Definition getQuotaHandler (r : request) : prog unit :=
  let orgID := orgScope r in
  x ← orgQuota orgID;
  need q := checked x in
  x ← ask (CountAgents orgID);
  need agents := checked x in
  x ← ask (CountEndpoints orgID);
  need endpoints := checked x in
  bandwidth ← (if has_conns a then ask (Usage orgID) else Ret 0);
  let q := default (mkQuota "" 0 0 0) q in
  writeJSON 200 (JObject [("max_agents", JNum (MaxAgents q)); ("max_endpoints", JNum (MaxEndpoints q)); ("max_bandwidth_bytes", JNum (MaxBandwidthBytes q));
    ("usage", JObject [("agents", JNum agents); ("endpoints", JNum endpoints); ("bandwidth_bytes", JNum bandwidth)])]).

Definition putQuotaHandler (r : request) : prog unit :=
  need req := decodeJSON r ["max_agents"; "max_endpoints"; "max_bandwidth_bytes"] InQuota in
  let orgID := orgScope r in
  err ← ask (SetQuota (mkQuota orgID (qi_MaxAgents req) (qi_MaxEndpoints req) (qi_MaxBandwidthBytes req)));
  need _ := passed (handleErr err) in
  _ ← audit r "quota.update" orgID "";
  getQuotaHandler r.

Definition checkEndpointQuota (orgID : string) : prog (option unit) :=
  x ← orgQuota orgID;
  y ← checked x;
  match y with
  | None => Ret None
  | Some None => Ret (Some tt)
  | Some (Some q) =>
      if MaxEndpoints q <=? 0 then Ret (Some tt)
      else
        x ← ask (CountEndpoints orgID);
        y ← checked x;
        match y with
        | None => Ret None
        | Some n => if MaxEndpoints q <=? n then fail 409 "endpoint quota exceeded" else Ret (Some tt)
        end
  end.

(** ** Secrets of an organization (secrets.go) *)
Definition toOrgSecretDTO (s : OrgSecret) : jv :=
  JObject [("name", JText (os_Name s)); ("version", JNum (os_Version s)); ("has_value", JBool (0 <? len (os_ValueEnc s)));
           ("created_at", JTime (os_CreatedAt s)); ("updated_at", JTime (os_UpdatedAt s))].

Definition listSecretsHandler (r : request) : prog unit :=
  l ← ask (ListOrgSecrets (orgScope r)); writeList l (fun s => Ret (toOrgSecretDTO s)).

Definition badSecretName : string := "secret name must be 1-63 lowercase letters, digits, '_' or '-'".

Definition putSecretHandler (r : request) : prog unit :=
  if negb (has_vault a) then writeError 503 "secret storage is not configured"
  else
    need value := decodeJSON r ["value"] InOne in
    let name := path r "name" in
    x ← ask (VaultPut (orgScope r) name (bytes_of value));
    match x with
    | Fail err =>
        if errIs err orgsecret.ErrInvalidName then writeError 400 badSecretName
        else if errIs err orgsecret.ErrInvalidValue
        then writeError 400 ("secret value must be 1-" +:+ Itoa orgsecret.MaxValueBytes +:+ " bytes without CR, LF or NUL")
        else if errIs err orgsecret.ErrNoBox then writeError 503 "secret storage is not configured"
        else _ ← handleErr (Some err); Ret tt
    | Ok sec =>
        _ ← flushDecisions a (orgScope r);
        _ ← audit r "secret.put" name ("version=" +:+ Itoa (os_Version sec));
        writeJSON 200 (toOrgSecretDTO sec)
    end.

Definition removeSecret (org name : string) : prog (option goerr) :=
  if has_vault a then ask (VaultDelete org name) else ask (DeleteOrgSecret org name).

Definition deleteSecretHandler (r : request) : prog unit :=
  let name := path r "name" in
  err ← removeSecret (orgScope r) name;
  match err with
  | Some e =>
      if errIs e orgsecret.ErrInvalidName then writeError 400 badSecretName else _ ← handleErr err; Ret tt
  | None =>
      _ ← flushDecisions a (orgScope r);
      _ ← audit r "secret.delete" name "";
      noContent
  end.

(** ** Egress credentials (egress_credentials.go) *)
Definition texts (l : list string) : jv := JList (map JText l).

Definition toEgressCredentialDTO (c : EgressHandler.EgressCredential) : jv :=
  JObject ([("name", JText (EgressHandler.ec_Name c)); ("header", JText (EgressHandler.ec_Header c))]
    ++ (if bool_decide (EgressHandler.ec_Prefix c = "") then [] else [("prefix", JText (EgressHandler.ec_Prefix c))])
    ++ [("secret", JText (EgressHandler.ec_Secret c)); ("agent_ids", texts (EgressHandler.ec_AgentIDs c));
        ("destinations", texts (EgressHandler.ec_Destinations c)); ("created_at", JTime (EgressHandler.ec_CreatedAt c));
        ("updated_at", JTime (EgressHandler.ec_UpdatedAt c))]).

Definition listEgressCredentialsHandler (r : request) : prog unit :=
  l ← ask (ListEgressCredentials (orgScope r)); writeList l (fun c => Ret (toEgressCredentialDTO c)).

Definition getEgressCredentialHandler (r : request) : prog unit :=
  x ← ask (GetEgressCredential (orgScope r) (path r "name"));
  need c := checked x in writeJSON 200 (toEgressCredentialDTO c).

Fixpoint dedupe_from (seen : gset string) (ids : list string) : list string :=
  match ids with
  | [] => []
  | id :: ids' => if bool_decide (id ∈ seen) then dedupe_from seen ids' else id :: dedupe_from ({[id]} ∪ seen) ids'
  end.
Definition dedupe (ids : list string) : list string := dedupe_from ∅ ids.

Fixpoint checkAgents (orgID : string) (ids : list string) : prog (option unit) :=
  match ids with
  | [] => Ret (Some tt)
  | id :: ids' =>
      x ← ask (GetAgent id);
      match x with
      | Fail err =>
          if errIs err ErrNotFound then fail 400 "agent_ids contains an unknown agent"
          else _ ← handleErr (Some err); Ret None
      | Ok ag =>
          if bool_decide (a_OrgID ag = orgID) then checkAgents orgID ids' else fail 400 "agent_ids contains an unknown agent"
      end
  end.

Definition putEgressCredentialHandler (r : request) : prog unit :=
  need req := decodeJSON r ["header"; "prefix"; "secret"; "agent_ids"; "destinations"] InCredential in
  let orgID := orgScope r in
  now ← ask Now;
  match Credentials.Validate (EgressHandler.mkCredential orgID (path r "name") (ci_Header req) (ci_Prefix req) (ci_Secret req)
                                (dedupe (ci_AgentIDs req)) (ci_Destinations req) 0 now) with
  | Fail err => writeError 400 (errText err)
  | Ok c =>
      need _ := checkAgents orgID (EgressHandler.ec_AgentIDs c) in
      err ← ask (PutEgressCredential c);
      need _ := passed (handleErr err) in
      _ ← flushDecisions a orgID;
      _ ← audit r "egress_credential.put" (EgressHandler.ec_Name c) "";
      writeJSON 200 (toEgressCredentialDTO c)
  end.

Definition deleteEgressCredentialHandler (r : request) : prog unit :=
  let orgID := orgScope r in
  let name := path r "name" in
  err ← ask (DeleteEgressCredential orgID name);
  need _ := passed (handleErr err) in
  _ ← flushDecisions a orgID;
  _ ← audit r "egress_credential.delete" name "";
  noContent.

(** ** Decryption (egress_decrypt.go) *)
Definition egressca_ErrNoBox : goerr := ENew "egress ca: secret key unavailable".
Definition noDecryption : string := "egress decryption is not available on this server".

Definition getEgressCAHandler (r : request) : prog unit :=
  if negb (has_egressCA a) then writeError 503 noDecryption
  else
    x ← ask (EgressRoot (orgScope r));
    match x with
    | Fail err => if errIs err egressca_ErrNoBox then writeError 503 noDecryption else _ ← handleErr (Some err); Ret tt
    | Ok root => writeJSON 200 (JObject [("pem", JText root.1); ("sha256", JText root.2)])
    end.

Definition toEgressDecryptDTO (cfg : OrgDecrypt) : jv :=
  JObject [("allow", texts (od_Allow cfg)); ("bypass", texts (od_Bypass cfg)); ("updated_at", JTime (od_UpdatedAt cfg))].

Definition getEgressDecryptHandler (r : request) : prog unit :=
  x ← ask (GetOrgDecrypt (orgScope r));
  match x with
  | Fail err =>
      if errIs err ErrNotFound then writeJSON 200 (JObject [("allow", JList []); ("bypass", JList [])])
      else _ ← handleErr (Some err); Ret tt
  | Ok cfg => writeJSON 200 (toEgressDecryptDTO cfg)
  end.

Definition putEgressDecryptHandler (r : request) : prog unit :=
  need req := decodeJSON r ["allow"; "bypass"] InLists in
  match DecryptScope.Normalize req.1 with
  | Fail err => writeError 400 ("allow: " +:+ errText err)
  | Ok allow =>
      match DecryptScope.Normalize req.2 with
      | Fail err => writeError 400 ("bypass: " +:+ errText err)
      | Ok bypass =>
          let orgID := orgScope r in
          now ← ask Now;
          let cfg := mkOrgDecrypt orgID allow bypass now in
          err ← ask (SetOrgDecrypt cfg);
          need _ := passed (handleErr err) in
          _ ← flushDecisions a orgID;
          _ ← audit r "egress_decrypt.put" orgID "";
          writeJSON 200 (toEgressDecryptDTO cfg)
      end
  end.

(** ** The policy of an organization (policy.go, internal/authz: authz.go, schema.go) *)
Definition nl : string := String (ascii_of_N 10) "".

Definition dedupeSorted (actions : list string) : list string := sort_by str_leb (dedupe actions).

Definition compileRole (role : string) (acts : list string) : string :=
  match dedupeSorted acts with
  | [] => ""
  | acts =>
      "permit (" +:+ nl +:+ "  principal in Role::" +:+ Quote role +:+ "," +:+ nl +:+ "  action in ["
        +:+ String.concat ", " (map (fun act => "Action::" +:+ Quote act) acts) +:+ "]," +:+ nl +:+ "  resource" +:+ nl +:+ ");" +:+ nl
  end.

Definition CompileMatrix (matrix : gmap string (list string)) : string :=
  String.concat "" (map (fun role => compileRole role (default [] (matrix !! role))) (sort_by str_leb (map fst (map_to_list matrix)))).

Definition appendDataPlane (src : list byte) : list byte :=
  src ++ (if (0 <? len src) && negb (HasSuffix (string_of src) nl) then bytes_of nl else []) ++ dataPlanePolicy.
Definition DefaultPolicySource : list byte := appendDataPlane defaultPolicy.
Definition CompileOrgPolicy (matrix : gmap string (list string)) : list byte := appendDataPlane (bytes_of (CompileMatrix matrix)).

Definition MaxPolicyBytes : Z := 65536.
Definition ErrInvalidPolicy : goerr := ENew "invalid policy".

Definition policyName (p : Authz.Decide.Policy) : string :=
  match Authz.Decide.PAnnotations p !! "id" with
  | Some named => if bool_decide (named = "") then Authz.Decide.PolicyID p else named
  | None => Authz.Decide.PolicyID p
  end.

Definition policy_errors (ps : list Authz.Decide.Policy) : list goerr :=
  omap (fun p => (fun err => EWrap ("policy " +:+ policyName p +:+ " (line " +:+ Itoa (policy_line p) +:+ "): ") err "") <$> policy_problem p) ps.

Definition authz_Validate (src : list byte) : option goerr :=
  if MaxPolicyBytes <? len src
  then Some (EWrap "" ErrInvalidPolicy (": policy too large (" +:+ Itoa (len src) +:+ " bytes, max " +:+ Itoa MaxPolicyBytes +:+ ")"))
  else
    match policy_set src with
    | Fail err => Some (EBoth ErrInvalidPolicy ": parse: " err)
    | Ok ps =>
        match policy_errors ps with
        | [] => None
        | e :: errs => Some (EBoth ErrInvalidPolicy ": " (errors_Join e errs))
        end
    end.

Definition ProbeMatrix (az : Authz.Decide.Authorizer) (roles : list string) : list (string * list (string * bool)) :=
  map (fun role => (role, map (fun act => (act, Authorize az (mkRolePrincipal "probe" "" role "probe") act)) AllActions)) roles.

Definition policyRoles : list string := [RoleOwner; RoleAdmin; RoleMember].

Definition getPolicyHandler (r : request) : prog unit :=
  let org := orgScope r in
  az ← authorizerFor org;
  x ← ask (GetOrgPolicy org);
  let own := match x with Ok pol => if bool_decide (op_CedarSrc pol = "") then None else Some (op_CedarSrc pol) | Fail _ => None end in
  writeJSON 200 (JObject [("is_default", JBool match own with Some _ => false | None => true end); ("roles", texts policyRoles);
    ("actions", texts AllActions);
    ("matrix", JObject (map (fun row => (row.1, JObject (map (fun cell => (cell.1, JBool cell.2)) row.2))) (ProbeMatrix az policyRoles)));
    ("cedar_src", JText (default (string_of DefaultPolicySource) own))]).

Fixpoint known_roles (raw : gmap string (list string)) (roles : list string) : option string :=
  match roles with
  | [] => None
  | role :: roles' =>
      if negb (bool_decide (role ∈ policyRoles)) then Some ("unknown role: " +:+ role)
      else
        match List.find (fun act => negb (bool_decide (act ∈ AllActions))) (default [] (raw !! role)) with
        | Some act => Some ("unknown action: " +:+ act)
        | None => known_roles raw roles'
        end
  end.

Definition normalizeMatrix (raw : gmap string (list string)) : prog (option (gmap string (list string))) :=
  roles ← ranged (map fst (map_to_list raw));
  match known_roles raw roles with
  | Some problem => fail 400 problem
  | None => Ret (Some raw)
  end.

(** [invalidateAuthz] (authz_cache.go). *)
Definition invalidateAuthz (orgID : string) : prog unit := _ ← ask (InvalidateAuthz orgID); flushDecisions a orgID.

Definition policySource (req : policyPut) : prog (option (list byte)) :=
  match pp_CedarSrc req with
  | Some src => Ret (Some (bytes_of src))
  | None => m ← normalizeMatrix (default ∅ (pp_Matrix req)); Ret (option_map CompileOrgPolicy m)
  end.

Definition putPolicyHandler (r : request) : prog unit :=
  if negb (bool_decide (ApiPeople.callerRole r = RoleOwner)) then writeError 403 "only owners can change the authorization policy"
  else
    need req := decodeJSON r ["matrix"; "cedar_src"] InPolicy in
    if Bool.eqb (negb (ApiPeople.is_some (pp_Matrix req))) (negb (ApiPeople.is_some (pp_CedarSrc req)))
    then writeError 400 "provide exactly one of matrix or cedar_src"
    else
      need src := policySource req in
      match authz_Validate src with
      | Some err => if errIs err ErrInvalidPolicy then writeError 400 (errText err) else _ ← handleErr (Some err); Ret tt
      | None =>
          let org := orgScope r in
          now ← ask Now;
          err ← ask (SetOrgPolicy (mkOrgPolicy org (string_of src) now));
          need _ := passed (handleErr err) in
          _ ← invalidateAuthz org;
          _ ← audit r "policy.update" org "";
          getPolicyHandler r
      end.

(** ** Domains (domains.go) *)
Definition challengePrefix : string := "_mishmesh-challenge.".

Definition hostOnly (hostport : string) : string :=
  match SplitHostPort hostport with Some (h, _) => ToLower h | None => ToLower hostport end.

Definition toDomainDTO (d : Domain_) : jv :=
  JObject ([("id", JText (d_ID d)); ("name", JText (d_Name d)); ("verified", JBool (ApiPeople.is_some (d_VerifiedAt d)));
            ("cname_target", JText (hostOnly (baseDomain a))); ("created_at", JTime (d_CreatedAt d))]
    ++ match d_VerifiedAt d with
       | Some t => [("verified_at", JTime t)]
       | None => [("challenge", JObject [("type", JText "TXT"); ("name", JText (challengePrefix +:+ d_Name d)); ("value", JText (d_Token d))])]
       end).

(** [domainLabel] is [DecryptScope.valid_label]. *)
Definition normalizeDomain (raw : string) : res string :=
  let name := TrimSuffix (ToLower (TrimSpace raw)) "." in
  if bool_decide (name = "") || (253 <? slen name) then Fail (ENew "invalid domain")
  else if negb (bool_decide (ParseIP name = nilIP)) then Fail (ENew "domain must be a hostname, not an IP address")
  else
    let labels := Split name "."%char in
    if len labels <? 2 then Fail (ENew "domain must be a fully qualified hostname")
    else if negb (forallb (fun l => DecryptScope.valid_label (bytes_of l)) labels) then Fail (ENew "invalid domain")
    else
      let base := hostOnly (baseDomain a) in
      if negb (bool_decide (base = "")) && (bool_decide (name = base) || HasSuffix name ("." +:+ base))
      then Fail (ENew "domain may not be the platform base domain or a subdomain of it")
      else Ok name.

Definition listDomainsHandler (r : request) : prog unit :=
  l ← ask (ListDomainsByOrg (orgScope r)); writeList l (fun d => Ret (toDomainDTO d)).

(** The domain must not be verified for any organization. *)
Definition unclaimed (name : string) : prog (option unit) :=
  x ← ask (GetVerifiedDomain name);
  match x with
  | Ok _ => fail 409 "domain is already claimed"
  | Fail err => if errIs err ErrNotFound then Ret (Some tt) else _ ← handleErr (Some err); Ret None
  end.

Definition createDomainHandler (r : request) : prog unit :=
  need req := decodeJSON r ["name"] InOne in
  match normalizeDomain req with
  | Fail err => writeError 400 (errText err)
  | Ok name =>
      let orgID := orgScope r in
      x ← ask (GetDomain orgID name);
      match x with
      | Ok existing => writeJSON 200 (toDomainDTO existing)
      | Fail err =>
          if negb (errIs err ErrNotFound) then _ ← handleErr (Some err); Ret tt
          else
            need _ := unclaimed name in
            t ← GenerateToken;
            need token := checked t in
            id ← NewID "dom";
            now ← ask Now;
            let d := mkDomain id orgID name token.1 None now in
            err ← ask (CreateDomain d);
            need _ := passed (handleErr err) in
            _ ← audit r "domain.create" (d_ID d) name;
            writeJSON 201 (toDomainDTO d)
      end
  end.

Definition orgDomain (r : request) : prog (option Domain_) :=
  x ← ask (ListDomainsByOrg (orgScope r));
  ds ← checked x;
  match ds with
  | None => Ret None
  | Some ds =>
      match List.find (fun d => bool_decide (d_ID d = path r "id")) ds with
      | Some d => Ret (Some d)
      | None => fail 404 "not found"
      end
  end.

Definition containsToken (records : list string) (token : string) : bool := existsb (fun rec => bool_decide (TrimSpace rec = token)) records.

Definition verifyDomainHandler (r : request) : prog unit :=
  need d := orgDomain r in
  match d_VerifiedAt d with
  | Some _ => writeJSON 200 (toDomainDTO d)
  | None =>
      need _ := unclaimed (d_Name d) in
      records ← ask (LookupTXT (challengePrefix +:+ d_Name d));
      if negb (containsToken records (d_Token d))
      then writeError 422 ("challenge TXT record not found at " +:+ challengePrefix +:+ d_Name d)
      else
        now ← ask Now;
        err ← ask (SetDomainVerified (d_ID d) now);
        need _ := passed (handleErr err) in
        _ ← audit r "domain.verify" (d_ID d) (d_Name d);
        writeJSON 200 (toDomainDTO (mkDomain (d_ID d) (d_OrgID d) (d_Name d) (d_Token d) (Some now) (d_CreatedAt d)))
  end.

Definition deleteDomainHandler (r : request) : prog unit :=
  need d := orgDomain r in
  x ← ask (GetEndpointByDomain (d_Name d));
  if match x with Ok ep => bool_decide (ep_OrgID ep = d_OrgID d) | Fail _ => false end
  then writeError 409 "domain is bound to an endpoint"
  else
    err ← ask (DeleteDomain (d_OrgID d) (d_ID d));
    need _ := passed (handleErr err) in
    _ ← audit r "domain.delete" (d_ID d) (d_Name d);
    noContent.

(** The name to bind, or the status and text to answer. *)
Definition authorizeDomainBinding (orgID raw : string) : prog (string + Z * string) :=
  match normalizeDomain raw with
  | Fail err => Ret (inr (400, errText err))
  | Ok name =>
      if negb (domainVerification a) then Ret (inl name)
      else
        x ← ask (GetVerifiedDomain name);
        Ret match x with
            | Ok d => if bool_decide (d_OrgID d = orgID) then inl name else inr (403, "domain is not verified for this organization")
            | Fail err => if errIs err ErrNotFound then inr (403, "domain is not verified for this organization") else inr (500, "internal error")
            end
  end.

(** ** Sessions of an endpoint's visitors (endpoint_sessions.go) *)
Definition scopedEndpoint (r : request) : prog (option Endpoint) := loadScoped r (ask (GetEndpoint (path r "id"))) ep_OrgID.

Definition sessionEmail (ts : Sessions.TokenSession) (users : gmap string User) : string :=
  if bool_decide (Sessions.SubjectType ts = Identity.SubjectGuest) then Sessions.SubjectID ts
  else if bool_decide (Sessions.SubjectType ts = Identity.SubjectUser)
  then match users !! Sessions.SubjectID ts with Some user => u_Email user | None => "" end
  else "".

Definition endpointSessionDTO (users : gmap string User) (ts : Sessions.TokenSession) : jv :=
  JObject ([("id", JText (Sessions.ID ts)); ("subject_type", JText (Sessions.SubjectType ts)); ("subject_id", JText (Sessions.SubjectID ts))]
    ++ (if bool_decide (sessionEmail ts users = "") then [] else [("email", JText (sessionEmail ts users))])
    ++ [("auth_method", JText (Sessions.AuthMethod ts)); ("auth_time", JTime (Sessions.AuthTime ts));
        ("created_at", JTime (Sessions.CreatedAt ts)); ("expires_at", JTime (Sessions.ExpiresAt ts))]).

Definition listEndpointSessionsHandler (r : request) : prog unit :=
  need ep := scopedEndpoint r in
  if negb (has_identity a) then writeJSON 200 (JList [])
  else
    x ← ask (Ident (Identity.CEndpointSessions (ep_OrgID ep) (ID ep)));
    match x : res (list Sessions.TokenSession) with
    | Fail _ => writeStoreUnavailable
    | Ok sessions =>
        u ← ApiPeople.usersByID (omap (fun ts => if bool_decide (Sessions.SubjectType ts = Identity.SubjectUser) then Some (Sessions.SubjectID ts) else None) sessions);
        need users := checked u in
        writeJSON 200 (JList (map (endpointSessionDTO users) sessions))
    end.

Definition revokeEndpointSessionHandler (r : request) : prog unit :=
  need ep := scopedEndpoint r in
  if negb (has_identity a) then writeError 404 "not found"
  else
    let sessionID := path r "session_id" in
    err ← (ask (Ident (Identity.CRevokeEndpointSession (ep_OrgID ep) (ID ep) sessionID)) : prog (option goerr));
    if match err with Some e => errIs e Identity.ErrUnavailable | None => false end then writeStoreUnavailable
    else
      need _ := passed (handleErr err) in
      _ ← audit r "endpoint.session.revoke" (ID ep) sessionID;
      noContent.

Definition revokeEndpointSessionsHandler (r : request) : prog unit :=
  need ep := scopedEndpoint r in
  if negb (has_identity a) then writeJSON 200 (JObject [("revoked", JNum 0)])
  else
    x ← (ask (Ident (Identity.CRevokeEndpointSessions (ep_OrgID ep) (ID ep))) : prog (res Z));
    match x with
    | Fail _ => writeStoreUnavailable
    | Ok n => _ ← audit r "endpoint.sessions.revoke" (ID ep) (Itoa n); writeJSON 200 (JObject [("revoked", JNum n)])
    end.

(** ** Status and audit log (status.go) *)
Definition toAuditDTO (e : AuditEvent) : jv :=
  JObject [("id", JText (au_ID e)); ("actor", JText (au_Actor e)); ("action", JText (au_Action e)); ("target", JText (au_Target e));
           ("detail", JText (au_Detail e)); ("created_at", JTime (au_CreatedAt e))].

Definition listAuditHandler (r : request) : prog unit :=
  x ← ask (ListAudit (orgScope r) 200);
  need events := checked x in
  writeJSON 200 (JList (map toAuditDTO events)).

Definition count_true (l : list bool) : Z := len (filter (fun b : bool => b = true) l).
Definition kind_counts (eps : list Endpoint) : gmap string Z :=
  fold_left (fun m ep => <[Kind ep := default 0 (m !! Kind ep) + 1]> m) eps
    (list_to_map [(KindHTTP, 0); (KindTCP, 0); (KindTLS, 0); (KindUDP, 0)]).
Definition counts (m : gmap string Z) : jv := JObject (map (fun x => (x.1, JNum x.2)) (map_to_list m)).

Definition resolved (ep : Endpoint) : prog bool := if has_conns a then ask (ResolveEndpoint (ID ep)) else Ret false.

Definition statusHandler (r : request) : prog unit :=
  let orgID := orgScope r in
  x ← ask (ListAgents orgID);
  need agents := checked x in
  live ← each (fun g => connected (a_ID g)) agents;
  x ← ask (ListEndpointsByOrg orgID);
  need eps := checked x in
  online ← each resolved eps;
  usage ← (if has_conns a then ask (Usage orgID) else Ret 0);
  x ← orgQuota orgID;
  need q := checked x in
  writeJSON 200 (JObject ([("agents", JObject [("total", JNum (len agents)); ("connected", JNum (count_true live))]);
    ("endpoints", JObject [("total", JNum (len eps)); ("online", JNum (count_true online)); ("by_kind", counts (kind_counts eps))]);
    ("usage_bytes", JNum usage)]
    ++ match q with
       | Some q => [("quota", JObject [("max_agents", JNum (MaxAgents q)); ("max_endpoints", JNum (MaxEndpoints q));
                                       ("max_bandwidth_bytes", JNum (MaxBandwidthBytes q))])]
       | None => []
       end)).

(** ** Access log (accesslog.go) *)
Definition MaxAccessLogLimit : Z := 1000.
Definition AccessSourceIngress : string := "ingress".
Definition AccessSourceConnect : string := "connect".

Fixpoint parse_times (r : request) (names : list string) (times : gmap string Z) : gmap string Z + string :=
  match names with
  | [] => inl times
  | name :: names' =>
      let raw := query r name in
      if bool_decide (raw = "") then parse_times r names' times
      else
        match parse_rfc3339 raw with
        | None => inr (name +:+ " must be an RFC 3339 time")
        | Some t => parse_times r names' (<[name := t]> times)
        end
  end.

Definition parse_limit (raw : string) : option Z :=
  if bool_decide (raw = "") then Some 0
  else match Atoi raw with Some n => if (n <=? 0) || (MaxAccessLogLimit <? n) then None else Some n | None => None end.

Definition parseAccessLogQuery (r : request) : prog (AccessLogQuery + string) :=
  let decision := query r "decision" in
  let source := query r "source" in
  if negb (bool_decide (decision ∈ [""; EgressHandler.AccessAllow; EgressHandler.AccessDeny])) then Ret (inr "decision must be allow or deny")
  else if negb (bool_decide (source ∈ [""; AccessSourceIngress; AccessSourceConnect; EgressHandler.AccessSourceEgress]))
  then Ret (inr "source must be ingress, connect or egress")
  else
    names ← ranged ["since"; "until"];
    Ret match parse_times r names ∅ with
        | inr problem => inr problem
        | inl times =>
            match parse_limit (query r "limit") with
            | None => inr ("limit must be between 1 and " +:+ Itoa MaxAccessLogLimit)
            | Some n => inl (mkAccessQuery decision source (query r "principal") (query r "endpoint") (times !! "since") (times !! "until") n)
            end
        end.

Definition unless_empty (k s : string) : list (string * jv) := if bool_decide (s = "") then [] else [(k, JText s)].

Definition accessEventDTO (e : AccessEvent) : jv :=
  JObject ([("id", JText (ae_ID e)); ("at", JTime (ae_At e)); ("source", JText (ae_Source e)); ("decision", JText (ae_Decision e))]
    ++ unless_empty "reason" (ae_Reason e) ++ unless_empty "principal_type" (ae_PrincipalType e)
    ++ unless_empty "principal_id" (ae_PrincipalID e) ++ unless_empty "session_id" (ae_SessionID e)
    ++ unless_empty "agent_id" (ae_AgentID e) ++ unless_empty "exit_agent_id" (ae_ExitAgentID e)
    ++ unless_empty "endpoint_id" (ae_EndpointID e) ++ unless_empty "destination" (ae_Destination e)
    ++ (if bool_decide (ae_PolicyIDs e = []) then [] else [("policy_ids", texts (ae_PolicyIDs e))])
    ++ unless_empty "client_ip" (ae_ClientIP e) ++ unless_empty "method" (ae_Method e) ++ unless_empty "path" (ae_Path e)
    ++ (if ae_Status e =? 0 then [] else [("status", JNum (ae_Status e))]) ++ unless_empty "protocol" (ae_Protocol e)
    ++ [("bytes_in", JNum (ae_BytesIn e)); ("bytes_out", JNum (ae_BytesOut e)); ("duration_ms", JNum (ae_DurationMs e));
        ("latency_ms", JNum (ae_LatencyMs e))]).

Definition listAccessLogHandler (r : request) : prog unit :=
  x ← parseAccessLogQuery r;
  match x with
  | inr problem => writeError 400 problem
  | inl q =>
      x ← ask (ListAccessEvents (orgScope r) q);
      need events := checked x in
      writeJSON 200 (JList (map accessEventDTO events))
  end.
End Server.
End ApiResources.
