(* ===== verification/ApiEndpoints.v ===== *)
(** * The control plane: endpoints

    internal/controlplane: endpoints.go, network.go and endpoint_login.go, and the rules of an
    access policy (internal/connections: accesspolicy.go). *)
From S2P Require Import Prelude GoIO GoStrings GoNet DecryptScope Sessions Requirements Token Authz Prog Identity Calls ClientIP Cloudflare Endpoints Gateway Proxy EgressHandler Credentials Api ApiPeople ApiResources.

Module ApiEndpoints.
Import Calls Endpoints Api.
Local Open Scope Z_scope.

Definition LoadBalanceRoundRobin : string := "round_robin".
Definition MethodSSH : string := "ssh".
Definition MethodTailscale : string := "tailscale".
Definition MethodCloudflare : string := "cloudflare".
Definition EndpointCallbackPath : string := "/_mishmesh/auth/callback".
Definition EndpointReauthMaxAge : Z := 120 * second.

Section Server.
Context `{lower : UnicodeLower} `{quote : UnicodeQuote} `{ed : Token.Ed25519} `{urls : UrlParse} `{cedar : Authz.Decide.Cedar} `{web : Web}.
Context `{neterr : Proxy.NetErrors} `{pem : Proxy.PemCerts}.
Context (a : api).

(** ** Access policies (internal/connections/accesspolicy.go) *)
Definition maxAccessPolicyEntries : Z := 100.
Definition maxAccessSession : Z := 730 * 3600 * second.

Definition group_byte (b : byte) : bool :=
  Credentials.lower_byte b || Credentials.upper_byte b || Credentials.digit_byte b || Ascii.eqb b "_" || Ascii.eqb b "-".

(** What follows the first [b] ([strings.Cut]). *)
Fixpoint cut_byte (b : byte) (l : list byte) : option (list byte) :=
  match l with [] => None | c :: l' => if Ascii.eqb c b then Some l' else cut_byte b l' end.

Definition normalizeAccessDomain (value : string) : option string :=
  match Cloudflare.NormalizeAccessHostname value with
  | Ok domain => if ContainsByte domain "." then Some domain else None
  | Fail _ => None
  end.

(** [mail.ParseAddress] gives the address itself, with no display name. *)
Definition normalizeAccessEmail (value : string) : option string :=
  let value := ToLower (TrimSpace value) in
  if negb (bool_decide (mail_address value = Some value)) then None
  else
    match cut_byte "@"%char (bytes_of value) with
    | Some domain => match normalizeAccessDomain (string_of domain) with Some _ => Some value | None => None end
    | None => None
    end.

Definition normalizeAccessGroup (value : string) : option string :=
  let value := TrimSpace value in
  if negb (bool_decide (value = "")) && (slen value <=? 64) && forallb group_byte (bytes_of value) then Some value else None.

Fixpoint access_entries (field : string) (normalize : string -> option string) (values out : list string) : res (list string) :=
  match values with
  | [] => Ok out
  | value :: values' =>
      match normalize value with
      | None => Fail (ENew ("access policy " +:+ field +:+ " has an invalid entry " +:+ Quote value))
      | Some n =>
          if bool_decide (n ∈ out) then Fail (ENew ("access policy " +:+ field +:+ " has a duplicate entry " +:+ Quote value))
          else access_entries field normalize values' (out ++ [n])
      end
  end.

Definition normalizeAccessList (field : string) (values : list string) (normalize : string -> option string) : res (list string) :=
  if maxAccessPolicyEntries <? len values
  then Fail (ENew ("access policy " +:+ field +:+ " allows at most " +:+ Itoa maxAccessPolicyEntries +:+ " entries"))
  else access_entries field normalize values [].

Definition validSession (d : string) : bool :=
  bool_decide (d = "") || match parse_duration d with Some t => (60 * second <=? t) && (t <=? maxAccessSession) | None => false end.

Definition access_lists (p : Cloudflare.AccessPolicy) : res (list string * list string * list string) :=
  match normalizeAccessList "allow_emails" (Cloudflare.AllowEmails p) normalizeAccessEmail with
  | Fail err => Fail err
  | Ok emails =>
      match normalizeAccessList "allow_email_domains" (Cloudflare.AllowEmailDomains p) normalizeAccessDomain with
      | Fail err => Fail err
      | Ok domains =>
          match normalizeAccessList "allow_groups" (Cloudflare.AllowGroups p) normalizeAccessGroup with
          | Fail err => Fail err
          | Ok groups => Ok (emails, domains, groups)
          end
      end
  end.

(** The normalized policy; the code writes it back through the pointer. *)
Definition NormalizeAccessPolicy (policy : option Cloudflare.AccessPolicy) : res (option Cloudflare.AccessPolicy) :=
  match policy with
  | None => Ok None
  | Some p =>
      if len (Cloudflare.AllowEmails p) + len (Cloudflare.AllowEmailDomains p) + len (Cloudflare.AllowGroups p) =? 0
      then Fail (ENew "access policy needs at least one of allow_emails, allow_email_domains or allow_groups")
      else
        match access_lists p with
        | Fail err => Fail err
        | Ok (emails, domains, groups) =>
            if validSession (Cloudflare.SessionDuration p)
            then Ok (Some (Cloudflare.mkAccessPolicy emails domains groups (Cloudflare.RequireMFA p) (Cloudflare.SessionDuration p)))
            else Fail (ENew "access policy session_duration must be a duration between 1m and 730h")
        end
  end.

(** ** Responses (endpoints.go) *)
Definition publicURL (ep : Endpoint) : string :=
  let scheme := if bool_decide (publicScheme a = "") then "http" else publicScheme a in
  if bool_decide (Kind ep = KindTLS) then endpointurl_TLS ep (baseDomain a) (tlsPublicPort a)
  else if negb (bool_decide (Domain ep = "")) then scheme +:+ "://" +:+ Domain ep
  else if PortKind (Kind ep) then
    if Port ep =? 0 then "" else Kind ep +:+ "://" +:+ ApiResources.hostOnly (baseDomain a) +:+ ":" +:+ Itoa (Port ep)
  else if negb (bool_decide (Subdomain ep = "")) then scheme +:+ "://" +:+ Subdomain ep +:+ "." +:+ baseDomain a
  else if disablePathRouting a then ""
  else scheme +:+ "://" +:+ baseDomain a +:+ "/tunnel/" +:+ ID ep.

Definition with_hash (h : string) (p : EndpointPolicy) : EndpointPolicy :=
  mkPolicy (RequestHeadersAdd p) (RequestHeadersRemove p) (ResponseHeadersAdd p) (ResponseHeadersRemove p) (HostHeader p) (StripPathPrefix p)
    (AddPathPrefix p) (BasicAuthUser p) h (IPAllow p) (IPDeny p) (ForceHTTPS p) (MaxBodyBytes p) (Compression p) (OIDC p) (MTLS p)
    (RateLimit_ p) (ProxyTargets p) (LoadBalance p) (OriginTLS p) (ServiceID p) (Connect p) (Access p) (AccessPolicy_ p) (Identity_ p).
Definition with_oidc (o : option OIDCEndpointAuth) (p : EndpointPolicy) : EndpointPolicy :=
  mkPolicy (RequestHeadersAdd p) (RequestHeadersRemove p) (ResponseHeadersAdd p) (ResponseHeadersRemove p) (HostHeader p) (StripPathPrefix p)
    (AddPathPrefix p) (BasicAuthUser p) (BasicAuthHash p) (IPAllow p) (IPDeny p) (ForceHTTPS p) (MaxBodyBytes p) (Compression p) o (MTLS p)
    (RateLimit_ p) (ProxyTargets p) (LoadBalance p) (OriginTLS p) (ServiceID p) (Connect p) (Access p) (AccessPolicy_ p) (Identity_ p).
Definition with_connect (c : option ConnectPolicy) (p : EndpointPolicy) : EndpointPolicy :=
  mkPolicy (RequestHeadersAdd p) (RequestHeadersRemove p) (ResponseHeadersAdd p) (ResponseHeadersRemove p) (HostHeader p) (StripPathPrefix p)
    (AddPathPrefix p) (BasicAuthUser p) (BasicAuthHash p) (IPAllow p) (IPDeny p) (ForceHTTPS p) (MaxBodyBytes p) (Compression p) (OIDC p) (MTLS p)
    (RateLimit_ p) (ProxyTargets p) (LoadBalance p) (OriginTLS p) (ServiceID p) c (Access p) (AccessPolicy_ p) (Identity_ p).
Definition with_access (refs : option (list Cloudflare.AccessRef)) (ap : option Cloudflare.AccessPolicy) (p : EndpointPolicy) : EndpointPolicy :=
  mkPolicy (RequestHeadersAdd p) (RequestHeadersRemove p) (ResponseHeadersAdd p) (ResponseHeadersRemove p) (HostHeader p) (StripPathPrefix p)
    (AddPathPrefix p) (BasicAuthUser p) (BasicAuthHash p) (IPAllow p) (IPDeny p) (ForceHTTPS p) (MaxBodyBytes p) (Compression p) (OIDC p) (MTLS p)
    (RateLimit_ p) (ProxyTargets p) (LoadBalance p) (OriginTLS p) (ServiceID p) (Connect p) refs ap (Identity_ p).
Definition with_secret (s : string) (o : OIDCEndpointAuth) : OIDCEndpointAuth :=
  mkOIDC (oi_Issuer o) (oi_ClientID o) s (oi_AllowedEmails o) (oi_AllowedDomains o).

Definition redacted (s : string) : string := if bool_decide (s = "") then "" else "set".

Definition redactPolicy (p : EndpointPolicy) : EndpointPolicy :=
  with_oidc ((fun o => with_secret (redacted (oi_ClientSecret o)) o) <$> OIDC p) (with_hash (redacted (BasicAuthHash p)) p).

Definition healthOf (id : string) : prog (option jv) := if has_health a then ask (HealthOf id) else Ret None.

Definition toEndpointDTO (ep : Endpoint) : prog jv :=
  online ← ApiResources.resolved a ep;
  h ← healthOf (ID ep);
  Ret (JObject ([("id", JText (ID ep)); ("agent_id", JText (AgentID ep)); ("org_id", JText (ep_OrgID ep)); ("kind", JText (Kind ep));
    ("method", JText (MethodOrDefault (Method ep))); ("lifecycle", JText (Lifecycle ep)); ("subdomain", JText (Subdomain ep));
    ("domain", JText (Domain ep)); ("port", JNum (Port ep)); ("public_url", JText (publicURL ep)); ("online", JBool online);
    ("created_at", JTime (CreatedAt ep))]
    ++ match Policy_ ep with Some p => [("policy", JPolicy (redactPolicy p))] | None => [] end
    ++ match h with Some v => [("health", v)] | None => [] end)).

Definition listOrgEndpointsHandler (r : request) : prog unit := l ← ask (ListEndpointsByOrg (orgScope r)); writeList l toEndpointDTO.

(** agents.go. *)
Definition listEndpointsHandler (r : request) : prog unit :=
  need _ := ApiResources.scopedAgent r (path r "id") in
  l ← ask (ListEndpointsByAgent (path r "id"));
  writeList l toEndpointDTO.

Definition getEndpointHandler (r : request) : prog unit :=
  need ep := ApiResources.scopedEndpoint r in
  dto ← toEndpointDTO ep;
  writeJSON 200 dto.

(** ** Policies of an endpoint *)
Definition methodError (m : string) : string :=
  if bool_decide (m ∈ [MethodNative; MethodSSH; Proxy.MethodProxy]) then ""
  else if bool_decide (m ∈ [MethodTailscale; MethodCloudflare]) then "method " +:+ m +:+ " is not implemented"
  else "unknown method".

Definition guardOf : Proxy.Guard := default Proxy.DefaultGuard (proxyGuard a).

Fixpoint guardProxyTargets (targets : list string) : option goerr :=
  match targets with
  | [] => None
  | t :: targets' => match Proxy.ValidateTarget guardOf t with Some err => Some err | None => guardProxyTargets targets' end
  end.

Definition proxy_targets (pol : option EndpointPolicy) : list string :=
  match pol with Some p => default [] (ProxyTargets p) | None => [] end.

Definition validateProxyPolicy (pol : option EndpointPolicy) : option goerr :=
  match pol with
  | None => Some (ENew "proxy_targets required for proxy method")
  | Some p =>
      if bool_decide (proxy_targets pol = []) then Some (ENew "proxy_targets required for proxy method")
      else
        match guardProxyTargets (proxy_targets pol) with
        | Some err => Some err
        | None =>
            if bool_decide (LoadBalance p ∈ [""; LoadBalanceRoundRobin; Proxy.LoadBalanceFailover; Proxy.LoadBalanceSticky])
            then Proxy.ValidateOriginTLS (OriginTLS p)
            else Some (ENew ("load_balance must be " +:+ LoadBalanceRoundRobin +:+ ", " +:+ Proxy.LoadBalanceFailover +:+ " or " +:+ Proxy.LoadBalanceSticky))
        end
  end.

Definition validatePolicyForMethod (method : string) (pol : option EndpointPolicy) : option goerr :=
  if negb (bool_decide (method = Proxy.MethodProxy)) then
    if bool_decide (proxy_targets pol = []) then None else Some (ENew "proxy_targets is only valid for proxy method")
  else validateProxyPolicy pol.

(** The secret a client sends back as it was shown keeps its value. *)
Definition kept_secret (existing : option EndpointPolicy) (p : EndpointPolicy) : EndpointPolicy :=
  match OIDC p, (match existing with Some e => OIDC e | None => None end) with
  | Some o, Some before => if bool_decide (oi_ClientSecret o = "set") then with_oidc (Some (with_secret (oi_ClientSecret before) o)) p else p
  | _, _ => p
  end.

Definition credential_names (e : option EndpointIdentity) : list string :=
  match e with Some e => map fst (map_to_list (Endpoints.Credentials e)) | None => [] end.

Definition buildPolicy (input : option policyInput) (existing : option EndpointPolicy) : prog (res (option EndpointPolicy)) :=
  match input with
  | None => Ret (Ok existing)
  | Some i =>
      let p := pi_Policy i in
      let p := match existing, Connect p with
               | Some e, None => if pi_connectPresent i then p else with_connect (Connect e) p
               | _, _ => p
               end in
      match (match RateLimit_ p with Some l => RateLimit_Validate l | None => None end) with
      | Some err => Ret (Fail err)
      | None =>
          names ← ranged (credential_names (Identity_ p));
          match Credentials.EndpointIdentity_Validate (Identity_ p) names with
          | Some err => Ret (Fail err)
          | None =>
              if negb (bool_decide (pi_BasicAuthPassword i = "")) then
                h ← ask (HashPassword (pi_BasicAuthPassword i));
                Ret match h with
                    | Fail err => Fail (EWrap "hash basic auth password: " err "")
                    | Ok h => Ok (Some (kept_secret existing (with_hash h p)))
                    end
              else Ret (Ok (Some (kept_secret existing match existing with Some e => with_hash (BasicAuthHash e) p | None => p end)))
          end
      end
  end.

(** ** Services and connections an endpoint uses (network.go) *)
Definition invalidateIngressCaches (orgID : string) : prog unit :=
  _ ← (if has_ingress a then _ ← ask InvalidateIngress; Ret tt else Ret tt);
  flushDecisions a orgID.

Definition triggerConnection (c : Connection) : prog unit := ask (TriggerConnection (cn_ID c)).

Definition triggerConnections (orgID : string) : prog unit :=
  if negb (has_connections a) then Ret tt
  else
    r ← ask (ListConnections orgID);
    match r with
    | Fail _ => Ret tt
    | Ok records => _ ← each triggerConnection records; Ret tt
    end.

(** The probe runs beside the request. *)
Definition endpointChanged (ep : Endpoint) : prog unit :=
  _ ← invalidateIngressCaches (ep_OrgID ep);
  _ ← triggerConnections (ep_OrgID ep);
  if has_health a then _ ← ask (ProbeNow (ID ep)); Ret tt else Ret tt.

Definition endpointRemoved (ep : Endpoint) : prog unit :=
  _ ← invalidateIngressCaches (ep_OrgID ep);
  _ ← (if has_health a then _ ← ask (ForgetHealth (ID ep)); Ret tt else Ret tt);
  triggerConnections (ep_OrgID ep).

Definition effective (p : EndpointPolicy) (ref : Cloudflare.AccessRef) : option Cloudflare.AccessPolicy :=
  match Cloudflare.ref_Policy ref with Some q => Some q | None => AccessPolicy_ p end.

Definition errProvider : goerr := ENew "access needs a registered connection provider".

(** The service must be one of the organization. *)
Definition ownService (orgID id : string) : prog (option goerr) :=
  if bool_decide (id = "") then Ret None
  else
    let unknown := ENew ("service_id " +:+ Quote id +:+ " is not a service of this org") in
    r ← ask (GetService id);
    Ret match r with
        | Ok org => if bool_decide (org = orgID) then None else Some unknown
        | Fail err => if errIs err ErrNotFound then Some unknown else Some (EWrap "service_id: " err "")
        end.

(** The configuration, the policy and the domain of a reference whose hostname is decided. *)
Definition checkAccess (orgID : string) (pol : EndpointPolicy) (previous : list Cloudflare.AccessRef) (record : Connection) (scope : string)
    (ref : Cloudflare.AccessRef) : prog (option goerr) :=
  let unchanged := existsb (fun b => bool_decide (Cloudflare.ref_ConnectionID b = Cloudflare.ref_ConnectionID ref)
                                       && bool_decide (Cloudflare.ref_Hostname b = Cloudflare.ref_Hostname ref)) previous in
  valid ← (if unchanged then Ret true else (ask (ValidConfig record) : prog bool));
  if negb valid then Ret (Some (ENew "new or changed access needs a valid connection configuration"))
  else
    err ← match effective pol ref with Some _ => (ask (PolicySupport record) : prog (option goerr)) | None => Ret None end;
    match err with
    | Some e => Ret (Some e)
    | None =>
        if bool_decide (scope = "public") then
          b ← ApiResources.authorizeDomainBinding a orgID (Cloudflare.ref_Hostname ref);
          Ret match b with inl _ => None | inr (_, message) => Some (ENew message) end
        else Ret None
    end.

Fixpoint validateAccess (orgID domain kind : string) (pol : EndpointPolicy) (previous refs : list Cloudflare.AccessRef)
    (seenConnections seenHosts : gset string) : prog (res (list Cloudflare.AccessRef * list Connection)) :=
  match refs with
  | [] => Ret (Ok ([], []))
  | ref :: refs' =>
      match NormalizeAccessPolicy (Cloudflare.ref_Policy ref), registry a with
      | Fail err, _ => Ret (Fail err)
      | Ok _, None => Ret (Fail errProvider)
      | Ok p, Some reg =>
          r ← ask (GetConnection (Cloudflare.ref_ConnectionID ref));
          match r with
          | Fail _ => Ret (Fail (ENew "access must reference a connection in this organization"))
          | Ok record =>
              if negb (bool_decide (cn_OrgID record = orgID)) then Ret (Fail (ENew "access must reference a connection in this organization"))
              else
                match reg !! cn_Type record with
                | None => Ret (Fail errProvider)
                | Some scope =>
                    h ← ask (AccessHostname (cn_Type record) domain (Cloudflare.ref_Hostname ref) kind);
                    match h with
                    | Fail err => Ret (Fail err)
                    | Ok hostname =>
                        if bool_decide (cn_ID record ∈ seenConnections) || bool_decide (hostname ∈ seenHosts)
                        then Ret (Fail (ENew "access connections and hostnames must be unique"))
                        else
                          let ref := Cloudflare.mkAccessRef (Cloudflare.ref_ConnectionID ref) hostname p in
                          err ← checkAccess orgID pol previous record scope ref;
                          match err with
                          | Some e => Ret (Fail e)
                          | None =>
                              rest ← validateAccess orgID domain kind pol previous refs' ({[cn_ID record]} ∪ seenConnections) ({[hostname]} ∪ seenHosts);
                              Ret match rest with Fail err => Fail err | Ok (refs, records) => Ok (ref :: refs, record :: records) end
                          end
                    end
                end
          end
      end
  end.

(** The policy as it is stored, and the connections it was checked against. *)
Definition validateNetworkPolicy (orgID domain kind : string) (pol : option EndpointPolicy) (previous : list Cloudflare.AccessRef)
    : prog (res (option EndpointPolicy * list Connection)) :=
  match pol with
  | None => Ret (Ok (None, []))
  | Some p =>
      err ← ownService orgID (ServiceID p);
      match err with
      | Some e => Ret (Fail e)
      | None =>
          match NormalizeAccessPolicy (AccessPolicy_ p) with
          | Fail err => Ret (Fail err)
          | Ok ap =>
              if ApiPeople.is_some ap && bool_decide (default [] (Access p) = []) then Ret (Fail (ENew "access_policy needs at least one access connection"))
              else
                r ← validateAccess orgID domain kind (with_access (Access p) ap p) previous (default [] (Access p)) ∅ ∅;
                Ret match r with
                    | Fail err => Fail err
                    | Ok (refs, records) => Ok (Some (with_access (fmap (fun _ => refs) (Access p)) ap p), records)
                    end
          end
      end
  end.

(** The hostnames the endpoint's references have now. *)
Definition previousAccess (ep : Endpoint) : prog (list Cloudflare.AccessRef) :=
  each (fun ref =>
    match registry a with
    | None => Ret ref
    | Some _ =>
        r ← ask (GetConnection (Cloudflare.ref_ConnectionID ref));
        match r with
        | Fail _ => Ret ref
        | Ok record =>
            if negb (bool_decide (cn_OrgID record = ep_OrgID ep)) then Ret ref
            else
              h ← ask (AccessHostname (cn_Type record) (Domain ep) (Cloudflare.ref_Hostname ref) (Kind ep));
              Ret match h with
                  | Ok hostname => Cloudflare.mkAccessRef (Cloudflare.ref_ConnectionID ref) hostname (Cloudflare.ref_Policy ref)
                  | Fail _ => ref
                  end
        end
    end) (match Policy_ ep with Some p => default [] (Access p) | None => [] end).

(** ** Handlers (endpoints.go) *)
Definition endpointConflictMsg : string := "endpoint access or hostname changed or is already claimed; reload and retry".

Definition badRequest {A} (r : res A) : prog (option A) :=
  match r with Ok x => Ret (Some x) | Fail err => fail 400 (errText err) end.
Definition accepted (err : option goerr) : prog (option unit) :=
  match err with None => Ret (Some tt) | Some err => fail 400 (errText err) end.

(** [subdomain.Normalize] and [subdomain.Validate]; none is no subdomain. *)
Definition checkSubdomain (s : string) : prog (option string) :=
  let sub := ToLower (TrimSpace s) in
  match subdomain_Validate sub (baseDomain a) with Some err => fail 400 (errText err) | None => Ret (Some sub) end.

Definition checkDomain (orgID raw : string) : prog (option string) :=
  if bool_decide (raw = "") then Ret (Some "")
  else
    b ← ApiResources.authorizeDomainBinding a orgID raw;
    match b with inl name => Ret (Some name) | inr (status, msg) => fail status msg end.

(** The agent that serves the endpoint. *)
Definition endpointAgent (orgID method agentID : string) : prog (option string) :=
  if bool_decide (method = Proxy.MethodProxy) then Ret (Some Proxy.ProxyAgentID)
  else
    x ← ask (GetAgent agentID);
    y ← checked x;
    match y with
    | None => Ret None
    | Some ag => if bool_decide (a_OrgID ag = orgID) then Ret (Some (a_ID ag)) else fail 404 "not found"
    end.

Definition createEndpointHandler (r : request) : prog unit :=
  need req := decodeJSON r ["agent_id"; "kind"; "method"; "subdomain"; "domain"; "port"; "policy"] InEndpoint in
  let orgID := orgScope r in
  let kind := if bool_decide (ei_Kind req = "") then KindHTTP else ei_Kind req in
  let method := MethodOrDefault (ei_Method req) in
  if negb (bool_decide (methodError method = "")) then writeError 400 (methodError method)
  else
    built ← buildPolicy (ei_Policy req) None;
    need pol := badRequest built in
    need _ := accepted (validatePolicyForMethod method pol) in
    need sub := (if bool_decide (ei_Subdomain req = "") then Ret (Some "") else checkSubdomain (ei_Subdomain req)) in
    need domain := checkDomain orgID (ei_Domain req) in
    net ← validateNetworkPolicy orgID domain kind pol [];
    need checkedPolicy := badRequest net in
    need agentID := endpointAgent orgID method (ei_AgentID req) in
    need _ := ApiResources.checkEndpointQuota orgID in
    id ← NewID "ep";
    now ← ask Now;
    let ep := mkEndpoint id agentID orgID kind method LifecycleReserved sub domain (ei_Port req) checkedPolicy.1 now in
    err ← ask (CreateEndpoint ep checkedPolicy.2);
    need _ := passed (handleStoreErr err endpointConflictMsg) in
    _ ← (if bool_decide (method = Proxy.MethodProxy) && has_conns a then _ ← ask (BindEndpoint (ID ep) Proxy.ProxyAgentID); Ret tt else Ret tt);
    _ ← audit r "endpoint.create" (ID ep) kind;
    _ ← endpointChanged ep;
    dto ← toEndpointDTO ep;
    writeJSON 201 dto.

Definition patchPolicy (ep : Endpoint) (input : option policyInput) : prog (option (option EndpointPolicy)) :=
  match input with
  | None => Ret (Some (Policy_ ep))
  | Some _ =>
      built ← buildPolicy input (Policy_ ep);
      y ← badRequest built;
      match y with
      | None => Ret None
      | Some pol => ok ← accepted (validatePolicyForMethod (Method ep) pol); Ret (option_map (fun _ => pol) ok)
      end
  end.

Definition patchEndpointHandler (r : request) : prog unit :=
  need ep := ApiResources.scopedEndpoint r in
  previous ← previousAccess ep;
  need req := decodeJSON r ["subdomain"; "domain"; "port"; "policy"] InEndpointPatch in
  need sub := match ef_Subdomain req with
              | None => Ret (Some (Subdomain ep))
              | Some s => if bool_decide (ToLower (TrimSpace s) = "") then Ret (Some "") else checkSubdomain s
              end in
  need domain := match ef_Domain req with None => Ret (Some (Domain ep)) | Some d => checkDomain (ep_OrgID ep) d end in
  need pol := patchPolicy ep (ef_Policy req) in
  net ← validateNetworkPolicy (ep_OrgID ep) domain (Kind ep) pol previous;
  need checkedPolicy := badRequest net in
  let ep := mkEndpoint (ID ep) (AgentID ep) (ep_OrgID ep) (Kind ep) (Method ep) (Lifecycle ep) sub domain (default (Port ep) (ef_Port req))
              checkedPolicy.1 (CreatedAt ep) in
  err ← ask (UpdateEndpoint ep checkedPolicy.2);
  need _ := passed (handleStoreErr err endpointConflictMsg) in
  _ ← audit r "endpoint.update" (ID ep) "";
  _ ← endpointChanged ep;
  dto ← toEndpointDTO ep;
  writeJSON 200 dto.

Definition deleteEndpointHandler (r : request) : prog unit :=
  need ep := ApiResources.scopedEndpoint r in
  err ← ask (DeleteEndpoint (ID ep));
  need _ := passed (handleErr err) in
  _ ← (if has_conns a then _ ← ask (UnbindEndpoint (ID ep)); Ret tt else Ret tt);
  _ ← audit r "endpoint.delete" (ID ep) "";
  _ ← endpointRemoved ep;
  noContent.

(** ** Logging in to an endpoint with a browser (endpoint_login.go) *)
Definition loginRedirect (r : request) : prog unit :=
  ask (Write 302 (Redirect ((if ApiPeople.googleEnabled a then "/api/v1/auth/google/start?" else "/login?") +:+ Identity.Encode [("next", r_RequestURI r)]))).

Definition browserLoginEndpoint (ep : Endpoint) : bool :=
  bool_decide (Kind ep = KindHTTP) &&
  match Policy_ ep with Some p => match Identity_ p with Some i => BrowserLogin i | None => false end | None => false end.

(** The endpoint, and the session of the browser. *)
Definition loginEndpoint (r : request) : prog (option Endpoint) :=
  x ← ask (GetEndpoint (query r "endpoint"));
  match x with
  | Fail err => if errIs err ErrNotFound then fail 404 "not found" else _ ← writeStoreUnavailable; Ret None
  | Ok ep =>
      if browserLoginEndpoint ep && negb (bool_decide (publicURL ep = "")) then Ret (Some ep) else fail 404 "not found"
  end.

Definition endpointLoginHandler (r : request) : prog unit :=
  if negb (has_identity a) || negb (authEnabled a) then writeError 503 "endpoint login unavailable"
  else
    let returnPath := if bool_decide (query r "return" = "") then "/" else query r "return" in
    if negb (Identity.SafeReturnPath returnPath) then writeError 400 "invalid return path"
    else
      need ep := loginEndpoint r in
      s ← lookupSession r;
      match s with
      | Fail err => if errIs err errNoSession then loginRedirect r else writeStoreUnavailable
      | Ok su =>
          now ← (if bool_decide (query r "force" = "1") then ask Now else Ret (su_authTime su));
          if EndpointReauthMaxAge <? now - su_authTime su then
            _ ← ask (DeleteSession (su_idHash su));
            _ ← clearSessionCookie a;
            loginRedirect r
          else
            m ← ask (GetMembership (ep_OrgID ep) (u_ID (su_user su)));
            match m with
            | Fail err => if errIs err ErrNotFound then writeError 404 "endpoint not found" else writeStoreUnavailable
            | Ok m =>
                if ApiPeople.is_some (m_DisabledAt m) then writeError 404 "endpoint not found"
                else
                  c ← (ask (Ident (Identity.CPutEndpointLogin (Identity.mkEndpointLogin (ID ep) (ep_OrgID ep) (u_ID (su_user su))
                                                                (su_authMethod su) (su_authTime su) returnPath))) : prog (res string));
                  match c with
                  | Fail _ => writeStoreUnavailable
                  | Ok code =>
                      _ ← auditAs (ep_OrgID ep) (u_Email (su_user su)) "endpoint.login" (ID ep) (su_authMethod su);
                      _ ← ask (SetHeader "Cache-Control" "no-store");
                      ask (Write 302 (Redirect (publicURL ep +:+ EndpointCallbackPath +:+ "?" +:+ Identity.Encode [("code", code)])))
                  end
            end
      end.
End Server.
End ApiEndpoints.
