(* ===== verification/ApiOAuth.v ===== *)
(** * The control plane: tokens

    internal/controlplane: oauth.go, oauth_workload.go and oauth_agent.go, the token endpoint
    for service accounts, workloads and agents, the approval of an agent's login by a user, and
    requests made with a token. *)
From S2P Require Import Prelude GoIO GoStrings GoNet DecryptScope Sessions Requirements Token Authz Prog Identity Calls ClientIP Cloudflare Endpoints Gateway Proxy EgressHandler Credentials Api ApiPeople ApiResources ApiEndpoints.

Module ApiOAuth.
Import Calls Endpoints Api.
Local Open Scope Z_scope.

Definition accessTokenTTL : Z := 3600 * second.
Definition TypeAccess : string := "access".
Definition AuthMethodClientCredentials : string := "client_credentials".
Definition AuthMethodWorkloadIdentity : string := "workload_identity".
Definition grantClientCredentials : string := "client_credentials".
Definition grantAuthorizationCode : string := "authorization_code".
Definition grantRefreshToken : string := "refresh_token".
Definition grantDeviceCode : string := "urn:ietf:params:oauth:grant-type:device_code".
Definition jwtBearerAssertionType : string := "urn:ietf:params:oauth:client-assertion-type:jwt-bearer".
Definition errInvalidClient : goerr := ENew "invalid client".

(** internal/workload. *)
Definition workload_ErrUnavailable : goerr := ENew "workload: issuer unavailable".
Definition ClockSkew : Z := 300 * second.

(** [url.QueryUnescape]. *)
Definition hex_value (b : byte) : option Z :=
  if Credentials.digit_byte b then Some (byteZ b - 48)
  else if Credentials.between 97 102 b then Some (byteZ b - 87)
  else if Credentials.between 65 70 b then Some (byteZ b - 55)
  else None.

Fixpoint unescape_bytes (l : list byte) : option (list byte) :=
  match l with
  | [] => Some []
  | "%"%char :: h :: o :: l' =>
      match hex_value h, hex_value o with
      | Some h, Some o => (fun r => Zbyte (16 * h + o) :: r) <$> unescape_bytes l'
      | _, _ => None
      end
  | c :: l' =>
      if Ascii.eqb c "%" then None
      else (fun r => (if Ascii.eqb c "+" then " "%char else c) :: r) <$> unescape_bytes l'
  end.
Definition QueryUnescape (s : string) : option string := string_of <$> unescape_bytes (bytes_of s).

Section Server.
Context `{lower : UnicodeLower} `{quote : UnicodeQuote} `{ed : Token.Ed25519} `{urls : UrlParse} `{cedar : Authz.Decide.Cedar} `{web : Web}.
Context `{urlp : Identity.UrlParser}.
Context (a : api).

Definition noStore : prog unit := _ ← ask (SetHeader "Cache-Control" "no-store"); Ret tt.

Definition writeOAuthError (status : Z) (code description : string) : prog unit :=
  _ ← noStore;
  _ ← ask (SetHeader "Pragma" "no-cache");
  _ ← (if status =? 401 then _ ← ask (SetHeader "WWW-Authenticate" ("Basic realm=" +:+ Quote "mishmesh")); Ret tt else Ret tt);
  writeJSON status (JObject (("error", JText code) :: (if bool_decide (description = "") then [] else [("error_description", JText description)]))).

Definition oauthFail {A} (status : Z) (code description : string) : prog (option A) := _ ← writeOAuthError status code description; Ret None.
Definition clientFailed {A} : prog (option A) := oauthFail 401 "invalid_client" "client authentication failed".
Definition unavailableOAuth {A} : prog (option A) := oauthFail 503 "temporarily_unavailable" "".
Definition slowDown : prog unit := writeOAuthError 429 "slow_down" "too many attempts".

Definition writeTokenResponse (issued : Identity.Issued) : prog unit :=
  _ ← noStore;
  _ ← ask (SetHeader "Pragma" "no-cache");
  writeJSON 200 (JObject [("access_token", JBytes (Identity.is_Token issued)); ("token_type", JText "Bearer");
                          ("expires_in", JNum (Z.quot (Identity.is_ExpiresIn issued) second))]).

(** ** Clients (oauth.go) *)
Definition readClientCredentials (r : request) : option (string * string) :=
  match r_BasicAuth r with
  | Some (basicID, basicSecret) =>
      if negb (bool_decide (form r "client_secret" = "")) then None
      else
        match QueryUnescape basicID, QueryUnescape basicSecret with
        | Some id, Some secret =>
            if negb (bool_decide (form r "client_id" = "")) && negb (bool_decide (form r "client_id" = id)) then None else Some (id, secret)
        | _, _ => None
        end
  | None => Some (form r "client_id", form r "client_secret")
  end.

Definition authenticateClient (id secret : string) : prog (res ServiceAccount) :=
  x ← ask (GetServiceAccountByClientID id);
  Ret match x with
      | Fail err => if errIs err ErrNotFound then Fail errInvalidClient else Fail err
      | Ok sa =>
          if bool_decide (secret = "") || negb (bool_decide (Identity.HashToken secret = sa_SecretHash sa)) || sa_Disabled sa
          then Fail errInvalidClient else Ok sa
      end.

Definition serviceAccountRequest (sa : ServiceAccount) (method : string) : Identity.IssueRequest :=
  Identity.mkIssueRequest "" (sa_OrgID sa) (Authz.Decision.mkRef Authz.Decision.EntityServiceAccount (sa_ID sa)) TypeAccess method 0 accessTokenTTL "" "".

Definition issueServiceAccountToken (sa : ServiceAccount) (method : string) : prog unit :=
  x ← (ask (Ident (Identity.CIssue (serviceAccountRequest sa method))) : prog (res Identity.Issued));
  match x with
  | Fail _ => writeOAuthError 503 "temporarily_unavailable" ""
  | Ok issued =>
      _ ← auditAs (sa_OrgID sa) ("service_account:" +:+ sa_ID sa) "oauth.token" (sa_ID sa) method;
      writeTokenResponse issued
  end.

(** ** Workloads (oauth_workload.go) *)
Fixpoint matchIdentity (claims : workloadClaims) (found : option WorkloadIdentity) (trusted : list WorkloadIdentity) : option WorkloadIdentity :=
  match trusted with
  | [] => found
  | t :: trusted' =>
      if negb (bool_decide (wi_Subject t = wc_Subject claims)) || negb (bool_decide (wi_Audience t ∈ wc_Audience claims))
      then matchIdentity claims found trusted'
      else
        match found with
        | Some m => if bool_decide (wi_ServiceAccountID m = wi_ServiceAccountID t) then matchIdentity claims (Some t) trusted' else None
        | None => matchIdentity claims (Some t) trusted'
        end
  end.

Definition namedTrust (r : request) (trusted : list WorkloadIdentity) : prog (option (list WorkloadIdentity)) :=
  let clientID := form r "client_id" in
  if bool_decide (clientID = "") then Ret (Some trusted)
  else
    x ← ask (GetServiceAccountByClientID clientID);
    match x with
    | Fail err => if errIs err ErrNotFound then clientFailed else unavailableOAuth
    | Ok named => Ret (Some (filter (fun t => wi_ServiceAccountID t = sa_ID named /\ wi_OrgID t = sa_OrgID named) trusted))
    end.

Definition matchWorkloadServiceAccount (r : request) (trusted : list WorkloadIdentity) (claims : workloadClaims) : prog (option ServiceAccount) :=
  x ← namedTrust r trusted;
  match x with
  | None => Ret None
  | Some trusted =>
      match matchIdentity claims None trusted with
      | None => clientFailed
      | Some m =>
          x ← ask (GetServiceAccount (wi_OrgID m) (wi_ServiceAccountID m));
          match x with
          | Fail err => if errIs err ErrNotFound then clientFailed else unavailableOAuth
          | Ok sa => if sa_Disabled sa then clientFailed else Ret (Some sa)
          end
      end
  end.

(** The key an assertion is claimed under. *)
Definition assertionKey (claims : workloadClaims) : string :=
  "wif-jti:" +:+ string_of (Token.hex_bytes (Token.Sum256 (bytes_of (wc_Issuer claims) ++ Zbyte 0 :: bytes_of (wc_ID claims)))).

Definition claimAssertionOnce (claims : workloadClaims) : prog (option unit) :=
  now ← ask Now;
  x ← ask (ClaimOnce (assertionKey claims) (wc_Expiry claims - now + ClockSkew));
  match x with
  | Fail _ => unavailableOAuth
  | Ok fresh => if fresh : bool then Ret (Some tt) else oauthFail 401 "invalid_client" "assertion already used"
  end.

(** An assertion of a trusted issuer, verified. *)
Definition verifiedClaims (r : request) (issuer : string) : prog (option (list WorkloadIdentity * workloadClaims)) :=
  x ← ask (ListWorkloadIdentitiesByIssuer issuer);
  match x with
  | Fail _ => unavailableOAuth
  | Ok [] => clientFailed
  | Ok trusted =>
      x ← ask (VerifyAssertion (form r "client_assertion") issuer);
      match x with
      | Fail err => if errIs err workload_ErrUnavailable then unavailableOAuth else clientFailed
      | Ok claims => Ret (Some (trusted, claims))
      end
  end.

Definition workloadAssertionGrant (r : request) : prog unit :=
  if negb (has_workload a) then writeOAuthError 400 "invalid_request" "client assertions are not supported"
  else if negb (bool_decide (form r "client_assertion_type" = jwtBearerAssertionType))
  then writeOAuthError 400 "invalid_request" "unsupported client_assertion_type"
  else if ApiPeople.is_some (r_BasicAuth r) || negb (bool_decide (form r "client_secret" = ""))
  then writeOAuthError 400 "invalid_request" "use exactly one client authentication method"
  else
    x ← ask (UnverifiedIssuer (form r "client_assertion"));
    match x with
    | Fail _ => writeOAuthError 401 "invalid_client" "client authentication failed"
    | Ok issuer =>
        ok ← authRateAllowed a r ("wif:" +:+ issuer);
        if negb ok then _ ← ask (SetHeader "Retry-After" "12"); slowDown
        else
          need verified := verifiedClaims r issuer in
          need sa := matchWorkloadServiceAccount r verified.1 verified.2 in
          need _ := claimAssertionOnce verified.2 in
          issueServiceAccountToken sa AuthMethodWorkloadIdentity
    end.

Definition formHas (r : request) (k : string) : bool := ApiPeople.is_some (default ∅ (r_PostForm r) !! k).

Definition clientCredentialsGrant (r : request) : prog unit :=
  if formHas r "client_assertion_type" || formHas r "client_assertion" then workloadAssertionGrant r
  else
    match readClientCredentials r with
    | None => writeOAuthError 400 "invalid_request" "use exactly one client authentication method"
    | Some (id, secret) =>
        if bool_decide (id = "") then writeOAuthError 401 "invalid_client" "client authentication failed"
        else
          ok ← authRateAllowed a r ("client:" +:+ id);
          if negb ok then _ ← ask (SetHeader "Retry-After" "12"); slowDown
          else
            x ← authenticateClient id secret;
            match x with
            | Fail err =>
                if errIs err errInvalidClient then writeOAuthError 401 "invalid_client" "client authentication failed"
                else writeOAuthError 503 "temporarily_unavailable" ""
            | Ok sa => issueServiceAccountToken sa AuthMethodClientCredentials
            end
    end.

Definition control_rune (l : list byte) : bool :=
  match l with
  | c :: d :: _ => Credentials.between 0 31 c || (byteZ c =? 127) || ((byteZ c =? 194) && Credentials.between 128 159 d)
  | [c] => Credentials.between 0 31 c || (byteZ c =? 127)
  | [] => false
  end.
Fixpoint has_control (l : list byte) : bool := match l with [] => false | _ :: l' => control_rune l || has_control l' end.
Definition validWorkloadText (s : string) (max : Z) : bool :=
  negb (bool_decide (s = "")) && (slen s <=? max) && negb (has_control (bytes_of s)).

Definition toWorkloadIdentityDTO (w : WorkloadIdentity) : jv :=
  JObject [("id", JText (wi_ID w)); ("service_account_id", JText (wi_ServiceAccountID w)); ("issuer", JText (wi_Issuer w));
           ("audience", JText (wi_Audience w)); ("subject", JText (wi_Subject w)); ("created_at", JTime (wi_CreatedAt w))].

Definition listWorkloadIdentitiesHandler (r : request) : prog unit :=
  need sa := ApiResources.scopedServiceAccount r in
  l ← ask (ListWorkloadIdentities (sa_OrgID sa) (sa_ID sa));
  writeList l (fun w => Ret (toWorkloadIdentityDTO w)).

Definition createWorkloadIdentityHandler (r : request) : prog unit :=
  if negb (has_workload a) then writeError 503 "workload identity federation is not configured"
  else
    need req := decodeJSON r ["issuer"; "audience"; "subject"] InWorkload in
    ok ← ask (ValidIssuer (wk_Issuer req));
    if negb ok then writeError 400 "issuer must be an https URL without query, fragment, credentials or trailing slash"
    else if negb (validWorkloadText (wk_Audience req) 256) || negb (validWorkloadText (wk_Subject req) 512)
    then writeError 400 "audience (1-256) and subject (1-512) are required and must not contain control characters"
    else
      need sa := ApiResources.scopedServiceAccount r in
      id ← NewID "wid";
      now ← ask Now;
      let wi := mkWorkloadIdentity id (sa_OrgID sa) (sa_ID sa) (wk_Issuer req) (wk_Audience req) (wk_Subject req) now in
      err ← ask (CreateWorkloadIdentity wi);
      need _ := passed (handleStoreErr err "workload identity already exists for this issuer and subject") in
      _ ← audit r "workload_identity.create" (sa_ID sa) (wi_ID wi);
      writeJSON 201 (toWorkloadIdentityDTO wi).

Definition deleteWorkloadIdentityHandler (r : request) : prog unit :=
  err ← ask (DeleteWorkloadIdentity (orgScope r) (path r "id") (path r "wid"));
  need _ := passed (handleErr err) in
  _ ← audit r "workload_identity.delete" (path r "id") (path r "wid");
  noContent.

(** ** Users who log an agent in (oauth_agent.go) *)
Definition agentLoginOrg (su : sessionUser) (requested : string) : prog (res string) :=
  let orgID := if bool_decide (requested = "") then su_orgID su else requested in
  x ← ask (GetMembership orgID (u_ID (su_user su)));
  Ret match x with
      | Fail err => if errIs err ErrNotFound then Fail ErrNotFound else Fail err
      | Ok m => if ApiPeople.is_some (m_DisabledAt m) then Fail ErrNotFound else Ok orgID
      end.

Definition authorizeFail (r : request) (code : string) : prog unit :=
  _ ← noStore;
  ask (Write 302 (Redirect (query r "redirect_uri" +:+ "?" +:+
    Identity.Encode (("error", code) :: (if bool_decide (query r "state" = "") then [] else [("state", query r "state")]))))).

Definition startConsent (r : request) (su : sessionUser) (orgID : string) : prog unit :=
  x ← (ask (Ident (Identity.CStartConsent (Identity.mkLogin orgID (u_ID (su_user su)) (su_authMethod su) (su_authTime su)
                                             (query r "code_challenge") (query r "redirect_uri")) (query r "state"))) : prog (res string));
  match x with
  | Fail _ => writeStoreUnavailable
  | Ok consentID =>
      _ ← noStore;
      _ ← ask (SetHeader "Referrer-Policy" "no-referrer");
      ask (Write 302 (Redirect ("/consent?" +:+ Identity.Encode [("request", consentID)])))
  end.

Definition oauthAuthorizeHandler (r : request) : prog unit :=
  if negb (has_identity a) || negb (authEnabled a) then writeError 503 "agent login unavailable"
  else if negb (bool_decide (query r "client_id" = Identity.AgentClientID)) || negb (Identity.LoopbackRedirect (query r "redirect_uri"))
  then writeError 400 "unknown client or redirect_uri"
  else if negb (bool_decide (query r "response_type" = "code")) then authorizeFail r "unsupported_response_type"
  else if negb (Identity.ValidState (query r "state")) || negb (bool_decide (query r "code_challenge_method" = "S256"))
          || negb (Identity.ValidCodeChallenge (query r "code_challenge"))
  then authorizeFail r "invalid_request"
  else
    s ← lookupSession r;
    match s with
    | Fail err => if errIs err errNoSession then ApiEndpoints.loginRedirect a r else writeStoreUnavailable
    | Ok su =>
        ok ← authRateAllowed a r ("authorize:" +:+ u_ID (su_user su));
        if negb ok then _ ← ask (SetHeader "Retry-After" "12"); writeError 429 "too many attempts"
        else
          o ← agentLoginOrg su (query r "org_id");
          match o with
          | Fail err => if errIs err ErrNotFound then authorizeFail r "access_denied" else writeStoreUnavailable
          | Ok orgID => startConsent r su orgID
          end
    end.

Definition loginRateAllowed (r : request) (su : sessionUser) (guessable : bool) : prog bool :=
  let rateKey := if guessable then "device:" +:+ u_ID (su_user su) else "" in
  ok ← authRateAllowed a r rateKey;
  if ok && guessable then subjectRateAllowed rateKey else Ret ok.

Definition agentLoginSession (r : request) (guessable : bool) : prog (option sessionUser) :=
  if negb (has_identity a) || negb (authEnabled a) then fail 503 "agent login unavailable"
  else
    s ← lookupSession r;
    match s with
    | Fail err => if errIs err errNoSession then fail 401 "not authenticated" else _ ← writeStoreUnavailable; Ret None
    | Ok su =>
        ok ← loginRateAllowed r su guessable;
        if ok : bool then _ ← noStore; Ret (Some su)
        else _ ← ask (SetHeader "Retry-After" "12"); fail 429 "too many attempts"
    end.

(** [agentLoginLookupFailed] for a value. *)
Definition lookedUp {A} (x : res A) : prog (option A) :=
  match x with
  | Ok v => Ret (Some v)
  | Fail err =>
      if errIs err Identity.ErrUnauthenticated || errIs err ErrNotFound then fail 404 "unknown or expired request"
      else _ ← writeStoreUnavailable; Ret None
  end.
Definition errRes (err : option goerr) : res unit := match err with Some e => Fail e | None => Ok tt end.

Definition consentLookupHandler (r : request) : prog unit :=
  need su := agentLoginSession r false in
  x ← (ask (Ident (Identity.CLookupConsent (path r "id") (u_ID (su_user su)))) : prog (res Identity.ConsentRequest));
  need req := lookedUp x in
  writeJSON 200 (JObject [("id", JText (Identity.cr_ID req)); ("client_id", JText (Identity.cr_ClientID req)); ("org_id", JText (Identity.cr_OrgID req));
    ("redirect_uri", JText (Identity.cr_RedirectURI req)); ("auth_method", JText (Identity.cr_AuthMethod req)); ("expires_at", JTime (Identity.cr_ExpiresAt req))]).

(** An approval needs the membership the login was started with. *)
Definition consentAllowed (su : sessionUser) (id : string) : prog (option unit) :=
  x ← (ask (Ident (Identity.CLookupConsent id (u_ID (su_user su)))) : prog (res Identity.ConsentRequest));
  y ← lookedUp x;
  match y with
  | None => Ret None
  | Some req => o ← agentLoginOrg su (Identity.cr_OrgID req); z ← lookedUp o; Ret (option_map (fun _ => tt) z)
  end.

Definition consentDecideHandler (r : request) : prog unit :=
  need su := agentLoginSession r false in
  need body := decodeJSON r ["approve"] InApprove in
  match body with
  | None => writeError 400 "approve is required"
  | Some approve =>
      let id := path r "id" in
      need _ := (if approve then consentAllowed su id else Ret (Some tt)) in
      x ← (ask (Ident (Identity.CDecideConsent id (u_ID (su_user su)) approve)) : prog (res (string * Identity.ConsentRequest)));
      need decided := lookedUp x in
      _ ← auditAs (Identity.cr_OrgID decided.2) (u_Email (su_user su)) (if approve then "oauth.authorize" else "oauth.consent_deny")
            Identity.AgentClientID (su_authMethod su);
      _ ← ask (SetHeader "Referrer-Policy" "no-referrer");
      writeJSON 200 (JObject [("redirect_to", JText decided.1)])
  end.

Definition deviceLookupHandler (r : request) : prog unit :=
  need _ := agentLoginSession r true in
  x ← (ask (Ident (Identity.CLookupDevice (query r "user_code"))) : prog (res Identity.DeviceRequest));
  need req := lookedUp x in
  writeJSON 200 (JObject [("user_code", JText (Identity.dr_UserCode req)); ("client_id", JText (Identity.dr_ClientID req));
                          ("expires_at", JTime (Identity.dr_ExpiresAt req))]).

Definition deviceDenyHandler (r : request) : prog unit :=
  need su := agentLoginSession r true in
  need code := decodeJSON r ["user_code"] InOne in
  err ← (ask (Ident (Identity.CDenyDevice code)) : prog (option goerr));
  need _ := lookedUp (errRes err) in
  _ ← auditAs (su_orgID su) (u_Email (su_user su)) "oauth.device_deny" Identity.AgentClientID (su_authMethod su);
  noContent.

(** The form of a request to the token server; a query is refused. *)
Definition badForm (r : request) : bool := negb (ApiPeople.is_some (r_PostForm r)) || negb (bool_decide (r_RawQuery r = "")).

Definition deviceAuthorizationHandler (r : request) : prog unit :=
  if negb (has_identity a) || negb (authEnabled a) then writeOAuthError 503 "temporarily_unavailable" "agent login unavailable"
  else if badForm r then writeOAuthError 400 "invalid_request" "parameters must be sent in the request body"
  else if negb (bool_decide (form r "client_id" = Identity.AgentClientID)) then writeOAuthError 401 "invalid_client" ""
  else
    ok ← authRateAllowed a r "";
    if negb ok then _ ← ask (SetHeader "Retry-After" "3"); slowDown
    else
      x ← (ask (Ident Identity.CStartDevice) : prog (res Identity.DeviceStart));
      match x with
      | Fail _ => writeOAuthError 503 "temporarily_unavailable" ""
      | Ok start =>
          let verification := apiPublicURL a +:+ "/device" in
          _ ← noStore;
          writeJSON 200 (JObject [("device_code", JText (Identity.DeviceCode start)); ("user_code", JText (Identity.UserCode start));
            ("verification_uri", JText verification);
            ("verification_uri_complete", JText (verification +:+ "?" +:+ Identity.Encode [("user_code", Identity.UserCode start)]));
            ("expires_in", JNum (Z.quot (Identity.ds_ExpiresIn start) second)); ("interval", JNum (Z.quot (Identity.ds_Interval start) second))])
      end.

Definition deviceApproveHandler (r : request) : prog unit :=
  need su := agentLoginSession r true in
  need req := decodeJSON r ["user_code"; "org_id"] InTwo in
  o ← agentLoginOrg su req.2;
  match o with
  | Fail err => if errIs err ErrNotFound then writeError 404 "not found" else writeStoreUnavailable
  | Ok orgID =>
      err ← (ask (Ident (Identity.CApproveDevice req.1 (Identity.mkLogin orgID (u_ID (su_user su)) (su_authMethod su) (su_authTime su) "" "")))
               : prog (option goerr));
      match err with
      | Some e => if errIs e Identity.ErrUnauthenticated then writeError 404 "unknown or expired code" else writeStoreUnavailable
      | None =>
          _ ← auditAs orgID (u_Email (su_user su)) "oauth.device_approve" Identity.AgentClientID (su_authMethod su);
          noContent
      end
  end.

(** ** Tokens of an agent's user *)
(** [agentGrantFailed] for a value. *)
Definition granted {A} (x : res A) : prog (option A) :=
  match x with
  | Ok v => Ret (Some v)
  | Fail err =>
      if errIs err Identity.ErrAuthorizationPending then oauthFail 400 "authorization_pending" ""
      else if errIs err Identity.ErrSlowDown then oauthFail 400 "slow_down" ""
      else if errIs err Identity.ErrExpiredCode then oauthFail 400 "expired_token" ""
      else if errIs err Identity.ErrAccessDenied then oauthFail 400 "access_denied" ""
      else if errIs err Identity.ErrUnauthenticated then oauthFail 400 "invalid_grant" ""
      else unavailableOAuth
  end.

Definition agentUserActive (orgID userID : string) : prog (res unit) :=
  x ← ask (GetMembership orgID userID);
  Ret match x with
      | Fail err => if errIs err ErrNotFound then Fail Identity.ErrUnauthenticated else Fail Identity.ErrUnavailable
      | Ok m => if ApiPeople.is_some (m_DisabledAt m) then Fail Identity.ErrUnauthenticated else Ok tt
      end.

Definition writeAgentTokens (t : Identity.AgentTokens) : prog unit :=
  _ ← noStore;
  _ ← ask (SetHeader "Pragma" "no-cache");
  writeJSON 200 (JObject [("access_token", JBytes (Identity.AccessToken t)); ("refresh_token", JBytes (Identity.RefreshToken t)); ("token_type", JText "Bearer");
    ("expires_in", JNum (Z.quot (Identity.ExpiresIn t) second)); ("org_id", JText (Sessions.OrgID (Identity.tk_Session t)))]).

Definition finishAgentLogin (r : request) (login : res Identity.AgentLogin) : prog unit :=
  need login := granted login in
  active ← agentUserActive (Identity.l_OrgID login) (Identity.l_UserID login);
  need _ := granted active in
  x ← (ask (Ident (Identity.CIssueAgentUser login)) : prog (res Identity.AgentTokens));
  need tokens := granted x in
  _ ← auditAs (Identity.l_OrgID login) ("user:" +:+ Identity.l_UserID login) "oauth.token" (Identity.l_UserID login) (form r "grant_type");
  writeAgentTokens tokens.

Definition refreshGrant (r : request) : prog unit :=
  x ← (ask (Ident (Identity.CRefreshAgentUser (bytes_of (form r "refresh_token")))) : prog (res Identity.AgentTokens));
  match x with
  | Fail err => need _ := granted (Fail err : res unit) in Ret tt
  | Ok tokens =>
      let s := Identity.tk_Session tokens in
      active ← agentUserActive (Sessions.OrgID s) (Sessions.SubjectID s);
      _ ← match active with
          | Fail err =>
              if errIs err Identity.ErrUnauthenticated
              then _ ← (ask (Ident (Identity.CRevokeSession (Sessions.ID s))) : prog (option goerr)); Ret tt else Ret tt
          | Ok _ => Ret tt
          end;
      need _ := granted active in
      _ ← auditAs (Sessions.OrgID s) ("user:" +:+ Sessions.SubjectID s) "oauth.token" (Sessions.SubjectID s) grantRefreshToken;
      writeAgentTokens tokens
  end.

Definition limited (r : request) (k : prog unit) : prog unit :=
  ok ← authRateAllowed a r ""; if negb ok then slowDown else k.

Definition agentGrant (r : request) : prog unit :=
  if negb (bool_decide (form r "client_id" = Identity.AgentClientID)) || negb (bool_decide (form r "client_secret" = ""))
     || negb (bool_decide (header r "Authorization" = ""))
  then writeOAuthError 401 "invalid_client" ""
  else if negb (authEnabled a) then writeOAuthError 400 "unauthorized_client" "agent login unavailable"
  else
    let grant := form r "grant_type" in
    if bool_decide (grant = grantAuthorizationCode) then
      limited r (x ← (ask (Ident (Identity.CRedeemAuthCode (form r "code") (form r "code_verifier") (form r "redirect_uri"))) : prog (res Identity.AgentLogin));
                 finishAgentLogin r x)
    else if bool_decide (grant = grantDeviceCode) then
      x ← (ask (Ident (Identity.CPollDevice (form r "device_code"))) : prog (res Identity.AgentLogin));
      finishAgentLogin r x
    else if bool_decide (grant = grantRefreshToken) then limited r (refreshGrant r)
    else Ret tt.

Definition oauthTokenHandler (r : request) : prog unit :=
  if negb (has_identity a) then writeOAuthError 503 "temporarily_unavailable" "token issuance not configured"
  else if negb (ApiPeople.is_some (r_PostForm r)) then writeOAuthError 400 "invalid_request" "malformed form body"
  else if negb (bool_decide (r_RawQuery r = "")) then writeOAuthError 400 "invalid_request" "parameters must be sent in the request body"
  else
    let grant := form r "grant_type" in
    if bool_decide (grant = grantClientCredentials) then clientCredentialsGrant r
    else if bool_decide (grant = "") then writeOAuthError 400 "invalid_request" "grant_type required"
    else if bool_decide (grant ∈ [grantAuthorizationCode; grantDeviceCode; grantRefreshToken]) then agentGrant r
    else writeOAuthError 400 "unsupported_grant_type" "".

Definition oauthRevokeHandler (r : request) : prog unit :=
  if negb (has_identity a) then writeOAuthError 503 "temporarily_unavailable" ""
  else if badForm r then writeOAuthError 400 "invalid_request" "parameters must be sent in the request body"
  else if negb (bool_decide (form r "client_id" = Identity.AgentClientID)) then writeOAuthError 401 "invalid_client" ""
  else
    err ← (ask (Ident (Identity.CRevokeToken (bytes_of (form r "token")))) : prog (option goerr));
    match err with
    | Some _ => writeOAuthError 503 "temporarily_unavailable" ""
    | None => _ ← noStore; ask (Write 200 NoBody)
    end.

Definition supportedGrants : list string :=
  grantClientCredentials :: (if authEnabled a then [grantAuthorizationCode; grantDeviceCode; grantRefreshToken] else []).
Definition tokenAuthMethods : list string :=
  ["client_secret_basic"; "client_secret_post"; "none"] ++ (if has_workload a then ["private_key_jwt"] else []).

Definition oauthMetadataHandler (r : request) : prog unit :=
  let base := apiPublicURL a in
  if bool_decide (base = "") || negb (has_identity a) then writeError 404 "not found"
  else writeJSON 200 (JObject [("issuer", JText base); ("token_endpoint", JText (base +:+ "/oauth2/token"));
    ("grant_types_supported", ApiResources.texts supportedGrants); ("token_endpoint_auth_methods_supported", ApiResources.texts tokenAuthMethods);
    ("authorization_endpoint", JText (base +:+ "/oauth2/authorize")); ("device_authorization_endpoint", JText (base +:+ "/oauth2/device_authorization"));
    ("revocation_endpoint", JText (base +:+ "/oauth2/revoke")); ("response_types_supported", ApiResources.texts ["code"]);
    ("code_challenge_methods_supported", ApiResources.texts ["S256"])]).

(** ** Requests made with a token (oauth.go) *)
Definition authorizeMachine (raw : string) : prog (option caller) :=
  x ← (ask (Ident (Identity.CAuthenticate (bytes_of raw) [TypeAccess])) : prog (res Identity.Principal));
  match x with
  | Fail err => if errIs err Identity.ErrUnavailable then _ ← writeStoreUnavailable; Ret None else fail 401 "unauthorized"
  | Ok p =>
      if negb (bool_decide (Authz.Decision.RefType (Identity.p_Ref p) = Authz.Decision.EntityServiceAccount)) then fail 401 "unauthorized"
      else
        x ← ask (GetServiceAccount (Identity.p_OrgID p) (Authz.Decision.RefID (Identity.p_Ref p)));
        match x with
        | Fail err => if errIs err ErrNotFound then fail 401 "unauthorized" else _ ← writeStoreUnavailable; Ret None
        | Ok sa =>
            if sa_Disabled sa then fail 401 "unauthorized"
            else Ret (Some (mkCaller (Identity.p_OrgID p) ("service_account:" +:+ sa_ID sa) (sa_Role sa) false Authz.Decision.EntityServiceAccount))
        end
  end.

Definition requireMachine (action : string) (h : request -> prog unit) (r : request) : prog unit :=
  let raw := Gateway.Bearer (header r "Authorization") in
  if negb (has_identity a) || negb (Token.LooksLikeToken (bytes_of raw)) then require a action h r
  else
    need c := authorizeMachine raw in
    let r := with_caller c r in
    ok ← permitted r action;
    if ok : bool then h r else writeError 403 ("permission denied: " +:+ action).
End Server.
End ApiOAuth.
