(* ===== verification/ApiRoutes.v ===== *)
(** * The control plane: its routes

    internal/controlplane: the table [routes] and [Register] of api.go, [registerAuthRoutes] of
    auth.go, [registerOAuthRoutes] and [registerAgentOAuthRoutes] of oauth.go and oauth_agent.go.
    The routes of services, connections, topology and reach-in are not here: their handlers are
    not modelled. *)
From S2P Require Import Prelude GoIO GoStrings GoNet DecryptScope Sessions Requirements Token Authz Prog Identity Calls ClientIP Cloudflare Endpoints Gateway Proxy EgressHandler Credentials Api ApiPeople ApiResources ApiEndpoints ApiOAuth.

Module ApiRoutes.
Import Calls Endpoints Api ApiPeople ApiResources ApiEndpoints ApiOAuth.
Local Open Scope Z_scope.

(** How a route is protected: [guard], [require] with an action, [csrfGuarded], or not at all. *)
Inductive protection :=
| Guarded
| Requires (action : string)
| SameSite
| Open_.

Record route := mkRoute { pattern : string; protected_by : protection; handler : request -> prog unit }.

Section Server.
Context `{lower : UnicodeLower} `{quote : UnicodeQuote} `{ed : Token.Ed25519} `{urls : UrlParse} `{cedar : Authz.Decide.Cedar} `{web : Web}.
Context `{neterr : Proxy.NetErrors} `{pem : Proxy.PemCerts} `{urlp : Identity.UrlParser}.
Context (a : api).

Definition serve (rt : route) : request -> prog unit :=
  match protected_by rt with
  | Guarded => guard a (handler rt)
  | Requires action => require a action (handler rt)
  | SameSite => csrfGuarded a (handler rt)
  | Open_ => handler rt
  end.

(** ** api.go *)
Definition health (r : request) : prog unit := writeJSON 200 (JObject [("status", JText "ok")]).

Definition domainRoutes : list route :=
  [mkRoute "GET /api/v1/domains" (Requires ActionEndpointRead) (listDomainsHandler a);
   mkRoute "POST /api/v1/domains" (Requires ActionEndpointWrite) (createDomainHandler a);
   mkRoute "POST /api/v1/domains/{id}/verify" (Requires ActionEndpointWrite) (verifyDomainHandler a);
   mkRoute "DELETE /api/v1/domains/{id}" (Requires ActionEndpointWrite) deleteDomainHandler].

Definition routes : list route :=
  [mkRoute "GET /api/v1/orgs" Guarded listOrgsHandler;
   mkRoute "POST /api/v1/orgs" Guarded (createOrgHandler a);
   mkRoute "GET /api/v1/orgs/{id}" Guarded getOrgHandler;

   mkRoute "GET /api/v1/members" (Requires ActionMemberRead) listMembersHandler;
   mkRoute "POST /api/v1/members" (Requires ActionMemberManage) addMemberHandler;
   mkRoute "PATCH /api/v1/members/{user_id}" (Requires ActionMemberManage) (updateMemberHandler a);
   mkRoute "DELETE /api/v1/members/{user_id}" (Requires ActionMemberManage) (removeMemberHandler a);
   mkRoute "GET /api/v1/invites" (Requires ActionMemberManage) listInvitesHandler;
   mkRoute "DELETE /api/v1/invites/{id}" (Requires ActionMemberManage) revokeInviteHandler;

   mkRoute "GET /api/v1/groups" (Requires ActionMemberRead) listGroupsHandler;
   mkRoute "POST /api/v1/groups" (Requires ActionMemberManage) createGroupHandler;
   mkRoute "GET /api/v1/groups/{id}" (Requires ActionMemberRead) getGroupHandler;
   mkRoute "PATCH /api/v1/groups/{id}" (Requires ActionMemberManage) renameGroupHandler;
   mkRoute "DELETE /api/v1/groups/{id}" (Requires ActionMemberManage) (deleteGroupHandler a);
   mkRoute "POST /api/v1/groups/{id}/members" (Requires ActionMemberManage) (addGroupMemberHandler a);
   mkRoute "DELETE /api/v1/groups/{id}/members/{type}/{member_id}" (Requires ActionMemberManage) (removeGroupMemberHandler a);

   mkRoute "POST /api/v1/agents" (Requires ActionAgentWrite) (createAgentHandler a);
   mkRoute "GET /api/v1/agents" (Requires ActionAgentRead) (listAgentsHandler a);
   mkRoute "GET /api/v1/agents/{id}" (Requires ActionAgentRead) (getAgentHandler a);
   mkRoute "PATCH /api/v1/agents/{id}" (Requires ActionAgentWrite) (patchAgentHandler a);
   mkRoute "DELETE /api/v1/agents/{id}" (Requires ActionAgentWrite) deleteAgentHandler;
   mkRoute "POST /api/v1/agents/{id}/rotate" (Requires ActionAgentWrite) (rotateTokenHandler a);
   mkRoute "POST /api/v1/agents/{id}/revoke" (Requires ActionAgentWrite) (revokeAgentHandler a);
   mkRoute "GET /api/v1/agents/{id}/endpoints" (Requires ActionEndpointRead) (listEndpointsHandler a);
   mkRoute "GET /api/v1/agents/{id}/tokens" (Requires ActionAgentRead) listTokensHandler;

   mkRoute "GET /api/v1/endpoints" (Requires ActionEndpointRead) (listOrgEndpointsHandler a);
   mkRoute "POST /api/v1/endpoints" (Requires ActionEndpointWrite) (createEndpointHandler a);
   mkRoute "GET /api/v1/endpoints/{id}" (Requires ActionEndpointRead) (getEndpointHandler a);
   mkRoute "PATCH /api/v1/endpoints/{id}" (Requires ActionEndpointWrite) (patchEndpointHandler a);
   mkRoute "DELETE /api/v1/endpoints/{id}" (Requires ActionEndpointWrite) (deleteEndpointHandler a);
   mkRoute "GET /api/v1/endpoints/{id}/sessions" (Requires ActionEndpointRead) (listEndpointSessionsHandler a);
   mkRoute "DELETE /api/v1/endpoints/{id}/sessions" (Requires ActionEndpointWrite) (revokeEndpointSessionsHandler a);
   mkRoute "DELETE /api/v1/endpoints/{id}/sessions/{session_id}" (Requires ActionEndpointWrite) (revokeEndpointSessionHandler a);

   mkRoute "GET /api/v1/quota" (Requires ActionQuotaRead) (getQuotaHandler a);
   mkRoute "PUT /api/v1/quota" (Requires ActionQuotaWrite) (putQuotaHandler a);

   mkRoute "GET /api/v1/audit" (Requires ActionAuditRead) listAuditHandler;
   mkRoute "GET /api/v1/access-log" (Requires ActionAuditRead) listAccessLogHandler;
   mkRoute "GET /api/v1/status" (Requires ActionStatusRead) (statusHandler a);

   mkRoute "GET /api/v1/service-accounts" (Requires ActionMemberRead) listServiceAccountsHandler;
   mkRoute "POST /api/v1/service-accounts" (Requires ActionMemberManage) createServiceAccountHandler;
   mkRoute "GET /api/v1/service-accounts/{id}" (Requires ActionMemberRead) getServiceAccountHandler;
   mkRoute "PATCH /api/v1/service-accounts/{id}" (Requires ActionMemberManage) (patchServiceAccountHandler a);
   mkRoute "DELETE /api/v1/service-accounts/{id}" (Requires ActionMemberManage) (deleteServiceAccountHandler a);
   mkRoute "POST /api/v1/service-accounts/{id}/rotate" (Requires ActionMemberManage) (rotateServiceAccountHandler a);
   mkRoute "GET /api/v1/service-accounts/{id}/workload-identities" (Requires ActionMemberRead) listWorkloadIdentitiesHandler;
   mkRoute "POST /api/v1/service-accounts/{id}/workload-identities" (Requires ActionMemberManage) (createWorkloadIdentityHandler a);
   mkRoute "DELETE /api/v1/service-accounts/{id}/workload-identities/{wid}" (Requires ActionMemberManage) deleteWorkloadIdentityHandler;

   mkRoute "GET /api/v1/policy" (Requires ActionPolicyRead) getPolicyHandler;
   mkRoute "PUT /api/v1/policy" (Requires ActionPolicyWrite) (putPolicyHandler a);
   mkRoute "GET /api/v1/secrets" (Requires ActionPolicyRead) listSecretsHandler;
   mkRoute "PUT /api/v1/secrets/{name}" (Requires ActionPolicyWrite) (putSecretHandler a);
   mkRoute "DELETE /api/v1/secrets/{name}" (Requires ActionPolicyWrite) (deleteSecretHandler a);
   mkRoute "GET /api/v1/egress/credentials" (Requires ActionPolicyRead) listEgressCredentialsHandler;
   mkRoute "GET /api/v1/egress/credentials/{name}" (Requires ActionPolicyRead) getEgressCredentialHandler;
   mkRoute "PUT /api/v1/egress/credentials/{name}" (Requires ActionPolicyWrite) (putEgressCredentialHandler a);
   mkRoute "DELETE /api/v1/egress/credentials/{name}" (Requires ActionPolicyWrite) (deleteEgressCredentialHandler a);
   mkRoute "GET /api/v1/egress/ca" (Requires ActionPolicyRead) (getEgressCAHandler a);
   mkRoute "GET /api/v1/egress/decrypt" (Requires ActionPolicyRead) getEgressDecryptHandler;
   mkRoute "PUT /api/v1/egress/decrypt" (Requires ActionPolicyWrite) (putEgressDecryptHandler a)]
  ++ (if domainVerification a then domainRoutes else []).

(** ** auth.go, oauth.go and oauth_agent.go *)
Definition authRoutes : list route :=
  [mkRoute "GET /api/v1/auth/config" Open_ (authConfigHandler a);
   mkRoute "POST /api/v1/auth/login" SameSite (loginHandler a);
   mkRoute "POST /api/v1/auth/logout" SameSite (logoutHandler a);
   mkRoute "GET /api/v1/auth/me" Open_ meHandler;
   mkRoute "POST /api/v1/auth/switch-org" SameSite (switchOrgHandler a);
   mkRoute "POST /api/v1/auth/accept-invite" SameSite (acceptInviteHandler a);
   mkRoute "POST /api/v1/auth/register" SameSite (registerHandler a);
   mkRoute "GET /api/v1/auth/google/start" Open_ (googleStartHandler a);
   mkRoute "GET /api/v1/auth/google/callback" Open_ (googleCallbackHandler a);
   mkRoute "GET /api/v1/auth/endpoint-login" Open_ (endpointLoginHandler a)].

Definition oauthRoutes : list route :=
  [mkRoute "POST /oauth2/token" Open_ (oauthTokenHandler a);
   mkRoute "GET /.well-known/oauth-authorization-server" Open_ (oauthMetadataHandler a);
   mkRoute "GET /oauth2/authorize" Open_ (oauthAuthorizeHandler a);
   mkRoute "POST /oauth2/device_authorization" Open_ (deviceAuthorizationHandler a);
   mkRoute "POST /oauth2/revoke" Open_ (oauthRevokeHandler a);
   mkRoute "GET /api/v1/auth/device" Open_ (deviceLookupHandler a);
   mkRoute "POST /api/v1/auth/device/approve" SameSite (deviceApproveHandler a);
   mkRoute "POST /api/v1/auth/device/deny" SameSite (deviceDenyHandler a);
   mkRoute "GET /api/v1/auth/consent/{id}" Open_ (consentLookupHandler a);
   mkRoute "POST /api/v1/auth/consent/{id}" SameSite (consentDecideHandler a)].

Definition Register : list route := mkRoute "GET /healthz" Open_ health :: authRoutes ++ oauthRoutes ++ routes.
End Server.
End ApiRoutes.
