(* ===== verification/ApiScope.v ===== *)
(** * The control plane: whose records a request reads and changes

    What a call of a handler may name ([concerns]) when the handler runs for a caller, and that
    the handlers of every route of [ApiRoutes.routes] keep to it. [honest] is what the data
    store promises of lookups by key. *)
From S2P Require Import Prelude GoIO GoStrings GoNet DecryptScope Sessions Requirements Token Authz Prog Identity Calls ClientIP Cloudflare Endpoints Gateway Proxy EgressHandler Credentials Api ApiPeople ApiResources ApiEndpoints ApiOAuth ApiRoutes.

Module ApiScope.
Import Calls Endpoints Api.
Local Open Scope Z_scope.

(** ** What the store promises *)

(** A record found by its key has that key; a list by organization or agent is of it. *)
Definition found {A} (P : A -> Prop) (x : res A) : Prop := match x with Ok v => P v | Fail _ => True end.

Definition honest (e : event) : Prop :=
  match projT1 e as q return answer q -> Prop with
  | GetOrg id => found (fun o => o_ID o = id)
  | GetAgent id => found (fun g => a_ID g = id)
  | GetEndpoint id => found (fun ep => ID ep = id)
  | GetUserByEmail email => found (fun u => u_Email u = email)
  | GetServiceAccount org id => found (fun sa => sa_OrgID sa = org /\ sa_ID sa = id)
  | GetGroup org id => found (fun g => g_OrgID g = org /\ g_ID g = id)
  | ListDomainsByOrg org => found (Forall (fun d => d_OrgID d = org))
  | _ => fun _ => True
  end (projT2 e).

(** ** What a call may name *)
Section Concerns.
Context (r : request) (E : list event).
Let org : string := orgScope r.

(** The caller's organization, or any for the operator. *)
Definition mine (o : string) : Prop := o = org \/ isAdmin r = true.
(** An agent and an endpoint that were looked up and found to be the caller's. *)
Definition own_agent (id : string) : Prop := exists g, ev (GetAgent id) (Ok g) ∈ E /\ mine (a_OrgID g).
Definition own_endpoint (id : string) : Prop := exists ep, ev (GetEndpoint id) (Ok ep) ∈ E /\ ep_OrgID ep = org.
(** An organization and an agent this request created. *)
Definition made (o : string) : Prop := exists og, ev (CreateOrg og) None ∈ E /\ o_ID og = o.
Definition new_agent (id : string) : Prop := exists g, ev (CreateAgent g) None ∈ E /\ a_ID g = id /\ mine (a_OrgID g).

(** The agent that serves an endpoint: the proxy, or one of the organization. *)
Definition own_server (id : string) : Prop :=
  id = Proxy.ProxyAgentID \/ exists g i, ev (GetAgent i) (Ok g) ∈ E /\ a_ID g = id /\ a_OrgID g = org.
Definition of_org (cs : list Connection) : Prop := Forall (fun c => cn_OrgID c = org) cs.

(** A member whose role is not above the caller's. *)
Definition not_above (user : string) : Prop :=
  exists m, ev (GetMembership org user) (Ok m) ∈ E /\ ApiPeople.roleRank (m_Role m) <= ApiPeople.roleRank (ApiPeople.callerRole r).

(** Tokens, users and sessions of the web interface are none of these handlers' business. *)
Definition concerns (q : req) : Prop :=
  match q with
  | CreateAgent g => mine (a_OrgID g)
  | UpdateAgent g => own_agent (a_ID g)
  | DeleteAgent id | RevokeTokensByAgent id | CloseAgent id | ListTokensByAgent id | ListEndpointsByAgent id => own_agent id
  | CreateToken t => own_agent (tk_AgentID t) \/ new_agent (tk_AgentID t)
  | RevokeToken id => exists ag ts t, own_agent ag /\ ev (ListTokensByAgent ag) (Ok ts) ∈ E /\ t ∈ ts /\ tk_ID t = id
  | CreateEndpoint ep cs =>
      ep_OrgID ep = org /\ of_org cs /\ own_server (AgentID ep)
  | UpdateEndpoint ep cs => ep_OrgID ep = org /\ of_org cs /\ own_endpoint (ID ep)
  | DeleteEndpoint id | UnbindEndpoint id | ForgetHealth id => own_endpoint id
  | BindEndpoint id _ => exists ep cs, ev (CreateEndpoint ep cs) None ∈ E /\ ID ep = id
  | SetDomainVerified id _ => exists ds d, ev (ListDomainsByOrg org) (Ok ds) ∈ E /\ d ∈ ds /\ d_ID d = id
  | TriggerConnection id => exists cs c, ev (ListConnections org) (Ok cs) ∈ E /\ c ∈ cs /\ cn_ID c = id
  | SetQuota q => qt_OrgID q = org \/ made (qt_OrgID q)
  | GetQuota o => mine o \/ made o
  | CreateMembership m => made (m_OrgID m)
  | CountAgents o => mine o
  | CreateDomain d => d_OrgID d = org
  | CreateGroup g => g_OrgID g = org
  | AddGroupMember m => gm_OrgID m = org
  | CreateServiceAccount sa | UpdateServiceAccount sa => sa_OrgID sa = org
  | CreateWorkloadIdentity w => wi_OrgID w = org
  | CreateInvite i => inv_OrgID i = org /\ ApiPeople.canGrant r (inv_Role i) = true
  | DemoteOrRemoveMembershipKeepingOwner o user role remove =>
      o = org /\ not_above user /\ (remove = false -> ApiPeople.canGrant r role = true)
  | SetMembershipDisabledKeepingOwner o user _ => o = org /\ not_above user
  | SetOrgPolicy p => op_OrgID p = org
  | PutEgressCredential c => EgressHandler.ec_OrgID c = org
  | SetOrgDecrypt d => od_OrgID d = org
  | AppendAudit e => au_OrgID e = org /\ au_Actor e = actor r
  | ListAgents o | ListEndpointsByOrg o | CountEndpoints o | GetDomain o _ | ListDomainsByOrg o | DeleteDomain o _
  | ListMembershipsByOrg o
  | GetGroup o _ | ListGroups o | RenameGroup o _ _ | DeleteGroup o _ | RemoveGroupMember o _ _ _ | ListGroupMembers o _
  | GetServiceAccount o _ | ListServiceAccounts o | DeleteServiceAccount o _ | ListWorkloadIdentities o _ | DeleteWorkloadIdentity o _ _
  | ListInvitesByOrg o | DeleteInvite o _ | DeleteUserSessions o _ | GetOrgPolicy o | ListOrgSecrets o | DeleteOrgSecret o _
  | GetEgressCredential o _ | ListEgressCredentials o | DeleteEgressCredential o _ | GetOrgDecrypt o | ListConnections o
  | ListAudit o _ | ListAccessEvents o _ | Usage o | OrgAuthorizer o | InvalidateAuthz o | VaultPut o _ _ | VaultDelete o _
  | EgressRoot o => o = org
  | Ident (Identity.CRevokeSubject o _) => o = org
  | Ident (Identity.CEndpointSessions o ep) | Ident (Identity.CRevokeEndpointSession o ep _) | Ident (Identity.CRevokeEndpointSessions o ep) =>
      o = org /\ own_endpoint ep
  | Ident _ | CreateUser _ | UpdateUser _ | CreateUserWithMembershipClaimingInvite _ _ | ClaimInviteCreatingMembership _ _ _
  | CreateSession _ | ClaimOnce _ _ | SetCookie _ => False
  | _ => True
  end.
End Concerns.

(** ** Stepping through handlers *)
Definition Q (r : request) (E : list event) (q : req) : Prop := Forall honest E -> concerns r E q.

Lemma honest_of {E q x} : Forall honest E -> ev q x ∈ E -> honest (ev q x).
Proof. rewrite Forall_forall. auto. Qed.

Lemma honest_prefix E E' : E `prefix_of` E' -> Forall honest E' -> Forall honest E.
Proof. intros [k ->] H. by apply Forall_app in H as [? _]. Qed.

Lemma own_agent_grows r E E' id : E `prefix_of` E' -> own_agent r E id -> own_agent r E' id.
Proof. intros HE (g & H & ?). exists g. split; [by eapply elem_of_prefix|done]. Qed.
Lemma own_endpoint_grows r E E' id : E `prefix_of` E' -> own_endpoint r E id -> own_endpoint r E' id.
Proof. intros HE (g & H & ?). exists g. split; [by eapply elem_of_prefix|done]. Qed.
Lemma made_grows E E' o : E `prefix_of` E' -> made E o -> made E' o.
Proof. intros HE (g & H & ?). exists g. split; [by eapply elem_of_prefix|done]. Qed.
Lemma new_agent_grows r E E' id : E `prefix_of` E' -> new_agent r E id -> new_agent r E' id.
Proof. intros HE (g & H & ?). exists g. split; [by eapply elem_of_prefix|done]. Qed.

Lemma own_server_grows r E E' id : E `prefix_of` E' -> own_server r E id -> own_server r E' id.
Proof. intros HE [?|(g & i & H & ?)]; [by left|]. right. exists g, i. split; [by eapply elem_of_prefix|done]. Qed.

Lemma not_above_grows r E E' user : E `prefix_of` E' -> not_above r E user -> not_above r E' user.
Proof. intros HE (m & H & ?). exists m. split; [by eapply elem_of_prefix|done]. Qed.

Lemma does_need {A} P E (m : prog (option A)) (f : A -> prog unit) R :
  does P E m R -> (forall E' x, E `prefix_of` E' -> R E' (Some x) -> does P E' (f x) (fun _ _ => True)) ->
  does P E (orReturn m f) (fun _ _ => True).
Proof. intros Hm Hf. eapply does_bind; [exact Hm|]. intros E' [x|] HE HR; [by apply Hf|by apply does_ret]. Qed.

(** After an answer the store never gives, nothing is claimed. *)
Lemma does_honest {A} r E (p : prog A) (R : list event -> A -> Prop) :
  (Forall honest E -> does (Q r) E p R) -> does (Q r) E p (fun E' x => Forall honest E' -> R E' x).
Proof.
  unfold does. enough (forall E1, E `prefix_of` E1 -> (Forall honest E1 -> obeys (Q r) (fun E' x => E `prefix_of` E' /\ R E' x) p E1) ->
    obeys (Q r) (fun E' x => E `prefix_of` E' /\ (Forall honest E' -> R E' x)) p E1) as H by (by apply H).
  induction p as [x|t|q k IH]; intros E1 HE; cbn [obeys]; intros H; [|done|].
  - split; [done|]. intros Hh. by apply H.
  - split; [intros Hh; by apply H|]. intros x. apply IH; [etrans; [exact HE|by eexists]|]. intros Hh.
    apply Forall_app in Hh as [Hh _]. by apply H.
Qed.

Lemma honestly {A} r E (p : prog A) : (Forall honest E -> does (Q r) E p (fun _ _ => True)) -> does (Q r) E p (fun _ _ => True).
Proof. intros H. eapply does_any, does_honest, H. Qed.

(** What is known of the log so far holds of a longer log. *)
Ltac grow_more HE := idtac.
Ltac grow HE :=
  lazymatch type of HE with
  | ?E `prefix_of` ?E' =>
      repeat match goal with
      | H : ev _ _ ∈ E |- _ => apply (elem_of_prefix _ _ _ HE) in H
      | H : own_agent _ E _ |- _ => apply (own_agent_grows _ _ _ _ HE) in H
      | H : own_endpoint _ E _ |- _ => apply (own_endpoint_grows _ _ _ _ HE) in H
      | H : own_server _ E _ |- _ => apply (own_server_grows _ _ _ _ HE) in H
      | H : not_above _ E _ |- _ => apply (not_above_grows _ _ _ _ HE) in H
      | H : made E _ |- _ => apply (made_grows _ _ _ HE) in H
      | H : new_agent _ E _ |- _ => apply (new_agent_grows _ _ _ _ HE) in H
      end; grow_more HE; clear HE
  end.

Lemma mine_org r : mine r (orgScope r).
Proof. by left. Qed.

Create HintDb scope.
Create HintDb api.
#[local] Hint Resolve mine_org conj or_introl or_intror : scope.
#[local] Hint Extern 1 (_ = _) => reflexivity : scope.
#[local] Hint Extern 2 (@eq string _ _) => solve [cbn; congruence] : scope api.
#[local] Hint Extern 2 (own_agent _ _ _) => (match goal with H : own_agent _ _ ?i, K : ?x = ?i |- own_agent _ _ ?x => rewrite K; exact H end) : scope api.
#[local] Hint Extern 2 (own_endpoint _ _ _) =>
  solve [try (match goal with K : ID ?y = _ |- own_endpoint _ _ (ID ?y) => rewrite K end); eexists; split; [eassumption|congruence]] : scope api.
#[local] Hint Extern 2 (exists _ _, _ /\ _ /\ _) => solve [do 2 eexists; split; [eassumption|]; split; [eassumption|reflexivity]] : scope.
#[local] Hint Extern 2 (mine _ _) => left : scope.

(** A call the rule permits as it stands. *)
Ltac permit := let Hh := fresh "Hh" in intros Hh; cbn [concerns]; first [exact I | eauto 3 with scope nocore].

Ltac head_of p := lazymatch p with ?f _ => head_of f | _ => p end.

(** What a part says of its result, once the result is known. *)
Ltac tidy HR :=
  cbn beta in HR; try (specialize (HR _ eq_refl)); try (specialize (HR eq_refl));
  repeat match type of HR with _ /\ _ => let H := fresh "H" in destruct HR as [H HR] end;
  lazymatch type of HR with _ = _ => try discriminate HR | _ => idtac end.

(** One step of the program, after its parts are known to behave ([api]). *)
Ltac step :=
  lazymatch goal with
  | |- does _ _ (Ret _) (fun _ _ => True) => apply does_ret; exact I
  | |- does _ _ (Ret _) _ => apply does_ret
  | |- does _ _ (Panic _) _ => apply does_panic
  | |- does _ _ (orReturn _ _) _ =>
      first [ eapply does_need; [solve [eauto 3 with api nocore]|]; let E' := fresh "E" in let x := fresh "x" in let HE := fresh "HE" in let HR := fresh "HR" in
              intros E' x HE HR; grow HE; tidy HR
            | apply (does_need _ _ _ _ (fun _ _ => True)); [|let E' := fresh "E" in let x := fresh "x" in let HE := fresh "HE" in intros E' x HE _; grow HE] ]
  | |- does _ _ (mbind _ (ask _)) _ =>
      apply does_ask_bind; [permit|let E' := fresh "E" in let x := fresh "x" in let HE := fresh "HE" in let Hx := fresh "Hx" in intros E' x HE Hx; grow HE]
  | |- does ?P ?E (ask ?q) _ => refine (does_any P E (@ask req answer q) _ (does_ask P E q _)); permit
  | |- does _ _ (mbind _ _) _ =>
      first [ eapply does_bind; [solve [eauto 3 with api nocore]|]; let E' := fresh "E" in let x := fresh "x" in let HE := fresh "HE" in let HR := fresh "HR" in
              intros E' x HE HR; grow HE; tidy HR
            | apply does_then; [|let E' := fresh "E" in let x := fresh "x" in let HE := fresh "HE" in intros E' x HE; grow HE] ]
  | |- does _ _ (match ?x with _ => _ end) _ => destruct x eqn:?
  | |- does _ _ ?p _ => first [ solve [eauto 3 with api nocore] | solve [eapply does_any; eauto 3 with api nocore] | let h := head_of p in unfold h; cbv beta ]
  end.
(** The keys of the records found. *)
Ltac learn H T :=
  lazymatch goal with
  | K : T |- _ => fail
  | |- _ => apply honestly; let Hh := fresh "Hh" in intros Hh; assert T by first [exact (honest_of Hh H)|exact (proj1 (honest_of Hh H))]; clear Hh
  end.
Ltac harvest :=
  match goal with
  | H : ev (GetAgent ?id) (Ok ?v) ∈ ?E |- does (Q _) ?E _ _ => learn H (a_ID v = id)
  | H : ev (GetEndpoint ?id) (Ok ?v) ∈ ?E |- does (Q _) ?E _ _ => learn H (ID v = id)
  | H : ev (GetServiceAccount ?org ?id) (Ok ?v) ∈ ?E |- does (Q _) ?E _ _ => learn H (sa_OrgID v = org)
  | H : ev (ListDomainsByOrg ?org) (Ok ?v) ∈ ?E |- does (Q _) ?E _ _ => learn H (Forall (fun d => d_OrgID d = org) v)
  end.
Ltac walk := repeat step.

(** ** Parts every handler uses *)
Section Parts.
Context `{lower : UnicodeLower} `{quote : UnicodeQuote} `{ed : Token.Ed25519} `{urls : UrlParse} `{cedar : Authz.Decide.Cedar} `{web : Web}.
Context `{neterr : Proxy.NetErrors} `{pem : Proxy.PemCerts} `{urlp : Identity.UrlParser}.
Context (a : api) (r : request).
Implicit Types E : list event.
Notation ok := (fun _ _ => True).

Lemma writeJSON_ok E s v : does (Q r) E (writeJSON s v) ok.
Proof. walk. Qed.
#[local] Hint Resolve writeJSON_ok : api.
Lemma writeError_ok E s v : does (Q r) E (writeError s v) ok.
Proof. walk. Qed.
#[local] Hint Resolve writeError_ok : api.
Lemma noContent_ok E : does (Q r) E noContent ok.
Proof. walk. Qed.
Lemma fail_ok {A} E s v : does (Q r) E (@fail A s v) (fun _ x => x = None).
Proof. eapply does_then; [walk|]. intros. by apply does_ret. Qed.
Lemma writeStoreUnavailable_ok E : does (Q r) E writeStoreUnavailable ok.
Proof. walk. Qed.
Lemma handleErr_ok E err : does (Q r) E (handleErr err) (fun _ b => b = false -> err = None).
Proof. destruct err as [e|]; [|by apply does_ret]. eapply does_then; [walk|]. intros. by apply does_ret. Qed.
#[local] Hint Resolve noContent_ok fail_ok writeStoreUnavailable_ok handleErr_ok : api.
Lemma handleStoreErr_ok E err m : does (Q r) E (handleStoreErr err m) (fun _ b => b = false -> err = None).
Proof. unfold handleStoreErr. destruct err as [e|]; [|by apply does_ret]. destruct (errIs _ _); [|eauto with api]. eapply does_then; [walk|]. intros. by apply does_ret. Qed.
Lemma checked_ok {A} E (x : res A) : does (Q r) E (checked x) (fun _ y => forall v, y = Some v -> x = Ok v).
Proof. destruct x as [v|e]; [apply does_ret; congruence|]. eapply does_then; [walk|]. intros. by apply does_ret. Qed.
#[local] Hint Resolve handleStoreErr_ok checked_ok : api.
Lemma passed_ok E b (P : Prop) : does (Q r) E b (fun _ x => x = false -> P) -> does (Q r) E (passed b) (fun _ x => forall u, x = Some u -> P).
Proof. intros Hb. eapply does_bind; [exact Hb|]. intros E' [|] _ HP; apply does_ret; [done|auto]. Qed.
Lemma decodeJSON_ok E keys i : does (Q r) E (decodeJSON r keys i) ok.
Proof. walk. Qed.
Lemma NewID_ok E p : does (Q r) E (NewID p) ok.
Proof. walk. Qed.
#[local] Hint Resolve passed_ok decodeJSON_ok NewID_ok : api.
Lemma audit_ok E x y z : does (Q r) E (audit r x y z) ok.
Proof. unfold audit, auditAs. walk. Qed.
#[local] Hint Resolve audit_ok : api.

Lemma writeList_ok {A} E (x : res (list A)) dto : (forall E v, does (Q r) E (dto v) ok) -> does (Q r) E (writeList x dto) ok.
Proof.
  intros Hd. unfold writeList. step. eapply does_then; [|intros; walk].
  by apply (does_each _ _ (fun _ => True)).
Qed.

Ltac walk ::= repeat first [harvest | lazymatch goal with |- does _ _ (writeList _ _) _ => apply writeList_ok; intros ? ?
  | |- does _ _ (each _ _) _ => apply (does_each _ _ (fun _ => True)); [done|done|intros ? ? _ _] end | step].

Lemma randomToken_ok E : does (Q r) E randomToken ok.
Proof. walk. Qed.
Lemma GenerateToken_ok E : does (Q r) E GenerateToken ok.
Proof. walk. Qed.
Lemma lookupSession_ok E : does (Q r) E (lookupSession r) ok.
Proof. walk. Qed.
Lemma flushDecisions_ok E o : does (Q r) E (flushDecisions a o) ok.
Proof. walk. Qed.
Lemma ranged_ok E l : does (Q r) E (ranged l) ok.
Proof. walk. Qed.
#[local] Hint Resolve randomToken_ok GenerateToken_ok lookupSession_ok flushDecisions_ok ranged_ok : api.
Lemma resolveSession_ok E : does (Q r) E (resolveSession r) ok.
Proof. walk. Qed.
#[local] Hint Resolve resolveSession_ok : api.

(** ** Records of the caller's organization *)
Lemma loadScoped_ok {A} E (get : prog (res A)) (orgOf : A -> string) (P : list event -> A -> Prop) :
  does (Q r) E get (fun E' x => forall v, x = Ok v -> orgOf v = orgScope r -> P E' v) -> (forall E1 E2 v, E1 `prefix_of` E2 -> P E1 v -> P E2 v) ->
  does (Q r) E (loadScoped r get orgOf) (fun E' y => forall v, y = Some v -> P E' v).
Proof.
  intros Hg Hm. eapply does_bind; [exact Hg|]. intros E1 x HE1 Hx. eapply does_bind; [apply checked_ok|]. intros E2 y HE2 Hy.
  destruct y as [v|]; [|by apply does_ret]. case_bool_decide as Ho.
  - apply does_ret. intros w [= <-]. eapply Hm; [exact HE2|]. auto.
  - eapply does_weaken; [|apply fail_ok]. cbn. intros ? ? _ -> v' [=].
Qed.

Lemma scopedAgent_ok E id :
  does (Q r) E (ApiResources.scopedAgent r id) (fun E' y => forall g, y = Some g -> own_agent r E' id /\ ev (GetAgent id) (Ok g) ∈ E').
Proof.
  apply (loadScoped_ok _ _ _ (fun E' g => own_agent r E' id /\ ev (GetAgent id) (Ok g) ∈ E')).
  - eapply does_weaken; [|apply (does_ask (Q r) E (GetAgent id)); permit]. cbn. intros E' x _ Hx v -> Ho. split; [|done]. exists v. split; [done|].
    destruct (isAdmin r) eqn:Ha; [right|left]; congruence.
  - intros E1 E2 v HE [H1 H2]. split; [by eapply own_agent_grows|by eapply elem_of_prefix].
Qed.

Lemma scopedEndpoint_ok E :
  does (Q r) E (ApiResources.scopedEndpoint r) (fun E' y => forall ep, y = Some ep -> ep_OrgID ep = orgScope r /\ ev (GetEndpoint (path r "id")) (Ok ep) ∈ E').
Proof.
  apply (loadScoped_ok _ _ _ (fun E' ep => ep_OrgID ep = orgScope r /\ ev (GetEndpoint (path r "id")) (Ok ep) ∈ E')).
  - eapply does_weaken; [|apply (does_ask (Q r) E (GetEndpoint (path r "id"))); permit]. cbn. by intros E' x _ Hx v -> Ho.
  - intros E1 E2 v HE [H1 H2]. split; [done|by eapply elem_of_prefix].
Qed.

Lemma scopedServiceAccount_ok E :
  does (Q r) E (ApiResources.scopedServiceAccount r)
    (fun E' y => forall sa, y = Some sa -> ev (GetServiceAccount (orgScope r) (path r "id")) (Ok sa) ∈ E').
Proof.
  eapply does_ask_bind; [permit|]. intros E1 x HE Hx. eapply does_weaken; [|apply checked_ok]. cbn. intros E2 y HE2 Hy sa Hsa.
  rewrite (Hy _ Hsa) in Hx. by eapply elem_of_prefix.
Qed.
#[local] Hint Resolve scopedAgent_ok scopedEndpoint_ok scopedServiceAccount_ok : api.

(** ** Agents *)
Lemma applyDefaultQuota_ok E o : made E o -> does (Q r) E (applyDefaultQuota a o) ok.
Proof. intros Hm. walk. Qed.

Lemma createOrg_ok E name : does (Q r) E (createOrg a name) (fun E' x => forall o, x = Ok o -> made E' (o_ID o)).
Proof.
  unfold createOrg. do 3 step. destruct x1 as [e|]; [by apply does_ret|]. eassert (made _ _) as Hm by (eexists; split; [exact Hx0|done]).
  eapply does_then; [by apply applyDefaultQuota_ok|]. intros E' _ HE. grow HE. apply does_ret. by intros o [= <-].
Qed.

(** The organization that is there has the id asked for; one that was created is the default. *)
Lemma ensureOrg_ok E id : does (Q r) E (ensureOrg a id)
  (fun E' x => forall o, x = Ok o -> Forall honest E' -> o_ID o = if bool_decide (id = "") then defaultOrgID else id).
Proof.
  unfold ensureOrg. set (id' := if bool_decide (id = "") then defaultOrgID else id). step. destruct x as [o|e].
  { apply does_ret. intros o' [= <-] Hh. exact (honest_of Hh Hx). }
  destruct (negb (errIs _ _)); [by apply does_ret|]. case_bool_decide as Hd; cbn [negb]; [|by apply does_ret].
  do 2 step. destruct x0 as [e'|].
  - step. apply does_ret. intros o'. destruct x0 as [o''|]; intros [= <-] Hh. rewrite Hd. exact (honest_of Hh Hx2).
  - eapply does_then; [apply applyDefaultQuota_ok; by eexists|]. intros E' _ HE. apply does_ret. by intros o' [= <-].
Qed.

Lemma orgScope_nonempty : orgScope r <> "".
Proof. unfold orgScope. repeat case_bool_decide; cbn; congruence || done. Qed.
#[local] Hint Resolve applyDefaultQuota_ok createOrg_ok ensureOrg_ok : api.

Lemma orgQuota_ok E o : mine r o -> does (Q r) E (ApiResources.orgQuota o) ok.
Proof. intros Ho. walk. Qed.
#[local] Hint Resolve orgQuota_ok : api.
Lemma enforceAgentQuota_ok E o : mine r o -> does (Q r) E (ApiResources.enforceAgentQuota o) ok.
Proof. intros Ho. walk. Qed.
#[local] Hint Resolve enforceAgentQuota_ok : api.

Lemma issueToken_own E g : own_agent r E (a_ID g) -> does (Q r) E (ApiResources.issueToken g) ok.
Proof. intros Hg. walk. Qed.
Lemma issueToken_new E g : new_agent r E (a_ID g) -> does (Q r) E (ApiResources.issueToken g) ok.
Proof. intros Hg. walk. Qed.
#[local] Hint Resolve issueToken_own issueToken_new : api.

Lemma createAgent_ok E orgID name : orgID <> "" -> mine r orgID -> does (Q r) E (ApiResources.createAgent a orgID name) ok.
Proof.
  intros Hne Hm. unfold ApiResources.createAgent. step. apply honestly. intros Hh. destruct x as [o|e]; [|walk].
  specialize (HR _ eq_refl Hh). rewrite bool_decide_eq_false_2 in HR by done. assert (mine r (o_ID o)) as Ho by congruence.
  step. destruct x as [e|]; [walk|]. do 3 step. destruct x1 as [e|]; [walk|].
  eassert (new_agent r _ _) as Hnew by (eexists; split; [exact Hx0|]; split; [done|exact Ho]). walk.
Qed.

Lemma closeAgentConn_ok E id : own_agent r E id -> does (Q r) E (ApiResources.closeAgentConn a id) ok.
Proof. intros H. walk. Qed.
#[local] Hint Resolve closeAgentConn_ok : api.

Lemma revoke_each_ok E ag all ts : own_agent r E ag -> ev (ListTokensByAgent ag) (Ok all) ∈ E -> ts ⊆ all -> does (Q r) E (ApiResources.revoke_each ts) ok.
Proof.
  revert E. induction ts as [|t ts IH]; intros E Ha Hl Hs; cbn [ApiResources.revoke_each]; [walk|].
  assert (ts ⊆ all) by set_solver. destruct (tk_RevokedAt t); [auto|]. apply does_ask_bind.
  - intros _. exists ag, all, t. set_solver.
  - intros E' x HE _. grow HE. destruct x; [walk|auto].
Qed.

Lemma rotateToken_ok E g : own_agent r E (a_ID g) -> does (Q r) E (ApiResources.rotateToken a g) ok.
Proof.
  intros H. unfold ApiResources.rotateToken. step. destruct x as [ts|e]; [|walk]. step. destruct x; [|walk].
  eapply does_then; [by eapply revoke_each_ok|]. intros E' x HE. grow HE. walk.
Qed.

Lemma revokeAgent_ok E id : own_agent r E id -> does (Q r) E (ApiResources.revokeAgent a id) ok.
Proof.
  intros H. unfold ApiResources.revokeAgent. step. apply honestly. intros Hh. destruct x as [g|e]; [|walk].
  pose proof (honest_of Hh Hx) as Hg. cbn in Hg. assert (own_agent r E0 (a_ID (ApiResources.with_status AgentRevoked g))) as Hown by (cbn; congruence).
  walk.
Qed.
#[local] Hint Resolve createAgent_ok rotateToken_ok revokeAgent_ok : api.

Lemma deleteAgent_ok E id : own_agent r E id -> does (Q r) E (ApiResources.deleteAgent id) ok.
Proof. intros H. walk. Qed.

Lemma updateAgent_ok E id name status : own_agent r E id -> does (Q r) E (ApiResources.updateAgent a id name status) ok.
Proof.
  intros H. unfold ApiResources.updateAgent. step. apply honestly. intros Hh. destruct x as [g|e]; [|walk].
  pose proof (honest_of Hh Hx) as Hg. cbn in Hg. destruct (negb _); [walk|]. set (g1 := if bool_decide (name = "") then _ else _).
  set (g2 := if _ || _ then _ else _). assert (own_agent r E0 (a_ID g2)) as Hown by (subst g2 g1; repeat case_match; cbn; congruence).
  walk.
Qed.

Lemma connected_ok E id : does (Q r) E (ApiResources.connected a id) ok.
Proof. walk. Qed.
#[local] Hint Resolve deleteAgent_ok updateAgent_ok connected_ok : api.
Lemma toAgentDTO_ok E g : does (Q r) E (ApiResources.toAgentDTO a g) ok.
Proof. walk. Qed.
#[local] Hint Resolve toAgentDTO_ok : api.

Lemma checkAgents_ok E o ids : does (Q r) E (ApiResources.checkAgents o ids) ok.
Proof. revert E. induction ids as [|id ids IH]; intros E; cbn [ApiResources.checkAgents]; walk; auto. Qed.

Lemma orgDomain_ok E : does (Q r) E (ApiResources.orgDomain r)
  (fun E' y => forall d, y = Some d -> exists ds, ev (ListDomainsByOrg (orgScope r)) (Ok ds) ∈ E' /\ d ∈ ds).
Proof.
  unfold ApiResources.orgDomain. step. eapply does_bind; [apply checked_ok|]. intros E' y HE HR. grow HE. destruct y as [ds|]; [|by apply does_ret].
  specialize (HR _ eq_refl) as ->. destruct (List.find _ ds) as [d|] eqn:Hf.
  - apply does_ret. intros d' [= <-]. exists ds. split; [done|]. apply List.find_some in Hf as [Hf _]. by apply list_elem_of_In.
  - eapply does_weaken; [|apply fail_ok]. cbn. by intros ? ? _ ->.
Qed.
#[local] Hint Resolve checkAgents_ok orgDomain_ok : api.

Lemma Validate_org c c' : Credentials.Validate c = Ok c' -> EgressHandler.ec_OrgID c' = EgressHandler.ec_OrgID c.
Proof. destruct c. unfold Credentials.Validate. repeat case_match; try discriminate. by intros [= <-]. Qed.

Ltac own_domain HR :=
  let ds := fresh "ds" in let Hd := fresh "Hd" in let Hi := fresh "Hi" in let Hh := fresh "Hh" in
  destruct HR as (ds & Hd & Hi); apply honestly; intros Hh; pose proof (proj1 (Forall_forall _ _) (honest_of Hh Hd) _ Hi) as Hdom; cbn in Hdom; clear Hh.

(** ** Handlers (ApiResources) *)
Lemma createAgentHandler_ok E : does (Q r) E (ApiResources.createAgentHandler a r) ok.
Proof.
  unfold ApiResources.createAgentHandler. step. cbv zeta. set (b := negb _ && negb _). destruct (b && _) eqn:Hb; [walk|].
  assert ((if b then x.2 else orgScope r) <> "" /\ mine r (if b then x.2 else orgScope r)) as [? ?].
  { pose proof orgScope_nonempty. subst b. unfold mine. repeat case_bool_decide; destruct (isAdmin r); cbn in *; auto; discriminate. }
  walk.
Qed.
Lemma listAgentsHandler_ok E : does (Q r) E (ApiResources.listAgentsHandler a r) ok.
Proof. unfold ApiResources.listAgentsHandler. walk. Qed.
Lemma getAgentHandler_ok E : does (Q r) E (ApiResources.getAgentHandler a r) ok.
Proof. unfold ApiResources.getAgentHandler. walk. Qed.
Lemma patchAgentHandler_ok E : does (Q r) E (ApiResources.patchAgentHandler a r) ok.
Proof. unfold ApiResources.patchAgentHandler. walk. Qed.
Lemma deleteAgentHandler_ok E : does (Q r) E (ApiResources.deleteAgentHandler r) ok.
Proof. unfold ApiResources.deleteAgentHandler. walk. Qed.
Lemma rotateTokenHandler_ok E : does (Q r) E (ApiResources.rotateTokenHandler a r) ok.
Proof. unfold ApiResources.rotateTokenHandler. walk. Qed.
Lemma revokeAgentHandler_ok E : does (Q r) E (ApiResources.revokeAgentHandler a r) ok.
Proof. unfold ApiResources.revokeAgentHandler. walk. Qed.
Lemma listTokensHandler_ok E : does (Q r) E (ApiResources.listTokensHandler r) ok.
Proof. unfold ApiResources.listTokensHandler. walk. Qed.
Lemma createServiceAccountHandler_ok E : does (Q r) E (ApiResources.createServiceAccountHandler r) ok.
Proof. unfold ApiResources.createServiceAccountHandler. walk. Qed.
Lemma listServiceAccountsHandler_ok E : does (Q r) E (ApiResources.listServiceAccountsHandler r) ok.
Proof. unfold ApiResources.listServiceAccountsHandler. walk. Qed.
Lemma getServiceAccountHandler_ok E : does (Q r) E (ApiResources.getServiceAccountHandler r) ok.
Proof. unfold ApiResources.getServiceAccountHandler. walk. Qed.
Lemma patchServiceAccountHandler_ok E : does (Q r) E (ApiResources.patchServiceAccountHandler a r) ok.
Proof. unfold ApiResources.patchServiceAccountHandler. walk. Qed.
Lemma rotateServiceAccountHandler_ok E : does (Q r) E (ApiResources.rotateServiceAccountHandler a r) ok.
Proof. unfold ApiResources.rotateServiceAccountHandler. walk. Qed.
Lemma deleteServiceAccountHandler_ok E : does (Q r) E (ApiResources.deleteServiceAccountHandler a r) ok.
Proof. unfold ApiResources.deleteServiceAccountHandler. walk. Qed.
Lemma getQuotaHandler_ok E : does (Q r) E (ApiResources.getQuotaHandler a r) ok.
Proof. unfold ApiResources.getQuotaHandler. walk. Qed.
Lemma putQuotaHandler_ok E : does (Q r) E (ApiResources.putQuotaHandler a r) ok.
Proof. unfold ApiResources.putQuotaHandler. walk. Qed.
Lemma listSecretsHandler_ok E : does (Q r) E (ApiResources.listSecretsHandler r) ok.
Proof. unfold ApiResources.listSecretsHandler. walk. Qed.
Lemma putSecretHandler_ok E : does (Q r) E (ApiResources.putSecretHandler a r) ok.
Proof. unfold ApiResources.putSecretHandler. walk. Qed.
Lemma deleteSecretHandler_ok E : does (Q r) E (ApiResources.deleteSecretHandler a r) ok.
Proof. unfold ApiResources.deleteSecretHandler. walk. Qed.
Lemma listEgressCredentialsHandler_ok E : does (Q r) E (ApiResources.listEgressCredentialsHandler r) ok.
Proof. unfold ApiResources.listEgressCredentialsHandler. walk. Qed.
Lemma getEgressCredentialHandler_ok E : does (Q r) E (ApiResources.getEgressCredentialHandler r) ok.
Proof. unfold ApiResources.getEgressCredentialHandler. walk. Qed.
Lemma putEgressCredentialHandler_ok E : does (Q r) E (ApiResources.putEgressCredentialHandler a r) ok.
Proof.
  unfold ApiResources.putEgressCredentialHandler. do 2 step. destruct (Credentials.Validate _) as [c|e] eqn:Hv; [|walk]. apply Validate_org in Hv. cbn in Hv. walk.
Qed.
Lemma deleteEgressCredentialHandler_ok E : does (Q r) E (ApiResources.deleteEgressCredentialHandler a r) ok.
Proof. unfold ApiResources.deleteEgressCredentialHandler. walk. Qed.
Lemma getEgressCAHandler_ok E : does (Q r) E (ApiResources.getEgressCAHandler a r) ok.
Proof. unfold ApiResources.getEgressCAHandler. walk. Qed.
Lemma getEgressDecryptHandler_ok E : does (Q r) E (ApiResources.getEgressDecryptHandler r) ok.
Proof. unfold ApiResources.getEgressDecryptHandler. walk. Qed.
Lemma putEgressDecryptHandler_ok E : does (Q r) E (ApiResources.putEgressDecryptHandler a r) ok.
Proof. unfold ApiResources.putEgressDecryptHandler. walk. Qed.
Lemma getPolicyHandler_ok E : does (Q r) E (ApiResources.getPolicyHandler r) ok.
Proof. unfold ApiResources.getPolicyHandler. walk. Qed.
Lemma putPolicyHandler_ok E : does (Q r) E (ApiResources.putPolicyHandler a r) ok.
Proof. unfold ApiResources.putPolicyHandler. walk. Qed.
Lemma listDomainsHandler_ok E : does (Q r) E (ApiResources.listDomainsHandler a r) ok.
Proof. unfold ApiResources.listDomainsHandler. walk. Qed.
Lemma createDomainHandler_ok E : does (Q r) E (ApiResources.createDomainHandler a r) ok.
Proof. unfold ApiResources.createDomainHandler. walk. Qed.
Lemma verifyDomainHandler_ok E : does (Q r) E (ApiResources.verifyDomainHandler a r) ok.
Proof. unfold ApiResources.verifyDomainHandler. step. own_domain HR. walk. Qed.
Lemma deleteDomainHandler_ok E : does (Q r) E (ApiResources.deleteDomainHandler r) ok.
Proof. unfold ApiResources.deleteDomainHandler. step. own_domain HR. walk. Qed.
Lemma listEndpointSessionsHandler_ok E : does (Q r) E (ApiResources.listEndpointSessionsHandler a r) ok.
Proof. unfold ApiResources.listEndpointSessionsHandler. walk. Qed.
Lemma revokeEndpointSessionHandler_ok E : does (Q r) E (ApiResources.revokeEndpointSessionHandler a r) ok.
Proof. unfold ApiResources.revokeEndpointSessionHandler. walk. Qed.
Lemma revokeEndpointSessionsHandler_ok E : does (Q r) E (ApiResources.revokeEndpointSessionsHandler a r) ok.
Proof. unfold ApiResources.revokeEndpointSessionsHandler. walk. Qed.
Lemma listAuditHandler_ok E : does (Q r) E (ApiResources.listAuditHandler r) ok.
Proof. unfold ApiResources.listAuditHandler. walk. Qed.
Lemma statusHandler_ok E : does (Q r) E (ApiResources.statusHandler a r) ok.
Proof. unfold ApiResources.statusHandler. walk. Qed.
Lemma listAccessLogHandler_ok E : does (Q r) E (ApiResources.listAccessLogHandler r) ok.
Proof. unfold ApiResources.listAccessLogHandler. walk. Qed.

Lemma orgs_of_ok E ms : does (Q r) E (ApiPeople.orgs_of ms) ok.
Proof. revert E. induction ms as [|m ms IH]; intros E; cbn [ApiPeople.orgs_of]; [walk|]. step. apply does_then; [apply IH|]. intros. walk. Qed.
#[local] Hint Resolve orgs_of_ok : api.

Lemma createInvite_ok E email role by_ : ApiPeople.canGrant r role = true -> does (Q r) E (ApiPeople.createInvite (orgScope r) email role by_) ok.
Proof. intros Hg. walk. Qed.

Lemma authorizeMemberChange_ok E user :
  does (Q r) E (ApiPeople.authorizeMemberChange r (orgScope r) user) (fun E' y => forall u, y = Some u -> not_above r E' user).
Proof.
  unfold ApiPeople.authorizeMemberChange. step. eapply does_bind; [apply checked_ok|]. intros E' y HE HR. grow HE. destruct y as [m|]; [|by apply does_ret].
  specialize (HR _ eq_refl) as ->. destruct (_ <? _) eqn:Hr; [eapply does_weaken; [|apply fail_ok]; cbn; by intros ? ? _ ->|].
  apply does_ret. intros _ _. exists m. split; [done|]. by apply Z.ltb_ge.
Qed.

Lemma role_of_patch_ok E req target :
  does (Q r) E (ApiPeople.role_of_patch r req target) (fun _ y => forall role, y = Some role -> is_Some (mp_Role req) -> ApiPeople.canGrant r role = true).
Proof.
  unfold ApiPeople.role_of_patch. destruct (mp_Role req) as [role|]; [|apply does_ret; by intros ? _ [? [=]]].
  destruct (negb (ApiPeople.validRole role)); [eapply does_weaken; [|apply fail_ok]; cbn; by intros ? ? _ ->|].
  destruct (ApiPeople.canGrant r role) eqn:Hg; cbn [negb]; [|eapply does_weaken; [|apply fail_ok]; cbn; by intros ? ? _ ->].
  apply does_ret. by intros ? [= <-].
Qed.

Lemma handleMemberChangeErr_ok E err : does (Q r) E (ApiPeople.handleMemberChangeErr err) (fun _ b => b = false -> err = None).
Proof.
  unfold ApiPeople.handleMemberChangeErr. destruct err as [e|]; [|by apply does_ret]. destruct (errIs _ _); [|eauto with api].
  eapply does_then; [walk|]. intros. by apply does_ret.
Qed.

Lemma revokeMemberAccess_ok E user : does (Q r) E (ApiPeople.revokeMemberAccess a (orgScope r) user) ok.
Proof. walk. Qed.
#[local] Hint Resolve createInvite_ok authorizeMemberChange_ok role_of_patch_ok handleMemberChangeErr_ok revokeMemberAccess_ok : api.

Lemma change_role_ok E user role b : not_above r E user -> (b = true -> ApiPeople.canGrant r role = true) ->
  does (Q r) E (ApiPeople.change_role a r (orgScope r) user role b) ok.
Proof. intros Hn Hb. unfold ApiPeople.change_role. destruct b; cbn [negb]; [|walk]. specialize (Hb eq_refl). walk. Qed.

Lemma change_disabled_ok E user b : not_above r E user -> does (Q r) E (ApiPeople.change_disabled a r (orgScope r) user b) ok.
Proof. intros Hn. walk. Qed.
#[local] Hint Resolve change_role_ok change_disabled_ok : api.

(** ** Handlers (ApiPeople) *)
Lemma createOrgHandler_ok E : does (Q r) E (ApiPeople.createOrgHandler a r) ok.
Proof.
  unfold ApiPeople.createOrgHandler. step. destruct (bool_decide _); [walk|]. do 2 step; [walk|].
  eapply does_bind; [apply createOrg_ok|]. intros E' o HE Hm. grow HE. destruct o as [o|e]; [|walk]. specialize (Hm _ eq_refl). walk.
Qed.
Lemma getOrgHandler_ok E : does (Q r) E (ApiPeople.getOrgHandler r) ok.
Proof. unfold ApiPeople.getOrgHandler. walk. Qed.
Lemma listOrgsHandler_ok E : does (Q r) E (ApiPeople.listOrgsHandler r) ok.
Proof. unfold ApiPeople.listOrgsHandler. walk. Qed.
Lemma listInvitesHandler_ok E : does (Q r) E (ApiPeople.listInvitesHandler r) ok.
Proof. unfold ApiPeople.listInvitesHandler. walk. Qed.
Lemma revokeInviteHandler_ok E : does (Q r) E (ApiPeople.revokeInviteHandler r) ok.
Proof. unfold ApiPeople.revokeInviteHandler. walk. Qed.
Lemma listMembersHandler_ok E : does (Q r) E (ApiPeople.listMembersHandler r) ok.
Proof. unfold ApiPeople.listMembersHandler. walk. Qed.
Lemma addMemberHandler_ok E : does (Q r) E (ApiPeople.addMemberHandler r) ok.
Proof.
  unfold ApiPeople.addMemberHandler. step. cbv zeta. do 2 (destruct (negb _); [walk|]). destruct (ApiPeople.canGrant r x.2) eqn:Hg; cbn [negb]; walk.
Qed.
Lemma updateMemberHandler_ok E : does (Q r) E (ApiPeople.updateMemberHandler a r) ok.
Proof.
  unfold ApiPeople.updateMemberHandler. do 2 step; [walk|]. do 3 step. cbv zeta. apply does_then; [walk|]. intros E' self HE. grow HE.
  destruct self; [walk|]. step. eapply does_need.
  - apply change_role_ok; [done|]. intros Hb. apply HR1. destruct (mp_Role x); [by eexists|done].
  - intros E5 y HE5 _. grow HE5. walk.
Qed.
Lemma removeMemberHandler_ok E : does (Q r) E (ApiPeople.removeMemberHandler a r) ok.
Proof.
  unfold ApiPeople.removeMemberHandler. step. step; [split; [done|]; split; [done|discriminate]|]. walk.
Qed.
Lemma listGroupsHandler_ok E : does (Q r) E (ApiPeople.listGroupsHandler r) ok.
Proof. unfold ApiPeople.listGroupsHandler. walk. Qed.
Lemma createGroupHandler_ok E : does (Q r) E (ApiPeople.createGroupHandler r) ok.
Proof. unfold ApiPeople.createGroupHandler. walk. Qed.
Lemma getGroupHandler_ok E : does (Q r) E (ApiPeople.getGroupHandler r) ok.
Proof. unfold ApiPeople.getGroupHandler. walk. Qed.
Lemma renameGroupHandler_ok E : does (Q r) E (ApiPeople.renameGroupHandler r) ok.
Proof. unfold ApiPeople.renameGroupHandler. walk. Qed.
Lemma deleteGroupHandler_ok E : does (Q r) E (ApiPeople.deleteGroupHandler a r) ok.
Proof. unfold ApiPeople.deleteGroupHandler. walk. Qed.
Lemma addGroupMemberHandler_ok E : does (Q r) E (ApiPeople.addGroupMemberHandler a r) ok.
Proof. unfold ApiPeople.addGroupMemberHandler. walk. Qed.
Lemma removeGroupMemberHandler_ok E : does (Q r) E (ApiPeople.removeGroupMemberHandler a r) ok.
Proof. unfold ApiPeople.removeGroupMemberHandler. walk. Qed.

(** ** Endpoints *)
Lemma triggerConnections_ok E : does (Q r) E (ApiEndpoints.triggerConnections a (orgScope r)) ok.
Proof.
  unfold ApiEndpoints.triggerConnections. destruct (negb _); [walk|]. step. destruct x as [cs|e]; [|walk].
  apply does_then; [|intros; walk]. apply (does_each _ _ (fun E => ev (ListConnections (orgScope r)) (Ok cs) ∈ E)); [done| |].
  - intros E1 E2 H HE. by eapply elem_of_prefix.
  - intros c E' Hc HE. walk.
Qed.

Lemma authorizeDomainBinding_ok E o d : does (Q r) E (ApiResources.authorizeDomainBinding a o d) ok.
Proof. walk. Qed.
#[local] Hint Resolve triggerConnections_ok authorizeDomainBinding_ok : api.

Lemma endpointChanged_ok E ep : ep_OrgID ep = orgScope r -> does (Q r) E (ApiEndpoints.endpointChanged a ep) ok.
Proof. intros Ho. unfold ApiEndpoints.endpointChanged, ApiEndpoints.invalidateIngressCaches. rewrite Ho. walk. Qed.
Lemma endpointRemoved_ok E ep : ep_OrgID ep = orgScope r -> own_endpoint r E (ID ep) -> does (Q r) E (ApiEndpoints.endpointRemoved a ep) ok.
Proof. intros Ho He. unfold ApiEndpoints.endpointRemoved, ApiEndpoints.invalidateIngressCaches. rewrite Ho. walk. Qed.

Lemma buildPolicy_ok E i e : does (Q r) E (ApiEndpoints.buildPolicy i e) ok.
Proof. walk. Qed.
Lemma checkAccess_ok E o pol prev c scope ref : does (Q r) E (ApiEndpoints.checkAccess a o pol prev c scope ref) ok.
Proof. walk. Qed.
Lemma toEndpointDTO_ok E ep : does (Q r) E (ApiEndpoints.toEndpointDTO a ep) ok.
Proof. walk. Qed.
Lemma previousAccess_ok E ep : does (Q r) E (ApiEndpoints.previousAccess a ep) ok.
Proof. walk. Qed.
#[local] Hint Resolve endpointChanged_ok endpointRemoved_ok buildPolicy_ok checkAccess_ok toEndpointDTO_ok previousAccess_ok : api.

Lemma validateAccess_ok E d k pol prev refs sc sh :
  does (Q r) E (ApiEndpoints.validateAccess a (orgScope r) d k pol prev refs sc sh) (fun _ x => forall y, x = Ok y -> of_org r y.2).
Proof.
  revert E sc sh. induction refs as [|ref refs IH]; intros E sc sh; cbn [ApiEndpoints.validateAccess].
  { apply does_ret. intros y [= <-]. constructor. }
  destruct (ApiEndpoints.NormalizeAccessPolicy _) as [p|e]; [|by apply does_ret]. destruct (registry a) as [reg|]; [|by apply does_ret].
  step. destruct x as [c|e]; [|by apply does_ret]. case_bool_decide as Hc; cbn [negb]; [|by apply does_ret].
  destruct (reg !! _) as [scope|]; [|by apply does_ret]. step. destruct x as [h|e]; [|by apply does_ret].
  destruct (_ || _); [by apply does_ret|]. apply does_then; [walk|]. intros E' err HE. destruct err; [by apply does_ret|].
  eapply does_bind; [apply IH|]. intros E3 y _ Hy. apply does_ret. intros z. destruct y as [[refs' cs]|]; intros [= <-].
  constructor; [done|]. exact (Hy _ eq_refl).
Qed.

Lemma ownService_ok E o id : does (Q r) E (ApiEndpoints.ownService o id) ok.
Proof. walk. Qed.

Lemma validateNetworkPolicy_ok E o d k pol prev : o = orgScope r ->
  does (Q r) E (ApiEndpoints.validateNetworkPolicy a o d k pol prev) (fun _ x => forall y, x = Ok y -> of_org r y.2).
Proof.
  intros ->. destruct pol as [p|]; cbn [ApiEndpoints.validateNetworkPolicy]; [|apply does_ret; by intros y [= <-]; constructor].
  eapply does_bind; [apply ownService_ok|]. intros E1 err _ _. destruct err; [by apply does_ret|].
  destruct (ApiEndpoints.NormalizeAccessPolicy _); [|by apply does_ret]. destruct (_ && _); [by apply does_ret|].
  eapply does_bind; [apply validateAccess_ok|]. intros E2 x _ Hx. apply does_ret. intros y. destruct x as [[refs cs]|]; intros [= <-]. exact (Hx _ eq_refl).
Qed.

Lemma badRequest_ok {A} E (x : res A) : does (Q r) E (ApiEndpoints.badRequest x) (fun _ y => forall v, y = Some v -> x = Ok v).
Proof. destruct x; [apply does_ret; congruence|]. eapply does_weaken; [|apply fail_ok]. cbn. by intros ? ? _ ->. Qed.

Lemma endpointAgent_ok E m id : does (Q r) E (ApiEndpoints.endpointAgent (orgScope r) m id) (fun E' y => forall v, y = Some v -> own_server r E' v).
Proof.
  unfold ApiEndpoints.endpointAgent. destruct (bool_decide _); [apply does_ret; intros v [= <-]; by left|].
  step. eapply does_bind; [apply checked_ok|]. intros E' y HE HR. grow HE. destruct y as [g|]; [|by apply does_ret].
  specialize (HR _ eq_refl) as ->. case_bool_decide as Ho; [apply does_ret; intros v [= <-]; right; by exists g, id|].
  eapply does_weaken; [|apply fail_ok]. cbn. by intros ? ? _ ->.
Qed.
#[local] Hint Resolve validateNetworkPolicy_ok badRequest_ok endpointAgent_ok : api.

(** ** Handlers (ApiOAuth, ApiEndpoints) *)
Lemma listWorkloadIdentitiesHandler_ok E : does (Q r) E (ApiOAuth.listWorkloadIdentitiesHandler r) ok.
Proof. unfold ApiOAuth.listWorkloadIdentitiesHandler. walk. Qed.
Lemma createWorkloadIdentityHandler_ok E : does (Q r) E (ApiOAuth.createWorkloadIdentityHandler a r) ok.
Proof. unfold ApiOAuth.createWorkloadIdentityHandler. walk. Qed.
Lemma deleteWorkloadIdentityHandler_ok E : does (Q r) E (ApiOAuth.deleteWorkloadIdentityHandler r) ok.
Proof. unfold ApiOAuth.deleteWorkloadIdentityHandler. walk. Qed.
Lemma listOrgEndpointsHandler_ok E : does (Q r) E (ApiEndpoints.listOrgEndpointsHandler a r) ok.
Proof. unfold ApiEndpoints.listOrgEndpointsHandler. walk. Qed.
Lemma listEndpointsHandler_ok E : does (Q r) E (ApiEndpoints.listEndpointsHandler a r) ok.
Proof. unfold ApiEndpoints.listEndpointsHandler. walk. Qed.
Lemma getEndpointHandler_ok E : does (Q r) E (ApiEndpoints.getEndpointHandler a r) ok.
Proof. unfold ApiEndpoints.getEndpointHandler. walk. Qed.
Lemma createEndpointHandler_ok E : does (Q r) E (ApiEndpoints.createEndpointHandler a r) ok.
Proof.
  unfold ApiEndpoints.createEndpointHandler. walk. all: cbn [ID ep_OrgID AgentID].
  - split; [done|]. split; [|done]. subst. auto.
  - subst. do 2 eexists. split; [eassumption|done].
Qed.
Lemma patchEndpointHandler_ok E : does (Q r) E (ApiEndpoints.patchEndpointHandler a r) ok.
Proof.
  unfold ApiEndpoints.patchEndpointHandler. walk. cbn [ID ep_OrgID]. subst. split; [done|]. split; [auto|]. eauto with scope nocore.
Qed.
Lemma deleteEndpointHandler_ok E : does (Q r) E (ApiEndpoints.deleteEndpointHandler a r) ok.
Proof. unfold ApiEndpoints.deleteEndpointHandler. walk. Qed.
#[local] Hint Resolve createAgentHandler_ok listAgentsHandler_ok getAgentHandler_ok patchAgentHandler_ok deleteAgentHandler_ok
  rotateTokenHandler_ok revokeAgentHandler_ok listTokensHandler_ok createServiceAccountHandler_ok listServiceAccountsHandler_ok
  getServiceAccountHandler_ok patchServiceAccountHandler_ok rotateServiceAccountHandler_ok deleteServiceAccountHandler_ok getQuotaHandler_ok
  putQuotaHandler_ok listSecretsHandler_ok putSecretHandler_ok deleteSecretHandler_ok listEgressCredentialsHandler_ok
  getEgressCredentialHandler_ok putEgressCredentialHandler_ok deleteEgressCredentialHandler_ok getEgressCAHandler_ok
  getEgressDecryptHandler_ok putEgressDecryptHandler_ok getPolicyHandler_ok putPolicyHandler_ok listDomainsHandler_ok createDomainHandler_ok
  verifyDomainHandler_ok deleteDomainHandler_ok listEndpointSessionsHandler_ok revokeEndpointSessionHandler_ok
  revokeEndpointSessionsHandler_ok listAuditHandler_ok statusHandler_ok listAccessLogHandler_ok createOrgHandler_ok getOrgHandler_ok
  listOrgsHandler_ok listInvitesHandler_ok revokeInviteHandler_ok listMembersHandler_ok addMemberHandler_ok updateMemberHandler_ok
  removeMemberHandler_ok listGroupsHandler_ok createGroupHandler_ok getGroupHandler_ok renameGroupHandler_ok deleteGroupHandler_ok
  addGroupMemberHandler_ok removeGroupMemberHandler_ok listWorkloadIdentitiesHandler_ok createWorkloadIdentityHandler_ok
  deleteWorkloadIdentityHandler_ok listOrgEndpointsHandler_ok listEndpointsHandler_ok getEndpointHandler_ok createEndpointHandler_ok
  patchEndpointHandler_ok deleteEndpointHandler_ok : api.

(** Every route keeps to the caller's organization. *)
Lemma routes_scoped rt E : rt ∈ ApiRoutes.routes a -> does (Q r) E (ApiRoutes.handler rt r) ok.
Proof.
  revert rt. apply Forall_forall. unfold ApiRoutes.routes. apply Forall_app. split.
  - repeat (apply Forall_cons; split; [cbn [ApiRoutes.handler]; eauto 2 with api nocore|]). constructor.
  - destruct (domainVerification a); [|constructor].
    repeat (apply Forall_cons; split; [cbn [ApiRoutes.handler]; eauto 2 with api nocore|]). constructor.
Qed.
End Parts.
End ApiScope.
