(* ===== verification/ApiAuthority.v ===== *)
(** * The control plane: who may make a request do anything

    Every call a route of [ApiRoutes.routes] makes comes after its caller was identified and
    its action permitted, and names records of the caller's organization ([ApiScope.concerns]);
    before that, a request only looks its session up, or is refused. *)
From S2P Require Import Prelude GoIO GoStrings GoNet DecryptScope Sessions Requirements Token Authz Prog Identity Calls ClientIP Cloudflare Endpoints Gateway Proxy EgressHandler Credentials Api ApiPeople ApiResources ApiEndpoints ApiOAuth ApiRoutes ApiScope.

Module ApiAuthority.
Import Calls Endpoints Api ApiScope.
Local Open Scope Z_scope.

Section Server.
Context `{lower : UnicodeLower} `{quote : UnicodeQuote} `{ed : Token.Ed25519} `{urls : UrlParse} `{cedar : Authz.Decide.Cedar} `{web : Web}.
Context `{neterr : Proxy.NetErrors} `{pem : Proxy.PemCerts} `{urlp : Identity.UrlParser}.
Context (a : api).
Implicit Types E : list event.
Notation ok := (fun _ _ => True).

(** ** Callers *)

(** The session of the request's cookie: stored, not expired, of a user whose membership is
    not disabled. *)
Definition session_of (r : request) E (su : sessionUser) : Prop :=
  exists raw sess now user m,
    r_Cookie r !! sessionCookie = Some raw /\ raw <> "" /\
    ev (GetSession (Identity.HashToken raw)) (Ok sess) ∈ E /\ ev Now now ∈ E /\ now <= ws_ExpiresAt sess /\
    ev (GetUserByID (ws_UserID sess)) (Ok user) ∈ E /\ ev (GetMembership (ws_OrgID sess) (u_ID user)) (Ok m) ∈ E /\ m_DisabledAt m = None /\
    su = mkSessionUser user (ws_OrgID sess) (m_Role m) (ws_IDHash sess) (ws_AuthMethod sess) (ws_CreatedAt sess).

(** The operator by the admin token, a user by a session in a request of the same site, and
    anyone where neither is configured. *)
Inductive identified (r : request) E : caller -> Prop :=
| by_token : adminToken a <> "" -> Gateway.Bearer (header r "Authorization") = adminToken a ->
    identified r E (mkCaller (queryOrg r) "admin" RoleOwner true "")
| by_session su : authEnabled a = true -> csrfCheck a r = None -> session_of r E su ->
    identified r E (mkCaller (su_orgID su) (u_Email (su_user su)) (su_role su) false "")
| unprotected : adminToken a = "" -> authEnabled a = false -> identified r E (mkCaller (queryOrg r) "system" RoleOwner true "").

(** The operator may do anything; others what the policy of their organization, as it was
    loaded, permits their role. *)
Definition allowed (r : request) E (action : string) : Prop :=
  isAdmin r = true \/
  action ∉ operatorOnlyActions /\
  exists x, ev (OrgAuthorizer (orgScope r)) x ∈ E /\
    Authorize match x with Ok az => az | Fail _ => WithOwner (orgScope r) DenyAll end
      (mkRolePrincipal (actor r) (c_kind (r_caller r)) (c_role (r_caller r)) (orgScope r)) action = true.

(** Calls made before the caller is known. *)
Definition preliminary (q : req) : Prop :=
  match q with
  | GetSession _ | Now | GetUserByID _ | GetMembership _ _ | DeleteSession _ | OrgAuthorizer _ | SetHeader _ _ => True
  | Write status _ => 400 <= status
  | _ => False
  end.

Definition authorized (rt : ApiRoutes.route) (r : request) E (q : req) : Prop :=
  exists c, identified r E c /\ (forall action, ApiRoutes.protected_by rt = ApiRoutes.Requires action -> allowed (with_caller c r) E action) /\
            concerns (with_caller c r) E q.

Definition guarded (rt : ApiRoutes.route) (r : request) E (q : req) : Prop := Forall honest E -> preliminary q \/ authorized rt r E q.

(** ** Proofs *)
Lemma session_of_grows r E E' su : E `prefix_of` E' -> session_of r E su -> session_of r E' su.
Proof.
  intros HE (raw & sess & now & user & m & ? & ? & ? & ? & ? & ? & ? & ? & ?). exists raw, sess, now, user, m.
  split_and!; try done; by eapply elem_of_prefix.
Qed.

Lemma identified_grows r E E' c : E `prefix_of` E' -> identified r E c -> identified r E' c.
Proof. intros HE [?|su|?]; [by apply by_token|apply by_session; [done..|by eapply session_of_grows]|by apply unprotected]. Qed.

Lemma allowed_grows r E E' action : E `prefix_of` E' -> allowed r E action -> allowed r E' action.
Proof. intros HE [?|(? & x & Hx & ?)]; [by left|]. right. split; [done|]. exists x. split; [by eapply elem_of_prefix|done]. Qed.

(** A rule that permits the preliminary calls. *)
Section Rule.
Context (P : list event -> req -> Prop) (HP : forall E q, preliminary q -> P E q).

Lemma refuse {A} E s m : 400 <= s -> does P E (@fail A s m) (fun _ x => x = None).
Proof. intros Hs. apply does_ask_bind; [by apply HP|]. intros. by apply does_ret. Qed.

Lemma refuse_unavailable E : does P E writeStoreUnavailable ok.
Proof. apply does_ask_bind; [by apply HP|]. intros E' x HE _. eapply (does_any _ _ (ask _)), does_ask. apply HP. by cbn. Qed.

Lemma lookupSession_finds r E : does P E (lookupSession r) (fun E' x => forall su, x = Ok su -> session_of r E' su).
Proof.
  unfold lookupSession. destruct (r_Cookie r !! sessionCookie) as [raw|] eqn:Hc; [|by apply does_ret].
  case_bool_decide as Hr; [by apply does_ret|]. apply does_ask_bind; [by apply HP|]. intros E1 s HE1 Hs. destruct s as [sess|e]; [|by apply does_ret].
  apply does_ask_bind; [by apply HP|]. intros E2 now HE2 Hn. destruct (_ <? _) eqn:Hexp.
  { apply does_ask_bind; [by apply HP|]. intros. by apply does_ret. }
  apply does_ask_bind; [by apply HP|]. intros E3 u HE3 Hu. destruct u as [user|e]; [|by apply does_ret].
  apply does_ask_bind; [by apply HP|]. intros E4 m HE4 Hm. apply does_ret. destruct m as [m|e]; [|done].
  destruct (m_DisabledAt m) eqn:Hd; [done|]. intros su [= <-]. apply Z.ltb_ge in Hexp.
  exists raw, sess, now, user, m. split_and!; try done; eauto using elem_of_prefix.
Qed.

Lemma authorize_identifies r E : does P E (authorize a r) (fun E' x => forall c, x = Some c -> identified r E' c).
Proof.
  assert (forall (m : prog (option caller)) E, does P E m (fun _ x => x = None) -> does P E m (fun E' x => forall c, x = Some c -> identified r E' c)) as Hno.
  { intros m E1. apply does_weaken. by intros ? ? _ ->. }
  unfold authorize. set (tok := Gateway.Bearer _). destruct (negb _ && negb _) eqn:Htok.
  { apply andb_prop in Htok as [Ht _]. apply negb_true_iff, bool_decide_eq_false_1 in Ht. case_bool_decide; [|by apply Hno, refuse].
    apply does_ret. intros c [= <-]. by apply by_token. }
  destruct (authEnabled a) eqn:Hauth.
  - destruct (csrfCheck a r) as [err|] eqn:Hcsrf.
    { eapply does_then; [|intros; by apply does_ret]. unfold writeCSRFError. eapply (does_any _ _ (ask _)), does_ask, HP. cbn. by destruct (errIs _ _). }
    eapply does_bind; [apply lookupSession_finds|]. intros E1 s HE1 Hs. destruct s as [su|err].
    + apply does_ret. intros c [= <-]. apply by_session; auto.
    + destruct (errIs _ _); [by apply Hno, refuse|]. eapply does_then; [apply refuse_unavailable|]. intros. by apply does_ret.
  - case_bool_decide as Ha; cbn [negb]; [|by apply Hno, refuse]. apply does_ret. intros c [= <-]. by apply unprotected.
Qed.

Lemma guard_identifies h r E :
  (forall c E', E `prefix_of` E' -> identified r E' c -> does P E' (h (with_caller c r)) ok) -> does P E (guard a h r) ok.
Proof. intros Hh. eapply does_need; [apply authorize_identifies|]. intros E' c HE Hc. apply Hh; auto. Qed.

Lemma permitted_allows r action E : does P E (permitted r action) (fun E' b => b = true -> allowed r E' action).
Proof.
  unfold permitted. destruct (isAdmin r) eqn:Ha; [apply does_ret; by left|]. case_bool_decide as Ho; [by apply does_ret|].
  unfold authorizerFor. eapply (does_bind _ _ _ _ _ (fun E' az => exists x, ev (OrgAuthorizer (orgScope r)) x ∈ E' /\
    az = match x with Ok az => az | Fail _ => WithOwner (orgScope r) DenyAll end)).
  - apply does_ask_bind; [by apply HP|]. intros E' x HE Hx. apply does_ret. by exists x.
  - intros E' az HE (x & Hx & ->). apply does_ret. intros Haz. right. split; [done|]. by exists x.
Qed.

Lemma require_permits action h r E :
  (forall c E', E `prefix_of` E' -> identified r E' c -> allowed (with_caller c r) E' action -> does P E' (h (with_caller c r)) ok) ->
  does P E (require a action h r) ok.
Proof.
  intros Hh. apply guard_identifies. intros c E1 HE1 Hc. eapply does_bind; [apply permitted_allows|]. intros E2 [|] HE2 Hal.
  - apply Hh; [by etrans|by eapply identified_grows|auto].
  - eapply (does_any _ _ (ask _)), does_ask, HP. by cbn.
Qed.
End Rule.

Lemma routes_protected rt : rt ∈ ApiRoutes.routes a -> ApiRoutes.protected_by rt <> ApiRoutes.SameSite /\ ApiRoutes.protected_by rt <> ApiRoutes.Open_.
Proof.
  revert rt. apply Forall_forall. unfold ApiRoutes.routes. apply Forall_app. split; [|destruct (domainVerification a); [|constructor]].
  all: repeat (apply Forall_cons; split; [by split|]); constructor.
Qed.

Lemma serve_guarded rt r E : rt ∈ ApiRoutes.routes a -> does (guarded rt r) E (ApiRoutes.serve a rt r) ok.
Proof.
  intros Hrt. assert (forall E q, preliminary q -> guarded rt r E q) as HP by (intros ? ? ? ?; by left).
  assert (forall c E1, identified r E1 c -> (forall action, ApiRoutes.protected_by rt = ApiRoutes.Requires action -> allowed (with_caller c r) E1 action) ->
    does (guarded rt r) E1 (ApiRoutes.handler rt (with_caller c r)) ok) as Hh.
  { intros c E1 Hc Hal. eapply does_impl, routes_scoped, Hrt. intros E2 q HE HQ Hhon. right. exists c.
    split; [by eapply identified_grows|]. split; [|by apply HQ]. intros action Hact. eapply allowed_grows; eauto. }
  unfold ApiRoutes.serve. pose proof (routes_protected _ Hrt) as [? ?]. destruct (ApiRoutes.protected_by rt) as [|action| |] eqn:Hp; [| |done..].
  - apply guard_identifies; [done|]. intros c E1 _ Hc. by apply Hh.
  - apply require_permits; [done|]. intros c E1 _ Hc Hal. apply Hh; [done|]. by intros ? [= <-].
Qed.

Lemma run_guarded rt r E o E1 q x E2 :
  rt ∈ ApiRoutes.routes a -> runs (ApiRoutes.serve a rt r) E o -> Forall honest E -> E = E1 ++ ev q x :: E2 -> preliminary q \/ authorized rt r E1 q.
Proof.
  intros Hrt Hrun Hh ->. destruct (does_runs _ _ _ _ _ (serve_guarded rt r [] Hrt) Hrun) as [HQ _].
  apply (HQ E1 q x E2); [done|]. by apply Forall_app in Hh as [? _].
Qed.


End Server.
End ApiAuthority.
