(* ===== verification/ApiLogins.v ===== *)
(** * The control plane: what a login, an invite and a token take

    The routes outside the API table: logins and registration (auth.go) and the token server
    (oauth.go, oauth_agent.go, oauth_workload.go). [earned] is what must have happened in the
    request before a web session, a membership or a token is asked for. *)
From S2P Require Import Prelude GoIO GoStrings GoNet DecryptScope Sessions Requirements Token Authz Prog Identity Calls ClientIP Cloudflare Endpoints Gateway Proxy EgressHandler Credentials Api ApiPeople ApiResources ApiEndpoints ApiOAuth ApiRoutes ApiScope ApiAuthority.

Module ApiLogins.
Import Calls Endpoints Api ApiScope ApiAuthority.
Local Open Scope Z_scope.

Section Server.
Context `{lower : UnicodeLower} `{quote : UnicodeQuote} `{ed : Token.Ed25519} `{urls : UrlParse} `{cedar : Authz.Decide.Cedar} `{web : Web}.
Context `{neterr : Proxy.NetErrors} `{pem : Proxy.PemCerts} `{urlp : Identity.UrlParser}.
Context (a : api).

Section Rule.
Context (r : request) (E : list event).

(** A member of the organization whose membership is not disabled. *)
Definition active (org user : string) : Prop := exists m, ev (GetMembership org user) (Ok m) ∈ E /\ m_DisabledAt m = None.
Definition listed (org user : string) : Prop :=
  exists ms m, ev (ListMembershipsByUser user) (Ok ms) ∈ E /\ m ∈ ms /\ m_DisabledAt m = None /\ m_OrgID m = org.

(** ** Who logs in *)

(** The body names an account and has its password. *)
Definition proved_password (user : string) : Prop :=
  exists body req u, r_Body r = Some body /\ decode_fields ["email"; "password"] InTwo (rd_data body) = Some req /\
    ev (GetUserByEmail (ApiPeople.normalizeEmail req.1)) (Ok u) ∈ E /\ ApiPeople.passwordMatches (u_PasswordHash u) req.2 = true /\ u_ID u = user.

(** The account was created by this request. *)
Definition registered (user : string) : Prop :=
  exists u, u_ID u = user /\ (ev (CreateUser u) None ∈ E \/ exists inv, ev (CreateUserWithMembershipClaimingInvite u inv) None ∈ E).

(** The provider says who it is, for the login this browser started. *)
Definition vouched (profile : oidcProfile) : Prop :=
  exists c d now access idToken claims,
    auth a = Some c /\ query r "state" <> "" /\ r_Cookie r !! ApiPeople.oauthStateCookie = Some (query r "state") /\
    ev (ExchangeCode d (query r "code")) (Ok (access, idToken)) ∈ E /\ ev Now now ∈ E /\
    ApiPeople.verifyIDToken c idToken (default "" (r_Cookie r !! ApiPeople.oauthNonceCookie)) now = Ok claims /\
    ev (FetchProfile d access) (Ok profile) ∈ E /\ ic_Sub claims = pr_Sub profile.

(** The account of that subject, or one with the address the provider verified. *)
Definition known_to_provider (user : string) : Prop :=
  exists profile u, vouched profile /\ u_ID u = user /\
    (ev (GetUserByGoogleSub (pr_Sub profile)) (Ok u) ∈ E \/
     pr_EmailVerified profile = Some true /\ u_GoogleSub u = pr_Sub profile /\ (ev (UpdateUser u) None ∈ E \/ ev (CreateUser u) None ∈ E)).

(** ** Invites *)
Definition invited_by_token (inv : Invite) (email : string) : Prop :=
  exists token now, ev (GetInviteByTokenHash (Identity.HashToken token)) (Ok inv) ∈ E /\ inv_TokenHash inv = Identity.HashToken token /\
    inv_Email inv = email /\ ev Now now ∈ E /\ now <= inv_ExpiresAt inv.

Definition invited_by_email (inv : Invite) (user : string) : Prop :=
  exists profile u invs now, vouched profile /\ pr_EmailVerified profile = Some true /\ u_Email u = ApiPeople.normalizeEmail (pr_Email profile) /\
    u_ID u = user /\ ev (ListInvitesByEmail (u_Email u)) (Ok invs) ∈ E /\ inv ∈ invs /\ ev Now now ∈ E /\ now <= inv_ExpiresAt inv.

(** ** Service accounts *)
Definition knows_secret (sa : ServiceAccount) : Prop :=
  exists id secret, ApiOAuth.readClientCredentials r = Some (id, secret) /\ secret <> "" /\
    ev (GetServiceAccountByClientID id) (Ok sa) ∈ E /\ Identity.HashToken secret = sa_SecretHash sa.

(** A verified assertion of a trusted issuer for a subject and an audience of the account,
    claimed for the first time. *)
Definition asserted (sa : ServiceAccount) : Prop :=
  exists iss trusted claims t ttl,
    ev (ListWorkloadIdentitiesByIssuer iss) (Ok trusted) ∈ E /\ ev (VerifyAssertion (form r "client_assertion") iss) (Ok claims) ∈ E /\
    t ∈ trusted /\ wi_Subject t = wc_Subject claims /\ wi_Audience t ∈ wc_Audience claims /\
    ev (GetServiceAccount (wi_OrgID t) (wi_ServiceAccountID t)) (Ok sa) ∈ E /\ ev (ClaimOnce (ApiOAuth.assertionKey claims) ttl) (Ok true) ∈ E.

(** The login this user is asked about, and a membership of theirs in its organization. *)
Definition consented (id user : string) : Prop :=
  exists cr org, ev (Ident (Identity.CLookupConsent id user)) (Ok cr) ∈ E /\ active org user /\ (Identity.cr_OrgID cr <> "" -> org = Identity.cr_OrgID cr).

(** ** The rule *)
Definition has_session (user method : string) : Prop := exists su, session_of r E su /\ u_ID (su_user su) = user /\ su_authMethod su = method.

Definition earned (q : req) : Prop :=
  match q with
  | CreateSession s =>
      (proved_password (ws_UserID s) \/ registered (ws_UserID s) \/ known_to_provider (ws_UserID s) \/ has_session (ws_UserID s) (ws_AuthMethod s)) /\
      (listed (ws_OrgID s) (ws_UserID s) \/ active (ws_OrgID s) (ws_UserID s))
  | UpdateUser u =>
      exists before email, ev (GetUserByEmail email) (Ok before) ∈ E /\ u_ID u = u_ID before /\ u_PasswordHash before = "" /\
        (u_GoogleSub before = "" \/ u_GoogleSub before = u_GoogleSub u)
  | CreateUserWithMembershipClaimingInvite u inv => invited_by_token inv (u_Email u)
  | ClaimInviteCreatingMembership inv user _ =>
      (exists su, session_of r E su /\ u_ID (su_user su) = user /\ invited_by_token inv (u_Email (su_user su))) \/ invited_by_email inv user
  | CreateMembership m =>
      made E (m_OrgID m) \/
      m_OrgID m = defaultOrgID /\ exists ms, ev (ListMembershipsByOrg defaultOrgID) (Ok ms) ∈ E /\ Forall (fun m => m_Role m <> RoleOwner) ms
  | Ident (Identity.CIssue rq) =>
      exists sa method, rq = ApiOAuth.serviceAccountRequest sa method /\ sa_Disabled sa = false /\ (knows_secret sa \/ asserted sa)
  | Ident (Identity.CIssueAgentUser login) =>
      active (Identity.l_OrgID login) (Identity.l_UserID login) /\
      (ev (Ident (Identity.CRedeemAuthCode (form r "code") (form r "code_verifier") (form r "redirect_uri"))) (Ok login) ∈ E \/
       ev (Ident (Identity.CPollDevice (form r "device_code"))) (Ok login) ∈ E)
  | Ident (Identity.CStartConsent login _) =>
      has_session (Identity.l_UserID login) (Identity.l_AuthMethod login) /\ active (Identity.l_OrgID login) (Identity.l_UserID login) /\
      Identity.LoopbackRedirect (Identity.l_RedirectURI login) = true
  | Ident (Identity.CDecideConsent id user approve) =>
      (exists su, session_of r E su /\ u_ID (su_user su) = user) /\
      (approve = true -> consented id user)
  | Ident (Identity.CApproveDevice _ login) =>
      has_session (Identity.l_UserID login) (Identity.l_AuthMethod login) /\ active (Identity.l_OrgID login) (Identity.l_UserID login)
  | Ident (Identity.CPutEndpointLogin login) =>
      has_session (Identity.el_UserID login) (Identity.el_AuthMethod login) /\ active (Identity.el_OrgID login) (Identity.el_UserID login) /\
      exists id ep, ev (GetEndpoint id) (Ok ep) ∈ E /\ ID ep = Identity.el_EndpointID login /\ ep_OrgID ep = Identity.el_OrgID login /\
        ApiEndpoints.browserLoginEndpoint ep = true
  | _ => True
  end.
End Rule.

(** ** Proofs *)
Implicit Types E : list event.
Notation ok := (fun _ _ => True).
Notation P r := (fun E q => Forall honest E -> earned r E q).

(** Each of these says that some calls were answered in some way. *)
Ltac still HE := unfold active, listed, proved_password, registered, vouched, known_to_provider, invited_by_token, invited_by_email in *;
  naive_solver eauto using elem_of_prefix.

Section Grows.
Context (r : request) (E E' : list event) (HE : E `prefix_of` E').
Lemma active_grows org user : active E org user -> active E' org user.
Proof using HE. still HE. Qed.
Lemma proved_password_grows user : proved_password r E user -> proved_password r E' user.
Proof using HE. intros (body & req & u & ? & ? & ? & ? & ?). exists body, req, u. split_and!; eauto using elem_of_prefix. Qed.
Lemma registered_grows user : registered E user -> registered E' user.
Proof using HE. still HE. Qed.
Lemma vouched_grows p : vouched r E p -> vouched r E' p.
Proof using HE. intros (c & d & now & acc & idt & cl & ? & ? & ? & ? & ? & ? & ? & ?). exists c, d, now, acc, idt, cl. split_and!; eauto using elem_of_prefix. Qed.
Lemma known_to_provider_grows user : known_to_provider r E user -> known_to_provider r E' user.
Proof using HE.
  intros (p & u & Hp & ? & Hu). exists p, u. split_and!; [by apply vouched_grows|done|].
  destruct Hu as [?|(? & ? & [?|?])]; [left|right|right]; eauto using elem_of_prefix.
Qed.
Lemma invited_by_token_grows inv email : invited_by_token E inv email -> invited_by_token E' inv email.
Proof using HE. intros (t & now & ? & ? & ? & ? & ?). exists t, now. split_and!; eauto using elem_of_prefix. Qed.
End Grows.

Definition who (r : request) E (user method : string) : Prop :=
  proved_password r E user \/ registered E user \/ known_to_provider r E user \/ has_session r E user method.
Definition where_ E (org user : string) : Prop := listed E org user \/ active E org user.

Lemma who_grows r E E' user method : E `prefix_of` E' -> who r E user method -> who r E' user method.
Proof.
  intros HE [H|[H|[H|(su & H & ?)]]]; unfold who; [left|right; left|do 2 right; left|do 3 right].
  - by eapply proved_password_grows.
  - by eapply registered_grows.
  - by eapply known_to_provider_grows.
  - exists su. split; [by eapply session_of_grows|done].
Qed.
Lemma where_grows E E' org user : E `prefix_of` E' -> where_ E org user -> where_ E' org user.
Proof. intros HE [(ms & m & ? & ?)|?]; [left|right; by eapply active_grows]. exists ms, m. split; [by eapply elem_of_prefix|done]. Qed.


Local Ltac grow_more HE ::=
  lazymatch type of HE with
  | ?E `prefix_of` ?E' =>
      repeat match goal with
      | H : session_of _ E _ |- _ => apply (session_of_grows _ _ _ _ HE) in H
      | H : who _ E _ _ |- _ => apply (who_grows _ _ _ _ _ HE) in H
      | H : where_ E _ _ |- _ => apply (where_grows _ _ _ _ HE) in H
      | H : active E _ _ |- _ => apply (active_grows _ _ HE) in H
      | H : proved_password _ E _ |- _ => apply (proved_password_grows _ _ _ HE) in H
      | H : registered E _ |- _ => apply (registered_grows _ _ HE) in H
      | H : vouched _ E _ |- _ => apply (vouched_grows _ _ _ HE) in H
      | H : known_to_provider _ E _ |- _ => apply (known_to_provider_grows _ _ _ HE) in H
      | H : invited_by_token E _ _ |- _ => apply (invited_by_token_grows _ _ HE) in H
      end
  end.
Local Ltac permit ::= let Hh := fresh "Hh" in intros Hh; cbn [earned]; first [exact I | eauto 3 with scope nocore].

Section Parts.
Context (r : request).

Lemma plain_preliminary E q : preliminary q -> P r E q.
Proof. by destruct q. Qed.

Lemma lookupSession_earns E : does (P r) E (lookupSession r) (fun E' x => forall su, x = Ok su -> session_of r E' su).
Proof. apply lookupSession_finds, plain_preliminary. Qed.

Lemma resolveSession_earns E : does (P r) E (resolveSession r) (fun E' x => forall su, x = Some su -> session_of r E' su).
Proof. eapply does_bind; [apply lookupSession_earns|]. intros E' x HE Hx. apply does_ret. destruct x; intros su [= <-]. auto. Qed.

Lemma fail_earns {A} E s m : does (P r) E (@fail A s m) (fun _ x => x = None).
Proof. apply does_ask_bind; [permit|]. intros. by apply does_ret. Qed.

Lemma refused {A} E s m (R : list event -> option A -> Prop) : (forall E', R E' None) -> does (P r) E (fail s m) R.
Proof. intros HR. eapply does_weaken; [|apply fail_earns]. cbn. by intros ? ? _ ->. Qed.

Lemma decodeJSON_earns E keys i : does (P r) E (decodeJSON r keys i)
  (fun _ x => forall v, x = Some v -> v = zero_input i \/ exists body, r_Body r = Some body /\ decode_fields keys i (rd_data body) = Some v).
Proof.
  unfold decodeJSON. destruct (r_Body r) as [body|]; [|apply does_ret; intros v [= <-]; by left].
  repeat (destruct (_ : bool); [first [by apply refused | apply does_ret; intros v [= <-]; by left]|]).
  destruct (decode_fields _ _ _) as [v|] eqn:Hd; [|by apply refused]. destruct (single_value _); [|by apply refused].
  apply does_ret. intros w [= <-]. right. by exists body.
Qed.

Lemma writeJSON_earns E s v : does (P r) E (writeJSON s v) ok.
Proof. walk. Qed.
Lemma writeError_earns E s v : does (P r) E (writeError s v) ok.
Proof. walk. Qed.
Lemma noContent_earns E : does (P r) E noContent ok.
Proof. walk. Qed.
#[local] Hint Resolve writeJSON_earns writeError_earns noContent_earns lookupSession_earns resolveSession_earns fail_earns decodeJSON_earns : api.
Lemma writeStoreUnavailable_earns E : does (P r) E writeStoreUnavailable ok.
Proof. walk. Qed.
Lemma handleErr_earns E err : does (P r) E (handleErr err) ok.
Proof. walk. Qed.
Lemma auditAs_earns E o w x y z : does (P r) E (auditAs o w x y z) ok.
Proof. walk. Qed.
Lemma authRateAllowed_earns E email : does (P r) E (authRateAllowed a r email) ok.
Proof. walk. Qed.
Lemma setCookie_earns E n v m e : does (P r) E (setCookie a n v m e) ok.
Proof. walk. Qed.
Lemma randomToken_earns E : does (P r) E randomToken ok.
Proof. walk. Qed.
Lemma NewID_earns E p : does (P r) E (NewID p) ok.
Proof. walk. Qed.
#[local] Hint Resolve writeStoreUnavailable_earns handleErr_earns auditAs_earns authRateAllowed_earns setCookie_earns randomToken_earns NewID_earns : api.
Lemma memberships_of_earns E ms : does (P r) E (ApiPeople.memberships_of ms) ok.
Proof. revert E. induction ms as [|m ms IH]; intros E; cbn [ApiPeople.memberships_of]; [walk|]. step. apply does_then; [apply IH|]. intros. walk. Qed.
#[local] Hint Resolve memberships_of_earns : api.
Lemma writeMe_earns E s u o : does (P r) E (ApiPeople.writeMe s u o) ok.
Proof. walk. Qed.
#[local] Hint Resolve writeMe_earns : api.

(** ** Sessions *)
Lemma issueSession_earns E user org method t : who r E user method -> where_ E org user -> does (P r) E (issueSession a user org method t) ok.
Proof. intros Hw Ho. walk. by split. Qed.

Lemma primaryOrg_earns E user : does (P r) E (ApiPeople.primaryOrg user) (fun E' x => forall org, x = Some org -> where_ E' org user).
Proof.
  unfold ApiPeople.primaryOrg. step. apply does_ret. destruct x as [ms|e]; [|done]. intros org Horg. left. exists ms.
  destruct (List.find _ ms) as [m|] eqn:Hf; [|done]. apply List.find_some in Hf as [Hin Hd]. injection Horg as <-. exists m.
  split; [done|]. split; [by apply list_elem_of_In|]. by destruct (m_DisabledAt m).
Qed.
#[local] Hint Resolve issueSession_earns primaryOrg_earns : api.

Lemma startSession_earns E user method k :
  who r E (u_ID user) method -> (forall org E', does (P r) E' (k org) ok) -> does (P r) E (ApiPeople.startSession a user method k) ok.
Proof. intros Hw Hk. unfold ApiPeople.startSession. step. destruct x as [org|]; [|walk]. specialize (HR _ eq_refl). step. destruct x; [walk|apply Hk]. Qed.

Lemma loginHandler_earns E : does (P r) E (ApiPeople.loginHandler a r) ok.
Proof.
  unfold ApiPeople.loginHandler. destruct (negb _); [walk|]. step. cbv zeta. step. destruct (negb _); [walk|]. case_bool_decide as Hne; [walk|].
  step. destruct x1 as [u|e]; [|walk]. destruct (ApiPeople.passwordMatches _ _) eqn:Hp; cbn [negb]; [|walk].
  apply startSession_earns; [|intros; walk]. left. destruct HR as [->|(body & Hb & Hd)]; [done|]. by exists body, x, u.
Qed.

Lemma switchOrgHandler_earns E : does (P r) E (ApiPeople.switchOrgHandler a r) ok.
Proof.
  unfold ApiPeople.switchOrgHandler. step. destruct x as [su|]; [|walk]. specialize (HR _ eq_refl). do 2 step.
  match goal with |- does _ _ (if ?b then _ else _) _ => destruct b eqn:Hb end; [walk|]. destruct x0 as [m|e]; [|done]. destruct (m_DisabledAt m) eqn:Hd; [done|].
  apply does_then; [walk|]. intros E' _ HE. grow HE. eapply does_then; [|intros; walk].
  apply issueSession_earns; [do 3 right; by exists su|right; by exists m].
Qed.

(** ** Invites *)
Lemma lookupInvite_earns E token email : does (P r) E (ApiPeople.lookupInvite token email) (fun E' x => forall inv, x = Ok inv -> invited_by_token E' inv email).
Proof.
  unfold ApiPeople.lookupInvite. case_bool_decide; [by apply does_ret|]. cbv zeta. step. destruct x as [inv|e]; [|by apply does_ret].
  case_bool_decide as Hh; cbn [negb]; [|by apply does_ret]. step. destruct (_ <? _) eqn:Hx1; [step; by apply does_ret|].
  case_bool_decide as He; [|by apply does_ret]. apply does_ret. intros i [= <-]. apply Z.ltb_ge in Hx1. exists token, x. by split_and!.
Qed.

Lemma acceptInvite_earns E user inv :
  (Forall honest E -> (exists su, session_of r E su /\ u_ID (su_user su) = user /\ invited_by_token E inv (u_Email (su_user su))) \/ invited_by_email r E inv user) ->
  does (P r) E (ApiPeople.acceptInvite user inv) ok.
Proof.
  intros Hi. unfold ApiPeople.acceptInvite. apply does_ask_bind; [permit|]. intros E' now HE _. apply does_ask_bind; [|intros; walk]. intros Hh.
  destruct (Hi (honest_prefix _ _ HE Hh)) as [(su & ? & ? & ?)|(p & u & invs & t & ? & ? & ? & ? & ? & ? & ? & ?)]; [left|right].
  - exists su. split; [by eapply session_of_grows|]. split; [done|by eapply invited_by_token_grows].
  - exists p, u, invs, t. split_and!; eauto using elem_of_prefix, vouched_grows.
Qed.

Lemma acceptInviteHandler_earns E : does (P r) E (ApiPeople.acceptInviteHandler a r) ok.
Proof.
  unfold ApiPeople.acceptInviteHandler. step. destruct x as [su|]; [|walk]. specialize (HR _ eq_refl). do 2 step. destruct (negb _); [walk|].
  eapply does_bind; [apply lookupInvite_earns|]. intros E' x1 HE Hinv. grow HE. destruct x1 as [inv|e]; [|walk]. specialize (Hinv _ eq_refl).
  eapply does_then; [|intros; walk]. apply acceptInvite_earns. intros _. left. by exists su.
Qed.

Lemma redeem_each_earns E user p now l invs :
  vouched r E p -> pr_EmailVerified p = Some true -> (Forall honest E -> u_Email user = ApiPeople.normalizeEmail (pr_Email p)) ->
  ev (ListInvitesByEmail (u_Email user)) (Ok invs) ∈ E -> ev Now now ∈ E -> l ⊆ invs -> does (P r) E (ApiPeople.redeem_each (u_ID user) now l) ok.
Proof.
  intros Hp Hv. revert E Hp. induction l as [|inv l IH]; intros E Hp He Hl Hn Hs; cbn [ApiPeople.redeem_each]; [walk|].
  assert (l ⊆ invs) by set_solver. destruct (_ <? _) eqn:Hx; [auto|]. apply Z.ltb_ge in Hx. eapply does_then.
  - apply acceptInvite_earns. intros Hh. right. exists p, user, invs, now. split_and!; auto. set_solver.
  - intros E' err HE. pose proof (fun H => He (honest_prefix _ _ HE H)). grow HE. destruct err as [e|]; [destruct (errIs _ _)|]; [auto|walk|auto].
Qed.

Lemma redeem_earns E user p : vouched r E p -> pr_EmailVerified p = Some true -> (Forall honest E -> u_Email user = ApiPeople.normalizeEmail (pr_Email p)) ->
  does (P r) E (ApiPeople.redeemVerifiedEmailInvites user) ok.
Proof.
  intros Hp Hv He. unfold ApiPeople.redeemVerifiedEmailInvites. apply does_ask_bind; [permit|]. intros E1 x HE1 Hx.
  assert (Forall honest E1 -> u_Email user = ApiPeople.normalizeEmail (pr_Email p)) by eauto using honest_prefix. grow HE1. destruct x as [invs|e]; [|walk].
  apply does_ask_bind; [permit|]. intros E2 now HE2 Hn. eapply redeem_each_earns; eauto using honest_prefix, elem_of_prefix, vouched_grows.
Qed.

(** ** Registration *)
Lemma applyDefaultQuota_earns E o : does (P r) E (applyDefaultQuota a o) ok.
Proof. walk. Qed.
#[local] Hint Resolve applyDefaultQuota_earns : api.

Lemma createOrg_earns E name : does (P r) E (createOrg a name) (fun E' x => forall o, x = Ok o -> made E' (o_ID o)).
Proof.
  unfold createOrg. do 3 step. destruct x1 as [e|]; [by apply does_ret|]. eassert (made _ _) as Hm by (eexists; split; [exact Hx0|done]).
  eapply does_then; [apply applyDefaultQuota_earns|]. intros E' _ HE. grow HE. apply does_ret. by intros o [= <-].
Qed.

Lemma ensureOrg_earns E : does (P r) E (ensureOrg a defaultOrgID) (fun E' x => forall o, x = Ok o -> Forall honest E' -> o_ID o = defaultOrgID).
Proof.
  unfold ensureOrg. change (bool_decide (defaultOrgID = "")) with false. cbv iota zeta. step. destruct x as [o|e].
  { apply does_ret. intros o' [= <-] Hh. exact (honest_of Hh Hx). }
  destruct (negb (errIs _ _)); [by apply does_ret|]. change (bool_decide (defaultOrgID = defaultOrgID)) with true. cbn [negb].
  do 2 step. destruct x0 as [e'|].
  - step. apply does_ret. intros o'. destruct x0 as [o''|]; intros [= <-] Hh. exact (honest_of Hh Hx2).
  - eapply does_then; [apply applyDefaultQuota_earns|]. intros E' _ HE. apply does_ret. by intros o' [= <-].
Qed.

Lemma hasDefaultOwner_earns E : does (P r) E ApiPeople.hasDefaultOwner
  (fun E' b => b = false -> exists ms, ev (ListMembershipsByOrg defaultOrgID) (Ok ms) ∈ E' /\ Forall (fun m => m_Role m <> RoleOwner) ms).
Proof.
  unfold ApiPeople.hasDefaultOwner. step. apply does_ret. destruct x as [ms|e]; [|done]. intros Hn. exists ms. split; [done|].
  apply Forall_forall. intros m Hm Ho. apply not_true_iff_false in Hn. apply Hn, existsb_exists. exists m. split; [by apply list_elem_of_In|by apply bool_decide_eq_true_2].
Qed.

Lemma joinDefaultOrg_earns E user role ms : ev (ListMembershipsByOrg defaultOrgID) (Ok ms) ∈ E -> Forall (fun m => m_Role m <> RoleOwner) ms ->
  does (P r) E (ApiPeople.joinDefaultOrg a user role) ok.
Proof.
  intros Hms Ho. unfold ApiPeople.joinDefaultOrg. eapply does_bind; [apply ensureOrg_earns|]. intros E1 o HE1 Hoid. destruct o as [o|e]; [|walk].
  apply does_ask_bind; [permit|]. intros E2 now HE2 _. apply does_ask_bind; [|intros; walk]. intros Hh. right. cbn. split.
  - apply Hoid; [done|]. by eapply honest_prefix.
  - exists ms. split; [|done]. eauto using elem_of_prefix.
Qed.

Lemma provisionNewUser_earns E user :
  does (P r) E (ApiPeople.provisionNewUser a user) (fun E' x => forall u, x = Ok u -> u = user /\ ev (CreateUser user) None ∈ E').
Proof.
  unfold ApiPeople.provisionNewUser. eapply does_then; [walk|]. intros E1 c HE1. case_bool_decide.
  - eapply does_bind; [apply hasDefaultOwner_earns|]. intros E2 b HE2 Hb. destruct b; [by apply does_ret|]. destruct (Hb eq_refl) as (ms & Hms & Ho).
    apply does_ask_bind; [permit|]. intros E3 err HE3 Hc. destruct err as [e|]; [by apply does_ret|].
    eapply does_then; [eapply joinDefaultOrg_earns; [by eapply elem_of_prefix|done]|].
    intros E4 e HE4. apply does_ret. destruct e; [done|]. intros u [= <-]. split; [done|by eapply elem_of_prefix].
  - apply does_ask_bind; [permit|]. intros E3 err HE3 Hc. destruct err as [e|]; [by apply does_ret|].
    eapply does_bind; [apply createOrg_earns|]. intros E4 o HE4 Ho. grow HE4. destruct o as [o|e]; [|by apply does_ret]. specialize (Ho _ eq_refl).
    step. apply does_ask_bind; [intros _; by left|]. intros E6 err HE6 _. grow HE6. apply does_ret. destruct err; [done|]. by intros u [= <-].
Qed.

Lemma registerPasswordUser_earns E email name hash token :
  does (P r) E (ApiPeople.registerPasswordUser a email name hash token) (fun E' x => forall u, x = Ok u -> registered E' (u_ID u)).
Proof.
  unfold ApiPeople.registerPasswordUser. step. destruct x as [u|e]; [by apply does_ret|]. destruct (negb _); [by apply does_ret|].
  do 2 step. cbv zeta. case_bool_decide.
  - eapply does_weaken; [|apply provisionNewUser_earns]. cbn. intros E' y _ Hy u Hu. destruct (Hy u Hu) as [-> ?]. eexists; split; [done|by left].
  - eapply does_bind; [apply lookupInvite_earns|]. intros E' inv HE Hinv. grow HE. destruct inv as [inv|e']; [|by apply does_ret].
    specialize (Hinv _ eq_refl). step. apply does_ret. destruct x1 as [e'|]; [done|]. intros u [= <-]. eexists. split; [done|]. right. eauto.
Qed.

Lemma registerHandler_earns E : does (P r) E (ApiPeople.registerHandler a r) ok.
Proof.
  unfold ApiPeople.registerHandler. destruct (negb _); [walk|]. step. cbv zeta. step. do 3 (match goal with |- does _ _ (if ?b then _ else _) _ => destruct b end; [walk|]).
  step. destruct x1 as [h|e]; [|walk]. eapply does_bind; [apply registerPasswordUser_earns|]. intros E' u HE Hu. grow HE. destruct u as [u|e]; [|walk].
  apply startSession_earns; [|intros; walk]. right. left. auto.
Qed.

(** ** Google *)
Lemma exchangeAndProfile_earns E c d now :
  auth a = Some c -> query r "state" <> "" -> r_Cookie r !! ApiPeople.oauthStateCookie = Some (query r "state") -> ev Now now ∈ E ->
  does (P r) E (ApiPeople.exchangeAndProfile c d (query r "code") (default "" (r_Cookie r !! ApiPeople.oauthNonceCookie)) now)
    (fun E' x => forall p, x = Ok p -> vouched r E' p).
Proof.
  intros Hc Hs Hk Hn. unfold ApiPeople.exchangeAndProfile. case_bool_decide; [by apply does_ret|]. step. destruct x as [[access idToken]|e]; [|by apply does_ret].
  case_bool_decide; [by apply does_ret|]. destruct (ApiPeople.verifyIDToken _ _ _ _) as [claims|e] eqn:Hv; [|by apply does_ret].
  step. apply does_ret. destruct x as [p|e]; [|done]. destruct (_ || _); [done|]. case_bool_decide as Hsub; [|done]. intros p' [= <-].
  exists c, d, now, access, idToken, claims. by split_and!.
Qed.

Lemma hasLiveInviteFor_earns E email : does (P r) E (ApiPeople.hasLiveInviteFor email) ok.
Proof. walk. Qed.

(** What [upsertOIDCUser] returns when its invites are redeemed first. *)
Lemma redeemed_earns E u p : vouched r E p -> pr_EmailVerified p = Some true -> (Forall honest E -> u_Email u = ApiPeople.normalizeEmail (pr_Email p)) ->
  known_to_provider r E (u_ID u) ->
  does (P r) E (err ← ApiPeople.redeemVerifiedEmailInvites u; Ret match err with Some e => Fail e | None => Ok u end)
    (fun E' x => forall u, x = Ok u -> known_to_provider r E' (u_ID u)).
Proof.
  intros Hp Hv He Hk. eapply does_then; [by eapply redeem_earns|]. intros E' err HE. grow HE. apply does_ret. destruct err; [done|]. by intros u' [= <-].
Qed.

Lemma upsertOIDCUser_earns E p : vouched r E p ->
  does (P r) E (ApiPeople.upsertOIDCUser a p) (fun E' x => forall u, x = Ok u -> known_to_provider r E' (u_ID u)).
Proof.
  intros Hp. unfold ApiPeople.upsertOIDCUser. cbv zeta. step. destruct x as [u|e].
  { assert (known_to_provider r E0 (u_ID u)) by (exists p, u; split_and!; [done|done|by left]).
    destruct (pr_EmailVerified p) as [[]|] eqn:Hv; cbn [from_option id andb]; try (apply does_ret; by intros u' [= <-]).
    case_bool_decide as He; [|apply does_ret; by intros u' [= <-]]. by eapply redeemed_earns. }
  destruct (pr_EmailVerified p) as [[]|] eqn:Hv; cbn [from_option id negb]; try by apply does_ret. step. destruct x as [u|e'].
  - destruct (_ && _) eqn:Hg; [by apply does_ret|].
    destruct (bool_decide_reflect (u_PasswordHash u = "")) as [Hpw|Hpw]; cbn [negb]; [|by apply does_ret]. apply does_ask_bind.
    + intros _. exists u, (ApiPeople.normalizeEmail (pr_Email p)). split_and!; [done|done|done|]. cbn.
      destruct (bool_decide_reflect (u_GoogleSub u = "")); [by left|right]. apply andb_false_iff in Hg as [Hg|Hg]; [done|]. by destruct (bool_decide_reflect (u_GoogleSub u = pr_Sub p)).
    + intros E' err HE Hu. grow HE. destruct err as [e'|]; [by apply does_ret|]. apply (redeemed_earns _ _ p); [done..|intros Hh; exact (honest_of Hh Hx0)|]. exists p. eexists. split_and!; [done|done|]. right. split_and!; [done|done|by left].
  - do 2 step. eapply does_then; [apply hasLiveInviteFor_earns|]. intros E' b HE. grow HE. destruct b.
    + apply does_ask_bind; [permit|]. intros E'' err HE' Hu. grow HE'. destruct err as [e''|]; [by apply does_ret|].
      apply (redeemed_earns _ _ p); [done..|]. exists p. eexists. split_and!; [done|done|]. right. split_and!; [done|done|by right].
    + eapply does_weaken; [|apply provisionNewUser_earns]. cbn. intros E'' y HE' Hy u Hu. destruct (Hy u Hu) as [-> ?]. grow HE'.
      exists p. eexists. split_and!; [done|done|]. right. split_and!; [done|done|by right].
Qed.

Lemma authConfigOf_earns E : does (P r) E (authConfigOf a) (fun _ c => auth a = Some c).
Proof. unfold authConfigOf. destruct (auth a); [by apply does_ret|apply does_panic]. Qed.

Lemma clearOAuthCookies_earns E : does (P r) E (ApiPeople.clearOAuthCookies a) ok.
Proof. eapply does_then; [apply (does_each _ _ (fun _ => True)); [done|done|intros; walk]|intros; walk]. Qed.
#[local] Hint Resolve clearOAuthCookies_earns : api.

Lemma googleCallbackHandler_earns E : does (P r) E (ApiPeople.googleCallbackHandler a r) ok.
Proof.
  unfold ApiPeople.googleCallbackHandler. destruct (negb _); [walk|]. cbv zeta. step.
  destruct (_ || _) eqn:Hs; [walk|]. apply orb_false_iff in Hs as [Hs Hk]. apply bool_decide_eq_false in Hs. apply negb_false_iff, bool_decide_eq_true in Hk.
  case_bool_decide; [walk|]. eapply does_bind; [apply authConfigOf_earns|]. cbn beta. intros E2 c HE2 Hc. step. destruct x0 as [d|e]; [|walk]. step.
  eapply does_bind; [by apply exchangeAndProfile_earns|]. intros F1 p HF1 Hp. destruct p as [p|e]; [|walk]. specialize (Hp _ eq_refl).
  eapply does_bind; [by apply upsertOIDCUser_earns|]. intros F2 u HF2 Hu. destruct u as [u|e]; [|walk]. specialize (Hu _ eq_refl).
  apply startSession_earns; [do 2 right; by left|intros; walk].
Qed.

Lemma googleStartHandler_earns E : does (P r) E (ApiPeople.googleStartHandler a r) ok.
Proof. walk. Qed.
Lemma meHandler_earns E : does (P r) E (ApiPeople.meHandler r) ok.
Proof. walk. Qed.
Lemma logoutHandler_earns E : does (P r) E (logoutHandler a r) ok.
Proof. walk. Qed.
Lemma authConfigHandler_earns E : does (P r) E (ApiPeople.authConfigHandler a r) ok.
Proof. walk. Qed.
Lemma health_earns E : does (P r) E (ApiRoutes.health r) ok.
Proof. walk. Qed.

(** ** Logins at an endpoint *)
Lemma loginRedirect_earns E : does (P r) E (ApiEndpoints.loginRedirect a r) ok.
Proof. walk. Qed.

Lemma loginEndpoint_earns E : does (P r) E (ApiEndpoints.loginEndpoint a r)
  (fun E' x => forall ep, x = Some ep -> (exists id, ev (GetEndpoint id) (Ok ep) ∈ E') /\ ApiEndpoints.browserLoginEndpoint ep = true).
Proof.
  unfold ApiEndpoints.loginEndpoint. step. destruct x as [ep|e].
  - destruct (_ && _) eqn:Hb; [|by apply refused]. apply andb_true_iff in Hb as [Hb _]. apply does_ret. intros ep' [= <-]. eauto.
  - destruct (errIs _ _); [by apply refused|]. eapply does_then; [walk|]. intros. by apply does_ret.
Qed.

Lemma endpointLoginHandler_earns E : does (P r) E (ApiEndpoints.endpointLoginHandler a r) ok.
Proof.
  unfold ApiEndpoints.endpointLoginHandler. destruct (_ || _); [walk|]. cbv zeta. destruct (negb _); [walk|].
  eapply does_need; [apply loginEndpoint_earns|]. cbn beta. intros E1 ep HE1 Hep. destruct (Hep _ eq_refl) as [[id Hid] Hb].
  eapply does_bind; [apply lookupSession_earns|]. intros E2 s HE2 Hs. destruct s as [su|e]; [|destruct (errIs _ _); [apply loginRedirect_earns|walk]]. specialize (Hs _ eq_refl). grow HE2.
  eapply does_then; [walk|]. intros E3 now HE3. grow HE3. destruct (_ <? _); [walk|]. step. destruct x as [m|e]; [|walk]. destruct (m_DisabledAt m) eqn:Hd; cbn [ApiPeople.is_some]; [walk|].
  apply does_ask_bind; [|intros; walk]. intros _. split; [by exists su|]. split; [by exists m|]. by exists id, ep.
Qed.

(** ** Service accounts *)
Lemma writeOAuthError_earns E s c d : does (P r) E (ApiOAuth.writeOAuthError s c d) ok.
Proof. walk. Qed.
#[local] Hint Resolve writeOAuthError_earns : api.
Lemma oauthFail_earns {A} E s c d : does (P r) E (ApiOAuth.oauthFail (A := A) s c d) (fun _ x => x = None).
Proof. eapply does_then; [walk|]. intros. by apply does_ret. Qed.
Lemma oauth_refused {A} E s c d (R : list event -> option A -> Prop) : (forall E', R E' None) -> does (P r) E (ApiOAuth.oauthFail s c d) R.
Proof. intros HR. eapply does_weaken; [|apply oauthFail_earns]. cbn. by intros ? ? _ ->. Qed.
Ltac refused := first [by apply oauth_refused | by apply does_ret].

Lemma issueServiceAccountToken_earns E sa method : sa_Disabled sa = false -> knows_secret r E sa \/ asserted r E sa ->
  does (P r) E (ApiOAuth.issueServiceAccountToken sa method) ok.
Proof. intros Hd Hw. apply does_ask_bind; [|intros; walk]. intros _. by exists sa, method. Qed.

Lemma authenticateClient_earns E id secret : ApiOAuth.readClientCredentials r = Some (id, secret) ->
  does (P r) E (ApiOAuth.authenticateClient id secret) (fun E' x => forall sa, x = Ok sa -> sa_Disabled sa = false /\ knows_secret r E' sa).
Proof.
  intros Hc. unfold ApiOAuth.authenticateClient. step. apply does_ret. destruct x as [sa|e]; [|by destruct (errIs _ _)].
  destruct (_ || _ || _) eqn:Hb; [done|]. apply orb_false_iff in Hb as [[Hs Hh]%orb_false_iff Hd]. intros sa' [= <-]. split; [done|].
  apply bool_decide_eq_false in Hs. apply negb_false_iff, bool_decide_eq_true in Hh. by exists id, secret.
Qed.

Lemma matchIdentity_found claims l found m : ApiOAuth.matchIdentity claims found l = Some m ->
  found = Some m \/ m ∈ l /\ wi_Subject m = wc_Subject claims /\ wi_Audience m ∈ wc_Audience claims.
Proof.
  revert found. induction l as [|t l IH]; intros found; cbn [ApiOAuth.matchIdentity]; [by left|].
  destruct (bool_decide_reflect (wi_Subject t = wc_Subject claims)), (bool_decide_reflect (wi_Audience t ∈ wc_Audience claims)); cbn [negb orb];
    try (intros [?|?]%IH; [by left|set_solver]).
  intros H. right. assert (ApiOAuth.matchIdentity claims (Some t) l = Some m) as [[= ->]|?]%IH by (destruct found; [by case_bool_decide|done]); set_solver.
Qed.

Lemma namedTrust_earns E l : does (P r) E (ApiOAuth.namedTrust r l) (fun _ x => forall l', x = Some l' -> l' ⊆ l).
Proof.
  unfold ApiOAuth.namedTrust. cbv zeta. case_bool_decide; [apply does_ret; by intros l' [= <-]|]. step.
  destruct x as [sa|e]; [|destruct (errIs _ _); refused]. apply does_ret. intros l' [= <-]. intros t. by rewrite list_elem_of_filter; intros [_ ?].
Qed.

Lemma matchWorkload_earns E trusted claims : does (P r) E (ApiOAuth.matchWorkloadServiceAccount r trusted claims)
  (fun E' x => forall sa, x = Some sa -> sa_Disabled sa = false /\ exists t, t ∈ trusted /\ wi_Subject t = wc_Subject claims /\
     wi_Audience t ∈ wc_Audience claims /\ ev (GetServiceAccount (wi_OrgID t) (wi_ServiceAccountID t)) (Ok sa) ∈ E').
Proof.
  unfold ApiOAuth.matchWorkloadServiceAccount. eapply does_bind; [apply namedTrust_earns|]. cbn beta. intros E1 x HE1 Hs. destruct x as [l|]; [|by apply does_ret].
  specialize (Hs _ eq_refl). destruct (ApiOAuth.matchIdentity _ _ _) as [m|] eqn:Hm; [|refused]. apply matchIdentity_found in Hm as [?|(? & ? & ?)]; [done|].
  step. destruct x as [sa|e]; [|destruct (errIs _ _); refused]. destruct (sa_Disabled sa) eqn:Hd; [refused|]. apply does_ret. intros sa' [= <-]. split; [done|].
  exists m. split_and!; [set_solver|done..].
Qed.

Lemma claimAssertionOnce_earns E claims : does (P r) E (ApiOAuth.claimAssertionOnce claims)
  (fun E' x => x = Some tt -> exists ttl, ev (ClaimOnce (ApiOAuth.assertionKey claims) ttl) (Ok true) ∈ E').
Proof. unfold ApiOAuth.claimAssertionOnce. do 2 step. destruct x0 as [[]|e]; [|refused..]. apply does_ret. eauto. Qed.

Lemma verifiedClaims_earns E iss : does (P r) E (ApiOAuth.verifiedClaims r iss)
  (fun E' x => forall v, x = Some v -> ev (ListWorkloadIdentitiesByIssuer iss) (Ok v.1) ∈ E' /\ ev (VerifyAssertion (form r "client_assertion") iss) (Ok v.2) ∈ E').
Proof.
  unfold ApiOAuth.verifiedClaims. step. destruct x as [[|t l]|e]; [refused| |refused]. step. destruct x as [claims|e]; [|destruct (errIs _ _); refused].
  apply does_ret. by intros v [= <-].
Qed.

Lemma workloadAssertionGrant_earns E : does (P r) E (ApiOAuth.workloadAssertionGrant a r) ok.
Proof.
  unfold ApiOAuth.workloadAssertionGrant. do 3 (match goal with |- does _ _ (if ?b then _ else _) _ => destruct b end; [walk|]). step. destruct x as [iss|e]; [|walk].
  step. destruct (negb _); [walk|]. eapply does_need; [apply verifiedClaims_earns|]. cbn beta. intros F1 v HF1 Hv. destruct (Hv _ eq_refl) as [Hl Hc].
  eapply does_need; [apply matchWorkload_earns|]. cbn beta. intros F2 sa HF2 Hm. destruct (Hm _ eq_refl) as [Hd (t & Ht & Hs & Ha & Hsa)]. grow HF2.
  eapply does_need; [apply claimAssertionOnce_earns|]. cbn beta. intros F3 u HF3 Ho. destruct u. destruct (Ho eq_refl) as [ttl Hcl]. grow HF3.
  apply issueServiceAccountToken_earns; [done|]. right. by exists iss, v.1, v.2, t, ttl.
Qed.

Lemma clientCredentialsGrant_earns E : does (P r) E (ApiOAuth.clientCredentialsGrant a r) ok.
Proof.
  unfold ApiOAuth.clientCredentialsGrant. destruct (_ || _); [apply workloadAssertionGrant_earns|]. destruct (ApiOAuth.readClientCredentials r) as [[id secret]|] eqn:Hc; [|walk].
  case_bool_decide; [walk|]. step. destruct (negb _); [walk|]. eapply does_bind; [by apply authenticateClient_earns|]. cbn beta. intros F1 y HF1 Hsa.
  destruct y as [sa|e]; [|walk]. destruct (Hsa _ eq_refl). apply issueServiceAccountToken_earns; [done|by left].
Qed.

(** ** Users who log an agent in *)
Lemma agentLoginOrg_earns E su requested : does (P r) E (ApiOAuth.agentLoginOrg su requested)
  (fun E' x => forall org, x = Ok org -> active E' org (u_ID (su_user su)) /\ (requested <> "" -> org = requested)).
Proof.
  unfold ApiOAuth.agentLoginOrg. cbv zeta. step. apply does_ret. destruct x as [m|e]; [|by destruct (errIs _ _)].
  destruct (m_DisabledAt m) eqn:Hd; cbn [ApiPeople.is_some]; [done|]. intros org [= <-]. split; [by exists m|]. intros. by rewrite bool_decide_eq_false_2.
Qed.

Lemma loginRateAllowed_earns E su b : does (P r) E (ApiOAuth.loginRateAllowed a r su b) ok.
Proof. walk. Qed.
Lemma authorizeFail_earns E c : does (P r) E (ApiOAuth.authorizeFail r c) ok.
Proof. walk. Qed.
#[local] Hint Resolve loginRedirect_earns loginRateAllowed_earns authorizeFail_earns : api.

Lemma agentLoginSession_earns E b : does (P r) E (ApiOAuth.agentLoginSession a r b) (fun E' x => forall su, x = Some su -> session_of r E' su).
Proof.
  unfold ApiOAuth.agentLoginSession. destruct (_ || _); [by apply refused|]. eapply does_bind; [apply lookupSession_earns|]. cbn beta. intros F1 s HF1 Hs. destruct s as [su|e].
  - specialize (Hs _ eq_refl). eapply does_then; [walk|]. intros F2 y HF2. grow HF2. destruct y.
    + eapply does_then; [walk|]. intros F3 z HF3. grow HF3. apply does_ret. by intros su' [= <-].
    + eapply does_then; [walk|]. intros. by apply refused.
  - destruct (errIs _ _); [by apply refused|]. eapply does_then; [walk|]. intros. by apply does_ret.
Qed.

Lemma lookedUp_earns {A} E (x : res A) : does (P r) E (ApiOAuth.lookedUp x) (fun _ y => forall v, y = Some v -> x = Ok v).
Proof.
  unfold ApiOAuth.lookedUp. destruct x as [v|e]; [apply does_ret; by intros ? [= <-]|]. destruct (_ || _); [by apply refused|].
  eapply does_then; [walk|]. intros. by apply does_ret.
Qed.

Lemma granted_earns {A} E (x : res A) : does (P r) E (ApiOAuth.granted x) (fun _ y => forall v, y = Some v -> x = Ok v).
Proof. unfold ApiOAuth.granted. destruct x as [v|e]; [apply does_ret; by intros ? [= <-]|]. repeat (destruct (errIs _ _); [refused|]). refused. Qed.

Lemma agentUserActive_earns E org user : does (P r) E (ApiOAuth.agentUserActive org user) (fun E' x => x = Ok tt -> active E' org user).
Proof.
  unfold ApiOAuth.agentUserActive. step. apply does_ret. destruct x as [m|e]; [|by destruct (errIs _ _)].
  destruct (m_DisabledAt m) eqn:Hd; cbn [ApiPeople.is_some]; [done|]. intros _. by exists m.
Qed.

Lemma oauthAuthorizeHandler_earns E : does (P r) E (ApiOAuth.oauthAuthorizeHandler a r) ok.
Proof.
  unfold ApiOAuth.oauthAuthorizeHandler. destruct (_ || _); [walk|].
  match goal with |- does _ _ (if ?b then _ else _) _ => destruct b eqn:Hl end; [walk|]. apply orb_false_iff in Hl as [_ Hl%negb_false_iff].
  do 2 (match goal with |- does _ _ (if ?b then _ else _) _ => destruct b end; [walk|]).
  eapply does_bind; [apply lookupSession_earns|]. cbn beta. intros F1 s HF1 Hs. destruct s as [su|e]; [|walk]. specialize (Hs _ eq_refl). step. destruct (negb _); [walk|].
  eapply does_bind; [apply agentLoginOrg_earns|]. cbn beta. intros F2 o HF2 Ho. grow HF2. destruct o as [org|e]; [|walk]. destruct (Ho _ eq_refl) as [Ha _].
  unfold ApiOAuth.startConsent. apply does_ask_bind; [|intros; walk]. intros _. split; [by exists su|]. by split.
Qed.

Lemma consentAllowed_earns E su id : does (P r) E (ApiOAuth.consentAllowed su id) (fun E' x => x = Some tt -> consented E' id (u_ID (su_user su))).
Proof.
  unfold ApiOAuth.consentAllowed. apply does_ask_bind; [permit|]. intros F1 x HF1 Hx. eapply does_bind; [apply lookedUp_earns|]. cbn beta. intros F2 y HF2 Hy.
  destruct y as [cr|]; [|by apply does_ret]. specialize (Hy _ eq_refl) as ->. grow HF2. eapply does_bind; [apply agentLoginOrg_earns|]. cbn beta. intros F3 o HF3 Ho. grow HF3.
  eapply does_bind; [apply lookedUp_earns|]. cbn beta. intros F4 z HF4 Hz. apply does_ret. destruct z as [org|]; [|done]. specialize (Hz _ eq_refl) as ->.
  destruct (Ho _ eq_refl) as [Ha Hr]. grow HF4. intros _. by exists cr, org.
Qed.

Lemma consentDecideHandler_earns E : does (P r) E (ApiOAuth.consentDecideHandler a r) ok.
Proof.
  unfold ApiOAuth.consentDecideHandler. eapply does_need; [apply agentLoginSession_earns|]. cbn beta. intros F1 su HF1 Hs. specialize (Hs _ eq_refl). step.
  destruct x as [approve|]; [|walk]. cbv zeta.
  apply (does_need _ _ _ _ (fun E' x => x = Some tt -> approve = true -> consented E' (path r "id") (u_ID (su_user su)))).
  - destruct approve; [|by apply does_ret]. eapply does_weaken; [|apply consentAllowed_earns]. cbn beta. auto.
  - cbn beta. intros F2 [] HF2 Hc. specialize (Hc eq_refl). grow HF2. apply does_ask_bind; [intros _; split; [by exists su|done]|].
    intros F3 y HF3 _. eapply does_need; [eapply does_any, lookedUp_earns|]. intros. walk.
Qed.

Lemma deviceApproveHandler_earns E : does (P r) E (ApiOAuth.deviceApproveHandler a r) ok.
Proof.
  unfold ApiOAuth.deviceApproveHandler. eapply does_need; [apply agentLoginSession_earns|]. cbn beta. intros F1 su HF1 Hs. specialize (Hs _ eq_refl). step.
  eapply does_bind; [apply agentLoginOrg_earns|]. cbn beta. intros F2 o HF2 Ho. grow HF2. destruct o as [org|e]; [|walk]. destruct (Ho _ eq_refl) as [Ha _].
  apply does_ask_bind; [|intros; walk]. intros _. split; [by exists su|done].
Qed.

(** ** The token endpoint *)
Lemma writeAgentTokens_earns E t : does (P r) E (ApiOAuth.writeAgentTokens t) ok.
Proof. walk. Qed.
#[local] Hint Resolve writeAgentTokens_earns : api.

Lemma finishAgentLogin_earns E login :
  (forall l, login = Ok l -> ev (Ident (Identity.CRedeemAuthCode (form r "code") (form r "code_verifier") (form r "redirect_uri"))) (Ok l) ∈ E \/
     ev (Ident (Identity.CPollDevice (form r "device_code"))) (Ok l) ∈ E) ->
  does (P r) E (ApiOAuth.finishAgentLogin r login) ok.
Proof.
  intros Hl. unfold ApiOAuth.finishAgentLogin. eapply does_need; [apply granted_earns|]. cbn beta. intros F1 l HF1 H1. specialize (Hl l (H1 _ eq_refl)).
  eapply does_bind; [apply agentUserActive_earns|]. cbn beta. intros F2 u HF2 Ha. eapply does_need; [apply granted_earns|]. cbn beta. intros F3 [] HF3 H2.
  assert (E `prefix_of` F3) by (do 2 (etrans; [eassumption|]); done). specialize (Ha (H2 _ eq_refl)). grow HF3. apply does_ask_bind.
  - intros _. split; [done|]. destruct Hl; [left|right]; by eapply elem_of_prefix.
  - intros. eapply does_need; [eapply does_any, granted_earns|]. intros. walk.
Qed.

Lemma refreshGrant_earns E : does (P r) E (ApiOAuth.refreshGrant r) ok.
Proof.
  unfold ApiOAuth.refreshGrant. apply does_ask_bind; [permit|]. intros F1 x HF1 _. destruct x as [t|e].
  - cbv zeta. eapply does_then; [eapply does_any, agentUserActive_earns|]. intros F2 y HF2. eapply does_then; [walk|]. intros F3 _ HF3.
    eapply does_need; [eapply does_any, granted_earns|]. intros. walk.
  - eapply does_need; [eapply does_any, granted_earns|]. intros. walk.
Qed.

Lemma limited_earns E k : (forall E', does (P r) E' k ok) -> does (P r) E (ApiOAuth.limited a r k) ok.
Proof. intros Hk. unfold ApiOAuth.limited. step. destruct (negb _); [walk|apply Hk]. Qed.

Lemma agentGrant_earns E : does (P r) E (ApiOAuth.agentGrant a r) ok.
Proof.
  unfold ApiOAuth.agentGrant. destruct (_ || _ || _); [walk|]. destruct (negb _); [walk|]. cbv zeta. case_bool_decide.
  { apply limited_earns. intros E'. apply does_ask_bind; [permit|]. intros F1 x HF1 Hx. apply finishAgentLogin_earns. intros l ->. by left. }
  case_bool_decide.
  { apply does_ask_bind; [permit|]. intros F1 x HF1 Hx. apply finishAgentLogin_earns. intros l ->. by right. }
  case_bool_decide; [apply limited_earns, refreshGrant_earns|walk].
Qed.

Lemma oauthTokenHandler_earns E : does (P r) E (ApiOAuth.oauthTokenHandler a r) ok.
Proof.
  unfold ApiOAuth.oauthTokenHandler. do 3 (match goal with |- does _ _ (if ?b then _ else _) _ => destruct b end; [walk|]). cbv zeta.
  case_bool_decide; [apply clientCredentialsGrant_earns|]. case_bool_decide; [walk|]. case_bool_decide; [apply agentGrant_earns|walk].
Qed.

Lemma oauthRevokeHandler_earns E : does (P r) E (ApiOAuth.oauthRevokeHandler a r) ok.
Proof. walk. Qed.
Lemma oauthMetadataHandler_earns E : does (P r) E (ApiOAuth.oauthMetadataHandler a r) ok.
Proof. walk. Qed.
Lemma deviceAuthorizationHandler_earns E : does (P r) E (ApiOAuth.deviceAuthorizationHandler a r) ok.
Proof. walk. Qed.

Ltac after_session := eapply does_need; [eapply does_any, agentLoginSession_earns|]; intros.
Ltac after_lookup := apply does_ask_bind; [permit|]; intros; eapply does_need; [eapply does_any, lookedUp_earns|]; intros; walk.
Lemma deviceLookupHandler_earns E : does (P r) E (ApiOAuth.deviceLookupHandler a r) ok.
Proof. after_session. after_lookup. Qed.
Lemma consentLookupHandler_earns E : does (P r) E (ApiOAuth.consentLookupHandler a r) ok.
Proof. after_session. after_lookup. Qed.
Lemma deviceDenyHandler_earns E : does (P r) E (ApiOAuth.deviceDenyHandler a r) ok.
Proof. after_session. step. after_lookup. Qed.
End Parts.

(** ** The routes *)
Definition loginRoutes : list ApiRoutes.route := ApiRoutes.authRoutes a ++ ApiRoutes.oauthRoutes a.

Lemma handler_earned rt r E : rt ∈ loginRoutes -> does (P r) E (ApiRoutes.handler rt r) ok /\ ApiRoutes.protected_by rt ∈ [ApiRoutes.SameSite; ApiRoutes.Open_].
Proof.
  revert rt. apply Forall_forall. unfold loginRoutes, ApiRoutes.authRoutes, ApiRoutes.oauthRoutes.
  repeat (apply Forall_cons; split; [split; [cbn [ApiRoutes.handler]|set_solver]|]); [..|constructor].
  all: eauto using authConfigHandler_earns, loginHandler_earns, logoutHandler_earns, meHandler_earns, switchOrgHandler_earns, acceptInviteHandler_earns, registerHandler_earns,
    googleStartHandler_earns, googleCallbackHandler_earns, endpointLoginHandler_earns, oauthTokenHandler_earns, oauthMetadataHandler_earns, oauthAuthorizeHandler_earns,
    deviceAuthorizationHandler_earns, oauthRevokeHandler_earns, deviceLookupHandler_earns, deviceApproveHandler_earns, deviceDenyHandler_earns, consentLookupHandler_earns,
    consentDecideHandler_earns.
Qed.

Lemma serve_earned rt r E : rt ∈ loginRoutes -> does (P r) E (ApiRoutes.serve a rt r) ok.
Proof.
  intros [Hh Hp]%(handler_earned _ r E). unfold ApiRoutes.serve. destruct (ApiRoutes.protected_by rt); [set_solver..| |done].
  unfold csrfGuarded. destruct (csrfCheck a r); [walk|done].
Qed.

Lemma run_earned rt r E o E1 q x E2 :
  rt ∈ loginRoutes -> runs (ApiRoutes.serve a rt r) E o -> Forall honest E -> E = E1 ++ ev q x :: E2 -> earned r E1 q.
Proof.
  intros Hrt Hrun Hh ->. destruct (does_runs _ _ _ _ _ (serve_earned rt r [] Hrt) Hrun) as [HQ _].
  apply (HQ E1 q x E2); [done|]. by apply Forall_app in Hh as [? _].
Qed.


End Server.
End ApiLogins.
