(* ===== verification/ApiSamples.v ===== *)
(** * Runs of the control plane

    A store with one organization and its members, and requests to it: a change of a member's
    role, a login with a password, a token for a service account. *)
From S2P Require Import Prelude GoIO GoStrings GoNet DecryptScope Sessions Requirements Token Authz Prog Identity IdentitySamples Calls ClientIP Cloudflare Endpoints Gateway Proxy EgressHandler Credentials Api ApiPeople ApiResources ApiEndpoints ApiOAuth ApiRoutes ApiScope ApiAuthority ApiLogins.

Module ApiSamples.
Import Calls Endpoints Api.
Local Open Scope Z_scope.

#[local] Existing Instance IdentitySamples.sample_ed.
#[local] Existing Instance IdentitySamples.sample_url.
#[local] Instance sample_lower : UnicodeLower := fun s => s.
#[local] Instance sample_quote : UnicodeQuote := fun s => s.
#[local] Instance no_urls : UrlParse := fun s => Fail (ENew "url").
#[local] Instance sample_neterr : Proxy.NetErrors := {| Proxy.addr_error := ENew; Proxy.base64_error := ENew |}.
#[local] Instance sample_pem : Proxy.PemCerts := fun _ => true.
(** Permits everything. *)
#[local] Instance open_cedar : Authz.Decide.Cedar := {|
  Authz.Decide.cvalue := unit;
  Authz.Decide.evalCondition _ _ _ := tt;
  Authz.Decide.Authorize _ _ _ := (true, Authz.Decide.mkDiagnostic [] [])
|}.
(** Bodies that ask for the role of a member, and that carry an account and its password. *)
#[local] Instance sample_web : Web := {|
  object_keys _ := Some [];
  decode_fields _ i _ := match i with
                         | InTwo => Some ("ada@example.com", "correct horse")
                         | InMemberPatch => Some (mkMemberPatch (Some RoleAdmin) None)
                         | i => Some (zero_input i)
                         end;
  single_value _ := true;
  mail_address s := Some s;
  media_type _ := Some "application/json";
  bcrypt_matches hash password := bool_decide (hash = password);
  id_claims _ := None;
  parse_rfc3339 _ := None;
  parse_duration _ := None;
  policy_set _ := Ok [];
  policy_problem _ := None;
  policy_line _ := 0;
  defaultPolicy := [];
  dataPlanePolicy := []
|}.

Definition sample_api : api :=
  mkApi "operator" (mkQuota "" 0 0 0) "example.com" "https" false 0 false true
    (Some (mkAuth true true (3600 * second) SignupModeInvite "" "" "" "" true)) [] ∅ None 0 true true true true true true true true true (Some ∅) "https://example.com".

(** ** The store *)
Definition ada : User := mkUser "usr_ada" "ada@example.com" "Ada" "correct horse" "" 0.
Definition ada_session : Session := mkSession "" "usr_ada" "org" "password" 100 1000.
Definition robot : ServiceAccount := mkServiceAccount "sa_1" "org" "robot" RoleMember "client" (Identity.HashToken "swordfish") false 0 0.
Definition membership (org user : string) : Membership :=
  mkMembership org user (if bool_decide (user = "usr_ada") then RoleAdmin else RoleMember) 0 None.

(** Finds nothing and succeeds otherwise. *)
Definition quiet (q : req) : answer q.
Proof.
  destruct q; try match goal with c : Identity.call |- _ => destruct c end;
    first [exact tt | exact (None : option goerr) | exact (None : option jv) | exact (Fail ErrNotFound) | exact true | exact 500 | exact []].
Defined.

Definition org_reply (q : req) : answer q :=
  match q as q return answer q with
  | Rand n => Ok (repeat "r"%char n)
  | GetSession hash => if bool_decide (hash = Identity.HashToken "cookie") then Ok ada_session else Fail ErrNotFound
  | GetUserByID id => if bool_decide (id = "usr_ada") then Ok ada else Fail ErrNotFound
  | GetUserByEmail email => if bool_decide (email = "ada@example.com") then Ok ada else Fail ErrNotFound
  | GetMembership org user => if bool_decide (org = "org") then Ok (membership org user) else Fail ErrNotFound
  | ListMembershipsByUser user => Ok [membership "org" user]
  | GetOrg id => Ok (mkOrg id "Engines" 0)
  | OrgAuthorizer _ => Ok (Authz.Decide.New [] "")
  | GetServiceAccountByClientID id => if bool_decide (id = "client") then Ok robot else Fail ErrNotFound
  | Ident (Identity.CIssue _) => Ok (Identity.mkIssued [] Sessions.zeroSession 0)
  | q => quiet q
  end.

Lemma org_reply_honest q : ApiScope.honest (ev q (org_reply q)).
Proof. destruct q; try done; cbn; by case_bool_decide. Qed.

Definition serving (rt : ApiRoutes.route) (r : request) : list event * option unit :=
  exec (fun _ => org_reply) (ApiRoutes.serve sample_api rt r) [].

Lemma exec_honest {A} (p : prog A) E : Forall ApiScope.honest (exec (fun _ => org_reply) p E).1.
Proof.
  revert E. induction p as [x|t|q k IH]; intros E; cbn [exec]; [constructor..|].
  specialize (IH (org_reply q) (E ++ [ev q (org_reply q)])). destruct (exec _ _ _) as [E' o]. constructor; [apply org_reply_honest|done].
Qed.

(** ** Requests *)
Definition a_request (method : string) (params : gmap string string) (posted : option (gmap string string)) : request :=
  mkRequest method "example.com" 2 (Some (mkReader (bytes_of "{}") EOF)) {["Content-Type" := "application/json"]} {[sessionCookie := "cookie"]} ∅ "" ""
    params posted None (ClientIP.mkRequest "192.0.2.1:4000" true [] "") noCaller.

Definition promotion : request := a_request "PATCH" {["user_id" := "usr_bob"]} None.
Definition members_route : ApiRoutes.route :=
  ApiRoutes.mkRoute "PATCH /api/v1/members/{user_id}" (ApiRoutes.Requires ActionMemberManage) (ApiPeople.updateMemberHandler sample_api).
Lemma members_routed : members_route ∈ ApiRoutes.routes sample_api.
Proof. apply (list_elem_of_lookup_2 _ 5). reflexivity. Qed.


Definition promoting : list event := (serving members_route promotion).1.
Definition promoted : req := DemoteOrRemoveMembershipKeepingOwner "org" "usr_bob" RoleAdmin false.



(** ** A login and a token *)
Definition login_route : ApiRoutes.route := ApiRoutes.mkRoute "POST /api/v1/auth/login" ApiRoutes.SameSite (ApiPeople.loginHandler sample_api).
Definition login : request := a_request "POST" ∅ None.
Definition logging : list event := (serving login_route login).1.
Definition logged_in : Session :=
  mkSession "496e63794a6e63794a6e63794a6e63794a6e63794a6e63794a6e63794a6e6379" "usr_ada" "org" "password" 500 3600000000500.


Definition token_route : ApiRoutes.route := ApiRoutes.mkRoute "POST /oauth2/token" ApiRoutes.Open_ (ApiOAuth.oauthTokenHandler sample_api).
Definition token_request : request :=
  a_request "POST" ∅ (Some {["grant_type" := "client_credentials"; "client_id" := "client"; "client_secret" := "swordfish"]}).
Definition issuing : list event := (serving token_route token_request).1.

End ApiSamples.
